(* ===== verification/_CoqProject ===== *)
-Q . S2P
Prelude.v
Config.v
Device.v
Allocator.v
Extent.v
Concrete.v
Streaming.v
Index.v
Superblock.v
Inner.v
InnerFacts.v
RawStore.v
StoreFacts.v
Flush.v
FormatFacts.v
Recovery.v
Changes.v
StoreTools.v
StoreMeta.v
ObjectStoreApi.v
Multipart.v
ApiFacts.v
StreamedWrites.v
MultipartFacts.v
GetFacts.v
Behaviour.v
History.v
Instances.v
Scenario.v
Guarantees.v
Reading.v
Integrity.v
Tlv.v
Catalog.v
JumpHash.v
Backend.v
Cluster.v
ClusterIo.v
ClusterFacts.v
ClusterOps.v
ClusterExamples.v
ClusterGuarantees.v
RawShard.v
RawCluster.v
ShardMeta.v
ShardMetaFacts.v
MetaGuarantees.v
ClusterAdmin.v
ClusterCopy.v
Repair.v
RepairFacts.v
RepairGuarantees.v
AdminGuarantees.v
UploadGuarantees.v
Text.v
Logging.v
Registry.v
HealthPoll.v
HealthPollGuarantees.v
Blocks.v
TreeConfig.v
TreeFacts.v
TreePrint.v
TreeGuarantees.v
ClusterConf.v
ConfGuarantees.v
StoreEnv.v
S3Keys.v
S3Backend.v
S3Adapter.v
S3Listing.v
S3Uploads.v
S3Requests.v
S3AdapterFacts.v
S3Examples.v
S3ListGuarantees.v
S3ObjectGuarantees.v
S3UploadGuarantees.v
S3RequestGuarantees.v
