(* ===== verification/Prelude.v ===== *)
(** * A verification development for objstr

    objstr stores objects (keys to byte strings) on raw block devices.  The
    crate [rawobjstr] is the storage engine, [shardedobjstr] distributes
    objects over several stores, [objstrd] is an S3 daemon on top.  This
    development models the storage engine, from the extent allocator to the
    [ObjectStore] interface, the sharded layer with its metadata routing,
    administration, repair and configuration, and of the daemon the S3 adapter,
    the background recovery, the configuration, the log and the registry; it
    proves what each part promises to the ones above.

    ** How the program works

    A device is: two superblock slots, two copies of 256 index shards, and a
    data area of 4096-byte blocks, each a CRC32c and 4092 bytes of data.  An
    open store keeps, behind one lock, the index (a map from keys to extents),
    the free list and the dirty flags of the shards ([Inner]).  A write
    allocates an extent, writes it and updates the in-memory index;
    [flush_index] writes the dirty shards to the slots not in use, syncs,
    then writes a superblock with the next transaction number.  Opening picks
    the newest intact superblock, loads the shards it names, drops entries
    that cannot be right, and rebuilds the free list.

    A cluster is a list of shards, each a store with a health, and a catalog
    from keys to the shards that hold them.  A put hashes the key to a home
    shard, writes to the next writable shards of the ring and asks that
    enough of them accept; a get tries the shards of the catalog's entry, or
    all of them in ring order when there is none; a delete first writes a
    marker [__deleted__/key] to every reachable shard.  Metadata goes where
    the kind of the shard keeps it: behind the body on a raw shard, in
    attributes on an S3-like one, in a sidecar [key.__meta__] elsewhere.
    Repair copies under-replicated objects, trims over-replicated ones,
    brings returning shards up to date and moves objects off a shard.

    The daemon reads a description of its machines and their shards, serves S3
    requests over one store or over the cluster, and polls the shards in the
    background: one that keeps failing is detached, one that is back is
    brought up to date, and the sweeps of the repair run in batches.  An S3 key
    is stored under [bucket/key] (a trailing slash as a marker component), its
    headers as the object's metadata; a listing groups, sorts and pages what
    the store lists; the parts of an upload wait in temporary files until it is
    completed.

    ** The files

    Prelude.v: integers, bytes, results, the state-and-error monad [SM],
    list and sorting lemmas.  The model of the code is then:
    - Config.v, [rawobjstr/src/lib.rs]: errors, constants, format options,
      compression settings;
    - Device.v, [io.rs]: files with their write log, handles, crash images;
    - Allocator.v, [allocator.rs]: the first-fit allocator;
    - Extent.v, [extent.rs]: block encoding, writers and readers;
    - Index.v, [index.rs]; Superblock.v, [superblock.rs]: the two durable
      structures and their codecs;
    - Inner.v, RawStore.v, StoreTools.v, StoreMeta.v, ObjectStoreApi.v,
      Multipart.v, all of [store.rs]: in order, the operations under the lock
      (68-435); format, open, flush, reload (679-1526); reports, repair and
      maintenance (500-676, 1577-2041); objects with metadata (2170-2604); the
      [ObjectStore] trait (2608-3130); multipart uploads (3143-3463);
    - Tlv.v, [shardedobjstr/src/tlv.rs]: the encoding of object metadata;
    - Catalog.v, [shardedobjstr/src/catalog.rs]: the placement catalog;
    - JumpHash.v, [shardedobjstr/src/replication.rs]: the placement hash;
    - Backend.v: the interface of a shard, operations and laws as classes, and
      [chrono]'s timestamps, as the delete markers have them;
    - RawShard.v: the raw store as an instance of that interface;
    - Cluster.v, ClusterIo.v, ClusterAdmin.v, ClusterCopy.v, all of
      [shardedobjstr/src/lib.rs]: in order, shards, health and placement;
      writing, reading, deleting and the [ObjectStore] calls; catalog rebuild
      (1439-1724), replication of one object, verification, the upload
      registry (719-831, 982-1135, 1833-2034, 2067-2390); copies and multipart
      uploads (3013-3098, 3251-3546);
    - ShardMeta.v, [shardedobjstr/src/metadata.rs]: the routing of metadata
      by shard kind;
    - Repair.v, [shardedobjstr/src/repair.rs]: sync of a returning shard,
      the sweeps and their plan, draining, redistribution;
    - Text.v: Rust's [str] operations; Blocks.v: the recursive parser of
      indented blocks both configurations share;
    - ClusterConf.v, [shardedobjstr/src/config.rs]: the flat and the tree
      format of the library, and the choice between them;
    - TreeConfig.v and StoreEnv.v, [objstrd/src/config.rs]: the daemon's tree
      format and its validation (115-1317), and the stores from environment
      variables or a JSON file;
    - Logging.v, [objstrd/src/logging.rs]; Registry.v,
      [objstrd/src/registry.rs]; HealthPoll.v, [objstrd/src/recovery.rs] and
      the status of a poll in [repair.rs];
    - S3Keys.v, S3Backend.v, S3Adapter.v, S3Listing.v, S3Uploads.v, all of
      [objstrd/src/adapter.rs]: in order, keys, metadata and errors (188-228,
      451-554); the store or cluster behind the adapter (57-171); its state and
      the bucket and object requests (237-446, 560-1585, 2488-2542); listings
      (1589-1943, 2544-2644); multipart uploads (1947-2484).  S3Requests.v
      names the requests and runs histories of them.
    The facts are in Streaming.v (readers and writers), InnerFacts.v
    (the invariant of an open store), StoreFacts.v, Flush.v, FormatFacts.v,
    Recovery.v (durability), Changes.v, ApiFacts.v, StreamedWrites.v,
    MultipartFacts.v, GetFacts.v (the public operations), Behaviour.v and
    History.v (the store as a transition system), ClusterFacts.v and
    ClusterOps.v (the cluster; placement in Cluster.v), ShardMetaFacts.v and
    RepairFacts.v (metadata and repair), TreeFacts.v and TreePrint.v (the tree
    configuration, and a printer of it), S3AdapterFacts.v (what the adapter
    needs of a raw store, as a class the engine satisfies, and its calls over
    one); those of texts, keys and background recovery stand with their
    definitions or their guarantees.  Concrete.v, Instances.v and Scenario.v
    build functions for every parameter, with their laws, and an example store;
    ClusterExamples.v example clusters over an in-memory backend, S3Examples.v
    that backend under the adapter.  The properties are stated in
    Guarantees.v, Reading.v, Integrity.v, Allocator.v, Streaming.v, Tlv.v,
    Catalog.v, JumpHash.v, S3Keys.v, ClusterGuarantees.v, RawCluster.v,
    MetaGuarantees.v, RepairGuarantees.v, AdminGuarantees.v,
    UploadGuarantees.v, HealthPollGuarantees.v, TreeGuarantees.v,
    ConfGuarantees.v and the S3 files that end in Guarantees.v.

    ** State and effects

    A machine integer is a [Z]; where the code can wrap, the wrap is written
    out.  A [HashMap] is a [gmap], and where the code iterates over one the
    order is the parameter [HashMapOrder].  Code on [&mut self] is [SM S E A],
    a function from the state to the state reached and [Ok], [Err] or
    [Panic]: an early return keeps what was already changed.  A [DiskFile]
    holds its bytes and the log of writes and syncs since some image, so that
    [crash_image] can say what a power failure leaves: everything synced, and
    of each 4096-byte sector what some prefix of the later writes made of it.
    The operating system's choices (which call fails and how much of it
    happened, buffer alignment) are the record [IoEnv]; every theorem holds for all of them.  A theorem about crashes
    assumes [sector_atomic]: a write that fails reached the file in whole
    sectors.  A store behind an [Arc] is an address of the cluster's heap;
    the calls of a fan-out act on distinct shards and run in order.  What a
    cycle of the poll or an S3 request meets of the outside (clocks, devices,
    probes, temporary files) is a record of inputs, [World] or [Env]; kept
    temporary files are a map from names to contents in the adapter's state.

    ** What is shown

    - Refinement (Guarantees.v): [run] executes one public call, [spec] is its
      meaning on a map from keys to bodies and metadata.  Every call on a
      well-formed store refines its meaning, keeps the store well-formed and
      changes nothing when it fails.  A history of calls is a relation of
      History.v, [calls] for any results and [trace] when every flush
      succeeds; both refine the same history of the map from a fresh device,
      and a flush that failed leaves the store [working] but its committed
      image unknown.
    - Durability (Guarantees.v): a flush commits the whole index or nothing;
      what was flushed is read back after later calls, flushes that succeed
      among them, and a power cut between or inside calls ([power_cut]), but
      for the reserved keys of multipart parts; calls after a failed flush
      are outside.  When nothing is dirty a restart reads the index in
      memory, and a power cut loses nothing.
    - Space (Allocator.v, Guarantees.v): the free list and the live extents
      tile the data area; in any history extents never share a byte; a put
      succeeds when a region fits and the device works.
    - Reading (Reading.v, Streaming.v): full, ranged and metadata reads return
      exactly what was stored; the streaming writers and readers agree with
      the reference encoder for any chunking; corruption is reported.
    - Formats, types and errors (Integrity.v): the durable structures round
      trip and are checked; the entries of the index give the true sizes and
      CRC of their objects, in their types; each writing call fails only for
      the reasons listed; loops are bounded.
    - The sharded layer: metadata survives its encoding (Tlv.v); a catalog
      save is all or nothing, and stripping a shard is exact (Catalog.v); the
      hash moves keys only to a new shard (JumpHash.v); a put meets its
      quorum and is read back whatever happens to other keys, a delete leaves
      the object gone where it worked (ClusterGuarantees.v).  Over raw devices
      what a put placed survives a flush of each device, later calls on
      other keys and a power cut (RawCluster.v).
    - Metadata and maintenance: an object's metadata is placed with it and
      read back from any replica where the shards keep it as it is
      (MetaGuarantees.v); a rebuilt catalog lists
      exactly what the shards have (AdminGuarantees.v); an upload meets its
      quorum (UploadGuarantees.v); the sweeps never lose a replica an object
      needs, and their loops, as runs without fuel ([repair_runs],
      [trim_runs]), end (RepairGuarantees.v).  Histories these parts get wrong
      are proved as lemmas beside them.
    - Background recovery: a shard is detached only after as many failures
      in service as the threshold asks for, no success in service between, a cycle keeps every object's replicas, and the
      periodic repair ends (HealthPollGuarantees.v).
    - Configuration: both parsers answer on every text; the daemon's reads back
      what is printed, and the library reads the canonical text of a tree of
      the common subset as the same tree; the validation reports an error when
      a rule is broken, and only then where no host is an IPv6 address
      (TreeGuarantees.v, ConfGuarantees.v).
    - S3: a get answers the body put, or the range of it, and the headers but
      [expires] (S3ObjectGuarantees.v); keys of path components survive the
      store (S3Keys.v); the pages of a listing hold every
      object and group exactly once (S3ListGuarantees.v); the parts of the
      uploads are backed by their files in every history, and completing joins
      them (S3UploadGuarantees.v); a request for an unknown bucket or a bad key
      is refused and changes nothing, but for the handlers that skip the
      check, and a batch delete is exact (S3RequestGuarantees.v).

    ** Parameters, bounds and fuel

    Third-party code is a class with its documented laws: [Crc32c], [Codecs]
    and [StreamDecoder] (zstd, snappy, gzip), [BincodeShard] and
    [BincodeSuperblock], [ObjectPath], [TempFiles], [CatalogCodec], [Chrono],
    [ObjectBackend] and [RawBackendLaws], [Md5], [UploadOrder], [GetRequest]
    and [ServedStoreLaws] (S3AdapterFacts.v), [DateText]; an open file is the record
    [OpenFile], a temporary one [Spool].  Lower-case letters beyond ASCII, the
    JSON parser and the file system are arguments of the configuration files'
    definitions, truncation to seconds and the texts HTTP takes as headers
    arguments of the S3 handlers.  Each law is proved of a concrete instance in Concrete.v,
    Instances.v, Catalog.v, ClusterExamples.v or S3Examples.v.  Loops that are not structural take fuel computed from their
    input, one iteration per block, chunk, batch or byte: [put_chunks] and
    [copy_batches] as many as the started chunks, [decode_loop] as many as the
    bytes, [jump_loop] as many as the buckets, the stream polls as many as the
    blocks and one, [repair_one] as many as the shards, [trim_one] as many as
    the replicas; the parsers of blocks twice the lines and one, the periodic
    repair as many batches as replicas are missing, and a client that follows
    tokens as many pages as there are items and one.  The termination theorems
    say that this is enough.  The loop
    of [redistribute_sweep] has no bound in the code, so its fuel is an
    argument and its result an option.

    ** Not modelled

    [import_from], [export_to] and [Drop] of [store.rs] (loops over a second
    store, and a warning); the event sockets, command-line tools and
    Python bindings (I/O around the library); the daemon's pages ([viz.rs]) and
    its process ([bin/server.rs]): HTML and JSON texts, HTTP, signals and the
    wiring of the modelled parts; a concurrent writer between the
    lock's release and a stream's poll (the polls take the device as it is at
    that moment; the theorems on reads assume nobody wrote the extent); calls
    on a cluster, or S3 requests, that interleave; [validate_shard_access] (a
    probe of directories), and the LIST of [probe_store] within its timeout,
    whose answer is an input; what s3s does with a request before a handler.

    ** Plan

    Next: [import_from] and [export_to] of [store.rs] over the shard interface,
    then the texts and endpoints of [viz.rs]. *)

From Corelib Require Export ssreflect.
From stdpp Require Export prelude gmap strings sorting pretty.
From Stdlib Require Strings.Byte.

#[global] Set Default Goal Selector "!".
#[global] Set Warnings "-rewrite-rw".
#[global] Open Scope general_if_scope.
#[global] Set SsrOldRewriteGoalsOrder.

(** ** Notations of the development *)

Declare Scope objstr_scope.
Delimit Scope objstr_scope with objstr.
#[global] Open Scope Z_scope.

(** ** Machine integers

    [u64], [usize], [u32], [u16] and [u8] values are [Z]; operations that can
    overflow write their wrap-around out (the release profile of the crates
    leaves [overflow-checks] off, so [+], [-] and [*] wrap). *)

Definition two64 : Z := 2 ^ 64.
Definition u64_max : Z := two64 - 1.
Definition u32_max : Z := 2 ^ 32 - 1.
Definition u16_max : Z := 2 ^ 16 - 1.

Definition wrap64 (z : Z) : Z := z mod two64.
Definition wadd (a b : Z) : Z := wrap64 (a + b).
Definition wsub (a b : Z) : Z := wrap64 (a - b).
Definition wmul (a b : Z) : Z := wrap64 (a * b).
Definition sat_add (a b : Z) : Z := Z.min (a + b) u64_max.
Definition sat_sub (a b : Z) : Z := Z.max (a - b) 0.
Definition checked_add (a b : Z) : option Z :=
  if a + b <? two64 then Some (a + b) else None.
Definition checked_mul (a b : Z) : option Z :=
  if a * b <? two64 then Some (a * b) else None.
Definition as_u32 (z : Z) : Z := z mod 2 ^ 32.
Definition as_u16 (z : Z) : Z := z mod 2 ^ 16.
Definition wsum (l : list Z) : Z := foldr wadd 0 l.

Infix "+!" := wadd (at level 50, left associativity) : objstr_scope.
Infix "-!" := wsub (at level 50, left associativity) : objstr_scope.
Infix "*!" := wmul (at level 40, left associativity) : objstr_scope.
#[global] Open Scope objstr_scope.

Definition is_u64 (z : Z) : Prop := 0 <= z < two64.

Lemma wrap64_small z : is_u64 z → wrap64 z = z.
Proof. intros. by apply Z.mod_small. Qed.

Lemma wadd_small a b : is_u64 (a + b) → a +! b = a + b.
Proof. apply wrap64_small. Qed.
Lemma wsub_small a b : is_u64 (a - b) → a -! b = a - b.
Proof. apply wrap64_small. Qed.
Lemma wmul_small a b : is_u64 (a * b) → a *! b = a * b.
Proof. apply wrap64_small. Qed.

Lemma wrap64_u64 z : is_u64 (wrap64 z).
Proof. by apply Z.mod_pos_bound. Qed.

Lemma wsum_small l :
  Forall (λ z, 0 <= z) l → foldr Z.add 0 l < two64 →
  wsum l = foldr Z.add 0 l ∧ 0 <= foldr Z.add 0 l.
Proof.
  induction 1 as [|x l Hx Hl IH]; intros Hb; simpl in *.
  - by rewrite /two64.
  - assert (0 <= foldr Z.add 0 l) by (clear -Hl; induction Hl; simpl; lia).
    destruct IH as [-> ?]; [lia|].
    rewrite wadd_small; [lia|]. rewrite /is_u64. unfold two64 in *. lia.
Qed.

Ltac u64 := unfold is_u64, u64_max, two64, sat_add, sat_sub in *; lia.

(** ** Results

    [Ok] and [Err] are Rust's [Result]; [Panic] is a panic (a failed assert,
    a slice out of range) or, for the functions written with fuel, running
    out of it: the theorems that a call succeeds rule both out. *)

Inductive Res (E A : Type) : Type :=
| Ok (a : A)
| Err (e : E)
| Panic.
Arguments Ok {E A} a.
Arguments Err {E A} e.
Arguments Panic {E A}.

#[export] Instance Res_ret E : MRet (Res E) := λ A a, Ok a.
#[export] Instance Res_bind E : MBind (Res E) := λ A B f m,
  match m with Ok a => f a | Err e => Err e | Panic => Panic end.
#[export] Instance Res_fmap E : FMap (Res E) := λ A B f m,
  match m with Ok a => Ok (f a) | Err e => Err e | Panic => Panic end.

Definition map_err {E F A} (f : E → F) (m : Res E A) : Res F A :=
  match m with Ok a => Ok a | Err e => Err (f e) | Panic => Panic end.
Definition ok_or {E A} (o : option A) (e : E) : Res E A :=
  match o with Some a => Ok a | None => Err e end.
Definition is_ok {E A} (m : Res E A) : bool :=
  match m with Ok _ => true | _ => false end.

(** ** Stateful fallible code

    [SM S E A] is code that runs on a mutable [S] and can return early with
    an error: the state reached is kept on every outcome, as it is for a
    Rust method on [&mut self]. *)

Definition SM (S E A : Type) : Type := S → S * Res E A.

Section SM.
Context {S E : Type}.

Definition sm_ret {A} (a : A) : SM S E A := λ s, (s, Ok a).
Definition sm_err {A} (e : E) : SM S E A := λ s, (s, Err e).
Definition sm_panic {A} : SM S E A := λ s, (s, Panic).
Definition sm_bind {A B} (m : SM S E A) (k : A → SM S E B) : SM S E B := λ s,
  match m s with
  | (s', Ok a) => k a s'
  | (s', Err e) => (s', Err e)
  | (s', Panic) => (s', Panic)
  end.
Definition sm_get : SM S E S := λ s, (s, Ok s).
Definition sm_modify (f : S → S) : SM S E unit := λ s, (f s, Ok tt).
Definition sm_lift {A} (r : Res E A) : SM S E A := λ s, (s, r).
(** [if let Err(e) = m { cleanup; return Err(e) }] *)
Definition sm_on_err {A} (m : SM S E A) (cleanup : S → S) : SM S E A := λ s,
  match m s with
  | (s', Err e) => (cleanup s', Err e)
  | r => r
  end.
End SM.

(** Run code on a component of the state. *)
Definition sm_zoom {S T E A} (get : S → T) (set : T → S → S) (m : SM T E A) :
    SM S E A := λ s,
  let '(t, r) := m (get s) in (set t s, r).

Notation "x <- m ;; k" := (sm_bind m (λ x, k))
  (at level 100, m at next level, right associativity) : objstr_scope.
Notation "m ;;; k" := (sm_bind m (λ _, k))
  (at level 100, right associativity) : objstr_scope.

Section SM_facts.
Context {S E : Type}.

Lemma sm_bind_ok {A B} (m : SM S E A) (k : A → SM S E B) s s' b :
  sm_bind m k s = (s', Ok b) ↔
  ∃ s1 a, m s = (s1, Ok a) ∧ k a s1 = (s', Ok b).
Proof.
  rewrite /sm_bind. destruct (m s) as [s1 [a|e|]]; split; eauto; try done.
  all: by intros (? & ? & [= <- <-] & ?).
Qed.

Lemma sm_bind_run {A B} (m : SM S E A) (k : A → SM S E B) s s1 a :
  m s = (s1, Ok a) → sm_bind m k s = k a s1.
Proof. rewrite /sm_bind. by intros ->. Qed.

Lemma sm_bind_err {A B} (m : SM S E A) (k : A → SM S E B) s s' e :
  sm_bind m k s = (s', Err e) ↔
  m s = (s', Err e) ∨
  ∃ s1 a, m s = (s1, Ok a) ∧ k a s1 = (s', Err e).
Proof.
  rewrite /sm_bind. destruct (m s) as [s1 [a|e'|]]; split; try (by eauto).
  all: intros H; try destruct H as [?|(? & ? & ? & ?)]; simplify_eq; by eauto.
Qed.
End SM_facts.

(** ** Slices of lists, indexed by [Z] as the code indexes by [usize] *)

Section slices.
Context {A : Type}.
Implicit Types l : list A.

Definition zlen l : Z := Z.of_nat (length l).
Definition ztake (n : Z) l : list A := take (Z.to_nat n) l.
Definition zdrop (n : Z) l : list A := drop (Z.to_nat n) l.
(** [&l[a..b]]: [None] is the slice-index panic. *)
Definition slice (a b : Z) l : option (list A) :=
  if (0 <=? a) && (a <=? b) && (b <=? zlen l)
  then Some (ztake (b - a) (zdrop a l)) else None.

Lemma zlen_nonneg l : 0 <= zlen l.
Proof. rewrite /zlen. lia. Qed.
Lemma zlen_nil : zlen (@nil A) = 0.
Proof. done. Qed.
Lemma zlen_cons x l : zlen (x :: l) = 1 + zlen l.
Proof. rewrite /zlen /=. lia. Qed.
Lemma zlen_app l k : zlen (l ++ k) = zlen l + zlen k.
Proof. rewrite /zlen length_app. lia. Qed.
Lemma zlen_replicate n (x : A) : 0 <= n → zlen (replicate (Z.to_nat n) x) = n.
Proof. rewrite /zlen length_replicate. lia. Qed.
Lemma zlen_ztake n l : 0 <= n → zlen (ztake n l) = Z.min n (zlen l).
Proof. rewrite /zlen /ztake length_take. lia. Qed.
Lemma zlen_zdrop n l : 0 <= n → zlen (zdrop n l) = Z.max 0 (zlen l - n).
Proof. rewrite /zlen /zdrop length_drop. lia. Qed.
Lemma zlen_zero_nil l : zlen l = 0 → l = [].
Proof. rewrite /zlen. destruct l; simpl; [done|lia]. Qed.

Lemma ztake_zdrop n l : ztake n l ++ zdrop n l = l.
Proof. apply take_drop. Qed.
Lemma ztake_ge n l : zlen l <= n → ztake n l = l.
Proof. rewrite /zlen /ztake. intros. apply take_ge. lia. Qed.
Lemma zdrop_ge n l : zlen l <= n → zdrop n l = [].
Proof. rewrite /zlen /zdrop. intros. apply drop_ge. lia. Qed.
Lemma ztake_0 l : ztake 0 l = [].
Proof. done. Qed.
Lemma zdrop_0 l : zdrop 0 l = l.
Proof. done. Qed.
Lemma ztake_app_exact n l k : zlen l = n → ztake n (l ++ k) = l.
Proof. rewrite /zlen /ztake. intros. apply take_app_length'. lia. Qed.
Lemma zdrop_app_exact n l k : zlen l = n → zdrop n (l ++ k) = k.
Proof. rewrite /zlen /zdrop. intros. apply drop_app_length'. lia. Qed.
Lemma zdrop_zdrop a b l : 0 <= a → 0 <= b → zdrop a (zdrop b l) = zdrop (b + a) l.
Proof. rewrite /zdrop. intros. rewrite drop_drop. f_equal. lia. Qed.
Lemma zdrop_zdrop_add a b l : 0 <= a → 0 <= b → zdrop b (zdrop a l) = zdrop (a + b) l.
Proof. apply (λ Ha Hb, zdrop_zdrop b a l Hb Ha). Qed.
Lemma ztake_ztake a b l : ztake a (ztake b l) = ztake (Z.min a b) l.
Proof. rewrite /ztake. rewrite take_take. f_equal. lia. Qed.
Lemma ztake_app_le n l k : n <= zlen l → ztake n (l ++ k) = ztake n l.
Proof. rewrite /zlen /ztake. intros. apply take_app_le. lia. Qed.
Lemma zdrop_app_le n l k : n <= zlen l → zdrop n (l ++ k) = zdrop n l ++ k.
Proof. rewrite /zlen /zdrop. intros. apply drop_app_le. lia. Qed.
Lemma ztake_add n m l : 0 <= n → 0 <= m →
  ztake (n + m) l = ztake n l ++ ztake m (zdrop n l).
Proof.
  rewrite /ztake /zdrop. intros. rewrite Z2Nat.inj_add; [|lia..].
  by rewrite take_take_drop.
Qed.
Lemma slice_some a b l :
  0 <= a → a <= b → b <= zlen l → slice a b l = Some (ztake (b - a) (zdrop a l)).
Proof.
  intros. rewrite /slice. by rewrite !(proj2 (Z.leb_le _ _)).
Qed.
End slices.

(** ** [sort_by_key]

    Rust's sort is stable, so its result is the one of any stable sort:
    insertion sort, which is stable because an element goes in front of the
    equal ones already placed. *)

Section stable_sort.
Context {A : Type} (key : A → Z).
Implicit Types l : list A.

Fixpoint insert_by (x : A) l : list A :=
  match l with
  | [] => [x]
  | y :: l' => if key x <=? key y then x :: l else y :: insert_by x l'
  end.
Definition sort_by_key l : list A := foldr insert_by [] l.

Definition key_le (x y : A) : Prop := key x <= key y.

Lemma insert_by_perm x l : insert_by x l ≡ₚ x :: l.
Proof.
  induction l as [|y l IH]; simpl; [done|]. case_match; [done|].
  rewrite IH. apply Permutation_swap.
Qed.

Lemma sort_by_key_perm l : sort_by_key l ≡ₚ l.
Proof. induction l as [|x l IH]; simpl; [done|]. by rewrite insert_by_perm IH. Qed.

Lemma insert_by_sorted x l : StronglySorted key_le l → StronglySorted key_le (insert_by x l).
Proof.
  induction 1 as [|y l Hs IH Hy]; simpl; [by repeat constructor|].
  case_match eqn:E.
  - apply Z.leb_le in E. constructor; [by constructor|].
    constructor; [done|]. eapply Forall_impl; [exact Hy|].
    rewrite /key_le. intros. simpl in *. lia.
  - apply Z.leb_gt in E. constructor; [done|].
    rewrite insert_by_perm. constructor; [|done]. rewrite /key_le. lia.
Qed.

Lemma sort_by_key_sorted l : StronglySorted key_le (sort_by_key l).
Proof. induction l; simpl; [constructor|]. by apply insert_by_sorted. Qed.

Lemma sort_by_key_elem x l : x ∈ sort_by_key l ↔ x ∈ l.
Proof. by rewrite sort_by_key_perm. Qed.

Lemma sort_by_key_id l : StronglySorted key_le l → sort_by_key l = l.
Proof.
  induction 1 as [|y l Hs IH Hy]; simpl; [done|]. rewrite IH.
  destruct Hy as [|z l Hz _]; simpl; [done|].
  by rewrite (proj2 (Z.leb_le _ _) Hz).
Qed.
End stable_sort.

Section filter.
Context {A : Type} (P : A → Prop) `{∀ x, Decision (P x)}.
Implicit Types l : list A.

Lemma filter_all l : Forall P l → filter P l = l.
Proof.
  induction 1 as [|x l Hx Hl IH]; [done|]. by rewrite filter_cons_True // IH.
Qed.

Lemma filter_none l : Forall (λ x, ¬ P x) l → filter P l = [].
Proof. induction 1 as [|x l Hx Hl IH]; [done|]. by rewrite filter_cons_False. Qed.

Lemma filter_sorted (key : A → Z) l :
  StronglySorted (key_le key) l → StronglySorted (key_le key) (filter P l).
Proof.
  induction 1 as [|x l Hs IH Hx]; [constructor|].
  rewrite filter_cons. case_decide; [|done]. constructor; [done|].
  apply Forall_forall. intros y [_ Hy]%list_elem_of_filter.
  rewrite Forall_forall in Hx. by apply Hx.
Qed.
End filter.

(** ** Bytes *)

Abbreviation byte := (Init.Byte.byte).

#[export] Instance byte_inhabited : Inhabited byte := populate Byte.x00.
#[export] Instance byte_eq_dec : EqDecision byte := Byte.byte_eq_dec.

Definition byte_to_Z (b : byte) : Z := Z.of_N (Byte.to_N b).
Definition byte_of_Z (z : Z) : byte := default Byte.x00 (Byte.of_N (Z.to_N (z mod 256))).

(** [x.to_le_bytes()] of an [n]-byte integer, and [from_le_bytes]. *)
Fixpoint to_le_bytes (n : nat) (z : Z) : list byte :=
  match n with
  | O => []
  | S n' => byte_of_Z z :: to_le_bytes n' (z / 256)
  end.
Fixpoint from_le_bytes (l : list byte) : Z :=
  match l with
  | [] => 0
  | b :: l' => byte_to_Z b + 256 * from_le_bytes l'
  end.
Definition as_bytes (s : string) : list byte := String.list_byte_of_string s.

(** [s.contains(t)] and [s.ends_with(t)] *)
Fixpoint str_contains (t s : string) : bool :=
  String.prefix t s || match s with EmptyString => false | String _ s' => str_contains t s' end.
Definition ends_with (t s : string) : bool :=
  bool_decide (String.length t <= String.length s)%nat &&
  bool_decide (String.substring (String.length s - String.length t) (String.length t) s = t).

Lemma prefix_app t s : String.prefix t (t +:+ s) = true.
Proof.
  induction t as [|a t IH]; [by destruct s|]. rewrite /= IH. by destruct (Ascii.ascii_dec a a).
Qed.

Lemma byte_to_Z_bound b : 0 <= byte_to_Z b < 256.
Proof. destruct b; rewrite /byte_to_Z /=; lia. Qed.

Lemma byte_of_to_Z b : byte_of_Z (byte_to_Z b) = b.
Proof. by destruct b. Qed.

Lemma byte_to_of_Z z : byte_to_Z (byte_of_Z z) = z mod 256.
Proof.
  rewrite /byte_of_Z /byte_to_Z. pose proof (Z.mod_pos_bound z 256 ltac:(lia)).
  destruct (Byte.of_N (Z.to_N (z mod 256))) as [b|] eqn:E; simpl.
  - apply Byte.to_of_N in E. rewrite E. lia.
  - apply Byte.of_N_None_iff in E. lia.
Qed.

Lemma to_le_bytes_length n z : length (to_le_bytes n z) = n.
Proof. revert z. induction n; intros; simpl; auto. Qed.

Lemma to_le_bytes_zlen n z : zlen (to_le_bytes n z) = Z.of_nat n.
Proof. by rewrite /zlen to_le_bytes_length. Qed.

Lemma from_to_le_bytes n z :
  0 <= z < 2 ^ (Z.of_nat n * 8) → from_le_bytes (to_le_bytes n z) = z.
Proof.
  revert z. induction n as [|n IH]; intros z Hz; simpl; [simpl in Hz; lia|].
  rewrite byte_to_of_Z IH.
  - pose proof (Z.div_mod z 256). lia.
  - split; [apply Z.div_pos; lia|]. apply Z.div_lt_upper_bound; [lia|].
    replace (Z.of_nat (S n) * 8) with (8 + Z.of_nat n * 8) in Hz by lia.
    rewrite Z.pow_add_r in Hz; lia.
Qed.

Lemma to_from_le_bytes l : to_le_bytes (length l) (from_le_bytes l) = l.
Proof.
  induction l as [|b l IH]; simpl; [done|].
  pose proof (byte_to_Z_bound b). f_equal.
  - rewrite -{2}(byte_of_to_Z b) /byte_of_Z.
    rewrite (Z.mul_comm 256) Z_mod_plus_full. done.
  - by rewrite (Z.mul_comm 256) Z.div_add // Z.div_small // Z.add_0_l.
Qed.

Lemma from_le_bytes_bound l : 0 <= from_le_bytes l < 2 ^ (8 * zlen l).
Proof.
  induction l as [|b l IH]; [done|].
  pose proof (byte_to_Z_bound b). rewrite zlen_cons. simpl from_le_bytes.
  replace (8 * (1 + zlen l)) with (8 + 8 * zlen l) by lia.
  pose proof (zlen_nonneg l). rewrite Z.pow_add_r; lia.
Qed.

(** ** Byte intervals

    [covers (o, s) i]: byte [i] lies in the region of [s] bytes at [o]. *)

Definition covers (r : Z * Z) (i : Z) : Prop := r.1 <= i < r.1 + r.2.
Definition disjoint_regions (r1 r2 : Z * Z) : Prop :=
  ∀ i, covers r1 i → covers r2 i → False.

#[export] Instance covers_dec r i : Decision (covers r i).
Proof. rewrite /covers. apply _. Defined.

#[export] Instance disjoint_regions_sym : Symmetric disjoint_regions.
Proof. rewrite /disjoint_regions. intros r1 r2 Hd i H1 H2. eauto. Qed.

Lemma disjoint_regions_iff r1 r2 :
  0 < r1.2 → 0 < r2.2 →
  disjoint_regions r1 r2 ↔ r1.1 + r1.2 <= r2.1 ∨ r2.1 + r2.2 <= r1.1.
Proof.
  destruct r1 as [o1 s1], r2 as [o2 s2]. rewrite /disjoint_regions /covers /=.
  intros. split.
  - intros Hd. pose proof (Hd (Z.max o1 o2)). lia.
  - lia.
Qed.

Create HintDb objstr discriminated.
#[export] Hint Resolve zlen_nonneg : objstr.
Create Rewrite HintDb zlen.
#[export] Hint Rewrite @zlen_nil @zlen_cons @zlen_app to_le_bytes_zlen : zlen.

(** ** Removing a list of keys *)

Lemma foldl_delete_lookup {A} (keys : list string) (m : gmap string A) k :
  foldl (λ m k, delete k m) m keys !! k = if decide (k ∈ keys) then None else m !! k.
Proof.
  revert m. induction keys as [|k' keys IH]; intros m; [done|]. simpl. rewrite IH.
  destruct (decide (k ∈ keys)) as [?|Hn]; [rewrite decide_True //; by right|].
  destruct (decide (k = k')) as [->|Hne].
  - rewrite decide_True ?lookup_delete_eq //. by left.
  - rewrite lookup_delete_ne // decide_False // !elem_of_cons. tauto.
Qed.
