(* ===== verification/Config.v ===== *)
(** * Constants, errors and device options ([rawobjstr/src/lib.rs])

    The error type every operation of the raw store returns, the layout
    constants, the validators of the format options and the compression
    algorithms.  The codecs themselves (zstd, snappy, gzip) are external
    crates: the class [Codecs] names what the code calls, and [CodecLaws] the
    one behaviour it relies on, that decompression inverts compression. *)

From S2P Require Import Prelude.

(** ** Errors *)

(** [std::io::ErrorKind], the kinds the crate builds or can receive. *)
Inductive ErrorKind : Type :=
| InvalidData | InvalidInput | Other | Unsupported | UnexpectedEof | OsError.

(** [RawStoreError].  [Io] carries the kind and the fixed part of the message;
    [Bincode] is a serialisation failure of the bincode crate. *)
Inductive RawStoreError : Type :=
| NotFormatted
| SuperblockCorrupt
| IndexCorrupt
| DataCorruption (path : string) (expected actual : Z)
| ExtentInvalid (reason : string)
| NoSpace (needed available : Z)
| NotFound (path : string)
| AlreadyExists (path : string)
| DeviceTooSmall (size minimum : Z)
| InvalidIndexSlotSize (size : Z)
| KeyTooLong (len max : Z)
| ShardOverflow (shard size capacity : Z)
| MaxKeyLengthTooLarge (len max : Z)
| MetadataTooLarge (len max : Z)
| EmptyPayload
| ReadOnly
| WriteProtected
| DeviceLocked (path : string)
| InsufficientWrites (path : string) (required actual : Z)
| Io (kind : ErrorKind) (msg : string)
| Bincode.

#[export] Instance ErrorKind_eq_dec : EqDecision ErrorKind.
Proof. solve_decision. Defined.
#[export] Instance RawStoreError_eq_dec : EqDecision RawStoreError.
Proof. solve_decision. Defined.

(** ** Layout constants *)

Definition SUPERBLOCK_SIZE : Z := 4096.
Definition SUPERBLOCK_REGION : Z := SUPERBLOCK_SIZE * 2.
Definition DATA_START : Z := SUPERBLOCK_REGION.
Definition BLOCK_ALIGNMENT : Z := 4096.
Definition INDEX_REGION_SIZE : Z := 16 * 1024 * 1024.
Definition INDEX_TOTAL_SIZE : Z := INDEX_REGION_SIZE * 2.
Definition MIN_DEVICE_SIZE : Z := SUPERBLOCK_REGION + BLOCK_ALIGNMENT + INDEX_TOTAL_SIZE.
Definition SUPERBLOCK_MAGIC : list byte := as_bytes "RAWOBJST".
Definition NUM_SHARDS : Z := 256.
Definition FLAG_DIRECT_IO : Z := Z.shiftl 1 0.
Definition FLAG_WRITE_PROTECT : Z := Z.shiftl 1 1.
Definition MAX_KEY_LENGTH : Z := 1024.
Definition DEFAULT_MAX_KEY_LENGTH : Z := MAX_KEY_LENGTH.
Definition MAX_KEY_LENGTH_HARD_CEILING : Z := 65536.
Definition FLAG_KNOWN_MASK : Z := Z.lor FLAG_DIRECT_IO FLAG_WRITE_PROTECT.
Definition COMPRESSED_RANGE_READ_MAX : Z := 1024 * 1024 * 1024.

Definition min_device_size (index_slot_size : Z) : Z :=
  SUPERBLOCK_REGION + BLOCK_ALIGNMENT +! index_slot_size *! 2.

Definition validate_index_slot_size (slot_size : Z) : Res RawStoreError unit :=
  if (slot_size <? INDEX_REGION_SIZE) || negb (slot_size mod INDEX_REGION_SIZE =? 0)
  then Err (InvalidIndexSlotSize slot_size)
  else Ok tt.

(** [(value + alignment - 1) & !(alignment - 1)] on [u64]. *)
Definition align_up (value alignment : Z) : Z :=
  Z.land (value +! alignment -! 1) (u64_max - (alignment -! 1)).

(** ** Compression *)

Inductive Compression : Type :=
| CNone | Zstd | Snappy
| Gzip0 | Gzip1 | Gzip2 | Gzip3 | Gzip4 | Gzip5 | Gzip6 | Gzip7 | Gzip8 | Gzip9.

#[export] Instance Compression_eq_dec : EqDecision Compression.
Proof. solve_decision. Defined.

(** The discriminant: [self as u8]. *)
Definition compression_as_u8 (c : Compression) : Z :=
  match c with
  | CNone => 0 | Zstd => 1 | Snappy => 2
  | Gzip0 => 3 | Gzip1 => 4 | Gzip2 => 5 | Gzip3 => 6 | Gzip4 => 7
  | Gzip5 => 8 | Gzip6 => 9 | Gzip7 => 10 | Gzip8 => 11 | Gzip9 => 12
  end.

Definition from_u8 (v : Z) : Res RawStoreError Compression :=
  match v with
  | 0 => Ok CNone | 1 => Ok Zstd | 2 => Ok Snappy
  | 3 => Ok Gzip0 | 4 => Ok Gzip1 | 5 => Ok Gzip2 | 6 => Ok Gzip3 | 7 => Ok Gzip4
  | 8 => Ok Gzip5 | 9 => Ok Gzip6 | 10 => Ok Gzip7 | 11 => Ok Gzip8 | 12 => Ok Gzip9
  | _ => Err (Io InvalidData "unknown compression algorithm")
  end.

(** [to_ascii_lowercase]. *)
Definition ascii_lower (c : Ascii.ascii) : Ascii.ascii :=
  let n := Ascii.nat_of_ascii c in
  if ((65 <=? n) && (n <=? 90))%nat then Ascii.ascii_of_nat (n + 32) else c.
Fixpoint to_ascii_lowercase (s : string) : string :=
  match s with
  | EmptyString => EmptyString
  | String c s' => String (ascii_lower c) (to_ascii_lowercase s')
  end.

Definition as_str (c : Compression) : string :=
  match c with
  | CNone => "none" | Zstd => "zstd" | Snappy => "snappy"
  | Gzip0 => "gzip0" | Gzip1 => "gzip1" | Gzip2 => "gzip2" | Gzip3 => "gzip3"
  | Gzip4 => "gzip4" | Gzip5 => "gzip5" | Gzip6 => "gzip6" | Gzip7 => "gzip7"
  | Gzip8 => "gzip8" | Gzip9 => "gzip9"
  end.

Definition from_str_name (s : string) : Res RawStoreError Compression :=
  let s := to_ascii_lowercase s in
  if decide (s = "none") then Ok CNone
  else if decide (s = "zstd") then Ok Zstd
  else if decide (s = "snappy") then Ok Snappy
  else if decide (s = "gzip0") then Ok Gzip0
  else if decide (s = "gzip1") then Ok Gzip1
  else if decide (s = "gzip2") then Ok Gzip2
  else if decide (s = "gzip3") then Ok Gzip3
  else if decide (s = "gzip4") then Ok Gzip4
  else if decide (s = "gzip5") then Ok Gzip5
  else if decide (s = "gzip6") then Ok Gzip6
  else if decide (s = "gzip7") then Ok Gzip7
  else if decide (s = "gzip8") then Ok Gzip8
  else if decide (s = "gzip9") then Ok Gzip9
  else Err (Io InvalidData "unknown compression").

(** The external codecs.  [None] is the codec's error. The gzip functions
    take the level; [zstd_bulk] and [zstd_stream] take the level as well. *)
Class Codecs : Type := {
  zstd_bulk_compress : Z → list byte → option (list byte);
  zstd_stream_compress : Z → list (list byte) → option (list byte);
  zstd_decode_all : list byte → option (list byte);
  snap_compress_vec : list byte → option (list byte);
  snap_decompress_vec : list byte → option (list byte);
  gz_compress : Z → list (list byte) → option (list byte);
  gz_decode_all : list byte → option (list byte);
}.

(** The documented contract of the codecs: a decoder reads back what its
    encoder was fed, whether in one buffer or in successive writes. *)
Class CodecLaws `{Codecs} : Prop := {
  zstd_bulk_inv lvl d c : zstd_bulk_compress lvl d = Some c → zstd_decode_all c = Some d;
  zstd_stream_inv lvl ds c :
    zstd_stream_compress lvl ds = Some c → zstd_decode_all c = Some (concat ds);
  snap_inv d c : snap_compress_vec d = Some c → snap_decompress_vec c = Some d;
  gz_inv lvl ds c : gz_compress lvl ds = Some c → gz_decode_all c = Some (concat ds);
  (* every format has a header *)
  zstd_bulk_nonempty lvl d c : zstd_bulk_compress lvl d = Some c → c ≠ [];
  zstd_stream_nonempty lvl ds c : zstd_stream_compress lvl ds = Some c → c ≠ [];
  snap_nonempty d c : snap_compress_vec d = Some c → c ≠ [];
  gz_nonempty lvl ds c : gz_compress lvl ds = Some c → c ≠ [];
}.

Section compression.
Context `{Codecs}.

(** [Compression::compress]: a failing codec stores a copy of the input. *)
Definition compress (c : Compression) (data : list byte) : option (list byte) :=
  match c with
  | CNone => None
  | Zstd => Some (default data (zstd_bulk_compress 3 data))
  | Snappy => Some (default data (snap_compress_vec data))
  | _ =>
    let level := sat_sub (compression_as_u8 c) (compression_as_u8 Gzip0) in
    Some (default data (gz_compress level [data]))
  end.

Definition decompress (c : Compression) (data : list byte) : Res RawStoreError (list byte) :=
  match c with
  | CNone => Ok data
  | Zstd => ok_or (zstd_decode_all data) (Io InvalidData "zstd decompress failed")
  | Snappy => ok_or (snap_decompress_vec data) (Io InvalidData "snappy decompress failed")
  | _ => ok_or (gz_decode_all data) (Io InvalidData "gzip decompress failed")
  end.

(** A compressed form that is strictly shorter than the input really came
    from the codec, so it decompresses to the input. *)
Lemma compress_smaller_inv `{!CodecLaws} c d v :
  compress c d = Some v → zlen v < zlen d → decompress c v = Ok d ∧ v ≠ [].
Proof.
  intros Hc Hlen. destruct c; simpl in *; simplify_eq; simpl.
  all: match goal with
       | _ : context [zstd_bulk_compress ?l ?x] |- _ =>
         destruct (zstd_bulk_compress l x) as [w|] eqn:E
       | _ : context [snap_compress_vec ?x] |- _ =>
         destruct (snap_compress_vec x) as [w|] eqn:E
       | _ : context [gz_compress ?l ?x] |- _ =>
         destruct (gz_compress l x) as [w|] eqn:E
       end; simpl in *; [|lia].
  all: first
    [ split; [by rewrite (zstd_bulk_inv _ _ _ E)|by eapply zstd_bulk_nonempty]
    | split; [by rewrite (snap_inv _ _ E)|by eapply snap_nonempty]
    | split; [by rewrite (gz_inv _ _ _ E) /= app_nil_r|by eapply gz_nonempty] ].
Qed.
End compression.

(** ** Facts about alignment *)

Lemma align_up_spec v :
  0 <= v → v + 4096 < two64 →
  align_up v BLOCK_ALIGNMENT = (v + 4095) / 4096 * 4096.
Proof.
  intros Hv Hb. rewrite /align_up /BLOCK_ALIGNMENT.
  rewrite (wadd_small v 4096) ?wsub_small; [|u64..].
  replace (v + 4096 - 1) with (v + 4095) by lia.
  replace (u64_max - (4096 - 1)) with (Z.ldiff (Z.ones 64) (Z.ones 12)) by done.
  rewrite Z.ldiff_land Z.land_assoc (Z.land_ones _ 64); [|lia].
  rewrite Z.mod_small; [|u64].
  rewrite -Z.ldiff_land Z.ldiff_ones_r; [|lia].
  by rewrite Z.shiftl_mul_pow2 // Z.shiftr_div_pow2.
Qed.

Lemma align_up_bounds v :
  0 <= v → v + 4096 < two64 →
  v <= align_up v BLOCK_ALIGNMENT < v + 4096 ∧ align_up v BLOCK_ALIGNMENT mod 4096 = 0.
Proof.
  intros. rewrite align_up_spec //.
  split; [|by apply Z_mod_mult].
  pose proof (Z.div_mod (v + 4095) 4096). pose proof (Z.mod_pos_bound (v + 4095) 4096). lia.
Qed.

Lemma align_up_aligned v :
  0 <= v → v + 4096 < two64 → v mod 4096 = 0 → align_up v BLOCK_ALIGNMENT = v.
Proof.
  intros Hv Hb Hm. rewrite align_up_spec //.
  pose proof (Z.div_mod v 4096).
  replace (v + 4095) with (v / 4096 * 4096 + 4095) by lia.
  rewrite Z.div_add_l //. change (4095 / 4096) with 0. lia.
Qed.
