(* ===== verification/Device.v ===== *)
(** * Positional device I/O ([rawobjstr/src/io.rs])

    A device or image file is a [DiskFile]: its bytes, and the log of writes
    and [fsync]s that produced them from the bytes it had at first, for the
    crash model.  The
    operating system's part in a call - whether it fails, how much of a
    failing write reached the file, whether a caller's buffer happens to be
    4096-aligned - is the record [IoEnv], over which every theorem quantifies.
    [DeviceIo] is an open handle. *)

From S2P Require Import Prelude.
From S2P Require Import Config.

(** ** Byte stores *)

Fixpoint write_bytes (off : Z) (data : list byte) (m : gmap Z byte) : gmap Z byte :=
  match data with
  | [] => m
  | b :: data' => write_bytes (off + 1) data' (<[off := b]> m)
  end.

Definition byte_at (m : gmap Z byte) (i : Z) : byte := default Byte.x00 (m !! i).

Definition read_bytes (m : gmap Z byte) (off len : Z) : list byte :=
  byte_at m <$> seqZ off len.

(** ** Files, environments, handles *)

Record IoEnv : Type := mkIoEnv {
  open_fault : bool;
  (** does a read of [len] bytes at [off] fail *)
  rd_fault : Z → Z → bool;
  (** [Some k]: the write fails after its first [k] bytes reached the file *)
  wr_fault : Z → list byte → option Z;
  sync_fault : bool;
  (** is the caller's buffer 4096-aligned (the allocator's choice) *)
  ptr_aligned : Z → list byte → bool;
}.

(** The environment in which every call succeeds. *)
Definition ideal_env : IoEnv := {|
  open_fault := false; rd_fault := λ _ _, false; wr_fault := λ _ _, None;
  sync_fault := false; ptr_aligned := λ _ _, false |}.

Inductive DiskEvent : Type :=
| Write (off : Z) (data : list byte)
| Sync.

Record DiskFile : Type := mkDiskFile {
  content : gmap Z byte;
  base : gmap Z byte;
  log : list DiskEvent;
  file_size : Z;
  locked : bool;       (* another process holds the [flock] *)
  block_device : bool;
  env : IoEnv;
}.

Record DeviceIo : Type := mkDeviceIo {
  disk : DiskFile;
  direct : bool;
  io_read_only : bool;
}.

Definition with_disk (f : DiskFile) (d : DeviceIo) : DeviceIo :=
  mkDeviceIo f (direct d) (io_read_only d).

(** A write that reached the page cache: visible, not yet durable. *)
Definition file_write (off : Z) (data : list byte) (f : DiskFile) : DiskFile :=
  mkDiskFile (write_bytes off data (content f)) (base f)
    (log f ++ [Write off data]) (Z.max (file_size f) (off + zlen data))
    (locked f) (block_device f) (env f).

Definition file_sync (f : DiskFile) : DiskFile :=
  mkDiskFile (content f) (base f) (log f ++ [Sync]) (file_size f) (locked f) (block_device f) (env f).

Definition apply_event (m : gmap Z byte) (e : DiskEvent) : gmap Z byte :=
  match e with Write off data => write_bytes off data m | Sync => m end.
Definition apply_log (m : gmap Z byte) (l : list DiskEvent) : gmap Z byte := foldl apply_event m l.

(** ** Opening *)

Definition acquire_exclusive_lock (f : DiskFile) : Res RawStoreError unit :=
  if locked f then Err (DeviceLocked "path") else Ok tt.

Definition open_file (f : DiskFile) : Res RawStoreError DiskFile :=
  if open_fault (env f) then Err (Io OsError "open") else Ok f.

Definition dev_open (f : DiskFile) (direct : bool) : Res RawStoreError DeviceIo :=
  match open_file f with
  | Ok f => match acquire_exclusive_lock f with
            | Ok _ => Ok (mkDeviceIo f direct false)
            | Err e => Err e
            | Panic => Panic
            end
  | Err e => Err e
  | Panic => Panic
  end.

Definition dev_open_readonly (f : DiskFile) (direct : bool) : Res RawStoreError DeviceIo :=
  match open_file f with
  | Ok f => Ok (mkDeviceIo f direct true)
  | Err e => Err e
  | Panic => Panic
  end.

(** [DeviceIo::create]: a block device is only opened; a regular file is
    truncated and extended to [size] zero bytes first, also when the lock is
    then refused. *)
Definition dev_create (f : DiskFile) (size : Z) (direct : bool) : DiskFile * Res RawStoreError DeviceIo :=
  if block_device f then (f, dev_open f direct)
  else match open_file f with
       | Ok f =>
         let f := mkDiskFile ∅ ∅ [] size (locked f) (block_device f) (env f) in (f, dev_open f direct)
       | Err e => (f, Err e)
       | Panic => (f, Panic)
       end.

(** ** Reads and writes *)

(** [align_len]: panics on overflow. *)
Definition align_len (n : Z) : option Z :=
  match checked_add n (BLOCK_ALIGNMENT - 1) with
  | Some v => Some (Z.land v (u64_max - (BLOCK_ALIGNMENT - 1)))
  | None => None
  end.

(** [File::write_all_at]. *)
Definition write_all_at (off : Z) (data : list byte) : SM DeviceIo RawStoreError unit := λ d,
  match wr_fault (env (disk d)) off data with
  | None => (with_disk (file_write off data (disk d)) d, Ok tt)
  | Some k => (with_disk (file_write off (ztake k data) (disk d)) d, Err (Io OsError "write"))
  end.

(** [File::read_exact_at]. *)
Definition read_exact_at (off len : Z) : DeviceIo → Res RawStoreError (list byte) := λ d,
  if rd_fault (env (disk d)) off len then Err (Io OsError "read")
  else if file_size (disk d) <? off + len then Err (Io UnexpectedEof "read")
  else Ok (read_bytes (content (disk d)) off len).

Definition pwrite (off : Z) (data : list byte) : SM DeviceIo RawStoreError unit := λ d,
  if io_read_only d then (d, Err ReadOnly)
  else if direct d then
    if negb (off mod BLOCK_ALIGNMENT =? 0) then (d, Panic)
    else if ptr_aligned (env (disk d)) off data && (zlen data mod BLOCK_ALIGNMENT =? 0)
    then write_all_at off data d
    else match align_len (zlen data) with
         | None => (d, Panic)
         | Some padded_len =>
           if padded_len =? 0 then (d, Panic)    (* [aligned_buf(0)] *)
           else write_all_at off
                  (data ++ replicate (Z.to_nat (padded_len - zlen data)) Byte.x00) d
         end
  else write_all_at off data d.

Definition pread (off len : Z) : DeviceIo → Res RawStoreError (list byte) := λ d,
  if len =? 0 then Ok []
  else if direct d then
    if negb (off mod BLOCK_ALIGNMENT =? 0) then Panic
    else match align_len len with
         | None => Panic
         | Some padded_len =>
           match read_exact_at off padded_len d with
           | Ok buf => Ok (ztake len buf)
           | Err e => Err e
           | Panic => Panic
           end
         end
  else read_exact_at off len d.

Definition sync : SM DeviceIo RawStoreError unit := λ d,
  if io_read_only d then (d, Err ReadOnly)
  else if sync_fault (env (disk d)) then (d, Err (Io OsError "fsync"))
  else (with_disk (file_sync (disk d)) d, Ok tt).

(** ** Facts about byte stores *)

Lemma lookup_write_bytes off data m i :
  write_bytes off data m !! i =
  if decide (off <= i < off + zlen data) then data !! Z.to_nat (i - off) else m !! i.
Proof.
  revert off m. induction data as [|b data IH]; intros off m; simpl.
  - rewrite decide_False //. rewrite zlen_nil. lia.
  - rewrite IH zlen_cons. pose proof (zlen_nonneg data).
    destruct (decide (i = off)) as [->|Hne].
    + rewrite decide_False; [|lia]. rewrite decide_True; [|lia].
      by rewrite lookup_insert_eq Z.sub_diag.
    + rewrite lookup_insert_ne; [|lia]. repeat case_decide; [|lia..|done].
      by replace (Z.to_nat (i - off)) with (S (Z.to_nat (i - (off + 1)))) by lia.
Qed.

Lemma byte_at_write off data m i :
  byte_at (write_bytes off data m) i =
  if decide (off <= i < off + zlen data)
  then data !!! Z.to_nat (i - off) else byte_at m i.
Proof.
  rewrite /byte_at lookup_write_bytes. case_decide as H; [|done].
  rewrite list_lookup_total_alt. destruct (data !! _) eqn:E; [done|].
  apply lookup_ge_None in E. rewrite /zlen in H. lia.
Qed.

Lemma read_bytes_length m off len : length (read_bytes m off len) = Z.to_nat len.
Proof. by rewrite /read_bytes length_fmap length_seqZ. Qed.

Lemma zlen_read_bytes m off len : 0 <= len → zlen (read_bytes m off len) = len.
Proof. rewrite /zlen read_bytes_length. lia. Qed.

Lemma lookup_read_bytes m off len i b :
  read_bytes m off len !! i = Some b ↔ b = byte_at m (off + Z.of_nat i) ∧ Z.of_nat i < len.
Proof.
  rewrite /read_bytes list_lookup_fmap fmap_Some. split.
  - intros (j & Hj & ->). apply lookup_seqZ in Hj as [-> ?]. done.
  - intros [-> ?]. eexists; split; [|done]. by apply lookup_seqZ.
Qed.

Lemma read_bytes_nonpos m off len : len <= 0 → read_bytes m off len = [].
Proof. intros. rewrite /read_bytes seqZ_nil //. Qed.

Lemma read_bytes_app m off a b :
  0 <= a → 0 <= b → read_bytes m off (a + b) = read_bytes m off a ++ read_bytes m (off + a) b.
Proof. intros. by rewrite /read_bytes seqZ_app // fmap_app. Qed.

Lemma read_bytes_ext m m' off len :
  (∀ i, off <= i < off + len → byte_at m i = byte_at m' i) →
  read_bytes m off len = read_bytes m' off len.
Proof.
  intros H. apply list_fmap_ext. intros i x Hx. apply H.
  apply lookup_seqZ in Hx. lia.
Qed.

Lemma read_bytes_write_eq m off data :
  read_bytes (write_bytes off data m) off (zlen data) = data.
Proof.
  apply list_eq. intros i. destruct (data !! i) as [b|] eqn:E.
  - apply lookup_read_bytes. pose proof (lookup_lt_Some _ _ _ E).
    rewrite byte_at_write decide_True /zlen; [|lia]. split; [|lia].
    replace (Z.to_nat _) with i by lia. by rewrite list_lookup_total_alt E.
  - apply lookup_ge_None. rewrite read_bytes_length /zlen. apply lookup_ge_None in E. lia.
Qed.

Lemma read_bytes_write_all m off data n :
  zlen data = n → read_bytes (write_bytes off data m) off n = data.
Proof. intros <-. apply read_bytes_write_eq. Qed.

Lemma read_bytes_write_ne m off data o l :
  (o + l <= off ∨ off + zlen data <= o) →
  read_bytes (write_bytes off data m) o l = read_bytes m o l.
Proof.
  intros H. apply read_bytes_ext. intros i Hi.
  rewrite byte_at_write decide_False //. lia.
Qed.

Lemma write_bytes_app off a b m :
  write_bytes off (a ++ b) m = write_bytes (off + zlen a) b (write_bytes off a m).
Proof.
  revert off m. induction a as [|x a IH]; intros off m; simpl.
  - by rewrite zlen_nil Z.add_0_r.
  - rewrite IH zlen_cons. f_equal. lia.
Qed.

Lemma ztake_read_bytes m off len n :
  0 <= n <= len → ztake n (read_bytes m off len) = read_bytes m off n.
Proof.
  intros. replace len with (n + (len - n)) by lia.
  rewrite read_bytes_app; [|lia..]. rewrite ztake_app_exact //.
  rewrite zlen_read_bytes; lia.
Qed.

Lemma zdrop_read_bytes m off len n :
  0 <= n <= len → zdrop n (read_bytes m off len) = read_bytes m (off + n) (len - n).
Proof.
  intros. replace len with (n + (len - n)) at 1 by lia.
  rewrite read_bytes_app; [|lia..]. rewrite zdrop_app_exact //.
  rewrite zlen_read_bytes; lia.
Qed.

(** Reading a part of a range that was written in one piece. *)
Lemma read_bytes_write_sub m off data o l :
  off <= o → 0 <= l → o + l <= off + zlen data →
  read_bytes (write_bytes off data m) o l = ztake l (zdrop (o - off) data).
Proof.
  intros. rewrite -{2}(read_bytes_write_eq m off data).
  rewrite zdrop_read_bytes; [|lia]. rewrite ztake_read_bytes; [|lia]. f_equal. lia.
Qed.

(** ** Facts about the handle *)

Lemma align_len_spec n v :
  0 <= n → align_len n = Some v → v = (n + 4095) / 4096 * 4096 ∧ n <= v < n + 4096.
Proof.
  rewrite /align_len /checked_add /BLOCK_ALIGNMENT. intros Hn.
  destruct (n + (4096 - 1) <? two64) eqn:E; [|done]. apply Z.ltb_lt in E.
  intros [= <-].
  replace (u64_max - (4096 - 1)) with (Z.ldiff (Z.ones 64) (Z.ones 12)) by done.
  rewrite Z.ldiff_land Z.land_assoc (Z.land_ones _ 64); [|lia].
  rewrite Z.mod_small; [|u64].
  rewrite -Z.ldiff_land Z.ldiff_ones_r; [|lia].
  rewrite Z.shiftl_mul_pow2 // Z.shiftr_div_pow2 //.
  replace (n + (4096 - 1)) with (n + 4095) by lia. change (2 ^ 12) with 4096.
  pose proof (Z.div_mod (n + 4095) 4096). pose proof (Z.mod_pos_bound (n + 4095) 4096). lia.
Qed.

Lemma align_len_aligned n :
  0 <= n → n + 4096 <= two64 → n mod 4096 = 0 → align_len n = Some n.
Proof.
  intros Hn Hb Hm.
  destruct (align_len n) as [v|] eqn:E.
  - apply align_len_spec in E as [-> ?]; [|done]. f_equal.
    pose proof (Z.div_mod n 4096).
    replace (n + 4095) with (n / 4096 * 4096 + 4095) by lia.
    rewrite Z.div_add_l //. change (4095 / 4096) with 0. lia.
  - rewrite /align_len /checked_add /BLOCK_ALIGNMENT in E.
    destruct (n + (4096 - 1) <? two64) eqn:E'; [done|]. apply Z.ltb_ge in E'. lia.
Qed.

(** ** What an I/O call may change

    [dev_frame lo hi d d']: [d'] is [d] after some writes inside [[lo, hi)];
    the environment and the handle are the same. *)

Definition write_in (lo hi : Z) (e : DiskEvent) : Prop :=
  match e with Write off data => lo <= off ∧ off + zlen data <= hi | Sync => False end.

Record dev_frame (lo hi : Z) (d d' : DeviceIo) : Prop := {
  frame_bytes i : ¬ (lo <= i < hi) →
    byte_at (content (disk d')) i = byte_at (content (disk d)) i;
  frame_size : file_size (disk d) <= file_size (disk d') <= Z.max (file_size (disk d)) hi;
  frame_env : env (disk d') = env (disk d);
  frame_direct : direct d' = direct d;
  frame_ro : io_read_only d' = io_read_only d;
  frame_base : base (disk d') = base (disk d);
  frame_log : ∃ ws, log (disk d') = log (disk d) ++ ws ∧ Forall (write_in lo hi) ws ∧
    content (disk d') = apply_log (content (disk d)) ws;
  frame_locked : locked (disk d') = locked (disk d);
  frame_block : block_device (disk d') = block_device (disk d);
}.

Lemma dev_frame_refl lo hi d : dev_frame lo hi d d.
Proof. split; auto; [lia|]. exists []. by rewrite app_nil_r. Qed.

Lemma dev_frame_trans lo hi d1 d2 d3 :
  dev_frame lo hi d1 d2 → dev_frame lo hi d2 d3 → dev_frame lo hi d1 d3.
Proof.
  intros [] []. split; try congruence.
  - intros i Hi. rewrite frame_bytes1 //. by apply frame_bytes0.
  - lia.
  - destruct frame_log0 as (w1 & Hl1 & Hf1 & Hc1), frame_log1 as (w2 & Hl2 & Hf2 & Hc2).
    exists (w1 ++ w2). rewrite Hl2 Hl1 app_assoc Hc2 Hc1 /apply_log foldl_app.
    split_and!; [done|by apply Forall_app|done].
Qed.

Lemma dev_frame_mono lo hi lo' hi' d d' :
  lo' <= lo → hi <= hi' → dev_frame lo hi d d' → dev_frame lo' hi' d d'.
Proof.
  intros ?? []. split; auto; [intros i Hi; apply frame_bytes0; lia|lia|].
  destruct frame_log0 as (ws & Hl & Hf & Hc). exists ws. split_and!; [done| |done].
  eapply Forall_impl; [exact Hf|]. intros []; simpl; lia.
Qed.

#[export] Hint Resolve dev_frame_refl : objstr.

Lemma write_all_at_frame off data d d' r :
  write_all_at off data d = (d', r) → dev_frame off (off + zlen data) d d'.
Proof.
  pose proof (zlen_nonneg data).
  rewrite /write_all_at. destruct (wr_fault _ off data) as [k|]; intros [= <- _].
  - assert (zlen (ztake k data) <= zlen data).
    { rewrite /zlen /ztake length_take. lia. }
    split; simpl; try done; [|lia|].
    + intros i Hi. rewrite byte_at_write decide_False //. lia.
    + eexists [_]. split_and!; [done| |done]. repeat constructor; simpl; lia.
  - split; simpl; try done; [|lia|].
    + intros i Hi. rewrite byte_at_write decide_False //.
    + eexists [_]. split_and!; [done| |done]. repeat constructor; simpl; lia.
Qed.

Lemma write_all_at_ok off data d d' :
  write_all_at off data d = (d', Ok tt) → d' = with_disk (file_write off data (disk d)) d.
Proof. rewrite /write_all_at. destruct (wr_fault _ off data); by intros [= <-]. Qed.

(** A whole-block write is issued as it is, with or without O_DIRECT. *)
Lemma pwrite_blocks off data d :
  io_read_only d = false → (direct d = true → off mod 4096 = 0) →
  zlen data mod 4096 = 0 → 0 < zlen data → zlen data + 4096 <= two64 →
  pwrite off data d = write_all_at off data d.
Proof.
  intros Hro Hoff Hlen Hpos Hb. rewrite /pwrite Hro.
  destruct (direct d) eqn:Hd; [|done].
  rewrite Hoff //=. rewrite /BLOCK_ALIGNMENT Hlen /= andb_true_r.
  rewrite align_len_aligned //; [|lia]. rewrite Z.sub_diag /= app_nil_r.
  destruct (zlen data =? 0) eqn:E; [apply Z.eqb_eq in E; lia|]. by destruct (ptr_aligned _ _ _).
Qed.

(** The calls that an environment without faults lets succeed. *)
Record no_faults (e : IoEnv) : Prop := {
  nf_open : open_fault e = false;
  nf_rd off len : rd_fault e off len = false;
  nf_wr off data : wr_fault e off data = None;
  nf_sync : sync_fault e = false;
}.

Lemma ideal_env_no_faults : no_faults ideal_env.
Proof. by split. Qed.

Lemma pread_blocks off len d :
  (direct d = true → off mod 4096 = 0) → len mod 4096 = 0 → 0 < len → len + 4096 <= two64 →
  pread off len d = read_exact_at off len d.
Proof.
  intros Hoff Hlen Hpos Hb. rewrite /pread.
  destruct (len =? 0) eqn:E; [apply Z.eqb_eq in E; lia|].
  destruct (direct d) eqn:Hd; [|done].
  rewrite Hoff //= align_len_aligned //; [|lia].
  rewrite /read_exact_at. repeat case_match; try done.
  simplify_eq. f_equal. apply ztake_ge. rewrite zlen_read_bytes; lia.
Qed.

(** A successful read returns the bytes of the file, whatever the mode. *)
Lemma pread_ok off len d buf :
  0 <= len → pread off len d = Ok buf → buf = read_bytes (content (disk d)) off len.
Proof.
  intros Hlen. rewrite /pread. destruct (len =? 0) eqn:E.
  { apply Z.eqb_eq in E as ->. by intros [= <-]. }
  assert (∀ l b, read_exact_at off l d = Ok b → b = read_bytes (content (disk d)) off l) as Hr.
  { intros l b. rewrite /read_exact_at. repeat case_match; by intros [= <-]. }
  destruct (direct d); [|by apply Hr].
  case_match; [done|]. destruct (align_len len) as [pl|] eqn:Hal; [|done].
  apply align_len_spec in Hal as [_ ?]; [|done].
  destruct (read_exact_at off pl d) as [b|e|] eqn:Hrd; [|done..].
  intros [= <-]. rewrite (Hr _ _ Hrd). by rewrite ztake_read_bytes; [|lia].
Qed.

Lemma pread_total off len d :
  no_faults (env (disk d)) → 0 <= len → (direct d = true → off mod 4096 = 0) →
  off + (len + 4095) / 4096 * 4096 <= file_size (disk d) → len + 4096 <= two64 →
  pread off len d = Ok (read_bytes (content (disk d)) off len).
Proof.
  intros [_ Hrd _ _] Hlen Hoff Hsz Hb.
  pose proof (Z.div_mod (len + 4095) 4096). pose proof (Z.mod_pos_bound (len + 4095) 4096).
  rewrite /pread. destruct (len =? 0) eqn:E; [by apply Z.eqb_eq in E as ->|].
  destruct (direct d).
  - rewrite Hoff //=. destruct (align_len len) as [pl|] eqn:Hal.
    + apply align_len_spec in Hal as [-> ?]; [|done].
      rewrite /read_exact_at Hrd (proj2 (Z.ltb_ge _ _)); [|lia].
      by rewrite ztake_read_bytes; [|lia].
    + exfalso. rewrite /align_len /checked_add /BLOCK_ALIGNMENT in Hal.
      destruct (len + (4096 - 1) <? two64) eqn:E'; [done|]. apply Z.ltb_ge in E'. lia.
  - rewrite /read_exact_at Hrd (proj2 (Z.ltb_ge _ _)) //. lia.
Qed.

(** A write, whole or cut short: what reached the file, and the result. *)
Lemma pwrite_cases off data d :
  io_read_only d = false → (direct d = true → off mod 4096 = 0) →
  data ≠ [] → zlen data + 4096 <= two64 →
  ∃ w r, pwrite off data d = (with_disk (file_write off w (disk d)) d, r) ∧
    zlen w <= (zlen data + 4095) / 4096 * 4096 ∧
    (direct d = false → zlen w <= zlen data) ∧
    (r = Ok tt ∧ (∃ z, w = data ++ replicate z Byte.x00) ∧
       (zlen data mod 4096 = 0 → w = data) ∨
     r = Err (Io OsError "write") ∧ ¬ no_faults (env (disk d)) ∧
       (zlen data mod 4096 = 0 → ∃ k, wr_fault (env (disk d)) off data = Some k ∧ w = ztake k data)).
Proof.
  intros Hro Hoff Hne Hb. pose proof (zlen_nonneg data).
  assert (0 < zlen data) as Hpos.
  { destruct data; [done|]. rewrite zlen_cons. pose proof (zlen_nonneg data). lia. }
  pose proof (Z.div_mod (zlen data + 4095) 4096). pose proof (Z.mod_pos_bound (zlen data + 4095) 4096).
  set (P := (zlen data + 4095) / 4096 * 4096) in *.
  assert (∀ full, (∃ z, full = data ++ replicate z Byte.x00) → (zlen data mod 4096 = 0 → full = data) →
    zlen full <= P → (direct d = false → zlen full <= zlen data) →
    ∃ w r, write_all_at off full d = (with_disk (file_write off w (disk d)) d, r) ∧
      zlen w <= P ∧ (direct d = false → zlen w <= zlen data) ∧
      (r = Ok tt ∧ (∃ z, w = data ++ replicate z Byte.x00) ∧ (zlen data mod 4096 = 0 → w = data) ∨
       r = Err (Io OsError "write") ∧ ¬ no_faults (env (disk d)) ∧
         (zlen data mod 4096 = 0 → ∃ k, wr_fault (env (disk d)) off data = Some k ∧ w = ztake k data)))
    as Hw.
  { intros full Hz Hal Hlen Hdl. rewrite /write_all_at.
    destruct (wr_fault _ off full) as [k|] eqn:Hf.
    - assert (zlen (ztake k full) <= zlen full) by (rewrite /zlen /ztake length_take; lia).
      eexists _, _. split_and!; [done|lia|intros Hd; specialize (Hdl Hd); lia|]. right.
      split_and!; [done| |].
      + intros [_ _ Hn _]. by rewrite Hn in Hf.
      + intros Hm. rewrite (Hal Hm) in Hf |- *. eauto.
    - eexists _, _. split_and!; [done..|]. left. eauto. }
  rewrite /pwrite Hro. destruct (direct d) eqn:Hd.
  - rewrite Hoff //=. destruct (align_len (zlen data)) as [pl|] eqn:Hal.
    + apply align_len_spec in Hal as [-> ?]; [|done]. rewrite -/P in H2 |- *.
      assert (zlen (data ++ replicate (Z.to_nat (P - zlen data)) Byte.x00) = P) as Hlen.
      { rewrite zlen_app zlen_replicate; lia. }
      destruct (ptr_aligned _ _ _ && _) eqn:Hp.
      * apply Hw; [exists O; by rewrite app_nil_r|done|lia|done].
      * rewrite (proj2 (Z.eqb_neq _ _)); [|lia]. apply Hw; [by eauto| |lia|done].
        intros Hm. assert (P = zlen data) as ->; [|by rewrite Z.sub_diag app_nil_r].
        pose proof (Z.div_mod (zlen data) 4096). subst P.
        replace (zlen data + 4095) with (zlen data / 4096 * 4096 + 4095) by lia.
        rewrite Z.div_add_l //. change (4095 / 4096) with 0. lia.
    + exfalso. rewrite /align_len /checked_add /BLOCK_ALIGNMENT in Hal.
      destruct (zlen data + (4096 - 1) <? two64) eqn:E; [done|]. apply Z.ltb_ge in E. lia.
  - apply Hw; [exists O; by rewrite app_nil_r|done|lia|done].
Qed.

(** ** Crashes

    After a crash every 4096-byte sector holds what some prefix of the writes
    since the last completed [fsync] before the crash had made of it. *)

Definition SECTOR : Z := 4096.

Definition no_sync (l : list DiskEvent) : Prop := Forall (λ e, e ≠ Sync) l.

(** [durable l d p]: [l] is [d], which ends with an [fsync], then the writes [p]. *)
Definition durable (l d p : list DiskEvent) : Prop :=
  l = d ++ p ∧ no_sync p ∧ (d = [] ∨ last d = Some Sync).

(** [m] is a possible content after a crash that follows the events [l]. *)
Definition crash_image (m0 : gmap Z byte) (l : list DiskEvent) (m : gmap Z byte) : Prop :=
  ∃ d p, durable l d p ∧
    ∀ k, ∃ n, ∀ i, k * SECTOR <= i < (k + 1) * SECTOR →
      byte_at m i = byte_at (apply_log m0 (d ++ take n p)) i.

(** A failing write reaches the file in whole sectors. *)
Definition sector_atomic (e : IoEnv) : Prop :=
  ∀ off data k, wr_fault e off data = Some k → k mod SECTOR = 0.

Lemma apply_log_app m l1 l2 : apply_log m (l1 ++ l2) = apply_log (apply_log m l1) l2.
Proof. apply foldl_app. Qed.

(** Writes that avoid a byte do not change it. *)
Definition avoids (i : Z) (e : DiskEvent) : Prop :=
  match e with Write off data => ¬ (off <= i < off + zlen data) | Sync => True end.

Lemma apply_log_avoids m l i :
  Forall (avoids i) l → byte_at (apply_log m l) i = byte_at m i.
Proof.
  revert m. induction l as [|[off data|] l IH]; intros m Hl; [done|..]; apply Forall_cons in Hl as [He Hl].
  - rewrite /= IH //. rewrite byte_at_write decide_False //.
  - by rewrite /= IH.
Qed.

Lemma durable_unique l d1 p1 d2 p2 : durable l d1 p1 → durable l d2 p2 → d1 = d2 ∧ p1 = p2.
Proof.
  assert (∀ d1 p1 d2 p2, durable l d1 p1 → durable l d2 p2 → (length d1 <= length d2)%nat →
    d1 = d2 ∧ p1 = p2) as Hwlog.
  { intros d1' p1' d2' p2' (-> & Hn1 & _) (He & _ & Hd2) Hle.
    apply app_eq_inv in He as [(k & -> & ->)|(k & -> & ->)].
    - rewrite length_app in Hle. destruct k; [by rewrite app_nil_r|simpl in Hle; lia].
    - destruct k as [|x k _] using rev_ind; [by rewrite app_nil_r|]. exfalso.
      destruct Hd2 as [Hd2|Hd2]; [by destruct d1', k|].
      rewrite app_assoc last_snoc in Hd2. simplify_eq.
      apply Forall_app in Hn1 as [Hn1 _]. apply Forall_app in Hn1 as [_ Hn1].
      by apply Forall_cons in Hn1 as [? _]. }
  intros H1 H2. destruct (decide (length d1 <= length d2)%nat).
  - by apply Hwlog.
  - destruct (Hwlog d2 p2 d1 p1); [done..|lia|done].
Qed.

(** The bytes that no pending write touches survive a crash. *)
Lemma crash_image_avoids m0 l d p m i :
  durable l d p → crash_image m0 l m → Forall (avoids i) p →
  byte_at m i = byte_at (apply_log m0 d) i.
Proof.
  intros Hd (d' & p' & Hd' & Hm) Hav. destruct (durable_unique _ _ _ _ _ Hd Hd') as [<- <-].
  destruct (Hm (i / SECTOR)) as [n Hn]. rewrite Hn.
  - rewrite apply_log_app apply_log_avoids //. by apply Forall_take.
  - unfold SECTOR. pose proof (Z.div_mod i 4096). pose proof (Z.mod_pos_bound i 4096). lia.
Qed.

(** Events after a sync that avoid a byte leave it as it was at the sync. *)
Lemma crash_suffix_avoids m0 l t m i :
  last l = Some Sync → crash_image m0 (l ++ t) m → Forall (avoids i) t →
  byte_at m i = byte_at (apply_log m0 l) i.
Proof.
  intros Hl (d & p & (Hd & Hns & Hlast) & Hm) Ht.
  destruct (Hm (i / SECTOR)) as [n Hn]. rewrite Hn.
  - apply app_eq_inv in Hd as [(z & -> & Hz)|(z & -> & ->)].
    + assert (z = []) as ->.
      { destruct z as [|x z' _] using rev_ind; [done|]. rewrite app_assoc last_snoc in Hl.
        simplify_eq. rewrite /no_sync !Forall_app in Hns. destruct Hns as [[_ Hx] _].
        by apply Forall_cons in Hx as [? _]. }
      simpl in *. subst p. rewrite app_nil_r apply_log_app apply_log_avoids //. by apply Forall_take.
    + apply Forall_app in Ht as [? ?]. rewrite -app_assoc apply_log_app apply_log_avoids //.
      apply Forall_app. split; [done|by apply Forall_take].
  - unfold SECTOR. pose proof (Z.div_mod i 4096). pose proof (Z.mod_pos_bound i 4096). lia.
Qed.

(** The file after a restart with content [m]: nothing is pending or locked. *)
Definition after_crash (f : DiskFile) (m : gmap Z byte) : DiskFile :=
  mkDiskFile m m [] (file_size f) false (block_device f) (env f).

(** Everything written may have reached the device. *)
Lemma durable_exists l : ∃ d p, durable l d p.
Proof.
  induction l as [|e l (d & p & -> & Hn & Hd)] using rev_ind; [by exists [], []; split_and!; [|constructor|left]|].
  destruct e as [off data|].
  - exists d, (p ++ [Write off data]). split_and!; [by rewrite app_assoc| |done].
    apply Forall_app. split; [done|by repeat constructor].
  - exists ((d ++ p) ++ [Sync]), []. split_and!; [by rewrite app_nil_r|constructor|right].
    by rewrite last_snoc.
Qed.

(** Writes that follow leave every crash image possible. *)
Lemma crash_image_more m0 l q m : no_sync q → crash_image m0 l m → crash_image m0 (l ++ q) m.
Proof.
  intros Hq (d & p & (-> & Hn & Hd) & Hm). exists d, (p ++ q).
  split; [split_and!; [by rewrite app_assoc|by apply Forall_app|done]|]. intros k. destruct (Hm k) as [n Hk].
  exists (n `min` length p)%nat. rewrite take_app_le; [|lia]. by rewrite -take_take firstn_all.
Qed.

Lemma crash_image_all m0 l : crash_image m0 l (apply_log m0 l).
Proof.
  destruct (durable_exists l) as (d & p & Hd). exists d, p. split; [done|]. intros k.
  exists (length p). intros i _. rewrite firstn_all. by destruct Hd as [-> _].
Qed.
