(* ===== verification/Allocator.v ===== *)
(** * The extent allocator ([rawobjstr/src/allocator.rs])

    A first-fit allocator over a free list of [(offset, size)] pairs sorted
    by offset.  [free_ok lo hi l] is its invariant: the regions are sorted,
    non-empty, pairwise disjoint and inside [[lo, hi)]. *)

From S2P Require Import Prelude.
From S2P Require Import Config.

Record ExtentAllocator : Type := mkAllocator {
  free_list : list (Z * Z);
  alignment : Z;
}.

Definition with_free_list (l : list (Z * Z)) (a : ExtentAllocator) : ExtentAllocator :=
  mkAllocator l (alignment a).

(** [ExtentAllocator::new]. *)
Definition alloc_new (data_start data_end alignment : Z) : ExtentAllocator :=
  mkAllocator
    (if data_start <? data_end then [(data_start, data_end -! data_start)] else [])
    alignment.

(** [ExtentAllocator::from_free_list]. *)
Definition from_free_list (fl : list (Z * Z)) (data_start data_end : Z) : ExtentAllocator :=
  let fl := sort_by_key fst fl in
  let fl := filter (λ '(_, s), 0 < s) fl in
  let fl := filter (λ '(off, sz), data_start <= off ∧ sat_add off sz <= data_end) fl in
  mkAllocator fl BLOCK_ALIGNMENT.

Definition free_space (a : ExtentAllocator) : Z := wsum (free_list a).*2.

(** [iter().map(|(_, s)| *s).max().unwrap_or(0)]. *)
Definition largest (fl : list (Z * Z)) : Z := foldr Z.max 0 fl.*2.

(** [ExtentAllocator::alloc]. *)
Definition alloc (needed : Z) : SM ExtentAllocator RawStoreError Z := λ a,
  let needed := align_up needed (alignment a) in
  match list_find (λ '(_, size), needed <= size) (free_list a) with
  | Some (idx, (offset, size)) =>
    let remaining := size -! needed in
    if 0 <? remaining
    then (with_free_list (<[idx := (offset +! needed, remaining)]> (free_list a)) a, Ok offset)
    else (with_free_list (delete idx (free_list a)) a, Ok offset)
  | None => (a, Err (NoSpace needed (largest (free_list a))))
  end.

(** [partition_point] on a list partitioned by the predicate. *)
Fixpoint partition_point (p : Z * Z → bool) (l : list (Z * Z)) : nat :=
  match l with
  | [] => O
  | x :: l' => if p x then S (partition_point p l') else O
  end.

(** [Vec::insert]. *)
Definition vec_insert (i : nat) (x : Z * Z) (l : list (Z * Z)) : list (Z * Z) :=
  take i l ++ x :: drop i l.

(** The two merge steps of [ExtentAllocator::free], as the code performs
    them on the vector at the insertion index. *)
Definition merge_next (i : nat) (l : list (Z * Z)) : list (Z * Z) :=
  match l !! i, l !! S i with
  | Some (cur_off, cur_sz), Some (next_off, next_sz) =>
    if sat_add cur_off cur_sz =? next_off
    then delete (S i) (<[i := (cur_off, cur_sz +! next_sz)]> l) else l
  | _, _ => l
  end.

Definition merge_prev (i : nat) (l : list (Z * Z)) : list (Z * Z) :=
  match i with
  | O => l
  | S p =>
    match l !! p, l !! i with
    | Some (prev_off, prev_sz), Some (cur_off, cur_sz) =>
      if sat_add prev_off prev_sz =? cur_off
      then delete i (<[p := (prev_off, prev_sz +! cur_sz)]> l) else l
    | _, _ => l
    end
  end.

(** [ExtentAllocator::free]. *)
Definition free (offset padded_size : Z) (a : ExtentAllocator) : ExtentAllocator :=
  let insert_pos := partition_point (λ r, r.1 <? offset) (free_list a) in
  let fl := vec_insert insert_pos (offset, padded_size) (free_list a) in
  with_free_list (merge_prev insert_pos (merge_next insert_pos fl)) a.

(** ** The invariant *)

Fixpoint free_ok (lo hi : Z) (l : list (Z * Z)) : Prop :=
  match l with
  | [] => True
  | (o, s) :: l' => lo <= o ∧ 0 < s ∧ o + s <= hi ∧ free_ok (o + s) hi l'
  end.

(** No two neighbouring regions touch. *)
Fixpoint coalesced (l : list (Z * Z)) : Prop :=
  match l with
  | (o, s) :: (((o', _) :: _) as l') => o + s ≠ o' ∧ coalesced l'
  | _ => True
  end.

(** The end of the last region of [l], [lo] when there is none. *)
Fixpoint ends (lo : Z) (l : list (Z * Z)) : Z :=
  match l with
  | [] => lo
  | (o, s) :: l' => ends (o + s) l'
  end.

Definition is_free (l : list (Z * Z)) (i : Z) : Prop := Exists (λ r, covers r i) l.

Fixpoint total_size (l : list (Z * Z)) : Z :=
  match l with [] => 0 | (_, s) :: l' => s + total_size l' end.

Definition offsets_aligned (l : list (Z * Z)) : Prop :=
  Forall (λ r, r.1 mod 4096 = 0) l.

Section free_ok_facts.
Implicit Types (lo hi : Z) (l : list (Z * Z)).

Lemma free_ok_app lo hi l1 l2 :
  free_ok lo hi (l1 ++ l2) ↔ free_ok lo hi l1 ∧ free_ok (ends lo l1) hi l2.
Proof.
  revert lo. induction l1 as [|[o s] l1 IH]; intros lo; simpl; [tauto|].
  rewrite IH. tauto.
Qed.

Lemma ends_app lo l1 l2 : ends lo (l1 ++ l2) = ends (ends lo l1) l2.
Proof. revert lo. induction l1 as [|[o s] l1 IH]; intros lo; simpl; auto. Qed.

Lemma free_ok_weaken lo lo' hi l : lo' <= lo → free_ok lo hi l → free_ok lo' hi l.
Proof. destruct l as [|[o s] l]; simpl; [done|]. intros ? (?&?&?&?). split_and!; auto. lia. Qed.

Lemma ends_ge lo hi l : free_ok lo hi l → lo <= ends lo l.
Proof.
  revert lo. induction l as [|[o s] l IH]; intros lo; simpl; [lia|].
  intros (?&?&?&H%IH). lia.
Qed.

Lemma ends_le lo hi l : lo <= hi → free_ok lo hi l → ends lo l <= hi.
Proof.
  revert lo. induction l as [|[o s] l IH]; intros lo; simpl; [lia|].
  intros ? (?&?&?&H). apply IH; auto.
Qed.

Lemma is_free_cons o s l i : is_free ((o, s) :: l) i ↔ o <= i < o + s ∨ is_free l i.
Proof. by rewrite /is_free Exists_cons. Qed.
Lemma is_free_nil i : is_free [] i ↔ False.
Proof. by rewrite /is_free Exists_nil. Qed.
Lemma is_free_app l1 l2 i : is_free (l1 ++ l2) i ↔ is_free l1 i ∨ is_free l2 i.
Proof. by rewrite /is_free Exists_app. Qed.

Lemma is_free_range lo hi l i : free_ok lo hi l → is_free l i → lo <= i < ends lo l.
Proof.
  revert lo. induction l as [|[o s] l IH]; intros lo; simpl.
  - by rewrite is_free_nil.
  - rewrite is_free_cons. intros (?&?&?&Hok) [Hi|Hi].
    + pose proof (ends_ge _ _ _ Hok). lia.
    + specialize (IH _ Hok Hi). lia.
Qed.

Lemma is_free_bounds lo hi l i : free_ok lo hi l → is_free l i → lo <= i < hi.
Proof.
  revert lo. induction l as [|[o s] l IH]; intros lo; simpl.
  - by rewrite is_free_nil.
  - rewrite is_free_cons. intros (?&?&?&Hok) [Hi|Hi]; [lia|].
    specialize (IH _ Hok Hi). lia.
Qed.

Lemma total_size_app l1 l2 : total_size (l1 ++ l2) = total_size l1 + total_size l2.
Proof. induction l1 as [|[o s] l1 IH]; simpl; lia. Qed.

Lemma total_size_bounds lo hi l :
  lo <= hi → free_ok lo hi l → 0 <= total_size l <= hi - lo.
Proof.
  revert lo. induction l as [|[o s] l IH]; intros lo; simpl; [lia|].
  intros ? (?&?&?&H). specialize (IH (o + s) ltac:(lia) H). lia.
Qed.

Lemma free_space_total lo hi l al :
  0 <= lo → lo <= hi → hi < two64 → free_ok lo hi l →
  free_space (mkAllocator l al) = total_size l.
Proof.
  rewrite /free_space /=. intros Hlo Hle Hhi Hok.
  assert (foldr Z.add 0 l.*2 = total_size l) as Hs.
  { clear. induction l as [|[o s] l IH]; simpl; [done|]. rewrite -IH. done. }
  assert (Forall (λ z, 0 <= z) l.*2) as Hpos.
  { clear -Hok. revert lo Hok. induction l as [|[o s] l IH]; intros lo; simpl; [done|].
    intros (?&?&?&?). constructor; [lia|]. by eapply IH. }
  pose proof (total_size_bounds _ _ _ Hle Hok).
  rewrite -Hs. apply wsum_small; [done|]. lia.
Qed.

(** A region of the list, split out. *)
Lemma free_ok_split lo hi l1 o s l2 :
  free_ok lo hi (l1 ++ (o, s) :: l2) ↔
  free_ok lo hi l1 ∧ ends lo l1 <= o ∧ 0 < s ∧ o + s <= hi ∧ free_ok (o + s) hi l2.
Proof. rewrite free_ok_app /=. tauto. Qed.

Lemma coalesced_app_iff l1 l2 :
  coalesced (l1 ++ l2) ↔ coalesced l1 ∧ coalesced l2 ∧
  match last l1, head l2 with
  | Some (o, s), Some (o', _) => o + s ≠ o'
  | _, _ => True
  end.
Proof.
  induction l1 as [|[o s] l1 IH]; simpl; [tauto|].
  destruct l1 as [|[o1 s1] l1]; simpl in *.
  - destruct l2 as [|[o2 s2] l2]; simpl; tauto.
  - rewrite IH. tauto.
Qed.

Lemma ends_last lo l :
  ends lo l = match last l with Some (o, s) => o + s | None => lo end.
Proof.
  revert lo. induction l as [|[o s] l IH]; intros lo; simpl; [done|].
  rewrite IH last_cons. by destruct (last l) as [[]|].
Qed.
End free_ok_facts.

(** ** [alloc] *)

Section alloc_facts.
Context (lo hi : Z) (Hlo : 0 <= lo) (Hhi : hi < two64).

(** What a successful allocation did to the list: the region it was carved
    from, and what is left of it. *)
Lemma alloc_inv a a' needed off :
  free_ok lo hi (free_list a) → 0 < align_up needed (alignment a) →
  alloc needed a = (a', Ok off) →
  ∃ l1 size l2, let n := align_up needed (alignment a) in
    free_list a = l1 ++ (off, size) :: l2 ∧ n <= size ∧
    Forall (λ r, r.2 < n) l1 ∧ alignment a' = alignment a ∧
    free_list a' = l1 ++ (if 0 <? size - n then [(off + n, size - n)] else []) ++ l2.
Proof.
  intros Hok Hn. rewrite /alloc.
  set (n := align_up needed (alignment a)) in *.
  destruct (list_find _ (free_list a)) as [[idx [o size]]|] eqn:E; [|done].
  apply list_find_Some in E as (Hidx & Hsz & Hfirst). simpl in Hsz.
  set (l1 := take idx (free_list a)). set (l2 := drop (S idx) (free_list a)).
  pose proof (take_drop_middle _ _ _ Hidx) as Hsplit. symmetry in Hsplit.
  fold l1 l2 in Hsplit.
  assert (length l1 = idx) as Hlen.
  { rewrite length_take. apply lookup_lt_Some in Hidx. lia. }
  pose proof Hok as Hok'. rewrite Hsplit in Hok'.
  apply free_ok_split in Hok' as (Hl1 & ? & ? & ? & ?).
  pose proof (ends_ge _ _ _ Hl1).
  assert (Forall (λ r, r.2 < n) l1) as Hbig.
  { apply Forall_lookup. intros i [o' s'] Hi. pose proof (lookup_lt_Some _ _ _ Hi).
    rewrite lookup_take_lt in Hi; [|lia].
    assert (¬ n <= s') by (by apply (Hfirst i (o', s') Hi); lia). simpl. lia. }
  rewrite wsub_small; [|u64]. intros Hres.
  exists l1, size, l2. destruct (0 <? size - n) eqn:E; simplify_eq/=.
  - split_and!; [done..|]. apply Z.ltb_lt in E. rewrite wadd_small; [|u64].
    rewrite Hsplit -{1}Hlen. by rewrite insert_app_r_alt // Nat.sub_diag.
  - split_and!; [done..|]. rewrite Hsplit -{1}Hlen. by rewrite delete_middle.
Qed.

(** [alloc] succeeds exactly when some region is large enough, and its
    error reports the aligned size and the largest region. *)
Lemma alloc_fails_iff a needed :
  let n := align_up needed (alignment a) in
  (∃ r, r ∈ free_list a ∧ n <= r.2) ∧ (∃ a' off, alloc needed a = (a', Ok off)) ∨
  Forall (λ r, r.2 < n) (free_list a) ∧
  alloc needed a = (a, Err (NoSpace n (largest (free_list a)))).
Proof.
  intros n. rewrite /alloc -/n.
  destruct (list_find _ (free_list a)) as [[idx [o size]]|] eqn:E.
  - left. apply list_find_Some in E as (Hidx & Hsz & _). split.
    + exists (o, size). split; [by eapply list_elem_of_lookup_2|done].
    + case_match; eauto.
  - right. split; [|done]. apply list_find_None in E.
    eapply Forall_impl; [exact E|]. intros [o s] ?. simpl in *. lia.
Qed.

Lemma alloc_preserves_ok a a' needed off :
  free_ok lo hi (free_list a) → 0 < align_up needed (alignment a) →
  alloc needed a = (a', Ok off) → free_ok lo hi (free_list a').
Proof.
  intros Hok Hn Ha.
  destruct (alloc_inv _ _ _ _ Hok Hn Ha) as (l1 & size & l2 & Hl & Hsz & _ & _ & ->).
  rewrite Hl in Hok. apply free_ok_split in Hok as (H1 & ? & ? & ? & H2).
  apply free_ok_app. split; [done|].
  destruct (0 <? size - _) eqn:E; simpl.
  - apply Z.ltb_lt in E. split_and!; [lia..|].
    by replace (off + _ + _) with (off + size) by lia.
  - eapply free_ok_weaken; [|exact H2]. lia.
Qed.

(** The bytes handed out are the bytes that stop being free. *)
Lemma alloc_is_free a a' needed off i :
  let n := align_up needed (alignment a) in
  free_ok lo hi (free_list a) → 0 < n → alloc needed a = (a', Ok off) →
  (is_free (free_list a) i ↔ is_free (free_list a') i ∨ off <= i < off + n) ∧
  ¬ (is_free (free_list a') i ∧ off <= i < off + n).
Proof.
  intros n Hok Hn Ha.
  destruct (alloc_inv _ _ _ _ Hok Hn Ha) as (l1 & size & l2 & Hl & Hsz & _ & _ & ->).
  rewrite -/n in Hsz |- *. rewrite Hl in Hok |- *.
  apply free_ok_split in Hok as (H1 & ? & ? & ? & H2).
  rewrite !is_free_app is_free_cons.
  assert (is_free l1 i → lo <= i < ends lo l1) by (by eapply is_free_range).
  assert (is_free l2 i → off + size <= i < hi) by (by eapply is_free_bounds).
  destruct (decide (i < off + n)); destruct (0 <? size - n) eqn:E;
    rewrite ?is_free_cons is_free_nil;
    [apply Z.ltb_lt in E|apply Z.ltb_ge in E|apply Z.ltb_lt in E|apply Z.ltb_ge in E].
  all: intuition lia.
Qed.

Lemma alloc_total a a' needed off :
  free_ok lo hi (free_list a) → 0 < align_up needed (alignment a) →
  alloc needed a = (a', Ok off) →
  total_size (free_list a) = total_size (free_list a') + align_up needed (alignment a).
Proof.
  intros Hok Hn Ha.
  destruct (alloc_inv _ _ _ _ Hok Hn Ha) as (l1 & size & l2 & -> & Hsz & _ & _ & ->).
  rewrite !total_size_app /=. destruct (0 <? _) eqn:E; simpl; [lia|].
  apply Z.ltb_ge in E. lia.
Qed.

Lemma alloc_offset a a' needed off :
  free_ok lo hi (free_list a) → 0 < align_up needed (alignment a) →
  alloc needed a = (a', Ok off) → lo <= off ∧ off + align_up needed (alignment a) <= hi.
Proof.
  intros Hok Hn Ha.
  destruct (alloc_inv _ _ _ _ Hok Hn Ha) as (l1 & size & l2 & Hl & Hsz & _).
  rewrite Hl in Hok. apply free_ok_split in Hok as (H1 & ? & ? & ? & H2).
  pose proof (ends_ge _ _ _ H1). lia.
Qed.

Lemma alloc_aligned a a' needed off :
  free_ok lo hi (free_list a) → 0 < align_up needed (alignment a) →
  align_up needed (alignment a) mod 4096 = 0 → offsets_aligned (free_list a) →
  alloc needed a = (a', Ok off) → off mod 4096 = 0 ∧ offsets_aligned (free_list a').
Proof.
  intros Hok Hn Hmod Hal Ha.
  destruct (alloc_inv _ _ _ _ Hok Hn Ha) as (l1 & size & l2 & Hl & Hsz & _ & _ & ->).
  rewrite /offsets_aligned Hl in Hal |- *.
  apply Forall_app in Hal as [? [Hoff ?]%Forall_cons]. simpl in Hoff.
  split; [done|]. rewrite !Forall_app. split_and!; [done| |done].
  destruct (0 <? _); [|done]. constructor; [|done].
  by rewrite /= Z.add_mod // Hoff Hmod.
Qed.

Lemma alloc_coalesced a a' needed off :
  free_ok lo hi (free_list a) → 0 < align_up needed (alignment a) →
  coalesced (free_list a) → alloc needed a = (a', Ok off) → coalesced (free_list a').
Proof.
  intros Hok Hn Hc Ha.
  destruct (alloc_inv _ _ _ _ Hok Hn Ha) as (l1 & size & l2 & Hl & Hsz & _ & _ & ->).
  rewrite Hl in Hc Hok. apply free_ok_split in Hok as (H1 & ? & ? & ? & H2).
  apply coalesced_app_iff in Hc as (Hc1 & Hc2 & Hb).
  apply (coalesced_app_iff [_]) in Hc2 as (_ & Hc2 & Hb2). simpl in Hb, Hb2.
  rewrite (ends_last lo l1) in H. apply coalesced_app_iff. split; [done|].
  destruct (0 <? _) eqn:E; simpl.
  - split.
    + destruct l2 as [|[o2 s2] l2]; simpl in *; [done|]. split; [lia|done].
    + destruct (last l1) as [[o1 s1]|]; [lia|done].
  - split; [done|]. destruct (last l1) as [[o1 s1]|]; [|done].
    destruct l2 as [|[o2 s2] l2]; simpl in *; [done|]. lia.
Qed.
End alloc_facts.

(** ** [free] *)

(** One region put in front of a list, merged with the first when they touch. *)
Definition cons_merge (o s : Z) (l : list (Z * Z)) : list (Z * Z) :=
  match l with
  | (o2, s2) :: l' => if o + s =? o2 then (o, s + s2) :: l' else (o, s) :: l
  | [] => [(o, s)]
  end.

Section cons_merge_facts.
Context (lo hi : Z) (Hlo : 0 <= lo) (Hhi : hi < two64).
Implicit Types (l : list (Z * Z)).

Lemma cons_merge_ok e o s l :
  free_ok e hi ((o, s) :: l) → free_ok e hi (cons_merge o s l).
Proof.
  destruct l as [|[o2 s2] l]; simpl; [done|]. intros (?&?&?&?&?&?&?).
  destruct (o + s =? o2) eqn:E; simpl; [|done]. apply Z.eqb_eq in E.
  split_and!; [lia..|]. by replace (o + (s + s2)) with (o2 + s2) by lia.
Qed.

Lemma cons_merge_is_free e o s l i :
  free_ok e hi ((o, s) :: l) →
  is_free (cons_merge o s l) i ↔ o <= i < o + s ∨ is_free l i.
Proof.
  destruct l as [|[o2 s2] l]; simpl; intros Hok; [by rewrite is_free_cons|].
  destruct (o + s =? o2) eqn:E; [|by rewrite !is_free_cons].
  apply Z.eqb_eq in E. rewrite !is_free_cons. intuition lia.
Qed.

Lemma cons_merge_total o s l : total_size (cons_merge o s l) = s + total_size l.
Proof.
  destruct l as [|[o2 s2] l]; simpl; [done|]. case_match; simpl; lia.
Qed.

Lemma cons_merge_coalesced o s l : coalesced l → coalesced (cons_merge o s l).
Proof.
  destruct l as [|[o2 s2] l]; simpl; [done|].
  destruct (o + s =? o2) eqn:E.
  - apply Z.eqb_eq in E. destruct l as [|[o3 s3] l]; simpl; [done|].
    intros [? ?]. split; [lia|done].
  - apply Z.eqb_neq in E. done.
Qed.

Lemma cons_merge_head o s l : ∃ s' r, cons_merge o s l = (o, s') :: r.
Proof. destruct l as [|[o2 s2] l]; simpl; eauto. case_match; eauto. Qed.

Lemma cons_merge_aligned o s l :
  o mod 4096 = 0 → offsets_aligned l → offsets_aligned (cons_merge o s l).
Proof.
  rewrite /offsets_aligned. destruct l as [|[o2 s2] l]; simpl; [by repeat constructor|].
  intros ? [? ?]%Forall_cons. case_match; repeat constructor; done.
Qed.

Lemma merge_next_app l1 o s l2 :
  free_ok lo hi (l1 ++ (o, s) :: l2) →
  merge_next (length l1) (l1 ++ (o, s) :: l2) = l1 ++ cons_merge o s l2.
Proof.
  intros (Hl1 & ? & ? & ? & Hl2)%free_ok_split. pose proof (ends_ge _ _ _ Hl1).
  rewrite /merge_next list_lookup_middle //.
  rewrite lookup_app_r; [|lia]. replace (S (length l1) - length l1)%nat with 1%nat by lia.
  destruct l2 as [|[o2 s2] l2]; simpl; [done|]. simpl in Hl2.
  rewrite /sat_add Z.min_l; [|u64]. destruct (o + s =? o2) eqn:E; [|done].
  rewrite insert_app_r_alt // Nat.sub_diag /=. rewrite wadd_small; [|u64].
  replace (S (length l1)) with (length (l1 ++ [(o, s + s2)])) by (rewrite length_app /=; lia).
  change ((o, s + s2) :: (o2, s2) :: l2) with ([(o, s + s2)] ++ (o2, s2) :: l2).
  by rewrite app_assoc delete_middle -app_assoc.
Qed.

Lemma merge_prev_app l0 p q o s r :
  free_ok lo hi ((l0 ++ [(p, q)]) ++ (o, s) :: r) →
  merge_prev (length (l0 ++ [(p, q)])) ((l0 ++ [(p, q)]) ++ (o, s) :: r) =
  l0 ++ cons_merge p q ((o, s) :: r).
Proof.
  rewrite -app_assoc /=. intros (Hl1 & ? & ? & ? & Hl2)%free_ok_split. simpl in Hl2.
  pose proof (ends_ge _ _ _ Hl1).
  rewrite length_app /= Nat.add_1_r /merge_prev list_lookup_middle //.
  rewrite lookup_app_r; [|lia]. replace (S (length l0) - length l0)%nat with 1%nat by lia.
  simpl. rewrite /sat_add Z.min_l; [|u64]. destruct (p + q =? o) eqn:E; [|done].
  rewrite insert_app_r_alt // Nat.sub_diag /=. rewrite wadd_small; [|u64].
  replace (S (length l0)) with (length (l0 ++ [(p, q + s)])) by (rewrite length_app /=; lia).
  change ((p, q + s) :: (o, s) :: r) with ([(p, q + s)] ++ (o, s) :: r).
  by rewrite app_assoc delete_middle -app_assoc.
Qed.
End cons_merge_facts.

Section free_facts.
Context (lo hi : Z) (Hlo : 0 <= lo) (Hhi : hi < two64).

(** Where the freed region goes. *)
Lemma partition_split off sz l lo' :
  free_ok lo' hi l → 0 < sz → lo' <= off → off + sz <= hi →
  (∀ i, off <= i < off + sz → ¬ is_free l i) →
  ∃ l1 l2, l = l1 ++ l2 ∧ partition_point (λ r, r.1 <? off) l = length l1 ∧
    free_ok lo' hi (l1 ++ (off, sz) :: l2).
Proof using Type.
  revert lo'. induction l as [|[o s] l IH]; intros lo'; simpl.
  { intros. by exists [], []. }
  intros (? & ? & ? & Hok) Hsz Hge Hle Hdis.
  setoid_rewrite is_free_cons in Hdis.
  destruct (o <? off) eqn:E.
  - apply Z.ltb_lt in E.
    assert (o + s <= off).
    { destruct (decide (o + s <= off)); [done|].
      destruct (Hdis off); [lia|]. left. lia. }
    destruct (IH _ Hok) as (l1 & l2 & -> & -> & ?); [done..| |].
    { intros i Hi Hf. apply (Hdis i Hi). by right. }
    exists ((o, s) :: l1), l2. simpl. done.
  - apply Z.ltb_ge in E.
    assert (off + sz <= o).
    { destruct (decide (off + sz <= o)); [done|].
      destruct (Hdis o); [lia|]. left. lia. }
    exists [], ((o, s) :: l). simpl. split_and!; done.
Qed.

(** The whole effect of [free] on the list. *)
Lemma free_inv a off sz :
  free_ok lo hi (free_list a) → 0 < sz → lo <= off → off + sz <= hi →
  (∀ i, off <= i < off + sz → ¬ is_free (free_list a) i) →
  ∃ l1 l2, free_list a = l1 ++ l2 ∧ free_ok lo hi (l1 ++ (off, sz) :: l2) ∧
    alignment (free off sz a) = alignment a ∧
    free_list (free off sz a) =
      match last l1 with
      | None => cons_merge off sz l2
      | Some (p, q) => take (pred (length l1)) l1 ++ cons_merge p q (cons_merge off sz l2)
      end.
Proof.
  intros Hok Hsz Hge Hle Hdis.
  destruct (partition_split _ _ _ _ Hok Hsz Hge Hle Hdis) as (l1 & l2 & Hl & Hp & Hins).
  exists l1, l2. split_and!; [done..|].
  rewrite /free /= Hp Hl /vec_insert take_app_length drop_app_length.
  rewrite (merge_next_app lo hi) //.
  destruct (cons_merge_head off sz l2) as (s' & r & Hr).
  assert (free_ok lo hi (l1 ++ (off, s') :: r)) as Hok2.
  { rewrite -Hr. apply free_ok_app in Hins as [? ?%cons_merge_ok].
    apply free_ok_app. done. }
  rewrite Hr. destruct l1 as [|[p q] l0 _] using rev_ind; [done|].
  rewrite (merge_prev_app lo hi) // last_snoc length_app /= Nat.add_1_r /=.
  by rewrite take_app_length.
Qed.

(** [free] keeps the invariant and frees exactly the given bytes. *)
Lemma free_spec a off sz :
  free_ok lo hi (free_list a) → 0 < sz → lo <= off → off + sz <= hi →
  (∀ i, off <= i < off + sz → ¬ is_free (free_list a) i) →
  free_ok lo hi (free_list (free off sz a)) ∧
  (∀ i, is_free (free_list (free off sz a)) i ↔
        is_free (free_list a) i ∨ off <= i < off + sz) ∧
  total_size (free_list (free off sz a)) = total_size (free_list a) + sz ∧
  (coalesced (free_list a) → coalesced (free_list (free off sz a))) ∧
  (off mod 4096 = 0 → offsets_aligned (free_list a) →
   offsets_aligned (free_list (free off sz a))) ∧
  alignment (free off sz a) = alignment a.
Proof.
  intros Hok Hsz Hge Hle Hdis.
  destruct (free_inv _ _ _ Hok Hsz Hge Hle Hdis) as (l1 & l2 & Hl & Hins & Hal & ->).
  rewrite Hl. destruct l1 as [|[p q] l0 _] using rev_ind; simpl.
  - simpl in Hins. split_and!.
    + by apply cons_merge_ok.
    + intros i. rewrite (cons_merge_is_free hi lo) //. tauto.
    + rewrite cons_merge_total. lia.
    + apply cons_merge_coalesced.
    + intros. by apply cons_merge_aligned.
    + done.
  - rewrite last_snoc length_app /= Nat.add_1_r /= take_app_length.
    rewrite -app_assoc /= in Hins. apply free_ok_app in Hins as [H0 Hins].
    pose proof Hins as Hins'. simpl in Hins'. destruct Hins' as (?&?&?&Hins').
    assert (free_ok (ends lo l0) hi ((p, q) :: cons_merge off sz l2)) as Hm.
    { simpl. split_and!; [done..|]. by apply cons_merge_ok. }
    split_and!.
    + apply free_ok_app. split; [done|]. by apply cons_merge_ok.
    + intros i. rewrite !is_free_app (cons_merge_is_free hi (ends lo l0)) //.
      rewrite (cons_merge_is_free hi (p + q)) // is_free_cons is_free_nil. tauto.
    + rewrite !total_size_app !cons_merge_total /=. lia.
    + intros ((Hc0 & _ & Hb)%coalesced_app_iff & Hc2 & _)%coalesced_app_iff.
      apply coalesced_app_iff. split_and!; [done| |].
      * by apply cons_merge_coalesced, cons_merge_coalesced.
      * destruct (cons_merge_head p q (cons_merge off sz l2)) as (s' & r & ->). done.
    + rewrite /offsets_aligned !Forall_app. intros ? [[? [Hp _]%Forall_cons] ?].
      split; [done|]. by apply cons_merge_aligned, cons_merge_aligned.
    + done.
Qed.
End free_facts.

(** ** Canonical form

    A coalesced free list is determined by the set of bytes it covers. *)

Lemma coalesced_cons_not_free lo hi o s l :
  free_ok lo hi ((o, s) :: l) → coalesced ((o, s) :: l) → ¬ is_free ((o, s) :: l) (o + s).
Proof.
  simpl. intros (?&?&?&Hok) Hc. rewrite is_free_cons. intros [?|Hf]; [lia|].
  destruct l as [|[o2 s2] l]; [by rewrite is_free_nil in Hf|].
  destruct Hc as [Hne _]. simpl in Hok. destruct Hok as (?&?&?&Hok).
  apply is_free_cons in Hf as [?|Hf]; [lia|].
  pose proof (is_free_bounds _ _ _ _ Hok Hf). lia.
Qed.

Lemma free_list_canonical lo lo' hi hi' l l' :
  free_ok lo hi l → free_ok lo' hi' l' → coalesced l → coalesced l' →
  (∀ i, is_free l i ↔ is_free l' i) → l = l'.
Proof.
  revert lo lo' l'. induction l as [|[o s] l IH]; intros lo lo' l' Hok Hok' Hc Hc' Heq.
  { destruct l' as [|[o s] l']; [done|]. exfalso. simpl in Hok'.
    apply (is_free_nil o), Heq, is_free_cons. lia. }
  destruct l' as [|[o' s'] l'].
  { exfalso. simpl in Hok. apply (is_free_nil o), Heq, is_free_cons. lia. }
  pose proof Hok as (?&?&?&Hok1). pose proof Hok' as (?&?&?&Hok1').
  assert (∀ x, is_free ((o, s) :: l) x → o <= x) as Hmin.
  { intros x [?|Hx%(is_free_bounds _ _ _ _ Hok1)]%is_free_cons; lia. }
  assert (∀ x, is_free ((o', s') :: l') x → o' <= x) as Hmin'.
  { intros x [?|Hx%(is_free_bounds _ _ _ _ Hok1')]%is_free_cons; lia. }
  assert (o' <= o) by (apply Hmin', Heq, is_free_cons; lia).
  assert (o <= o') by (apply Hmin, Heq, is_free_cons; lia).
  assert (o' = o) as -> by lia.
  assert (s' = s) as ->.
  { pose proof (coalesced_cons_not_free _ _ _ _ _ Hok Hc) as Hn.
    pose proof (coalesced_cons_not_free _ _ _ _ _ Hok' Hc') as Hn'.
    destruct (decide (s < s')).
    { destruct Hn. apply Heq, is_free_cons. lia. }
    destruct (decide (s' < s)); [|lia].
    destruct Hn'. apply Heq, is_free_cons. lia. }
  f_equal. apply (IH (o + s) (o + s)); [done..| | |].
  - destruct l as [|[]]; [done|]. apply Hc.
  - destruct l' as [|[]]; [done|]. apply Hc'.
  - intros i. specialize (Heq i). rewrite !is_free_cons in Heq.
    pose proof (is_free_bounds _ _ l i Hok1). pose proof (is_free_bounds _ _ l' i Hok1').
    intuition lia.
Qed.

(** ** Construction *)

Lemma alloc_new_ok data_start data_end al :
  0 <= data_start → data_end < two64 →
  let a := alloc_new data_start data_end al in
  free_ok data_start data_end (free_list a) ∧ coalesced (free_list a) ∧
  (∀ i, is_free (free_list a) i ↔ data_start <= i < data_end).
Proof.
  intros ?? a. subst a. rewrite /alloc_new. destruct (data_start <? data_end) eqn:E; simpl.
  - apply Z.ltb_lt in E. rewrite wsub_small; [|u64]. split_and!; [lia..| |done|].
    + lia.
    + intros i. rewrite is_free_cons is_free_nil. lia.
  - apply Z.ltb_ge in E. split_and!; [done..|]. intros i. rewrite is_free_nil. lia.
Qed.

Lemma from_free_list_elem fl lo hi r :
  r ∈ free_list (from_free_list fl lo hi) ↔
  r ∈ fl ∧ 0 < r.2 ∧ lo <= r.1 ∧ sat_add r.1 r.2 <= hi.
Proof.
  rewrite /from_free_list /=. destruct r as [o s].
  rewrite !list_elem_of_filter sort_by_key_elem /=. tauto.
Qed.

(** A list that already satisfies the invariant is restored as it is. *)
Lemma free_ok_strongly_sorted lo hi l :
  free_ok lo hi l → StronglySorted (key_le fst) l ∧ Forall (λ r, lo <= r.1) l.
Proof.
  revert lo. induction l as [|[o s] l IH]; intros lo; simpl; [by split; constructor|].
  intros (?&?&?&[Hs Hf]%IH). split; constructor; try done.
  - eapply Forall_impl; [exact Hf|]. intros [o' s']. rewrite /key_le /=. lia.
  - eapply Forall_impl; [exact Hf|]. intros [o' s']. simpl. lia.
Qed.

Lemma free_ok_forall lo hi l :
  free_ok lo hi l → Forall (λ r, lo <= r.1 ∧ 0 < r.2 ∧ r.1 + r.2 <= hi) l.
Proof.
  revert lo. induction l as [|[o s] l IH]; intros lo; simpl; [done|].
  intros (?&?&?&Hl%IH). constructor; [done|].
  eapply Forall_impl; [exact Hl|]. intros [o' s'] (?&?&?). simpl in *. lia.
Qed.

Lemma from_free_list_id fl lo hi :
  0 <= lo → hi < two64 → free_ok lo hi fl → free_list (from_free_list fl lo hi) = fl.
Proof.
  intros Hlo Hhi Hok. rewrite /from_free_list /=.
  rewrite sort_by_key_id; [|by eapply free_ok_strongly_sorted].
  pose proof (free_ok_forall _ _ _ Hok) as Hall.
  rewrite (filter_all (λ '(_, s), 0 < s)); [apply filter_all|].
  all: eapply Forall_impl; [exact Hall|]; intros [o s] (?&?&?); simpl in *; u64.
Qed.

(** Restoring drops exactly the entries that are empty or not inside the data
    area; disjoint entries stay disjoint, so the result is well formed. *)
Lemma sorted_disjoint_ok l lo hi :
  StronglySorted (key_le fst) l →
  Forall (λ r, lo <= r.1 ∧ 0 < r.2 ∧ r.1 + r.2 <= hi) l →
  (∀ i j r1 r2, l !! i = Some r1 → l !! j = Some r2 → i ≠ j → disjoint_regions r1 r2) →
  free_ok lo hi l.
Proof.
  intros Hs. revert lo. induction Hs as [|[o s] l Hs IH Hx]; intros lo Hall Hdis; [done|].
  apply Forall_cons in Hall as [(?&?&?) Hall]. simpl in *. split_and!; [done..|].
  apply IH.
  - rewrite Forall_lookup in Hall. rewrite Forall_lookup in Hx.
    apply Forall_lookup. intros i [o' s'] Hi.
    pose proof (Hall _ _ Hi) as (?&?&?). specialize (Hx _ _ Hi). rewrite /key_le /= in Hx.
    assert (disjoint_regions (o, s) (o', s')) as Hd.
    { by apply (Hdis O (S i)). }
    apply disjoint_regions_iff in Hd; simpl in *; [|done..]. lia.
  - intros i j r1 r2 Hi Hj Hne. apply (Hdis (S i) (S j)); [done..|lia].
Qed.

(** ** Properties *)

(** A well-formed allocator over the data area [[lo, hi)]. *)
Record alloc_wf (lo hi : Z) (a : ExtentAllocator) : Prop := {
  aw_lo : 0 <= lo;
  aw_hi : hi < two64;
  aw_ok : free_ok lo hi (free_list a);
  aw_coalesced : coalesced (free_list a);
  aw_offsets : offsets_aligned (free_list a);
  aw_alignment : alignment a = BLOCK_ALIGNMENT;
}.

(** A request the code can make: a size that alignment does not overflow. *)
Definition request (needed : Z) : Prop := 0 < needed ∧ needed + 4096 < two64.

Lemma request_aligned needed :
  request needed →
  needed <= align_up needed BLOCK_ALIGNMENT < needed + 4096 ∧
  align_up needed BLOCK_ALIGNMENT mod 4096 = 0 ∧ 0 < align_up needed BLOCK_ALIGNMENT.
Proof. intros [??]. pose proof (align_up_bounds needed). lia. Qed.

Lemma alloc_keeps_wf lo hi a a' needed off :
  alloc_wf lo hi a → request needed → alloc needed a = (a', Ok off) → alloc_wf lo hi a'.
Proof.
  intros [? ? ? ? ? Hal] Hr Ha. pose proof (request_aligned _ Hr).
  assert (0 < align_up needed (alignment a)) by (rewrite Hal; lia).
  assert (align_up needed (alignment a) mod 4096 = 0) by (rewrite Hal; lia).
  split; try done.
  - by eapply alloc_preserves_ok.
  - by eapply alloc_coalesced.
  - by eapply alloc_aligned.
  - by destruct (alloc_inv lo hi aw_lo0 aw_hi0 a a' needed off) as (? & ? & ? & ? & ? & ? & -> & ?).
Qed.

Lemma free_keeps_wf lo hi a off sz :
  alloc_wf lo hi a → 0 < sz → lo <= off → off + sz <= hi → off mod 4096 = 0 →
  (∀ i, off <= i < off + sz → ¬ is_free (free_list a) i) →
  alloc_wf lo hi (free off sz a).
Proof.
  intros [? ? ? ? ? Hal] Hsz Hlo Hhi Hoff Hdis.
  destruct (free_spec lo hi aw_lo0 aw_hi0 a off sz) as (? & ? & ? & ? & ? & Hal'); [done..|].
  split; auto.
Qed.

Lemma free_alloc_id lo hi a a' needed off :
  alloc_wf lo hi a → request needed → alloc needed a = (a', Ok off) →
  free off (align_up needed BLOCK_ALIGNMENT) a' = a.
Proof.
  intros Hwf Hr Ha. pose proof (request_aligned _ Hr) as Hn.
  pose proof (alloc_keeps_wf _ _ _ _ _ _ Hwf Hr Ha) as Hwf'.
  destruct Hwf as [? ? ? ? ? Hal]. rewrite -Hal in Hn |- *.
  assert (0 < align_up needed (alignment a)) as Hpos by lia.
  pose proof (alloc_offset lo hi aw_lo0 aw_hi0 _ _ _ _ aw_ok0 Hpos Ha).
  assert (∀ i, _) as Hfree by exact (λ i, alloc_is_free lo hi aw_lo0 aw_hi0 _ _ _ _ i aw_ok0 Hpos Ha).
  destruct Hwf'. destruct (free_spec lo hi aw_lo0 aw_hi0 a' off (align_up needed (alignment a)))
    as (? & Hf & _ & Hc & _ & Hal'); [try done; lia..| |].
  { intros i Hi Hfi. by destruct (Hfree i) as [_ []]. }
  destruct a as [l al], (free off _ a') as [l' al'] eqn:E. simpl in *. f_equal; [|congruence].
  eapply free_list_canonical; [done..|by apply Hc|done|].
  intros i. rewrite Hf. by destruct (Hfree i) as [-> _].
Qed.

(** A client of the allocator: it allocates, and frees what it was given. *)
Inductive client_step : ExtentAllocator * list (Z * Z) → ExtentAllocator * list (Z * Z) → Prop :=
| client_alloc a a' live needed off :
  request needed → alloc needed a = (a', Ok off) →
  client_step (a, live) (a', (off, align_up needed (alignment a)) :: live)
| client_alloc_fails a a' live needed e :
  request needed → alloc needed a = (a', Err e) → client_step (a, live) (a', live)
| client_free a live1 off sz live2 :
  client_step (a, live1 ++ (off, sz) :: live2) (free off sz a, live1 ++ live2).

(** How many of the extents [live] cover byte [i]. *)
Definition owners (live : list (Z * Z)) (i : Z) : nat := length (filter (λ r, covers r i) live).

(** The free list and the live extents tile the data area: every byte is
    either free or in exactly one extent. *)
Record tiles (lo hi : Z) (a : ExtentAllocator) (live : list (Z * Z)) : Prop := {
  tl_wf : alloc_wf lo hi a;
  tl_live : Forall (λ r, lo <= r.1 ∧ 0 < r.2 ∧ r.1 + r.2 <= hi ∧ r.1 mod 4096 = 0) live;
  tl_once i : lo <= i < hi →
    is_free (free_list a) i ∧ owners live i = 0%nat ∨
    ¬ is_free (free_list a) i ∧ owners live i = 1%nat;
  tl_total : total_size (free_list a) + total_size live = hi - lo;
}.

Lemma owners_cons r live i :
  owners (r :: live) i = ((if decide (covers r i) then 1 else 0) + owners live i)%nat.
Proof. rewrite /owners filter_cons. by case_decide. Qed.

#[export] Instance owners_perm : Proper ((≡ₚ) ==> (=) ==> (=)) owners.
Proof. intros l1 l2 Hl i ? <-. rewrite /owners. by rewrite Hl. Qed.

#[export] Instance total_size_perm : Proper ((≡ₚ) ==> (=)) total_size.
Proof. induction 1 as [|[] ?? _ IH|[] []|]; simpl; [done|by rewrite IH|lia|congruence]. Qed.

Lemma tiles_perm lo hi a live live' : live ≡ₚ live' → tiles lo hi a live → tiles lo hi a live'.
Proof. intros Hp []. split; [done|by rewrite -Hp| |by rewrite -Hp]. intros i. by rewrite -Hp; auto. Qed.

(** Two live extents share no byte, and none is free. *)
Lemma tiles_disjoint lo hi a r live r' :
  tiles lo hi a (r :: live) → r' ∈ live → disjoint_regions r r'.
Proof.
  intros [_ Hl Ho _] Hin i Hr Hr'. apply Forall_cons in Hl as [Hb _].
  rewrite /covers in Hr. destruct (Ho i) as [[_ Hc]|[_ Hc]]; [lia|..].
  all: rewrite owners_cons decide_True // in Hc; assert (owners live i = 0%nat) as H0 by lia.
  all: apply length_zero_iff_nil in H0; exact (filter_nil_not_elem_of _ _ _ H0 Hr' Hin).
Qed.

Lemma tiles_not_free lo hi a live r i :
  tiles lo hi a live → r ∈ live → covers r i → ¬ is_free (free_list a) i.
Proof.
  intros [_ Hl Ho _] Hin Hr. rewrite Forall_forall in Hl. specialize (Hl _ Hin).
  rewrite /covers in Hr. destruct (Ho i) as [[_ Hc]|[? _]]; [lia| |done].
  apply length_zero_iff_nil in Hc. intros _. exact (filter_nil_not_elem_of _ _ _ Hc Hr Hin).
Qed.

Lemma tiles_free lo hi a off sz live :
  tiles lo hi a ((off, sz) :: live) → tiles lo hi (free off sz a) live.
Proof.
  intros Ht. pose proof Ht as [Hwf Hlive Honce Htot].
  apply Forall_cons in Hlive as [(?&?&?&?) Hlive]. simpl in *.
  assert (∀ i, off <= i < off + sz → ¬ is_free (free_list a) i) as Hnf.
  { intros i Hi. by eapply (tiles_not_free _ _ _ _ (off, sz)); [exact Ht|by left|]. }
  pose proof Hwf as []. destruct (free_spec lo hi aw_lo0 aw_hi0 a off sz)
    as (_ & Hfree & Hts & _ & _ & _); try done.
  split; [by apply free_keeps_wf|done| |lia].
  intros i Hi. rewrite Hfree. specialize (Honce i Hi). rewrite owners_cons /covers /= in Honce.
  specialize (Hnf i). case_decide; [|intuition lia].
  destruct Honce as [[? ?]|[? ?]]; [by exfalso; apply Hnf|]. left. split; [by right|lia].
Qed.

Lemma tiles_alloc lo hi a a' live needed off :
  tiles lo hi a live → request needed → alloc needed a = (a', Ok off) →
  tiles lo hi a' ((off, align_up needed BLOCK_ALIGNMENT) :: live).
Proof.
  intros [Hwf Hlive Honce Htot] Hr Ha. pose proof (request_aligned _ Hr) as Hn.
  pose proof Hwf as [? ? ? ? ? Hal]. rewrite -Hal in Hn |- *.
  assert (0 < align_up needed (alignment a)) as Hpos by lia.
  pose proof (alloc_offset lo hi aw_lo0 aw_hi0 _ _ _ _ aw_ok0 Hpos Ha).
  pose proof (alloc_total lo hi aw_lo0 aw_hi0 _ _ _ _ aw_ok0 Hpos Ha).
  assert (off mod 4096 = 0) by (eapply (alloc_aligned lo hi); [..|exact Ha]; try done; lia).
  assert (∀ i, _) as Hfree by exact (λ i, alloc_is_free lo hi aw_lo0 aw_hi0 _ _ _ _ i aw_ok0 Hpos Ha).
  split.
  - by eapply alloc_keeps_wf.
  - constructor; [|done]. simpl. lia.
  - intros i Hi. destruct (Hfree i) as [Hf Hx]. rewrite owners_cons /covers /=.
    specialize (Honce i Hi). rewrite Hf in Honce. case_decide; [|tauto].
    destruct Honce as [[_ ->]|[[] _]]; [|by right]. right. split; [|done]. tauto.
  - simpl. lia.
Qed.

Lemma tiles_step lo hi a live a' live' :
  tiles lo hi a live → client_step (a, live) (a', live') → tiles lo hi a' live'.
Proof.
  intros Ht Hs. inversion Hs; subst.
  - rewrite (aw_alignment _ _ _ (tl_wf _ _ _ _ Ht)). by eapply tiles_alloc.
  - pose proof (alloc_fails_iff a needed) as [[_ (? & ? & Ha)]|[_ Ha]].
    all: match goal with H : alloc _ _ = (_, Err _) |- _ => rewrite Ha in H end; by simplify_eq.
  - apply tiles_free. eapply tiles_perm; [|exact Ht]. by rewrite Permutation_middle.
Qed.

Lemma tiles_new lo hi :
  0 <= lo → lo mod 4096 = 0 → lo <= hi → hi < two64 →
  tiles lo hi (alloc_new lo hi BLOCK_ALIGNMENT) [].
Proof.
  intros ? Hm ? ?. destruct (alloc_new_ok lo hi BLOCK_ALIGNMENT) as (?&?&Hf); [done..|].
  split; [|done|..].
  - split; try done. rewrite /alloc_new /offsets_aligned /=. case_match; by repeat constructor.
  - intros i Hi. left. split; [by apply Hf|done].
  - rewrite /alloc_new /=. destruct (lo <? hi) eqn:E; simpl.
    + rewrite wsub_small; [lia|u64].
    + apply Z.ltb_ge in E. lia.
Qed.

(** C27: Allocator invariant. Whatever a client does with [alloc] and [free],
    starting from a fresh allocator, the free list and the client's live
    extents tile the data area: every byte is in exactly one of them, all
    extents are aligned and inside the area, the free list stays sorted and
    coalesced, and no space is lost. *)
Theorem allocator_tiles lo hi a live :
  0 <= lo → lo mod 4096 = 0 → lo <= hi → hi < two64 →
  rtc client_step (alloc_new lo hi BLOCK_ALIGNMENT, []) (a, live) →
  tiles lo hi a live.
Proof.
  intros ? ? ? ? Hsteps.
  assert (∀ s s', rtc client_step s s' → tiles lo hi s.1 s.2 → tiles lo hi s'.1 s'.2) as Hinv.
  { induction 1 as [|[] [] [] Hst]; [done|]. intros Ht. by eauto using tiles_step. }
  apply (Hinv _ _ Hsteps). by apply tiles_new.
Qed.

Lemma allocator_tiles_witness :
  tiles 8192 20480 (mkAllocator [(8192, 4096); (16384, 4096)] BLOCK_ALIGNMENT) [(12288, 4096)].
Proof.
  apply (allocator_tiles 8192 20480); [done..|].
  eapply rtc_l; [by eapply (client_alloc _ _ _ 100)|].
  eapply rtc_l; [by eapply (client_alloc _ _ _ 4096)|].
  eapply rtc_l; [by apply (client_free _ [(12288, 4096)] 8192 4096 [])|].
  apply rtc_refl.
Defined.

(** [alloc] is exact. On a well-formed allocator it never panics; it
    succeeds with an aligned extent that was free, is inside the data area
    and is the first fit, and afterwards exactly those bytes are no longer
    free; or it fails with [NoSpace], which reports the rounded size and the
    largest region, when every region is too small, and changes nothing. *)
Theorem alloc_exact lo hi a needed :
  alloc_wf lo hi a → request needed →
  let n := align_up needed BLOCK_ALIGNMENT in
  let '(a', r) := alloc needed a in
  match r with
  | Ok off =>
    alloc_wf lo hi a' ∧ off mod 4096 = 0 ∧ lo <= off ∧ off + n <= hi ∧ needed <= n ∧
    (∀ i, is_free (free_list a') i ↔ is_free (free_list a) i ∧ ¬ (off <= i < off + n)) ∧
    (∀ i, off <= i < off + n → is_free (free_list a) i) ∧
    (∀ r, r ∈ free_list a → r.1 < off → r.2 < n)
  | Err e =>
    a' = a ∧ e = NoSpace n (largest (free_list a)) ∧ Forall (λ r, r.2 < n) (free_list a)
  | Panic => False
  end.
Proof.
  intros Hwf Hr n. pose proof (request_aligned _ Hr) as Hn. pose proof Hwf as [? ? ? ? ? Hal].
  fold n in Hn. destruct (alloc needed a) as [a' res] eqn:Ha.
  pose proof (alloc_fails_iff a needed) as Hcase. rewrite Hal -/n in Hcase.
  destruct Hcase as [[_ (a1 & off & Ha1)]|[Hall Ha1]]; rewrite Ha1 in Ha; simplify_eq; [|done].
  rewrite -Hal in n Hn |- *. assert (0 < n) as Hpos by lia.
  pose proof (alloc_offset lo hi aw_lo0 aw_hi0 _ _ _ _ aw_ok0 Hpos Ha1).
  assert (∀ i, _) as Hfree by exact (λ i, alloc_is_free lo hi aw_lo0 aw_hi0 _ _ _ _ i aw_ok0 Hpos Ha1).
  split_and!; [by eapply alloc_keeps_wf| |lia..| | |].
  - eapply (alloc_aligned lo hi); [..|exact Ha1]; first [done | by apply Hn].
  - intros i. destruct (Hfree i) as [? Hx]. fold n in Hx. tauto.
  - intros i Hi. apply Hfree. by right.
  - intros r Hin Hlt.
    destruct (alloc_inv lo hi aw_lo0 aw_hi0 _ _ _ _ aw_ok0 Hpos Ha1)
      as (l1 & size & l2 & Hl & Hsz & Hbig & _).
    rewrite Hl in Hin aw_ok0. apply free_ok_split in aw_ok0 as (_ & _ & ? & _ & Hl2).
    apply elem_of_app in Hin as [Hin|[->|Hin]%elem_of_cons].
    + rewrite Forall_forall in Hbig. by apply Hbig.
    + simpl in Hlt. lia.
    + apply free_ok_forall in Hl2. rewrite Forall_forall in Hl2. specialize (Hl2 _ Hin). lia.
Qed.

Lemma alloc_exact_witness :
  alloc 5000 (mkAllocator [(8192, 4096); (16384, 12288)] 4096) =
    (mkAllocator [(8192, 4096); (24576, 4096)] 4096, Ok 16384) ∧
  alloc_wf 8192 28672 (mkAllocator [(8192, 4096); (24576, 4096)] 4096).
Proof.
  split; [reflexivity|].
  assert (alloc_wf 8192 28672 (mkAllocator [(8192, 4096); (16384, 12288)] 4096)) as Hwf
    by (split; simpl; split_and?; first [done | by repeat constructor]).
  assert (request 5000) as Hr by done.
  exact (proj1 (alloc_exact 8192 28672 _ 5000 Hwf Hr)).
Defined.

(** [free] undoes [alloc]. Giving back the extent just allocated restores
    the allocator exactly, coalescing it with its neighbours on both sides. *)
Theorem free_alloc_inverse lo hi a a' needed off :
  alloc_wf lo hi a → request needed → alloc needed a = (a', Ok off) →
  free off (align_up needed BLOCK_ALIGNMENT) a' = a.
Proof. apply free_alloc_id. Qed.

Lemma free_alloc_inverse_witness :
  free 8192 (align_up 100 BLOCK_ALIGNMENT) (mkAllocator [(12288, 4096)] 4096) =
  mkAllocator [(8192, 8192)] 4096.
Proof.
  apply (free_alloc_inverse 8192 16384 _ _ 100); [|done|reflexivity].
  split; simpl; split_and?; first [done | by repeat constructor].
Defined.
