(* ===== verification/Extent.v ===== *)
(** * CRC-protected extents ([rawobjstr/src/extent.rs])

    An object's payload is stored as 4096-byte blocks, each a 4-byte CRC32c
    followed by 4092 bytes of data.  This file models the encoder, the batched
    and streaming writers, the decoders and the streaming readers, and relates
    every one of them to the reference [encode_blocks]. *)

From S2P Require Import Prelude.
From S2P Require Import Config.
From S2P Require Import Device.

(** ** The checksum

    [crc32c] is the external crate; the code relies on it being a function
    with 32-bit results that can be computed incrementally. *)
Class Crc32c : Type := {
  crc32c : list byte → Z;
  crc32c_append : Z → list byte → Z;
}.

Class Crc32cLaws `{Crc32c} : Prop := {
  crc32c_range l : 0 <= crc32c l < 2 ^ 32;
  crc32c_nil : crc32c [] = 0;
  crc32c_append_app l1 l2 : crc32c_append (crc32c l1) l2 = crc32c (l1 ++ l2);
}.

(** ** Sizes *)

Definition BLOCK_CRC_SIZE : Z := 4.
Definition BLOCK_DATA_SIZE : Z := BLOCK_ALIGNMENT - BLOCK_CRC_SIZE.
Definition BATCH_BLOCKS : Z := 256.

Definition div_ceil (a b : Z) : Z := (a + b - 1) / b.

Definition num_blocks (payload_size : Z) : Z :=
  if payload_size =? 0 then 0 else div_ceil payload_size BLOCK_DATA_SIZE.

Definition padded_extent_size (payload_size : Z) : Res RawStoreError Z :=
  ok_or (checked_mul (num_blocks payload_size) BLOCK_ALIGNMENT)
        (ExtentInvalid "padded_extent_size: block count overflow").

Section extent.
Context `{Crc32c}.

(** ** Encoding *)

(** One block, from its 4092 data bytes. *)
Definition crc_block (data : list byte) : list byte := to_le_bytes 4 (crc32c data) ++ data.

(** The data region of block [i]: the payload bytes that fall in it, then
    zeros (the buffer starts zeroed). *)
Definition data_region (payload : list byte) (i : Z) : list byte :=
  let payload_start := i * BLOCK_DATA_SIZE in
  let payload_end := Z.min (payload_start + BLOCK_DATA_SIZE) (zlen payload) in
  ztake (payload_end - payload_start) (zdrop payload_start payload) ++
  replicate (Z.to_nat (BLOCK_DATA_SIZE - (payload_end - payload_start))) Byte.x00.

Definition encode_block (payload : list byte) (i : Z) : list byte :=
  crc_block (data_region payload i).

(** The blocks [first .. last) of the encoding, as the encoders' inner loop
    lays them out. *)
Definition encode_range (payload : list byte) (first last : Z) : list byte :=
  concat (encode_block payload <$> seqZ first (last - first)).

Definition encode_blocks (payload : list byte) : list byte :=
  encode_range payload 0 (num_blocks (zlen payload)).

(** ** Decoding *)

Definition verify_block_crc (block : list byte) (block_label : Z) : Res RawStoreError (list byte) :=
  let stored_crc := from_le_bytes (ztake BLOCK_CRC_SIZE block) in
  let data := zdrop BLOCK_CRC_SIZE block in
  let actual_crc := crc32c data in
  if stored_crc =? actual_crc then Ok data
  else Err (DataCorruption ("block " +:+ pretty block_label) stored_crc actual_crc).

(** The loop shared by the whole-extent readers: verify the next block of
    [raw], keep the bytes still missing from the payload.  The state is the
    bytes collected and the number of payload bytes consumed so far; a block
    that fails keeps the progress made before it. *)
Fixpoint take_blocks (n : nat) (label : Z) (raw : list byte) (total : Z) :
    SM (list byte * Z) RawStoreError unit :=
  match n with
  | O => sm_ret tt
  | S n' => λ '(chunk, consumed),
    match verify_block_crc (ztake BLOCK_ALIGNMENT raw) label with
    | Ok data =>
      let take := Z.min (total -! consumed) BLOCK_DATA_SIZE in
      take_blocks n' (label + 1) (zdrop BLOCK_ALIGNMENT raw) total
        (chunk ++ ztake take data, consumed + take)
    | Err e => ((chunk, consumed), Err e)
    | Panic => ((chunk, consumed), Panic)
    end
  end.

Definition decode_blocks (raw : list byte) (expected_content_len : Z) :
    Res RawStoreError (list byte) :=
  let n := zlen raw / BLOCK_ALIGNMENT in
  match take_blocks (Z.to_nat n) 0 raw expected_content_len ([], 0) with
  | ((content, _), Ok _) => Ok content
  | (_, Err e) => Err e
  | (_, Panic) => Panic
  end.

(** The loop of [decode_block_range]: block [label] holds the content bytes
    from [label * 4092]; keep its overlap with [[start, end_)]. *)
Fixpoint range_blocks (n : nat) (label : Z) (raw : list byte) (start end_ : Z)
    (result : list byte) : Res RawStoreError (list byte) :=
  match n with
  | O => Ok result
  | S n' =>
    match verify_block_crc (ztake BLOCK_ALIGNMENT raw) label with
    | Ok data =>
      let block_content_start := label * BLOCK_DATA_SIZE in
      let block_content_end := block_content_start + BLOCK_DATA_SIZE in
      let overlap_start := Z.max start block_content_start in
      let overlap_end := Z.min end_ block_content_end in
      let piece :=
        if overlap_start <? overlap_end
        then ztake (overlap_end - overlap_start)
               (zdrop (overlap_start - block_content_start) data)
        else [] in
      range_blocks n' (label + 1) (zdrop BLOCK_ALIGNMENT raw) start end_ (result ++ piece)
    | Err e => Err e
    | Panic => Panic
    end
  end.

Definition decode_block_range (raw : list byte) (first_block_idx start end_ : Z) :
    Res RawStoreError (list byte) :=
  let n := zlen raw / BLOCK_ALIGNMENT in
  range_blocks (Z.to_nat n) first_block_idx raw start end_ [].

(** ** The batched writer and reader *)

Fixpoint write_batches (fuel : nat) (extent_offset : Z) (payload : list byte)
    (n block_idx : Z) : SM DeviceIo RawStoreError unit :=
  match fuel with
  | O => if block_idx <? n then sm_panic else sm_ret tt
  | S fuel' =>
    if block_idx <? n then
      let batch_end := Z.min (block_idx + BATCH_BLOCKS) n in
      let buf := encode_range payload block_idx batch_end in
      let disk_offset := extent_offset +! block_idx *! BLOCK_ALIGNMENT in
      pwrite disk_offset buf ;;;
      write_batches fuel' extent_offset payload n batch_end
    else sm_ret tt
  end.

Definition encode_and_write_batched (extent_offset : Z) (payload : list byte) :
    SM DeviceIo RawStoreError unit :=
  let n := num_blocks (zlen payload) in
  write_batches (Z.to_nat n) extent_offset payload n 0.

Fixpoint read_batches (fuel : nat) (io : DeviceIo) (extent_offset payload_len n block_idx : Z)
    (payload : list byte) : Res RawStoreError (list byte) :=
  match fuel with
  | O => if block_idx <? n then Panic else Ok payload
  | S fuel' =>
    if block_idx <? n then
      let batch_end := Z.min (block_idx + BATCH_BLOCKS) n in
      let batch_count := batch_end - block_idx in
      let disk_offset := extent_offset +! block_idx *! BLOCK_ALIGNMENT in
      match pread disk_offset (batch_count * BLOCK_ALIGNMENT) io with
      | Ok raw =>
        match take_blocks (Z.to_nat batch_count) block_idx raw payload_len
                (payload, zlen payload) with
        | ((payload, _), Ok _) =>
          read_batches fuel' io extent_offset payload_len n batch_end payload
        | (_, Err e) => Err e
        | (_, Panic) => Panic
        end
      | Err e => Err e
      | Panic => Panic
      end
    else Ok payload
  end.

Definition read_and_decode_batched (io : DeviceIo) (extent_offset payload_size : Z) :
    Res RawStoreError (list byte) :=
  let n := num_blocks payload_size in
  read_batches (Z.to_nat n) io extent_offset payload_size n 0 [].

(** ** The streaming writer *)

Record StreamingBlockWriter : Type := mkWriter {
  w_io : DeviceIo;
  w_extent_offset : Z;
  batch : list byte;
  blocks_in_batch : Z;
  partial : list byte;
  blocks_written : Z;
}.

Definition writer_new (io : DeviceIo) (extent_offset : Z) : StreamingBlockWriter :=
  mkWriter io extent_offset [] 0 [] 0.

Definition flush_batch : SM StreamingBlockWriter RawStoreError unit := λ w,
  let disk_offset := w_extent_offset w +! blocks_written w *! BLOCK_ALIGNMENT in
  match pwrite disk_offset (batch w) (w_io w) with
  | (io, Ok _) =>
    (mkWriter io (w_extent_offset w) [] 0 (partial w) (blocks_written w + blocks_in_batch w),
     Ok tt)
  | (io, Err e) =>
    (mkWriter io (w_extent_offset w) (batch w) (blocks_in_batch w) (partial w) (blocks_written w),
     Err e)
  | (io, Panic) =>
    (mkWriter io (w_extent_offset w) (batch w) (blocks_in_batch w) (partial w) (blocks_written w),
     Panic)
  end.

Definition seal_block : SM StreamingBlockWriter RawStoreError unit := λ w,
  let w := mkWriter (w_io w) (w_extent_offset w) (batch w ++ crc_block (partial w))
             (blocks_in_batch w + 1) [] (blocks_written w) in
  if blocks_in_batch w =? BATCH_BLOCKS then flush_batch w else (w, Ok tt).

Fixpoint write_chunk_loop (fuel : nat) (data : list byte) :
    SM StreamingBlockWriter RawStoreError unit := λ w,
  match data with
  | [] => (w, Ok tt)
  | _ =>
    match fuel with
    | O => (w, Panic)
    | S fuel' =>
      let space := BLOCK_DATA_SIZE - zlen (partial w) in
      let take := Z.min (zlen data) space in
      let w := mkWriter (w_io w) (w_extent_offset w) (batch w) (blocks_in_batch w)
                 (partial w ++ ztake take data) (blocks_written w) in
      let data := zdrop take data in
      if zlen (partial w) =? BLOCK_DATA_SIZE
      then (seal_block ;;; write_chunk_loop fuel' data) w
      else write_chunk_loop fuel' data w
    end
  end.

(** [write_chunk]; one iteration consumes at least one byte. *)
Definition write_chunk (data : list byte) : SM StreamingBlockWriter RawStoreError unit :=
  write_chunk_loop (length data) data.

Definition writer_finish : SM StreamingBlockWriter RawStoreError unit :=
  (λ w, if partial w is [] then (w, Ok tt)
        else seal_block
               (mkWriter (w_io w) (w_extent_offset w) (batch w) (blocks_in_batch w)
                  (partial w ++
                   replicate (Z.to_nat (BLOCK_DATA_SIZE - zlen (partial w))) Byte.x00)
                  (blocks_written w))) ;;;
  (λ w, if 0 <? blocks_in_batch w then flush_batch w else (w, Ok tt)).

(** ** The streaming reader *)

Record StreamingBlockReader : Type := mkReader {
  r_io : DeviceIo;
  r_extent_offset : Z;
  total_blocks : Z;
  payload_len : Z;
  block_idx : Z;
  payload_consumed : Z;
}.

Definition reader_new (io : DeviceIo) (extent_offset payload_size : Z) : StreamingBlockReader :=
  mkReader io extent_offset (num_blocks payload_size) payload_size 0 0.

Definition with_progress (idx consumed : Z) (r : StreamingBlockReader) : StreamingBlockReader :=
  mkReader (r_io r) (r_extent_offset r) (total_blocks r) (payload_len r) idx consumed.

Definition next_chunk : SM StreamingBlockReader RawStoreError (option (list byte)) := λ r,
  if total_blocks r <=? block_idx r then (r, Ok None)
  else
    let batch_end := Z.min (block_idx r + BATCH_BLOCKS) (total_blocks r) in
    let batch_count := batch_end - block_idx r in
    let disk_offset := r_extent_offset r +! block_idx r *! BLOCK_ALIGNMENT in
    match pread disk_offset (batch_count * BLOCK_ALIGNMENT) (r_io r) with
    | Ok raw =>
      match take_blocks (Z.to_nat batch_count) (block_idx r) raw (payload_len r)
              ([], payload_consumed r) with
      | ((chunk, consumed), Ok _) => (with_progress batch_end consumed r, Ok (Some chunk))
      | ((_, consumed), Err e) => (with_progress (block_idx r) consumed r, Err e)
      | ((_, consumed), Panic) => (with_progress (block_idx r) consumed r, Panic)
      end
    | Err e => (r, Err e)
    | Panic => (r, Panic)
    end.

(** The [std::io::Read] adapter. [err] is the sticky error. *)
Record BlockReaderIo : Type := mkBlockReaderIo {
  reader : StreamingBlockReader;
  rbuf : list byte;
  rpos : Z;
  rerr : option RawStoreError;
}.

Definition block_reader_new (io : DeviceIo) (extent_offset payload_size : Z) : BlockReaderIo :=
  mkBlockReaderIo (reader_new io extent_offset payload_size) [] 0 None.

(** [read(&mut dst)]: the bytes copied to the front of [dst].  A fetched
    chunk is drained in the next iteration, so two iterations are enough. *)
Fixpoint read_loop (fuel : nat) (dst_len : Z) : SM BlockReaderIo RawStoreError (list byte) := λ b,
  if rpos b <? zlen (rbuf b) then
    let available := zlen (rbuf b) - rpos b in
    let n := Z.min available dst_len in
    (mkBlockReaderIo (reader b) (rbuf b) (rpos b + n) (rerr b), Ok (ztake n (zdrop (rpos b) (rbuf b))))
  else
    match fuel with
    | O => (b, Panic)
    | S fuel' =>
      match next_chunk (reader b) with
      | (r, Ok (Some ((_ :: _) as chunk))) =>
        read_loop fuel' dst_len (mkBlockReaderIo r chunk 0 (rerr b))
      | (r, Ok _) => (mkBlockReaderIo r (rbuf b) (rpos b) (rerr b), Ok [])
      | (r, Err e) => (mkBlockReaderIo r (rbuf b) (rpos b) (Some e), Err e)
      | (r, Panic) => (mkBlockReaderIo r (rbuf b) (rpos b) (rerr b), Panic)
      end
    end.

Definition block_reader_read (dst_len : Z) : SM BlockReaderIo RawStoreError (list byte) := λ b,
  match rerr b with
  | Some e => (b, Err e)
  | None => read_loop 2 dst_len b
  end.
End extent.

(** ** Arithmetic of blocks *)

Ltac blk := unfold BLOCK_DATA_SIZE, BLOCK_CRC_SIZE, BLOCK_ALIGNMENT, BATCH_BLOCKS in *; lia.

Lemma BLOCK_DATA_SIZE_val : BLOCK_DATA_SIZE = 4092.
Proof. done. Qed.

Lemma num_blocks_eq s : 0 <= s → num_blocks s = (s + 4091) / 4092.
Proof.
  intros. rewrite /num_blocks. destruct (s =? 0) eqn:E.
  - by apply Z.eqb_eq in E as ->.
  - rewrite /div_ceil BLOCK_DATA_SIZE_val. f_equal. lia.
Qed.

(** [num_blocks s] is the least number of blocks that holds [s] bytes. *)
Lemma num_blocks_spec s :
  0 <= s → s <= num_blocks s * 4092 ∧ num_blocks s * 4092 < s + 4092 ∧ 0 <= num_blocks s.
Proof.
  intros Hs. rewrite num_blocks_eq //.
  pose proof (Z.div_mod (s + 4091) 4092). pose proof (Z.mod_pos_bound (s + 4091) 4092).
  assert (0 <= (s + 4091) / 4092) by (apply Z.div_pos; lia). lia.
Qed.

Lemma num_blocks_pos s : 0 < s → 0 < num_blocks s.
Proof. intros. pose proof (num_blocks_spec s). lia. Qed.

Lemma num_blocks_cons s : 0 <= s → num_blocks (4092 + s) = 1 + num_blocks s.
Proof.
  intros. rewrite !num_blocks_eq; [|lia..].
  replace (4092 + s + 4091) with (s + 4091 + 1 * 4092) by lia. rewrite Z.div_add //. lia.
Qed.

Lemma num_blocks_one s : 0 < s <= 4092 → num_blocks s = 1.
Proof. intros. pose proof (num_blocks_spec s). lia. Qed.

Lemma padded_extent_size_ok s p :
  0 <= s → padded_extent_size s = Ok p → p = num_blocks s * 4096 ∧ p < two64.
Proof.
  intros Hs. rewrite /padded_extent_size /checked_mul /BLOCK_ALIGNMENT.
  destruct (num_blocks s * 4096 <? two64) eqn:E; [|done]. apply Z.ltb_lt in E.
  by intros [= <-].
Qed.

(** ** Regions and their encoding *)

Section extent_facts.
Context `{Crc32cLaws}.

Definition regions (p : list byte) : list (list byte) :=
  data_region p <$> seqZ 0 (num_blocks (zlen p)).

Lemma encode_blocks_regions p : encode_blocks p = concat (crc_block <$> regions p).
Proof.
  rewrite /encode_blocks /encode_range Z.sub_0_r /regions.
  by rewrite -(list_fmap_compose (data_region p) crc_block).
Qed.

Lemma data_region_zlen p i :
  0 <= i → i * 4092 <= zlen p → zlen (data_region p i) = 4092.
Proof.
  intros. rewrite /data_region BLOCK_DATA_SIZE_val zlen_app zlen_replicate; [|lia].
  rewrite zlen_ztake; [|lia]. rewrite zlen_zdrop; lia.
Qed.

Lemma regions_zlen p : Forall (λ r, zlen r = 4092) (regions p).
Proof.
  apply Forall_fmap, Forall_forall. intros i Hi%elem_of_seqZ. simpl.
  pose proof (num_blocks_spec (zlen p) (zlen_nonneg p)).
  apply data_region_zlen; lia.
Qed.

Lemma length_regions p : Z.of_nat (length (regions p)) = num_blocks (zlen p).
Proof.
  rewrite /regions length_fmap length_seqZ.
  pose proof (num_blocks_spec (zlen p) (zlen_nonneg p)). lia.
Qed.

Lemma regions_cons r p : zlen r = 4092 → regions (r ++ p) = r :: regions p.
Proof.
  intros Hr. rewrite /regions zlen_app Hr num_blocks_cons; [|apply zlen_nonneg].
  pose proof (num_blocks_spec (zlen p) (zlen_nonneg p)).
  rewrite (seqZ_cons 0); [|lia]. rewrite fmap_cons. f_equal.
  - rewrite /data_region BLOCK_DATA_SIZE_val zlen_app Hr.
    pose proof (zlen_nonneg p).
    rewrite Z.mul_0_l zdrop_0 Z.min_l; [|lia].
    rewrite Z.sub_0_r Z.add_0_l ztake_app_exact // Z.sub_diag /= app_nil_r. done.
  - replace (Z.pred (1 + num_blocks (zlen p))) with (num_blocks (zlen p)) by lia.
    rewrite -(fmap_add_seqZ 1 0) -(list_fmap_compose (Z.add 1) (data_region (r ++ p))).
    apply list_fmap_ext. intros k x Hx%lookup_seqZ. simpl.
    rewrite /data_region BLOCK_DATA_SIZE_val zlen_app Hr.
    assert (zdrop ((1 + x) * 4092) (r ++ p) = zdrop (x * 4092) p) as ->.
    { rewrite -{2}(zdrop_app_exact 4092 r p Hr). rewrite zdrop_zdrop; [|lia..].
      f_equal. lia. }
    do 2 f_equal; [lia|]. f_equal. lia.
Qed.

Lemma regions_small p : 0 < zlen p <= 4092 →
  regions p = [p ++ replicate (Z.to_nat (4092 - zlen p)) Byte.x00].
Proof.
  intros Hp. rewrite /regions num_blocks_one //. simpl. f_equal.
  rewrite /data_region BLOCK_DATA_SIZE_val Z.mul_0_l zdrop_0 Z.add_0_l Z.sub_0_r Z.min_r; [|lia].
  by rewrite ztake_ge.
Qed.

Lemma regions_nil : regions [] = [].
Proof. done. Qed.

(** Induction on a payload, block by block. *)
Lemma payload_ind (P : list byte → Prop) :
  P [] → (∀ p, 0 < zlen p <= 4092 → P p) →
  (∀ r p, zlen r = 4092 → P p → P (r ++ p)) → ∀ p, P p.
Proof.
  intros Hnil Hsmall Hcons p.
  remember (length p) as n eqn:Hn. revert p Hn.
  induction (lt_wf n) as [n _ IH]. intros p ->.
  destruct (decide (zlen p = 0)) as [Hz|Hz].
  { apply zlen_zero_nil in Hz as ->. done. }
  destruct (decide (zlen p <= 4092)) as [?|Hbig].
  { apply Hsmall. pose proof (zlen_nonneg p). lia. }
  rewrite -(ztake_zdrop 4092 p). apply Hcons.
  - rewrite zlen_ztake; lia.
  - eapply IH; [|done]. rewrite /zdrop length_drop. rewrite /zlen in Hbig. lia.
Qed.

Lemma concat_regions p : ∃ z, concat (regions p) = p ++ replicate z Byte.x00.
Proof.
  induction p as [| p Hp | r p Hr [z IH]] using payload_ind.
  - by exists O.
  - rewrite regions_small //=. rewrite app_nil_r. eauto.
  - rewrite regions_cons //=. rewrite IH app_assoc. eauto.
Qed.

Lemma concat_uniform {A} (k : Z) (ls : list (list A)) :
  Forall (λ l, zlen l = k) ls → zlen (concat ls) = k * zlen ls.
Proof.
  induction 1 as [|l ls Hl Hls IH]; simpl; [rewrite !zlen_nil; lia|].
  rewrite zlen_app zlen_cons IH Hl. lia.
Qed.

Lemma crc_block_zlen data : zlen (crc_block data) = 4 + zlen data.
Proof. by rewrite /crc_block zlen_app to_le_bytes_zlen. Qed.

Lemma crc_blocks_zlen rs :
  Forall (λ r, zlen r = 4092) rs → zlen (concat (crc_block <$> rs)) = 4096 * zlen rs.
Proof.
  intros Hrs. rewrite (concat_uniform 4096).
  - by rewrite /zlen length_fmap.
  - apply Forall_fmap. eapply Forall_impl; [exact Hrs|].
    intros r Hr. rewrite /= crc_block_zlen Hr. done.
Qed.

Lemma encode_blocks_zlen p : zlen (encode_blocks p) = num_blocks (zlen p) * 4096.
Proof.
  rewrite encode_blocks_regions crc_blocks_zlen; [|apply regions_zlen].
  change (zlen (regions p)) with (Z.of_nat (length (regions p))). rewrite length_regions. lia.
Qed.

Lemma encode_blocks_nonempty p : p ≠ [] → encode_blocks p ≠ [].
Proof.
  intros Hp Hn. pose proof (encode_blocks_zlen p) as Hl. rewrite Hn zlen_nil in Hl.
  pose proof (num_blocks_spec (zlen p) (zlen_nonneg p)). apply Hp, zlen_zero_nil.
  pose proof (zlen_nonneg p). lia.
Qed.

Lemma encode_range_app p a b c :
  a <= b → b <= c → encode_range p a c = encode_range p a b ++ encode_range p b c.
Proof.
  intros. rewrite /encode_range. replace (c - a) with ((b - a) + (c - b)) by lia.
  rewrite seqZ_app; [|lia..]. rewrite fmap_app concat_app. do 3 f_equal. f_equal; lia.
Qed.

Lemma encode_range_zlen p a b :
  0 <= a → a <= b → b <= num_blocks (zlen p) → zlen (encode_range p a b) = (b - a) * 4096.
Proof.
  intros. rewrite /encode_range (concat_uniform 4096).
  - rewrite /zlen length_fmap length_seqZ. lia.
  - apply Forall_fmap, Forall_forall. intros i Hi%elem_of_seqZ. simpl.
    pose proof (num_blocks_spec (zlen p) (zlen_nonneg p)).
    rewrite /encode_block crc_block_zlen data_region_zlen; lia.
Qed.

(** *** Verification of one block *)

Lemma verify_crc_block data label : verify_block_crc (crc_block data) label = Ok data.
Proof.
  rewrite /verify_block_crc /crc_block.
  rewrite ztake_app_exact ?to_le_bytes_zlen // zdrop_app_exact ?to_le_bytes_zlen //.
  rewrite from_to_le_bytes; [|apply crc32c_range]. by rewrite Z.eqb_refl.
Qed.

Lemma verify_block_crc_inv block label data :
  verify_block_crc block label = Ok data →
  data = zdrop 4 block ∧ from_le_bytes (ztake 4 block) = crc32c data.
Proof.
  rewrite /verify_block_crc. destruct (_ =? _) eqn:E; [|done].
  apply Z.eqb_eq in E. by intros [= <-].
Qed.

(** *** The readers' loop *)

Lemma take_blocks_ok rs label extra total chunk consumed :
  Forall (λ r, zlen r = 4092) rs → 0 <= consumed <= total → total < two64 →
  take_blocks (length rs) label (concat (crc_block <$> rs) ++ extra) total (chunk, consumed) =
  ((chunk ++ ztake (total - consumed) (concat rs),
    consumed + Z.min (total - consumed) (4092 * zlen rs)), Ok tt).
Proof.
  intros Hrs. revert label chunk consumed.
  induction Hrs as [|r rs Hr Hrs IH]; intros label chunk consumed Hc Ht.
  { cbn. rewrite /sm_ret /ztake take_nil app_nil_r zlen_nil. do 3 f_equal. lia. }
  cbn [length take_blocks fmap list_fmap concat].
  rewrite -app_assoc ztake_app_exact; [|rewrite crc_block_zlen Hr; blk].
  rewrite zdrop_app_exact; [|rewrite crc_block_zlen Hr; blk].
  rewrite verify_crc_block. cbn iota beta. rewrite wsub_small; [|u64].
  rewrite BLOCK_DATA_SIZE_val. rewrite IH; [|lia..].
  pose proof (zlen_nonneg rs). rewrite zlen_cons -app_assoc. do 2 f_equal; [|lia].
  f_equal.
  destruct (decide (total - consumed <= 4092)).
  - rewrite Z.min_l //. replace (total - (consumed + (total - consumed))) with 0 by lia.
    rewrite ztake_0 app_nil_r ztake_app_le //. lia.
  - rewrite Z.min_r; [|lia].
    replace (total - consumed) with (4092 + (total - (consumed + 4092))) by lia.
    rewrite ztake_add; [|lia..]. rewrite (ztake_app_exact 4092) // (zdrop_app_exact 4092) //.
    by rewrite (ztake_ge 4092 r); [|lia].
Qed.
End extent_facts.

(** ** Slicing a uniform concatenation *)

Lemma ztake_concat {A} (k a : Z) (ls : list (list A)) :
  Forall (λ l, zlen l = k) ls → 0 <= k → 0 <= a → ztake (a * k) (concat ls) = concat (ztake a ls).
Proof.
  intros Hls Hk. revert a. induction Hls as [|l ls Hl Hls IH]; intros a Ha.
  { by rewrite /ztake !take_nil. }
  destruct (decide (a = 0)) as [->|Hne]; [done|].
  replace (a * k) with (k + (a - 1) * k) by lia. rewrite ztake_add; [|nia..].
  simpl. rewrite ztake_app_exact // zdrop_app_exact // IH; [|lia].
  rewrite /ztake. replace (Z.to_nat a) with (S (Z.to_nat (a - 1))) by lia. done.
Qed.

Lemma zdrop_concat {A} (k a : Z) (ls : list (list A)) :
  Forall (λ l, zlen l = k) ls → 0 <= k → 0 <= a → zdrop (a * k) (concat ls) = concat (zdrop a ls).
Proof.
  intros Hls Hk. revert a. induction Hls as [|l ls Hl Hls IH]; intros a Ha.
  { by rewrite /zdrop !drop_nil. }
  destruct (decide (a = 0)) as [->|Hne]; [done|].
  replace (a * k) with (k + (a - 1) * k) by lia.
  rewrite -zdrop_zdrop_add; [|nia..]. simpl. rewrite zdrop_app_exact // IH; [|lia].
  rewrite /zdrop. replace (Z.to_nat a) with (S (Z.to_nat (a - 1))) by lia. done.
Qed.

(** The elements [a .. b) of a list. *)
Definition subl {A} (a b : Z) (l : list A) : list A := ztake (b - a) (zdrop a l).

Lemma Forall_subl {A} (P : A → Prop) a b l : Forall P l → Forall P (subl a b l).
Proof. intros. by apply Forall_take, Forall_drop. Qed.

Lemma zlen_subl {A} a b (l : list A) :
  0 <= a → a <= b → b <= zlen l → zlen (subl a b l) = b - a.
Proof. intros. rewrite /subl zlen_ztake; [|lia]. rewrite zlen_zdrop; lia. Qed.

Lemma length_subl {A} a b (l : list A) :
  0 <= a → a <= b → b <= zlen l → length (subl a b l) = Z.to_nat (b - a).
Proof.
  intros Ha Hab Hb. pose proof (zlen_subl a b l Ha Hab Hb) as Hz.
  rewrite {1}/zlen in Hz. lia.
Qed.

Section codec_facts.
Context `{Crc32cLaws}.

Lemma crc_blocks_uniform rs :
  Forall (λ r, zlen r = 4092) rs → Forall (λ b, zlen b = 4096) (crc_block <$> rs).
Proof.
  intros Hrs. apply Forall_fmap. eapply Forall_impl; [exact Hrs|].
  intros r Hr. by rewrite /= crc_block_zlen Hr.
Qed.

Lemma subl_encode rs a b :
  Forall (λ r, zlen r = 4092) rs → 0 <= a → a <= b →
  ztake ((b - a) * 4096) (zdrop (a * 4096) (concat (crc_block <$> rs))) =
  concat (crc_block <$> subl a b rs).
Proof.
  intros Hrs ??. pose proof (crc_blocks_uniform _ Hrs) as Hu.
  rewrite (zdrop_concat 4096) //. rewrite (ztake_concat 4096); [|by apply Forall_drop|lia..].
  by rewrite /subl /ztake /zdrop fmap_take fmap_drop.
Qed.

Lemma subl_concat_regions p a b :
  0 <= a → a <= b →
  concat (subl a b (regions p)) =
  ztake ((b - a) * 4092) (zdrop (a * 4092) (concat (regions p))).
Proof.
  intros. rewrite (zdrop_concat 4092); [|apply regions_zlen|lia..].
  rewrite (ztake_concat 4092); [|apply Forall_drop, regions_zlen|lia..]. done.
Qed.

(** One more batch of regions extends the payload read so far. *)
Lemma payload_step p a b :
  0 <= a → a < b → b <= num_blocks (zlen p) →
  ztake (a * 4092) p ++ ztake (zlen p - a * 4092) (concat (subl a b (regions p))) =
  ztake (b * 4092) p.
Proof.
  intros. pose proof (num_blocks_spec (zlen p) (zlen_nonneg p)).
  rewrite subl_concat_regions; [|lia..]. destruct (concat_regions p) as [z ->].
  replace (b * 4092) with (a * 4092 + (b - a) * 4092) by lia.
  rewrite ztake_add; [|lia..]. f_equal.
  rewrite zdrop_app_le; [|lia]. rewrite ztake_ztake.
  assert (zlen (zdrop (a * 4092) p) = zlen p - a * 4092) as Hl by (rewrite zlen_zdrop; lia).
  destruct (decide (zlen p - a * 4092 <= (b - a) * 4092)).
  - rewrite Z.min_l // ztake_app_exact // ztake_ge //. lia.
  - rewrite Z.min_r; [|lia]. apply ztake_app_le. lia.
Qed.

Lemma consumed_before (p : list byte) a :
  0 <= a → a < num_blocks (zlen p) → zlen (ztake (a * 4092) p) = a * 4092.
Proof.
  intros. pose proof (num_blocks_spec (zlen p) (zlen_nonneg p)).
  rewrite zlen_ztake; lia.
Qed.

Lemma decode_encode (p : list byte) : zlen p < two64 → decode_blocks (encode_blocks p) (zlen p) = Ok p.
Proof.
  intros Hp. pose proof (zlen_nonneg p).
  rewrite /decode_blocks encode_blocks_zlen Z.div_mul //.
  rewrite -length_regions Nat2Z.id encode_blocks_regions.
  rewrite -(app_nil_r (concat _)) take_blocks_ok; [|apply regions_zlen|lia|done].
  rewrite Z.sub_0_r app_nil_l. f_equal.
  destruct (concat_regions p) as [z ->]. by rewrite ztake_app_exact.
Qed.

(** A read that succeeds has verified the CRC of every block, and returns
    the blocks' data bytes cut to the expected length. *)
Lemma take_blocks_sound n label raw total chunk consumed st :
  0 <= consumed <= total → total < two64 → 4096 * Z.of_nat n <= zlen raw →
  take_blocks n label raw total (chunk, consumed) = (st, Ok tt) →
  ∃ rs, length rs = n ∧ Forall (λ r, zlen r = 4092) rs ∧
    st = (chunk ++ ztake (total - consumed) (concat rs),
          consumed + Z.min (total - consumed) (4092 * zlen rs)) ∧
    ztake (4096 * Z.of_nat n) raw = concat (crc_block <$> rs).
Proof.
  revert label raw chunk consumed. induction n as [|n IH]; intros label raw chunk consumed Hc Ht Hl.
  { intros [= <-]. exists []. rewrite /ztake take_nil app_nil_r zlen_nil.
    split_and!; [done..| |done]. f_equal. lia. }
  simpl take_blocks.
  destruct (verify_block_crc _ label) as [data|e|] eqn:Hv; [|done..].
  apply verify_block_crc_inv in Hv as [-> Hcrc].
  assert (zlen (ztake BLOCK_ALIGNMENT raw) = 4096) as Hblk by (rewrite zlen_ztake; blk).
  set (r := zdrop 4 (ztake BLOCK_ALIGNMENT raw)) in *.
  assert (zlen r = 4092) as Hr by (rewrite /r zlen_zdrop; lia).
  assert (ztake BLOCK_ALIGNMENT raw = crc_block r) as Hb.
  { rewrite /crc_block -Hcrc -{1}(ztake_zdrop 4 (ztake BLOCK_ALIGNMENT raw)) -/r. f_equal.
    assert (length (ztake 4 (ztake BLOCK_ALIGNMENT raw)) = 4%nat) as <-.
    { assert (zlen (ztake 4 (ztake BLOCK_ALIGNMENT raw)) = 4) by (rewrite zlen_ztake; lia).
      rewrite /zlen in H1. lia. }
    by rewrite to_from_le_bytes. }
  rewrite wsub_small; [|u64]. intros Hrun.
  apply IH in Hrun as (rs & Hn & Hrs & -> & Hraw); [|rewrite BLOCK_DATA_SIZE_val; lia|done|].
  2: { rewrite zlen_zdrop; blk. }
  exists (r :: rs). split_and!; [by rewrite /= Hn|by constructor| |].
  - pose proof (zlen_nonneg rs). rewrite BLOCK_DATA_SIZE_val zlen_cons -app_assoc. f_equal; [|lia].
    f_equal. simpl. destruct (decide (total - consumed <= 4092)).
    + rewrite Z.min_l //. replace (total - (consumed + (total - consumed))) with 0 by lia.
      rewrite ztake_0 app_nil_r ztake_app_le //. lia.
    + rewrite Z.min_r; [|lia].
      replace (total - consumed) with (4092 + (total - (consumed + 4092))) by lia.
      rewrite ztake_add; [|lia..]. rewrite (ztake_app_exact 4092) // (zdrop_app_exact 4092) //.
      by rewrite (ztake_ge 4092 r); [|lia].
  - replace (4096 * Z.of_nat (S n)) with (BLOCK_ALIGNMENT + 4096 * Z.of_nat n) by blk.
    rewrite ztake_add; [|blk..]. by rewrite Hb Hraw.
Qed.
End codec_facts.

(** ** The batched writer *)

(** The bytes of [p]'s extent are on the device at [off]. *)
Definition stored `{Crc32c} (d : DeviceIo) (off : Z) (p : list byte) : Prop :=
  read_bytes (content (disk d)) off (num_blocks (zlen p) * 4096) = encode_blocks p.

Section batched_facts.
Context `{Crc32cLaws}.
Implicit Types (d io : DeviceIo) (p payload : list byte).

(** The result is a success or an error of the operating system. *)
Definition io_only {A} (r : Res RawStoreError A) : Prop :=
  match r with Ok _ | Err (Io _ _) => True | _ => False end.

(** What a write of an extent may do: touch only the extent's bytes, never
    panic, succeed when no call fails, and on success leave [bytes] there. *)
Record write_outcome (lo hi : Z) (bytes : list byte) (d d' : DeviceIo)
    (r : Res RawStoreError unit) : Prop := {
  wo_frame : dev_frame lo hi d d';
  wo_no_panic : io_only r;
  wo_total : no_faults (env (disk d)) → r = Ok tt;
  wo_content : r = Ok tt →
    content (disk d') = write_bytes lo bytes (content (disk d)) ∧
    (bytes ≠ [] → hi <= file_size (disk d'));
}.

Lemma write_all_at_outcome off data d :
  write_outcome off (off + zlen data) data d
    (write_all_at off data d).1 (write_all_at off data d).2.
Proof.
  split.
  - eapply write_all_at_frame. apply surjective_pairing.
  - rewrite /write_all_at. by destruct (wr_fault _ _ _).
  - intros [_ _ Hw _]. by rewrite /write_all_at Hw.
  - rewrite /write_all_at. destruct (wr_fault _ _ _); simpl; [done|].
    intros _. split; [done|]. lia.
Qed.

Lemma write_batches_done fuel off p n idx d :
  n <= idx → write_batches fuel off p n idx d = (d, Ok tt).
Proof. intros. destruct fuel; simpl; rewrite (proj2 (Z.ltb_ge _ _)) //. Qed.

Lemma batch_offset off idx n :
  0 <= off → 0 <= idx <= n → off + n * 4096 < two64 →
  off +! idx *! BLOCK_ALIGNMENT = off + idx * 4096.
Proof.
  intros. rewrite wmul_small; [|unfold BLOCK_ALIGNMENT; u64].
  rewrite wadd_small; [done|unfold BLOCK_ALIGNMENT; u64].
Qed.

Lemma write_batches_spec fuel off p idx d :
  let n := num_blocks (zlen p) in
  0 <= idx → idx <= n → n - idx <= Z.of_nat fuel → 0 <= off → off + n * 4096 < two64 →
  io_read_only d = false → (direct d = true → off mod 4096 = 0) →
  let '(d', r) := write_batches fuel off p n idx d in
  write_outcome (off + idx * 4096) (off + n * 4096) (encode_range p idx n) d d' r.
Proof.
  intros n Hi Hin. revert idx Hi Hin d.
  induction fuel as [|fuel IH]; intros idx Hi Hin d Hf Ho Hb Hro Hdir.
  all: destruct (decide (idx = n)) as [->|Hne].
  1,3: rewrite write_batches_done //; split; [apply dev_frame_refl|done|done|];
       by rewrite /encode_range Z.sub_diag.
  { lia. }
  simpl write_batches. rewrite (proj2 (Z.ltb_lt idx n)); [|lia].
  set (be := Z.min (idx + BATCH_BLOCKS) n).
  assert (idx < be <= n) as Hbe by (subst be; blk).
  assert (zlen (encode_range p idx be) = (be - idx) * 4096) as Hlen
    by (apply encode_range_zlen; lia).
  rewrite (batch_offset _ _ n) //. rewrite /sm_bind pwrite_blocks //.
  2: { intros Hd. rewrite Z.mod_add //. auto. }
  2: { rewrite Hlen. apply Z_mod_mult. }
  2: { lia. }
  2: { u64. }
  pose proof (write_all_at_outcome (off + idx * 4096) (encode_range p idx be) d) as Hw.
  destruct (write_all_at _ _ d) as [d1 [[]|e|]]; simpl in Hw; destruct Hw as [Hfr Hnp Htot Hc].
  - destruct (Hc eq_refl) as [Hc1 Hsz].
    specialize (IH be ltac:(lia) ltac:(lia) d1 ltac:(lia) Ho Hb).
    rewrite (frame_ro _ _ _ _ Hfr) (frame_direct _ _ _ _ Hfr) in IH.
    specialize (IH Hro Hdir). destruct (write_batches fuel off p n be d1) as [d' r].
    rewrite Hlen in Hfr, Hsz. destruct IH as [Hfr' Hnp' Htot' Hc'].
    rewrite (frame_env _ _ _ _ Hfr) in Htot'.
    split; [|done|done|].
    + eapply dev_frame_trans; [eapply dev_frame_mono; [..|exact Hfr]; lia|].
      eapply dev_frame_mono; [..|exact Hfr']; lia.
    + intros ->. destruct (Hc' eq_refl) as [-> Hsz']. rewrite Hc1.
      rewrite (encode_range_app p idx be n); [|lia..].
      rewrite write_bytes_app Hlen. split; [f_equal; lia|]. intros _.
      destruct (decide (be = n)) as [Heq|?].
      * pose proof (frame_size _ _ _ _ Hfr'). rewrite -Heq.
        assert (encode_range p idx be ≠ []) as Hnn.
        { intros Hnil. rewrite Hnil zlen_nil in Hlen. lia. }
        specialize (Hsz Hnn). lia.
      * apply Hsz'. intros Hnil. pose proof (encode_range_zlen p be n).
        rewrite Hnil zlen_nil in H1. lia.
  - split; [|done| |done].
    + eapply dev_frame_mono; [..|exact Hfr]; lia.
    + intros Hnf. by apply Htot in Hnf.
  - done.
Qed.

Lemma encode_and_write_batched_spec off p d :
  0 <= off → off + num_blocks (zlen p) * 4096 < two64 →
  io_read_only d = false → (direct d = true → off mod 4096 = 0) →
  let '(d', r) := encode_and_write_batched off p d in
  write_outcome off (off + num_blocks (zlen p) * 4096) (encode_blocks p) d d' r.
Proof.
  intros. rewrite /encode_and_write_batched.
  pose proof (num_blocks_spec (zlen p) (zlen_nonneg p)).
  pose proof (write_batches_spec (Z.to_nat (num_blocks (zlen p))) off p 0 d) as Hw.
  simpl in Hw. rewrite Z.add_0_r in Hw. apply Hw; try done; lia.
Qed.

Lemma write_outcome_stored off p d d' r :
  write_outcome off (off + num_blocks (zlen p) * 4096) (encode_blocks p) d d' r →
  r = Ok tt → stored d' off p.
Proof.
  intros Hw ->. rewrite /stored. destruct (wo_content _ _ _ _ _ _ Hw eq_refl) as [-> _].
  rewrite -encode_blocks_zlen. apply read_bytes_write_eq.
Qed.

(** ** The batched reader *)

(** A read of whole blocks returns the bytes or an I/O error. *)
Lemma pread_cases off len d :
  (direct d = true → off mod 4096 = 0) → len mod 4096 = 0 → 0 < len → len + 4096 <= two64 →
  (pread off len d = Ok (read_bytes (content (disk d)) off len) ∨
   ∃ k m, pread off len d = Err (Io k m)) ∧
  (no_faults (env (disk d)) → off + len <= file_size (disk d) →
   pread off len d = Ok (read_bytes (content (disk d)) off len)).
Proof.
  intros. rewrite pread_blocks // /read_exact_at. split.
  - destruct (rd_fault _ _ _); [eauto|]. destruct (_ <? _); eauto.
  - intros [_ Hr _ _] ?. rewrite Hr. destruct (_ <? _) eqn:E; [|done].
    apply Z.ltb_lt in E. lia.
Qed.

Lemma stored_sub d off p a b :
  stored d off p → 0 <= a → a <= b → b <= num_blocks (zlen p) →
  read_bytes (content (disk d)) (off + a * 4096) ((b - a) * 4096) =
  concat (crc_block <$> subl a b (regions p)).
Proof.
  intros Hs ???. rewrite -subl_encode; [|apply regions_zlen|lia..].
  rewrite -encode_blocks_regions -Hs zdrop_read_bytes; [|lia].
  rewrite ztake_read_bytes; [|lia]. done.
Qed.

Lemma take_blocks_sub p a b label total chunk consumed :
  0 <= a → a <= b → b <= num_blocks (zlen p) → 0 <= consumed <= total → total < two64 →
  take_blocks (Z.to_nat (b - a)) label (concat (crc_block <$> subl a b (regions p))) total
    (chunk, consumed) =
  ((chunk ++ ztake (total - consumed) (concat (subl a b (regions p))),
    consumed + Z.min (total - consumed) (4092 * (b - a))), Ok tt).
Proof.
  intros. pose proof (length_regions p).
  rewrite -(length_subl a b (regions p)); [|rewrite /zlen; lia..].
  rewrite -(app_nil_r (concat _)) take_blocks_ok; [|apply Forall_subl, regions_zlen|done..].
  rewrite zlen_subl; [done|rewrite /zlen; lia..].
Qed.

Lemma read_batches_done fuel d off total n idx payload :
  n <= idx → read_batches fuel d off total n idx payload = Ok payload.
Proof. intros. destruct fuel; simpl; rewrite (proj2 (Z.ltb_ge _ _)) //. Qed.

Lemma read_batches_spec fuel d off p idx :
  let n := num_blocks (zlen p) in
  stored d off p → zlen p < two64 →
  0 <= idx → idx <= n → n - idx <= Z.of_nat fuel → 0 <= off → off + n * 4096 < two64 →
  (direct d = true → off mod 4096 = 0) →
  let r := read_batches fuel d off (zlen p) n idx (ztake (idx * 4092) p) in
  (r = Ok p ∨ ∃ k m, r = Err (Io k m)) ∧
  (no_faults (env (disk d)) → off + n * 4096 <= file_size (disk d) → r = Ok p).
Proof.
  intros n Hs Hp. pose proof (num_blocks_spec (zlen p) (zlen_nonneg p)). fold n in H1.
  revert idx. induction fuel as [|fuel IH]; intros idx Hi Hin Hf Ho Hb Hdir.
  all: destruct (decide (idx = n)) as [->|Hne].
  1,3: rewrite read_batches_done // ztake_ge; [auto|lia].
  { lia. }
  cbv zeta. simpl read_batches. rewrite (proj2 (Z.ltb_lt idx n)); [|lia].
  set (be := Z.min (idx + BATCH_BLOCKS) n).
  assert (idx < be <= n) as Hbe by (subst be; blk).
  rewrite (batch_offset _ _ n) //.
  change BLOCK_ALIGNMENT with 4096.
  destruct (pread_cases (off + idx * 4096) ((be - idx) * 4096) d) as [Hcase Htot].
  { intros Hd. rewrite Z.mod_add //. auto. }
  { apply Z_mod_mult. }
  { lia. }
  { u64. }
  rewrite (stored_sub d off p idx be) in Hcase, Htot; [|done|lia..].
  rewrite consumed_before; [|lia..].
  assert (∀ x : Res RawStoreError (list byte),
    x = Ok (concat (crc_block <$> subl idx be (regions p))) →
    match x with
    | Ok raw =>
      match take_blocks (Z.to_nat (be - idx)) idx raw (zlen p)
              (ztake (idx * 4092) p, idx * 4092) with
      | (payload, _, Ok _) => read_batches fuel d off (zlen p) n be payload
      | (_, _, Err e) => Err e
      | (_, _, Panic) => Panic
      end
    | Err e => Err e
    | Panic => Panic
    end = read_batches fuel d off (zlen p) n be (ztake (be * 4092) p)) as Hstep.
  { intros x ->. rewrite take_blocks_sub; [|lia..|done]. by rewrite payload_step; [|lia..]. }
  destruct (IH be) as [Hcase' Htot']; [lia..|done|].
  split.
  - destruct Hcase as [->|(k & m & ->)]; [|eauto].
    rewrite take_blocks_sub; [|lia..|done]. by rewrite payload_step; [|lia..].
  - intros Hnf Hsz. rewrite Hstep; [by apply Htot'|]. apply Htot; [done|lia].
Qed.

Lemma read_and_decode_batched_spec d off p :
  stored d off p → zlen p < two64 → 0 <= off → off + num_blocks (zlen p) * 4096 < two64 →
  (direct d = true → off mod 4096 = 0) →
  (read_and_decode_batched d off (zlen p) = Ok p ∨
   ∃ k m, read_and_decode_batched d off (zlen p) = Err (Io k m)) ∧
  (no_faults (env (disk d)) → off + num_blocks (zlen p) * 4096 <= file_size (disk d) →
   read_and_decode_batched d off (zlen p) = Ok p).
Proof.
  intros Hs Hp ???. pose proof (num_blocks_spec (zlen p) (zlen_nonneg p)).
  apply (read_batches_spec _ d off p 0 Hs Hp); try done; lia.
Qed.
End batched_facts.
