(* ===== verification/Concrete.v ===== *)
(** * Concrete external functions

    The external crates are parameters of the model ([Crc32c], [Codecs]).
    This file gives functions that satisfy their laws, to evaluate the
    definitions on concrete inputs: CRC-32C itself, computed bit by bit, and
    a run-length codec that really shrinks repetitive data.  Nothing here is
    an instance found by resolution; the examples name them. *)

From S2P Require Import Prelude.
From S2P Require Import Config.
From S2P Require Import Device.
From S2P Require Import Extent.

(** ** CRC-32C (Castagnoli), reflected, polynomial 0x82F63B78 *)

Definition crc_bit (c : Z) : Z :=
  if Z.testbit c 0 then Z.lxor (Z.shiftr c 1) 2197175160 else Z.shiftr c 1.
Definition crc_byte (c : Z) (b : byte) : Z :=
  Nat.iter 8 crc_bit (Z.lxor c (byte_to_Z b)).
Definition castagnoli_append (c : Z) (l : list byte) : Z :=
  Z.lxor (foldl crc_byte (Z.lxor c u32_max) l) u32_max.

Definition castagnoli : Crc32c :=
  {| crc32c l := castagnoli_append 0 l; crc32c_append := castagnoli_append |}.

Lemma lxor_bound k a b :
  0 <= k → 0 <= a < 2 ^ k → 0 <= b < 2 ^ k → 0 <= Z.lxor a b < 2 ^ k.
Proof.
  intros Hk [Ha Ha'] [Hb Hb']. assert (0 <= Z.lxor a b) by (apply Z.lxor_nonneg; lia).
  split; [done|]. apply Z.bounded_iff_bits_nonneg; [done..|]. intros l Hl.
  rewrite Z.lxor_spec. rewrite Z.bounded_iff_bits_nonneg // in Ha'.
  rewrite Z.bounded_iff_bits_nonneg // in Hb'. by rewrite Ha' // Hb'.
Qed.

Lemma crc_bit_bound c : 0 <= c < 2 ^ 32 → 0 <= crc_bit c < 2 ^ 32.
Proof.
  intros Hc. assert (0 <= Z.shiftr c 1 < 2 ^ 32).
  { rewrite Z.shiftr_div_pow2 //. split; [apply Z.div_pos; lia|].
    apply Z.div_lt_upper_bound; lia. }
  rewrite /crc_bit. destruct (Z.testbit c 0); [|done]. by apply lxor_bound.
Qed.

Lemma crc_byte_bound c b : 0 <= c < 2 ^ 32 → 0 <= crc_byte c b < 2 ^ 32.
Proof.
  intros Hc. rewrite /crc_byte. pose proof (byte_to_Z_bound b).
  assert (0 <= Z.lxor c (byte_to_Z b) < 2 ^ 32) as H0 by (apply lxor_bound; lia).
  revert H0. generalize (Z.lxor c (byte_to_Z b)). generalize 8%nat.
  induction n as [|n IH]; intros z Hz; [done|]. simpl. by apply crc_bit_bound, IH.
Qed.

Lemma castagnoli_append_bound c l : 0 <= c < 2 ^ 32 → 0 <= castagnoli_append c l < 2 ^ 32.
Proof.
  intros Hc. rewrite /castagnoli_append. apply lxor_bound; [done| |done].
  assert (0 <= Z.lxor c u32_max < 2 ^ 32) as H0 by by apply lxor_bound.
  revert H0. generalize (Z.lxor c u32_max). induction l as [|b l IH]; intros z Hz; [done|].
  simpl. by apply IH, crc_byte_bound.
Qed.

Lemma castagnoli_laws : @Crc32cLaws castagnoli.
Proof.
  split.
  - intros l. by apply castagnoli_append_bound.
  - done.
  - intros l1 l2. rewrite /= /castagnoli_append.
    rewrite Z.lxor_assoc Z.lxor_nilpotent Z.lxor_0_r. by rewrite foldl_app.
Qed.

(** ** A run-length codec *)

(** [1, b, n] for [n] copies of [b], otherwise [0] and the data. *)
Definition rle_encode (d : list byte) : list byte :=
  match d with
  | b :: _ =>
    if bool_decide (d = replicate (length d) b) && (zlen d <? 2 ^ 32)
    then Byte.x01 :: b :: to_le_bytes 4 (zlen d)
    else Byte.x00 :: d
  | [] => [Byte.x00]
  end.

Definition rle_decode (c : list byte) : option (list byte) :=
  match c with
  | Byte.x00 :: d => Some d
  | Byte.x01 :: b :: n =>
    if zlen n =? 4 then Some (replicate (Z.to_nat (from_le_bytes n)) b) else None
  | _ => None
  end.

Lemma rle_decode_encode d : rle_decode (rle_encode d) = Some d.
Proof.
  destruct d as [|b d]; [done|]. rewrite /rle_encode. set (l := b :: d).
  case_bool_decide as Hr; [|done]. destruct (zlen l <? 2 ^ 32) eqn:E; [|done].
  apply Z.ltb_lt in E. cbn [andb rle_decode]. rewrite to_le_bytes_zlen. change (Z.of_nat 4 =? 4) with true.
  cbn iota. rewrite (from_to_le_bytes 4); [|by split; [apply zlen_nonneg|]].
  rewrite /zlen Nat2Z.id. f_equal. by symmetry.
Qed.

Lemma rle_encode_nonempty d : rle_encode d ≠ [].
Proof. destruct d as [|b d]; [done|]. rewrite /rle_encode. by case_match. Qed.

Definition rle_codecs : Codecs := {|
  zstd_bulk_compress _ d := Some (rle_encode d);
  zstd_stream_compress _ ds := Some (rle_encode (concat ds));
  zstd_decode_all := rle_decode;
  snap_compress_vec d := Some (rle_encode d);
  snap_decompress_vec := rle_decode;
  gz_compress _ ds := Some (rle_encode (concat ds));
  gz_decode_all := rle_decode |}.

Lemma rle_codec_laws : @CodecLaws rle_codecs.
Proof.
  split; intros; simpl in *; simplify_eq; try apply rle_decode_encode; apply rle_encode_nonempty.
Qed.

(** ** Devices *)

(** A formatted regular file of [size] zero bytes, opened read-write. *)
Definition blank_device (size : Z) (direct : bool) : DeviceIo :=
  mkDeviceIo (mkDiskFile ∅ ∅ [] size false false ideal_env) direct false.

Example crc32c_check : @crc32c castagnoli (as_bytes "123456789") = 3808858755.
Proof. reflexivity. Qed.

(** A payload that needs two blocks, and that payload cut in three chunks. *)
Definition sample : list byte := replicate 3000 Byte.x61 ++ replicate 3000 Byte.x62.
Definition sample_chunks : list (list byte) :=
  [replicate 3000 Byte.x61; []; replicate 3000 Byte.x62].

Lemma blank_no_faults size direct : no_faults (env (disk (blank_device size direct))).
Proof. apply ideal_env_no_faults. Qed.
