(* ===== verification/Streaming.v ===== *)
(** * The streaming writer, the streaming readers and range decoding

    Facts about the definitions of [Extent]: a [StreamingBlockWriter] fed in
    any chunking leaves the same bytes on the device as the reference encoder
    ([writer_run]), draining a [StreamingBlockReader] yields the payload, and
    [decode_block_range] cuts the requested window out of the payload. *)

From S2P Require Import Prelude.
From S2P Require Import Config.
From S2P Require Import Device.
From S2P Require Import Extent.
From S2P Require Import Concrete.

(** ** Windows of a payload *)

(** The bytes of [[s, e)] that fall in [l], when [l] starts at [base]. *)
Definition window (base s e : Z) (l : list byte) : list byte :=
  ztake (Z.min e (base + zlen l) - Z.max s base) (zdrop (Z.max s base - base) l).

Lemma ztake_nonpos {A} n (l : list A) : n <= 0 → ztake n l = [].
Proof. intros. rewrite /ztake. by replace (Z.to_nat n) with O by lia. Qed.

Lemma window_nil base s e : window base s e [] = [].
Proof. by rewrite /window /zdrop drop_nil /ztake take_nil. Qed.

Lemma zdrop_app_ge {A} n (l k : list A) :
  zlen l <= n → zdrop n (l ++ k) = zdrop (n - zlen l) k.
Proof.
  rewrite /zlen /zdrop. intros. rewrite drop_app_ge; [|lia]. f_equal. lia.
Qed.

Lemma ztake_app_ge {A} n (l k : list A) :
  zlen l <= n → ztake n (l ++ k) = l ++ ztake (n - zlen l) k.
Proof.
  rewrite /zlen /ztake. intros. rewrite take_app_ge; [|lia]. do 2 f_equal. lia.
Qed.

Lemma window_app base s e l1 l2 :
  window base s e (l1 ++ l2) = window base s e l1 ++ window (base + zlen l1) s e l2.
Proof.
  pose proof (zlen_nonneg l1). pose proof (zlen_nonneg l2).
  rewrite /window zlen_app.
  destruct (decide (base + zlen l1 <= s)).
  - (* the window starts after [l1] *)
    rewrite (ztake_nonpos _ (zdrop _ l1)); [|lia]. simpl.
    rewrite (Z.max_l s base); [|lia]. rewrite (Z.max_l s (base + zlen l1)); [|lia].
    rewrite zdrop_app_ge; [|lia]. f_equal; [lia|]. f_equal. lia.
  - rewrite (Z.max_r s (base + zlen l1)); [|lia]. rewrite Z.sub_diag zdrop_0.
    set (s' := Z.max s base).
    rewrite zdrop_app_le; [|lia].
    assert (zlen (zdrop (s' - base) l1) = zlen l1 - (s' - base)) as Hl
      by (rewrite zlen_zdrop; lia).
    destruct (decide (e <= base + zlen l1)).
    + (* it ends inside [l1] *)
      rewrite (ztake_nonpos _ l2); [|lia]. rewrite app_nil_r.
      rewrite !(Z.min_l e); [|lia..].
      destruct (decide (e <= s')); [rewrite !ztake_nonpos //; lia|].
      apply ztake_app_le. lia.
    + rewrite (Z.min_r e (base + zlen l1)); [|lia].
      rewrite ztake_app_ge; [|lia].
      rewrite (ztake_ge _ (zdrop _ l1)); [|lia]. f_equal. f_equal. lia.
Qed.

Lemma window_inside s e l :
  0 <= s → s <= e → e <= zlen l → window 0 s e l = ztake (e - s) (zdrop s l).
Proof. intros. rewrite /window. f_equal; [lia|]. f_equal. lia. Qed.

(** Cutting a window out of a slice that covers it. *)
Lemma window_subslice a b s e l :
  0 <= a → a <= s → s <= e → e <= b → b <= zlen l →
  window a s e (ztake (b - a) (zdrop a l)) = ztake (e - s) (zdrop s l).
Proof.
  intros. rewrite -{2}(ztake_zdrop a l) zdrop_app_ge zlen_ztake; [|lia..].
  assert (zlen (ztake (b - a) (zdrop a l)) = b - a) as Hl
    by (rewrite zlen_ztake ?zlen_zdrop; lia).
  rewrite /window Hl.
  replace (Z.min e (a + (b - a)) - Z.max s a) with (e - s) by lia.
  replace (Z.max s a - a) with (s - a) by lia. rewrite Z.min_l; [|lia].
  rewrite -{2}(ztake_zdrop (b - a) (zdrop a l)) zdrop_app_le; [|lia].
  rewrite ztake_app_le //. rewrite zlen_zdrop; lia.
Qed.

Lemma ztake_split_rest {A} pos k (p rest : list A) :
  0 <= pos <= zlen p → ztake pos p ++ rest = ztake k p → rest = ztake (zlen rest) (zdrop pos p).
Proof.
  intros Hp Hcat. assert (zlen (ztake pos p) = pos) as Hzp by (rewrite zlen_ztake; lia).
  rewrite -(ztake_zdrop k p) -Hcat -app_assoc zdrop_app_exact // ztake_app_exact //.
Qed.

Section range_facts.
Context `{Crc32cLaws}.

Lemma range_blocks_ok rs label extra s e res :
  Forall (λ r, zlen r = 4092) rs →
  range_blocks (length rs) label (concat (crc_block <$> rs) ++ extra) s e res =
  Ok (res ++ window (label * 4092) s e (concat rs)).
Proof.
  intros Hrs. revert label res. induction Hrs as [|r rs Hr Hrs IH]; intros label res.
  { by rewrite /= window_nil app_nil_r. }
  cbn [length range_blocks fmap list_fmap concat].
  rewrite -app_assoc ztake_app_exact; [|rewrite crc_block_zlen Hr; blk].
  rewrite zdrop_app_exact; [|rewrite crc_block_zlen Hr; blk].
  rewrite verify_crc_block. cbn iota beta.
  rewrite IH window_app Hr BLOCK_DATA_SIZE_val -app_assoc. do 3 f_equal.
  - rewrite /window Hr. destruct (_ <? _) eqn:E; [done|].
    apply Z.ltb_ge in E. rewrite ztake_nonpos //. lia.
  - f_equal. lia.
Qed.

(** Decoding the blocks [fb .. lb) of a payload's extent and asking for
    content bytes inside them gives exactly those bytes. *)
Lemma decode_block_range_ok (p : list byte) fb lb s e :
  0 <= fb → fb <= lb → lb <= num_blocks (zlen p) →
  fb * 4092 <= s → s <= e → e <= lb * 4092 → e <= zlen p →
  decode_block_range (concat (crc_block <$> subl fb lb (regions p))) fb s e =
  Ok (ztake (e - s) (zdrop s p)).
Proof.
  intros. pose proof (length_regions p) as Hlr.
  assert (Forall (λ r, zlen r = 4092) (subl fb lb (regions p))) as Hrs
    by apply Forall_subl, regions_zlen.
  rewrite /decode_block_range crc_blocks_zlen // zlen_subl; [|rewrite /zlen; lia..].
  change BLOCK_ALIGNMENT with 4096. rewrite Z.mul_comm Z.div_mul //.
  rewrite -(length_subl fb lb (regions p)); [|rewrite /zlen; lia..].
  rewrite -(app_nil_r (concat (crc_block <$> _))) range_blocks_ok // app_nil_l. f_equal.
  rewrite subl_concat_regions; [|lia..].
  replace ((lb - fb) * 4092) with (lb * 4092 - fb * 4092) by lia.
  rewrite window_subslice; [|lia..|].
  - destruct (concat_regions p) as [z ->].
    rewrite zdrop_app_le; [|lia]. apply ztake_app_le. rewrite zlen_zdrop; lia.
  - rewrite (concat_uniform 4092); [|apply regions_zlen]. rewrite /zlen. lia.
Qed.
End range_facts.

(** ** What the whole-extent readers accept *)

Section accept.
Context `{Crc32cLaws}.
Implicit Types (raw : list byte).

(** Block [i] of [raw], and whether its stored CRC is right. *)
Definition raw_block raw (i : Z) : list byte := ztake 4096 (zdrop (i * 4096) raw).
Definition stored_crc raw (i : Z) : Z := from_le_bytes (ztake 4 (raw_block raw i)).
Definition block_data raw (i : Z) : list byte := zdrop 4 (raw_block raw i).
Definition crc_matches raw (i : Z) : Prop := stored_crc raw i = crc32c (block_data raw i).

Lemma raw_block_next raw i : 0 <= i → raw_block (zdrop 4096 raw) i = raw_block raw (1 + i).
Proof. intros. rewrite /raw_block zdrop_zdrop; [|lia..]. do 2 f_equal. lia. Qed.

Lemma take_blocks_exact n label raw total chunk consumed :
  0 <= consumed <= total → total < two64 → 4096 * Z.of_nat n <= zlen raw →
  match take_blocks n label raw total (chunk, consumed) with
  | ((c, _), Ok _) =>
    (∀ i, 0 <= i < Z.of_nat n → crc_matches raw i) ∧
    c = chunk ++ ztake (total - consumed) (concat (block_data raw <$> seqZ 0 (Z.of_nat n)))
  | (_, Err e) => ∃ i, 0 <= i < Z.of_nat n ∧ (∀ j, 0 <= j < i → crc_matches raw j) ∧
      ¬ crc_matches raw i ∧
      e = DataCorruption ("block " +:+ pretty (label + i)) (stored_crc raw i)
            (crc32c (block_data raw i))
  | (_, Panic) => False
  end.
Proof.
  revert label raw chunk consumed. induction n as [|n IH]; intros label raw chunk consumed Hc Ht Hl.
  { split; [lia|]. by rewrite /ztake take_nil app_nil_r. }
  cbn [take_blocks]. rewrite /verify_block_crc.
  change (ztake BLOCK_ALIGNMENT raw) with (raw_block raw 0).
  change (from_le_bytes (ztake BLOCK_CRC_SIZE (raw_block raw 0))) with (stored_crc raw 0).
  change (zdrop BLOCK_CRC_SIZE (raw_block raw 0)) with (block_data raw 0).
  destruct (stored_crc raw 0 =? crc32c (block_data raw 0)) eqn:E.
  2: { apply Z.eqb_neq in E. exists 0. rewrite Z.add_0_r. split_and!; [lia|lia|lia|done|done]. }
  apply Z.eqb_eq in E. rewrite wsub_small; [|u64].
  set (take := Z.min (total - consumed) BLOCK_DATA_SIZE).
  assert (zlen (block_data raw 0) = 4092) as Hd.
  { rewrite /block_data /raw_block zlen_zdrop ?zlen_ztake ?zlen_zdrop; lia. }
  specialize (IH (label + 1) (zdrop BLOCK_ALIGNMENT raw) (chunk ++ ztake take (block_data raw 0))
                (consumed + take)).
  ospecialize* IH; [subst take; blk|done|rewrite zlen_zdrop; blk|].
  change BLOCK_ALIGNMENT with 4096 in *.
  assert (∀ i, 0 <= i → crc_matches (zdrop 4096 raw) i ↔ crc_matches raw (1 + i)) as Hm.
  { intros i Hi. by rewrite /crc_matches /stored_crc /block_data raw_block_next. }
  destruct (take_blocks n _ _ _ _) as [[c q] [[]|e|]]; [| |done].
  - destruct IH as [Hall ->]. split.
    + intros i Hi. destruct (decide (i = 0)) as [->|Hne]; [done|].
      replace i with (1 + (i - 1)) by lia. apply Hm; [lia|]. apply Hall. lia.
    + rewrite -app_assoc. f_equal. rewrite (seqZ_cons 0 (Z.of_nat (S n))); [|lia].
      rewrite fmap_cons. cbn [concat].
      assert (block_data (zdrop 4096 raw) <$> seqZ 0 (Z.of_nat n) =
              block_data raw <$> seqZ (Z.succ 0) (Z.pred (Z.of_nat (S n)))) as Htail.
      { replace (Z.pred (Z.of_nat (S n))) with (Z.of_nat n) by lia.
        rewrite -(fmap_add_seqZ 1 0) -(list_fmap_compose (Z.add 1) (block_data raw)).
        apply list_fmap_ext. intros k x Hx%lookup_seqZ.
        rewrite /= /block_data raw_block_next //. lia. }
      rewrite Htail. set (rest := concat _).
      change BLOCK_DATA_SIZE with 4092 in take.
      destruct (decide (total - consumed <= 4092)).
      * replace take with (total - consumed) by (subst take; lia). rewrite Z.sub_add_distr Z.sub_diag.
        rewrite ztake_0 app_nil_r ztake_app_le //. lia.
      * replace take with 4092 by (subst take; lia). rewrite (ztake_ge 4092); [|lia].
        rewrite ztake_app_ge; [|lia]. do 2 f_equal. lia.
  - destruct IH as (i & Hi & Hall & Hbad & ->). exists (1 + i). split_and!; [lia|lia| | |].
    + intros j Hj. destruct (decide (j = 0)) as [->|Hne]; [done|].
      replace j with (1 + (j - 1)) by lia. apply Hm; [lia|]. apply Hall. lia.
    + intros Hx. apply Hbad, Hm; [lia|done].
    + rewrite /stored_crc /block_data raw_block_next; [|lia].
      by replace (label + 1 + i) with (label + (1 + i)) by lia.
Qed.
End accept.

(** ** The streaming writer *)

Section writer_facts.
Context `{Crc32cLaws}.
Implicit Types (w : StreamingBlockWriter) (d io : DeviceIo) (fed data : list byte).

Lemma regions_concat rs p :
  Forall (λ r, zlen r = 4092) rs → regions (concat rs ++ p) = rs ++ regions p.
Proof.
  induction 1 as [|r rs Hr Hrs IH]; simpl; [done|].
  by rewrite -app_assoc regions_cons // IH.
Qed.

(** What holds between calls, after the bytes [fed]: the full blocks are the
    regions [rs], the first [blocks_written] of them on the device, the rest
    encoded in the batch. [d0] is the device the writer was created on. *)
Record writer_inv (off : Z) (d0 : DeviceIo) (fed : list byte) (w : StreamingBlockWriter)
    (rs : list (list byte)) : Prop := {
  wi_fed : fed = concat rs ++ partial w;
  wi_rs : Forall (λ r, zlen r = 4092) rs;
  wi_partial : zlen (partial w) < 4092;
  wi_off : w_extent_offset w = off;
  wi_written : 0 <= blocks_written w;
  wi_count : zlen rs = blocks_written w + blocks_in_batch w;
  wi_bib : 0 <= blocks_in_batch w < BATCH_BLOCKS;
  wi_batch : batch w = concat (crc_block <$> zdrop (blocks_written w) rs);
  wi_content : content (disk (w_io w)) =
    write_bytes off (concat (crc_block <$> ztake (blocks_written w) rs)) (content (disk d0));
  wi_frame : dev_frame off (off + blocks_written w * 4096) d0 (w_io w);
  wi_size : 0 < blocks_written w → off + blocks_written w * 4096 <= file_size (disk (w_io w));
}.

Definition writable (off lim : Z) (d : DeviceIo) : Prop :=
  io_read_only d = false ∧ (direct d = true → off mod 4096 = 0) ∧ 0 <= off ∧ lim < two64.

Lemma writer_new_inv off d : writer_inv off d [] (writer_new d off) [].
Proof. split; try done. apply dev_frame_refl. Qed.

(** Flushing a non-empty batch. [lim] bounds the extent. *)
Lemma flush_batch_spec off lim d0 fed w rs :
  writable off lim d0 →
  fed = concat rs ++ partial w → Forall (λ r, zlen r = 4092) rs → zlen (partial w) < 4092 →
  w_extent_offset w = off → 0 <= blocks_written w → 0 < blocks_in_batch w →
  zlen rs = blocks_written w + blocks_in_batch w → off + zlen rs * 4096 <= lim →
  batch w = concat (crc_block <$> zdrop (blocks_written w) rs) →
  content (disk (w_io w)) =
    write_bytes off (concat (crc_block <$> ztake (blocks_written w) rs)) (content (disk d0)) →
  dev_frame off (off + blocks_written w * 4096) d0 (w_io w) →
  let '(w', r) := flush_batch w in
  io_only r ∧ dev_frame off lim d0 (w_io w') ∧ (no_faults (env (disk d0)) → r = Ok tt) ∧
  (r = Ok tt → writer_inv off d0 fed w' rs ∧ blocks_in_batch w' = 0).
Proof.
  intros (Hro & Hdir & Ho & Hlim) Hfed Hrs Hpart Hoff Hbw Hbib Hcnt Hle Hbatch Hcont Hfr.
  pose proof (zlen_nonneg rs).
  assert (zlen (batch w) = blocks_in_batch w * 4096) as Hlen.
  { rewrite Hbatch crc_blocks_zlen; [|by apply Forall_drop]. rewrite zlen_zdrop; lia. }
  rewrite /flush_batch Hoff (batch_offset _ _ (zlen rs)); [|lia..].
  rewrite pwrite_blocks.
  2: { by rewrite (frame_ro _ _ _ _ Hfr). }
  2: { rewrite (frame_direct _ _ _ _ Hfr). intros Hd. rewrite Z.mod_add //. auto. }
  2: { rewrite Hlen. apply Z_mod_mult. }
  2: { lia. }
  2: { u64. }
  pose proof (write_all_at_outcome (off + blocks_written w * 4096) (batch w) (w_io w)) as Hw.
  destruct (write_all_at _ _ _) as [io r]; simpl in Hw. destruct Hw as [Hf Hnp Ht Hc].
  rewrite Hlen in Hf. rewrite (frame_env _ _ _ _ Hfr) in Ht.
  assert (dev_frame off lim d0 io) as Hframe.
  { eapply dev_frame_trans; eapply dev_frame_mono; [..|exact Hfr| | |exact Hf]; lia. }
  destruct r as [[]|e|]; simpl; [|split_and!; try done|done].
  split_and!; [done..|]. intros _. split; [|done].
  destruct (Hc eq_refl) as [Hc1 Hsz].
  assert (blocks_written w + blocks_in_batch w = zlen rs) as Hall by lia.
  assert (zlen (concat (crc_block <$> ztake (blocks_written w) rs)) = blocks_written w * 4096) as Hz.
  { rewrite crc_blocks_zlen; [|by apply Forall_take]. rewrite zlen_ztake; lia. }
  split; simpl; rewrite ?Hall; try done.
  - lia.
  - by rewrite zdrop_ge; [|lia].
  - rewrite Hc1 Hcont Hbatch (ztake_ge (zlen rs)) //.
    rewrite -{1}Hz -write_bytes_app -concat_app -fmap_app ztake_zdrop. done.
  - eapply dev_frame_trans; eapply dev_frame_mono; [..|exact Hfr| | |exact Hf]; lia.
  - intros _. rewrite Hlen in Hsz. rewrite -Hall.
    assert (batch w ≠ []) as Hne by (intros Hn; rewrite Hn zlen_nil in Hlen; lia).
    specialize (Hsz Hne). lia.
Qed.

(** Sealing a full partial block. *)
Lemma seal_block_spec off lim d0 fed w rs full :
  writable off lim d0 → zlen full = 4092 →
  writer_inv off d0 fed w rs → off + (zlen rs + 1) * 4096 <= lim →
  let w1 := mkWriter (w_io w) (w_extent_offset w) (batch w) (blocks_in_batch w) full
              (blocks_written w) in
  let '(w', r) := seal_block w1 in
  io_only r ∧ dev_frame off lim d0 (w_io w') ∧ (no_faults (env (disk d0)) → r = Ok tt) ∧
  (r = Ok tt → writer_inv off d0 (concat rs ++ full) w' (rs ++ [full])).
Proof.
  intros Hwr Hfull Hinv Hle. pose proof (zlen_nonneg rs). destruct Hinv.
  rewrite /seal_block /=.
  assert (Forall (λ r, zlen r = 4092) (rs ++ [full])) as Hrs'
    by (apply Forall_app; split; [done|by constructor]).
  assert (batch w ++ crc_block full =
          concat (crc_block <$> zdrop (blocks_written w) (rs ++ [full]))) as Hb.
  { rewrite zdrop_app_le; [|lia]. rewrite fmap_app concat_app wi_batch0 /=. by rewrite app_nil_r. }
  assert (ztake (blocks_written w) (rs ++ [full]) = ztake (blocks_written w) rs) as Ht
    by (apply ztake_app_le; lia).
  assert (concat rs ++ full = concat (rs ++ [full]) ++ []) as Hcc
    by (rewrite concat_app /= !app_nil_r //).
  destruct (blocks_in_batch w + 1 =? BATCH_BLOCKS) eqn:E.
  - match goal with |- context [flush_batch ?w1] =>
      pose proof (flush_batch_spec off lim d0 (concat rs ++ full) w1 (rs ++ [full]) Hwr) as Hf
    end. simpl in Hf. rewrite zlen_app zlen_cons zlen_nil in Hf.
    ospecialize* Hf; [done|done|done|done|done|lia|rewrite zlen_nil; lia|rewrite zlen_nil; lia
      |done|by rewrite Ht|done|].
    destruct (flush_batch _) as [w' r]. destruct Hf as (?&?&?&Hi). split_and!; try done.
    intros Hr. by apply Hi.
  - apply Z.eqb_neq in E. split_and!; [done| |done|].
    + eapply dev_frame_mono; [..|exact wi_frame0]; lia.
    + intros _. split; simpl; try done.
      * rewrite zlen_app zlen_cons zlen_nil. lia.
      * lia.
      * by rewrite Ht.
Qed.

Lemma writer_inv_frame off lim d0 fed data w rs :
  writer_inv off d0 fed w rs → off + num_blocks (zlen (fed ++ data)) * 4096 <= lim →
  dev_frame off lim d0 (w_io w) ∧
  (4092 <= zlen (partial w) + zlen data → off + (zlen rs + 1) * 4096 <= lim).
Proof.
  intros [] Hle. pose proof (num_blocks_spec (zlen (fed ++ data)) (zlen_nonneg _)) as Hnb.
  assert (zlen (fed ++ data) = 4092 * zlen rs + zlen (partial w) + zlen data) as Hz.
  { by rewrite wi_fed0 !zlen_app (concat_uniform 4092). }
  pose proof (zlen_nonneg data). pose proof (zlen_nonneg (partial w)).
  split; [|lia]. eapply dev_frame_mono; [..|exact wi_frame0]; lia.
Qed.

Lemma write_chunk_loop_spec off lim d0 fuel data fed w rs :
  writable off lim d0 → writer_inv off d0 fed w rs → Z.of_nat fuel >= zlen data →
  off + num_blocks (zlen (fed ++ data)) * 4096 <= lim →
  let '(w', r) := write_chunk_loop fuel data w in
  io_only r ∧ dev_frame off lim d0 (w_io w') ∧ (no_faults (env (disk d0)) → r = Ok tt) ∧
  (r = Ok tt → ∃ rs', writer_inv off d0 (fed ++ data) w' rs').
Proof.
  intros Hwr. revert data fed w rs.
  induction fuel as [|fuel IH]; intros data fed w rs Hinv Hf Hle.
  all: pose proof (num_blocks_spec (zlen (fed ++ data)) (zlen_nonneg _)) as Hnb.
  all: pose proof (writer_inv_frame _ _ _ _ _ _ _ Hinv Hle) as [Hfr Hroom].
  all: destruct data as [|b data];
    [simpl; split_and!; try done; intros _; exists rs; by rewrite app_nil_r|].
  { pose proof (zlen_nonneg data). rewrite zlen_cons in Hf. lia. }
  set (all := b :: data) in *. cbn [write_chunk_loop]. fold all.
  set (take := Z.min (zlen all) (BLOCK_DATA_SIZE - zlen (partial w))).
  pose proof Hinv as Hinv'. destruct Hinv'.
  assert (0 < zlen all) by (rewrite /all zlen_cons; pose proof (zlen_nonneg data); lia).
  pose proof (zlen_nonneg (partial w)).
  assert (0 < take <= zlen all) as Htake by (subst take; blk).
  assert (zlen (ztake take all) = take) as Hlt by (rewrite zlen_ztake; lia).
  assert (zlen (zdrop take all) = zlen all - take) as Hld by (rewrite zlen_zdrop; lia).
  assert (fed ++ all = (fed ++ ztake take all) ++ zdrop take all) as Hsplit
    by (by rewrite -app_assoc ztake_zdrop).
  simpl partial. rewrite zlen_app Hlt.
  destruct (zlen (partial w) + take =? BLOCK_DATA_SIZE) eqn:E.
  - apply Z.eqb_eq in E. rewrite /sm_bind.
    pose proof (seal_block_spec off lim d0 fed w rs (partial w ++ ztake take all) Hwr) as Hs.
    ospecialize* Hs.
    { rewrite zlen_app Hlt E. done. }
    { done. }
    { apply Hroom. blk. }
    simpl in Hs. destruct (seal_block _) as [w1 r1]. destruct Hs as (Hnp & Hfr1 & Htot & Hi).
    destruct r1 as [[]|e|]; [|split_and!; try done|done].
    specialize (Hi eq_refl). rewrite app_assoc -wi_fed0 in Hi.
    specialize (IH (zdrop take all) _ _ _ Hi). rewrite -Hsplit in IH.
    apply IH; [lia|done].
  - apply Z.eqb_neq in E.
    assert (take = zlen all) as Hta by (subst take; blk).
    assert (writer_inv off d0 (fed ++ ztake take all)
      (mkWriter (w_io w) (w_extent_offset w) (batch w) (blocks_in_batch w)
         (partial w ++ ztake take all) (blocks_written w)) rs) as Hi.
    { split; simpl; try done.
      - by rewrite app_assoc -wi_fed0.
      - rewrite zlen_app Hlt. subst take. blk. }
    specialize (IH (zdrop take all) _ _ _ Hi). rewrite -Hsplit in IH.
    apply IH; [lia|done].
Qed.

Lemma write_chunk_spec off lim d0 data fed w rs :
  writable off lim d0 → writer_inv off d0 fed w rs →
  off + num_blocks (zlen (fed ++ data)) * 4096 <= lim →
  let '(w', r) := write_chunk data w in
  io_only r ∧ dev_frame off lim d0 (w_io w') ∧ (no_faults (env (disk d0)) → r = Ok tt) ∧
  (r = Ok tt → ∃ rs', writer_inv off d0 (fed ++ data) w' rs').
Proof. intros. eapply write_chunk_loop_spec; [done..|rewrite /zlen; lia|done]. Qed.

(** Flushing what is left completes the extent. *)
Lemma flush_rest_spec off d0 fed w rs :
  let lim := off + zlen rs * 4096 in
  writable off lim d0 → writer_inv off d0 fed w rs →
  let '(w', r) := if 0 <? blocks_in_batch w then flush_batch w else (w, Ok tt) in
  write_outcome off lim (concat (crc_block <$> rs)) d0 (w_io w') r.
Proof.
  intros lim Hwr Hinv.
  assert (∀ w', writer_inv off d0 fed w' rs → blocks_in_batch w' = 0 →
    dev_frame off lim d0 (w_io w') →
    write_outcome off lim (concat (crc_block <$> rs)) d0 (w_io w') (Ok tt)) as Hdone.
  { intros w' [] Hb Hfr. assert (zlen rs = blocks_written w') as Hz by lia.
    split; [done|done|done|]. intros _. rewrite wi_content0 -Hz ztake_ge //. split; [done|].
    intros Hne. rewrite /lim Hz. apply wi_size0. destruct rs as [|x rs]; [done|].
    rewrite zlen_cons in Hz. pose proof (zlen_nonneg rs). lia. }
  pose proof Hinv as []. destruct (0 <? blocks_in_batch w) eqn:E.
  - apply Z.ltb_lt in E.
    pose proof (flush_batch_spec off lim d0 fed w rs Hwr) as Hf.
    ospecialize* Hf; [done..|].
    destruct (flush_batch w) as [w' r]. destruct Hf as (Hnp & Hfr & Htot & Hi).
    destruct r as [[]|e|]; [|by split|done].
    destruct (Hi eq_refl). by apply Hdone.
  - apply Z.ltb_ge in E. apply Hdone; [done|lia|].
    eapply dev_frame_mono; [..|exact wi_frame0]; subst lim; lia.
Qed.

Lemma writer_finish_spec off d0 fed w rs :
  let lim := off + num_blocks (zlen fed) * 4096 in
  writable off lim d0 → writer_inv off d0 fed w rs →
  let '(w', r) := writer_finish w in
  write_outcome off lim (encode_blocks fed) d0 (w_io w') r.
Proof.
  intros lim Hwr Hinv. pose proof Hinv as [].
  pose proof (length_regions fed) as Hlen.
  rewrite encode_blocks_regions /writer_finish /sm_bind.
  assert (lim = off + zlen (regions fed) * 4096) as Hlim by (rewrite /zlen; lia).
  destruct (partial w) as [|b q] eqn:Hp.
  - assert (regions fed = rs) as Hr.
    { rewrite wi_fed0 regions_concat // regions_nil app_nil_r. done. }
    rewrite Hlim Hr. rewrite Hlim Hr in Hwr. by apply (flush_rest_spec off d0 fed).
  - rewrite -Hp in wi_fed0, wi_partial0 |- *.
    assert (0 < zlen (partial w)) as Hpos by (rewrite Hp zlen_cons; pose proof (zlen_nonneg q); lia).
    set (full := partial w ++ replicate _ _).
    assert (regions fed = rs ++ [full]) as Hr.
    { rewrite wi_fed0 regions_concat // regions_small //. lia. }
    assert (zlen full = 4092) as Hfull.
    { rewrite /full zlen_app zlen_replicate; blk. }
    rewrite Hlim Hr in Hwr |- *.
    pose proof (seal_block_spec off _ d0 fed w rs full Hwr Hfull Hinv) as Hs.
    ospecialize* Hs; [rewrite zlen_app zlen_cons zlen_nil; lia|]. simpl in Hs.
    destruct (seal_block _) as [w1 r1]. destruct Hs as (Hnp & Hfr & Htot & Hi).
    destruct r1 as [[]|e|]; [|by split|done].
    specialize (Hi eq_refl). by apply (flush_rest_spec off d0 (concat rs ++ full)).
Qed.

(** The writer's whole run, over any chunking of the payload. *)
Definition run_writer (chunks : list (list byte)) : SM StreamingBlockWriter RawStoreError unit :=
  foldr (λ c k, write_chunk c ;;; k) writer_finish chunks.

Lemma run_writer_inv off d0 chunks fed w rs :
  let lim := off + num_blocks (zlen (fed ++ concat chunks)) * 4096 in
  writable off lim d0 → writer_inv off d0 fed w rs →
  let '(w', r) := run_writer chunks w in
  write_outcome off lim (encode_blocks (fed ++ concat chunks)) d0 (w_io w') r.
Proof.
  revert fed w rs. induction chunks as [|c chunks IH]; intros fed w rs lim Hwr Hinv.
  { subst lim. simpl in *. rewrite app_nil_r in Hwr |- *. by eapply writer_finish_spec. }
  subst lim. simpl in *. rewrite /sm_bind.
  pose proof (write_chunk_spec off (off + num_blocks (zlen (fed ++ c ++ concat chunks)) * 4096)
    d0 c fed w rs Hwr Hinv) as Hc.
  ospecialize* Hc.
  { rewrite app_assoc (zlen_app (fed ++ c)).
    pose proof (zlen_nonneg (fed ++ c)). pose proof (zlen_nonneg (concat chunks)).
    pose proof (num_blocks_spec (zlen (fed ++ c))).
    pose proof (num_blocks_spec (zlen (fed ++ c) + zlen (concat chunks))). lia. }
  destruct (write_chunk c w) as [w1 r1]. destruct Hc as (Hnp & Hfr & Htot & Hi).
  destruct r1 as [[]|e|]; [|by split|done].
  destruct (Hi eq_refl) as [rs1 Hinv1]. specialize (IH (fed ++ c) w1 rs1).
  rewrite -app_assoc in IH. by apply IH.
Qed.
End writer_facts.

(** ** The streaming readers *)

Section reader_facts.
Context `{Crc32cLaws}.
Implicit Types (d : DeviceIo) (p : list byte) (r : StreamingBlockReader).

(** [r] reads [p] from the extent at [off] and has consumed [a] blocks. *)
Record reader_at (d : DeviceIo) (off : Z) (p : list byte) (a : Z) (r : StreamingBlockReader) :
    Prop := {
  ra_io : r_io r = d;
  ra_off : r_extent_offset r = off;
  ra_total : total_blocks r = num_blocks (zlen p);
  ra_len : payload_len r = zlen p;
  ra_idx : block_idx r = a;
  ra_consumed : payload_consumed r = Z.min (a * 4092) (zlen p);
  ra_range : 0 <= a <= num_blocks (zlen p);
}.

Lemma ztake_zdrop_swap {A} n k (l : list A) :
  0 <= k → zdrop k (ztake n l) = ztake (n - k) (zdrop k l).
Proof. rewrite /ztake /zdrop. intros. rewrite skipn_firstn_comm. f_equal. lia. Qed.

(** The blocks at [off] carry regions that begin with [p]: an extent of [p],
    or of a payload that [p] is a prefix of. *)
Definition holds_blocks (d : DeviceIo) (off : Z) (p : list byte) : Prop :=
  ∃ rs, Forall (λ l, zlen l = 4092) rs ∧ zlen rs = num_blocks (zlen p) ∧
    ztake (zlen p) (concat rs) = p ∧
    read_bytes (content (disk d)) off (zlen rs * 4096) = concat (crc_block <$> rs).

Lemma stored_holds d off p n :
  stored d off p → 0 <= n <= zlen p → holds_blocks d off (ztake n p).
Proof.
  intros Hs Hn. pose proof (num_blocks_spec n ltac:(lia)). pose proof (num_blocks_spec (zlen p) ltac:(lia)).
  assert (num_blocks n <= num_blocks (zlen p)) by (rewrite !num_blocks_eq; [apply Z.div_le_mono; lia|lia..]).
  pose proof (length_regions p) as Hl. change (Z.of_nat (length (regions p))) with (zlen (regions p)) in Hl.
  exists (subl 0 (num_blocks n) (regions p)). rewrite (zlen_ztake n); [|lia].
  rewrite zlen_subl; [|lia..]. rewrite Z.min_l; [|lia]. rewrite Z.sub_0_r. split_and!; [|done| |].
  - apply Forall_subl, regions_zlen.
  - rewrite subl_concat_regions; [|lia..]. destruct (concat_regions p) as [z ->].
    rewrite zdrop_0 ztake_ztake. rewrite Z.min_l; [|lia]. apply ztake_app_le. lia.
  - rewrite -(stored_sub d off p 0 (num_blocks n)) //; [|lia..]. f_equal; lia.
Qed.

(** The prefix [p] of the extent can be read at [off]. *)
Definition readable (d : DeviceIo) (off : Z) (p : list byte) : Prop :=
  holds_blocks d off p ∧ 0 <= off ∧ off + num_blocks (zlen p) * 4096 < two64 ∧ zlen p < two64 ∧
  (direct d = true → off mod 4096 = 0).

Lemma reader_new_at d off p : reader_at d off p 0 (reader_new d off (zlen p)).
Proof.
  pose proof (num_blocks_spec (zlen p) (zlen_nonneg p)). pose proof (zlen_nonneg p).
  split; simpl; try done; lia.
Qed.

Definition chunk_of p (a b : Z) : list byte := ztake ((b - a) * 4092) (zdrop (a * 4092) p).

Lemma chunk_of_step p a b :
  0 <= a → a < b → b <= num_blocks (zlen p) →
  ztake (a * 4092) p ++ chunk_of p a b = ztake (b * 4092) p ∧ 0 < zlen (chunk_of p a b).
Proof.
  intros. pose proof (num_blocks_spec (zlen p) (zlen_nonneg p)).
  assert (ztake (a * 4092) p ++ chunk_of p a b = ztake (b * 4092) p) as Hs.
  { replace (b * 4092) with (a * 4092 + (b - a) * 4092) by lia. rewrite ztake_add //; lia. }
  split; [done|]. apply (f_equal zlen) in Hs. 
  rewrite zlen_app (zlen_ztake (a * 4092)) ?(zlen_ztake (b * 4092)) in Hs; lia.
Qed.

Lemma holds_sub d off rs a b :
  Forall (λ l, zlen l = 4092) rs →
  read_bytes (content (disk d)) off (zlen rs * 4096) = concat (crc_block <$> rs) →
  0 <= a → a <= b → b <= zlen rs →
  read_bytes (content (disk d)) (off + a * 4096) ((b - a) * 4096) = concat (crc_block <$> subl a b rs).
Proof.
  intros Hrs Hr ???. rewrite -subl_encode; [|done|lia..]. rewrite -Hr zdrop_read_bytes; [|lia].
  rewrite ztake_read_bytes; [done|lia].
Qed.

(** Decoding the blocks [a .. b) of such an extent. *)
Lemma take_blocks_chunk p rs a b :
  Forall (λ l, zlen l = 4092) rs → zlen rs = num_blocks (zlen p) → ztake (zlen p) (concat rs) = p →
  0 <= a → a < b → b <= num_blocks (zlen p) → zlen p < two64 →
  take_blocks (Z.to_nat (b - a)) a (concat (crc_block <$> subl a b rs)) (zlen p)
    ([], Z.min (a * 4092) (zlen p)) =
  ((chunk_of p a b, Z.min (b * 4092) (zlen p)), Ok tt).
Proof.
  intros Hrs Hl Hp ????. pose proof (num_blocks_spec (zlen p) (zlen_nonneg p)).
  rewrite -(length_subl a b rs); [|lia..].
  rewrite -(app_nil_r (concat _)) take_blocks_ok; [|by apply Forall_subl|lia|done].
  rewrite zlen_subl; [|lia..]. rewrite app_nil_l (Z.min_l (a * 4092)); [|lia].
  do 2 f_equal; [|lia]. f_equal.
  rewrite /subl -(ztake_concat 4092); [|by apply Forall_drop|lia..].
  rewrite -(zdrop_concat 4092) //. rewrite /chunk_of -{2}Hp ztake_zdrop_swap; [|lia].
  rewrite !ztake_ztake. f_equal. lia.
Qed.

(** One call: the next batch of the payload, the end, or an I/O error that
    leaves the reader where it was. *)
Lemma next_chunk_spec d off p a r :
  readable d off p → reader_at d off p a r →
  let b := Z.min (a + BATCH_BLOCKS) (num_blocks (zlen p)) in
  let good r' x := if decide (a = num_blocks (zlen p)) then r' = r ∧ x = Ok None
                   else reader_at d off p b r' ∧ x = Ok (Some (chunk_of p a b)) in
  let '(r', x) := next_chunk r in
  (good r' x ∨ r' = r ∧ ∃ k m, x = Err (Io k m)) ∧
  (no_faults (env (disk d)) → off + num_blocks (zlen p) * 4096 <= file_size (disk d) → good r' x).
Proof.
  intros ((rs & Hrs & Hrl & Hrp & Hread) & Ho & Hlim & Hp & Hdir) Hra b good. pose proof Hra as [].
  pose proof (num_blocks_spec (zlen p) (zlen_nonneg p)).
  rewrite /next_chunk ra_idx0 ra_total0. subst good. cbv beta.
  case_decide as Ha.
  { rewrite (proj2 (Z.leb_le _ _)); [|lia]. auto. }
  rewrite (proj2 (Z.leb_gt _ _)); [|lia].
  assert (a < b <= num_blocks (zlen p)) as Hb by (subst b; blk). fold b.
  rewrite ra_off0 (batch_offset _ _ (num_blocks (zlen p))) // ra_io0.
  change BLOCK_ALIGNMENT with 4096.
  destruct (pread_cases (off + a * 4096) ((b - a) * 4096) d) as [Hcase Htot].
  { intros Hd. rewrite Z.mod_add //. auto. }
  { apply Z_mod_mult. }
  { lia. }
  { u64. }
  rewrite (holds_sub d off rs a b) in Hcase, Htot; [|done|done|lia..].
  rewrite ra_len0 ra_consumed0.
  assert (reader_at d off p b (with_progress b (Z.min (b * 4092) (zlen p)) r)) as Hnext.
  { split; simpl; try done; lia. }
  destruct (pread _ _ d) as [raw|e|].
  - assert (Ok raw = Ok (E:=RawStoreError) (concat (crc_block <$> subl a b rs)))
      as [= ->] by (destruct Hcase as [?|(?&?&?)]; done).
    rewrite take_blocks_chunk //; [auto|lia..].
  - split.
    + destruct Hcase as [?|(k & m & [= ->])]; [done|]. eauto.
    + intros Hnf Hsz. ospecialize* Htot; [done|lia|done].
  - destruct Hcase as [?|(?&?&?)]; done.
Qed.

(** Polling [next_chunk] to the end, as the streaming GET does. *)
Fixpoint drain (fuel : nat) : SM StreamingBlockReader RawStoreError (list byte) :=
  match fuel with
  | O => sm_panic
  | S fuel' =>
    o <- next_chunk ;;
    match o with
    | None => sm_ret []
    | Some chunk => rest <- drain fuel' ;; sm_ret (chunk ++ rest)
    end
  end.

Lemma drain_spec fuel d off p a r :
  readable d off p → reader_at d off p a r → num_blocks (zlen p) - a < Z.of_nat fuel →
  let '(r', x) := drain fuel r in
  (x = Ok (zdrop (a * 4092) p) ∨ ∃ k m, x = Err (Io k m)) ∧
  (no_faults (env (disk d)) → off + num_blocks (zlen p) * 4096 <= file_size (disk d) →
   x = Ok (zdrop (a * 4092) p)).
Proof.
  intros Hrd. revert a r. induction fuel as [|fuel IH]; intros a r Hra Hf.
  { destruct Hra. lia. }
  pose proof (num_blocks_spec (zlen p) (zlen_nonneg p)).
  pose proof (next_chunk_spec d off p a r Hrd Hra) as Hn.
  simpl. rewrite {1}/sm_bind. destruct (next_chunk r) as [r1 x1]. destruct Hn as [Hcase Htot].
  case_decide as Ha.
  { rewrite zdrop_ge; [|lia].
    destruct Hcase as [[-> ->]|[-> (k & m & ->)]]; (split; [by eauto|]); [done|].
    intros Hnf Hsz. by destruct (Htot Hnf Hsz). }
  set (b := Z.min _ _) in *.
  assert (a < b <= num_blocks (zlen p)) as Hb by (destruct Hra; subst b; blk).
  assert (0 <= a) as Ha0 by (destruct Hra; lia).
  destruct (chunk_of_step p a b) as [Hstep _]; [lia..|].
  assert (chunk_of p a b ++ zdrop (b * 4092) p = zdrop (a * 4092) p) as Hcat.
  { apply (app_inv_head (ztake (a * 4092) p)). by rewrite app_assoc Hstep !ztake_zdrop. }
  assert (∀ r2, reader_at d off p b r2 →
    let '(r', x) := (rest <- drain fuel;; sm_ret (chunk_of p a b ++ rest)) r2 in
    (x = Ok (zdrop (a * 4092) p) ∨ ∃ k m, x = Err (Io k m)) ∧
    (no_faults (env (disk d)) → off + num_blocks (zlen p) * 4096 <= file_size (disk d) →
     x = Ok (zdrop (a * 4092) p))) as Hrest.
  { intros r2 Hr2. specialize (IH b r2 Hr2 ltac:(lia)). rewrite /sm_bind.
    destruct (drain fuel r2) as [r' x]. destruct IH as [IHc IHt].
    destruct IHc as [->|(k & m & ->)]; rewrite /sm_ret ?Hcat; (split; [by eauto|]); [done|].
    intros Hnf Hsz. by specialize (IHt Hnf Hsz). }
  destruct Hcase as [[Hr1 ->]|[-> (k & m & ->)]]; [by apply Hrest|].
  split; [by eauto|]. intros Hnf Hsz. by destruct (Htot Hnf Hsz).
Qed.

(** *** The [Read] adapter *)

(** [b] has handed out the first [pos] bytes of [p]. *)
Definition block_reader_at d off p (pos : Z) (b : BlockReaderIo) : Prop :=
  ∃ a, reader_at d off p a (reader b) ∧ rerr b = None ∧
    0 <= rpos b <= zlen (rbuf b) ∧ 0 <= pos ∧
    ztake pos p ++ zdrop (rpos b) (rbuf b) = ztake (a * 4092) p ∧ pos <= zlen p.

Lemma block_reader_new_at d off p : block_reader_at d off p 0 (block_reader_new d off (zlen p)).
Proof.
  exists 0. split_and!; simpl; try done; [apply reader_new_at|apply zlen_nonneg].
Qed.

(** What one [read] returns at position [pos]: a prefix of what is left,
    empty only at the end of the payload (or for an empty buffer). *)
Definition read_result d off p (pos dst_len : Z) (b' : BlockReaderIo)
    (x : Res RawStoreError (list byte)) : Prop :=
  ∃ out, x = Ok out ∧ out = ztake (zlen out) (zdrop pos p) ∧ zlen out <= dst_len ∧
    (out = [] → dst_len = 0 ∨ pos = zlen p) ∧ block_reader_at d off p (pos + zlen out) b'.

(** Draining a non-empty buffer. *)
Lemma read_loop_buffered fuel d off p pos dst_len b :
  block_reader_at d off p pos b → 0 <= dst_len → rpos b < zlen (rbuf b) →
  let '(b', x) := read_loop fuel dst_len b in read_result d off p pos dst_len b' x.
Proof.
  intros (a & Hra & Herr & Hpos & Hp0 & Hcat & Hple) Hdst Hlt.
  assert (0 <= a) by (destruct Hra; lia).
  set (n := Z.min (zlen (rbuf b) - rpos b) dst_len).
  assert (read_loop fuel dst_len b =
    (mkBlockReaderIo (reader b) (rbuf b) (rpos b + n) (rerr b),
     Ok (ztake n (zdrop (rpos b) (rbuf b))))) as ->.
  { destruct fuel; simpl; by rewrite (proj2 (Z.ltb_lt _ _) Hlt). }
  set (rest := zdrop (rpos b) (rbuf b)) in *.
  assert (zlen rest = zlen (rbuf b) - rpos b) as Hrl by (subst rest; rewrite zlen_zdrop; lia).
  assert (zlen (ztake n rest) = n) as Hn by (rewrite zlen_ztake; lia).
  assert (rest = ztake (zlen rest) (zdrop pos p)) as Hrest.
  { by apply (ztake_split_rest pos (a * 4092)). }
  exists (ztake n rest). rewrite Hn. split_and!; [done| |lia| |].
  - rewrite {1}Hrest ztake_ztake Z.min_l //. lia.
  - intros Hnil. rewrite Hnil zlen_nil in Hn. lia.
  - exists a. simpl. split_and!; [done..|lia|lia|lia| |].
    + rewrite ztake_add; [|lia..]. rewrite -app_assoc -zdrop_zdrop_add; [|lia..].
      replace (ztake n (zdrop pos p)) with (ztake n rest).
      2: { rewrite {1}Hrest ztake_ztake Z.min_l //. lia. }
      by rewrite -/rest ztake_zdrop.
    + apply (f_equal zlen) in Hrest. rewrite zlen_ztake ?zlen_zdrop in Hrest; lia.
Qed.

Lemma block_reader_read_spec d off p pos dst_len b :
  readable d off p → block_reader_at d off p pos b → 0 <= dst_len →
  let '(b', x) := block_reader_read dst_len b in
  (read_result d off p pos dst_len b' x ∨
   ∃ k m, x = Err (Io k m) ∧ rerr b' = Some (Io k m)) ∧
  (no_faults (env (disk d)) → off + num_blocks (zlen p) * 4096 <= file_size (disk d) →
   read_result d off p pos dst_len b' x).
Proof.
  intros Hrd Hb Hdst. pose proof Hb as (a & Hra & Herr & Hpos & Hp0 & Hcat & Hple).
  rewrite /block_reader_read Herr. generalize 1%nat as f. intros f. cbn [read_loop].
  destruct (rpos b <? zlen (rbuf b)) eqn:Hlt.
  { apply Z.ltb_lt in Hlt.
    pose proof (read_loop_buffered 0 d off p pos dst_len b Hb Hdst Hlt) as Hr.
    cbn [read_loop] in Hr. rewrite (proj2 (Z.ltb_lt _ _) Hlt) in Hr. auto. }
  apply Z.ltb_ge in Hlt.
  assert (zdrop (rpos b) (rbuf b) = []) as Hnil by (apply zdrop_ge; lia).
  rewrite Hnil app_nil_r in Hcat.
  pose proof (num_blocks_spec (zlen p) (zlen_nonneg p)).
  assert (0 <= a <= num_blocks (zlen p)) as Ha by (destruct Hra; lia).
  assert (pos = Z.min (a * 4092) (zlen p)) as Hposa.
  { apply (f_equal zlen) in Hcat. rewrite !zlen_ztake in Hcat; lia. }
  pose proof (next_chunk_spec d off p a (reader b) Hrd Hra) as Hn.
  destruct (next_chunk (reader b)) as [r1 x1]. destruct Hn as [Hcase Htot].
  case_decide as Hend.
  - assert (∀ rr, rr = reader b → read_result d off p pos dst_len
      (mkBlockReaderIo rr (rbuf b) (rpos b) (rerr b)) (Ok [])) as Hdone.
    { intros rr ->. exists []. rewrite zlen_nil Z.add_0_r. split_and!; [done..|lia| |].
      - intros _. right. lia.
      - destruct b; done. }
    destruct Hcase as [[-> ->]|[-> (k & m & ->)]].
    + split; [left|intros _ _]; rewrite Herr in Hdone; rewrite Herr; by apply Hdone.
    + split; [right; eauto|]. intros Hnf Hsz. by destruct (Htot Hnf Hsz).
  - set (c := Z.min (a + BATCH_BLOCKS) _) in *.
    assert (a < c <= num_blocks (zlen p)) as Hc by (subst c; blk).
    destruct (chunk_of_step p a c) as [Hstep Hpos']; [lia..|].
    destruct Hcase as [[Hr1 ->]|[-> (k & m & ->)]].
    2: { split; [right; eauto|]. intros Hnf Hsz. by destruct (Htot Hnf Hsz). }
    assert (block_reader_at d off p pos (mkBlockReaderIo r1 (chunk_of p a c) 0 (rerr b))) as Hb1.
    { exists c. simpl. split_and!; [done..|lia|lia| |done].
      rewrite zdrop_0 Hcat. done. }
    destruct (chunk_of p a c) as [|x0 ck] eqn:Hck; [by rewrite zlen_nil in Hpos'|].
    pose proof (read_loop_buffered f d off p pos dst_len _ Hb1 Hdst) as Hr.
    ospecialize* Hr; [simpl; lia|].
    destruct (read_loop f _ _) as [b' x']. auto.
Qed.

(** A sequence of reads, stopping at the first error. *)
Fixpoint read_many (dst_lens : list Z) : SM BlockReaderIo RawStoreError (list (list byte)) :=
  match dst_lens with
  | [] => sm_ret []
  | n :: rest =>
    out <- block_reader_read n ;;
    outs <- read_many rest ;;
    sm_ret (out :: outs)
  end.

Lemma read_many_spec off p d dst_lens pos b :
  readable d off p → block_reader_at d off p pos b → Forall (λ n, 0 < n) dst_lens →
  let '(_, x) := read_many dst_lens b in
  match x with
  | Ok outs =>
    concat outs = ztake (zlen (concat outs)) (zdrop pos p) ∧
    Forall2 (λ out n, zlen out <= n) outs dst_lens ∧
    (∀ i, outs !! i = Some [] → concat (take i outs) = zdrop pos p)
  | Err e => (∃ k m, e = Io k m) ∧ ¬ (no_faults (env (disk d)) ∧
               off + num_blocks (zlen p) * 4096 <= file_size (disk d))
  | Panic => False
  end.
Proof.
  intros Hrd Hb Hpos. revert pos b Hb. induction Hpos as [|n ns Hn Hns IH]; intros pos b Hb.
  { by split_and!. }
  pose proof (block_reader_read_spec d off p pos n b Hrd Hb) as Hr.
  ospecialize* Hr; [lia|].
  simpl. rewrite {1}/sm_bind. destruct (block_reader_read n b) as [b1 x1].
  destruct Hr as [[(out & -> & Hout & Hle & Hend & Hb1)|(k & m & -> & _)] Htot].
  2: { split; [by eauto|]. intros [Hnf Hsz].
       by destruct (Htot Hnf Hsz) as (? & ? & _). }
  specialize (IH _ _ Hb1). rewrite /sm_bind.
  destruct (read_many ns b1) as [b2 [outs|e|]]; [|done..].
  destruct IH as (Hc & Hf & He). cbn [concat].
  pose proof Hb as (_ & _ & _ & _ & Hp0 & _). pose proof (zlen_nonneg out).
  assert (out ++ zdrop (pos + zlen out) p = zdrop pos p) as Hsplit.
  { rewrite -zdrop_zdrop_add; [|lia..]. rewrite {1}Hout. apply ztake_zdrop. }
  split_and!.
  - change (concat (out :: outs)) with (out ++ concat outs).
    pose proof (zlen_nonneg (concat outs)). rewrite zlen_app -Hsplit (ztake_app_ge _ out); [|lia].
    f_equal. rewrite {1}Hc. f_equal. lia.
  - by constructor.
  - intros [|i] Hi; simpl in Hi.
    + simplify_eq. destruct (Hend eq_refl) as [?|Hpz]; [lia|]. by rewrite zdrop_ge; [|lia].
    + simpl. by rewrite (He i Hi).
Qed.
End reader_facts.

(** ** Properties *)

Section properties.
Context `{Crc32cLaws}.

(** C35: Extent round trip on a device. In any environment the batched writer
    changes no byte outside the extent and never panics; when no call
    fails it succeeds, and the batched reader then returns the payload,
    with or without O_DIRECT. *)
Theorem batched_write_read off p d :
  zlen p < two64 → writable off (off + num_blocks (zlen p) * 4096) d →
  let '(d', r) := encode_and_write_batched off p d in
  dev_frame off (off + num_blocks (zlen p) * 4096) d d' ∧ io_only r ∧
  (r = Ok tt → read_bytes (content (disk d')) off (num_blocks (zlen p) * 4096) =
               encode_blocks p) ∧
  (no_faults (env (disk d)) →
     r = Ok tt ∧ read_and_decode_batched d' off (zlen p) = Ok p).
Proof.
  intros Hp (Hro & Hdir & Ho & Hlim).
  pose proof (encode_and_write_batched_spec off p d Ho Hlim Hro Hdir) as Hw.
  destruct (encode_and_write_batched off p d) as [d' r].
  pose proof Hw as [Hfr Hnp Htot Hc].
  split_and!; [done..| |].
  { intros Hr. by apply (write_outcome_stored off p d d' r). }
  intros Hnf. specialize (Htot Hnf). split; [done|].
  destruct (decide (p = [])) as [->|Hne]; [done|].
  apply read_and_decode_batched_spec; try done.
  - by eapply write_outcome_stored.
  - intros Hd. apply Hdir. by rewrite -(frame_direct _ _ _ _ Hfr).
  - by rewrite (frame_env _ _ _ _ Hfr).
  - destruct (Hc Htot) as [_ Hsz]. by apply Hsz, encode_blocks_nonempty.
Qed.

(** The streaming writer is the reference encoder. However a payload is
    cut into [write_chunk] calls, the writer never panics, touches only the
    extent, succeeds when no call fails, and on success has left on the
    device exactly the bytes of [encode_blocks] of the whole payload. *)
Theorem streaming_writer_encodes off chunks d :
  let p := concat chunks in
  writable off (off + num_blocks (zlen p) * 4096) d →
  let '(w, r) := run_writer chunks (writer_new d off) in
  dev_frame off (off + num_blocks (zlen p) * 4096) d (w_io w) ∧ io_only r ∧
  (no_faults (env (disk d)) → r = Ok tt) ∧
  (r = Ok tt →
     content (disk (w_io w)) = write_bytes off (encode_blocks p) (content (disk d))).
Proof.
  intros p Hw. pose proof (run_writer_inv off d chunks [] (writer_new d off) [] Hw) as Hr.
  ospecialize* Hr; [apply writer_new_inv|].
  destruct (run_writer chunks _) as [w r]. destruct Hr as [? ? ? Hc].
  split_and!; try done. intros Hr. by destruct (Hc Hr).
Qed.

(** Draining the streaming reader yields the payload. Polling
    [next_chunk] until it ends returns exactly the stored payload or the
    device's I/O error, and the payload when no call fails. *)
Theorem streaming_reader_drains off p d :
  readable d off p →
  let '(_, x) := drain (S (Z.to_nat (num_blocks (zlen p)))) (reader_new d off (zlen p)) in
  (x = Ok p ∨ ∃ k m, x = Err (Io k m)) ∧
  (no_faults (env (disk d)) → off + num_blocks (zlen p) * 4096 <= file_size (disk d) → x = Ok p).
Proof.
  intros Hrd.
  pose proof (drain_spec (S (Z.to_nat (num_blocks (zlen p)))) d off p 0 _ Hrd
                (reader_new_at d off p)) as Hd.
  apply Hd. pose proof (num_blocks_spec (zlen p) (zlen_nonneg p)). lia.
Qed.

(** The [Read] adapter. Reading from a stored extent into buffers of any
    sizes hands out the payload in order: each call returns the next bytes,
    at most as many as asked, none only at the end of the payload; an error
    is an I/O error of the device and is sticky. *)
Theorem block_reader_reads off p d dst_lens :
  readable d off p → Forall (λ n, 0 < n) dst_lens →
  let '(_, x) := read_many dst_lens (block_reader_new d off (zlen p)) in
  match x with
  | Ok outs =>
    concat outs = ztake (zlen (concat outs)) p ∧
    Forall2 (λ out n, zlen out <= n) outs dst_lens ∧
    (∀ i, outs !! i = Some [] → concat (take i outs) = p)
  | Err e => (∃ k m, e = Io k m) ∧ ¬ (no_faults (env (disk d)) ∧
               off + num_blocks (zlen p) * 4096 <= file_size (disk d))
  | Panic => False
  end.
Proof.
  intros Hrd Hpos.
  pose proof (read_many_spec off p d dst_lens 0 (block_reader_new d off (zlen p)) Hrd
                (block_reader_new_at d off p) Hpos) as Hm.
  destruct (read_many _ _) as [b [outs|e|]]; [|done..].
  destruct Hm as (Hc & Hl & Hend). split_and!; [done..|].
  intros i Hi. by apply Hend.
Qed.

(** Range decoding is slicing. Decoding the blocks that cover a range of
    a stored payload returns exactly that slice of the payload, for every
    range, including ranges inside one block or across many. *)
Theorem decode_range_slices (p : list byte) start end_ :
  0 <= start → start < end_ → end_ <= zlen p →
  decode_block_range
    (ztake (((end_ - 1) / BLOCK_DATA_SIZE - start / BLOCK_DATA_SIZE + 1) * BLOCK_ALIGNMENT)
       (zdrop (start / BLOCK_DATA_SIZE * BLOCK_ALIGNMENT) (encode_blocks p)))
    (start / BLOCK_DATA_SIZE) start end_ = Ok (ztake (end_ - start) (zdrop start p)).
Proof.
  intros Hs He Hp. set (first := start / BLOCK_DATA_SIZE). set (last := (end_ - 1) / BLOCK_DATA_SIZE).
  set (raw := ztake _ _). change BLOCK_DATA_SIZE with 4092 in *.
  pose proof (Z.div_mod start 4092). pose proof (Z.mod_pos_bound start 4092).
  pose proof (Z.div_mod (end_ - 1) 4092). pose proof (Z.mod_pos_bound (end_ - 1) 4092).
  pose proof (num_blocks_spec (zlen p) (zlen_nonneg p)).
  assert (0 <= first) by (apply Z.div_pos; lia).
  assert (first <= last) by (apply Z.div_le_mono; lia).
  assert (raw = concat (crc_block <$> subl first (last + 1) (regions p))) as ->.
  { rewrite /raw encode_blocks_regions. change BLOCK_ALIGNMENT with 4096.
    rewrite -subl_encode; [|apply regions_zlen|lia..]. f_equal. lia. }
  apply decode_block_range_ok; subst first last; lia.
Qed.

(** Corruption is detected. [decode_blocks] accepts an extent only when
    every block's stored CRC is the CRC of its data, and then returns the
    blocks' data cut to the expected length; otherwise it fails with
    [DataCorruption] naming the first bad block and both checksums. *)
Theorem decode_checks_every_block raw len :
  0 <= len < two64 →
  let n := zlen raw / BLOCK_ALIGNMENT in
  match decode_blocks raw len with
  | Ok p => (∀ i, 0 <= i < n → crc_matches raw i) ∧
            p = ztake len (concat (block_data raw <$> seqZ 0 n))
  | Err e => ∃ i, 0 <= i < n ∧ (∀ j, 0 <= j < i → crc_matches raw j) ∧ ¬ crc_matches raw i ∧
      e = DataCorruption ("block " +:+ pretty i) (stored_crc raw i) (crc32c (block_data raw i))
  | Panic => False
  end.
Proof.
  intros Hlen n. rewrite /decode_blocks -/n.
  change BLOCK_ALIGNMENT with 4096 in n.
  pose proof (Z.div_mod (zlen raw) 4096). pose proof (Z.mod_pos_bound (zlen raw) 4096).
  assert (0 <= n) by (apply Z.div_pos; [apply zlen_nonneg|lia]).
  pose proof (take_blocks_exact (Z.to_nat n) 0 raw len [] 0) as Ht.
  ospecialize* Ht; [lia|lia|lia|]. rewrite Z2Nat.id in Ht; [|done].
  rewrite Z.sub_0_r in Ht.
  destruct (take_blocks _ _ _ _ _) as [[c q] [[]|e|]]; [| |done]; [done|].
  destruct Ht as (i & ? & ? & ? & ->). by exists i.
Qed.
End properties.

(** The properties at concrete inputs, with CRC-32C itself. *)

Lemma batched_write_read_witness :
  let '(d', r) := encode_and_write_batched (H:=castagnoli) 8192 sample (blank_device 65536 true) in
  r = Ok tt ∧ read_and_decode_batched (H:=castagnoli) d' 8192 (zlen sample) = Ok sample.
Proof.
  assert (writable 8192 (8192 + num_blocks (zlen sample) * 4096) (blank_device 65536 true)) as Hw
    by by vm_compute.
  pose proof (batched_write_read (H:=castagnoli) (H0:=castagnoli_laws)
    8192 sample (blank_device 65536 true) ltac:(by vm_compute) Hw) as Hb.
  destruct (encode_and_write_batched _ _ _) as [d' r].
  apply Hb, blank_no_faults.
Defined.

Lemma streaming_writer_encodes_witness :
  let '(w, r) := run_writer (H:=castagnoli) sample_chunks (writer_new (blank_device 65536 true) 8192) in
  r = Ok tt ∧
  content (disk (w_io w)) = write_bytes 8192 (encode_blocks (H:=castagnoli) (concat sample_chunks)) ∅.
Proof.
  assert (writable 8192 (8192 + num_blocks (zlen (concat sample_chunks)) * 4096)
            (blank_device 65536 true)) as Hw by by vm_compute.
  pose proof (streaming_writer_encodes (H:=castagnoli)
    8192 sample_chunks (blank_device 65536 true) Hw) as Hb.
  destruct (run_writer _ _) as [w r].
  destruct Hb as (_ & _ & Htot & Hc). specialize (Htot (blank_no_faults _ _)).
  split; [exact Htot|exact (Hc Htot)].
Defined.

(** The blank device with the sample's extent written at 8192. *)
Definition sample_device : DeviceIo :=
  (encode_and_write_batched (H:=castagnoli) 8192 sample (blank_device 65536 true)).1.

Lemma sample_stored : stored (H:=castagnoli) sample_device 8192 sample.
Proof. rewrite /stored. by vm_compute. Qed.

Lemma sample_readable : readable (H:=castagnoli) sample_device 8192 sample.
Proof.
  pose proof (stored_holds (H:=castagnoli) sample_device 8192 sample (zlen sample) sample_stored) as Hh.
  rewrite (ztake_ge (zlen sample) sample (Z.le_refl _)) in Hh.
  split; [apply Hh; split; [apply zlen_nonneg|apply Z.le_refl]|]. split_and!; by vm_compute.
Qed.

Lemma sample_device_faults : no_faults (env (disk sample_device)).
Proof. apply ideal_env_no_faults. Qed.

Lemma streaming_reader_drains_witness :
  (drain (H:=castagnoli) (S (Z.to_nat (num_blocks (zlen sample))))
     (reader_new sample_device 8192 (zlen sample))).2 = Ok sample.
Proof.
  pose proof (streaming_reader_drains (H:=castagnoli) (H0:=castagnoli_laws)
    8192 sample sample_device sample_readable) as Hd.
  destruct (drain _ _) as [r x]. apply (proj2 Hd); [apply sample_device_faults|by vm_compute].
Defined.

Lemma block_reader_reads_witness :
  match (read_many (H:=castagnoli) [4096; 4096; 1] (block_reader_new sample_device 8192 (zlen sample))).2 with
  | Ok outs => concat outs = ztake (zlen (concat outs)) sample
  | _ => False
  end.
Proof.
  pose proof (block_reader_reads (H:=castagnoli) (H0:=castagnoli_laws)
    8192 sample sample_device [4096; 4096; 1] sample_readable
    ltac:(by repeat constructor)) as Hd.
  destruct (read_many _ _) as [r [outs|e|]]; simpl.
  - exact (proj1 Hd).
  - apply (proj2 Hd). split; [apply sample_device_faults|by vm_compute].
  - exact Hd.
Defined.

Lemma decode_range_slices_witness :
  decode_block_range (H:=castagnoli)
    (ztake 8192 (zdrop 0 (encode_blocks (H:=castagnoli) sample))) 0 4000 4200 =
  Ok (ztake 200 (zdrop 4000 sample)).
Proof.
  exact (decode_range_slices (H:=castagnoli) (H0:=castagnoli_laws)
    sample 4000 4200 ltac:(done) ltac:(done) ltac:(by vm_compute)).
Defined.

Lemma decode_checks_every_block_witness :
  ∃ i, 0 <= i < 2 ∧ ¬ crc_matches (H:=castagnoli) (replicate (Z.to_nat 8192) Byte.x01) i.
Proof.
  pose proof (decode_checks_every_block (H:=castagnoli)
    (replicate (Z.to_nat 8192) Byte.x01) 6000 ltac:(done)) as Hd.
  destruct (decode_blocks (replicate (Z.to_nat 8192) Byte.x01) 6000) as [p|e|] eqn:E.
  - by vm_compute in E.
  - destruct Hd as (i & Hi & _ & Hbad & _). exists i. split; [exact Hi|exact Hbad].
  - destruct Hd.
Defined.
