(* ===== verification/Index.v ===== *)
(** * The device index ([rawobjstr/src/index.rs], [store.rs] 34-66)

    The in-memory index maps object paths to extents.  A [HashMap] is a
    [gmap]; the order in which the code iterates over one is not determined
    by its contents, so it is a parameter, [HashMapOrder].  [Bincode] is the
    serialisation crate. *)

From S2P Require Import Prelude.
From S2P Require Import Config.
From S2P Require Import Device.
From S2P Require Import Allocator.
From S2P Require Import Extent.

(** ** Entries *)

(** [last_modified] is a time stamp in any fixed unit. *)
Record ExtentInfo : Type := mkExtentInfo {
  i_offset : Z;
  i_size : Z;
  i_padded_size : Z;
  i_crc32c : Z;
  i_created_txn : Z;
  i_last_modified : Z;
  i_meta_len : Z;
  i_uncompressed_size : Z;
}.

Record TombstoneInfo : Type := mkTombstone {
  t_size : Z;
  t_crc32c : Z;
  t_last_modified : Z;
  t_reason : string;
  t_tombstone_txn : Z;
}.

#[export] Instance ExtentInfo_eq_dec : EqDecision ExtentInfo.
Proof. solve_decision. Defined.
#[export] Instance TombstoneInfo_eq_dec : EqDecision TombstoneInfo.
Proof. solve_decision. Defined.

Record ShardData : Type := mkShard {
  sh_files : gmap string ExtentInfo;
  sh_tombstones : gmap string TombstoneInfo;
}.

Record DeviceIndex : Type := mkIndex {
  files : gmap string ExtentInfo;
  tombstones : gmap string TombstoneInfo;
}.

Definition index_new : DeviceIndex := mkIndex ∅ ∅.

(** The serde/bincode crates on [ShardData]; [None] is their error. *)
Class BincodeShard : Type := {
  ser_shard : ShardData → option (list byte);
  de_shard : list byte → option ShardData;
}.

(** The ranges of the Rust field types. *)
Record entry_in_range (e : ExtentInfo) : Prop := {
  er_offset : is_u64 (i_offset e);
  er_size : is_u64 (i_size e);
  er_padded : is_u64 (i_padded_size e);
  er_crc : 0 <= i_crc32c e < 2 ^ 32;
  er_txn : is_u64 (i_created_txn e);
  er_time : - 2 ^ 63 <= i_last_modified e < 2 ^ 63;
  er_meta : 0 <= i_meta_len e < 2 ^ 16;
  er_unc : is_u64 (i_uncompressed_size e);
}.

Record tombstone_in_range (t : TombstoneInfo) : Prop := {
  tr_size : is_u64 (t_size t);
  tr_crc : 0 <= t_crc32c t < 2 ^ 32;
  tr_time : - 2 ^ 63 <= t_last_modified t < 2 ^ 63;
  tr_txn : is_u64 (t_tombstone_txn t);
}.

Definition shard_in_range (s : ShardData) : Prop :=
  map_Forall (λ _ e, entry_in_range e) (sh_files s) ∧
  map_Forall (λ _ t, tombstone_in_range t) (sh_tombstones s).

(** Serialisation of in-range values succeeds and deserialisation inverts it;
    an empty map is its 8-byte length. *)
Class BincodeShardLaws `{BincodeShard} : Prop := {
  ser_shard_total s : shard_in_range s → ∃ b, ser_shard s = Some b ∧ b ≠ [];
  de_ser_shard s b : shard_in_range s → ser_shard s = Some b → de_shard b = Some s;
  ser_shard_empty b : ser_shard (mkShard ∅ ∅) = Some b → zlen b <= 16;
}.

Class HashMapOrder : Type :=
  hm_iter : ∀ {A : Type}, gmap string A → list (string * A).
Class HashMapOrderLaws `{HashMapOrder} : Prop :=
  hm_iter_perm : ∀ {A : Type} (m : gmap string A), hm_iter m ≡ₚ map_to_list m.

Section index.
Context `{Crc32c, BincodeShard}.

Definition shard_for_key (key : string) : Z := Z.land (crc32c (as_bytes key)) 255.

Definition shard_to_bytes (s : ShardData) : Res RawStoreError (list byte * Z) :=
  data ← ok_or (ser_shard s) Bincode;
  Ok (data, crc32c data).

Definition shard_from_bytes (data : list byte) (expected_crc : Z) : Res RawStoreError ShardData :=
  if negb (crc32c data =? expected_crc) then Err IndexCorrupt
  else ok_or (de_shard data) Bincode.

Lemma shard_for_key_range key : 0 <= shard_for_key key < 256.
Proof.
  rewrite /shard_for_key (Z.land_ones _ 8 ltac:(lia)). by apply Z.mod_pos_bound.
Qed.

Lemma shard_round_trip `{!BincodeShardLaws} s data crc :
  shard_in_range s → shard_to_bytes s = Ok (data, crc) → shard_from_bytes data crc = Ok s.
Proof.
  rewrite /shard_to_bytes /shard_from_bytes. intros Hs.
  destruct (ser_shard s) as [b|] eqn:E; [|done]. intros [= <- <-].
  by rewrite Z.eqb_refl /= (de_ser_shard s b Hs E).
Qed.
End index.

(** ** [rebuild_free_list] *)

Section rebuild.
Context `{HashMapOrder}.

Definition entry_in_area (data_end : Z) (e : ExtentInfo) : Prop :=
  DATA_START <= i_offset e ∧ 0 < i_padded_size e ∧
  sat_add (i_offset e) (i_padded_size e) <= data_end.

#[export] Instance entry_in_area_dec data_end e : Decision (entry_in_area data_end e).
Proof. rewrite /entry_in_area. apply _. Defined.

Definition extent_of (e : ExtentInfo) : Z * Z := (i_offset e, i_padded_size e).

(** The loop over the used extents, from [cursor]. *)
Fixpoint gaps (used : list (Z * Z)) (cursor data_end : Z) : list (Z * Z) :=
  match used with
  | [] => if cursor <? data_end then [(cursor, data_end -! cursor)] else []
  | (offset, psize) :: used' =>
    (if cursor <? offset then [(cursor, offset -! cursor)] else []) ++
    gaps used' (offset +! psize) data_end
  end.

Definition rebuild_free_list (index : DeviceIndex) (data_end : Z) :
    list (Z * Z) * list (Z * Z) :=
  let used := extent_of <$> filter (entry_in_area data_end) (hm_iter (files index)).*2 in
  let used := sort_by_key fst used in
  (used, gaps used DATA_START data_end).
End rebuild.

(** ** The rebuilt list is the complement of the used extents *)

Section rebuild_facts.
Context (hi : Z) (Hhi : hi < two64).

Lemma gaps_ok used cursor lo :
  0 <= lo → lo <= cursor → free_ok cursor hi used →
  free_ok lo hi (gaps used cursor hi) ∧ coalesced (gaps used cursor hi) ∧
  (∀ i, is_free (gaps used cursor hi) i ↔ cursor <= i < hi ∧ ¬ is_free used i) ∧
  (∀ o s l, gaps used cursor hi = (o, s) :: l → cursor <= o).
Proof.
  intros Hlo. revert cursor lo Hlo.
  induction used as [|[o s] used IH]; intros cursor lo Hlo Hc Hok; simpl.
  - destruct (cursor <? hi) eqn:E; [apply Z.ltb_lt in E|apply Z.ltb_ge in E].
    + rewrite wsub_small; [|u64]. split_and!; simpl; [lia|done| |].
      * intros i. rewrite is_free_cons !is_free_nil. intuition lia.
      * intros ??? [= <- <- <-]. lia.
    + split_and!; [done..| |done]. intros i. rewrite !is_free_nil. intuition lia.
  - simpl in Hok. destruct Hok as (? & ? & ? & Hok). rewrite wadd_small; [|u64].
    destruct (IH (o + s) (o + s)) as (Hok' & Hco & Hfree & Hhd); [lia|lia|done|].
    assert (∀ i, is_free used i → o + s <= i < hi) as Hub by (intros i; by apply is_free_bounds).
    destruct (cursor <? o) eqn:E; [apply Z.ltb_lt in E|apply Z.ltb_ge in E]; simpl.
    + rewrite wsub_small; [|u64]. split_and!; [lia..| | | |].
      * eapply free_ok_weaken; [|exact Hok']. lia.
      * destruct (gaps used _ _) as [|[o' s'] l] eqn:Hg; [done|].
        specialize (Hhd _ _ _ eq_refl). split; [lia|done].
      * intros i. rewrite ?is_free_cons Hfree. specialize (Hub i).
        destruct (decide (i < o)), (decide (o + s <= i)); intuition lia.
      * intros ??? [= <- <- <-]. lia.
    + assert (o = cursor) as Heq by lia. split_and!.
      * eapply free_ok_weaken; [|exact Hok']. lia.
      * done.
      * intros i. rewrite ?is_free_cons Hfree. specialize (Hub i).
        destruct (decide (i < o)), (decide (o + s <= i)); intuition lia.
      * intros o' s' l Hg. specialize (Hhd _ _ _ Hg). lia.
Qed.

(** Sorted extents that cover every byte at most once satisfy the invariant
    of a free list. *)
Lemma sorted_owners_ok lo l :
  StronglySorted (key_le fst) l →
  Forall (λ r, lo <= r.1 ∧ 0 < r.2 ∧ r.1 + r.2 <= hi) l →
  (∀ i, (owners l i <= 1)%nat) → free_ok lo hi l.
Proof using Type.
  intros Hs. revert lo. induction Hs as [|[o s] l Hs IH Hx]; intros lo Hall Hone; [done|].
  apply Forall_cons in Hall as [(?&?&?) Hall]. simpl in *. split_and!; [done..|].
  apply IH.
  - rewrite !Forall_forall in Hall Hx |- *. intros [o' s'] Hin.
    pose proof (Hall _ Hin) as (?&?&?). specialize (Hx _ Hin). rewrite /key_le /= in Hx.
    split_and!; simpl in *; [|lia..]. destruct (decide (o + s <= o')); [done|].
    specialize (Hone o'). rewrite owners_cons decide_True in Hone; [|rewrite /covers /=; lia].
    assert (owners l o' = 0%nat) as Hz%length_zero_iff_nil by lia.
    exfalso. apply (filter_nil_not_elem_of _ _ (o', s') Hz); [|done]. rewrite /covers /=. lia.
  - intros i. specialize (Hone i). rewrite owners_cons in Hone. lia.
Qed.
End rebuild_facts.

Lemma is_free_owners l i : is_free l i ↔ owners l i ≠ 0%nat.
Proof.
  induction l as [|[o s] l IH].
  - rewrite is_free_nil. by split.
  - rewrite is_free_cons owners_cons IH /covers /=. case_decide; intuition lia.
Qed.

(** No byte, inside the area or out, has two owners. *)
Lemma tiles_owners_le lo hi a live i : tiles lo hi a live → (owners live i <= 1)%nat.
Proof.
  intros [_ Hl Ho _]. destruct (decide (lo <= i < hi)) as [Hi|Hi].
  - destruct (Ho i Hi) as [[_ ->]|[_ ->]]; lia.
  - destruct (owners live i) as [|n] eqn:E; [lia|].
    assert (is_free live i) as Hf by (apply is_free_owners; rewrite E; lia).
    exfalso. apply Exists_exists in Hf as (r & Hin & Hc).
    rewrite Forall_forall in Hl. specialize (Hl _ Hin). rewrite /covers in Hc. lia.
Qed.

(** On an index whose extents tile the data area together with an
    allocator's free list, rebuilding yields that free list. *)
Lemma rebuild_tiles `{HashMapOrderLaws} idx hi a live :
  tiles DATA_START hi a live → live ≡ₚ extent_of <$> (map_to_list (files idx)).*2 →
  let '(used, free) := rebuild_free_list idx hi in
  used ≡ₚ live ∧ free_ok DATA_START hi used ∧ free = free_list a.
Proof.
  intros Ht Hl. set (vs := (hm_iter (files idx)).*2).
  assert (extent_of <$> vs ≡ₚ live) as Hvs by (by rewrite Hl /vs hm_iter_perm).
  eapply tiles_perm in Ht; [|by rewrite -Hvs]. clear Hl.
  pose proof Ht as [[? ? ? ? ? _] Hlive Honce _].
  rewrite /rebuild_free_list -/vs.
  assert (filter (entry_in_area hi) vs = vs) as ->.
  { apply filter_all. apply Forall_fmap in Hlive. eapply Forall_impl; [exact Hlive|].
    intros e (?&?&?&_). rewrite /entry_in_area. simpl in *. u64. }
  set (used := sort_by_key fst (extent_of <$> vs)).
  assert (used ≡ₚ extent_of <$> vs) as Hu by apply sort_by_key_perm.
  assert (Forall (λ r, DATA_START <= r.1 ∧ 0 < r.2 ∧ r.1 + r.2 <= hi) used) as Hall.
  { rewrite Hu. eapply Forall_impl; [exact Hlive|]. simpl. intros ?. lia. }
  assert (free_ok DATA_START hi used) as Hok.
  { apply sorted_owners_ok; [apply sort_by_key_sorted|done|].
    intros i. rewrite Hu. by eapply tiles_owners_le. }
  split_and!; [by rewrite Hu|done|].
  destruct (gaps_ok hi aw_hi used DATA_START DATA_START) as (Hg & Hco & Hfree & _); [done..|].
  eapply free_list_canonical; [done..|]. intros i. rewrite Hfree is_free_owners Hu.
  split.
  - intros [Hi Hn]. destruct (Honce i Hi) as [[? _]|[_ Hn1]]; [done|]. lia.
  - intros Hf. pose proof (is_free_bounds _ _ _ _ aw_ok Hf) as Hi. split; [done|].
    destruct (Honce i Hi) as [[_ ->]|[? _]]; [lia|done].
Qed.
