(* ===== verification/Superblock.v ===== *)
(** * The superblock ([rawobjstr/src/superblock.rs])

    The superblock is serialised by bincode into a 4096-byte buffer whose
    CRC32c is stored in one of its own fields; the code finds that field by
    serialising a probe and comparing.  [BincodeSuperblock] is the crate. *)

From S2P Require Import Prelude.
From S2P Require Import Config.
From S2P Require Import Device.
From S2P Require Import Extent.

Record ShardSlotMeta : Type := mkSlot {
  active_slot : Z;
  slot_size : Z;
  slot_crc : Z;
}.

Definition slot_default : ShardSlotMeta := mkSlot 0 0 0.

Record Superblock : Type := mkSuperblock {
  magic : list byte;
  version : Z;
  flags : Z;
  device_size : Z;
  block_alignment : Z;
  index_region_offset : Z;
  index_region_size : Z;
  txn_id : Z;
  index_checksum : Z;
  superblock_checksum : Z;
  prev_index_offset : Z;
  prev_index_size : Z;
  prev_txn_id : Z;
  prev_index_checksum : Z;
  index_slot_capacity : Z;
  shard_slots : list ShardSlotMeta;
  sb_max_key_length : Z;
  sb_compression : Z;
}.

#[export] Instance ShardSlotMeta_eq_dec : EqDecision ShardSlotMeta.
Proof. solve_decision. Defined.
#[export] Instance Superblock_eq_dec : EqDecision Superblock.
Proof. solve_decision. Defined.

Definition with_checksum (c : Z) (sb : Superblock) : Superblock :=
  mkSuperblock (magic sb) (version sb) (flags sb) (device_size sb) (block_alignment sb)
    (index_region_offset sb) (index_region_size sb) (txn_id sb) (index_checksum sb) c
    (prev_index_offset sb) (prev_index_size sb) (prev_txn_id sb) (prev_index_checksum sb)
    (index_slot_capacity sb) (shard_slots sb) (sb_max_key_length sb) (sb_compression sb).
Definition with_flags (f : Z) (sb : Superblock) : Superblock :=
  mkSuperblock (magic sb) (version sb) f (device_size sb) (block_alignment sb)
    (index_region_offset sb) (index_region_size sb) (txn_id sb) (index_checksum sb)
    (superblock_checksum sb)
    (prev_index_offset sb) (prev_index_size sb) (prev_txn_id sb) (prev_index_checksum sb)
    (index_slot_capacity sb) (shard_slots sb) (sb_max_key_length sb) (sb_compression sb).
Definition with_shard_slots (l : list ShardSlotMeta) (sb : Superblock) : Superblock :=
  mkSuperblock (magic sb) (version sb) (flags sb) (device_size sb) (block_alignment sb)
    (index_region_offset sb) (index_region_size sb) (txn_id sb) (index_checksum sb)
    (superblock_checksum sb)
    (prev_index_offset sb) (prev_index_size sb) (prev_txn_id sb) (prev_index_checksum sb)
    (index_slot_capacity sb) l (sb_max_key_length sb) (sb_compression sb).
Definition with_txn_id (t : Z) (sb : Superblock) : Superblock :=
  mkSuperblock (magic sb) (version sb) (flags sb) (device_size sb) (block_alignment sb)
    (index_region_offset sb) (index_region_size sb) t (index_checksum sb)
    (superblock_checksum sb)
    (prev_index_offset sb) (prev_index_size sb) (prev_txn_id sb) (prev_index_checksum sb)
    (index_slot_capacity sb) (shard_slots sb) (sb_max_key_length sb) (sb_compression sb).

Definition superblock_new (device_size block_alignment index_a_offset index_slot_capacity
    max_key_length : Z) (compression : Compression) : Superblock :=
  mkSuperblock SUPERBLOCK_MAGIC 4 0 device_size block_alignment index_a_offset 0 0 0 0
    index_a_offset 0 0 0 index_slot_capacity
    (replicate (Z.to_nat NUM_SHARDS) slot_default) max_key_length (compression_as_u8 compression).

(** The serde/bincode crates on [Superblock]; [None] is their error. *)
Class BincodeSuperblock : Type := {
  ser_sb : Superblock → option (list byte);
  de_sb : list byte → option Superblock;
}.

Record slot_in_range (s : ShardSlotMeta) : Prop := {
  sr_active : 0 <= active_slot s < 256;
  sr_size : 0 <= slot_size s < 2 ^ 32;
  sr_crc : 0 <= slot_crc s < 2 ^ 32;
}.

(** The ranges of the Rust field types. *)
Record sb_in_range (sb : Superblock) : Prop := {
  sbr_magic : zlen (magic sb) = 8;
  sbr_version : 0 <= version sb < 2 ^ 32;
  sbr_flags : 0 <= flags sb < 2 ^ 32;
  sbr_u64 : Forall is_u64 [device_size sb; block_alignment sb; index_region_offset sb;
    index_region_size sb; txn_id sb; prev_index_offset sb; prev_index_size sb; prev_txn_id sb;
    index_slot_capacity sb];
  sbr_u32 : Forall (λ v, 0 <= v < 2 ^ 32) [index_checksum sb; superblock_checksum sb;
    prev_index_checksum sb; sb_max_key_length sb];
  sbr_compression : 0 <= sb_compression sb < 256;
  sbr_slots : Forall slot_in_range (shard_slots sb);
  sbr_count : is_u64 (zlen (shard_slots sb));
}.

(** bincode writes the fields in order, integers as fixed-width little-endian
    bytes, a [Vec] after its 8-byte length; decoding ignores what follows. *)
Class BincodeSuperblockLaws `{BincodeSuperblock} : Prop := {
  ser_sb_total sb : sb_in_range sb → ∃ b, ser_sb sb = Some b ∧ zlen b = 113 + 9 * zlen (shard_slots sb);
  de_ser_sb sb b rest : sb_in_range sb → ser_sb sb = Some b → de_sb (b ++ rest) = Some sb;
  ser_sb_checksum sb : ∃ pre post, ∀ c, 0 <= c < 2 ^ 32 → ∀ b,
    ser_sb (with_checksum c sb) = Some b → b = pre ++ to_le_bytes 4 c ++ post;
  de_sb_in_range b sb : de_sb b = Some sb → sb_in_range sb;
}.

Section superblock.
Context `{Crc32c, BincodeSuperblock}.

(** [for i in 0..a.len() { if a[i] != b[i] { off = Some(i); break; } }];
    [Panic] is the index out of bounds. *)
Fixpoint first_diff (i : Z) (a b : list byte) : Res RawStoreError (option Z) :=
  match a, b with
  | [], _ => Ok None
  | _ :: _, [] => Panic
  | x :: a', y :: b' => if decide (x = y) then first_diff (i + 1) a' b' else Ok (Some i)
  end.

(** Where the checksum field is in the serialisation of [sb]. *)
Definition find_checksum_offset (data : list byte) (sb : Superblock) : Res RawStoreError Z :=
  probe ← ok_or (ser_sb (with_checksum 3735928559 sb)) Bincode;
  off ← first_diff 0 data probe;
  ok_or off (Io InvalidData "cannot locate superblock_checksum field in serialized data").

(** [buf[off..off + 4].copy_from_slice(&v.to_le_bytes())]. *)
Definition put_u32 (off v : Z) (buf : list byte) : Res RawStoreError (list byte) :=
  if (0 <=? off) && (off + 4 <=? zlen buf)
  then Ok (ztake off buf ++ to_le_bytes 4 v ++ zdrop (off + 4) buf)
  else Panic.

(** A zeroed buffer of [SUPERBLOCK_SIZE] bytes with [data] copied to its start. *)
Definition padded_buf (data : list byte) : list byte :=
  data ++ replicate (Z.to_nat (SUPERBLOCK_SIZE - zlen data)) Byte.x00.

Definition sb_to_bytes (sb0 : Superblock) : Res RawStoreError (list byte) :=
  let sb := with_checksum 0 sb0 in
  data ← ok_or (ser_sb sb) Bincode;
  if SUPERBLOCK_SIZE <? zlen data
  then Err (Io InvalidData "serialized superblock exceeds SUPERBLOCK_SIZE")
  else
    let buf := padded_buf data in
    let checksum := crc32c buf in
    off ← find_checksum_offset data sb;
    put_u32 off checksum buf.

Definition sb_from_bytes (buf : list byte) : Res RawStoreError Superblock :=
  sb ← ok_or (de_sb buf) Bincode;
  if negb (bool_decide (magic sb = SUPERBLOCK_MAGIC)) then Err NotFormatted
  else if negb (version sb =? 4) then Err (Io InvalidData "unsupported superblock version")
  else if negb (zlen (shard_slots sb) =? NUM_SHARDS)
  then Err (Io InvalidData "shard_slots length")
  else if block_alignment sb =? 0 then Err SuperblockCorrupt
  else
    zero_data ← ok_or (ser_sb (with_checksum 0 sb)) Bincode;
    off ← find_checksum_offset zero_data (with_checksum 0 sb);
    check_buf ← put_u32 off 0 (padded_buf (ztake SUPERBLOCK_SIZE buf));
    if negb (crc32c check_buf =? superblock_checksum sb) then Err SuperblockCorrupt
    else Ok sb.
End superblock.

(** ** Facts *)

(** The values the code itself gives to the fields it checks when reading. *)
Record sb_valid (sb : Superblock) : Prop := {
  sv_magic : magic sb = SUPERBLOCK_MAGIC;
  sv_version : version sb = 4;
  sv_slots : zlen (shard_slots sb) = 256;
  sv_alignment : block_alignment sb ≠ 0;
  sv_range : sb_in_range sb;
}.

Section superblock_facts.
Context `{Crc32cLaws, BincodeSuperblockLaws}.

Lemma with_checksum_range c sb :
  0 <= c < 2 ^ 32 → sb_in_range sb → sb_in_range (with_checksum c sb).
Proof.
  intros Hc [? ? ? ? Hu ? ?]. split; simpl; try done.
  inversion Hu as [|??? Hu1]; subst. inversion Hu1; subst.
  by do 2 (constructor; [done|]).
Qed.

Lemma with_checksum_twice c c' sb : with_checksum c (with_checksum c' sb) = with_checksum c sb.
Proof. done. Qed.

Lemma with_checksum_id sb : with_checksum (superblock_checksum sb) sb = sb.
Proof. by destruct sb. Qed.

Lemma first_diff_app i pre x y a b :
  x ≠ y → first_diff i (pre ++ x :: a) (pre ++ y :: b) = Ok (Some (i + zlen pre)).
Proof.
  intros Hne. revert i. induction pre as [|z pre IH]; intros i; simpl.
  - rewrite decide_False // zlen_nil. by rewrite Z.add_0_r.
  - rewrite decide_True // IH zlen_cons. do 2 f_equal. lia.
Qed.

(** The serialisations of one superblock that differ in the checksum. *)
Lemma ser_sb_split sb :
  sb_in_range sb → ∃ pre post,
    (∀ c, 0 <= c < 2 ^ 32 → ser_sb (with_checksum c sb) = Some (pre ++ to_le_bytes 4 c ++ post)) ∧
    zlen pre + 4 + zlen post = 113 + 9 * zlen (shard_slots sb).
Proof.
  intros Hr. destruct (ser_sb_checksum sb) as (pre & post & Hs).
  assert (∀ c, 0 <= c < 2 ^ 32 → ser_sb (with_checksum c sb) = Some (pre ++ to_le_bytes 4 c ++ post) ∧
    zlen pre + 4 + zlen post = 113 + 9 * zlen (shard_slots sb)) as Hall.
  { intros c Hc. destruct (ser_sb_total (with_checksum c sb)) as (b & Hb & Hl).
    { by apply with_checksum_range. }
    rewrite Hb. rewrite (Hs c Hc b Hb) in Hl |- *. split; [done|].
    rewrite !zlen_app to_le_bytes_zlen in Hl. simpl in Hl. lia. }
  exists pre, post. split; [intros c Hc; by apply Hall|by apply (Hall 0)].
Qed.

Lemma find_checksum_offset_ok pre post sb :
  (∀ c, 0 <= c < 2 ^ 32 → ser_sb (with_checksum c sb) = Some (pre ++ to_le_bytes 4 c ++ post)) →
  find_checksum_offset (pre ++ to_le_bytes 4 0 ++ post) (with_checksum 0 sb) = Ok (zlen pre).
Proof.
  intros Hs. rewrite /find_checksum_offset with_checksum_twice Hs; [|done].
  change (to_le_bytes 4 0) with (Byte.x00 :: replicate 3 Byte.x00).
  change (to_le_bytes 4 3735928559) with (Byte.xef :: tail (to_le_bytes 4 3735928559)).
  cbn [mbind Res_bind ok_or app]. by rewrite first_diff_app.
Qed.

Lemma put_u32_at pre v w post rest :
  put_u32 (zlen pre) w ((pre ++ to_le_bytes 4 v ++ post) ++ rest) =
  Ok ((pre ++ to_le_bytes 4 w ++ post) ++ rest).
Proof.
  pose proof (zlen_nonneg pre). pose proof (zlen_nonneg post). pose proof (zlen_nonneg rest).
  rewrite /put_u32. rewrite (proj2 (Z.leb_le 0 _)) //.
  rewrite (proj2 (Z.leb_le _ _)); [|rewrite !zlen_app to_le_bytes_zlen; lia].
  cbn [andb]. rewrite -?app_assoc ztake_app_exact //. do 3 f_equal.
  rewrite -zdrop_zdrop_add; [|lia..]. rewrite zdrop_app_exact //.
Qed.

(** What [to_bytes] writes, and that reading it gives the superblock back with
    its checksum. *)
Lemma sb_round_trip sb :
  sb_valid sb → ∃ b c, sb_to_bytes sb = Ok b ∧ zlen b = SUPERBLOCK_SIZE ∧
    sb_from_bytes b = Ok (with_checksum c sb).
Proof.
  intros [Hm Hv Hn Ha Hr]. destruct (ser_sb_split sb Hr) as (pre & post & Hs & Hlen).
  set (buf0 := padded_buf (pre ++ to_le_bytes 4 0 ++ post)).
  assert (zlen (pre ++ to_le_bytes 4 0 ++ post) = 2417) as Hl0.
  { rewrite !zlen_app to_le_bytes_zlen. rewrite Hn in Hlen. lia. }
  set (z := replicate (Z.to_nat (SUPERBLOCK_SIZE - 2417)) Byte.x00).
  assert (buf0 = (pre ++ to_le_bytes 4 0 ++ post) ++ z) as Hbuf0
    by (by rewrite /buf0 /padded_buf Hl0).
  set (c := crc32c buf0). assert (0 <= c < 2 ^ 32) as Hc by apply crc32c_range.
  set (b := (pre ++ to_le_bytes 4 c ++ post) ++ z).
  assert (zlen b = SUPERBLOCK_SIZE) as Hb.
  { rewrite /b zlen_app. rewrite !zlen_app !to_le_bytes_zlen in Hl0 |- *. rewrite /z zlen_replicate //.
    change SUPERBLOCK_SIZE with 4096. lia. }
  exists b, c. split_and!; [|done|].
  - rewrite /sb_to_bytes Hs //. cbn [mbind Res_bind ok_or]. rewrite Hl0.
    change (SUPERBLOCK_SIZE <? 2417) with false. cbn iota.
    rewrite find_checksum_offset_ok //. cbn [mbind Res_bind]. rewrite -/buf0 -/c Hbuf0.
    by rewrite put_u32_at.
  - rewrite /sb_from_bytes /b.
    rewrite (de_ser_sb (with_checksum c sb) (pre ++ to_le_bytes 4 c ++ post));
      [|by apply with_checksum_range|by apply Hs].
    cbn [mbind Res_bind ok_or]. cbn [magic version shard_slots block_alignment with_checksum].
    rewrite bool_decide_true // Hv Hn. rewrite (proj2 (Z.eqb_neq _ _) Ha). cbn [negb Z.eqb].
    change (negb (4 =? 4)) with false. change (negb (256 =? NUM_SHARDS)) with false. cbn iota.
    change (with_checksum 0 (with_checksum c sb)) with (with_checksum 0 sb) .
    rewrite Hs //. cbn [mbind Res_bind ok_or]. rewrite find_checksum_offset_ok //.
    cbn [mbind Res_bind]. rewrite -/b ztake_ge; [|lia].
    rewrite /padded_buf Hb Z.sub_diag /= app_nil_r /b put_u32_at. cbn [mbind Res_bind].
    rewrite -Hbuf0 -/c Z.eqb_refl. done.
Qed.

(** [from_bytes] accepts only buffers with the right magic, version, number
    of slots and checksum. *)
Lemma sb_from_bytes_sound buf sb :
  sb_from_bytes buf = Ok sb →
  sb_valid sb ∧ ∃ off check_buf,
    put_u32 off 0 (padded_buf (ztake SUPERBLOCK_SIZE buf)) = Ok check_buf ∧
    crc32c check_buf = superblock_checksum sb.
Proof.
  rewrite /sb_from_bytes. destruct (de_sb buf) as [sb'|] eqn:Hd; [|done]. cbn [mbind Res_bind ok_or].
  case_bool_decide as Hm; [|done]. cbn [negb].
  destruct (version sb' =? 4) eqn:Hv; [|done]. cbn [negb].
  destruct (zlen (shard_slots sb') =? NUM_SHARDS) eqn:Hn; [|done]. cbn [negb].
  destruct (block_alignment sb' =? 0) eqn:Ha; [done|].
  destruct (ser_sb _) as [zd|]; [|done]. cbn [mbind Res_bind ok_or].
  destruct (find_checksum_offset _ _) as [off|e|]; [|done..]. cbn [mbind Res_bind].
  destruct (put_u32 _ _ _) as [cb|e|] eqn:Hp; [|done..]. cbn [mbind Res_bind].
  destruct (crc32c cb =? _) eqn:Hc; [|done]. cbn [negb]. intros [= <-].
  apply Z.eqb_eq in Hv, Hn, Hc. apply Z.eqb_neq in Ha.
  split; [|by exists off, cb]. split; try done. by eapply de_sb_in_range.
Qed.
End superblock_facts.
