(* ===== verification/Inner.v ===== *)
(** * The store's core operations ([rawobjstr/src/store.rs] 68-435)

    [Inner] is everything the store keeps behind its lock.  Each operation is
    a state-error computation on it, in the order of the code: allocate,
    write, free the old extent, update the index.  [now] is the clock. *)

From S2P Require Import Prelude.
From S2P Require Import Config.
From S2P Require Import Device.
From S2P Require Import Allocator.
From S2P Require Import Extent.
From S2P Require Import Index.
From S2P Require Import Superblock.

Record Inner : Type := mkInner {
  io : DeviceIo;
  index : DeviceIndex;
  allocator : option ExtentAllocator;
  superblock : Superblock;
  dirty : bool;
  read_only : bool;
  shard_dirty : list bool;
  last_flush_bytes : Z;
  max_key_length : Z;
  compression : Compression;
}.

Definition set_io (d : DeviceIo) (st : Inner) : Inner :=
  mkInner d (index st) (allocator st) (superblock st) (dirty st) (read_only st)
    (shard_dirty st) (last_flush_bytes st) (max_key_length st) (compression st).
Definition set_index (i : DeviceIndex) (st : Inner) : Inner :=
  mkInner (io st) i (allocator st) (superblock st) (dirty st) (read_only st)
    (shard_dirty st) (last_flush_bytes st) (max_key_length st) (compression st).
Definition set_allocator (a : option ExtentAllocator) (st : Inner) : Inner :=
  mkInner (io st) (index st) a (superblock st) (dirty st) (read_only st)
    (shard_dirty st) (last_flush_bytes st) (max_key_length st) (compression st).
Definition set_superblock (sb : Superblock) (st : Inner) : Inner :=
  mkInner (io st) (index st) (allocator st) sb (dirty st) (read_only st)
    (shard_dirty st) (last_flush_bytes st) (max_key_length st) (compression st).
Definition set_dirty (b : bool) (st : Inner) : Inner :=
  mkInner (io st) (index st) (allocator st) (superblock st) b (read_only st)
    (shard_dirty st) (last_flush_bytes st) (max_key_length st) (compression st).
Definition set_shard_dirty (l : list bool) (st : Inner) : Inner :=
  mkInner (io st) (index st) (allocator st) (superblock st) (dirty st) (read_only st)
    l (last_flush_bytes st) (max_key_length st) (compression st).
Definition set_last_flush_bytes (n : Z) (st : Inner) : Inner :=
  mkInner (io st) (index st) (allocator st) (superblock st) (dirty st) (read_only st)
    (shard_dirty st) n (max_key_length st) (compression st).

Definition set_files (m : gmap string ExtentInfo) (st : Inner) : Inner :=
  set_index (mkIndex m (tombstones (index st))) st.
Definition set_tombstones (m : gmap string TombstoneInfo) (st : Inner) : Inner :=
  set_index (mkIndex (files (index st)) m) st.

Definition key_len (key : string) : Z := Z.of_nat (String.length key).

(** Run device code on the store's handle. *)
Definition on_io {A} (m : SM DeviceIo RawStoreError A) : SM Inner RawStoreError A :=
  sm_zoom io set_io m.

Section inner.
Context `{Crc32c, Codecs}.

(** ** Small helpers *)

(** [allocator_mut()?.alloc(padded)?] *)
Definition alloc_extent (padded : Z) : SM Inner RawStoreError Z := λ st,
  match allocator st with
  | None => (st, Err ReadOnly)
  | Some a => let '(a', r) := alloc padded a in (set_allocator (Some a') st, r)
  end.

(** [let _ = allocator_mut().map(|a| a.free(offset, padded))] *)
Definition give_back (offset padded : Z) (st : Inner) : Inner :=
  match allocator st with
  | None => st
  | Some a => set_allocator (Some (free offset padded a)) st
  end.

(** [allocator_mut()?.free(offset, padded)] *)
Definition free_extent (offset padded : Z) : SM Inner RawStoreError unit := λ st,
  match allocator st with
  | None => (st, Err ReadOnly)
  | Some _ => (give_back offset padded st, Ok tt)
  end.

(** [shard_dirty[shard] = true] *)
Definition mark_shard_dirty (key : string) : SM Inner RawStoreError unit := λ st,
  let shard := Z.to_nat (shard_for_key key) in
  if decide (shard < length (shard_dirty st))%nat
  then (set_shard_dirty (<[shard := true]> (shard_dirty st)) st, Ok tt)
  else (st, Panic).

(** [if let Some(old) = index.files.remove(key) { allocator_mut()?.free(..) }] *)
Definition remove_old (key : string) : SM Inner RawStoreError unit := λ st,
  match files (index st) !! key with
  | None => (st, Ok tt)
  | Some old =>
    free_extent (i_offset old) (i_padded_size old) (set_files (delete key (files (index st))) st)
  end.

Definition insert_entry (key : string) (e : ExtentInfo) (st : Inner) : Inner :=
  set_files (<[key := e]> (files (index st))) st.

(** The path of a corruption report is the object's key. *)
Definition relabel (key : string) (e : RawStoreError) : RawStoreError :=
  match e with
  | DataCorruption _ expected actual => DataCorruption key expected actual
  | e => e
  end.

(** ** Writing an object *)

Definition STREAMING_PUT_THRESHOLD : Z := 8 * 1024 * 1024.

(** What is stored for [payload], and the uncompressed size to record. *)
Definition choose_payload (c : Compression) (payload : list byte) : list byte * Z :=
  let original_size := zlen payload in
  if negb (bool_decide (c = CNone)) && (4096 <=? original_size) then
    match compress c payload with
    | Some compressed =>
      if zlen compressed <? original_size then (compressed, original_size) else (payload, 0)
    | None => (payload, 0)
    end
  else (payload, 0).

(** The loop of the streaming path: [chunk_size] bytes at a time. *)
Fixpoint put_chunks (fuel : nat) (chunk_size : Z) (payload : list byte) (pos crc : Z) :
    SM StreamingBlockWriter RawStoreError Z :=
  match fuel with
  | O => if pos <? zlen payload then sm_panic else sm_ret crc
  | S fuel' =>
    if pos <? zlen payload then
      let end_ := Z.min (pos + chunk_size) (zlen payload) in
      let chunk := ztake (end_ - pos) (zdrop pos payload) in
      let crc := crc32c_append crc chunk in
      write_chunk chunk ;;;
      put_chunks fuel' chunk_size payload end_ crc
    else sm_ret crc
  end.

Definition stream_extent (offset : Z) (payload : list byte) : SM DeviceIo RawStoreError Z := λ d,
  let '(w, r) := (crc <- put_chunks (length payload) (1024 * 1024) payload 0 0 ;;
                  writer_finish ;;; sm_ret crc) (writer_new d offset) in
  (w_io w, r).

(** Write the extent and compute the payload's CRC. *)
Definition write_extent (offset : Z) (payload : list byte) : SM DeviceIo RawStoreError Z :=
  if STREAMING_PUT_THRESHOLD <=? zlen payload
  then stream_extent offset payload
  else encode_and_write_batched offset payload ;;; sm_ret (crc32c payload).

(** The extent is written: free the old one, clear any tombstone and insert
    the new entry. *)
Definition finish_put (now : Z) (key : string) (offset size padded crc meta_len unc : Z) :
    SM Inner RawStoreError unit :=
  remove_old key ;;;
  sm_modify (λ st, set_tombstones (delete key (tombstones (index st))) st) ;;;
  mark_shard_dirty key ;;;
  sm_modify (λ st, insert_entry key
    (mkExtentInfo offset size padded crc (txn_id (superblock st)) now meta_len unc) st) ;;;
  sm_modify (set_dirty true).

Definition do_put_with_meta (now : Z) (key : string) (payload : list byte) (meta_len : Z) :
    SM Inner RawStoreError unit := λ st,
  if read_only st then (st, Err ReadOnly)
  else if decide (payload = []) then (st, Err EmptyPayload)
  else if max_key_length st <? key_len key
  then (st, Err (KeyTooLong (key_len key) (max_key_length st)))
  else
    let '(write_payload, uncompressed_size) := choose_payload (compression st) payload in
    let payload_size := zlen write_payload in
    (padded <- sm_lift (padded_extent_size payload_size) ;;
     offset <- alloc_extent padded ;;
     crc <- sm_on_err (on_io (write_extent offset write_payload)) (give_back offset padded) ;;
     finish_put now key offset payload_size padded crc meta_len uncompressed_size) st.

Definition do_put (now : Z) (key : string) (payload : list byte) : SM Inner RawStoreError unit :=
  do_put_with_meta now key payload 0.

(** ** Reading an object *)

Definition lookup_file (st : Inner) (key : string) : Res RawStoreError ExtentInfo :=
  ok_or (files (index st) !! key) (NotFound key).

(** The stored (possibly compressed) payload. *)
Definition do_get_raw (st : Inner) (key : string) : Res RawStoreError (list byte * ExtentInfo) :=
  info ← lookup_file st key;
  content ← map_err (relabel key) (read_and_decode_batched (io st) (i_offset info) (i_size info));
  Ok (content, info).

Definition do_get (st : Inner) (key : string) : Res RawStoreError (list byte * ExtentInfo) :=
  info ← lookup_file st key;
  content ← map_err (relabel key) (read_and_decode_batched (io st) (i_offset info) (i_size info));
  data ← (if 0 <? i_uncompressed_size info then decompress (compression st) content
          else Ok content);
  Ok (data, info).

(** The compressed branch of [do_get_range]: read all, then slice. *)
Definition get_range_compressed (st : Inner) (key : string) (info : ExtentInfo) (start end_ : Z) :
    Res RawStoreError (list byte * ExtentInfo) :=
  if COMPRESSED_RANGE_READ_MAX <? i_uncompressed_size info
  then Err (Io Other "range read on compressed object rejected")
  else
    '(full_data, info) ← do_get st key;
    let end_ := Z.min end_ (zlen full_data) in
    let start := Z.min start end_ in
    match slice start end_ full_data with
    | Some d => Ok (d, info)
    | None => Panic
    end.

(** The uncompressed branch: read and decode only the covering blocks. *)
Definition get_range_blocks (st : Inner) (key : string) (info : ExtentInfo) (start end_ : Z) :
    Res RawStoreError (list byte * ExtentInfo) :=
  let first_block := start / BLOCK_DATA_SIZE in
  let last_block := sat_sub end_ 1 / BLOCK_DATA_SIZE in
  block_byte_offset ← ok_or (checked_mul first_block BLOCK_ALIGNMENT)
    (ExtentInvalid "range read: block offset overflow");
  disk_offset ← ok_or (checked_add (i_offset info) block_byte_offset)
    (ExtentInvalid "range read: disk offset overflow");
  disk_len ← ok_or (checked_mul (last_block -! first_block +! 1) BLOCK_ALIGNMENT)
    (ExtentInvalid "range read: disk length overflow");
  raw ← pread disk_offset disk_len (io st);
  data ← map_err (relabel key) (decode_block_range raw first_block start end_);
  Ok (data, info).

Definition do_get_range (st : Inner) (key : string) (start end_ : Z) :
    Res RawStoreError (list byte * ExtentInfo) :=
  info ← lookup_file st key;
  if 0 <? i_uncompressed_size info
  then get_range_compressed st key info start end_
  else get_range_blocks st key info start end_.

(** ** Copying an object, block by block *)

Definition COPY_BATCH_SIZE : Z := 256 * BLOCK_ALIGNMENT.

Fixpoint copy_batches (fuel : nat) (src dst total copied : Z) : SM DeviceIo RawStoreError unit :=
  match fuel with
  | O => if copied <? total then sm_panic else sm_ret tt
  | S fuel' =>
    if copied <? total then
      let chunk := Z.min (total - copied) COPY_BATCH_SIZE in
      src_off <- sm_lift (ok_or (checked_add src copied)
                   (ExtentInvalid "copy: source offset overflow")) ;;
      dst_off <- sm_lift (ok_or (checked_add dst copied)
                   (ExtentInvalid "copy: destination offset overflow")) ;;
      raw <- (λ d, (d, pread src_off chunk d)) ;;
      pwrite dst_off raw ;;;
      copy_batches fuel' src dst total (copied + chunk)
    else sm_ret tt
  end.

(** [do_copy].  The two offset-overflow errors return without giving the new
    extent back; [overflowing_copy] tells them from I/O errors. *)
Definition overflowing_copy (e : RawStoreError) : bool :=
  match e with ExtentInvalid _ => true | _ => false end.

Definition do_copy (now : Z) (from_key to_key : string) : SM Inner RawStoreError unit := λ st,
  if read_only st then (st, Err ReadOnly)
  else if max_key_length st <? key_len to_key
  then (st, Err (KeyTooLong (key_len to_key) (max_key_length st)))
  else
    (info <- sm_lift (lookup_file st from_key) ;;
     new_offset <- alloc_extent (i_padded_size info) ;;
     (λ st, match on_io (copy_batches (Z.to_nat (i_padded_size info)) (i_offset info) new_offset
                           (i_padded_size info) 0) st with
            | (st', Err e) =>
              (if overflowing_copy e then st' else give_back new_offset (i_padded_size info) st',
               Err e)
            | r => r
            end) ;;;
     remove_old to_key ;;;
     mark_shard_dirty to_key ;;;
     sm_modify (λ st, insert_entry to_key
       (mkExtentInfo new_offset (i_size info) (i_padded_size info) (i_crc32c info)
          (txn_id (superblock st)) now (i_meta_len info) (i_uncompressed_size info)) st) ;;;
     sm_modify (set_dirty true)) st.
End inner.
