(* ===== verification/InnerFacts.v ===== *)
(** * The store's invariant and what its core operations guarantee

    [objects st] is the abstract state: the map from keys to object data that
    the index, the device and the codec together represent.  [inner_ok] is
    the invariant of a writable store: the extents of the index and the free
    list tile the data area and every entry's bytes are on the device with
    the recorded checksum.  The lemmas state each operation of [Inner] as an
    operation on [objects]. *)

From S2P Require Import Prelude.
From S2P Require Import Config.
From S2P Require Import Device.
From S2P Require Import Allocator.
From S2P Require Import Extent.
From S2P Require Import Streaming.
From S2P Require Import Index.
From S2P Require Import Superblock.
From S2P Require Import Inner.

(** ** The abstract state *)

Section abstract.
Context `{Crc32c, Codecs}.

(** What the blocks of an entry's extent decode to. *)
Definition raw_payload (d : DeviceIo) (e : ExtentInfo) : list byte :=
  match decode_blocks (read_bytes (content (disk d)) (i_offset e) (num_blocks (i_size e) * 4096))
          (i_size e) with
  | Ok p => p
  | _ => []
  end.

Definition entry_data (c : Compression) (d : DeviceIo) (e : ExtentInfo) : list byte :=
  if 0 <? i_uncompressed_size e
  then match decompress c (raw_payload d e) with Ok x => x | _ => [] end
  else raw_payload d e.

Definition objects (st : Inner) : gmap string (list byte) :=
  entry_data (compression st) (io st) <$> files (index st).

Definition extents (m : gmap string ExtentInfo) : list (Z * Z) :=
  extent_of <$> (map_to_list m).*2.

(** An entry describes what is on the device. *)
Record entry_ok (c : Compression) (d : DeviceIo) (e : ExtentInfo) : Prop := {
  eo_size : 0 < i_size e < 2 ^ 63;
  eo_padded : i_padded_size e = num_blocks (i_size e) * 4096;
  eo_len : zlen (raw_payload d e) = i_size e;
  eo_stored : stored d (i_offset e) (raw_payload d e);
  eo_crc : i_crc32c e = Extent.crc32c (raw_payload d e);
  eo_unc : i_uncompressed_size e = 0 ∨
    0 < i_uncompressed_size e ∧ ∃ x, decompress c (raw_payload d e) = Ok x ∧
      zlen x = i_uncompressed_size e;
}.

(** [hi] is the end of the data area: the start of index region A. *)
Record inner_ok (hi : Z) (st : Inner) : Prop := {
  io_writable : read_only st = false ∧ io_read_only (io st) = false;
  io_tiles : ∃ a, allocator st = Some a ∧
    tiles DATA_START hi a (extents (files (index st)));
  io_entries : map_Forall (λ _ e, entry_ok (compression st) (io st) e) (files (index st));
  io_size : hi <= file_size (disk (io st));
  io_shards : length (shard_dirty st) = 256%nat;
}.
End abstract.

(** ** Extents of the index *)

Section extents_facts.
Implicit Types (m : gmap string ExtentInfo).

Lemma extents_insert m k e : m !! k = None → extents (<[k:=e]> m) ≡ₚ extent_of e :: extents m.
Proof. intros Hk. rewrite /extents map_to_list_insert //. Qed.

Lemma extents_delete m k e : m !! k = Some e → extents m ≡ₚ extent_of e :: extents (delete k m).
Proof.
  intros Hk. rewrite -(extents_insert (delete k m) k e) ?lookup_delete_eq //.
  by rewrite insert_delete_id.
Qed.

Lemma extents_elem m k e : m !! k = Some e → extent_of e ∈ extents m.
Proof. intros Hk. rewrite (extents_delete m k e Hk). by left. Qed.

Lemma extents_delete_none m k : m !! k = None → extents (delete k m) = extents m.
Proof. intros. by rewrite delete_id. Qed.
End extents_facts.

(** ** Framing: entries depend only on the bytes of their extents *)

Section framing.
Context `{Crc32cLaws, CodecLaws}.

Implicit Types (d : DeviceIo) (p : list byte) (e : ExtentInfo).

Lemma stored_raw_payload d off p e :
  stored d off p → i_offset e = off → i_size e = zlen p → zlen p < two64 → raw_payload d e = p.
Proof. intros Hs Ho Hz Hb. by rewrite /raw_payload Ho Hz Hs decode_encode. Qed.

Lemma raw_payload_frame d d' e :
  (∀ i, i_offset e <= i < i_offset e + num_blocks (i_size e) * 4096 →
    byte_at (content (disk d')) i = byte_at (content (disk d)) i) →
  raw_payload d' e = raw_payload d e.
Proof.
  intros Hb. rewrite /raw_payload. by rewrite (read_bytes_ext _ (content (disk d))).
Qed.

Lemma entry_data_frame c d d' e :
  raw_payload d' e = raw_payload d e → entry_data c d' e = entry_data c d e.
Proof. intros Hr. by rewrite /entry_data Hr. Qed.

Lemma entry_ok_frame c d d' e :
  (∀ i, covers (extent_of e) i → byte_at (content (disk d')) i = byte_at (content (disk d)) i) →
  entry_ok c d e → entry_ok c d' e ∧ entry_data c d' e = entry_data c d e.
Proof.
  intros Hb [Hsz Hpad Hl Hs Hc Hu]. rewrite /covers /= Hpad in Hb.
  pose proof (raw_payload_frame d d' e Hb) as Hr.
  split; [|by apply entry_data_frame].
  split; rewrite ?Hr; try done. rewrite /stored Hl in Hs |- *. rewrite -Hs.
  apply read_bytes_ext. intros i Hi. apply Hb. lia.
Qed.

(** Writing a payload makes an entry for it. *)
Lemma entry_ok_new c d off p e u :
  stored d off p → i_offset e = off → i_size e = zlen p → i_uncompressed_size e = u →
  i_padded_size e = num_blocks (zlen p) * 4096 → i_crc32c e = Extent.crc32c p →
  0 < zlen p < 2 ^ 63 →
  (u = 0 ∨ 0 < u ∧ ∃ x, decompress c p = Ok x ∧ zlen x = u) → entry_ok c d e.
Proof.
  intros Hs Ho Hz Hu Hp Hc Hb Hx.
  assert (raw_payload d e = p) as Hr by (apply (stored_raw_payload d off); try done; u64).
  by split; rewrite ?Hr ?Ho ?Hz ?Hu.
Qed.

Lemma objects_lookup st k :
  objects st !! k = entry_data (compression st) (io st) <$> files (index st) !! k.
Proof. by rewrite /objects lookup_fmap. Qed.

(** The data of an entry is never empty. *)
Lemma entry_data_nonempty c d e : entry_ok c d e → 0 < zlen (entry_data c d e).
Proof.
  intros [? ? Hl ? ? Hu]. rewrite /entry_data. destruct Hu as [->|(Hpos & x & Hx & Hz)].
  - simpl. lia.
  - rewrite (proj2 (Z.ltb_lt _ _)) // Hx. lia.
Qed.
End framing.

(** ** Writing an extent, by either path *)

Section write_extent.
Context `{Crc32cLaws}.
Implicit Types (d : DeviceIo) (p : list byte).

Lemma put_chunks_spec fuel cs off lim d0 p pos crc w rs :
  0 < cs → 0 <= pos <= zlen p → zlen p - pos <= Z.of_nat fuel →
  writable off lim d0 → off + num_blocks (zlen p) * 4096 <= lim →
  writer_inv off d0 (ztake pos p) w rs → crc = Extent.crc32c (ztake pos p) →
  let '(w', r) := put_chunks fuel cs p pos crc w in
  io_only r ∧ dev_frame off lim d0 (w_io w') ∧
  (no_faults (env (disk d0)) → r = Ok (Extent.crc32c p)) ∧
  (∀ c, r = Ok c → c = Extent.crc32c p ∧ ∃ rs', writer_inv off d0 p w' rs').
Proof.
  intros Hcs. revert pos crc w rs.
  induction fuel as [|fuel IH]; intros pos crc w rs Hpos Hf Hw Hlim Hinv ->.
  all: assert (dev_frame off lim d0 (w_io w)) as Hfr by
    (eapply (writer_inv_frame off lim d0 (ztake pos p) (zdrop pos p)); [exact Hinv|];
     by rewrite ztake_zdrop).
  all: simpl; destruct (pos <? zlen p) eqn:E; [apply Z.ltb_lt in E|apply Z.ltb_ge in E].
  1: lia.
  1,3: rewrite (ztake_ge pos p) in Hinv |- *; [|lia];
    split_and!; [done..|]; intros c [= <-]; by eauto.
  set (e := Z.min (pos + cs) (zlen p)). set (chunk := ztake (e - pos) (zdrop pos p)).
  assert (pos < e <= zlen p) as He by (subst e; lia).
  assert (ztake pos p ++ chunk = ztake e p) as Hcat.
  { rewrite /chunk -ztake_add; [|lia..]. f_equal. lia. }
  pose proof (write_chunk_spec off lim d0 chunk (ztake pos p) w rs Hw Hinv) as Hc.
  rewrite Hcat in Hc. ospecialize* Hc.
  { pose proof (zlen_ztake e p). pose proof (num_blocks_spec (zlen p)).
    pose proof (num_blocks_spec (zlen (ztake e p))). lia. }
  rewrite /sm_bind. destruct (write_chunk chunk w) as [w1 r1]. destruct Hc as (Hnp & Hfr1 & Htot & Hi).
  destruct r1 as [[]|err|]; [|split_and!; try done; intros Hnf; by specialize (Htot Hnf)|done].
  destruct (Hi eq_refl) as [rs1 Hinv1].
  eapply IH; [lia|lia|done|done|exact Hinv1|]. by rewrite crc32c_append_app Hcat.
Qed.

(** What writing an extent may do, with the CRC it computes. *)
Record extent_outcome (off : Z) p d d' (r : Res RawStoreError Z) : Prop := {
  xo_frame : dev_frame off (off + num_blocks (zlen p) * 4096) d d';
  xo_no_panic : io_only r;
  xo_total : no_faults (env (disk d)) → r = Ok (Extent.crc32c p);
  xo_ok c : r = Ok c → c = Extent.crc32c p ∧ stored d' off p ∧
    off + num_blocks (zlen p) * 4096 <= file_size (disk d');
}.

Lemma write_outcome_extent off p d d' r c :
  p ≠ [] → c = Extent.crc32c p →
  write_outcome off (off + num_blocks (zlen p) * 4096) (encode_blocks p) d d' r →
  extent_outcome off p d d' (match r with Ok _ => Ok c | Err e => Err e | Panic => Panic end).
Proof.
  intros Hp -> Hw. pose proof Hw as [Hfr Hnp Htot Hc]. split; [done| | |].
  - by destruct r.
  - intros Hnf. by rewrite (Htot Hnf).
  - destruct r as [[]|e|]; [|done..]. intros c [= <-]. split_and!; [done| |].
    + by eapply write_outcome_stored.
    + apply Hc; [done|]. by apply encode_blocks_nonempty.
Qed.

Lemma write_extent_spec off p d :
  p ≠ [] → writable off (off + num_blocks (zlen p) * 4096) d →
  let '(d', r) := write_extent off p d in extent_outcome off p d d' r.
Proof.
  intros Hp Hw. rewrite /write_extent. destruct (STREAMING_PUT_THRESHOLD <=? zlen p).
  - rewrite /stream_extent. pose proof (zlen_nonneg p).
    pose proof (put_chunks_spec (length p) (1024 * 1024) off (off + num_blocks (zlen p) * 4096) d p 0 0
      (writer_new d off) []) as Hc.
    ospecialize* Hc; [lia|lia|rewrite /zlen; lia|done|lia|apply writer_new_inv| |].
    { by rewrite ztake_0 crc32c_nil. }
    rewrite {1}/sm_bind. destruct (put_chunks _ _ _ _ _ _) as [w r].
    destruct Hc as (Hnp & Hfr & Htot & Hi).
    destruct r as [c|e|]; [|by split|done].
    destruct (Hi c eq_refl) as (-> & rs' & Hinv). rewrite /sm_bind.
    pose proof (writer_finish_spec off d p w rs' Hw Hinv) as Hfin.
    destruct (writer_finish w) as [w' r'].
    apply (write_outcome_extent off p d (w_io w') r' _ Hp eq_refl) in Hfin. by destruct r'.
  - destruct Hw as (Hro & Hdir & Ho & Hlim). rewrite /sm_bind.
    pose proof (encode_and_write_batched_spec off p d Ho Hlim Hro Hdir) as Hfin.
    destruct (encode_and_write_batched off p d) as [d' r'].
    apply (write_outcome_extent off p d d' r' _ Hp eq_refl) in Hfin. by destruct r'.
Qed.
End write_extent.

(** ** Installing an entry *)

Section install.
Context `{Crc32cLaws, CodecLaws} {hi : Z}.
Implicit Types (st : Inner).

Lemma inner_ok_tiles st a :
  inner_ok hi st → allocator st = Some a → tiles DATA_START hi a (extents (files (index st))).
Proof. intros [_ (a' & Ha & Ht) _ _ _] Ha'. by simplify_eq. Qed.

(** The request made for a payload of a real buffer. *)
Lemma payload_request n P :
  0 < n < 2 ^ 63 → padded_extent_size n = Ok P →
  P = num_blocks n * 4096 ∧ request P ∧ align_up P BLOCK_ALIGNMENT = P.
Proof.
  intros Hn [-> ?]%padded_extent_size_ok; [|lia].
  pose proof (num_blocks_spec n). assert (request (num_blocks n * 4096)) as Hr by (split; u64).
  split_and!; [done..|]. apply align_up_aligned; [lia|u64|apply Z_mod_mult].
Qed.

Lemma remove_old_run st key a :
  allocator st = Some a →
  remove_old key st =
  (set_files (delete key (files (index st)))
     (set_allocator (Some (match files (index st) !! key with
                           | Some o => free (i_offset o) (i_padded_size o) a
                           | None => a end)) st), Ok tt).
Proof.
  intros Ha. rewrite /remove_old. destruct (files (index st) !! key) as [o|] eqn:E.
  - by rewrite /free_extent /give_back /= Ha.
  - rewrite delete_id //. by destruct st as [? [] ? ? ? ? ? ? ? ?]; simpl in *; subst.
Qed.

Lemma mark_shard_dirty_run st key :
  length (shard_dirty st) = 256%nat →
  mark_shard_dirty key st =
  (set_shard_dirty (<[Z.to_nat (shard_for_key key) := true]> (shard_dirty st)) st, Ok tt).
Proof.
  intros Hl. rewrite /mark_shard_dirty decide_True // Hl.
  pose proof (shard_for_key_range key). lia.
Qed.

(** The entries that a write outside their extents leaves intact. *)
Lemma entries_frame st a off P d' :
  inner_ok hi st → tiles DATA_START hi a ((off, P) :: extents (files (index st))) →
  dev_frame off (off + P) (io st) d' →
  ∀ k e, files (index st) !! k = Some e →
    entry_ok (compression st) d' e ∧
    entry_data (compression st) d' e = entry_data (compression st) (io st) e.
Proof.
  intros Hok Ht Hfr k e Hk. apply entry_ok_frame; [|by eapply io_entries].
  intros i Hi. apply (frame_bytes _ _ _ _ Hfr). intros Hb.
  eapply (tiles_disjoint _ _ _ _ _ (extent_of e) Ht); [by eapply extents_elem| |exact Hi].
  rewrite /covers /=. lia.
Qed.

Lemma install_ok st a a' off P d' key e st' :
  inner_ok hi st → allocator st = Some a → request P → align_up P BLOCK_ALIGNMENT = P →
  alloc P a = (a', Ok off) → dev_frame off (off + P) (io st) d' →
  extent_of e = (off, P) → entry_ok (compression st) d' e →
  io st' = d' → files (index st') = <[key:=e]> (files (index st)) →
  allocator st' = Some (match files (index st) !! key with
                        | Some o => free (i_offset o) (i_padded_size o) a'
                        | None => a' end) →
  compression st' = compression st → read_only st' = read_only st → length (shard_dirty st') = 256%nat →
  inner_ok hi st' ∧ objects st' = <[key := entry_data (compression st) d' e]> (objects st).
Proof.
  intros Hok Ha Hreq Hal Halloc Hfr He Hnew Hio Hfiles Hall Hc Hro Hsd.
  pose proof (inner_ok_tiles st a Hok Ha) as Ht.
  pose proof (tiles_alloc _ _ _ _ _ _ _ Ht Hreq Halloc) as Ht'. rewrite Hal in Ht'.
  pose proof (entries_frame _ _ _ _ _ Hok Ht' Hfr) as Hother.
  split; [split|].
  - rewrite Hro Hio (frame_ro _ _ _ _ Hfr). by eapply io_writable.
  - exists (match files (index st) !! key with
            | Some o => free (i_offset o) (i_padded_size o) a' | None => a' end).
    split; [done|]. rewrite Hfiles.
    destruct (files (index st) !! key) as [o|] eqn:Ho.
    + rewrite -insert_delete_eq. eapply tiles_perm; [|apply (tiles_free _ _ _ (i_offset o))].
      { symmetry. apply extents_insert, lookup_delete_eq. }
      eapply tiles_perm; [|exact Ht'].
      rewrite (extents_delete _ _ _ Ho) He. apply Permutation_swap.
    + eapply tiles_perm; [|exact Ht']. by rewrite extents_insert // He.
  - rewrite Hfiles Hc Hio. apply map_Forall_insert_2; [done|].
    intros k e0 Hk. by apply (Hother k).
  - rewrite Hio.
    pose proof (frame_size _ _ _ _ Hfr). pose proof (io_size _ _ Hok). lia.
  - done.
  - rewrite /objects Hfiles Hc Hio fmap_insert. f_equal.
    apply map_fmap_ext. intros k e0 Hk. by apply (Hother k).
Qed.

(** The device changed in the free space of the data area only. *)
Record only_free (hi : Z) st (d : DeviceIo) : Prop := {
  of_frame : dev_frame DATA_START hi (io st) d;
  of_avoids k e x ws : files (index st) !! k = Some e → covers (extent_of e) x →
    log (disk d) = log (disk (io st)) ++ ws → Forall (avoids x) ws;
}.

Lemma only_free_refl st : only_free hi st (io st).
Proof.
  split; [apply dev_frame_refl|]. intros k e x ws _ _ Hl.
  rewrite -{1}(app_nil_r (log _)) in Hl. apply app_inv_head in Hl as <-. constructor.
Qed.

(** An operation that failed: nothing visible changed. *)
Record unchanged (hi : Z) st st' : Prop := {
  un_ok : inner_ok hi st';
  un_index : index st' = index st;
  un_objects : objects st' = objects st;
  un_allocator : allocator st' = allocator st;
  un_superblock : superblock st' = superblock st;
  un_dirty : dirty st' = dirty st ∧ shard_dirty st' = shard_dirty st;
  un_compression : compression st' = compression st;
  un_max_key : max_key_length st' = max_key_length st;
  un_frame : only_free hi st (io st');
}.

Lemma unchanged_refl st : inner_ok hi st → unchanged hi st st.
Proof. by split; try apply only_free_refl. Qed.

(** The extent of an allocation lies in the data area. *)
Lemma alloc_frame st a a' off P d' :
  inner_ok hi st → allocator st = Some a → request P → align_up P BLOCK_ALIGNMENT = P →
  alloc P a = (a', Ok off) → dev_frame off (off + P) (io st) d' →
  only_free hi st d'.
Proof.
  intros Hok Ha Hreq Hal Halloc Hfr. pose proof (inner_ok_tiles st a Hok Ha) as Ht.
  pose proof (tiles_alloc _ _ _ _ _ _ _ Ht Hreq Halloc) as Ht'. rewrite Hal in Ht'.
  pose proof (tl_live _ _ _ _ Ht') as Hl. apply Forall_cons in Hl as [(?&?&?&?) _]. simpl in *. split.
  - eapply dev_frame_mono; [..|exact Hfr]; lia.
  - intros k e x ws Hk Hx Hlog. destruct (frame_log _ _ _ _ Hfr) as (ws' & Hlog' & Hw & _).
    rewrite Hlog' in Hlog. apply app_inv_head in Hlog as ->. eapply Forall_impl; [exact Hw|].
    intros [o data|]; [|done]. simpl. intros Hin Hc.
    eapply (tiles_disjoint _ _ _ _ _ (extent_of e) Ht'); [by eapply extents_elem| |exact Hx].
    rewrite /covers /=. lia.
Qed.

(** A write that failed, after its extent went back to the allocator. *)
Lemma write_failed st a a' off P d' :
  inner_ok hi st → allocator st = Some a → request P → align_up P BLOCK_ALIGNMENT = P →
  alloc P a = (a', Ok off) → dev_frame off (off + P) (io st) d' →
  unchanged hi st (give_back off P (set_io d' (set_allocator (Some a') st))).
Proof.
  intros Hok Ha Hreq Hal Halloc Hfr. pose proof (inner_ok_tiles st a Hok Ha) as Ht.
  pose proof (free_alloc_id _ _ _ _ _ _ (tl_wf _ _ _ _ Ht) Hreq Halloc) as Hid.
  rewrite Hal in Hid.
  pose proof (tiles_alloc _ _ _ _ _ _ _ Ht Hreq Halloc) as Ht'. rewrite Hal in Ht'.
  pose proof (entries_frame _ _ _ _ _ Hok Ht' Hfr) as Hother.
  pose proof (alloc_frame _ _ _ _ _ _ Hok Ha Hreq Hal Halloc Hfr) as Hdata.
  rewrite /give_back /= Hid. destruct Hok as [[Hr1 Hr2] Htl He Hs Hsd].
  split; simpl; try done.
  - split; simpl; try done.
    + split; [done|]. by rewrite (frame_ro _ _ _ _ Hfr).
    + by exists a.
    + intros k e Hk. by apply (Hother k).
    + pose proof (frame_size _ _ _ _ Hfr). lia.
  - rewrite /objects /=. apply map_fmap_ext. intros k e Hk. by apply (Hother k).
Qed.

(** An allocation on a well-formed store, with its failure. *)
Lemma alloc_extent_cases st a P :
  inner_ok hi st → allocator st = Some a → request P → align_up P BLOCK_ALIGNMENT = P →
  (∃ a' off, alloc P a = (a', Ok off) ∧
     alloc_extent P st = (set_allocator (Some a') st, Ok off) ∧
     writable off (off + P) (io st)) ∨
  (alloc_extent P st = (set_allocator (Some a) st, Err (NoSpace P (largest (free_list a)))) ∧
   Forall (λ r, r.2 < P) (free_list a) ∧ unchanged hi st (set_allocator (Some a) st)).
Proof.
  intros Hok Ha Hreq Hal. pose proof (inner_ok_tiles st a Hok Ha) as Ht.
  pose proof (tl_wf _ _ _ _ Ht) as Hwf. pose proof Hwf as [Hlo Hhi Hfok _ Hoffs Hala].
  rewrite /alloc_extent Ha.
  pose proof (alloc_fails_iff a P) as Hcase. rewrite Hala Hal in Hcase.
  destruct Hcase as [[_ (a' & off & Halloc)]|[Hall Halloc]]; rewrite Halloc; [left|right].
  - exists a', off. split_and!; [done..|].
    assert (0 < align_up P (alignment a)) as Hpos by (rewrite Hala Hal; by destruct Hreq).
    pose proof (alloc_offset _ _ Hlo Hhi _ _ _ _ Hfok Hpos Halloc) as Hb.
    rewrite Hala Hal in Hb, Hpos.
    assert (off mod 4096 = 0).
    { eapply (alloc_aligned DATA_START hi); [..|exact Halloc]; try done;
        rewrite Hala Hal; [done|]. rewrite -Hal. by apply request_aligned. }
    split_and!; [by apply (io_writable hi)|done|change DATA_START with 8192 in *; lia|lia].
  - split_and!; [done..|]. destruct Hok, st; simpl in *; subst. split; done || apply (only_free_refl (mkInner _ _ _ _ _ _ _ _ _ _)).
Qed.
End install.

(** ** The operations on the abstract state *)

Section operations.
Context `{Crc32cLaws, CodecLaws} {hi : Z}.
Implicit Types (st : Inner) (payload : list byte).

Lemma choose_payload_spec c payload :
  payload ≠ [] → let '(w, u) := choose_payload c payload in
  w ≠ [] ∧ zlen w <= zlen payload ∧
  (u = 0 ∧ w = payload ∨ u = zlen payload ∧ 0 < u ∧ decompress c w = Ok payload).
Proof.
  intros Hne. rewrite /choose_payload.
  destruct (negb _ && _) eqn:E; [|split_and!; try done; by left].
  apply andb_true_iff in E as [_ E]. apply Z.leb_le in E.
  destruct (compress c payload) as [v|] eqn:Hc; [|split_and!; try done; by left].
  destruct (zlen v <? zlen payload) eqn:Hl; [|split_and!; try done; by left].
  apply Z.ltb_lt in Hl. destruct (compress_smaller_inv _ _ _ Hc Hl) as [Hd Hv].
  split_and!; [done|lia|]. right. split_and!; [done|lia|done].
Qed.

(** The state a successful write of [e] under [key] leads to. *)
Record installed (hi : Z) st st' (key : string) (e : ExtentInfo) (data : list byte) : Prop := {
  in_ok : inner_ok hi st';
  in_files : files (index st') = <[key := e]> (files (index st));
  in_objects : objects st' = <[key := data]> (objects st);
  in_dirty : dirty st' = true ∧
    shard_dirty st' = <[Z.to_nat (shard_for_key key) := true]> (shard_dirty st);
  in_superblock : superblock st' = superblock st;
  in_compression : compression st' = compression st;
  in_max_key : max_key_length st' = max_key_length st;
  in_frame : only_free hi st (io st');
}.

(** The common end of the writing operations, on a written extent. *)
Lemma finish_put_spec st a a' now key off P crc size meta_len u w payload d' :
  inner_ok hi st → allocator st = Some a → request P → align_up P BLOCK_ALIGNMENT = P →
  alloc P a = (a', Ok off) → dev_frame off (off + P) (io st) d' →
  stored d' off w → 0 < zlen w < 2 ^ 63 → size = zlen w → P = num_blocks (zlen w) * 4096 →
  crc = Extent.crc32c w →
  (u = 0 ∧ w = payload ∨ u = zlen payload ∧ 0 < u ∧ decompress (compression st) w = Ok payload) →
  let '(st', r) := finish_put now key off size P crc meta_len u (set_io d' (set_allocator (Some a') st)) in
  r = Ok tt ∧ ∃ e, installed hi st st' key e payload ∧
    e = mkExtentInfo off size P crc (txn_id (superblock st)) now meta_len u ∧
    tombstones (index st') = delete key (tombstones (index st)).
Proof.
  intros Hok Ha Hreq Hal Halloc Hfr Hst Hwb -> HPn -> Hu.
  pose proof Hok as [[Hro Hiro] _ He Hs Hsd].
  rewrite /finish_put {1}/sm_bind (remove_old_run _ _ a') //. rewrite {1}/sm_bind /sm_modify.
  rewrite {1}/sm_bind mark_shard_dirty_run //. rewrite /sm_bind.
  set (e := mkExtentInfo _ _ _ _ _ _ _ _). split; [done|].
  assert (entry_ok (compression st) d' e) as Hnew.
  { apply (entry_ok_new _ _ off w _ u); try done. destruct Hu as [[-> _]|(-> & ? & ?)]; eauto. }
  exists e. split_and!; [|done..].
  assert (entry_data (compression st) d' e = payload) as Hdata.
  { rewrite /entry_data (stored_raw_payload d' off w e) //; [|u64]. simpl.
    destruct Hu as [[-> ->]|(-> & Hpos & ->)]; [done|]. by rewrite (proj2 (Z.ltb_lt _ _)). }
  match goal with |- installed _ _ ?s _ _ _ =>
    destruct (install_ok (hi:=hi) st a a' off P d' key e s) as [Hok' Hobj] end; try done.
  - simpl. by rewrite insert_delete_eq.
  - simpl. by rewrite length_insert.
  - split; try done.
    + simpl. by rewrite insert_delete_eq.
    + by rewrite Hobj Hdata.
    + by eapply alloc_frame.
Qed.

(** The errors a put can report on a well-formed store. *)
Definition put_error st (key : string) payload (err : RawStoreError) : Prop :=
  match err with
  | EmptyPayload => payload = []
  | KeyTooLong n m => n = key_len key ∧ m = max_key_length st ∧ m < n
  | NoSpace n _ => ∃ a, allocator st = Some a ∧ Forall (λ r, r.2 < n) (free_list a) ∧
      n = num_blocks (zlen (choose_payload (compression st) payload).1) * 4096
  | Io _ _ => ¬ no_faults (env (disk (io st)))
  | _ => False
  end.

Lemma do_put_spec now key payload meta_len st :
  inner_ok hi st → zlen payload < 2 ^ 63 →
  let '(st', r) := do_put_with_meta now key payload meta_len st in
  match r with
  | Ok _ => ∃ e, installed hi st st' key e payload ∧
      i_last_modified e = now ∧ i_meta_len e = meta_len ∧ i_created_txn e = txn_id (superblock st) ∧
      tombstones (index st') = delete key (tombstones (index st))
  | Err err => unchanged hi st st' ∧ put_error st key payload err
  | Panic => False
  end.
Proof.
  intros Hok Hlen. pose proof Hok as [[Hro Hiro] (a & Ha & Ht) He Hs Hsd].
  rewrite /do_put_with_meta Hro. case_decide as Hne; [by split; [apply unchanged_refl|]|].
  destruct (max_key_length st <? key_len key) eqn:Hk.
  { apply Z.ltb_lt in Hk. by split; [apply unchanged_refl|]. }
  pose proof (choose_payload_spec (compression st) payload Hne) as Hch.
  destruct (choose_payload _ _) as [w u] eqn:Hcp. destruct Hch as (Hw & Hwl & Hu).
  assert (0 < zlen w < 2 ^ 63) as Hwb.
  { split; [|lia]. destruct w; [done|]. rewrite zlen_cons. pose proof (zlen_nonneg w). lia. }
  rewrite {1}/sm_bind {1}/sm_lift. destruct (padded_extent_size (zlen w)) as [P|err|] eqn:HP.
  2: { exfalso. rewrite /padded_extent_size /checked_mul in HP.
       pose proof (num_blocks_spec (zlen w)). change BLOCK_ALIGNMENT with 4096 in HP.
       destruct (num_blocks (zlen w) * 4096 <? two64) eqn:E; [done|]. apply Z.ltb_ge in E. u64. }
  2: { rewrite /padded_extent_size in HP. by destruct (checked_mul _ _). }
  destruct (payload_request _ _ Hwb HP) as (HPn & Hreq & Hal).
  destruct (alloc_extent_cases st a P Hok Ha Hreq Hal)
    as [(a' & off & Halloc & Hrun & Hwr)|(Hrun & Hall & Hun)]; rewrite {1}/sm_bind Hrun.
  2: { split; [done|]. exists a. by rewrite Hcp -HPn. }
  rewrite {1}/sm_bind {1}/sm_on_err /on_io /sm_zoom. simpl io.
  rewrite HPn in Hwr. pose proof (write_extent_spec off w (io st) Hw Hwr) as Hx.
  destruct (write_extent off w (io st)) as [d' r]. destruct Hx as [Hfr Hnp Htot Hx].
  rewrite -HPn in Hfr Hx. destruct r as [crc|err|]; [| |done].
  2: { split; [by eapply write_failed|].
       assert (¬ no_faults (env (disk (io st)))) by (intros Hnf; by specialize (Htot Hnf)).
       by destruct err. }
  destruct (Hx crc eq_refl) as (-> & Hst & Hfs).
  pose proof (finish_put_spec st a a' now key off P _ (zlen w) meta_len u w payload d' Hok Ha Hreq Hal
    Halloc Hfr Hst Hwb eq_refl HPn eq_refl Hu) as Hfin. rewrite /sm_bind.
  change (set_io d' _) with (set_io d' (set_allocator (Some a') st)).
  destruct (finish_put _ _ _ _ _ _ _ _ _) as [st' r]. destruct Hfin as (-> & e & Hin & -> & Htb).
  by eexists.
Qed.

(** *** Reading *)

Lemma entry_bounds st key e :
  inner_ok hi st → files (index st) !! key = Some e →
  DATA_START <= i_offset e ∧ i_offset e + num_blocks (i_size e) * 4096 <= hi ∧
  hi < two64 ∧ i_offset e mod 4096 = 0.
Proof.
  intros [_ (a & _ & [Hwf Hl _ _]) He _ _] Hk.
  rewrite Forall_forall in Hl. specialize (Hl _ (extents_elem _ _ _ Hk)). simpl in Hl.
  rewrite (eo_padded _ _ _ (He _ _ Hk)) in Hl. pose proof (aw_hi _ _ _ Hwf). lia.
Qed.

(** Reading an entry's stored payload. *)
Lemma read_entry st key e :
  inner_ok hi st → files (index st) !! key = Some e →
  let r := read_and_decode_batched (io st) (i_offset e) (i_size e) in
  (r = Ok (raw_payload (io st) e) ∨ ∃ k m, r = Err (Io k m)) ∧
  (no_faults (env (disk (io st))) → r = Ok (raw_payload (io st) e)).
Proof.
  intros Hok Hk. destruct (entry_bounds st key e Hok Hk) as (Hlo & Hhi & Hb & Hal).
  destruct (io_entries _ st Hok key e Hk) as [Hsz Hp Hl Hst Hc Hu].
  pose proof (read_and_decode_batched_spec (io st) (i_offset e) (raw_payload (io st) e) Hst) as Hr.
  rewrite Hl in Hr. change DATA_START with 8192 in Hlo.
  destruct Hr as [Hr1 Hr2]; [u64|lia|lia|done|].
  split; [done|]. intros Hnf. apply Hr2; [done|]. pose proof (io_size _ _ Hok). lia.
Qed.

Lemma do_get_spec st key :
  inner_ok hi st →
  match do_get st key with
  | Ok (data, e) => objects st !! key = Some data ∧ files (index st) !! key = Some e
  | Err err =>
    err = NotFound key ∧ objects st !! key = None ∨
    (∃ k m, err = Io k m) ∧ is_Some (objects st !! key) ∧ ¬ no_faults (env (disk (io st)))
  | Panic => False
  end.
Proof.
  intros Hok. rewrite /do_get /lookup_file objects_lookup.
  destruct (files (index st) !! key) as [e|] eqn:Hk; [|by left].
  cbn [ok_or mbind Res_bind fmap option_fmap option_map].
  destruct (read_entry st key e Hok Hk) as [Hr Hnf].
  destruct (io_entries _ st Hok key e Hk) as [_ _ _ _ _ Hu].
  destruct Hr as [->|(k & m & Hr)].
  - cbn [map_err mbind Res_bind]. rewrite /entry_data. destruct Hu as [->|(Hpos & x & Hx & _)]; [done|].
    rewrite (proj2 (Z.ltb_lt _ _)) // Hx. done.
  - rewrite Hr in Hnf |- *. cbn. right. split_and!; [by eauto|done|].
    intros Hn. by specialize (Hnf Hn).
Qed.

Lemma do_get_raw_spec st key :
  inner_ok hi st →
  match do_get_raw st key with
  | Ok (raw, e) => files (index st) !! key = Some e ∧ raw = raw_payload (io st) e
  | Err err =>
    err = NotFound key ∧ objects st !! key = None ∨
    (∃ k m, err = Io k m) ∧ is_Some (objects st !! key) ∧ ¬ no_faults (env (disk (io st)))
  | Panic => False
  end.
Proof.
  intros Hok. rewrite /do_get_raw /lookup_file objects_lookup.
  destruct (files (index st) !! key) as [e|] eqn:Hk; [|by left].
  cbn [ok_or mbind Res_bind fmap option_fmap option_map].
  destruct (read_entry st key e Hok Hk) as [Hr Hnf].
  destruct Hr as [->|(k & m & Hr)]; [done|].
  rewrite Hr in Hnf |- *. cbn. right. split_and!; [by eauto|done|].
  intros Hn. by specialize (Hnf Hn).
Qed.

(** The outcome of a range read. *)
Definition range_outcome st (key : string) start end_
    (r : Res RawStoreError (list byte * ExtentInfo)) : Prop :=
  match r with
  | Ok (part, e) => files (index st) !! key = Some e ∧
      ∃ data, objects st !! key = Some data ∧ part = ztake (end_ - start) (zdrop start data)
  | Err err => (∃ k m, err = Io k m) ∧ (no_faults (env (disk (io st))) →
      ∃ e, files (index st) !! key = Some e ∧ COMPRESSED_RANGE_READ_MAX < i_uncompressed_size e)
  | Panic => False
  end.

Lemma get_range_blocks_spec st key e start end_ :
  inner_ok hi st → files (index st) !! key = Some e → i_uncompressed_size e = 0 →
  0 <= start → start <= end_ → end_ <= i_size e →
  range_outcome st key start end_ (get_range_blocks st key e start end_).
Proof.
  intros Hok Hk Hunc Hs Hse He. destruct (entry_bounds st key e Hok Hk) as (Hlo & Hhi & Hb & Hal).
  destruct (io_entries _ st Hok key e Hk) as [Hsz Hp Hl Hst Hc _].
  assert (objects st !! key = Some (raw_payload (io st) e)) as Hobj.
  { by rewrite objects_lookup Hk /= /entry_data Hunc. }
  set (p := raw_payload (io st) e) in *. rewrite -Hl in Hsz Hhi He.
  rewrite /get_range_blocks. change BLOCK_DATA_SIZE with 4092.
  set (fb := start / 4092). set (lb := sat_sub end_ 1 / 4092 +! 1).
  change DATA_START with 8192 in Hlo.
  pose proof (num_blocks_spec (zlen p) (zlen_nonneg p)) as Hnb.
  assert (0 <= fb ∧ fb * 4092 <= start < fb * 4092 + 4092) as Hfb.
  { pose proof (Z.div_mod start 4092). pose proof (Z.mod_pos_bound start 4092).
    subst fb. split; [apply Z.div_pos|]; lia. }
  set (last := sat_sub end_ 1 / 4092).
  assert (0 <= last ∧ end_ <= (last + 1) * 4092 ∧ last * 4092 <= Z.max (end_ - 1) 0) as Hlast.
  { pose proof (Z.div_mod (sat_sub end_ 1) 4092). pose proof (Z.mod_pos_bound (sat_sub end_ 1) 4092).
    subst last. unfold sat_sub in *. split; [apply Z.div_pos|]; lia. }
  assert (fb <= last + 1 ∧ last + 1 <= num_blocks (zlen p)) as Hcount by lia.
  assert (last -! fb +! 1 = last + 1 - fb) as ->.
  { rewrite /wadd /wsub /wrap64. rewrite Zplus_mod_idemp_l. rewrite Z.mod_small; u64. }
  rewrite /checked_mul. change BLOCK_ALIGNMENT with 4096.
  rewrite (proj2 (Z.ltb_lt (fb * 4096) _)); [|u64]. cbn [ok_or mbind Res_bind].
  rewrite /checked_add (proj2 (Z.ltb_lt (i_offset e + fb * 4096) _)); [|u64]. cbn [ok_or mbind Res_bind].
  rewrite (proj2 (Z.ltb_lt ((last + 1 - fb) * 4096) _)); [|u64]. cbn [ok_or mbind Res_bind].
  assert ((pread (i_offset e + fb * 4096) ((last + 1 - fb) * 4096) (io st) =
           Ok (concat (crc_block <$> subl fb (last + 1) (regions p))) ∨
           ∃ k m, pread (i_offset e + fb * 4096) ((last + 1 - fb) * 4096) (io st) = Err (Io k m)) ∧
          (no_faults (env (disk (io st))) →
           pread (i_offset e + fb * 4096) ((last + 1 - fb) * 4096) (io st) =
           Ok (concat (crc_block <$> subl fb (last + 1) (regions p))))) as [Hcase Htot].
  { destruct (decide (fb = last + 1)) as [Heq|Hne].
    - rewrite -Heq Z.sub_diag /= /subl Z.sub_diag ztake_0 /=. by auto.
    - rewrite -(stored_sub (io st) (i_offset e)) //; [|lia..].
      destruct (pread_cases (i_offset e + fb * 4096) ((last + 1 - fb) * 4096) (io st)) as [Hcase Htot].
      + intros _. by rewrite Z.mod_add.
      + apply Z_mod_mult.
      + lia.
      + u64.
      + split; [done|]. intros Hnf. apply Htot; [done|]. pose proof (io_size _ _ Hok). lia. }
  destruct Hcase as [Hr|(k & m & Hr)]; rewrite Hr.
  - cbn [mbind Res_bind]. rewrite (decode_block_range_ok p fb (last + 1)); [|lia..].
    cbn. split; [done|]. by exists p.
  - cbn. split; [by eauto|]. intros Hnf. specialize (Htot Hnf). by rewrite Hr in Htot.
Qed.

Lemma do_get_range_spec st key start end_ data :
  inner_ok hi st → objects st !! key = Some data →
  0 <= start → start <= end_ → end_ <= zlen data →
  range_outcome st key start end_ (do_get_range st key start end_).
Proof.
  intros Hok Hobj Hs Hse He. rewrite objects_lookup in Hobj.
  destruct (files (index st) !! key) as [e|] eqn:Hk; [|done]. simpl in Hobj.
  pose proof (io_entries _ st Hok key e Hk) as [_ _ Hl _ _ Hu].
  rewrite /do_get_range /lookup_file Hk. cbn [ok_or mbind Res_bind].
  destruct (0 <? i_uncompressed_size e) eqn:Hc.
  - rewrite /get_range_compressed. destruct (COMPRESSED_RANGE_READ_MAX <? _) eqn:Hmax.
    { apply Z.ltb_lt in Hmax. cbn. split; [by eauto|]. by eauto. }
    pose proof (do_get_spec st key Hok) as Hg. destruct (do_get st key) as [[d e']|err|]; [| |done].
    + cbn [mbind Res_bind]. destruct Hg as [Hd He'].
      rewrite objects_lookup Hk /= in Hd. assert (d = data) as -> by congruence.
      rewrite (Z.min_l end_); [|done]. rewrite Z.min_l // slice_some //.
      cbn. split; [done|]. exists data. by rewrite objects_lookup Hk.
    + cbn. destruct Hg as [[_ Hn]|[? [_ Hn]]]; [by rewrite objects_lookup Hk in Hn|].
      split; [done|]. by intros ?.
  - assert (i_uncompressed_size e = 0) as Hz by (apply Z.ltb_ge in Hc; lia).
    apply get_range_blocks_spec; try done.
    rewrite /entry_data Hc in Hobj. simplify_eq. by rewrite -Hl.
Qed.

(** *** Copying *)

Lemma copy_batches_spec fuel src dst total copied (d : DeviceIo) :
  0 <= copied <= total → total - copied <= Z.of_nat fuel →
  total mod 4096 = 0 → copied mod 4096 = 0 → src mod 4096 = 0 → dst mod 4096 = 0 →
  0 <= src → src + total < two64 → 0 <= dst → dst + total < two64 →
  src + total <= dst ∨ dst + total <= src →
  io_read_only d = false → src + total <= file_size (disk d) →
  let '(d', r) := copy_batches fuel src dst total copied d in
  write_outcome (dst + copied) (dst + total)
    (read_bytes (content (disk d)) (src + copied) (total - copied)) d d' r.
Proof.
  revert copied d. induction fuel as [|fuel IH]; intros copied d Hc Hf Ht Hcm Hsm Hdm Hs Hsb Hd Hdb Hdis Hro Hfs.
  all: destruct (decide (copied = total)) as [->|Hne].
  1,3: simpl; rewrite (proj2 (Z.ltb_ge _ _)) // Z.sub_diag;
    split; [apply dev_frame_refl|done|done|by rewrite read_bytes_nonpos].
  { lia. }
  simpl. rewrite (proj2 (Z.ltb_lt copied total)); [|lia].
  set (chunk := Z.min (total - copied) COPY_BATCH_SIZE).
  assert ((0 < chunk <= total - copied ∧ chunk <= 1048576) ∧ chunk mod 4096 = 0) as [Hck Hckm].
  { change COPY_BATCH_SIZE with (256 * 4096) in chunk. subst chunk. split; [lia|].
    destruct (Z.min_spec (total - copied) (256 * 4096)) as [[_ ->]|[_ ->]]; [|done].
    by rewrite Zminus_mod Ht Hcm. }
  rewrite {1}/sm_bind {1}/sm_lift /checked_add (proj2 (Z.ltb_lt (src + copied) _)); [|u64].
  cbn [ok_or]. rewrite {1}/sm_bind {1}/sm_lift (proj2 (Z.ltb_lt (dst + copied) _)); [|u64].
  cbn [ok_or]. rewrite {1}/sm_bind.
  destruct (pread_cases (src + copied) chunk d) as [Hcase Htot].
  { intros _. by rewrite Z.add_mod // Hsm Hcm. }
  { done. }
  { lia. }
  { u64. }
  assert (pread (src + copied) chunk d = Ok (read_bytes (content (disk d)) (src + copied) chunk) →
    let '(d', r) := match (d, pread (src + copied) chunk d) with
      | (s', Ok a) => (pwrite (dst + copied) a;;; copy_batches fuel src dst total (copied + chunk)) s'
      | (s', Err e) => (s', Err e) | (s', Panic) => (s', Panic) end in
    write_outcome (dst + copied) (dst + total)
      (read_bytes (content (disk d)) (src + copied) (total - copied)) d d' r) as Hgood.
  2: { destruct Hcase as [Hr|(k & m & Hr)]; [by apply Hgood|].
       rewrite Hr in Htot |- *. split; [apply dev_frame_refl|done| |done].
       intros Hnf. specialize (Htot Hnf ltac:(lia)). done. }
  intros ->. set (buf := read_bytes _ _ chunk).
  assert (zlen buf = chunk) as Hlen by (apply zlen_read_bytes; lia).
  rewrite /sm_bind pwrite_blocks //; [|by intros _; rewrite Z.add_mod // Hdm Hcm|by rewrite Hlen|lia|u64].
  pose proof (write_all_at_outcome (dst + copied) buf d) as Hw.
  destruct (write_all_at _ _ d) as [d1 [[]|e|]]; simpl in Hw; destruct Hw as [Hfr Hnp Htot' Hcont].
  3: done.
  2: { split; [eapply dev_frame_mono; [..|exact Hfr]; lia|done| |done].
       intros Hnf. by specialize (Htot' Hnf). }
  destruct (Hcont eq_refl) as [Hc1 Hsz1]. rewrite Hlen in Hfr Hsz1.
  specialize (IH (copied + chunk) d1). ospecialize* IH; try done; try lia.
  { by rewrite Z.add_mod // Hcm Hckm. }
  { by rewrite (frame_ro _ _ _ _ Hfr). }
  { pose proof (frame_size _ _ _ _ Hfr). lia. }
  destruct (copy_batches fuel src dst total (copied + chunk) d1) as [d' r].
  destruct IH as [Hfr' Hnp' Htot2 Hcont'].
  rewrite (frame_env _ _ _ _ Hfr) in Htot2.
  assert (read_bytes (content (disk d)) (src + copied) (total - copied) =
          buf ++ read_bytes (content (disk d1)) (src + (copied + chunk)) (total - (copied + chunk)))
    as Hsplit.
  { replace (total - copied) with (chunk + (total - (copied + chunk))) by lia.
    rewrite read_bytes_app; [|lia..]. f_equal.
    rewrite Hc1 read_bytes_write_ne; [f_equal; lia|]. rewrite Hlen. lia. }
  split; [|done|done|].
  - eapply dev_frame_trans; eapply dev_frame_mono; [..|exact Hfr| | |exact Hfr']; lia.
  - intros ->. destruct (Hcont' eq_refl) as [Hc2 Hsz2]. split.
    + rewrite Hsplit write_bytes_app Hlen Hc2 Hc1.
      by replace (dst + copied + chunk) with (dst + (copied + chunk)) by lia.
    + intros _. assert (buf ≠ []) as Hbn by (intros Hn; rewrite Hn zlen_nil in Hlen; lia).
      specialize (Hsz1 Hbn). destruct (decide (copied + chunk = total)) as [Heq|?].
      * pose proof (frame_size _ _ _ _ Hfr'). lia.
      * apply Hsz2. intros Hn. apply (f_equal zlen) in Hn.
        rewrite zlen_read_bytes ?zlen_nil in Hn; lia.
Qed.

(** The entry a copy installs. *)
Definition copied_entry (offset txn now : Z) (e : ExtentInfo) : ExtentInfo :=
  mkExtentInfo offset (i_size e) (i_padded_size e) (i_crc32c e) txn now (i_meta_len e)
    (i_uncompressed_size e).

Definition copy_error st (from_key to_key : string) (err : RawStoreError) : Prop :=
  match err with
  | KeyTooLong n m => n = key_len to_key ∧ m = max_key_length st ∧ m < n
  | NotFound k => k = from_key ∧ objects st !! from_key = None
  | NoSpace n _ => ∃ a e, allocator st = Some a ∧ files (index st) !! from_key = Some e ∧
      n = i_padded_size e ∧ Forall (λ r, r.2 < n) (free_list a)
  | Io _ _ => ¬ no_faults (env (disk (io st)))
  | _ => False
  end.

Lemma do_copy_spec now from_key to_key st :
  inner_ok hi st →
  let '(st', r) := do_copy now from_key to_key st in
  match r with
  | Ok _ => ∃ e offset data,
      files (index st) !! from_key = Some e ∧ objects st !! from_key = Some data ∧
      installed hi st st' to_key (copied_entry offset (txn_id (superblock st)) now e) data ∧
      tombstones (index st') = tombstones (index st)
  | Err err => unchanged hi st st' ∧ copy_error st from_key to_key err
  | Panic => False
  end.
Proof.
  intros Hok. pose proof Hok as [[Hro Hiro] (a & Ha & Ht) He Hs Hsd].
  rewrite /do_copy Hro. destruct (max_key_length st <? key_len to_key) eqn:Hk.
  { apply Z.ltb_lt in Hk. by split; [apply unchanged_refl|]. }
  rewrite {1}/sm_bind {1}/sm_lift /lookup_file.
  destruct (files (index st) !! from_key) as [e|] eqn:Hfrom.
  2: { simpl. split; [by apply unchanged_refl|]. by rewrite objects_lookup Hfrom. }
  cbn [ok_or]. destruct (He _ _ Hfrom) as [Hsz Hpad Hl Hst Hcrc Hunc].
  destruct (entry_bounds st from_key e Hok Hfrom) as (Hlo & Hhi & Hb & Hal).
  set (P := i_padded_size e) in *.
  assert (padded_extent_size (i_size e) = Ok P) as HP.
  { pose proof (num_blocks_spec (i_size e)). rewrite /padded_extent_size /checked_mul.
    change BLOCK_ALIGNMENT with 4096. rewrite (proj2 (Z.ltb_lt _ _)); [|u64]. by rewrite Hpad. }
  destruct (payload_request _ _ Hsz HP) as (HPn & Hreq & HalP).
  destruct (alloc_extent_cases st a P Hok Ha Hreq HalP)
    as [(a' & off & Halloc & Hrun & Hwr)|(Hrun & Hall & Hun)]; rewrite {1}/sm_bind Hrun.
  2: { split; [done|]. by exists a, e. }
  rewrite {1}/sm_bind /on_io /sm_zoom. simpl io.
  pose proof (tiles_alloc _ _ _ _ _ _ _ Ht Hreq Halloc) as Ht'. rewrite HalP in Ht'.
  pose proof (tiles_disjoint _ _ _ _ _ (extent_of e) Ht' (extents_elem _ _ _ Hfrom)) as Hdis.
  pose proof (tl_live _ _ _ _ Ht') as Hlive. apply Forall_cons in Hlive as [(?&?&?&Hoffm) _].
  simpl in *. apply disjoint_regions_iff in Hdis; simpl; [|lia|by rewrite -/P].
  simpl in Hdis. rewrite -/P in Hdis. change DATA_START with 8192 in *.
  destruct Hwr as (_ & _ & Hoff0 & Hlim). pose proof Hreq as [HP0 HPb].
  assert (P mod 4096 = 0) as HPm by (rewrite HPn; apply Z_mod_mult).
  pose proof (copy_batches_spec (Z.to_nat P) (i_offset e) off P 0 (io st)) as Hcp.
  ospecialize* Hcp; try done; try lia.
  rewrite !Z.add_0_r Z.sub_0_r in Hcp.
  destruct (copy_batches _ _ _ _ _ _) as [d' r]. destruct Hcp as [Hfr Hnp Htot Hcont].
  destruct r as [[]|err|]; [| |done].
  2: { destruct err; try done. simpl. split; [by eapply write_failed|].
       intros Hnf. by specialize (Htot Hnf). }
  destruct (Hcont eq_refl) as [Hc _].
  rewrite {1}/sm_bind (remove_old_run _ _ a') //.
  rewrite {1}/sm_bind mark_shard_dirty_run //. rewrite /sm_bind /sm_modify.
  set (p := raw_payload (io st) e) in *.
  assert (stored d' off p) as Hst'.
  { pose proof (read_bytes_write_eq (content (disk (io st))) off
      (read_bytes (content (disk (io st))) (i_offset e) P)) as Hx.
    rewrite zlen_read_bytes in Hx; [|lia]. by rewrite /stored Hc Hl -HPn Hx HPn -Hl. }
  change (mkExtentInfo off (i_size e) P (i_crc32c e) _ now (i_meta_len e) (i_uncompressed_size e))
    with (copied_entry off (txn_id (superblock st)) now e).
  set (e' := copied_entry off (txn_id (superblock st)) now e).
  assert (entry_ok (compression st) d' e') as Hnew.
  { apply (entry_ok_new _ _ off p _ (i_uncompressed_size e)); try done; by rewrite Hl. }
  assert (entry_data (compression st) d' e' = entry_data (compression st) (io st) e) as Hdata.
  { rewrite /entry_data (stored_raw_payload d' off p e') //. rewrite Hl. u64. }
  exists e, off, (entry_data (compression st) (io st) e).
  split_and!; [done|by rewrite objects_lookup Hfrom| |done].
  match goal with |- installed _ _ ?s _ _ _ =>
    destruct (install_ok (hi:=hi) st a a' off P d' to_key e' s) as [Hok' Hobj] end; try done.
  - simpl. by rewrite insert_delete_eq.
  - simpl. by rewrite length_insert.
  - split; try done.
    + simpl. by rewrite insert_delete_eq.
    + by rewrite Hobj Hdata.
    + by eapply (alloc_frame st a a' off P).
Qed.
End operations.
