(* ===== verification/RawStore.v ===== *)
(** * Formatting and opening a store ([rawobjstr/src/store.rs] 679-1277)

    [RawObjectStore] is the public handle: the locked [Inner] and the
    geometry of the two index regions.  Formatting and opening are
    computations on the file itself; a failed open drops the handle. *)

From S2P Require Import Prelude.
From S2P Require Import Config.
From S2P Require Import Device.
From S2P Require Import Allocator.
From S2P Require Import Extent.
From S2P Require Import Index.
From S2P Require Import Superblock.
From S2P Require Import Inner.

(** The closures registered with [add_flush_callback] are opaque: a callback
    is an identifier, and [callback_log] lists the calls made, in order. *)
Record RawObjectStore : Type := mkStore {
  inner : Inner;
  index_region_a : Z;
  index_region_b : Z;
  rs_index_slot_capacity : Z;
  shard_slot_size : Z;
  next_upload_id : Z;
  flush_callbacks : list nat;
  callback_log : list (nat * Z);
}.

Definition set_inner (st : Inner) (s : RawObjectStore) : RawObjectStore :=
  mkStore st (index_region_a s) (index_region_b s) (rs_index_slot_capacity s)
    (shard_slot_size s) (next_upload_id s) (flush_callbacks s) (callback_log s).

Definition on_inner {A} (m : SM Inner RawStoreError A) : SM RawObjectStore RawStoreError A :=
  sm_zoom inner set_inner m.

Inductive OpenMode : Type := ModeDefault | FullVerify | SkipVerify.

#[export] Instance OpenMode_eq_dec : EqDecision OpenMode.
Proof. solve_decision. Defined.

Record FormatOptions : Type := mkFormatOptions {
  fo_device_size : Z;
  fo_direct_io : bool;
  fo_index_slot_size : Z;
  fo_max_key_length : Z;
  fo_compression : Compression;
}.

Definition MULTIPART_TMP_PREFIX : string := "__raw_multipart_tmp/".

Definition is_tmp_key (key : string) : bool := String.prefix MULTIPART_TMP_PREFIX key.

(** Where shard [i]'s copy in region [slot] starts. *)
Definition slot_offset (region_a region_b shard_sz slot i : Z) : Z :=
  (if slot =? 0 then region_a else region_b) +! i *! shard_sz.

Section rawstore.
Context `{Crc32c, Codecs, BincodeShard, BincodeSuperblock, HashMapOrder}.

(** ** Format *)

(** The loop that writes the empty shards [i, i + n) to region A. *)
Fixpoint format_shards (n : nat) (i region_a shard_sz : Z) (bytes : list byte) :
    SM DeviceIo RawStoreError unit :=
  match n with
  | O => sm_ret tt
  | S n' =>
    pwrite (region_a +! i *! shard_sz) bytes ;;;
    format_shards n' (i + 1) region_a shard_sz bytes
  end.

(** The superblock of a freshly formatted device. *)
Definition format_superblock (opts : FormatOptions) (region_a effective_max_key : Z)
    (shard_bytes : list byte) (shard_crc : Z) : Superblock :=
  mkSuperblock SUPERBLOCK_MAGIC 4
    (if fo_direct_io opts then Z.lor 0 FLAG_DIRECT_IO else 0)
    (fo_device_size opts) BLOCK_ALIGNMENT region_a (zlen shard_bytes *! NUM_SHARDS) 1 0 0
    region_a 0 0 0 (fo_index_slot_size opts)
    (replicate (Z.to_nat NUM_SHARDS) (mkSlot 0 (as_u32 (zlen shard_bytes)) shard_crc))
    (as_u32 effective_max_key) (compression_as_u8 (fo_compression opts)).

(** Writing the superblock to both copies, as format does. *)
Definition format_device (opts : FormatOptions) (region_a shard_sz : Z) (sb : Superblock)
    (shard_bytes : list byte) : SM DeviceIo RawStoreError unit :=
  format_shards (Z.to_nat NUM_SHARDS) 0 region_a shard_sz shard_bytes ;;;
  sb_bytes <- sm_lift (sb_to_bytes sb) ;;
  pwrite 0 sb_bytes ;;;
  pwrite SUPERBLOCK_SIZE sb_bytes ;;;
  sync.

Definition format_with_options (opts : FormatOptions) : SM DiskFile RawStoreError RawObjectStore := λ f,
  match validate_index_slot_size (fo_index_slot_size opts) with
  | Err e => (f, Err e)
  | Panic => (f, Panic)
  | Ok _ =>
    if MAX_KEY_LENGTH_HARD_CEILING <? fo_max_key_length opts
    then (f, Err (MaxKeyLengthTooLarge (fo_max_key_length opts) MAX_KEY_LENGTH_HARD_CEILING))
    else
      let min_size := min_device_size (fo_index_slot_size opts) in
      if fo_device_size opts <? min_size
      then (f, Err (DeviceTooSmall (fo_device_size opts) min_size))
      else
        match dev_create f (fo_device_size opts) false with
        | (f, Err e) => (f, Err e)
        | (f, Panic) => (f, Panic)
        | (_, Ok d) =>
          let region_a := fo_device_size opts -! fo_index_slot_size opts *! 2 in
          let region_b := fo_device_size opts -! fo_index_slot_size opts in
          let shard_sz := fo_index_slot_size opts / NUM_SHARDS in
          let effective_max_key := Z.min (fo_max_key_length opts) (sat_sub shard_sz 98) in
          match shard_to_bytes (mkShard ∅ ∅) with
          | Err e => (disk d, Err e)
          | Panic => (disk d, Panic)
          | Ok (shard_bytes, shard_crc) =>
            let sb := format_superblock opts region_a effective_max_key shard_bytes shard_crc in
            match format_device opts region_a shard_sz sb shard_bytes d with
            | (d, Err e) => (disk d, Err e)
            | (d, Panic) => (disk d, Panic)
            | (d, Ok _) =>
              match (if fo_direct_io opts then dev_open (disk d) true else Ok d) with
              | Err e => (disk d, Err e)
              | Panic => (disk d, Panic)
              | Ok d =>
                (disk d, Ok (mkStore
                  (mkInner d index_new
                     (Some (alloc_new DATA_START region_a BLOCK_ALIGNMENT)) sb false false
                     (replicate (Z.to_nat NUM_SHARDS) false) 0 effective_max_key
                     (fo_compression opts))
                  region_a region_b (fo_index_slot_size opts) shard_sz 0 [] []))
              end
            end
          end
        end
  end.

Definition format_with_size (device_size : Z) (direct_io : bool) :
    SM DiskFile RawStoreError RawObjectStore :=
  format_with_options
    (mkFormatOptions device_size direct_io INDEX_REGION_SIZE DEFAULT_MAX_KEY_LENGTH CNone).

Definition format (direct_io : bool) : SM DiskFile RawStoreError RawObjectStore := λ f,
  match dev_open f false with
  | Ok d => format_with_size (file_size (disk d)) direct_io f
  | Err e => (f, Err e)
  | Panic => (f, Panic)
  end.

(** ** Open *)

(** The valid superblock copy with the highest [txn_id]; the primary on a tie. *)
Definition pick_superblock (sb0 sb1 : Res RawStoreError Superblock) : Res RawStoreError Superblock :=
  match sb0, sb1 with
  | Ok a, Ok b => Ok (if txn_id b <=? txn_id a then a else b)
  | Ok a, Err _ => Ok a
  | Err _, Ok b => Ok b
  | Err _, Err _ => Err SuperblockCorrupt
  | _, _ => Panic
  end.

Definition read_superblocks (d : DeviceIo) : Res RawStoreError Superblock :=
  sb0_bytes ← pread 0 SUPERBLOCK_SIZE d;
  sb1_bytes ← pread SUPERBLOCK_SIZE SUPERBLOCK_SIZE d;
  pick_superblock (sb_from_bytes sb0_bytes) (sb_from_bytes sb1_bytes).

(** Read shard [i] as its slot describes it, and verify its CRC. *)
Definition load_shard (d : DeviceIo) (region_a region_b shard_sz i : Z) (meta : ShardSlotMeta) :
    Res RawStoreError ShardData :=
  shard_bytes ← pread (slot_offset region_a region_b shard_sz (active_slot meta) i)
                      (slot_size meta) d;
  shard_from_bytes shard_bytes (slot_crc meta).

(** [files.extend(shard.files); tombstones.extend(shard.tombstones)] *)
Definition extend_index (shard : ShardData) (idx : DeviceIndex) : DeviceIndex :=
  mkIndex (sh_files shard ∪ files idx) (sh_tombstones shard ∪ tombstones idx).

(** The merge of all shards, from shard [i] on; empty slots are skipped. *)
Fixpoint load_shards (d : DeviceIo) (region_a region_b shard_sz i : Z)
    (slots : list ShardSlotMeta) (idx : DeviceIndex) : Res RawStoreError DeviceIndex :=
  match slots with
  | [] => Ok idx
  | meta :: slots' =>
    if slot_size meta =? 0 then load_shards d region_a region_b shard_sz (i + 1) slots' idx
    else
      shard ← load_shard d region_a region_b shard_sz i meta;
      load_shards d region_a region_b shard_sz (i + 1) slots' (extend_index shard idx)
  end.

(** Remove a list of keys from the files. *)
Definition remove_files (keys : list string) (idx : DeviceIndex) : DeviceIndex :=
  mkIndex (foldl (λ m k, delete k m) (files idx) keys) (tombstones idx).

(** The keys whose extents are outside the data area. *)
Definition out_of_bounds_keys (data_end : Z) (idx : DeviceIndex) : list string :=
  (filter (λ '(_, e), i_offset e < DATA_START ∨ i_padded_size e = 0 ∨
             data_end < sat_add (i_offset e) (i_padded_size e)) (hm_iter (files idx))).*1.

(** The scan over neighbours in offset order: the latter of two overlapping
    extents is removed. *)
Fixpoint overlap_windows (l : list (string * (Z * Z))) : list string :=
  match l with
  | (_, (o1, s1)) :: (((k2, (o2, _)) :: _) as l') =>
    (if o2 <? o1 +! s1 then [k2] else []) ++ overlap_windows l'
  | _ => []
  end.

Definition overlapping_keys (idx : DeviceIndex) : list string :=
  overlap_windows
    (sort_by_key (λ x, x.2.1) ((λ '(k, e), (k, extent_of e)) <$> hm_iter (files idx))).

(** The two validations; also the keys removed, for the dirty flags. *)
Definition validate_entries (data_end : Z) (idx : DeviceIndex) : DeviceIndex * list string :=
  let bad_keys := out_of_bounds_keys data_end idx in
  let idx := remove_files bad_keys idx in
  let overlap_keys := overlapping_keys idx in
  (remove_files overlap_keys idx, bad_keys ++ overlap_keys).

(** [{:#010x}]: eight hexadecimal digits after [0x]. *)
Definition hex_digit (n : Z) : Ascii.ascii :=
  Ascii.ascii_of_nat (Z.to_nat (if n <? 10 then 48 + n else 87 + n)).
Fixpoint hex_digits (n : nat) (z : Z) (acc : string) : string :=
  match n with
  | O => acc
  | S n' => hex_digits n' (z / 16) (String (hex_digit (z mod 16)) acc)
  end.
Definition hex8 (z : Z) : string := "0x" +:+ hex_digits 8 z "".

(** The default scan of one entry: why it is stale, if it is. *)
Definition scan_block0 (d : DeviceIo) (e : ExtentInfo) : Res RawStoreError (option string) :=
  match pread (i_offset e) BLOCK_ALIGNMENT d with
  | Panic => Panic
  | Err _ => Ok (Some "unreadable block 0")
  | Ok raw =>
    let stored_block_crc := from_le_bytes (ztake 4 raw) in
    let actual_block_crc := crc32c (zdrop 4 raw) in
    if negb (stored_block_crc =? actual_block_crc)
    then Ok (Some ("block 0 CRC mismatch (expected " +:+ hex8 stored_block_crc +:+ ", got " +:+
                   hex8 actual_block_crc +:+ ")"))
    else Ok None
  end.

(** The full scan of one entry. *)
Definition scan_full (d : DeviceIo) (e : ExtentInfo) : Res RawStoreError (option string) :=
  match padded_extent_size (i_size e) with
  | Panic => Panic
  | Err _ => Ok (Some "payload size overflow")
  | Ok disk_len =>
    match pread (i_offset e) disk_len d with
    | Panic => Panic
    | Err _ => Ok (Some "unreadable extent")
    | Ok raw =>
      match decode_blocks raw (i_size e) with
      | Panic => Panic
      | Err _ => Ok (Some "block CRC failure")
      | Ok payload =>
        let actual_crc := crc32c payload in
        if negb (actual_crc =? i_crc32c e)
        then Ok (Some ("payload CRC " +:+ hex8 actual_crc +:+ " != index CRC " +:+ hex8 (i_crc32c e)))
        else Ok None
      end
    end
  end.

(** Run a scan over all entries: the stale ones with their reasons. *)
Fixpoint scan_entries (scan : ExtentInfo → Res RawStoreError (option string))
    (l : list (string * ExtentInfo)) : Res RawStoreError (list (string * string)) :=
  match l with
  | [] => Ok []
  | (key, e) :: l' =>
    o ← scan e;
    rest ← scan_entries scan l';
    Ok (match o with Some reason => (key, reason) :: rest | None => rest end)
  end.

(** Remove one stale entry, leaving a tombstone in read-write mode. *)
Definition remove_stale (read_only : bool) (next_txn : Z) (idx : DeviceIndex)
    (kr : string * string) : DeviceIndex :=
  let '(key, reason) := kr in
  match files idx !! key with
  | None => idx
  | Some info =>
    mkIndex (delete key (files idx))
      (if read_only then tombstones idx
       else <[key := mkTombstone (i_size info) (i_crc32c info) (i_last_modified info)
                       reason next_txn]> (tombstones idx))
  end.

Definition apply_stale_removals (stale : list (string * string)) (read_only : bool)
    (next_txn : Z) (idx : DeviceIndex) : DeviceIndex :=
  foldl (remove_stale read_only next_txn) idx stale.

(** The integrity scan of the chosen mode. *)
Definition integrity_scan (mode : OpenMode) (d : DeviceIo) (read_only : bool) (next_txn : Z)
    (idx : DeviceIndex) : Res RawStoreError (DeviceIndex * list string) :=
  match mode with
  | SkipVerify => Ok (idx, [])
  | ModeDefault =>
    stale ← scan_entries (scan_block0 d) (hm_iter (files idx));
    Ok (apply_stale_removals stale read_only next_txn idx, stale.*1)
  | FullVerify =>
    stale ← scan_entries (scan_full d) (hm_iter (files idx));
    Ok (apply_stale_removals stale read_only next_txn idx, stale.*1)
  end.

(** Orphaned multipart extents, dropped in read-write mode. *)
Definition purge_multipart (read_only : bool) (idx : DeviceIndex) : DeviceIndex * list string :=
  if read_only then (idx, [])
  else
    let keys := (filter (λ '(k, _), is_tmp_key k = true) (hm_iter (files idx))).*1 in
    (remove_files keys idx, keys).

(** The dirty flags of the shards of [keys]. *)
Definition dirty_flags (keys : list string) : list bool :=
  foldl (λ l k, <[Z.to_nat (shard_for_key k) := true]> l)
    (replicate (Z.to_nat NUM_SHARDS) false) keys.

(** Index recovery: everything between the superblock and the allocator. *)
Definition recover_index (mode : OpenMode) (read_only : bool) (d : DeviceIo) (sb : Superblock)
    (region_a region_b shard_sz : Z) : Res RawStoreError (DeviceIndex * list string) :=
  idx ← load_shards d region_a region_b shard_sz 0 (shard_slots sb) index_new;
  let '(idx, keys1) := validate_entries region_a idx in
  '(idx, keys2) ← integrity_scan mode d read_only (txn_id sb +! 1) idx;
  if negb read_only && negb (Z.land (Superblock.flags sb) FLAG_WRITE_PROTECT =? 0) then Err WriteProtected
  else
    let '(idx, keys3) := purge_multipart read_only idx in
    Ok (idx, keys1 ++ keys2 ++ keys3).

Definition open_handle (read_only direct : bool) (f : DiskFile) : Res RawStoreError DeviceIo :=
  if read_only then dev_open_readonly f direct else dev_open f direct.

(** The rest of open: allocator, O_DIRECT handle, [Inner]. *)
Definition assemble_store (read_only : bool) (d : DeviceIo) (sb : Superblock) (idx : DeviceIndex)
    (modified_keys : list string) (region_a region_b capacity shard_sz : Z) :
    Res RawStoreError RawObjectStore :=
  let alloc := if read_only then None
               else Some (from_free_list (rebuild_free_list idx region_a).2 DATA_START region_a) in
  d ← (if negb (Z.land (Superblock.flags sb) FLAG_DIRECT_IO =? 0) then open_handle read_only true (disk d)
       else Ok d);
  if sb_max_key_length sb =? 0
  then Err (Io InvalidData "superblock has max_key_length=0 (pre-v4 image); reformat required")
  else
    c ← from_u8 (sb_compression sb);
    Ok (mkStore
      (mkInner d idx alloc sb (negb (bool_decide (modified_keys = []))) read_only
         (dirty_flags modified_keys) 0 (sb_max_key_length sb) c)
      region_a region_b capacity shard_sz 0 [] []).

(** Opening changes no byte of the file: the result is the handle. *)
Definition open_impl (mode : OpenMode) (read_only : bool) (f : DiskFile) :
    Res RawStoreError RawObjectStore :=
  d ← open_handle read_only false f;
  let dev_size := file_size (disk d) in
  sb ← read_superblocks d;
  let capacity := if 0 <? index_slot_capacity sb then index_slot_capacity sb
                  else INDEX_REGION_SIZE in
  let min_size := min_device_size capacity in
  if dev_size <? min_size then Err (DeviceTooSmall dev_size min_size)
  else
    let region_a := dev_size -! capacity *! 2 in
    let region_b := dev_size -! capacity in
    let shard_sz := capacity / NUM_SHARDS in
    '(idx, keys) ← recover_index mode read_only d sb region_a region_b shard_sz;
    assemble_store read_only d sb idx keys region_a region_b capacity shard_sz.

Definition open := open_impl ModeDefault false.
Definition open_with_mode (mode : OpenMode) := open_impl mode false.
Definition open_readonly := open_impl ModeDefault true.
Definition open_readonly_with_mode (mode : OpenMode) := open_impl mode true.

(** ** Flush *)

(** The entries of shard [s]. *)
Definition bucket (s : Z) (idx : DeviceIndex) : ShardData :=
  mkShard (filter (λ '(k, _), shard_for_key k = s) (files idx))
          (filter (λ '(k, _), shard_for_key k = s) (tombstones idx)).

Definition set_slot (i : Z) (slot : ShardSlotMeta) (sb : Superblock) : Superblock :=
  with_shard_slots (<[Z.to_nat i := slot]> (shard_slots sb)) sb.

(** Write shard [i] to its inactive slot and switch to it in memory. *)
Definition flush_shard (s : RawObjectStore) (i : Z) : SM Inner RawStoreError Z := λ st,
  match shard_to_bytes (bucket i (index st)) with
  | Err e => (st, Err e)
  | Panic => (st, Panic)
  | Ok (shard_bytes, shard_crc) =>
    if shard_slot_size s <? zlen shard_bytes
    then (st, Err (ShardOverflow i (zlen shard_bytes) (shard_slot_size s)))
    else match shard_slots (superblock st) !! Z.to_nat i with
         | None => (st, Panic)
         | Some cur =>
           let new_slot := (1 - active_slot cur) mod 256 in
           let write_offset :=
             slot_offset (index_region_a s) (index_region_b s) (shard_slot_size s) new_slot i in
           (on_io (pwrite write_offset shard_bytes) ;;;
            sm_modify (λ st, set_superblock
              (set_slot i (mkSlot new_slot (as_u32 (zlen shard_bytes)) shard_crc) (superblock st)) st) ;;;
            sm_ret (zlen shard_bytes)) st
         end
  end.

(** The loop over the shards from [i]; only dirty ones are written. *)
Fixpoint flush_shards (s : RawObjectStore) (flags : list bool) (i bytes_written : Z) :
    SM Inner RawStoreError Z :=
  match flags with
  | [] => sm_ret bytes_written
  | false :: flags' => flush_shards s flags' (i + 1) bytes_written
  | true :: flags' =>
    n <- flush_shard s i ;;
    flush_shards s flags' (i + 1) (bytes_written + n)
  end.

(** The superblock of the next transaction. *)
Definition commit_superblock (new_txn : Z) (sb : Superblock) : Superblock :=
  mkSuperblock (magic sb) (version sb) (Superblock.flags sb) (device_size sb) (block_alignment sb)
    (index_region_offset sb) (wsum (slot_size <$> shard_slots sb)) new_txn (index_checksum sb)
    (superblock_checksum sb) (prev_index_offset sb) (prev_index_size sb) (txn_id sb)
    (prev_index_checksum sb) (index_slot_capacity sb) (shard_slots sb) (sb_max_key_length sb)
    (sb_compression sb).

(** Write both copies, each durable before the next step. *)
Definition write_superblocks (sb_bytes : list byte) : SM DeviceIo RawStoreError unit :=
  pwrite 0 sb_bytes ;;;
  sync ;;;
  pwrite SUPERBLOCK_SIZE sb_bytes ;;;
  sync.

Definition flush_inner (s : RawObjectStore) : SM Inner RawStoreError unit := λ st,
  if read_only st then (st, Err ReadOnly)
  else
    let new_txn := txn_id (superblock st) +! 1 in
    (bytes_written <- flush_shards s (shard_dirty st) 0 0 ;;
     on_io sync ;;;
     sm_modify (λ st, set_superblock (commit_superblock new_txn (superblock st)) st) ;;;
     sb_bytes <- (λ st, (st, sb_to_bytes (superblock st))) ;;
     on_io (write_superblocks sb_bytes) ;;;
     sm_modify (λ st, set_last_flush_bytes (bytes_written + 2 * SUPERBLOCK_SIZE)
       (set_dirty false (set_shard_dirty ((λ _, false) <$> shard_dirty st) st)))) st.

Definition flush_index : SM RawObjectStore RawStoreError unit := λ s,
  (on_inner (flush_inner s) ;;;
   sm_modify (λ s,
     let txn := txn_id (superblock (inner s)) in
     mkStore (inner s) (index_region_a s) (index_region_b s) (rs_index_slot_capacity s)
       (shard_slot_size s) (next_upload_id s) (flush_callbacks s)
       (callback_log s ++ ((λ cb, (cb, txn)) <$> flush_callbacks s)))) s.

Definition add_flush_callback (cb : nat) (s : RawObjectStore) : RawObjectStore :=
  mkStore (inner s) (index_region_a s) (index_region_b s) (rs_index_slot_capacity s)
    (shard_slot_size s) (next_upload_id s) (flush_callbacks s ++ [cb]) (callback_log s).

Definition needs_flush (s : RawObjectStore) : bool := dirty (inner s).

(** ** Reload *)

Definition same_slot (a b : ShardSlotMeta) : bool :=
  (active_slot a =? active_slot b) && (slot_crc a =? slot_crc b) && (slot_size a =? slot_size b).

(** Drop the entries of shard [i]. *)
Definition drop_shard (i : Z) (idx : DeviceIndex) : DeviceIndex :=
  mkIndex (filter (λ '(k, _), shard_for_key k ≠ i) (files idx))
          (filter (λ '(k, _), shard_for_key k ≠ i) (tombstones idx)).

(** Re-read the shards that changed, from shard [i]. *)
Fixpoint reload_shards (s : RawObjectStore) (i : Z) (old_slots new_slots : list ShardSlotMeta) :
    SM Inner RawStoreError unit :=
  match old_slots, new_slots with
  | old :: old_slots', new :: new_slots' =>
    (if same_slot old new then sm_ret tt
     else
       sm_modify (λ st, set_index (drop_shard i (index st)) st) ;;;
       if slot_size new =? 0 then sm_ret tt
       else
         shard <- (λ st, (st, load_shard (io st) (index_region_a s) (index_region_b s)
                                (shard_slot_size s) i new)) ;;
         sm_modify (λ st, set_index (extend_index shard (index st)) st)) ;;;
    reload_shards s (i + 1) old_slots' new_slots'
  | [], [] => sm_ret tt
  | _, _ => sm_panic
  end.

(** The primary superblock, or the backup when the primary is invalid. *)
Definition reload_superblock (d : DeviceIo) : Res RawStoreError Superblock :=
  sb_bytes ← pread 0 SUPERBLOCK_SIZE d;
  match sb_from_bytes sb_bytes with
  | Ok sb => Ok sb
  | Panic => Panic
  | Err _ =>
    sb1_bytes ← pread SUPERBLOCK_SIZE SUPERBLOCK_SIZE d;
    sb_from_bytes sb1_bytes
  end.

Definition set_max_key_length (n : Z) (st : Inner) : Inner :=
  mkInner (io st) (index st) (allocator st) (superblock st) (dirty st) (read_only st)
    (shard_dirty st) (last_flush_bytes st) n (compression st).

(** What follows once the shards are re-read. *)
Definition finish_reload (s : RawObjectStore) (new_sb : Superblock) (st : Inner) : Inner :=
  let st := set_superblock new_sb st in
  let st := set_max_key_length
              (if 0 <? sb_max_key_length new_sb then sb_max_key_length new_sb
               else DEFAULT_MAX_KEY_LENGTH) st in
  let st := if read_only st then st
            else set_allocator (Some (from_free_list
                   (rebuild_free_list (index st) (index_region_a s)).2
                   DATA_START (index_region_a s))) st in
  set_dirty false (set_shard_dirty ((λ _, false) <$> shard_dirty st) st).

Definition reload_inner (s : RawObjectStore) : SM Inner RawStoreError bool :=
  new_sb <- (λ st, (st, reload_superblock (io st))) ;;
  old_sb <- (λ st, (st, Ok (superblock st))) ;;
  if txn_id new_sb =? txn_id old_sb then sm_ret false
  else
    reload_shards s 0 (shard_slots old_sb) (shard_slots new_sb) ;;;
    sm_modify (finish_reload s new_sb) ;;;
    sm_ret true.

Definition reload_index : SM RawObjectStore RawStoreError bool := λ s,
  on_inner (reload_inner s) s.

(** ** Changing superblock flags in place *)

Definition modify_flags (set_flags clear_flags : Z) : SM DiskFile RawStoreError Z := λ f,
  if negb (Z.land set_flags (Z.lxor FLAG_KNOWN_MASK u32_max) =? 0)
  then (f, Err (Io InvalidInput "unknown flag bits in set_flags"))
  else
    match dev_open f false with
    | Err e => (f, Err e)
    | Panic => (f, Panic)
    | Ok d =>
      let '(d, r) :=
        (sb <- (λ d, (d, read_superblocks d)) ;;
         let sb := with_flags (Z.land (Z.lor (Superblock.flags sb) set_flags)
                                 (Z.lxor clear_flags u32_max)) sb in
         sb_bytes <- sm_lift (sb_to_bytes sb) ;;
         write_superblocks sb_bytes ;;;
         sm_ret (Superblock.flags sb)) d in
      (disk d, r)
    end.
End rawstore.
