(* ===== verification/StoreFacts.v ===== *)
(** * Durability of the index ([flush_index], crashes, [open])

    [image_holds] says that a file's bytes hold a given index: a superblock
    is picked, and each of its 256 slots decodes to that index's bucket.
    [store_ok] is the invariant of an open writable store: [inner_ok], the
    geometry of the index regions, and that the durable bytes hold the index
    of the last commit, from which clean shards have not moved. *)

From S2P Require Import Prelude.
From S2P Require Import Config.
From S2P Require Import Device.
From S2P Require Import Allocator.
From S2P Require Import Extent.
From S2P Require Import Streaming.
From S2P Require Import Index.
From S2P Require Import Superblock.
From S2P Require Import Inner.
From S2P Require Import InnerFacts.
From S2P Require Import RawStore.

(** ** Geometry *)

Record geometry (s : RawObjectStore) : Prop := {
  ge_a : DATA_START <= index_region_a s;
  ge_b : index_region_b s = index_region_a s + rs_index_slot_capacity s;
  ge_slot : shard_slot_size s = rs_index_slot_capacity s / NUM_SHARDS;
  ge_cap : 0 < rs_index_slot_capacity s ∧ rs_index_slot_capacity s mod INDEX_REGION_SIZE = 0;
  ge_end : index_region_a s + rs_index_slot_capacity s * 2 <= file_size (disk (io (inner s)));
  ge_u64 : file_size (disk (io (inner s))) < two64;
  ge_small : shard_slot_size s < 2 ^ 32;
  ge_direct : direct (io (inner s)) = true → index_region_a s mod 4096 = 0;
}.

Definition so (s : RawObjectStore) (slot i : Z) : Z :=
  slot_offset (index_region_a s) (index_region_b s) (shard_slot_size s) slot i.

Section geometry_facts.
Context (s : RawObjectStore) (Hg : geometry s).

Lemma slot_size_bounds :
  shard_slot_size s mod 4096 = 0 ∧ 0 < shard_slot_size s ∧
  256 * shard_slot_size s = rs_index_slot_capacity s.
Proof using Hg.
  destruct Hg as [_ _ Hs [Hc Hm] _ _ _ _]. change NUM_SHARDS with 256 in Hs.
  change INDEX_REGION_SIZE with (65536 * 256) in Hm.
  pose proof (Z.div_mod (rs_index_slot_capacity s) (65536 * 256) ltac:(done)) as Hd. rewrite Hm in Hd.
  set (q := rs_index_slot_capacity s / (65536 * 256)) in *.
  assert (rs_index_slot_capacity s = (q * 65536) * 256) as Hq by lia.
  rewrite Hq Z.div_mul // in Hs. rewrite Hs. split_and!; [|lia|lia].
  replace (q * 65536) with (q * 16 * 4096) by lia. apply Z_mod_mult.
Qed.

Lemma so_eq slot i :
  0 <= i < 256 → so s slot i =
  (if slot =? 0 then index_region_a s else index_region_b s) + i * shard_slot_size s.
Proof using Hg.
  intros Hi. destruct slot_size_bounds as (_ & Hpos & Htot).
  destruct Hg as [Ha Hb _ [Hc _] He Hu _ _]. change DATA_START with 8192 in Ha.
  assert (0 <= i * shard_slot_size s <= 256 * shard_slot_size s) by nia.
  rewrite /so /slot_offset. rewrite wmul_small; [|u64].
  destruct (slot =? 0); rewrite wadd_small; u64.
Qed.

(** The slots are inside the index regions and pairwise disjoint. *)
Lemma so_bounds slot i :
  0 <= i < 256 →
  index_region_a s <= so s slot i ∧
  so s slot i + shard_slot_size s <= index_region_a s + rs_index_slot_capacity s * 2.
Proof using Hg.
  intros Hi. rewrite so_eq //. destruct slot_size_bounds as (_ & Hpos & Htot).
  destruct Hg as [Ha Hb _ [Hc _] He Hu _ _]. destruct (slot =? 0); nia.
Qed.

Lemma so_disjoint slot slot' i j :
  0 <= i < 256 → 0 <= j < 256 → (i ≠ j ∨ (slot =? 0) ≠ (slot' =? 0)) →
  so s slot i + shard_slot_size s <= so s slot' j ∨ so s slot' j + shard_slot_size s <= so s slot i.
Proof using Hg.
  intros Hi Hj Hne. rewrite !so_eq //. destruct slot_size_bounds as (_ & Hpos & Htot).
  destruct Hg as [Ha Hb _ [Hc _] He Hu _ _].
  destruct (slot =? 0), (slot' =? 0); try nia.
  all: destruct Hne as [Hne|Hne]; [|done]; assert (i < j ∨ j < i) as [?|?] by lia; nia.
Qed.

Lemma so_aligned slot i :
  0 <= i < 256 → direct (io (inner s)) = true → so s slot i mod 4096 = 0.
Proof using Hg.
  intros Hi Hd. rewrite so_eq //. destruct slot_size_bounds as (Hm & _ & Htot).
  destruct Hg as [_ Hb _ [Hc Hcm] _ _ _ Hal]. specialize (Hal Hd).
  apply Z.mod_divide in Hm as Hm; [|done]. apply Z.mod_divide in Hal; [|done].
  assert (4096 | rs_index_slot_capacity s) as Hcm' by (rewrite -Htot; by apply Z.divide_mul_r).
  apply Z.mod_divide; [done|]. apply Z.divide_add_r; [|by apply Z.divide_mul_r].
  destruct (slot =? 0); [done|]. rewrite Hb. by apply Z.divide_add_r.
Qed.
End geometry_facts.

(** ** What the bytes of a file hold *)

Section images.
Context `{Crc32c, BincodeShard, BincodeSuperblock}.
Implicit Types (m : gmap Z byte) (sb : Superblock) (idx : DeviceIndex).

(** The superblock that reading [m] picks. *)
Definition image_sb m : Res RawStoreError Superblock :=
  pick_superblock (sb_from_bytes (read_bytes m 0 SUPERBLOCK_SIZE))
                  (sb_from_bytes (read_bytes m SUPERBLOCK_SIZE SUPERBLOCK_SIZE)).

(** Slot [meta] of shard [i] decodes to [shard] in [m]. *)
Definition slot_holds (s : RawObjectStore) m (i : Z) (meta : ShardSlotMeta) (shard : ShardData) : Prop :=
  0 <= active_slot meta <= 1 ∧ (0 <= slot_size meta <= shard_slot_size s ∧ 0 <= slot_crc meta < 2 ^ 32) ∧
  (if slot_size meta =? 0 then shard = mkShard ∅ ∅
   else shard_from_bytes (read_bytes m (so s (active_slot meta) i) (slot_size meta))
          (slot_crc meta) = Ok shard).

Definition slots_hold (s : RawObjectStore) m (slots : list ShardSlotMeta) idx : Prop :=
  length slots = 256%nat ∧
  ∀ i meta, slots !! i = Some meta → slot_holds s m (Z.of_nat i) meta (bucket (Z.of_nat i) idx).

Definition image_holds (s : RawObjectStore) m sb idx : Prop :=
  image_sb m = Ok sb ∧ slots_hold s m (shard_slots sb) idx.

(** The bytes an image's index depends on. *)
Definition protected (s : RawObjectStore) (slots : list ShardSlotMeta) (x : Z) : Prop :=
  0 <= x < DATA_START ∨
  ∃ i meta, slots !! i = Some meta ∧
    so s (active_slot meta) (Z.of_nat i) <= x < so s (active_slot meta) (Z.of_nat i) + shard_slot_size s.

Lemma slots_hold_ext s m m' slots idx :
  (∀ i meta x, slots !! i = Some meta →
    so s (active_slot meta) (Z.of_nat i) <= x < so s (active_slot meta) (Z.of_nat i) + shard_slot_size s →
    byte_at m' x = byte_at m x) →
  slots_hold s m slots idx → slots_hold s m' slots idx.
Proof.
  intros Hx [Hl Hs]. split; [done|]. intros i meta Hi. destruct (Hs i meta Hi) as (Ha & Hz & Hv).
  split; [done|split; [done|]]. destruct (slot_size meta =? 0); [done|].
  rewrite -Hv. f_equal. apply read_bytes_ext. intros x Hxr. eapply Hx; [done|]. lia.
Qed.

Lemma image_holds_ext s m m' sb idx :
  (∀ x, protected s (shard_slots sb) x → byte_at m' x = byte_at m x) →
  image_holds s m sb idx → image_holds s m' sb idx.
Proof.
  intros Hx [Hsb Hs]. split.
  - rewrite -Hsb /image_sb. change SUPERBLOCK_SIZE with 4096.
    assert (∀ o, 0 <= o → o + 4096 <= 8192 → read_bytes m' o 4096 = read_bytes m o 4096) as Hr.
    { intros o ??. apply read_bytes_ext. intros x ?. apply Hx. left.
      change DATA_START with 8192. lia. }
    by rewrite !Hr.
  - eapply slots_hold_ext; [|exact Hs]. intros i meta x Hi Hr. apply Hx. right. eauto.
Qed.
End images.

(** ** Merging the buckets of an index gives the index back *)

Section buckets.
Context `{Crc32c}.
Implicit Types (idx : DeviceIndex).

(** The part of an index in shards below [n]. *)
Definition index_below (n : Z) idx : DeviceIndex :=
  mkIndex (filter (λ '(k, _), shard_for_key k < n) (files idx))
          (filter (λ '(k, _), shard_for_key k < n) (tombstones idx)).

Lemma filter_below_step {A} (m : gmap string A) n :
  filter (λ '(k, _), shard_for_key k = n) m ∪ filter (λ '(k, _), shard_for_key k < n) m =
  filter (λ '(k, _), shard_for_key k < n + 1) m.
Proof.
  apply map_eq. intros k. apply option_eq. intros x.
  rewrite lookup_union_Some.
  - rewrite !map_lookup_filter_Some. cbn. split.
    + intros [[? ?]|[? ?]]; (split; [done|lia]).
    + intros [? ?]. destruct (decide (shard_for_key k = n)); [by left|right; split; [done|lia]].
  - apply map_disjoint_spec. intros k' x' y'. rewrite !map_lookup_filter_Some. cbn. lia.
Qed.

Lemma index_below_step n idx :
  extend_index (bucket n idx) (index_below n idx) = index_below (n + 1) idx.
Proof. rewrite /extend_index /index_below /=. by rewrite !filter_below_step. Qed.

Lemma index_below_0 idx : index_below 0 idx = index_new.
Proof.
  rewrite /index_below /index_new.
  f_equal; apply map_empty_filter_2; intros k x _; cbn; pose proof (shard_for_key_range k); lia.
Qed.

Lemma index_below_all idx : index_below 256 idx = idx.
Proof.
  destruct idx as [f t]. rewrite /index_below /=.
  f_equal; apply map_filter_id; intros k x _; cbn; pose proof (shard_for_key_range k); lia.
Qed.
End buckets.

(** ** Recovering the index of an image *)

Section recovery.
Context `{Crc32cLaws, BincodeShardLaws, BincodeSuperblockLaws}.
Context (s : RawObjectStore) (Hg : geometry s).
Implicit Types (d : DeviceIo) (idx : DeviceIndex) (sb : Superblock).

(** [d] is a handle on a file of the store's size that can be read. *)
Definition handle d : Prop :=
  no_faults (env (disk d)) ∧ file_size (disk (io (inner s))) <= file_size (disk d) ∧
  (direct d = true → direct (io (inner s)) = true).

Lemma read_superblocks_image d :
  handle d → read_superblocks d = image_sb (content (disk d)).
Proof using Hg.
  intros (Hnf & Hsz & Hdir). destruct Hg as [Ha _ _ [Hc _] He Hu _ _].
  change DATA_START with 8192 in Ha. rewrite /read_superblocks /image_sb.
  change SUPERBLOCK_SIZE with 4096.
  rewrite !pread_total //; try lia.
  all: change ((4096 + 4095) / 4096 * 4096) with 4096; lia.
Qed.

Lemma load_shard_holds d i meta shard :
  handle d → 0 <= i < 256 → slot_size meta ≠ 0 →
  slot_holds s (content (disk d)) i meta shard →
  load_shard d (index_region_a s) (index_region_b s) (shard_slot_size s) i meta = Ok shard.
Proof using Hg.
  intros (Hnf & Hsz & Hdir) Hi Hne (Ha & Hz & Hv). rewrite (proj2 (Z.eqb_neq _ _) Hne) in Hv.
  rewrite /load_shard -/(so s (active_slot meta) i).
  destruct (so_bounds s Hg (active_slot meta) i Hi) as [Hlo Hhi].
  destruct (slot_size_bounds s Hg) as (Hm & _ & Htot). pose proof Hg as [Hra ? ? ? He Hu _ _].
  change DATA_START with 8192 in Hra. rewrite pread_total //; [lia| | |].
  - intros Hd. apply so_aligned; auto.
  - assert ((slot_size meta + 4095) / 4096 * 4096 <= shard_slot_size s) as Hp; [|lia].
    pose proof (Z.div_mod (slot_size meta + 4095) 4096 ltac:(done)).
    pose proof (Z.mod_pos_bound (slot_size meta + 4095) 4096 ltac:(done)).
    pose proof (Z.div_mod (shard_slot_size s) 4096 ltac:(done)). nia.
  - u64.
Qed.

Lemma load_shards_hold d slots idx i :
  handle d → slots_hold s (content (disk d)) slots idx → 0 <= i <= 256 →
  load_shards d (index_region_a s) (index_region_b s) (shard_slot_size s) i
    (zdrop i slots) (index_below i idx) = Ok idx.
Proof using Hg.
  intros Hh [Hlen Hs] Hi. remember (Z.to_nat (256 - i)) as n eqn:Hn.
  revert i Hi Hn. induction n as [|n IH]; intros i Hi Hn.
  - assert (i = 256) as -> by lia. rewrite zdrop_ge; [|rewrite /zlen; lia].
    by rewrite /= index_below_all.
  - assert (∃ meta, slots !! Z.to_nat i = Some meta) as [meta Hmeta]
      by (apply lookup_lt_is_Some; lia).
    rewrite /zdrop (drop_S _ _ _ Hmeta). pose proof (Hs _ _ Hmeta) as Hsl.
    rewrite Z2Nat.id in Hsl; [|lia]. cbn [load_shards].
    specialize (IH (i + 1) ltac:(lia) ltac:(lia)).
    rewrite /zdrop Z2Nat.inj_add // in IH; [|lia]. rewrite Nat.add_1_r -index_below_step in IH.
    destruct (slot_size meta =? 0) eqn:E.
    + destruct Hsl as (_ & _ & Hv). rewrite E in Hv. rewrite Hv in IH.
      rewrite -IH. f_equal. rewrite /extend_index /=. by rewrite !(left_id_L ∅ (∪)).
    + rewrite (load_shard_holds d i meta (bucket i idx)) //; [lia|]. by apply Z.eqb_neq.
Qed.

Lemma load_all d slots idx :
  handle d → slots_hold s (content (disk d)) slots idx →
  load_shards d (index_region_a s) (index_region_b s) (shard_slot_size s) 0 slots index_new = Ok idx.
Proof using Hg.
  intros Hh Hs. rewrite -(index_below_0 idx). by apply (load_shards_hold d slots idx 0).
Qed.
End recovery.

(** ** Writing the dirty shards *)

Section flushing.
Context `{Crc32cLaws, BincodeShardLaws, BincodeSuperblockLaws}.
Context (s : RawObjectStore) (Hg : geometry s).
Implicit Types (st : Inner) (idx : DeviceIndex) (d : DeviceIo).

Definition index_in_range idx : Prop := ∀ i, shard_in_range (bucket i idx).

(** A handle that flush can write through. *)
Definition flush_handle d : Prop :=
  io_read_only d = false ∧ direct d = direct (io (inner s)) ∧
  file_size (disk d) = file_size (disk (io (inner s))).

(** A write to the inactive copy of a dirty shard, from shard [lb] on. *)
Definition inactive_write (lb : Z) (flags : list bool) (slots : list ShardSlotMeta)
    (e : DiskEvent) : Prop :=
  ∃ i meta, lb <= Z.of_nat i ∧ slots !! i = Some meta ∧ flags !! i = Some true ∧
    write_in (so s (1 - active_slot meta) (Z.of_nat i))
             (so s (1 - active_slot meta) (Z.of_nat i) + shard_slot_size s) e.

Definition slots_wf (slots : list ShardSlotMeta) : Prop :=
  length slots = 256%nat ∧ Forall (λ m, 0 <= active_slot m <= 1) slots.

Lemma handle_frame lo hi d d' :
  flush_handle d → hi <= file_size (disk d) → dev_frame lo hi d d' → flush_handle d'.
Proof.
  intros (? & ? & ?) Hhi [? Hs ? Hd Hr ? ?]. split_and!; [congruence|congruence|].
  rewrite Z.max_l in Hs; [|lia]. lia.
Qed.

Lemma slot_end slot i : 0 <= i < 256 →
  so s slot i + shard_slot_size s <= file_size (disk (io (inner s))).
Proof using Hg. intros Hi. pose proof (so_bounds s Hg slot i Hi). destruct Hg. lia. Qed.

(** The bucket of shard [j] does not fit its slot. *)
Definition overflows idx slot (e : RawStoreError) : Prop :=
  ∃ j b, ser_shard (bucket j idx) = Some b ∧ e = ShardOverflow j (zlen b) slot ∧ slot < zlen b.

(** The outcome of writing one shard. *)
Lemma flush_shard_spec i st meta :
  flush_handle (io st) → 0 <= i < 256 → index_in_range (index st) →
  shard_slots (superblock st) !! Z.to_nat i = Some meta → 0 <= active_slot meta <= 1 →
  let '(st', r) := flush_shard s i st in
  ∃ d' sb', st' = set_superblock sb' (set_io d' st) ∧
    dev_frame (so s (1 - active_slot meta) i) (so s (1 - active_slot meta) i + shard_slot_size s)
      (io st) d' ∧
    match r with
    | Ok _ => ∃ meta', sb' = set_slot i meta' (superblock st) ∧ active_slot meta' = 1 - active_slot meta ∧
        slot_holds s (content (disk d')) i meta' (bucket i (index st))
    | Err e => sb' = superblock st ∧
        (overflows (index st) (shard_slot_size s) e ∨
         ¬ no_faults (env (disk (io st))))
    | Panic => False
    end.
Proof using All.
  intros (Hro & Hdir & Hfs) Hi Hrng Hmeta Hact.
  destruct (ser_shard_total (bucket i (index st)) (Hrng i)) as (bytes & Hser & Hne).
  rewrite /flush_shard /shard_to_bytes Hser. cbn [ok_or mbind Res_bind].
  destruct (shard_slot_size s <? zlen bytes) eqn:Hov.
  { apply Z.ltb_lt in Hov. exists (io st), (superblock st). split_and!; [by destruct st|apply dev_frame_refl|done|].
    left. by exists i, bytes. }
  apply Z.ltb_ge in Hov. rewrite Hmeta.
  assert ((1 - active_slot meta) mod 256 = 1 - active_slot meta) as ->
    by (rewrite Z.mod_small; lia).
  rewrite -/(so s (1 - active_slot meta) i). set (off := so s (1 - active_slot meta) i).
  destruct (slot_size_bounds s Hg) as (Hm & Hpos & Htot).
  pose proof (slot_end (1 - active_slot meta) i Hi) as Hend.
  pose proof (so_bounds s Hg (1 - active_slot meta) i Hi) as Hb. fold off in Hend, Hb.
  pose proof Hg as [Hra ? ? ? He Hu Hsmall _]. change DATA_START with 8192 in Hra.
  pose proof (zlen_nonneg bytes).
  destruct (pwrite_cases off bytes (io st)) as (w & r & Hw & Hwl & Hwd & Hcase); [done| |done|u64|].
  { intros Hd. apply so_aligned; [done|done|congruence]. }
  rewrite {1}/sm_bind /on_io /sm_zoom Hw.
  assert (zlen w <= shard_slot_size s) as Hwz.
  { pose proof (Z.div_mod (zlen bytes + 4095) 4096 ltac:(done)).
    pose proof (Z.mod_pos_bound (zlen bytes + 4095) 4096 ltac:(done)).
    pose proof (Z.div_mod (shard_slot_size s) 4096 ltac:(done)). nia. }
  set (d' := with_disk (file_write off w (disk (io st))) (io st)).
  assert (dev_frame off (off + shard_slot_size s) (io st) d') as Hfr.
  { pose proof (zlen_nonneg w). split; simpl; try done; [|lia|].
    - intros x Hx. rewrite byte_at_write decide_False //. lia.
    - exists [Write off w]. split_and!; [done| |done]. repeat constructor; simpl; lia. }
  destruct Hcase as [(-> & [z Hz] & _)|(-> & Hnf & _)].
  - rewrite /sm_bind /sm_modify /sm_ret.
    exists d', (set_slot i (mkSlot (1 - active_slot meta) (as_u32 (zlen bytes)) (crc32c bytes))
                  (superblock st)).
    split_and!; [by destruct st|done|]. eexists. split_and!; [done|done|].
    assert (0 < zlen bytes) as Hbpos.
    { destruct bytes; [done|]. rewrite zlen_cons. pose proof (zlen_nonneg bytes). lia. }
    assert (as_u32 (zlen bytes) = zlen bytes) as Hu32 by (apply Z.mod_small; lia).
    split; [simpl; lia|]. cbn [slot_size slot_crc active_slot]. rewrite Hu32.
    split; [split; [lia|apply crc32c_range]|].
    rewrite (proj2 (Z.eqb_neq _ _)); [|lia]. simpl content. fold off.
    assert (read_bytes (write_bytes off w (content (disk (io st)))) off (zlen bytes) = bytes) as ->.
    { rewrite read_bytes_write_sub; [|lia..|rewrite Hz zlen_app; pose proof (zlen_nonneg (replicate z Byte.x00)); lia].
      by rewrite Z.sub_diag zdrop_0 Hz ztake_app_exact. }
    by apply shard_round_trip; [|rewrite /shard_to_bytes Hser].
  - exists d', (superblock st). split_and!; [by destruct st|done|done|by right].
Qed.

(** The shards already written, and the clean ones, hold their buckets. *)
Definition settled (flags : list bool) (i : Z) st : Prop :=
  ∀ j meta, shard_slots (superblock st) !! j = Some meta →
    Z.of_nat j < i ∨ flags !! j = Some false →
    slot_holds s (content (disk (io st))) (Z.of_nat j) meta (bucket (Z.of_nat j) (index st)).

Lemma slot_holds_frame d d' lo hi i meta shard :
  dev_frame lo hi d d' → 0 <= i < 256 →
  (so s (active_slot meta) i + shard_slot_size s <= lo ∨ hi <= so s (active_slot meta) i) →
  slot_holds s (content (disk d)) i meta shard → slot_holds s (content (disk d')) i meta shard.
Proof using Type.
  intros Hfr Hi Hd (Ha & Hz & Hv). split; [done|split; [done|]].
  destruct (slot_size meta =? 0); [done|]. rewrite -Hv. f_equal.
  apply read_bytes_ext. intros x Hx. apply (frame_bytes _ _ _ _ Hfr). lia.
Qed.

(** What writing shards may do to the device. *)
Record shard_writes (lb : Z) (flags : list bool) (slots : list ShardSlotMeta) (d d' : DeviceIo)
    (ws : list DiskEvent) : Prop := {
  sw_frame : dev_frame (index_region_a s) (file_size (disk (io (inner s)))) d d';
  sw_log : log (disk d') = log (disk d) ++ ws;
  sw_content : content (disk d') = apply_log (content (disk d)) ws;
  sw_inactive : Forall (inactive_write lb flags slots) ws;
}.

Lemma shard_writes_le lb lb' flags slots d d' ws :
  lb' <= lb → shard_writes lb flags slots d d' ws → shard_writes lb' flags slots d d' ws.
Proof.
  intros ? []. split; try done. eapply Forall_impl; [eassumption|].
  intros e (j & m & ? & ? & ? & ?). exists j, m. split_and!; [lia|done..].
Qed.

Lemma with_shard_slots_id sb : with_shard_slots (shard_slots sb) sb = sb.
Proof. by destruct sb. Qed.

(** One dirty shard written: the loop's state afterwards. *)
Lemma flush_step flags i st d' sb' meta meta' :
  slots_wf (shard_slots (superblock st)) → 0 <= i < 256 →
  shard_slots (superblock st) !! Z.to_nat i = Some meta →
  dev_frame (so s (1 - active_slot meta) i) (so s (1 - active_slot meta) i + shard_slot_size s)
    (io st) d' →
  sb' = set_slot i meta' (superblock st) → active_slot meta' = 1 - active_slot meta →
  slot_holds s (content (disk d')) i meta' (bucket i (index st)) →
  settled flags i st → flags !! Z.to_nat i = Some true →
  let st' := set_superblock sb' (set_io d' st) in
  slots_wf (shard_slots (superblock st')) ∧ settled flags (i + 1) st' ∧
  (∀ j m, shard_slots (superblock st') !! j = Some m → i < Z.of_nat j →
    shard_slots (superblock st) !! j = Some m).
Proof using Hg.
  intros [Hlen Hwf] Hi Hmeta Hfr -> Hact Hholds Hset Hfl. simpl. split_and!.
  - split; [by rewrite /= length_insert|]. apply Forall_insert; [done|].
    destruct Hholds as [? _]. done.
  - intros j m Hj Hor. simpl in *. destruct (decide (j = Z.to_nat i)) as [->|Hne].
    + rewrite list_lookup_insert_eq in Hj; [|lia]. simplify_eq. by rewrite Z2Nat.id; [|lia].
    + rewrite list_lookup_insert_ne in Hj; [|done].
      assert (0 <= Z.of_nat j < 256) as Hjr by (apply lookup_lt_Some in Hj; lia).
      eapply slot_holds_frame; [exact Hfr|done| |apply Hset; [done|]].
      * destruct (so_disjoint s Hg (active_slot m) (1 - active_slot meta) (Z.of_nat j) i) as [?|?];
          [done|done|left; lia|lia|lia].
      * destruct Hor as [?|?]; [left; lia|by right].
  - intros j m Hj Hlt. by rewrite list_lookup_insert_ne in Hj; [|lia].
Qed.

Lemma flush_shards_spec flags rest i bw st :
  flush_handle (io st) → index_in_range (index st) → slots_wf (shard_slots (superblock st)) →
  0 <= i → i + zlen rest = 256 → rest = zdrop i flags → settled flags i st →
  let '(st', r) := flush_shards s rest i bw st in
  ∃ d' slots' ws, st' = set_superblock (with_shard_slots slots' (superblock st)) (set_io d' st) ∧
    shard_writes i flags (shard_slots (superblock st)) (io st) d' ws ∧
    match r with
    | Ok _ => slots_hold s (content (disk d')) slots' (index st)
    | Err e => overflows (index st) (shard_slot_size s) e ∨
        ¬ no_faults (env (disk (io st)))
    | Panic => False
    end.
Proof using All.
  revert i bw st. induction rest as [|b rest IH]; intros i bw st Hh Hrng Hwf Hi Hlen Hrest Hset.
  { rewrite zlen_nil in Hlen. simpl. exists (io st), (shard_slots (superblock st)), [].
    split_and!; [by rewrite with_shard_slots_id; destruct st| |].
    - split; [apply dev_frame_refl|by rewrite app_nil_r|done|done].
    - split; [apply Hwf|]. intros j meta Hj. apply Hset; [done|]. left.
      destruct Hwf as [Hl _]. apply lookup_lt_Some in Hj. lia. }
  rewrite zlen_cons in Hlen. pose proof (zlen_nonneg rest).
  assert (flags !! Z.to_nat i = Some b) as Hb.
  { apply (f_equal head) in Hrest. rewrite /zdrop /= in Hrest. symmetry in Hrest.
    by rewrite -(Nat.add_0_r (Z.to_nat i)) -lookup_drop -head_lookup. }
  assert (rest = zdrop (i + 1) flags) as Hrest'.
  { rewrite -zdrop_zdrop_add; [|lia..]. by rewrite -Hrest. }
  destruct b; cbn [flush_shards].
  2: { assert (settled flags (i + 1) st) as Hset'.
       { intros j meta Hj Hor. apply Hset; [done|]. destruct Hor as [Hlt|?]; [|by right].
         destruct (decide (j = Z.to_nat i)) as [->|]; [by right|left; lia]. }
       specialize (IH (i + 1) bw st Hh Hrng Hwf ltac:(lia) ltac:(lia) Hrest' Hset').
       destruct (flush_shards s rest (i + 1) bw st) as [st' r].
       destruct IH as (d' & slots' & ws & ? & Hw & ?). exists d', slots', ws.
       split_and!; [done| |done]. eapply shard_writes_le; [|exact Hw]. lia. }
  assert (0 <= i < 256) as Hir by lia. pose proof Hwf as [Hl Hact].
  assert (∃ meta, shard_slots (superblock st) !! Z.to_nat i = Some meta) as [meta Hmeta]
    by (apply lookup_lt_is_Some; lia).
  assert (0 <= active_slot meta <= 1) as Ham by (by eapply Forall_lookup_1 in Hact).
  pose proof (flush_shard_spec i st meta Hh Hir Hrng Hmeta Ham) as Hstep.
  rewrite {1}/sm_bind. destruct (flush_shard s i st) as [st1 r1].
  destruct Hstep as (d1 & sb1 & -> & Hfr & Hr1).
  pose proof (slot_end (1 - active_slot meta) i Hir) as Hend.
  pose proof (so_bounds s Hg (1 - active_slot meta) i Hir) as Hbd.
  assert (dev_frame (index_region_a s) (file_size (disk (io (inner s)))) (io st) d1) as Hfr1.
  { eapply dev_frame_mono; [..|exact Hfr]; lia. }
  assert (flush_handle d1) as Hh1.
  { eapply handle_frame; [exact Hh| |exact Hfr]. destruct Hh as (_ & _ & ->). lia. }
  pose proof (frame_log _ _ _ _ Hfr) as (ws1 & Hlog1 & Hin1 & Hc1).
  assert (Forall (inactive_write i flags (shard_slots (superblock st))) ws1) as Hina.
  { eapply Forall_impl; [exact Hin1|]. intros e He. exists (Z.to_nat i), meta.
    rewrite Z2Nat.id; [|lia]. split_and!; [lia|done..]. }
  destruct r1 as [n|e|]; [| |done].
  - destruct Hr1 as (meta' & -> & Hact' & Hholds).
    destruct (flush_step flags i st d1 _ meta meta' Hwf Hir Hmeta Hfr eq_refl Hact' Hholds Hset Hb)
      as (Hwf' & Hset' & Hsub).
    specialize (IH (i + 1) (bw + n)
      (set_superblock (set_slot i meta' (superblock st)) (set_io d1 st)) Hh1 Hrng Hwf' ltac:(lia) ltac:(lia) Hrest' Hset').
    destruct (flush_shards s rest (i + 1) (bw + n) _) as [st2 r2].
    destruct IH as (d2 & slots2 & ws2 & -> & [Hf2 Hl2 Hc2 Hi2] & Hr2).
    exists d2, slots2, (ws1 ++ ws2). split_and!; [by destruct st|split|].
    + by eapply dev_frame_trans.
    + simpl in Hl2. by rewrite Hl2 Hlog1 app_assoc.
    + simpl in Hc2. by rewrite Hc2 Hc1 apply_log_app.
    + apply Forall_app. split; [done|]. eapply Forall_impl; [exact Hi2|].
      intros e (j & m & Hj & Hm & Hf & Hw). exists j, m. split_and!; [lia| |done|done].
      apply Hsub; [done|lia].
    + destruct r2 as [n2|e2|]; [done| |done]. destruct Hr2 as [?|Hnf]; [by left|right].
      by rewrite -(frame_env _ _ _ _ Hfr).
  - destruct Hr1 as [-> Herr]. exists d1, (shard_slots (superblock st)), ws1.
    split_and!; [by rewrite with_shard_slots_id|by split|].
    done.
Qed.
End flushing.

(** ** Committing the superblock *)

Section commit.
Context `{Crc32cLaws, BincodeShardLaws, BincodeSuperblockLaws}.
Implicit Types (d : DeviceIo) (b : list byte) (m : gmap Z byte).

(** The events of a whole commit that writes [b], and what a commit may have
    done when it stops early; a failing write leaves nothing or everything. *)
Definition commit_events b : list DiskEvent :=
  [Write 0 b; Sync; Write SUPERBLOCK_SIZE b; Sync].
Definition commit_tail b (t : list DiskEvent) : Prop :=
  t ∈ [ []; [Write 0 []]; [Write 0 b]; [Write 0 b; Sync]; [Write 0 b; Sync; Write SUPERBLOCK_SIZE []];
        [Write 0 b; Sync; Write SUPERBLOCK_SIZE b]; commit_events b ].

(** Everything but the bytes of the file and its log is the same. *)
Definition same_handle d d' : Prop :=
  env (disk d') = env (disk d) ∧ direct d' = direct d ∧ io_read_only d' = io_read_only d ∧
  base (disk d') = base (disk d) ∧ locked (disk d') = locked (disk d) ∧
  file_size (disk d') = file_size (disk d).

Lemma same_handle_trans d1 d2 d3 : same_handle d1 d2 → same_handle d2 d3 → same_handle d1 d3.
Proof. rewrite /same_handle. intuition congruence. Qed.

(** One 4096-byte write to a superblock copy. *)
Lemma sb_write_spec off b d :
  io_read_only d = false → zlen b = 4096 → off mod 4096 = 0 → off + 4096 <= file_size (disk d) →
  sector_atomic (env (disk d)) →
  ∃ w d' r, pwrite off b d = (d', r) ∧ same_handle d d' ∧
    log (disk d') = log (disk d) ++ [Write off w] ∧
    content (disk d') = write_bytes off w (content (disk d)) ∧
    (w = [] ∨ w = b) ∧
    (r = Ok tt ∧ w = b ∨ r = Err (Io OsError "write") ∧ ¬ no_faults (env (disk d))).
Proof.
  intros Hro Hb Hoff Hsz Hat.
  destruct (pwrite_cases off b d) as (w & r & Hw & _ & _ & Hcase); [done|done| |u64|].
  { intros ->. by rewrite zlen_nil in Hb. }
  rewrite Hw. exists w, (with_disk (file_write off w (disk d)) d), r.
  assert (w = [] ∨ w = b) as Hwb.
  { destruct Hcase as [(-> & _ & Hx)|(-> & _ & Hx)].
    - right. apply Hx. by rewrite Hb.
    - destruct Hx as (k & Hk & ->); [by rewrite Hb|]. apply Hat in Hk. unfold SECTOR in Hk.
      destruct (decide (k <= 0)); [left; by apply ztake_nonpos|right].
      apply ztake_ge. pose proof (Z.div_mod k 4096 ltac:(done)). nia. }
  split_and!; [done| |done|done|done|].
  - split_and!; try done. simpl. destruct Hwb as [->| ->]; rewrite ?zlen_nil ?Hb; lia.
  - destruct Hcase as [(-> & _ & Hx)|(-> & Hn & _)]; [left|by right].
    split; [done|]. apply Hx. by rewrite Hb.
Qed.

Lemma write_superblocks_spec b d :
  io_read_only d = false → zlen b = 4096 → 8192 <= file_size (disk d) →
  sector_atomic (env (disk d)) →
  let '(d', r) := write_superblocks b d in
  ∃ t, same_handle d d' ∧ log (disk d') = log (disk d) ++ t ∧
    content (disk d') = apply_log (content (disk d)) t ∧ commit_tail b t ∧
    (r = Ok tt ∧ t = commit_events b ∨ (∃ k msg, r = Err (Io k msg)) ∧ ¬ no_faults (env (disk d))).
Proof.
  intros Hro Hb Hsz Hat. rewrite /write_superblocks.
  destruct (sb_write_spec 0 b d) as (w & d1 & r1 & Hw & Hsame & Hlog & Hc & Hwb & Hr);
    [done|done|done|lia|done|].
  rewrite {1}/sm_bind Hw.
  assert (∃ t, same_handle d d1 ∧ log (disk d1) = log (disk d) ++ t ∧
    content (disk d1) = apply_log (content (disk d)) t ∧ commit_tail b t ∧ t = [Write 0 w]) as Hstop.
  { exists [Write 0 w]. split_and!; try done. rewrite /commit_tail !elem_of_cons. destruct Hwb as [->| ->]; tauto. }
  destruct Hr as [[-> ->]|[-> Hnf]]; [|destruct Hstop as (t & ? & ? & ? & ? & _); exists t; eauto 10].
  pose proof Hsame as (He & Hd & Hr & Hba & Hlk & Hfs).
  rewrite {1}/sm_bind /sync Hr Hro He.
  destruct (sync_fault (env (disk d))) eqn:Hsf.
  { destruct Hstop as (t & ? & ? & ? & ? & _). exists t. split_and!; try done. right.
    split; [by eauto|]. intros [_ _ _ Hn]. congruence. }
  cbn iota. set (d2 := with_disk (file_sync (disk d1)) d1).
  destruct (sb_write_spec SUPERBLOCK_SIZE b d2) as (w2 & d3 & r3 & Hw2 & Hsame2 & Hlog2 & Hc2 & Hwb2 & Hr2);
    [by rewrite /d2 /= Hr|done|done|by rewrite /d2 /= Hfs|by rewrite /d2 /= He|].
  rewrite {1}/sm_bind Hw2.
  assert (same_handle d d3) as Hs3 by (eapply same_handle_trans; [|exact Hsame2]; done).
  assert (log (disk d3) = log (disk d) ++ [Write 0 b; Sync; Write SUPERBLOCK_SIZE w2]) as Hl3.
  { rewrite Hlog2 /d2 /= Hlog. by rewrite -?app_assoc. }
  assert (content (disk d3) = apply_log (content (disk d)) [Write 0 b; Sync; Write SUPERBLOCK_SIZE w2])
    as Hc3 by by rewrite Hc2 /d2 /= Hc.
  assert (commit_tail b [Write 0 b; Sync; Write SUPERBLOCK_SIZE w2]) as Ht3.
  { rewrite /commit_tail !elem_of_cons. destruct Hwb2 as [->| ->]; tauto. }
  destruct Hr2 as [[-> ->]|[-> Hnf]].
  2: { eexists. split_and!; [done|exact Hl3|exact Hc3|done|]. right. split; [by eauto|].
       by rewrite -He. }
  pose proof Hs3 as (He3 & _ & Hr3 & _). rewrite Hr3 Hro He3 Hsf.
  exists (commit_events b). split_and!.
  - done.
  - rewrite /= Hl3. by rewrite -?app_assoc.
  - done.
  - rewrite /commit_tail !elem_of_cons. tauto.
  - by left.
Qed.

(** ** What a crash can leave of a superblock write *)

Lemma crash_sector_write m0 (d : list DiskEvent) k w m :
  (d = [] ∨ last d = Some Sync) → zlen w = 4096 ∨ w = [] →
  crash_image m0 (d ++ [Write (k * 4096) w]) m →
  (∀ i, byte_at m i = byte_at (apply_log m0 d) i) ∨
  (∀ i, byte_at m i = byte_at (apply_log m0 (d ++ [Write (k * 4096) w])) i).
Proof.
  intros Hd Hw (d' & p' & Hd' & Hm).
  assert (durable (d ++ [Write (k * 4096) w]) d [Write (k * 4096) w]) as Hdur.
  { split_and!; [done| |done]. by repeat constructor. }
  destruct (durable_unique _ _ _ _ _ Hdur Hd') as [<- <-].
  assert (∀ i, ¬ (k * 4096 <= i < (k + 1) * 4096) →
    byte_at (apply_log m0 (d ++ [Write (k * 4096) w])) i = byte_at (apply_log m0 d) i ∧
    byte_at m i = byte_at (apply_log m0 d) i) as Hother.
  { intros i Hi. assert (byte_at (apply_log m0 (d ++ [Write (k * 4096) w])) i =
      byte_at (apply_log m0 d) i) as He.
    { rewrite apply_log_app /= byte_at_write decide_False //.
      destruct Hw as [Hw| ->]; [lia|]. rewrite zlen_nil. lia. }
    split; [done|]. destruct (Hm (i / SECTOR)) as [n Hn]. rewrite Hn.
    - destruct n as [|n]; [by rewrite app_nil_r|]. by rewrite /= firstn_nil.
    - unfold SECTOR. pose proof (Z.div_mod i 4096 ltac:(done)).
      pose proof (Z.mod_pos_bound i 4096 ltac:(done)). lia. }
  destruct (Hm k) as [n Hn]. unfold SECTOR in Hn. destruct n as [|n]; [left|right]; intros i.
  all: destruct (decide (k * 4096 <= i < (k + 1) * 4096)) as [Hi|Hi];
    [rewrite Hn //|destruct (Hother i Hi); congruence].
  - by rewrite app_nil_r.
  - by rewrite /= firstn_nil.
Qed.

Lemma crash_after_sync m0 (d : list DiskEvent) m i :
  last d = Some Sync → crash_image m0 d m → byte_at m i = byte_at (apply_log m0 d) i.
Proof.
  intros Hd Hm. eapply crash_image_avoids; [|exact Hm|done].
  split_and!; [by rewrite app_nil_r|constructor|by right].
Qed.
End commit.
