(* ===== verification/Flush.v ===== *)
(** * Crash atomicity of [flush_index]

    [committed s sb idx0]: the durable bytes of the store's file hold the
    index [idx0] under the superblock [sb], and everything written since is
    data.  Whatever a crash during a flush leaves, opening finds either
    [idx0] or the index being flushed, whole; a flush that returns has made
    the latter durable. *)

From S2P Require Import Prelude.
From S2P Require Import Config.
From S2P Require Import Device.
From S2P Require Import Allocator.
From S2P Require Import Extent.
From S2P Require Import Streaming.
From S2P Require Import Index.
From S2P Require Import Superblock.
From S2P Require Import Inner.
From S2P Require Import InnerFacts.
From S2P Require Import RawStore.
From S2P Require Import StoreFacts.

Section flush.
Context `{Crc32cLaws, CodecLaws, BincodeShardLaws, BincodeSuperblockLaws}.
Implicit Types (s : RawObjectStore) (sb : Superblock) (idx : DeviceIndex) (m : gmap Z byte).

Definition file_of (s : RawObjectStore) : DiskFile := disk (io (inner s)).

(** The superblock carries the geometry and the settings of the store. *)
Record described s sb : Prop := {
  de_capacity : index_slot_capacity sb = rs_index_slot_capacity s;
  de_size : index_region_a s + rs_index_slot_capacity s * 2 = file_size (file_of s);
  de_min : DATA_START + BLOCK_ALIGNMENT <= index_region_a s;
  de_max_key : sb_max_key_length sb = max_key_length (inner s) ∧ sb_max_key_length sb ≠ 0;
  de_compression : from_u8 (sb_compression sb) = Ok (compression (inner s));
  de_protect : Z.land (Superblock.flags sb) FLAG_WRITE_PROTECT = 0;
  de_direct : Z.land (Superblock.flags sb) FLAG_DIRECT_IO ≠ 0 → index_region_a s mod 4096 = 0;
}.

Lemma described_eq s sb sb' :
  with_checksum 0 sb = with_checksum 0 sb' → described s sb → described s sb'.
Proof. destruct sb, sb'. intros [=] []. simplify_eq/=. by split. Qed.

(** What a well-formed index promises whatever the bytes of its extents. *)
Record index_ok (hi : Z) idx : Prop := {
  ix_tiles : ∃ a, tiles DATA_START hi a (extents (files idx));
  ix_shape : map_Forall (λ _ e, 0 < i_size e < 2 ^ 63 ∧
    i_padded_size e = num_blocks (i_size e) * 4096) (files idx);
  ix_range : index_in_range idx;
}.

Lemma inner_index_ok hi st : inner_ok hi st → index_in_range (index st) → index_ok hi (index st).
Proof.
  intros [_ (a & _ & Ht) He _ _] Hr. split; [by eauto| |done].
  eapply map_Forall_impl; [exact He|]. by intros k e [].
Qed.

(** Two entries that describe the same write: only the length of the
    metadata prefix may differ. *)
Definition with_meta_len (n : Z) (e : ExtentInfo) : ExtentInfo :=
  mkExtentInfo (i_offset e) (i_size e) (i_padded_size e) (i_crc32c e) (i_created_txn e)
    (i_last_modified e) n (i_uncompressed_size e).

Definition same_write (e e' : ExtentInfo) : Prop := with_meta_len 0 e = with_meta_len 0 e'.

(** The bytes of the entries of [idx] that the store still has. *)
Definition kept_byte s idx (x : Z) : Prop :=
  ∃ k e k' e', files idx !! k = Some e ∧ files (index (inner s)) !! k' = Some e' ∧
    same_write e e' ∧ covers (extent_of e) x.

Record committed s sb idx : Prop := {
  cm_log : ∃ d p, durable (log (file_of s)) d p ∧
    Forall (write_in DATA_START (index_region_a s)) p ∧
    image_holds s (apply_log (base (file_of s)) d) sb idx ∧
    (∀ x, kept_byte s idx x → Forall (avoids x) p);
  cm_content : content (file_of s) = apply_log (base (file_of s)) (log (file_of s));
  cm_sb : with_checksum 0 sb = with_checksum 0 (superblock (inner s));
  cm_clean i : shard_dirty (inner s) !! i = Some false →
    bucket (Z.of_nat i) idx = bucket (Z.of_nat i) (index (inner s));
  cm_index : index_ok (index_region_a s) idx;
  cm_txn : map_Forall (λ _ e, i_created_txn e < txn_id sb) (files idx);
}.

(** [m] restarts to [idx], and has the bytes of the entries still in use. *)
Record survives s (m : gmap Z byte) sb idx : Prop := {
  su_image : image_holds s m sb idx;
  su_described : described s sb;
  su_index : index_ok (index_region_a s) idx;
  su_txn : map_Forall (λ _ e, i_created_txn e < txn_id sb) (files idx);
  su_kept x : kept_byte s idx x → byte_at m x = byte_at (content (file_of s)) x;
}.

(** ** The new superblock *)

Lemma image_sb_sound m sb : image_sb m = Ok sb → sb_valid sb.
Proof.
  rewrite /image_sb /pick_superblock.
  destruct (sb_from_bytes (read_bytes m 0 SUPERBLOCK_SIZE)) as [a|e|] eqn:Ha;
    destruct (sb_from_bytes (read_bytes m SUPERBLOCK_SIZE SUPERBLOCK_SIZE)) as [b|e'|] eqn:Hb;
    try done; intros [= <-]; try (by eapply sb_from_bytes_sound).
  case_match; by eapply sb_from_bytes_sound.
Qed.

Lemma wsum_u64 l : is_u64 (wsum l).
Proof. destruct l; simpl; [done|apply wrap64_u64]. Qed.

(** A superblock that differs from a valid one in the fields a flush changes. *)
Lemma commit_valid sb0 sb slots t :
  sb_valid sb0 → with_checksum 0 sb0 = with_checksum 0 sb → length slots = 256%nat →
  Forall slot_in_range slots → is_u64 t →
  sb_valid (with_checksum 0 (commit_superblock t (with_shard_slots slots sb))).
Proof.
  intros [Hm Hv Hn Ha [Hr1 Hr2 Hr3 Hr4 Hr5 Hr6 Hr7 _]] Heq Hl Hs Ht. destruct sb0, sb; simpl in *.
  injection Heq as ?; subst. pose proof (wsum_u64 (slot_size <$> slots)).
  rewrite !Forall_cons in Hr4, Hr5. destruct_and!.
  split; simpl; try done; [by rewrite /zlen Hl|].
  split; simpl; try done.
  - by repeat (apply Forall_cons; split).
  - by repeat (apply Forall_cons; split).
  - by rewrite /zlen Hl.
Qed.

Lemma sb_to_bytes_checksum sb c : sb_to_bytes (with_checksum c sb) = sb_to_bytes sb.
Proof. done. Qed.

(** ** What holds after the copies are overwritten *)

Lemma image_sb_primary m sb new b :
  image_sb m = Ok sb → txn_id sb < txn_id new → zlen b = 4096 → sb_from_bytes b = Ok new →
  image_sb (write_bytes 0 b m) = Ok new.
Proof.
  rewrite /image_sb /pick_superblock. change SUPERBLOCK_SIZE with 4096. intros Hsb Htx Hb Hnew.
  rewrite (read_bytes_write_all _ _ b) // Hnew.
  rewrite read_bytes_write_ne; [|lia].
  destruct (sb_from_bytes (read_bytes m 0 4096)) as [a|e|];
    destruct (sb_from_bytes (read_bytes m 4096 4096)) as [a'|e'|]; try done; simplify_eq.
  - destruct (txn_id a' <=? txn_id a) eqn:E; simplify_eq.
    + apply Z.leb_le in E. rewrite (proj2 (Z.leb_le _ _)) //. lia.
    + rewrite (proj2 (Z.leb_le _ _)) //. lia.
  - rewrite (proj2 (Z.leb_le _ _)) //. lia.
Qed.

Lemma image_sb_both m new b :
  zlen b = 4096 → sb_from_bytes b = Ok new →
  image_sb (write_bytes SUPERBLOCK_SIZE b (write_bytes 0 b m)) = Ok new.
Proof.
  rewrite /image_sb /pick_superblock. change SUPERBLOCK_SIZE with 4096. intros Hb Hnew.
  rewrite read_bytes_write_ne; [|lia]. rewrite !(read_bytes_write_all _ _ b) // Hnew.
  by rewrite Z.leb_refl.
Qed.

Lemma slots_hold_write_sb s m o b slots idx :
  geometry s → 0 <= o → o + zlen b <= 8192 →
  slots_hold s m slots idx → slots_hold s (write_bytes o b m) slots idx.
Proof.
  intros Hg Ho Hb Hs. eapply slots_hold_ext; [|exact Hs]. intros i meta x Hi Hx.
  rewrite byte_at_write decide_False //. intros Hr.
  assert (0 <= Z.of_nat i < 256) as Hi' by (destruct Hs as [Hl _]; apply lookup_lt_Some in Hi; lia).
  pose proof (so_bounds s Hg (active_slot meta) _ Hi'). destruct Hg as [Ha _ _ _ _ _ _ _].
  change DATA_START with 8192 in Ha. lia.
Qed.

(** Every crash state of a commit that starts from durable bytes holding the
    old index and the new slots. *)
Lemma commit_crash s m0 d sb idx new idx' b t m :
  geometry s → last d = Some Sync → image_holds s (apply_log m0 d) sb idx →
  slots_hold s (apply_log m0 d) (shard_slots new) idx' →
  txn_id sb < txn_id new → zlen b = 4096 → sb_from_bytes b = Ok new →
  commit_tail b t → crash_image m0 (d ++ t) m →
  image_holds s m sb idx ∨ image_holds s m new idx'.
Proof.
  intros Hg Hd [Hold Hslots] Hnew Htx Hb Hfrom Ht Hm.
  set (M1 := apply_log m0 d) in *.
  assert (∀ m', (∀ i, byte_at m' i = byte_at M1 i) → image_holds s m' sb idx) as Hkeep.
  { intros m' He. eapply image_holds_ext; [|by split]. auto. }
  assert (image_holds s (write_bytes 0 b M1) new idx') as Hn1.
  { split; [by eapply image_sb_primary|]. apply slots_hold_write_sb; [done|done|lia|done]. }
  assert (image_holds s (write_bytes SUPERBLOCK_SIZE b (write_bytes 0 b M1)) new idx') as Hn2.
  { split; [by apply image_sb_both|]. change SUPERBLOCK_SIZE with 4096.
    apply slots_hold_write_sb; [done|lia|lia|]. by apply Hn1. }
  assert (∀ M m', image_holds s M new idx' → (∀ i, byte_at m' i = byte_at M i) →
    image_holds s m' new idx') as Hgive.
  { intros M m' HM He. eapply image_holds_ext; [|exact HM]. auto. }
  assert (d ≠ []) as Hdne by (intros ->; done).
  rewrite /commit_tail !elem_of_cons elem_of_nil in Ht.
  destruct Ht as [->|[->|[->|[->|[->|[->|[->|[]]]]]]]].
  - left. apply Hkeep. intros i. rewrite app_nil_r in Hm. by eapply crash_after_sync.
  - left. apply Hkeep. intros i.
    destruct (crash_sector_write m0 d 0 [] m) as [He|He]; [by right|by right|done|by apply He|].
    rewrite He apply_log_app. done.
  - destruct (crash_sector_write m0 d 0 b m) as [He|He]; [by right|by left|done|left; by apply Hkeep|].
    right. eapply Hgive; [exact Hn1|]. intros i. by rewrite He apply_log_app.
  - right. eapply Hgive; [exact Hn1|]. intros i.
    rewrite (crash_after_sync m0 _ m i _ Hm); [by rewrite apply_log_app|].
    by rewrite (app_assoc d [_] [_]) last_snoc.
  - right. change SUPERBLOCK_SIZE with (1 * 4096) in Hm.
    rewrite (app_assoc d [_; _] [_]) in Hm.
    destruct (crash_sector_write m0 (d ++ [Write 0 b; Sync]) 1 [] m) as [He|He]; [| |done|..].
    { right. by rewrite (app_assoc d [_] [_]) last_snoc. }
    { by right. }
    + eapply Hgive; [exact Hn1|]. intros i. by rewrite He apply_log_app.
    + eapply Hgive; [exact Hn1|]. intros i. by rewrite He !apply_log_app.
  - right. change SUPERBLOCK_SIZE with (1 * 4096) in Hm, Hn2.
    rewrite (app_assoc d [_; _] [_]) in Hm.
    destruct (crash_sector_write m0 (d ++ [Write 0 b; Sync]) 1 b m) as [He|He]; [| |done|..].
    { right. by rewrite (app_assoc d [_] [_]) last_snoc. }
    { by left. }
    + eapply Hgive; [exact Hn1|]. intros i. by rewrite He apply_log_app.
    + eapply Hgive; [exact Hn2|]. intros i. by rewrite He !apply_log_app.
  - right. eapply Hgive; [exact Hn2|]. intros i.
    rewrite (crash_after_sync m0 _ m i _ Hm); [by rewrite apply_log_app|].
    by rewrite (app_assoc d [_; _; _] [_]) last_snoc.
Qed.

(** ** The store around a flush *)

(** Changes outside the data area keep the invariant and the objects. *)
Lemma inner_ok_outside hi st st' :
  inner_ok hi st →
  (∀ i, DATA_START <= i < hi → byte_at (content (disk (io st'))) i = byte_at (content (disk (io st))) i) →
  io_read_only (io st') = io_read_only (io st) → file_size (disk (io st)) <= file_size (disk (io st')) →
  files (index st') = files (index st) → allocator st' = allocator st →
  compression st' = compression st → read_only st' = read_only st →
  length (shard_dirty st') = length (shard_dirty st) →
  inner_ok hi st' ∧ objects st' = objects st.
Proof.
  intros Hok Hb Hro Hfs Hf Ha Hc Hr Hl. pose proof Hok as [[Hr1 Hr2] (a & Hal & Ht) He Hsz Hsd].
  assert (∀ k e, files (index st) !! k = Some e → entry_ok (compression st) (io st') e ∧
    entry_data (compression st) (io st') e = entry_data (compression st) (io st) e) as Hent.
  { intros k e Hk. apply entry_ok_frame; [|by eapply He]. intros i Hi. apply Hb.
    destruct Ht as [_ Hlive _ _]. rewrite Forall_forall in Hlive.
    specialize (Hlive _ (extents_elem _ _ _ Hk)). rewrite /covers in Hi. lia. }
  split; [split|].
  - split; congruence.
  - exists a. rewrite Ha Hf. done.
  - rewrite Hf Hc. intros k e Hk. by apply (Hent k).
  - lia.
  - congruence.
  - rewrite /objects Hf Hc. apply map_fmap_ext. intros k e Hk. by apply (Hent k).
Qed.

Record store_ok s : Prop := {
  so_inner : inner_ok (index_region_a s) (inner s);
  so_geo : geometry s;
  so_committed : ∃ sb idx, committed s sb idx;
  so_range : index_in_range (index (inner s));
  so_described : described s (superblock (inner s));
  so_txn : map_Forall (λ _ e, i_created_txn e <= txn_id (superblock (inner s))) (files (index (inner s)));
  so_dirty : dirty (inner s) = false → Forall (λ b, b = false) (shard_dirty (inner s));
}.

Lemma committed_slots s sb idx :
  committed s sb idx → shard_slots (superblock (inner s)) = shard_slots sb ∧
  txn_id (superblock (inner s)) = txn_id sb ∧ sb_valid sb ∧ slots_wf (shard_slots sb) ∧
  Forall slot_in_range (shard_slots sb).
Proof.
  intros [(d & p & _ & _ & [Hsb [Hl Hs]] & _) _ Heq _ _ _].
  pose proof (image_sb_sound _ _ Hsb) as Hv.
  split_and!.
  - by apply (f_equal shard_slots) in Heq.
  - by apply (f_equal txn_id) in Heq.
  - done.
  - split; [done|]. apply Forall_lookup. intros i meta Hi. by destruct (Hs i meta Hi) as [? _].
  - apply (sbr_slots _ (sv_range _ Hv)).
Qed.

Lemma slots_hold_in_range s m slots idx :
  geometry s → slots_hold s m slots idx → Forall slot_in_range slots.
Proof.
  intros Hg [_ Hs]. apply Forall_lookup. intros i meta Hi.
  destruct (Hs i meta Hi) as (? & (? & ?) & _). destruct Hg. split; lia.
Qed.

(** Clean shards hold their buckets in the file as it is. *)
Lemma committed_settled s sb idx :
  geometry s → committed s sb idx → settled s (shard_dirty (inner s)) 0 (inner s).
Proof.
  intros Hg Hcm. pose proof (committed_slots _ _ _ Hcm) as (Hslots & _).
  destruct Hcm as [(d & p & (Hlog & _ & _) & Hp & [_ Hs] & _) Hc _ Hclean _ _].
  intros j meta Hj Hor. destruct Hor as [?|Hcl]; [lia|]. rewrite -(Hclean j Hcl).
  rewrite Hslots in Hj.
  assert (slots_hold s (content (disk (io (inner s)))) (shard_slots sb) idx) as [_ Hs'].
  { eapply slots_hold_ext; [|exact Hs]. intros i meta' x Hi Hx.
    rewrite -/(file_of s) Hc Hlog apply_log_app. apply apply_log_avoids.
    eapply Forall_impl; [exact Hp|]. intros [off data|]; simpl; [|done]. intros Hw Hin.
    assert (0 <= Z.of_nat i < 256) as Hi' by (destruct Hs as [Hl _]; apply lookup_lt_Some in Hi; lia).
    pose proof (so_bounds s Hg (active_slot meta') _ Hi'). lia. }
  by apply Hs'.
Qed.

(** Writes to inactive slots leave the protected bytes alone. *)
Lemma inactive_avoids s flags slots e x :
  geometry s → length slots = 256%nat → Forall (λ mt, 0 <= active_slot mt <= 1) slots →
  inactive_write s 0 flags slots e → protected s slots x → avoids x e.
Proof.
  intros Hg Hl Hact (i & meta & _ & Hi & _ & Hw) Hx. destruct e as [off data|]; [|done].
  simpl in *. intros Hin.
  assert (0 <= Z.of_nat i < 256) as Hi' by (apply lookup_lt_Some in Hi; lia).
  pose proof (so_bounds s Hg (1 - active_slot meta) _ Hi') as Hb.
  assert (0 <= active_slot meta <= 1) as Ha by (by eapply Forall_lookup_1 in Hact).
  pose proof Hg as [Hra _ _ _ _ _ _ _]. change DATA_START with 8192 in *.
  destruct Hx as [Hx|(j & meta' & Hj & Hx)]; [change DATA_START with 8192 in Hx; lia|].
  assert (0 <= Z.of_nat j < 256) as Hj' by (apply lookup_lt_Some in Hj; lia).
  destruct (so_disjoint s Hg (1 - active_slot meta) (active_slot meta') _ _ Hi' Hj') as [?|?]; [|lia..].
  destruct (decide (i = j)) as [->|]; [right|left; lia]. simplify_eq.
  destruct (decide (active_slot meta = 0)) as [->|]; [done|]. by replace (active_slot meta) with 1 by lia.
Qed.

Lemma data_avoids s slots e x :
  geometry s → length slots = 256%nat →
  write_in DATA_START (index_region_a s) e → protected s slots x → avoids x e.
Proof.
  intros Hg Hl Hw Hx. destruct e as [off data|]; [|done]. simpl in *. intros Hin.
  destruct Hx as [Hx|(j & meta' & Hj & Hx)]; [lia|].
  assert (0 <= Z.of_nat j < 256) as Hj' by (apply lookup_lt_Some in Hj; lia).
  pose proof (so_bounds s Hg (active_slot meta') _ Hj'). lia.
Qed.

(** A commit only writes the superblock copies. *)
Lemma commit_avoids b t x : zlen b = 4096 → commit_tail b t → DATA_START <= x → Forall (avoids x) t.
Proof.
  intros Hb Ht Hx. change DATA_START with 8192 in Hx.
  assert (¬ 0 <= x < 0 + zlen b ∧ ¬ SUPERBLOCK_SIZE <= x < SUPERBLOCK_SIZE + zlen b ∧
    ¬ 0 <= x < 0 + zlen (@nil byte) ∧ ¬ SUPERBLOCK_SIZE <= x < SUPERBLOCK_SIZE + zlen (@nil byte))
    as (?&?&?&?).
  { rewrite Hb zlen_nil. change SUPERBLOCK_SIZE with 4096. lia. }
  rewrite /commit_tail /commit_events !elem_of_cons elem_of_nil in Ht.
  destruct Ht as [->|[->|[->|[->|[->|[->|[->|[]]]]]]]]; by repeat constructor.
Qed.

Lemma described_commit s slots t c :
  described s (superblock (inner s)) →
  described s (with_checksum c (commit_superblock t (with_shard_slots slots (superblock (inner s))))).
Proof. by intros []. Qed.

(** A prefix of what a commit did is what a shorter commit did. *)
Lemma commit_tail_prefix b t t' : commit_tail b t → t' `prefix_of` t → commit_tail b t'.
Proof.
  rewrite /commit_tail /commit_events !elem_of_cons !elem_of_nil. intros Ht [k ->].
  destruct t' as [|x1 [|x2 [|x3 [|x4 [|x5 t']]]]]; simpl in *; [tauto|..].
  all: repeat (destruct Ht as [Ht|Ht]; [simplify_eq; tauto|]); try done.
Qed.

(** Kept bytes are in the data area. *)
Lemma kept_in_data s idx x : index_ok (index_region_a s) idx → kept_byte s idx x →
  DATA_START <= x < index_region_a s.
Proof.
  intros [(a & [_ Hl _ _]) _ _] (k & e & k' & e' & Hk & _ & _ & Hx).
  rewrite Forall_forall in Hl. specialize (Hl _ (extents_elem _ _ _ Hk)). rewrite /covers in Hx. lia.
Qed.

Lemma inactive_avoids_data s flags slots e x :
  geometry s → length slots = 256%nat → inactive_write s 0 flags slots e →
  x < index_region_a s → avoids x e.
Proof.
  intros Hg Hl (i & meta & _ & Hi & _ & Hw) Hx. destruct e as [off data|]; [|done]. simpl in *.
  assert (0 <= Z.of_nat i < 256) as Hi' by (apply lookup_lt_Some in Hi; lia).
  pose proof (so_bounds s Hg (1 - active_slot meta) _ Hi'). lia.
Qed.

(** A crash while only data and inactive slots have been written. *)
Lemma crash_before_commit s sb idx q flags m :
  geometry s → committed s sb idx → described s (superblock (inner s)) →
  Forall (inactive_write s 0 flags (shard_slots sb)) q →
  crash_image (base (file_of s)) (log (file_of s) ++ q) m → survives s m sb idx.
Proof.
  intros Hg Hcm Hde Hq Hm. pose proof (committed_slots _ _ _ Hcm) as (_ & _ & _ & [Hl Hact] & _).
  destruct Hcm as [(d & p & (Hlog & Hns & Hd) & Hp & Himg & Hkept) Hc Heq _ Hix Htx].
  assert (durable (log (file_of s) ++ q) d (p ++ q)) as Hdur.
  { split_and!; [by rewrite Hlog app_assoc| |done]. apply Forall_app. split; [done|].
    eapply Forall_impl; [exact Hq|]. by intros [] (? & ? & _ & _ & _ & Hw). }
  split; [|by apply (described_eq _ (superblock (inner s)))|done|done|].
  - eapply image_holds_ext; [|exact Himg]. intros x Hx.
    eapply crash_image_avoids; [exact Hdur|exact Hm|]. apply Forall_app. split.
    + eapply Forall_impl; [exact Hp|]. intros e He. by eapply data_avoids.
    + eapply Forall_impl; [exact Hq|]. intros e He. by eapply inactive_avoids.
  - intros x Hx. rewrite (crash_image_avoids _ _ _ _ _ x Hdur Hm).
    + rewrite Hc Hlog apply_log_app (apply_log_avoids _ p) //. by apply Hkept.
    + apply Forall_app. split; [by apply Hkept|]. eapply Forall_impl; [exact Hq|].
      intros e He. eapply inactive_avoids_data; [done..|]. by destruct (kept_in_data s idx x Hix Hx).
Qed.

(** Prefixes of the log a flush leaves. *)
Lemma flush_prefix (l0 ws t l : list DiskEvent) :
  l0 `prefix_of` l → l `prefix_of` (l0 ++ ws ++ [Sync] ++ t) →
  (∃ q, l = l0 ++ q ∧ q `prefix_of` ws) ∨ (∃ t', l = l0 ++ ws ++ [Sync] ++ t' ∧ t' `prefix_of` t).
Proof.
  intros [q ->] Hl. apply prefix_app_inv in Hl. destruct Hl as [k Hk].
  apply app_eq_inv in Hk as [(z & -> & Hz)|(z & -> & Hz)].
  - left. exists q. split; [done|]. by eexists.
  - destruct z as [|x z]; simpl in Hz.
    + left. exists ws. by rewrite app_nil_r.
    + right. simplify_eq. exists z. split; [done|]. by eexists.
Qed.

(** ** [flush_index] *)

(** The store with a new [Inner] and callback log: same geometry. *)
Definition same_regions s s' : Prop :=
  index_region_a s' = index_region_a s ∧ index_region_b s' = index_region_b s ∧
  rs_index_slot_capacity s' = rs_index_slot_capacity s ∧ shard_slot_size s' = shard_slot_size s.

Lemma image_holds_regions s s' m sb idx :
  same_regions s s' → image_holds s m sb idx → image_holds s' m sb idx.
Proof.
  intros (Ha & Hb & Hc & Hd). by rewrite /image_holds /slots_hold /slot_holds /so Ha Hb Hd.
Qed.

(** What a flush that returned has achieved. *)
Record flushed s s' sb : Prop := {
  fl_ok : store_ok s';
  fl_committed : ∃ sb', committed s' sb' (index (inner s')) ∧ txn_id sb' = txn_id sb + 1;
  fl_index : index (inner s') = index (inner s);
  fl_objects : objects (inner s') = objects (inner s);
  fl_allocator : allocator (inner s') = allocator (inner s);
  fl_clean : needs_flush s' = false ∧ Forall (λ b, b = false) (shard_dirty (inner s'));
  fl_regions : same_regions s s';
  fl_compression : compression (inner s') = compression (inner s);
  fl_max_key : max_key_length (inner s') = max_key_length (inner s);
  fl_handle : same_handle (io (inner s)) (io (inner s'));
  fl_callbacks : flush_callbacks s' = flush_callbacks s ∧
    callback_log s' = callback_log s ++ ((λ cb, (cb, txn_id sb + 1)) <$> flush_callbacks s);
}.

Definition crash_safe s s' sb idx : Prop :=
  log (file_of s) `prefix_of` log (file_of s') ∧
  ∀ l m, log (file_of s) `prefix_of` l → l `prefix_of` log (file_of s') →
    crash_image (base (file_of s)) l m →
    survives s m sb idx ∨
    ∃ sb', txn_id sb' = txn_id sb + 1 ∧ survives s m sb' (index (inner s)).

(** The log once the shards are written and synced. *)
Definition synced s (ws : list DiskEvent) : list DiskEvent := log (file_of s) ++ ws ++ [Sync].

(** The state between the first fsync and the superblock writes: the old
    image and the new shards are both durable. *)
Record commit_ready s sb idx ws (d1 : DeviceIo) b new : Prop := {
  cr_before q m : q `prefix_of` ws → crash_image (base (file_of s)) (log (file_of s) ++ q) m →
    survives s m sb idx;
  cr_content : content (disk d1) = apply_log (base (file_of s)) (synced s ws);
  cr_frame : dev_frame (index_region_a s) (file_size (file_of s)) (io (inner s)) d1;
  cr_old : image_holds s (content (disk d1)) sb idx;
  cr_new : slots_hold s (content (disk d1)) (shard_slots new) (index (inner s));
  cr_txn : txn_id new = txn_id sb + 1;
  cr_bytes : zlen b = 4096 ∧ sb_from_bytes b = Ok new;
  cr_described : described s new;
}.

Section commit.
Context (s : RawObjectStore) (sb : Superblock) (idx : DeviceIndex) (ws : list DiskEvent)
  (d1 : DeviceIo) (b : list byte) (new : Superblock).
Hypotheses (Hok : store_ok s) (Hcm : committed s sb idx) (Hr : commit_ready s sb idx ws d1 b new).

Lemma synced_last : last (synced s ws) = Some Sync.
Proof using Type. by rewrite /synced app_assoc last_snoc. Qed.

Lemma new_txn_bound : map_Forall (λ _ e, i_created_txn e < txn_id new) (files (index (inner s))).
Proof using All.
  intros k e Hk. pose proof (so_txn _ Hok k e Hk) as Hle. simpl in Hle.
  pose proof (committed_slots _ _ _ Hcm) as (_ & Ht & _). pose proof (cr_txn _ _ _ _ _ _ _ Hr). lia.
Qed.

Lemma memory_index_ok : index_ok (index_region_a s) (index (inner s)).
Proof using Hok. destruct Hok. by apply inner_index_ok. Qed.

(** A crash inside the commit leaves the old or the new index. *)
Lemma commit_survives t m :
  commit_tail b t → crash_image (base (file_of s)) (synced s ws ++ t) m →
  survives s m sb idx ∨ survives s m new (index (inner s)).
Proof using All.
  intros Ht Hm. pose proof Hr as [Hbefore Hcont Hfr Hold Hnew Htxn [Hbl Hfrom] Hde].
  assert (∀ x, DATA_START <= x < index_region_a s → byte_at m x = byte_at (content (file_of s)) x) as Hdata.
  { intros x Hx. rewrite (crash_suffix_avoids (base (file_of s)) (synced s ws) t m x) // -?Hcont.
    - apply (frame_bytes _ _ _ _ Hfr). lia.
    - apply synced_last.
    - eapply commit_avoids; [done..|]. lia. }
  rewrite Hcont in Hold Hnew.
  destruct (commit_crash s (base (file_of s)) (synced s ws) sb idx new (index (inner s)) b t m)
    as [?|?]; try done; [by apply so_geo|by apply synced_last|lia|left|right].
  - destruct Hcm. split; try done; [by eapply described_eq, so_described|].
    intros x Hx. by eapply Hdata, kept_in_data.
  - split; [done..|apply memory_index_ok|apply new_txn_bound|].
    intros x Hx. eapply Hdata, kept_in_data; [|exact Hx]. apply memory_index_ok.
Qed.

Lemma commit_safe s' t :
  log (file_of s') = synced s ws ++ t → commit_tail b t → crash_safe s s' sb idx.
Proof using All.
  intros Hl Ht. split; [rewrite Hl /synced -?app_assoc; by eexists|].
  intros l m Hl1 Hl2 Hm. rewrite Hl /synced -?app_assoc in Hl2.
  destruct (flush_prefix _ _ _ _ Hl1 Hl2) as [(q & -> & Hq)|(t' & -> & Ht')].
  - left. by eapply cr_before.
  - destruct (commit_survives t' m) as [?|?]; [by eapply commit_tail_prefix| |by left|].
    + by rewrite /synced -?app_assoc.
    + right. exists new. split; [by eapply cr_txn|done].
Qed.

(** The store after the commit: [s'] differs in its handle and its flags. *)
Context (s' : RawObjectStore).
Hypotheses (Hregs : same_regions s s')
  (Hsame : same_handle (io (inner s)) (io (inner s')))
  (Hcont : content (file_of s') = apply_log (content (disk d1)) (commit_events b))
  (Hlog : log (file_of s') = synced s ws ++ commit_events b)
  (Hindex : index (inner s') = index (inner s))
  (Halloc : allocator (inner s') = allocator (inner s))
  (Hset : compression (inner s') = compression (inner s) ∧
    max_key_length (inner s') = max_key_length (inner s) ∧ read_only (inner s') = read_only (inner s))
  (Hsb : with_checksum 0 new = with_checksum 0 (superblock (inner s')))
  (Hflags : shard_dirty (inner s') = (λ _, false) <$> shard_dirty (inner s)).

Lemma commit_image : image_holds s (content (file_of s')) new (index (inner s)).
Proof using All.
  destruct Hr as [_ _ _ Hold Hnew _ [Hbl Hfrom] _]. rewrite Hcont /commit_events /=. split.
  - by apply image_sb_both.
  - destruct Hok. apply slots_hold_write_sb; [done..|rewrite Hbl; change SUPERBLOCK_SIZE with 4096; lia|].
    apply slots_hold_write_sb; [done|done|lia|done].
Qed.

Lemma commit_base : content (file_of s') = apply_log (base (file_of s')) (log (file_of s')).
Proof using All.
  destruct Hsame as (_ & _ & _ & Hb & _). rewrite /file_of in Hb |- *. rewrite Hb.
  rewrite -/(file_of s) -/(file_of s') Hlog Hcont apply_log_app (cr_content _ _ _ _ _ _ _ Hr). done.
Qed.

Lemma commit_committed : committed s' new (index (inner s')).
Proof using All.
  pose proof Hregs as (Ha & _). rewrite Hindex.
  split; rewrite ?Ha; [|by apply commit_base|done|by rewrite Hindex|apply memory_index_ok|apply new_txn_bound].
  exists (log (file_of s')), []. split_and!; [|done| |done].
  - split_and!; [by rewrite app_nil_r|constructor|right].
    by rewrite Hlog /commit_events (app_assoc _ [_; _; _] [_]) last_snoc.
  - rewrite -commit_base. eapply image_holds_regions; [done|]. apply commit_image.
Qed.

Lemma commit_data i : DATA_START <= i < index_region_a s →
  byte_at (content (file_of s')) i = byte_at (content (file_of s)) i.
Proof using All.
  intros Hi. destruct Hr as [_ _ Hfr _ _ _ [Hbl _] _].
  rewrite Hcont apply_log_avoids; [apply (frame_bytes _ _ _ _ Hfr); lia|].
  eapply commit_avoids; [done| |by apply Hi]. rewrite /commit_tail !elem_of_cons. tauto.
Qed.

Lemma commit_store_ok : store_ok s' ∧ objects (inner s') = objects (inner s).
Proof using All.
  pose proof Hok as [Hin Hg _ Hrng Hde Htx _]. destruct Hset as (Hc & Hm & Hro).
  pose proof Hregs as (Ha & Hb & Hca & Hsl). pose proof Hsame as (_ & Hdir & Hsro & _ & _ & Hfs).
  destruct (inner_ok_outside (index_region_a s) (inner s) (inner s')) as [Hin' Hobj]; try done.
  - intros i Hi. by apply commit_data.
  - rewrite Hfs. lia.
  - by rewrite Hindex.
  - by rewrite Hflags length_fmap.
  - split; [|done]. split.
    + by rewrite Ha.
    + destruct Hg. split; rewrite ?Ha ?Hb ?Hca ?Hsl ?Hfs ?Hdir; done.
    + eauto using commit_committed.
    + by rewrite Hindex.
    + eapply described_eq; [exact Hsb|]. destruct (cr_described _ _ _ _ _ _ _ Hr).
      split; rewrite /file_of ?Ha ?Hca ?Hm ?Hc ?Hfs //.
    + rewrite Hindex. intros k e Hk. apply (f_equal txn_id) in Hsb as Ht. simpl in Ht.
      pose proof (new_txn_bound k e Hk). simpl in *. lia.
    + intros _. rewrite Hflags. by apply Forall_fmap, Forall_true.
Qed.
End commit.

Lemma flush_index_spec s sb idx :
  store_ok s → committed s sb idx → sector_atomic (env (file_of s)) →
  txn_id sb + 1 < two64 →
  let '(s', r) := flush_index s in
  crash_safe s s' sb idx ∧
  match r with
  | Ok _ => flushed s s' sb
  | Err e => overflows (index (inner s)) (shard_slot_size s) e ∨
      ¬ no_faults (env (file_of s))
  | Panic => False
  end.
Proof.
  intros Hok Hcm Hat Htx. pose proof Hok as [Hin Hg _ Hrng Hde Hstx _].
  pose proof (committed_slots _ _ _ Hcm) as (Hslots & Htxn & Hval & Hwf & Hsr).
  pose proof (committed_settled _ _ _ Hg Hcm) as Hset.
  pose proof Hin as [[Hro Hiro] _ _ _ Hsd].
  assert (0 <= txn_id sb) as Htx0.
  { destruct (sv_range _ Hval) as [_ _ _ Hu _ _ _ _]. rewrite !Forall_cons in Hu. u64. }
  rewrite /flush_index {1}/sm_bind /on_inner /sm_zoom.
  rewrite /flush_inner Hro {1}/sm_bind.
  pose proof (flush_shards_spec s Hg (shard_dirty (inner s)) (shard_dirty (inner s)) 0 0 (inner s)) as Hfs.
  ospecialize* Hfs; [done|done|by rewrite Hslots|done|rewrite /zlen Hsd; done|done|done|].
  destruct (flush_shards _ _ _ _ _) as [st1 r1].
  destruct Hfs as (d1 & slots1 & ws & -> & [Hfr Hlog Hcont Hina] & Hr1). rewrite Hslots in Hina.
  assert (∀ q m, q `prefix_of` ws → crash_image (base (file_of s)) (log (file_of s) ++ q) m →
    survives s m sb idx) as Hbefore.
  { intros q m [k Hk] Hm. eapply crash_before_commit; [done..| |exact Hm].
    rewrite Hk in Hina. by apply Forall_app in Hina as [? _]. }
  assert (∀ s', log (file_of s') = log (file_of s) ++ ws → crash_safe s s' sb idx) as Hearly.
  { intros s' Hl. split; [rewrite Hl; by eexists|]. intros l m [q ->] Hpre Hm. left. eapply (Hbefore q); [|done].
    rewrite Hl in Hpre. by apply prefix_app_inv in Hpre. }
  destruct r1 as [bw|e|]; [| |done].
  2: { split; [by apply Hearly|]. done. }
  rewrite {1}/sm_bind /on_io /sm_zoom /sync. cbn [io set_superblock set_io].
  rewrite (frame_ro _ _ _ _ Hfr) Hiro (frame_env _ _ _ _ Hfr).
  destruct (sync_fault (env (disk (io (inner s))))) eqn:Hsf.
  { split; [apply Hearly; done|]. right. intros [_ _ _ Hn]. by rewrite /file_of Hsf in Hn. }
  set (d2 := with_disk (file_sync (disk d1)) d1).
  rewrite {1}/sm_bind /sm_modify {1}/sm_bind.
  cbn [superblock set_superblock set_io].
  rewrite Htxn wadd_small; [|u64].
  set (sb1 := commit_superblock (txn_id sb + 1) (with_shard_slots slots1 (superblock (inner s)))).
  assert (sb_valid (with_checksum 0 sb1)) as Hval1.
  { apply (commit_valid sb); [done|by destruct Hcm|apply Hr1|by eapply slots_hold_in_range|u64]. }
  destruct (sb_round_trip _ Hval1) as (b & c & Hb & Hbl & Hfrom).
  rewrite sb_to_bytes_checksum in Hb. rewrite with_checksum_twice in Hfrom.
  rewrite {1}Hb. cbn iota.
  assert (file_size (disk d1) = file_size (disk (io (inner s)))) as Hfsz.
  { pose proof (frame_size _ _ _ _ Hfr). lia. }
  pose proof (write_superblocks_spec b d2) as Hws. ospecialize* Hws.
  { by rewrite /d2 /= (frame_ro _ _ _ _ Hfr). }
  { done. }
  { rewrite /d2 /= Hfsz. destruct Hg as [Ha _ _ [Hc _] He _ _ _]. change DATA_START with 8192 in Ha. lia. }
  { by rewrite /d2 /= (frame_env _ _ _ _ Hfr). }
  assert (commit_ready s sb idx ws d1 b (with_checksum c sb1)) as Hready.
  { assert (content (disk d1) = apply_log (base (file_of s)) (synced s ws)) as HM1.
    { rewrite /synced !apply_log_app -(cm_content _ _ _ Hcm) Hcont. done. }
    split; try done; [|by apply described_commit].
    assert (content (disk d1) = apply_log (base (file_of s)) (log (file_of s) ++ ws)) as ->.
    { by rewrite HM1 /synced app_assoc (apply_log_app _ (_ ++ _)). }
    eapply su_image, (Hbefore ws); [done|]. apply crash_image_all. }
  rewrite {1}/sm_bind. cbn [io set_superblock set_io].
  destruct (write_superblocks b d2) as [d3 r3].
  destruct Hws as (t & Hsame3 & Hl3 & Hc3 & Ht & Hr).
  assert (log (disk d3) = synced s ws ++ t) as Hlog3 by by rewrite Hl3 /d2 /= Hlog /synced -?app_assoc.
  destruct Hr as [[-> ->]|[(k & msg & ->) Hnf]].
  2: { split; [by eapply commit_safe|]. right. intros Hn. apply Hnf.
       by rewrite /d2 /= (frame_env _ _ _ _ Hfr). }
  split; [by eapply commit_safe|].
  match goal with |- flushed s ?s2 sb => set (s' := s2) end.
  assert (same_handle (io (inner s)) d3) as Hsame.
  { eapply same_handle_trans; [|exact Hsame3]. destruct Hfr. by split_and!. }
  assert (committed s' (with_checksum c sb1) (index (inner s'))) as Hcm' by by eapply commit_committed.
  destruct (commit_store_ok s sb idx ws d1 b (with_checksum c sb1) Hok Hcm Hready s') as [Hok' Hobj']; try done.
  split; try done; [by eauto|].
  split; [done|]. simpl. apply Forall_fmap, Forall_true. done.
Qed.
End flush.
