(* ===== verification/FormatFacts.v ===== *)
(** * A formatted device

    [format_with_options] on a regular file leaves a durable image with an
    empty index, and returns a store that satisfies the store invariant. *)

From S2P Require Import Prelude.
From S2P Require Import Config.
From S2P Require Import Device.
From S2P Require Import Allocator.
From S2P Require Import Extent.
From S2P Require Import Streaming.
From S2P Require Import Index.
From S2P Require Import Superblock.
From S2P Require Import Inner.
From S2P Require Import InnerFacts.
From S2P Require Import RawStore.
From S2P Require Import StoreFacts.
From S2P Require Import Flush.

Section formatting.
Context `{Crc32cLaws, CodecLaws, BincodeShardLaws, BincodeSuperblockLaws}.
Implicit Types (d : DeviceIo) (opts : FormatOptions).

(** A buffered write inside the file. *)
Lemma buffered_write off data d :
  io_read_only d = false → direct d = false → off + zlen data <= file_size (disk d) →
  let '(d', r) := pwrite off data d in
  same_handle d d' ∧
  (r = Ok tt ∧ log (disk d') = log (disk d) ++ [Write off data] ∧
     content (disk d') = write_bytes off data (content (disk d)) ∨
   (∃ k m, r = Err (Io k m)) ∧ ¬ no_faults (env (disk d))).
Proof.
  intros Hro Hdir Hsz. rewrite /pwrite Hro Hdir /write_all_at.
  destruct (wr_fault (env (disk d)) off data) as [k|] eqn:Hf.
  - assert (zlen (ztake k data) <= zlen data).
    { rewrite /zlen /ztake length_take. lia. }
    split; [split_and!; simpl; try done; lia|right]. split; [by eauto|]. intros [_ _ Hw _]. by rewrite Hw in Hf.
  - split; [split_and!; simpl; try done; lia|by left].
Qed.

(** The writes of the shard loop. *)
Definition shard_writes (n : nat) (i region_a sz : Z) (bytes : list byte) : list DiskEvent :=
  (λ j, Write (region_a + j * sz) bytes) <$> seqZ i (Z.of_nat n).

Lemma shard_writes_S n i region_a sz bytes :
  shard_writes (S n) i region_a sz bytes =
  Write (region_a + i * sz) bytes :: shard_writes n (i + 1) region_a sz bytes.
Proof.
  rewrite /shard_writes seqZ_cons; [|lia]. rewrite /= -Z.add_1_r. do 3 f_equal. lia.
Qed.

Lemma format_shards_spec n i region_a sz bytes d :
  io_read_only d = false → direct d = false → 0 <= i → 0 <= region_a → 0 < sz → zlen bytes <= sz →
  region_a + (i + Z.of_nat n) * sz <= file_size (disk d) → file_size (disk d) < two64 →
  let '(d', r) := format_shards n i region_a sz bytes d in
  same_handle d d' ∧
  (r = Ok tt ∧ log (disk d') = log (disk d) ++ shard_writes n i region_a sz bytes ∧
     content (disk d') = apply_log (content (disk d)) (shard_writes n i region_a sz bytes) ∨
   (∃ k m, r = Err (Io k m)) ∧ ¬ no_faults (env (disk d))).
Proof.
  revert i d. induction n as [|n IH]; intros i d Hro Hdir Hi Hra Hsz Hb Hfs Hu.
  { simpl. split; [by split_and!|left]. by rewrite app_nil_r. }
  assert (0 <= i * sz ∧ i * sz + sz <= (i + Z.of_nat (S n)) * sz) as [Hi1 Hi2] by nia.
  cbn [format_shards]. rewrite wmul_small; [|u64]. rewrite wadd_small; [|u64].
  pose proof (buffered_write (region_a + i * sz) bytes d Hro Hdir ltac:(lia)) as Hw.
  rewrite {1}/sm_bind. destruct (pwrite _ _ d) as [d1 r1]. destruct Hw as [Hsame Hw].
  pose proof Hsame as (He & Hd & Hr & Hba & Hlk & Hfs1).
  destruct Hw as [(-> & Hl1 & Hc1)|[(k & m & ->) Hnf]]; [|split; [done|right; split; [by eauto|done]]].
  specialize (IH (i + 1) d1). ospecialize* IH; rewrite ?Hr ?Hd ?Hfs1 //; [lia|lia|].
  destruct (format_shards n _ _ _ _ d1) as [d' r]. destruct IH as [Hsame' IH].
  split; [by eapply same_handle_trans|]. rewrite shard_writes_S.
  destruct IH as [(-> & Hl & Hc)|[Hr' Hnf]]; [left|right].
  - split; [done|]. rewrite Hl Hl1 Hc Hc1 -app_assoc. done.
  - by rewrite -He.
Qed.

(** Reading a shard back: the other writes are elsewhere. *)
Lemma shard_writes_read n i region_a sz bytes j m :
  0 < sz → zlen bytes <= sz → i <= j < i + Z.of_nat n →
  read_bytes (apply_log m (shard_writes n i region_a sz bytes)) (region_a + j * sz) (zlen bytes) = bytes.
Proof.
  intros Hsz Hb. revert i m. induction n as [|n IH]; intros i m Hj; [lia|].
  rewrite shard_writes_S /=. destruct (decide (i = j)) as [->|Hne]; [|apply IH; lia].
  etrans; [|apply (read_bytes_write_eq m (region_a + j * sz) bytes)].
  apply read_bytes_ext. intros x Hx. apply apply_log_avoids, Forall_fmap, Forall_forall.
  intros l Hl%elem_of_seqZ. simpl. intros Hin. nia.
Qed.

(** The options a caller can give; [usize] and [u64] fields. *)
Record options_ok opts : Prop := {
  oo_size : 0 <= fo_device_size opts < two64;
  oo_slot : 0 <= fo_index_slot_size opts < 2 ^ 40;
  oo_key : 0 < fo_max_key_length opts;
  oo_direct : fo_direct_io opts = true → fo_device_size opts mod 4096 = 0;
}.

Lemma from_u8_as_u8 c : from_u8 (compression_as_u8 c) = Ok c.
Proof. by destruct c. Qed.

Lemma compression_u8_range c : 0 <= compression_as_u8 c < 256.
Proof. by destruct c. Qed.

Lemma format_sb_valid opts region_a key bytes crc :
  options_ok opts → is_u64 region_a → 0 <= key < 2 ^ 32 → 0 <= zlen bytes < 2 ^ 32 → 0 <= crc < 2 ^ 32 →
  sb_valid (format_superblock opts region_a key bytes crc).
Proof.
  intros [Hs Ho _ _] Ha Hk Hb Hc. split; try done. split; try done.
  - by simpl; destruct (fo_direct_io opts).
  - simpl. pose proof (wrap64_u64 (zlen bytes * NUM_SHARDS)).
    rewrite /wmul. repeat (apply Forall_cons; split); try done; u64.
  - simpl. rewrite /as_u32 Z.mod_small //. repeat (apply Forall_cons; split); done.
  - apply compression_u8_range.
  - apply Forall_forall. intros x Hx. cbn [format_superblock shard_slots] in Hx.
    apply elem_of_replicate_inv in Hx as ->. by rewrite /as_u32 Z.mod_small.
Qed.

(** A store over the formatted device, before it is used. *)
Definition formatted_store opts d bytes crc : RawObjectStore :=
  let region_a := fo_device_size opts - fo_index_slot_size opts * 2 in
  let sz := fo_index_slot_size opts / NUM_SHARDS in
  let key := Z.min (fo_max_key_length opts) (sat_sub sz 98) in
  mkStore
    (mkInner d index_new (Some (alloc_new DATA_START region_a BLOCK_ALIGNMENT))
       (format_superblock opts region_a key bytes crc) false false
       (replicate (Z.to_nat NUM_SHARDS) false) 0 key (fo_compression opts))
    region_a (fo_device_size opts - fo_index_slot_size opts) (fo_index_slot_size opts) sz 0 [] [].

(** The sizes the checks guarantee. *)
Lemma format_sizes opts :
  options_ok opts → validate_index_slot_size (fo_index_slot_size opts) = Ok tt →
  min_device_size (fo_index_slot_size opts) <= fo_device_size opts →
  let slot := fo_index_slot_size opts in
  let sz := slot / NUM_SHARDS in
  slot mod INDEX_REGION_SIZE = 0 ∧ 0 < slot ∧ DATA_START + 4096 <= fo_device_size opts - slot * 2 ∧
  slot = 256 * sz ∧ 65536 <= sz < 2 ^ 32.
Proof.
  intros [Hs Ho _ _]. rewrite /validate_index_slot_size /min_device_size.
  destruct (fo_index_slot_size opts <? INDEX_REGION_SIZE) eqn:E1; [done|]. apply Z.ltb_ge in E1.
  destruct (fo_index_slot_size opts mod INDEX_REGION_SIZE =? 0) eqn:E2; [|done]. apply Z.eqb_eq in E2.
  intros _. change (SUPERBLOCK_REGION + BLOCK_ALIGNMENT) with 12288.
  change INDEX_REGION_SIZE with 16777216 in *. change NUM_SHARDS with 256. change DATA_START with 8192.
  rewrite wmul_small; [|u64]. rewrite wadd_small; [|u64]. intros Hm.
  pose proof (Z.div_mod (fo_index_slot_size opts) 16777216 ltac:(done)) as Hd. rewrite E2 in Hd.
  set (q := fo_index_slot_size opts / 16777216) in *.
  assert (fo_index_slot_size opts / 256 = q * 65536) as Hq.
  { rewrite Hd. replace (16777216 * q + 0) with (q * 65536 * 256) by lia. by rewrite Z.div_mul. }
  cbv zeta. rewrite Hq. split_and!; lia.
Qed.

Lemma formatted_geometry opts d bytes crc :
  options_ok opts → validate_index_slot_size (fo_index_slot_size opts) = Ok tt →
  min_device_size (fo_index_slot_size opts) <= fo_device_size opts →
  file_size (disk d) = fo_device_size opts → direct d = fo_direct_io opts →
  geometry (formatted_store opts d bytes crc).
Proof.
  intros Ho Hv Hm Hf Hd. destruct (format_sizes opts Ho Hv Hm) as (Hm16 & Hpos & Hdat & Hsz & Hszb).
  destruct Ho as [Hs Hsl _ Hdir]. split; simpl; rewrite ?Hf ?Hd; try lia.
  intros Hdi. specialize (Hdir Hdi). change INDEX_REGION_SIZE with (4096 * 4096) in Hm16.
  rewrite Zminus_mod Hdir. assert ((fo_index_slot_size opts * 2) mod 4096 = 0) as ->; [|done].
  apply Z.mod_divide in Hm16; [|done]. apply Z.mod_divide; [done|].
  apply Z.divide_mul_l. etrans; [|exact Hm16]. by apply Z.divide_factor_l.
Qed.
(** The events of a successful format. *)
Definition format_log region_a sz (bytes b : list byte) : list DiskEvent :=
  shard_writes 256 0 region_a sz bytes ++ [Write 0 b; Write SUPERBLOCK_SIZE b; Sync].

Lemma format_device_spec opts region_a sz sb bytes b d :
  io_read_only d = false → direct d = false → 8192 <= region_a → 0 < sz → zlen bytes <= sz →
  region_a + 256 * sz <= file_size (disk d) → file_size (disk d) < two64 →
  sb_to_bytes sb = Ok b → zlen b = 4096 →
  let '(d', r) := format_device opts region_a sz sb bytes d in
  same_handle d d' ∧
  (r = Ok tt ∧ log (disk d') = log (disk d) ++ format_log region_a sz bytes b ∧
     content (disk d') = apply_log (content (disk d)) (format_log region_a sz bytes b) ∨
   (∃ k m, r = Err (Io k m)) ∧ ¬ no_faults (env (disk d))).
Proof.
  intros Hro Hdir Hra Hsz Hb Hfs Hu Hsb Hbl. rewrite /format_device.
  pose proof (format_shards_spec 256 0 region_a sz bytes d Hro Hdir ltac:(lia) ltac:(lia) Hsz Hb ltac:(lia) Hu) as Hf.
  rewrite {1}/sm_bind. change (Z.to_nat NUM_SHARDS) with 256%nat.
  destruct (format_shards _ _ _ _ _ d) as [d1 r1]. destruct Hf as [Hs1 Hf].
  destruct Hf as [(-> & Hl1 & Hc1)|[(k & m & ->) Hnf]]; [|split; [done|right; split; [by eauto|done]]].
  pose proof Hs1 as (He1 & Hd1 & Hr1 & _ & _ & Hfs1).
  rewrite {1}/sm_bind /sm_lift Hsb {1}/sm_bind.
  pose proof (buffered_write 0 b d1) as Hw. ospecialize* Hw; rewrite ?Hr1 ?Hd1 ?Hfs1 //; [lia|].
  destruct (pwrite 0 b d1) as [d2 r2]. destruct Hw as [Hs2 Hw]. rewrite He1 in Hw.
  destruct Hw as [(-> & Hl2 & Hc2)|[(k & m & ->) Hnf]].
  2: { split; [by eapply same_handle_trans|right; split; [by eauto|done]]. }
  pose proof (same_handle_trans _ _ _ Hs1 Hs2) as Hs12. pose proof Hs12 as (He2 & Hd2 & Hr2 & _ & _ & Hfs2).
  rewrite {1}/sm_bind.
  pose proof (buffered_write SUPERBLOCK_SIZE b d2) as Hw. ospecialize* Hw; rewrite ?Hr2 ?Hd2 ?Hfs2 //.
  { change SUPERBLOCK_SIZE with 4096. lia. }
  destruct (pwrite SUPERBLOCK_SIZE b d2) as [d3 r3]. destruct Hw as [Hs3 Hw]. rewrite He2 in Hw.
  pose proof (same_handle_trans _ _ _ Hs12 Hs3) as Hs13. pose proof Hs13 as (He3 & _ & Hr3 & _).
  destruct Hw as [(-> & Hl3 & Hc3)|[(k & m & ->) Hnf]]; [|split; [done|right; split; [by eauto|done]]].
  rewrite /sync Hr3 Hro He3. destruct (sync_fault (env (disk d))) eqn:Hsf.
  { split; [done|right]. split; [by eauto|]. intros [_ _ _ Hn]. congruence. }
  split; [done|left]. split; [done|]. rewrite /format_log apply_log_app. split.
  - by rewrite /= Hl3 Hl2 Hl1 -?app_assoc.
  - by rewrite /= Hc3 Hc2 Hc1.
Qed.

(** The image reads back as the empty index. *)
Lemma format_image s m sb bytes crc b region_a sz c :
  geometry s → index_region_a s = region_a → shard_slot_size s = sz →
  shard_to_bytes (mkShard ∅ ∅) = Ok (bytes, crc) → zlen bytes <= 16 →
  zlen b = 4096 → sb_from_bytes b = Ok (with_checksum c sb) →
  shard_slots sb = replicate 256 (mkSlot 0 (zlen bytes) crc) →
  image_holds s (apply_log m (format_log region_a sz bytes b)) (with_checksum c sb) index_new.
Proof.
  intros Hg <- <- Hsh Hb16 Hbl Hfrom Hslots.
  destruct (slot_size_bounds s Hg) as (_ & Hpos & Htot).
  pose proof Hg as [Ha _ Hsz [_ Hcm] _ _ _ _]. change DATA_START with 8192 in Ha.
  assert (65536 <= shard_slot_size s) as Hsl.
  { change INDEX_REGION_SIZE with (65536 * 256) in Hcm. rewrite -Htot Z.mul_comm in Hcm.
    rewrite Z.mul_mod_distr_r // in Hcm. destruct (decide (shard_slot_size s < 65536)); [|lia].
    rewrite Z.mod_small in Hcm; lia. }
  rewrite /format_log apply_log_app. set (M := apply_log m (shard_writes 256 0 _ _ bytes)).
  cbn [apply_log foldl apply_event]. split.
  { by apply image_sb_both. }
  apply slots_hold_write_sb; [done|done|change SUPERBLOCK_SIZE with 4096; lia|].
  apply slots_hold_write_sb; [done|done|lia|].
  change (shard_slots (with_checksum c sb)) with (shard_slots sb). rewrite Hslots.
  split; [apply length_replicate|]. intros i meta [-> Hi]%lookup_replicate.
  pose proof (zlen_nonneg bytes). rewrite /slot_holds. cbn [active_slot slot_size slot_crc].
  assert (bucket (Z.of_nat i) index_new = mkShard ∅ ∅) as ->.
  { rewrite /bucket /=. by rewrite !map_filter_empty. }
  assert (0 <= crc < 2 ^ 32).
  { rewrite /shard_to_bytes in Hsh. destruct (ser_shard _) as [x|]; [|done]. injection Hsh as <- <-. apply crc32c_range. }
  split; [lia|]. split; [lia|]. destruct (zlen bytes =? 0); [done|].
  rewrite so_eq //; [|lia]. cbn [Z.eqb]. rewrite /M shard_writes_read; [|lia..].
  apply shard_round_trip; [|done]. split; apply map_Forall_empty.
Qed.

(** The formatted store, from the device after the last write. *)
Lemma formatted_ok opts d bytes crc b c :
  let region_a := fo_device_size opts - fo_index_slot_size opts * 2 in
  let s := formatted_store opts d bytes crc in
  options_ok opts → validate_index_slot_size (fo_index_slot_size opts) = Ok tt →
  min_device_size (fo_index_slot_size opts) <= fo_device_size opts →
  fo_max_key_length opts <= MAX_KEY_LENGTH_HARD_CEILING →
  shard_to_bytes (mkShard ∅ ∅) = Ok (bytes, crc) → zlen bytes <= 16 →
  zlen b = 4096 → sb_from_bytes b = Ok (with_checksum c (superblock (inner s))) →
  file_size (disk d) = fo_device_size opts → direct d = fo_direct_io opts → io_read_only d = false →
  base (disk d) = ∅ → log (disk d) = format_log region_a (shard_slot_size s) bytes b →
  content (disk d) = apply_log ∅ (format_log region_a (shard_slot_size s) bytes b) →
  store_ok s ∧ committed s (with_checksum c (superblock (inner s))) index_new.
Proof.
  intros region_a s Ho Hv Hm Hk Hsh Hb16 Hbl Hfrom Hfs Hdir Hro Hbase Hlog Hcont.
  assert (geometry s) as Hg by by apply formatted_geometry.
  destruct (format_sizes opts Ho Hv Hm) as (Hm16 & Hpos & Hdat & Hsz & Hszb).
  pose proof Ho as [Hs Hsl Hk0 _].
  assert (is_u64 region_a) as Hru by (change DATA_START with 8192 in Hdat; subst region_a; u64).
  assert (index_in_range index_new) as Hrng.
  { intros i. split; intros k x [Hx _]%map_lookup_filter_Some; by rewrite lookup_empty in Hx. }
  assert (tiles DATA_START region_a (alloc_new DATA_START region_a BLOCK_ALIGNMENT) (extents ∅)) as Ht.
  { rewrite /extents map_to_list_empty. apply tiles_new; [done|done|lia|u64]. }
  assert (inner_ok region_a (inner s)) as Hin.
  { split; simpl; try done.
    - eexists. split; [done|exact Ht].
    - rewrite Hfs. subst region_a. lia. }
  set (sb := superblock (inner s)) in *.
  assert (shard_slots sb = replicate 256 (mkSlot 0 (zlen bytes) crc)) as Hslots.
  { pose proof (zlen_nonneg bytes). change (shard_slots sb) with (replicate 256 (mkSlot 0 (as_u32 (zlen bytes)) crc)).
    rewrite /as_u32 Z.mod_small //. lia. }
  assert (described s sb) as Hde.
  { split; simpl; try done.
    - rewrite /file_of /= Hfs. lia.
    - change MAX_KEY_LENGTH_HARD_CEILING with 65536 in Hk. change NUM_SHARDS with 256 in *.
      rewrite /as_u32 Z.mod_small /sat_sub; [|lia]. split; [done|]. lia.
    - apply from_u8_as_u8.
    - by destruct (fo_direct_io opts).
    - destruct (fo_direct_io opts) eqn:Hd; [|done]. intros _. apply (ge_direct _ Hg). by rewrite /= Hdir. }
  assert (committed s (with_checksum c sb) index_new) as Hcm.
  { split; simpl; try done.
    - exists (log (disk d)), []. rewrite /file_of /= Hlog Hbase. split_and!; try done.
      + split_and!; [by rewrite app_nil_r|constructor|right]. rewrite /format_log.
        by rewrite (app_assoc _ [_; _] [_]) last_snoc.
      + by eapply format_image.
    - by rewrite /file_of /= Hlog Hbase Hcont.
    - split; [by eexists|done|done]. }
  split; [|done]. split; try done; [by eexists _, _|]. intros _.
  change (shard_dirty (inner s)) with (replicate 256 false). by apply Forall_replicate.
Qed.

Definition format_error (f : DiskFile) opts (e : RawStoreError) : Prop :=
  match e with
  | InvalidIndexSlotSize n => n = fo_index_slot_size opts ∧ (n < INDEX_REGION_SIZE ∨ n mod INDEX_REGION_SIZE ≠ 0)
  | MaxKeyLengthTooLarge n m => n = fo_max_key_length opts ∧ m = MAX_KEY_LENGTH_HARD_CEILING ∧ m < n
  | DeviceTooSmall n m => n = fo_device_size opts ∧ m = min_device_size (fo_index_slot_size opts) ∧ n < m
  | DeviceLocked _ => locked f = true
  | Io _ _ => ¬ no_faults (env f)
  | _ => False
  end.

Lemma format_spec opts f :
  options_ok opts → block_device f = false →
  let '(f', r) := format_with_options opts f in
  match r with
  | Ok s => store_ok s ∧ file_of s = f' ∧ index (inner s) = index_new ∧ dirty (inner s) = false ∧
      (∃ sb, committed s sb index_new) ∧
      compression (inner s) = fo_compression opts ∧ direct (io (inner s)) = fo_direct_io opts ∧
      env (file_of s) = env f ∧ ∃ bytes, s = formatted_store opts (io (inner s)) bytes (crc32c bytes)
  | Err e => format_error f opts e
  | Panic => False
  end.
Proof.
  intros Ho Hblk. rewrite /format_with_options.
  destruct (validate_index_slot_size (fo_index_slot_size opts)) as [[]|e|] eqn:Hv.
  2: { rewrite /validate_index_slot_size in Hv. destruct (_ || _) eqn:E; [|done]. injection Hv as <-.
       split; [done|]. apply orb_true_iff in E as [E|E]; [left; lia|right].
       by apply negb_true_iff, Z.eqb_neq in E. }
  2: { rewrite /validate_index_slot_size in Hv. by destruct (_ || _). }
  destruct (MAX_KEY_LENGTH_HARD_CEILING <? fo_max_key_length opts) eqn:Hk; [apply Z.ltb_lt in Hk; done|].
  apply Z.ltb_ge in Hk.
  destruct (fo_device_size opts <? min_device_size _) eqn:Hm; [apply Z.ltb_lt in Hm; done|].
  apply Z.ltb_ge in Hm. destruct (format_sizes opts Ho Hv Hm) as (Hm16 & Hpos & Hdat & Hsz & Hszb).
  rewrite /dev_create Hblk /open_file /dev_open /open_file.
  destruct (open_fault (env f)) eqn:Hof; [by intros [Hn _ _ _]; rewrite Hn in Hof|]. cbn [env]. rewrite Hof.
  rewrite /acquire_exclusive_lock. cbn [locked]. destruct (locked f) eqn:Hlk; [done|].
  set (d := mkDeviceIo _ false false). pose proof Ho as [Hs Hsl Hk0 _].
  change DATA_START with 8192 in Hdat.
  rewrite wmul_small; [|u64]. rewrite !wsub_small; [|u64..].
  destruct (ser_shard_total (mkShard ∅ ∅)) as (bytes & Hser & _); [split; apply map_Forall_empty|].
  pose proof (ser_shard_empty _ Hser) as Hb16.
  assert (shard_to_bytes (mkShard ∅ ∅) = Ok (bytes, crc32c bytes)) as Hsh by by rewrite /shard_to_bytes Hser.
  rewrite Hsh. pose proof (zlen_nonneg bytes). change NUM_SHARDS with 256 in *.
  set (region_a := fo_device_size opts - _). set (sz := fo_index_slot_size opts / 256) in *.
  set (key := Z.min _ _). set (sb := format_superblock _ _ _ _ _).
  assert (sb_valid sb) as Hval.
  { apply format_sb_valid; [done|subst region_a; u64| |lia|apply crc32c_range].
    change MAX_KEY_LENGTH_HARD_CEILING with 65536 in Hk. subst key. rewrite /sat_sub. lia. }
  destruct (sb_round_trip sb Hval) as (b & c & Hb & Hbl & Hfrom).
  pose proof (format_device_spec opts region_a sz sb bytes b d) as Hf.
  ospecialize* Hf; try done; [lia|lia|lia|simpl; lia|simpl; lia|].
  destruct (format_device _ _ _ _ _ d) as [d' r]. destruct Hf as [Hsame Hf].
  destruct Hsame as (He & Hd & Hr & Hba & Hlk' & Hfs).
  destruct Hf as [(-> & Hl & Hc)|[(k & m & ->) Hnf]]; [|done].
  assert (∀ d2, disk d2 = disk d' → direct d2 = fo_direct_io opts → io_read_only d2 = false →
    let s := formatted_store opts d2 bytes (crc32c bytes) in
    store_ok s ∧ ∃ sb, committed s sb index_new) as Hfin.
  { intros d2 Hd2 Hdir Hro s. destruct (formatted_ok opts d2 bytes (crc32c bytes) b c) as [? ?];
      try done; rewrite ?Hd2 //; try lia. by split; [|eexists]. }
  assert (∀ d2, disk d2 = disk d' → direct d2 = fo_direct_io opts → io_read_only d2 = false →
    let s := formatted_store opts d2 bytes (crc32c bytes) in
    store_ok s ∧ file_of s = disk d2 ∧ index (inner s) = index_new ∧ dirty (inner s) = false ∧
    (∃ sb, committed s sb index_new) ∧ compression (inner s) = fo_compression opts ∧
    direct (io (inner s)) = fo_direct_io opts ∧ env (file_of s) = env f ∧
    ∃ bytes, s = formatted_store opts (io (inner s)) bytes (crc32c bytes)) as Hall.
  { intros d2 Hd2 Hdir Hro s. destruct (Hfin d2 Hd2 Hdir Hro) as [? ?].
    split_and!; try done; [by rewrite /file_of -He -Hd2|by exists bytes]. }
  destruct (fo_direct_io opts) eqn:Hdi; [|by apply (Hall d')].
  rewrite He Hof Hlk'. by apply (Hall (mkDeviceIo (disk d') true false)).
Qed.
End formatting.
