(* ===== verification/Recovery.v ===== *)
(** * Recovery: what opening a device finds

    A device whose bytes hold the superblock [sb] and the index [idx] (an
    [image_holds] of StoreFacts), and whose entries are intact, opens in every
    mode: no validation or scan removes an entry, the free list is the
    complement of the extents, and the store invariant holds.  Then what a
    reload of an open store finds. *)

From S2P Require Import Prelude.
From S2P Require Import Config.
From S2P Require Import Device.
From S2P Require Import Allocator.
From S2P Require Import Extent.
From S2P Require Import Streaming.
From S2P Require Import Index.
From S2P Require Import Superblock.
From S2P Require Import Inner.
From S2P Require Import InnerFacts.
From S2P Require Import RawStore.
From S2P Require Import StoreFacts.
From S2P Require Import Flush.
From S2P Require Import FormatFacts.

Section recovery.
Context `{Crc32cLaws, CodecLaws, BincodeShardLaws, BincodeSuperblockLaws, HashMapOrderLaws}.
Implicit Types (s : RawObjectStore) (sb : Superblock) (idx : DeviceIndex) (d : DeviceIo).

(** ** Removing keys *)

(** Freeing the extents of removed entries keeps the tiling. *)
Lemma tiles_remove_all hi (keys : list string) a m :
  tiles DATA_START hi a (extents m) →
  ∃ a', tiles DATA_START hi a' (extents (foldl (λ m k, delete k m) m keys)).
Proof.
  revert a m. induction keys as [|k keys IH]; intros a m Ht; [by exists a|]. simpl.
  destruct (m !! k) as [e|] eqn:Hk.
  - eapply IH, tiles_free, tiles_perm; [|exact Ht]. by apply extents_delete.
  - rewrite delete_id //. by eapply IH.
Qed.

(** ** Validation removes nothing *)

Lemma overlap_windows_ok lo hi (l : list (string * (Z * Z))) :
  0 <= lo → hi < two64 → free_ok lo hi l.*2 → overlap_windows l = [].
Proof.
  revert lo. induction l as [|[k1 [o1 s1]] l IH]; intros lo Hlo Hhi Hok; [done|].
  destruct l as [|[k2 [o2 s2]] l]; [done|]. simpl in Hok. destruct Hok as (? & ? & ? & Hok).
  pose proof (IH (o1 + s1) ltac:(lia) Hhi Hok) as Hrest. simpl in Hok, Hrest |- *. rewrite Hrest.
  rewrite wadd_small; [|u64]. rewrite (proj2 (Z.ltb_ge _ _)) //. lia.
Qed.

Lemma sorted_snd (l : list (string * (Z * Z))) :
  StronglySorted (key_le (λ x : string * (Z * Z), x.2.1)) l → StronglySorted (key_le fst) l.*2.
Proof.
  induction 1 as [|x l Hs IH Hx]; [constructor|]. simpl. constructor; [done|].
  apply Forall_fmap. eapply Forall_impl; [exact Hx|]. done.
Qed.

Section validated.
Context (hi : Z) (a : ExtentAllocator) (idx : DeviceIndex).
Hypothesis Ht : tiles DATA_START hi a (extents (files idx)).

Lemma iter_extents : extent_of <$> (hm_iter (files idx)).*2 ≡ₚ extents (files idx).
Proof using All. by rewrite /extents hm_iter_perm. Qed.

Lemma in_bounds k e : (k, e) ∈ hm_iter (files idx) →
  DATA_START <= i_offset e ∧ 0 < i_padded_size e ∧ i_offset e + i_padded_size e <= hi ∧ hi < two64.
Proof using All.
  intros Hin. pose proof Ht as [Hwf Hl _ _]. pose proof (aw_hi _ _ _ Hwf).
  rewrite hm_iter_perm elem_of_map_to_list in Hin.
  rewrite Forall_forall in Hl. pose proof (Hl _ (extents_elem _ _ _ Hin)). simpl in *. lia.
Qed.

Lemma no_bad_keys : out_of_bounds_keys hi idx = [].
Proof using All.
  rewrite /out_of_bounds_keys. rewrite filter_none //. apply Forall_forall. intros [k e] Hin. destruct (in_bounds k e Hin) as (?&?&?&?). intros Hbad.
  pose proof (aw_lo _ _ _ (tl_wf _ _ _ _ Ht)). rewrite /sat_add in Hbad. u64.
Qed.

Lemma no_overlaps : overlapping_keys idx = [].
Proof using All.
  pose proof Ht as [Hwf Hl Honce _]. pose proof Hwf as [Hlo Hhi _ _ _ _].
  rewrite /overlapping_keys.
  set (l := sort_by_key _ _).
  assert (l.*2 ≡ₚ extents (files idx)) as Hperm.
  { rewrite /l sort_by_key_perm -iter_extents -2?list_fmap_compose. apply reflexive_eq.
    apply list_fmap_ext. by intros i [k e]. }
  apply (overlap_windows_ok DATA_START hi); [done..|].
  apply sorted_owners_ok.
  - apply sorted_snd, sort_by_key_sorted.
  - rewrite Hperm. eapply Forall_impl; [exact Hl|]. simpl. intros ?; lia.
  - intros i. rewrite Hperm. by eapply tiles_owners_le.
Qed.

Lemma validate_keeps : validate_entries hi idx = (idx, []).
Proof using All.
  rewrite /validate_entries no_bad_keys.
  assert (remove_files [] idx = idx) as -> by by destruct idx.
  rewrite no_overlaps. by destruct idx.
Qed.
End validated.

(** ** The scans *)

Lemma scan_entries_total scan l :
  (∀ k e, (k, e) ∈ l → ∃ o, scan e = Ok o) →
  ∃ found, scan_entries scan l = Ok found ∧
    ∀ k, k ∈ found.*1 → ∃ e, (k, e) ∈ l ∧ scan e ≠ Ok None.
Proof.
  induction l as [|[k e] l IH]; intros Hl; [exists []; split; [done|]; by intros ? ?%elem_of_nil|].
  destruct (Hl k e) as [o Ho]; [by left|].
  destruct IH as (found & Hf & Hin); [intros; eapply Hl; by right|]. simpl. rewrite Ho /= Hf /=.
  eexists. split; [done|]. intros k'. destruct o as [r|].
  - rewrite fmap_cons elem_of_cons. intros [->|Hk]; [exists e; split; [by left|by rewrite Ho]|].
    destruct (Hin k' Hk) as (e' & ? & ?). exists e'. split; [by right|done].
  - intros Hk. destruct (Hin k' Hk) as (e' & ? & ?). exists e'. split; [by right|done].
Qed.

Lemma stale_files ro t found idx :
  files (apply_stale_removals found ro t idx) = foldl (λ m k, delete k m) (files idx) found.*1.
Proof.
  revert idx. induction found as [|[k r] found IH]; intros idx; [done|]. simpl.
  rewrite /apply_stale_removals /= -/(apply_stale_removals _ _ _ _) IH. f_equal.
  destruct (files idx !! k) eqn:E; [done|]. by rewrite delete_id.
Qed.

Lemma stale_tombstones ro t found idx k :
  k ∉ found.*1 → tombstones (apply_stale_removals found ro t idx) !! k = tombstones idx !! k.
Proof.
  revert idx. induction found as [|[k' r] found IH]; intros idx Hk; [done|].
  rewrite fmap_cons not_elem_of_cons in Hk. destruct Hk as [Hne Hk].
  rewrite /apply_stale_removals /= -/(apply_stale_removals _ _ _ _) IH //.
  destruct (files idx !! k'); [|done]. destruct ro; [done|]. by rewrite lookup_insert_ne.
Qed.

Lemma iter_lookup idx k e : (k, e) ∈ hm_iter (files idx) ↔ files idx !! k = Some e.
Proof. by rewrite hm_iter_perm elem_of_map_to_list. Qed.

Lemma decode_no_panic raw len :
  0 <= len < two64 → decode_blocks raw len ≠ Panic.
Proof.
  intros Hl Hp. rewrite /decode_blocks in Hp. change BLOCK_ALIGNMENT with 4096 in Hp.
  pose proof (Z.div_mod (zlen raw) 4096). pose proof (Z.mod_pos_bound (zlen raw) 4096).
  assert (0 <= zlen raw / 4096) by (apply Z.div_pos; [apply zlen_nonneg|lia]).
  pose proof (take_blocks_exact (Z.to_nat (zlen raw / 4096)) 0 raw len [] 0) as Ht.
  ospecialize* Ht; [lia|lia|lia|]. by destruct (take_blocks _ _ _ _ _) as [[c q] [[]|e|]].
Qed.

(** The scan of a mode, and what it condemns. *)
Definition mode_scan (mode : OpenMode) d (e : ExtentInfo) : Res RawStoreError (option string) :=
  match mode with
  | SkipVerify => Ok None
  | ModeDefault => scan_block0 d e
  | FullVerify => scan_full d e
  end.

Section scanned.
Context (d : DeviceIo) (hi : Z) (idx : DeviceIndex).
Hypotheses (Hix : index_ok hi idx) (Hnf : no_faults (env (disk d))) (Hdir : direct d = false)
  (Hsz : hi <= file_size (disk d)).

Lemma entry_place k e : files idx !! k = Some e →
  DATA_START <= i_offset e ∧ i_offset e + num_blocks (i_size e) * 4096 <= hi ∧ hi < two64 ∧
  1 <= num_blocks (i_size e) ∧ 0 < i_size e < 2 ^ 63.
Proof using Hix.
  intros Hk. destruct Hix as [(a & [Hwf Hl _ _]) Hsh _]. pose proof (aw_hi _ _ _ Hwf).
  rewrite Forall_forall in Hl. specialize (Hl _ (extents_elem _ _ _ Hk)). simpl in Hl.
  destruct (Hsh k e Hk) as [Hs Hp]. rewrite Hp in Hl.
  pose proof (num_blocks_pos (i_size e)). lia.
Qed.

Lemma read_entry_bytes k e : files idx !! k = Some e →
  pread (i_offset e) (num_blocks (i_size e) * 4096) d =
    Ok (read_bytes (content (disk d)) (i_offset e) (num_blocks (i_size e) * 4096)) ∧
  pread (i_offset e) 4096 d = Ok (read_bytes (content (disk d)) (i_offset e) 4096).
Proof using All.
  intros Hk. destruct (entry_place k e Hk) as (Hlo & Hhi & Hb & Hn & _). change DATA_START with 8192 in Hlo.
  split; rewrite pread_total //; rewrite ?Hdir //; [lia| |u64|].
  - rewrite Z.div_add_l // (Z.div_small 4095) //. lia.
  - change ((4096 + 4095) / 4096 * 4096) with 4096. lia.
Qed.

Lemma padded_ok k e : files idx !! k = Some e →
  padded_extent_size (i_size e) = Ok (num_blocks (i_size e) * 4096).
Proof using Hix.
  intros Hk. destruct (entry_place k e Hk) as (Hlo & Hhi & Hb & _). change DATA_START with 8192 in Hlo.
  rewrite /padded_extent_size /checked_mul.
  change BLOCK_ALIGNMENT with 4096. rewrite (proj2 (Z.ltb_lt _ _)) //. lia.
Qed.

Lemma mode_scan_total mode k e : files idx !! k = Some e → ∃ o, mode_scan mode d e = Ok o.
Proof using All.
  intros Hk. destruct (read_entry_bytes k e Hk) as [Hr Hr0].
  destruct (entry_place k e Hk) as (_ & _ & _ & _ & Hs).
  rewrite /mode_scan /scan_block0 /scan_full (padded_ok k e Hk) Hr. change BLOCK_ALIGNMENT with 4096.
  rewrite Hr0. destruct mode; [case_match; by eauto| |by eauto].
  pose proof (decode_no_panic (read_bytes (content (disk d)) (i_offset e)
    (num_blocks (i_size e) * 4096)) (i_size e)) as Hd.
  case_match; [case_match; by eauto|by eauto|]. exfalso. apply Hd; [u64|done].
Qed.

(** An intact entry passes every scan. *)
Lemma first_block (p : list byte) : 0 < zlen p → ∃ r rest, encode_blocks p = crc_block r ++ rest ∧ zlen r = 4092.
Proof using Type.
  intros Hp. rewrite encode_blocks_regions. pose proof (regions_zlen p) as Hz.
  pose proof (length_regions p) as Hl. pose proof (num_blocks_pos (zlen p) Hp).
  destruct (regions p) as [|r rs]; [simpl in Hl; lia|].
  apply Forall_cons in Hz as [? _]. by exists r, (concat (crc_block <$> rs)).
Qed.

Lemma scan_block0_intact c k e : files idx !! k = Some e → entry_ok c d e → scan_block0 d e = Ok None.
Proof using All.
  intros Hk [Hs Hp Hl Hst _ _]. destruct (read_entry_bytes k e Hk) as [_ Hr].
  destruct (entry_place k e Hk) as (_ & _ & _ & Hn & _).
  rewrite /scan_block0. change BLOCK_ALIGNMENT with 4096. rewrite Hr.
  destruct (first_block (raw_payload d e)) as (r & rest & Henc & Hrl); [lia|].
  assert (read_bytes (content (disk d)) (i_offset e) 4096 = crc_block r) as ->.
  { rewrite /stored Hl Henc in Hst.
    replace (num_blocks (i_size e) * 4096) with (4096 + (num_blocks (i_size e) - 1) * 4096) in Hst by lia.
    rewrite read_bytes_app in Hst; [|lia..].
    apply app_inj_1 in Hst as [? _]; [done|]. apply Nat2Z.inj.
    rewrite -/(zlen (read_bytes _ _ _)) -/(zlen (crc_block r)) zlen_read_bytes ?crc_block_zlen; lia. }
  pose proof (verify_crc_block r 0) as Hv. apply verify_block_crc_inv in Hv as [Hd Hc].
  rewrite -Hd Hc Z.eqb_refl. done.
Qed.

Lemma mode_scan_intact mode c k e :
  files idx !! k = Some e → entry_ok c d e → mode_scan mode d e = Ok None.
Proof using All.
  intros Hk He. destruct mode; [by eapply scan_block0_intact| |done].
  destruct (read_entry_bytes k e Hk) as [Hr _]. destruct He as [Hs Hp Hl Hst Hc _].
  rewrite /mode_scan /scan_full (padded_ok k e Hk) Hr.
  rewrite /stored Hl in Hst. rewrite Hst -Hl decode_encode; [|u64]. rewrite Hc Z.eqb_refl. done.
Qed.

Lemma integrity_scan_spec mode ro t :
  ∃ idx' keys, integrity_scan mode d ro t idx = Ok (idx', keys) ∧
    files idx' = foldl (λ m k, delete k m) (files idx) keys ∧
    (∀ k, k ∉ keys → tombstones idx' !! k = tombstones idx !! k) ∧
    (∀ k, k ∈ keys → ∃ e, files idx !! k = Some e ∧ mode_scan mode d e ≠ Ok None).
Proof using All.
  destruct (scan_entries_total (mode_scan mode d) (hm_iter (files idx))) as (found & Hf & Hin).
  { intros k e Hk%iter_lookup. by eapply mode_scan_total. }
  assert (∀ k, k ∈ found.*1 → ∃ e, files idx !! k = Some e ∧ mode_scan mode d e ≠ Ok None) as Hin'.
  { intros k Hk. destruct (Hin k Hk) as (e & He%iter_lookup & ?). by exists e. }
  rewrite /integrity_scan. destruct mode; simpl in *; rewrite ?Hf /=.
  3: { exists idx, []. split_and!; [done..|]. by intros k ?%elem_of_nil. }
  all: do 2 eexists; split_and!; [done|apply stale_files| |done]; intros k Hk;
    by apply stale_tombstones.
Qed.
End scanned.

(** ** Recovering the index *)

Lemma purge_spec idx :
  ∃ keys, purge_multipart false idx = (remove_files keys idx, keys) ∧
    ∀ k, k ∈ keys ↔ is_tmp_key k = true ∧ is_Some (files idx !! k).
Proof.
  eexists. split; [done|]. intros k. rewrite list_elem_of_fmap. split.
  - intros ([k' e] & -> & [Ht Hin%iter_lookup]%list_elem_of_filter). by eauto.
  - intros [Ht [e He]]. exists (k, e). split; [done|]. apply list_elem_of_filter.
    split; [done|]. by apply iter_lookup.
Qed.

(** What a read-write open finds: [idx] less the condemned entries and the
    temporary ones. *)
Record recovered mode d idx (idx' : DeviceIndex) (keys : list string) : Prop := {
  rc_files : files idx' = foldl (λ m k, delete k m) (files idx) keys;
  rc_tombstones k : tombstones idx' !! k = tombstones idx !! k ∨
    k ∈ keys ∧ ∃ e, files idx !! k = Some e ∧ mode_scan mode d e ≠ Ok None;
  rc_keys k : k ∈ keys → ∃ e, files idx !! k = Some e ∧
    (is_tmp_key k = true ∨ mode_scan mode d e ≠ Ok None);
  rc_tmp k : is_tmp_key k = true → files idx' !! k = None;
}.

Lemma recover_index_spec mode s d sb idx :
  geometry s → handle s d → direct d = false → index_region_a s <= file_size (disk d) →
  index_ok (index_region_a s) idx → slots_hold s (content (disk d)) (shard_slots sb) idx →
  Z.land (Superblock.flags sb) FLAG_WRITE_PROTECT = 0 →
  ∃ idx' keys, recover_index mode false d sb (index_region_a s) (index_region_b s) (shard_slot_size s) =
      Ok (idx', keys) ∧ recovered mode d idx idx' keys.
Proof.
  intros Hg Hh Hdir Hsz Hix Hs Hwp. pose proof Hh as (Hnf & _).
  rewrite /recover_index (load_all s Hg d (shard_slots sb) idx) //. cbn [mbind Res_bind].
  destruct (ix_tiles _ _ Hix) as [a Ht]. rewrite (validate_keeps _ a) // Hwp.
  destruct (integrity_scan_spec d (index_region_a s) idx Hix Hnf Hdir Hsz mode false
    (txn_id sb +! 1)) as (idx1 & keys1 & -> & Hf1 & Ht1 & Hk1).
  cbn [mbind Res_bind]. destruct (purge_spec idx1) as (keys2 & -> & Hk2).
  do 2 eexists. split; [done|]. split.
  - by rewrite /= Hf1 foldl_app.
  - intros k. destruct (decide (k ∈ keys1)) as [Hk|Hk]; [right|by left; apply Ht1].
    split; [|by apply Hk1]. rewrite /= elem_of_app. by left.
  - intros k. rewrite /= elem_of_app. intros [Hk|Hk]; [destruct (Hk1 k Hk) as (e & ? & ?); exists e; by split; [|right]|].
    apply Hk2 in Hk as [Htmp [e He]]. rewrite Hf1 foldl_delete_lookup in He.
    case_decide; [done|]. exists e. by split; [|left].
  - intros k Htmp. rewrite /= foldl_delete_lookup. case_decide as Hn; [done|].
    destruct (files idx1 !! k) eqn:E; [|done]. exfalso. apply Hn, Hk2. by eauto.
Qed.

(** ** Opening *)

Lemma dirty_flags_spec keys :
  length (dirty_flags keys) = 256%nat ∧
  ∀ i, dirty_flags keys !! i = Some false → ∀ k, k ∈ keys → Z.to_nat (shard_for_key k) ≠ i.
Proof.
  rewrite /dirty_flags. change (Z.to_nat NUM_SHARDS) with 256%nat.
  assert (∀ (l : list bool), length l = 256%nat →
    let l' := foldl (λ l k, <[Z.to_nat (shard_for_key k) := true]> l) l keys in
    length l' = 256%nat ∧ ∀ i, l' !! i = Some false →
      l !! i = Some false ∧ ∀ k, k ∈ keys → Z.to_nat (shard_for_key k) ≠ i) as Hgen.
  { induction keys as [|k keys IH]; intros l Hl; simpl.
    - split; [done|]. intros i ?. split; [done|]. by intros k ?%elem_of_nil.
    - destruct (IH (<[Z.to_nat (shard_for_key k) := true]> l)) as [Hlen Hx]; [by rewrite length_insert|].
      split; [done|]. intros i Hi. destruct (Hx i Hi) as [Hli Hk].
      assert (Z.to_nat (shard_for_key k) ≠ i) as Hne.
      { intros <-. rewrite list_lookup_insert_eq in Hli; [done|]. pose proof (shard_for_key_range k). lia. }
      rewrite list_lookup_insert_ne // in Hli. split; [done|].
      intros k' [->|?]%elem_of_cons; [done|by apply Hk]. }
  destruct (Hgen (replicate 256 false)) as [Hl Hx]; [done|]. split; [done|]. intros i Hi. by apply Hx.
Qed.

Lemma bucket_kept mode d idx idx' keys i :
  recovered mode d idx idx' keys → (∀ k, k ∈ keys → shard_for_key k ≠ i) →
  bucket i idx = bucket i idx'.
Proof.
  intros [Hf Ht _ _] Hk. rewrite /bucket. f_equal; apply map_eq; intros k; apply option_eq; intros x;
    rewrite !map_lookup_filter_Some ?Hf ?foldl_delete_lookup.
  - case_decide as Hin; [|done]. split; [intros [_ ?]; by destruct (Hk k Hin)|by intros [? _]].
  - destruct (Ht k) as [->|[Hin _]]; [done|]. split; intros [_ ?]; by destruct (Hk k Hin).
Qed.

(** The handle an open works with, and what it leaves. *)
Definition fresh (f : DiskFile) : DeviceIo := mkDeviceIo f false false.

Record reopened mode s m sb idx s' : Prop := {
  re_regions : same_regions s s';
  re_file : file_of s' = after_crash (file_of s) m;
  re_index : ∃ keys, recovered mode (fresh (after_crash (file_of s) m)) idx (index (inner s')) keys ∧
    shard_dirty (inner s') = dirty_flags keys;
  re_allocator : ∃ a, allocator (inner s') = Some a ∧
    tiles DATA_START (index_region_a s) a (extents (files (index (inner s'))));
  re_committed : committed s' sb idx;
  re_geometry : geometry s';
  re_described : described s' sb;
  re_superblock : superblock (inner s') = sb;
  re_dirty : dirty (inner s') = false → Forall (λ b, b = false) (shard_dirty (inner s'));
  re_settings : compression (inner s') = compression (inner s) ∧
    max_key_length (inner s') = max_key_length (inner s);
  re_writable : read_only (inner s') = false ∧ io_read_only (io (inner s')) = false;
}.

Lemma open_superblock s m sb :
  geometry s → no_faults (env (file_of s)) → image_sb m = Ok sb →
  read_superblocks (fresh (after_crash (file_of s) m)) = Ok sb.
Proof.
  intros Hg Hnf Hm. by rewrite (read_superblocks_image s Hg).
Qed.

(** The layout computed from the file's size is the store's. *)
Lemma described_layout s sb :
  geometry s → described s sb →
  let n := file_size (file_of s) in
  0 < index_slot_capacity sb ∧ min_device_size (index_slot_capacity sb) <= n ∧
  n -! index_slot_capacity sb *! 2 = index_region_a s ∧ n -! index_slot_capacity sb = index_region_b s.
Proof.
  intros [Ha Hb _ [Hc _] _ Hu _ _] [Hcap Hsz Hmin _ _ _ _]. rewrite /file_of in Hsz |- *.
  change DATA_START with 8192 in *. change BLOCK_ALIGNMENT with 4096 in *.
  rewrite Hcap /min_device_size. change (SUPERBLOCK_REGION + BLOCK_ALIGNMENT) with 12288.
  rewrite wmul_small; [|u64]. rewrite wadd_small; [|u64]. rewrite !wsub_small; [|u64..]. lia.
Qed.

(** The allocator of a recovered index is the complement of its extents. *)
Lemma rebuilt_allocator hi a idx :
  tiles DATA_START hi a (extents (files idx)) →
  from_free_list (rebuild_free_list idx hi).2 DATA_START hi = a.
Proof.
  intros Ht. pose proof (rebuild_tiles idx _ a _ Ht (reflexivity _)) as Hreb.
  destruct (rebuild_free_list idx hi) as [used free]. destruct Hreb as (_ & _ & ->).
  pose proof (tl_wf _ _ _ _ Ht) as [Hlo Hhi Hok _ _ Hal].
  pose proof (from_free_list_id (free_list a) _ _ Hlo Hhi Hok) as Hid.
  destruct a as [fl al]; simpl in *. subst al. rewrite /from_free_list /= in Hid |- *. by rewrite Hid.
Qed.

Lemma assemble_spec s sb f idx keys a :
  described s sb → no_faults (env f) → locked f = false →
  tiles DATA_START (index_region_a s) a (extents (files idx)) →
  ∃ d, assemble_store false (fresh f) sb idx keys (index_region_a s) (index_region_b s)
      (rs_index_slot_capacity s) (shard_slot_size s) =
    Ok (mkStore (mkInner d idx (Some a) sb (negb (bool_decide (keys = []))) false (dirty_flags keys) 0
          (max_key_length (inner s)) (compression (inner s)))
        (index_region_a s) (index_region_b s) (rs_index_slot_capacity s) (shard_slot_size s) 0 [] []) ∧
    disk d = f ∧ io_read_only d = false ∧ (direct d = true → index_region_a s mod 4096 = 0).
Proof.
  intros [_ _ _ [Hmk Hmk0] Hcomp _ Hdir] Hnf Hlk Ht.
  rewrite /assemble_store (rebuilt_allocator _ _ _ Ht).
  rewrite Hmk in Hmk0 |- *. rewrite (proj2 (Z.eqb_neq _ _) Hmk0) Hcomp.
  destruct (Z.land _ FLAG_DIRECT_IO =? 0) eqn:E; cbn [negb mbind Res_bind].
  - by exists (fresh f).
  - rewrite /open_handle /dev_open /open_file /acquire_exclusive_lock /= (nf_open _ Hnf) Hlk.
    exists (mkDeviceIo f true false). split_and!; [done..|]. intros _. apply Hdir. by apply Z.eqb_neq.
Qed.

(** What survived a crash opens, in every mode. *)
Lemma open_survives mode s m sb idx :
  geometry s → no_faults (env (file_of s)) → survives s m sb idx →
  ∃ s', open_impl mode false (after_crash (file_of s) m) = Ok s' ∧ reopened mode s m sb idx s'.
Proof.
  intros Hg Hnf [[Hsb Hslots] Hde Hix Htx _]. set (f := after_crash (file_of s) m).
  pose proof (described_layout s sb Hg Hde) as (Hcap & Hmin & Hra & Hrb).
  rewrite /open_impl /open_handle /dev_open /open_file /acquire_exclusive_lock.
  change (env f) with (env (file_of s)). rewrite (nf_open _ Hnf). change (locked f) with false.
  cbn [mbind Res_bind]. change (mkDeviceIo f false false) with (fresh f).
  rewrite (open_superblock s m sb) //. cbn [mbind Res_bind].
  change (file_size (disk (fresh f))) with (file_size (file_of s)).
  rewrite (proj2 (Z.ltb_lt _ _) Hcap) (proj2 (Z.ltb_ge _ _)) // Hra Hrb (de_capacity _ _ Hde) -(ge_slot _ Hg).
  destruct (recover_index_spec mode s (fresh f) sb idx) as (idx' & keys & -> & Hrec); try done.
  { pose proof (ge_cap _ Hg). pose proof (de_size _ _ Hde). change (disk (fresh f)) with f.
    change (file_size f) with (file_size (file_of s)). lia. }
  { by apply (de_protect _ _ Hde). }
  cbn [mbind Res_bind]. destruct (ix_tiles _ _ Hix) as [a0 Ht0].
  destruct (tiles_remove_all _ keys _ _ Ht0) as [a Ht]. rewrite -(rc_files _ _ _ _ _ Hrec) in Ht.
  destruct (assemble_spec s sb f idx' keys a) as (d & -> & Hd & Hro & Hdir); try done.
  eexists. split; [done|]. split; try done; [by eauto|by eauto|..].
  - split; rewrite /file_of /= ?Hd //; [|].
    + exists [], []. split_and!; [by split_and!; [|constructor|left]|constructor| |by intros; constructor].
      eapply image_holds_regions; [|by split]. done.
    + intros i Hi. eapply bucket_kept; [exact Hrec|]. intros k Hk ?.
      eapply (proj2 (dirty_flags_spec keys)); [exact Hi|exact Hk|]. lia.
  - destruct Hg. split; try done; rewrite /= Hd; done.
  - destruct Hde. split; rewrite /file_of /= ?Hd //.
  - simpl. case_bool_decide as Hk; [|done]. subst keys. intros _. by apply Forall_replicate.
Qed.

(** ** The objects of a reopened store *)

(** An entry whose write the store still has is intact after the crash. *)
Lemma kept_entry s m sb idx k e k' e' :
  store_ok s → survives s m sb idx → files idx !! k = Some e →
  files (index (inner s)) !! k' = Some e' → same_write e e' →
  entry_ok (compression (inner s)) (fresh (after_crash (file_of s) m)) e ∧
  entry_data (compression (inner s)) (fresh (after_crash (file_of s) m)) e =
    entry_data (compression (inner s)) (io (inner s)) e'.
Proof.
  intros Hok Hsu Hk Hk' Hw. pose proof (io_entries _ _ (so_inner _ Hok) k' e' Hk') as He'.
  assert (entry_ok (compression (inner s)) (io (inner s)) e ∧
    entry_data (compression (inner s)) (io (inner s)) e =
    entry_data (compression (inner s)) (io (inner s)) e') as [He Hd].
  { destruct e, e'. rewrite /same_write /with_meta_len /= in Hw. injection Hw as ?; subst. split; [|done].
    destruct He'. by split. }
  rewrite -Hd. apply (entry_ok_frame _ (io (inner s))); [|done]. intros i Hi.
  apply (su_kept _ _ _ _ Hsu). by exists k, e, k', e'.
Qed.

(** A reopened store keeps every kept entry that is not temporary. *)
Lemma reopened_kept mode s m sb idx s' k e k' e' :
  store_ok s → no_faults (env (file_of s)) → survives s m sb idx → reopened mode s m sb idx s' →
  files idx !! k = Some e → files (index (inner s)) !! k' = Some e' → same_write e e' →
  is_tmp_key k = false →
  files (index (inner s')) !! k = Some e ∧ objects (inner s') !! k = objects (inner s) !! k'.
Proof.
  intros Hok Hnf Hsu [_ Hfile (keys & Hrec & _) _ _ _ _ _ _ [Hc _] _] Hk Hk' Hw Htmp.
  destruct (kept_entry s m sb idx k e k' e') as [He Hd]; [done..|].
  assert (files (index (inner s')) !! k = Some e) as Hs'.
  { rewrite (rc_files _ _ _ _ _ Hrec) foldl_delete_lookup. case_decide as Hin; [|done].
    destruct (rc_keys _ _ _ _ _ Hrec k Hin) as (e0 & He0 & [?|Hbad]); [congruence|].
    simplify_eq. exfalso. apply Hbad. eapply (mode_scan_intact _ (index_region_a s) idx); try done.
    - by apply (su_index _ _ _ _ Hsu).
    - simpl. pose proof (de_size _ _ (su_described _ _ _ _ Hsu)). pose proof (ge_cap _ (so_geo _ Hok)). lia. }
  split; [done|]. rewrite !objects_lookup Hs' Hk' /= Hc -Hd. f_equal.
  apply entry_data_frame, raw_payload_frame. intros i _. rewrite /file_of in Hfile. by rewrite Hfile.
Qed.

(** When every entry is kept, the reopened store satisfies the invariant. *)
Lemma reopened_ok mode s m sb idx s' :
  store_ok s → survives s m sb idx → reopened mode s m sb idx s' →
  map_Forall (λ _ e, entry_ok (compression (inner s)) (fresh (after_crash (file_of s) m)) e)
    (files (index (inner s'))) →
  tombstones (index (inner s')) = tombstones idx → store_ok s'.
Proof.
  intros Hok Hsu [Hregs Hfile (keys & Hrec & Hsd) Hal Hcm Hg Hde Hsb Hdf [Hc Hm] Hro] He Htb.
  pose proof Hregs as (Ha & _).
  assert (files (index (inner s')) ⊆ files idx) as Hsub.
  { rewrite (rc_files _ _ _ _ _ Hrec). apply map_subseteq_spec. intros k x.
    rewrite foldl_delete_lookup. by case_decide. }
  split; [|done|by eauto| |by rewrite Hsb| |done].
  - rewrite Ha. split; [done|done| |..].
    + rewrite Hc. intros k e Hk. apply (entry_ok_frame _ (fresh (after_crash (file_of s) m))); [|by eapply He].
      intros i _. rewrite /file_of in Hfile. by rewrite Hfile.
    + pose proof (de_size _ _ Hde) as Hsz. pose proof (ge_cap _ Hg). rewrite /file_of in Hsz. rewrite Ha in Hsz. lia.
    + rewrite Hsd. apply dirty_flags_spec.
  - pose proof (ix_range _ _ (su_index _ _ _ _ Hsu)) as Hr. intros i. destruct (Hr i) as [Hf Ht].
    split; [|by rewrite /bucket /= Htb]. intros k e [Hk Hi]%map_lookup_filter_Some.
    apply (Hf k), map_lookup_filter_Some. split; [by eapply lookup_weaken|done].
  - rewrite Hsb. intros k e Hk. eapply lookup_weaken in Hk; [|exact Hsub].
    pose proof (su_txn _ _ _ _ Hsu k e Hk). simpl in *. lia.
Qed.

(** A store whose index is durable: everything is kept. *)
Lemma reopened_durable mode s m sb s' :
  store_ok s → no_faults (env (file_of s)) → survives s m sb (index (inner s)) →
  reopened mode s m sb (index (inner s)) s' →
  store_ok s' ∧ objects (inner s') = filter (λ '(k, _), is_tmp_key k = false) (objects (inner s)) ∧
  tombstones (index (inner s')) = tombstones (index (inner s)).
Proof.
  intros Hok Hnf Hsu Hre. pose proof Hre as [_ Hfile (keys & Hrec & _) _ _ _ _ _ _ [Hc _] _].
  assert (∀ k e, files (index (inner s)) !! k = Some e → is_tmp_key k = false →
    files (index (inner s')) !! k = Some e ∧ objects (inner s') !! k = objects (inner s) !! k) as Hkept.
  { intros k e Hk Htmp. by eapply reopened_kept. }
  assert (∀ k e, files (index (inner s)) !! k = Some e →
    mode_scan mode (fresh (after_crash (file_of s) m)) e = Ok None) as Hscan.
  { intros k e Hk. destruct (kept_entry s m sb (index (inner s)) k e k e) as [He _]; [done..|].
    eapply (mode_scan_intact _ (index_region_a s) (index (inner s))); try done.
    - by apply (su_index _ _ _ _ Hsu).
    - simpl. pose proof (de_size _ _ (su_described _ _ _ _ Hsu)). pose proof (ge_cap _ (so_geo _ Hok)). lia. }
  assert (∀ k, k ∈ keys → is_tmp_key k = true) as Hkeys.
  { intros k Hin. destruct (rc_keys _ _ _ _ _ Hrec k Hin) as (e & He & [?|Hbad]); [done|].
    exfalso. by apply Hbad, (Hscan k). }
  assert (tombstones (index (inner s')) = tombstones (index (inner s))) as Htb.
  { apply map_eq. intros k. destruct (rc_tombstones _ _ _ _ _ Hrec k) as [?|(_ & e & He & Hbad)]; [done|].
    exfalso. by apply Hbad, (Hscan k). }
  assert (∀ k e, files (index (inner s')) !! k = Some e ↔
    files (index (inner s)) !! k = Some e ∧ is_tmp_key k = false) as Hfiles.
  { intros k e. rewrite (rc_files _ _ _ _ _ Hrec) foldl_delete_lookup. case_decide as Hin.
    - rewrite (Hkeys k Hin). split; [done|by intros [_ ?]].
    - split; [|by intros [? _]]. intros Hk. split; [done|]. destruct (is_tmp_key k) eqn:Htmp; [|done].
      pose proof (rc_tmp _ _ _ _ _ Hrec k Htmp) as Hn.
      by rewrite (rc_files _ _ _ _ _ Hrec) foldl_delete_lookup decide_False // Hk in Hn. }
  split_and!; [|apply map_eq; intros k; apply option_eq; intros x|done].
  - eapply reopened_ok; try done. intros k e [Hk _]%Hfiles.
    by eapply (kept_entry s m sb (index (inner s)) k e k e).
  - rewrite map_lookup_filter_Some. split.
    + intros Hx. rewrite objects_lookup fmap_Some in Hx. destruct Hx as (e & He & Hx).
      apply Hfiles in He as [He Htmp]. destruct (Hkept k e He Htmp) as [Hk' Ho]. split; [|done].
      by rewrite -Ho objects_lookup Hk' Hx.
    + intros [Hx Htmp]. rewrite objects_lookup fmap_Some in Hx. destruct Hx as (e & He & Hx).
      destruct (Hkept k e He Htmp) as [_ ->]. by rewrite objects_lookup He Hx.
Qed.
End recovery.

(** * Reloading the index

    A store whose clean shards agree with the file picks up what a writer has
    flushed since: [reload_index] merges the changed shards and rebuilds the
    allocator. *)

Section buckets.
Context `{Crc32c}.
Implicit Types (idx : DeviceIndex).

Lemma own_filter {A} (m : gmap string A) k :
  filter (λ '(k', _), shard_for_key k' = shard_for_key k) m !! k = m !! k.
Proof.
  rewrite map_lookup_filter. destruct (m !! k) as [x|]; simpl; [|done]. by case_guard.
Qed.

(** An index is determined by its buckets. *)
Lemma buckets_eq idx idx' :
  (∀ i, 0 <= i < 256 → bucket i idx = bucket i idx') → idx = idx'.
Proof.
  intros Hb. destruct idx as [f t], idx' as [f' t'].
  assert (∀ k, f !! k = f' !! k ∧ t !! k = t' !! k) as Hk.
  { intros k. specialize (Hb (shard_for_key k) (shard_for_key_range k)). injection Hb as Hf Ht.
    rewrite -(own_filter f) -(own_filter f') -(own_filter t) -(own_filter t'). by rewrite Hf Ht. }
  f_equal; apply map_eq; intros k; apply (Hk k).
Qed.

Lemma drop_filter {A} (m : gmap string A) i j :
  filter (λ '(k, _), shard_for_key k = j) (filter (λ '(k, _), shard_for_key k ≠ i) m) =
  if decide (j = i) then ∅ else filter (λ '(k, _), shard_for_key k = j) m.
Proof.
  case_decide as Hj.
  - subst j. apply map_empty_filter_2. by intros k x [_ Hne]%map_lookup_filter_Some.
  - apply map_eq. intros k. apply option_eq. intros x. rewrite !map_lookup_filter_Some.
    split; [by intros [[? _] ?]|]. intros [? Hk]. split; [|done]. split; [done|]. simpl in *. congruence.
Qed.

Lemma bucket_drop i j idx :
  bucket j (drop_shard i idx) = if decide (j = i) then mkShard ∅ ∅ else bucket j idx.
Proof. rewrite /bucket /drop_shard /= !drop_filter. by case_decide. Qed.

Lemma union_filter {A} (b m : gmap string A) i j :
  (∀ k x, b !! k = Some x → shard_for_key k = i) → (∀ k, shard_for_key k = i → m !! k = None) →
  filter (λ '(k, _), shard_for_key k = j) (b ∪ m) =
  if decide (j = i) then b else filter (λ '(k, _), shard_for_key k = j) m.
Proof.
  intros Hb Hm. apply map_eq. intros k. apply option_eq. intros x.
  rewrite map_lookup_filter_Some lookup_union_Some_raw.
  case_decide as Hj.
  - subst j. split.
    + intros [[?|[_ Hmk]] Hk]; [done|]. simpl in Hk. by rewrite (Hm k Hk) in Hmk.
    + intros Hk. split; [by left|]. by apply (Hb k x).
  - rewrite map_lookup_filter_Some. split.
    + intros [[Hbk|[_ ?]] Hk]; [|done]. simpl in Hk. specialize (Hb _ _ Hbk). congruence.
    + intros [? Hk]. split; [|done]. right. split; [|done]. simpl in Hk.
      destruct (b !! k) as [y|] eqn:Hbk; [|done]. specialize (Hb _ _ Hbk). congruence.
Qed.

(** Putting a shard back after dropping it. *)
Lemma bucket_extend i j idx idx' :
  bucket j (extend_index (bucket i idx') (drop_shard i idx)) =
  if decide (j = i) then bucket i idx' else bucket j idx.
Proof.
  rewrite /bucket /extend_index /drop_shard /=.
  rewrite !(union_filter _ _ i j).
  - rewrite !drop_filter. by case_decide.
  - intros k x [_ Hk]%map_lookup_filter_Some. done.
  - intros k Hk. apply map_lookup_filter_None. right. by intros x _ Hne.
  - intros k x [_ Hk]%map_lookup_filter_Some. done.
  - intros k Hk. apply map_lookup_filter_None. right. by intros x _ Hne.
Qed.
End buckets.

Section reload.
Context `{Crc32cLaws, CodecLaws, BincodeShardLaws, BincodeSuperblockLaws, HashMapOrderLaws}.
Context (s : RawObjectStore) (Hg : geometry s).
Implicit Types (st : Inner) (idx : DeviceIndex) (d : DeviceIo).

(** Shards before [i] are the file's, the others still the reader's. *)
Lemma reload_shards_spec olds news i idx st d idx0 :
  handle s d → io st = d → length olds = length news → 0 <= i → i + zlen news = 256 →
  (∀ j meta, news !! j = Some meta → slot_holds s (content (disk d)) (i + Z.of_nat j) meta
     (bucket (i + Z.of_nat j) idx)) →
  (∀ j a b, olds !! j = Some a → news !! j = Some b → same_slot a b = true →
     bucket (i + Z.of_nat j) idx0 = bucket (i + Z.of_nat j) idx) →
  (∀ j, 0 <= j < i → bucket j (index st) = bucket j idx) →
  (∀ j, i <= j < 256 → bucket j (index st) = bucket j idx0) →
  reload_shards s i olds news st = (set_index idx st, Ok tt).
Proof using Hg.
  intros Hh. revert i news st. induction olds as [|old olds IH]; intros i [|new news] st Hio Hlen Hi0 Hi Hhold Hsame Hlo Hhi;
    try done.
  { rewrite zlen_nil in Hi. simpl. rewrite /sm_ret. f_equal. rewrite -(buckets_eq (index st) idx); [by destruct st|].
    intros j Hj. apply Hlo. lia. }
  rewrite zlen_cons in Hi. pose proof (zlen_nonneg news). injection Hlen as Hlen.
  assert (∀ st1, io st1 = d → (∀ j, 0 <= j < i → bucket j (index st1) = bucket j (index st)) →
    (∀ j, i + 1 <= j < 256 → bucket j (index st1) = bucket j (index st)) →
    bucket i (index st1) = bucket i idx →
    reload_shards s (i + 1) olds news st1 = (set_index idx st1, Ok tt)) as Hnext.
  { intros st1 Hio1 Hbelow Habove Hat. apply IH; try done; [lia|lia| | | |].
    - intros j meta Hj. specialize (Hhold (S j) meta Hj). by replace (i + 1 + Z.of_nat j) with (i + Z.of_nat (S j)) by lia.
    - intros j a b Ha Hb Hs. replace (i + 1 + Z.of_nat j) with (i + Z.of_nat (S j)) by lia. by eapply (Hsame (S j)).
    - intros j Hj. destruct (decide (j = i)) as [->|]; [done|]. rewrite Hbelow; [apply Hlo|]; lia.
    - intros j Hj. rewrite Habove; [apply Hhi|]; lia. }
  specialize (Hhold 0%nat new eq_refl). rewrite Z.add_0_r in Hhold.
  cbn [reload_shards]. destruct (same_slot old new) eqn:Hs.
  - rewrite {1}/sm_bind {1}/sm_ret. apply Hnext; try done.
    rewrite Hhi; [|lia]. specialize (Hsame 0%nat old new eq_refl eq_refl Hs). by rewrite Z.add_0_r in Hsame.
  - rewrite {1}/sm_bind {1}/sm_bind {1}/sm_modify. destruct (slot_size new =? 0) eqn:Hz.
    + rewrite {1}/sm_ret. destruct Hhold as (_ & _ & Hv). rewrite Hz in Hv.
      rewrite (Hnext (set_index (drop_shard i (index st)) st)); try done; simpl.
      * intros j Hj. rewrite bucket_drop decide_False //. lia.
      * intros j Hj. rewrite bucket_drop decide_False //. lia.
      * by rewrite bucket_drop decide_True // Hv.
    + apply Z.eqb_neq in Hz. rewrite {1}/sm_bind. cbn [io set_index].
      rewrite Hio (load_shard_holds s Hg d i new (bucket i idx)) //; [|lia]. rewrite /sm_modify. cbn iota.
      rewrite (Hnext _); try done; cbn [index set_index].
      * intros j Hj. rewrite bucket_extend decide_False //. lia.
      * intros j Hj. rewrite bucket_extend decide_False //. lia.
      * by rewrite bucket_extend decide_True.
Qed.

(** A reader follows [idx], the index of an image, when each of its slots that
    the image shares describes the same shard. *)
Definition follows (slots : list ShardSlotMeta) idx0 idx : Prop :=
  length (shard_slots (superblock (inner s))) = 256%nat ∧
  ∀ j a b, shard_slots (superblock (inner s)) !! j = Some a → slots !! j = Some b →
    same_slot a b = true → bucket (Z.of_nat j) idx0 = bucket (Z.of_nat j) idx.

Lemma reload_index_spec sb idx a :
  handle s (io (inner s)) →
  sb_from_bytes (read_bytes (content (file_of s)) 0 SUPERBLOCK_SIZE) = Ok sb →
  slots_hold s (content (file_of s)) (shard_slots sb) idx →
  follows (shard_slots sb) (index (inner s)) idx →
  tiles DATA_START (index_region_a s) a (extents (files idx)) →
  let '(s', r) := reload_index s in
  if txn_id sb =? txn_id (superblock (inner s)) then s' = s ∧ r = Ok false
  else r = Ok true ∧ index (inner s') = idx ∧ superblock (inner s') = sb ∧ io (inner s') = io (inner s) ∧
    dirty (inner s') = false ∧ Forall (λ b, b = false) (shard_dirty (inner s')) ∧
    same_regions s s' ∧ compression (inner s') = compression (inner s) ∧
    (read_only (inner s) = false → allocator (inner s') = Some a).
Proof using All.
  intros Hh Hsb [Hlen Hslots] [Hlen0 Hfol] Ht. pose proof Hh as (Hnf & Hsz & Hdir).
  destruct Hg as [Ha _ _ [Hc _] He Hu _ _]. change DATA_START with 8192 in Ha.
  assert (reload_superblock (io (inner s)) = Ok sb) as Hrs.
  { rewrite /reload_superblock. change SUPERBLOCK_SIZE with 4096 in *.
    rewrite (pread_total 0) //; [|change ((4096 + 4095) / 4096 * 4096) with 4096; lia].
    cbn [mbind Res_bind]. by rewrite /file_of in Hsb; rewrite Hsb. }
  rewrite /reload_index /on_inner /sm_zoom /reload_inner {1}/sm_bind. cbv beta. rewrite Hrs.
  rewrite {1}/sm_bind. cbv iota beta.
  destruct (txn_id sb =? txn_id (superblock (inner s))) eqn:Hx.
  { rewrite /sm_ret. split; [by destruct s|done]. }
  pose proof (reload_shards_spec (shard_slots (superblock (inner s))) (shard_slots sb) 0 idx (inner s) (io (inner s))
    (index (inner s)) Hh eq_refl) as Hr.
  ospecialize* Hr; [lia|lia|rewrite /zlen; lia|done|done|lia|done|].
  rewrite {1}/sm_bind Hr {1}/sm_bind /sm_modify /sm_ret. split; [done|].
  rewrite /finish_reload /=. destruct (read_only (inner s)) eqn:Hro; simpl.
  - split_and!; try done. by apply Forall_fmap, Forall_true.
  - rewrite (rebuilt_allocator _ _ _ Ht). split_and!; try done. by apply Forall_fmap, Forall_true.
Qed.
End reload.
