(* ===== verification/Changes.v ===== *)
(** * Operations on an open store keep its invariants

    [change hi st st'] is what every operation of [Inner] does, whether it
    succeeds or fails: new data goes to free space, entries are kept, moved,
    dropped or freshly written, and every shard whose entries changed is
    marked.  Then the store invariant and the committed image are kept. *)

From S2P Require Import Prelude.
From S2P Require Import Config.
From S2P Require Import Device.
From S2P Require Import Allocator.
From S2P Require Import Extent.
From S2P Require Import Streaming.
From S2P Require Import Index.
From S2P Require Import Superblock.
From S2P Require Import Inner.
From S2P Require Import InnerFacts.
From S2P Require Import RawStore.
From S2P Require Import StoreFacts.
From S2P Require Import Flush.

Section changes.
Context `{Crc32cLaws, CodecLaws, BincodeShardLaws, BincodeSuperblockLaws}.
Implicit Types (s : RawObjectStore) (sb : Superblock) (idx : DeviceIndex) (st : Inner).

Record change (hi : Z) st st' : Prop := {
  ch_ok : inner_ok hi st';
  ch_frame : only_free hi st (io st');
  ch_superblock : superblock st' = superblock st;
  ch_settings : compression st' = compression st ∧ max_key_length st' = max_key_length st;
  ch_files k e' : files (index st') !! k = Some e' →
    (∃ k0 e, files (index st) !! k0 = Some e ∧ same_write e e') ∨
    i_created_txn e' = txn_id (superblock st);
  ch_range : index_in_range (index st');
  ch_clean i : shard_dirty st' !! i = Some false →
    shard_dirty st !! i = Some false ∧ bucket (Z.of_nat i) (index st') = bucket (Z.of_nat i) (index st);
  ch_flag : dirty st' = false → dirty st = false ∧ shard_dirty st' = shard_dirty st;
}.

(** An index is in range when its entries and tombstones are. *)
Lemma index_in_range_iff idx :
  index_in_range idx ↔ map_Forall (λ _ e, entry_in_range e) (files idx) ∧
    map_Forall (λ _ t, tombstone_in_range t) (tombstones idx).
Proof.
  split.
  - intros Hr. split; intros k x Hk; destruct (Hr (shard_for_key k)) as [Hf Ht].
    + apply (Hf k), map_lookup_filter_Some. done.
    + apply (Ht k), map_lookup_filter_Some. done.
  - intros [Hf Ht] i. split; intros k x [Hk _]%map_lookup_filter_Some; [by apply (Hf k)|by apply (Ht k)].
Qed.

Lemma change_refl hi st : inner_ok hi st → index_in_range (index st) → change hi st st.
Proof. intros Hok Hr. split; try done; [apply only_free_refl|]. intros k e Hk. left. by exists k, e. Qed.

Lemma unchanged_change hi st st' :
  unchanged hi st st' → index_in_range (index st) → change hi st st'.
Proof.
  intros [Hok Hi _ _ Hsb [Hd Hsd] Hc Hm Hf] Hr. split; rewrite ?Hi //.
  - intros k e Hk. left. by exists k, e.
  - by rewrite Hsd.
  - by rewrite Hd Hsd.
Qed.

Lemma change_size s st' :
  store_ok s → change (index_region_a s) (inner s) st' →
  file_size (disk (io st')) = file_size (file_of s).
Proof.
  intros Hok Hch. pose proof (frame_size _ _ _ _ (of_frame _ _ _ (ch_frame _ _ _ Hch))) as Hf.
  pose proof (io_size _ _ (so_inner _ Hok)). rewrite /file_of in Hf |- *. lia.
Qed.

(** Marking shards: what [shard_dirty] says of the shard of a key. *)
Lemma marked_key (l : list bool) key i :
  <[Z.to_nat (shard_for_key key) := true]> l !! i = Some false →
  l !! i = Some false ∧ shard_for_key key ≠ Z.of_nat i.
Proof.
  intros Hi. pose proof (shard_for_key_range key).
  destruct (decide (Z.to_nat (shard_for_key key) = i)) as [<-|Hne].
  - rewrite list_lookup_insert_Some in Hi. destruct Hi as [(_ & ? & _)|[? _]]; done.
  - rewrite list_lookup_insert_ne // in Hi. split; [done|lia].
Qed.

(** Changing a key leaves the buckets of the other shards alone. *)
Lemma bucket_ext i idx idx' :
  (∀ k, shard_for_key k = i → files idx' !! k = files idx !! k ∧ tombstones idx' !! k = tombstones idx !! k) →
  bucket i idx' = bucket i idx.
Proof.
  intros Hk. rewrite /bucket. f_equal; apply map_eq; intros k; apply option_eq; intros x;
    rewrite !map_lookup_filter_Some.
  - split; intros [Hx ?]; (split; [|done]); destruct (Hk k) as [Hf _]; congruence.
  - split; intros [Hx ?]; (split; [|done]); destruct (Hk k) as [_ Ht]; congruence.
Qed.

(** ** A freshly written object *)

Lemma written_entry_range hi st key e :
  inner_ok hi st → files (index st) !! key = Some e → zlen (entry_data (compression st) (io st) e) < two64 →
  is_u64 (i_created_txn e) → - 2 ^ 63 <= i_last_modified e < 2 ^ 63 → 0 <= i_meta_len e < 2 ^ 16 →
  entry_in_range e.
Proof.
  intros Hok Hk Hlen Ht Hm Hml. destruct (entry_bounds st key e Hok Hk) as (Hlo & Hhi & Hb & _).
  destruct (io_entries _ _ Hok key e Hk) as [Hs Hp Hl _ Hc Hu]. change DATA_START with 8192 in Hlo.
  pose proof (num_blocks_pos (i_size e)).
  split; try done; [u64|u64|rewrite Hp; u64|rewrite Hc; apply crc32c_range|].
  destruct Hu as [->|(Hpos & x & Hx & <-)]; [u64|]. rewrite /entry_data in Hlen.
  rewrite -?Hx. pose proof (zlen_nonneg x).
  destruct (0 <? i_uncompressed_size e) eqn:E; [|u64]. rewrite Hx in Hlen. u64.
Qed.

Lemma installed_change hi st st' key e data :
  installed hi st st' key e data → index_in_range (index st) → zlen data < two64 →
  0 <= i_created_txn e ∧ i_created_txn e = txn_id (superblock st) → txn_id (superblock st) < two64 →
  - 2 ^ 63 <= i_last_modified e < 2 ^ 63 → 0 <= i_meta_len e < 2 ^ 16 →
  (∀ k, k ≠ key → tombstones (index st') !! k = tombstones (index st) !! k) →
  (∀ k t, tombstones (index st') !! k = Some t → tombstones (index st) !! k = Some t) →
  change hi st st'.
Proof.
  intros [Hok Hfiles Hobj [Hd Hsd] Hsb Hc Hm Hf] Hr Hlen [Ht0 Ht] Htb Hlm Hml Htk Hts.
  apply index_in_range_iff in Hr as [Hrf Hrt].
  assert (files (index st') !! key = Some e) as Hke by by rewrite Hfiles lookup_insert_eq.
  assert (entry_in_range e) as He.
  { eapply written_entry_range; try done; [|rewrite Ht; u64].
    assert (objects st' !! key = Some data) as Hdk by by rewrite Hobj lookup_insert_eq.
    rewrite objects_lookup Hke /= in Hdk. by injection Hdk as ->. }
  split; try done.
  - intros k e'. rewrite Hfiles lookup_insert_Some. intros [[<- <-]|[_ Hk]]; [by right|].
    left. by exists k, e'.
  - apply index_in_range_iff. split.
    + intros k e'. rewrite Hfiles lookup_insert_Some. intros [[<- <-]|[_ Hk]]; [done|by apply (Hrf k)].
    + intros k t Hk. by apply (Hrt k), Hts.
  - intros i. rewrite Hsd. intros [Hi Hne]%marked_key. split; [done|]. apply bucket_ext.
    intros k Hk. assert (k ≠ key) by congruence. rewrite Hfiles lookup_insert_ne //. by split; [|apply Htk].
  - by rewrite Hd.
Qed.

(** ** The store around a change *)

Lemma set_inner_regions s st' : same_regions s (set_inner st' s).
Proof. done. Qed.

Lemma change_described s st' sb :
  store_ok s → change (index_region_a s) (inner s) st' → described s sb → described (set_inner st' s) sb.
Proof.
  intros Hok Hch []. pose proof (change_size s st' Hok Hch) as Hs.
  destruct Hch as [_ _ _ [Hc Hm] _ _ _ _].
  split; rewrite /file_of /= ?Hc ?Hm ?Hs //.
Qed.

Lemma change_store_ok s st' :
  store_ok s → change (index_region_a s) (inner s) st' →
  (∀ sb idx, committed s sb idx → committed (set_inner st' s) sb idx) ∧ store_ok (set_inner st' s).
Proof.
  intros Hok Hch. pose proof (change_size s st' Hok Hch) as Hsize.
  pose proof Hok as [Hin Hg (sb0 & idx0 & Hcm0) Hr Hde Htx Hdf].
  pose proof Hch as [Hok' [Hfr Hav] Hsb _ Hfiles Hr' Hclean Hflag].
  assert (∀ sb idx, committed s sb idx → committed (set_inner st' s) sb idx) as Hcm.
  { intros sb idx Hcm. pose proof (committed_slots _ _ _ Hcm) as (_ & Htxn & _).
    destruct Hcm as [(d & p & (Hlog & Hns & Hd) & Hp & Himg & Hkept) Hc Heq Hcl Hix Hct].
    destruct (frame_log _ _ _ _ Hfr) as (ws & Hlog' & Hws & Hcont). rewrite /file_of in Hlog Hc.
    split; try done.
    - exists d, (p ++ ws). split_and!.
      + split_and!; [by rewrite /file_of /= Hlog' Hlog app_assoc| |done].
        apply Forall_app. split; [done|]. eapply Forall_impl; [exact Hws|]. by intros [].
      + by apply Forall_app.
      + rewrite /file_of /= (frame_base _ _ _ _ Hfr). done.
      + intros x (k & e & k' & e' & Hk & Hk' & Hw & Hx). simpl in Hk'.
        destruct (Hfiles k' e' Hk') as [(k0 & e0 & Hk0 & Hw0)|Hnew].
        * apply Forall_app. split.
          -- apply Hkept. exists k, e, k0, e0. split_and!; try done. rewrite /same_write in Hw Hw0 |- *. congruence.
          -- eapply Hav; [exact Hk0| |exact Hlog'].
             assert (extent_of e0 = extent_of e) as ->; [|done].
             rewrite /same_write in Hw Hw0. rewrite -Hw in Hw0. destruct e, e0. by injection Hw0 as ?; subst.
        * exfalso. specialize (Hct k e Hk). simpl in Hct. rewrite Htxn in Hnew.
          apply (f_equal i_created_txn) in Hw. simpl in Hw. lia.
    - rewrite /file_of /= Hcont Hc -apply_log_app (frame_base _ _ _ _ Hfr) Hlog'. done.
    - by rewrite /= Hsb.
    - intros i Hi. destruct (Hclean i Hi) as [Hi' Hb]. rewrite (Hcl i Hi') /=. by rewrite Hb. }
  split; [exact Hcm|]. split; simpl; try done; [|by exists sb0, idx0; apply Hcm|by rewrite Hsb; apply change_described|..].
  - destruct Hg. rewrite /file_of in Hsize. split; simpl; rewrite ?Hsize ?(frame_direct _ _ _ _ Hfr) //.
  - rewrite Hsb. intros k e Hk. destruct (Hfiles k e Hk) as [(k0 & e0 & Hk0 & Hw)| -> ]; last done.
    pose proof (Htx k0 e0 Hk0). apply (f_equal i_created_txn) in Hw. simpl in *. lia.
  - intros Hd. destruct (Hflag Hd) as [Hd' ->]. by apply Hdf.
Qed.
End changes.
