(* ===== verification/StoreTools.v ===== *)
(** * Diagnostic and maintenance operations ([rawobjstr/src/store.rs] 500-676, 1577-2041)

    [device_info], [layout_map] and [verify_all] read the store; [repair],
    the tombstone operations and [scrub_free_space] change it.  Reports are
    records of the code's fields. *)

From stdpp Require Import sorting.
From S2P Require Import Prelude.
From S2P Require Import Config.
From S2P Require Import Device.
From S2P Require Import Allocator.
From S2P Require Import Extent.
From S2P Require Import Index.
From S2P Require Import Superblock.
From S2P Require Import Inner.
From S2P Require Import RawStore.

(** ** Reports *)

Record DeviceInfo : Type := mkDeviceInfo {
  di_device_size : Z;
  di_format_version : Z;
  di_flags : Z;
  di_direct_io : bool;
  di_txn_id : Z;
  di_index_slot_capacity : Z;
  di_index_serialized_bytes : Z;
  di_index_region_a : Z;
  di_index_region_b : Z;
  di_active_index_region : Z;
  di_file_count : Z;
  di_data_bytes_stored : Z;
  di_device_bytes_used : Z;
  di_free_space : Z;
  di_free_fragments : Z;
  di_largest_free_extent : Z;
  di_data_region_start : Z;
  di_data_region_end : Z;
  di_last_flush_bytes : Z;
  di_max_key_length : Z;
  di_shard_sizes : list Z;
  di_shard_slot_size : Z;
  di_compression : Compression;
}.

Record LayoutExtent : Type := mkLayoutExtent {
  le_key : string;
  le_offset : Z;
  le_size : Z;
  le_padded_size : Z;
  le_created_txn : Z;
  le_last_modified : Z;
  le_uncompressed_size : Z;
}.

Record DeviceLayout : Type := mkDeviceLayout {
  dl_device_size : Z;
  dl_data_region_start : Z;
  dl_data_region_end : Z;
  dl_index_region_a : Z;
  dl_index_region_b : Z;
  dl_active_index_region : Z;
  dl_txn_id : Z;
  dl_extents : list LayoutExtent;
  dl_free_regions : list (Z * Z);
}.

(** The code prints the error of a [ReadError]; the model keeps it. *)
Inductive VerifyStatus : Type :=
| VerifyOk
| CrcMismatch (expected actual : Z)
| BlockCorrupt (what : string)
| OutOfBounds
| ReadError (e : RawStoreError).

Record ExtentVerifyResult : Type := mkVerifyResult {
  vr_path : string;
  vr_offset : Z;
  vr_expected_size : Z;
  vr_status : VerifyStatus;
}.

Record VerifyReport : Type := mkVerifyReport {
  files_checked : Z;
  files_ok : Z;
  errors : list ExtentVerifyResult;
  ok_files : list ExtentVerifyResult;
  overlapping_extents : list (string * string);
  free_list_consistent : bool;
  space_accounted : bool;
  total_data_region : Z;
  total_used : Z;
  total_free : Z;
}.

Record RepairReport : Type := mkRepairReport {
  free_list_rebuilt : bool;
  old_free_entries : Z;
  new_free_entries : Z;
  old_free_space : Z;
  new_free_space : Z;
  flushed_report : bool;
  files_found : Z;
  used_extents : list (string * (Z * Z));
  new_free_list : list (Z * Z);
}.

Record TombstoneEntry : Type := mkTombstoneEntry {
  te_path : string;
  te_size : Z;
  te_crc32c : Z;
  te_last_modified : Z;
  te_reason : string;
  te_tombstone_txn : Z;
}.

Record ScrubReport : Type := mkScrubReport {
  regions_scrubbed : Z;
  bytes_scrubbed : Z;
}.

Section tools.
Context `{Crc32c, Codecs, BincodeShard, BincodeSuperblock, HashMapOrder}.

Definition hm_values {A} (m : gmap string A) : list A := (hm_iter m).*2.

(** [max().unwrap_or(0)] over the sizes of the free list. *)
Definition largest_free (a : option ExtentAllocator) : Z :=
  match a with None => 0 | Some a => foldr Z.max 0 (free_list a).*2 end.
Definition free_space_of (a : option ExtentAllocator) : Z :=
  match a with None => 0 | Some a => free_space a end.
Definition free_entries_of (a : option ExtentAllocator) : Z :=
  match a with None => 0 | Some a => zlen (free_list a) end.

Definition device_info (s : RawObjectStore) : DeviceInfo :=
  let st := inner s in
  let sb := superblock st in
  let es := hm_values (files (index st)) in
  mkDeviceInfo (device_size sb) (version sb) (Superblock.flags sb)
    (negb (Z.land (Superblock.flags sb) FLAG_DIRECT_IO =? 0)) (txn_id sb)
    (rs_index_slot_capacity s) (index_region_size sb) (index_region_a s) (index_region_b s)
    (index_region_offset sb) (zlen es) (wsum (i_size <$> es)) (wsum (i_padded_size <$> es))
    (free_space_of (allocator st)) (free_entries_of (allocator st)) (largest_free (allocator st))
    DATA_START (index_region_a s) (last_flush_bytes st) (max_key_length st)
    (slot_size <$> shard_slots sb) (shard_slot_size s) (compression st).

(** The entries of the data area, with their keys. *)
Definition area_entries (data_end : Z) (idx : DeviceIndex) : list (string * ExtentInfo) :=
  filter (λ '(_, e), entry_in_area data_end e) (hm_iter (files idx)).

Definition layout_extent (ke : string * ExtentInfo) : LayoutExtent :=
  let '(k, e) := ke in
  mkLayoutExtent k (i_offset e) (i_size e) (i_padded_size e) (i_created_txn e)
    (i_last_modified e) (i_uncompressed_size e).

(** The loop over the sorted extents, from [cursor]. *)
Fixpoint layout_gaps (extents : list LayoutExtent) (cursor data_end : Z) : list (Z * Z) :=
  match extents with
  | [] => if cursor <? data_end then [(cursor, data_end -! cursor)] else []
  | ext :: extents' =>
    (if cursor <? le_offset ext then [(cursor, le_offset ext -! cursor)] else []) ++
    layout_gaps extents' (le_offset ext +! le_padded_size ext) data_end
  end.

Definition layout_map (s : RawObjectStore) : DeviceLayout :=
  let st := inner s in
  let data_end := index_region_a s in
  let extents := sort_by_key le_offset (layout_extent <$> area_entries data_end (index st)) in
  mkDeviceLayout (device_size (superblock st)) DATA_START data_end (index_region_a s)
    (index_region_b s) (index_region_offset (superblock st)) (txn_id (superblock st)) extents
    (layout_gaps extents DATA_START data_end).

(** ** Verification *)

(** The verdict on one entry. *)
Definition verify_entry (data_end : Z) (d : DeviceIo) (e : ExtentInfo) : Res RawStoreError VerifyStatus :=
  if bool_decide (i_offset e < DATA_START ∨ data_end < sat_add (i_offset e) (i_padded_size e))
  then Ok OutOfBounds
  else
    match padded_extent_size (i_size e) with
    | Panic => Panic
    | Err err => Ok (ReadError err)
    | Ok disk_len =>
      match pread (i_offset e) disk_len d with
      | Panic => Panic
      | Err err => Ok (ReadError err)
      | Ok raw =>
        match decode_blocks raw (i_size e) with
        | Panic => Panic
        | Err (DataCorruption _ expected actual) => Ok (CrcMismatch expected actual)
        | Err err => Ok (ReadError err)
        | Ok content =>
          let actual_crc := crc32c content in
          if negb (actual_crc =? i_crc32c e) then Ok (CrcMismatch (i_crc32c e) actual_crc)
          else Ok VerifyOk
        end
      end
    end.

Definition verify_result (path : string) (e : ExtentInfo) (st : VerifyStatus) : ExtentVerifyResult :=
  mkVerifyResult path (i_offset e) (i_size e) st.

(** The loop over the entries: [(ok_files, errors)], in iteration order. *)
Fixpoint verify_entries (data_end : Z) (d : DeviceIo) (l : list (string * ExtentInfo)) :
    Res RawStoreError (list ExtentVerifyResult * list ExtentVerifyResult) :=
  match l with
  | [] => Ok ([], [])
  | (path, e) :: l' =>
    status ← verify_entry data_end d e;
    '(ok, errs) ← verify_entries data_end d l';
    Ok (match status with
        | VerifyOk => (verify_result path e status :: ok, errs)
        | _ => (ok, verify_result path e status :: errs)
        end)
  end.

(** [sorted.windows(2)]: the neighbours that overlap. *)
Fixpoint overlap_pairs (l : list (string * (Z * Z))) : list (string * string) :=
  match l with
  | (k1, (o1, s1)) :: (((k2, (o2, _)) :: _) as l') =>
    (if o2 <? o1 +! s1 then [(k1, k2)] else []) ++ overlap_pairs l'
  | _ => []
  end.

(** The loop over the free list; it stops at the first bad entry. *)
Fixpoint check_free_list (data_end : Z) (fl : list (Z * Z)) : bool :=
  match fl with
  | [] => true
  | (off, sz) :: fl' =>
    if bool_decide (off < DATA_START ∨ data_end < sat_add off sz ∨ sz = 0) then false
    else match fl' with
         | (next, _) :: _ => if next <? off +! sz then false else check_free_list data_end fl'
         | [] => true
         end
  end.

Definition verify_all (s : RawObjectStore) : Res RawStoreError VerifyReport :=
  let st := inner s in
  let data_end := index_region_a s in
  let entries := hm_iter (files (index st)) in
  '(ok, errs) ← verify_entries data_end (io st) entries;
  let sorted := sort_by_key (λ x, x.2.1) ((λ '(k, e), (k, extent_of e)) <$> entries) in
  let total_region := data_end -! DATA_START in
  let used := wsum (i_padded_size <$> entries.*2) in
  let '(free, accounted, consistent) :=
    match allocator st with
    | Some a =>
      (free_space a, used +! free_space a =? total_region, check_free_list data_end (free_list a))
    | None => (sat_sub total_region used, true, true)
    end in
  Ok (mkVerifyReport (zlen entries) (zlen ok) errs ok (overlap_pairs sorted) consistent accounted
        total_region used free).

(** ** Repair *)

Definition repair_allocator (s : RawObjectStore) : SM RawObjectStore RawStoreError unit :=
  on_inner (sm_modify (λ st, set_allocator (Some (from_free_list
    (rebuild_free_list (index st) (index_region_a s)).2 DATA_START (index_region_a s))) st)).

Definition repair : SM RawObjectStore RawStoreError RepairReport := λ s,
  let st := inner s in
  if read_only st then (s, Err ReadOnly)
  else
    let data_end := index_region_a s in
    let new_free := (rebuild_free_list (index st) data_end).2 in
    let used := sort_by_key (λ x, x.2.1)
                  ((λ '(k, e), (k, extent_of e)) <$> area_entries data_end (index st)) in
    (repair_allocator s ;;;
     flush_index ;;;
     (λ s', (s', Ok (mkRepairReport true (free_entries_of (allocator st))
        (free_entries_of (allocator (inner s'))) (free_space_of (allocator st))
        (free_space_of (allocator (inner s'))) true (zlen (hm_iter (files (index st)))) used new_free)))) s.

(** ** Tombstones *)

Definition tombstone_entry (kt : string * TombstoneInfo) : TombstoneEntry :=
  let '(path, t) := kt in
  mkTombstoneEntry path (t_size t) (t_crc32c t) (t_last_modified t) (t_reason t) (t_tombstone_txn t).

(** [sort_by(|a, b| a.path.cmp(&b.path))]. *)
Definition by_path {A} (key : A → string) (x y : A) : Prop := (key x ≤ key y)%string.
#[global] Instance by_path_dec {A} (key : A → string) x y : Decision (by_path key x y).
Proof. rewrite /by_path. apply _. Defined.
Definition sort_by_path {A} (key : A → string) (l : list A) : list A := merge_sort (by_path key) l.

Definition list_tombstones (s : RawObjectStore) : list TombstoneEntry :=
  sort_by_path te_path (tombstone_entry <$> hm_iter (tombstones (index (inner s)))).

Definition delete_tombstone (path : string) : SM Inner RawStoreError bool := λ st,
  if read_only st then (st, Err ReadOnly)
  else match files (index st) !! path with
       | Some _ => (st, Ok false)
       | None =>
         match tombstones (index st) !! path with
         | None => (st, Ok false)
         | Some _ =>
           (sm_modify (λ st, set_tombstones (delete path (tombstones (index st))) st) ;;;
            mark_shard_dirty path ;;;
            sm_modify (set_dirty true) ;;;
            sm_ret true) st
         end
       end.

(** Mark the shards of a list of keys. *)
Fixpoint mark_all (keys : list string) : SM Inner RawStoreError unit :=
  match keys with
  | [] => sm_ret tt
  | k :: keys' => mark_shard_dirty k ;;; mark_all keys'
  end.

Definition clear_tombstones : SM Inner RawStoreError Z := λ st,
  if read_only st then (st, Err ReadOnly)
  else
    let count := zlen (hm_iter (tombstones (index st))) in
    if 0 <? count then
      (mark_all (hm_iter (tombstones (index st))).*1 ;;;
       sm_modify (set_tombstones ∅) ;;;
       sm_modify (set_dirty true) ;;;
       sm_ret count) st
    else (st, Ok count).

(** ** Scrubbing free space *)

Definition SCRUB_CHUNK : Z := 1024 * 1024.

(** The inner loop: zero [cursor .. end_), [SCRUB_CHUNK] bytes at a time. *)
Fixpoint scrub_region (fuel : nat) (cursor end_ : Z) : SM DeviceIo RawStoreError unit :=
  match fuel with
  | O => if cursor <? end_ then sm_panic else sm_ret tt
  | S fuel' =>
    if cursor <? end_ then
      let len := Z.min (end_ - cursor) SCRUB_CHUNK in
      pwrite cursor (replicate (Z.to_nat len) Byte.x00) ;;;
      scrub_region fuel' (cursor + len) end_
    else sm_ret tt
  end.

Fixpoint scrub_regions (fl : list (Z * Z)) (regions bytes : Z) : SM DeviceIo RawStoreError ScrubReport :=
  match fl with
  | [] => sm_ret (mkScrubReport regions bytes)
  | (offset, size) :: fl' =>
    scrub_region (Z.to_nat (size / SCRUB_CHUNK + 1)) offset (offset +! size) ;;;
    scrub_regions fl' (regions + 1) (bytes +! size)
  end.

Definition scrub_free_space : SM Inner RawStoreError ScrubReport := λ st,
  if read_only st then (st, Err ReadOnly)
  else
    let fl := match allocator st with Some a => free_list a | None => [] end in
    (report <- on_io (scrub_regions fl 0 0) ;;
     on_io sync ;;;
     sm_ret report) st.
End tools.
