(* ===== verification/StoreMeta.v ===== *)
(** * Metadata-aware operations ([rawobjstr/src/store.rs] 2170-2604)

    An object's payload is its body followed by [i_meta_len] bytes of opaque
    metadata.  [object_store::Path] is the string it displays as; its parser
    belongs to that crate, as does the file [put_with_meta_from_file] reads. *)

From S2P Require Import Prelude.
From S2P Require Import Config.
From S2P Require Import Device.
From S2P Require Import Allocator.
From S2P Require Import Extent.
From S2P Require Import Index.
From S2P Require Import Superblock.
From S2P Require Import Inner.
From S2P Require Import RawStore.
From S2P Require Import StoreTools.

(** [Path::parse], [Path::from] and [Path::prefix_matches]. *)
Class ObjectPath : Type := {
  path_parse : string → option string;
  path_from : string → string;
  prefix_matches : string → string → bool;
}.

(** [Path::parse(k).unwrap_or_else(|_| Path::from(k))] *)
Definition key_path `{ObjectPath} (k : string) : string :=
  match path_parse k with Some p => p | None => path_from k end.

Record ObjectMeta : Type := mkObjectMeta {
  om_location : string;
  om_last_modified : Z;
  om_size : Z;
}.

Record ObjectFullInfo : Type := mkObjectFullInfo {
  fi_key : string;
  fi_body_size : Z;
  fi_meta_len : Z;
  fi_last_modified : Z;
  fi_created_txn : Z;
  fi_offset : Z;
  fi_padded_size : Z;
}.

Record RawGetResult : Type := mkRawGetResult {
  rg_data : list byte;
  rg_uncompressed_size : Z;
  rg_compression : Compression;
}.

(** A file to read from: the length its metadata reports (0 when that fails)
    and the results of the successive [read] calls up to the end. *)
Record SourceFile : Type := mkSourceFile {
  sf_len : Z;
  sf_reads : list (Res RawStoreError (list byte));
}.

Definition logical_size (e : ExtentInfo) : Z :=
  if 0 <? i_uncompressed_size e then i_uncompressed_size e else i_size e.
Definition body_size (e : ExtentInfo) : Z := sat_sub (logical_size e) (i_meta_len e).

Definition meta_for (location : string) (e : ExtentInfo) : ObjectMeta :=
  mkObjectMeta location (i_last_modified e) (body_size e).

(** The file's bytes, or its first error. *)
Fixpoint read_to_end (reads : list (Res RawStoreError (list byte))) : Res RawStoreError (list byte) :=
  match reads with
  | [] => Ok []
  | r :: reads' => buf ← r; rest ← read_to_end reads'; Ok (buf ++ rest)
  end.

Section meta.
Context `{Crc32c, Codecs, BincodeShard, BincodeSuperblock, HashMapOrder, ObjectPath}.

Definition put_with_meta (now : Z) (location : string) (body metadata : list byte) :
    SM Inner RawStoreError unit := λ st,
  if 65535 <? zlen metadata then (st, Err (MetadataTooLarge (zlen metadata) 65535))
  else do_put_with_meta now location (body ++ metadata) (zlen metadata) st.

(** The copy loop: every buffer through the CRC and the block writer. *)
Fixpoint stream_reads (reads : list (Res RawStoreError (list byte))) (crc : Z) :
    SM StreamingBlockWriter RawStoreError Z :=
  match reads with
  | [] => sm_ret crc
  | r :: reads' =>
    buf <- sm_lift r ;;
    write_chunk buf ;;;
    stream_reads reads' (crc32c_append crc buf)
  end.

Definition stream_file (offset : Z) (file : SourceFile) : SM DeviceIo RawStoreError Z := λ d,
  let '(w, r) := (crc <- stream_reads (sf_reads file) 0 ;; writer_finish ;;; sm_ret crc)
                   (writer_new d offset) in
  (w_io w, r).

Definition put_with_meta_from_file (now : Z) (location : string) (file : SourceFile) (meta_len : Z) :
    SM Inner RawStoreError unit := λ st,
  if negb (bool_decide (compression st = CNone)) then
    match read_to_end (sf_reads file) with
    | Ok payload => do_put_with_meta now location payload meta_len st
    | Err e => (st, Err e)
    | Panic => (st, Panic)
    end
  else if read_only st then (st, Err ReadOnly)
  else if sf_len file =? 0 then (st, Err EmptyPayload)
  else if max_key_length st <? key_len location
  then (st, Err (KeyTooLong (key_len location) (max_key_length st)))
  else
    (padded <- sm_lift (padded_extent_size (sf_len file)) ;;
     offset <- alloc_extent padded ;;
     crc <- sm_on_err (on_io (stream_file offset file)) (give_back offset padded) ;;
     finish_put now location offset (sf_len file) padded crc meta_len 0) st.

Definition head_with_meta (st : Inner) (location : string) : Res RawStoreError (ObjectMeta * Z) :=
  info ← lookup_file st location;
  Ok (meta_for location info, i_meta_len info).

(** The visible entries: not temporary, and under the prefix if there is one. *)
Definition matches_prefix (prefix : option string) (k : string) : bool :=
  match prefix with Some p => prefix_matches (key_path k) p | None => true end.
Definition visible_entries (st : Inner) (prefix : option string) : list (string * ExtentInfo) :=
  filter (λ '(k, _), matches_prefix prefix k = true)
    (filter (λ '(k, _), is_tmp_key k = false) (hm_iter (files (index st)))).

Definition list_with_meta (st : Inner) (prefix : option string) : list (ObjectMeta * Z) :=
  (λ '(k, e), (meta_for (key_path k) e, i_meta_len e)) <$> visible_entries st prefix.

Definition get_metadata (st : Inner) (location : string) : Res RawStoreError (list byte) :=
  info ← lookup_file st location;
  if i_meta_len info =? 0 then Ok []
  else
    '(data, _) ← do_get_range st location (body_size info) (logical_size info);
    Ok data.

Definition set_meta_len (location : string) (meta_len : Z) : SM Inner RawStoreError unit := λ st,
  match files (index st) !! location with
  | None => (st, Err (NotFound location))
  | Some e =>
    (sm_modify (insert_entry location
       (mkExtentInfo (i_offset e) (i_size e) (i_padded_size e) (i_crc32c e) (i_created_txn e)
          (i_last_modified e) meta_len (i_uncompressed_size e))) ;;;
     mark_shard_dirty location ;;;
     sm_modify (set_dirty true)) st
  end.

Definition get_raw (st : Inner) (location : string) : Res RawStoreError RawGetResult :=
  '(data, info) ← do_get_raw st location;
  Ok (mkRawGetResult data (i_uncompressed_size info) (compression st)).

Definition full_info (ke : string * ExtentInfo) : ObjectFullInfo :=
  let '(k, e) := ke in
  mkObjectFullInfo k (body_size e) (i_meta_len e) (i_last_modified e) (i_created_txn e)
    (i_offset e) (i_padded_size e).

Definition list_full (st : Inner) (prefix : option string) : list ObjectFullInfo :=
  sort_by_path fi_key (full_info <$> visible_entries st prefix).

(** ** [update_metadata] *)

(** The state of the copy: the reader and the writer share one file. *)
Definition with_r_io (d : DeviceIo) (r : StreamingBlockReader) : StreamingBlockReader :=
  mkReader d (r_extent_offset r) (total_blocks r) (payload_len r) (block_idx r) (payload_consumed r).

Definition CopyState : Type := StreamingBlockReader * StreamingBlockWriter.

(** [reader.next_chunk()] on the file as the writer has left it. *)
Definition copy_next : SM CopyState RawStoreError (option (list byte)) := λ '(r, w),
  let '(r', o) := next_chunk (with_r_io (w_io w) r) in ((r', w), o).
Definition copy_write (chunk : list byte) : SM CopyState RawStoreError unit := λ '(r, w),
  let '(w', o) := write_chunk chunk w in ((r, w'), o).

(** The loop over the body: the CRC so far and the bytes still to copy. *)
Fixpoint copy_body (fuel : nat) (body_remaining crc : Z) : SM CopyState RawStoreError Z :=
  if 0 <? body_remaining then
    match fuel with
    | O => sm_panic
    | S fuel' =>
      o <- copy_next ;;
      match o with
      | None => sm_ret crc
      | Some chunk =>
        let take := Z.min (zlen chunk) body_remaining in
        let part := ztake take chunk in
        copy_write part ;;;
        copy_body fuel' (body_remaining - take) (crc32c_append crc part)
      end
    end
  else sm_ret crc.

(** Body from the old extent, metadata from memory, to the new extent. *)
Definition stream_update (info : ExtentInfo) (new_offset body_len : Z) (metadata : list byte) :
    SM DeviceIo RawStoreError Z := λ d,
  let '(rw, r) :=
    (crc <- copy_body (Z.to_nat (num_blocks (i_size info)) + 1) body_len 0 ;;
     (if decide (metadata = []) then sm_ret crc
      else copy_write metadata ;;; sm_ret (crc32c_append crc metadata)))
      (reader_new d (i_offset info) (i_size info), writer_new d new_offset) in
  match r with
  | Ok crc => let '(w, f) := writer_finish rw.2 in
              (w_io w, match f with Ok _ => Ok crc | Err e => Err e | Panic => Panic end)
  | Err e => (w_io rw.2, Err e)
  | Panic => (w_io rw.2, Panic)
  end.

(** The buffered path, for compressed objects. *)
Definition update_compressed (now : Z) (key : string) (info : ExtentInfo) (metadata : list byte) :
    SM Inner RawStoreError unit := λ st,
  let n := body_size info in
  match (if n =? 0 then Ok []
         else '(data, _) ← do_get st key;
              match slice 0 n data with Some b => Ok b | None => Panic end) with
  | Ok body => do_put_with_meta now key (body ++ metadata) (zlen metadata) st
  | Err e => (st, Err e)
  | Panic => (st, Panic)
  end.

Definition update_metadata (now : Z) (location : string) (metadata : list byte) :
    SM Inner RawStoreError unit := λ st,
  if 65535 <? zlen metadata then (st, Err (MetadataTooLarge (zlen metadata) 65535))
  else match files (index st) !! location with
  | None => (st, Err (NotFound location))
  | Some info =>
    if 0 <? i_uncompressed_size info then update_compressed now location info metadata st
    else if read_only st then (st, Err ReadOnly)
    else
      let n := sat_sub (i_size info) (i_meta_len info) in
      let new_payload_size := n +! zlen metadata in
      if new_payload_size =? 0 then (st, Err EmptyPayload)
      else
        (padded <- sm_lift (padded_extent_size new_payload_size) ;;
         new_offset <- alloc_extent padded ;;
         crc <- sm_on_err (on_io (stream_update info new_offset n metadata))
                  (give_back new_offset padded) ;;
         finish_put now location new_offset new_payload_size padded crc (zlen metadata) 0) st
  end.
End meta.
