(* ===== verification/ObjectStoreApi.v ===== *)
(** * The [ObjectStore] interface ([rawobjstr/src/store.rs] 2608-3130)

    The trait's operations on [Inner], with the crate's error type.  Reads
    that the code performs after releasing the lock are polls of a
    [BodyStream] against the device as it is at that moment. *)

From stdpp Require Import sorting strings.
From S2P Require Import Prelude.
From S2P Require Import Config.
From S2P Require Import Device.
From S2P Require Import Allocator.
From S2P Require Import Extent.
From S2P Require Import Index.
From S2P Require Import Superblock.
From S2P Require Import Inner.
From S2P Require Import RawStore.
From S2P Require Import StoreTools.
From S2P Require Import StoreMeta.

Inductive ObjectStoreError : Type :=
| OsNotFound (path : string) (source : RawStoreError)
| OsAlreadyExists (path : string) (source : RawStoreError)
| OsPrecondition (path : string) (source : RawStoreError)
| OsGeneric (source : RawStoreError).

Definition to_os_error (e : RawStoreError) : ObjectStoreError :=
  match e with
  | NotFound path => OsNotFound path e
  | AlreadyExists path => OsAlreadyExists path e
  | _ => OsGeneric e
  end.

(** [.map_err(|e| to_os_error(e))] *)
Definition os_err {S A} (m : SM S RawStoreError A) : SM S ObjectStoreError A := λ s,
  let '(s', r) := m s in (s', map_err to_os_error r).

Inductive PutMode : Type :=
| Create
| Overwrite
| Update (e_tag version : option string).

Inductive GetRange : Type :=
| Bounded (start end_ : Z)
| Offset (o : Z)
| Suffix (s : Z).

(** The streaming decoders of zstd and flate2, over a [BlockReaderIo]:
    [dec_read c n reader] fills a buffer of [n] bytes. *)
Class StreamDecoder : Type := {
  dec_state : Type;
  dec_new : Compression → BlockReaderIo → Res RawStoreError dec_state;
  dec_read : Compression → Z → BlockReaderIo → dec_state →
    BlockReaderIo * dec_state * Res RawStoreError (list byte);
}.

Section api.
Context `{Crc32c, Codecs, BincodeShard, BincodeSuperblock, HashMapOrder, ObjectPath, StreamDecoder}.

(** ** Put *)

Definition put_opts (now : Z) (location : string) (data : list byte) (mode : PutMode) :
    SM Inner ObjectStoreError unit := λ st,
  match mode with
  | Create =>
    match files (index st) !! location with
    | Some _ => (st, Err (OsAlreadyExists location (AlreadyExists location)))
    | None => os_err (do_put now location data) st
    end
  | Overwrite => os_err (do_put now location data) st
  | Update e_tag version =>
    if bool_decide (e_tag ≠ None ∨ version ≠ None)
    then (st, Err (OsPrecondition location
                     (Io Unsupported "conditional update (e_tag/version) is not supported")))
    else os_err (do_put now location data) st
  end.

(** ** Get *)

(** The stream of a [GetResult]. *)
Inductive BodyStream : Type :=
| Once (data : list byte)
| Blocks (r : StreamingBlockReader)
| Decoding (c : Compression) (b : BlockReaderIo) (dec : dec_state) (remaining : Z)
| Ended.

Record GetResult : Type := mkGetResult {
  gr_payload : BodyStream;
  gr_meta : ObjectMeta;
  gr_range : Z * Z;
}.

(** The byte range a request means for a body of [total] bytes. *)
Definition resolve_range (r : GetRange) (total : Z) : Z * Z :=
  match r with
  | Bounded a b =>
    let start := Z.min a total in
    let end_ := Z.min b total in
    (Z.min start end_, end_)
  | Offset o => (Z.min o total, total)
  | Suffix s => (sat_sub total s, total)
  end.

Definition get_ranged (st : Inner) (location : string) (r : GetRange) : Res RawStoreError GetResult :=
  ei ← lookup_file st location;
  let '(start, end_) := resolve_range r (body_size ei) in
  '(data, info) ← do_get_range st location start end_;
  Ok (mkGetResult (Once data) (meta_for location info) (start, end_)).

(** Snappy: decompressed in one call, cut to the body. *)
Definition get_snappy (d : DeviceIo) (key : string) (info : ExtentInfo) (n : Z) :
    Res RawStoreError BodyStream :=
  compressed ← map_err (relabel key) (read_and_decode_batched d (i_offset info) (i_size info));
  data ← decompress Snappy compressed;
  Ok (Once (ztake (Z.min n (zlen data)) data)).

Definition get_decoder (d : DeviceIo) (c : Compression) (info : ExtentInfo) (n : Z) :
    Res RawStoreError BodyStream :=
  let b := block_reader_new d (i_offset info) (i_size info) in
  dec ← dec_new c b;
  Ok (Decoding c b dec n).

(** The stream of a full get, built after the lock is released. *)
Definition get_full (d : DeviceIo) (c : Compression) (location : string) (info : ExtentInfo) :
    Res RawStoreError GetResult :=
  let meta := meta_for location info in
  if 0 <? i_uncompressed_size info then
    let n := sat_sub (i_uncompressed_size info) (i_meta_len info) in
    stream ← match c with
             | Snappy => get_snappy d location info n
             | _ => get_decoder d c info n
             end;
    Ok (mkGetResult stream meta (0, n))
  else
    let n := sat_sub (i_size info) (i_meta_len info) in
    if n =? 0 then Ok (mkGetResult (Once []) meta (0, 0))
    else Ok (mkGetResult (Blocks (reader_new d (i_offset info) n)) meta (0, n)).

Definition get_opts (st : Inner) (location : string) (range : option GetRange) : Res ObjectStoreError GetResult :=
  map_err to_os_error
    match range with
    | Some r => get_ranged st location r
    | None =>
      info ← lookup_file st location;
      get_full (io st) (compression st) location info
    end.

Definition with_b_io (d : DeviceIo) (b : BlockReaderIo) : BlockReaderIo :=
  mkBlockReaderIo (with_r_io d (reader b)) (rbuf b) (rpos b) (rerr b).

(** One poll of the stream, on the device as it is now. *)
Definition poll (d : DeviceIo) (b : BodyStream) : BodyStream * option (Res ObjectStoreError (list byte)) :=
  match b with
  | Ended => (Ended, None)
  | Once data => (Ended, Some (Ok data))
  | Blocks r =>
    match next_chunk (with_r_io d r) with
    | (r', Ok (Some chunk)) =>
      if decide (chunk = []) then (Ended, None) else (Blocks r', Some (Ok chunk))
    | (_, Ok None) => (Ended, None)
    | (r', Err e) => (Blocks r', Some (Err (to_os_error e)))
    | (_, Panic) => (Ended, Some Panic)
    end
  | Decoding c b dec remaining =>
    if remaining =? 0 then (Ended, None)
    else
      match dec_read c (Z.min remaining (256 * 1024)) (with_b_io d b) dec with
      | (b', dec', Ok buf) =>
        let consumed := Z.min (zlen buf) remaining in
        if decide (buf = []) then (Ended, None)
        else (Decoding c b' dec' (remaining - consumed), Some (Ok (ztake consumed buf)))
      | (b', dec', Err e) => (Decoding c b' dec' 0, Some (Err (OsGeneric e)))
      | (_, _, Panic) => (Ended, Some Panic)
      end
  end.

(** [GetResult::bytes]: poll to the end, concatenating; the first error stops. *)
Fixpoint collect (fuel : nat) (d : DeviceIo) (b : BodyStream) : Res ObjectStoreError (list byte) :=
  match fuel with
  | O => Panic
  | S fuel' =>
    match poll d b with
    | (_, None) => Ok []
    | (b', Some r) => chunk ← r; rest ← collect fuel' d b'; Ok (chunk ++ rest)
    end
  end.

(** ** Delete, copy, rename *)

(** [files.remove(key)] and free its extent; the removed entry. *)
Definition take_entry (key : string) (st : Inner) : option (ExtentInfo * Inner) :=
  match files (index st) !! key with
  | None => None
  | Some info => Some (info, set_files (delete key (files (index st))) st)
  end.

Definition delete_object (location : string) : SM Inner ObjectStoreError unit := λ st,
  if read_only st then (st, Err (to_os_error ReadOnly))
  else match take_entry location st with
       | None => (st, Ok tt)
       | Some (info, st1) =>
         os_err (mark_shard_dirty location ;;; sm_modify (set_dirty true))
           (give_back (i_offset info) (i_padded_size info) st1)
       end.

Definition copy (now : Z) (from_key to_key : string) : SM Inner ObjectStoreError unit :=
  os_err (do_copy now from_key to_key).

Definition copy_if_not_exists (now : Z) (from_key to_key : string) : SM Inner ObjectStoreError unit := λ st,
  match files (index st) !! to_key with
  | Some _ => (st, Err (OsAlreadyExists to_key (AlreadyExists to_key)))
  | None => os_err (do_copy now from_key to_key) st
  end.

(** Insert the moved entry: the end of both renames. *)
Definition finish_rename (from_key to_key : string) (info : ExtentInfo) : SM Inner ObjectStoreError unit :=
  os_err (mark_shard_dirty from_key ;;;
          mark_shard_dirty to_key ;;;
          sm_modify (insert_entry to_key info) ;;;
          sm_modify (set_dirty true)).

Definition rename (from_key to_key : string) : SM Inner ObjectStoreError unit := λ st,
  if read_only st then (st, Err (to_os_error ReadOnly))
  else if max_key_length st <? key_len to_key
  then (st, Err (to_os_error (KeyTooLong (key_len to_key) (max_key_length st))))
  else match take_entry from_key st with
  | None => (st, Err (OsNotFound from_key (NotFound from_key)))
  | Some (info, st1) =>
    let st2 := match take_entry to_key st1 with
               | None => st1
               | Some (old, st2) => give_back (i_offset old) (i_padded_size old) st2
               end in
    finish_rename from_key to_key info st2
  end.

Definition rename_if_not_exists (from_key to_key : string) : SM Inner ObjectStoreError unit := λ st,
  if read_only st then (st, Err (to_os_error ReadOnly))
  else if max_key_length st <? key_len to_key
  then (st, Err (to_os_error (KeyTooLong (key_len to_key) (max_key_length st))))
  else match files (index st) !! to_key with
  | Some _ => (st, Err (OsAlreadyExists to_key (AlreadyExists to_key)))
  | None =>
    match take_entry from_key st with
    | None => (st, Err (OsNotFound from_key (NotFound from_key)))
    | Some (info, st1) => finish_rename from_key to_key info st1
    end
  end.

(** ** Listing *)

Definition list_objects (st : Inner) (prefix : option string) : list ObjectMeta :=
  (λ '(k, e), meta_for (key_path k) e) <$> visible_entries st prefix.

Definition drop_str (n : nat) (k : string) : string := String.substring n (String.length k - n) k.

(** Is [k] the prefix itself or below it? *)
Definition under_prefix (prefix_str k : string) : bool :=
  if decide (prefix_str = "") then true
  else String.prefix prefix_str k &&
       (bool_decide (String.length k = String.length prefix_str) ||
        bool_decide (String.get (String.length prefix_str) k = Some (Ascii.ascii_of_nat 47))).

(** Where a key goes: nowhere, into a directory, or among the objects. *)
Inductive Placement : Type := Skip | Directory (dir : string) | Child.

Definition place (prefix_str k : string) : Placement :=
  if negb (under_prefix prefix_str k) then Skip
  else
    let n := String.length prefix_str in
    if bool_decide (prefix_str ≠ "") && bool_decide (String.length k <= n)%nat then Skip
    else
      let skip := if decide (prefix_str = "") then O else S n in
      match String.index 0 "/" (drop_str skip k) with
      | Some slash_pos => Directory (String.substring 0 (skip + slash_pos) k)
      | None => Child
      end.

Record ListResult : Type := mkListResult {
  lr_objects : list ObjectMeta;
  lr_common_prefixes : list string;
}.

Definition directories (prefix_str : string) (keys : list string) : gset string :=
  list_to_set (omap (λ k, match place prefix_str k with
                          | Directory dir => Some (key_path dir)
                          | _ => None
                          end) keys).

Definition children (prefix_str : string) (l : list (string * ExtentInfo)) : list ObjectMeta :=
  omap (λ '(k, e), match place prefix_str k with
                   | Child => Some (meta_for (key_path k) e)
                   | _ => None
                   end) l.

Definition list_with_delimiter (st : Inner) (prefix : option string) : ListResult :=
  let prefix_str := default "" prefix in
  let snapshot := filter (λ '(k, _), is_tmp_key k = false) (hm_iter (files (index st))) in
  mkListResult (sort_by_path om_location (children prefix_str snapshot))
    (sort_by_path id (elements (directories prefix_str snapshot.*1))).
End api.
