(* ===== verification/Multipart.v ===== *)
(** * Multipart uploads ([rawobjstr/src/store.rs] 2679-2692, 3143-3463)

    Parts are spooled as ordinary objects under a temporary prefix and
    joined into one extent by [complete].  [put_part] reserves its key at
    once; its write is a later step, [put_part_run]. *)

From stdpp Require Import pretty.
From S2P Require Import Prelude.
From S2P Require Import Config.
From S2P Require Import Device.
From S2P Require Import Allocator.
From S2P Require Import Extent.
From S2P Require Import Index.
From S2P Require Import Superblock.
From S2P Require Import Inner.
From S2P Require Import RawStore.
From S2P Require Import StoreTools.
From S2P Require Import StoreMeta.
From S2P Require Import ObjectStoreApi.

(** [tempfile]: the bytes written, as read back from the start. *)
Class TempFiles : Type := spool_file : list byte → Res RawStoreError SourceFile.

Record RawMultipartUpload : Type := mkUpload {
  up_location : string;
  upload_id : Z;
  part_count : Z;
  part_keys : list string;
}.

Section multipart.
Context `{Crc32c, Codecs, BincodeShard, BincodeSuperblock, HashMapOrder, ObjectPath, TempFiles}.

(** [next_upload_id.fetch_add(1)] wraps. *)
Definition put_multipart_opts (location : string) (s : RawObjectStore) :
    RawObjectStore * RawMultipartUpload :=
  (mkStore (inner s) (index_region_a s) (index_region_b s) (rs_index_slot_capacity s)
     (shard_slot_size s) (next_upload_id s +! 1) (flush_callbacks s) (callback_log s),
   mkUpload location (next_upload_id s) 0 []).

Definition part_key (id n : Z) : string := MULTIPART_TMP_PREFIX +:+ pretty id +:+ "/" +:+ pretty n.

Definition put_part (u : RawMultipartUpload) : RawMultipartUpload * string :=
  let key := part_key (upload_id u) (part_count u) in
  (mkUpload (up_location u) (upload_id u) (part_count u + 1) (part_keys u ++ [key]), key).

Definition put_part_run (now : Z) (key : string) (data : list byte) : SM Inner ObjectStoreError unit :=
  os_err (do_put now key data).

(** The entries of the parts; the first missing one is an error. *)
Fixpoint part_infos (st : Inner) (keys : list string) : Res RawStoreError (list ExtentInfo) :=
  match keys with
  | [] => Ok []
  | k :: keys' => info ← lookup_file st k; rest ← part_infos st keys'; Ok (info :: rest)
  end.

(** A part's content, decompressed if it was stored compressed. *)
Definition read_part (d : DeviceIo) (c : Compression) (info : ExtentInfo) : Res RawStoreError (list byte) :=
  raw ← read_and_decode_batched d (i_offset info) (i_size info);
  if 0 <? i_uncompressed_size info then decompress c raw else Ok raw.

Fixpoint read_parts (d : DeviceIo) (c : Compression) (infos : list ExtentInfo) :
    Res RawStoreError (list (list byte)) :=
  match infos with
  | [] => Ok []
  | i :: infos' => p ← read_part d c i; rest ← read_parts d c infos'; Ok (p :: rest)
  end.

(** The encoders, fed part by part; Snappy takes the whole input. *)
Definition encode_parts (c : Compression) (parts : list (list byte)) : Res RawStoreError (list byte) :=
  match c with
  | CNone => Panic
  | Zstd => ok_or (zstd_stream_compress 3 parts) (Io OsError "zstd")
  | Snappy => ok_or (snap_compress_vec (concat parts)) (Io Other "snappy compress failed")
  | _ => ok_or (gz_compress (compression_as_u8 c - compression_as_u8 Gzip0) parts) (Io OsError "gzip")
  end.

(** Write size, recorded uncompressed size, and the temporary file if used. *)
Definition choose_source (d : DeviceIo) (c : Compression) (infos : list ExtentInfo) (total : Z) :
    Res RawStoreError (Z * Z * option SourceFile) :=
  if negb (bool_decide (c = CNone)) && (4096 <=? total) then
    parts ← read_parts d c infos;
    bytes ← encode_parts c parts;
    tmp ← spool_file bytes;
    Ok (if sf_len tmp <? total then (sf_len tmp, total, Some tmp) else (total, 0, None))
  else Ok (total, 0, None).

(** The loop over the parts: each is read from the file as the writer has
    left it, and written on. *)
Fixpoint join_parts (c : Compression) (infos : list ExtentInfo) (crc : Z) :
    SM StreamingBlockWriter RawStoreError Z :=
  match infos with
  | [] => sm_ret crc
  | i :: infos' =>
    content <- (λ w, (w, read_part (w_io w) c i)) ;;
    write_chunk content ;;;
    join_parts c infos' (crc32c_append crc content)
  end.

Definition stream_parts (c : Compression) (offset : Z) (infos : list ExtentInfo) :
    SM DeviceIo RawStoreError Z := λ d,
  let '(w, r) := (crc <- join_parts c infos 0 ;; writer_finish ;;; sm_ret crc) (writer_new d offset) in
  (w_io w, r).

(** Remove the parts and free their extents. *)
Fixpoint drop_parts (keys : list string) : SM Inner RawStoreError unit := λ st,
  match keys with
  | [] => (st, Ok tt)
  | k :: keys' =>
    match take_entry k st with
    | None => drop_parts keys' st
    | Some (info, st1) =>
      (mark_shard_dirty k ;;; drop_parts keys') (give_back (i_offset info) (i_padded_size info) st1)
    end
  end.

(** What [complete] does to [Inner]. *)
Definition complete_inner (now : Z) (u : RawMultipartUpload) : SM Inner RawStoreError unit := λ st,
  match part_infos st (part_keys u) with
  | Err e => (st, Err e)
  | Panic => (st, Panic)
  | Ok infos =>
    let c := compression st in
    (source <- (λ st, (st, choose_source (io st) c infos (wsum (logical_size <$> infos)))) ;;
     let '(write_size, uncompressed_size, tmp) := source in
     padded <- sm_lift (padded_extent_size write_size) ;;
     offset <- alloc_extent padded ;;
     crc <- sm_on_err (on_io (match tmp with
                              | Some file => stream_file offset file
                              | None => stream_parts c offset infos
                              end)) (give_back offset padded) ;;
     finish_put now (up_location u) offset write_size padded crc 0 uncompressed_size ;;;
     drop_parts (part_keys u)) st
  end.

Definition clear_parts (u : RawMultipartUpload) : RawMultipartUpload :=
  mkUpload (up_location u) (upload_id u) (part_count u) [].

Definition complete (now : Z) : SM (Inner * RawMultipartUpload) ObjectStoreError unit := λ '(st, u),
  if decide (part_keys u = []) then ((st, u), Err (to_os_error EmptyPayload))
  else match complete_inner now u st with
       | (st', Ok _) => ((st', clear_parts u), Ok tt)
       | (st', Err e) => ((st', u), Err (to_os_error e))
       | (st', Panic) => ((st', u), Panic)
       end.

Definition abort : SM (Inner * RawMultipartUpload) ObjectStoreError unit := λ '(st, u),
  match drop_parts (part_keys u) st with
  | (st', Ok _) => ((set_dirty true st', clear_parts u), Ok tt)
  | (st', Err e) => ((st', clear_parts u), Err (to_os_error e))
  | (st', Panic) => ((st', u), Panic)
  end.
End multipart.
