(* ===== verification/ApiFacts.v ===== *)
(** * What the object operations promise

    [contents st] is the abstract store: keys to bodies and metadata.  The
    lemmas state each operation of StoreMeta and ObjectStoreApi on it, with
    every error, and show that each is a [change] (Changes.v). *)

From S2P Require Import Prelude.
From S2P Require Import Config.
From S2P Require Import Device.
From S2P Require Import Allocator.
From S2P Require Import Extent.
From S2P Require Import Streaming.
From S2P Require Import Index.
From S2P Require Import Superblock.
From S2P Require Import Inner.
From S2P Require Import InnerFacts.
From S2P Require Import RawStore.
From S2P Require Import StoreFacts.
From S2P Require Import Flush.
From S2P Require Import Changes.
From S2P Require Import StoreTools.
From S2P Require Import StoreMeta.
From S2P Require Import ObjectStoreApi.

Section contents.
Context `{Crc32cLaws, CodecLaws, BincodeShardLaws, BincodeSuperblockLaws}.
Implicit Types (st : Inner) (e : ExtentInfo).

(** A payload as body and metadata. *)
Definition split_at (n : Z) (data : list byte) : list byte * list byte := (ztake n data, zdrop n data).

Definition contents st : gmap string (list byte * list byte) :=
  (λ e, split_at (body_size e) (entry_data (compression st) (io st) e)) <$> files (index st).

Lemma contents_lookup st k :
  contents st !! k =
  (λ e, split_at (body_size e) (entry_data (compression st) (io st) e)) <$> files (index st) !! k.
Proof. by rewrite /contents lookup_fmap. Qed.

Lemma logical_size_data c d e : entry_ok c d e → logical_size e = zlen (entry_data c d e).
Proof.
  intros [Hs _ Hl _ _ Hu]. rewrite /logical_size /entry_data. destruct Hu as [->|(Hp & x & Hx & Hz)]; [by rewrite Hl|].
  by rewrite (proj2 (Z.ltb_lt _ _) Hp) Hx Hz.
Qed.

Lemma body_size_bounds e : 0 <= i_meta_len e → 0 <= logical_size e → 0 <= body_size e <= logical_size e.
Proof. rewrite /body_size /sat_sub. lia. Qed.

(** The entries that kept their data keep their contents. *)
Lemma contents_key st st' k :
  compression st' = compression st → files (index st') !! k = files (index st) !! k →
  objects st' !! k = objects st !! k → contents st' !! k = contents st !! k.
Proof.
  intros Hc Hf. rewrite !objects_lookup !contents_lookup Hf. destruct (files (index st) !! k); [|done].
  simpl. intros [= ->]. done.
Qed.

Lemma contents_installed hi st st' key e data :
  installed hi st st' key e data →
  contents st' = <[key := split_at (sat_sub (zlen data) (i_meta_len e)) data]> (contents st).
Proof.
  intros [Hok Hfiles Hobj _ _ Hc _ _]. apply map_eq. intros k. destruct (decide (k = key)) as [->|Hne].
  - rewrite lookup_insert_eq contents_lookup Hfiles lookup_insert_eq /=.
    assert (objects st' !! key = Some data) as Hd by by rewrite Hobj lookup_insert_eq.
    rewrite objects_lookup Hfiles lookup_insert_eq /= in Hd. injection Hd as Hd.
    assert (entry_ok (compression st') (io st') e) as He.
    { apply (io_entries _ _ Hok key). by rewrite Hfiles lookup_insert_eq. }
    by rewrite /body_size (logical_size_data _ _ _ He) Hd.
  - rewrite lookup_insert_ne //. apply contents_key; [done|by rewrite Hfiles lookup_insert_ne|].
    by rewrite Hobj lookup_insert_ne.
Qed.

Lemma contents_unchanged hi st st' : unchanged hi st st' → contents st' = contents st.
Proof.
  intros [_ Hi Hobj _ _ _ Hc _ _]. apply map_eq. intros k. apply contents_key; [done|by rewrite Hi|by rewrite Hobj].
Qed.

(** Operations that leave the device alone. *)
Lemma contents_io st st' k :
  io st' = io st → compression st' = compression st → files (index st') !! k = files (index st) !! k →
  contents st' !! k = contents st !! k.
Proof. intros Hio Hc Hf. by rewrite !contents_lookup Hf Hio Hc. Qed.

Lemma objects_contents st k data :
  objects st !! k = Some data → ∃ e, files (index st) !! k = Some e ∧
    data = entry_data (compression st) (io st) e.
Proof. rewrite objects_lookup. destruct (files (index st) !! k) as [e|]; [|done]. intros [= <-]. eauto. Qed.

(** ** Removing an entry *)

Lemma give_back_alloc st a off P :
  allocator st = Some a → give_back off P st = set_allocator (Some (free off P a)) st.
Proof. rewrite /give_back. by intros ->. Qed.

(** The store without [key], its extent free again. *)
Definition dropped (key : string) e st : Inner :=
  give_back (i_offset e) (i_padded_size e) (set_files (delete key (files (index st))) st).

Lemma dropped_spec hi st key e :
  inner_ok hi st → files (index st) !! key = Some e →
  inner_ok hi (dropped key e st) ∧
  index (dropped key e st) = mkIndex (delete key (files (index st))) (tombstones (index st)) ∧
  io (dropped key e st) = io st ∧ superblock (dropped key e st) = superblock st ∧
  compression (dropped key e st) = compression st ∧
  max_key_length (dropped key e st) = max_key_length st ∧
  dirty (dropped key e st) = dirty st ∧ shard_dirty (dropped key e st) = shard_dirty st ∧
  read_only (dropped key e st) = read_only st.
Proof.
  intros [[Hro Hiro] (a & Ha & Ht) He Hs Hsd] Hk. rewrite /dropped.
  rewrite (give_back_alloc _ a) //. split_and!; try done. split; simpl; try done.
  - eexists. split; [done|]. apply tiles_free. eapply tiles_perm; [|exact Ht]. by apply extents_delete.
  - by apply map_Forall_delete.
Qed.

Lemma dropped_change hi st key e l d :
  inner_ok hi st → index_in_range (index st) → files (index st) !! key = Some e →
  l = <[Z.to_nat (shard_for_key key) := true]> (shard_dirty st) → (d = false → False) →
  let st' := set_dirty d (set_shard_dirty l (dropped key e st)) in
  change hi st st' ∧ contents st' = delete key (contents st).
Proof.
  intros Hok Hr Hk -> Hd st'.
  destruct (dropped_spec hi st key e Hok Hk) as (Hok' & Hi & Hio & Hsb & Hc & Hm & _ & Hsd & _).
  apply index_in_range_iff in Hr as [Hrf Hrt].
  assert (files (index st') = delete key (files (index st))) as Hfiles by by rewrite /st' /= Hi.
  split.
  - split; try done.
    + destruct Hok' as [? ? ? ? Hl]. split; try done. by rewrite /st' /= length_insert -Hsd.
    + rewrite /st' /= Hio. apply only_free_refl.
    + intros k e'. rewrite Hfiles lookup_delete_Some. intros [_ Hk']. left. by exists k, e'.
    + apply index_in_range_iff. rewrite Hfiles. split; [by apply map_Forall_delete|].
      by rewrite /st' /= Hi.
    + intros i. rewrite /st' /=. intros [Hi' Hne]%marked_key. split; [done|]. apply bucket_ext.
      intros k Hks. rewrite Hi /= lookup_delete_ne; [done|congruence].
  - apply map_eq. intros k. destruct (decide (k = key)) as [->|Hne].
    + by rewrite lookup_delete_eq contents_lookup Hfiles lookup_delete_eq.
    + rewrite lookup_delete_ne //. apply contents_io; [done|done|]. by rewrite Hfiles lookup_delete_ne.
Qed.

(** ** [delete] *)

Lemma delete_object_spec hi st location :
  inner_ok hi st → index_in_range (index st) →
  let '(st', r) := delete_object location st in
  r = Ok tt ∧ change hi st st' ∧ contents st' = delete location (contents st) ∧
  tombstones (index st') = tombstones (index st).
Proof.
  intros Hok Hr. pose proof Hok as [[Hro _] _ _ _ Hsd]. rewrite /delete_object Hro /take_entry.
  destruct (files (index st) !! location) as [e|] eqn:Hk.
  - destruct (dropped_spec hi st location e Hok Hk) as ([_ _ _ _ Hl] & Hi & _ & _ & _ & _ & _ & Hsd' & _).
    change (give_back _ _ _) with (dropped location e st).
    rewrite /os_err {1}/sm_bind mark_shard_dirty_run // /sm_modify.
    destruct (dropped_change hi st location e (<[Z.to_nat (shard_for_key location):=true]>
      (shard_dirty st)) true) as [Hch Hc]; try done.
    rewrite Hsd'. split_and!; try done. by rewrite /= Hi.
  - split_and!; [done|by apply change_refl| |done]. rewrite delete_id //.
    by rewrite contents_lookup Hk.
Qed.

(** ** [put], [copy] *)

Lemma put_change hi st st' key e data now meta_len :
  installed hi st st' key e data → index_in_range (index st) → zlen data < two64 →
  is_u64 (txn_id (superblock st)) → i_created_txn e = txn_id (superblock st) →
  i_last_modified e = now → - 2 ^ 63 <= now < 2 ^ 63 → i_meta_len e = meta_len → 0 <= meta_len < 2 ^ 16 →
  tombstones (index st') = delete key (tombstones (index st)) ∨
  tombstones (index st') = tombstones (index st) →
  change hi st st'.
Proof.
  intros Hin Hr Hz Ht Hct Hnow Hnowr Hml Hmlr Htb.
  eapply installed_change; try done; try (by rewrite ?Hnow ?Hml); try u64.
  - intros k Hne. destruct Htb as [->| ->]; [by rewrite lookup_delete_ne|done].
  - intros k t. destruct Htb as [->| ->]; [by intros [_ ?]%lookup_delete_Some|done].
Qed.

(** The outcome of storing [body] with [metadata] under [key]. *)
Definition stores (hi : Z) st st' (key : string) (body metadata : list byte) : Prop :=
  change hi st st' ∧ contents st' = <[key := (body, metadata)]> (contents st).
Definition fails (hi : Z) st st' : Prop := change hi st st' ∧ contents st' = contents st.

Lemma unchanged_fails hi st st' : unchanged hi st st' → index_in_range (index st) → fails hi st st'.
Proof. intros Hun Hr. split; [by apply unchanged_change|by eapply contents_unchanged]. Qed.

Lemma split_at_app body metadata :
  split_at (sat_sub (zlen (body ++ metadata)) (zlen metadata)) (body ++ metadata) = (body, metadata).
Proof.
  pose proof (zlen_nonneg body). pose proof (zlen_nonneg metadata).
  assert (sat_sub (zlen (body ++ metadata)) (zlen metadata) = zlen body) as ->
    by (rewrite zlen_app /sat_sub; lia).
  by rewrite /split_at ztake_app_exact // zdrop_app_exact.
Qed.

Lemma do_put_stores hi st now key body metadata :
  inner_ok hi st → index_in_range (index st) → is_u64 (txn_id (superblock st)) →
  zlen (body ++ metadata) < 2 ^ 63 → zlen metadata < 2 ^ 16 → - 2 ^ 63 <= now < 2 ^ 63 →
  let '(st', r) := do_put_with_meta now key (body ++ metadata) (zlen metadata) st in
  match r with
  | Ok _ => stores hi st st' key body metadata ∧
      tombstones (index st') = delete key (tombstones (index st))
  | Err err => fails hi st st' ∧ put_error st key (body ++ metadata) err
  | Panic => False
  end.
Proof.
  intros Hok Hr Ht Hlen Hml Hnow. pose proof (zlen_nonneg metadata).
  pose proof (do_put_spec (hi:=hi) now key (body ++ metadata) (zlen metadata) st Hok Hlen) as Hp.
  destruct (do_put_with_meta _ _ _ _ st) as [st' [[]|err|]]; [| |done].
  - destruct Hp as (e & Hin & Hnow' & Hml' & Hct & Htb). split; [|done]. split.
    + eapply (put_change _ _ _ key e _ now (zlen metadata)); try done; [u64|by left].
    + rewrite (contents_installed _ _ _ _ _ _ Hin) Hml' split_at_app. done.
  - destruct Hp as [Hun He]. split; [by apply unchanged_fails|done].
Qed.

Lemma entry_in_index hi st k e :
  inner_ok hi st → index_in_range (index st) → files (index st) !! k = Some e →
  entry_in_range e ∧ entry_ok (compression st) (io st) e ∧ 0 <= logical_size e < two64.
Proof.
  intros Hok [Hrf _]%index_in_range_iff Hk. pose proof (Hrf k e Hk) as He. split; [done|].
  split; [by eapply io_entries|]. destruct He as [_ Hs _ _ _ _ _ Hu]. rewrite /logical_size.
  destruct (_ <? _); u64.
Qed.

Lemma do_copy_stores hi st now from_key to_key :
  inner_ok hi st → index_in_range (index st) → is_u64 (txn_id (superblock st)) →
  - 2 ^ 63 <= now < 2 ^ 63 →
  let '(st', r) := do_copy now from_key to_key st in
  match r with
  | Ok _ => ∃ body metadata, contents st !! from_key = Some (body, metadata) ∧
      stores hi st st' to_key body metadata ∧ tombstones (index st') = tombstones (index st)
  | Err err => fails hi st st' ∧ copy_error st from_key to_key err
  | Panic => False
  end.
Proof.
  intros Hok Hr Ht Hnow. pose proof (do_copy_spec (hi:=hi) now from_key to_key st Hok) as Hc.
  destruct (do_copy _ _ _ st) as [st' [[]|err|]]; [| |done].
  - destruct Hc as (e & off & data & Hk & Hobj & Hin & Htb).
    destruct (entry_in_index hi st from_key e) as (He & Heo & Hlog); [done..|].
    rewrite objects_lookup Hk /= in Hobj. injection Hobj as <-.
    pose proof (logical_size_data _ _ _ Heo) as Hl.
    exists (ztake (body_size e) (entry_data (compression st) (io st) e)),
      (zdrop (body_size e) (entry_data (compression st) (io st) e)).
    split; [by rewrite contents_lookup Hk|]. split; [|done]. split.
    + eapply (put_change _ _ _ to_key _ _ now (i_meta_len e)); try done; [lia|apply (er_meta _ He)|by right].
    + by rewrite (contents_installed _ _ _ _ _ _ Hin) /= -Hl.
  - destruct Hc as [Hun He]. split; [by apply unchanged_fails|done].
Qed.

(** ** [rename] *)

(** Moving an entry within the index, freeing what it replaces. *)
Lemma tiles_move hi a m from_key to_key info :
  tiles DATA_START hi a (extents m) → m !! from_key = Some info →
  let m1 := delete from_key m in
  let a' := match m1 !! to_key with
            | Some old => free (i_offset old) (i_padded_size old) a
            | None => a
            end in
  tiles DATA_START hi a' (extents (<[to_key := info]> m1)).
Proof.
  intros Ht Hf m1 a'. eapply tiles_perm in Ht; [|by apply (extents_delete m from_key info)].
  fold m1 in Ht. subst a'. destruct (m1 !! to_key) as [old|] eqn:Ho.
  - rewrite -insert_delete_eq. eapply tiles_perm; [symmetry; apply extents_insert, lookup_delete_eq|].
    apply tiles_free. eapply tiles_perm; [|exact Ht].
    rewrite (extents_delete m1 to_key old Ho). apply Permutation_swap.
  - eapply tiles_perm; [symmetry; by apply extents_insert|done].
Qed.

(** The end of both renames, from the state without the two old entries. *)
Lemma finish_rename_spec hi st st2 a from_key to_key info :
  inner_ok hi st → index_in_range (index st) → files (index st) !! from_key = Some info →
  let m1 := delete from_key (files (index st)) in
  index st2 = mkIndex (delete to_key m1) (tombstones (index st)) ∨
    m1 !! to_key = None ∧ index st2 = mkIndex m1 (tombstones (index st)) →
  allocator st = Some a →
  allocator st2 = Some (match m1 !! to_key with
                        | Some old => free (i_offset old) (i_padded_size old) a
                        | None => a end) →
  io st2 = io st → superblock st2 = superblock st → compression st2 = compression st →
  max_key_length st2 = max_key_length st → read_only st2 = read_only st →
  shard_dirty st2 = shard_dirty st →
  let '(st', r) := finish_rename from_key to_key info st2 in
  r = Ok tt ∧ change hi st st' ∧
  contents st' = <[to_key := split_at (body_size info) (entry_data (compression st) (io st) info)]>
                   (delete from_key (contents st)) ∧
  tombstones (index st') = tombstones (index st).
Proof.
  intros Hok Hr Hfrom m1 Hi2 Ha Ha2 Hio Hsb Hc Hm Hro Hsd.
  pose proof Hok as [[Hro' Hiro] (a0 & Ha0 & Ht) He Hs Hl]. assert (a0 = a) as -> by congruence.
  pose proof (tiles_move hi a _ from_key to_key info Ht Hfrom) as Ht'. fold m1 in Ht'.
  assert (<[to_key:=info]> (files (index st2)) = <[to_key:=info]> m1 ∧
    tombstones (index st2) = tombstones (index st)) as [Hfiles Htb].
  { destruct Hi2 as [-> | [_ ->]]; simpl; by rewrite ?insert_delete_eq. }
  rewrite /finish_rename /os_err {1}/sm_bind mark_shard_dirty_run ?Hsd //.
  rewrite {1}/sm_bind mark_shard_dirty_run /= ?length_insert //. rewrite /sm_bind /sm_modify /=.
  set (st' := set_dirty _ _). split; [done|].
  assert (files (index st') = <[to_key:=info]> m1) as Hf' by by rewrite /st' /= Hfiles.
  apply index_in_range_iff in Hr as Hr'. destruct Hr' as [Hrf Hrt].
  assert (∀ k e, files (index st') !! k = Some e → ∃ k0, files (index st) !! k0 = Some e) as Hsub.
  { intros k e. rewrite Hf' lookup_insert_Some. intros [[<- <-]|[_ Hk]]; [by exists from_key|].
    apply lookup_delete_Some in Hk as [_ Hk]. by exists k. }
  split_and!.
  - split; try done.
    + split; simpl.
      * by rewrite Hro Hio.
      * eexists. split; [exact Ha2|]. by rewrite Hfiles.
      * rewrite Hc Hio. intros k e Hk. destruct (Hsub k e) as [k0 Hk0]; [by rewrite /st' /=|]. by apply (He k0).
      * by rewrite Hio.
      * by rewrite !length_insert Hl.
    + rewrite /st' /= Hio. apply only_free_refl.
    + intros k e Hk. destruct (Hsub k e Hk) as [k0 Hk0]. left. by exists k0, e.
    + apply index_in_range_iff. split; [|by rewrite /st' /= Htb].
      intros k e Hk. destruct (Hsub k e Hk) as [k0 Hk0]. by apply (Hrf k0).
    + intros i. rewrite /st' /=. intros [[Hi Hn1]%marked_key Hn2]%marked_key. split; [done|].
      apply bucket_ext. intros k Hk. simpl. rewrite Hfiles Htb. split; [|done].
      rewrite lookup_insert_ne; [|congruence]. by rewrite lookup_delete_ne; [|congruence].
  - apply map_eq. intros k. rewrite contents_lookup Hf' /st' /= Hc Hio.
    destruct (decide (k = to_key)) as [->|Hne]; [by rewrite !lookup_insert_eq|].
    rewrite !lookup_insert_ne //. destruct (decide (k = from_key)) as [->|Hne'].
    + by rewrite !lookup_delete_eq.
    + by rewrite !lookup_delete_ne // contents_lookup.
  - by rewrite /st' /= Htb.
Qed.

(** The errors of a rename; on all of them nothing happens. *)
Definition rename_error st (from_key to_key : string) (err : ObjectStoreError) : Prop :=
  match err with
  | OsGeneric (KeyTooLong n m) => n = key_len to_key ∧ m = max_key_length st ∧ m < n
  | OsNotFound k (NotFound k') => k = from_key ∧ k' = from_key ∧ contents st !! from_key = None
  | _ => False
  end.

Definition renames (hi : Z) st st' (from_key to_key : string) : Prop :=
  change hi st st' ∧ tombstones (index st') = tombstones (index st) ∧
  ∃ c, contents st !! from_key = Some c ∧ contents st' = <[to_key := c]> (delete from_key (contents st)).

Lemma rename_spec hi st from_key to_key :
  inner_ok hi st → index_in_range (index st) →
  let '(st', r) := rename from_key to_key st in
  match r with
  | Ok _ => renames hi st st' from_key to_key
  | Err err => st' = st ∧ rename_error st from_key to_key err
  | Panic => False
  end.
Proof.
  intros Hok Hr. pose proof Hok as [[Hro _] (a & Ha & _) _ _ _]. rewrite /rename Hro.
  destruct (max_key_length st <? key_len to_key) eqn:Hk; [by apply Z.ltb_lt in Hk|].
  rewrite {1}/take_entry. destruct (files (index st) !! from_key) as [info|] eqn:Hf.
  2: { split; [done|]. simpl. by rewrite contents_lookup Hf. }
  set (st1 := set_files _ _).
  set (st2 := match take_entry to_key st1 with Some _ => _ | None => _ end).
  pose proof (finish_rename_spec hi st st2 a from_key to_key info Hok Hr Hf) as Hfin.
  simpl in Hfin. subst st2. rewrite /take_entry /st1 /= in Hfin |- *.
  destruct (delete from_key (files (index st)) !! to_key) as [old|] eqn:Ho.
  - rewrite (give_back_alloc _ a) // in Hfin |- *. ospecialize* Hfin; try done; [by left|].
    destruct (finish_rename _ _ _ _) as [st' r]. destruct Hfin as (-> & Hch & Hc & Htb).
    split; [done|split; [done|]]. eexists. by rewrite contents_lookup Hf.
  - ospecialize* Hfin; try done; [by right|].
    destruct (finish_rename _ _ _ _) as [st' r]. destruct Hfin as (-> & Hch & Hc & Htb).
    split; [done|split; [done|]]. eexists. by rewrite contents_lookup Hf.
Qed.

Lemma rename_if_not_exists_spec hi st from_key to_key :
  inner_ok hi st → index_in_range (index st) →
  let '(st', r) := rename_if_not_exists from_key to_key st in
  match r with
  | Ok _ => contents st !! to_key = None ∧ renames hi st st' from_key to_key
  | Err err => st' = st ∧ (rename_error st from_key to_key err ∨
      err = OsAlreadyExists to_key (AlreadyExists to_key) ∧ is_Some (contents st !! to_key))
  | Panic => False
  end.
Proof.
  intros Hok Hr. pose proof Hok as [[Hro _] (a & Ha & _) _ _ _]. rewrite /rename_if_not_exists Hro.
  destruct (max_key_length st <? key_len to_key) eqn:Hk; [apply Z.ltb_lt in Hk; split; [done|by left]|].
  rewrite contents_lookup. destruct (files (index st) !! to_key) as [e|] eqn:Ht.
  { split; [done|right]. split; [done|by eexists]. }
  rewrite /take_entry. destruct (files (index st) !! from_key) as [info|] eqn:Hf.
  2: { split; [done|left]. simpl. by rewrite contents_lookup Hf. }
  pose proof (finish_rename_spec hi st (set_files (delete from_key (files (index st))) st) a from_key to_key
    info Hok Hr Hf) as Hfin.
  assert (delete from_key (files (index st)) !! to_key = None) as Hto.
  { destruct (decide (from_key = to_key)) as [->|]; [apply lookup_delete_eq|by rewrite lookup_delete_ne]. }
  simpl in Hfin. rewrite Hto in Hfin. ospecialize* Hfin; try done; [by right|].
  destruct (finish_rename _ _ _ _) as [st' r]. destruct Hfin as (-> & Hch & Hc & Htb).
  split; [done|split; [done|split; [done|]]]. eexists. by rewrite contents_lookup Hf.
Qed.

(** ** [set_meta_len] *)

(** The entry keeps its payload; the split moves. *)
Lemma set_meta_len_spec hi st location meta_len :
  inner_ok hi st → index_in_range (index st) → 0 <= meta_len < 2 ^ 16 →
  let '(st', r) := set_meta_len location meta_len st in
  match r with
  | Ok _ => change hi st st' ∧ tombstones (index st') = tombstones (index st) ∧
      ∃ body metadata, contents st !! location = Some (body, metadata) ∧
        contents st' = <[location := split_at (sat_sub (zlen (body ++ metadata)) meta_len)
                                       (body ++ metadata)]> (contents st)
  | Err err => st' = st ∧ err = NotFound location ∧ contents st !! location = None
  | Panic => False
  end.
Proof.
  intros Hok Hr Hml. pose proof Hok as [[Hro Hiro] (a & Ha & Ht) He Hs Hl]. rewrite /set_meta_len.
  destruct (files (index st) !! location) as [e|] eqn:Hk; [|by rewrite contents_lookup Hk].
  change (mkExtentInfo _ _ _ _ _ _ meta_len _) with (with_meta_len meta_len e).
  rewrite {1}/sm_bind {1}/sm_modify {1}/sm_bind mark_shard_dirty_run //= /sm_modify.
  set (st' := set_dirty _ _).
  destruct (entry_in_index hi st location e) as (Hre & Hoe & Hlog); [done..|].
  apply index_in_range_iff in Hr as [Hrf Hrt].
  assert (∀ k e', files (index st') !! k = Some e' →
    ∃ e0, files (index st) !! k = Some e0 ∧ same_write e0 e' ∧ entry_ok (compression st) (io st) e' ∧
      entry_in_range e') as Hsub.
  { intros k e'. rewrite /st' /= lookup_insert_Some. intros [[<- <-]|[_ Hk']].
    - exists e. split_and!; [done|done|by destruct Hoe; split|by destruct Hre; split].
    - exists e'. split_and!; [done|done|by apply (He k)|by apply (Hrf k)]. }
  split_and!; [split; try done|done|].
  - split; try done; simpl.
    + exists a. split; [done|]. eapply tiles_perm; [|exact Ht].
      rewrite -(insert_delete_eq _ location) extents_insert ?lookup_delete_eq //.
      by rewrite (extents_delete _ location e Hk).
    + intros k e' Hk'. by destruct (Hsub k e' Hk') as (? & _ & _ & ? & _).
    + by rewrite length_insert.
  - change (io st') with (io st). apply only_free_refl.
  - intros k e' Hk'. left. destruct (Hsub k e' Hk') as (e0 & ? & ? & _). by exists k, e0.
  - apply index_in_range_iff. split; [|done]. intros k e' Hk'. by destruct (Hsub k e' Hk') as (? & _ & _ & _ & ?).
  - intros i. rewrite /st' /=. intros [Hi Hne]%marked_key. split; [done|]. apply bucket_ext.
    intros k Hks. simpl. by rewrite lookup_insert_ne; [|congruence].
  - pose proof (logical_size_data _ _ _ Hoe) as Hld.
    set (data := entry_data (compression st) (io st) e) in *.
    exists (ztake (body_size e) data), (zdrop (body_size e) data).
    rewrite contents_lookup Hk ztake_zdrop. split; [done|]. apply map_eq. intros k.
    destruct (decide (k = location)) as [->|Hne].
    + rewrite lookup_insert_eq contents_lookup /st' /= lookup_insert_eq /=. do 2 f_equal.
      change (body_size (with_meta_len meta_len e)) with (sat_sub (logical_size e) meta_len).
      by rewrite Hld.
    + rewrite lookup_insert_ne //. apply contents_io; [done|done|]. by rewrite /st' /= lookup_insert_ne.
Qed.

(** ** Tombstones *)

Lemma tombstones_change hi st st' m :
  inner_ok hi st → index_in_range (index st) →
  io st' = io st → allocator st' = allocator st → superblock st' = superblock st →
  compression st' = compression st → max_key_length st' = max_key_length st →
  read_only st' = read_only st → index st' = mkIndex (files (index st)) m →
  (∀ k t, m !! k = Some t → tombstones (index st) !! k = Some t) →
  length (shard_dirty st') = 256%nat →
  (∀ i, shard_dirty st' !! i = Some false → shard_dirty st !! i = Some false ∧
     ∀ k, Z.to_nat (shard_for_key k) = i → m !! k = tombstones (index st) !! k) →
  dirty st' = true → change hi st st' ∧ contents st' = contents st.
Proof.
  intros [[Hro Hiro] (a & Ha & Ht) He Hs Hl] [Hrf Hrt]%index_in_range_iff Hio Hal Hsb Hc Hm Hr Hi Hsub Hlen Hfl Hd.
  split.
  - split; rewrite ?Hi //.
    + split; rewrite ?Hi ?Hio ?Hc ?Hr //. exists a. by rewrite Hal.
    + rewrite Hio. apply only_free_refl.
    + intros k e Hk. left. by exists k, e.
    + apply index_in_range_iff. split; [done|]. intros k t Hk. by apply (Hrt k), Hsub.
    + intros i Hfi. destruct (Hfl i Hfi) as [? Hk]. split; [done|]. apply bucket_ext. intros k Hks.
      split; [done|]. simpl. apply Hk. lia.
    + by rewrite Hd.
  - apply map_eq. intros k. apply contents_io; [done|done|by rewrite Hi].
Qed.

Lemma delete_tombstone_spec hi st path :
  inner_ok hi st → index_in_range (index st) →
  let b := bool_decide (is_Some (tombstones (index st) !! path) ∧ contents st !! path = None) in
  let '(st', r) := delete_tombstone path st in
  fails hi st st' ∧ r = Ok b ∧
  tombstones (index st') = (if b then delete path (tombstones (index st)) else tombstones (index st)).
Proof.
  intros Hok Hr. pose proof Hok as [[Hro _] _ _ _ Hl]. rewrite /delete_tombstone Hro contents_lookup.
  destruct (files (index st) !! path) as [e|] eqn:Hf.
  { rewrite bool_decide_false; [|by intros [_ ?]]. split; [split; [by apply change_refl|done]|done]. }
  destruct (tombstones (index st) !! path) as [t|] eqn:Ht.
  2: { rewrite bool_decide_false; [|by intros [[? ?] _]]. split; [split; [by apply change_refl|done]|done]. }
  rewrite bool_decide_true; [|by split; [eexists|]].
  rewrite {1}/sm_bind {1}/sm_modify {1}/sm_bind mark_shard_dirty_run //= /sm_bind /sm_modify /sm_ret.
  split; [|done]. eapply (tombstones_change hi st); try done; simpl.
  - intros k x. by intros [_ ?]%lookup_delete_Some.
  - by rewrite length_insert.
  - intros i [Hi Hne]%marked_key. split; [done|]. intros k Hk. rewrite lookup_delete_ne //.
    intros <-. pose proof (shard_for_key_range path). lia.
Qed.
End contents.
