(* ===== verification/StreamedWrites.v ===== *)
(** * Extents written from another source

    [put_with_meta_from_file] streams a file, [update_metadata] an old extent
    and [complete] the parts of an upload, through the same block writer.
    Each loop feeds the writer; [fed_ok] is its invariant. *)

From S2P Require Import Prelude.
From S2P Require Import Config.
From S2P Require Import Device.
From S2P Require Import Allocator.
From S2P Require Import Extent.
From S2P Require Import Streaming.
From S2P Require Import Index.
From S2P Require Import Superblock.
From S2P Require Import Inner.
From S2P Require Import InnerFacts.
From S2P Require Import RawStore.
From S2P Require Import StoreTools.
From S2P Require Import StoreMeta.
From S2P Require Import ObjectStoreApi.
From S2P Require Import Multipart.

Section streamed.
Context `{Crc32cLaws, CodecLaws}.
Implicit Types (d : DeviceIo) (p : list byte) (w : StreamingBlockWriter).

(** What a feeding loop leaves: only the extent is touched, and on success
    the writer holds [p] and the loop returned its CRC. *)
Record fed_ok (off lim : Z) d0 p w (r : Res RawStoreError Z) : Prop := {
  fd_frame : dev_frame off lim d0 (w_io w);
  fd_no_panic : r ≠ Panic;
  fd_ok c : r = Ok c → c = Extent.crc32c p ∧ ∃ rs, writer_inv off d0 p w rs;
}.

Lemma writer_frame off lim d0 p w rs :
  writer_inv off d0 p w rs → off + num_blocks (zlen p) * 4096 <= lim → dev_frame off lim d0 (w_io w).
Proof.
  intros Hi Hl. apply (writer_inv_frame off lim d0 p [] w rs Hi). by rewrite app_nil_r.
Qed.

Lemma num_blocks_mono a b : 0 <= a <= b → num_blocks a <= num_blocks b.
Proof. intros. rewrite !num_blocks_eq; [apply Z.div_le_mono; lia|lia..]. Qed.

(** A write of one more piece. *)
Lemma feed_step off lim d0 fed piece w rs :
  writable off lim d0 → writer_inv off d0 fed w rs →
  off + num_blocks (zlen (fed ++ piece)) * 4096 <= lim →
  let '(w', r) := write_chunk piece w in
  match r with
  | Ok _ => ∃ rs', writer_inv off d0 (fed ++ piece) w' rs'
  | Err e => dev_frame off lim d0 (w_io w') ∧ (∃ k m, e = Io k m) ∧ ¬ no_faults (env (disk d0))
  | Panic => False
  end.
Proof.
  intros Hw Hi Hl. pose proof (write_chunk_spec off lim d0 piece fed w rs Hw Hi Hl) as Hc.
  destruct (write_chunk piece w) as [w' [[]|e|]]; destruct Hc as (Hio & Hfr & Htot & Hok); [by apply Hok| |done].
  split; [done|]. split; [destruct e; try done; by eauto|]. intros Hn. by specialize (Htot Hn).
Qed.

(** Finishing a fed writer completes the extent. *)
Lemma feed_finish off d0 p w rs :
  p ≠ [] → writable off (off + num_blocks (zlen p) * 4096) d0 → writer_inv off d0 p w rs →
  let '(w', r) := writer_finish w in
  extent_outcome off p d0 (w_io w')
    (match r with Ok _ => Ok (Extent.crc32c p) | Err e => Err e | Panic => Panic end).
Proof.
  intros Hp Hw Hi. pose proof (writer_finish_spec off d0 p w rs Hw Hi) as Hf.
  destruct (writer_finish w) as [w' r]. by eapply write_outcome_extent.
Qed.

(** ** From a file *)

(** The bytes delivered before the first error. *)
Fixpoint delivered (reads : list (Res RawStoreError (list byte))) : list byte :=
  match reads with Ok b :: reads' => b ++ delivered reads' | _ => [] end.

(** A file that delivers [sf_len] bytes, or fails on the way. *)
Definition file_ok (f : SourceFile) : Prop :=
  Forall (λ r, r ≠ Panic) (sf_reads f) ∧ zlen (delivered (sf_reads f)) <= sf_len f ∧
  ∀ p, read_to_end (sf_reads f) = Ok p → zlen p = sf_len f.

Lemma read_to_end_delivered reads p : read_to_end reads = Ok p → delivered reads = p.
Proof.
  revert p. induction reads as [|r reads IH]; intros p; simpl; [by intros [= <-]|].
  destruct r as [b|e|]; [|done..]. simpl. destruct (read_to_end reads) as [q|e|]; [|done..].
  intros [= <-]. by rewrite (IH q).
Qed.

Lemma read_to_end_cases reads :
  Forall (λ r, r ≠ Panic) reads → read_to_end reads ≠ Panic.
Proof.
  induction 1 as [|r reads Hr Hrs IH]; [done|]. simpl. destruct r as [b|e|]; [|done..].
  simpl. by destruct (read_to_end reads).
Qed.

Lemma stream_reads_spec reads off lim d0 fed w rs :
  Forall (λ r, r ≠ Panic) reads → writable off lim d0 → writer_inv off d0 fed w rs →
  off + num_blocks (zlen (fed ++ delivered reads)) * 4096 <= lim →
  let '(w', r) := stream_reads reads (Extent.crc32c fed) w in
  fed_ok off lim d0 (fed ++ delivered reads) w' r ∧
  (is_ok r = true → is_ok (read_to_end reads) = true) ∧
  (∀ e, r = Err e → read_to_end reads = Err e ∨ ¬ no_faults (env (disk d0))).
Proof.
  intros Hnp Hw. revert fed w rs. induction Hnp as [|r reads Hr Hrs IH]; intros fed w rs Hi Hl.
  { simpl. rewrite app_nil_r in Hl |- *. split; [|done]. split; [by eapply writer_frame|done|].
    intros c [= <-]. split; [done|by exists rs]. }
  assert (dev_frame off lim d0 (w_io w)) as Hfr.
  { eapply writer_frame; [exact Hi|]. pose proof (zlen_nonneg fed).
    pose proof (num_blocks_mono (zlen fed) (zlen (fed ++ delivered (r :: reads)))) as Hm.
    rewrite zlen_app in Hm, Hl. pose proof (zlen_nonneg (delivered (r :: reads))). lia. }
  simpl. rewrite /sm_bind /sm_lift. destruct r as [buf|e|]; [|split_and!; [by split|done|]|done].
  2: { intros ? [= <-]. by left. }
  simpl in Hl. rewrite app_assoc in Hl.
  pose proof (feed_step off lim d0 fed buf w rs Hw Hi) as Hc. ospecialize* Hc.
  { pose proof (num_blocks_mono (zlen (fed ++ buf)) (zlen ((fed ++ buf) ++ delivered reads))) as Hm.
    rewrite (zlen_app (fed ++ buf)) in Hm, Hl. pose proof (zlen_nonneg (delivered reads)).
    pose proof (zlen_nonneg (fed ++ buf)). lia. }
  simpl. destruct (write_chunk buf w) as [w1 [[]|e|]]; [| |done].
  - destruct Hc as [rs1 Hi1]. rewrite crc32c_append_app app_assoc. specialize (IH _ w1 rs1 Hi1 Hl).
    destruct (stream_reads reads _ w1) as [w' r]. destruct IH as (Hfed & H1' & H2').
    split; [done|]. split.
    + intros Hr'. specialize (H1' Hr'). by destruct (read_to_end reads).
    + intros e ->. destruct (H2' e eq_refl) as [->|?]; [by left|by right].
  - destruct Hc as (Hfr1 & _ & Hnf). split; [by split|]. split; [done|]. intros ? _. by right.
Qed.

Lemma stream_file_spec off f d :
  0 < sf_len f → file_ok f → writable off (off + num_blocks (sf_len f) * 4096) d →
  let '(d', r) := stream_file off f d in
  dev_frame off (off + num_blocks (sf_len f) * 4096) d d' ∧
  match r with
  | Ok c => ∃ p, read_to_end (sf_reads f) = Ok p ∧ c = Extent.crc32c p ∧ stored d' off p
  | Err e => read_to_end (sf_reads f) = Err e ∨ ¬ no_faults (env (disk d))
  | Panic => False
  end.
Proof.
  intros Hpos (Hnp & Hdel & Hlen) Hw. rewrite /stream_file.
  pose proof (zlen_nonneg (delivered (sf_reads f))).
  pose proof (num_blocks_mono (zlen (delivered (sf_reads f))) (sf_len f)).
  pose proof (stream_reads_spec (sf_reads f) off _ d [] (writer_new d off) [] Hnp Hw
    (writer_new_inv off d)) as Hs. rewrite app_nil_l crc32c_nil in Hs. ospecialize* Hs; [lia|].
  rewrite {1}/sm_bind. destruct (stream_reads _ _ _) as [w r]. destruct Hs as ([Hfr Hp Hok] & Hr1 & Hr2).
  pose proof (read_to_end_cases _ Hnp) as Hrp.
  destruct (read_to_end (sf_reads f)) as [p|e0|] eqn:Hrte; [| |done].
  - rewrite (read_to_end_delivered _ _ Hrte) in Hok. specialize (Hlen p eq_refl).
    destruct r as [c|e|]; [|split; [done|by apply Hr2]|done].
    destruct (Hok c eq_refl) as (-> & rs & Hi). rewrite /sm_bind.
    assert (p ≠ []) as Hpne by (intros ->; rewrite zlen_nil in Hlen; lia).
    rewrite -Hlen in Hw |- *. pose proof (feed_finish off d p w rs Hpne Hw Hi) as Hf.
    destruct (writer_finish w) as [w' [[]|e|]]; destruct Hf as [Hfr' Hio Htot Hst]; simpl.
    + split; [done|]. exists p. split_and!; [done..|]. by apply (Hst (Extent.crc32c p)).
    + split; [done|right]. intros Hn. by specialize (Htot Hn).
    + done.
  - destruct r as [c|e|]; [by specialize (Hr1 eq_refl)|split; [done|by apply Hr2]|done].
Qed.

(** ** From another extent of the device *)

(** The source extent is out of the writer's way. *)
Lemma stored_frame d d' lo hi off p :
  dev_frame lo hi d d' → off + num_blocks (zlen p) * 4096 <= lo ∨ hi <= off →
  stored d off p → stored d' off p.
Proof.
  intros Hfr Hd Hs. rewrite /stored -Hs. apply read_bytes_ext. intros i Hi.
  apply (frame_bytes _ _ _ _ Hfr). lia.
Qed.

Section copying.
Context (src dst lim : Z) (p : list byte) (d0 : DeviceIo).
Hypotheses (Hst : stored d0 src p) (Hsrc : 0 <= src) (Hend : src + num_blocks (zlen p) * 4096 < two64)
  (Hp : zlen p < two64) (Hdir : direct d0 = true → src mod 4096 = 0)
  (Hfs : src + num_blocks (zlen p) * 4096 <= file_size (disk d0))
  (Hdis : src + num_blocks (zlen p) * 4096 <= dst ∨ lim <= src) (Hw : writable dst lim d0).

Lemma source_readable d : dev_frame dst lim d0 d → readable d src p ∧
  (no_faults (env (disk d0)) → no_faults (env (disk d)) ∧
     src + num_blocks (zlen p) * 4096 <= file_size (disk d)).
Proof using All.
  intros Hfr. split.
  - split_and!; try done.
    + rewrite -(ztake_ge (zlen p) p); [|lia]. apply stored_holds; [|pose proof (zlen_nonneg p); lia].
      by eapply stored_frame.
    + by rewrite (frame_direct _ _ _ _ Hfr).
  - intros Hn. rewrite (frame_env _ _ _ _ Hfr). pose proof (frame_size _ _ _ _ Hfr). split; [done|lia].
Qed.

(** The first [n] bytes, batch by batch; [a] blocks are done. *)
Lemma copy_body_spec fuel n a r w rs :
  0 <= n <= zlen p → dst + num_blocks n * 4096 <= lim →
  0 <= a <= num_blocks (zlen p) → num_blocks (zlen p) - a < Z.of_nat fuel →
  reader_at (r_io r) src p a r →
  writer_inv dst d0 (ztake (Z.min (a * 4092) n) p) w rs →
  let '(rw, x) := copy_body fuel (n - Z.min (a * 4092) n) (Extent.crc32c (ztake (Z.min (a * 4092) n) p)) (r, w) in
  fed_ok dst lim d0 (ztake n p) rw.2 x ∧ (no_faults (env (disk d0)) → is_ok x = true) ∧
  (∀ e, x = Err e → ∃ k m, e = Io k m).
Proof using All.
  intros Hn Hl. revert a r w rs. induction fuel as [|fuel IH]; intros a r w rs Ha Hf Hra Hi; [lia|].
  pose proof (num_blocks_spec (zlen p) (zlen_nonneg p)). pose proof (num_blocks_spec n ltac:(lia)).
  set (c := Z.min (a * 4092) n) in *.
  assert (zlen (ztake c p) = c) as Hzc by (rewrite zlen_ztake; lia).
  assert (dev_frame dst lim d0 (w_io w)) as Hfr.
  { eapply writer_frame; [exact Hi|]. rewrite Hzc. pose proof (num_blocks_mono c n). lia. }
  simpl. destruct (0 <? n - c) eqn:E; [apply Z.ltb_lt in E|apply Z.ltb_ge in E].
  2: { assert (c = n) as Hcn by lia. rewrite Hcn in Hi |- *.
       split; [|by split]. split; [done|done|]. intros ? [= <-]. split; [done|by exists rs]. }
  assert (c = a * 4092) as Hca by lia. assert (a < num_blocks (zlen p)) as Han by lia.
  destruct (source_readable (w_io w) Hfr) as [Hrd Hnf].
  assert (reader_at (w_io w) src p a (with_r_io (w_io w) r)) as Hra' by by destruct Hra.
  pose proof (next_chunk_spec (w_io w) src p a _ Hrd Hra') as Hnc.
  rewrite /sm_bind /copy_next. destruct (next_chunk (with_r_io (w_io w) r)) as [r1 x1].
  destruct Hnc as [Hcase Htot]. rewrite decide_False in Hcase; [|lia]. rewrite decide_False in Htot; [|lia].
  set (b := Z.min (a + BATCH_BLOCKS) (num_blocks (zlen p))) in *.
  assert (a < b <= num_blocks (zlen p)) as Hb by (subst b; blk).
  destruct Hcase as [[Hra1 ->]|[-> (k & m & ->)]].
  2: { split; [by split|]. split; [|intros ? [= <-]; by eauto]. intros Hn0.
       destruct (Hnf Hn0) as [? ?]. destruct (Htot) as [_ ?]; done. }
  set (chunk := chunk_of p a b). set (take := Z.min (zlen chunk) (n - c)).
  assert (zlen chunk = Z.min ((b - a) * 4092) (zlen p - a * 4092)) as Hzch.
  { rewrite /chunk /chunk_of zlen_ztake; [|lia]. rewrite zlen_zdrop; lia. }
  assert (ztake c p ++ ztake take chunk = ztake (Z.min (b * 4092) n) p) as Hcat.
  { rewrite /chunk /chunk_of ztake_ztake Hca -ztake_add; [|lia..]. f_equal. lia. }
  pose proof (feed_step dst lim d0 (ztake c p) (ztake take chunk) w rs Hw Hi) as Hc.
  rewrite Hcat in Hc. ospecialize* Hc.
  { rewrite zlen_ztake; [|lia]. pose proof (num_blocks_mono (Z.min (Z.min (b * 4092) n) (zlen p)) n). lia. }
  rewrite /copy_write. destruct (write_chunk _ w) as [w1 [[]|e|]]; [| |done].
  - destruct Hc as [rs1 Hi1]. rewrite crc32c_append_app Hcat.
    replace (n - c - take) with (n - Z.min (b * 4092) n) by lia.
    eapply IH; [lia|lia| |exact Hi1]. by destruct Hra1.
  - destruct Hc as (Hfr1 & (k & m & ->) & Hnf'). split; [by split|]. split; [|intros ? [= <-]; by eauto].
    intros Hn0. by destruct Hnf'.
Qed.
End copying.

(** [update_metadata]'s stream: the body of the old extent, then the metadata. *)
Lemma stream_update_spec e new_offset n metadata p d :
  stored d (i_offset e) p → i_size e = zlen p → 0 <= n <= zlen p → ztake n p ++ metadata ≠ [] →
  let lim := new_offset + num_blocks (n + zlen metadata) * 4096 in
  0 <= i_offset e → i_offset e + num_blocks (zlen p) * 4096 < two64 → zlen p < two64 →
  (direct d = true → i_offset e mod 4096 = 0) → i_offset e + num_blocks (zlen p) * 4096 <= file_size (disk d) →
  i_offset e + num_blocks (zlen p) * 4096 <= new_offset ∨ lim <= i_offset e → writable new_offset lim d →
  let '(d', r) := stream_update e new_offset n metadata d in
  extent_outcome new_offset (ztake n p ++ metadata) d d' r.
Proof.
  intros Hst Hsz Hn Hne lim Hs1 Hs2 Hs3 Hs4 Hs5 Hdis Hw. pose proof (zlen_nonneg metadata).
  assert (zlen (ztake n p) = n) as Hzn by (rewrite zlen_ztake; lia).
  assert (zlen (ztake n p ++ metadata) = n + zlen metadata) as Hz by (rewrite zlen_app; lia).
  pose proof (num_blocks_mono n (n + zlen metadata)).
  pose proof (num_blocks_spec (zlen p) (zlen_nonneg p)).
  pose proof (copy_body_spec (i_offset e) new_offset lim p d Hst Hs1 Hs2 Hs3 Hs4 Hs5 Hdis Hw
    (Z.to_nat (num_blocks (i_size e)) + 1) n 0 (reader_new d (i_offset e) (zlen p)) (writer_new d new_offset) []) as Hb.
  rewrite Z.mul_0_l Z.min_l in Hb; [|lia]. rewrite ztake_0 crc32c_nil Z.sub_0_r in Hb.
  ospecialize* Hb; [done|lia|lia|rewrite Hsz; lia|apply reader_new_at|apply writer_new_inv|].
  rewrite /stream_update Hsz {1}/sm_bind. rewrite Hsz ?Z.sub_0_r in Hb.
  destruct (copy_body _ _ _ _) as [[r w] x]. destruct Hb as ([Hfr Hnp Hok] & Htot & Herr). simpl in *.
  destruct x as [crc|err|]; [| |done].
  2: { destruct (Herr err eq_refl) as (k & m & ->). rewrite /lim -Hz in Hfr. split; try done.
       intros Hnf. by specialize (Htot Hnf). }
  destruct (Hok crc eq_refl) as (-> & rs & Hi).
  assert (∀ w2 rs2, writer_inv new_offset d (ztake n p ++ metadata) w2 rs2 →
    let '(w', f) := writer_finish w2 in
    extent_outcome new_offset (ztake n p ++ metadata) d (w_io w')
      (match f with Ok _ => Ok (Extent.crc32c (ztake n p ++ metadata)) | Err e => Err e | Panic => Panic end)) as Hfin.
  { intros w2 rs2 Hi2. eapply feed_finish; [done| |exact Hi2]. by rewrite Hz. }
  case_decide as Hm.
  - subst metadata. rewrite app_nil_r in Hfin |- *. simpl. specialize (Hfin w rs Hi).
    by destruct (writer_finish w) as [w' f].
  - pose proof (feed_step new_offset lim d (ztake n p) metadata w rs Hw Hi) as Hc.
    ospecialize* Hc; [rewrite Hz; lia|]. rewrite /sm_bind /copy_write.
    destruct (write_chunk metadata w) as [w1 [[]|err|]]; [| |done].
    + destruct Hc as [rs1 Hi1]. rewrite /= crc32c_append_app. specialize (Hfin w1 rs1 Hi1).
      by destruct (writer_finish w1) as [w' f].
    + destruct Hc as (Hfr1 & (k & m & ->) & Hnf). simpl. rewrite /lim -Hz in Hfr1. split; try done.
Qed.

(** ** Allocate, write, finish *)

(** The common shape of the three operations.  [good w payload] relates the
    bytes written to the object; [bad] are the errors of the writer. *)
Definition placed (now : Z) (key : string) (n meta_len u : Z) (write : Z → SM DeviceIo RawStoreError Z) :
    SM Inner RawStoreError unit :=
  padded <- sm_lift (padded_extent_size n) ;;
  offset <- alloc_extent padded ;;
  crc <- sm_on_err (on_io (write offset)) (give_back offset padded) ;;
  finish_put now key offset n padded crc meta_len u.

Definition no_space st (n : Z) (e : RawStoreError) : Prop :=
  ∃ a, allocator st = Some a ∧ Forall (λ r, r.2 < num_blocks n * 4096) (free_list a) ∧
    e = NoSpace (num_blocks n * 4096) (largest (free_list a)).

Lemma placed_spec hi st now key n meta_len u write (good : list byte → list byte → Prop) (bad : RawStoreError → Prop) :
  inner_ok hi st → 0 < n < 2 ^ 63 →
  (∀ v payload, good v payload → zlen v = n ∧
    (u = 0 ∧ v = payload ∨ u = zlen payload ∧ 0 < u ∧ decompress (compression st) v = Ok payload)) →
  (∀ off, writable off (off + num_blocks n * 4096) (io st) →
    (∀ k e, files (index st) !! k = Some e →
      i_offset e + num_blocks (i_size e) * 4096 <= off ∨ off + num_blocks n * 4096 <= i_offset e) →
    let '(d', r) := write off (io st) in
    dev_frame off (off + num_blocks n * 4096) (io st) d' ∧
    match r with
    | Ok c => ∃ v payload, good v payload ∧ c = Extent.crc32c v ∧ stored d' off v
    | Err e => bad e
    | Panic => False
    end) →
  let '(st', r) := placed now key n meta_len u write st in
  match r with
  | Ok _ => ∃ v payload e, good v payload ∧ installed hi st st' key e payload ∧
      i_created_txn e = txn_id (superblock st) ∧ i_last_modified e = now ∧ i_meta_len e = meta_len ∧
      tombstones (index st') = delete key (tombstones (index st))
  | Err e => unchanged hi st st' ∧ (bad e ∨ no_space st n e)
  | Panic => False
  end.
Proof.
  intros Hok Hn Hgood Hwrite. pose proof Hok as [[Hro Hiro] (a & Ha & Ht) He Hs Hsd].
  rewrite /placed {1}/sm_bind {1}/sm_lift. pose proof (num_blocks_spec n ltac:(lia)).
  assert (padded_extent_size n = Ok (num_blocks n * 4096)) as HP.
  { rewrite /padded_extent_size /checked_mul. change BLOCK_ALIGNMENT with 4096.
    rewrite (proj2 (Z.ltb_lt _ _)) //. u64. }
  rewrite HP. destruct (payload_request n _ Hn HP) as (_ & Hreq & Hal).
  destruct (alloc_extent_cases (hi:=hi) st a _ Hok Ha Hreq Hal)
    as [(a' & off & Halloc & Hrun & Hwr)|(Hrun & Hall & Hun)]; rewrite {1}/sm_bind Hrun.
  2: { split; [done|right]. by exists a. }
  rewrite {1}/sm_bind {1}/sm_on_err /on_io /sm_zoom. simpl io.
  specialize (Hwrite off Hwr). ospecialize* Hwrite.
  { intros k e Hk. pose proof (tiles_alloc _ _ _ _ _ _ _ Ht Hreq Halloc) as Ht'. rewrite Hal in Ht'.
    pose proof (tiles_disjoint _ _ _ _ _ (extent_of e) Ht' (extents_elem _ _ _ Hk)) as Hd.
    destruct (He k e Hk) as [Hz Hp _ _ _ _]. pose proof (num_blocks_pos (i_size e)).
    pose proof (num_blocks_pos n). apply disjoint_regions_iff in Hd; simpl; rewrite ?Hp; [|lia..].
    simpl in Hd. rewrite Hp in Hd. lia. }
  destruct (write off (io st)) as [d' r]. destruct Hwrite as [Hfr Hr].
  destruct r as [crc|err|]; [| |done].
  2: { split; [by eapply write_failed|by left]. }
  destruct Hr as (v & payload & Hg & -> & Hst). destruct (Hgood v payload Hg) as [Hz Hu].
  pose proof (finish_put_spec (hi:=hi) st a a' now key off _ (Extent.crc32c v) n meta_len u v payload d' Hok Ha Hreq Hal
    Halloc Hfr Hst) as Hfin. ospecialize* Hfin; [by rewrite Hz|done|by rewrite Hz|done|done|].
  rewrite /sm_bind. change (set_io d' _) with (set_io d' (set_allocator (Some a') st)).
  destruct (finish_put _ _ _ _ _ _ _ _ _) as [st' r]. destruct Hfin as (-> & e & Hin & -> & Htb).
  by eexists v, payload, _.
Qed.

(** ** The parts of an upload *)

(** The object data of a list of entries. *)
Definition parts_data st (infos : list ExtentInfo) : list (list byte) :=
  entry_data (compression st) (io st) <$> infos.

Lemma read_part_spec st d e k hi :
  inner_ok hi st → files (index st) !! k = Some e →
  (∀ x, covers (extent_of e) x → byte_at (content (disk d)) x = byte_at (content (disk (io st))) x) →
  direct d = direct (io st) → env (disk d) = env (disk (io st)) →
  file_size (disk (io st)) <= file_size (disk d) →
  match read_part d (compression st) e with
  | Ok c => c = entry_data (compression st) (io st) e
  | Err err => (∃ k m, err = Io k m) ∧ ¬ no_faults (env (disk (io st)))
  | Panic => False
  end.
Proof.
  intros Hok Hk Hb Hdir Henv Hfs. destruct (entry_bounds st k e Hok Hk) as (Hlo & Hhi & Hu64 & Hal).
  pose proof (io_entries _ _ Hok k e Hk) as He.
  destruct (entry_ok_frame _ _ d e Hb He) as [He' Hd]. rewrite -Hd.
  destruct He' as [Hsz Hp Hl Hst Hc Hu]. change DATA_START with 8192 in Hlo.
  pose proof (read_and_decode_batched_spec d (i_offset e) (raw_payload d e) Hst) as Hr.
  rewrite Hl in Hr. destruct Hr as [Hr1 Hr2]; [u64|lia|lia|done|].
  rewrite /read_part /entry_data. destruct Hr1 as [->|(k' & m & Hr1)].
  - simpl. destruct Hu as [->|(Hpos & x & Hx & _)]; [done|]. by rewrite (proj2 (Z.ltb_lt _ _) Hpos) Hx.
  - rewrite Hr1 /=. split; [by eauto|]. intros Hnf. rewrite Hr2 in Hr1; [done|by rewrite Henv|].
    pose proof (io_size _ _ Hok). lia.
Qed.

Section joining.
Context (hi : Z) (st : Inner) (off lim : Z).
Hypotheses (Hok : inner_ok hi st) (Hw : writable off lim (io st))
  (Hdis : ∀ k e, files (index st) !! k = Some e →
    i_offset e + num_blocks (i_size e) * 4096 <= off ∨ lim <= i_offset e).

Lemma join_parts_spec infos fed w rs :
  Forall (λ e, ∃ k, files (index st) !! k = Some e) infos →
  writer_inv off (io st) fed w rs →
  off + num_blocks (zlen (fed ++ concat (parts_data st infos))) * 4096 <= lim →
  let '(w', r) := join_parts (compression st) infos (Extent.crc32c fed) w in
  fed_ok off lim (io st) (fed ++ concat (parts_data st infos)) w' r ∧
  ∀ e, r = Err e → (∃ k m, e = Io k m) ∧ ¬ no_faults (env (disk (io st))).
Proof using All.
  intros Hin. revert fed w rs. induction Hin as [|e infos [k Hk] Hin IH]; intros fed w rs Hi Hl.
  { simpl. rewrite app_nil_r in Hl |- *. split; [|done]. split; [by eapply writer_frame|done|].
    intros c [= <-]. split; [done|by exists rs]. }
  set (rest := concat (parts_data st infos)) in *.
  set (data := entry_data (compression st) (io st) e) in *.
  change (concat (parts_data st (e :: infos))) with (data ++ rest) in Hl |- *.
  rewrite app_assoc in Hl |- *.
  pose proof (zlen_nonneg fed). pose proof (zlen_nonneg data). pose proof (zlen_nonneg rest).
  pose proof (num_blocks_mono (zlen fed) (zlen ((fed ++ data) ++ rest))) as Hm1.
  pose proof (num_blocks_mono (zlen (fed ++ data)) (zlen ((fed ++ data) ++ rest))) as Hm2.
  rewrite !zlen_app in Hm1, Hm2.
  assert (off + num_blocks (zlen fed) * 4096 <= lim) as Hl1 by (rewrite !zlen_app in Hl; lia).
  assert (off + num_blocks (zlen (fed ++ data)) * 4096 <= lim) as Hl2 by (rewrite !zlen_app in Hl |- *; lia).
  pose proof (writer_frame off lim _ fed w rs Hi Hl1) as Hfr.
  pose proof (read_part_spec st (w_io w) e k hi Hok Hk) as Hr. ospecialize* Hr.
  { intros x Hx. apply (frame_bytes _ _ _ _ Hfr). rewrite /covers /= in Hx.
    rewrite (eo_padded _ _ _ (io_entries _ _ Hok k e Hk)) in Hx. specialize (Hdis k e Hk). lia. }
  { apply (frame_direct _ _ _ _ Hfr). }
  { apply (frame_env _ _ _ _ Hfr). }
  { pose proof (frame_size _ _ _ _ Hfr). lia. }
  simpl. rewrite /sm_bind. destruct (read_part _ _ e) as [c|err|]; [| |done].
  2: { split; [by split|]. by intros ? [= <-]. }
  subst c. pose proof (feed_step off lim (io st) fed data w rs Hw Hi Hl2) as Hc.
  fold data. destruct (write_chunk data w) as [w1 [[]|err|]]; [| |done].
  - destruct Hc as [rs1 Hi1]. rewrite crc32c_append_app. by eapply IH.
  - destruct Hc as (Hfr1 & Hio & Hnf). split; [by split|]. by intros ? [= <-].
Qed.

Lemma stream_parts_spec infos :
  Forall (λ e, ∃ k, files (index st) !! k = Some e) infos →
  let p := concat (parts_data st infos) in
  p ≠ [] → lim = off + num_blocks (zlen p) * 4096 →
  let '(d', r) := stream_parts (compression st) off infos (io st) in
  dev_frame off lim (io st) d' ∧
  match r with
  | Ok c => c = Extent.crc32c p ∧ stored d' off p
  | Err e => (∃ k m, e = Io k m) ∧ ¬ no_faults (env (disk (io st)))
  | Panic => False
  end.
Proof using All.
  intros Hin p Hne Hl. rewrite /stream_parts.
  pose proof (join_parts_spec infos [] (writer_new (io st) off) [] Hin (writer_new_inv off (io st))) as Hj.
  rewrite app_nil_l crc32c_nil in Hj. fold p in Hj. ospecialize* Hj; [lia|].
  rewrite {1}/sm_bind. destruct (join_parts _ _ _ _) as [w r]. destruct Hj as ([Hfr Hnp Hokr] & Herr).
  destruct r as [c|e|]; [|split; [done|by apply Herr]|done].
  destruct (Hokr c eq_refl) as (-> & rs & Hi). rewrite /sm_bind.
  pose proof Hw as Hw'. rewrite Hl in Hw' |- *. pose proof (feed_finish off (io st) p w rs Hne Hw' Hi) as Hf.
  destruct (writer_finish w) as [w' [[]|e|]]; destruct Hf as [Hfr' Hio Htot Hst]; simpl.
  + split; [done|]. split; [done|]. by apply (Hst (Extent.crc32c p)).
  + split; [done|]. split; [destruct e; try done; by eauto|]. intros Hn. by specialize (Htot Hn).
  + done.
Qed.
End joining.
End streamed.
