(* ===== verification/MultipartFacts.v ===== *)
(** * Files, metadata updates and multipart completion

    The specifications of the operations that write an extent from another
    source, on the abstract [contents]; the completion and the abort of an
    upload. *)

From S2P Require Import Prelude.
From S2P Require Import Config.
From S2P Require Import Device.
From S2P Require Import Allocator.
From S2P Require Import Extent.
From S2P Require Import Streaming.
From S2P Require Import Index.
From S2P Require Import Superblock.
From S2P Require Import Inner.
From S2P Require Import InnerFacts.
From S2P Require Import RawStore.
From S2P Require Import StoreFacts.
From S2P Require Import Flush.
From S2P Require Import Changes.
From S2P Require Import StoreTools.
From S2P Require Import StoreMeta.
From S2P Require Import ObjectStoreApi.
From S2P Require Import Multipart.
From S2P Require Import ApiFacts.
From S2P Require Import StreamedWrites.

(** What is written can be read back, or reading reports an error. *)
Class TempFilesLaws `{TempFiles} : Prop :=
  spool_ok v : spool_file v ≠ Panic ∧
    ∀ f, spool_file v = Ok f → sf_len f = zlen v ∧ Forall (λ r, r ≠ Panic) (sf_reads f) ∧
      (∃ rest, v = delivered (sf_reads f) ++ rest) ∧
      ∀ p, read_to_end (sf_reads f) = Ok p → p = v.

Section updates.
Context `{Crc32cLaws, CodecLaws, BincodeShardLaws, BincodeSuperblockLaws}.
Implicit Types (st : Inner).

(** The errors of an operation that streams into a fresh extent. *)
Definition io_fault st (e : RawStoreError) : Prop := (∃ k m, e = Io k m) ∧ ¬ no_faults (env (disk (io st))).

Lemma io_fault_other st k m : ¬ no_faults (env (disk (io st))) → io_fault st (Io k m).
Proof. intros Hn. split; [by eauto|done]. Qed.

(** ** [put_with_meta_from_file] *)

Definition file_put_error st (location : string) (file : SourceFile) (e : RawStoreError) : Prop :=
  read_to_end (sf_reads file) = Err e ∨
  e = EmptyPayload ∧ sf_len file = 0 ∨
  e = KeyTooLong (key_len location) (max_key_length st) ∧ max_key_length st < key_len location ∨
  ¬ no_faults (env (disk (io st))) ∨ ∃ n a, e = NoSpace n a.

Lemma put_error_file st location file p e :
  put_error st location p e → zlen p = sf_len file → file_put_error st location file e.
Proof.
  intros He Hz. rewrite /file_put_error. destruct e; simpl in He; try tauto.
  - do 4 right. by eauto.
  - destruct He as (-> & -> & ?). tauto.
  - right. left. split; [done|]. by rewrite -Hz He.
Qed.

Lemma put_with_meta_from_file_spec hi st now location file meta_len :
  inner_ok hi st → index_in_range (index st) → is_u64 (txn_id (superblock st)) →
  file_ok file → 0 <= sf_len file < 2 ^ 63 → 0 <= meta_len < 2 ^ 16 → - 2 ^ 63 <= now < 2 ^ 63 →
  let '(st', r) := put_with_meta_from_file now location file meta_len st in
  match r with
  | Ok _ => change hi st st' ∧ tombstones (index st') = delete location (tombstones (index st)) ∧
      ∃ p, read_to_end (sf_reads file) = Ok p ∧
        contents st' = <[location := split_at (sat_sub (zlen p) meta_len) p]> (contents st)
  | Err e => fails hi st st' ∧ file_put_error st location file e
  | Panic => False
  end.
Proof.
  intros Hok Hr Ht Hf Hlen Hml Hnow. pose proof Hok as [[Hro _] _ _ _ _]. pose proof Hf as (Hnp & Hdel & Hrl).
  assert (∀ st' e p, installed hi st st' location e p → i_created_txn e = txn_id (superblock st) →
    i_last_modified e = now → i_meta_len e = meta_len → zlen p < 2 ^ 63 →
    tombstones (index st') = delete location (tombstones (index st)) →
    change hi st st' ∧ contents st' = <[location := split_at (sat_sub (zlen p) meta_len) p]> (contents st)) as Hin.
  { intros st' e p Hi Hct Hnow' Hml' Hz Htb. split.
    - eapply (put_change _ _ _ location e p now meta_len); try done; [u64|by left].
    - by rewrite (contents_installed _ _ _ _ _ _ Hi) Hml'. }
  assert (∀ e, file_put_error st location file e → fails hi st st ∧ file_put_error st location file e) as Hfail.
  { intros e He. split; [|done]. split; [by apply change_refl|done]. }
  rewrite /put_with_meta_from_file. case_bool_decide as Hc; simpl.
  - rewrite Hro. destruct (sf_len file =? 0) eqn:Hz0.
    { apply Z.eqb_eq in Hz0. apply Hfail. right. by left. }
    apply Z.eqb_neq in Hz0. destruct (max_key_length st <? key_len location) eqn:Hk.
    { apply Z.ltb_lt in Hk. apply Hfail. do 2 right. by left. }
    pose proof (placed_spec hi st now location (sf_len file) meta_len 0 (λ off, stream_file off file)
      (λ v payload, read_to_end (sf_reads file) = Ok v ∧ v = payload)
      (λ e, read_to_end (sf_reads file) = Err e ∨ ¬ no_faults (env (disk (io st))))) as Hp.
    ospecialize* Hp; [done|lia| | |].
    + intros v payload [Hv ->]. split; [by apply Hrl|by left].
    + intros off Hw _. pose proof (stream_file_spec off file (io st) ltac:(lia) Hf Hw) as Hs.
      destruct (stream_file off file (io st)) as [d' r]. destruct Hs as [Hfr Hs]. split; [done|].
      destruct r as [c|e|]; [| |done].
      * destruct Hs as (p & ? & -> & Hst). by exists p, p.
      * done.
    + rewrite /placed in Hp. destruct (sm_bind _ _ st) as [st' [[]|e|]]; [| |done].
      * destruct Hp as (v & payload & e & [Hv ->] & Hi & Hct & Hnow' & Hml' & Htb).
        specialize (Hrl _ Hv). destruct (Hin st' e payload) as [Hch Hco]; try done; [lia|].
        split_and!; try done. by exists payload.
      * destruct Hp as [Hun He]. split; [by apply unchanged_fails|].
        destruct He as [[?|?]|(a & _ & _ & ->)]; [by left|do 3 right; by left|]. do 4 right. by eauto.
  - pose proof (read_to_end_cases _ Hnp). destruct (read_to_end (sf_reads file)) as [p|e|] eqn:Hrte; [| |done].
    + specialize (Hrl p eq_refl).
      pose proof (do_put_spec (hi:=hi) now location p meta_len st Hok ltac:(lia)) as Hp.
      destruct (do_put_with_meta _ _ _ _ st) as [st' [[]|e|]]; [| |done].
      * destruct Hp as (e & Hi & Hnow' & Hml' & Hct & Htb).
        destruct (Hin st' e p) as [Hch Hco]; try done; [lia|]. split_and!; try done. by exists p.
      * destruct Hp as [Hun He]. split; [by apply unchanged_fails|]. by eapply put_error_file.
    + apply Hfail. by left.
Qed.

(** ** [update_metadata] *)

Definition update_error st (location : string) (metadata : list byte) (e : RawStoreError) : Prop :=
  match e with
  | MetadataTooLarge n m => n = zlen metadata ∧ m = 65535 ∧ 65535 < n
  | NotFound k => k = location ∧ contents st !! location = None
  | EmptyPayload => metadata = [] ∧ ∃ old, contents st !! location = Some ([], old)
  | KeyTooLong n m => n = key_len location ∧ m = max_key_length st ∧ m < n
  | NoSpace n _ => ∃ a, allocator st = Some a ∧ Forall (λ r, r.2 < n) (free_list a)
  | _ => ¬ no_faults (env (disk (io st)))
  end.

Lemma update_error_put st location body metadata old e :
  contents st !! location = Some (body, old) → put_error st location (body ++ metadata) e →
  update_error st location metadata e.
Proof.
  intros Hc. destruct e; simpl; try done.
  - intros (a & ? & ? & _). by exists a.
  - intros [-> ->]%app_nil. by eauto.
Qed.

Lemma update_compressed_spec hi st now location metadata info :
  inner_ok hi st → index_in_range (index st) → is_u64 (txn_id (superblock st)) →
  files (index st) !! location = Some info → 0 < i_uncompressed_size info →
  zlen metadata < 2 ^ 16 → - 2 ^ 63 <= now < 2 ^ 63 → logical_size info + zlen metadata < 2 ^ 63 →
  let '(st', r) := update_compressed now location info metadata st in
  match r with
  | Ok _ => ∃ body old, contents st !! location = Some (body, old) ∧
      stores hi st st' location body metadata ∧
      tombstones (index st') = delete location (tombstones (index st))
  | Err e => fails hi st st' ∧ update_error st location metadata e
  | Panic => False
  end.
Proof.
  intros Hok Hr Ht Hk Hunc Hml Hnow Hlen. pose proof (zlen_nonneg metadata).
  destruct (entry_in_index hi st location info) as (Hre & Hoe & Hlog); [done..|].
  pose proof (logical_size_data _ _ _ Hoe) as Hld.
  set (data := entry_data (compression st) (io st) info) in *.
  pose proof (body_size_bounds info ltac:(by apply (er_meta _ Hre)) ltac:(lia)) as Hb.
  set (n := body_size info) in *.
  assert (contents st !! location = Some (ztake n data, zdrop n data)) as Hct by by rewrite contents_lookup Hk.
  assert (zlen (ztake n data) = n) as Hzn by (rewrite zlen_ztake; lia).
  assert (let '(st', r) := do_put_with_meta now location (ztake n data ++ metadata) (zlen metadata) st in
    match r with
    | Ok _ => ∃ body old, contents st !! location = Some (body, old) ∧
        stores hi st st' location body metadata ∧
        tombstones (index st') = delete location (tombstones (index st))
    | Err e => fails hi st st' ∧ update_error st location metadata e
    | Panic => False
    end) as Hput.
  { pose proof (do_put_stores hi st now location (ztake n data) metadata Hok Hr Ht) as Hp.
    ospecialize* Hp; [rewrite zlen_app; lia|done|done|].
    destruct (do_put_with_meta _ _ _ _ st) as [st' [[]|e|]]; [| |done].
    - destruct Hp as [Hs Htb]. by exists (ztake n data), (zdrop n data).
    - destruct Hp as [Hf He]. split; [done|]. by eapply update_error_put. }
  rewrite /update_compressed -/n. destruct (n =? 0) eqn:Hn.
  { apply Z.eqb_eq in Hn. by rewrite Hn ztake_0 in Hput. }
  pose proof (do_get_spec (hi:=hi) st location Hok) as Hg.
  destruct (do_get st location) as [[d e]|e|]; [| |done]; cbn [mbind Res_bind].
  - destruct Hg as [Hd _]. rewrite objects_lookup Hk in Hd. injection Hd as <-.
    rewrite /slice. fold data. rewrite (proj2 (Z.leb_le 0 0)) // (proj2 (Z.leb_le 0 n)); [|lia].
    rewrite (proj2 (Z.leb_le _ _)) /=; [|lia]. by rewrite Z.sub_0_r zdrop_0.
  - assert (fails hi st st) as Hfs by (split; [by apply change_refl|done]). split; [done|].
    destruct Hg as [[-> Hn']|((k & m & ->) & _ & ?)]; [|done]. by rewrite objects_lookup Hk in Hn'.
Qed.

Lemma update_streamed_spec hi st now location metadata e :
  inner_ok hi st → index_in_range (index st) → is_u64 (txn_id (superblock st)) →
  files (index st) !! location = Some e → i_uncompressed_size e = 0 →
  zlen metadata < 2 ^ 16 → - 2 ^ 63 <= now < 2 ^ 63 → i_size e + zlen metadata < 2 ^ 63 →
  let n := body_size e in 0 < n + zlen metadata →
  let '(st', r) := placed now location (n + zlen metadata) (zlen metadata) 0
                     (λ off, stream_update e off n metadata) st in
  match r with
  | Ok _ => ∃ body old, contents st !! location = Some (body, old) ∧
      stores hi st st' location body metadata ∧
      tombstones (index st') = delete location (tombstones (index st))
  | Err err => fails hi st st' ∧ update_error st location metadata err
  | Panic => False
  end.
Proof.
  intros Hok Hr Ht Hk Hunc Hml Hnow Hlen n Hpos. pose proof (zlen_nonneg metadata).
  destruct (entry_in_index hi st location e) as (Hre & Hoe & Hlog); [done..|].
  destruct (entry_bounds st location e Hok Hk) as (Hlo & Hhi & Hu64 & Hal).
  pose proof (logical_size_data _ _ _ Hoe) as Hld. pose proof (io_size _ _ Hok).
  pose proof (body_size_bounds e ltac:(by apply (er_meta _ Hre)) ltac:(lia)) as Hb. fold n in Hb.
  destruct Hoe as [Hsz Hp Hl Hst Hc _]. change DATA_START with 8192 in Hlo.
  assert (logical_size e = i_size e) as Hls by by rewrite /logical_size Hunc.
  assert (entry_data (compression st) (io st) e = raw_payload (io st) e) as Hed by by rewrite /entry_data Hunc.
  set (p := raw_payload (io st) e) in *.
  assert (zlen (ztake n p ++ metadata) = n + zlen metadata) as Hz.
  { rewrite zlen_app zlen_ztake; lia. }
  pose proof (placed_spec hi st now location (n + zlen metadata) (zlen metadata) 0
    (λ off, stream_update e off n metadata) (λ v payload, v = payload ∧ v = ztake n p ++ metadata)
    (λ err, (∃ k m, err = Io k m) ∧ ¬ no_faults (env (disk (io st))))) as Hpl.
  ospecialize* Hpl; [done|lia| | |].
  { intros v payload [-> ->]. split; [done|by left]. }
  { intros off Hw Hdis. pose proof (stream_update_spec e off n metadata p (io st) Hst) as Hs.
    specialize (Hdis location e Hk). rewrite Hl in Hs.
    ospecialize* Hs; try done; [lia|intros Hnil; rewrite Hnil zlen_nil in Hz; lia|lia..|].
    destruct (stream_update e off n metadata (io st)) as [d' r]. destruct Hs as [Hfr Hio Htot Hst'].
    rewrite Hz in Hfr. split; [done|]. destruct r as [c|err|]; [| |done].
    - destruct (Hst' c eq_refl) as (-> & Hs' & _). exists (ztake n p ++ metadata), (ztake n p ++ metadata). done.
    - split; [destruct err; try done; by eauto|]. intros Hnf. by specialize (Htot Hnf). }
  destruct (placed _ _ _ _ _ _ st) as [st' [[]|err|]]; [| |done].
  - destruct Hpl as (v & payload & e' & [<- ->] & Hi & Hct & Hnow' & Hml' & Htb).
    exists (ztake n p), (zdrop n p). split; [by rewrite contents_lookup Hk /= Hed|]. split; [|done]. split.
    + eapply (put_change _ _ _ location e' _ now (zlen metadata)); try done; [rewrite Hz; u64|by left].
    + by rewrite (contents_installed _ _ _ _ _ _ Hi) Hml' split_at_app.
  - destruct Hpl as [Hun He]. split; [by apply unchanged_fails|].
    destruct He as [((k & m & ->) & ?)|(a & Ha & Hall & ->)]; [done|]. by exists a.
Qed.

Lemma update_metadata_spec hi st now location metadata :
  inner_ok hi st → index_in_range (index st) → is_u64 (txn_id (superblock st)) →
  - 2 ^ 63 <= now < 2 ^ 63 →
  (∀ e, files (index st) !! location = Some e → logical_size e + zlen metadata < 2 ^ 63) →
  let '(st', r) := update_metadata now location metadata st in
  match r with
  | Ok _ => ∃ body old, contents st !! location = Some (body, old) ∧
      stores hi st st' location body metadata ∧
      tombstones (index st') = delete location (tombstones (index st))
  | Err err => fails hi st st' ∧ update_error st location metadata err
  | Panic => False
  end.
Proof.
  intros Hok Hr Ht Hnow Hlen. pose proof Hok as [[Hro _] _ _ _ _].
  assert (∀ e, update_error st location metadata e → fails hi st st ∧ update_error st location metadata e) as Hf.
  { intros e He. split; [split; [by apply change_refl|done]|done]. }
  rewrite /update_metadata. destruct (65535 <? zlen metadata) eqn:Hm; [apply Z.ltb_lt in Hm; by apply Hf|].
  apply Z.ltb_ge in Hm. destruct (files (index st) !! location) as [e|] eqn:Hk.
  2: { apply Hf. split; [done|]. by rewrite contents_lookup Hk. }
  destruct (entry_in_index hi st location e) as (Hre & Hoe & Hlog); [done..|]. specialize (Hlen e eq_refl).
  destruct (0 <? i_uncompressed_size e) eqn:Hu; [apply Z.ltb_lt in Hu|apply Z.ltb_ge in Hu].
  { apply update_compressed_spec; try done. lia. }
  rewrite Hro. assert (i_uncompressed_size e = 0) as Hu0 by (pose proof (er_unc _ Hre) as []; lia).
  assert (logical_size e = i_size e) as Hls by by rewrite /logical_size Hu0.
  change (sat_sub (i_size e) (i_meta_len e)) with (sat_sub (i_size e) (i_meta_len e)).
  assert (sat_sub (i_size e) (i_meta_len e) = body_size e) as -> by by rewrite /body_size Hls.
  pose proof (body_size_bounds e ltac:(by apply (er_meta _ Hre)) ltac:(lia)) as Hb.
  pose proof (zlen_nonneg metadata). rewrite wadd_small; [|u64].
  destruct (body_size e + zlen metadata =? 0) eqn:Hn0; [apply Z.eqb_eq in Hn0|apply Z.eqb_neq in Hn0].
  { apply Hf. split; [apply zlen_zero_nil; lia|]. eexists. rewrite contents_lookup Hk /=. rewrite /split_at.
    by replace (body_size e) with 0 by lia. }
  apply update_streamed_spec; try done; lia.
Qed.
End updates.

(** * Completing and aborting an upload

    [complete] on the abstract [contents]: the object is the concatenation of
    the parts, and the parts are gone. *)

Definition delete_all {A} (keys : list string) (m : gmap string A) : gmap string A := foldl (flip delete) m keys.

Lemma delete_all_lookup {A} keys (m : gmap string A) k x :
  delete_all keys m !! k = Some x ↔ m !! k = Some x ∧ k ∉ keys.
Proof.
  revert m. induction keys as [|k' keys IH]; intros m; simpl.
  - split; [|by intros [? _]]. intros ?. split; [done|apply not_elem_of_nil].
  - rewrite IH /= lookup_delete_Some not_elem_of_cons. split; intros; destruct_and?; auto.
Qed.

Lemma delete_all_ne {A} keys (m : gmap string A) k : k ∉ keys → delete_all keys m !! k = m !! k.
Proof. intros Hk. apply option_eq. intros x. rewrite delete_all_lookup. tauto. Qed.

Section uploads.
Context `{Crc32cLaws, CodecLaws, BincodeShardLaws, BincodeSuperblockLaws, HashMapOrder, ObjectPath, TempFilesLaws}.
Implicit Types (st : Inner) (e : ExtentInfo).


(** ** Dropping the parts *)

Record shrunk (hi : Z) (keys : list string) st st' : Prop := {
  sk_ok : inner_ok hi st';
  sk_same : io st' = io st ∧ superblock st' = superblock st ∧ compression st' = compression st ∧
    max_key_length st' = max_key_length st ∧ dirty st' = dirty st;
  sk_index : index st' = mkIndex (delete_all keys (files (index st))) (tombstones (index st));
  sk_clean i : shard_dirty st' !! i = Some false → shard_dirty st !! i = Some false ∧
    ∀ k, shard_for_key k = Z.of_nat i → delete_all keys (files (index st)) !! k = files (index st) !! k;
}.

Lemma drop_parts_spec hi keys st :
  inner_ok hi st → let '(st', r) := drop_parts keys st in r = Ok tt ∧ shrunk hi keys st st'.
Proof.
  revert st. induction keys as [|k keys IH]; intros st Hok; simpl.
  { split; [done|]. split; try done. by destruct (index st). }
  rewrite /take_entry. destruct (files (index st) !! k) as [e|] eqn:Hk.
  - destruct (dropped_spec hi st k e Hok Hk) as (Hok1 & Hi1 & Hio & Hsb & Hc & Hm & Hd & Hsd & _).
    change (give_back _ _ _) with (dropped k e st). rewrite /sm_bind.
    rewrite mark_shard_dirty_run; [|by apply (io_shards _ _ Hok1)].
    set (st1 := set_shard_dirty _ _). assert (inner_ok hi st1) as Hok2.
    { destruct Hok1. split; try done. by rewrite /= length_insert. }
    specialize (IH st1 Hok2). destruct (drop_parts keys st1) as [st' r]. destruct IH as (-> & [? Hs Hix Hcl]).
    split; [done|]. rewrite /st1 /= Hi1 /= in Hix, Hcl. split; try done.
    + destruct Hs as (-> & -> & -> & -> & ->). done.
    + intros i Hi. destruct (Hcl i Hi) as [Hi' Hks]. apply marked_key in Hi' as [Hi' Hne].
      split; [by rewrite -Hsd|]. intros k' Hk'. rewrite Hks //. rewrite lookup_delete_ne //. congruence.
  - specialize (IH st Hok). destruct (drop_parts keys st) as [st' r]. destruct IH as (-> & [? Hs Hix Hcl]).
    assert (delete_all (k :: keys) (files (index st)) = delete_all keys (files (index st))) as Hda
      by (by rewrite {1}/delete_all /= delete_id).
    split; [done|]. split; rewrite ?Hda //.
Qed.

(** Dropping after a change that already set the flag. *)
Lemma shrunk_change hi keys st st1 st2 d :
  change hi st st1 → shrunk hi keys st1 st2 → d = true → let st3 := set_dirty d st2 in
  change hi st st3 ∧ contents st3 = delete_all keys (contents st1) ∧
  tombstones (index st3) = tombstones (index st1).
Proof.
  intros [Hok Hfr Hsb [Hc Hm] Hfiles Hr Hcl Hfl] [Hok2 (Hio & Hsb2 & Hc2 & Hm2 & Hd2) Hix Hcl2] -> st3.
  apply index_in_range_iff in Hr as [Hrf Hrt].
  split_and!.
  - split; rewrite /st3 /= ?Hix /=; try done.
    + destruct Hok2. by split.
    + by rewrite Hio.
    + by rewrite Hsb2.
    + by rewrite Hc2 Hm2.
    + intros k e [Hk _]%delete_all_lookup. by apply (Hfiles k).
    + apply index_in_range_iff. split; [|done]. intros k e [Hk _]%delete_all_lookup. by apply (Hrf k).
    + intros i Hi. destruct (Hcl2 i Hi) as [Hi1 Hk]. destruct (Hcl i Hi1) as [? <-]. split; [done|].
      apply bucket_ext. intros k Hks. by rewrite /= Hk.
  - apply map_eq. intros k. apply option_eq. intros x. rewrite delete_all_lookup.
    rewrite !contents_lookup /st3 /= Hix Hio Hc2 /=. rewrite !fmap_Some. setoid_rewrite delete_all_lookup.
    split; [intros (e & [? ?] & ?)|intros [(e & ? & ?) ?]]; eauto.
  - by rewrite /st3 /= Hix.
Qed.

(** ** Reading the parts back *)

Definition parts_at st (keys : list string) (infos : list ExtentInfo) : Prop :=
  Forall2 (λ k e, files (index st) !! k = Some e) keys infos.

Lemma parts_at_in st keys infos :
  parts_at st keys infos → Forall (λ e, ∃ k, files (index st) !! k = Some e) infos.
Proof. induction 1; constructor; eauto. Qed.

Lemma part_infos_spec st keys :
  match part_infos st keys with
  | Ok infos => parts_at st keys infos
  | Err e => ∃ k, k ∈ keys ∧ contents st !! k = None ∧ e = NotFound k
  | Panic => False
  end.
Proof.
  induction keys as [|k keys IH]; simpl; [constructor|]. rewrite /lookup_file.
  destruct (files (index st) !! k) as [e|] eqn:Hk; simpl.
  - destruct (part_infos st keys) as [infos|err|]; [by constructor| |done].
    destruct IH as (k' & ? & ? & ?). exists k'. split; [by right|done].
  - exists k. split; [by left|]. by rewrite contents_lookup Hk.
Qed.

Lemma read_parts_spec hi st infos :
  inner_ok hi st → Forall (λ e, ∃ k, files (index st) !! k = Some e) infos →
  match read_parts (io st) (compression st) infos with
  | Ok ps => ps = parts_data st infos
  | Err err => (∃ k m, err = Io k m) ∧ ¬ no_faults (env (disk (io st)))
  | Panic => False
  end.
Proof.
  intros Hok. induction 1 as [|e infos [k Hk] _ IH]; simpl; [done|].
  pose proof (read_part_spec st (io st) e k hi Hok Hk) as Hp. ospecialize* Hp; [done..|].
  destruct (read_part _ _ e) as [c|err|]; [|done..]. simpl.
  destruct (read_parts _ _ infos) as [ps|err|]; [|done..]. by rewrite Hp IH.
Qed.

Lemma encode_parts_spec c parts :
  c ≠ CNone →
  match encode_parts c parts with
  | Ok v => decompress c v = Ok (concat parts) ∧ v ≠ []
  | Err e => ∃ k m, e = Io k m
  | Panic => False
  end.
Proof.
  intros Hc. destruct c; [done|..]; rewrite /encode_parts /decompress.
  all: match goal with
       | |- context [zstd_stream_compress ?l ?x] => destruct (zstd_stream_compress l x) as [v|] eqn:E
       | |- context [snap_compress_vec ?x] => destruct (snap_compress_vec x) as [v|] eqn:E
       | |- context [gz_compress ?l ?x] => destruct (gz_compress l x) as [v|] eqn:E
       end; simpl; eauto.
  all: first [rewrite (zstd_stream_inv _ _ _ E)|rewrite (snap_inv _ _ E)|rewrite (gz_inv _ _ _ E)].
  all: split; [done|].
  all: first [by eapply zstd_stream_nonempty|by eapply snap_nonempty|by eapply gz_nonempty].
Qed.

Lemma sum_sizes hi st infos :
  inner_ok hi st → index_in_range (index st) →
  Forall (λ e, ∃ k, files (index st) !! k = Some e) infos →
  foldr Z.add 0 (logical_size <$> infos) = zlen (concat (parts_data st infos)) ∧
  Forall (λ z, 0 <= z) (logical_size <$> infos).
Proof.
  intros Hok Hr. induction 1 as [|e infos [k Hk] _ [IH1 IH2]]; [done|].
  destruct (entry_in_index hi st k e) as (_ & Hoe & Hlog); [done..|].
  change (concat (parts_data st (e :: infos)))
    with (entry_data (compression st) (io st) e ++ concat (parts_data st infos)).
  rewrite zlen_app -IH1 -(logical_size_data _ _ _ Hoe). split; [done|]. constructor; [lia|done].
Qed.

(** The bytes to write: the parts joined, or a compressed form of them. *)
Definition source_ok st (total : list byte) (x : Z * Z * option SourceFile) : Prop :=
  let '(n, u, tmp) := x in
  match tmp with
  | None => n = zlen total ∧ u = 0
  | Some f => compression st ≠ CNone ∧ file_ok f ∧ sf_len f = n ∧ u = zlen total ∧ 0 < n < u ∧
      ∀ p, read_to_end (sf_reads f) = Ok p → decompress (compression st) p = Ok total
  end.

Lemma choose_source_spec hi st infos :
  inner_ok hi st → index_in_range (index st) →
  Forall (λ e, ∃ k, files (index st) !! k = Some e) infos →
  let p := concat (parts_data st infos) in zlen p < 2 ^ 63 →
  match choose_source (io st) (compression st) infos (wsum (logical_size <$> infos)) with
  | Ok x => source_ok st p x
  | Err e => ¬ no_faults (env (disk (io st))) ∨ compression st ≠ CNone
  | Panic => False
  end.
Proof.
  intros Hok Hr Hin p Hp. destruct (sum_sizes hi st infos Hok Hr Hin) as [Hsum Hpos].
  fold p in Hsum. destruct (wsum_small (logical_size <$> infos)) as [-> _]; [done|rewrite Hsum; u64|].
  rewrite Hsum /choose_source. case_bool_decide as Hc; simpl; [done|].
  destruct (4096 <=? zlen p); [|done].
  pose proof (read_parts_spec hi st infos Hok Hin) as Hrp.
  destruct (read_parts _ _ _) as [ps|e|]; [|by left; destruct Hrp|done]. subst ps. simpl.
  pose proof (encode_parts_spec (compression st) (parts_data st infos) Hc) as He. fold p in He.
  destruct (encode_parts _ _) as [v|e|]; [|by right|done]. destruct He as [Hd Hne]. simpl.
  destruct (spool_ok v) as [Hnp Hsp]. destruct (spool_file v) as [f|e|]; [|by right|done]. simpl.
  destruct (Hsp f eq_refl) as (Hl & Hreads & (rest & Hpre) & Hrt).
  destruct (sf_len f <? zlen p) eqn:Hlt; [apply Z.ltb_lt in Hlt|done]. simpl.
  assert (0 < zlen v).
  { pose proof (zlen_nonneg v). destruct (decide (zlen v = 0)) as [?%zlen_zero_nil|]; [done|lia]. }
  split_and!; try done; try lia; [|by intros q ->%Hrt].
  split; [done|]. split; [|by intros q ->%Hrt].
  rewrite Hl Hpre zlen_app. pose proof (zlen_nonneg rest). lia.
Qed.

(** ** [complete] *)

(** No part may be missing; without faults and codec failures only space can
    run out. *)
Definition complete_error st (keys : list string) (err : RawStoreError) : Prop :=
  (∃ k, k ∈ keys ∧ contents st !! k = None ∧ err = NotFound k) ∨
  (∃ n a l, allocator st = Some a ∧ Forall (λ r, r.2 < n) (free_list a) ∧ err = NoSpace n l) ∨
  ¬ no_faults (env (disk (io st))) ∨ compression st ≠ CNone.

(** The object the parts make: their contents, in order. *)
Definition joined st (keys : list string) (p : list byte) : Prop :=
  ∃ ds, Forall2 (λ k d, objects st !! k = Some d) keys ds ∧ p = concat ds.

Lemma parts_at_joined st keys infos :
  parts_at st keys infos → joined st keys (concat (parts_data st infos)).
Proof.
  intros Hp. exists (parts_data st infos). split; [|done].
  induction Hp as [|k e keys infos Hk Hp IH]; constructor; [|done]. by rewrite objects_lookup Hk.
Qed.

(** Writing the joined parts, before the parts are dropped. *)
Lemma place_source_spec hi st now key infos n u tmp :
  inner_ok hi st → index_in_range (index st) → is_u64 (txn_id (superblock st)) → - 2 ^ 63 <= now < 2 ^ 63 →
  Forall (λ e, ∃ k, files (index st) !! k = Some e) infos →
  let p := concat (parts_data st infos) in 0 < zlen p < 2 ^ 63 → source_ok st p (n, u, tmp) →
  let '(st', r) := placed now key n 0 u (λ off, match tmp with
                                               | Some file => stream_file off file
                                               | None => stream_parts (compression st) off infos
                                               end) st in
  match r with
  | Ok _ => stores hi st st' key p [] ∧ tombstones (index st') = delete key (tombstones (index st)) ∧
      dirty st' = true
  | Err err => fails hi st st' ∧ (¬ no_faults (env (disk (io st))) ∨ compression st ≠ CNone ∨ no_space st n err)
  | Panic => False
  end.
Proof.
  intros Hok Hr Ht Hnow Hin p Hp Hsrc.
  pose proof (placed_spec hi st now key n 0 u (λ off, match tmp with
      | Some file => stream_file off file | None => stream_parts (compression st) off infos end)
    (λ v payload, payload = p ∧ match tmp with
      | None => v = p
      | Some f => read_to_end (sf_reads f) = Ok v end)
    (λ err, ¬ no_faults (env (disk (io st))) ∨ compression st ≠ CNone)) as Hpl.
  ospecialize* Hpl; [done| | | |].
  - destruct tmp as [f|]; [destruct Hsrc as (_ & _ & _ & -> & ? & _)|destruct Hsrc as [-> _]]; lia.
  - intros v payload [-> Hv]. destruct tmp as [f|].
    + destruct Hsrc as (_ & (_ & _ & Hl) & <- & -> & ? & Hd). split; [by apply Hl|right].
      split; [done|]. split; [lia|by apply Hd].
    + destruct Hsrc as [-> ->]. subst v. split; [done|by left].
  - intros off Hw Hdis. destruct tmp as [f|].
    + destruct Hsrc as (Hc & Hf & <- & -> & ? & Hd).
      pose proof (stream_file_spec off f (io st) ltac:(lia) Hf Hw) as Hs.
      destruct (stream_file off f (io st)) as [d' r]. destruct Hs as [Hfr Hs]. split; [done|].
      destruct r as [c|e|]; [|by right|done]. destruct Hs as (q & Hq & -> & Hst).
      by exists q, p.
    + destruct Hsrc as [-> ->].
      pose proof (stream_parts_spec hi st off (off + num_blocks (zlen p) * 4096) Hok Hw Hdis infos Hin) as Hs.
      fold p in Hs. ospecialize* Hs; [intros Hnil; rewrite Hnil zlen_nil in Hp; lia|done|].
      destruct (stream_parts _ _ _ _) as [d' r]. destruct Hs as [Hfr Hs]. split; [done|].
      destruct r as [c|e|]; [|left; by destruct Hs|done]. destruct Hs as [-> Hst]. by exists p, p.
  - destruct (placed _ _ _ _ _ _ st) as [st' [[]|err|]]; [| |done].
    + destruct Hpl as (v & payload & e & [-> _] & Hi & Hct & Hnow' & Hml & Htb).
      split; [|split; [done|by apply (in_dirty _ _ _ _ _ _ Hi)]]. split.
      * eapply (put_change _ _ _ key e p now 0); try done; [u64|by left].
      * rewrite (contents_installed _ _ _ _ _ _ Hi) Hml. f_equal. rewrite -{1 2}(app_nil_r p).
        by rewrite -(split_at_app p []) zlen_nil.
    + destruct Hpl as [Hun He]. split; [by apply unchanged_fails|]. tauto.
Qed.

Lemma parts_nonempty hi st keys infos :
  inner_ok hi st → parts_at st keys infos → keys ≠ [] → 0 < zlen (concat (parts_data st infos)).
Proof.
  intros Hok Hp Hne. destruct Hp as [|k e keys infos Hk _]; [done|].
  pose proof (io_entries _ _ Hok k e Hk) as Hoe.
  change (concat (parts_data st (e :: infos)))
    with (entry_data (compression st) (io st) e ++ concat (parts_data st infos)).
  rewrite zlen_app -(logical_size_data _ _ _ Hoe). pose proof (zlen_nonneg (concat (parts_data st infos))).
  destruct Hoe as [Hsz _ _ _ _ Hu]. rewrite /logical_size.
  destruct (0 <? i_uncompressed_size e) eqn:E; [apply Z.ltb_lt in E; lia|lia].
Qed.

(** [complete_inner] allocates, writes and installs, then drops the parts. *)
Lemma complete_inner_eq now u st infos :
  part_infos st (part_keys u) = Ok infos →
  complete_inner now u st =
    (match choose_source (io st) (compression st) infos (wsum (logical_size <$> infos)) with
     | Ok (n, unc, tmp) =>
       (placed now (up_location u) n 0 unc (λ off, match tmp with
          | Some file => stream_file off file
          | None => stream_parts (compression st) off infos end) ;;; drop_parts (part_keys u)) st
     | Err e => (st, Err e)
     | Panic => (st, Panic)
     end).
Proof.
  intros Hp. rewrite /complete_inner Hp {1}/sm_bind.
  destruct (choose_source _ _ _ _) as [[[n unc] tmp]|e|]; [|done..].
  rewrite /placed /sm_bind. destruct (sm_lift _ st) as [s1 [P|e|]]; [|done..].
  destruct (alloc_extent P s1) as [s2 [off|e|]]; [|done..].
  by destruct (sm_on_err _ _ s2) as [s3 [c|e|]].
Qed.

Lemma complete_inner_spec hi st now u :
  inner_ok hi st → index_in_range (index st) → is_u64 (txn_id (superblock st)) → - 2 ^ 63 <= now < 2 ^ 63 →
  part_keys u ≠ [] → (∀ p, joined st (part_keys u) p → zlen p < 2 ^ 63) →
  let '(st', r) := complete_inner now u st in
  match r with
  | Ok _ => change hi st st' ∧ ∃ p, joined st (part_keys u) p ∧
      contents st' = delete_all (part_keys u) (<[up_location u := (p, [])]> (contents st)) ∧
      tombstones (index st') = delete (up_location u) (tombstones (index st))
  | Err err => fails hi st st' ∧ complete_error st (part_keys u) err
  | Panic => False
  end.
Proof.
  intros Hok Hr Ht Hnow Hne Hlen. pose proof (part_infos_spec st (part_keys u)) as Hpi.
  assert (fails hi st st) as Hrefl by (split; [by apply change_refl|done]).
  destruct (part_infos st (part_keys u)) as [infos|err|] eqn:Hi; [| |done].
  2: { rewrite /complete_inner Hi. split; [done|]. by left. }
  rewrite (complete_inner_eq now u st infos Hi). pose proof (parts_at_in _ _ _ Hpi) as Hin.
  pose proof (parts_at_joined _ _ _ Hpi) as Hj. specialize (Hlen _ Hj).
  pose proof (parts_nonempty hi st _ _ Hok Hpi Hne) as Hpos.
  pose proof (choose_source_spec hi st infos Hok Hr Hin Hlen) as Hc.
  destruct (choose_source _ _ _ _) as [[[n unc] tmp]|err|]; [| |done].
  2: { split; [done|]. by right; right. }
  pose proof (place_source_spec hi st now (up_location u) infos n unc tmp Hok Hr Ht Hnow Hin) as Hp.
  ospecialize* Hp; [done|done|].
  rewrite {1}/sm_bind. destruct (placed _ _ _ _ _ _ st) as [st1 [[]|err|]]; [| |done].
  - destruct Hp as ([Hch Hcont] & Htb & Hd). pose proof (drop_parts_spec hi (part_keys u) st1 (ch_ok _ _ _ Hch)) as Hdr.
    destruct (drop_parts _ st1) as [st' r]. destruct Hdr as [-> Hsk].
    destruct (shrunk_change hi _ st st1 st' (dirty st') Hch Hsk) as (Hch' & Hc' & Htb').
    { destruct (sk_same _ _ _ _ Hsk) as (_ & _ & _ & _ & ->). done. }
    assert (set_dirty (dirty st') st' = st') as Heq by by destruct st'. rewrite Heq in Hch' Hc' Htb'.
    split; [done|]. eexists. split; [exact Hj|]. by rewrite Hc' Hcont Htb' Htb.
  - destruct Hp as [Hf He]. split; [done|]. rewrite /complete_error. destruct He as [?|[?|(a & ? & ? & ->)]]; [tauto..|].
    right. left. by exists (num_blocks n * 4096), a, (largest (free_list a)).
Qed.

Lemma abort_spec hi st u :
  inner_ok hi st → index_in_range (index st) →
  let '((st', u'), r) := abort (st, u) in
  r = Ok tt ∧ u' = clear_parts u ∧ change hi st st' ∧
  contents st' = delete_all (part_keys u) (contents st) ∧
  tombstones (index st') = tombstones (index st).
Proof.
  intros Hok Hr. rewrite /abort. pose proof (drop_parts_spec hi (part_keys u) st Hok) as Hdr.
  destruct (drop_parts _ st) as [st' r]. destruct Hdr as [-> Hsk]. split; [done|split; [done|]].
  by apply (shrunk_change hi _ st st st'); [apply change_refl|..].
Qed.
End uploads.
