(* ===== verification/GetFacts.v ===== *)
(** * What the reading operations return

    Full and ranged gets, heads, metadata reads and listings against the
    abstract [contents].  The streams are polled to the end. *)

From S2P Require Import Prelude.
From S2P Require Import Config.
From S2P Require Import Device.
From S2P Require Import Allocator.
From S2P Require Import Extent.
From S2P Require Import Streaming.
From S2P Require Import Index.
From S2P Require Import Superblock.
From S2P Require Import Inner.
From S2P Require Import InnerFacts.
From S2P Require Import RawStore.
From S2P Require Import StoreFacts.
From S2P Require Import Flush.
From S2P Require Import Changes.
From S2P Require Import StoreTools.
From S2P Require Import StoreMeta.
From S2P Require Import ObjectStoreApi.
From S2P Require Import Multipart.
From S2P Require Import ApiFacts.
From S2P Require Import StreamedWrites.

(** A decoder over a block reader hands out the decoded payload in order, in
    non-empty pieces until it ends; it fails only when it cannot be set up or
    a read below it fails. *)
Class StreamDecoderLaws `{Crc32c, Codecs, StreamDecoder} : Type := {
  dec_at : Compression → DeviceIo → BlockReaderIo → dec_state → list byte → Prop;
  dec_at_io c d b dec rest : dec_at c d b dec rest → with_b_io d b = b;
  dec_new_at c d off v x :
    readable d off v → off + num_blocks (zlen v) * 4096 <= file_size (disk d) → decompress c v = Ok x →
    let b := block_reader_new d off (zlen v) in
    match dec_new c b with
    | Ok dec => dec_at c d b dec x
    | Err e => ∃ k m, e = Io k m
    | Panic => False
    end;
  dec_read_at c d b dec rest n :
    0 < n → dec_at c d b dec rest →
    let '(b', dec', r) := dec_read c n b dec in
    match r with
    | Ok buf => ∃ rest', rest = buf ++ rest' ∧ zlen buf <= n ∧ (buf = [] → rest = []) ∧ dec_at c d b' dec' rest'
    | Err e => (∃ k m, e = Io k m) ∧ ¬ no_faults (env (disk d))
    | Panic => False
    end;
}.

Section gets.
Context `{Crc32cLaws, CodecLaws, BincodeShardLaws, BincodeSuperblockLaws, HashMapOrder, ObjectPath, StreamDecoder}.
Implicit Types (st : Inner) (e : ExtentInfo) (d : DeviceIo).

(** A stream yields [p], or stops at a fault of the device. *)
Definition yields d (x : Res ObjectStoreError (list byte)) (p : list byte) : Prop :=
  x = Ok p ∨ (∃ k m, x = Err (OsGeneric (Io k m))) ∧ ¬ no_faults (env (disk d)).

Lemma yields_step d x p q :
  yields d x q → yields d (rest ← x; Ok (p ++ rest)) (p ++ q).
Proof. intros [->|[(k & m & ->) ?]]; [by left|right]. by split; [exists k, m|]. Qed.

(** ** The uncompressed stream *)

Lemma collect_blocks fuel d off p a r :
  readable d off p → off + num_blocks (zlen p) * 4096 <= file_size (disk d) →
  reader_at (r_io r) off p a r → num_blocks (zlen p) - a < Z.of_nat fuel →
  yields d (collect fuel d (Blocks r)) (zdrop (a * 4092) p).
Proof.
  intros Hrd Hsz. revert a r. induction fuel as [|fuel IH]; intros a r Hra Hf; [destruct Hra; lia|].
  pose proof (num_blocks_spec (zlen p) (zlen_nonneg p)).
  assert (reader_at d off p a (with_r_io d r)) as Hra' by by destruct Hra.
  pose proof (next_chunk_spec d off p a _ Hrd Hra') as Hn. simpl.
  destruct (next_chunk (with_r_io d r)) as [r1 x1]. destruct Hn as [Hcase Htot].
  case_decide as Ha.
  { rewrite zdrop_ge; [|lia]. destruct Hcase as [[-> ->]|[-> (k & m & ->)]]; [by left|].
    right. split; [by exists k, m|]. intros Hnf. by destruct (Htot Hnf Hsz). }
  set (b := Z.min _ _) in *.
  assert (a < b <= num_blocks (zlen p)) as Hb by (destruct Hra; subst b; blk).
  assert (0 <= a) as Ha0 by (destruct Hra; lia).
  destruct (chunk_of_step p a b) as [Hstep _]; [lia..|].
  assert (chunk_of p a b ++ zdrop (b * 4092) p = zdrop (a * 4092) p) as Hcat.
  { apply (app_inv_head (ztake (a * 4092) p)). by rewrite app_assoc Hstep !ztake_zdrop. }
  destruct Hcase as [[Hr1 ->]|[-> (k & m & ->)]].
  - destruct (decide (chunk_of p a b = [])) as [Hnil|_].
    { exfalso. assert (zlen (chunk_of p a b) = 0) as Hz by by rewrite Hnil.
      rewrite /chunk_of zlen_ztake in Hz; [|lia]. rewrite zlen_zdrop in Hz; lia. }
    rewrite -Hcat. apply yields_step, IH; [|lia]. by destruct Hr1.
  - right. split; [by exists k, m|]. intros Hnf. by destruct (Htot Hnf Hsz).
Qed.

(** ** The decoded stream *)

Lemma collect_decoding `{!StreamDecoderLaws} fuel d c b dec rest n :
  dec_at c d b dec rest → 0 <= n <= zlen rest → n < Z.of_nat fuel →
  yields d (collect fuel d (Decoding c b dec n)) (ztake n rest).
Proof.
  revert b dec rest n. induction fuel as [|fuel IH]; intros b dec rest n Hd Hn Hf; [lia|].
  simpl. destruct (n =? 0) eqn:E; [apply Z.eqb_eq in E|apply Z.eqb_neq in E].
  { left. by rewrite E ztake_0. }
  rewrite (dec_at_io _ _ _ _ _ Hd). pose proof (dec_read_at c d b dec rest (Z.min n (256 * 1024)) ltac:(lia) Hd) as Hr.
  destruct (dec_read _ _ _ _) as [[b' dec'] [buf|e|]]; [| |done].
  2: { destruct Hr as [(k & m & ->) Hnf]. right. split; [by exists k, m|done]. }
  destruct Hr as (rest' & -> & Hlen & Hnil & Hd'). destruct (decide (buf = [])) as [->|Hne].
  { specialize (Hnil eq_refl). rewrite Hnil zlen_nil in Hn. lia. }
  pose proof (zlen_nonneg buf). rewrite zlen_app in Hn. pose proof (zlen_nonneg rest').
  rewrite Z.min_l; [|lia]. rewrite (ztake_ge (zlen buf) buf); [|lia].
  rewrite (ztake_app_ge n buf rest'); [|lia]. apply yields_step.
  assert (0 < zlen buf). { destruct (decide (zlen buf = 0)) as [?%zlen_zero_nil|]; [done|lia]. }
  apply IH; [done|lia..].
Qed.

(** ** Full gets *)

Lemma collect_once fuel d data : collect (S (S fuel)) d (Once data) = Ok data.
Proof. simpl. by rewrite app_nil_r. Qed.

(** Setting a stream up fails on a fault, or when the decoder cannot be
    created. *)
Definition get_fault st (decoded : Prop) (err : RawStoreError) : Prop :=
  (∃ k m, err = Io k m) ∧ (no_faults (env (disk (io st))) → decoded).

Lemma num_blocks_le n : 0 <= n → num_blocks n <= n + 1.
Proof. intros. pose proof (num_blocks_spec n ltac:(lia)). pose proof (num_blocks_pos n). lia. Qed.

Lemma get_full_plain hi st location e :
  inner_ok hi st → index_in_range (index st) → files (index st) !! location = Some e →
  i_uncompressed_size e = 0 →
  let data := entry_data (compression st) (io st) e in
  ∃ g, get_full (io st) (compression st) location e = Ok g ∧
    gr_meta g = meta_for location e ∧ gr_range g = (0, body_size e) ∧
    yields (io st) (collect (Z.to_nat (body_size e) + 2) (io st) (gr_payload g)) (ztake (body_size e) data).
Proof.
  intros Hok Hr Hk Hu data. destruct (entry_in_index hi st location e) as (Hre & Hoe & Hlog); [done..|].
  destruct (entry_bounds st location e Hok Hk) as (Hlo & Hhi & Hu64 & Hal).
  pose proof (io_size _ _ Hok). change DATA_START with 8192 in Hlo.
  pose proof (body_size_bounds e ltac:(by apply (er_meta _ Hre)) ltac:(lia)) as Hb.
  assert (logical_size e = i_size e) as Hls by by rewrite /logical_size Hu.
  destruct Hoe as [Hsz Hp Hl Hst Hc _].
  assert (data = raw_payload (io st) e) as -> by by rewrite /data /entry_data Hu.
  set (p := raw_payload (io st) e) in *. rewrite /get_full Hu /=.
  assert (sat_sub (i_size e) (i_meta_len e) = body_size e) as -> by by rewrite /body_size Hls.
  set (n := body_size e) in *. destruct (n =? 0) eqn:E; [apply Z.eqb_eq in E|apply Z.eqb_neq in E].
  { eexists. split; [done|]. split; [done|]. rewrite E ztake_0. split; [done|]. by left. }
  eexists. split; [done|]. split; [done|]. split; [done|]. simpl.
  assert (zlen (ztake n p) = n) as Hzn by (rewrite zlen_ztake; lia).
  pose proof (num_blocks_mono n (zlen p) ltac:(lia)) as Hmono. rewrite Hl in Hmono.
  rewrite -(zdrop_0 (ztake n p)). apply (collect_blocks _ _ (i_offset e) _ 0).
  - split; [apply stored_holds; [done|lia]|]. rewrite Hzn. split; [lia|]. split; [lia|].
    split; [u64|done].
  - rewrite Hzn. lia.
  - pose proof (reader_new_at (io st) (i_offset e) (ztake n p)) as Hra. by rewrite Hzn in Hra.
  - rewrite Hzn. pose proof (num_blocks_le n ltac:(lia)). lia.
Qed.

Lemma get_full_coded `{!StreamDecoderLaws} hi st location e :
  inner_ok hi st → index_in_range (index st) → files (index st) !! location = Some e →
  0 < i_uncompressed_size e →
  let data := entry_data (compression st) (io st) e in
  match get_full (io st) (compression st) location e with
  | Ok g => gr_meta g = meta_for location e ∧ gr_range g = (0, body_size e) ∧
      yields (io st) (collect (Z.to_nat (body_size e) + 2) (io st) (gr_payload g)) (ztake (body_size e) data)
  | Err err => get_fault st (compression st ≠ Snappy) err
  | Panic => False
  end.
Proof.
  intros Hok Hr Hk Hu data. destruct (entry_in_index hi st location e) as (Hre & Hoe & Hlog); [done..|].
  destruct (entry_bounds st location e Hok Hk) as (Hlo & Hhi & Hu64 & Hal).
  pose proof (io_size _ _ Hok). change DATA_START with 8192 in Hlo.
  pose proof (body_size_bounds e ltac:(by apply (er_meta _ Hre)) ltac:(lia)) as Hb.
  pose proof (logical_size_data _ _ _ Hoe) as Hld. fold data in Hld.
  assert (logical_size e = i_uncompressed_size e) as Hls by by rewrite /logical_size (proj2 (Z.ltb_lt _ _) Hu).
  destruct Hoe as [Hsz Hp Hl Hst Hc Hun]. destruct Hun as [|(_ & x & Hx & Hzx)]; [lia|].
  assert (data = x) as Hdx by by rewrite /data /entry_data (proj2 (Z.ltb_lt _ _) Hu) Hx.
  rewrite Hdx. set (p := raw_payload (io st) e) in *.
  rewrite /get_full (proj2 (Z.ltb_lt _ _) Hu).
  assert (sat_sub (i_uncompressed_size e) (i_meta_len e) = body_size e) as -> by by rewrite /body_size Hls.
  set (n := body_size e) in *. rewrite Hls in Hb.
  assert (match get_decoder (io st) (compression st) e n with
    | Ok b => yields (io st) (collect (Z.to_nat n + 2) (io st) b) (ztake n x)
    | Err err => ∃ k m, err = Io k m
    | Panic => False end) as Hdec.
  { rewrite /get_decoder. pose proof (dec_new_at (compression st) (io st) (i_offset e) p x) as Hn. rewrite Hl in Hn.
    ospecialize* Hn; [|lia|done|].
    - split; [rewrite -(ztake_ge (zlen p) p); [|lia]; apply stored_holds; [done|lia]|].
      rewrite Hl. split; [lia|]. split; [lia|]. split; [u64|done].
    - cbv zeta in *. destruct (dec_new (compression st) (block_reader_new (io st) (i_offset e) (i_size e)))
        as [dec|err|]; simpl in Hn |- *; [|done..]. apply collect_decoding; [done|lia..]. }
  assert (∀ stream, match stream with
    | Ok b => yields (io st) (collect (Z.to_nat n + 2) (io st) b) (ztake n x)
    | Err err => get_fault st (compression st ≠ Snappy) err
    | Panic => False end →
    match (s ← stream; Ok (mkGetResult s (meta_for location e) (0, n))) with
    | Ok g => gr_meta g = meta_for location e ∧ gr_range g = (0, n) ∧
        yields (io st) (collect (Z.to_nat n + 2) (io st) (gr_payload g)) (ztake n x)
    | Err err => get_fault st (compression st ≠ Snappy) err
    | Panic => False end) as Hfin by by intros [b|err|].
  apply Hfin. destruct (decide (compression st = Snappy)) as [Hsn|Hns].
  - rewrite Hsn /get_snappy. destruct (read_entry st location e Hok Hk) as [Hrd Hnf].
    fold p in Hrd, Hnf. destruct Hrd as [->|(k & m & Hrd)].
    + simpl. rewrite Hsn /= in Hx. rewrite Hx /= Hzx Z.min_l; [|lia]. left.
      by rewrite Nat.add_comm collect_once.
    + rewrite Hrd in Hnf |- *. simpl. split; [by eauto|]. intros Hn. by specialize (Hnf Hn).
  - assert (match compression st with Snappy => get_snappy (io st) location e n
            | _ => get_decoder (io st) (compression st) e n end = get_decoder (io st) (compression st) e n)
      as -> by by destruct (compression st).
    destruct (get_decoder _ _ _ _) as [b|err|]; [done| |done]. by split.
Qed.

(** ** Ranged reads *)

(** The range a request resolves to is a slice of the body. *)
Definition request_ok (r : GetRange) : Prop :=
  match r with Bounded a b => 0 <= a ∧ 0 <= b | Offset o => 0 <= o | Suffix s => 0 <= s end.

Lemma resolve_range_ok r total :
  request_ok r → 0 <= total →
  let '(start, end_) := resolve_range r total in 0 <= start <= end_ ∧ end_ <= total.
Proof. destruct r; simpl; rewrite /sat_sub; lia. Qed.

Lemma contents_entry hi st location body metadata :
  inner_ok hi st → index_in_range (index st) → contents st !! location = Some (body, metadata) →
  ∃ e, files (index st) !! location = Some e ∧ objects st !! location = Some (body ++ metadata) ∧
    body_size e = zlen body ∧ logical_size e = zlen (body ++ metadata) ∧ entry_in_range e ∧
    meta_for location e = mkObjectMeta location (i_last_modified e) (zlen body).
Proof.
  intros Hok Hr Hct. rewrite contents_lookup in Hct.
  destruct (files (index st) !! location) as [e|] eqn:Hk; [|done].
  destruct (entry_in_index hi st location e) as (Hre & Hoe & Hlog); [done..|].
  pose proof (logical_size_data _ _ _ Hoe) as Hld.
  pose proof (body_size_bounds e ltac:(by apply (er_meta _ Hre)) ltac:(lia)) as Hb.
  simpl in Hct. injection Hct as Hbody Hmeta.
  assert (zlen body = body_size e) as Hzb by (rewrite -Hbody zlen_ztake; lia).
  assert (body ++ metadata = entry_data (compression st) (io st) e) as Hd
    by by rewrite -Hbody -Hmeta ztake_zdrop.
  exists e. rewrite objects_lookup Hk Hd. split_and!; try done. by rewrite /meta_for Hzb.
Qed.

(** A full get of an object: its stream yields the body. *)
Lemma get_opts_full_spec `{!StreamDecoderLaws} hi st location body metadata :
  inner_ok hi st → index_in_range (index st) → contents st !! location = Some (body, metadata) →
  match get_opts st location None with
  | Ok g => gr_range g = (0, zlen body) ∧ om_location (gr_meta g) = location ∧ om_size (gr_meta g) = zlen body ∧
      yields (io st) (collect (length body + 2) (io st) (gr_payload g)) body
  | Err err => ∃ raw, err = to_os_error raw ∧ get_fault st (compression st ≠ Snappy) raw
  | Panic => False
  end.
Proof.
  intros Hin Hr Hv. destruct (contents_entry hi st location body metadata) as (e & Hk & Ho & Hb & _ & He & Hmeta); [done..|].
  assert (ztake (body_size e) (entry_data (compression st) (io st) e) = body) as Hd.
  { rewrite objects_lookup Hk in Ho. simpl in Ho. injection Ho as ->. by rewrite Hb ztake_app_exact. }
  rewrite /get_opts /lookup_file Hk. cbn [ok_or mbind Res_bind].
  assert (Z.to_nat (body_size e) = length body) as Hlen by (rewrite Hb /zlen; lia).
  destruct (decide (i_uncompressed_size e = 0)) as [Hu|Hu].
  - destruct (get_full_plain _ st location e Hin Hr Hk Hu) as (g & -> & Hm & Hg & Hy).
    rewrite /= Hm Hg Hmeta. rewrite Hlen Hd Hb in Hy |- *. done.
  - pose proof (get_full_coded _ st location e Hin Hr Hk) as Hg.
    ospecialize* Hg; [pose proof (er_unc _ He); u64|].
    destruct (get_full _ _ location e) as [g|err|]; simpl; [| |done].
    + destruct Hg as (Hm & Hg & Hy). rewrite Hm Hg Hmeta. rewrite Hlen Hd Hb in Hy |- *. done.
    + by exists err.
Qed.

(** The errors of a ranged read: a fault, or a compressed object too large
    to decompress in memory. *)
Definition range_fault st (location : string) (err : RawStoreError) : Prop :=
  (∃ k m, err = Io k m) ∧
  (no_faults (env (disk (io st))) →
    ∃ e, files (index st) !! location = Some e ∧ COMPRESSED_RANGE_READ_MAX < i_uncompressed_size e).

Lemma get_ranged_spec hi st location body metadata r :
  inner_ok hi st → index_in_range (index st) → contents st !! location = Some (body, metadata) → request_ok r →
  let '(start, end_) := resolve_range r (zlen body) in
  match get_ranged st location r with
  | Ok g => gr_payload g = Once (ztake (end_ - start) (zdrop start body)) ∧ gr_range g = (start, end_) ∧
      om_location (gr_meta g) = location ∧ om_size (gr_meta g) = zlen body
  | Err err => range_fault st location err
  | Panic => False
  end.
Proof.
  intros Hok Hr Hct Hreq. destruct (contents_entry hi st location body metadata) as (e & Hk & Hobj & Hb & _ & _ & Hm); [done..|].
  pose proof (resolve_range_ok r (zlen body) Hreq (zlen_nonneg _)) as Hrr.
  rewrite /get_ranged /lookup_file Hk /= Hb. destruct (resolve_range r (zlen body)) as [start end_].
  pose proof (zlen_nonneg metadata).
  pose proof (do_get_range_spec (hi:=hi) st location start end_ _ Hok Hobj) as Hg.
  ospecialize* Hg; [lia|lia|rewrite zlen_app; lia|].
  destruct (do_get_range st location start end_) as [[part e']|err|]; [| |done]; simpl.
  - destruct Hg as (Hk' & data & Hd & ->). assert (e' = e) as -> by congruence.
    assert (data = body ++ metadata) as -> by congruence.
    split; [|split; [done|]]; [|by rewrite -Hb].
    f_equal. rewrite zdrop_app_le; [|lia]. rewrite ztake_app_le //. rewrite zlen_zdrop; lia.
  - done.
Qed.

Lemma get_metadata_spec hi st location body metadata :
  inner_ok hi st → index_in_range (index st) → contents st !! location = Some (body, metadata) →
  match get_metadata st location with
  | Ok m => m = metadata
  | Err err => range_fault st location err
  | Panic => False
  end.
Proof.
  intros Hok Hr Hct. destruct (contents_entry hi st location body metadata) as (e & Hk & Hobj & Hb & Hl & Hre & Hm); [done..|].
  pose proof (zlen_nonneg body). pose proof (zlen_nonneg metadata). rewrite zlen_app in Hl.
  rewrite /get_metadata /lookup_file Hk /=. destruct (i_meta_len e =? 0) eqn:E.
  { apply Z.eqb_eq in E. symmetry. apply zlen_zero_nil. rewrite /body_size /sat_sub E in Hb. lia. }
  pose proof (do_get_range_spec (hi:=hi) st location (body_size e) (logical_size e) _ Hok Hobj) as Hg.
  ospecialize* Hg; [lia|lia|rewrite zlen_app; lia|].
  destruct (do_get_range _ _ _ _) as [[part e']|err|]; [| |done]; simpl; [|done].
  destruct Hg as (_ & data & Hd & ->). assert (data = body ++ metadata) as -> by congruence.
  rewrite Hb zdrop_app_exact // ztake_ge //. lia.
Qed.

(** ** Listings *)

#[local] Instance by_path_total {A} (key : A → string) : Total (by_path key).
Proof. intros x y. apply (total String.le). Qed.
#[local] Instance by_path_trans {A} (key : A → string) : Transitive (by_path key).
Proof. intros x y z. rewrite /by_path. by etrans. Qed.

Lemma sort_by_path_spec {A} (key : A → string) (l : list A) :
  sort_by_path key l ≡ₚ l ∧ StronglySorted (by_path key) (sort_by_path key l).
Proof.
  split; [apply merge_sort_Permutation|]. apply StronglySorted_merge_sort; apply _.
Qed.

(** A key shows up in listings under [prefix]. *)
Definition listed (prefix : option string) (k : string) : Prop :=
  is_tmp_key k = false ∧ matches_prefix prefix k = true.

Lemma visible_entries_spec `{!HashMapOrderLaws} st prefix :
  NoDup (visible_entries st prefix).*1 ∧
  ∀ k e, (k, e) ∈ visible_entries st prefix ↔ files (index st) !! k = Some e ∧ listed prefix k.
Proof.
  rewrite /visible_entries /listed. split.
  - assert (NoDup (hm_iter (files (index st))).*1) as Hn
      by by rewrite hm_iter_perm; apply NoDup_fst_map_to_list.
    revert Hn. generalize (hm_iter (files (index st))). intros l Hn. rewrite list_filter_filter.
    induction l as [|[k e] l IH]; [constructor|]. apply NoDup_cons in Hn as [Hk Hn].
    rewrite filter_cons. case_decide; [|by apply IH]. simpl. constructor; [|by apply IH].
    contradict Hk. apply list_elem_of_fmap in Hk as ([k' e'] & -> & [_ ?]%list_elem_of_filter).
    apply list_elem_of_fmap. by exists (k', e').
  - intros k e. rewrite !list_elem_of_filter hm_iter_perm elem_of_map_to_list. tauto.
Qed.

Lemma list_full_spec `{!HashMapOrderLaws} hi st prefix :
  inner_ok hi st → index_in_range (index st) →
  StronglySorted (by_path fi_key) (list_full st prefix) ∧ NoDup (fi_key <$> list_full st prefix) ∧
  ∀ k n, (∃ i, i ∈ list_full st prefix ∧ fi_key i = k ∧ fi_body_size i = n) ↔
    listed prefix k ∧ ∃ body metadata, contents st !! k = Some (body, metadata) ∧ n = zlen body.
Proof.
  intros Hok Hr. destruct (visible_entries_spec st prefix) as [Hnd Hin].
  destruct (sort_by_path_spec fi_key (full_info <$> visible_entries st prefix)) as [Hp Hs].
  fold (list_full st prefix) in Hp, Hs. split; [done|]. split.
  { rewrite Hp -list_fmap_compose. erewrite list_fmap_ext; [exact Hnd|]. by intros ? [k e] _. }
  intros k n. setoid_rewrite Hp. split.
  - intros (i & ([k' e] & -> & [Hk Hl]%Hin)%list_elem_of_fmap & <- & <-). split; [done|].
    destruct (contents st !! k') as [[body metadata]|] eqn:Hct; [|by rewrite contents_lookup Hk in Hct].
    destruct (contents_entry hi st k' body metadata) as (e' & Hk' & _ & Hb & _); [done..|].
    assert (e' = e) as -> by congruence. by exists body, metadata.
  - intros [Hl (body & metadata & Hct & ->)].
    destruct (contents_entry hi st k body metadata) as (e & Hk & _ & Hb & _); [done..|].
    exists (full_info (k, e)). split; [|done]. apply list_elem_of_fmap. exists (k, e). split; [done|]. by apply Hin.
Qed.
End gets.
