(* ===== verification/Behaviour.v ===== *)
(** * The behaviour of a store

    Which keys an operation leaves alone, and the store as a transition
    system.

    An operation changes the index entries of the keys it names and of no
    other.  [keeping k m] says it of one computation; the rules below follow
    the structure of the code, and [keeping] applies them. *)

From S2P Require Import Prelude.
From S2P Require Import Config.
From S2P Require Import Device.
From S2P Require Import Allocator.
From S2P Require Import Extent.
From S2P Require Import Streaming.
From S2P Require Import Index.
From S2P Require Import Superblock.
From S2P Require Import Inner.
From S2P Require Import InnerFacts.
From S2P Require Import RawStore.
From S2P Require Import StoreFacts.
From S2P Require Import Flush.
From S2P Require Import FormatFacts.
From S2P Require Import Recovery.
From S2P Require Import Changes.
From S2P Require Import StoreTools.
From S2P Require Import StoreMeta.
From S2P Require Import ObjectStoreApi.
From S2P Require Import Multipart.
From S2P Require Import ApiFacts.
From S2P Require Import StreamedWrites.
From S2P Require Import MultipartFacts.

Definition keeps (k : string) (st st' : Inner) : Prop :=
  files (index st') !! k = files (index st) !! k.

Definition keeping (k : string) {E A} (m : SM Inner E A) : Prop := ∀ st, keeps k st (m st).1.

#[global] Instance keeps_preorder k : PreOrder (keeps k).
Proof. split; [done|]. intros a b c Hab Hbc. by rewrite /keeps Hbc. Qed.

Section rules.
Context {E : Type} (k : string).

Lemma keeping_bind {A B} (m : SM Inner E A) (f : A → SM Inner E B) :
  keeping k m → (∀ a, keeping k (f a)) → keeping k (sm_bind m f).
Proof.
  intros Hm Hf st. rewrite /sm_bind. specialize (Hm st). destruct (m st) as [st' [a|e|]]; [|done..].
  etrans; [exact Hm|apply Hf].
Qed.

Lemma keeping_lift {A} (r : Res E A) : keeping k (sm_lift r).
Proof. done. Qed.

Lemma keeping_modify f : (∀ st, keeps k st (f st)) → keeping k (sm_modify (E := E) f).
Proof. intros Hf st. apply Hf. Qed.

Lemma keeping_on_err {A} (m : SM Inner E A) f :
  keeping k m → (∀ st, keeps k st (f st)) → keeping k (sm_on_err m f).
Proof.
  intros Hm Hf st. rewrite /sm_on_err. specialize (Hm st). destruct (m st) as [st' [a|e|]]; [done| |done].
  etrans; [exact Hm|apply Hf].
Qed.
End rules.

Create HintDb keeping.
#[export] Hint Resolve keeping_bind keeping_lift keeping_modify keeping_on_err : keeping.

Section operations.
Context `{Crc32c, Codecs, BincodeShard, BincodeSuperblock, HashMapOrder, ObjectPath, StreamDecoder, TempFiles}.
Implicit Types (k key : string) (st : Inner).

Lemma keeping_os_err k {A} (m : SM Inner RawStoreError A) : keeping k m → keeping k (os_err m).
Proof. intros Hm st. rewrite /os_err. specialize (Hm st). by destruct (m st). Qed.

Lemma keeping_on_io k {A} (m : SM DeviceIo RawStoreError A) : keeping k (on_io m).
Proof. intros st. rewrite /on_io /sm_zoom. by destruct (m (io st)). Qed.

Lemma keeps_give_back k offset padded st : keeps k st (give_back offset padded st).
Proof. rewrite /give_back. by case_match. Qed.

Lemma keeping_alloc_extent k padded : keeping k (alloc_extent padded).
Proof. intros st. rewrite /alloc_extent. case_match; [|done]. by case_match. Qed.

Lemma keeping_mark_shard_dirty k key : keeping k (mark_shard_dirty key).
Proof. intros st. rewrite /mark_shard_dirty. by case_decide. Qed.

Lemma keeps_insert k key e st : k ≠ key → keeps k st (insert_entry key e st).
Proof. intros Hk. by rewrite /keeps /= lookup_insert_ne. Qed.

Lemma keeps_removed k key st : k ≠ key → keeps k st (set_files (delete key (files (index st))) st).
Proof. intros Hk. by rewrite /keeps /= lookup_delete_ne. Qed.

Lemma keeping_remove_old k key : k ≠ key → keeping k (remove_old key).
Proof.
  intros Hk st. rewrite /remove_old. case_match; [|done]. rewrite /free_extent.
  case_match; (etrans; [by apply (keeps_removed _ key)|]); [apply keeps_give_back|done].
Qed.

Lemma keeping_finish_put k now key offset size padded crc meta_len unc :
  k ≠ key → keeping k (finish_put now key offset size padded crc meta_len unc).
Proof.
  intros Hk. apply keeping_bind; [by apply keeping_remove_old|intros _].
  apply keeping_bind; [done|intros _]. apply keeping_bind; [apply keeping_mark_shard_dirty|intros _].
  apply keeping_bind; [|done]. apply keeping_modify. intros st. by apply keeps_insert.
Qed.
End operations.

#[export] Hint Resolve keeping_os_err keeping_on_io keeps_give_back keeping_alloc_extent
  keeping_mark_shard_dirty keeps_insert keeps_removed keeping_remove_old keeping_finish_put : keeping.

(** Decompose the computation by its structure. *)
Ltac keeping := repeat first
  [ done | solve [eauto with keeping nocore]
  | apply keeping_bind; [|intros ?] | apply keeping_on_err | apply keeping_os_err | apply keeping_modify | case_match ].

Section calls.
Context `{Crc32c, Codecs, BincodeShard, BincodeSuperblock, HashMapOrder, ObjectPath, StreamDecoder, TempFiles}.
Implicit Types (k key : string) (st : Inner).

Lemma keeping_do_put_with_meta k now key payload meta_len :
  k ≠ key → keeping k (do_put_with_meta now key payload meta_len).
Proof.
  intros Hk st. rewrite /do_put_with_meta. repeat (case_match; [done|]). case_match.
  apply (λ H : keeping k _, H st). keeping.
Qed.

Lemma keeping_do_copy k now from_key to_key : k ≠ to_key → keeping k (do_copy now from_key to_key).
Proof.
  intros Hk st. rewrite /do_copy. repeat (case_match; [done|]). apply (λ H : keeping k _, H st).
  apply keeping_bind; [done|intros info]. apply keeping_bind; [apply keeping_alloc_extent|intros off].
  apply keeping_bind; [|intros _; keeping].
  intros st1. pose proof (keeping_on_io k (copy_batches (Z.to_nat (i_padded_size info)) (i_offset info) off
    (i_padded_size info) 0) st1) as Hio.
  destruct (on_io _ st1) as [st' [|e|]]; [done| |done]. case_match; [done|].
  etrans; [exact Hio|apply keeps_give_back].
Qed.

Lemma keeping_put_from_file k now key file meta_len :
  k ≠ key → keeping k (put_with_meta_from_file now key file meta_len).
Proof.
  intros Hk st. rewrite /put_with_meta_from_file. case_match.
  - case_match; [by apply keeping_do_put_with_meta|done..].
  - repeat (case_match; [done|]). apply (λ H : keeping k _, H st). keeping.
Qed.

Lemma keeping_update_metadata k now key metadata : k ≠ key → keeping k (update_metadata now key metadata).
Proof.
  intros Hk st. rewrite /update_metadata. case_match; [done|]. case_match; [|done]. case_match.
  - rewrite /update_compressed. case_match; [by apply keeping_do_put_with_meta|done..].
  - repeat (case_match; [done|]). apply (λ H : keeping k _, H st). keeping.
Qed.

Lemma keeping_set_meta_len k key meta_len : k ≠ key → keeping k (set_meta_len key meta_len).
Proof.
  intros Hk st. rewrite /set_meta_len. case_match; [|done]. apply (λ H : keeping k _, H st). keeping.
Qed.

Lemma taken_keeps k key st info st' : k ≠ key → take_entry key st = Some (info, st') → keeps k st st'.
Proof. intros Hk. rewrite /take_entry. case_match; [|done]. intros [= _ <-]. by apply (keeps_removed _ key). Qed.

Lemma keeping_delete_object k key : k ≠ key → keeping k (delete_object key).
Proof.
  intros Hk st. rewrite /delete_object. case_match; [done|].
  destruct (take_entry key st) as [[info st1]|] eqn:Ht; [|done].
  etrans; [by apply (taken_keeps _ _ _ _ _ Hk Ht)|]. etrans; [apply keeps_give_back|].
  apply (λ H : keeping k _, H _). keeping.
Qed.

Lemma keeping_finish_rename k from_key to_key info :
  k ≠ to_key → keeping k (finish_rename from_key to_key info).
Proof.
  intros Hk. apply keeping_os_err. keeping.
Qed.

Lemma keeping_rename k from_key to_key : k ≠ from_key → k ≠ to_key → keeping k (rename from_key to_key).
Proof.
  intros Hf Hk st. rewrite /rename. repeat (case_match; [done|]).
  destruct (take_entry from_key st) as [[info st1]|] eqn:Ht; [|done].
  etrans; [by apply (taken_keeps _ _ _ _ _ Hf Ht)|].
  destruct (take_entry to_key st1) as [[old st2]|] eqn:Ht2.
  - etrans; [by apply (taken_keeps _ _ _ _ _ Hk Ht2)|]. etrans; [apply keeps_give_back|].
    by apply keeping_finish_rename.
  - by apply keeping_finish_rename.
Qed.

Lemma keeping_rename_new k from_key to_key :
  k ≠ from_key → k ≠ to_key → keeping k (rename_if_not_exists from_key to_key).
Proof.
  intros Hf Hk st. rewrite /rename_if_not_exists. repeat (case_match; [done|]).
  destruct (take_entry from_key st) as [[info st1]|] eqn:Ht; [|done].
  etrans; [by apply (taken_keeps _ _ _ _ _ Hf Ht)|by apply keeping_finish_rename].
Qed.

Lemma keeping_delete_tombstone k key : keeping k (delete_tombstone key).
Proof.
  intros st. rewrite /delete_tombstone. case_match; [done|]. case_match; [done|]. case_match; [|done].
  apply (λ H : keeping k _, H st). keeping.
Qed.

Lemma keeping_drop_parts k keys : k ∉ keys → keeping k (drop_parts keys).
Proof.
  induction keys as [|key keys IH]; [done|]. rewrite not_elem_of_cons. intros [Hk Hks] st. simpl.
  destruct (take_entry key st) as [[info st1]|] eqn:Ht; [|by apply IH].
  etrans; [by apply (taken_keeps _ _ _ _ _ Hk Ht)|]. etrans; [apply keeps_give_back|].
  apply (λ H : keeping k _, H _). apply keeping_bind; [apply keeping_mark_shard_dirty|intros _; by apply IH].
Qed.

Lemma keeping_complete_inner k now u :
  k ≠ up_location u → k ∉ part_keys u → keeping k (complete_inner now u).
Proof.
  intros Hk Hks st. rewrite /complete_inner. case_match; [|done..]. apply (λ H : keeping k _, H st).
  apply keeping_bind; [done|intros [[size unc] tmp]]. keeping. by apply keeping_drop_parts.
Qed.

Lemma keeping_complete k now u st :
  k ≠ up_location u → k ∉ part_keys u → keeps k st (complete now (st, u)).1.1.
Proof.
  intros Hk Hks. rewrite /complete. case_match; [done|].
  pose proof (keeping_complete_inner k now u Hk Hks st). by destruct (complete_inner now u st) as [? []].
Qed.

Lemma keeping_abort k u st : k ∉ part_keys u → keeps k st (abort (st, u)).1.1.
Proof.
  intros Hks. rewrite /abort. pose proof (keeping_drop_parts k (part_keys u) Hks st).
  by destruct (drop_parts _ st) as [? []].
Qed.
End calls.

(** * The store as a transition system

    [run] executes one call on an open store; [spec] is what the call means on
    the abstract store, a map from keys to bodies and metadata.  The calls
    refine their meaning, keep the store invariant and leave the committed
    image alone, so that a crash at any time loses only what was not flushed. *)

(** One call of the public interface that changes the store. *)
Inductive Op : Type :=
| OpPut (now : Z) (key : string) (data : list byte) (mode : PutMode)
| OpPutMeta (now : Z) (key : string) (body metadata : list byte)
| OpPutFile (now : Z) (key : string) (file : SourceFile) (meta_len : Z)
| OpDelete (key : string)
| OpCopy (now : Z) (from_key to_key : string)
| OpCopyNew (now : Z) (from_key to_key : string)
| OpRename (from_key to_key : string)
| OpRenameNew (from_key to_key : string)
| OpSetMetaLen (key : string) (meta_len : Z)
| OpUpdateMeta (now : Z) (key : string) (metadata : list byte)
| OpDeleteTombstone (key : string)
| OpComplete (now : Z) (u : RawMultipartUpload)
| OpAbort (u : RawMultipartUpload)
| OpFlush.

Section behaviour.
Context `{Crc32cLaws, CodecLaws, BincodeShardLaws, BincodeSuperblockLaws, HashMapOrderLaws, ObjectPath, StreamDecoder,
  TempFilesLaws}.
Implicit Types (s : RawObjectStore) (st : Inner).

Definition quiet {S E A} (m : SM S E A) : SM S E unit := m ;;; sm_ret tt.

(** The call on the locked state; [OpFlush] also uses the store around it. *)
Definition run_inner (o : Op) : SM Inner ObjectStoreError unit :=
  match o with
  | OpPut now key data mode => put_opts now key data mode
  | OpPutMeta now key body metadata => os_err (put_with_meta now key body metadata)
  | OpPutFile now key file meta_len => os_err (put_with_meta_from_file now key file meta_len)
  | OpDelete key => delete_object key
  | OpCopy now from_key to_key => copy now from_key to_key
  | OpCopyNew now from_key to_key => copy_if_not_exists now from_key to_key
  | OpRename from_key to_key => rename from_key to_key
  | OpRenameNew from_key to_key => rename_if_not_exists from_key to_key
  | OpSetMetaLen key meta_len => os_err (set_meta_len key meta_len)
  | OpUpdateMeta now key metadata => os_err (update_metadata now key metadata)
  | OpDeleteTombstone key => os_err (quiet (delete_tombstone key))
  | OpComplete now u => λ st, let '((st', _), r) := complete now (st, u) in (st', r)
  | OpAbort u => λ st, let '((st', _), r) := abort (st, u) in (st', r)
  | OpFlush => sm_ret tt
  end.

Definition run (o : Op) : SM RawObjectStore ObjectStoreError unit :=
  match o with
  | OpFlush => os_err flush_index
  | _ => sm_zoom inner set_inner (run_inner o)
  end.

Definition Contents : Type := gmap string (list byte * list byte).

(** The abstract store a concrete one stands for. *)
Definition view s : Contents := contents (inner s).

Definition full (c : list byte * list byte) : list byte := c.1 ++ c.2.

(** What a successful call means. *)
Definition spec (o : Op) (m m' : Contents) : Prop :=
  match o with
  | OpPut _ key data mode => (mode = Create → m !! key = None) ∧ m' = <[key := (data, [])]> m
  | OpPutMeta _ key body metadata => m' = <[key := (body, metadata)]> m
  | OpPutFile _ key file meta_len => ∃ p, read_to_end (sf_reads file) = Ok p ∧
      m' = <[key := split_at (sat_sub (zlen p) meta_len) p]> m
  | OpDelete key => m' = delete key m
  | OpCopy _ from_key to_key => ∃ c, m !! from_key = Some c ∧ m' = <[to_key := c]> m
  | OpCopyNew _ from_key to_key =>
      m !! to_key = None ∧ ∃ c, m !! from_key = Some c ∧ m' = <[to_key := c]> m
  | OpRename from_key to_key => ∃ c, m !! from_key = Some c ∧ m' = <[to_key := c]> (delete from_key m)
  | OpRenameNew from_key to_key =>
      m !! to_key = None ∧ ∃ c, m !! from_key = Some c ∧ m' = <[to_key := c]> (delete from_key m)
  | OpSetMetaLen key n => ∃ c, m !! key = Some c ∧
      m' = <[key := split_at (sat_sub (zlen (full c)) n) (full c)]> m
  | OpUpdateMeta _ key metadata => ∃ body old, m !! key = Some (body, old) ∧ m' = <[key := (body, metadata)]> m
  | OpDeleteTombstone _ => m' = m
  | OpComplete _ u => ∃ ds, Forall2 (λ k d, ∃ c, m !! k = Some c ∧ d = full c) (part_keys u) ds ∧
      m' = delete_all (part_keys u) (<[up_location u := (concat ds, [])]> m)
  | OpAbort u => m' = delete_all (part_keys u) m
  | OpFlush => m' = m
  end.

(** Arguments of the Rust types, on a clock chrono represents in nanoseconds,
    and payloads below 2^63 bytes. *)
Definition time_ok (now : Z) : Prop := - 2 ^ 63 <= now < 2 ^ 63.

Definition op_ok (o : Op) (m : Contents) : Prop :=
  match o with
  | OpPut now _ data _ => time_ok now ∧ zlen data < 2 ^ 63
  | OpPutMeta now _ body metadata => time_ok now ∧ zlen (body ++ metadata) < 2 ^ 63
  | OpPutFile now _ file meta_len =>
      time_ok now ∧ file_ok file ∧ 0 <= sf_len file < 2 ^ 63 ∧ 0 <= meta_len < 2 ^ 16
  | OpCopy now _ _ | OpCopyNew now _ _ => time_ok now
  | OpSetMetaLen _ n => 0 <= n < 2 ^ 16
  | OpUpdateMeta now key metadata => time_ok now ∧
      ∀ c, m !! key = Some c → zlen (full c) + zlen metadata < 2 ^ 63
  | OpComplete now u => time_ok now ∧
      ∀ ds, Forall2 (λ k d, ∃ c, m !! k = Some c ∧ d = full c) (part_keys u) ds → zlen (concat ds) < 2 ^ 63
  | _ => True
  end.

(** ** Refinement *)

Definition refines (hi : Z) (o : Op) st (out : Inner * Res ObjectStoreError unit) : Prop :=
  change hi st out.1 ∧
  match out.2 with
  | Ok _ => spec o (contents st) (contents out.1)
  | Err _ => contents out.1 = contents st
  | Panic => False
  end.

Lemma fails_refines hi o st st' err : fails hi st st' → refines hi o st (st', Err err).
Proof. done. Qed.

Lemma same_refines hi o st err :
  inner_ok hi st → index_in_range (index st) → refines hi o st (st, Err err).
Proof. intros. split; [by apply change_refl|done]. Qed.

Lemma do_put_refines hi o st now key data :
  inner_ok hi st → index_in_range (index st) → is_u64 (txn_id (superblock st)) →
  time_ok now → zlen data < 2 ^ 63 → spec o (contents st) (<[key := (data, [])]> (contents st)) →
  refines hi o st (os_err (do_put now key data) st).
Proof.
  intros Hok Hr Ht Hnow Hlen Hs. rewrite /os_err /do_put.
  pose proof (do_put_stores hi st now key data [] Hok Hr Ht) as Hp. rewrite app_nil_r zlen_nil in Hp.
  ospecialize* Hp; [done..|]. destruct (do_put_with_meta _ _ _ _ st) as [st' [[]|e|]]; [| |done].
  - destruct Hp as [[Hch Hc] _]. split; [done|]. by rewrite /= Hc.
  - by destruct Hp.
Qed.

Lemma do_copy_refines hi o st now from_key to_key :
  inner_ok hi st → index_in_range (index st) → is_u64 (txn_id (superblock st)) → time_ok now →
  (∀ c, contents st !! from_key = Some c → spec o (contents st) (<[to_key := c]> (contents st))) →
  refines hi o st (os_err (do_copy now from_key to_key) st).
Proof.
  intros Hok Hr Ht Hnow Hs. rewrite /os_err.
  pose proof (do_copy_stores hi st now from_key to_key Hok Hr Ht Hnow) as Hc.
  destruct (do_copy _ _ _ st) as [st' [[]|e|]]; [| |done].
  - destruct Hc as (body & md & Hf & [Hch Hc] & _). split; [done|]. rewrite /= Hc. by apply Hs.
  - by destruct Hc.
Qed.

Lemma renames_refines hi o st st' from_key to_key :
  renames hi st st' from_key to_key →
  (∀ c, contents st !! from_key = Some c →
    spec o (contents st) (<[to_key := c]> (delete from_key (contents st)))) →
  refines hi o st (st', Ok tt).
Proof. intros (Hch & _ & c & Hc & Hs) H'. split; [done|]. rewrite /= Hs. by apply H'. Qed.

Lemma full_split e data : full (split_at e data) = data.
Proof. apply ztake_zdrop. Qed.

Lemma objects_full st k d : objects st !! k = Some d ↔ ∃ c, contents st !! k = Some c ∧ d = full c.
Proof.
  rewrite objects_lookup contents_lookup. destruct (files (index st) !! k) as [e|]; simpl.
  - split; [intros [= <-]|by intros (c & [= <-] & ->); rewrite full_split].
    eexists. split; [done|]. by rewrite full_split.
  - split; [done|]. by intros (? & ? & _).
Qed.

Lemma joined_full st keys p : joined st keys p ↔
  ∃ ds, Forall2 (λ k d, ∃ c, contents st !! k = Some c ∧ d = full c) keys ds ∧ p = concat ds.
Proof.
  rewrite /joined. split; intros (ds & Hf & ->); exists ds; (split; [|done]);
    (eapply Forall2_impl; [exact Hf|]); intros k d; apply objects_full.
Qed.

Lemma run_inner_refines hi o st :
  inner_ok hi st → index_in_range (index st) → is_u64 (txn_id (superblock st)) →
  op_ok o (contents st) → refines hi o st (run_inner o st).
Proof.
  intros Hok Hr Ht Hop.
  destruct o as [now key data mode|now key body md|now key f ml|key|now k1 k2|now k1 k2|k1 k2|k1 k2|key ml|now key md|key
    |now u|u|]; simpl in Hop |- *.
  - destruct Hop as [Hnow Hlen]. rewrite /put_opts. destruct mode as [| |tag ver].
    + destruct (files (index st) !! key) eqn:Hk; [by apply same_refines|].
      apply do_put_refines; try done. split; [|done]. intros _. by rewrite contents_lookup Hk.
    + by apply do_put_refines.
    + case_bool_decide; [by apply same_refines|]. by apply do_put_refines.
  - destruct Hop as [Hnow Hlen]. rewrite /os_err /put_with_meta.
    destruct (65535 <? zlen md) eqn:Hm; [by apply same_refines|]. apply Z.ltb_ge in Hm.
    pose proof (do_put_stores hi st now key body md Hok Hr Ht Hlen ltac:(lia) Hnow) as Hp.
    destruct (do_put_with_meta _ _ _ _ st) as [st' [[]|e|]]; [|by destruct Hp|done].
    destruct Hp as [[Hch Hc] _]. by split.
  - destruct Hop as (Hnow & Hf & Hlen & Hml). rewrite /os_err.
    pose proof (put_with_meta_from_file_spec hi st now key f ml Hok Hr Ht Hf Hlen Hml Hnow) as Hp.
    destruct (put_with_meta_from_file _ _ _ _ st) as [st' [[]|e|]]; [|by destruct Hp|done].
    by destruct Hp as (Hch & _ & Hc).
  - pose proof (delete_object_spec hi st key Hok Hr) as Hd.
    destruct (delete_object key st) as [st' r]. by destruct Hd as (-> & Hch & Hc & _).
  - apply do_copy_refines; [done..|]. intros c Hc. simpl. eauto.
  - rewrite /copy_if_not_exists. destruct (files (index st) !! k2) eqn:Hk; [by apply same_refines|].
    apply do_copy_refines; try done. intros c Hc. rewrite /= contents_lookup Hk. eauto.
  - pose proof (rename_spec hi st k1 k2 Hok Hr) as Hn.
    destruct (rename k1 k2 st) as [st' [[]|e|]]; [|by destruct Hn as [-> _]; apply same_refines|done].
    eapply renames_refines; [exact Hn|]. simpl. eauto.
  - pose proof (rename_if_not_exists_spec hi st k1 k2 Hok Hr) as Hn.
    destruct (rename_if_not_exists k1 k2 st) as [st' [[]|e|]]; [|by destruct Hn as [-> _]; apply same_refines|done].
    destruct Hn as [Hno Hn]. eapply renames_refines; [exact Hn|]. simpl. eauto.
  - rewrite /os_err. pose proof (set_meta_len_spec hi st key ml Hok Hr Hop) as Hm.
    destruct (set_meta_len key ml st) as [st' [[]|e|]]; [|by destruct Hm as [-> _]; apply same_refines|done].
    destruct Hm as (Hch & _ & body & md & Hk & Hc). split; [done|]. by exists (body, md).
  - destruct Hop as [Hnow Hlen]. rewrite /os_err.
    pose proof (update_metadata_spec hi st now key md Hok Hr Ht Hnow) as Hu.
    ospecialize* Hu.
    { intros e Hk. destruct (entry_in_index hi st key e) as (_ & Hoe & _); [done..|].
      rewrite (logical_size_data _ _ _ Hoe). specialize (Hlen (split_at (body_size e) (entry_data (compression st) (io st) e))).
      rewrite full_split in Hlen. apply Hlen. by rewrite contents_lookup Hk. }
    destruct (update_metadata _ _ _ st) as [st' [[]|e|]]; [|by destruct Hu|done].
    destruct Hu as (body & old & Hk & [Hch Hc] & _). split; [done|]. by exists body, old.
  - pose proof (delete_tombstone_spec hi st key Hok Hr) as Hd. rewrite /os_err /quiet /sm_bind.
    destruct (delete_tombstone key st) as [st' r]. by destruct Hd as ([Hch Hc] & -> & _).
  - destruct Hop as [Hnow Hlen]. rewrite /complete. case_decide as Hne; [by apply same_refines|].
    pose proof (complete_inner_spec hi st now u Hok Hr Ht Hnow Hne) as Hc. ospecialize* Hc.
    { intros p (ds & Hds & ->)%joined_full. by apply Hlen. }
    destruct (complete_inner now u st) as [st' [[]|e|]]; [|by destruct Hc|done].
    destruct Hc as (Hch & p & (ds & Hds & ->)%joined_full & Hcont & _). split; [done|]. by exists ds.
  - change (refines hi (OpAbort u) st (let '((st', _), r) := abort (st, u) in (st', r))).
    pose proof (abort_spec hi st u Hok Hr) as Ha. destruct (abort (st, u)) as [[st' u'] r].
    by destruct Ha as (-> & _ & Hch & Hc & _).
  - split; [|done]. by apply change_refl.
Qed.
End behaviour.
