(* ===== verification/History.v ===== *)
(** * Histories of calls, crashes and recovery

    [calls s os s'] is a history of calls with their results; [trace] one in
    which no flush failed.  Every history refines the abstract store and keeps
    [working]; a trace keeps [store_ok].  After a flush, whatever trace follows
    and wherever the power fails, inside a call or a flush too, the store opens
    in every mode and every key no later call named reads as it was flushed. *)

From S2P Require Import Prelude.
From S2P Require Import Config.
From S2P Require Import Device.
From S2P Require Import Allocator.
From S2P Require Import Extent.
From S2P Require Import Streaming.
From S2P Require Import Index.
From S2P Require Import Superblock.
From S2P Require Import Inner.
From S2P Require Import InnerFacts.
From S2P Require Import RawStore.
From S2P Require Import StoreFacts.
From S2P Require Import Flush.
From S2P Require Import FormatFacts.
From S2P Require Import Recovery.
From S2P Require Import Changes.
From S2P Require Import StoreTools.
From S2P Require Import StoreMeta.
From S2P Require Import ObjectStoreApi.
From S2P Require Import Multipart.
From S2P Require Import ApiFacts.
From S2P Require Import StreamedWrites.
From S2P Require Import MultipartFacts.
From S2P Require Import Behaviour.

Section history.
Context `{Crc32cLaws, CodecLaws, BincodeShardLaws, BincodeSuperblockLaws, HashMapOrderLaws, ObjectPath, StreamDecoder,
  TempFilesLaws}.
Implicit Types (s : RawObjectStore) (st : Inner) (o : Op).

(** The keys a call names. *)
Definition names o : list string :=
  match o with
  | OpPut _ k _ _ | OpPutMeta _ k _ _ | OpPutFile _ k _ _ | OpDelete k | OpSetMetaLen k _
  | OpUpdateMeta _ k _ | OpDeleteTombstone k => [k]
  | OpCopy _ a b | OpCopyNew _ a b | OpRename a b | OpRenameNew a b => [a; b]
  | OpComplete _ u => up_location u :: part_keys u
  | OpAbort u => part_keys u
  | OpFlush => []
  end.

(** A call on Rust arguments; a flush on a device with atomic sectors, before
    the transaction counter wraps. *)
Definition allowed o s : Prop :=
  op_ok o (view s) ∧
  (o = OpFlush → sector_atomic (env (file_of s)) ∧ txn_id (superblock (inner s)) + 1 < two64).

(** A history: the calls with their results.  In a [trace] no flush fails. *)
Definition Call : Type := Op * Res ObjectStoreError unit.

Inductive trace : RawObjectStore → list Call → RawObjectStore → Prop :=
| trace_nil s : trace s [] s
| trace_cons s o s1 r os s2 :
    allowed o s → run o s = (s1, r) → (o = OpFlush → r = Ok tt) → trace s1 os s2 →
    trace s ((o, r) :: os) s2.

(** The same history on the abstract store: a failed call changes nothing. *)
Inductive spec_trace : Contents → list Call → Contents → Prop :=
| spec_nil m : spec_trace m [] m
| spec_ok m o m1 os m2 : spec o m m1 → spec_trace m1 os m2 → spec_trace m ((o, Ok tt) :: os) m2
| spec_fails m o e os m2 : spec_trace m os m2 → spec_trace m ((o, Err e) :: os) m2.

(** ** One call *)

Lemma run_inner_keeps k o : k ∉ names o → keeping k (run_inner o).
Proof.
  intros Hk. destruct o; rewrite /= ?not_elem_of_cons in Hk |- *; destruct_and?; try apply keeping_os_err.
  - intros st. rewrite /put_opts. repeat case_match; try done; by apply keeping_os_err, keeping_do_put_with_meta.
  - intros st. rewrite /put_with_meta. case_match; [done|]. by apply keeping_do_put_with_meta.
  - by apply keeping_put_from_file.
  - by apply keeping_delete_object.
  - by apply keeping_do_copy.
  - intros st. rewrite /copy_if_not_exists. case_match; [done|]. by apply keeping_os_err, keeping_do_copy.
  - by apply keeping_rename.
  - by apply keeping_rename_new.
  - by apply keeping_set_meta_len.
  - by apply keeping_update_metadata.
  - apply keeping_bind; [apply keeping_delete_tombstone|done].
  - intros st. pose proof (keeping_complete k now u st) as Hc. rewrite /keeping /keeps /complete in Hc |- *.
    ospecialize* Hc; [tauto..|]. by repeat case_match; simplify_eq/=.
  - intros st. pose proof (keeping_abort k u st) as Hc. rewrite /keeping /keeps /abort in Hc |- *.
    ospecialize* Hc; [done|]. by repeat case_match; simplify_eq/=.
  - done.
Qed.

(** Any call but a flush changes the store as its specification says, keeps
    the invariant, the committed image and the entries of other keys. *)
Record stepped o s s' : Prop := {
  sp_ok : store_ok s';
  sp_committed sb idx : committed s sb idx → committed s' sb idx;
  sp_untouched k : k ∉ names o → files (index (inner s')) !! k = files (index (inner s)) !! k;
  sp_env : env (file_of s') = env (file_of s);
  sp_regions : same_regions s s';
  sp_superblock : superblock (inner s') = superblock (inner s);
  sp_frame : dev_frame DATA_START (index_region_a s) (io (inner s)) (io (inner s'));
  sp_size : file_size (file_of s') = file_size (file_of s);
}.

Lemma store_clock s : store_ok s → is_u64 (txn_id (superblock (inner s))).
Proof.
  intros [_ _ (sb & idx & Hcm) _ _ _ _]. destruct (committed_slots _ _ _ Hcm) as (_ & -> & Hval & _).
  destruct (sv_range _ Hval) as [_ _ _ Hu _ _ _ _]. rewrite !Forall_cons in Hu. by destruct_and?.
Qed.

Lemma run_stepped o s :
  store_ok s → op_ok o (view s) → o ≠ OpFlush →
  let '(s', r) := run o s in
  stepped o s s' ∧
  match r with
  | Ok _ => spec o (view s) (view s')
  | Err _ => view s' = view s
  | Panic => False
  end.
Proof.
  intros Hok Hop Hnf. assert (run o s = sm_zoom inner set_inner (run_inner o) s) as -> by by destruct o.
  rewrite /sm_zoom. pose proof (run_inner_refines (index_region_a s) o (inner s)) as Hr.
  ospecialize* Hr; [apply so_inner, Hok|apply so_range, Hok|by apply store_clock|done|].
  pose proof (λ k Hk, run_inner_keeps k o Hk (inner s)) as Hkeep.
  destruct (run_inner o (inner s)) as [st' r]. destruct Hr as [Hch Hr].
  destruct (change_store_ok s st' Hok Hch) as [Hcm Hok']. split; [|by destruct r].
  pose proof (of_frame _ _ _ (ch_frame _ _ _ Hch)) as Hf.
  split; [done..|apply (frame_env _ _ _ _ Hf)|done|apply (ch_superblock _ _ _ Hch)|done|by apply change_size].
Qed.

Lemma same_contents st st' :
  index st' = index st → objects st' = objects st → contents st' = contents st.
Proof.
  intros Hi Ho. apply map_eq. intros k. rewrite !contents_lookup Hi.
  pose proof (f_equal (λ m, m !! k) Ho) as Hk. rewrite /= !objects_lookup Hi in Hk.
  destruct (files (index st) !! k); [|done]. simpl in Hk |- *. by injection Hk as ->.
Qed.

Lemma run_flushed s sb idx :
  store_ok s → committed s sb idx → allowed OpFlush s →
  let '(s', r) := run OpFlush s in
  crash_safe s s' sb idx ∧
  match r with
  | Ok _ => flushed s s' sb ∧ view s' = view s
  | Err e => True
  | Panic => False
  end.
Proof.
  intros Hok Hcm [_ Hal]. destruct (Hal eq_refl) as [Hat Htx]. rewrite /run /os_err.
  pose proof (committed_slots _ _ _ Hcm) as (_ & Ht & _). rewrite Ht in Htx.
  pose proof (flush_index_spec s sb idx Hok Hcm Hat Htx) as Hf.
  destruct (flush_index s) as [s' [u|e|]]; destruct Hf as [Hc Hf]; (split; [done|]); try done.
  split; [done|]. rewrite /view. destruct Hf. by apply same_contents.
Qed.

(** ** Histories *)

Lemma trace_step o s s1 r :
  store_ok s → allowed o s → run o s = (s1, r) → (o = OpFlush → r = Ok tt) →
  store_ok s1 ∧
  match r with Ok _ => spec o (view s) (view s1) | Err _ => view s1 = view s | Panic => False end.
Proof.
  intros Hok Hal Hrun Hfl. assert (o = OpFlush ∨ o ≠ OpFlush) as [->|Hne] by (destruct o; auto).
  - pose proof Hok as [_ _ (sb & idx & Hcm) _ _ _ _]. pose proof (run_flushed s sb idx Hok Hcm Hal) as Hf.
    rewrite Hrun in Hf. destruct Hf as [_ Hf]. rewrite (Hfl eq_refl) in Hf |- *. destruct Hf as [Hf Hv].
    split; [apply Hf|done].
  - destruct Hal as [Hop _]. pose proof (run_stepped o s Hok Hop Hne) as Hr. rewrite Hrun in Hr.
    destruct Hr as [Hs Hr]. split; [by apply (sp_ok _ _ _ Hs)|done].
Qed.

Lemma trace_spec s os s' :
  trace s os s' → store_ok s → store_ok s' ∧ spec_trace (view s) os (view s').
Proof.
  induction 1 as [|s o s1 r os s2 Hal Hrun Hfl Htr IH]; [by split; [|constructor]|]. intros Hok.
  destruct (trace_step o s s1 r Hok Hal Hrun Hfl) as [Hok1 Hr]. destruct (IH Hok1) as [Hok2 Hsp].
  split; [done|]. destruct r as [[]|e|]; [by econstructor| |done]. rewrite -Hr. by constructor.
Qed.

(** ** Histories in which flushes may fail

    A flush that fails leaves slots of the superblock in memory that the
    device does not hold.  [working] is what is left of [store_ok] then: all
    that the calls on objects rely on. *)

Record working s : Prop := {
  wk_inner : inner_ok (index_region_a s) (inner s);
  wk_geo : geometry s;
  wk_range : index_in_range (index (inner s));
  wk_slots : slots_wf (shard_slots (superblock (inner s)));
  wk_sb : sb_valid (with_checksum 0 (superblock (inner s)));
  wk_txn : map_Forall (λ _ e, i_created_txn e <= txn_id (superblock (inner s))) (files (index (inner s)));
}.

Lemma store_working s : store_ok s → working s.
Proof.
  intros [Hin Hg (sb & idx & Hcm) Hr _ Htx _]. destruct (committed_slots _ _ _ Hcm) as (Hsl & _ & Hval & Hwf & _).
  split; try done; [by rewrite Hsl|]. rewrite -(cm_sb _ _ _ Hcm). destruct Hval as [? ? ? ? Hrg].
  split; try done. by apply with_checksum_range.
Qed.

Lemma working_clock s : working s → is_u64 (txn_id (superblock (inner s))).
Proof.
  intros [_ _ _ _ [_ _ _ _ [_ _ _ Hu _ _ _ _]] _]. rewrite !Forall_cons in Hu. by destruct_and?.
Qed.

Lemma change_working s st' :
  working s → change (index_region_a s) (inner s) st' → working (set_inner st' s).
Proof.
  intros [Hin Hg Hr Hsl Hsb Htx] [Hok' Hfr Hsbe _ Hfiles Hr' _ _].
  pose proof (of_frame _ _ _ Hfr) as Hf. pose proof (frame_size _ _ _ _ Hf) as Hsz.
  pose proof (io_size _ _ Hin) as Hio.
  assert (file_size (disk (io st')) = file_size (disk (io (inner s)))) as Hfs by lia.
  split; simpl; rewrite ?Hsbe //.
  - destruct Hg. split; simpl; rewrite ?Hfs ?(frame_direct _ _ _ _ Hf) //.
  - intros k e Hk. destruct (Hfiles k e Hk) as [(k0 & e0 & Hk0 & Hw)| -> ]; [|done].
    pose proof (Htx k0 e0 Hk0). apply (f_equal i_created_txn) in Hw. simpl in *. lia.
Qed.

Lemma run_working o s :
  working s → op_ok o (view s) → o ≠ OpFlush →
  let '(s', r) := run o s in
  working s' ∧
  match r with
  | Ok _ => spec o (view s) (view s')
  | Err _ => view s' = view s
  | Panic => False
  end.
Proof.
  intros Hw Hop Hnf. assert (run o s = sm_zoom inner set_inner (run_inner o) s) as -> by by destruct o.
  rewrite /sm_zoom. pose proof (run_inner_refines (index_region_a s) o (inner s)) as Hr.
  ospecialize* Hr; [apply Hw..|by apply working_clock|done|].
  destruct (run_inner o (inner s)) as [st' r]. destruct Hr as [Hch Hr]. split; [by apply change_working|by destruct r].
Qed.

(** Writing the dirty shards, whatever the slots hold before. *)
Lemma flush_shards_working s rest i bw st :
  geometry s → flush_handle s (io st) → index_in_range (index st) →
  slots_wf (shard_slots (superblock st)) → Forall slot_in_range (shard_slots (superblock st)) →
  0 <= i → i + zlen rest = 256 →
  let '(st', r) := flush_shards s rest i bw st in
  ∃ d' slots', st' = set_superblock (with_shard_slots slots' (superblock st)) (set_io d' st) ∧
    dev_frame (index_region_a s) (file_size (file_of s)) (io st) d' ∧
    slots_wf slots' ∧ Forall slot_in_range slots' ∧ r ≠ Panic.
Proof.
  intros Hg. revert i bw st. induction rest as [|b rest IH]; intros i bw st Hh Hrng Hwf Hsr Hi Hlen.
  { exists (io st), (shard_slots (superblock st)). rewrite with_shard_slots_id.
    split_and!; [by destruct st|apply dev_frame_refl|done..]. }
  rewrite zlen_cons in Hlen. pose proof (zlen_nonneg rest).
  destruct b; cbn [flush_shards]; [|by apply IH; [..|lia|lia]].
  assert (0 <= i < 256) as Hir by lia. pose proof Hwf as [Hl Hact].
  assert (∃ meta, shard_slots (superblock st) !! Z.to_nat i = Some meta) as [meta Hmeta]
    by (apply lookup_lt_is_Some; lia).
  assert (0 <= active_slot meta <= 1) as Ham by (by eapply Forall_lookup_1 in Hact).
  pose proof (flush_shard_spec s Hg i st meta Hh Hir Hrng Hmeta Ham) as Hstep.
  rewrite {1}/sm_bind. destruct (flush_shard s i st) as [st1 r1].
  destruct Hstep as (d1 & sb1 & -> & Hfr & Hr1).
  pose proof (slot_end s Hg (1 - active_slot meta) i Hir) as Hend.
  pose proof (so_bounds s Hg (1 - active_slot meta) i Hir) as Hbd.
  assert (dev_frame (index_region_a s) (file_size (file_of s)) (io st) d1) as Hfr1.
  { eapply dev_frame_mono; [..|exact Hfr]; rewrite /file_of; lia. }
  destruct r1 as [n|e|]; [| |done].
  2: { destruct Hr1 as [-> _]. exists d1, (shard_slots (superblock st)). by rewrite with_shard_slots_id. }
  destruct Hr1 as (meta' & -> & Hact' & _ & Hrange & _).
  assert (flush_handle s d1) as Hh1.
  { eapply handle_frame; [exact Hh| |exact Hfr]. destruct Hh as (_ & _ & ->). lia. }
  specialize (IH (i + 1) (bw + n) (set_superblock (set_slot i meta' (superblock st)) (set_io d1 st))).
  ospecialize* IH; [done|done| | |lia|lia|].
  { split; [by rewrite /= length_insert|]. apply Forall_insert; [done|lia]. }
  { apply Forall_insert; [done|]. destruct Hg. split; lia. }
  destruct (flush_shards s rest (i + 1) (bw + n) _) as [st2 r2].
  destruct IH as (d2 & slots2 & -> & Hf2 & ?). exists d2, slots2. split_and!; [by destruct st| |tauto..].
  by eapply dev_frame_trans.
Qed.

(** What a flush may have moved, wherever it stopped: bytes outside the data
    area, the slots and the clock in memory, and the dirty flags. *)
Record moved s st' : Prop := {
  mv_bytes i : DATA_START <= i < index_region_a s → byte_at (content (disk (io st'))) i = byte_at (content (file_of s)) i;
  mv_handle : direct (io st') = direct (io (inner s)) ∧ io_read_only (io st') = io_read_only (io (inner s)) ∧
    file_size (disk (io st')) = file_size (file_of s);
  mv_index : index st' = index (inner s);
  mv_settings : allocator st' = allocator (inner s) ∧ compression st' = compression (inner s) ∧
    read_only st' = read_only (inner s);
  mv_flags : length (shard_dirty st') = length (shard_dirty (inner s));
  mv_slots : slots_wf (shard_slots (superblock st'));
  mv_sb : sb_valid (with_checksum 0 (superblock st'));
  mv_txn : txn_id (superblock (inner s)) <= txn_id (superblock st');
}.

Lemma moved_working s s' :
  working s → same_regions s s' → moved s (inner s') →
  working s' ∧ index (inner s') = index (inner s) ∧ view s' = view s.
Proof.
  intros [Hin Hg Hr Hsl Hsb Htx] (Ha & Hb & Hc & Hd) [Hby (Hdir & Hro & Hfs) Hix (Hal & Hco & Hr') Hl Hsl' Hsb' Ht].
  rewrite /file_of in Hfs.
  destruct (inner_ok_outside (index_region_a s) (inner s) (inner s')) as [Hin' Hobj]; try done; [lia|by rewrite Hix|].
  split; [|split; [done|by apply same_contents]]. split; rewrite ?Ha ?Hix //.
  - destruct Hg. split; rewrite ?Ha ?Hb ?Hc ?Hd ?Hfs ?Hdir //.
  - intros k e Hk. pose proof (Htx k e Hk). simpl in *. lia.
Qed.

Lemma slots_valid slots sb :
  sb_valid (with_checksum 0 sb) → slots_wf slots → Forall slot_in_range slots →
  sb_valid (with_checksum 0 (with_shard_slots slots sb)).
Proof.
  intros [Hm Hv Hn Ha [Hr1 Hr2 Hr3 Hr4 Hr5 Hr6 Hr7 Hr8]] [Hl _] Hs. destruct sb; simpl in *.
  split; simpl; try done; [by rewrite /zlen Hl|]. split; simpl; try done. by rewrite /zlen Hl.
Qed.

Lemma flush_inner_moves s :
  working s → allowed OpFlush s → let '(st', r) := flush_inner s (inner s) in moved s st' ∧ r ≠ Panic.
Proof.
  intros Hw [_ Hal]. destruct (Hal eq_refl) as [Hat Htx]. pose proof (working_clock s Hw) as Hclk.
  pose proof Hw as [Hin Hg Hrng Hwf Hval Hstx]. pose proof Hin as [[Hro Hiro] _ _ _ Hsd].
  rewrite /flush_inner Hro {1}/sm_bind.
  pose proof (flush_shards_working s (shard_dirty (inner s)) 0 0 (inner s) Hg) as Hfs.
  ospecialize* Hfs; [done|done|done|apply (sbr_slots _ (sv_range _ Hval))|lia|by rewrite /zlen Hsd|].
  destruct (flush_shards _ _ _ _ _) as [st1 r1]. destruct Hfs as (d1 & slots1 & -> & Hfr & Hwf1 & Hsr1 & Hnp).
  pose proof (ge_a _ Hg) as Hra. change DATA_START with 8192 in Hra.
  assert (file_size (disk d1) = file_size (file_of s)) as Hsz by (pose proof (frame_size _ _ _ _ Hfr) as Hf; rewrite /file_of in Hf |- *; lia).
  assert (sb_valid (with_checksum 0 (with_shard_slots slots1 (superblock (inner s))))) as Hv1
    by by apply slots_valid.
  assert (∀ d, dev_frame (index_region_a s) (file_size (file_of s)) (io (inner s)) d → ∀ i,
    DATA_START <= i < index_region_a s → byte_at (content (disk d)) i = byte_at (content (file_of s)) i) as Hdata.
  { intros d Hd i Hi. apply (frame_bytes _ _ _ _ Hd). lia. }
  assert (moved s (set_superblock (with_shard_slots slots1 (superblock (inner s))) (set_io d1 (inner s)))) as Hmv1.
  { split; try done; [by apply Hdata|]. by rewrite /= (frame_direct _ _ _ _ Hfr) (frame_ro _ _ _ _ Hfr). }
  destruct r1 as [bw|e|]; [|by split|done].
  rewrite {1}/sm_bind /on_io /sm_zoom /sync. cbn [io set_superblock set_io].
  rewrite (frame_ro _ _ _ _ Hfr) Hiro (frame_env _ _ _ _ Hfr).
  destruct (sync_fault (env (disk (io (inner s))))); [by split|].
  set (d2 := with_disk (file_sync (disk d1)) d1).
  rewrite {1}/sm_bind /sm_modify {1}/sm_bind. cbn [superblock set_superblock set_io].
  rewrite wadd_small; [|u64].
  set (sb1 := commit_superblock (txn_id (superblock (inner s)) + 1) (with_shard_slots slots1 (superblock (inner s)))).
  assert (sb_valid (with_checksum 0 sb1)) as Hval1.
  { eapply (commit_valid (with_checksum 0 (superblock (inner s)))); [done|done|apply Hwf1|done|u64]. }
  destruct (sb_round_trip _ Hval1) as (b & c & Hb & Hbl & Hfrom).
  rewrite sb_to_bytes_checksum in Hb. rewrite {1}Hb. cbn iota.
  pose proof (write_superblocks_spec b d2) as Hws. ospecialize* Hws.
  { by rewrite /d2 /= (frame_ro _ _ _ _ Hfr). }
  { done. }
  { rewrite /d2 /= Hsz. destruct Hg as [_ _ _ [Hc _] He _ _ _]. rewrite /file_of. lia. }
  { by rewrite /d2 /= (frame_env _ _ _ _ Hfr). }
  rewrite {1}/sm_bind. cbn [io set_superblock set_io]. destruct (write_superblocks b d2) as [d3 r3].
  destruct Hws as (t & (_ & Hdir3 & Hro3 & _ & _ & Hfs3) & _ & Hc3 & Ht & Hr).
  assert (∀ i, DATA_START <= i < index_region_a s → byte_at (content (disk d3)) i = byte_at (content (file_of s)) i) as Hb3.
  { intros i Hi. rewrite Hc3 apply_log_avoids; [exact (Hdata d1 Hfr i Hi)|]. apply (commit_avoids b); [exact Hbl|exact Ht|apply Hi]. }
  assert (direct d3 = direct (io (inner s)) ∧ io_read_only d3 = io_read_only (io (inner s)) ∧
    file_size (disk d3) = file_size (file_of s)) as Hh3.
  { rewrite Hdir3 Hro3 Hfs3 /d2 /= (frame_direct _ _ _ _ Hfr) (frame_ro _ _ _ _ Hfr). done. }
  destruct Hr as [[-> _]|[(k & msg & ->) _]]; (split; [|done]); split; try done; simpl; try lia.
  by rewrite length_fmap.
Qed.

Lemma flush_working s :
  working s → allowed OpFlush s →
  let '(s', r) := run OpFlush s in
  working s' ∧ index (inner s') = index (inner s) ∧ view s' = view s ∧ r ≠ Panic.
Proof.
  intros Hw Hal. pose proof (flush_inner_moves s Hw Hal) as Hm.
  rewrite /run /os_err /flush_index /sm_bind /on_inner /sm_zoom.
  destruct (flush_inner s (inner s)) as [st' [u|e|]]; destruct Hm as [Hm Hnp]; [| |done]; simpl.
  - match goal with |- working ?s2 ∧ _ => destruct (moved_working s s2) as (? & ? & ?) end; [done..|]. by split_and!.
  - destruct (moved_working s (set_inner st' s)) as (? & ? & ?); [done..|]. by split_and!.
Qed.

(** Any history of calls, each with any result, failed flushes included. *)
Inductive calls : RawObjectStore → list Call → RawObjectStore → Prop :=
| calls_nil s : calls s [] s
| calls_cons s o s1 r os s2 :
    allowed o s → run o s = (s1, r) → calls s1 os s2 → calls s ((o, r) :: os) s2.

Lemma trace_calls s os s' : trace s os s' → calls s os s'.
Proof. induction 1; by econstructor. Qed.

(** Without failed flushes. *)
Definition flushes_succeed (os : list Call) : Prop := Forall (λ c, c.1 = OpFlush → c.2 = Ok tt) os.

Lemma calls_trace s os s' : calls s os s' → flushes_succeed os → trace s os s'.
Proof.
  induction 1 as [|s o s1 r os s2 Hal Hrun Hc IH]; [constructor|]. intros [Ho Hos]%Forall_cons.
  econstructor; [done|done|done|by apply IH].
Qed.

Lemma calls_spec s os s' :
  calls s os s' → working s → working s' ∧ spec_trace (view s) os (view s').
Proof.
  induction 1 as [|s o s1 r os s2 Hal Hrun Hc IH]; [by split; [|constructor]|]. intros Hw.
  assert (working s1 ∧ match r with Ok _ => spec o (view s) (view s1) | Err _ => view s1 = view s | Panic => False end)
    as [Hw1 Hr].
  { assert (o = OpFlush ∨ o ≠ OpFlush) as [->|Hne] by (destruct o; auto).
    - pose proof (flush_working s Hw Hal) as Hf. rewrite Hrun in Hf. destruct Hf as (Hw1 & _ & Hv & Hnp).
      split; [done|]. by destruct r.
    - pose proof (run_working o s Hw (proj1 Hal) Hne) as Hr. by rewrite Hrun in Hr. }
  destruct (IH Hw1) as [Hw2 Hsp]. split; [done|]. destruct r as [[]|e|]; [by econstructor| |done]. rewrite -Hr. by constructor.
Qed.

Definition trace_names (os : list Call) : list string := concat ((λ c, names c.1) <$> os).

Lemma spec_untouched o m m' k : spec o m m' → k ∉ names o → m' !! k = m !! k.
Proof.
  intros Hs Hk. assert (∀ x c, k ≠ x → <[x := c]> m !! k = m !! k) as Hins by (intros; by apply lookup_insert_ne).
  assert (∀ x y c, k ≠ x → k ≠ y → <[y := c]> (delete x m) !! k = m !! k) as Hmove.
  { intros x y c ? ?. rewrite lookup_insert_ne // lookup_delete_ne //. }
  destruct o; rewrite /= ?not_elem_of_cons in Hs Hk.
  - destruct Hs as [_ ->]. apply Hins; tauto.
  - subst. apply Hins; tauto.
  - destruct Hs as (p & _ & ->). apply Hins; tauto.
  - subst. rewrite lookup_delete_ne; [done|intros ->; tauto].
  - destruct Hs as (c & _ & ->). apply Hins; tauto.
  - destruct Hs as (_ & c & _ & ->). apply Hins; tauto.
  - destruct Hs as (c & _ & ->). apply Hmove; tauto.
  - destruct Hs as (_ & c & _ & ->). apply Hmove; tauto.
  - destruct Hs as (c & _ & ->). apply Hins; tauto.
  - destruct Hs as (b & old & _ & ->). apply Hins; tauto.
  - by subst.
  - destruct Hs as (ds & _ & ->). rewrite delete_all_ne; [|tauto]. apply Hins; tauto.
  - subst. by rewrite delete_all_ne.
  - by subst.
Qed.

Lemma trace_untouched s os s' k :
  trace s os s' → store_ok s → k ∉ trace_names os → view s' !! k = view s !! k.
Proof.
  intros Htr Hok. destruct (trace_spec s os s' Htr Hok) as [_ Hsp]. revert Hsp. generalize (view s) (view s').
  clear. intros m m'. induction 1 as [m|m o m1 os m2 Hs _ IH|m o e os m2 _ IH]; [done|..];
    rewrite /trace_names fmap_cons /= not_elem_of_app; intros [Hk Hks]; rewrite IH //.
  by eapply spec_untouched.
Qed.

(** ** Crashes *)

(** Power fails now: the last committed image is what a restart sees. *)
Lemma crash_now s sb idx m :
  store_ok s → committed s sb idx → crash_image (base (file_of s)) (log (file_of s)) m →
  survives s m sb idx.
Proof.
  intros Hok Hcm Hm. apply (crash_before_commit s sb idx [] [] m); try apply Hok; try done.
  by rewrite app_nil_r.
Qed.

Lemma contents_of_entry st st' k e :
  files (index st) !! k = Some e → files (index st') !! k = Some e → objects st' !! k = objects st !! k →
  contents st' !! k = contents st !! k.
Proof.
  intros Hk Hk'. rewrite !contents_lookup !objects_lookup Hk Hk' /=. by intros [= ->].
Qed.

(** A store that restarts from [idx] shows the keys whose entries are still
    those of [idx]. *)
Lemma restart_shows mode s m sb idx s' k :
  store_ok s → no_faults (env (file_of s)) → survives s m sb idx → reopened mode s m sb idx s' →
  files (index (inner s)) !! k = files idx !! k → is_tmp_key k = false →
  view s' !! k = view s !! k.
Proof.
  intros Hok Hnf Hsu Hre Hk Htmp. rewrite /view. destruct (files idx !! k) as [e|] eqn:Hidx.
  - destruct (reopened_kept mode s m sb idx s' k e k e) as [Hs' Ho]; [done..|].
    by apply (contents_of_entry _ _ _ e).
  - rewrite !contents_lookup Hk. destruct Hre as [_ _ (keys & Hrec & _) _ _ _ _ _ _ _ _].
    rewrite (rc_files _ _ _ _ _ Hrec) foldl_delete_lookup Hidx. by case_decide.
Qed.

(** A formatted store and what a history makes of it. *)
Lemma formatted_trace opts f f' s os s' :
  options_ok opts → block_device f = false → format_with_options opts f = (f', Ok s) → trace s os s' →
  store_ok s' ∧ spec_trace ∅ os (view s').
Proof.
  intros Ho Hb Hf Htr. pose proof (format_spec opts f Ho Hb) as Hs. rewrite Hf in Hs.
  destruct Hs as (Hok & _ & Hi & _). assert (view s = ∅) as <- by by rewrite /view /contents Hi.
  by apply trace_spec.
Qed.

Lemma formatted_calls opts f f' s os s' :
  options_ok opts → block_device f = false → format_with_options opts f = (f', Ok s) → calls s os s' →
  working s' ∧ spec_trace ∅ os (view s').
Proof.
  intros Ho Hb Hf Hc. pose proof (format_spec opts f Ho Hb) as Hs. rewrite Hf in Hs.
  destruct Hs as (Hok & _ & Hi & _). assert (view s = ∅) as <- by by rewrite /view /contents Hi.
  by apply calls_spec, store_working.
Qed.

(** A power cut: between two calls, or at any point of a call, whatever that
    call would have returned.  [ks]: the keys the interrupted call names. *)
Inductive power_cut s : list DiskEvent → list string → Prop :=
| cut_between : power_cut s (log (file_of s)) []
| cut_during o l : allowed o s → log (file_of s) `prefix_of` l → l `prefix_of` log (file_of (run o s).1) →
    power_cut s l (names o).

(** The committed index has the entries of memory but for the keys [ks]. *)
Definition held (ks : list string) s : Prop :=
  ∃ sb idx, committed s sb idx ∧ ∀ k, k ∉ ks → files (index (inner s)) !! k = files idx !! k.

Lemma held_step ks o s s1 r :
  store_ok s → held ks s → allowed o s → run o s = (s1, r) → (o = OpFlush → r = Ok tt) →
  held (ks ++ names o) s1 ∧ env (file_of s1) = env (file_of s).
Proof.
  intros Hok (sb & idx & Hcm & Hh) Hal Hrun Hfl.
  assert (o = OpFlush ∨ o ≠ OpFlush) as [->|Hne] by (destruct o; auto).
  - pose proof (run_flushed s sb idx Hok Hcm Hal) as Hf. rewrite Hrun (Hfl eq_refl) in Hf.
    destruct Hf as [_ [[_ (sb1 & Hcm1 & _) _ _ _ _ _ _ _ Hhd _] _]].
    split; [by exists sb1, (index (inner s1))|by rewrite /file_of (proj1 Hhd)].
  - pose proof (run_stepped o s Hok (proj1 Hal) Hne) as Hr. rewrite Hrun in Hr. destruct Hr as [Hs _].
    split; [|apply (sp_env _ _ _ Hs)]. exists sb, idx. split; [by apply (sp_committed _ _ _ Hs)|].
    intros k Hk. apply not_elem_of_app in Hk as [Hk Hko]. rewrite (sp_untouched _ _ _ Hs) //. by apply Hh.
Qed.

Lemma held_trace ks s os s' :
  trace s os s' → store_ok s → held ks s →
  store_ok s' ∧ held (ks ++ trace_names os) s' ∧ env (file_of s') = env (file_of s).
Proof.
  intros Htr. revert ks. induction Htr as [|s o s1 r os s2 Hal Hrun Hfl Htr IH]; intros ks Hok Hh.
  { by rewrite app_nil_r. }
  destruct (trace_step o s s1 r Hok Hal Hrun Hfl) as [Hok1 _].
  destruct (held_step ks o s s1 r Hok Hh Hal Hrun Hfl) as [Hh1 He].
  destruct (IH (ks ++ names o) Hok1 Hh1) as (Hok2 & Hh2 & He2). rewrite -app_assoc in Hh2. split_and!; [done|done|congruence].
Qed.

(** Nothing to flush: the committed index is the index in memory. *)
Lemma clean_index s sb idx : store_ok s → committed s sb idx → needs_flush s = false → idx = index (inner s).
Proof.
  intros Hok Hcm Hnf. apply buckets_eq. intros i Hi.
  pose proof (so_dirty _ Hok Hnf) as Hall. pose proof (io_shards _ _ (so_inner _ Hok)) as Hlen.
  destruct (lookup_lt_is_Some_2 (shard_dirty (inner s)) (Z.to_nat i)) as [b Hb]; [lia|].
  pose proof (Forall_lookup_1 _ _ _ _ Hall Hb) as ->.
  pose proof (cm_clean _ _ _ Hcm _ Hb) as Hbk. by rewrite Z2Nat.id in Hbk; [|lia].
Qed.

Lemma clean_held s : store_ok s → needs_flush s = false → held [] s.
Proof.
  intros Hok Hn. pose proof Hok as [_ _ (sb & idx & Hcm) _ _ _ _]. exists sb, idx. split; [done|].
  by rewrite (clean_index s sb idx).
Qed.

(** What a restart shows of a key the committed index has as memory does. *)
Definition restarts s (f : DiskFile) (ks : list string) : Prop :=
  ∀ mode, ∃ s', open_impl mode false f = Ok s' ∧ ∀ k, k ∉ ks → is_tmp_key k = false → view s' !! k = view s !! k.

Lemma survives_restarts s m sb idx ks :
  store_ok s → no_faults (env (file_of s)) → survives s m sb idx →
  (∀ k, k ∉ ks → files (index (inner s)) !! k = files idx !! k) → restarts s (after_crash (file_of s) m) ks.
Proof.
  intros Hok Hnf Hsu Hh mode. destruct (open_survives mode s m sb idx (so_geo _ Hok) Hnf Hsu) as (s3 & Ho & Hre).
  exists s3. split; [done|]. intros k Hk Ht. apply (restart_shows mode s m sb idx); try done. by apply Hh.
Qed.

(** A call other than a flush only writes: what a cut inside it can leave is
    among what a cut after it can leave. *)
Lemma cut_short o s s1 r l m :
  store_ok s → allowed o s → o ≠ OpFlush → run o s = (s1, r) →
  log (file_of s) `prefix_of` l → l `prefix_of` log (file_of s1) → crash_image (base (file_of s)) l m →
  crash_image (base (file_of s1)) (log (file_of s1)) m ∧ after_crash (file_of s1) m = after_crash (file_of s) m.
Proof.
  intros Hok Hal Hne Hrun [q ->] [q' Hl] Hm. pose proof (run_stepped o s Hok (proj1 Hal) Hne) as Hr.
  rewrite Hrun in Hr. destruct Hr as [Hs _]. pose proof (sp_frame _ _ _ Hs) as Hf.
  destruct (frame_log _ _ _ _ Hf) as (ws & Hlog & Hws & _). split.
  - rewrite Hl /file_of (frame_base _ _ _ _ Hf). apply crash_image_more; [|done].
    rewrite Hl -app_assoc in Hlog. apply app_inv_head in Hlog as <-.
    apply Forall_app in Hws as [_ Hws]. eapply Forall_impl; [exact Hws|]. by intros [].
  - rewrite /after_crash /file_of. f_equal; [apply (sp_size _ _ _ Hs)|apply (frame_block _ _ _ _ Hf)|apply (frame_env _ _ _ _ Hf)].
Qed.

Lemma held_survives ks s l ks' m :
  store_ok s → no_faults (env (file_of s)) → held ks s → power_cut s l ks' → crash_image (base (file_of s)) l m →
  restarts s (after_crash (file_of s) m) (ks ++ ks').
Proof.
  intros Hok Hnf (sb & idx & Hcm & Hh) Hcut Hm. destruct Hcut as [|o l Hal Hl1 Hl2].
  { rewrite app_nil_r. by eapply survives_restarts, Hh; [..|by eapply crash_now]. }
  destruct (run o s) as [s1 r] eqn:Hrun. assert (o = OpFlush ∨ o ≠ OpFlush) as [->|Hne] by (destruct o; auto).
  - rewrite app_nil_r. pose proof (run_flushed s sb idx Hok Hcm Hal) as Hf. rewrite Hrun in Hf.
    destruct Hf as [[_ Hsafe] _]. destruct (Hsafe l m Hl1 Hl2 Hm) as [Hsu|(sb' & _ & Hsu)].
    + by eapply survives_restarts.
    + by eapply survives_restarts.
  - pose proof (run_stepped o s Hok (proj1 Hal) Hne) as Hr. rewrite Hrun in Hr. destruct Hr as [Hs Hr].
    destruct (cut_short o s s1 r l m Hok Hal Hne Hrun Hl1 Hl2 Hm) as [Hm1 <-].
    destruct (held_step ks o s s1 r Hok) as [(sb1 & idx1 & Hcm1 & Hh1) He]; [by exists sb, idx|done..|].
    pose proof (sp_ok _ _ _ Hs) as Hok1.
    assert (restarts s1 (after_crash (file_of s1) m) (ks ++ names o)) as Hre.
    { eapply survives_restarts; [done|by rewrite He|by eapply crash_now|done]. }
    intros mode. destruct (Hre mode) as (s3 & Ho & Hv). exists s3. split; [done|]. intros k Hk Ht.
    rewrite Hv //. apply not_elem_of_app in Hk as [_ Hk]. destruct r as [u|e|]; [by eapply spec_untouched|by rewrite Hr|done].
Qed.

(** What a flush has made durable survives any later calls and a power cut
    among them: keys that none of them names read as they were flushed. *)
Lemma flush_durable s s1 os s2 l ks m :
  store_ok s → allowed OpFlush s → no_faults (env (file_of s)) → run OpFlush s = (s1, Ok tt) →
  trace s1 os s2 → power_cut s2 l ks → crash_image (base (file_of s2)) l m →
  restarts s (after_crash (file_of s2) m) (trace_names os ++ ks).
Proof.
  intros Hok Hal Hnf Hrun Htr Hcut Hm. pose proof Hok as [_ _ (sb & idx & Hcm) _ _ _ _].
  pose proof (run_flushed s sb idx Hok Hcm Hal) as Hf. rewrite Hrun in Hf. destruct Hf as [_ [Hf Hv]].
  destruct Hf as [Hok1 (sb1 & Hcm1 & _) Hix _ _ _ _ _ _ Hhd _].
  destruct (held_trace [] s1 os s2 Htr Hok1) as (Hok2 & Hh2 & He); [by exists sb1, (index (inner s1))|].
  assert (no_faults (env (file_of s2))) as Hnf2 by (rewrite He /file_of (proj1 Hhd); exact Hnf).
  intros mode. destruct (held_survives _ s2 l ks m Hok2 Hnf2 Hh2 Hcut Hm mode) as (s3 & Ho & Hs3).
  exists s3. split; [done|]. intros k Hk Ht. rewrite Hs3 // -Hv. apply (trace_untouched s1 os s2); [done..|].
  by apply not_elem_of_app in Hk as [? _].
Qed.
End history.
