(* ===== verification/Instances.v ===== *)
(** * Concrete parameters

    A serialisation, functions for the other parameters of the model with their
    laws, and an example store.  The store takes bincode as a parameter with its documented contract
    (Index.v, Superblock.v).  This file builds an implementation of that
    contract from small formats, so that the hypotheses are known to hold
    together and the examples can be run.  The superblock's format is
    bincode's fixed-width little-endian one; the shard's differs from
    bincode's in marking list ends with a flag, so that it is total. *)

From S2P Require Import Prelude.
From S2P Require Import Config.
From S2P Require Import Device.
From S2P Require Import Allocator.
From S2P Require Import Extent.
From S2P Require Import Concrete.
From S2P Require Import Streaming.
From S2P Require Import Index.
From S2P Require Import Superblock.
From S2P Require Import Inner.
From S2P Require Import InnerFacts.
From S2P Require Import RawStore.
From S2P Require Import StoreFacts.
From S2P Require Import Flush.
From S2P Require Import FormatFacts.
From S2P Require Import StoreMeta.
From S2P Require Import ObjectStoreApi.
From S2P Require Import Multipart.
From S2P Require Import MultipartFacts.
From S2P Require Import GetFacts.

(** ** Formats *)

Record Format (A : Type) : Type := mkFormat {
  emit : A → list byte;
  parse : list byte → option (A * list byte);
}.
Arguments mkFormat {A}.
Arguments emit {A}.
Arguments parse {A}.

(** Parsing reads back what was emitted, whatever follows. *)
Definition inverts {A} (f : Format A) (valid : A → Prop) : Prop :=
  ∀ a rest, valid a → parse f (emit f a ++ rest) = Some (a, rest).

(** Parsing gives values of the type only. *)
Definition sound {A} (f : Format A) (valid : A → Prop) : Prop :=
  ∀ b a rest, parse f b = Some (a, rest) → valid a.

Definition f_uint (n : nat) : Format Z := mkFormat (to_le_bytes n)
  (λ b, if zlen b <? Z.of_nat n then None
        else Some (from_le_bytes (ztake (Z.of_nat n) b), zdrop (Z.of_nat n) b)).

Definition f_int64 : Format Z := mkFormat (λ z, to_le_bytes 8 (z mod 2 ^ 64))
  (λ b, '(v, rest) ← parse (f_uint 8) b; Some (if v <? 2 ^ 63 then v else v - 2 ^ 64, rest)).

Definition f_bytes (n : Z) : Format (list byte) := mkFormat id
  (λ b, if zlen b <? n then None else Some (ztake n b, zdrop n b)).

Definition f_pair {A B} (f : Format A) (g : Format B) : Format (A * B) :=
  mkFormat (λ '(a, b), emit f a ++ emit g b)
    (λ s, '(a, s) ← parse f s; '(b, s) ← parse g s; Some ((a, b), s)).

Definition f_iso {A B} (f : A → B) (g : B → A) (fa : Format A) : Format B :=
  mkFormat (λ b, emit fa (g b)) (λ s, '(a, s) ← parse fa s; Some (f a, s)).

(** [n] values. *)
Fixpoint parse_many {A} (f : Format A) (n : nat) (s : list byte) : option (list A * list byte) :=
  match n with
  | O => Some ([], s)
  | S n' => '(a, s) ← parse f s; '(l, s) ← parse_many f n' s; Some (a :: l, s)
  end.

(** A count, then the values. *)
Definition f_vec {A} (f : Format A) : Format (list A) :=
  mkFormat (λ l, to_le_bytes 8 (zlen l) ++ (l ≫= emit f))
    (λ s, '(n, s) ← parse (f_uint 8) s; parse_many f (Z.to_nat n) s).

(** Values, each after a flag, and a final flag. *)
Fixpoint parse_list {A} (fuel : nat) (f : Format A) (s : list byte) : option (list A * list byte) :=
  match fuel, s with
  | S fuel', Byte.x01 :: s => '(a, s) ← parse f s; '(l, s) ← parse_list fuel' f s; Some (a :: l, s)
  | _, Byte.x00 :: s => Some ([], s)
  | _, _ => None
  end.

Fixpoint emit_list {A} (f : Format A) (l : list A) : list byte :=
  match l with [] => [Byte.x00] | a :: l' => Byte.x01 :: emit f a ++ emit_list f l' end.

Definition f_list {A} (f : Format A) : Format (list A) :=
  mkFormat (emit_list f) (λ s, parse_list (length s) f s).

(** ** Their laws *)

Lemma f_uint_inverts n : inverts (f_uint n) (λ v, 0 <= v < 2 ^ (Z.of_nat n * 8)).
Proof.
  intros v rest Hv. rewrite /= zlen_app to_le_bytes_zlen. pose proof (zlen_nonneg rest).
  destruct (_ <? _) eqn:E; [apply Z.ltb_lt in E; lia|].
  by rewrite ztake_app_exact ?zdrop_app_exact ?to_le_bytes_zlen // from_to_le_bytes.
Qed.

Lemma f_uint_sound n : sound (f_uint n) (λ v, 0 <= v < 2 ^ (Z.of_nat n * 8)).
Proof.
  intros b v rest. simpl. destruct (_ <? _) eqn:E; [done|]. apply Z.ltb_ge in E. intros [= <- _].
  pose proof (from_le_bytes_bound (ztake (Z.of_nat n) b)) as Hb.
  rewrite zlen_ztake in Hb; [|lia]. replace (Z.of_nat n `min` zlen b) with (Z.of_nat n) in Hb by lia.
  by rewrite Z.mul_comm.
Qed.

Lemma f_int64_inverts : inverts f_int64 (λ v, - 2 ^ 63 <= v < 2 ^ 63).
Proof.
  intros v rest Hv. rewrite /f_int64. cbn [parse emit].
  change (to_le_bytes 8 (v mod 2 ^ 64)) with (emit (f_uint 8) (v mod 2 ^ 64)). rewrite (f_uint_inverts 8).
  - cbn [mbind option_bind]. do 2 f_equal. destruct (decide (0 <= v)).
    + rewrite Z.mod_small; [|lia]. by destruct (Z.ltb_spec v (2 ^ 63)); [|lia].
    + rewrite -(Z.mod_add v 1 (2 ^ 64)) // Z.mod_small; [|lia].
      destruct (Z.ltb_spec (v + 1 * 2 ^ 64) (2 ^ 63)); lia.
  - apply (Z.mod_pos_bound v (2 ^ 64)). lia.
Qed.

Lemma f_bytes_inverts n : inverts (f_bytes n) (λ b, zlen b = n).
Proof.
  intros b rest <-. rewrite /= zlen_app. pose proof (zlen_nonneg rest).
  destruct (_ <? _) eqn:E; [apply Z.ltb_lt in E; lia|]. by rewrite ztake_app_exact ?zdrop_app_exact.
Qed.

Lemma f_bytes_sound n : 0 <= n → sound (f_bytes n) (λ b, zlen b = n).
Proof.
  intros Hn b a rest. simpl. destruct (_ <? _) eqn:E; [done|]. apply Z.ltb_ge in E. intros [= <- _].
  rewrite zlen_ztake //. lia.
Qed.

Section combinators.
Context {A B : Type} (f : Format A) (g : Format B) (va : A → Prop) (vb : B → Prop).

Lemma f_pair_inverts : inverts f va → inverts g vb → inverts (f_pair f g) (λ '(a, b), va a ∧ vb b).
Proof. intros Hf Hg [a b] rest [Ha Hb]. by rewrite /= -app_assoc Hf //= Hg. Qed.

Lemma f_pair_sound : sound f va → sound g vb → sound (f_pair f g) (λ '(a, b), va a ∧ vb b).
Proof.
  intros Hf Hg s [a b] rest. simpl. destruct (parse f s) as [[a' s1]|] eqn:Ha; [|done]. simpl.
  destruct (parse g s1) as [[b' s2]|] eqn:Hb; [|done]. intros [= -> -> ->]. split; by [eapply Hf|eapply Hg].
Qed.

Lemma f_iso_inverts (h : A → B) (k : B → A) :
  (∀ b, h (k b) = b) → (∀ b, vb b → va (k b)) → inverts f va → inverts (f_iso h k f) vb.
Proof. intros Hhk Hv Hf b rest Hb. by rewrite /= Hf /= ?Hhk //; apply Hv. Qed.

Lemma f_iso_sound (h : A → B) (k : B → A) :
  (∀ a, va a → vb (h a)) → sound f va → sound (f_iso h k f) vb.
Proof.
  intros Hv Hf s b rest. simpl. destruct (parse f s) as [[a s1]|] eqn:Ha; [|done]. intros [= <- _].
  by eapply Hv, Hf.
Qed.

Lemma parse_many_inverts l rest :
  inverts f va → Forall va l → parse_many f (length l) ((l ≫= emit f) ++ rest) = Some (l, rest).
Proof.
  intros Hf. induction 1 as [|a l Ha _ IH]; [done|]. rewrite /= -app_assoc Hf //=. by rewrite IH.
Qed.

Lemma parse_many_sound n s l rest :
  sound f va → parse_many f n s = Some (l, rest) → Forall va l ∧ length l = n.
Proof.
  intros Hf. revert s l. induction n as [|n IH]; intros s l; simpl; [by intros [= <- _]|].
  destruct (parse f s) as [[a s1]|] eqn:Ha; [|done]. simpl.
  destruct (parse_many f n s1) as [[l' s2]|] eqn:Hl; [|done]. intros [= <- ->].
  destruct (IH s1 l') as [? <-]; [done|]. split; [|done]. constructor; [by eapply Hf|done].
Qed.

Lemma f_vec_inverts : inverts f va → inverts (f_vec f) (λ l, is_u64 (zlen l) ∧ Forall va l).
Proof.
  intros Hf l rest [Hn Hl]. rewrite /f_vec. cbn [parse emit]. rewrite -app_assoc.
  change (to_le_bytes 8 (zlen l)) with (emit (f_uint 8) (zlen l)). rewrite (f_uint_inverts 8) //=.
  rewrite /zlen Nat2Z.id. by apply parse_many_inverts.
Qed.

Lemma f_vec_sound : sound f va → sound (f_vec f) (λ l, is_u64 (zlen l) ∧ Forall va l).
Proof.
  intros Hf s l rest. rewrite /f_vec. cbn [parse].
  destruct (parse (f_uint 8) s) as [[n s1]|] eqn:Hn; [|done]. cbn [mbind option_bind]. intros Hp.
  apply (f_uint_sound 8) in Hn. apply parse_many_sound in Hp as [Hl Hlen]; [|done]. split; [|done].
  rewrite /zlen Hlen Z2Nat.id; [|lia]. done.
Qed.

Lemma f_list_inverts : inverts f va → inverts (f_list f) (Forall va).
Proof.
  intros Hf l rest Hl. rewrite /f_list. cbn [parse emit].
  assert (∀ n, (length l < n)%nat → parse_list n f (emit_list f l ++ rest) = Some (l, rest)) as Hp.
  { induction Hl as [|a l Ha _ IH]; intros [|n] Hn; simpl in Hn |- *; try done; try lia.
    rewrite -app_assoc Hf //=. by rewrite IH; [|lia]. }
  apply Hp. clear. induction l as [|a l IH]; simpl; [lia|].
  rewrite !length_app. rewrite length_app in IH. lia.
Qed.
End combinators.

(** ** The superblock *)

Definition f_u8 : Format Z := f_uint 1.
Definition f_u16 : Format Z := f_uint 2.
Definition f_u32 : Format Z := f_uint 4.
Definition f_u64 : Format Z := f_uint 8.

Definition f_slot : Format ShardSlotMeta :=
  f_iso (λ '(a, (s, c)), mkSlot a s c) (λ s, (active_slot s, (slot_size s, slot_crc s)))
    (f_pair f_u8 (f_pair f_u32 f_u32)).

Definition sb_tuple (sb : Superblock) :=
  (magic sb, (version sb, (flags sb, (device_size sb, (block_alignment sb,
    (index_region_offset sb, (index_region_size sb, (txn_id sb, (index_checksum sb,
    (superblock_checksum sb, (prev_index_offset sb, (prev_index_size sb, (prev_txn_id sb,
    (prev_index_checksum sb, (index_slot_capacity sb, (shard_slots sb,
    (sb_max_key_length sb, sb_compression sb))))))))))))))))).

Definition f_sb : Format Superblock :=
  f_iso (λ '(a, (b, (c, (d, (e, (f, (g, (h, (i, (j, (k, (l, (m, (n, (o, (p, (q, r))))))))))))))))),
      mkSuperblock a b c d e f g h i j k l m n o p q r) sb_tuple
    (f_pair (f_bytes 8) (f_pair f_u32 (f_pair f_u32 (f_pair f_u64 (f_pair f_u64 (f_pair f_u64 (f_pair f_u64
      (f_pair f_u64 (f_pair f_u32 (f_pair f_u32 (f_pair f_u64 (f_pair f_u64 (f_pair f_u64 (f_pair f_u32 (f_pair f_u64
      (f_pair (f_vec f_slot) (f_pair f_u32 f_u8))))))))))))))))).

Definition fixed_superblock : BincodeSuperblock := {|
  ser_sb sb := Some (emit f_sb sb);
  de_sb b := fst <$> parse f_sb b;
|}.

Lemma f_slot_inverts : inverts f_slot slot_in_range.
Proof.
  eapply f_iso_inverts; [by intros []| |repeat apply f_pair_inverts; apply f_uint_inverts].
  by intros [a s c] [].
Qed.

Lemma f_slot_sound : sound f_slot slot_in_range.
Proof.
  eapply f_iso_sound; [|repeat apply f_pair_sound; apply f_uint_sound].
  intros (a & s & c) (? & ? & ?). by split.
Qed.

Lemma f_sb_inverts : inverts f_sb sb_in_range.
Proof.
  eapply f_iso_inverts; [by intros []| |repeat apply f_pair_inverts;
    first [apply f_vec_inverts, f_slot_inverts | apply f_bytes_inverts | apply f_uint_inverts]].
  intros [] [? ? ? H64 H32 ? ? ?]. rewrite !Forall_cons /= in H64, H32. destruct_and?.
  repeat first [assumption | split].
Qed.

Lemma f_sb_sound : sound f_sb sb_in_range.
Proof.
  eapply f_iso_sound; [|repeat apply f_pair_sound;
    first [apply f_vec_sound, f_slot_sound | by apply f_bytes_sound | apply f_uint_sound]].
  intros (? & ? & ? & ? & ? & ? & ? & ? & ? & ? & ? & ? & ? & ? & ? & ? & ? & ?) Hv. destruct_and!.
  split; simpl; rewrite ?Forall_cons; try done; by split_and!.
Qed.

Lemma emit_slots_zlen l : zlen (l ≫= emit f_slot) = 9 * zlen l.
Proof.
  induction l as [|s l IH]; [done|]. rewrite bind_cons zlen_app zlen_cons IH.
  change (zlen (emit f_slot s)) with 9. lia.
Qed.

#[export] Instance fixed_superblock_laws : @BincodeSuperblockLaws fixed_superblock.
Proof.
  split.
  - intros sb Hr. eexists. split; [done|]. cbn [emit f_sb f_iso f_pair f_uint f_bytes f_vec
      f_u8 f_u32 f_u64 sb_tuple id]. rewrite !zlen_app !to_le_bytes_zlen emit_slots_zlen.
    rewrite (sbr_magic _ Hr). lia.
  - intros sb b rest Hr Hb. assert (b = emit f_sb sb) as -> by (by injection Hb).
    change (fst <$> parse f_sb (emit f_sb sb ++ rest) = Some sb). by rewrite f_sb_inverts.
  - intros sb. exists (magic sb ++ emit f_u32 (version sb) ++ emit f_u32 (flags sb) ++ emit f_u64 (device_size sb) ++
      emit f_u64 (block_alignment sb) ++ emit f_u64 (index_region_offset sb) ++ emit f_u64 (index_region_size sb) ++
      emit f_u64 (txn_id sb) ++ emit f_u32 (index_checksum sb)),
      (emit f_u64 (prev_index_offset sb) ++ emit f_u64 (prev_index_size sb) ++
      emit f_u64 (prev_txn_id sb) ++ emit f_u32 (prev_index_checksum sb) ++ emit f_u64 (index_slot_capacity sb) ++
      emit (f_vec f_slot) (shard_slots sb) ++ emit f_u32 (sb_max_key_length sb) ++ emit f_u8 (sb_compression sb)).
    intros c _ b Hb. assert (b = emit f_sb (with_checksum c sb)) as -> by (by injection Hb).
    by rewrite -?app_assoc.
  - intros b sb. change (fst <$> parse f_sb b = Some sb → sb_in_range sb).
    destruct (parse f_sb b) as [[sb' rest]|] eqn:E; [|done]. intros [= ->].
    by eapply f_sb_sound.
Qed.

(** ** A shard *)

Definition f_byte : Format byte :=
  mkFormat (λ b, [b]) (λ s, match s with b :: s => Some (b, s) | [] => None end).

Definition f_string : Format string := f_iso String.string_of_list_byte as_bytes (f_list f_byte).

Definition f_entry : Format ExtentInfo :=
  f_iso (λ '(a, (b, (c, (d, (e, (f, (g, h))))))), mkExtentInfo a b c d e f g h)
    (λ e, (i_offset e, (i_size e, (i_padded_size e, (i_crc32c e, (i_created_txn e,
      (i_last_modified e, (i_meta_len e, i_uncompressed_size e))))))))
    (f_pair f_u64 (f_pair f_u64 (f_pair f_u64 (f_pair f_u32 (f_pair f_u64 (f_pair f_int64
      (f_pair f_u16 f_u64))))))).

Definition f_tombstone : Format TombstoneInfo :=
  f_iso (λ '(a, (b, (c, (d, e)))), mkTombstone a b c d e)
    (λ t, (t_size t, (t_crc32c t, (t_last_modified t, (t_reason t, t_tombstone_txn t)))))
    (f_pair f_u64 (f_pair f_u32 (f_pair f_int64 (f_pair f_string f_u64)))).

Definition f_shard : Format ShardData :=
  f_iso (λ '(fs, ts), mkShard (list_to_map fs) (list_to_map ts))
    (λ s, (map_to_list (sh_files s), map_to_list (sh_tombstones s)))
    (f_pair (f_list (f_pair f_string f_entry)) (f_list (f_pair f_string f_tombstone))).

Definition flagged_shard : BincodeShard := {|
  ser_shard s := Some (emit f_shard s);
  de_shard b := fst <$> parse f_shard b;
|}.

Lemma f_string_inverts : inverts f_string (λ _, True).
Proof.
  eapply f_iso_inverts; [apply String.string_of_list_byte_of_string| |by eapply (f_list_inverts _ (λ _, True))].
  intros b _. by apply Forall_true.
Qed.

Lemma f_entry_inverts : inverts f_entry entry_in_range.
Proof.
  eapply f_iso_inverts; [by intros []| |repeat apply f_pair_inverts;
    first [apply f_int64_inverts | apply f_uint_inverts]].
  by intros [] [].
Qed.

Lemma f_tombstone_inverts : inverts f_tombstone tombstone_in_range.
Proof.
  eapply f_iso_inverts; [by intros []| |repeat apply f_pair_inverts;
    first [apply f_string_inverts | apply f_int64_inverts | apply f_uint_inverts]].
  by intros [] [].
Qed.

Lemma f_shard_inverts : inverts f_shard shard_in_range.
Proof.
  eapply f_iso_inverts; [intros []; by rewrite /= !list_to_map_to_list| |apply f_pair_inverts;
    (apply f_list_inverts, f_pair_inverts; [apply f_string_inverts|])].
  2: apply f_entry_inverts. 2: apply f_tombstone_inverts.
  intros [fs ts] [Hf Ht]. simpl. split; apply Forall_forall; intros [k v] Hin%elem_of_map_to_list;
    (split; [done|]); [by eapply Hf|by eapply Ht].
Qed.

#[export] Instance flagged_shard_laws : @BincodeShardLaws flagged_shard.
Proof.
  split.
  - intros s _. eexists. split; [done|]. simpl. destruct (map_to_list (sh_files s)); by destruct (map_to_list _).
  - intros s b Hs [= <-]. simpl. rewrite -(app_nil_r (_ ++ _)).
    change (fst <$> parse f_shard (emit f_shard s ++ []) = Some s). by rewrite f_shard_inverts.
  - intros b [= <-]. by rewrite /= !map_to_list_empty.
Qed.

(** * Concrete parameters and an example store

    Functions for every parameter of the model, with their laws, and a
    formatted 64 MiB store: what the examples and the witnesses run on. *)

#[export] Existing Instances castagnoli castagnoli_laws rle_codecs rle_codec_laws
  fixed_superblock flagged_shard.

#[export] Instance listed_order : HashMapOrder := λ A m, map_to_list m.
#[export] Instance listed_order_laws : HashMapOrderLaws.
Proof. intros A m. done. Qed.

(** A temporary file that is read back in one call. *)
#[export] Instance one_read : TempFiles := λ bytes, Ok (mkSourceFile (zlen bytes) [Ok bytes]).
#[export] Instance one_read_laws : TempFilesLaws.
Proof.
  intros v. split; [done|]. intros f [= <-]. split_and!; [done|by repeat constructor| |].
  - exists []. by rewrite /= !app_nil_r.
  - intros p [= <-]. by rewrite app_nil_r.
Qed.

(** Paths that need no normalisation. *)
#[export] Instance plain_paths : ObjectPath :=
  {| path_parse := Some; path_from := id; prefix_matches := String.prefix |}.

(** ** A streaming decoder *)

(** Decode everything at the first read, then hand it out. *)
Definition decode_all (c : Compression) (b : BlockReaderIo) : Res RawStoreError (list byte) :=
  v ← (drain (S (Z.to_nat (total_blocks (reader b)))) (reader b)).2;
  decompress c v.

Definition hand_out (n : Z) (b : BlockReaderIo) (rest : list byte) :
    BlockReaderIo * option (list byte) * Res RawStoreError (list byte) :=
  (b, Some (zdrop n rest), Ok (ztake n rest)).

#[export] Instance whole_decoder : StreamDecoder := {|
  dec_state := option (list byte);
  dec_new c b := Ok None;
  dec_read c n b st :=
    match st with
    | Some rest => hand_out n b rest
    | None =>
      match decode_all c b with
      | Ok rest => hand_out n b rest
      | Err e => (b, None, Err e)
      | Panic => (b, None, Panic)
      end
    end;
|}.

Definition decoder_at (c : Compression) (d : DeviceIo) (b : BlockReaderIo) (st : option (list byte))
    (x : list byte) : Prop :=
  with_b_io d b = b ∧
  match st with
  | Some rest => rest = x
  | None => ∃ off v, b = block_reader_new d off (zlen v) ∧ readable d off v ∧
      off + num_blocks (zlen v) * 4096 <= file_size (disk d) ∧ decompress c v = Ok x
  end.

Lemma ztake_nil_inv {A} n (l : list A) : 0 < n → ztake n l = [] → l = [].
Proof. intros Hn. rewrite /ztake. destruct (Z.to_nat n) eqn:E; [lia|]. by destruct l. Qed.

Lemma hand_out_at c d b n x :
  with_b_io d b = b → 0 < n →
  let '(b', st', r) := hand_out n b x in
  ∃ buf rest', r = Ok buf ∧ x = buf ++ rest' ∧ zlen buf <= n ∧ (buf = [] → x = []) ∧ decoder_at c d b' st' rest'.
Proof.
  intros Hb Hn. exists (ztake n x), (zdrop n x). rewrite ztake_zdrop zlen_ztake; [|lia].
  split_and!; try done; [lia|by apply ztake_nil_inv].
Qed.

#[export] Instance whole_decoder_laws : StreamDecoderLaws.
Proof.
  refine {| dec_at := decoder_at |}.
  - by intros c d b dec rest [].
  - intros c d off v x Hr Hs Hx. split; [done|]. by exists off, v.
  - intros c d b dec rest n Hn [Hb Hd]. rewrite /dec_read /=. destruct dec as [x|].
    + subst x. destruct (hand_out_at c d b n rest Hb Hn) as (? & ? & [= <-] & ? & ? & ? & ?). eexists; split_and!; eauto.
    + destruct Hd as (off & v & -> & Hr & Hs & Hx). rewrite /decode_all.
      pose proof (drain_spec (S (Z.to_nat (num_blocks (zlen v)))) d off v 0 _ Hr (reader_new_at d off v)) as Hdr.
      ospecialize* Hdr; [pose proof (num_blocks_spec (zlen v) (zlen_nonneg v)); lia|].
      change (total_blocks (reader (block_reader_new d off (zlen v)))) with (num_blocks (zlen v)).
      change (reader (block_reader_new d off (zlen v))) with (reader_new d off (zlen v)).
      destruct (drain _ (reader_new d off (zlen v))) as [r' res]. destruct Hdr as [Hcase Htot].
      rewrite zdrop_0 in Hcase Htot. destruct Hcase as [->|(k & m & ->)]; cbn [mbind Res_bind snd].
      * rewrite Hx. destruct (hand_out_at c d _ n rest Hb Hn) as (? & ? & [= <-] & ? & ? & ? & ?). eexists; split_and!; eauto.
      * split; [by eauto|]. intros Hnf. by specialize (Htot Hnf Hs).
Qed.

(** ** An example store *)

Definition example_options (c : Compression) : FormatOptions :=
  mkFormatOptions (64 * 1024 * 1024) false INDEX_REGION_SIZE 1024 c.

Definition example_file : DiskFile := mkDiskFile ∅ ∅ [] 0 false false ideal_env.

Lemma example_options_ok c : options_ok (example_options c).
Proof. by split. Qed.

(** What is known of the store just formatted. *)
Record fresh_store (c : Compression) (s : RawObjectStore) : Prop := {
  fs_ok : store_ok s;
  fs_committed : ∃ sb, committed s sb index_new;
  fs_env : env (file_of s) = ideal_env;
  fs_shape : ∃ d bytes, s = formatted_store (example_options c) d bytes (crc32c bytes);
}.

Lemma example_no_error c e : ¬ format_error example_file (example_options c) e.
Proof.
  destruct e; rewrite /format_error; try tauto.
  - intros (-> & -> & Hn). by vm_compute in Hn.
  - intros (-> & [Hn|Hn]); by vm_compute in Hn.
  - intros (-> & -> & Hn). by vm_compute in Hn.
  - done.
  - intros Hn. apply Hn, ideal_env_no_faults.
Qed.

Lemma example_store c : ∃ f s, format_with_options (example_options c) example_file = (f, Ok s) ∧ fresh_store c s.
Proof.
  pose proof (format_spec (example_options c) example_file (example_options_ok c) eq_refl) as Hf.
  destruct (format_with_options _ _) as [f [s|e|]]; [|exfalso|done].
  - exists f, s. split; [done|]. destruct Hf as (? & _ & _ & _ & ? & _ & _ & ? & bytes & Hs).
    split; [done..|]. by exists (io (inner s)), bytes.
  - by apply (example_no_error c e).
Qed.

Lemma ideal_sector_atomic : sector_atomic ideal_env.
Proof. done. Qed.
