(* ===== verification/Scenario.v ===== *)
(** * A small history

    A formatted store, one object put, and a flush: the states the witnesses
    of the end-to-end theorems run on. *)

From S2P Require Import Prelude.
From S2P Require Import Config.
From S2P Require Import Device.
From S2P Require Import Allocator.
From S2P Require Import Extent.
From S2P Require Import Concrete.
From S2P Require Import Streaming.
From S2P Require Import Index.
From S2P Require Import Superblock.
From S2P Require Import Inner.
From S2P Require Import InnerFacts.
From S2P Require Import RawStore.
From S2P Require Import StoreFacts.
From S2P Require Import Flush.
From S2P Require Import FormatFacts.
From S2P Require Import Changes.
From S2P Require Import StoreMeta.
From S2P Require Import ObjectStoreApi.
From S2P Require Import Multipart.
From S2P Require Import ApiFacts.
From S2P Require Import MultipartFacts.
From S2P Require Import Behaviour.
From S2P Require Import History.
From S2P Require Import Instances.

Definition put_a : Op := OpPut 0 "a" sample Overwrite.

(** [s0] formatted, [s1] after the put, [s2] after the flush. *)
Record scenario (c : Compression) (s0 s1 s2 : RawObjectStore) : Prop := {
  sc_fresh : fresh_store c s0;
  sc_put : run put_a s0 = (s1, Ok tt);
  sc_put_ok : store_ok s1;
  sc_put_env : env (file_of s1) = ideal_env;
  sc_put_view : view s1 = {["a" := (sample, [])]};
  sc_flush : flush_index s1 = (s2, Ok tt);
  sc_flush_ok : store_ok s2;
  sc_flush_env : env (file_of s2) = ideal_env;
  sc_flush_view : view s2 = view s1;
  sc_flush_allowed : allowed OpFlush s1;
  sc_txn : txn_id (superblock (inner s1)) = 1;
  sc_formatted : ∃ f, format_with_options (example_options c) example_file = (f, Ok s0);
  sc_entry : ∃ e, index (inner s1) = mkIndex {["a" := e]} ∅;
  sc_clean : needs_flush s2 = false;
}.

Lemma put_a_allowed s : allowed put_a s.
Proof. split; [by vm_compute|done]. Qed.

Lemma ideal_env_faults s : env (file_of s) = ideal_env → no_faults (env (file_of s)).
Proof. intros ->. apply ideal_env_no_faults. Qed.

(** A shard with at most one short entry is small. *)
Lemma one_entry_small j e b :
  ser_shard (bucket j (mkIndex {["a" := e]} ∅)) = Some b → zlen b < 100.
Proof.
  intros [= <-]. rewrite /bucket /= map_filter_empty map_to_list_empty.
  rewrite map_filter_singleton. case_decide; rewrite ?map_to_list_singleton ?map_to_list_empty; [|done].
  done.
Qed.

Lemma sample_bounds : zlen sample < 2 ^ 63 ∧ sample ≠ [].
Proof. by vm_compute. Qed.

Lemma fresh_put c s0 :
  fresh_store c s0 → ∃ s1 e, run put_a s0 = (s1, Ok tt) ∧ store_ok s1 ∧ env (file_of s1) = ideal_env ∧
    view s1 = {["a" := (sample, [])]} ∧ index (inner s1) = mkIndex {["a" := e]} ∅ ∧
    txn_id (superblock (inner s1)) = 1 ∧ shard_slot_size s1 = 65536.
Proof.
  intros [Hok _ He (d & bytes & Hs)]. destruct sample_bounds as [Hlen Hne].
  pose proof (run_stepped put_a s0 Hok) as Hst. ospecialize* Hst; [done|done|].
  pose proof (do_put_spec 0 "a" sample 0 (inner s0) (so_inner _ Hok) Hlen) as Hp.
  rewrite /put_a /run /run_inner /sm_zoom /put_opts /os_err /do_put in Hst |- *.
  destruct (do_put_with_meta 0 "a" sample 0 (inner s0)) as [st' [[]|err|]]; [| |done].
  - destruct Hst as [Hst [_ Hv]]. destruct Hp as (e & Hin & _ & _ & _ & Ht).
    exists (set_inner st' s0), e. destruct Hst as [Hok1 _ _ Henv _ Hsb]. simpl in Hsb.
    split_and!; [done|done|by rewrite Henv| | | |].
    + rewrite Hv. by rewrite /view /contents Hs /= fmap_empty insert_empty.
    + pose proof (in_files _ _ _ _ _ _ Hin) as Hfi. rewrite Hs /= insert_empty in Hfi. rewrite Hs /= delete_empty in Ht.
      simpl. destruct (index st') as [fi ti]. simpl in Hfi, Ht. by subst.
    + by rewrite /= Hsb Hs.
    + by rewrite Hs.
  - exfalso. destruct Hp as [_ Herr]. destruct err; simpl in Herr; try done.
    + destruct Herr as (a & Ha & Hall & ->). rewrite Hs /= in Ha. injection Ha as <-.
      assert ((8192, 33546240) ∈ free_list (alloc_new DATA_START 33554432 BLOCK_ALIGNMENT)) as Hin by (vm_compute; by left).
      rewrite Forall_forall in Hall. specialize (Hall _ Hin). simpl in Hall.
      pose proof (choose_payload_spec (compression (inner s0)) sample Hne) as Hw.
      destruct (choose_payload _ sample) as [w u]. destruct Hw as (_ & Hw & _). change (zlen sample) with 6000 in Hw.
      simpl in Hall. pose proof (num_blocks_spec (zlen w) (zlen_nonneg w)). lia.
    + destruct Herr as (-> & -> & Hgt). by rewrite Hs in Hgt.
    + apply Herr. rewrite -/(file_of s0) He. apply ideal_env_no_faults.
Qed.

Lemma scenario_exists c : ∃ s0 s1 s2, scenario c s0 s1 s2.
Proof.
  destruct (example_store c) as (f & s0 & Hf & Hs0).
  assert (∃ f, format_with_options (example_options c) example_file = (f, Ok s0)) as Hform by (eexists; exact Hf).
  clear f Hf.
  destruct (fresh_put c s0 Hs0) as (s1 & e & Hput & Hok1 & He1 & Hv1 & Hix & Htx & Hsl).
  assert (allowed OpFlush s1) as Hal.
  { split; [done|]. intros _. rewrite He1 Htx. split; [apply ideal_sector_atomic|done]. }
  pose proof Hok1 as [_ _ (sb & idx & Hcm) _ _ _ _].
  pose proof (run_flushed s1 sb idx Hok1 Hcm Hal) as Hfl.
  pose proof Hal as [_ Hal']. destruct (Hal' eq_refl) as [Hat Htb].
  pose proof (committed_slots _ _ _ Hcm) as (_ & Ht & _).
  pose proof (flush_index_spec s1 sb idx Hok1 Hcm Hat ltac:(by rewrite -Ht)) as Hsp.
  rewrite /run /os_err in Hfl. destruct (flush_index s1) as [s2 [[]|err|]] eqn:Hf; [| |by destruct Hsp].
  - destruct Hfl as [_ [Hflu Hv2]]. exists s0, s1, s2. split; try assumption.
    + by apply Hflu.
    + by rewrite /file_of (proj1 (fl_handle _ _ _ Hflu)).
    + by exists e.
    + by apply (fl_clean _ _ _ Hflu).
  - exfalso. destruct Hsp as [_ [(j & b & Hb & _ & Hlt)|Hnf]].
    + rewrite Hix in Hb. apply one_entry_small in Hb. lia.
    + by apply Hnf, ideal_env_faults.
Qed.

(** The example as histories: the put, and the put and the flush. *)
Lemma scenario_put c s0 s1 s2 : scenario c s0 s1 s2 → calls s0 [(put_a, Ok tt)] s1.
Proof. intros Hs. eapply calls_cons; [apply put_a_allowed|by apply (sc_put _ _ _ _ Hs)|constructor]. Qed.

Lemma scenario_flush c s0 s1 s2 : scenario c s0 s1 s2 → run OpFlush s1 = (s2, Ok tt).
Proof. intros Hs. by rewrite /run /os_err (sc_flush _ _ _ _ Hs). Qed.

Lemma scenario_trace c s0 s1 s2 : scenario c s0 s1 s2 → trace s0 [(put_a, Ok tt); (OpFlush, Ok tt)] s2.
Proof.
  intros Hs. eapply trace_cons; [apply put_a_allowed|by apply (sc_put _ _ _ _ Hs)|done|].
  eapply trace_cons; [by apply (sc_flush_allowed _ _ _ _ Hs)|by eapply scenario_flush|done|constructor].
Qed.

(** Everything written reached the device. *)
Lemma written_image s : store_ok s → crash_image (base (file_of s)) (log (file_of s)) (content (file_of s)).
Proof. intros [_ _ (sb & idx & Hcm) _ _ _ _]. rewrite (cm_content _ _ _ Hcm). apply crash_image_all. Qed.
