(* ===== verification/Guarantees.v ===== *)
(** * What the store guarantees

    The end-to-end theorems about the store: refinement of the abstract map,
    durability and crash atomicity over histories of calls. *)

From S2P Require Import Prelude.
From S2P Require Import Config.
From S2P Require Import Device.
From S2P Require Import Allocator.
From S2P Require Import Extent.
From S2P Require Import Concrete.
From S2P Require Import Streaming.
From S2P Require Import Index.
From S2P Require Import Superblock.
From S2P Require Import Inner.
From S2P Require Import InnerFacts.
From S2P Require Import RawStore.
From S2P Require Import StoreFacts.
From S2P Require Import Flush.
From S2P Require Import FormatFacts.
From S2P Require Import Recovery.
From S2P Require Import Changes.
From S2P Require Import StoreTools.
From S2P Require Import StoreMeta.
From S2P Require Import ObjectStoreApi.
From S2P Require Import Multipart.
From S2P Require Import ApiFacts.
From S2P Require Import MultipartFacts.
From S2P Require Import Behaviour.
From S2P Require Import History.
From S2P Require Import Instances.
From S2P Require Import Scenario.

Section guarantees.
Context `{Crc32cLaws, CodecLaws, BincodeShardLaws, BincodeSuperblockLaws, HashMapOrderLaws, ObjectPath, StreamDecoder,
  TempFilesLaws}.
Implicit Types (s : RawObjectStore) (o : Op).

(** C1: Every call of the public interface on a well-formed store refines the
    abstract store: on success the objects and their metadata change exactly
    as the call means ([spec]) and the store stays well-formed; a call that
    fails (other than a flush) changes no object and keeps the store
    well-formed; no call panics. *)
Theorem calls_refine o s :
  store_ok s → allowed o s →
  let '(s', r) := run o s in
  match r with
  | Ok _ => store_ok s' ∧ spec o (view s) (view s')
  | Err _ => o ≠ OpFlush → store_ok s' ∧ view s' = view s
  | Panic => False
  end.
Proof.
  intros Hok Hal. destruct (run o s) as [s' r] eqn:Hrun.
  assert (o = OpFlush ∨ o ≠ OpFlush) as [->|Hne] by (destruct o; auto).
  - pose proof Hok as [_ _ (sb & idx & Hcm) _ _ _ _]. pose proof (run_flushed s sb idx Hok Hcm Hal) as Hf.
    rewrite Hrun in Hf. destruct Hf as [_ Hf], r; [|done..]. destruct Hf as [Hf ->]. split; [apply Hf|done].
  - destruct (trace_step o s s' r Hok Hal Hrun) as [Hs Hr]; [done|]. by destruct r.
Qed.

(** C5: Any history of calls on a formatted store, each with any result and
    failed flushes included, refines the same history on the abstract store,
    which starts empty: successful calls act as specified, failed calls do
    nothing and none panics.  The store stays fit for further calls
    ([working]), and well-formed, with its committed image, as long as no
    flush has failed.  (A flush needs atomic sectors and a transaction counter
    that does not wrap, see [allowed].) *)
Theorem histories_refine opts f f' s os s' :
  options_ok opts → block_device f = false → format_with_options opts f = (f', Ok s) → calls s os s' →
  working s' ∧ spec_trace ∅ os (view s') ∧ (flushes_succeed os → store_ok s').
Proof.
  intros Ho Hb Hf Hc. destruct (formatted_calls opts f f' s os s') as [Hw Hsp]; [done..|].
  split_and!; [done|done|]. intros Hfl. by eapply formatted_trace, calls_trace.
Qed.


(** C4: Crash atomicity of a flush.  Whatever point of a flush the power fails
    at, and whether or not the flush fails, opening the device succeeds in
    every mode and gives either the whole flushed state (every visible object
    of memory, and a well-formed store) or the last committed index, of which
    every entry still in use in memory is kept with its bytes. *)
Theorem flush_crash_atomic s sb idx s' r l m mode :
  store_ok s → committed s sb idx → allowed OpFlush s → no_faults (env (file_of s)) →
  flush_index s = (s', r) →
  log (file_of s) `prefix_of` l → l `prefix_of` log (file_of s') → crash_image (base (file_of s)) l m →
  ∃ s3, open_impl mode false (after_crash (file_of s) m) = Ok s3 ∧
    (store_ok s3 ∧ objects (inner s3) = filter (λ '(k, _), is_tmp_key k = false) (objects (inner s)) ∧
       tombstones (index (inner s3)) = tombstones (index (inner s)) ∨
     ∀ k e k' e', files idx !! k = Some e → files (index (inner s)) !! k' = Some e' → same_write e e' →
       is_tmp_key k = false →
       files (index (inner s3)) !! k = Some e ∧ objects (inner s3) !! k = objects (inner s) !! k').
Proof.
  intros Hok Hcm Hal Hnf Hrun Hl1 Hl2 Hm. pose proof (run_flushed s sb idx Hok Hcm Hal) as Hf.
  rewrite /run /os_err Hrun in Hf. destruct Hf as [[_ Hsafe] _].
  destruct (Hsafe l m Hl1 Hl2 Hm) as [Hsu|(sb' & _ & Hsu)].
  - destruct (open_survives mode s m sb idx (so_geo _ Hok) Hnf Hsu) as (s3 & Ho & Hre).
    exists s3. split; [done|right]. intros. by eapply reopened_kept.
  - destruct (open_survives mode s m sb' _ (so_geo _ Hok) Hnf Hsu) as (s3 & Ho & Hre).
    exists s3. split; [done|left]. by eapply reopened_durable.
Qed.

(** C28: A successful flush makes memory durable: the committed index is the
    index in memory at the next transaction, nothing is dirty, the objects
    are as before and the callbacks are called with the new transaction.  It
    fails only on an I/O fault or when a shard outgrows its slot. *)
Theorem flush_commits s sb idx :
  store_ok s → committed s sb idx → allowed OpFlush s →
  let '(s', r) := flush_index s in
  match r with
  | Ok _ => flushed s s' sb
  | Err e => overflows (index (inner s)) (shard_slot_size s) e ∨
      ¬ no_faults (env (file_of s))
  | Panic => False
  end.
Proof.
  intros Hok Hcm [_ Hal]. destruct (Hal eq_refl) as [Hat Htx].
  pose proof (committed_slots _ _ _ Hcm) as (_ & Ht & _). rewrite Ht in Htx.
  pose proof (flush_index_spec s sb idx Hok Hcm Hat Htx) as Hf. by destruct (flush_index s) as [s' r], Hf.
Qed.

(** C33: In any state a formatted store reaches without a failed flush, when
    nothing is reported to need a flush there is nothing to lose: the index a
    restart reads is the index in memory, and when the power fails, now or at
    any point of the next call, opening succeeds in every mode and every key
    the interrupted call does not name reads as it does in memory.  (Keys of
    unfinished multipart parts are purged at open.) *)
Theorem clean_is_committed opts f f' s os s' l ks m mode :
  options_ok opts → block_device f = false → format_with_options opts f = (f', Ok s) → trace s os s' →
  needs_flush s' = false → no_faults (env (file_of s')) →
  power_cut s' l ks → crash_image (base (file_of s')) l m →
  (∀ sb idx, committed s' sb idx → idx = index (inner s')) ∧
  ∃ s3, open_impl mode false (after_crash (file_of s') m) = Ok s3 ∧
    ∀ k, k ∉ ks → is_tmp_key k = false → view s3 !! k = view s' !! k.
Proof.
  intros Ho Hb Hf Htr Hn Hnf Hcut Hm. destruct (formatted_trace opts f f' s os s') as [Hok _]; [done..|].
  split; [intros sb idx Hcm; by eapply clean_index|].
  by apply (held_survives [] s' l ks m Hok Hnf (clean_held s' Hok Hn) Hcut Hm mode).
Qed.

(** C29: Bounds and disjointness.  After any history of calls on a formatted
    store, failed flushes included, the extents of its objects lie in the data
    area, between the superblocks and the index regions, start on block
    boundaries, and no two objects share a byte; nor does an object share a
    byte with a region the allocator may give away. *)
Theorem extents_disjoint opts f f' s0 os s k1 e1 x :
  options_ok opts → block_device f = false → format_with_options opts f = (f', Ok s0) → calls s0 os s →
  files (index (inner s)) !! k1 = Some e1 → covers (extent_of e1) x →
  DATA_START <= x < index_region_a s ∧ i_offset e1 mod 4096 = 0 ∧
  (∀ k2 e2, files (index (inner s)) !! k2 = Some e2 → covers (extent_of e2) x → k1 = k2) ∧
  (∀ a, allocator (inner s) = Some a → ¬ is_free (free_list a) x).
Proof.
  intros Ho Hb Hf Hc Hk1 Hx. destruct (formatted_calls opts f f' s0 os s) as [Hw _]; [done..|].
  pose proof (io_tiles _ _ (wk_inner _ Hw)) as (a & Ha & Ht).
  apply (tiles_perm _ _ _ _ _ (extents_delete _ _ _ Hk1)) in Ht.
  pose proof (tl_live _ _ _ _ Ht) as [(Hlo & _ & Hhi & Hmod) _]%Forall_cons. pose proof Hx as Hx'.
  rewrite /covers in Hx'. split; [lia|split; [done|]]. split.
  - intros k2 e2 Hk2 Hx2. destruct (decide (k1 = k2)) as [|Hne]; [done|exfalso].
    eapply (tiles_disjoint _ _ a (extent_of e1) _ (extent_of e2)); [exact Ht| |exact Hx|exact Hx2].
    apply (extents_elem _ k2). by rewrite lookup_delete_ne.
  - intros a' Ha' Hfree. simplify_eq. pose proof (tl_once _ _ _ _ Ht x) as Hon.
    ospecialize* Hon; [lia|]. destruct Hon as [[_ Hon]|[Hon _]]; [|done].
    by rewrite owners_cons decide_True in Hon.
Qed.

(** Rebuilding the free list from the index, as opening and reloading do,
    gives the very allocator that incremental allocation and freeing left. *)
Theorem rebuild_is_incremental s a :
  store_ok s → allocator (inner s) = Some a →
  from_free_list (rebuild_free_list (index (inner s)) (index_region_a s)).2 DATA_START (index_region_a s) = a.
Proof.
  intros Hok Ha. pose proof (io_tiles _ _ (so_inner _ Hok)) as (a' & Ha' & Ht). simplify_eq.
  by apply rebuilt_allocator.
Qed.

(** Deleting always succeeds, whatever the device does: afterwards the key
    is gone, every other object is as it was, and the delete can be flushed. *)
Theorem delete_succeeds s k :
  store_ok s → ∃ s', run (OpDelete k) s = (s', Ok tt) ∧ store_ok s' ∧ view s' = delete k (view s).
Proof.
  intros Hok. pose proof (run_stepped (OpDelete k) s Hok I) as Hr. ospecialize* Hr; [done|].
  rewrite /run /run_inner /sm_zoom in Hr |- *.
  pose proof (delete_object_spec (index_region_a s) (inner s) k (so_inner _ Hok) (so_range _ Hok)) as Hd.
  destruct (delete_object k (inner s)) as [st' r]. destruct Hd as (-> & _). destruct Hr as [Hs Hv].
  eexists. split; [done|]. split; [apply Hs|done].
Qed.

(** C32: Putting an object succeeds when the device does not fail, the payload
    is not empty, the key is within bounds, and some free region is as large
    as the padded extent of what is stored. *)
Theorem put_succeeds s now k data a r :
  store_ok s → time_ok now → zlen data < 2 ^ 63 → no_faults (env (file_of s)) → data ≠ [] →
  key_len k <= max_key_length (inner s) → allocator (inner s) = Some a → r ∈ free_list a →
  num_blocks (zlen (choose_payload (compression (inner s)) data).1) * 4096 <= r.2 →
  ∃ s', run (OpPut now k data Overwrite) s = (s', Ok tt) ∧ store_ok s' ∧ view s' = <[k := (data, [])]> (view s).
Proof.
  intros Hok Hnow Hlen Hnf Hne Hk Ha Hin Hr.
  pose proof (run_stepped (OpPut now k data Overwrite) s Hok (conj Hnow Hlen)) as Hs. ospecialize* Hs; [done|].
  pose proof (do_put_spec now k data 0 (inner s) (so_inner _ Hok) Hlen) as Hp.
  rewrite /run /run_inner /sm_zoom /put_opts /os_err /do_put in Hs |- *.
  destruct (do_put_with_meta now k data 0 (inner s)) as [st' [[]|e|]]; [|exfalso|done].
  - destruct Hs as [Hs [_ Hv]]. eexists. split; [done|]. split; [apply Hs|done].
  - destruct Hp as [_ He], e; simpl in He; try done.
    + destruct He as (a' & Ha' & Hall & ->). simplify_eq. rewrite Forall_forall in Hall.
      specialize (Hall r Hin). lia.
    + lia.
Qed.
End guarantees.

(** ** The guarantees on the example history *)

Lemma calls_refine_witness : ∃ s, store_ok s ∧ allowed put_a s ∧
  let '(s', r) := run put_a s in
  match r with
  | Ok _ => store_ok s' ∧ spec put_a (view s) (view s')
  | Err _ => put_a ≠ OpFlush → store_ok s' ∧ view s' = view s
  | Panic => False
  end.
Proof.
  destruct (scenario_exists Zstd) as (s0 & s1 & s2 & Hs). exists s0.
  pose proof (fs_ok _ _ (sc_fresh _ _ _ _ Hs)) as Hok. split; [exact Hok|split; [apply put_a_allowed|]].
  apply (calls_refine put_a s0 Hok (put_a_allowed s0)).
Defined.

Lemma histories_refine_witness : ∃ f s s', options_ok (example_options CNone) ∧
  format_with_options (example_options CNone) example_file = (f, Ok s) ∧ calls s [(put_a, Ok tt)] s' ∧
  working s' ∧ spec_trace ∅ [(put_a, Ok tt)] (view s') ∧ store_ok s'.
Proof.
  destruct (scenario_exists CNone) as (s0 & s1 & s2 & Hs). destruct (sc_formatted _ _ _ _ Hs) as [f Hf].
  destruct (histories_refine (example_options CNone) example_file f s0 _ s1 (example_options_ok CNone) eq_refl Hf
    (scenario_put _ _ _ _ Hs)) as (Hw & Hsp & Hok).
  exists f, s0, s1. split; [apply example_options_ok|]. split; [exact Hf|]. split; [exact (scenario_put _ _ _ _ Hs)|].
  split; [exact Hw|split; [exact Hsp|]]. apply Hok, Forall_singleton. discriminate.
Defined.


Lemma flush_crash_atomic_witness : ∃ s1 s3 idx, files (index (inner s1)) !! "a" ≠ None ∧
  open_impl FullVerify false (after_crash (file_of s1) (content (file_of s1))) = Ok s3 ∧
  (store_ok s3 ∧ objects (inner s3) = filter (λ '(k, _), is_tmp_key k = false) (objects (inner s1)) ∧
     tombstones (index (inner s3)) = tombstones (index (inner s1)) ∨
   ∀ k e k' e', files idx !! k = Some e → files (index (inner s1)) !! k' = Some e' → same_write e e' →
     is_tmp_key k = false →
     files (index (inner s3)) !! k = Some e ∧ objects (inner s3) !! k = objects (inner s1) !! k').
Proof.
  destruct (scenario_exists CNone) as (s0 & s1 & s2 & Hs).
  pose proof Hs as [_ _ Hok1 He1 Hv1 Hfl Hok2 _ _ Hal _ _ _ _]. pose proof Hok1 as [_ _ (sb & idx & Hcm) _ _ _ _].
  assert (crash_image (base (file_of s1)) (log (file_of s1)) (content (file_of s1))) as Hci.
  { rewrite (cm_content _ _ _ Hcm). apply crash_image_all. }
  pose proof (run_flushed s1 sb idx Hok1 Hcm Hal) as Hrf. rewrite /run /os_err Hfl in Hrf.
  destruct Hrf as [[Hpre _] _].
  destruct (flush_crash_atomic s1 sb idx s2 (Ok tt) (log (file_of s1)) _ FullVerify Hok1 Hcm Hal
    (ideal_env_faults _ He1) Hfl (reflexivity _) Hpre Hci) as (s3 & Ho & Hr).
  exists s1, s3, idx. split; [|by split]. intros Hk. apply (f_equal (.!! "a")) in Hv1.
  by rewrite /view contents_lookup Hk in Hv1.
Defined.

Lemma flush_commits_witness : ∃ s1 s2 sb idx, committed s1 sb idx ∧ flush_index s1 = (s2, Ok tt) ∧ flushed s1 s2 sb.
Proof.
  destruct (scenario_exists Zstd) as (s0 & s1 & s2 & Hs). pose proof Hs as [_ _ Hok1 _ _ Hfl _ _ _ Hal _].
  pose proof Hok1 as [_ _ (sb & idx & Hcm) _ _ _ _].
  pose proof (flush_commits s1 sb idx Hok1 Hcm Hal) as Hf. rewrite Hfl in Hf.
  exists s1, s2, sb, idx. split; [exact Hcm|by split].
Defined.

(** Put, flush, lose power: the object is there. *)
Lemma clean_is_committed_witness : ∃ s s', view s = {["a" := (sample, [])]} ∧ needs_flush s = false ∧
  open_impl FullVerify false (after_crash (file_of s) (content (file_of s))) = Ok s' ∧
  view s' !! "a" = Some (sample, []).
Proof.
  destruct (scenario_exists CNone) as (s0 & s1 & s2 & Hs).
  assert (view s2 = {["a" := (sample, [])]}) as Hv2
    by by rewrite (sc_flush_view _ _ _ _ Hs) (sc_put_view _ _ _ _ Hs).
  destruct (sc_formatted _ _ _ _ Hs) as [f Hf].
  destruct (clean_is_committed (example_options CNone) example_file f s0 _ s2 _ [] _ FullVerify (example_options_ok CNone)
    eq_refl Hf (scenario_trace _ _ _ _ Hs) (sc_clean _ _ _ _ Hs) (ideal_env_faults _ (sc_flush_env _ _ _ _ Hs))
    (cut_between s2) (written_image s2 (sc_flush_ok _ _ _ _ Hs))) as (_ & s3 & Ho & Hv).
  exists s2, s3. split; [exact Hv2|]. split; [exact (sc_clean _ _ _ _ Hs)|split; [exact Ho|]].
  rewrite Hv; [rewrite Hv2; apply lookup_singleton_eq|apply not_elem_of_nil|reflexivity].
Defined.

(** The object of the example, and the first byte of its extent. *)
Lemma example_entry (c : Compression) : ∃ s e a, store_ok s ∧ files (index (inner s)) !! "a" = Some e ∧
  covers (extent_of e) (i_offset e) ∧ allocator (inner s) = Some a ∧
  ∃ f s0, format_with_options (example_options c) example_file = (f, Ok s0) ∧ calls s0 [(put_a, Ok tt)] s.
Proof.
  destruct (scenario_exists c) as (s0 & s1 & s2 & Hs). pose proof (sc_put_ok _ _ _ _ Hs) as Hok1.
  destruct (sc_entry _ _ _ _ Hs) as [e He].
  pose proof (io_tiles _ _ (so_inner _ Hok1)) as (a & Ha & Ht).
  assert (files (index (inner s1)) !! "a" = Some e) as Hk by (rewrite He; apply lookup_singleton_eq).
  exists s1, e, a. split_and!; try done.
  - pose proof (tl_live _ _ _ _ Ht) as Hl. rewrite Forall_forall in Hl.
    destruct (Hl _ (extents_elem _ _ _ Hk)) as (_ & Hp & _). rewrite /covers /=. simpl in Hp. lia.
  - destruct (sc_formatted _ _ _ _ Hs) as [f Hf]. exists f, s0. split; [exact Hf|exact (scenario_put _ _ _ _ Hs)].
Qed.

Lemma extents_disjoint_witness : ∃ s e, files (index (inner s)) !! "a" = Some e ∧
  DATA_START <= i_offset e < index_region_a s ∧ i_offset e mod 4096 = 0.
Proof.
  destruct (example_entry CNone) as (s & e & a & _ & Hk & Hc & Ha & f & s0 & Hf & Htr). exists s, e. split; [exact Hk|].
  destruct (extents_disjoint (example_options CNone) example_file f s0 _ s "a" e (i_offset e) (example_options_ok CNone)
    eq_refl Hf Htr Hk Hc) as (Hb & Hm & _). exact (conj Hb Hm).
Defined.

Lemma rebuild_is_incremental_witness : ∃ s a, files (index (inner s)) !! "a" ≠ None ∧ allocator (inner s) = Some a ∧
  from_free_list (rebuild_free_list (index (inner s)) (index_region_a s)).2 DATA_START (index_region_a s) = a.
Proof.
  destruct (example_entry CNone) as (s & e & a & Hok & Hk & _ & Ha & _). exists s, a. split; [by rewrite Hk|].
  split; [exact Ha|]. apply (rebuild_is_incremental s a Hok Ha).
Defined.

Lemma delete_succeeds_witness : ∃ s s', view s = {["a" := (sample, [])]} ∧ run (OpDelete "a") s = (s', Ok tt) ∧ view s' = ∅.
Proof.
  destruct (scenario_exists CNone) as (s0 & s1 & s2 & [_ _ Hok1 _ Hv1 _ _ _ _ _ _ _ _ _]).
  destruct (delete_succeeds s1 "a" Hok1) as (s' & Hr & _ & Hv). exists s1, s'.
  split; [exact Hv1|split; [exact Hr|]]. by rewrite Hv Hv1 delete_singleton_eq.
Defined.

Lemma put_succeeds_witness : ∃ s s', run (OpPut 0 "a" sample Overwrite) s = (s', Ok tt) ∧
  view s' = <["a" := (sample, [])]> (view s).
Proof.
  destruct (example_store CNone) as (f & s & _ & [Hok _ He (d & b & Hs)]).
  assert (allocator (inner s) = Some (alloc_new DATA_START 33554432 BLOCK_ALIGNMENT)) as Ha by by rewrite Hs.
  assert (key_len "a" <= max_key_length (inner s)) as Hk by by rewrite Hs.
  assert (num_blocks (zlen (choose_payload (compression (inner s)) sample).1) * 4096 <= 33546240) as Hr
    by by rewrite Hs; vm_compute.
  destruct (put_succeeds s 0 "a" sample _ (8192, 33546240) Hok ltac:(by vm_compute) ltac:(by vm_compute)
    (ideal_env_faults _ He) ltac:(done) Hk Ha ltac:(vm_compute; by left) Hr) as (s' & Hp & _ & Hv).
  exists s, s'. by split.
Defined.
