(* ===== verification/Reading.v ===== *)
(** * What readers see

    Full and ranged reads, listings and embedded metadata against the abstract
    store [view s]. *)

From S2P Require Import Prelude.
From S2P Require Import Config.
From S2P Require Import Device.
From S2P Require Import Allocator.
From S2P Require Import Extent.
From S2P Require Import Concrete.
From S2P Require Import Streaming.
From S2P Require Import Index.
From S2P Require Import Superblock.
From S2P Require Import Inner.
From S2P Require Import InnerFacts.
From S2P Require Import RawStore.
From S2P Require Import StoreFacts.
From S2P Require Import Flush.
From S2P Require Import StoreTools.
From S2P Require Import StoreMeta.
From S2P Require Import ObjectStoreApi.
From S2P Require Import Multipart.
From S2P Require Import ApiFacts.
From S2P Require Import MultipartFacts.
From S2P Require Import GetFacts.
From S2P Require Import Behaviour.
From S2P Require Import History.
From S2P Require Import Instances.
From S2P Require Import Scenario.

Section reading.
Context `{Crc32cLaws, CodecLaws, BincodeShardLaws, BincodeSuperblockLaws, HashMapOrderLaws, ObjectPath,
  StreamDecoder, !StreamDecoderLaws}.
Implicit Types (s : RawObjectStore).

(** C30: A full get of an object sets up a stream that, polled to its end,
    gives exactly the body, and reports its size; it stops earlier only on a
    fault of the device.  The polls are bounded: the body's length plus two. *)
Theorem full_get_returns_body s k body metadata :
  store_ok s → view s !! k = Some (body, metadata) →
  match get_opts (inner s) k None with
  | Ok g => gr_range g = (0, zlen body) ∧ om_location (gr_meta g) = k ∧ om_size (gr_meta g) = zlen body ∧
      yields (io (inner s)) (collect (length body + 2) (io (inner s)) (gr_payload g)) body
  | Err err => ∃ e, err = to_os_error e ∧
      get_fault (inner s) (compression (inner s) ≠ Snappy) e
  | Panic => False
  end.
Proof.
  intros Hok Hv. eapply get_opts_full_spec; [apply so_inner, Hok|apply so_range, Hok|exact Hv].
Qed.

(** C31: A ranged get returns the requested slice of the body, clipped to it,
    with the range it reports; it fails only on a device fault, or when the
    object is stored compressed and larger than the limit for ranged reads. *)
Theorem ranged_get_slices s k body metadata r :
  store_ok s → view s !! k = Some (body, metadata) → request_ok r →
  let '(start, end_) := resolve_range r (zlen body) in
  0 <= start <= end_ ∧ end_ <= zlen body ∧
  match get_opts (inner s) k (Some r) with
  | Ok g => gr_payload g = Once (ztake (end_ - start) (zdrop start body)) ∧ gr_range g = (start, end_) ∧
      om_location (gr_meta g) = k ∧ om_size (gr_meta g) = zlen body
  | Err err => ∃ e, err = to_os_error e ∧ range_fault (inner s) k e
  | Panic => False
  end.
Proof.
  intros Hok Hv Hreq. pose proof (resolve_range_ok r (zlen body) Hreq (zlen_nonneg _)) as Hrr.
  pose proof (get_ranged_spec _ (inner s) k body metadata r (so_inner _ Hok) (so_range _ Hok) Hv Hreq) as Hg.
  rewrite /get_opts. destruct (resolve_range r (zlen body)) as [start end_]. destruct Hrr as [? ?].
  split; [done|split; [done|]]. destruct (get_ranged _ k r); simpl; eauto.
Qed.

(** The metadata appended to an object is read back exactly. *)
Theorem metadata_read_back s k body metadata :
  store_ok s → view s !! k = Some (body, metadata) →
  match get_metadata (inner s) k with
  | Ok m => m = metadata
  | Err err => range_fault (inner s) k err
  | Panic => False
  end.
Proof. intros Hok Hv. eapply get_metadata_spec; [apply so_inner, Hok|apply so_range, Hok|exact Hv]. Qed.

(** C34: A listing names every visible object under the prefix exactly once,
    in key order, with the size of its body. *)
Theorem listing_complete s prefix :
  store_ok s →
  StronglySorted (by_path fi_key) (list_full (inner s) prefix) ∧ NoDup (fi_key <$> list_full (inner s) prefix) ∧
  ∀ k n, (∃ i, i ∈ list_full (inner s) prefix ∧ fi_key i = k ∧ fi_body_size i = n) ↔
    listed prefix k ∧ ∃ body metadata, view s !! k = Some (body, metadata) ∧ n = zlen body.
Proof. intros Hok. eapply list_full_spec; [apply so_inner, Hok|apply so_range, Hok]. Qed.
End reading.

(** ** Readers on the example store *)

Lemma example_view (c : Compression) : ∃ s, store_ok s ∧ view s !! "a" = Some (sample, []).
Proof.
  destruct (scenario_exists c) as (s0 & s1 & s2 & Hs). exists s1.
  rewrite (sc_put_view _ _ _ _ Hs). split; [apply (sc_put_ok _ _ _ _ Hs)|by rewrite lookup_singleton_eq].
Qed.

Lemma full_get_returns_body_witness : ∃ s, store_ok s ∧ view s !! "a" = Some (sample, []) ∧
  match get_opts (inner s) "a" None with
  | Ok g => gr_range g = (0, 6000) ∧
      yields (io (inner s)) (collect (length sample + 2) (io (inner s)) (gr_payload g)) sample
  | Err err => ∃ e, err = to_os_error e ∧ get_fault (inner s) (compression (inner s) ≠ Snappy) e
  | Panic => False
  end.
Proof.
  destruct (example_view Zstd) as (s & Hok & Hv). exists s. split; [exact Hok|split; [exact Hv|]].
  pose proof (full_get_returns_body s "a" sample [] Hok Hv) as Hg.
  destruct (get_opts (inner s) "a" None) as [g|e|]; [|exact Hg|exact Hg]. by destruct Hg as (Hr & _ & _ & Hy).
Defined.

Lemma ranged_get_slices_witness : ∃ s, store_ok s ∧
  match get_opts (inner s) "a" (Some (Bounded 2999 3001)) with
  | Ok g => gr_payload g = Once [Byte.x61; Byte.x62]
  | Err err => ∃ e, err = to_os_error e ∧ range_fault (inner s) "a" e
  | Panic => False
  end.
Proof.
  destruct (example_view CNone) as (s & Hok & Hv). exists s. split; [exact Hok|].
  destruct (ranged_get_slices s "a" sample [] (Bounded 2999 3001) Hok Hv) as (_ & _ & Hg); [by vm_compute|].
  destruct (get_opts (inner s) "a" _) as [g|e|]; [|exact Hg|exact Hg]. by destruct Hg as (-> & _).
Defined.

Lemma metadata_read_back_witness : ∃ s, store_ok s ∧
  match get_metadata (inner s) "a" with
  | Ok m => m = []
  | Err err => range_fault (inner s) "a" err
  | Panic => False
  end.
Proof.
  destruct (example_view CNone) as (s & Hok & Hv). exists s. split; [exact Hok|].
  apply (metadata_read_back s "a" sample [] Hok Hv).
Defined.

Lemma listing_complete_witness : ∃ s, store_ok s ∧
  ∃ i, i ∈ list_full (inner s) None ∧ fi_key i = "a" ∧ fi_body_size i = 6000.
Proof.
  destruct (example_view CNone) as (s & Hok & Hv). exists s. split; [exact Hok|].
  destruct (listing_complete s None Hok) as (_ & _ & Hl). apply Hl.
  split; [by vm_compute|]. exists sample, []. by split.
Defined.
