(* ===== verification/Integrity.v ===== *)
(** * Formats, types, bounds and error reports

    What the stored formats guarantee, the index as a description of the objects, the
    loops' bounds, and exactly when the writing calls fail. *)

From S2P Require Import Prelude.
From S2P Require Import Config.
From S2P Require Import Device.
From S2P Require Import Allocator.
From S2P Require Import Extent.
From S2P Require Import Concrete.
From S2P Require Import Streaming.
From S2P Require Import Index.
From S2P Require Import Superblock.
From S2P Require Import Inner.
From S2P Require Import InnerFacts.
From S2P Require Import RawStore.
From S2P Require Import StoreFacts.
From S2P Require Import Flush.
From S2P Require Import FormatFacts.
From S2P Require Import StoreTools.
From S2P Require Import StoreMeta.
From S2P Require Import ObjectStoreApi.
From S2P Require Import Multipart.
From S2P Require Import ApiFacts.
From S2P Require Import MultipartFacts.
From S2P Require Import Changes.
From S2P Require Import Behaviour.
From S2P Require Import History.
From S2P Require Import Instances.
From S2P Require Import Scenario.

(** The compression codes in a superblock and the names on the command
    line denote exactly the thirteen settings, each by one code and by one
    name up to ASCII case; everything else is refused. *)
Theorem compression_names v s c :
  (from_u8 v = Ok c ↔ v = compression_as_u8 c) ∧
  (from_str_name s = Ok c ↔ to_ascii_lowercase s = as_str c).
Proof.
  split; split.
  - rewrite /from_u8. repeat case_match; by intros [= <-].
  - intros ->. by destruct c.
  - rewrite /from_str_name. by repeat case_decide; intros [= <-].
  - intros Hs. rewrite /from_str_name Hs. by destruct c.
Qed.

(** Rounding up to the block size gives the least multiple of 4096 that is
    not below the value, and wraps to zero in the last block of [u64]. *)
Theorem align_up_exact v :
  is_u64 v →
  if v + 4095 <? two64
  then v <= align_up v BLOCK_ALIGNMENT ∧ align_up v BLOCK_ALIGNMENT mod 4096 = 0 ∧
    ∀ w, v <= w → w mod 4096 = 0 → align_up v BLOCK_ALIGNMENT <= w
  else align_up v BLOCK_ALIGNMENT = 0.
Proof.
  intros Hv. assert (align_up v BLOCK_ALIGNMENT = (v + 4095) mod two64 / 4096 * 4096) as Ha.
  { rewrite /align_up /BLOCK_ALIGNMENT. change (4096 -! 1) with 4095.
    assert (v +! 4096 -! 1 = (v + 4095) mod two64) as ->.
    { rewrite /wsub /wadd /wrap64 Zminus_mod_idemp_l. f_equal. lia. }
    replace (u64_max - 4095) with (Z.ldiff (Z.ones 64) (Z.ones 12)) by done.
    rewrite Z.ldiff_land Z.land_assoc (Z.land_ones _ 64) // -Z.ldiff_land Z.ldiff_ones_r //.
    change (2 ^ 64) with two64. rewrite Z.mod_mod // Z.shiftl_mul_pow2 // Z.shiftr_div_pow2 //. }
  destruct (v + 4095 <? two64) eqn:E; rewrite Ha.
  - apply Z.ltb_lt in E. rewrite Z.mod_small; [|u64]. pose proof (Z.div_mod (v + 4095) 4096 ltac:(done)).
    pose proof (Z.mod_pos_bound (v + 4095) 4096 ltac:(done)). split_and!; [lia|by apply Z_mod_mult|].
    intros w Hw Hm. pose proof (Z.div_mod w 4096 ltac:(done)). nia.
  - apply Z.ltb_ge in E. rewrite -(Z.mod_unique (v + 4095) two64 1 (v + 4095 - two64)); [|left; u64|lia].
    rewrite Z.div_small; [done|u64].
Qed.

Section formats.
Context `{Crc32cLaws, CodecLaws, BincodeShardLaws, BincodeSuperblockLaws, HashMapOrderLaws, ObjectPath, StreamDecoder,
  TempFilesLaws}.
Implicit Types (s : RawObjectStore) (o : Op).

(** A superblock written to a block is read back: same fields, with the
    checksum the writer computed; and it takes exactly one block. *)
Theorem superblock_round_trip sb :
  sb_valid sb → ∃ b c, sb_to_bytes sb = Ok b ∧ zlen b = SUPERBLOCK_SIZE ∧ sb_from_bytes b = Ok (with_checksum c sb).
Proof. apply sb_round_trip. Qed.

(** Only a well-formed superblock is accepted: the magic, version 4, 256
    shard slots, every field in its range, and a checksum that is the CRC of
    the block with its checksum field zeroed. *)
Theorem superblock_checked buf sb :
  sb_from_bytes buf = Ok sb →
  sb_valid sb ∧ ∃ off check_buf,
    put_u32 off 0 (padded_buf (ztake SUPERBLOCK_SIZE buf)) = Ok check_buf ∧
    crc32c check_buf = superblock_checksum sb.
Proof. apply sb_from_bytes_sound. Qed.

(** A shard of the index is read back from its bytes, and bytes whose CRC
    is not the recorded one are refused. *)
Theorem shard_serialisation sh data crc crc' :
  shard_in_range sh → shard_to_bytes sh = Ok (data, crc) →
  shard_from_bytes data crc' = if crc =? crc' then Ok sh else Err IndexCorrupt.
Proof.
  intros Hr Hb. pose proof (shard_round_trip sh data crc Hr Hb) as Hrt.
  destruct (crc =? crc') eqn:E; [by apply Z.eqb_eq in E as <-|].
  rewrite /shard_to_bytes in Hb. destruct (ser_shard sh); [|done]. injection Hb as <- <-.
  by rewrite /shard_from_bytes E.
Qed.

(** What is stored for a payload decodes to it: either the payload as it
    is, or its compressed form, recorded with the payload's size and strictly
    shorter. *)
Theorem stored_payload_decodes c payload w u :
  payload ≠ [] → choose_payload c payload = (w, u) →
  w ≠ [] ∧
  if 0 <? u then u = zlen payload ∧ zlen w < zlen payload ∧ decompress c w = Ok payload else w = payload.
Proof.
  intros Hne Hc. pose proof (choose_payload_spec c payload Hne) as Hs. rewrite Hc in Hs.
  destruct Hs as (Hw & _ & [[-> ->]|(-> & Hu & Hd)]); [done|]. split; [done|].
  rewrite (proj2 (Z.ltb_lt _ _) Hu). split_and!; [done| |done].
  rewrite /choose_payload in Hc. destruct (negb _ && _); [|injection Hc as _ Hz; lia].
  destruct (compress c payload) as [v|]; [|injection Hc as _ Hz; lia].
  destruct (zlen v <? zlen payload) eqn:E; [|injection Hc as _ Hz; lia]. injection Hc as <-. by apply Z.ltb_lt in E.
Qed.

(** C36: The index tells the truth about the objects.  After any history of
    calls on a formatted store, failed flushes included, there is an entry for
    exactly the objects the same history leaves in the abstract store, and
    each entry gives the sizes of its object's body and metadata, the padded
    size and CRC of the stored bytes, and a transaction not beyond the clock.
    Every field of the entries and tombstones, and the clock, is in the range
    of its Rust type. *)
Theorem index_describes_objects opts f f' s os s' :
  options_ok opts → block_device f = false → format_with_options opts f = (f', Ok s) → calls s os s' →
  is_u64 (txn_id (superblock (inner s'))) ∧
  map_Forall (λ _ t, tombstone_in_range t) (tombstones (index (inner s'))) ∧
  ∃ m, spec_trace ∅ os m ∧ ∀ k,
    match files (index (inner s')) !! k with
    | None => m !! k = None
    | Some e => ∃ body md, m !! k = Some (body, md) ∧ entry_in_range e ∧
        body_size e = zlen body ∧ Z.min (i_meta_len e) (logical_size e) = zlen md ∧
        i_padded_size e = num_blocks (i_size e) * 4096 ∧
        i_crc32c e = Extent.crc32c (raw_payload (io (inner s')) e) ∧
        i_created_txn e <= txn_id (superblock (inner s'))
    end.
Proof.
  intros Ho Hb Hf Hc. destruct (formatted_calls opts f f' s os s') as [Hw Hsp]; [done..|].
  split; [by apply working_clock|]. split; [by apply index_in_range_iff, wk_range|].
  exists (view s'). split; [done|]. intros k. rewrite /view contents_lookup.
  destruct (files (index (inner s')) !! k) as [e|] eqn:Hk; [|done].
  destruct (entry_in_index _ _ k e (wk_inner _ Hw) (wk_range _ Hw) Hk) as (Her & Heo & Hlog).
  pose proof (er_meta _ Her) as Hml. pose proof (body_size_bounds e ltac:(lia) ltac:(lia)) as Hbs.
  pose proof (logical_size_data _ _ _ Heo) as Hld. eexists _, _. split; [done|]. split; [done|].
  rewrite !zlen_ztake ?zlen_zdrop; [|lia..]. rewrite -Hld. rewrite /body_size /sat_sub in Hbs |- *.
  split_and!; [lia|lia|apply (eo_padded _ _ _ Heo)|apply (eo_crc _ _ _ Heo)|by apply (wk_txn _ Hw k)].
Qed.

(** A put fails only for a reason of its own: an empty payload, a key that
    is too long, no free region large enough for the padded extent, or an I/O
    error of the device. *)
Theorem put_failures s now k data s' e :
  store_ok s → zlen data < 2 ^ 63 → run (OpPut now k data Overwrite) s = (s', Err e) →
  ∃ err, e = to_os_error err ∧ put_error (inner s) k data err.
Proof.
  intros Hok Hlen. pose proof (do_put_spec now k data 0 (inner s) (so_inner _ Hok) Hlen) as Hp.
  rewrite /run /run_inner /sm_zoom /put_opts /os_err /do_put.
  destruct (do_put_with_meta now k data 0 (inner s)) as [st' [[]|err|]]; [done| |done].
  intros [= <- <-]. exists err. by destruct Hp.
Qed.

(** Updating the metadata of an object keeps its body and fails only for
    a reason of its own: metadata above 65535 bytes, a missing object, an
    object that would be empty, no room, or a fault of the device. *)
Theorem update_failures s now k md s' e :
  store_ok s → allowed (OpUpdateMeta now k md) s → run (OpUpdateMeta now k md) s = (s', Err e) →
  view s' = view s ∧ ∃ err, e = to_os_error err ∧ update_error (inner s) k md err.
Proof.
  intros Hok [[Hnow Hlen] _].
  pose proof (update_metadata_spec _ (inner s) now k md (so_inner _ Hok) (so_range _ Hok) (store_clock _ Hok) Hnow) as Hu.
  ospecialize* Hu.
  { intros en Hk. destruct (entry_in_index _ _ k en (so_inner _ Hok) (so_range _ Hok) Hk) as (_ & Hoe & _).
    rewrite (logical_size_data _ _ _ Hoe).
    specialize (Hlen (split_at (body_size en) (entry_data (compression (inner s)) (io (inner s)) en))).
    rewrite full_split in Hlen. apply Hlen. by rewrite /view contents_lookup Hk. }
  rewrite /run /run_inner /sm_zoom /os_err.
  destruct (update_metadata now k md (inner s)) as [st' [[]|err|]]; [done| |done].
  intros [= <- <-]. destruct Hu as [[_ Hc] He]. split; [done|]. by exists err.
Qed.
End formats.

(** ** The loops' bounds *)

Section loops.
Context `{Crc32cLaws}.

(** The chunk loop of a large put ends: it makes at most one iteration per
    started chunk, so any larger bound computes the same result. *)
Theorem put_loop_terminates n k chunk payload pos crc w :
  0 < chunk → zlen payload - pos <= Z.of_nat n * chunk →
  put_chunks (n + k) chunk payload pos crc w = put_chunks n chunk payload pos crc w.
Proof.
  intros Hc. revert pos crc w. induction n as [|n IH]; intros pos crc w Hn; simpl.
  - destruct k; simpl; [done|]. destruct (pos <? zlen payload) eqn:E; [apply Z.ltb_lt in E; lia|done].
  - destruct (pos <? zlen payload); [|done]. rewrite /sm_bind. destruct (write_chunk _ w) as [w' [u|e|]]; [|done..].
    apply IH. lia.
Qed.

(** The block-copy loop ends: at most one iteration per started batch. *)
Theorem copy_loop_terminates n k src dst total copied d :
  total - copied <= Z.of_nat n * COPY_BATCH_SIZE →
  copy_batches (n + k) src dst total copied d = copy_batches n src dst total copied d.
Proof.
  change COPY_BATCH_SIZE with 1048576.
  revert copied d. induction n as [|n IH]; intros copied d Hn; simpl.
  - destruct k; simpl; [done|]. destruct (copied <? total) eqn:E; [apply Z.ltb_lt in E; lia|done].
  - destruct (copied <? total) eqn:E; [|done]. rewrite /sm_bind /sm_lift.
    destruct (ok_or (checked_add src copied) _); [|done..].
    destruct (ok_or (checked_add dst copied) _); [|done..].
    destruct (pread _ _ d); [|done..]. destruct (pwrite _ _ d) as [d' [u|e|]]; [|done..]. apply IH.
    change COPY_BATCH_SIZE with 1048576. lia.
Qed.
End loops.

(** ** The overlap scan of open *)

(** Three extents: [b] and [c] both lie inside [a], apart from each other. *)
Definition nested_entry (offset padded : Z) : ExtentInfo := mkExtentInfo offset 4000 padded 0 1 0 0 0.
Definition nested_index : DeviceIndex :=
  mkIndex (<["a" := nested_entry 8192 40960]> (<["b" := nested_entry 12288 4096]> {["c" := nested_entry 20480 4096]})) ∅.

(** The overlap validation of open compares neighbours only: of three
    entries where the first covers the other two, the second is removed and
    the third is kept, although it shares its bytes with the first. *)
Theorem overlap_scan_incomplete : ∃ a c,
  files (validate_entries (2 ^ 30) nested_index).1 !! "a" = Some a ∧
  files (validate_entries (2 ^ 30) nested_index).1 !! "b" = None ∧
  files (validate_entries (2 ^ 30) nested_index).1 !! "c" = Some c ∧
  covers (extent_of a) (i_offset c).
Proof. exists (nested_entry 8192 40960), (nested_entry 20480 4096). by vm_compute. Qed.

(** ** Examples *)

Lemma superblock_new_valid :
  sb_valid (superblock_new (64 * 1024 * 1024) 4096 33554432 INDEX_REGION_SIZE 1024 Zstd).
Proof.
  split; try done. split; try done; try (by repeat constructor).
Qed.

Lemma superblock_round_trip_witness : ∃ b c,
  sb_to_bytes (superblock_new (64 * 1024 * 1024) 4096 33554432 INDEX_REGION_SIZE 1024 Zstd) = Ok b ∧
  zlen b = SUPERBLOCK_SIZE ∧ sb_from_bytes b =
    Ok (with_checksum c (superblock_new (64 * 1024 * 1024) 4096 33554432 INDEX_REGION_SIZE 1024 Zstd)).
Proof. exact (superblock_round_trip _ superblock_new_valid). Defined.

Lemma superblock_checked_witness : ∃ b sb, sb_from_bytes b = Ok sb ∧ sb_valid sb.
Proof.
  destruct (sb_round_trip _ superblock_new_valid) as (b & c & _ & _ & Hb).
  exists b. eexists. split; [exact Hb|]. apply (superblock_checked b _ Hb).
Defined.

Lemma shard_serialisation_witness : ∃ data crc, shard_to_bytes (mkShard ∅ ∅) = Ok (data, crc) ∧
  shard_from_bytes data crc = Ok (mkShard ∅ ∅) ∧ shard_from_bytes data (crc + 1) = Err IndexCorrupt.
Proof.
  assert (shard_in_range (mkShard ∅ ∅)) as Hr by (split; apply map_Forall_empty).
  destruct (shard_to_bytes (mkShard ∅ ∅)) as [[data crc]|e|] eqn:Hb; [|done..].
  exists data, crc. split; [done|].
  pose proof (shard_serialisation _ data crc crc Hr Hb) as H1.
  pose proof (shard_serialisation _ data crc (crc + 1) Hr Hb) as H2.
  rewrite Z.eqb_refl in H1. rewrite (proj2 (Z.eqb_neq _ _)) in H2; [by split|lia].
Defined.

(** 4200 equal bytes are stored as seven. *)
Lemma stored_payload_decodes_witness : ∃ w,
  choose_payload Zstd (replicate 4200 Byte.x61) = (w, 4200) ∧ zlen w < 4200 ∧
  decompress Zstd w = Ok (replicate 4200 Byte.x61).
Proof.
  destruct (choose_payload Zstd (replicate 4200 Byte.x61)) as [w u] eqn:Hc.
  destruct (stored_payload_decodes Zstd (replicate 4200 Byte.x61) w u ltac:(done) Hc) as [_ Hd].
  assert (u = 4200) as -> by (apply (f_equal snd) in Hc; by vm_compute in Hc).
  exists w. split; [reflexivity|]. destruct Hd as (Hz & Hl & Hd). rewrite -Hz in Hl. split; [exact Hl|exact Hd].
Defined.

Lemma index_describes_objects_witness : ∃ s e, files (index (inner s)) !! "a" = Some e ∧
  tombstones (index (inner s)) = ∅ ∧ ∃ m, spec_trace ∅ [(put_a, Ok tt)] m ∧
  ∃ body md, m !! "a" = Some (body, md) ∧ entry_in_range e ∧ body_size e = zlen body.
Proof.
  destruct (scenario_exists CNone) as (s0 & s1 & s2 & Hs). destruct (sc_entry _ _ _ _ Hs) as [e He].
  assert (files (index (inner s1)) !! "a" = Some e) as Hk by (rewrite He; apply lookup_singleton_eq).
  destruct (sc_formatted _ _ _ _ Hs) as [f Hf].
  destruct (index_describes_objects (example_options CNone) example_file f s0 _ s1 (example_options_ok CNone) eq_refl Hf
    (scenario_put _ _ _ _ Hs)) as (_ & _ & m & Hsp & Hall).
  specialize (Hall "a"). rewrite Hk in Hall. destruct Hall as (body & md & Hm & Her & Hb & _).
  exists s1, e. split; [exact Hk|]. split; [rewrite He; reflexivity|]. exists m. split; [exact Hsp|].
  exists body, md. split; [exact Hm|]. split; [exact Her|exact Hb].
Defined.

Lemma put_failures_witness : ∃ s err, store_ok s ∧
  (run (OpPut 0 "a" [] Overwrite) s).2 = Err (to_os_error err) ∧ put_error (inner s) "a" [] err.
Proof.
  destruct (example_store CNone) as (f & s & _ & Hs). pose proof (fs_ok _ _ Hs) as Hok.
  destruct (fs_shape _ _ Hs) as (d & b & Heq).
  destruct (run (OpPut 0 "a" [] Overwrite) s) as [s' r] eqn:Hr.
  assert (r = Err (OsGeneric EmptyPayload)) as -> by by (rewrite Heq in Hr; injection Hr as _ <-).
  destruct (put_failures s 0 "a" [] s' _ Hok ltac:(by vm_compute) Hr) as (err & He & Hp).
  exists s, err. split; [exact Hok|]. split; [by rewrite Hr -He|exact Hp].
Defined.

Lemma update_failures_witness : ∃ s err, store_ok s ∧
  (run (OpUpdateMeta 0 "b" [Byte.x00]) s).2 = Err (to_os_error err) ∧ update_error (inner s) "b" [Byte.x00] err.
Proof.
  destruct (example_store CNone) as (f & s & _ & Hs). pose proof (fs_ok _ _ Hs) as Hok.
  destruct (fs_shape _ _ Hs) as (d & b & Heq).
  assert (allowed (OpUpdateMeta 0 "b" [Byte.x00]) s) as Hal.
  { split; [|done]. split; [by vm_compute|]. intros c Hc. by rewrite Heq in Hc. }
  destruct (run (OpUpdateMeta 0 "b" [Byte.x00]) s) as [s' r] eqn:Hr.
  assert (r = Err (OsNotFound "b" (NotFound "b"))) as -> by by (rewrite Heq in Hr; injection Hr as _ <-).
  destruct (update_failures s 0 "b" [Byte.x00] s' _ Hok Hal Hr) as (_ & err & He & Hp).
  exists s, err. split; [exact Hok|]. split; [by rewrite Hr -He|exact Hp].
Defined.

Lemma align_up_exact_witness : align_up 4097 BLOCK_ALIGNMENT mod 4096 = 0 ∧ align_up u64_max BLOCK_ALIGNMENT = 0.
Proof.
  split.
  - apply (align_up_exact 4097 ltac:(by vm_compute)).
  - apply (align_up_exact u64_max ltac:(by vm_compute)).
Defined.

Lemma put_loop_terminates_witness :
  put_chunks 7 1000 sample 0 0 (writer_new (blank_device 65536 false) 8192) =
  put_chunks 6 1000 sample 0 0 (writer_new (blank_device 65536 false) 8192).
Proof. exact (put_loop_terminates 6 1 1000 sample 0 0 _ ltac:(done) ltac:(by vm_compute)). Defined.

Lemma copy_loop_terminates_witness :
  copy_batches 5 8192 16384 8192 0 (blank_device 65536 false) =
  copy_batches 1 8192 16384 8192 0 (blank_device 65536 false).
Proof. exact (copy_loop_terminates 1 4 8192 16384 8192 0 _ ltac:(by vm_compute)). Defined.
