(* ===== verification/Tlv.v ===== *)
(** * Object metadata on disk ([shardedobjstr/src/tlv.rs])

    A metadata map is stored as tag-length-value entries behind the body.
    Rust strings are byte strings that are valid UTF-8; [from_utf8] is the
    standard library's check, written out here. *)

From S2P Require Import Prelude.
From S2P Require Import StoreTools.

(** ** UTF-8 *)

Definition in_range (lo hi : Z) (b : byte) : bool := (lo <=? byte_to_Z b) && (byte_to_Z b <=? hi).
Definition continuation (b : byte) : bool := in_range 128 191 b.

(** The second byte a three-byte sequence starting with [b0] allows. *)
Definition second_of_three (b0 b1 : byte) : bool :=
  if byte_to_Z b0 =? 224 then in_range 160 191 b1
  else if byte_to_Z b0 =? 237 then in_range 128 159 b1
  else in_range 225 239 b0 && continuation b1.
Definition second_of_four (b0 b1 : byte) : bool :=
  if byte_to_Z b0 =? 240 then in_range 144 191 b1
  else if byte_to_Z b0 =? 244 then in_range 128 143 b1
  else in_range 241 243 b0 && continuation b1.

Fixpoint utf8_valid (l : list byte) : bool :=
  match l with
  | [] => true
  | b0 :: l1 =>
    if byte_to_Z b0 <? 128 then utf8_valid l1
    else match l1 with
    | [] => false
    | b1 :: l2 =>
      if in_range 194 223 b0 then continuation b1 && utf8_valid l2
      else match l2 with
      | [] => false
      | b2 :: l3 =>
        if in_range 224 239 b0 then second_of_three b0 b1 && continuation b2 && utf8_valid l3
        else match l3 with
        | [] => false
        | b3 :: l4 =>
          in_range 240 244 b0 && second_of_four b0 b1 && continuation b2 && continuation b3 && utf8_valid l4
        end
      end
    end
  end.

(** [str::from_utf8(b).unwrap_or_default()] *)
Definition utf8_or_default (b : list byte) : string :=
  if utf8_valid b then String.string_of_list_byte b else "".

(** A Rust [String]. *)
Definition is_str (s : string) : Prop := utf8_valid (as_bytes s) = true.

(** ** Tags and tables *)

Definition LOOKUP_BIT : Z := 128.
Definition TAG_CONTENT_TYPE : Z := 1.
Definition TAG_CACHE_CONTROL : Z := 2.
Definition TAG_CONTENT_DISPOSITION : Z := 3.
Definition TAG_CONTENT_ENCODING : Z := 4.
Definition TAG_CONTENT_LANGUAGE : Z := 5.
Definition TAG_EXPIRES : Z := 6.
Definition TAG_ETAG : Z := 7.
Definition TAG_CUSTOM : Z := 128.

Definition field_name_to_tag (name : string) : option Z :=
  if decide (name = "content-type") then Some TAG_CONTENT_TYPE
  else if decide (name = "cache-control") then Some TAG_CACHE_CONTROL
  else if decide (name = "content-disposition") then Some TAG_CONTENT_DISPOSITION
  else if decide (name = "content-encoding") then Some TAG_CONTENT_ENCODING
  else if decide (name = "content-language") then Some TAG_CONTENT_LANGUAGE
  else if decide (name = "expires") then Some TAG_EXPIRES
  else if decide (name = "etag") then Some TAG_ETAG
  else None.

Definition tag_to_field_name (tag : Z) : option string :=
  if tag =? TAG_CONTENT_TYPE then Some "content-type"
  else if tag =? TAG_CACHE_CONTROL then Some "cache-control"
  else if tag =? TAG_CONTENT_DISPOSITION then Some "content-disposition"
  else if tag =? TAG_CONTENT_ENCODING then Some "content-encoding"
  else if tag =? TAG_CONTENT_LANGUAGE then Some "content-language"
  else if tag =? TAG_EXPIRES then Some "expires"
  else if tag =? TAG_ETAG then Some "etag"
  else None.

Definition CT_VALUES : list string :=
  ["application/octet-stream"; "text/plain"; "text/html"; "text/css"; "text/csv"; "application/json";
   "application/xml"; "image/png"; "image/jpeg"; "image/gif"; "image/webp"; "image/svg+xml";
   "application/pdf"; "application/zip"; "video/mp4"; "audio/mpeg"; "application/javascript"; "text/xml";
   "application/x-www-form-urlencoded"; "multipart/form-data"; "application/gzip"; "application/x-tar";
   "image/tiff"; "audio/wav"; "video/webm"; "application/wasm"; "font/woff2"; "font/woff";
   "text/plain; charset=utf-8"; "application/json; charset=utf-8"; "text/html; charset=utf-8";
   "binary/octet-stream"].

Definition CC_VALUES : list string :=
  ["no-cache"; "no-store"; "no-cache, no-store"; "private"; "public"; "must-revalidate"; "max-age=0";
   "max-age=60"; "max-age=300"; "max-age=3600"; "max-age=86400"; "max-age=604800"; "max-age=2592000";
   "max-age=31536000"; "public, max-age=3600"; "public, max-age=86400"; "public, max-age=31536000";
   "public, max-age=31536000, immutable"; "private, no-cache"; "no-store, must-revalidate"].

Definition CE_VALUES : list string := ["gzip"; "br"; "deflate"; "identity"; "zstd"; "compress"].

Definition value_table (tag : Z) : option (list string) :=
  if tag =? TAG_CONTENT_TYPE then Some CT_VALUES
  else if tag =? TAG_CACHE_CONTROL then Some CC_VALUES
  else if tag =? TAG_CONTENT_ENCODING then Some CE_VALUES
  else None.

Definition value_lookup (tag : Z) (value : string) : option Z :=
  table ← value_table tag;
  '(i, _) ← list_find (λ v, v = value) table;
  Some (Z.of_nat i mod 256).

Definition value_from_lookup (tag idx : Z) : option string :=
  table ← value_table tag; table !! Z.to_nat idx.

Definition MAX_FIELD_LEN : Z := u16_max.

Record MetadataTooLarge : Type := mkTooLarge {
  tl_field : string;
  tl_len : Z;
  tl_max : Z;
}.

(** ** Encoding *)

(** [len as u16] little-endian, and the bytes. *)
Definition field_bytes (b : list byte) : list byte := to_le_bytes 2 (zlen b mod 2 ^ 16) ++ b.

Definition check_len (key : string) (b : list byte) : Res MetadataTooLarge unit :=
  if MAX_FIELD_LEN <? zlen b then Err (mkTooLarge key (zlen b) MAX_FIELD_LEN) else Ok tt.

Fixpoint strip_prefix (p s : string) : option string :=
  match p, s with
  | EmptyString, _ => Some s
  | String a p', String b s' => if decide (a = b) then strip_prefix p' s' else None
  | _, _ => None
  end.

Definition CUSTOM_PREFIX : string := "x-amz-meta-".

(** One iteration of the loop; an unrecognised key writes nothing. *)
Definition encode_entry (kv : string * string) : Res MetadataTooLarge (list byte) :=
  let '(key, value) := kv in
  match field_name_to_tag key with
  | Some tag =>
    match value_lookup tag value with
    | Some idx => Ok [byte_of_Z (Z.lor tag LOOKUP_BIT); byte_of_Z idx]
    | None =>
      let vb := as_bytes value in
      _ ← check_len key vb;
      Ok (byte_of_Z tag :: field_bytes vb)
    end
  | None =>
    match strip_prefix CUSTOM_PREFIX key with
    | Some suffix =>
      let sb := as_bytes suffix in
      _ ← check_len key sb;
      let vb := as_bytes value in
      _ ← check_len key vb;
      Ok (byte_of_Z TAG_CUSTOM :: field_bytes sb ++ field_bytes vb)
    | None => Ok []
    end
  end.

Fixpoint encode_entries (l : list (string * string)) : Res MetadataTooLarge (list byte) :=
  match l with
  | [] => Ok []
  | kv :: l' => b ← encode_entry kv; rest ← encode_entries l'; Ok (b ++ rest)
  end.

Definition encode_metadata (meta : gmap string string) : Res MetadataTooLarge (list byte) :=
  encode_entries (sort_by_path fst (map_to_list meta)).

(** ** Decoding *)

(** A length and that many bytes; [None] when the input is too short. *)
Definition take_field (data : list byte) : option (list byte * list byte) :=
  if zlen data <? 2 then None
  else
    let len := from_le_bytes (ztake 2 data) in
    let rest := zdrop 2 data in
    if zlen rest <? len then None else Some (ztake len rest, zdrop len rest).

(** What one iteration finds after the tag byte: an entry to insert, if any,
    and what is left; [None] is the loop's [break]. *)
Definition decode_entry (tag_byte : Z) (data : list byte) : option (option (string * string) * list byte) :=
  if tag_byte =? TAG_CUSTOM then
    '(sb, data) ← take_field data;
    '(vb, data) ← take_field data;
    Some (Some (CUSTOM_PREFIX +:+ utf8_or_default sb, utf8_or_default vb), data)
  else if negb (Z.land tag_byte LOOKUP_BIT =? 0) then
    let tag := Z.land tag_byte 127 in
    match data with
    | [] => None
    | idx :: data =>
      let found := val ← value_from_lookup tag (byte_to_Z idx); name ← tag_to_field_name tag; Some (name, val) in
      Some (found, data)
    end
  else
    '(vb, data) ← take_field data;
    Some ((name ← tag_to_field_name tag_byte; Some (name, utf8_or_default vb)), data).

Definition insert_found (found : option (string * string)) (map : gmap string string) : gmap string string :=
  match found with Some (k, v) => <[k := v]> map | None => map end.

Fixpoint decode_loop (fuel : nat) (data : list byte) (map : gmap string string) : gmap string string :=
  match fuel, data with
  | S fuel', tag_byte :: data =>
    match decode_entry (byte_to_Z tag_byte) data with
    | None => map
    | Some (found, rest) => decode_loop fuel' rest (insert_found found map)
    end
  | _, _ => map
  end.

Definition decode_metadata (data : list byte) : gmap string string := decode_loop (length data) data ∅.

Example encode_example :
  encode_metadata {["content-type" := "text/plain"; "x-amz-meta-a" := "b"; "other" := "lost"]} =
  Ok (byte_of_Z 129 :: byte_of_Z 1 :: byte_of_Z 128 :: byte_of_Z 1 :: byte_of_Z 0 :: as_bytes "a" ++
      byte_of_Z 1 :: byte_of_Z 0 :: as_bytes "b").
Proof. by vm_compute. Qed.

(** ** Facts *)

(** The keys the format has an entry for. *)
Definition recognised (key : string) : bool :=
  match field_name_to_tag key, strip_prefix CUSTOM_PREFIX key with None, None => false | _, _ => true end.

Lemma take_field_bytes b rest : zlen b <= u16_max → take_field (field_bytes b ++ rest) = Some (b, rest).
Proof.
  intros Hb. pose proof (zlen_nonneg b). pose proof (zlen_nonneg rest).
  rewrite /take_field /field_bytes -app_assoc !zlen_app to_le_bytes_zlen.
  rewrite (proj2 (Z.ltb_ge _ _)); [|lia].
  assert (from_le_bytes (to_le_bytes 2 (zlen b mod 2 ^ 16)) = zlen b) as Hl.
  { rewrite (from_to_le_bytes 2); [|by apply (Z.mod_pos_bound _ (2 ^ 16))].
    apply Z.mod_small. unfold u16_max in Hb. lia. }
  rewrite (ztake_app_exact 2) ?to_le_bytes_zlen // (zdrop_app_exact 2) ?to_le_bytes_zlen // Hl.
  rewrite (proj2 (Z.ltb_ge _ _)); [|lia]. by rewrite (ztake_app_exact (zlen b)) // (zdrop_app_exact (zlen b)).
Qed.

Arguments field_bytes : simpl never.
Arguments encode_entry : simpl never.
Arguments decode_entry : simpl never.

Lemma check_len_ok key b u : check_len key b = Ok u → zlen b <= u16_max.
Proof. rewrite /check_len. destruct (_ <? _) eqn:E; [done|]. by apply Z.ltb_ge in E. Qed.

Lemma utf8_as_bytes s : is_str s → utf8_or_default (as_bytes s) = s.
Proof. rewrite /is_str /utf8_or_default. intros ->. apply String.string_of_list_byte_of_string. Qed.

Lemma strip_prefix_spec p s t : strip_prefix p s = Some t → s = p +:+ t.
Proof.
  revert s. induction p as [|a p IH]; intros s; [by intros [= ->]|].
  destruct s as [|b s]; [done|]. simpl. case_decide; [|done]. subst. intros Ht. by rewrite (IH s).
Qed.

Lemma custom_suffix_str t : is_str (CUSTOM_PREFIX +:+ t) → is_str t.
Proof. done. Qed.

Lemma tag_name key tag : field_name_to_tag key = Some tag → tag_to_field_name tag = Some key ∧ 1 <= tag <= 7.
Proof. rewrite /field_name_to_tag. repeat case_decide; by intros [= <-]; subst. Qed.

Lemma value_table_small tag table : value_table tag = Some table → (length table <= 32)%nat.
Proof. rewrite /value_table. repeat case_match; intros [= <-]; simpl; lia. Qed.

Lemma value_lookup_inv tag v idx :
  value_lookup tag v = Some idx → value_from_lookup tag idx = Some v ∧ 0 <= idx < 256.
Proof.
  rewrite /value_lookup /value_from_lookup. destruct (value_table tag) as [table|] eqn:Ht; [|done]. simpl.
  destruct (list_find _ table) as [[i x]|] eqn:Hf; [|done]. intros [= <-].
  apply list_find_Some in Hf as (Hi & -> & _). pose proof (lookup_lt_Some _ _ _ Hi).
  pose proof (value_table_small _ _ Ht). rewrite Z.mod_small; [|lia]. split; [|lia]. by rewrite Nat2Z.id.
Qed.

Lemma tag_byte tag : 1 <= tag <= 7 →
  byte_to_Z (byte_of_Z tag) = tag ∧ byte_to_Z (byte_of_Z (Z.lor tag LOOKUP_BIT)) = tag + 128 ∧
  Z.land (tag + 128) 127 = tag ∧ Z.land (tag + 128) LOOKUP_BIT = 128 ∧ Z.land tag LOOKUP_BIT = 0.
Proof.
  intros Ht. assert (tag = 1 ∨ tag = 2 ∨ tag = 3 ∨ tag = 4 ∨ tag = 5 ∨ tag = 6 ∨ tag = 7) as Hc by lia.
  by repeat destruct Hc as [->|Hc]; [..|subst tag].
Qed.

(** Decoding undoes the encoding of one entry. *)
Lemma decode_encode_entry k v b rest :
  is_str k → is_str v → encode_entry (k, v) = Ok b → recognised k = true →
  ∃ t data, b = t :: data ∧ decode_entry (byte_to_Z t) (data ++ rest) = Some (Some (k, v), rest).
Proof.
  intros Hk Hv. rewrite /encode_entry /recognised. destruct (field_name_to_tag k) as [tag|] eqn:Htag.
  - destruct (tag_name _ _ Htag) as [Hname Hr]. destruct (tag_byte tag Hr) as (Hb & Hl & H127 & H128 & H0).
    destruct (value_lookup tag v) as [idx|] eqn:Hlk.
    + destruct (value_lookup_inv _ _ _ Hlk) as [Hfrom Hidx]. intros [= <-] _. do 2 eexists. split; [done|].
      rewrite Hl /decode_entry. rewrite (proj2 (Z.eqb_neq _ _)); [|unfold TAG_CUSTOM; lia].
      rewrite H128 /= H127. rewrite byte_to_of_Z Z.mod_small // Hfrom /= Hname. done.
    + destruct (check_len k (as_bytes v)) as [u|e|] eqn:Hc; [|done..]. apply check_len_ok in Hc.
      intros [= <-] _. do 2 eexists. split; [done|].
      rewrite Hb /decode_entry. rewrite (proj2 (Z.eqb_neq _ _)); [|unfold TAG_CUSTOM; lia].
      rewrite H0 /= take_field_bytes //= Hname /=. by rewrite utf8_as_bytes.
  - destruct (strip_prefix CUSTOM_PREFIX k) as [suffix|] eqn:Hs; [|done]. apply strip_prefix_spec in Hs as ->.
    destruct (check_len _ (as_bytes suffix)) as [u|e|] eqn:Hc1; [|done..]. apply check_len_ok in Hc1. cbn [mbind Res_bind].
    destruct (check_len _ (as_bytes v)) as [u'|e|] eqn:Hc2; [|done..]. apply check_len_ok in Hc2.
    cbn [mbind Res_bind]. intros Hb _. assert (byte_of_Z TAG_CUSTOM :: field_bytes (as_bytes suffix) ++ field_bytes (as_bytes v) = b) as <-
      by congruence. do 2 eexists. split; [done|].
    change (byte_to_Z (byte_of_Z TAG_CUSTOM)) with TAG_CUSTOM. rewrite /decode_entry Z.eqb_refl.
    rewrite -app_assoc take_field_bytes //. cbn [mbind option_bind]. rewrite take_field_bytes //. cbn [mbind option_bind].
    rewrite !utf8_as_bytes //; by apply custom_suffix_str.
Qed.

Lemma encode_skips k v b : encode_entry (k, v) = Ok b → recognised k = false → b = [].
Proof.
  rewrite /encode_entry /recognised. destruct (field_name_to_tag k); [done|].
  destruct (strip_prefix _ k); [done|]. by intros [= <-].
Qed.

Definition keep_entry (m : gmap string string) (kv : string * string) : gmap string string :=
  if recognised kv.1 then <[kv.1 := kv.2]> m else m.

Lemma decode_encode_entries l b n acc :
  Forall (λ kv, is_str kv.1 ∧ is_str kv.2) l → encode_entries l = Ok b → (length b <= n)%nat →
  decode_loop n b acc = foldl keep_entry acc l.
Proof.
  intros Hl. revert b n acc. induction Hl as [|[k v] l [Hk Hv] _ IH]; intros b n acc; simpl.
  - intros [= <-] _. by destruct n.
  - destruct (encode_entry (k, v)) as [b1|e|] eqn:He; [|done..]. simpl.
    destruct (encode_entries l) as [b2|e|]; [|done..]. intros [= <-] Hn. rewrite {2}/keep_entry. simpl.
    destruct (recognised k) eqn:Hr.
    + destruct (decode_encode_entry k v b1 b2 Hk Hv He Hr) as (t & data & -> & Hd).
      destruct n as [|n]; [simpl in Hn; lia|]. simpl in Hn |- *. rewrite Hd. apply IH; [done|].
      rewrite length_app in Hn. lia.
    + rewrite (encode_skips _ _ _ He Hr) app_nil_l. apply IH; [done|]. rewrite length_app in Hn. lia.
Qed.

Lemma foldl_keep_lookup l acc k :
  NoDup l.*1 → foldl keep_entry acc l !! k =
  match (list_to_map l : gmap string string) !! k with
  | Some v => if recognised k then Some v else acc !! k
  | None => acc !! k
  end.
Proof.
  revert acc. induction l as [|[k' v'] l IH]; intros acc; [done|]. rewrite fmap_cons NoDup_cons. intros [Hn Hd].
  rewrite /= IH // /keep_entry /=. apply not_elem_of_list_to_map_1 in Hn. destruct (decide (k = k')) as [->|Hne].
  - rewrite Hn lookup_insert_eq. destruct (recognised k'); [by rewrite lookup_insert_eq|done].
  - rewrite (lookup_insert_ne _ k'); [|done].
    destruct (recognised k'); rewrite ?(lookup_insert_ne _ k') //.
Qed.

Lemma take_field_shorter data b rest : take_field data = Some (b, rest) → (length rest <= length data)%nat.
Proof.
  rewrite /take_field. repeat case_match; try done. intros [= _ <-]. rewrite /zdrop !length_drop. lia.
Qed.

Lemma decode_entry_shorter t data found rest :
  decode_entry t data = Some (found, rest) → (length rest <= length data)%nat.
Proof.
  rewrite /decode_entry. repeat case_match; try done.
  - destruct (take_field data) as [[sb d1]|] eqn:H1; [|done]. cbn [mbind option_bind].
    destruct (take_field d1) as [[vb d2]|] eqn:H2; [|done]. intros [= _ <-].
    apply take_field_shorter in H1, H2. lia.
  - intros [= _ <-]. simpl. lia.
  - destruct (take_field data) as [[vb d1]|] eqn:H1; [|done]. cbn [mbind option_bind]. intros [= _ <-].
    by apply take_field_shorter in H1.
Qed.

Lemma encode_entries_cases l :
  match encode_entries l with
  | Ok _ => Forall (λ kv, ∃ b, encode_entry kv = Ok b) l
  | Err e => ∃ kv, kv ∈ l ∧ encode_entry kv = Err e
  | Panic => ∃ kv, kv ∈ l ∧ encode_entry kv = Panic
  end.
Proof.
  induction l as [|kv l IH]; [constructor|]. cbn [encode_entries].
  destruct (encode_entry kv) as [b|e|] eqn:He; cbn [mbind Res_bind]; [|exists kv; split; [by left|done]..].
  destruct (encode_entries l) as [b'|e|]; cbn [mbind Res_bind].
  - constructor; [by exists b|done].
  - destruct IH as (kv' & ? & ?). exists kv'. split; [by right|done].
  - destruct IH as (kv' & ? & ?). exists kv'. split; [by right|done].
Qed.

(** Why an entry is refused. *)
Definition too_long (k v : string) (e : MetadataTooLarge) : Prop :=
  tl_field e = k ∧ tl_max e = 65535 ∧ 65535 < tl_len e ∧
  (tl_len e = zlen (as_bytes v) ∨ ∃ suffix, k = CUSTOM_PREFIX +:+ suffix ∧ tl_len e = zlen (as_bytes suffix)).

Lemma check_len_cases key b :
  check_len key b = Ok tt ∧ zlen b <= 65535 ∨
  check_len key b = Err (mkTooLarge key (zlen b) 65535) ∧ 65535 < zlen b.
Proof.
  rewrite /check_len. change MAX_FIELD_LEN with 65535.
  destruct (Z.ltb_spec 65535 (zlen b)); [by right|left]. done.
Qed.

(** What the lengths allow. *)
Definition field_fits (k v : string) : Prop :=
  zlen (as_bytes v) <= 65535 ∧ ∀ suffix, k = CUSTOM_PREFIX +:+ suffix → zlen (as_bytes suffix) <= 65535.

Lemma custom_untagged suffix : field_name_to_tag (CUSTOM_PREFIX +:+ suffix) = None.
Proof. rewrite /field_name_to_tag. by repeat case_decide. Qed.

Lemma tagged_fits k tag v : field_name_to_tag k = Some tag → zlen (as_bytes v) <= 65535 → field_fits k v.
Proof. intros Hk Hv. split; [done|]. intros suffix ->. by rewrite custom_untagged in Hk. Qed.

Lemma value_lookup_short tag v idx : value_lookup tag v = Some idx → zlen (as_bytes v) <= 65535.
Proof.
  rewrite /value_lookup. destruct (value_table tag) as [table|] eqn:Ht; [|done]. simpl.
  destruct (list_find _ table) as [[i x]|] eqn:Hf; [|done]. intros _.
  apply list_find_Some in Hf as (Hi%list_elem_of_lookup_2 & -> & _).
  assert (Forall (λ x, zlen (as_bytes x) <= 65535) table) as Hall.
  { revert Ht. rewrite /value_table. repeat case_match; intros [= <-]; repeat constructor; done. }
  rewrite Forall_forall in Hall. by apply Hall.
Qed.

Lemma encode_entry_cases k v :
  match encode_entry (k, v) with
  | Ok _ => recognised k = true → field_fits k v
  | Err e => recognised k = true ∧ too_long k v e
  | Panic => False
  end.
Proof.
  rewrite /encode_entry /recognised. destruct (field_name_to_tag k) as [tag|] eqn:Htag.
  - destruct (value_lookup tag v) as [idx|] eqn:Hl.
    { intros _. by eapply tagged_fits, value_lookup_short. }
    destruct (check_len_cases k (as_bytes v)) as [[-> ?]|[-> ?]].
    + intros _. by eapply tagged_fits.
    + split; [done|]. by split_and!; [..|left].
  - destruct (strip_prefix CUSTOM_PREFIX k) as [suffix|] eqn:Hs; [|done].
    apply strip_prefix_spec in Hs. destruct (check_len_cases k (as_bytes suffix)) as [[-> ?]|[-> ?]].
    2: { split; [done|]. split_and!; [done..|]. right. by exists suffix. }
    cbn [mbind Res_bind].
    destruct (check_len_cases k (as_bytes v)) as [[-> ?]|[-> ?]].
    + intros _. split; [done|]. intros suffix' Hk. rewrite Hs in Hk. by apply (inj (String.app _)) in Hk as ->.
    + split; [done|]. by split_and!; [..|left].
Qed.

Lemma sorted_elem (meta : gmap string string) k v :
  (k, v) ∈ sort_by_path fst (map_to_list meta) ↔ meta !! k = Some v.
Proof. by rewrite /sort_by_path merge_sort_Permutation elem_of_map_to_list. Qed.

Lemma decode_encoded (meta : gmap string string) b :
  map_Forall (λ k v, is_str k ∧ is_str v) meta → encode_metadata meta = Ok b →
  decode_metadata b = filter (λ '(k, _), recognised k = true) meta.
Proof.
  intros Hstr Henc. rewrite /decode_metadata. set (l := sort_by_path fst (map_to_list meta)).
  assert (l ≡ₚ map_to_list meta) as Hp by apply merge_sort_Permutation.
  assert (NoDup l.*1) as Hnd by (rewrite Hp; apply NoDup_fst_map_to_list).
  rewrite (decode_encode_entries l); [|..|done|done].
  - apply map_eq. intros k. rewrite foldl_keep_lookup // (list_to_map_proper l (map_to_list meta)) //.
    rewrite list_to_map_to_list lookup_empty. apply option_eq. intros v.
    rewrite map_lookup_filter_Some. destruct (meta !! k) as [v'|]; [|by split; [|intros [? _]]].
    destruct (recognised k); split; [by intros [= ->]|by intros [[= ->] _]|done|by intros [_ ?]].
  - apply Forall_forall. intros [k v] Hin. rewrite /l sorted_elem in Hin. by apply Hstr.
Qed.

(** ** The guarantees *)

(** C37: Metadata round trip.  Decoding what was encoded gives back the map,
    less the keys the format has no entry for (neither one of the seven
    headers nor under [x-amz-meta-]), which the encoder drops. *)
Theorem metadata_round_trip (meta : gmap string string) b :
  map_Forall (λ k v, is_str k ∧ is_str v) meta → encode_metadata meta = Ok b →
  decode_metadata b = filter (λ '(k, _), recognised k = true) meta.
Proof. intros Hstr Henc. by apply decode_encoded. Qed.

(** Encoding refuses exactly the oversized fields: an error names a field
    of the map whose value or suffix is too long for its 16-bit length, and on
    success every recognised field fits.  It never panics. *)
Theorem metadata_size_limits (meta : gmap string string) :
  match encode_metadata meta with
  | Ok _ => ∀ k v, meta !! k = Some v → recognised k = true → field_fits k v
  | Err e => ∃ k v, meta !! k = Some v ∧ recognised k = true ∧ too_long k v e
  | Panic => False
  end.
Proof.
  rewrite /encode_metadata. pose proof (encode_entries_cases (sort_by_path fst (map_to_list meta))) as Hc.
  destruct (encode_entries _) as [b|e|].
  - intros k v Hk. rewrite Forall_forall in Hc. destruct (Hc (k, v)) as [b' Hb]; [by apply sorted_elem|].
    pose proof (encode_entry_cases k v) as He. by rewrite Hb in He.
  - destruct Hc as ([k v] & Hin%sorted_elem & He). pose proof (encode_entry_cases k v) as Hcase.
    rewrite He in Hcase. by exists k, v.
  - destruct Hc as ([k v] & _ & He). pose proof (encode_entry_cases k v) as Hcase. by rewrite He in Hcase.
Qed.

(** Decoding any bytes ends: the loop makes at most one iteration per
    byte, so a larger bound gives the same map. *)
Theorem metadata_decode_terminates data n map :
  (length data <= n)%nat → decode_loop n data map = decode_loop (length data) data map.
Proof.
  intros Hn. assert (∀ m n d acc, length d <= m → length d <= n → decode_loop n d acc = decode_loop m d acc)%nat as Hl.
  { induction m as [|m IH]; intros n' d acc Hm Hd.
    - destruct d; [by destruct n'|simpl in Hm; lia].
    - destruct d as [|t d]; [by destruct n'|]. destruct n' as [|n']; [simpl in Hd; lia|]. simpl in Hm, Hd |- *.
      destruct (decode_entry _ d) as [[found rest]|] eqn:He; [|done].
      apply decode_entry_shorter in He. apply IH; lia. }
  by apply Hl.
Qed.

Definition sample_metadata : gmap string string :=
  {["content-type" := "text/plain"; "x-amz-meta-a" := "b"; "etag" := "0123"; "other" := "lost"]}.

Lemma metadata_round_trip_witness : ∃ b, encode_metadata sample_metadata = Ok b ∧
  decode_metadata b = filter (λ '(k, _), recognised k = true) sample_metadata ∧
  recognised "etag" = true ∧ recognised "other" = false.
Proof.
  destruct (encode_metadata sample_metadata) as [b|e|] eqn:He; [|by vm_compute in He..].
  exists b. split; [done|split; [|by split]].
  refine (metadata_round_trip sample_metadata b _ He).
  repeat (apply map_Forall_insert_2; [by split|]). apply map_Forall_empty.
Defined.

Lemma metadata_decode_terminates_witness :
  decode_loop 10 [Byte.x81; Byte.x01] ∅ = decode_loop 2 [Byte.x81; Byte.x01] ∅.
Proof. apply (metadata_decode_terminates [Byte.x81; Byte.x01] 10 ∅). simpl. lia. Defined.
