(* ===== verification/Catalog.v ===== *)
(** * The placement catalog ([shardedobjstr/src/catalog.rs])

    A map from object keys to the shards that hold them, with a dirty flag,
    and its persistence to a checksummed file.  serde_json and bincode are
    parameters with their round trips; the file system is a map from paths to
    contents whose operations may fail. *)

From S2P Require Import Prelude.
From S2P Require Import Config.
From S2P Require Import Extent.
From S2P Require Import Concrete.
From S2P Require Import Index.
From S2P Require Import Instances.

(** ** The catalog *)

Record PlacementEntry : Type := mkPlacement {
  pe_shards : list nat;
  pe_size : Z;
  pe_crc32c : option Z;
  pe_updated : Z;
  pe_meta_len : Z;
}.

#[export] Instance PlacementEntry_eq_dec : EqDecision PlacementEntry.
Proof. solve_decision. Defined.

Record Catalog : Type := mkCatalog {
  entries : gmap string PlacementEntry;
  cat_dirty : bool;
}.

Definition catalog_new : Catalog := mkCatalog ∅ false.
Definition clear_dirty (c : Catalog) : Catalog := mkCatalog (entries c) false.
Definition mark_dirty (c : Catalog) : Catalog := mkCatalog (entries c) true.
Definition with_entries (m : gmap string PlacementEntry) (c : Catalog) : Catalog := mkCatalog m (cat_dirty c).

Definition cat_put (now : Z) (key : string) (shards : list nat) (size : Z) (crc : option Z) (meta_len : Z)
    (c : Catalog) : Catalog :=
  mark_dirty (with_entries (<[key := mkPlacement shards size crc now meta_len]> (entries c)) c).

(** [entry.meta_len = meta_len] when it is positive. *)
Definition set_entry_meta (meta_len : Z) (e : PlacementEntry) : PlacementEntry :=
  if 0 <? meta_len
  then mkPlacement (pe_shards e) (pe_size e) (pe_crc32c e) (pe_updated e) meta_len
  else e.

Definition with_shards (l : list nat) (e : PlacementEntry) : PlacementEntry :=
  mkPlacement l (pe_size e) (pe_crc32c e) (pe_updated e) (pe_meta_len e).

(** [if !shards.contains(&id) { shards.push(id) }] *)
Definition push_shard (id : nat) (e : PlacementEntry) : PlacementEntry :=
  if bool_decide (id ∈ pe_shards e) then e else with_shards (pe_shards e ++ [id]) e.

Definition add_replica (now : Z) (key : string) (id : nat) (size meta_len : Z) (c : Catalog) : Catalog :=
  let e := default (mkPlacement [] size None now meta_len) (entries c !! key) in
  mark_dirty (with_entries (<[key := push_shard id (set_entry_meta meta_len e)]> (entries c)) c).

Definition try_insert (now : Z) (key : string) (shards : list nat) (size : Z) (c : Catalog) : Catalog * bool :=
  match entries c !! key with
  | Some _ => (c, false)
  | None =>
    (mark_dirty (with_entries (<[key := mkPlacement shards size None now 0]> (entries c)) c), true)
  end.

Definition cat_remove (key : string) (c : Catalog) : Catalog * option PlacementEntry :=
  let removed := entries c !! key in
  let c := with_entries (delete key (entries c)) c in
  (match removed with Some _ => mark_dirty c | None => c end, removed).

Definition cat_clear (c : Catalog) : Catalog := mark_dirty (with_entries ∅ c).
Definition cat_replace (m : gmap string PlacementEntry) (c : Catalog) : Catalog := mark_dirty (with_entries m c).
Definition load_into (other c : Catalog) : Catalog := mkCatalog (entries other) false.

(** [shards.retain(|&s| s != shard_id)] *)
Definition retain_others (id : nat) (e : PlacementEntry) : PlacementEntry :=
  with_shards (filter (λ s, s ≠ id) (pe_shards e)) e.

Definition remove_shard (key : string) (id : nat) (c : Catalog) : Catalog :=
  match entries c !! key with
  | None => c
  | Some e =>
    let e := retain_others id e in
    let m := <[key := e]> (entries c) in
    mark_dirty (with_entries (if decide (pe_shards e = []) then delete key m else m) c)
  end.

(** What is left of an entry without the shard, if anything. *)
Definition strip (id : nat) (e : PlacementEntry) : option PlacementEntry :=
  if bool_decide (id ∈ pe_shards e) then
    let e := retain_others id e in
    if decide (pe_shards e = []) then None else Some e
  else Some e.

(** The loop over the map: a step per entry, then the removals. *)
Definition strip_step (id : nat) (acc : gmap string PlacementEntry * Z * list string)
    (ke : string * PlacementEntry) : gmap string PlacementEntry * Z * list string :=
  let '(m, affected, to_remove) := acc in
  let '(key, e) := ke in
  if bool_decide (id ∈ pe_shards e) then
    let e := retain_others id e in
    (<[key := e]> m, affected + 1, if decide (pe_shards e = []) then to_remove ++ [key] else to_remove)
  else (m, affected, to_remove).

Definition remove_all_for_shard `{HashMapOrder} (id : nat) (c : Catalog) : Catalog * Z :=
  let '(m, affected, to_remove) := foldl (strip_step id) (entries c, 0, []) (hm_iter (entries c)) in
  let c := with_entries (foldl (λ m k, delete k m) m to_remove) c in
  (if 0 <? affected then mark_dirty c else c, affected).

Definition entries_for_shard `{HashMapOrder} (id : nat) (c : Catalog) : list (string * PlacementEntry) :=
  filter (λ '(_, e), id ∈ pe_shards e) (hm_iter (entries c)).

Definition cat_len (c : Catalog) : nat := size (entries c).

(** The columns of an [ObjectMeta] an entry fills; the location is the key,
    which [Path::from] parses. *)
Record ListedMeta : Type := mkListed {
  listed_location : string;
  listed_modified : Z;
  listed_size : Z;
}.

Definition has_prefix (pre : option string) (k : string) : bool :=
  match pre with Some p => String.prefix p k | None => true end.

Definition cat_list `{HashMapOrder} (path_from : string → string) (pre : option string) (c : Catalog) :
    list ListedMeta :=
  (λ '(k, e), mkListed (path_from k) (pe_updated e) (pe_size e)) <$>
  filter (λ '(k, _), has_prefix pre k = true) (hm_iter (entries c)).

(** ** Persistence *)

(** A [std::io::Error]: its kind and text. *)
Definition IoError : Type := ErrorKind * string.

(** serde_json and bincode on the entry map.  The JSON payload goes through
    [serde_json::Value], whose keys are ordered, so it is a function of the
    map; the plain JSON and the bincode image list the entries in the map's
    order. *)
Class CatalogCodec : Type := {
  json_value : gmap string PlacementEntry → option (list byte);
  json_envelope : Z → gmap string PlacementEntry → option (list byte);
  json_plain : list (string * PlacementEntry) → option (list byte);
  parse_envelope : list byte → option (Z * list (string * PlacementEntry));
  parse_json : list byte → option (list (string * PlacementEntry));
  bincode_catalog : list (string * PlacementEntry) → option (list byte);
  parse_bincode : list byte → option (list (string * PlacementEntry));
}.

Class CatalogCodecLaws `{CatalogCodec} : Prop := {
  parse_envelope_of c m b : 0 <= c < 2 ^ 32 → json_envelope c m = Some b →
    ∃ l, parse_envelope b = Some (c, l) ∧ list_to_map l = m;
  parse_json_of l b : json_plain l = Some b → parse_json b = Some l;
  parse_bincode_of l b : bincode_catalog l = Some b → parse_bincode b = Some l;
}.

(** The file system: contents by path, and which operations fail.  A write
    that fails leaves what [fs_write_fails] says of the file. *)
Record FileSystem : Type := mkFs {
  fs_files : gmap string (list byte);
  fs_write_fails : string → option (option (list byte));
  fs_rename_fails : string → string → bool;
  fs_read_fails : string → bool;
}.

Definition fs_with (m : gmap string (list byte)) (fs : FileSystem) : FileSystem :=
  mkFs m (fs_write_fails fs) (fs_rename_fails fs) (fs_read_fails fs).

Definition fs_write (path : string) (data : list byte) : SM FileSystem IoError unit := λ fs,
  match fs_write_fails fs path with
  | Some rest => (fs_with (partial_alter (λ _, rest) path (fs_files fs)) fs, Err (OsError, "write"))
  | None => (fs_with (<[path := data]> (fs_files fs)) fs, Ok tt)
  end.

Definition fs_rename (from to : string) : SM FileSystem IoError unit := λ fs,
  if fs_rename_fails fs from to then (fs, Err (OsError, "rename"))
  else match fs_files fs !! from with
       | None => (fs, Err (OsError, "rename"))
       | Some data => (fs_with (<[to := data]> (delete from (fs_files fs))) fs, Ok tt)
       end.

Definition fs_read (path : string) (fs : FileSystem) : Res IoError (list byte) :=
  if fs_read_fails fs path then Err (OsError, "read") else ok_or (fs_files fs !! path) (OsError, "read").

(** A path; [tmp] is what [with_extension("tmp")] makes of it. *)
Record PersistPath : Type := mkPath {
  target : string;
  tmp : string;
}.

Inductive CatalogPersistence : Type :=
| PersistNone
| Json (path : PersistPath)
| Bincode (path : PersistPath).

Definition atomic_write (path : PersistPath) (data : list byte) : SM FileSystem IoError unit :=
  fs_write (tmp path) data ;;; fs_rename (tmp path) (target path).

Definition BINCODE_CRC_LEN : Z := 4.

Section persistence.
Context `{HashMapOrder, Crc32c, CatalogCodec}.

Definition serde_failed : IoError := (Other, "serialize").

Definition loaded (l : list (string * PlacementEntry)) : Catalog := mkCatalog (list_to_map l) false.

Definition to_json (c : Catalog) : option (list byte) := json_plain (hm_iter (entries c)).
Definition from_json (data : list byte) : option Catalog := loaded <$> parse_json data.
Definition to_bincode (c : Catalog) : Res IoError (list byte) :=
  ok_or (bincode_catalog (hm_iter (entries c))) serde_failed.
Definition from_bincode (data : list byte) : Res IoError Catalog :=
  ok_or (loaded <$> parse_bincode data) (InvalidData, "bincode").

Definition save (p : CatalogPersistence) (c : Catalog) : SM FileSystem IoError unit :=
  match p with
  | PersistNone => sm_ret tt
  | Json path =>
    payload <- sm_lift (ok_or (json_value (entries c)) serde_failed) ;;
    data <- sm_lift (ok_or (json_envelope (crc32c payload) (entries c)) serde_failed) ;;
    atomic_write path data
  | Bincode path =>
    payload <- sm_lift (to_bincode c) ;;
    atomic_write path (to_le_bytes 4 (crc32c payload) ++ payload)
  end.

Definition checksum_mismatch : IoError := (InvalidData, "catalog checksum mismatch").

Definition load_json (raw : list byte) : Res IoError Catalog :=
  match parse_envelope raw with
  | Some (checksum, l) =>
    payload ← ok_or (json_value (list_to_map l)) serde_failed;
    if crc32c payload =? checksum then Ok (loaded l) else Err checksum_mismatch
  | None => ok_or (from_json raw) (InvalidData, "json")
  end.

Definition load_bincode (raw : list byte) : Res IoError Catalog :=
  if zlen raw <? BINCODE_CRC_LEN then Err (InvalidData, "catalog file too short for checksum header")
  else
    let stored_crc := from_le_bytes (ztake 4 raw) in
    let payload := zdrop BINCODE_CRC_LEN raw in
    if stored_crc =? crc32c payload then from_bincode payload else Err checksum_mismatch.

(** [path.exists()], then read and parse. *)
Definition load_file (path : PersistPath) (parse : list byte → Res IoError Catalog) (fs : FileSystem) :
    Res IoError Catalog :=
  match fs_files fs !! target path with
  | None => Ok catalog_new
  | Some _ => raw ← fs_read (target path) fs; parse raw
  end.

Definition load (p : CatalogPersistence) (fs : FileSystem) : Res IoError Catalog :=
  match p with
  | PersistNone => Ok catalog_new
  | Json path => load_file path load_json fs
  | Bincode path => load_file path load_bincode fs
  end.

(** The plain JSON file, without a checksum. *)
Definition save_to_file (path : PersistPath) (c : Catalog) : SM FileSystem IoError unit :=
  data <- sm_lift (ok_or (to_json c) serde_failed) ;;
  atomic_write path data.

Definition load_from_file (path : PersistPath) (fs : FileSystem) : Res IoError Catalog :=
  load_file path (λ data, ok_or (from_json data) (InvalidData, "json")) fs.
End persistence.

(** ** Stripping a shard *)

Section strip.
Context `{HashMapOrderLaws}.
Implicit Types (m : gmap string PlacementEntry) (l : list (string * PlacementEntry)) (k : string).

Definition referencing (id : nat) l : list (string * PlacementEntry) := filter (λ '(_, e), id ∈ pe_shards e) l.

(** What the loop leaves: the stripped entries, and the keys left with none. *)
Lemma strip_loop id l m n r :
  NoDup l.*1 →
  let '(m', n', r') := foldl (strip_step id) (m, n, r) l in
  (∀ k, m' !! k = match (list_to_map l : gmap string PlacementEntry) !! k with
                  | Some e => if bool_decide (id ∈ pe_shards e) then Some (retain_others id e) else m !! k
                  | None => m !! k
                  end) ∧
  n' = n + zlen (referencing id l) ∧
  ∀ k, k ∈ r' ↔ k ∈ r ∨ ∃ e, (k, e) ∈ l ∧ id ∈ pe_shards e ∧ pe_shards (retain_others id e) = [].
Proof.
  revert m n r. induction l as [|[k0 e0] l IH]; intros m n r; cbn [foldl fmap list_fmap].
  { intros _. split_and!; [done|by rewrite Z.add_0_r|]. intros k. split; [by left|].
    intros [?|(e & Hin & _)]; [done|by apply elem_of_nil in Hin]. }
  rewrite NoDup_cons. intros [Hn Hd]. apply not_elem_of_list_to_map_1 in Hn as Hnone. rewrite {2}/strip_step.
  rewrite /referencing filter_cons. fold (referencing id l). case_bool_decide as Hid.
  - rewrite (decide_True (P := id ∈ pe_shards e0)) //.
    specialize (IH (<[k0 := retain_others id e0]> m) (n + 1)
      (if decide (pe_shards (retain_others id e0) = []) then r ++ [k0] else r) Hd).
    destruct (foldl _ _ l) as [[m' n'] r']. destruct IH as (Hm & -> & Hr). split_and!.
    + intros k. rewrite Hm /=. destruct (decide (k = k0)) as [->|Hne].
      * by rewrite Hnone !lookup_insert_eq bool_decide_true.
      * by rewrite !(lookup_insert_ne _ k0).
    + rewrite zlen_cons. lia.
    + intros k. rewrite Hr. setoid_rewrite elem_of_cons. case_decide as Hnil.
      * rewrite elem_of_app list_elem_of_singleton. split.
        -- intros [[?| ->]|(e & ? & ?)]; [by left|right; exists e0; split; [by left|done]|right; exists e; split; [by right|done]].
        -- intros [?|(e & [[= -> ->]|?] & ?)]; [by left; left|by left; right|right; by exists e].
      * split; [intros [?|(e & ? & ?)]; [by left|right; exists e; split; [by right|done]]|].
        intros [?|(e & [[= -> ->]|?] & ? & ?)]; [by left|done|right; by exists e].
  - rewrite (decide_False (P := id ∈ pe_shards e0)) //. specialize (IH m n r Hd).
    destruct (foldl _ _ l) as [[m' n'] r']. destruct IH as (Hm & -> & Hr). split_and!; [|done|].
    + intros k. rewrite Hm /=. destruct (decide (k = k0)) as [->|Hne].
      * by rewrite Hnone lookup_insert_eq bool_decide_false.
      * by rewrite (lookup_insert_ne _ k0).
    + intros k. rewrite Hr. setoid_rewrite elem_of_cons. split.
      * intros [?|(e & ? & ?)]; [by left|right; exists e; split; [by right|done]].
      * intros [?|(e & [[= -> ->]|?] & ? & ?)]; [by left|done|right; by exists e].
Qed.

(** Stripping a failed shard.  Afterwards the shard is in no entry's list;
    an entry it was the only copy of is gone, every other entry keeps its
    other copies in order, and entries that did not mention it are as they
    were.  The count returned is the number of entries that mentioned it, and
    the catalog is dirty when there was one. *)
Theorem strip_shard_spec id c :
  let '(c', n) := remove_all_for_shard id c in
  entries c' = omap (strip id) (entries c) ∧
  n = zlen (referencing id (map_to_list (entries c))) ∧
  cat_dirty c' = cat_dirty c || (0 <? n).
Proof.
  rewrite /remove_all_for_shard. pose proof (hm_iter_perm (entries c)) as Hp.
  assert (NoDup (hm_iter (entries c)).*1) as Hnd by (rewrite Hp; apply NoDup_fst_map_to_list).
  pose proof (strip_loop id (hm_iter (entries c)) (entries c) 0 [] Hnd) as Hl.
  destruct (foldl (strip_step id) _ _) as [[m n] r]. destruct Hl as (Hm & -> & Hr).
  rewrite (list_to_map_proper (hm_iter (entries c)) (map_to_list (entries c))) // list_to_map_to_list in Hm.
  assert (zlen (referencing id (hm_iter (entries c))) = zlen (referencing id (map_to_list (entries c)))) as Hz
    by (by rewrite /zlen /referencing Hp).
  rewrite Z.add_0_l Hz. split_and!.
  - assert (foldl (λ m k, delete k m) m r = omap (strip id) (entries c)) as Hf; [|by destruct (0 <? _)].
    apply map_eq. intros k. rewrite foldl_delete_lookup lookup_omap Hm.
    assert (k ∈ r ↔ ∃ e, entries c !! k = Some e ∧ id ∈ pe_shards e ∧ pe_shards (retain_others id e) = []) as Hin.
    { rewrite Hr. setoid_rewrite Hp. setoid_rewrite elem_of_map_to_list. split.
      - intros [Hnil%elem_of_nil|?]; done.
      - by right. }
    destruct (entries c !! k) as [e|] eqn:Hk; simpl.
    + rewrite /strip. case_bool_decide as Hid.
      * destruct (decide (pe_shards (retain_others id e) = [])).
        -- rewrite decide_True //. apply Hin. by exists e.
        -- rewrite decide_False //. rewrite Hin. by intros (? & [= <-] & _ & ?).
      * rewrite decide_False //. rewrite Hin. by intros (? & [= <-] & ? & _).
    + by case_decide.
  - done.
  - destruct (0 <? _); simpl; by rewrite ?orb_true_r ?orb_false_r.
Qed.
End strip.

(** ** Saving and loading *)

Definition persist_path (p : CatalogPersistence) : option PersistPath :=
  match p with PersistNone => None | Json path | Bincode path => Some path end.

Section saving.
Context `{HashMapOrderLaws, Crc32cLaws, CatalogCodecLaws}.
Implicit Types (path : PersistPath) (fs : FileSystem).

(** The temporary file and the rename: all of the new contents, or the old. *)
Lemma atomic_write_spec path data fs fs' r :
  tmp path ≠ target path →
  atomic_write path data fs = (fs', r) →
  fs_read_fails fs' = fs_read_fails fs ∧
  match r with
  | Ok _ => fs_files fs' !! target path = Some data
  | Err _ => fs_files fs' !! target path = fs_files fs !! target path
  | Panic => False
  end.
Proof.
  intros Hne. rewrite /atomic_write /sm_bind /fs_write.
  destruct (fs_write_fails fs (tmp path)) as [rest|].
  { intros [= <- <-]. split; [done|]. by rewrite /= lookup_partial_alter_ne. }
  rewrite /fs_rename /=. destruct (fs_rename_fails fs _ _).
  { intros [= <- <-]. split; [done|]. by rewrite /= lookup_insert_ne. }
  rewrite lookup_insert_eq. intros [= <- <-]. split; [done|]. by rewrite /= lookup_insert_eq.
Qed.

Lemma loaded_iter (m : gmap string PlacementEntry) : loaded (hm_iter m) = mkCatalog m false.
Proof.
  rewrite /loaded. f_equal. pose proof (hm_iter_perm m) as Hp.
  rewrite (list_to_map_proper (hm_iter m) (map_to_list m)) ?list_to_map_to_list //.
  rewrite Hp. apply NoDup_fst_map_to_list.
Qed.

Lemma load_json_saved c payload data :
  json_value (entries c) = Some payload →
  json_envelope (crc32c payload) (entries c) = Some data →
  load_json data = Ok (clear_dirty c).
Proof.
  intros Hp Hd. rewrite /load_json. destruct (parse_envelope_of _ _ _ (crc32c_range payload) Hd) as (l & -> & Hl).
  rewrite /loaded Hl Hp /= Z.eqb_refl. done.
Qed.

Lemma load_bincode_saved c payload :
  bincode_catalog (hm_iter (entries c)) = Some payload →
  load_bincode (to_le_bytes 4 (crc32c payload) ++ payload) = Ok (clear_dirty c).
Proof.
  intros Hp. rewrite /load_bincode /BINCODE_CRC_LEN zlen_app to_le_bytes_zlen.
  pose proof (zlen_nonneg payload). destruct (Z.ltb_spec (Z.of_nat 4 + zlen payload) 4); [lia|].
  rewrite ztake_app_exact ?to_le_bytes_zlen // zdrop_app_exact ?to_le_bytes_zlen //.
  rewrite from_to_le_bytes; [|by apply crc32c_range]. rewrite Z.eqb_refl /from_bincode (parse_bincode_of _ _ Hp) /= loaded_iter. done.
Qed.

(** C39: Saving the catalog is atomic.  A save that succeeds leaves a file that
    loads as the saved entries, clean; a save that fails, at whatever step
    and whatever a failed write leaves of the temporary file, leaves a file
    that loads as it did before.  In both formats. *)
Theorem save_atomic p c fs fs' r :
  (∀ path, persist_path p = Some path → tmp path ≠ target path ∧ fs_read_fails fs (target path) = false) →
  save p c fs = (fs', r) →
  match r with
  | Ok _ => p ≠ PersistNone → load p fs' = Ok (clear_dirty c)
  | Err _ => load p fs' = load p fs
  | Panic => False
  end.
Proof.
  intros Hpath. destruct p as [|path|path]; cbn [save]; [by intros [= <- <-]| |];
    destruct (Hpath path eq_refl) as [Hne Hread]; cbn [load]; rewrite /load_file /fs_read.
  - rewrite /sm_bind /sm_lift. destruct (json_value (entries c)) as [payload|] eqn:Hp; [|by intros [= <- <-]].
    cbn [ok_or]. destruct (json_envelope _ _) as [data|] eqn:Hd; [|by intros [= <- <-]]. cbn [ok_or].
    intros (Hf & Hr)%atomic_write_spec; [|done]. rewrite Hf Hread. destruct r; [|by rewrite Hr|done].
    rewrite Hr /= (load_json_saved c payload data) //.
  - rewrite /sm_bind /sm_lift /to_bincode. destruct (bincode_catalog _) as [payload|] eqn:Hp; [|by intros [= <- <-]].
    cbn [ok_or]. intros (Hf & Hr)%atomic_write_spec; [|done]. rewrite Hf Hread. destruct r; [|by rewrite Hr|done].
    rewrite Hr /= (load_bincode_saved c payload) //.
Qed.
End saving.

(** ** An example *)

Definition f_shard_id : Format nat := f_iso Z.to_nat Z.of_nat f_u64.
Definition f_option {A} (f : Format A) : Format (option A) := f_iso head option_list (f_list f).

Definition f_placement : Format PlacementEntry :=
  f_iso (λ '(a, (b, (c, (d, e)))), mkPlacement a b c d e)
    (λ e, (pe_shards e, (pe_size e, (pe_crc32c e, (pe_updated e, pe_meta_len e)))))
    (f_pair (f_list f_shard_id) (f_pair f_u64 (f_pair (f_option f_u32) (f_pair f_int64 f_u16)))).

Definition f_placements : Format (list (string * PlacementEntry)) := f_list (f_pair f_string f_placement).

(** An encoder that refuses what it could not read back. *)
Definition checked {A} `{EqDecision A} (f : Format A) (a : A) : option (list byte) :=
  if decide (fst <$> parse f (emit f a) = Some a) then Some (emit f a) else None.

Lemma checked_parse {A} `{EqDecision A} (f : Format A) a b : checked f a = Some b → fst <$> parse f b = Some a.
Proof. rewrite /checked. case_decide; by intros [= <-]. Qed.

#[export] Instance flagged_catalog : CatalogCodec := {|
  json_value m := checked f_placements (map_to_list m);
  json_envelope c m := checked (f_pair f_u32 f_placements) (c, map_to_list m);
  json_plain := checked f_placements;
  parse_envelope b := fst <$> parse (f_pair f_u32 f_placements) b;
  parse_json b := fst <$> parse f_placements b;
  bincode_catalog := checked f_placements;
  parse_bincode b := fst <$> parse f_placements b;
|}.

#[export] Instance flagged_catalog_laws : CatalogCodecLaws.
Proof.
  split.
  - intros c m b _ Hb%checked_parse. exists (map_to_list m). split; [done|apply list_to_map_to_list].
  - intros l b. apply checked_parse.
  - intros l b. apply checked_parse.
Qed.

Definition example_catalog : Catalog :=
  add_replica 1700000000 "a/one" 3 10 0 (cat_put 1700000000 "a/one" [2%nat] 10 (Some 7) 5 catalog_new).
Definition example_fs : FileSystem := mkFs ∅ (λ _, None) (λ _ _, false) (λ _, false).
Definition example_path : PersistPath := mkPath "catalog.bin" "catalog.tmp".

Lemma save_atomic_witness :
  snd (save (Bincode example_path) example_catalog example_fs) = Ok tt ∧
  load (Bincode example_path) (fst (save (Bincode example_path) example_catalog example_fs)) =
    Ok (clear_dirty example_catalog).
Proof.
  assert (snd (save (Bincode example_path) example_catalog example_fs) = Ok tt) as Hr by (by vm_compute).
  split; [exact Hr|]. destruct (save _ _ _) as [fs' r] eqn:Hs. cbn [fst snd] in Hr |- *. subst r.
  apply (save_atomic (Bincode example_path) example_catalog example_fs fs' (Ok tt)); [|exact Hs|discriminate].
  intros path [= <-]. split; [discriminate|reflexivity].
Defined.

Lemma strip_shard_witness :
  (let '(c', n) := remove_all_for_shard 2 example_catalog in
   entries c' = omap (strip 2) (entries example_catalog) ∧
   n = zlen (referencing 2 (map_to_list (entries example_catalog))) ∧
   cat_dirty c' = cat_dirty example_catalog || (0 <? n)) ∧
  snd (remove_all_for_shard 2 example_catalog) = 1 ∧
  pe_shards <$> entries (fst (remove_all_for_shard 2 example_catalog)) !! "a/one" = Some [3%nat].
Proof.
  split; [|by vm_compute]. pose proof (strip_shard_spec 2 example_catalog) as Hs. exact Hs.
Defined.
