(* ===== verification/JumpHash.v ===== *)
(** * Jump consistent hash ([shardedobjstr/src/replication.rs])

    The hash steps through bucket numbers with [f64] arithmetic.  Every value
    it computes lies between 1 and 2^63, where a binary64 number is
    [mant * 2^expo] with a mantissa of at most 53 bits and an operation is the
    exact result rounded to nearest, ties to even: [round53]. *)

From S2P Require Import Prelude.

(** ** Positive binary64 numbers in the normal range *)

Record F64 : Type := mkF64 {
  mant : Z;
  expo : Z;
}.

(** [a / b / 2^e] as a fraction of integers. *)
Definition scaled (a b e : Z) : Z * Z := (a * 2 ^ Z.max 0 (- e), b * 2 ^ Z.max 0 e).

(** The quotient rounded to nearest, ties to even. *)
Definition div_nearest (n d : Z) : Z :=
  let q := n / d in
  let r := n mod d in
  if (d <? 2 * r) || ((2 * r =? d) && Z.odd q) then q + 1 else q.

(** The exponent that leaves [a / b] a 53-bit integer part. *)
Definition exponent53 (a b : Z) : Z :=
  let e := Z.log2 a - Z.log2 b - 53 in
  let '(n, d) := scaled a b e in
  if n / d <? 2 ^ 53 then e else e + 1.

Definition round53 (a b : Z) : F64 :=
  let e := exponent53 a b in
  let '(n, d) := scaled a b e in
  mkF64 (div_nearest n d) e.

Definition f64_of (n : Z) : F64 := mkF64 n 0.
Definition f64_div (x y : F64) : F64 :=
  let r := round53 (mant x) (mant y) in mkF64 (mant r) (expo r + expo x - expo y).
Definition f64_mul (x y : F64) : F64 :=
  let r := round53 (mant x * mant y) 1 in mkF64 (mant r) (expo r + expo x + expo y).

(** [as i64], which truncates. *)
Definition f64_trunc (x : F64) : Z :=
  if 0 <=? expo x then mant x * 2 ^ expo x else mant x / 2 ^ (- expo x).

#[global] Arguments round53 : simpl never.

(** ** The hash *)

(** [key.wrapping_mul(2862933555777941757).wrapping_add(1)] *)
Definition next_key (key : Z) : Z := (key * 2862933555777941757 mod two64 + 1) mod two64.

(** The next bucket after [b]. *)
Definition jump (b key : Z) : Z :=
  f64_trunc (f64_mul (f64_of (b + 1)) (f64_div (f64_of (2 ^ 31)) (f64_of (Z.shiftr key 33 + 1)))).

Fixpoint jump_loop (fuel : nat) (n key b j : Z) : Z :=
  match fuel with
  | O => b
  | S fuel' =>
    if j <? n then
      let key' := next_key key in
      jump_loop fuel' n key' j (jump j key')
    else b
  end.

Definition jump_consistent_hash (key num_buckets : Z) : Z :=
  jump_loop (Z.to_nat num_buckets) num_buckets key (-1) 0 mod 2 ^ 32.

(** [ReplicationPolicy::new] keeps the factor between one and the shard count. *)
Definition replication_factor (requested shard_count : nat) : nat := Nat.max (Nat.min requested shard_count) 1.

(** ** Examples from the published algorithm *)

Example jump_examples :
  jump_consistent_hash 2 100001 = 80343 ∧ jump_consistent_hash 2201 100001 = 22152 ∧
  jump_consistent_hash 2202 100001 = 15018 ∧ jump_consistent_hash 10863919174838991 11 = 6.
Proof. vm_compute. done. Qed.

(** ** Rounding *)

Lemma scaled_at k a b e :
  0 < a → 0 < b → 0 <= k → 0 <= k + e →
  ∃ f, 0 < f ∧ a * 2 ^ k = (scaled a b e).1 * f ∧ b * 2 ^ (k + e) = (scaled a b e).2 * f.
Proof.
  intros Ha Hb Hk Hke. exists (2 ^ (k - Z.max 0 (- e))). rewrite /scaled /=.
  rewrite -?Z.mul_assoc -?Z.pow_add_r; [|lia..]. split_and!; [apply Z.pow_pos_nonneg; lia| |]; do 2 f_equal; lia.
Qed.

Lemma scaled_pos a b e : 0 < a → 0 < b → 0 < (scaled a b e).1 ∧ 0 < (scaled a b e).2.
Proof. intros Ha Hb. rewrite /scaled /=. split; apply Z.mul_pos_pos; try done; apply Z.pow_pos_nonneg; lia. Qed.

(** The rounded quotient is the integer part or one more. *)
Lemma div_nearest_ge n d : n / d <= div_nearest n d.
Proof. rewrite /div_nearest. case_match; lia. Qed.

(** A power of two below the fraction is below its integer part. *)
Lemma scaled_floor a b e c k :
  0 < a → 0 < b → 0 <= k → 0 <= k + e → 0 <= c →
  c * (b * 2 ^ (k + e)) <= a * 2 ^ k → c <= (scaled a b e).1 / (scaled a b e).2.
Proof.
  intros Ha Hb Hk Hke Hc. destruct (scaled_at k a b e) as (f & Hf & -> & ->); [done..|].
  destruct (scaled_pos a b e) as [_ Hd]; [done..|]. intros Hle. apply Z.div_le_lower_bound; [done|]. nia.
Qed.

Lemma exponent53_bits a b :
  0 < a → 0 < b → let q := (scaled a b (exponent53 a b)).1 / (scaled a b (exponent53 a b)).2 in 2 ^ 52 <= q.
Proof.
  intros Ha Hb. cbn zeta. pose proof (Z.log2_spec a Ha) as [Hla _]. pose proof (Z.log2_spec b Hb) as [_ Hlb].
  pose proof (Z.log2_nonneg a). pose proof (Z.log2_nonneg b). rewrite /exponent53.
  set (e0 := Z.log2 a - Z.log2 b - 53). destruct (scaled a b e0) as [n d] eqn:Hs.
  set (k := Z.max 0 (- e0) + 1). destruct (Z.ltb_spec (n / d) (2 ^ 53)) as [Hlt|Hge].
  - apply (scaled_floor a b e0 (2 ^ 52) k); [lia..|].
    trans (2 ^ 52 * (2 ^ Z.succ (Z.log2 b) * 2 ^ (k + e0))).
    { apply Z.mul_le_mono_nonneg_l; [lia|]. apply Z.mul_le_mono_nonneg_r; [apply Z.pow_nonneg; lia|lia]. }
    rewrite -?Z.pow_add_r; [|lia..]. trans (2 ^ Z.log2 a * 2 ^ k); [|apply Z.mul_le_mono_nonneg_r; [apply Z.pow_nonneg; lia|lia]].
    rewrite -Z.pow_add_r; [|lia..]. apply Z.pow_le_mono_r; lia.
  - apply (scaled_floor a b (e0 + 1) (2 ^ 52) k); [lia..|].
    destruct (scaled_at k a b e0) as (f & Hf & Hn & Hd); [lia..|]. rewrite Hs /= in Hn Hd.
    replace (k + (e0 + 1)) with (k + e0 + 1) by lia. rewrite Z.pow_add_r; [|lia..]. rewrite (Z.mul_assoc b) Hd Hn.
    destruct (scaled_pos a b e0) as [_ Hd0]; [done..|]. rewrite Hs /= in Hd0.
    pose proof (Z.mul_div_le n d Hd0). nia.
Qed.

(** Rounding does not go below a 53-bit number [c * 2^s] under the fraction. *)
Lemma round53_ge a b c s k :
  0 < a → 0 < b → 0 <= c < 2 ^ 53 → 0 <= k → 0 <= k + s → 0 <= k + exponent53 a b →
  c * 2 ^ (k + s) * b <= a * 2 ^ k →
  c * 2 ^ (k + s) <= mant (round53 a b) * 2 ^ (k + expo (round53 a b)).
Proof.
  intros Ha Hb Hc Hk Hks Hke Hle. rewrite /round53. set (e := exponent53 a b) in *.
  pose proof (exponent53_bits a b Ha Hb) as Hbits. fold e in Hbits. cbn zeta in Hbits.
  pose proof (scaled_floor a b e) as Hfloor. destruct (scaled a b e) as [n d]. cbn [fst snd mant expo] in *.
  pose proof (div_nearest_ge n d) as Hnear.
  assert (0 < 2 ^ (k + e)) as Hpe by (apply Z.pow_pos_nonneg; lia).
  destruct (decide (e <= s)) as [Hes|Hes].
  - replace (k + s) with ((s - e) + (k + e)) in * by lia. rewrite Z.pow_add_r in Hle |- *; [|lia..].
    rewrite Z.mul_assoc. apply Z.mul_le_mono_nonneg_r; [lia|]. etrans; [|apply Hnear].
    apply (Hfloor _ k); [done..| |].
    + apply Z.mul_nonneg_nonneg; [lia|apply Z.pow_nonneg; lia].
    + nia.
  - trans (2 ^ 53 * 2 ^ (k + s)); [apply Z.mul_le_mono_nonneg_r; [apply Z.pow_nonneg; lia|lia]|].
    trans (2 ^ 52 * 2 ^ (k + e)); [|apply Z.mul_le_mono_nonneg_r; lia].
    rewrite -?Z.pow_add_r; [|lia..]. apply Z.pow_le_mono_r; lia.
Qed.

(** [c <= x], over a common power of two. *)
Definition f64_ge (x : F64) (c : Z) : Prop :=
  ∃ k, 0 <= k ∧ 0 <= k + expo x ∧ c * 2 ^ k <= mant x * 2 ^ (k + expo x).

Lemma f64_trunc_ge x c : f64_ge x c → c <= f64_trunc x.
Proof.
  intros (k & Hk & Hke & Hle). rewrite /f64_trunc. destruct (Z.leb_spec 0 (expo x)) as [He|He].
  - rewrite Z.add_comm Z.pow_add_r in Hle; [|done..]. rewrite Z.mul_assoc in Hle.
    assert (0 < 2 ^ k) by (apply Z.pow_pos_nonneg; lia). by eapply Z.mul_le_mono_pos_r.
  - apply Z.div_le_lower_bound; [apply Z.pow_pos_nonneg; lia|].
    replace k with (- expo x + (k + expo x)) in Hle at 1 by lia. rewrite Z.pow_add_r in Hle; [|lia..].
    assert (0 < 2 ^ (k + expo x)) by (apply Z.pow_pos_nonneg; lia). rewrite Z.mul_assoc in Hle.
    apply Z.mul_le_mono_pos_r in Hle; lia.
Qed.

Lemma round53_expo a b : expo (round53 a b) = exponent53 a b.
Proof. rewrite /round53. by destruct (scaled _ _ _). Qed.

Lemma f64_div_ge m n : 0 < n <= m → f64_ge (f64_div (f64_of m) (f64_of n)) 1.
Proof.
  intros Hn. rewrite /f64_ge /f64_div. cbn [mant expo f64_of]. set (r := round53 m n).
  pose proof (round53_expo m n) as He. fold r in He. exists (Z.max 0 (- expo r)).
  rewrite Z.add_0_r Z.sub_0_r. split_and!; [lia..|].
  pose proof (round53_ge m n 1 0 (Z.max 0 (- expo r))) as Hr. fold r in Hr. rewrite -He Z.add_0_r in Hr.
  apply Hr; [lia..|]. assert (0 < 2 ^ Z.max 0 (- expo r)) by (apply Z.pow_pos_nonneg; lia). nia.
Qed.

Lemma f64_mul_ge x c : 0 < c < 2 ^ 53 → 0 < mant x → f64_ge x 1 → f64_ge (f64_mul (f64_of c) x) c.
Proof.
  intros Hc Hx (k & Hk & Hke & Hle). rewrite /f64_ge /f64_mul. cbn [mant expo f64_of].
  set (r := round53 (c * mant x) 1). pose proof (round53_expo (c * mant x) 1) as He. fold r in He.
  assert (∃ i, 0 <= i ∧ - expo r <= i) as (i & Hi & Hri) by (exists (Z.max 0 (- expo r)); lia).
  exists (k + i). rewrite Z.add_0_r.
  pose proof (round53_ge (c * mant x) 1 c (- expo x) (k + expo x + i)) as Hr. fold r in Hr. rewrite -He in Hr.
  replace (k + expo x + i + - expo x) with (k + i) in Hr by lia.
  replace (k + i + (expo r + expo x)) with (k + expo x + i + expo r) by lia.
  assert (0 < c * mant x) by (apply Z.mul_pos_pos; lia). split_and!; [lia..|]. apply Hr; clear Hr; try lia. rewrite Z.mul_1_r.
  rewrite (Z.pow_add_r 2 k i) // (Z.pow_add_r 2 (k + expo x) i) //. rewrite Z.mul_1_l in Hle.
  assert (0 < 2 ^ i) by (apply Z.pow_pos_nonneg; lia). nia.
Qed.

(** ** Buckets go up *)

Lemma next_key_range key : 0 <= next_key key < two64.
Proof. apply Z.mod_pos_bound. done. Qed.

Lemma f64_div_pos m n : 0 < m → 0 < n → 0 < mant (f64_div (f64_of m) (f64_of n)).
Proof.
  intros Hm Hn. rewrite /f64_div. cbn [mant f64_of]. rewrite /round53.
  pose proof (exponent53_bits m n Hm Hn) as Hb. cbn zeta in Hb.
  destruct (scaled m n _) as [a b]. cbn [mant fst snd] in *. pose proof (div_nearest_ge a b). lia.
Qed.

(** Every step reaches a later bucket. *)
Lemma jump_forward b key : 0 <= b < 2 ^ 32 → 0 <= key < two64 → b < jump b key.
Proof.
  intros Hb Hk. rewrite /jump. apply Z.lt_le_trans with (b + 1); [lia|]. apply f64_trunc_ge.
  rewrite Z.shiftr_div_pow2 //. assert (0 <= key / 2 ^ 33 < 2 ^ 31) as Hq.
  { split; [apply Z.div_pos; lia|]. apply Z.div_lt_upper_bound; [lia|]. unfold two64 in Hk. lia. }
  apply f64_mul_ge; [lia|apply f64_div_pos; lia|apply f64_div_ge; lia].
Qed.

(** The loop with enough fuel, as a relation: the last bucket below [n]. *)
Lemma jump_loop_range fuel n key b j :
  0 <= n < 2 ^ 32 → -1 <= b < n → 0 <= j → b < j → n - j <= Z.of_nat fuel → 0 <= b ∨ j < n →
  0 <= jump_loop fuel n key b j < n.
Proof.
  intros Hn. revert key b j. induction fuel as [|fuel IH]; intros key b j Hb Hj Hbj Hf Hor; simpl; [lia|].
  destruct (Z.ltb_spec j n) as [Hlt|Hge]; [|lia].
  assert (j < jump j (next_key key)) by (apply jump_forward; [lia|apply next_key_range]).
  apply IH; lia.
Qed.

(** One more bucket: the same bucket, or the new one. *)
Lemma jump_loop_grow fuel fuel' n key b j :
  0 <= n < 2 ^ 32 - 1 → 0 <= j → n - j <= Z.of_nat fuel → n + 1 - j <= Z.of_nat fuel' →
  jump_loop fuel' (n + 1) key b j = jump_loop fuel n key b j ∨ jump_loop fuel' (n + 1) key b j = n.
Proof.
  intros Hn. revert fuel' key b j. induction fuel as [|fuel IH]; intros fuel' key b j Hj Hf Hf'.
  - destruct fuel' as [|fuel']; [by left|]. cbn [jump_loop]. destruct (Z.ltb_spec j (n + 1)); [|by left].
    assert (j = n) as -> by lia. right.
    assert (n < jump n (next_key key)) by (apply jump_forward; [lia|apply next_key_range]).
    destruct fuel' as [|fuel']; cbn [jump_loop]; [done|]. by destruct (Z.ltb_spec (jump n (next_key key)) (n + 1)); [lia|].
  - cbn [jump_loop]. destruct (Z.ltb_spec j n) as [Hlt|Hge].
    + destruct fuel' as [|fuel']; [lia|]. cbn [jump_loop]. destruct (Z.ltb_spec j (n + 1)); [|lia].
      assert (j < jump j (next_key key)) by (apply jump_forward; [lia|apply next_key_range]). apply IH; lia.
    + destruct fuel' as [|fuel']; [by left|]. cbn [jump_loop]. destruct (Z.ltb_spec j (n + 1)); [|by left].
      assert (j = n) as -> by lia. right.
      assert (n < jump n (next_key key)) by (apply jump_forward; [lia|apply next_key_range]).
      destruct fuel' as [|fuel']; cbn [jump_loop]; [done|]. by destruct (Z.ltb_spec (jump n (next_key key)) (n + 1)); [lia|].
Qed.

Lemma jump_loop_fuel fuel fuel' n key b j :
  0 <= n < 2 ^ 32 → 0 <= j → n - j <= Z.of_nat fuel → n - j <= Z.of_nat fuel' →
  jump_loop fuel n key b j = jump_loop fuel' n key b j.
Proof.
  intros Hn. revert fuel' key b j. induction fuel as [|fuel IH]; intros [|fuel'] key b j Hj Hf Hf';
    cbn [jump_loop]; [done|destruct (Z.ltb_spec j n); [lia|done]..|].
  destruct (Z.ltb_spec j n); [|done].
  assert (j < jump j (next_key key)) by (apply jump_forward; [lia|apply next_key_range]). apply IH; lia.
Qed.

Lemma jump_hash_loop key n :
  0 < n < 2 ^ 32 → jump_consistent_hash key n = jump_loop (Z.to_nat n) n key (-1) 0 ∧
  0 <= jump_consistent_hash key n < n.
Proof.
  intros Hn. assert (0 <= jump_loop (Z.to_nat n) n key (-1) 0 < n) as Hr by (apply jump_loop_range; lia).
  rewrite /jump_consistent_hash Z.mod_small; [|lia]. done.
Qed.

(** C40: The jump hash is consistent.  It always names a bucket that exists, and
    with one more bucket a key keeps its bucket or moves to the new one: keys
    never move between old buckets.  The loop ends: it visits each bucket at
    most once. *)
Theorem jump_hash_consistent key n :
  0 < n < 2 ^ 32 - 1 →
  0 <= jump_consistent_hash key n < n ∧
  (jump_consistent_hash key (n + 1) = jump_consistent_hash key n ∨ jump_consistent_hash key (n + 1) = n) ∧
  ∀ fuel, n <= Z.of_nat fuel → jump_loop fuel n key (-1) 0 = jump_consistent_hash key n.
Proof.
  intros Hn. destruct (jump_hash_loop key n) as [Hn1 Hr]; [lia|].
  destruct (jump_hash_loop key (n + 1)) as [Hn2 _]; [lia|]. split_and!; [lia..| |].
  - rewrite Hn1 Hn2. apply jump_loop_grow; lia.
  - intros fuel Hf. rewrite Hn1. apply jump_loop_fuel; lia.
Qed.

Lemma jump_hash_consistent_witness :
  0 <= jump_consistent_hash 2201 100000 < 100000 ∧
  (jump_consistent_hash 2201 100001 = jump_consistent_hash 2201 100000 ∨ jump_consistent_hash 2201 100001 = 100000) ∧
  jump_consistent_hash 2201 100001 = 22152.
Proof.
  destruct (jump_hash_consistent 2201 100000) as (Hr & Hg & _); [done|].
  split; [exact Hr|]. split; [exact Hg|]. by vm_compute.
Defined.
