(* ===== verification/Backend.v ===== *)
(** * What the sharded layer is built on

    What it asks of chrono, with a clock whose texts are decimal seconds, and
    of the store behind a shard. *)

From stdpp Require Import pretty.
From S2P Require Import Prelude.
From S2P Require Import Config.
From S2P Require Import StoreMeta.

(** chrono's RFC 3339 texts. *)
Class Chrono : Type := {
  to_rfc3339 : Z → string;
  parse_rfc3339 : string → option Z;
}.

(** What reading a text back promises. *)
Class ChronoLaws `{Chrono} : Prop :=
  parse_to_rfc3339 now : parse_rfc3339 (to_rfc3339 now) = Some now.

Definition digits_value (s : string) : Z :=
  foldl (λ n a, n * 10 + (Z.of_nat (Ascii.nat_of_ascii a) - 48)) 0 (String.list_ascii_of_string s).

(** Seconds in decimal, for chrono's texts. *)
#[export] Instance seconds : Chrono := {|
  to_rfc3339 t := pretty t;
  parse_rfc3339 s := Some (digits_value s);
|}.

(** * The interface of a shard

    What the sharded layer asks of the stores it is built on, the
    [object_store::ObjectStore] trait and, for raw shards, the calls of the
    storage engine it makes directly.  [ObjectBackend] names the operations,
    [ObjectBackendLaws] what a store promises: [view] is the map of its
    objects.  A write that fails may have taken effect or not. *)

Record PutResult : Type := mkPutResult {
  e_tag : option string;
  version : option string;
}.

(** [object_store::Attribute], the cases the code names. *)
Inductive Attribute : Type :=
| ContentType | CacheControl | ContentDisposition | ContentEncoding | ContentLanguage
| Metadata (suffix : string)
| OtherAttribute (name : string).

#[export] Instance Attribute_eq_dec : EqDecision Attribute.
Proof. solve_decision. Defined.

(** In the order they are iterated over. *)
Definition Attributes : Type := list (Attribute * string).

Class ObjectBackend : Type := {
  store : Type;
  store_error : Type;
  got : Type;
  get_options : Type;
  upload : Type;
  error_not_found : store_error → bool;
  (** the path a [NotFound] names *)
  error_path : store_error → string;
  error_text : store_error → string;
  got_attributes : got → Attributes;
  got_meta : got → ObjectMeta;
  store_put : Z → string → list byte → Attributes → store → store * Res store_error PutResult;
  store_get : string → store → Res store_error got;
  store_get_opts : string → get_options → store → Res store_error got;
  (** the chunks the body's stream yields, up to its end *)
  got_chunks : got → store → list (Res store_error (list byte));
  store_get_range : string → Z * Z → store → Res store_error (list byte);
  store_head : string → store → Res store_error ObjectMeta;
  (** the entity tag [head] reports *)
  store_e_tag : string → store → option string;
  store_delete : string → store → store * Res store_error unit;
  store_list : option string → store → Res store_error (list ObjectMeta);
  store_put_multipart : string → store → store * Res store_error upload;
  upload_put_part : Z → list byte → upload → store → (store * upload) * Res store_error unit;
  upload_complete : Z → upload → store → (store * upload) * Res store_error PutResult;
  upload_abort : upload → store → (store * upload) * Res store_error unit;
  raw_put_with_meta : Z → string → list byte → list byte → store → store * Res RawStoreError unit;
  raw_put_with_meta_from_file : Z → string → SourceFile → Z → store → store * Res RawStoreError unit;
  raw_set_meta_len : string → Z → store → store * Res RawStoreError unit;
  raw_head_with_meta : string → store → Res RawStoreError (ObjectMeta * Z);
  raw_get_metadata : string → store → Res RawStoreError (list byte);
  raw_list_with_meta : option string → store → list (ObjectMeta * Z);
}.

(** The chunks joined, up to the first error. *)
Fixpoint join_chunks {E} (l : list (Res E (list byte))) : Res E (list byte) :=
  match l with
  | [] => Ok []
  | r :: l' => chunk ← r; rest ← join_chunks l'; Ok (chunk ++ rest)
  end.

(** [GetResult::bytes] *)
Definition got_bytes `{ObjectBackend} (g : got) (b : store) : Res store_error (list byte) :=
  join_chunks (got_chunks g b).

(** The objects before and after a write of [k] that may have failed. *)
Definition may_have {V} (k : string) (v : option V) (m m' : gmap string V) : Prop :=
  m' = m ∨ m' = partial_alter (λ _, v) k m.

Class ObjectBackendLaws `{ObjectBackend} : Type := {
  store_ok : store → Prop;
  view : store → gmap string (list byte);
  key_ok : string → Prop;
  data_ok : Z → list byte → Prop;
  put_law b now k d attrs b' r :
    store_ok b → key_ok k → data_ok now d → store_put now k d attrs b = (b', r) →
    store_ok b' ∧
    match r with
    | Ok _ => view b' = <[k := d]> (view b)
    | Err _ => may_have k (Some d) (view b) (view b')
    | Panic => False
    end;
  delete_law b k b' r :
    store_ok b → key_ok k → store_delete k b = (b', r) →
    store_ok b' ∧
    match r with
    | Ok _ => view b' = delete k (view b)
    | Err e => may_have k None (view b) (view b') ∧ (error_not_found e = true → view b' !! k = None)
    | Panic => False
    end;
  get_law b k :
    store_ok b → key_ok k →
    match store_get k b with
    | Ok g => ∀ d, got_bytes g b = Ok d → view b !! k = Some d
    | Err _ => True
    | Panic => False
    end;
  get_range_law b k range d :
    store_ok b → key_ok k → 0 <= range.1 → 0 <= range.2 → store_get_range k range b = Ok d →
    ∃ body, view b !! k = Some body ∧
      d = ztake (Z.max 0 (Z.min range.2 (zlen body) - Z.min range.1 (zlen body))) (zdrop (Z.min range.1 (zlen body)) body);
  head_law b k :
    store_ok b → key_ok k →
    match store_head k b with
    | Ok m => ∃ d, view b !! k = Some d ∧ om_size m = zlen d
    | Err e => error_not_found e = true → view b !! k = None
    | Panic => False
    end;
  list_law b :
    store_ok b →
    match store_list None b with
    | Ok l => NoDup (om_location <$> l) ∧
        ∀ k, key_ok k → (k ∈ om_location <$> l ↔ is_Some (view b !! k))
    | Err _ => True
    | Panic => False
    end;
  (** the key an upload is for, the uploads a caller can have, and when an
      upload can be completed *)
  upload_of : upload → string;
  upload_ok : upload → Prop;
  can_complete : Z → upload → store → Prop;
  multipart_law b k b' r :
    store_ok b → key_ok k → store_put_multipart k b = (b', r) →
    store_ok b' ∧ view b' = view b ∧
    match r with Ok u => upload_ok u ∧ upload_of u = k | Err _ => True | Panic => False end;
  part_law b now d u b' u' r :
    store_ok b → data_ok now d → upload_ok u → upload_put_part now d u b = ((b', u'), r) →
    store_ok b' ∧ view b' = view b ∧ upload_ok u' ∧ upload_of u' = upload_of u ∧ r ≠ Panic;
  complete_law b now u b' u' r :
    store_ok b → upload_ok u → key_ok (upload_of u) → can_complete now u b →
    upload_complete now u b = ((b', u'), r) →
    store_ok b' ∧ upload_ok u' ∧ upload_of u' = upload_of u ∧
    match r with
    | Ok _ => ∃ d, view b' = <[upload_of u := d]> (view b)
    | Err _ => ∃ d, may_have (upload_of u) (Some d) (view b) (view b')
    | Panic => False
    end;
  abort_law b u b' u' r :
    store_ok b → upload_ok u → upload_abort u b = ((b', u'), r) → store_ok b' ∧ view b' = view b ∧ r ≠ Panic;
}.

(** What the raw stores of the registry promise about metadata. *)
Class RawBackendLaws `{ObjectBackendLaws} : Type := {
  is_raw : store → Prop;
  raw_view : store → gmap string (list byte * list byte);
  raw_view_law b : store_ok b → is_raw b → view b = fst <$> raw_view b;
  raw_put_law b now k d md b' r :
    store_ok b → is_raw b → key_ok k → data_ok now (d ++ md) → raw_put_with_meta now k d md b = (b', r) →
    store_ok b' ∧ is_raw b' ∧
    match r with
    | Ok _ => zlen md < 2 ^ 16 ∧ raw_view b' = <[k := (d, md)]> (raw_view b)
    | Err _ => raw_view b' = raw_view b
    | Panic => False
    end;
  (** a plain put is one without metadata *)
  raw_plain_law b now k d attrs b' r :
    store_ok b → is_raw b → key_ok k → data_ok now d → store_put now k d attrs b = (b', r) →
    is_raw b' ∧ raw_view b' = match r with Ok _ => <[k := (d, [])]> (raw_view b) | _ => raw_view b end;
  raw_delete_law b k b' r :
    store_ok b → is_raw b → key_ok k → store_delete k b = (b', r) →
    is_raw b' ∧ raw_view b' = match r with Ok _ => delete k (raw_view b) | _ => raw_view b end;
  raw_list_law b :
    store_ok b → is_raw b →
    NoDup (om_location ∘ fst <$> raw_list_with_meta None b) ∧
    ∀ k, key_ok k → (k ∈ om_location ∘ fst <$> raw_list_with_meta None b ↔ is_Some (raw_view b !! k));
  raw_metadata_law b k :
    store_ok b → is_raw b → key_ok k →
    match raw_get_metadata k b with
    | Ok md => ∃ d, raw_view b !! k = Some (d, md)
    | Err (NotFound _) => raw_view b !! k = None
    | Err _ => True
    | Panic => False
    end;
  raw_head_law b k :
    store_ok b → is_raw b → key_ok k →
    match raw_head_with_meta k b with
    | Ok (m, ml) => ∃ d md, raw_view b !! k = Some (d, md) ∧ om_size m = zlen d ∧ zlen md <= ml
    | Err _ => raw_view b !! k = None
    | Panic => False
    end;
}.
