(* ===== verification/Cluster.v ===== *)
(** * The sharded store: shards, health and placement ([shardedobjstr/src/lib.rs] 120-980)

    The cluster keeps its shards, the placement catalog and the counters of
    its background work.  A store behind an [Arc] is an address of [heap], so
    that the registry of raw stores and a shard can share one.  Operations
    run one after the other; the futures of a fan-out act on distinct shards
    and run in the order of the list.  At the end, where [select_targets] puts
    an object. *)

From S2P Require Import Prelude.
From S2P Require Import Config.
From S2P Require Import Extent.
From S2P Require Import Index.
From S2P Require Import StoreMeta.
From S2P Require Import Catalog.
From S2P Require Import JumpHash.
From S2P Require Import Backend.

Definition DELETE_MARKER_PREFIX : string := "__deleted__/".

(** ** Errors *)

(** [ShardError], without the formatted texts of its causes.  Where a function
    returns one, the model's error is [Generic e] for [e] itself and the store
    error for [ShardError::ObjectStore]. *)
Inductive ShardError : Type :=
| NoShards
| SNotFound (path : string)
| AllReplicasFailed (path : string)
| InsufficientWrites (path : string) (required actual : nat)
| SReadOnly
| VacuumOfflineShard (shard_id : nat)
| VacuumAlreadyRunning.

(** [object_store::Error]: a shard's own, the placeholder's, or one the
    cluster builds. *)
Inductive ObjError {E : Type} : Type :=
| FromShard (e : E)
| NotConnected (shard_id : nat)
| ObjNotFound (path : string) (source : ShardError)
| ObjAlreadyExists (path : string)
| ObjPrecondition (path : string)
| Generic (source : ShardError)
| FailedToDelete
| GenericRaw (source : RawStoreError).
Arguments ObjError : clear implicits.

(** ** Shards *)

Inductive ShardHealth : Type := Healthy | Degraded | Offline | Syncing | Detached.

#[export] Instance ShardHealth_eq_dec : EqDecision ShardHealth.
Proof. solve_decision. Defined.

Definition is_writable (h : ShardHealth) : bool := match h with Healthy | Degraded => true | _ => false end.
Definition is_unavailable (h : ShardHealth) : bool := match h with Offline | Detached => true | _ => false end.

Inductive DetachReason : Type := Manual | ProbeFailure | DeviceMissing | Drain.
Inductive ReadPreference : Type := RoundRobin | Ordered.

(** [Arc<dyn ObjectStore>]: the offline placeholder or a store. *)
Inductive StoreRef : Type :=
| Placeholder (shard_id : nat)
| At (address : nat).

Record ShardInfo : Type := mkShardInfo {
  si_store : StoreRef;
  health : ShardHealth;
  free_space : Z;
  offline_since : option Z;
  crc_error_count : Z;
  detach_reason : option DetachReason;
  suppress_replication : bool;
}.

Definition with_health (h : ShardHealth) (s : ShardInfo) : ShardInfo :=
  mkShardInfo (si_store s) h (free_space s) (offline_since s) (crc_error_count s) (detach_reason s)
    (suppress_replication s).
Definition with_since (t : option Z) (s : ShardInfo) : ShardInfo :=
  mkShardInfo (si_store s) (health s) (free_space s) t (crc_error_count s) (detach_reason s)
    (suppress_replication s).
Definition with_hold (r : option DetachReason) (b : bool) (s : ShardInfo) : ShardInfo :=
  mkShardInfo (si_store s) (health s) (free_space s) (offline_since s) (crc_error_count s) r b.
Definition with_store (r : StoreRef) (free : Z) (s : ShardInfo) : ShardInfo :=
  mkShardInfo r (health s) free (offline_since s) (crc_error_count s) (detach_reason s) (suppress_replication s).
Definition with_crc_errors (n : Z) (s : ShardInfo) : ShardInfo :=
  mkShardInfo (si_store s) (health s) (free_space s) (offline_since s) n (detach_reason s)
    (suppress_replication s).

(** How a shard stores metadata, and which raw store backs it. *)
Inductive ShardKind : Type := Raw | S3Like | Sidecar.

#[export] Instance ShardKind_eq_dec : EqDecision ShardKind.
Proof. solve_decision. Defined.

Record RawRefRegistry : Type := mkRawRefs {
  refs : list (option nat);
  kinds : list ShardKind;
}.

Definition raw_ref (r : RawRefRegistry) (id : nat) : option nat := mjoin (refs r !! id).
Definition kind (r : RawRefRegistry) (id : nat) : ShardKind := default Sidecar (kinds r !! id).

Record TrackedUpload : Type := mkTracked {
  tu_location : string;
  tu_created_at : Z;
  tu_primary : nat;
}.

Inductive StoreEvent : Type := EventPut (key : string) | EventDelete (key : string).

(** A read repair that was spawned and has not run. *)
Record RepairTask : Type := mkRepair {
  rt_key : string;
  rt_good_shard : nat;
  rt_good : StoreRef;
  rt_bad_shard : nat;
  rt_bad : StoreRef;
  rt_raw_refs : option RawRefRegistry;
}.

(** ** The cluster *)

Section cluster.
Context `{ObjectBackend}.

Record ShardedObjectStore : Type := mkCluster {
  heap : gmap nat store;
  shards : list ShardInfo;
  catalog : Catalog;
  factor : nat;
  persistence : CatalogPersistence;
  read_counter : Z;
  read_preference : ReadPreference;
  event_bus : option (list StoreEvent);
  read_only : bool;
  multipart_uploads : gmap Z TrackedUpload;
  next_upload_id : Z;
  multipart_expiry : Z;
  read_repair_count : Z;
  read_repair_success : Z;
  read_repair_failed : Z;
  min_writes : nat;
  delete_requires_min_writes : bool;
  raw_refs : option RawRefRegistry;
  vacuum_in_progress : bool;
  repairs : list RepairTask;
}.
Implicit Types (c : ShardedObjectStore).

Definition with_heap (h : gmap nat store) c : ShardedObjectStore :=
  mkCluster h (shards c) (catalog c) (factor c) (persistence c) (read_counter c) (read_preference c)
    (event_bus c) (read_only c) (multipart_uploads c) (next_upload_id c) (multipart_expiry c)
    (read_repair_count c) (read_repair_success c) (read_repair_failed c) (min_writes c)
    (delete_requires_min_writes c) (raw_refs c) (vacuum_in_progress c) (repairs c).
Definition with_shards (l : list ShardInfo) c : ShardedObjectStore :=
  mkCluster (heap c) l (catalog c) (factor c) (persistence c) (read_counter c) (read_preference c)
    (event_bus c) (read_only c) (multipart_uploads c) (next_upload_id c) (multipart_expiry c)
    (read_repair_count c) (read_repair_success c) (read_repair_failed c) (min_writes c)
    (delete_requires_min_writes c) (raw_refs c) (vacuum_in_progress c) (repairs c).
Definition with_catalog (k : Catalog) c : ShardedObjectStore :=
  mkCluster (heap c) (shards c) k (factor c) (persistence c) (read_counter c) (read_preference c)
    (event_bus c) (read_only c) (multipart_uploads c) (next_upload_id c) (multipart_expiry c)
    (read_repair_count c) (read_repair_success c) (read_repair_failed c) (min_writes c)
    (delete_requires_min_writes c) (raw_refs c) (vacuum_in_progress c) (repairs c).
Definition with_counter (n : Z) c : ShardedObjectStore :=
  mkCluster (heap c) (shards c) (catalog c) (factor c) (persistence c) n (read_preference c)
    (event_bus c) (read_only c) (multipart_uploads c) (next_upload_id c) (multipart_expiry c)
    (read_repair_count c) (read_repair_success c) (read_repair_failed c) (min_writes c)
    (delete_requires_min_writes c) (raw_refs c) (vacuum_in_progress c) (repairs c).
Definition with_events (b : option (list StoreEvent)) c : ShardedObjectStore :=
  mkCluster (heap c) (shards c) (catalog c) (factor c) (persistence c) (read_counter c) (read_preference c)
    b (read_only c) (multipart_uploads c) (next_upload_id c) (multipart_expiry c)
    (read_repair_count c) (read_repair_success c) (read_repair_failed c) (min_writes c)
    (delete_requires_min_writes c) (raw_refs c) (vacuum_in_progress c) (repairs c).
Definition with_uploads (m : gmap Z TrackedUpload) (next : Z) c : ShardedObjectStore :=
  mkCluster (heap c) (shards c) (catalog c) (factor c) (persistence c) (read_counter c) (read_preference c)
    (event_bus c) (read_only c) m next (multipart_expiry c)
    (read_repair_count c) (read_repair_success c) (read_repair_failed c) (min_writes c)
    (delete_requires_min_writes c) (raw_refs c) (vacuum_in_progress c) (repairs c).
Definition with_repairs (spawned good bad : Z) (l : list RepairTask) c : ShardedObjectStore :=
  mkCluster (heap c) (shards c) (catalog c) (factor c) (persistence c) (read_counter c) (read_preference c)
    (event_bus c) (read_only c) (multipart_uploads c) (next_upload_id c) (multipart_expiry c)
    spawned good bad (min_writes c)
    (delete_requires_min_writes c) (raw_refs c) (vacuum_in_progress c) l.
Definition with_vacuum (b : bool) c : ShardedObjectStore :=
  mkCluster (heap c) (shards c) (catalog c) (factor c) (persistence c) (read_counter c) (read_preference c)
    (event_bus c) (read_only c) (multipart_uploads c) (next_upload_id c) (multipart_expiry c)
    (read_repair_count c) (read_repair_success c) (read_repair_failed c) (min_writes c)
    (delete_requires_min_writes c) (raw_refs c) b (repairs c).

Definition on_catalog (f : Catalog → Catalog) c : ShardedObjectStore := with_catalog (f (catalog c)) c.

(** [if let Some(s) = shards.get_mut(id) { .. }] *)
Definition on_shard (id : nat) (f : ShardInfo → ShardInfo) c : ShardedObjectStore :=
  with_shards (alter f id (shards c)) c.

Definition emit_event (e : StoreEvent) c : ShardedObjectStore :=
  with_events ((λ l, l ++ [e]) <$> event_bus c) c.

Definition DEFAULT_MULTIPART_EXPIRY : Z := 24 * 60 * 60.

Definition fresh_shard (r : StoreRef) : ShardInfo := mkShardInfo r Healthy u64_max None 0 None false.
Definition offline_shard (now : Z) (id : nat) : ShardInfo :=
  mkShardInfo (Placeholder id) Offline 0 (Some now) 0 None false.

(** Both constructors: [None] is a shard that is not there at startup. *)
Definition new_cluster (now : Z) (h : gmap nat store) (stores : list (option nat)) (rf : nat) : ShardedObjectStore :=
  let shards := imap (λ id o, match o with
                              | Some a => fresh_shard (At a)
                              | None => offline_shard now id
                              end) stores in
  let shard_count := length stores in
  mkCluster h shards catalog_new (replication_factor rf shard_count) PersistNone 0 RoundRobin None false ∅ 1
    DEFAULT_MULTIPART_EXPIRY 0 0 0 (Nat.max (Nat.min rf shard_count - 1) 1) false None false [].

Definition with_min_writes (n : nat) c : ShardedObjectStore :=
  mkCluster (heap c) (shards c) (catalog c) (factor c) (persistence c) (read_counter c) (read_preference c)
    (event_bus c) (read_only c) (multipart_uploads c) (next_upload_id c) (multipart_expiry c)
    (read_repair_count c) (read_repair_success c) (read_repair_failed c) (Nat.min (Nat.max n 1) (factor c))
    (delete_requires_min_writes c) (raw_refs c) (vacuum_in_progress c) (repairs c).

(** ** Health *)

Definition shard_health c (id : nat) : option ShardHealth := health <$> shards c !! id.
Definition shard_store c (id : nat) : option StoreRef := si_store <$> shards c !! id.

(** The state a shard is left in by [set_shard_health]. *)
Definition change_health (now : Z) (h : ShardHealth) (s : ShardInfo) : ShardInfo :=
  let prev := health s in
  let s := with_health h s in
  if is_unavailable h || bool_decide (h = Degraded) then
    if negb (is_unavailable prev) && bool_decide (prev ≠ Degraded) then with_since (Some now) s else s
  else if decide (h = Healthy) then with_hold None false (with_since None s)
  else s.

Definition set_shard_health (now : Z) (id : nat) (h : ShardHealth) c : ShardedObjectStore * option ShardHealth :=
  (on_shard id (change_health now h) c, shard_health c id).

Definition detach (now : Z) (id : nat) (h : ShardHealth) (s : ShardInfo) : ShardInfo :=
  let prev := health s in
  let s := with_health h (with_store (Placeholder id) 0 s) in
  if is_unavailable prev then s else with_since (Some now) s.

Definition detach_shard (now : Z) (id : nat) c : ShardedObjectStore * option ShardHealth :=
  (on_shard id (detach now id Offline) c, shard_health c id).

Definition hold_offline (now : Z) (id : nat) (suppress : bool) (reason : DetachReason) c :
    ShardedObjectStore * option ShardHealth :=
  (on_shard id (λ s, with_hold (Some reason) suppress (detach now id Detached s)) c, shard_health c id).

Definition release_hold (id : nat) c : ShardedObjectStore * bool :=
  match shards c !! id with
  | Some s =>
    if decide (health s = Detached)
    then (on_shard id (λ s, with_hold None false (with_health Offline s)) c, true)
    else (c, false)
  | None => (c, false)
  end.

Definition set_detach_reason (id : nat) (reason : DetachReason) c : ShardedObjectStore :=
  on_shard id (λ s, with_hold (Some reason) (suppress_replication s) s) c.

Definition set_shard_free_space (id : nat) (free : Z) c : ShardedObjectStore :=
  on_shard id (λ s, with_store (si_store s) free s) c.
End cluster.

(** ** Placement *)

(** [Iterator::max_by_key] keeps the last maximum, [min_by_key] the first minimum. *)
Definition max_by_key {A} (key : A → Z) (l : list A) : option A :=
  foldl (λ acc x, match acc with
                  | Some y => if key y <=? key x then Some x else Some y
                  | None => Some x
                  end) None l.
Definition min_by_key {A} (key : A → Z) (l : list A) : option A :=
  foldl (λ acc x, match acc with
                  | Some y => if key x <? key y then Some x else Some y
                  | None => Some x
                  end) None l.

Section placement.
Context `{ObjectBackend, Crc32c, HashMapOrder}.
Implicit Types (c : ShardedObjectStore).

Definition accepts_writes (s : ShardInfo) : bool :=
  negb (is_unavailable (health s)) && bool_decide (health s ≠ Syncing).
Definition reachable (s : ShardInfo) : bool := negb (is_unavailable (health s)).

(** [shards.get(id).map(p).unwrap_or(false)] *)
Definition shard_is (p : ShardInfo → bool) c (id : nat) : bool :=
  match shards c !! id with Some s => p s | None => false end.

Definition all_shards c : list nat := seq 0 (length (shards c)).

(** The loop that picks [rf] shards. *)
Fixpoint pick (rf : nat) (writable : nat → bool) (ids targets : list nat) : list nat :=
  match ids with
  | [] => targets
  | id :: ids' =>
    if writable id then
      let targets := targets ++ [id] in
      if decide (length targets = rf) then targets else pick rf writable ids' targets
    else pick rf writable ids' targets
  end.

(** [jump_consistent_hash(hash, n as u32)] for the key's checksum. *)
Definition home_shard (key : string) (n : nat) : nat :=
  Z.to_nat (jump_consistent_hash (crc32c (as_bytes key)) (Z.of_nat n mod 2 ^ 32)).

Definition select_targets c (path : string) : list nat :=
  let rf := factor c in
  let n := length (shards c) in
  if decide (n = 0)%nat then []
  else
    let writable := shard_is accepts_writes c in
    let candidates := filter (λ id, writable id = true) (seq 0 n) in
    if decide (length candidates <= rf)%nat then candidates
    else pick rf writable ((λ offset, (home_shard path n + offset) mod n)%nat <$> seq 0 n) [].

Definition balanced_shard_order (l : list nat) c : ShardedObjectStore * list nat :=
  if decide (length l <= 1)%nat then (c, l)
  else
    let idx := (Z.to_nat (read_counter c) mod length l)%nat in
    (with_counter ((read_counter c + 1) mod two64) c, drop idx l ++ take idx l).

(** How far clockwise from home a shard is: [(id + n - home) % n]. *)
Definition ring_distance (n home id : nat) : nat := ((id + n - home) mod n)%nat.

Definition nearer (n home x y : nat) : Prop := (ring_distance n home x <= ring_distance n home y)%nat.

#[export] Instance nearer_dec n home : RelDecision (nearer n home).
Proof. intros x y. unfold nearer. apply _. Defined.

(** The shards to read from, in order, and whether the catalog had no entry. *)
Definition resolve_shards (key : string) c : ShardedObjectStore * (list nat * bool) :=
  let n := length (shards c) in
  let '(raw, is_fallback) :=
    match entries (catalog c) !! key with
    | Some e => (filter (λ id, shard_is reachable c id = true) (pe_shards e), false)
    | None =>
      let home := home_shard key n in
      (merge_sort (nearer n home) (filter (λ id, shard_is reachable c id = true) (seq 0 n)), true)
    end in
  let '(c, ordered) := match read_preference c with
                       | Ordered => (c, raw)
                       | RoundRobin => balanced_shard_order raw c
                       end in
  (c, (ordered, is_fallback)).

(** The text of an error a shard returned; for the placeholder, of its source.
    The cluster renders no other. *)
Definition error_to_string (e : ObjError store_error) : string :=
  match e with
  | FromShard e => error_text e
  | NotConnected id => "shard " +:+ pretty id +:+ " is offline"
  | _ => ""
  end.

(** [msg.contains("data corruption")] *)
Definition says_corruption (e : ObjError store_error) : bool := str_contains "data corruption" (error_to_string e).

Definition handle_read_error (shard_id : nat) (key : string) (e : ObjError store_error) c : ShardedObjectStore * bool :=
  if negb (says_corruption e) then (c, false)
  else match shards c !! shard_id with
       | None => (c, true)
       | Some s =>
         let c := on_shard shard_id (with_crc_errors ((crc_error_count s + 1) mod two64)) c in
         (on_catalog (remove_shard key shard_id) c, true)
       end.

(** ** Where replicas are missing or in excess *)

(** How many of an entry's shards satisfy [p]. *)
Definition count_shards (p : ShardInfo → bool) c (e : PlacementEntry) : nat :=
  length (filter (λ id, shard_is p c id = true) (pe_shards e)).

Definition is_healthy (s : ShardInfo) : bool := bool_decide (health s = Healthy).

Definition find_under_replicated c : list (string * nat) :=
  omap (λ '(k, e),
    let n := count_shards (λ s, bool_decide (health s = Healthy ∨ health s = Syncing)) c e in
    if decide (n < factor c)%nat then Some (k, n) else None) (hm_iter (entries (catalog c))).

Definition find_over_replicated c : list (string * nat) :=
  omap (λ '(k, e),
    let n := count_shards accepts_writes c e in
    if decide (factor c < n)%nat then Some (k, n) else None) (hm_iter (entries (catalog c))).

Definition free_of c (id : nat) : Z := match shards c !! id with Some s => free_space s | None => 0 end.

Definition find_replication_target c (key : string) : option nat :=
  let existing := match entries (catalog c) !! key with Some e => pe_shards e | None => [] end in
  max_by_key (free_of c)
    (filter (λ id, id ∉ existing ∧ shard_is is_healthy c id = true) (all_shards c)).

Definition pick_excess_shard c (key : string) : option nat :=
  e ← entries (catalog c) !! key;
  if decide (length (pe_shards e) <= factor c)%nat then None
  else
    let healthy := filter (λ id, shard_is is_healthy c id = true) (pe_shards e) in
    min_by_key (free_of c)
      (filter (λ candidate, (factor c <= length (filter (λ s, s ≠ candidate) healthy))%nat) healthy).

(** Entries per healthy shard. *)
Definition shard_object_counts c : list (nat * nat) :=
  let listed := hm_iter (entries (catalog c)) ≫= (λ '(_, e), pe_shards e) in
  let count := λ id, length (filter (λ s, s = id) listed) in
  (λ id, (id, count id)) <$> filter (λ id, shard_is is_healthy c id = true) (all_shards c).
End placement.

(** * Where the sharded store puts objects

    The shards [select_targets] picks, and the read orders. *)

Section placement.
Context `{ObjectBackend, Crc32c, HashMapOrder}.
Implicit Types (c : ShardedObjectStore).

(** The loop takes the first [rf] writable shards of the list. *)
Lemma pick_take rf writable ids targets :
  (length targets < rf)%nat →
  pick rf writable ids targets = targets ++ take (rf - length targets) (filter (λ id, writable id = true) ids).
Proof.
  revert targets. induction ids as [|id ids IH]; intros targets Hlen; cbn [pick].
  { by rewrite filter_nil take_nil app_nil_r. }
  destruct (writable id) eqn:Hw.
  - rewrite filter_cons_True //. case_decide as Hl; rewrite length_app /= in Hl.
    + replace (rf - length targets)%nat with 1%nat by lia. by rewrite /= take_0.
    + rewrite IH length_app /=; [|lia]. replace (rf - length targets)%nat with (S (rf - (length targets + 1))) by lia.
      by rewrite /= -app_assoc.
  - rewrite filter_cons_False ?Hw //. by apply IH.
Qed.

(** The ring from a home shard on. *)
Definition ring (n home : nat) : list nat := (λ offset, ((home + offset) mod n)%nat) <$> seq 0 n.

Lemma ring_NoDup n home : NoDup (ring n home).
Proof.
  rewrite /ring. apply NoDup_fmap_2_strong; [|apply NoDup_seq].
  intros x y Hx Hy Heq. apply elem_of_seq in Hx, Hy.
  pose proof (Nat.div_mod_eq (home + x) n). pose proof (Nat.div_mod_eq (home + y) n).
  assert (Z.of_nat ((home + x) / n) = Z.of_nat ((home + y) / n)); nia.
Qed.

Lemma elem_of_ring n home id : (0 < n)%nat → id ∈ ring n home ↔ (id < n)%nat.
Proof.
  intros Hn. split.
  - rewrite /ring list_elem_of_fmap. intros (x & -> & _). apply Nat.mod_upper_bound. lia.
  - intros Hid. assert (ring n home ≡ₚ seq 0 n) as Hp.
    { apply submseteq_length_Permutation; [|by rewrite /ring length_fmap].
      apply NoDup_submseteq; [apply ring_NoDup|]. intros x. rewrite /ring list_elem_of_fmap elem_of_seq.
      intros (y & -> & _). pose proof (Nat.mod_upper_bound (home + y) n). lia. }
    rewrite Hp elem_of_seq. lia.
Qed.

Lemma ring_perm n home : (0 < n)%nat → ring n home ≡ₚ seq 0 n.
Proof.
  intros Hn. apply NoDup_Permutation; [apply ring_NoDup|apply NoDup_seq|].
  intros x. rewrite elem_of_ring // elem_of_seq. lia.
Qed.

(** The shards that take writes. *)
Definition candidates c : list nat := filter (λ id, shard_is accepts_writes c id = true) (all_shards c).

Lemma select_targets_ring c path :
  (1 <= factor c)%nat →
  select_targets c path =
    if decide (length (candidates c) <= factor c)%nat then candidates c
    else take (factor c) (filter (λ id, shard_is accepts_writes c id = true)
           (ring (length (shards c)) (home_shard path (length (shards c))))).
Proof.
  intros Hf. rewrite /select_targets /candidates /all_shards. destruct (decide (length (shards c) = 0)%nat) as [->|Hn].
  { case_decide; [done|]. by rewrite /ring /= take_nil. }
  case_decide; [done|]. rewrite pick_take /=; [|lia]. by rewrite Nat.sub_0_r.
Qed.

Lemma candidates_NoDup c : NoDup (candidates c).
Proof. apply NoDup_filter, NoDup_seq. Qed.

Lemma elem_of_candidates c id :
  id ∈ candidates c ↔ ∃ s, shards c !! id = Some s ∧ accepts_writes s = true.
Proof.
  rewrite /candidates list_elem_of_filter /all_shards elem_of_seq /shard_is. split.
  - intros [Ha _]. destruct (shards c !! id) as [s|]; [|done]. by exists s.
  - intros (s & Hs & Ha). rewrite Hs. apply lookup_lt_Some in Hs. split; [done|lia].
Qed.

Lemma ring_candidates c home :
  (0 < length (shards c))%nat →
  filter (λ id, shard_is accepts_writes c id = true) (ring (length (shards c)) home) ≡ₚ candidates c.
Proof. intros Hn. by rewrite ring_perm. Qed.

(** Distinct shards that take writes, as many as the factor asks for. *)
Lemma select_targets_spec c path :
  (1 <= factor c)%nat →
  NoDup (select_targets c path) ∧
  (∀ id, id ∈ select_targets c path → id ∈ candidates c) ∧
  length (select_targets c path) = Nat.min (factor c) (length (candidates c)).
Proof.
  intros Hf. rewrite select_targets_ring //. case_decide as Hle.
  { split_and!; [apply candidates_NoDup|done|lia]. }
  assert (0 < length (shards c))%nat as Hn.
  { destruct (shards c) as [|s l] eqn:Hs; [|simpl; lia]. rewrite /candidates /all_shards Hs /= in Hle. lia. }
  set (l := filter _ (ring _ _)). pose proof (ring_candidates c (home_shard path (length (shards c))) Hn) as Hp.
  fold l in Hp. assert (NoDup l) as Hnd by (rewrite Hp; apply candidates_NoDup). split_and!.
  - eapply sublist_NoDup; [done|apply sublist_take].
  - intros id Hin. rewrite -Hp. by apply elem_of_take in Hin as (i & Hi%list_elem_of_lookup_2 & _).
  - rewrite length_take Hp. lia.
Qed.

Lemma select_targets_exist c path id :
  (1 <= factor c)%nat → id ∈ select_targets c path → (id < length (shards c))%nat.
Proof.
  intros Hf Hin. apply (select_targets_spec c path Hf) in Hin. apply elem_of_candidates in Hin as (s & Hs & _).
  by eapply lookup_lt_Some.
Qed.
End placement.
