(* ===== verification/ClusterIo.v ===== *)
(** * The sharded store: writing, reading and deleting ([shardedobjstr/src/lib.rs] 840-3250)

    The fan-out of a write with its retry and quorum, the read path with
    failover, delete markers and their vacuum, and the [ObjectStore] calls
    over them. *)

From S2P Require Import Prelude.
From S2P Require Import Config.
From S2P Require Import Extent.
From S2P Require Import Index.
From S2P Require Import StoreTools.
From S2P Require Import StoreMeta.
From S2P Require Import ObjectStoreApi.
From S2P Require Import Tlv.
From S2P Require Import Catalog.
From S2P Require Import JumpHash.
From S2P Require Import Backend.
From S2P Require Import Cluster.

(** [m]'s outcome as a value; [let _ = m]. *)
Definition sm_try {S E F A} (m : SM S E A) : SM S F (E + A) := λ s,
  match m s with
  | (s', Ok a) => (s', Ok (inr a))
  | (s', Err e) => (s', Ok (inl e))
  | (s', Panic) => (s', Panic)
  end.
Definition sm_ignore {S E F A} (m : SM S E A) : SM S F unit := sm_try m ;;; sm_ret tt.

Section io.
Context `{ObjectBackend, Crc32c, HashMapOrder, ObjectPath, Chrono}.

Definition Error : Type := ObjError store_error.
Definition CM (A : Type) : Type := SM ShardedObjectStore Error A.
Implicit Types (c : ShardedObjectStore).

(** ** Calls on a store *)

Definition on_store {A} (r : StoreRef) (f : store → store * Res store_error A) : CM A := λ c,
  match r with
  | Placeholder id => (c, Err (NotConnected id))
  | At a =>
    match heap c !! a with
    | None => (c, Panic)
    | Some b => let '(b', res) := f b in (with_heap (<[a := b']> (heap c)) c, map_err FromShard res)
    end
  end.

Definition ask_store {A} (r : StoreRef) (f : store → Res store_error A) : CM A := λ c,
  (c, match r with
      | Placeholder id => Err (NotConnected id)
      | At a => match heap c !! a with None => Panic | Some b => map_err FromShard (f b) end
      end).

(** A [GetResult] reads from the store it came from. *)
Definition Got : Type := StoreRef * got.
Definition bytes (g : Got) : CM (list byte) := ask_store g.1 (got_bytes g.2).

(** The stores of the shards that exist, cloned under the lock. *)
Definition stores_of c (ids : list nat) : list (nat * StoreRef) :=
  omap (λ id, pair id <$> shard_store c id) ids.

(** [join_all]: every call runs to its end. *)
Fixpoint fan_out {A} (f : nat → StoreRef → CM A) (l : list (nat * StoreRef)) : CM (list (nat * (Error + A))) :=
  match l with
  | [] => sm_ret []
  | (id, r) :: l' => o <- sm_try (f id r) ;; rest <- fan_out f l' ;; sm_ret ((id, o) :: rest)
  end.

Definition placed_of {E A} (outcomes : list (nat * (E + A))) : list nat :=
  omap (λ '(id, o), match o with inr _ => Some id | inl _ => None end) outcomes.
Definition failed_of {E A} (outcomes : list (nat * (E + A))) : list nat :=
  omap (λ '(id, o), match o with inr _ => None | inl _ => Some id end) outcomes.
Definition first_result {A} (outcomes : list (nat * (Error + A))) : option A :=
  head (omap (λ '(_, o), match o with inr a => Some a | inl _ => None end) outcomes).

(** ** Sidecars *)

Definition meta_sidecar_path (location : string) : string := path_from (location +:+ ".__meta__").

Definition delete_sidecar_of (location : string) (r : StoreRef) : CM unit :=
  sm_ignore (F := Error) (on_store r (store_delete (meta_sidecar_path location))).

Definition cleanup_sidecar (location : string) (k : ShardKind) (r : StoreRef) : CM unit :=
  if decide (k = Sidecar) then delete_sidecar_of location r else sm_ret tt.

Definition cleanup_sidecar_maybe (location : string) (refs : option RawRefRegistry) (id : nat) (r : StoreRef) :
    CM unit :=
  if match refs with Some g => bool_decide (kind g id = Sidecar) | None => true end
  then delete_sidecar_of location r else sm_ret tt.

(** ** Writing *)

Definition put_on (now : Z) (location : string) (data : list byte) (id : nat) (r : StoreRef) : CM PutResult :=
  on_store r (store_put now location data []).

Definition mark_offline (now : Z) (ids : list nat) c : ShardedObjectStore :=
  foldl (λ c id, (set_shard_health now id Offline c).1) c ids.
Definition mark_degraded (now : Z) (ids : list nat) c : ShardedObjectStore :=
  foldl (λ c id, if bool_decide (shard_health c id = Some Healthy) then (set_shard_health now id Degraded c).1 else c)
    c ids.

(** The shards to retry on, when every write failed. *)
Definition mark_write_failures (now : Z) (placed failed tried : list nat) (location : string) c :
    ShardedObjectStore * list nat :=
  if decide (placed = [] ∧ failed ≠ []) then
    let c := mark_offline now failed c in
    (c, filter (λ id, id ∉ tried) (select_targets c location))
  else if decide (failed ≠ []) then (mark_degraded now failed c, [])
  else (c, []).

Definition cleanup_one (location : string) (id : nat) (r : StoreRef) : CM unit :=
  refs <- sm_get ;;
  outcome <- sm_try (on_store r (store_delete location)) ;;
  cleanup_sidecar location (match raw_refs refs with Some g => kind g id | None => Sidecar end) r ;;;
  match outcome with inl e => sm_err e | inr _ => sm_ret tt end.

Definition cleanup_orphaned_writes (location : string) (placed : list nat) : CM unit :=
  c <- sm_get ;;
  match entries (catalog c) !! location with
  | Some _ => sm_ret tt
  | None => fan_out (cleanup_one location) (stores_of c placed) ;;; sm_ret tt
  end.

(** The state change and result of a function on the cluster. *)
Definition sm_apply {E A} (f : ShardedObjectStore → ShardedObjectStore * A) : SM ShardedObjectStore E A := λ c,
  let '(c', a) := f c in (c', Ok a).

(** All writes failed: one more fan-out, on fresh targets. *)
Definition retry_writes (now : Z) (location : string) (data : list byte) (retry_ids : list nat) :
    CM (option PutResult * list nat) :=
  c <- sm_get ;;
  outcomes <- fan_out (put_on now location data) (stores_of c retry_ids) ;;
  let placed := placed_of outcomes in
  if decide (placed = []) then sm_err (Generic (AllReplicasFailed location))
  else sm_ret (first_result outcomes, placed).

(** [if placed.len() < min_required] *)
Definition enforce_quorum (location : string) (min_required : nat) (cleanup_on_fail : bool)
    (landed : option PutResult * list nat) : CM (option PutResult * list nat) :=
  if decide (length landed.2 < min_required)%nat then
    (if cleanup_on_fail then cleanup_orphaned_writes location landed.2 else sm_ret tt) ;;;
    sm_err (Generic (InsufficientWrites location min_required (length landed.2)))
  else sm_ret landed.

Definition write_to_shards_inner (now : Z) (location : string) (data : list byte) (targets : list nat)
    (min_required : nat) (cleanup_on_fail : bool) : CM (option PutResult * list nat) :=
  c <- sm_get ;;
  outcomes <- fan_out (put_on now location data) (stores_of c targets) ;;
  let placed := placed_of outcomes in
  let failed := failed_of outcomes in
  retry_ids <- sm_apply (mark_write_failures now placed failed targets location) ;;
  landed <- (if decide (placed = [] ∧ failed ≠ [])
             then retry_writes now location data retry_ids
             else sm_ret (first_result outcomes, placed)) ;;
  enforce_quorum location min_required cleanup_on_fail landed.

Definition write_to_shards (now : Z) (location : string) (data : list byte) (targets : list nat) :
    CM (PutResult * list nat) :=
  c <- sm_get ;;
  landed <- write_to_shards_inner now location data targets (min_writes c) true ;;
  match landed.1 with Some r => sm_ret (r, landed.2) | None => sm_panic end.

Definition write_to_shards_best_effort (now : Z) (location : string) (data : list byte) (targets : list nat) :
    CM (list nat) :=
  landed <- write_to_shards_inner now location data targets 1 false ;;
  sm_ret landed.2.

(** ** Deleting *)

Definition delete_on (location : string) (id : nat) (r : StoreRef) : CM unit :=
  c <- sm_get ;;
  cleanup_sidecar_maybe location (raw_refs c) id r ;;;
  on_store r (store_delete location).

Definition error_is_not_found (e : Error) : bool :=
  match e with FromShard e => error_not_found e | ObjNotFound _ _ => true | _ => false end.

(** A delete that finds nothing counts as done. *)
Definition deleted_of (outcomes : list (nat * (Error + unit))) : list nat :=
  omap (λ '(id, o), match o with
                    | inr _ => Some id
                    | inl e => if error_is_not_found e then Some id else None
                    end) outcomes.
Definition undeleted_of (outcomes : list (nat * (Error + unit))) : list (nat * Error) :=
  omap (λ '(id, o), match o with
                    | inr _ => None
                    | inl e => if error_is_not_found e then None else Some (id, e)
                    end) outcomes.

Definition delete_shards c (key : string) : list nat :=
  filter (λ id, shard_is reachable c id = true)
    match entries (catalog c) !! key with Some e => pe_shards e | None => all_shards c end.

Definition drop_replicas (key : string) (ids : list nat) (k : Catalog) : Catalog :=
  foldl (λ k id, remove_shard key id k) k ids.

Definition delete_raw (location : string) : CM unit :=
  c <- sm_get ;;
  outcomes <- fan_out (delete_on location) (stores_of c (delete_shards c location)) ;;
  let succeeded := deleted_of outcomes in
  let failed := undeleted_of outcomes in
  match last failed with
  | None => sm_modify (on_catalog (λ k, (cat_remove location k).1))
  | Some (_, last_err) =>
    sm_modify (on_catalog (drop_replicas location succeeded)) ;;;
    if delete_requires_min_writes c
    then if decide (min_writes c <= length succeeded)%nat then sm_ret tt else sm_err last_err
    else if decide (succeeded = []) then sm_err last_err else sm_ret tt
  end.

(** ** Delete markers *)

Definition delete_marker_key (key : string) : string := DELETE_MARKER_PREFIX +:+ key.
Definition is_delete_marker (key : string) : bool := String.prefix DELETE_MARKER_PREFIX key.

Definition put_delete_marker (now : Z) (key : string) : CM Z :=
  let marker_key := delete_marker_key key in
  let body := as_bytes (to_rfc3339 now) in
  let path := path_from marker_key in
  c <- sm_get ;;
  let all_healthy := filter (λ id, shard_is reachable c id = true) (all_shards c) in
  if decide (all_healthy = []) then sm_err (Generic NoShards)
  else
    placed <- (if delete_requires_min_writes c
               then landed <- write_to_shards now path body all_healthy ;; sm_ret landed.2
               else write_to_shards_best_effort now path body all_healthy) ;;
    sm_modify (on_catalog (cat_put now marker_key placed (zlen body) None 0)) ;;;
    sm_ret now.

Definition remove_delete_marker (key : string) : CM unit := delete_raw (path_from (delete_marker_key key)).

(** ** Reading *)

Definition not_found_err (location : string) : Error := ObjNotFound location (SNotFound location).

(** The raw store registered for a shard. *)
Definition raw_of (refs : option RawRefRegistry) (id : nat) : option nat := g ← refs; raw_ref g id.

(** A call on a raw store through the registry; [None] when it fails. *)
Definition raw_ok {A} (a : nat) (f : store → Res RawStoreError A) c : option A :=
  b ← heap c !! a; match f b with Ok x => Some x | _ => None end.

(** Size and metadata length for the catalog after a read that missed it. *)
Definition found_size (location : string) (refs : option RawRefRegistry) (id : nat) (r : StoreRef) : CM (Z * Z) := λ c,
  match a ← raw_of refs id; raw_ok a (raw_head_with_meta location) c with
  | Some (meta, ml) => (c, Ok (om_size meta, ml))
  | None =>
    match ask_store r (store_head location) c with
    | (c, Ok meta) => (c, Ok (om_size meta, 0))
    | (c, Err _) => (c, Ok (0, 0))
    | (c, Panic) => (c, Panic)
    end
  end.

Definition schedule_read_repair (key : string) (good bad : nat) c : ShardedObjectStore :=
  let c := with_repairs ((read_repair_count c + 1) mod two64) (read_repair_success c) (read_repair_failed c)
             (repairs c) c in
  let usable := λ id, s ← shards c !! id; if reachable s then Some (si_store s) else None in
  match usable good, usable bad with
  | Some g, Some b =>
    with_repairs (read_repair_count c) (read_repair_success c) (read_repair_failed c)
      (repairs c ++ [mkRepair key good g bad b (raw_refs c)]) c
  | _, _ => c
  end.

(** Try the replicas in order. *)
Fixpoint try_replicas {A} (now : Z) (op : store → Res store_error A) (location : string) (is_fallback : bool)
    (refs : option RawRefRegistry) (l : list (nat * StoreRef)) (last_err : option Error) (corrupted : list nat) :
    CM (StoreRef * A) :=
  match l with
  | [] => sm_err (default (not_found_err location) last_err)
  | (id, r) :: l' =>
    o <- sm_try (ask_store r op) ;;
    match o with
    | inr result =>
      (if is_fallback
       then found <- found_size location refs id r ;;
            sm_modify (on_catalog (add_replica now location id found.1 found.2))
       else sm_ret tt) ;;;
      sm_modify (λ c, foldl (λ c bad, schedule_read_repair location id bad c) c corrupted) ;;;
      sm_ret (r, result)
    | inl e =>
      is_crc <- sm_apply (handle_read_error id location e) ;;
      try_replicas now op location is_fallback refs l' (Some e) (if is_crc then corrupted ++ [id] else corrupted)
    end
  end.

Definition read_with_fallback {A} (now : Z) (location : string) (op : store → Res store_error A) : CM (StoreRef * A) :=
  if is_delete_marker location then sm_err (not_found_err location)
  else
    order <- sm_apply (resolve_shards location) ;;
    c <- sm_get ;;
    try_replicas now op location order.2 (if order.2 then raw_refs c else None) (stores_of c order.1) None [].

Definition get (now : Z) (location : string) : CM Got := read_with_fallback now location (store_get location).

Definition get_range (now : Z) (location : string) (range : Z * Z) : CM (list byte) :=
  found <- read_with_fallback now location (store_get_range location range) ;; sm_ret found.2.

(** The first replica that answers; [found] is what a miss records. *)
Fixpoint first_answer {A} (op : store → Res store_error A) (found : nat → StoreRef → A → CM unit)
    (location : string) (l : list (nat * StoreRef)) (last_err : option Error) : CM (StoreRef * A) :=
  match l with
  | [] => sm_err (default (not_found_err location) last_err)
  | (id, r) :: l' =>
    o <- sm_try (ask_store r op) ;;
    match o with
    | inr a => found id r a ;;; sm_ret (r, a)
    | inl e => first_answer op found location l' (Some e)
    end
  end.

Definition head (now : Z) (location : string) : CM ObjectMeta :=
  if is_delete_marker location then sm_err (not_found_err location)
  else
    order <- sm_apply (resolve_shards location) ;;
    c <- sm_get ;;
    let found id r meta :=
      if order.2 then
        sm_modify (λ c,
          let ml := match a ← raw_of (raw_refs c) id; raw_ok a (raw_head_with_meta location) c with
                    | Some (_, ml) => ml
                    | None => 0
                    end in
          on_catalog (add_replica now location id (om_size meta) ml) c)
      else sm_ret tt in
    found <- first_answer (store_head location) found location (stores_of c order.1) None ;;
    sm_ret found.2.

Definition get_raw (now : Z) (location : string) : CM Got :=
  order <- sm_apply (resolve_shards location) ;;
  c <- sm_get ;;
  let found id r (_ : got) :=
    if order.2 then
      h <- sm_try (ask_store r (store_head location)) ;;
      let size := match h with inr meta => om_size meta | inl _ => 0 end in
      sm_modify (on_catalog (add_replica now location id size 0))
    else sm_ret tt in
  first_answer (store_get location) found location (stores_of c order.1) None.

Definition head_raw (now : Z) (location : string) : CM ObjectMeta :=
  order <- sm_apply (resolve_shards location) ;;
  c <- sm_get ;;
  let found id (r : StoreRef) meta :=
    if order.2 then sm_modify (on_catalog (add_replica now location id (om_size meta) 0)) else sm_ret tt in
  found <- first_answer (store_head location) found location (stores_of c order.1) None ;;
  sm_ret found.2.

(** The deletion time a marker records, when it can be read. *)
Definition get_delete_marker (now : Z) (key : string) : CM (option Z) :=
  data <- sm_try (g <- get_raw now (path_from (delete_marker_key key)) ;; bytes g) ;;
  sm_ret match data with
         | inr data => if utf8_valid data then parse_rfc3339 (String.string_of_list_byte data) else None
         | inl _ => None
         end.

Fixpoint read_markers (now : Z) (keys : list string) : CM (list (string * Z)) :=
  match keys with
  | [] => sm_ret []
  | key :: keys' =>
    t <- get_delete_marker now key ;;
    rest <- read_markers now keys' ;;
    sm_ret match t with Some t => (key, t) :: rest | None => rest end
  end.

Definition list_delete_markers (now : Z) : CM (list (string * Z)) :=
  c <- sm_get ;;
  let listed := cat_list path_from (Some (path_from DELETE_MARKER_PREFIX)) (catalog c) in
  read_markers now (omap (λ m, strip_prefix DELETE_MARKER_PREFIX (listed_location m)) listed).

(** ** Vacuum *)

Definition blocks_vacuum (s : ShardInfo) : bool := is_unavailable (health s) || bool_decide (health s = Degraded).

(** One marker: is it stale, missed or applied? *)
Definition vacuum_marker (now : Z) (m : string * Z) : CM nat :=
  let '(key, deleted_at) := m in
  let path := path_from key in
  live <- sm_try (head_raw now path) ;;
  match live with
  | inr meta =>
    if deleted_at <? om_last_modified meta
    then sm_ignore (remove_delete_marker key) ;;; sm_ret O
    else sm_ignore (delete_raw path) ;;; sm_ignore (remove_delete_marker key) ;;; sm_ret 1%nat
  | inl _ => sm_ignore (remove_delete_marker key) ;;; sm_ret O
  end.

Fixpoint vacuum_markers (now : Z) (l : list (string * Z)) : CM nat :=
  match l with
  | [] => sm_ret O
  | m :: l' => n <- vacuum_marker now m ;; rest <- vacuum_markers now l' ;; sm_ret (n + rest)%nat
  end.

(** Markers purged and stale objects cleaned. *)
Definition vacuum_delete_markers_inner (now : Z) : CM (nat * nat) :=
  c <- sm_get ;;
  match list_find (λ s, blocks_vacuum s = true) (shards c) with
  | Some (idx, _) => sm_err (Generic (VacuumOfflineShard idx))
  | None =>
    markers <- list_delete_markers now ;;
    cleaned <- vacuum_markers now markers ;;
    sm_ret (length markers, cleaned)
  end.

Definition vacuum_delete_markers (now : Z) : CM (nat * nat) := λ c,
  if vacuum_in_progress c then (c, Err (Generic VacuumAlreadyRunning))
  else let '(c', r) := vacuum_delete_markers_inner now (with_vacuum true c) in (with_vacuum false c', r).

(** ** The [ObjectStore] calls *)

Definition read_only_err : Error := Generic SReadOnly.

Definition is_insufficient (e : Error) : bool :=
  match e with Generic (InsufficientWrites _ _ _) => true | _ => false end.

(** After a successful write: the catalog, the event, the stale marker. *)
Definition record_put (now : Z) (location : string) (data : list byte) (placed : list nat) : CM unit :=
  sm_modify (on_catalog (cat_put now location placed (zlen data) (Some (crc32c data)) 0)) ;;;
  sm_modify (emit_event (EventPut location)) ;;;
  sm_ignore (remove_delete_marker location).

(** The second attempt, on fresh targets, once the first ones are offline. *)
Definition retry_put (now : Z) (location : string) (data : list byte) (targets : list nat) : CM PutResult :=
  sm_modify (mark_offline now targets) ;;;
  c <- sm_get ;;
  let retry_targets := select_targets c location in
  if decide (retry_targets = [] ∨ retry_targets = targets) then sm_err (Generic NoShards)
  else
    landed <- write_to_shards now location data retry_targets ;;
    record_put now location data landed.2 ;;;
    sm_ret landed.1.

Definition put (now : Z) (location : string) (data : list byte) : CM PutResult :=
  c <- sm_get ;;
  if read_only c then sm_err read_only_err
  else
    let targets := select_targets c location in
    if decide (targets = []) then sm_err (Generic NoShards)
    else
      first <- sm_try (write_to_shards now location data targets) ;;
      match first with
      | inr landed => record_put now location data landed.2 ;;; sm_ret landed.1
      | inl first_err =>
        if is_insufficient first_err then sm_err first_err else retry_put now location data targets
      end.

(** [if entry.crc32c.is_none() { catalog.remove(..) }] *)
Definition drop_placeholder (location : string) (k : Catalog) : Catalog :=
  match entries k !! location with
  | Some e => match pe_crc32c e with Some _ => k | None => (cat_remove location k).1 end
  | None => k
  end.

(** [PutMode::Create]: the placeholder entry reserves the key. *)
Definition put_create (now : Z) (location : string) (data : list byte) : CM PutResult :=
  c <- sm_get ;;
  let targets := select_targets c location in
  if decide (targets = []) then sm_err (Generic NoShards)
  else
    inserted <- sm_apply (λ c, let '(k, b) := try_insert now location targets (zlen data) (catalog c) in
                               (with_catalog k c, b)) ;;
    if negb inserted then sm_err (ObjAlreadyExists location)
    else
      first <- sm_try (write_to_shards now location data targets) ;;
      match first with
      | inr landed => record_put now location data landed.2 ;;; sm_ret landed.1
      | inl first_err =>
        if is_insufficient first_err
        then sm_modify (on_catalog (drop_placeholder location)) ;;; sm_err first_err
        else sm_on_err (retry_put now location data targets) (on_catalog (drop_placeholder location))
      end.

Definition put_opts (now : Z) (location : string) (data : list byte) (mode : PutMode) : CM PutResult :=
  c <- sm_get ;;
  if read_only c then sm_err read_only_err
  else match mode with
       | Create => put_create now location data
       | Overwrite => put now location data
       | Update e_tag version =>
         if bool_decide (e_tag ≠ None ∨ version ≠ None) then sm_err (ObjPrecondition location)
         else put now location data
       end.

Definition delete (now : Z) (location : string) : CM unit :=
  c <- sm_get ;;
  if read_only c then sm_err read_only_err
  else if is_delete_marker location then delete_raw location
  else
    put_delete_marker now location ;;;
    delete_raw location ;;;
    sm_modify (emit_event (EventDelete location)).

Definition list_all c (pre : option string) : list ListedMeta :=
  filter (λ m, is_delete_marker (listed_location m) = false) (cat_list path_from pre (catalog c)).

(** Where a listed key goes under a prefix. *)
Fixpoint trim_start_slashes (s : string) : string :=
  match s with
  | String a s' => if decide (a = Ascii.ascii_of_nat 47) then trim_start_slashes s' else s
  | EmptyString => s
  end.
Definition trim_end_slashes (s : string) : string := String.rev (trim_start_slashes (String.rev s)).

(** The directory an object is shown under, if it is not shown itself. *)
Definition common_prefix (prefix_str path_str : string) : option string :=
  let relative := trim_start_slashes (default path_str (strip_prefix prefix_str path_str)) in
  slash_pos ← String.index 0 "/" relative;
  let dir := String.substring 0 slash_pos relative in
  Some (if decide (prefix_str = "") then dir +:+ "/" else trim_end_slashes prefix_str +:+ "/" +:+ dir +:+ "/").

Definition list_with_delimiter c (pre : option string) : list string * list ListedMeta :=
  let prefix_str := default "" pre in
  let all := list_all c pre in
  let dirs : gset string := list_to_set (omap (λ m, common_prefix prefix_str (listed_location m)) all) in
  (path_from <$> sort_by_path id (elements dirs),
   filter (λ m, common_prefix prefix_str (listed_location m) = None) all).
End io.
