(* ===== verification/ClusterFacts.v ===== *)
(** * What the sharded store's operations promise

    [touches K c c'] is what every operation does to the cluster: objects and
    catalog entries outside the keys [K] are as they were.  [holds c i k d]
    says that shard [i] has [d] under [k]; [settled c k d] that every replica
    the catalog names does.  The lemmas state the fan-out of a write, the
    quorum, the deletes and the reads on these. *)

From S2P Require Import Prelude.
From S2P Require Import Config.
From S2P Require Import Extent.
From S2P Require Import Index.
From S2P Require Import StoreTools.
From S2P Require Import StoreMeta.
From S2P Require Import ObjectStoreApi.
From S2P Require Import Tlv.
From S2P Require Import Catalog.
From S2P Require Import JumpHash.
From S2P Require Import Backend.
From S2P Require Import Cluster.
From S2P Require Import ClusterIo.

Section keys.
Context `{ObjectPath}.
Implicit Types (k : string).

(** ** The keys an operation uses *)

Definition marker_path k : string := path_from (delete_marker_key k).

(** The keys an operation on [k] may use. *)
Definition marker_keys k : gset string :=
  {[marker_path k; meta_sidecar_path (marker_path k); delete_marker_key k]}.
Definition footprint k : gset string := {[k; meta_sidecar_path k]} ∪ marker_keys k.

Lemma keys_left k x : ({[k]} : gset string) ⊆ {[k; x]}.
Proof. set_solver. Qed.
Lemma keys_right k x : ({[x]} : gset string) ⊆ {[k; x]}.
Proof. set_solver. Qed.
Lemma keys_in_left k x : k ∈ ({[k; x]} : gset string).
Proof. set_solver. Qed.
Lemma keys_in k : k ∈ ({[k]} : gset string).
Proof. set_solver. Qed.
Lemma keys_not_empty k : k ∉ (∅ : gset string).
Proof. set_solver. Qed.
Lemma keys_empty (K : gset string) : ∅ ⊆ K.
Proof. set_solver. Qed.
Lemma keys_own k : {[k; meta_sidecar_path k]} ⊆ footprint k.
Proof. apply union_subseteq_l. Qed.
Lemma keys_marker k : marker_keys k ⊆ footprint k.
Proof. apply union_subseteq_r. Qed.
Lemma keys_marker_path k : {[marker_path k; meta_sidecar_path (marker_path k)]} ⊆ marker_keys k.
Proof. apply union_subseteq_l. Qed.
Lemma keys_marker_key k : delete_marker_key k ∈ marker_keys k.
Proof. apply elem_of_union_r, keys_in. Qed.
Lemma keys_footprint k : k ∈ footprint k.
Proof. apply keys_own, keys_in_left. Qed.
Lemma keys_single k : ({[k]} : gset string) ⊆ footprint k.
Proof. apply singleton_subseteq_l, keys_footprint. Qed.
End keys.

Create HintDb keys.
#[export] Hint Resolve keys_left keys_right keys_in_left keys_in keys_not_empty keys_empty keys_own keys_marker
  keys_marker_path keys_marker_key keys_footprint keys_single : keys.
#[export] Hint Extern 0 (?K ⊆ ?K) => reflexivity : keys.

Section facts.
Context `{ObjectBackendLaws, Crc32c, HashMapOrderLaws, ObjectPath, Chrono}.
Implicit Types (c : ShardedObjectStore) (K : gset string) (k : string) (d : list byte).

(** ** The invariant *)

Record cluster_ok c : Prop := {
  co_heap a b : heap c !! a = Some b → store_ok b;
  co_refs id a : shard_store c id = Some (At a) → is_Some (heap c !! a);
  co_factor : (1 <= factor c)%nat;
  co_min : (1 <= min_writes c)%nat;
}.

Definition settings c := (factor c, min_writes c, delete_requires_min_writes c, read_only c, raw_refs c, read_preference c).

(** Objects outside [K], by address. *)
Definition same_objects K (h h' : gmap nat store) : Prop :=
  ∀ a, match h !! a, h' !! a with
       | Some b, Some b' => ∀ k, k ∉ K → view b' !! k = view b !! k
       | None, None => True
       | _, _ => False
       end.

Record touches K c c' : Prop := {
  tc_ok : cluster_ok c';
  tc_store id : shard_store c' id = shard_store c id;
  tc_count : length (shards c') = length (shards c);
  tc_objects : same_objects K (heap c) (heap c');
  tc_catalog k : k ∉ K → entries (catalog c') !! k = entries (catalog c) !! k;
  tc_settings : settings c' = settings c;
}.

Lemma same_objects_refl K h : same_objects K h h.
Proof. intros a. by destruct (h !! a). Qed.

Lemma same_objects_trans K h1 h2 h3 : same_objects K h1 h2 → same_objects K h2 h3 → same_objects K h1 h3.
Proof.
  intros Hab Hbc a. specialize (Hab a). specialize (Hbc a).
  destruct (h1 !! a), (h2 !! a), (h3 !! a); try done. intros k Hk. by rewrite Hbc // Hab.
Qed.

Lemma same_objects_mono K K' h h' : K ⊆ K' → same_objects K h h' → same_objects K' h h'.
Proof. intros HK Hs a. specialize (Hs a). destruct (h !! a), (h' !! a); try done. intros k Hk. apply Hs. set_solver. Qed.

Lemma touches_refl K c : cluster_ok c → touches K c c.
Proof. intros Hok. split; try done. apply same_objects_refl. Qed.

Lemma touches_trans K c1 c2 c3 : touches K c1 c2 → touches K c2 c3 → touches K c1 c3.
Proof.
  intros [_ Hs1 Hn1 Ho1 Hc1 Hg1] [Hok Hs2 Hn2 Ho2 Hc2 Hg2]. split.
  - done.
  - intros id. by rewrite Hs2 Hs1.
  - by rewrite Hn2 Hn1.
  - by eapply same_objects_trans.
  - intros k Hk. by rewrite Hc2 // Hc1.
  - by rewrite Hg2 Hg1.
Qed.

Lemma touches_mono K K' c c' : K ⊆ K' → touches K c c' → touches K' c c'.
Proof.
  intros HK [Hok Hs Hn Ho Hc Hg]. split; [done..|by eapply same_objects_mono| |done].
  intros k Hk. apply Hc. set_solver.
Qed.

Lemma touches_event K c c' e : touches K c c' → touches K c (emit_event e c').
Proof. intros [[] ? ? ? ? ?]. by split. Qed.

Definition holds c (id : nat) k d : Prop :=
  ∃ a b, shard_store c id = Some (At a) ∧ heap c !! a = Some b ∧ view b !! k = Some d.

Definition settled c k d : Prop :=
  ∃ e, entries (catalog c) !! k = Some e ∧
    ∀ id a b, id ∈ pe_shards e → shard_store c id = Some (At a) → heap c !! a = Some b → view b !! k = Some d.

Lemma holds_touches K c c' id k d : touches K c c' → k ∉ K → holds c id k d → holds c' id k d.
Proof.
  intros Ht Hk (a & b & Ha & Hb & Hv). pose proof (tc_objects _ _ _ Ht a) as Ho. rewrite Hb in Ho.
  destruct (heap c' !! a) as [b'|] eqn:Hb'; [|done].
  exists a, b'. rewrite (tc_store _ _ _ Ht) Ho //.
Qed.

Lemma settled_touches K c c' k d : touches K c c' → k ∉ K → settled c k d → settled c' k d.
Proof.
  intros Ht Hk (e & He & Hall). exists e. rewrite (tc_catalog _ _ _ Ht) //. split; [done|].
  intros id a b' Hid Ha Hb'. pose proof (tc_objects _ _ _ Ht a) as Ho. rewrite Hb' in Ho.
  destruct (heap c !! a) as [b|] eqn:Hb; [|done]. rewrite (tc_store _ _ _ Ht) in Ha. rewrite Ho //. by eapply Hall.
Qed.

(** ** Calls on a store *)

(** A step that changes stores only. *)
Definition stores_only c c' : Prop := c' = with_heap (heap c') c.

Lemma stores_only_refl c : stores_only c c.
Proof. by destruct c. Qed.

Lemma stores_only_trans c1 c2 c3 : stores_only c1 c2 → stores_only c2 c3 → stores_only c1 c3.
Proof. rewrite /stores_only. intros -> ->. done. Qed.

Lemma touches_heap K c c' :
  cluster_ok c → stores_only c c' → same_objects K (heap c) (heap c') →
  (∀ a b, heap c' !! a = Some b → store_ok b) → touches K c c'.
Proof.
  intros Hok Hs Ho Hb. rewrite Hs. split; try done. split; try apply Hok; [done|].
  intros id a Ha. destruct (co_refs _ Hok id a Ha) as [b Hab]. specialize (Ho a). rewrite Hab in Ho.
  cbn. destruct (heap c' !! a); [by eexists|done].
Qed.

(** One store changes, within [K]. *)
Lemma on_store_touches {A} K c r (f : store → store * Res store_error A) :
  cluster_ok c → (∀ id, r = At id → is_Some (heap c !! id)) →
  (∀ b, store_ok b → store_ok (f b).1 ∧ (f b).2 ≠ Panic ∧ ∀ k, k ∉ K → view (f b).1 !! k = view b !! k) →
  let '(c', res) := on_store r f c in stores_only c c' ∧ touches K c c' ∧ res ≠ Panic.
Proof.
  intros Hok Href Hf. rewrite /on_store. destruct r as [id|a].
  { split_and!; [apply stores_only_refl|by apply touches_refl|done]. }
  destruct (Href a eq_refl) as [b Hb]. rewrite Hb. pose proof (co_heap _ Hok a b Hb) as Hbok.
  specialize (Hf b Hbok). destruct (f b) as [b' res]. cbn [fst snd] in Hf. destruct Hf as (Hok' & Hp & Hsame).
  assert (stores_only c (with_heap (<[a:=b']> (heap c)) c)) as Hs by done.
  split_and!; [done| |by destruct res].
  apply touches_heap; [done..| |].
  - intros a'. cbn. destruct (decide (a = a')) as [->|Hne].
    + by rewrite Hb lookup_insert_eq.
    + rewrite lookup_insert_ne //. by destruct (heap c !! a').
  - intros a' b2. cbn. destruct (decide (a = a')) as [->|Hne].
    + rewrite lookup_insert_eq. by intros [= <-].
    + rewrite lookup_insert_ne //. apply Hok.
Qed.

(** A shard's store is of the heap. *)
Lemma shard_ref c id r a : cluster_ok c → shard_store c id = Some r → r = At a → is_Some (heap c !! a).
Proof. intros Hok Hr ->. by eapply co_refs. Qed.

(** The object under [k] at an address. *)
Definition object_at c (a : nat) k : option (list byte) := b ← heap c !! a; view b !! k.

(** The call changed at most [k], and to [v]. *)
Definition writes k (v : option (list byte)) c c' : Prop :=
  ∀ a, object_at c' a k = object_at c a k ∨ object_at c' a k = v.

Lemma writes_refl k v c : writes k v c c.
Proof. by left. Qed.

Lemma writes_trans k v c1 c2 c3 : writes k v c1 c2 → writes k v c2 c3 → writes k v c1 c3.
Proof. intros Hab Hbc a. destruct (Hbc a) as [-> | ->]; [apply Hab|by right]. Qed.

(** Writing or deleting one key of one store. *)
Lemma on_store_writes {A} k v c r (f : store → store * Res store_error A) (E : store_error → Prop) :
  cluster_ok c → (∀ a, r = At a → is_Some (heap c !! a)) →
  (∀ b, store_ok b → let '(b', res) := f b in
    store_ok b' ∧
    match res with
    | Ok _ => view b' = partial_alter (λ _, v) k (view b)
    | Err e => may_have k v (view b) (view b') ∧ (E e → view b' !! k = v)
    | Panic => False
    end) →
  let '(c', res) := on_store r f c in
  stores_only c c' ∧ touches {[k]} c c' ∧ writes k v c c' ∧
  match res with
  | Ok _ => ∃ a, r = At a ∧ object_at c' a k = v
  | Err e => (∃ id, e = NotConnected id) ∨ ∃ e', e = FromShard e' ∧ (E e' → ∃ a, r = At a ∧ object_at c' a k = v)
  | Panic => False
  end.
Proof.
  intros Hok Href Hf.
  pose proof (on_store_touches {[k]} c r f Hok Href) as Ht.
  assert (∀ b, store_ok b → store_ok (f b).1 ∧ (f b).2 ≠ Panic ∧
    ∀ k', k' ∉ ({[k]} : gset string) → view (f b).1 !! k' = view b !! k') as Hf'.
  { intros b Hb. specialize (Hf b Hb). destruct (f b) as [b' res]. destruct Hf as [Hb' Hres]. cbn.
    assert (∀ k', k' ∉ ({[k]} : gset string) → partial_alter (λ _, v) k (view b) !! k' = view b !! k') as Hp.
    { intros k' Hk'. rewrite lookup_partial_alter_ne //. set_solver. }
    destruct res as [x|e|]; [| |done]; (split_and!; [done|done|]); [by rewrite Hres|].
    by destruct Hres as [[-> | ->] _]. }
  specialize (Ht Hf'). rewrite /on_store in Ht |- *. destruct r as [id|a].
  { destruct Ht as (? & ? & ?). split_and!; [done..|apply writes_refl|]. left. by exists id. }
  destruct (Href a eq_refl) as [b Hb]. rewrite Hb in Ht |- *. specialize (Hf b (co_heap _ Hok a b Hb)).
  destruct (f b) as [b' res]. destruct Ht as (Hs & Ht & _). destruct Hf as [_ Hres].
  set (c' := with_heap _ c). assert (object_at c' a k = view b' !! k) as Hat.
  { by rewrite /object_at /c' /= lookup_insert_eq. }
  assert (writes k v c c') as Hw.
  { intros a'. destruct (decide (a' = a)) as [->|Hne].
    - rewrite Hat /object_at Hb /=. destruct res as [x|e|]; [| |done].
      + rewrite Hres lookup_partial_alter_eq. by right.
      + destruct Hres as [[-> | ->] _]; [by left|right; by rewrite lookup_partial_alter_eq].
    - left. by rewrite /object_at /c' /= lookup_insert_ne. }
  split_and!; [done..|]. destruct res as [x|e|]; [| |done]; cbn [map_err].
  - exists a. by rewrite Hat Hres lookup_partial_alter_eq.
  - destruct Hres as [_ He]. right. exists e. split; [done|]. intros He'. exists a. by rewrite Hat He.
Qed.

(** ** Fan-outs *)

(** The store of shard [id] has [v] under [k]. *)
Definition shard_has c (id : nat) k (v : option (list byte)) : Prop :=
  ∃ a, shard_store c id = Some (At a) ∧ object_at c a k = v.

Lemma shard_has_writes k v c c' id :
  stores_only c c' → writes k v c c' → shard_has c id k v → shard_has c' id k v.
Proof.
  intros Hs Hw (a & Ha & Ho). exists a. split; [by rewrite Hs|]. by destruct (Hw a) as [-> | ->].
Qed.

(** What one call of a fan-out does: it writes [v] under [k], within [K], and
    a success (or an error that means as much) leaves [v] there. *)
Definition writer {A} K k v (E : Error → Prop) (f : nat → StoreRef → CM A) : Prop :=
  ∀ id r c, cluster_ok c → shard_store c id = Some r →
    let '(c', res) := f id r c in
    stores_only c c' ∧ touches K c c' ∧ writes k v c c' ∧
    match res with
    | Ok _ => shard_has c' id k v
    | Err e => E e → shard_has c' id k v
    | Panic => False
    end.

Lemma fan_out_writes {A} K k v E (f : nat → StoreRef → CM A) l c :
  writer K k v E f → cluster_ok c → (∀ id r, (id, r) ∈ l → shard_store c id = Some r) →
  ∃ c' outs, fan_out f l c = (c', Ok outs) ∧ stores_only c c' ∧ touches K c c' ∧ writes k v c c' ∧
    outs.*1 = l.*1 ∧
    ∀ id o, (id, o) ∈ outs → match o with inr _ => shard_has c' id k v | inl e => E e → shard_has c' id k v end.
Proof.
  intros Hf. revert c. induction l as [|[id r] l IH]; intros c Hok Hl.
  { exists c, []. split_and!; [done|apply stores_only_refl|by apply touches_refl|apply writes_refl|done|].
    intros id o Hin. by apply elem_of_nil in Hin. }
  pose proof (Hf id r c Hok) as Hstep. specialize (Hstep ltac:(apply Hl; by left)).
  destruct (f id r c) as [c1 res] eqn:Hfc. destruct Hstep as (Hs1 & Ht1 & Hw1 & Hres).
  destruct (IH c1) as (c2 & outs & Hrun & Hs2 & Ht2 & Hw2 & Hfst & Houts); [by eapply tc_ok| |].
  { intros id' r' Hin. rewrite Hs1. apply Hl. by right. }
  assert (∃ o : Error + A, res = match o with inr a => Ok a | inl e => Err e end) as [o Ho].
  { destruct res as [a|e|]; [by exists (inr a)|by exists (inl e)|done]. }
  exists c2, ((id, o) :: outs). split_and!.
  - cbn [fan_out]. rewrite /sm_bind /sm_try Hfc Ho. destruct o; by rewrite Hrun.
  - by eapply stores_only_trans.
  - by eapply touches_trans.
  - by eapply writes_trans.
  - by rewrite !fmap_cons Hfst.
  - intros id' o'. rewrite elem_of_cons. intros [[= -> ->]|Hin]; [|by apply Houts].
    subst res. destruct o; [intros He; eapply shard_has_writes; eauto|by eapply shard_has_writes].
Qed.

Lemma touches_object K c c' a k : touches K c c' → k ∉ K → object_at c' a k = object_at c a k.
Proof.
  intros Ht Hk. pose proof (tc_objects _ _ _ Ht a) as Ho. rewrite /object_at.
  destruct (heap c !! a), (heap c' !! a); try done. by apply Ho.
Qed.

Lemma touches_writes K k v c c' : touches K c c' → k ∉ K → writes k v c c'.
Proof. intros Ht Hk a. left. by eapply touches_object. Qed.

(** ** The two writers *)

Lemma put_writer now k d : key_ok k → data_ok now d → writer {[k]} k (Some d) (λ _, False) (put_on now k d).
Proof.
  intros Hk Hd id r c Hok Hr. rewrite /put_on.
  pose proof (on_store_writes k (Some d) c r (store_put now k d []) (λ _, False) Hok) as Hw.
  specialize (Hw ltac:(intros a Ha; by eapply shard_ref)).
  assert (∀ b, store_ok b → let '(b', res) := store_put now k d [] b in store_ok b' ∧
    match res with Ok _ => view b' = partial_alter (λ _, Some d) k (view b)
    | Err e => may_have k (Some d) (view b) (view b') ∧ (False → view b' !! k = Some d) | Panic => False end) as Hf.
  { intros b Hb. destruct (store_put now k d [] b) as [b' res] eqn:Hp.
    destruct (put_law _ _ _ _ _ _ _ Hb Hk Hd Hp) as [Hb' Hres]. split; [done|]. by destruct res. }
  specialize (Hw Hf). destruct (on_store r _ c) as [c' res]. destruct Hw as (Hs & Ht & Hw & Hres).
  split_and!; [done..|]. destruct res as [p|e|]; [|done|done]. destruct Hres as (a & -> & Ha).
  exists a. split; [by rewrite Hs|done].
Qed.

Lemma store_delete_writes k c r :
  key_ok k → cluster_ok c → (∀ a, r = At a → is_Some (heap c !! a)) →
  let '(c', res) := on_store r (store_delete k) c in
  stores_only c c' ∧ touches {[k]} c c' ∧ writes k None c c' ∧
  match res with
  | Ok _ => ∃ a, r = At a ∧ object_at c' a k = None
  | Err e => error_is_not_found e = true → ∃ a, r = At a ∧ object_at c' a k = None
  | Panic => False
  end.
Proof.
  intros Hk Hok Href.
  pose proof (on_store_writes k None c r (store_delete k) (λ e, error_not_found e = true) Hok Href) as Hw.
  assert (∀ b, store_ok b → let '(b', res) := store_delete k b in store_ok b' ∧
    match res with Ok _ => view b' = partial_alter (λ _, None) k (view b)
    | Err e => may_have k None (view b) (view b') ∧ (error_not_found e = true → view b' !! k = None)
    | Panic => False end) as Hf.
  { intros b Hb. destruct (store_delete k b) as [b' res] eqn:Hp.
    destruct (delete_law _ _ _ _ Hb Hk Hp) as [Hb' Hres]. by split. }
  specialize (Hw Hf). destruct (on_store r _ c) as [c' res]. destruct Hw as (Hs & Ht & Hw & Hres).
  split_and!; [done..|]. destruct res as [p|e|]; [done| |done].
  destruct Hres as [[id ->]|(e' & -> & He)]; [done|]. done.
Qed.

Lemma delete_sidecar_touches k c r :
  key_ok (meta_sidecar_path k) → cluster_ok c → (∀ a, r = At a → is_Some (heap c !! a)) →
  ∃ c', delete_sidecar_of k r c = (c', Ok tt) ∧ stores_only c c' ∧ touches {[meta_sidecar_path k]} c c' ∧
    writes (meta_sidecar_path k) None c c'.
Proof.
  intros Hk Hok Href. pose proof (store_delete_writes _ c r Hk Hok Href) as Hw.
  rewrite /delete_sidecar_of /sm_ignore /sm_bind /sm_try. destruct (on_store r _ c) as [c' res].
  destruct Hw as (Hs & Ht & Hw & Hres). exists c'. destruct res; [done..|]. done.
Qed.

Lemma delete_writer k :
  key_ok k → key_ok (meta_sidecar_path k) →
  writer {[k; meta_sidecar_path k]} k None (λ e, error_is_not_found e = true) (delete_on k).
Proof.
  intros Hk Hks id r c Hok Hr. rewrite /delete_on.
  assert (∀ a, r = At a → is_Some (heap c !! a)) as Href by (intros a Ha; by eapply shard_ref).
  assert (∃ c1, cleanup_sidecar_maybe k (raw_refs c) id r c = (c1, Ok tt) ∧ stores_only c c1 ∧
    touches {[k; meta_sidecar_path k]} c c1 ∧ writes k None c c1) as (c1 & Hc1 & Hs1 & Ht1 & Hw1).
  { rewrite /cleanup_sidecar_maybe. case_match.
    - destruct (delete_sidecar_touches k c r Hks Hok Href) as (c1 & Hc1 & Hs & Ht & Hw). exists c1.
      split_and!; [done|done|by eapply touches_mono; [|done]; auto with keys|].
      destruct (decide (meta_sidecar_path k = k)) as [Heq|Hne]; [by rewrite Heq in Hw|].
      eapply touches_writes; [done|]. set_solver.
    - exists c. split_and!; [done|apply stores_only_refl|by apply touches_refl|apply writes_refl]. }
  rewrite /sm_bind /sm_get Hc1.
  assert (∀ a, r = At a → is_Some (heap c1 !! a)) as Href1.
  { intros a Ha. eapply (shard_ref c1 id); [by eapply tc_ok|by rewrite Hs1|done]. }
  pose proof (store_delete_writes k c1 r Hk (tc_ok _ _ _ Ht1) Href1) as Hd.
  destruct (on_store r _ c1) as [c2 res]. destruct Hd as (Hs2 & Ht2 & Hw2 & Hres).
  split_and!; [by eapply stores_only_trans| |by eapply writes_trans|].
  - eapply touches_trans; [done|]. eapply touches_mono; [|done]. auto with keys.
  - assert (∀ a, r = At a → shard_store c2 id = Some (At a)) as Hat by (intros a ->; by rewrite Hs2 Hs1).
    destruct res as [u|e|]; [| |done].
    + destruct Hres as (a & Ha & Ho). exists a. split; [by apply Hat|done].
    + intros He. destruct (Hres He) as (a & Ha & Ho). exists a. split; [by apply Hat|done].
Qed.

(** ** Steps that change no store *)

(** Health changes keep the stores behind the shards. *)
Lemma on_shard_touches id (f : ShardInfo → ShardInfo) c :
  cluster_ok c → (∀ s, si_store (f s) = si_store s) → touches ∅ c (on_shard id f c).
Proof.
  intros Hok Hf. assert (∀ i, shard_store (on_shard id f c) i = shard_store c i) as Hs.
  { intros i. rewrite /shard_store /on_shard /=. destruct (decide (i = id)) as [->|Hne].
    - rewrite list_lookup_alter_eq. destruct (shards c !! id) as [s|]; [|done]. by rewrite /= Hf.
    - by rewrite list_lookup_alter_ne. }
  split; try done; try apply same_objects_refl; [|by rewrite /= length_alter].
  split; try apply Hok. intros i a. rewrite Hs. apply Hok.
Qed.

Lemma on_catalog_touches K (f : Catalog → Catalog) c :
  cluster_ok c → (∀ k m, k ∉ K → entries (f m) !! k = entries m !! k) → touches K c (on_catalog f c).
Proof.
  intros Hok Hf. split; try done; try apply same_objects_refl; [by split; apply Hok|].
  intros k Hk. by apply Hf.
Qed.

Lemma set_health_store now h s : si_store (change_health now h s) = si_store s.
Proof. rewrite /change_health. by repeat case_match. Qed.

Lemma marks_touch now (P : ShardedObjectStore → nat → bool) h ids c :
  cluster_ok c →
  let c' := foldl (λ c id, if P c id then (set_shard_health now id h c).1 else c) c ids in
  touches ∅ c c' ∧ heap c' = heap c ∧ catalog c' = catalog c.
Proof.
  cbn zeta. revert c. induction ids as [|id ids IH]; intros c Hok; cbn [foldl]; [by split; [apply touches_refl|]|].
  assert (touches ∅ c (if P c id then (set_shard_health now id h c).1 else c) ∧
    heap (if P c id then (set_shard_health now id h c).1 else c) = heap c ∧
    catalog (if P c id then (set_shard_health now id h c).1 else c) = catalog c) as (Ht & Hh & Hc).
  { destruct (P c id); [|by split; [apply touches_refl|]]. split; [|done].
    apply on_shard_touches; [done|]. intros s. apply set_health_store. }
  destruct (IH _ (tc_ok _ _ _ Ht)) as (Ht' & Hh' & Hc'). split_and!; [by eapply touches_trans|by rewrite Hh'|by rewrite Hc'].
Qed.

Lemma mark_offline_touches now ids c :
  cluster_ok c →
  touches ∅ c (mark_offline now ids c) ∧ heap (mark_offline now ids c) = heap c ∧
  catalog (mark_offline now ids c) = catalog c.
Proof. intros Hok. by apply (marks_touch now (λ _ _, true) Offline ids c). Qed.

Lemma mark_degraded_touches now ids c :
  cluster_ok c →
  touches ∅ c (mark_degraded now ids c) ∧ heap (mark_degraded now ids c) = heap c ∧
  catalog (mark_degraded now ids c) = catalog c.
Proof.
  intros Hok. exact (marks_touch now (λ c id, bool_decide (shard_health c id = Some Healthy)) Degraded ids c Hok).
Qed.

Lemma mark_failures_touches now placed failed tried k c :
  cluster_ok c →
  let '(c', ids) := mark_write_failures now placed failed tried k c in
  touches ∅ c c' ∧ heap c' = heap c ∧ catalog c' = catalog c ∧ NoDup ids.
Proof.
  intros Hok. rewrite /mark_write_failures. case_decide.
  - destruct (mark_offline_touches now failed c Hok) as (Ht & Hh & Hc). split_and!; [done..|].
    apply NoDup_filter, select_targets_spec. by eapply co_factor, tc_ok.
  - case_decide; [|split_and!; [by apply touches_refl|done..|constructor]].
    destruct (mark_degraded_touches now failed c Hok) as (Ht & Hh & Hc). split_and!; [done..|constructor].
Qed.

(** ** Targets and outcomes *)

Lemma elem_of_stores_of c ids id r : (id, r) ∈ stores_of c ids ↔ id ∈ ids ∧ shard_store c id = Some r.
Proof.
  rewrite /stores_of list_elem_of_omap. split.
  - intros (x & Hx & Hp). destruct (shard_store c x) as [r'|] eqn:Hr; [|done]. by injection Hp as -> ->.
  - intros [Hin Hr]. exists id. by rewrite Hr.
Qed.

Lemma stores_of_ids c ids : (stores_of c ids).*1 `sublist_of` ids.
Proof.
  induction ids as [|id ids IH]; [done|]. rewrite /stores_of /=.
  destruct (shard_store c id); simpl; by constructor.
Qed.

Lemma elem_of_placed {E A} (outs : list (nat * (E + A))) id :
  id ∈ placed_of outs → ∃ a, (id, inr a) ∈ outs.
Proof. rewrite list_elem_of_omap. intros ([i [e|a]] & Hin & [= ->]). by exists a. Qed.

Lemma placed_ids {E A} (outs : list (nat * (E + A))) : placed_of outs `sublist_of` outs.*1.
Proof. induction outs as [|[i [e|a]] outs IH]; simpl; by constructor. Qed.

Lemma placed_NoDup {A} (outs : list (nat * (Error + A))) c ids :
  outs.*1 = (stores_of c ids).*1 → NoDup ids → NoDup (placed_of outs).
Proof.
  intros Ho Hnd. eapply sublist_NoDup; [|apply placed_ids]. rewrite Ho.
  eapply sublist_NoDup; [done|apply stores_of_ids].
Qed.

Lemma first_result_placed {A} (outs : list (nat * (Error + A))) :
  placed_of outs ≠ [] → is_Some (first_result outs).
Proof.
  rewrite /first_result. induction outs as [|[i [e|a]] outs IH]; simpl; [done|done|by eexists].
Qed.

(** ** The quorum *)

Lemma shard_has_touches K c c' id k v : touches K c c' → k ∉ K → shard_has c id k v → shard_has c' id k v.
Proof.
  intros Ht Hk (a & Ha & Ho). exists a. split; [by rewrite (tc_store _ _ _ Ht)|].
  by rewrite (touches_object _ _ _ _ _ Ht Hk).
Qed.

(** One fan-out of a write. *)
Lemma fan_out_put now k d ids c :
  cluster_ok c → key_ok k → data_ok now d → NoDup ids →
  ∃ c' outs, fan_out (put_on now k d) (stores_of c ids) c = (c', Ok outs) ∧ touches {[k]} c c' ∧
    catalog c' = catalog c ∧ stores_only c c' ∧ NoDup (placed_of outs) ∧
    ∀ id, id ∈ placed_of outs → id ∈ ids ∧ shard_has c' id k (Some d).
Proof.
  intros Hok Hk Hd Hnd.
  destruct (fan_out_writes _ _ _ _ _ (stores_of c ids) c (put_writer now k d Hk Hd) Hok)
    as (c' & outs & Hrun & Hs & Ht & _ & Hfst & Houts).
  { intros id r Hin. by apply elem_of_stores_of in Hin as [_ ?]. }
  exists c', outs. split_and!; [done|done|by rewrite Hs|done|by eapply placed_NoDup|].
  intros id Hin. apply elem_of_placed in Hin as [a Hin]. split; [|by apply (Houts id _ Hin)].
  assert (id ∈ outs.*1) as Hid by (apply list_elem_of_fmap; by exists (id, inr a)).
  rewrite Hfst list_elem_of_fmap in Hid. destruct Hid as ([i r] & -> & Hin').
  by apply elem_of_stores_of in Hin' as [? _].
Qed.

(** What a successful or failed write fan-out leaves. *)
Definition landed_ok c k d (min_required : nat) (landed : option PutResult * list nat) : Prop :=
  (min_required <= length landed.2)%nat ∧ NoDup landed.2 ∧ (landed.2 ≠ [] → is_Some landed.1) ∧
  ∀ id, id ∈ landed.2 → shard_has c id k (Some d).

Definition write_error k (e : Error) : Prop :=
  e = Generic (AllReplicasFailed k) ∨ ∃ required actual, e = Generic (InsufficientWrites k required actual) ∧
    (actual < required)%nat.

Lemma cleanup_touches k placed c :
  cluster_ok c → key_ok k → key_ok (meta_sidecar_path k) →
  ∃ c', cleanup_orphaned_writes k placed c = (c', Ok tt) ∧ touches {[k; meta_sidecar_path k]} c c' ∧
    catalog c' = catalog c.
Proof.
  intros Hok Hk Hks. rewrite /cleanup_orphaned_writes /sm_bind /sm_get.
  destruct (entries (catalog c) !! k) as [e|]; [by exists c; split_and!; [|apply touches_refl|]|].
  assert (writer {[k; meta_sidecar_path k]} k None (λ _, False) (cleanup_one k)) as Hw.
  { intros id r c0 Hok0 Hr. rewrite /cleanup_one /sm_bind /sm_get /sm_try.
    assert (∀ a, r = At a → is_Some (heap c0 !! a)) as Href by (intros a Ha; by eapply shard_ref).
    pose proof (store_delete_writes k c0 r Hk Hok0 Href) as Hd.
    destruct (on_store r _ c0) as [c1 res]. destruct Hd as (Hs1 & Ht1 & Hw1 & Hres).
    assert (∃ c2, cleanup_sidecar k (match raw_refs c0 with Some g => kind g id | None => Sidecar end) r c1 =
      (c2, Ok tt) ∧ stores_only c1 c2 ∧ touches {[k; meta_sidecar_path k]} c1 c2 ∧ writes k None c1 c2)
      as (c2 & Hrun & Hs2 & Ht2 & Hw2).
    { rewrite /cleanup_sidecar. case_decide.
      - assert (∀ a, r = At a → is_Some (heap c1 !! a)) as Href1.
        { intros a Ha. eapply (shard_ref c1 id); [by eapply tc_ok|by rewrite Hs1|done]. }
        destruct (delete_sidecar_touches k c1 r Hks (tc_ok _ _ _ Ht1) Href1) as (c2 & Hrun & Hs & Ht & Hw).
        exists c2. split_and!; [done|done|eapply touches_mono; [|done]; auto with keys|].
        destruct (decide (meta_sidecar_path k = k)) as [Heq|Hne]; [by rewrite Heq in Hw|].
        eapply touches_writes; [done|]. set_solver.
      - exists c1. split_and!; [done|apply stores_only_refl|by eapply touches_refl, tc_ok|apply writes_refl]. }
    assert (touches {[k; meta_sidecar_path k]} c0 c2) as Ht.
    { eapply touches_trans; [|done]. eapply touches_mono; [|done]. auto with keys. }
    destruct res as [u|e|]; [| |done]; rewrite Hrun.
    - split_and!; [by eapply stores_only_trans|done|by eapply writes_trans|].
      destruct Hres as (a & -> & Ho). exists a. split; [by rewrite Hs2 Hs1|].
      by destruct (Hw2 a) as [-> | ->].
    - split_and!; [by eapply stores_only_trans|done|by eapply writes_trans|done]. }
  destruct (fan_out_writes _ _ _ _ _ (stores_of c placed) c Hw Hok) as (c' & outs & Hrun & Hs & Ht & _).
  { intros id r Hin. by apply elem_of_stores_of in Hin as [_ ?]. }
  exists c'. rewrite Hrun. split_and!; [done|done|by rewrite Hs].
Qed.

Lemma touches_step K K1 K2 c1 c2 c3 :
  touches K1 c1 c2 → touches K2 c2 c3 → K1 ⊆ K → K2 ⊆ K → touches K c1 c3.
Proof. intros H12 H23 HK1 HK2. eapply touches_trans; [by apply (touches_mono K1)|by apply (touches_mono K2)]. Qed.

(** What the write has reached before the quorum is checked. *)
Definition reached c k d (landed : option PutResult * list nat) : Prop := landed_ok c k d 0 landed.

Lemma reached_outs c k d (outs : list (nat * (Error + PutResult))) :
  NoDup (placed_of outs) → (∀ id, id ∈ placed_of outs → shard_has c id k (Some d)) →
  reached c k d (first_result outs, placed_of outs).
Proof. intros Hnd Hall. split_and!; [simpl; lia|done|by apply first_result_placed|done]. Qed.

Lemma retry_writes_spec now k d ids c :
  cluster_ok c → key_ok k → data_ok now d → NoDup ids →
  let '(c', res) := retry_writes now k d ids c in
  touches {[k]} c c' ∧ catalog c' = catalog c ∧
  match res with Ok landed => reached c' k d landed | Err e => write_error k e | Panic => False end.
Proof.
  intros Hok Hk Hd Hnd. rewrite /retry_writes {1}/sm_bind /sm_get {1}/sm_bind.
  destruct (fan_out_put now k d ids c Hok Hk Hd Hnd) as (c1 & outs & -> & Ht & Hc & _ & Hnd1 & Hpl).
  case_decide; (split_and!; [done..|]); [by left|]. apply reached_outs; [done|]. intros id Hin. by apply Hpl.
Qed.

Lemma enforce_quorum_spec k d min_required cleanup landed c :
  cluster_ok c → key_ok k → key_ok (meta_sidecar_path k) → reached c k d landed →
  let '(c', res) := enforce_quorum k min_required cleanup landed c in
  touches {[k; meta_sidecar_path k]} c c' ∧ catalog c' = catalog c ∧
  match res with
  | Ok landed => landed_ok c' k d min_required landed
  | Err e => write_error k e
  | Panic => False
  end.
Proof.
  intros Hok Hk Hks (_ & Hnd & Hres & Hall). rewrite /enforce_quorum. case_decide as Hlt.
  - assert (∃ c', (if cleanup then cleanup_orphaned_writes k landed.2 else sm_ret tt) c = (c', Ok tt) ∧
      touches {[k; meta_sidecar_path k]} c c' ∧ catalog c' = catalog c) as (c' & Hrun & Ht & Hc).
    { destruct cleanup; [by apply cleanup_touches|]. exists c. split_and!; [done|by apply touches_refl|done]. }
    rewrite /sm_bind Hrun. split_and!; [done..|]. right. by eexists _, _.
  - split_and!; [by apply touches_refl|done|split_and!; [lia|done..]].
Qed.

Lemma write_inner_spec now k d targets min_required cleanup c :
  cluster_ok c → key_ok k → key_ok (meta_sidecar_path k) → data_ok now d → NoDup targets →
  let '(c', res) := write_to_shards_inner now k d targets min_required cleanup c in
  touches {[k; meta_sidecar_path k]} c c' ∧ catalog c' = catalog c ∧
  match res with
  | Ok landed => landed_ok c' k d min_required landed
  | Err e => write_error k e
  | Panic => False
  end.
Proof.
  intros Hok Hk Hks Hd Hnd. rewrite /write_to_shards_inner.
  destruct (fan_out_put now k d targets c Hok Hk Hd Hnd) as (c1 & outs & Hrun & Ht1 & Hc1 & _ & Hnd1 & Hpl1).
  rewrite {1}/sm_bind {1}/sm_get {1}/sm_bind Hrun. cbn zeta.
  pose proof (mark_failures_touches now (placed_of outs) (failed_of outs) targets k c1 (tc_ok _ _ _ Ht1)) as Hm.
  rewrite {1}/sm_bind {1}/sm_apply. destruct (mark_write_failures _ _ _ _ _ c1) as [c2 ids].
  destruct Hm as (Ht2 & Hh2 & Hc2 & Hids).
  assert (touches {[k]} c c2) as Ht12 by (eapply touches_step; [exact Ht1|exact Ht2|done|auto with keys]).
  match goal with |- context [sm_bind ?m _ c2] => set (land := m) end.
  assert (let '(c3, res) := land c2 in touches {[k]} c2 c3 ∧ catalog c3 = catalog c2 ∧
    match res with Ok landed => reached c3 k d landed | Err e => write_error k e | Panic => False end) as Hland.
  { rewrite /land. case_decide; [by apply retry_writes_spec; [eapply tc_ok|..]|].
    split_and!; [by eapply touches_refl, tc_ok|done|]. apply reached_outs; [done|].
    intros id Hin. eapply shard_has_touches; [exact Ht2|auto with keys|]. by apply Hpl1. }
  rewrite /sm_bind. destruct (land c2) as [c3 res]. destruct Hland as (Ht3 & Hc3 & Hres).
  destruct res as [landed|e|]; [| |done].
  - pose proof (enforce_quorum_spec k d min_required cleanup landed c3 (tc_ok _ _ _ Ht3) Hk Hks Hres) as Hq.
    destruct (enforce_quorum _ _ _ _ c3) as [c4 res]. destruct Hq as (Ht4 & Hc4 & Hres4).
    split_and!; [|by rewrite Hc4 Hc3 Hc2|done].
    eapply touches_step; [|exact Ht4| |done]; [eapply touches_step; [exact Ht12|exact Ht3|done|done]|auto with keys].
  - split_and!; [|by rewrite Hc3 Hc2|done]. eapply touches_step; [exact Ht12|exact Ht3|auto with keys|auto with keys].
Qed.

(** ** Catalog changes to one key *)

Lemma remove_shard_other k id m k' : k' ≠ k → entries (remove_shard k id m) !! k' = entries m !! k'.
Proof.
  intros Hne. rewrite /remove_shard. destruct (entries m !! k); [|done]. simpl.
  case_decide; rewrite ?lookup_delete_ne // lookup_insert_ne //.
Qed.

Lemma drop_replicas_other k ids m k' : k' ≠ k → entries (drop_replicas k ids m) !! k' = entries m !! k'.
Proof.
  intros Hne. revert m. induction ids as [|id ids IH]; intros m; [done|]. cbn [drop_replicas foldl].
  etrans; [apply IH|]. by apply remove_shard_other.
Qed.

Lemma cat_remove_other k m k' : k' ≠ k → entries (cat_remove k m).1 !! k' = entries m !! k'.
Proof. intros Hne. rewrite /cat_remove. destruct (entries m !! k); simpl; by rewrite lookup_delete_ne. Qed.

Lemma cat_put_other now k l n crc ml m k' : k' ≠ k → entries (cat_put now k l n crc ml m) !! k' = entries m !! k'.
Proof. intros Hne. by rewrite /= lookup_insert_ne. Qed.

Lemma add_replica_other now k id n ml m k' : k' ≠ k → entries (add_replica now k id n ml m) !! k' = entries m !! k'.
Proof. intros Hne. by rewrite /= lookup_insert_ne. Qed.

(** A catalog change to [k] touches [k] only. *)
Lemma on_catalog_key K k (f : Catalog → Catalog) c :
  cluster_ok c → k ∈ K → (∀ m k', k' ≠ k → entries (f m) !! k' = entries m !! k') → touches K c (on_catalog f c).
Proof. intros Hok Hk Hf. apply on_catalog_touches; [done|]. intros k' m Hk'. apply Hf. set_solver. Qed.

(** ** Deletes *)

Lemma deleted_ids (outs : list (nat * (Error + unit))) :
  deleted_of outs ++ (undeleted_of outs).*1 ≡ₚ outs.*1.
Proof.
  induction outs as [|[i [e|a]] outs IH]; [done| |]; cbn.
  - destruct (error_is_not_found e); cbn; [by constructor|]. by rewrite -Permutation_middle IH.
  - by constructor.
Qed.

Lemma elem_of_deleted (outs : list (nat * (Error + unit))) id :
  id ∈ deleted_of outs → ∃ o, (id, o) ∈ outs ∧ match o with inr _ => True | inl e => error_is_not_found e = true end.
Proof.
  rewrite list_elem_of_omap. intros ([i [e|a]] & Hin & Hs); [|injection Hs as ->; by exists (inr a)].
  destruct (error_is_not_found e) eqn:He; [|done]. injection Hs as ->. by exists (inl e).
Qed.

(** What a delete of [k] leaves, as it went on the shards it was sent to. *)
Definition deleted_ok c c' k (done failed : list nat) : Prop :=
  done ++ failed ≡ₚ (stores_of c (delete_shards c k)).*1 ∧
  (∀ id, id ∈ done → shard_has c' id k None) ∧
  catalog c' = match failed with [] => (cat_remove k (catalog c)).1 | _ => drop_replicas k done (catalog c) end.

Definition delete_tolerates c (done failed : list nat) : Prop :=
  failed = [] ∨ if delete_requires_min_writes c then (min_writes c <= length done)%nat else done ≠ [].

Lemma delete_raw_spec k c :
  cluster_ok c → key_ok k → key_ok (meta_sidecar_path k) →
  let '(c', res) := delete_raw k c in
  touches {[k; meta_sidecar_path k]} c c' ∧ shards c' = shards c ∧
  ∃ done failed, deleted_ok c c' k done failed ∧
    match res with
    | Ok _ => delete_tolerates c done failed
    | Err _ => ¬ delete_tolerates c done failed
    | Panic => False
    end.
Proof.
  intros Hok Hk Hks. rewrite /delete_raw {1}/sm_bind /sm_get.
  destruct (fan_out_writes _ _ _ _ _ (stores_of c (delete_shards c k)) c (delete_writer k Hk Hks) Hok)
    as (c1 & outs & Hrun & Hs1 & Ht1 & _ & Hfst & Houts).
  { intros id r Hin. by apply elem_of_stores_of in Hin as [_ ?]. }
  rewrite {1}/sm_bind Hrun. cbn zeta.
  assert (catalog c1 = catalog c) as Hc1 by (by rewrite Hs1).
  assert (shards c1 = shards c) as Hsh1 by (by rewrite Hs1).
  assert (∀ f, (∀ m k', k' ≠ k → entries (f m) !! k' = entries m !! k') →
    touches {[k; meta_sidecar_path k]} c (on_catalog f c1)) as Hcat.
  { intros f Hf. eapply touches_trans; [exact Ht1|]. apply (on_catalog_key _ k); [by eapply tc_ok|auto with keys|done]. }
  assert (∀ f id, id ∈ deleted_of outs → shard_has (on_catalog f c1) id k None) as Hhas.
  { intros f id Hin. apply elem_of_deleted in Hin as (o & Hin & Ho). specialize (Houts id o Hin).
    destruct o; by apply Houts. }
  pose proof (deleted_ids outs) as Hids. rewrite Hfst in Hids.
  assert ((undeleted_of outs).*1 = [] ↔ undeleted_of outs = []) as Hnil by (destruct (undeleted_of outs); by split).
  assert (∀ f, f = (if decide (undeleted_of outs = []) then λ m, (cat_remove k m).1 else drop_replicas k (deleted_of outs)) →
    deleted_ok c (on_catalog f c1) k (deleted_of outs) (undeleted_of outs).*1) as Hdel.
  { intros f ->. split_and!; [done|by apply Hhas|]. rewrite /= Hc1.
    destruct (undeleted_of outs) as [|x l]; by case_decide. }
  destruct (last (undeleted_of outs)) as [[i e]|] eqn:Hlast.
  - assert (undeleted_of outs ≠ []) as Hne by (intros Hn; by rewrite Hn in Hlast).
    assert (touches {[k; meta_sidecar_path k]} c (on_catalog (drop_replicas k (deleted_of outs)) c1)) as Ht2.
    { apply Hcat. intros m k' Hk'. by apply drop_replicas_other. }
    assert (deleted_ok c (on_catalog (drop_replicas k (deleted_of outs)) c1) k (deleted_of outs) (undeleted_of outs).*1) as Hd2.
    { apply Hdel. by rewrite decide_False. }
    rewrite /sm_bind /sm_modify /sm_ret /sm_err. destruct (delete_requires_min_writes c) eqn:Hreq.
    + match goal with |- context [(if ?D then _ else _) (on_catalog _ _)] => destruct D as [Htol'|Htol'] end;
        (split; [done|split; [done|]]); exists (deleted_of outs), (undeleted_of outs).*1; (split; [done|]);
        rewrite /delete_tolerates Hreq; [by right|]. intros [Hn%Hnil|Hn]; done.
    + match goal with |- context [(if ?D then _ else _) (on_catalog _ _)] => destruct D as [Htol'|Htol'] end;
        (split; [done|split; [done|]]); exists (deleted_of outs), (undeleted_of outs).*1; (split; [done|]);
        rewrite /delete_tolerates Hreq; [|by right]. intros [Hn%Hnil|Hn]; done.
  - apply last_None in Hlast. rewrite /sm_modify. split_and!.
    + apply Hcat. intros m k' Hk'. by apply cat_remove_other.
    + done.
    + exists (deleted_of outs), (undeleted_of outs).*1. split; [apply Hdel; by rewrite decide_True|].
      left. by apply Hnil.
Qed.

(** ** Delete markers *)

(** Keys the stores accept, and that do not collide with their own marker. *)
Record good_key k : Prop := {
  gk_key : key_ok k;
  gk_sidecar : key_ok (meta_sidecar_path k);
  gk_marker : key_ok (marker_path k);
  gk_marker_sidecar : key_ok (meta_sidecar_path (marker_path k));
  gk_apart : k ∉ marker_keys k;
  gk_marker_apart : marker_path k ∉ ({[k; meta_sidecar_path k]} : gset string);
  gk_marker_key_apart : delete_marker_key k ∉ ({[k; meta_sidecar_path k]} : gset string);
}.

Lemma remove_marker_touches k c :
  cluster_ok c → good_key k →
  ∃ c', sm_ignore (F := Error) (remove_delete_marker k) c = (c', Ok tt) ∧ touches (marker_keys k) c c'.
Proof.
  intros Hok Hg. pose proof (delete_raw_spec (marker_path k) c Hok (gk_marker _ Hg) (gk_marker_sidecar _ Hg)) as Hd.
  rewrite /sm_ignore /sm_bind /sm_try /remove_delete_marker. fold (marker_path k).
  destruct (delete_raw _ c) as [c' res]. destruct Hd as (Ht & _ & l & l' & _ & Hres). exists c'.
  split; [by destruct res|]. eapply touches_mono; [|exact Ht]. auto with keys.
Qed.

Lemma write_spec now k d targets c :
  cluster_ok c → good_key k → data_ok now d → NoDup targets →
  let '(c', res) := write_to_shards now k d targets c in
  touches (footprint k) c c' ∧ catalog c' = catalog c ∧
  match res with
  | Ok landed => landed_ok c' k d (min_writes c) (Some landed.1, landed.2)
  | Err e => write_error k e
  | Panic => False
  end.
Proof.
  intros Hok Hg Hd Hnd. rewrite /write_to_shards {1}/sm_bind /sm_get {1}/sm_bind.
  pose proof (write_inner_spec now k d targets (min_writes c) true c Hok (gk_key _ Hg) (gk_sidecar _ Hg) Hd Hnd) as Hw.
  destruct (write_to_shards_inner _ _ _ _ _ _ c) as [c' res]. destruct Hw as (Ht & Hc & Hres).
  assert (touches (footprint k) c c') as Ht' by (eapply touches_mono; [|exact Ht]; auto with keys).
  destruct res as [[o l]|e|]; [|done|done]. destruct Hres as (Hn & Hnd' & Hsome & Hall). cbn [fst snd] in *.
  destruct Hsome as [r ->]; [|split_and!; done]. intros ->. simpl in Hn. pose proof (co_min _ Hok). lia.
Qed.

(** Every replica the catalog names has [d]. *)
Definition placed_as now c k d placed : Prop :=
  entries (catalog c) !! k = Some (mkPlacement placed (zlen d) (Some (crc32c d)) now 0) ∧
  ∀ id, id ∈ placed → shard_has c id k (Some d).

Lemma record_put_spec now k d placed c :
  cluster_ok c → good_key k → (∀ id, id ∈ placed → shard_has c id k (Some d)) →
  ∃ c', record_put now k d placed c = (c', Ok tt) ∧ touches (footprint k) c c' ∧ placed_as now c' k d placed.
Proof.
  intros Hok Hg Hall. rewrite /record_put /sm_bind /sm_modify.
  set (c1 := on_catalog _ c). set (c2 := emit_event _ c1).
  assert (touches (footprint k) c c1) as Ht1.
  { apply (on_catalog_key _ k); [done|auto with keys|]. intros m k' Hk'. by apply cat_put_other. }
  assert (touches (footprint k) c c2) as Ht2 by by apply touches_event.
  destruct (remove_marker_touches k c2 (tc_ok _ _ _ Ht2) Hg) as (c3 & Hrun & Ht3). rewrite Hrun.
  exists c3. split_and!; [done|eapply touches_step; [exact Ht2|exact Ht3|done|auto with keys]|].
  pose proof (gk_apart _ Hg) as Hap. split.
  - rewrite (tc_catalog _ _ _ Ht3) //= lookup_insert_eq //.
  - intros id Hid. eapply shard_has_touches; [exact Ht3|done|]. by apply Hall.
Qed.

(** ** Put *)

Definition put_done now c0 c k d : Prop :=
  ∃ placed, NoDup placed ∧ (min_writes c0 <= length placed)%nat ∧ placed_as now c k d placed.

Lemma retry_put_spec now k d targets c :
  cluster_ok c → good_key k → data_ok now d →
  let '(c', res) := retry_put now k d targets c in
  touches (footprint k) c c' ∧
  match res with
  | Ok _ => put_done now c c' k d
  | Err _ => catalog c' = catalog c
  | Panic => False
  end.
Proof.
  intros Hok Hg Hd. rewrite /retry_put {1}/sm_bind /sm_modify {1}/sm_bind /sm_get.
  destruct (mark_offline_touches now targets c Hok) as (Ht1 & _ & Hc1). set (c1 := mark_offline _ _ c) in *.
  assert (touches (footprint k) c c1) as Ht1' by (eapply touches_mono; [|exact Ht1]; auto with keys).
  case_decide; [done|].
  destruct (select_targets_spec c1 k) as (Hnd & _ & _); [by eapply co_factor, tc_ok|].
  pose proof (write_spec now k d (select_targets c1 k) c1 (tc_ok _ _ _ Ht1) Hg Hd Hnd) as Hw.
  rewrite {1}/sm_bind. destruct (write_to_shards _ _ _ _ c1) as [c2 res]. destruct Hw as (Ht2 & Hc2 & Hres).
  destruct res as [landed|e|]; [| |done].
  - destruct Hres as (Hn & Hnd2 & _ & Hall). cbn [fst snd] in *.
    destruct (record_put_spec now k d landed.2 c2 (tc_ok _ _ _ Ht2) Hg Hall) as (c3 & Hrun & Ht3 & Hpl).
    rewrite /sm_bind Hrun. split; [do 2 (eapply touches_trans; [eassumption|]); done|].
    exists landed.2. split_and!; [done| |done]. pose proof (tc_settings _ _ _ Ht1) as [= _ Hm _ _ _ _]. by rewrite -Hm.
  - split; [by eapply touches_trans|]. by rewrite Hc2 Hc1.
Qed.

Lemma put_spec now k d c :
  cluster_ok c → good_key k → data_ok now d →
  let '(c', res) := put now k d c in
  touches (footprint k) c c' ∧
  match res with
  | Ok _ => put_done now c c' k d
  | Err _ => catalog c' = catalog c
  | Panic => False
  end.
Proof.
  intros Hok Hg Hd. rewrite /put {1}/sm_bind /sm_get.
  assert (touches (footprint k) c c) as Hrefl by by apply touches_refl.
  destruct (read_only c); [done|]. case_decide; [done|].
  destruct (select_targets_spec c k (co_factor _ Hok)) as (Hnd & _ & _).
  pose proof (write_spec now k d (select_targets c k) c Hok Hg Hd Hnd) as Hw.
  rewrite {1}/sm_bind /sm_try. destruct (write_to_shards _ _ _ _ c) as [c1 res]. destruct Hw as (Ht1 & Hc1 & Hres).
  destruct res as [landed|e|]; [| |done].
  - destruct Hres as (Hn & Hnd2 & _ & Hall). cbn [fst snd] in *.
    destruct (record_put_spec now k d landed.2 c1 (tc_ok _ _ _ Ht1) Hg Hall) as (c2 & Hrun & Ht2 & Hpl).
    rewrite /sm_bind Hrun. split; [by eapply touches_trans|]. by exists landed.2.
  - destruct (is_insufficient e); [done|].
    pose proof (retry_put_spec now k d (select_targets c k) c1 (tc_ok _ _ _ Ht1) Hg Hd) as Hr.
    destruct (retry_put _ _ _ _ c1) as [c2 res]. destruct Hr as (Ht2 & Hres2).
    split; [by eapply touches_trans|]. destruct res as [p|e2|]; [| |done].
    + destruct Hres2 as (placed & Hnd2 & Hn & Hpl). exists placed. split_and!; [done| |done].
      pose proof (tc_settings _ _ _ Ht1) as [= _ Hm _ _ _ _]. by rewrite -Hm.
    + by rewrite Hres2 Hc1.
Qed.

(** ** Reads *)

(** A step that changes neither stores nor shards' stores. *)
Definition reads K c c' : Prop := touches K c c' ∧ heap c' = heap c.

Lemma reads_refl K c : cluster_ok c → reads K c c.
Proof. intros. split; [by apply touches_refl|done]. Qed.

Lemma reads_trans K c1 c2 c3 : reads K c1 c2 → reads K c2 c3 → reads K c1 c3.
Proof. intros [Ht1 Hh1] [Ht2 Hh2]. split; [by eapply touches_trans|by rewrite Hh2]. Qed.

Lemma ask_store_ok {A} r (op : store → Res store_error A) c a :
  (ask_store r op c).2 = Ok a ↔ ∃ ad b, r = At ad ∧ heap c !! ad = Some b ∧ op b = Ok a.
Proof.
  rewrite /ask_store. destruct r as [id|ad]; cbn [snd]; [split; [done|by intros (? & ? & ? & _)]|].
  destruct (heap c !! ad) as [b|] eqn:Hb; [|split; [done|intros (? & ? & [= <-] & Hb' & _); by rewrite Hb in Hb']].
  split.
  - intros Ho. exists ad, b. split_and!; [done|done|]. destruct (op b); [by injection Ho as ->|done|done].
  - intros (ad' & b' & [= <-] & Hb' & Ho). rewrite Hb in Hb'. injection Hb' as <-. by rewrite Ho.
Qed.

Lemma ask_store_total {A} r (op : store → Res store_error A) c :
  cluster_ok c → (∀ a, r = At a → is_Some (heap c !! a)) → (∀ b, store_ok b → op b ≠ Panic) →
  ∃ o : Error + A, ask_store r op c = (c, match o with inr a => Ok a | inl e => Err e end).
Proof.
  intros Hok Href Hop. rewrite /ask_store. destruct r as [id|a]; [by exists (inl (NotConnected id))|].
  destruct (Href a eq_refl) as [b Hb]. rewrite Hb. specialize (Hop b (co_heap _ Hok a b Hb)).
  destruct (op b) as [x|e|]; [by exists (inr x)|by exists (inl (FromShard e))|done].
Qed.

Lemma head_total k b : key_ok k → store_ok b → store_head k b ≠ Panic.
Proof. intros Hk Hb Hp. pose proof (head_law b k Hb Hk) as Hl. by rewrite Hp in Hl. Qed.

Lemma get_total k b : key_ok k → store_ok b → store_get k b ≠ Panic.
Proof. intros Hk Hb Hp. pose proof (get_law b k Hb Hk) as Hl. by rewrite Hp in Hl. Qed.

Lemma add_replica_reads now k id n ml c :
  cluster_ok c → reads {[k]} c (on_catalog (add_replica now k id n ml) c).
Proof.
  intros Hok. split; [|done]. apply (on_catalog_key _ k); [done|auto with keys|].
  intros m k' Hk'. by apply add_replica_other.
Qed.

Lemma found_size_total k refs id r c :
  cluster_ok c → key_ok k → (∀ a, r = At a → is_Some (heap c !! a)) →
  ∃ n, found_size k refs id r c = (c, Ok n).
Proof.
  intros Hok Hk Href. rewrite /found_size. case_match; [case_match; by eexists|].
  destruct (ask_store_total r (store_head k) c Hok Href (λ b, head_total k b Hk)) as [[e|m] ->]; by eexists.
Qed.

Lemma schedule_reads K k good bads c :
  cluster_ok c → reads K c (foldl (λ c bad, schedule_read_repair k good bad c) c bads).
Proof.
  revert c. induction bads as [|bad bads IH]; intros c Hok; cbn [foldl]; [by apply reads_refl|].
  assert (reads K c (schedule_read_repair k good bad c)) as Hr.
  { rewrite /schedule_read_repair. split; [|by repeat case_match].
    split; try by repeat case_match.
    - split; repeat case_match; apply Hok.
    - repeat case_match; apply same_objects_refl. }
  eapply reads_trans; [exact Hr|]. apply IH. by eapply tc_ok, Hr.
Qed.

Lemma read_error_reads id k e c :
  cluster_ok c → let '(c', _) := handle_read_error id k e c in reads {[k]} c c'.
Proof.
  intros Hok. rewrite /handle_read_error. destruct (negb _); [by apply reads_refl|].
  destruct (shards c !! id) as [s|]; [|by apply reads_refl]. split; [|done].
  assert (touches ∅ c (on_shard id (with_crc_errors ((crc_error_count s + 1) mod two64)) c)) as Ht
    by by apply on_shard_touches.
  eapply touches_trans; [eapply (touches_mono ∅); [auto with keys|exact Ht]|].
  apply (on_catalog_key _ k); [by eapply tc_ok|auto with keys|]. intros m k' Hk'. by apply remove_shard_other.
Qed.

(** The replicas tried in order: the first that answers. *)
Definition answered {A} c (op : store → Res store_error A) (l : list (nat * StoreRef)) (x : StoreRef * A) : Prop :=
  ∃ id ad b, (id, x.1) ∈ l ∧ x.1 = At ad ∧ heap c !! ad = Some b ∧ op b = Ok x.2.

Lemma try_replicas_spec {A} now (op : store → Res store_error A) k fb refs l last_err corrupted c :
  cluster_ok c → key_ok k → (∀ b, store_ok b → op b ≠ Panic) →
  (∀ id r, (id, r) ∈ l → shard_store c id = Some r) →
  let '(c', res) := try_replicas now op k fb refs l last_err corrupted c in
  reads {[k]} c c' ∧
  match res with
  | Ok x => answered c op l x
  | Err _ => ∀ x, ¬ answered c op l x
  | Panic => False
  end.
Proof.
  intros Hok Hk Hop. revert last_err corrupted c Hok. induction l as [|[id r] l IH]; intros last_err corrupted c Hok Hl.
  { split; [by apply reads_refl|]. intros x (i & ad & b & Hin & _). by apply elem_of_nil in Hin. }
  cbn [try_replicas]. assert (∀ a, r = At a → is_Some (heap c !! a)) as Href.
  { intros a Ha. eapply (shard_ref c id); [done|apply Hl; by left|done]. }
  destruct (ask_store_total r op c Hok Href Hop) as [o Ho]. pose proof (ask_store_ok r op c) as Hans.
  rewrite {1}/sm_bind /sm_try Ho. rewrite Ho in Hans. cbn [snd] in Hans. destruct o as [e|a].
  - rewrite {1}/sm_bind /sm_apply. pose proof (read_error_reads id k e c Hok) as Hr.
    destruct (handle_read_error id k e c) as [c1 is_crc]. pose proof Hr as [Ht Hh].
    specialize (IH (Some e) (if is_crc then corrupted ++ [id] else corrupted) c1 (tc_ok _ _ _ Ht)).
    destruct (try_replicas _ _ _ _ _ l _ _ c1) as [c2 res].
    destruct IH as [Hr2 Hres].
    { intros i r' Hin. rewrite (tc_store _ _ _ Ht). apply Hl. by right. }
    split; [by eapply reads_trans|]. destruct res as [x|e2|]; [| |done].
    + destruct Hres as (i & ad & b & Hin & Hx & Hb & Hopb). exists i, ad, b. rewrite -Hh. by split_and!; [right| | |].
    + intros x (i & ad & b & Hin & Hx & Hb & Hopb). apply elem_of_cons in Hin as [[= -> Hr']|Hin].
      * specialize (Hans x.2) as [_ Hans]. discriminate Hans. exists ad, b. by rewrite -Hr'.
      * apply (Hres x). exists i, ad, b. by rewrite Hh.
  - assert (∃ c1, ((if fb then found <- found_size k refs id r ;;
        sm_modify (on_catalog (add_replica now k id found.1 found.2)) else sm_ret tt) : CM unit) c = (c1, Ok tt) ∧
      reads {[k]} c c1) as (c1 & Hrun & Hr1).
    { destruct fb; [|exists c; split; [done|by apply reads_refl]].
      destruct (found_size_total k refs id r c Hok Hk Href) as [n Hn]. rewrite /sm_bind Hn.
      eexists. split; [done|]. by apply add_replica_reads. }
    rewrite {1}/sm_bind Hrun {1}/sm_bind /sm_modify. split.
    + eapply reads_trans; [exact Hr1|]. apply schedule_reads. eapply tc_ok, Hr1.
    + specialize (Hans a) as [(ad & b & Hr' & Hb & Hopb) _]; [done|]. exists id, ad, b. split_and!; [by left|done..].
Qed.

Lemma rotation_perm {A} n (l : list A) : drop n l ++ take n l ≡ₚ l.
Proof. by rewrite Permutation_app_comm take_drop. Qed.

(** The shards a read of [k] tries. *)
Definition readable c k : list nat :=
  filter (λ id, shard_is reachable c id = true)
    match entries (catalog c) !! k with Some e => pe_shards e | None => all_shards c end.

Lemma balanced_spec l c :
  cluster_ok c → let '(c', order) := balanced_shard_order l c in
  reads ∅ c c' ∧ catalog c' = catalog c ∧ shards c' = shards c ∧ order ≡ₚ l.
Proof.
  intros Hok. rewrite /balanced_shard_order. case_decide.
  { split_and!; [by apply reads_refl|done..]. }
  split_and!; [|done|done|apply rotation_perm]. split; [|done]. by split; [split; apply Hok|..|apply same_objects_refl| |].
Qed.

Lemma resolve_spec k c :
  cluster_ok c → let '(c', (order, is_fallback)) := resolve_shards k c in
  reads ∅ c c' ∧ catalog c' = catalog c ∧ shards c' = shards c ∧ order ≡ₚ readable c k ∧
  (is_fallback = true ↔ entries (catalog c) !! k = None).
Proof.
  intros Hok. rewrite /resolve_shards /readable.
  set (raw := match entries (catalog c) !! k with Some e => _ | None => _ end).
  assert (raw.1 ≡ₚ readable c k ∧ (raw.2 = true ↔ entries (catalog c) !! k = None)) as [Hp Hfb].
  { rewrite /raw /readable. destruct (entries (catalog c) !! k); [done|]. split; [|done].
    by rewrite merge_sort_Permutation. }
  fold (readable c k). destruct raw as [raw fb]. cbn [fst snd] in *.
  destruct (read_preference c).
  - pose proof (balanced_spec raw c Hok) as Hb. destruct (balanced_shard_order raw c) as [c' order].
    destruct Hb as (Hr & Hc & Hs & Ho). split_and!; [done..|by rewrite Ho|done].
  - split_and!; [by apply reads_refl|done..].
Qed.

(** The first replica that answers, without failover bookkeeping. *)
Lemma read_with_fallback_spec {A} now (op : store → Res store_error A) k c :
  cluster_ok c → key_ok k → (∀ b, store_ok b → op b ≠ Panic) → is_delete_marker k = false →
  let '(c', res) := read_with_fallback now k op c in
  reads {[k]} c c' ∧
  match res with
  | Ok x => answered c op (stores_of c (readable c k)) x
  | Err _ => ∀ x, ¬ answered c op (stores_of c (readable c k)) x
  | Panic => False
  end.
Proof.
  intros Hok Hk Hop Hm. rewrite /read_with_fallback Hm {1}/sm_bind {1}/sm_apply.
  pose proof (resolve_spec k c Hok) as Hr. destruct (resolve_shards k c) as [c1 [order fb]].
  destruct Hr as (Hr1 & Hc1 & Hs1 & Ho & _). rewrite {1}/sm_bind /sm_get. cbn [fst snd].
  assert (∀ id r, (id, r) ∈ stores_of c1 order ↔ (id, r) ∈ stores_of c (readable c k)) as Hst.
  { intros id r. rewrite !elem_of_stores_of Ho /shard_store Hs1 //. }
  pose proof (try_replicas_spec now op k fb (if fb then raw_refs c1 else None) (stores_of c1 order) None [] c1) as Ht.
  destruct (try_replicas _ _ _ _ _ _ _ _ c1) as [c2 res]. destruct Ht as [Hr2 Hres]; [by eapply tc_ok, Hr1|done|done| |].
  { intros id r Hin. by apply elem_of_stores_of in Hin as [_ ?]. }
  split.
  { eapply reads_trans; [|exact Hr2]. destruct Hr1 as [Ht1 Hh1]. split; [|done]. eapply touches_mono; [|exact Ht1]. auto with keys. }
  assert (∀ x, answered c1 op (stores_of c1 order) x ↔ answered c op (stores_of c (readable c k)) x) as Hans.
  { intros x. rewrite /answered (proj2 Hr1). by setoid_rewrite Hst. }
  destruct res as [x|e|]; [by apply Hans|by intros x; rewrite -Hans|done].
Qed.

(** Reading back what every named replica holds. *)
Lemma settled_answer {A} c (op : store → Res store_error A) k d x :
  settled c k d → answered c op (stores_of c (readable c k)) x →
  ∃ ad b, x.1 = At ad ∧ heap c !! ad = Some b ∧ op b = Ok x.2 ∧ view b !! k = Some d.
Proof.
  intros (e & He & Hall) (id & ad & b & Hin & Hx & Hb & Hop). exists ad, b. split_and!; [done..|].
  apply elem_of_stores_of in Hin as [Hid Hst]. rewrite /readable He in Hid.
  apply list_elem_of_filter in Hid as [_ Hid]. eapply Hall; [done| |done]. by rewrite Hst Hx.
Qed.
End facts.
