(* ===== verification/ClusterOps.v ===== *)
(** * Deletes, creates and heads of the sharded store

    The rest of the public calls, on the relations of ClusterFacts.v. *)

From S2P Require Import Prelude.
From S2P Require Import Config.
From S2P Require Import Extent.
From S2P Require Import Index.
From S2P Require Import StoreTools.
From S2P Require Import StoreMeta.
From S2P Require Import ObjectStoreApi.
From S2P Require Import Catalog.
From S2P Require Import JumpHash.
From S2P Require Import Backend.
From S2P Require Import Cluster.
From S2P Require Import ClusterIo.
From S2P Require Import ClusterFacts.

Section ops.
Context `{ObjectBackendLaws, Crc32c, HashMapOrderLaws, ObjectPath, Chrono}.
Implicit Types (c : ShardedObjectStore) (k : string) (d : list byte).

(** ** Delete *)

Definition marker_body (now : Z) : list byte := as_bytes (to_rfc3339 now).

(** The marker of [k] is in the catalog, on at least one shard. *)
Definition marked now c k : Prop :=
  ∃ placed, NoDup placed ∧ placed ≠ [] ∧
    entries (catalog c) !! delete_marker_key k = Some (mkPlacement placed (zlen (marker_body now)) None now 0) ∧
    ∀ id, id ∈ placed → shard_has c id (marker_path k) (Some (marker_body now)).

Lemma reachable_NoDup c : NoDup (filter (λ id, shard_is reachable c id = true) (all_shards c)).
Proof. apply NoDup_filter, NoDup_seq. Qed.

Lemma put_marker_spec now k c :
  cluster_ok c → good_key k → data_ok now (marker_body now) →
  let '(c', res) := put_delete_marker now k c in
  touches (marker_keys k) c c' ∧
  match res with Ok _ => marked now c' k | Err _ => catalog c' = catalog c | Panic => False end.
Proof.
  intros Hok Hg Hd. rewrite /put_delete_marker. fold (marker_body now) (marker_path k). rewrite {1}/sm_bind /sm_get.
  case_decide as Hall; [by split; [apply touches_refl|]|].
  set (ids := filter _ (all_shards c)) in *. pose proof (reachable_NoDup c) as Hnd. fold ids in Hnd.
  match goal with |- context [sm_bind ?m _ c] => set (write := m) end.
  assert (let '(c1, res) := write c in touches (marker_keys k) c c1 ∧ catalog c1 = catalog c ∧
    match res with
    | Ok placed => NoDup placed ∧ placed ≠ [] ∧ ∀ id, id ∈ placed → shard_has c1 id (marker_path k) (Some (marker_body now))
    | Err _ => True
    | Panic => False
    end) as Hw.
  { assert (∀ n b, (1 <= n)%nat →
      let '(c1, res) := write_to_shards_inner now (marker_path k) (marker_body now) ids n b c in
      touches (marker_keys k) c c1 ∧ catalog c1 = catalog c ∧
      match res with
      | Ok landed => NoDup landed.2 ∧ landed.2 ≠ [] ∧ is_Some landed.1 ∧
          ∀ id, id ∈ landed.2 → shard_has c1 id (marker_path k) (Some (marker_body now))
      | Err _ => True
      | Panic => False
      end) as Hin.
    { intros n b Hn. pose proof (write_inner_spec now (marker_path k) (marker_body now) ids n b c Hok
        (gk_marker _ Hg) (gk_marker_sidecar _ Hg) Hd Hnd) as Hw.
      destruct (write_to_shards_inner _ _ _ _ _ _ c) as [c1 res]. destruct Hw as (Ht & Hc & Hres).
      split_and!; [eapply touches_mono; [|exact Ht]; auto with keys|done|]. destruct res as [landed|e|]; [|done|done].
      destruct Hres as (Hlen & Hnd' & Hsome & Hhas).
      assert (landed.2 ≠ []) as Hne by (intros Hn'; rewrite Hn' /= in Hlen; lia). by split_and!; [|done|apply Hsome|]. }
    rewrite /write. destruct (delete_requires_min_writes c).
    - rewrite /write_to_shards /sm_bind /sm_get. pose proof (Hin (min_writes c) true (co_min _ Hok)) as Hi.
      destruct (write_to_shards_inner _ _ _ _ _ _ c) as [c1 res]. destruct Hi as (Ht & Hc & Hres).
      destruct res as [landed|e|]; [|done|done]. destruct Hres as (Hnd' & Hne & [r ->] & Hhas). done.
    - rewrite /write_to_shards_best_effort /sm_bind. pose proof (Hin 1%nat false (le_n 1)) as Hi.
      destruct (write_to_shards_inner _ _ _ _ _ _ c) as [c1 res]. destruct Hi as (Ht & Hc & Hres).
      destruct res as [landed|e|]; [|done|done]. destruct Hres as (Hnd' & Hne & _ & Hhas). done. }
  rewrite {1}/sm_bind. destruct (write c) as [c1 res]. destruct Hw as (Ht1 & Hc1 & Hres).
  destruct res as [placed|e|]; [|done|done]. destruct Hres as (Hndp & Hne & Hhas).
  rewrite /sm_bind /sm_modify /sm_ret. split.
  - eapply touches_trans; [exact Ht1|]. apply (on_catalog_key _ (delete_marker_key k)); [by eapply tc_ok|auto with keys|].
    intros m k' Hk'. by apply cat_put_other.
  - exists placed. split_and!; [done|done|by rewrite /= lookup_insert_eq|done].
Qed.

(** The shards the catalog says may have [k]. *)
Definition named c k : list nat := match entries (catalog c) !! k with Some e => pe_shards e | None => all_shards c end.

(** A delete that returned: the marker, and [k] gone from the shards [gone],
    which are all it was sent to but [failed]. *)
Definition delete_done now c0 c k (gone failed : list nat) : Prop :=
  marked now c k ∧
  (∀ id, id ∈ gone → shard_has c id k None) ∧
  (∀ id, id ∈ named c0 k → shard_is reachable c id = true → id ∈ gone ++ failed) ∧
  entries (catalog c) !! k =
    match failed with [] => None | _ => entries (drop_replicas k gone (catalog c0)) !! k end ∧
  delete_tolerates c0 gone failed.

(** Dropping replicas of [k] depends on the entry of [k] only. *)
Lemma remove_shard_local k id m m' :
  entries m !! k = entries m' !! k → entries (remove_shard k id m) !! k = entries (remove_shard k id m') !! k.
Proof.
  intros Heq. rewrite /remove_shard Heq. destruct (entries m' !! k) eqn:Hk; [|by rewrite Heq Hk]. simpl.
  case_decide; by rewrite ?lookup_delete_eq ?lookup_insert_eq.
Qed.

Lemma drop_replicas_local k ids m m' :
  entries m !! k = entries m' !! k → entries (drop_replicas k ids m) !! k = entries (drop_replicas k ids m') !! k.
Proof.
  revert m m'. induction ids as [|id ids IH]; intros m m' Heq; [done|]. apply IH. by apply remove_shard_local.
Qed.

Lemma delete_spec now k c :
  cluster_ok c → good_key k → is_delete_marker k = false → data_ok now (marker_body now) →
  let '(c', res) := delete now k c in
  touches (footprint k) c c' ∧
  match res with
  | Ok _ => ∃ gone failed, delete_done now c c' k gone failed
  | Err _ => entries (catalog c') !! k = entries (catalog c) !! k ∨ marked now c' k
  | Panic => False
  end.
Proof.
  intros Hok Hg Hm Hd. rewrite /delete {1}/sm_bind /sm_get Hm.
  destruct (read_only c); [split; [by apply touches_refl|by left]|].
  pose proof (put_marker_spec now k c Hok Hg Hd) as Hp. rewrite {1}/sm_bind.
  destruct (put_delete_marker now k c) as [c1 res]. destruct Hp as (Ht1 & Hres).
  assert (touches (footprint k) c c1) as Ht1' by (eapply touches_mono; [|exact Ht1]; auto with keys).
  pose proof (tc_catalog _ _ _ Ht1 k (gk_apart _ Hg)) as Hk1.
  destruct res as [t|e|]; [|split; [done|by left]|done].
  pose proof (delete_raw_spec k c1 (tc_ok _ _ _ Ht1) (gk_key _ Hg) (gk_sidecar _ Hg)) as Hr. rewrite {1}/sm_bind.
  destruct (delete_raw k c1) as [c2 res]. destruct Hr as (Ht2 & Hsh2 & gone & failed & (Hids & Hgone & Hcat) & Hres2).
  assert (touches (footprint k) c c2) as Ht2' by (eapply touches_step; [exact Ht1'|exact Ht2|..]; auto with keys).
  assert (marked now c2 k) as Hmark.
  { destruct Hres as (placed & Hnd & Hne & He & Hhas). exists placed. split_and!; [done|done| |].
    - rewrite (tc_catalog _ _ _ Ht2) //. apply (gk_marker_key_apart _ Hg).
    - intros id Hin. eapply shard_has_touches; [exact Ht2|apply (gk_marker_apart _ Hg)|]. by apply Hhas. }
  destruct res as [u|e|]; [|split; [done|by right]|done].
  rewrite /sm_modify. split; [by apply touches_event|].
  exists gone, failed. split_and!.
  - done.
  - done.
  - intros id Hin Hreach. rewrite /named -Hk1 /all_shards -(tc_count _ _ _ Ht1) in Hin. rewrite Hids.
    assert (∃ s, shards c1 !! id = Some s) as [s Hs].
    { rewrite /shard_is /= Hsh2 in Hreach. destruct (shards c1 !! id) as [s|]; [by exists s|done]. }
    apply list_elem_of_fmap. exists (id, si_store s). split; [done|]. apply elem_of_stores_of.
    rewrite /shard_store Hs. split; [|done]. apply list_elem_of_filter. split; [|done].
    by rewrite /shard_is /= Hsh2 in Hreach.
  - rewrite /= Hcat. destruct failed as [|x failed].
    + rewrite /cat_remove. destruct (entries (catalog c1) !! k); by rewrite /= lookup_delete_eq.
    + by apply drop_replicas_local.
  - pose proof (tc_settings _ _ _ Ht1) as [= _ Hmin Hreq _ _ _]. by rewrite /delete_tolerates -Hmin -Hreq.
Qed.

(** ** Create *)

Lemma drop_placeholder_other k m k' : k' ≠ k → entries (drop_placeholder k m) !! k' = entries m !! k'.
Proof.
  intros Hne. rewrite /drop_placeholder. destruct (entries m !! k) as [e|]; [|done].
  destruct (pe_crc32c e); [done|]. by apply cat_remove_other.
Qed.

(** The placeholder entry a create reserves its key with. *)
Definition reserved c k : Prop := ∃ e, entries (catalog c) !! k = Some e ∧ pe_crc32c e = None.

Lemma drop_reserved k c :
  cluster_ok c → reserved c k →
  touches (footprint k) c (on_catalog (drop_placeholder k) c) ∧
  entries (catalog (on_catalog (drop_placeholder k) c)) !! k = None.
Proof.
  intros Hok (e & He & Hcrc). split.
  - apply (on_catalog_key _ k); [done|auto with keys|]. intros m k' Hk'. by apply drop_placeholder_other.
  - rewrite /= /drop_placeholder He Hcrc /cat_remove He /= lookup_delete_eq //.
Qed.

(** What a write that fails leaves of the catalog, and one that lands. *)
Definition put_outcome now c c' k d (res : Res Error PutResult) : Prop :=
  touches (footprint k) c c' ∧
  match res with
  | Ok _ => put_done now c c' k d
  | Err _ => catalog c' = catalog c
  | Panic => False
  end.

Lemma create_spec now k d c :
  cluster_ok c → good_key k → data_ok now d →
  let '(c', res) := put_create now k d c in
  touches (footprint k) c c' ∧
  match res with
  | Ok _ => entries (catalog c) !! k = None ∧ put_done now c c' k d
  | Err _ => entries (catalog c') !! k = entries (catalog c) !! k
  | Panic => False
  end.
Proof.
  intros Hok Hg Hd. rewrite /put_create {1}/sm_bind /sm_get.
  assert (touches (footprint k) c c) as Hrefl by by apply touches_refl.
  case_decide; [done|]. destruct (select_targets_spec c k (co_factor _ Hok)) as (Hnd & _ & _).
  set (targets := select_targets c k) in *. rewrite {1}/sm_bind /sm_apply /try_insert.
  destruct (entries (catalog c) !! k) as [e|] eqn:Hk; cbn [negb]; [by split; [destruct c|destruct c]|].
  set (c1 := with_catalog _ c).
  assert (touches (footprint k) c c1) as Ht1.
  { apply (on_catalog_key _ k (λ m, mark_dirty (with_entries (<[k:=mkPlacement targets (zlen d) None now 0]>
      (entries m)) m))); [done|auto with keys|]. intros m k' Hk'. by rewrite /= lookup_insert_ne. }
  assert (reserved c1 k) as Hres1.
  { eexists. by rewrite /= lookup_insert_eq. }
  assert (min_writes c1 = min_writes c) as Hm1 by done.
  pose proof (write_spec now k d targets c1 (tc_ok _ _ _ Ht1) Hg Hd Hnd) as Hw.
  rewrite {1}/sm_bind /sm_try. destruct (write_to_shards _ _ _ _ c1) as [c2 res]. destruct Hw as (Ht2 & Hc2 & Hres).
  destruct res as [landed|e|]; [| |done].
  - destruct Hres as (Hn & Hnd2 & _ & Hall). cbn [fst snd] in *.
    destruct (record_put_spec now k d landed.2 c2 (tc_ok _ _ _ Ht2) Hg Hall) as (c3 & Hrun & Ht3 & Hpl).
    rewrite /sm_bind Hrun. split; [do 2 (eapply touches_trans; [eassumption|]); done|]. split; [done|]. by exists landed.2.
  - assert (reserved c2 k) as Hres2 by (by rewrite /reserved Hc2).
    destruct (is_insufficient e).
    + destruct (drop_reserved k c2 (tc_ok _ _ _ Ht2) Hres2) as [Ht3 Hnone].
      rewrite /sm_bind /sm_modify. split; [do 2 (eapply touches_trans; [eassumption|]); done|done].
    + pose proof (retry_put_spec now k d targets c2 (tc_ok _ _ _ Ht2) Hg Hd) as Hr. rewrite /sm_on_err.
      destruct (retry_put _ _ _ _ c2) as [c3 res]. destruct Hr as (Ht3 & Hres3). destruct res as [p|e2|]; [| |done].
      * split; [do 2 (eapply touches_trans; [eassumption|]); done|]. split; [done|].
        destruct Hres3 as (placed & Hnd3 & Hn3 & Hpl). exists placed. split_and!; [done| |done].
        pose proof (tc_settings _ _ _ Ht2) as [= _ Hm _ _ _ _]. by rewrite -Hm1 -Hm.
      * assert (reserved c3 k) as Hres4 by (by rewrite /reserved Hres3).
        destruct (drop_reserved k c3 (tc_ok _ _ _ Ht3) Hres4) as [Ht4 Hnone].
        split; [do 3 (eapply touches_trans; [eassumption|]); done|done].
Qed.

(** ** Reads *)

Lemma get_spec now k c :
  cluster_ok c → key_ok k → is_delete_marker k = false →
  let '(c', res) := get now k c in
  reads {[k]} c c' ∧
  match res with
  | Ok x => answered c (store_get k) (stores_of c (readable c k)) x
  | Err _ => ∀ x, ¬ answered c (store_get k) (stores_of c (readable c k)) x
  | Panic => False
  end.
Proof. intros Hok Hk Hm. apply read_with_fallback_spec; [done..| |done]. intros b. by apply get_total. Qed.

(** The body a [GetResult] from a settled key gives. *)
Lemma settled_body c k d x :
  cluster_ok c → key_ok k → settled c k d → answered c (store_get k) (stores_of c (readable c k)) x →
  ∀ c', heap c' = heap c → ∀ body, (bytes x c').2 = Ok body → body = d.
Proof.
  intros Hok Hk Hset Hans c' Hh body Hb.
  destruct (settled_answer _ _ _ _ _ Hset Hans) as (ad & b & Hx & Hbb & Hop & Hv).
  apply ask_store_ok in Hb as (ad' & b' & Hx' & Hb' & Hbytes). rewrite Hx in Hx'. injection Hx' as <-.
  rewrite Hh Hbb in Hb'. injection Hb' as <-.
  pose proof (get_law b k (co_heap _ Hok _ _ Hbb) Hk) as Hl. rewrite Hop in Hl.
  specialize (Hl body Hbytes). rewrite Hv in Hl. by injection Hl.
Qed.

Lemma put_settles now c0 c k d : put_done now c0 c k d → settled c k d.
Proof.
  intros (placed & _ & _ & He & Hall). eexists. split; [done|]. cbn. intros id a b Hid Ha Hb.
  destruct (Hall id Hid) as (a' & Ha' & Ho). rewrite Ha in Ha'. injection Ha' as <-.
  by rewrite /object_at Hb in Ho.
Qed.

Lemma put_leaves now k d c :
  cluster_ok c → good_key k → data_ok now d → is_ok (snd (put now k d c)) = true →
  cluster_ok (fst (put now k d c)) ∧ settled (fst (put now k d c)) k d.
Proof.
  intros Hok Hg Hd. pose proof (put_spec now k d c Hok Hg Hd) as Hp. destruct (put now k d c) as [c' res].
  destruct Hp as [Ht Hres]. destruct res; [|done|done]. intros _. split; [by eapply tc_ok|by eapply put_settles].
Qed.

(** ** A new cluster *)

Lemma new_cluster_ok now (h : gmap nat store) stores rf :
  (∀ a b, h !! a = Some b → store_ok b) → (∀ a, Some a ∈ stores → is_Some (h !! a)) →
  cluster_ok (new_cluster now h stores rf).
Proof.
  intros Hh Hs. split; [done| |rewrite /= /replication_factor; lia|simpl; lia].
  intros id a. rewrite /shard_store /= list_lookup_imap. destruct (stores !! id) as [[a'|]|] eqn:Hid; [|done..].
  intros [= ->]. by eapply Hs, list_elem_of_lookup_2.
Qed.
End ops.
