(* ===== verification/ClusterExamples.v ===== *)
(** * A shard in memory and an example cluster

    An implementation of the shard interface whose calls fail on request,
    with its laws, and clusters of it: what the witnesses run on. *)

From S2P Require Import Prelude.
From S2P Require Import Config.
From S2P Require Import Extent.
From S2P Require Import Concrete.
From S2P Require Import Index.
From S2P Require Import StoreMeta.
From S2P Require Import Instances.
From S2P Require Import Catalog.
From S2P Require Import Backend.
From S2P Require Import Cluster.
From S2P Require Import ClusterIo.
From S2P Require Import ClusterFacts.
From S2P Require Import ClusterOps.

(** ** The store *)

Inductive MemCall : Type := MemPut | MemGet | MemHead | MemDelete | MemList.
Inductive MemError : Type := MemNotFound (path : string) | MemFault | MemCorrupt.

#[export] Instance MemCall_eq_dec : EqDecision MemCall.
Proof. solve_decision. Defined.

(** An object: body, attributes, metadata, modification time. *)
Record MemObject : Type := mkMemObject {
  mo_data : list byte;
  mo_attributes : Attributes;
  mo_meta : list byte;
  mo_modified : Z;
}.

(** The objects and the calls that fail. *)
Record MemStore : Type := mkMem {
  mem : gmap string MemObject;
  faults : list MemCall;
}.

Definition faulty {A} (call : MemCall) (m : MemStore) (r : Res MemError A) : Res MemError A :=
  if decide (call ∈ faults m) then Err MemFault else r.

Definition mem_write (call : MemCall) (k : string) (v : option MemObject) (m : MemStore) : MemStore :=
  if decide (call ∈ faults m) then m else mkMem (partial_alter (λ _, v) k (mem m)) (faults m).

Definition mem_meta (k : string) (v : MemObject) : ObjectMeta := mkObjectMeta k (mo_modified v) (zlen (mo_data v)).

Definition mem_get (k : string) (m : MemStore) : Res MemError (string * MemObject) :=
  faulty MemGet m (ok_or (pair k <$> mem m !! k) (MemNotFound k)).

Definition mem_slice (range : Z * Z) (body : list byte) : list byte :=
  ztake (Z.max 0 (Z.min range.2 (zlen body) - Z.min range.1 (zlen body))) (zdrop (Z.min range.1 (zlen body)) body).

(** [faulty] for the calls a raw store answers itself. *)
Definition raw_faulty {A} (call : MemCall) (m : MemStore) (r : Res RawStoreError A) : Res RawStoreError A :=
  if decide (call ∈ faults m) then Err (Io OsError "fault") else r.

(** The parts of an upload, joined when it completes. *)
Definition MemUpload : Type := string * list (list byte).

#[export] Instance memory : ObjectBackend := {|
  store := MemStore;
  store_error := MemError;
  got := string * MemObject;
  get_options := option (Z * Z);
  upload := MemUpload;
  error_not_found e := match e with MemNotFound _ => true | _ => false end;
  error_path e := match e with MemNotFound p => p | _ => "" end;
  error_text e := match e with MemNotFound p => "Object at location " +:+ p +:+ " not found" | MemFault => "fault" | MemCorrupt => "data corruption" end;
  got_attributes g := mo_attributes g.2;
  got_meta g := mem_meta g.1 g.2;
  store_put now k d attrs m :=
    (mem_write MemPut k (Some (mkMemObject d attrs [] now)) m, faulty MemPut m (Ok (mkPutResult None None)));
  store_get := mem_get;
  store_get_opts k options m :=
    match options with
    | None => mem_get k m
    | Some range =>
      g ← mem_get k m;
      Ok (g.1, mkMemObject (mem_slice range (mo_data g.2)) (mo_attributes g.2) (mo_meta g.2) (mo_modified g.2))
    end;
  got_chunks g _ := [Ok (mo_data g.2)];
  store_get_range k range m := g ← mem_get k m; Ok (mem_slice range (mo_data g.2));
  store_head k m := faulty MemHead m (ok_or (mem_meta k <$> mem m !! k) (MemNotFound k));
  store_e_tag _ _ := None;
  store_delete k m := (mem_write MemDelete k None m, faulty MemDelete m (Ok tt));
  store_list _ m := faulty MemList m (Ok ((λ '(k, v), mem_meta k v) <$> map_to_list (mem m)));
  store_put_multipart k m := (m, faulty MemPut m (Ok (k, [])));
  upload_put_part _ d u m := ((m, (u.1, u.2 ++ [d])), Ok tt);
  upload_complete now u m :=
    ((mem_write MemPut u.1 (Some (mkMemObject (concat u.2) [] [] now)) m, u),
     faulty MemPut m (Ok (mkPutResult None None)));
  upload_abort u m := ((m, (u.1, [])), Ok tt);
  raw_put_with_meta now k d md m :=
    if decide (zlen md < 2 ^ 16)
    then (mem_write MemPut k (Some (mkMemObject d [] md now)) m, raw_faulty MemPut m (Ok tt))
    else (m, Err (MetadataTooLarge (zlen md) 65535));
  raw_put_with_meta_from_file now k file n m :=
    match read_to_end (sf_reads file) with
    | Ok data =>
      let end_ := sat_sub (zlen data) n in
      (mem_write MemPut k (Some (mkMemObject (ztake end_ data) [] (zdrop end_ data) now)) m,
       raw_faulty MemPut m (Ok tt))
    | Err e => (m, Err e)
    | Panic => (m, Panic)
    end;
  raw_set_meta_len k _ m := (m, raw_faulty MemPut m (ok_or (const tt <$> mem m !! k) (NotFound k)));
  raw_head_with_meta k m := ok_or ((λ v, (mem_meta k v, zlen (mo_meta v))) <$> mem m !! k) (NotFound k);
  raw_get_metadata k m := raw_faulty MemGet m (ok_or (mo_meta <$> mem m !! k) (NotFound k));
  raw_list_with_meta _ m := (λ '(k, v), (mem_meta k v, zlen (mo_meta v))) <$> map_to_list (mem m);
|}.

Definition mem_view (m : MemStore) : gmap string (list byte) := mo_data <$> mem m.
Definition mem_raw_view (m : MemStore) : gmap string (list byte * list byte) :=
  (λ v, (mo_data v, mo_meta v)) <$> mem m.

Lemma partial_alter_fmap {A B} (f : A → B) k v (m : gmap string A) :
  f <$> partial_alter (λ _, v) k m = partial_alter (λ _, f <$> v) k (f <$> m).
Proof.
  apply map_eq. intros k'. rewrite lookup_fmap. destruct (decide (k = k')) as [->|Hne].
  - by rewrite !lookup_partial_alter_eq.
  - by rewrite !lookup_partial_alter_ne // lookup_fmap.
Qed.

Lemma mem_view_write call k v m :
  mem_view (mem_write call k v m) =
    if decide (call ∈ faults m) then mem_view m else partial_alter (λ _, mo_data <$> v) k (mem_view m).
Proof. rewrite /mem_view /mem_write. case_decide; [done|]. apply partial_alter_fmap. Qed.

Lemma mem_view_lookup k m : mem_view m !! k = mo_data <$> mem m !! k.
Proof. apply lookup_fmap. Qed.

#[export] Instance memory_laws : ObjectBackendLaws.
Proof.
  refine {| store_ok _ := True; view := mem_view; key_ok _ := True; data_ok _ _ := True; upload_of := fst;
    upload_ok _ := True; can_complete _ _ _ := True |}.
  - intros b now k d attrs b' r _ _ _ [= <- <-]. split; [done|]. rewrite mem_view_write /faulty.
    case_decide; [by left|done].
  - intros b k b' r _ _ [= <- <-]. split; [done|]. rewrite mem_view_write /faulty.
    case_decide; [by split; [left|]|done].
  - intros b k _ _. rewrite /= /mem_get /faulty /got_bytes. case_decide; [done|]. rewrite mem_view_lookup.
    destruct (mem b !! k) as [v|]; [|done]. intros d. cbn. by rewrite app_nil_r => -[= <-].
  - intros b k range d _ _ _ _. rewrite /= /mem_get /faulty. case_decide; [done|]. rewrite mem_view_lookup.
    destruct (mem b !! k) as [v|]; [|done]. intros [= <-]. by exists (mo_data v).
  - intros b k _ _. rewrite /= /faulty. case_decide; [done|]. rewrite mem_view_lookup.
    destruct (mem b !! k) as [v|]; [|done]. by exists (mo_data v).
  - intros b _. rewrite /= /faulty. case_decide; [done|].
    assert (om_location <$> ((λ '(k, v), mem_meta k v) <$> map_to_list (mem b)) = (map_to_list (mem b)).*1) as ->.
    { rewrite -list_fmap_compose. apply list_fmap_ext. by intros i [k v]. }
    split; [apply NoDup_fst_map_to_list|]. intros k _. rewrite mem_view_lookup fmap_is_Some list_elem_of_fmap. split.
    + intros ([k' v] & -> & Hin%elem_of_map_to_list). by exists v.
    + intros [v Hv]. exists (k, v). by rewrite elem_of_map_to_list.
  - intros b k b' r _ _ [= <- <-]. split_and!; [done..|]. rewrite /faulty. by case_decide.
  - by intros b now d u b' u' r _ _ _ [= <- <- <-].
  - intros b now u b' u' r _ _ _ _ [= <- <- <-]. split_and!; [done..|]. rewrite mem_view_write /faulty.
    case_decide; [|by eexists]. exists []. by left.
  - by intros b u b' u' r _ _ [= <- <- <-].
Defined.

#[export] Instance memory_raw_laws : RawBackendLaws.
Proof.
  refine {| is_raw _ := True; raw_view := mem_raw_view |}.
  - intros b _ _. apply map_eq. intros k. by rewrite /= /mem_view /mem_raw_view !lookup_fmap; destruct (mem b !! k).
  - intros b now k d md b' r _ _ _ _. cbn [raw_put_with_meta memory]. case_decide; [|by intros [= <- <-]].
    intros [= <- <-]. split_and!; [done..|]. rewrite /mem_write /raw_faulty. case_decide; [done|].
    split; [done|]. apply (partial_alter_fmap (λ v, (mo_data v, mo_meta v)) k (Some (mkMemObject d [] md now))).
  - intros b now k d attrs b' r _ _ _ _ [= <- <-]. split; [done|]. rewrite /mem_write /faulty. case_decide; [done|].
    apply (partial_alter_fmap (λ v, (mo_data v, mo_meta v)) k (Some (mkMemObject d attrs [] now))).
  - intros b k b' r _ _ _ [= <- <-]. split; [done|]. rewrite /mem_write /faulty. case_decide; [done|].
    apply (partial_alter_fmap (λ v, (mo_data v, mo_meta v)) k None).
  - intros b _ _. cbn [raw_list_with_meta memory]. rewrite -list_fmap_compose.
    assert ((om_location ∘ fst) ∘ (λ '(k, v), (mem_meta k v, zlen (mo_meta v))) <$> map_to_list (mem b) =
      (map_to_list (mem b)).*1) as -> by (apply list_fmap_ext; by intros i [k v]).
    split; [apply NoDup_fst_map_to_list|]. intros k _. rewrite /mem_raw_view lookup_fmap fmap_is_Some list_elem_of_fmap.
    split; [intros ([k' v] & -> & Hin%elem_of_map_to_list); by exists v|].
    intros [v Hv]. exists (k, v). by rewrite elem_of_map_to_list.
  - intros b k _ _ _. rewrite /= /raw_faulty. case_decide; [done|]. rewrite /mem_raw_view lookup_fmap.
    destruct (mem b !! k) as [v|]; [|done]. by exists (mo_data v).
  - intros b k _ _ _. rewrite /= /mem_raw_view lookup_fmap. destruct (mem b !! k) as [v|]; [|done].
    exists (mo_data v), (mo_meta v). cbn. split_and!; [done..|lia].
Defined.

(** ** Clusters *)

(** [n] empty shards, the calls of each that fail given by [f]. *)
Definition mem_cluster (n rf : nat) (f : nat → list MemCall) : ShardedObjectStore :=
  new_cluster 0 (list_to_map ((λ i, (i, mkMem ∅ (f i))) <$> seq 0 n)) (Some <$> seq 0 n) rf.

Definition no_faults (_ : nat) : list MemCall := [].

Lemma mem_cluster_ok n rf f : cluster_ok (mem_cluster n rf f).
Proof.
  apply new_cluster_ok; [done|]. intros a Hin. apply list_elem_of_fmap in Hin as (a' & [= <-] & Hin).
  apply elem_of_seq in Hin. exists (mkMem ∅ (f a)). apply elem_of_list_to_map_1.
  - rewrite -list_fmap_compose. apply NoDup_fmap_2; [by intros ? ? ?|apply NoDup_seq].
  - apply list_elem_of_fmap. exists a. split; [done|]. by apply elem_of_seq.
Qed.

(** Keys with the paths of Instances.v do not collide. *)
Lemma plain_good k : bool_decide (k ∉ marker_keys k) = true →
  bool_decide (marker_path k ∉ ({[k; meta_sidecar_path k]} : gset string)) = true →
  bool_decide (delete_marker_key k ∉ ({[k; meta_sidecar_path k]} : gset string)) = true → good_key k.
Proof. intros H1%bool_decide_eq_true H2%bool_decide_eq_true H3%bool_decide_eq_true. by split. Qed.

Lemma good_a : good_key "a".
Proof. by apply plain_good; vm_compute. Qed.

Lemma good_b : good_key "b".
Proof. by apply plain_good; vm_compute. Qed.
