(* ===== verification/ClusterGuarantees.v ===== *)
(** * What the sharded store guarantees

    The theorems on placement, quorum writes, reads, creates and deletes, and
    two behaviours that surprise, each shown by running the model: a delete
    that succeeds on some shards leaves the object readable, and a create that
    fails its quorum leaves an object that later reads find. *)

From S2P Require Import Prelude.
From S2P Require Import Config.
From S2P Require Import Extent.
From S2P Require Import Concrete.
From S2P Require Import Index.
From S2P Require Import StoreTools.
From S2P Require Import StoreMeta.
From S2P Require Import ObjectStoreApi.
From S2P Require Import Instances.
From S2P Require Import Catalog.
From S2P Require Import JumpHash.
From S2P Require Import Backend.
From S2P Require Import Cluster.
From S2P Require Import ClusterIo.
From S2P Require Import ClusterFacts.
From S2P Require Import ClusterOps.
From S2P Require Import ClusterExamples.

Section histories.
Context `{ObjectBackendLaws, Crc32c, HashMapOrderLaws, ObjectPath, Chrono}.
Implicit Types (c : ShardedObjectStore) (k : string) (d : list byte).

(** A call on the cluster, or a health change by its daemon. *)
Inductive ClusterOp : Type :=
| CPut (now : Z) (key : string) (data : list byte) (mode : PutMode)
| CDelete (now : Z) (key : string)
| CGet (now : Z) (key : string)
| CHealth (now : Z) (id : nat) (h : ShardHealth).

Definition run_op c (o : ClusterOp) : ShardedObjectStore :=
  match o with
  | CPut now k d mode => (put_opts now k d mode c).1
  | CDelete now k => (delete now k c).1
  | CGet now k => (get now k c).1
  | CHealth now id h => (set_shard_health now id h c).1
  end.

Definition op_keys (o : ClusterOp) : gset string :=
  match o with
  | CPut _ k _ _ | CDelete _ k | CGet _ k => footprint k
  | CHealth _ _ _ => ∅
  end.

Definition op_good (o : ClusterOp) : Prop :=
  match o with
  | CPut now k d _ => good_key k ∧ data_ok now d
  | CDelete now k => good_key k ∧ is_delete_marker k = false ∧ data_ok now (marker_body now)
  | CGet _ k => good_key k ∧ is_delete_marker k = false
  | CHealth _ _ _ => True
  end.

Lemma put_opts_spec now k d mode c :
  cluster_ok c → good_key k → data_ok now d →
  let '(c', res) := put_opts now k d mode c in
  touches (footprint k) c c' ∧
  match res with
  | Ok _ => (mode = Create → entries (catalog c) !! k = None) ∧ put_done now c c' k d
  | Err _ => entries (catalog c') !! k = entries (catalog c) !! k
  | Panic => False
  end.
Proof.
  intros Hok Hg Hd. rewrite /put_opts {1}/sm_bind /sm_get.
  destruct (read_only c); [by split; [apply touches_refl|]|].
  assert (let '(c', res) := put now k d c in touches (footprint k) c c' ∧
    match res with Ok _ => put_done now c c' k d
    | Err _ => entries (catalog c') !! k = entries (catalog c) !! k | Panic => False end) as Hput.
  { pose proof (put_spec now k d c Hok Hg Hd) as Hp. destruct (put now k d c) as [c' res]. destruct Hp as [Ht Hres].
    split; [done|]. destruct res; [done|by rewrite Hres|done]. }
  destruct mode as [| |tag ver].
  - pose proof (create_spec now k d c Hok Hg Hd) as Hc. destruct (put_create now k d c) as [c' res].
    destruct Hc as [Ht Hres]. split; [done|]. destruct res; [|done|done]. by destruct Hres.
  - destruct (put now k d c) as [c' res]. destruct Hput as [Ht Hres]. split; [done|]. by destruct res.
  - case_bool_decide; [by split; [apply touches_refl|]|].
    destruct (put now k d c) as [c' res]. destruct Hput as [Ht Hres]. split; [done|]. by destruct res.
Qed.

Lemma run_op_touches o c : cluster_ok c → op_good o → touches (op_keys o) c (run_op c o).
Proof.
  intros Hok Hgood. destruct o as [now k d mode|now k|now k|now id h]; cbn [run_op op_keys op_good] in *.
  - destruct Hgood as [Hg Hd]. pose proof (put_opts_spec now k d mode c Hok Hg Hd) as Hp.
    destruct (put_opts now k d mode c) as [c' res]. by destruct Hp.
  - destruct Hgood as (Hg & Hm & Hd). pose proof (delete_spec now k c Hok Hg Hm Hd) as Hp.
    destruct (delete now k c) as [c' res]. by destruct Hp.
  - destruct Hgood as (Hg & Hm). pose proof (get_spec now k c Hok (gk_key _ Hg) Hm) as Hp.
    destruct (get now k c) as [c' res]. destruct Hp as [[Ht _] _]. eapply touches_mono; [|exact Ht]. auto with keys.
  - apply on_shard_touches; [done|]. intros s. apply set_health_store.
Qed.

Lemma run_ops_settled ops c k d :
  cluster_ok c → Forall (λ o, op_good o ∧ k ∉ op_keys o) ops → settled c k d →
  cluster_ok (foldl run_op c ops) ∧ settled (foldl run_op c ops) k d.
Proof.
  intros Hok Hops. revert c Hok. induction Hops as [|o ops [Hg Hk] _ IH]; intros c Hok Hset; [done|].
  pose proof (run_op_touches o c Hok Hg) as Ht. apply IH; [by eapply tc_ok|by eapply settled_touches].
Qed.

(** Calls on other keys keep what the catalog and the shards say of [k]. *)
Lemma run_ops_keep ops c k :
  cluster_ok c → Forall (λ o, op_good o ∧ k ∉ op_keys o) ops →
  let c' := foldl run_op c ops in
  cluster_ok c' ∧ entries (catalog c') !! k = entries (catalog c) !! k ∧
  ∀ id v, shard_has c id k v → shard_has c' id k v.
Proof.
  intros Hok Hops. revert c Hok. induction Hops as [|o ops [Hg Hk] _ IH]; intros c Hok; [done|].
  pose proof (run_op_touches o c Hok Hg) as Ht. destruct (IH (run_op c o)) as (Hok' & He & Hs); [by eapply tc_ok|].
  split_and!; [done|by rewrite He (tc_catalog _ _ _ Ht)|]. intros id v Hv. apply Hs. by eapply shard_has_touches.
Qed.

(** ** The guarantees *)

(** C6: Quorum writes.  A put in any mode that returns has the object on at
    least [min_writes] distinct shards, and the catalog names exactly those,
    with the size and checksum of the data; a create returns only for a new
    key.  A put that fails leaves the catalog's entry as it was.  Objects and
    entries of other keys are untouched, and no call panics. *)
Theorem put_meets_quorum now k d mode c c' res :
  cluster_ok c → good_key k → data_ok now d → put_opts now k d mode c = (c', res) →
  cluster_ok c' ∧
  match res with
  | Ok _ => (mode = Create → entries (catalog c) !! k = None) ∧
      ∃ placed, NoDup placed ∧ (min_writes c <= length placed)%nat ∧
        entries (catalog c') !! k = Some (mkPlacement placed (zlen d) (Some (crc32c d)) now 0) ∧
        ∀ id, id ∈ placed → shard_has c' id k (Some d)
  | Err _ => entries (catalog c') !! k = entries (catalog c) !! k
  | Panic => False
  end ∧
  ∀ k', k' ∉ footprint k → entries (catalog c') !! k' = entries (catalog c) !! k' ∧
    ∀ a, object_at c' a k' = object_at c a k'.
Proof.
  intros Hok Hg Hd Hrun. pose proof (put_opts_spec now k d mode c Hok Hg Hd) as Hp. rewrite Hrun in Hp.
  destruct Hp as [Ht Hres]. split_and!; [by eapply tc_ok|done|].
  intros k' Hk'. split; [by eapply tc_catalog|]. intros a. by eapply touches_object.
Qed.

(** C7: Reading after writing.  After a put that returned, and any calls on
    other keys and health changes that followed, a get of the key gives the
    data that was put, or fails because no replica the catalog names can be
    read: an older copy on another shard is never returned. *)
Theorem read_after_write now t k d c c1 r ops c2 res :
  cluster_ok c → good_key k → is_delete_marker k = false → data_ok now d →
  put now k d c = (c1, Ok r) →
  Forall (λ o, op_good o ∧ k ∉ op_keys o) ops →
  get t k (foldl run_op c1 ops) = (c2, res) →
  match res with
  | Ok x => ∀ body, (bytes x c2).2 = Ok body → body = d
  | Err _ => ∀ x, ¬ answered c2 (store_get k) (stores_of (foldl run_op c1 ops) (readable (foldl run_op c1 ops) k)) x
  | Panic => False
  end.
Proof.
  intros Hok Hg Hm Hd Hput Hops Hget. pose proof (put_spec now k d c Hok Hg Hd) as Hp. rewrite Hput in Hp.
  destruct Hp as [Ht Hdone]. apply put_settles in Hdone.
  destruct (run_ops_settled ops c1 k d (tc_ok _ _ _ Ht) Hops Hdone) as [Hok2 Hset].
  pose proof (get_spec t k _ Hok2 (gk_key _ Hg) Hm) as Hgs. rewrite Hget in Hgs. destruct Hgs as [[_ Hh] Hres].
  destruct res as [x|e|]; [|by rewrite /answered Hh|done]. intros body Hb.
  eapply (settled_body (foldl run_op c1 ops) k d x); [done|apply Hg|done|exact Hres|exact Hh|exact Hb].
Qed.

(** C8: Deleting.  A delete that returns has written the key's marker to the
    catalog and to at least one shard.  The object is gone from every shard
    in [gone]; those and [failed] are all the reachable shards that might hold
    it.  If none failed the key leaves the catalog; otherwise only the shards
    in [gone] leave its entry, and the policy decides that this is enough. *)
Theorem delete_outcome now k c c' res :
  cluster_ok c → good_key k → is_delete_marker k = false → data_ok now (marker_body now) →
  delete now k c = (c', res) →
  cluster_ok c' ∧
  match res with
  | Ok _ => ∃ gone failed, delete_done now c c' k gone failed
  | Err _ => entries (catalog c') !! k = entries (catalog c) !! k ∨ marked now c' k
  | Panic => False
  end.
Proof.
  intros Hok Hg Hm Hd Hrun. pose proof (delete_spec now k c Hok Hg Hm Hd) as Hs. rewrite Hrun in Hs.
  destruct Hs as [Ht Hres]. split; [by eapply tc_ok|done].
Qed.

(** Placement.  A new object goes to distinct shards that take writes, as
    many as the replication factor or all of them if there are fewer; and
    when there are more, to the first ones clockwise from the key's home
    shard, which is one of the cluster's. *)
Theorem targets_are_replicas c k :
  cluster_ok c → (0 < length (shards c))%nat → Z.of_nat (length (shards c)) < 2 ^ 32 →
  NoDup (select_targets c k) ∧
  length (select_targets c k) = Nat.min (factor c) (length (candidates c)) ∧
  (∀ id, id ∈ select_targets c k → ∃ s, shards c !! id = Some s ∧ accepts_writes s = true) ∧
  (home_shard k (length (shards c)) < length (shards c))%nat ∧
  ((factor c < length (candidates c))%nat →
    select_targets c k = take (factor c) (filter (λ id, shard_is accepts_writes c id = true)
      (ring (length (shards c)) (home_shard k (length (shards c)))))).
Proof.
  intros Hok Hn Hlt. destruct (select_targets_spec c k (co_factor _ Hok)) as (Hnd & Hin & Hlen). split_and!.
  - done.
  - done.
  - intros id Hid. by apply elem_of_candidates, Hin.
  - rewrite /home_shard Z.mod_small; [|lia].
    destruct (jump_hash_loop (crc32c (as_bytes k)) (Z.of_nat (length (shards c)))) as [_ Hr]; lia.
  - intros Hmore. rewrite select_targets_ring; [|apply Hok]. by rewrite decide_False; [|lia].
Qed.
End histories.

(** ** Examples *)

Definition body_a : list byte := as_bytes "hello".
Definition three_shards : ShardedObjectStore := mem_cluster 3 2 no_faults.

Lemma put_meets_quorum_witness :
  snd (put_opts 100 "a" body_a Create three_shards) = Ok (mkPutResult None None) ∧
  ∃ placed, (1 <= length placed)%nat ∧
    ∀ id, id ∈ placed → shard_has (fst (put_opts 100 "a" body_a Create three_shards)) id "a" (Some body_a).
Proof.
  assert (snd (put_opts 100 "a" body_a Create three_shards) = Ok (mkPutResult None None)) as Hr by (by vm_compute).
  split; [exact Hr|]. destruct (put_opts 100 "a" body_a Create three_shards) as [c' r] eqn:Hp.
  cbn [fst snd] in Hr |- *. subst r.
  destruct (put_meets_quorum 100 "a" body_a Create three_shards c' (Ok (mkPutResult None None))) as (_ & Hres & _).
  - apply mem_cluster_ok.
  - apply good_a.
  - exact I.
  - exact Hp.
  - destruct Hres as (_ & placed & _ & Hn & _ & Hall). exists placed. split; [exact Hn|exact Hall].
Defined.

Definition after_a : ShardedObjectStore := fst (put 100 "a" body_a three_shards).
Definition other_calls : list ClusterOp := [CPut 101 "b" body_a Overwrite; CHealth 102 0 Degraded; CDelete 103 "b"].

Lemma other_calls_apart : Forall (λ o, op_good o ∧ "a" ∉ op_keys o) other_calls.
Proof.
  assert ("a" ∉ footprint "b") as Hab by (apply (bool_decide_eq_true_1 _); vm_compute; reflexivity).
  repeat apply Forall_cons_2; [..|by apply Forall_nil_2].
  - split; [split; [exact good_b|exact I]|exact Hab].
  - split; [exact I|apply keys_not_empty].
  - split; [split; [exact good_b|split; [reflexivity|exact I]]|exact Hab].
Qed.

Lemma read_after_write_witness :
  let '(c, res) := get 104 "a" (foldl run_op after_a other_calls) in
  match res with
  | Ok x => (∀ body, (bytes x c).2 = Ok body → body = body_a) ∧ (bytes x c).2 = Ok body_a
  | _ => False
  end.
Proof.
  assert (match get 104 "a" (foldl run_op after_a other_calls) with
          | (c, Ok x) => (bytes x c).2 = Ok body_a
          | _ => False
          end) as Hgot by (by vm_compute).
  destruct (get 104 "a" (foldl run_op after_a other_calls)) as [c res] eqn:Hget.
  destruct res as [x|e|]; [|destruct Hgot..]. split; [|exact Hgot].
  assert (snd (put 100 "a" body_a three_shards) = Ok (mkPutResult None None)) as Hr by (by vm_compute).
  apply (read_after_write 100 104 "a" body_a three_shards after_a (mkPutResult None None) other_calls c (Ok x)).
  - apply mem_cluster_ok.
  - apply good_a.
  - reflexivity.
  - exact I.
  - unfold after_a. rewrite <- Hr. exact (surjective_pairing _).
  - exact other_calls_apart.
  - exact Hget.
Defined.

Lemma targets_are_replicas_witness :
  NoDup (select_targets three_shards "a") ∧ select_targets three_shards "a" = [2%nat; 0%nat].
Proof.
  split; [|by vm_compute].
  destruct (targets_are_replicas three_shards "a" (mem_cluster_ok _ _ _)) as (Hnd & _); [simpl; lia|done|exact Hnd].
Defined.

(** Shard 0 takes no deletes; the object is on shards 2 and 0. *)
Definition stuck_shard : ShardedObjectStore :=
  fst (put 100 "a" body_a (mem_cluster 3 2 (λ i, if decide (i = 0)%nat then [MemDelete] else []))).

Lemma stuck_settled : cluster_ok stuck_shard ∧ settled stuck_shard "a" body_a.
Proof. apply put_leaves; [apply mem_cluster_ok|apply good_a|exact I|by vm_compute]. Qed.

Lemma delete_outcome_witness :
  snd (delete 200 "a" stuck_shard) = Ok tt ∧
  ∃ gone failed, delete_done 200 stuck_shard (fst (delete 200 "a" stuck_shard)) "a" gone failed.
Proof.
  assert (snd (delete 200 "a" stuck_shard) = Ok tt) as Hr by (by vm_compute). split; [exact Hr|].
  destruct (delete_outcome 200 "a" stuck_shard (fst (delete 200 "a" stuck_shard)) (Ok tt)) as (_ & Hres).
  - apply stuck_settled.
  - apply good_a.
  - reflexivity.
  - exact I.
  - rewrite <- Hr. exact (surjective_pairing _).
  - exact Hres.
Defined.

(** A delete that reached only some shards.  It returns success, and the
    warning it logs says that the object is removed from the catalog; yet the
    catalog still names the shard that failed, and a get returns the object. *)
Theorem partial_delete_readable :
  cluster_ok stuck_shard ∧ settled stuck_shard "a" body_a ∧
  match delete 200 "a" stuck_shard with
  | (c1, Ok _) =>
      pe_shards <$> entries (catalog c1) !! "a" = Some [0%nat] ∧
      match get 300 "a" c1 with (c2, Ok x) => (bytes x c2).2 = Ok body_a | _ => False end
  | _ => False
  end.
Proof.
  destruct stuck_settled as [Hok Hset]. split; [exact Hok|]. split; [exact Hset|]. by vm_compute.
Qed.

(** Shards 0 and 1 take no puts; a put needs two of three. *)
Definition two_broken : ShardedObjectStore :=
  mem_cluster 3 3 (λ i, if decide (i < 2)%nat then [MemPut] else []).

(** A create that fails its quorum.  It returns [InsufficientWrites] and
    the catalog has no entry, as before; but the replica that was written is
    not cleaned up, because the placeholder entry makes the key look like an
    old one, so a get that follows finds the object.  A plain put of the same
    data cleans up. *)
Theorem failed_create_readable :
  cluster_ok two_broken ∧
  match put_opts 100 "a" body_a Create two_broken with
  | (c1, Err (Generic (InsufficientWrites _ 2 1))) =>
      entries (catalog c1) !! "a" = None ∧
      match get 200 "a" c1 with (c2, Ok x) => (bytes x c2).2 = Ok body_a | _ => False end
  | _ => False
  end ∧
  match put_opts 100 "a" body_a Overwrite two_broken with
  | (c1, Err (Generic (InsufficientWrites _ 2 1))) =>
      match get 200 "a" c1 with (_, Err _) => True | _ => False end
  | _ => False
  end.
Proof. split; [apply mem_cluster_ok|by vm_compute]. Qed.
