(* ===== verification/RawShard.v ===== *)
(** * The raw store as a shard

    [RawObjectStore] under the shard interface of Backend.v: each call of
    [object_store::ObjectStore] goes to the operation of ObjectStoreApi.v or
    Multipart.v, the trait's own [put], [get], [get_range] and [head] being
    its [put_opts] and [get_opts].  The laws follow from the refinement of the
    store's calls, so what the sharded layer proves of shards holds of raw
    stores on real devices. *)

From S2P Require Import Prelude.
From S2P Require Import Config.
From S2P Require Import Device.
From S2P Require Import Extent.
From S2P Require Import Streaming.
From S2P Require Import Index.
From S2P Require Import Superblock.
From S2P Require Import Inner.
From S2P Require Import InnerFacts.
From S2P Require Import RawStore.
From S2P Require Import StoreFacts.
From S2P Require Import Flush.
From S2P Require Import Recovery.
From S2P Require Import StoreTools.
From S2P Require Import StoreMeta.
From S2P Require Import ObjectStoreApi.
From S2P Require Import Multipart.
From S2P Require Import ApiFacts.
From S2P Require Import MultipartFacts.
From S2P Require Import GetFacts.
From S2P Require Import Behaviour.
From S2P Require Import History.
From S2P Require Import Backend.

(** [Display] of [object_store::Error]. *)
Class ErrorText : Type := os_error_text : ObjectStoreError → string.

Section raw_shard.
Context `{Crc32cLaws, CodecLaws, BincodeShardLaws, BincodeSuperblockLaws, HashMapOrderLaws, ObjectPath, StreamDecoder,
  !StreamDecoderLaws, TempFilesLaws, ErrorText}.
Implicit Types (s : RawObjectStore) (k : string).

(** ** The instance *)

(** The items of a body's stream. *)
Fixpoint stream_chunks (fuel : nat) (d : DeviceIo) (b : BodyStream) : list (Res ObjectStoreError (list byte)) :=
  match fuel with
  | O => [Panic]
  | S fuel' =>
    match poll d b with
    | (_, None) => []
    | (b', Some r) => r :: stream_chunks fuel' d b'
    end
  end.

(** The body has at most as many chunks as bytes. *)
Definition get_result_chunks (g : GetResult) (s : RawObjectStore) : list (Res ObjectStoreError (list byte)) :=
  stream_chunks (Z.to_nat ((gr_range g).2 - (gr_range g).1) + 2) (io (inner s)) (gr_payload g).

Definition done_put (r : Res ObjectStoreError unit) : Res ObjectStoreError PutResult :=
  _ ← r; Ok (mkPutResult None None).

Definition upload_call (m : SM (Inner * RawMultipartUpload) ObjectStoreError unit) (u : RawMultipartUpload) s :
    (RawObjectStore * RawMultipartUpload) * Res ObjectStoreError unit :=
  let '((st, u'), r) := m (inner s, u) in ((set_inner st s, u'), r).

#[export] Instance raw_shard : ObjectBackend := {|
  store := RawObjectStore;
  store_error := ObjectStoreError;
  got := GetResult;
  get_options := option GetRange;
  upload := RawMultipartUpload;
  error_not_found e := match e with OsNotFound _ _ => true | _ => false end;
  error_path e := match e with OsNotFound p _ => p | _ => "" end;
  error_text := os_error_text;
  got_attributes _ := [];
  got_meta := gr_meta;
  store_put now k data _ s :=
    let '(s', r) := sm_zoom inner set_inner (put_opts now k data Overwrite) s in (s', done_put r);
  store_get k s := get_opts (inner s) k None;
  store_get_opts k options s := get_opts (inner s) k options;
  got_chunks := get_result_chunks;
  store_get_range k range s :=
    g ← get_opts (inner s) k (Some (Bounded range.1 range.2)); join_chunks (get_result_chunks g s);
  store_head k s := g ← get_opts (inner s) k None; Ok (gr_meta g);
  store_e_tag _ _ := None;
  store_delete k s := sm_zoom inner set_inner (delete_object k) s;
  store_list prefix s := Ok (list_objects (inner s) prefix);
  store_put_multipart k s := let '(s', u) := put_multipart_opts k s in (s', Ok u);
  upload_put_part now data u s :=
    let '(u', key) := put_part u in
    let '(s', r) := sm_zoom inner set_inner (put_part_run now key data) s in ((s', u'), r);
  upload_complete now u s := let '(su, r) := upload_call (complete now) u s in (su, done_put r);
  upload_abort u s := upload_call abort u s;
  raw_put_with_meta now k data md s := sm_zoom inner set_inner (put_with_meta now k data md) s;
  raw_put_with_meta_from_file now k file n s := sm_zoom inner set_inner (put_with_meta_from_file now k file n) s;
  raw_set_meta_len k n s := sm_zoom inner set_inner (set_meta_len k n) s;
  raw_head_with_meta k s := head_with_meta (inner s) k;
  raw_get_metadata k s := get_metadata (inner s) k;
  raw_list_with_meta prefix s := list_with_meta (inner s) prefix;
|}.

(** ** The laws *)

(** The upload counter is not part of the invariant. *)
Lemma upload_store_ok k s : Flush.store_ok s → Flush.store_ok (put_multipart_opts k s).1.
Proof.
  intros [Hin [] (sb & idx & Hcm) Hr [] Ht Hd]. split; [done|by split| |done|by split|done|done].
  exists sb, idx. destruct Hcm as [(d & p & Hlog & Hp & Him & Hk) Hc Hsb Hcl Hix Htx]. split; try done.
  exists d, p. by split_and!.
Qed.

(** What the sharded layer sees: the objects that are not spooled parts. *)
Definition visible_view s : Contents := filter (λ '(k, _), is_tmp_key k = false) (Behaviour.view s).

Definition raw_key (k : string) : Prop := is_tmp_key k = false ∧ key_path k = k.

Record raw_shard_ok s : Prop := {
  rs_store : Flush.store_ok s;
  rs_keys k : is_Some (visible_view s !! k) → key_path k = k;
}.

Lemma visible_lookup s k : is_tmp_key k = false → visible_view s !! k = Behaviour.view s !! k.
Proof.
  intros Hk. rewrite /visible_view. destruct (Behaviour.view s !! k) as [c|] eqn:Hc.
  - by apply map_lookup_filter_Some.
  - apply map_lookup_filter_None. by left.
Qed.

Lemma visible_insert s s' k c :
  is_tmp_key k = false → Behaviour.view s' = <[k := c]> (Behaviour.view s) → visible_view s' = <[k := c]> (visible_view s).
Proof. rewrite /visible_view. intros Hk ->. by rewrite map_filter_insert_True. Qed.

Lemma visible_hidden s s' k c :
  is_tmp_key k = true → Behaviour.view s' = <[k := c]> (Behaviour.view s) → visible_view s' = visible_view s.
Proof.
  rewrite /visible_view. intros Hk ->. rewrite map_filter_insert_False; [|by rewrite Hk].
  apply map_filter_strong_ext. intros k' c'. rewrite lookup_delete_Some. split; [tauto|].
  intros [Ht Hc]. split; [done|]. split; [|done]. intros ->. congruence.
Qed.

Lemma visible_delete s s' k :
  Behaviour.view s' = delete k (Behaviour.view s) → visible_view s' = delete k (visible_view s).
Proof. rewrite /visible_view. intros ->. by rewrite map_filter_delete. Qed.

Lemma visible_delete_all ks s' m :
  Forall (λ k, is_tmp_key k = true) ks → Behaviour.view s' = delete_all ks m →
  visible_view s' = filter (λ '(k, _), is_tmp_key k = false) m.
Proof.
  rewrite /visible_view. intros Hks ->. revert m. induction Hks as [|k ks Hk _ IH]; intros m; [done|].
  cbn [delete_all foldl]. rewrite IH. apply map_filter_strong_ext. intros k' c'. rewrite lookup_delete_Some.
  split; [tauto|]. intros [Ht Hc]. split; [done|]. split; [|done]. intros ->. congruence.
Qed.

Lemma ok_keys s s' k c :
  raw_shard_ok s → Flush.store_ok s' → raw_key k → visible_view s' = <[k := c]> (visible_view s) → raw_shard_ok s'.
Proof.
  intros [_ Hks] Hok' [_ Hk] Hv. split; [done|]. intros k'. rewrite Hv.
  destruct (decide (k = k')) as [<-|Hne]; [done|]. rewrite lookup_insert_ne //. apply Hks.
Qed.

Lemma ok_same s s' : raw_shard_ok s → Flush.store_ok s' → visible_view s' = visible_view s → raw_shard_ok s'.
Proof. intros [_ Hks] Hok' Hv. split; [done|]. intros k. rewrite Hv. apply Hks. Qed.

(** One call of the store. *)
Lemma raw_step o s s' r :
  raw_shard_ok s → op_ok o (Behaviour.view s) → o ≠ OpFlush → sm_zoom inner set_inner (run_inner o) s = (s', r) →
  Flush.store_ok s' ∧
  match r with
  | Ok _ => spec o (Behaviour.view s) (Behaviour.view s')
  | Err _ => Behaviour.view s' = Behaviour.view s
  | Panic => False
  end.
Proof.
  intros [Hok _] Hop Hne Hrun. pose proof (run_stepped o s Hok Hop Hne) as Hs.
  assert (run o s = (s', r)) as Hr by by rewrite -Hrun; destruct o. rewrite Hr in Hs. destruct Hs as [[Hs _ _ _ _ _] Hv]. done.
Qed.

Lemma join_stream fuel d b : join_chunks (stream_chunks fuel d b) = collect fuel d b.
Proof.
  revert b. induction fuel as [|fuel IH]; intros b; [done|]. cbn [stream_chunks collect].
  destruct (poll d b) as [b' [[chunk|e|]|]]; try done. cbn [join_chunks]. by rewrite IH.
Qed.

Lemma contents_visible s k c : raw_key k → visible_view s !! k = Some c → contents (inner s) !! k = Some c.
Proof. intros [Hk _]. by rewrite visible_lookup. Qed.

Lemma not_visible s k : raw_key k → visible_view s !! k = None → files (index (inner s)) !! k = None.
Proof.
  intros [Hk _]. rewrite visible_lookup // /Behaviour.view contents_lookup. by destruct (files _ !! k).
Qed.

(** Without an entry every read is a miss. *)
Lemma missing_get s k range : files (index (inner s)) !! k = None →
  get_opts (inner s) k range = Err (OsNotFound k (NotFound k)).
Proof. intros Hk. rewrite /get_opts /get_ranged /lookup_file Hk. by destruct range. Qed.

Lemma visible_get s k :
  raw_shard_ok s → raw_key k →
  match visible_view s !! k with
  | Some (body, _) =>
    match get_opts (inner s) k None with
    | Ok g => om_size (gr_meta g) = zlen body ∧
        ∀ d, join_chunks (get_result_chunks g s) = Ok d → d = body
    | Err e => ∀ path source, e ≠ OsNotFound path source
    | Panic => False
    end
  | None => get_opts (inner s) k None = Err (OsNotFound k (NotFound k))
  end.
Proof.
  intros Hok Hk. pose proof (rs_store _ Hok) as Hst. destruct (visible_view s !! k) as [[body md]|] eqn:Hv.
  - apply contents_visible in Hv; [|done].
    pose proof (get_opts_full_spec _ (inner s) k body md (so_inner _ Hst) (so_range _ Hst) Hv) as Hg.
    destruct (get_opts (inner s) k None) as [g|e|]; [| |done].
    + destruct Hg as (Hr & _ & Hm & Hy). split; [done|]. intros d. rewrite /get_result_chunks Hr join_stream /=.
      replace (Z.to_nat (zlen body - 0)) with (length body) by (rewrite /zlen; lia).
      destruct Hy as [-> |[(? & ? & ->) _]]; [by intros [= <-]|done].
    + destruct Hg as (e' & -> & (kd & m & ->) & _). done.
  - by apply missing_get, not_visible.
Qed.

Lemma raw_listing s :
  raw_shard_ok s →
  om_location <$> list_objects (inner s) None = (visible_entries (inner s) None).*1 ∧
  ∀ k, k ∈ (visible_entries (inner s) None).*1 ↔ is_Some (visible_view s !! k).
Proof.
  intros Hok. destruct (visible_entries_spec (inner s) None) as [Hnd Hin].
  assert (∀ k e, (k, e) ∈ visible_entries (inner s) None ↔ files (index (inner s)) !! k = Some e ∧ is_tmp_key k = false)
    as Hvis by (intros k e; rewrite Hin /listed; cbn; tauto).
  assert (∀ k, is_Some (visible_view s !! k) ↔ is_Some (files (index (inner s)) !! k) ∧ is_tmp_key k = false) as Hview.
  { intros k. rewrite /visible_view. split.
    - intros [c [Hc Ht]%map_lookup_filter_Some]. split; [|done]. rewrite /Behaviour.view contents_lookup in Hc.
      by destruct (files _ !! k); [eexists|].
    - intros [[e He] Ht]. eexists. apply map_lookup_filter_Some. split; [|done].
      by rewrite /Behaviour.view contents_lookup He. }
  split.
  - rewrite /list_objects -list_fmap_compose. apply list_fmap_ext. intros i [k e] Hi. cbn.
    apply list_elem_of_lookup_2, Hvis in Hi as [He Ht]. apply (rs_keys _ Hok). apply Hview. split; [by eexists|done].
  - intros k. rewrite Hview list_elem_of_fmap. split.
    + intros ([k' e] & -> & [He Ht]%Hvis). split; [by eexists|done].
    + intros [[e He] Ht]. exists (k, e). by rewrite Hvis.
Qed.

(** A call that writes [k], or leaves the store as it was when it fails. *)
Lemma raw_write o s s' (r : Res ObjectStoreError unit) k c :
  raw_shard_ok s → raw_key k → op_ok o (Behaviour.view s) → o ≠ OpFlush →
  sm_zoom inner set_inner (run_inner o) s = (s', r) →
  (spec o (Behaviour.view s) (Behaviour.view s') → Behaviour.view s' = <[k := c]> (Behaviour.view s)) →
  raw_shard_ok s' ∧
  match r with
  | Ok _ => visible_view s' = <[k := c]> (visible_view s)
  | Err _ => visible_view s' = visible_view s
  | Panic => False
  end.
Proof.
  intros Hok Hk Hop Hne Hrun Hs. destruct (raw_step o s s' r Hok Hop Hne Hrun) as [Hok' Hr].
  destruct r as [[]|e|]; [| |done].
  - assert (visible_view s' = <[k:=c]> (visible_view s)) as Hv by (apply visible_insert; [apply Hk|by apply Hs]).
    split; [by eapply ok_keys|done].
  - assert (visible_view s' = visible_view s) as Hv by by rewrite /visible_view Hr.
    split; [by apply (ok_same s)|done].
Qed.

Definition bodies s : gmap string (list byte) := fst <$> visible_view s.

(** The parts of an upload are spooled objects. *)
Definition upload_parts_ok (u : RawMultipartUpload) : Prop := Forall (λ k, is_tmp_key k = true) (part_keys u).

Definition can_join (now : Z) (u : RawMultipartUpload) s : Prop := op_ok (OpComplete now u) (Behaviour.view s).

Lemma part_is_tmp id n : is_tmp_key (part_key id n) = true.
Proof. apply prefix_app. Qed.

Lemma raw_complete now u s s' u' r :
  raw_shard_ok s → upload_parts_ok u → raw_key (up_location u) → can_join now u s →
  upload_call (complete now) u s = ((s', u'), r) →
  raw_shard_ok s' ∧ upload_parts_ok u' ∧ up_location u' = up_location u ∧
  match r with
  | Ok _ => ∃ d, bodies s' = <[up_location u := d]> (bodies s)
  | Err _ => bodies s' = bodies s
  | Panic => False
  end.
Proof.
  intros Hok Hu Hk Hc. rewrite /upload_call. destruct (complete now (inner s, u)) as [[st u1] r1] eqn:Hrun.
  intros [= <- <- <-].
  assert (sm_zoom inner set_inner (run_inner (OpComplete now u)) s = (set_inner st s, r1)) as Hz
    by by rewrite /sm_zoom; cbn [run_inner]; rewrite Hrun.
  destruct (raw_step _ _ _ _ Hok Hc ltac:(done) Hz) as [Hok' Hr].
  assert (u1 = u ∨ u1 = clear_parts u) as Hu1.
  { rewrite /complete in Hrun. case_decide; [by simplify_eq; left|].
    destruct (complete_inner now u (inner s)) as [? [?|?|]]; simplify_eq; auto. }
  assert (upload_parts_ok u1 ∧ up_location u1 = up_location u) as [Hu2 Hloc].
  { destruct Hu1 as [-> | ->]; [done|]. by split; [apply Forall_nil_2|]. }
  destruct r1 as [[]|e|]; [| |done].
  - destruct Hr as (ds & _ & Hr). apply visible_delete_all in Hr; [|done].
    rewrite map_filter_insert_True in Hr; [|apply Hk]. fold (visible_view s) in Hr.
    split_and!; [by eapply ok_keys|done|done|]. exists (concat ds). by rewrite /bodies Hr fmap_insert.
  - assert (visible_view (set_inner st s) = visible_view s) as Hv by by rewrite /visible_view Hr.
    split_and!; [by apply (ok_same s)|done|done|]. by rewrite /bodies Hv.
Qed.

Lemma raw_abort u s s' u' r :
  raw_shard_ok s → upload_parts_ok u → upload_call abort u s = ((s', u'), r) →
  raw_shard_ok s' ∧ bodies s' = bodies s ∧ r ≠ Panic.
Proof.
  intros Hok Hu. rewrite /upload_call. destruct (abort (inner s, u)) as [[st u1] r1] eqn:Hrun. intros [= <- <- <-].
  assert (sm_zoom inner set_inner (run_inner (OpAbort u)) s = (set_inner st s, r1)) as Hz
    by by rewrite /sm_zoom; cbn [run_inner]; rewrite Hrun.
  destruct (raw_step (OpAbort u) _ _ _ Hok I ltac:(done) Hz) as [Hok' Hr].
  assert (visible_view (set_inner st s) = visible_view s) as Hv.
  { destruct r1 as [[]|e|]; [|by rewrite /visible_view Hr|done]. by apply visible_delete_all in Hr. }
  split_and!; [by apply (ok_same s)|by rewrite /bodies Hv|by destruct r1].
Qed.

(** The plain put and the delete. *)
Lemma raw_put now k d s s' r :
  raw_shard_ok s → raw_key k → time_ok now ∧ zlen d < 2 ^ 63 →
  sm_zoom inner set_inner (put_opts now k d Overwrite) s = (s', r) →
  raw_shard_ok s' ∧
  match r with
  | Ok _ => visible_view s' = <[k := (d, [])]> (visible_view s)
  | Err _ => visible_view s' = visible_view s
  | Panic => False
  end.
Proof.
  intros Hok Hk Hd Hrun. apply (raw_write (OpPut now k d Overwrite) s s' r k (d, [])); try done. by intros [_ Hv].
Qed.

Lemma raw_delete k s s' r :
  raw_shard_ok s → sm_zoom inner set_inner (delete_object k) s = (s', r) →
  raw_shard_ok s' ∧
  match r with
  | Ok _ => visible_view s' = delete k (visible_view s)
  | Err _ => visible_view s' = visible_view s
  | Panic => False
  end.
Proof.
  intros Hok Hrun. destruct (raw_step (OpDelete k) s s' r Hok I) as [Hok' Hr]; [done..|].
  destruct r as [[]|e|]; [| |done].
  - assert (visible_view s' = delete k (visible_view s)) as Hv by by apply visible_delete.
    split; [|done]. split; [done|]. intros k'. rewrite Hv.
    intros [c [_ Hc]%lookup_delete_Some]. apply (rs_keys _ Hok). by eexists.
  - assert (visible_view s' = visible_view s) as Hv by by rewrite /visible_view Hr.
    split; [by apply (ok_same s)|done].
Qed.

#[export] Instance raw_shard_laws : ObjectBackendLaws.
Proof.
  refine {| Backend.store_ok := raw_shard_ok; Backend.view := bodies; key_ok := raw_key;
    data_ok now d := time_ok now ∧ zlen d < 2 ^ 63; upload_of := up_location;
    upload_ok := upload_parts_ok; can_complete := can_join |}.
  - intros s now k d attrs s' r Hok Hk Hd. cbn [store_put raw_shard].
    destruct (sm_zoom inner set_inner (put_opts now k d Overwrite) s) as [s1 r1] eqn:Hrun. intros [= <- <-].
    destruct (raw_put now k d s s1 r1) as [Hok' Hr]; [done..|].
    split; [done|]. destruct r1 as [[]|e|]; [| |done]; cbn.
    + by rewrite /bodies Hr fmap_insert.
    + left. by rewrite /bodies Hr.
  - intros s k s' r Hok Hk Hrun. cbn [store_delete raw_shard] in Hrun.
    destruct (raw_delete k s s' r Hok Hrun) as [Hok' Hr]. split; [done|]. destruct r as [[]|e|]; [| |done].
    + by rewrite /bodies Hr fmap_delete.
    + split; [left; by rewrite /bodies Hr|].
      pose proof (delete_object_spec (index_region_a s) (inner s) k (so_inner _ (rs_store _ Hok)) (so_range _ (rs_store _ Hok))) as Hd.
      rewrite /sm_zoom in Hrun. destruct (delete_object k (inner s)) as [st' r']. destruct Hd as (-> & _). by simplify_eq.
  - intros s k Hok Hk. pose proof (visible_get s k Hok Hk) as Hg. cbn [store_get raw_shard].
    destruct (visible_view s !! k) as [[body md]|] eqn:Hv.
    + destruct (get_opts (inner s) k None) as [g|e|]; [|done..]. destruct Hg as [_ Hg]. intros d Hd.
      rewrite /bodies lookup_fmap Hv /=. by rewrite (Hg d Hd).
    + by rewrite Hg.
  - intros s k range d Hok Hk Hlo Hhi. cbn [store_get_range raw_shard]. rewrite /bodies lookup_fmap.
    destruct (visible_view s !! k) as [[body md]|] eqn:Hv.
    + pose proof (contents_visible _ _ _ Hk Hv) as Hct. pose proof (rs_store _ Hok) as Hst.
      pose proof (get_ranged_spec _ (inner s) k body md (Bounded range.1 range.2) (so_inner _ Hst) (so_range _ Hst) Hct
        (conj Hlo Hhi)) as Hg.
      rewrite /get_opts. destruct (resolve_range _ _) as [start end_] eqn:Hres. cbn [resolve_range] in Hres.
      destruct (get_ranged _ k _) as [g|e|]; [|done..]. destruct Hg as (Hp & Hgr & _). cbn [map_err mbind Res_bind].
      rewrite /get_result_chunks Hp join_stream Nat.add_comm collect_once. intros [= <-]. exists body.
      rewrite Hv. split; [done|]. simplify_eq. pose proof (zlen_nonneg body).
      destruct (decide (range.1 <= range.2)) as [Hle|Hgt]; [by do 2 f_equal; lia|].
      rewrite (Z.max_l 0); [|lia]. rewrite ztake_0. replace (_ - _) with 0 by lia. by rewrite ztake_0.
    + rewrite missing_get //. by apply not_visible.
  - intros s k Hok Hk. pose proof (visible_get s k Hok Hk) as Hg. cbn [store_head raw_shard].
    rewrite /bodies lookup_fmap. destruct (visible_view s !! k) as [[body md]|] eqn:Hv; rewrite Hv.
    + destruct (get_opts (inner s) k None) as [g|e|]; cbn; [|destruct e as [p src| | |]; try done; by destruct (Hg p src)|done].
      exists body. by destruct Hg.
    + by rewrite Hg.
  - intros s Hok. destruct (raw_listing s Hok) as [Hl Hin]. cbn [store_list raw_shard].
    rewrite Hl. split; [apply visible_entries_spec|]. intros k _. rewrite Hin /bodies lookup_fmap fmap_is_Some. done.
  - intros s k s' r Hok Hk. cbn [store_put_multipart raw_shard]. intros [= <- <-].
    assert (Flush.store_ok (put_multipart_opts k s).1) as Hok' by apply upload_store_ok, Hok.
    split_and!; [by apply (ok_same s)|done|apply Forall_nil_2|done].
  - intros s now d u s' u' r Hok Hd Hu. cbn [upload_put_part raw_shard put_part].
    destruct (sm_zoom inner set_inner (put_part_run now _ d) s) as [s1 r1] eqn:Hrun. intros [= <- <- <-].
    destruct (raw_step (OpPut now (part_key (upload_id u) (part_count u)) d Overwrite) s s1 r1) as [Hok' Hr]; [done..|].
    assert (visible_view s1 = visible_view s) as Hv.
    { destruct r1 as [[]|e|]; [|by rewrite /visible_view Hr|done]. destruct Hr as [_ Hr].
      eapply visible_hidden; [apply part_is_tmp|exact Hr]. }
    split_and!; [by apply (ok_same s)|by rewrite /bodies Hv| |done|by destruct r1].
    apply Forall_app; split; [done|]. apply Forall_singleton, part_is_tmp.
  - intros s now u s' u' r Hok Hu Hk Hc. cbn [upload_complete raw_shard].
    destruct (upload_call (complete now) u s) as [[s1 u1] r1] eqn:Hrun. intros [= <- <- <-].
    destruct (raw_complete now u s s1 u1 r1 Hok Hu Hk Hc Hrun) as (Hok' & Hu' & Hl & Hr). split_and!; [done..|].
    destruct r1 as [[]|e|]; [|exists []; by left|done]. destruct Hr as [d Hr]. by exists d.
  - intros s u s' u' r Hok Hu Hrun. by apply (raw_abort u s s' u' r).
Defined.

#[export] Instance raw_shard_raw_laws : RawBackendLaws.
Proof.
  refine {| is_raw _ := True; raw_view := visible_view |}.
  - done.
  - intros s now k d md s' r Hok _ Hk Hd. cbn [raw_put_with_meta raw_shard]. intros Hrun.
    assert (sm_zoom inner set_inner (run_inner (OpPutMeta now k d md)) s =
      (s', map_err to_os_error r)) as Hz.
    { revert Hrun. rewrite /sm_zoom. cbn [run_inner]. rewrite /os_err.
      destruct (put_with_meta now k d md (inner s)) as [st r1]. by intros [= <- <-]. }
    destruct (raw_write (OpPutMeta now k d md) s s' _ k (d, md) Hok Hk Hd ltac:(done) Hz) as [Hok' Hr]; [done|].
    split; [done|split; [done|]]. destruct r as [[]|e|]; [|done..]. split; [|done].
    move: Hrun. rewrite /sm_zoom /put_with_meta. destruct (65535 <? zlen md) eqn:Hm; [done|]. lia.
  - intros s now k d attrs s' r Hok _ Hk Hd. cbn [store_put raw_shard].
    destruct (sm_zoom inner set_inner (put_opts now k d Overwrite) s) as [s1 r1] eqn:Hrun. intros [= <- <-].
    destruct (raw_put now k d s s1 r1) as [_ Hr]; [done..|]. split; [done|]. by destruct r1 as [[]|e|].
  - intros s k s' r Hok _ Hk Hrun. cbn [store_delete raw_shard] in Hrun.
    destruct (raw_delete k s s' r Hok Hrun) as [_ Hr]. split; [done|]. by destruct r.
  - intros s Hok _. destruct (raw_listing s Hok) as [Hl Hin]. cbn [raw_list_with_meta raw_shard].
    assert (om_location ∘ fst <$> list_with_meta (inner s) None = om_location <$> list_objects (inner s) None) as ->.
    { rewrite /list_with_meta /list_objects -?list_fmap_compose. apply list_fmap_ext. by intros i [k e]. }
    rewrite Hl. split; [apply visible_entries_spec|]. intros k _. by rewrite Hin.
  - intros s k Hok _ Hk. cbn [raw_get_metadata raw_shard]. destruct (visible_view s !! k) as [[body md]|] eqn:Hv.
    + pose proof (contents_visible _ _ _ Hk Hv) as Hct. pose proof (rs_store _ Hok) as Hst.
      pose proof (get_metadata_spec _ (inner s) k body md (so_inner _ Hst) (so_range _ Hst) Hct) as Hg.
      destruct (get_metadata (inner s) k) as [m|e|]; [subst; by exists body| |done].
      by destruct Hg as [(? & ? & ->) _].
    + by rewrite /get_metadata /lookup_file (not_visible _ _ Hk Hv) /= Hv.
  - intros s k Hok _ Hk. cbn [raw_head_with_meta raw_shard]. destruct (visible_view s !! k) as [[body md]|] eqn:Hv.
    + pose proof (contents_visible _ _ _ Hk Hv) as Hct. pose proof (rs_store _ Hok) as Hst.
      destruct (contents_entry _ (inner s) k body md (so_inner _ Hst) (so_range _ Hst) Hct) as (e & He & _ & Hb & Hl & Hre & Hm).
      rewrite /head_with_meta /lookup_file He /= Hv. exists body, md. split; [done|]. split; [exact Hb|].
      rewrite zlen_app in Hl.
      pose proof (zlen_nonneg body). pose proof (zlen_nonneg md). rewrite /body_size /sat_sub in Hb. lia.
    + by rewrite /head_with_meta /lookup_file (not_visible _ _ Hk Hv) /= Hv.
Defined.
End raw_shard.
