(* ===== verification/RawCluster.v ===== *)
(** * A cluster of raw stores

    The two layers together: a put through the sharded store onto raw devices,
    the flush of those devices and a crash. *)

From S2P Require Import Prelude.
From S2P Require Import Config.
From S2P Require Import Device.
From S2P Require Import Extent.
From S2P Require Import Concrete.
From S2P Require Import Index.
From S2P Require Import Superblock.
From S2P Require Import Inner.
From S2P Require Import InnerFacts.
From S2P Require Import RawStore.
From S2P Require Import StoreFacts.
From S2P Require Import Flush.
From S2P Require Import StoreTools.
From S2P Require Import StoreMeta.
From S2P Require Import ObjectStoreApi.
From S2P Require Import Multipart.
From S2P Require Import ApiFacts.
From S2P Require Import MultipartFacts.
From S2P Require Import GetFacts.
From S2P Require Import Behaviour.
From S2P Require Import History.
From S2P Require Import Instances.
From S2P Require Import Scenario.
From S2P Require Import Catalog.
From S2P Require Import Backend.
From S2P Require Import Cluster.
From S2P Require Import ClusterIo.
From S2P Require Import ClusterFacts.
From S2P Require Import ClusterOps.
From S2P Require Import ClusterGuarantees.
From S2P Require Import RawShard.

Section raw_cluster.
Context `{Crc32cLaws, CodecLaws, BincodeShardLaws, BincodeSuperblockLaws, HashMapOrderLaws, ObjectPath, StreamDecoder,
  !StreamDecoderLaws, TempFilesLaws, ErrorText, Chrono}.
Implicit Types (c : ShardedObjectStore) (s : RawObjectStore) (k : string) (d : list byte).

(** Flushing [s], any later calls that leave [k] alone, further flushes among
    them, and a power cut between or inside them: whatever image of the device
    is left, it opens and has [d] under [k]. *)
Definition survives_flush s k d : Prop :=
  ∀ s1 os s2 l ks m mode,
    allowed OpFlush s → no_faults (env (file_of s)) → run OpFlush s = (s1, Ok tt) →
    trace s1 os s2 → power_cut s2 l ks → k ∉ trace_names os ++ ks → crash_image (base (file_of s2)) l m →
    ∃ s3, open_impl mode false (after_crash (file_of s2) m) = Ok s3 ∧ bodies s3 !! k = Some d.

Lemma body_survives s k d : raw_shard_ok s → raw_key k → bodies s !! k = Some d → survives_flush s k d.
Proof.
  intros Hok [Htmp _] Hb s1 os s2 l ks m mode Hal Hnf Hrun Htr Hcut Hk Hm.
  destruct (flush_durable s s1 os s2 l ks m (rs_store _ Hok) Hal Hnf Hrun Htr Hcut Hm mode) as (s3 & Ho & Hv).
  exists s3. split; [done|]. move: Hb. rewrite /bodies !lookup_fmap !visible_lookup //. by rewrite Hv.
Qed.

(** C3: End-to-end durability.  After a put through the cluster that returned,
    and any calls on other keys, the object is on at least [min_writes] shards
    of raw devices.  Each of these devices, once flushed, has the object after
    any later calls on other keys, further flushes that succeed among them,
    and a power cut between them or at any point of one, a flush that would
    fail included.  (The key is not of the prefix reserved for multipart
    parts; calls after a flush that failed are outside the claim.) *)
Theorem put_is_durable now k d c c1 r ops :
  cluster_ok c → good_key k → data_ok now d → put now k d c = (c1, Ok r) →
  Forall (λ o, op_good o ∧ k ∉ op_keys o) ops →
  let c2 := foldl run_op c1 ops in
  ∃ placed, NoDup placed ∧ (min_writes c <= length placed)%nat ∧
    (pe_shards <$> entries (catalog c2) !! k) = Some placed ∧
    ∀ id, id ∈ placed → ∃ a (s : @store raw_shard), shard_store c2 id = Some (At a) ∧ heap c2 !! a = Some s ∧
      bodies s !! k = Some d ∧ survives_flush s k d.
Proof.
  intros Hok Hg Hd Hput Hops c2. pose proof (put_spec now k d c Hok Hg Hd) as Hp. rewrite Hput in Hp.
  destruct Hp as [Ht (placed & Hnd & Hmin & He & Hall)].
  destruct (run_ops_keep ops c1 k (tc_ok _ _ _ Ht) Hops) as (Hok2 & He2 & Hs2). exists placed.
  split_and!; [done|done|by rewrite He2 He|]. intros id Hid.
  destruct (Hs2 id _ (Hall id Hid)) as (a & Ha & Ho). rewrite /object_at in Ho.
  destruct (heap (foldl run_op c1 ops) !! a) as [s|] eqn:Hs; [|done]. exists a, s.
  split_and!; [done..|]. apply body_survives; [by apply (co_heap _ Hok2 a)|apply (gk_key _ Hg)|done].
Qed.
End raw_cluster.

(** ** The example store as a cluster of one shard *)

#[export] Instance plain_texts : ErrorText := λ e,
  match e with
  | OsNotFound _ _ => "not found"
  | OsGeneric (DataCorruption _ _ _) => "data corruption"
  | _ => "error"
  end.

Definition one_shard (s : RawObjectStore) : ShardedObjectStore :=
  new_cluster 0 ({[0%nat := s]} : gmap nat (@store raw_shard)) [Some 0%nat] 1.

Lemma good_raw_a : good_key "a".
Proof.
  split; try (by vm_compute); apply (bool_decide_eq_true_1 _); by vm_compute.
Qed.

Lemma one_shard_ok s : raw_shard_ok s → cluster_ok (one_shard s).
Proof.
  intros Hok. split; [| |by vm_compute|by vm_compute].
  - intros a b. cbn. rewrite lookup_singleton_Some. by intros [<- <-].
  - intros id a. destruct id as [|id]; [|by destruct id]. intros [= <-]. by exists s.
Qed.

(** The write of the only shard is the put's. *)
Lemma one_shard_write (s s1 : RawObjectStore) now k d :
  sm_zoom inner set_inner (ObjectStoreApi.put_opts now k d Overwrite) s = (s1, Ok tt) →
  write_to_shards now k d [0%nat] (one_shard s) =
    (with_heap {[0%nat := s1]} (one_shard s), Ok (mkPutResult None None, [0%nat])).
Proof.
  intros Hput. rewrite /write_to_shards /write_to_shards_inner /sm_bind /sm_get.
  change (stores_of (one_shard s) [0%nat]) with [(0%nat, At 0)]. cbn [fan_out].
  rewrite /put_on /sm_bind /sm_try.
  assert (on_store (At 0) (store_put now k d []) (one_shard s) =
    (with_heap {[0%nat := s1]} (one_shard s), Ok (mkPutResult None None))) as ->; [|done].
  rewrite /on_store. cbn [heap one_shard new_cluster]. rewrite lookup_singleton_eq. cbn [store_put raw_shard].
  rewrite Hput /=. by rewrite insert_singleton_eq.
Qed.

Lemma one_shard_put (s s1 : RawObjectStore) now k d :
  raw_shard_ok s → good_key k → data_ok now d →
  sm_zoom inner set_inner (ObjectStoreApi.put_opts now k d Overwrite) s = (s1, Ok tt) →
  ∃ c1, put now k d (one_shard s) = (c1, Ok (mkPutResult None None)).
Proof.
  intros Hok Hk Hd Hput. pose proof (write_spec now k d [0%nat] _ (one_shard_ok s Hok) Hk Hd) as Hw.
  rewrite (one_shard_write s s1 now k d Hput) in Hw. destruct Hw as (Ht & _ & _ & _ & _ & Hall).
  { apply NoDup_singleton. }
  destruct (record_put_spec now k d [0%nat] _ (tc_ok _ _ _ Ht) Hk Hall) as (c1 & Hrun & _).
  exists c1. rewrite /put /sm_bind /sm_get. change (select_targets (one_shard s) k) with [0%nat].
  change (read_only (one_shard s)) with false.
  destruct (decide ([0%nat] = [])) as [|_]; [done|]. rewrite {1}/sm_try.
  rewrite (one_shard_write s s1 now k d Hput). cbn [snd fst]. by rewrite Hrun.
Qed.

Lemma fresh_shard_ok s : fresh_store CNone s → raw_shard_ok s.
Proof.
  intros [Hok _ _ (d & b & Hs)]. split; [exact Hok|]. intros k.
  rewrite /visible_view map_lookup_filter /Behaviour.view contents_lookup Hs /= lookup_empty. by intros [].
Qed.

Lemma put_is_durable_witness : ∃ c1 c2 placed,
  put 0 "a" sample c1 = (c2, Ok (mkPutResult None None)) ∧ (1 <= length placed)%nat ∧
  (pe_shards <$> entries (catalog c2) !! "a") = Some placed.
Proof.
  destruct (scenario_exists CNone) as (s0 & s1 & s2 & [Hfresh Hput _ _ _ _ _ _ _ _ _ _ _ _]).
  pose proof (fresh_shard_ok s0 Hfresh) as Hok.
  assert (data_ok 0 sample) as Hd by (by split; [|apply sample_bounds]).
  destruct (one_shard_put s0 s1 0 "a" sample Hok good_raw_a Hd Hput) as [c1 Hrun].
  destruct (put_is_durable 0 "a" sample (one_shard s0) c1 _ [CHealth 1 0 Degraded] (one_shard_ok s0 Hok) good_raw_a Hd
    Hrun ltac:(apply Forall_singleton; split; [done|apply not_elem_of_empty])) as (placed & _ & Hn & He & _).
  exists (one_shard s0), c1, placed. split; [exact Hrun|]. by split.
Defined.
