(* ===== verification/ShardMeta.v ===== *)
(** * Metadata routing of the sharded store ([shardedobjstr/src/metadata.rs])

    An object's metadata is kept by each shard in its own way: a raw store
    appends it to the body, an S3-like store turns it into attributes, and the
    others have a second object, the sidecar.  The functions here dispatch on
    the kind of each shard; the registry of raw stores is an argument, as in
    the code. *)

From S2P Require Import Prelude.
From S2P Require Import Config.
From S2P Require Import Extent.
From S2P Require Import Index.
From S2P Require Import StoreTools.
From S2P Require Import StoreMeta.
From S2P Require Import Tlv.
From S2P Require Import Catalog.
From S2P Require Import JumpHash.
From S2P Require Import Backend.
From S2P Require Import Cluster.
From S2P Require Import ClusterIo.

(** An open file: its length when [metadata] reports one (0 otherwise), what a
    seek and a read at a position return, and what the reads from the start to
    the end give.  Nothing changes it during a call. *)
Record OpenFile : Type := mkOpenFile {
  of_len : Z;
  of_seek : Z → Res RawStoreError unit;
  of_read : Z → Z → Res RawStoreError (list byte);
  of_source : SourceFile;
}.

Section shard_meta.
Context `{ObjectBackend, Crc32c, HashMapOrder, ObjectPath, Chrono}.

(** The functions here return [RawStoreError]. *)
Definition RM (A : Type) : Type := SM ShardedObjectStore RawStoreError A.
Implicit Types (c : ShardedObjectStore) (rr : RawRefRegistry).

(** ** The registry *)

(** [RawRefRegistry::new]: its assertion panics on lists of two lengths. *)
Definition registry_new (refs : list (option nat)) (kinds : list ShardKind) : Res RawStoreError RawRefRegistry :=
  if decide (length refs = length kinds) then Ok (mkRawRefs refs kinds) else Panic.
Definition registry_single (raw : nat) : RawRefRegistry := mkRawRefs [Some raw] [Raw].
Definition all_raw rr : list nat := omap id (refs rr).
Definition first_raw rr : option nat := omap id (refs rr) !! 0%nat.
Definition registry_shard_count rr : nat := length (refs rr).

(** ** Attributes *)

(** A key's attribute; others are dropped. *)
Definition attribute_of_key (key : string) : option Attribute :=
  if decide (key = "content-type") then Some ContentType
  else if decide (key = "cache-control") then Some CacheControl
  else if decide (key = "content-disposition") then Some ContentDisposition
  else if decide (key = "content-encoding") then Some ContentEncoding
  else if decide (key = "content-language") then Some ContentLanguage
  else Metadata <$> strip_prefix "x-amz-meta-" key.

Definition meta_to_attributes (meta : gmap string string) : Attributes :=
  omap (λ '(key, value), (λ a, (a, value)) <$> attribute_of_key key) (hm_iter meta).

Definition key_of_attribute (a : Attribute) : option string :=
  match a with
  | ContentType => Some "content-type"
  | CacheControl => Some "cache-control"
  | ContentDisposition => Some "content-disposition"
  | ContentEncoding => Some "content-encoding"
  | ContentLanguage => Some "content-language"
  | Metadata k => Some ("x-amz-meta-" +:+ k)
  | OtherAttribute _ => None
  end.

Definition attributes_to_meta (attrs : Attributes) : gmap string string :=
  foldl (λ m '(attr, value), match key_of_attribute attr with
                             | Some key => <[key := value]> m
                             | None => m
                             end) ∅ attrs.

(** ** Calls on one shard *)

Definition obj_err (e : Error) : RawStoreError :=
  match e with
  | FromShard e => if error_not_found e then NotFound (error_path e) else Io Other (error_text e)
  | ObjNotFound path _ => NotFound path
  | _ => Io Other (error_to_string e)
  end.

(** A call of the [ObjectStore] interface, [.map_err(obj_err)]. *)
Definition obj_call {A} (m : CM A) : RM A := λ c, let '(c', r) := m c in (c', map_err obj_err r).

Definition on_raw {A} (a : nat) (f : store → store * Res RawStoreError A) : RM A := λ c,
  match heap c !! a with
  | None => (c, Panic)
  | Some b => let '(b', res) := f b in (with_heap (<[a := b']> (heap c)) c, res)
  end.

Definition ask_raw {A} (a : nat) (f : store → Res RawStoreError A) : RM A := λ c,
  (c, match heap c !! a with None => Panic | Some b => f b end).

(** [.filter(|b| !b.is_empty())] *)
Definition non_empty (o : option (list byte)) : option (list byte) :=
  b ← o; if decide (b = []) then None else Some b.

Definition res_ok {E A} (r : E + A) : option A := match r with inr a => Some a | inl _ => None end.

Definition read_metadata_from_shard {E} (r : StoreRef) (id : nat) (location : string) (attributes : Attributes) rr :
    SM ShardedObjectStore E (option (list byte)) :=
  match kind rr id with
  | Raw =>
    match raw_ref rr id with
    | Some a => o <- sm_try (ask_raw a (raw_get_metadata location)) ;; sm_ret (non_empty (res_ok o))
    | None => sm_ret None
    end
  | S3Like =>
    let meta_map := attributes_to_meta attributes in
    if decide (meta_map = ∅) then sm_ret None
    else sm_ret (non_empty match encode_metadata meta_map with Ok b => Some b | _ => None end)
  | Sidecar =>
    o <- sm_try (g <- ask_store r (store_get (meta_sidecar_path location)) ;; ask_store r (got_bytes g)) ;;
    sm_ret (non_empty (res_ok o))
  end.

(** ** Writing *)

Definition missing (id : nat) (what : string) : RawStoreError :=
  NotFound ("shard " +:+ pretty id +:+ ": no " +:+ what).

Definition try_put_shard (now : Z) rr (location : string) (payload metadata : list byte) (id : nat) : RM unit :=
  match kind rr id with
  | Raw =>
    match raw_ref rr id with
    | Some a => on_raw a (raw_put_with_meta now location payload metadata)
    | None => sm_err (missing id "raw ref")
    end
  | S3Like =>
    c <- sm_get ;;
    match shard_store c id with
    | Some r =>
      obj_call (on_store r (store_put now location payload (meta_to_attributes (decode_metadata metadata)))) ;;;
      sm_ret tt
    | None => sm_err (missing id "store")
    end
  | Sidecar =>
    c <- sm_get ;;
    match shard_store c id with
    | Some r =>
      obj_call (on_store r (store_put now location payload [])) ;;;
      if decide (metadata = []) then sm_ret tt
      else obj_call (on_store r (store_put now (meta_sidecar_path location) metadata [])) ;;; sm_ret tt
    | None => sm_err (missing id "store")
    end
  end.

(** [join_all] over shard ids. *)
Fixpoint each_shard {E A} (f : nat → SM ShardedObjectStore E A) (ids : list nat) :
    SM ShardedObjectStore E (list (nat * (E + A))) :=
  match ids with
  | [] => sm_ret []
  | id :: ids' => o <- sm_try (f id) ;; rest <- each_shard f ids' ;; sm_ret ((id, o) :: rest)
  end.

(** The last error of the outcomes, in order. *)
Definition last_failure {E A} (outcomes : list (nat * (E + A))) : option E :=
  last (omap (λ '(_, o), match o with inl e => Some e | inr _ => None end) outcomes).

(** The common end of both writes: the quorum, the catalog and the event. *)
Definition finish_write (now : Z) (location : string) (size crc meta_len : Z) (placed : list nat)
    (last_err : option RawStoreError) : RM unit :=
  if decide (placed = []) then sm_err (default (NotFound location) last_err)
  else
    c <- sm_get ;;
    let required := min_writes c in
    if decide (length placed < required)%nat then
      sm_ignore (cleanup_orphaned_writes location placed) ;;;
      sm_err (Config.InsufficientWrites location (Z.of_nat required) (Z.of_nat (length placed)))
    else
      sm_modify (on_catalog (cat_put now location placed size (Some crc) meta_len)) ;;;
      sm_modify (emit_event (EventPut location)).

(** Write to the targets and, when none took it, to the fresh ones. *)
Definition write_targets (now : Z) (location : string) (write : nat → RM unit) (targets tried : list nat) :
    RM (list nat * option RawStoreError) :=
  outcomes <- each_shard write targets ;;
  let placed := placed_of outcomes in
  retry_ids <- sm_apply (mark_write_failures now placed (failed_of outcomes) tried location) ;;
  retried <- (if decide (placed = [] ∧ retry_ids ≠ []) then each_shard write retry_ids else sm_ret []) ;;
  sm_ret (placed ++ placed_of retried, last_failure (outcomes ++ retried)).

Definition put_with_meta (now : Z) rr (location : string) (payload metadata : list byte) : RM unit :=
  c <- sm_get ;;
  if read_only c then sm_err ReadOnly
  else
    let targets := select_targets c location in
    landed <- write_targets now location (try_put_shard now rr location payload metadata) targets targets ;;
    finish_write now location (zlen payload) (crc32c payload) (zlen metadata mod 2 ^ 16) landed.1 landed.2.

(** ** Writing from a file *)

(** [read_exact]: reads until [n] bytes are there. *)
Fixpoint read_exact (fuel : nat) (file : OpenFile) (pos n : Z) : Res RawStoreError (list byte) :=
  if n <=? 0 then Ok []
  else match fuel with
  | O => Panic
  | S fuel' =>
    buf ← of_read file pos n;
    if decide (buf = []) then Err (Io UnexpectedEof "failed to fill whole buffer")
    else rest ← read_exact fuel' file (pos + zlen buf) (n - zlen buf); Ok (buf ++ rest)
  end.

Definition MIB : Z := 1024 * 1024.

(** The checksum of the body, by reads of at most 1 MiB. *)
Fixpoint crc_loop (fuel : nat) (file : OpenFile) (pos remaining crc : Z) : Res RawStoreError Z :=
  if remaining <=? 0 then Ok crc
  else match fuel with
  | O => Panic
  | S fuel' =>
    buf ← of_read file pos (Z.min remaining MIB);
    if decide (buf = []) then Ok crc
    else crc_loop fuel' file (pos + zlen buf) (remaining - zlen buf) (crc32c_append crc buf)
  end.

(** The file from its start onto one raw store; [None]: the shard has none. *)
Definition put_file_on (now : Z) (location : string) (file : OpenFile) (meta_len : Z) (a : nat) : RM unit :=
  on_raw a (raw_put_with_meta_from_file now location (of_source file) meta_len).

(** The loops over the shards: those without a raw store are skipped, and a
    failed seek ends the call. *)
Fixpoint put_file_each (now : Z) rr (location : string) (file : OpenFile) (meta_len : Z) (ids : list nat) :
    RM (list (nat * (RawStoreError + unit))) :=
  match ids with
  | [] => sm_ret []
  | id :: ids' =>
    match raw_ref rr id with
    | None => put_file_each now rr location file meta_len ids'
    | Some a =>
      sm_lift (of_seek file 0) ;;;
      o <- sm_try (put_file_on now location file meta_len a) ;;
      rest <- put_file_each now rr location file meta_len ids' ;;
      sm_ret ((id, o) :: rest)
    end
  end.

(** All targets are raw: each store streams the file. *)
Definition put_file_raw (now : Z) rr (location : string) (file : OpenFile) (meta_len : Z) (targets : list nat) :
    RM unit :=
  let body_len := sat_sub (of_len file) meta_len in
  sm_lift (of_seek file body_len) ;;;
  sm_lift (read_exact (Z.to_nat meta_len) file body_len meta_len) ;;;
  sm_lift (of_seek file 0) ;;;
  crc <- sm_lift (crc_loop (Z.to_nat body_len) file 0 body_len 0) ;;
  outcomes <- put_file_each now rr location file meta_len targets ;;
  let placed := placed_of outcomes in
  retry_ids <- sm_apply (mark_write_failures now placed (failed_of outcomes) targets location) ;;
  retried <- (if decide (placed = [] ∧ retry_ids ≠ []) then put_file_each now rr location file meta_len retry_ids
              else sm_ret []) ;;
  finish_write now location body_len crc meta_len (placed ++ placed_of retried) (last_failure (outcomes ++ retried)).

Definition put_with_meta_from_file (now : Z) rr (location : string) (file : OpenFile) (meta_len : Z) : RM unit :=
  c <- sm_get ;;
  let targets := select_targets c location in
  if forallb (λ id, bool_decide (kind rr id = Raw)) targets then put_file_raw now rr location file meta_len targets
  else
    sm_lift (of_seek file 0) ;;;
    buf <- sm_lift (read_to_end (sf_reads (of_source file))) ;;
    let payload_end := sat_sub (zlen buf) meta_len in
    put_with_meta now rr location (ztake payload_end buf) (zdrop payload_end buf).

(** ** Reading *)

(** The raw store of a shard, or else its store. *)
Definition raw_or_store c rr (id : nat) : option (nat + StoreRef) :=
  match raw_ref rr id with
  | Some a => Some (inl a)
  | None => inr <$> shard_store c id
  end.

Definition is_raw_not_found (e : RawStoreError) : bool := match e with NotFound _ => true | _ => false end.

Definition catalog_meta_len c (location : string) : Z :=
  match entries (catalog c) !! location with Some e => pe_meta_len e | None => 0 end.

(** What one shard answers; [None] when it has no store. *)
Definition head_shard rr (location : string) (id : nat) : RM (option (ObjectMeta * Z)) :=
  c <- sm_get ;;
  match raw_or_store c rr id with
  | Some (inl a) => found <- ask_raw a (raw_head_with_meta location) ;; sm_ret (Some found)
  | Some (inr r) => meta <- obj_call (ask_store r (store_head location)) ;; sm_ret (Some (meta, catalog_meta_len c location))
  | None => sm_ret None
  end.

Fixpoint head_loop rr (location : string) (last_err : option RawStoreError) (ids : list nat) : RM (ObjectMeta * Z) :=
  match ids with
  | [] => sm_err (default (NotFound location) last_err)
  | id :: ids' =>
    o <- sm_try (head_shard rr location id) ;;
    match o with
    | inr (Some found) => sm_ret found
    | inr None => head_loop rr location last_err ids'
    | inl e => head_loop rr location (if is_raw_not_found e then last_err else Some e) ids'
    end
  end.

Definition read_shard_order (location : string) : RM (list nat) := λ c,
  let '(c', (order, _)) := resolve_shards location c in (c', Ok order).

Definition head_with_meta rr (location : string) : RM (ObjectMeta * Z) :=
  if is_delete_marker location then sm_err (NotFound location)
  else ids <- read_shard_order location ;; head_loop rr location None ids.

(** The metadata a shard has: [None] passes on to the next one. *)
Definition metadata_of_store rr (location : string) (id : nat) (r : StoreRef) : RM (option (list byte)) :=
  match kind rr id with
  | S3Like =>
    o <- sm_try (ask_store r (store_get location)) ;;
    match o with
    | inr result =>
      let meta := attributes_to_meta (got_attributes result) in
      if decide (meta = ∅) then sm_ret (Some [])
      else sm_ret (Some match encode_metadata meta with Ok b => b | _ => [] end)
    | inl _ => sm_ret None
    end
  | Sidecar =>
    o <- sm_try (ask_store r (store_get (meta_sidecar_path location))) ;;
    match o with
    | inr result =>
      body <- sm_try (ask_store r (got_bytes result)) ;;
      match body with
      | inr b => sm_ret (Some b)
      | inl e => sm_err (Io Other (error_to_string e))
      end
    | inl _ => sm_ret None
    end
  | Raw => sm_panic
  end.

Definition metadata_of_shard rr (location : string) (id : nat) : RM (option (list byte)) :=
  c <- sm_get ;;
  match raw_or_store c rr id with
  | Some (inl a) => o <- sm_try (ask_raw a (raw_get_metadata location)) ;; sm_ret (res_ok o)
  | Some (inr r) => metadata_of_store rr location id r
  | None => sm_ret None
  end.

Fixpoint metadata_loop rr (location : string) (ids : list nat) : RM (list byte) :=
  match ids with
  | [] => sm_err (NotFound location)
  | id :: ids' =>
    o <- metadata_of_shard rr location id ;;
    match o with Some b => sm_ret b | None => metadata_loop rr location ids' end
  end.

Definition get_metadata rr (location : string) : RM (list byte) :=
  if is_delete_marker location then sm_err (NotFound location)
  else ids <- read_shard_order location ;; metadata_loop rr location ids.

(** ** Listing *)

(** A shard's listing: sidecars are hidden on the shards that keep them. *)
Definition shard_listing c rr (prefix : option string) (id : nat) : Res RawStoreError (list (ObjectMeta * Z)) :=
  match raw_or_store c rr id with
  | Some (inl a) => match heap c !! a with Some b => Ok (raw_list_with_meta prefix b) | None => Panic end
  | Some (inr r) =>
    match ask_store r (store_list prefix) c with
    | (_, Ok l) =>
      Ok ((λ m, (m, 0)) <$>
          filter (λ m, negb (bool_decide (kind rr id = Sidecar) && ends_with ".__meta__" (om_location m)) = true) l)
    | (_, Err _) => Ok []
    | (_, Panic) => Panic
    end
  | None => Ok []
  end.

(** The first occurrence of each key that is not a delete marker. *)
Fixpoint merge_listing (seen : gset string) (l : list (ObjectMeta * Z)) : list (ObjectMeta * Z) :=
  match l with
  | [] => []
  | item :: l' =>
    let key := om_location item.1 in
    if is_delete_marker key || bool_decide (key ∈ seen) then merge_listing seen l'
    else item :: merge_listing ({[key]} ∪ seen) l'
  end.

Definition list_with_meta c rr (prefix : option string) : Res RawStoreError (list (ObjectMeta * Z)) :=
  listings ← mapM (shard_listing c rr prefix) (seq 0 (registry_shard_count rr));
  Ok (merge_listing ∅ (concat listings)).

(** ** The metadata length and the sidecar *)

Fixpoint set_meta_len_loop rr (location : string) (meta_len : Z) (ids : list nat) : RM unit :=
  match ids with
  | [] => sm_err (NotFound location)
  | id :: ids' =>
    c <- sm_get ;;
    match raw_or_store c rr id with
    | Some (inl a) =>
      o <- sm_try (on_raw a (raw_set_meta_len location meta_len)) ;;
      match o with inr _ => sm_ret tt | inl _ => set_meta_len_loop rr location meta_len ids' end
    | Some (inr _) => sm_ret tt
    | None => set_meta_len_loop rr location meta_len ids'
    end
  end.

Definition set_meta_len rr (location : string) (meta_len : Z) : RM unit :=
  c <- sm_get ;;
  if read_only c then sm_err ReadOnly
  else ids <- read_shard_order location ;; set_meta_len_loop rr location meta_len ids.

Fixpoint delete_sidecars rr (location : string) (ids : list nat) : RM unit :=
  match ids with
  | [] => sm_ret tt
  | id :: ids' =>
    c <- sm_get ;;
    (if bool_decide (kind rr id = Sidecar)
     then match shard_store c id with
          | Some r => sm_ignore (delete_sidecar_of location r)
          | None => sm_ret tt
          end
     else sm_ret tt) ;;;
    delete_sidecars rr location ids'
  end.

Definition delete_sidecar rr (location : string) : RM unit :=
  c <- sm_get ;;
  if read_only c then sm_ret tt else delete_sidecars rr location (select_targets c location).

(** ** Metadata-aware copies ([repair.rs]) *)

Definition plain_put (now : Z) (r : StoreRef) (location : string) (data : list byte) : CM unit :=
  on_store r (store_put now location data []) ;;; sm_ret tt.

(** A raw store's error, boxed. *)
Definition raw_call {A} (m : RM A) : CM A := λ c, let '(c', r) := m c in (c', map_err GenericRaw r).

Definition write_with_meta_to_shard (now : Z) rr (target : nat) (r : StoreRef) (location : string)
    (data metadata : list byte) : CM unit :=
  if decide (metadata = []) then plain_put now r location data
  else match kind rr target with
  | Raw =>
    match raw_ref rr target with
    | Some a => raw_call (on_raw a (raw_put_with_meta now location data metadata))
    | None => plain_put now r location data
    end
  | S3Like =>
    on_store r (store_put now location data (meta_to_attributes (decode_metadata metadata))) ;;; sm_ret tt
  | Sidecar =>
    plain_put now r location data ;;; plain_put now r (meta_sidecar_path location) metadata
  end.

Definition read_source_metadata {E} rr (location : string) : SM ShardedObjectStore E (list byte) :=
  c <- sm_get ;;
  match entries (catalog c) !! location with
  | Some e =>
    if pe_meta_len e =? 0 then sm_ret []
    else o <- sm_try (get_metadata rr location) ;; sm_ret (default [] (res_ok o))
  | None => o <- sm_try (get_metadata rr location) ;; sm_ret (default [] (res_ok o))
  end.
End shard_meta.
