(* ===== verification/ShardMetaFacts.v ===== *)
(** * Facts about the metadata routing

    Attributes give back the metadata they can express; a put with metadata
    reaches the quorum, and the metadata read back afterwards is what was
    put. *)

From S2P Require Import Prelude.
From S2P Require Import Config.
From S2P Require Import Extent.
From S2P Require Import Index.
From S2P Require Import StoreTools.
From S2P Require Import StoreMeta.
From S2P Require Import Tlv.
From S2P Require Import Catalog.
From S2P Require Import JumpHash.
From S2P Require Import Backend.
From S2P Require Import Cluster.
From S2P Require Import ClusterIo.
From S2P Require Import ClusterFacts.
From S2P Require Import ShardMeta.

(** ** Attributes *)

Lemma attribute_key k a : attribute_of_key k = Some a → key_of_attribute a = Some k.
Proof.
  rewrite /attribute_of_key. repeat case_decide; try (by intros [= <-]; subst).
  destruct (strip_prefix _ k) as [s|] eqn:Hs; [|done]. intros [= <-]. cbn [key_of_attribute].
  by rewrite (strip_prefix_spec _ _ _ Hs).
Qed.

Section attributes.
Context `{HashMapOrderLaws}.

Lemma attributes_foldl (l : list (string * string)) (m : gmap string string) :
  NoDup l.*1 →
  foldl (λ m '(attr, value), match key_of_attribute attr with Some key => <[key := value]> m | None => m end) m
    (omap (λ '(key, value), (λ a, (a, value)) <$> attribute_of_key key) l) =
  filter (λ '(k, _), is_Some (attribute_of_key k)) (list_to_map l : gmap string string) ∪ m.
Proof.
  revert m. induction l as [|[k v] l IH]; intros m Hnd.
  { cbn. by rewrite map_filter_empty left_id_L. }
  apply NoDup_cons in Hnd as [Hk Hnd]. cbn [omap list_omap fmap list_fmap list_to_map foldr].
  assert ((list_to_map l : gmap string string) !! k = None) as Hl by by apply not_elem_of_list_to_map_1.
  destruct (attribute_of_key k) as [a|] eqn:Ha; cbn.
  - rewrite (attribute_key _ _ Ha) IH // map_filter_insert_True; [|by rewrite Ha].
    rewrite -insert_union_r; [by rewrite insert_union_l|]. apply map_lookup_filter_None. by left.
  - rewrite IH // map_filter_insert_False; [by rewrite delete_id|]. rewrite Ha. by intros [].
Qed.

Lemma attributes_kept (meta : gmap string string) :
  attributes_to_meta (meta_to_attributes meta) = filter (λ '(k, _), is_Some (attribute_of_key k)) meta.
Proof.
  pose proof (hm_iter_perm meta) as Hp.
  assert (NoDup (hm_iter meta).*1) as Hnd by by rewrite Hp; apply NoDup_fst_map_to_list.
  rewrite /attributes_to_meta /meta_to_attributes attributes_foldl // right_id_L. f_equal.
  by rewrite (list_to_map_proper _ _ Hnd Hp) list_to_map_to_list.
Qed.
End attributes.

Section routing.
Context `{RawBackendLaws, Crc32c, HashMapOrderLaws, ObjectPath, Chrono}.
Implicit Types (c : ShardedObjectStore) (K : gset string) (k : string) (d md : list byte) (rr : RawRefRegistry).

(** ** The registry *)

(** Raw stores are registered for raw shards only, and only raw shards use them. *)
Record registry_ok c rr : Prop := {
  ro_kind id a : raw_ref rr id = Some a → kind rr id = Raw;
  ro_raw id a : raw_ref rr id = Some a → ∃ b, heap c !! a = Some b ∧ is_raw b;
  ro_apart id a id' : raw_ref rr id = Some a → shard_store c id' = Some (At a) → kind rr id' = Raw;
}.

(** The object with its metadata, as the shard keeps them. *)
Definition kept c rr (id : nat) k d md : Prop :=
  match kind rr id with
  | Raw => ∃ a b, raw_ref rr id = Some a ∧ heap c !! a = Some b ∧ raw_view b !! k = Some (d, md)
  | S3Like => shard_has c id k (Some d)
  | Sidecar => shard_has c id k (Some d) ∧ (md ≠ [] → shard_has c id (meta_sidecar_path k) (Some md))
  end.

(** ** Steps *)

(** What a write on a shard does, whatever its kind. *)
Record meta_step K rr k d md c c' : Prop := {
  ms_touches : touches K c c';
  ms_stores : stores_only c c';
  ms_registry : registry_ok c' rr;
  ms_kept id : kept c rr id k d md → kept c' rr id k d md;
  ms_body id : kind rr id ≠ Raw → shard_has c id k (Some d) → shard_has c' id k (Some d);
}.

Lemma meta_step_refl K rr k d md c : cluster_ok c → registry_ok c rr → meta_step K rr k d md c c.
Proof. intros Hok Hr. split; [by apply touches_refl|apply stores_only_refl|done..]. Qed.

Lemma meta_step_trans K rr k d md c1 c2 c3 :
  meta_step K rr k d md c1 c2 → meta_step K rr k d md c2 c3 → meta_step K rr k d md c1 c3.
Proof.
  intros [Ht1 Hs1 _ Hk1 Hb1] [Ht2 Hs2 Hr2 Hk2 Hb2].
  split; [by eapply touches_trans|by eapply stores_only_trans|done| |]; intros id; [|intros Hnr]; auto.
Qed.

(** A call on a raw store. *)
Lemma raw_put_step now rr k d md id a c :
  cluster_ok c → registry_ok c rr → key_ok k → data_ok now (d ++ md) → raw_ref rr id = Some a →
  let '(c', res) := on_raw a (raw_put_with_meta now k d md) c in
  meta_step {[k]} rr k d md c c' ∧
  match res with Ok _ => kept c' rr id k d md ∧ zlen md < 2 ^ 16 | Err _ => True | Panic => False end.
Proof.
  intros Hok Hr Hk Hd Hid. destruct (ro_raw _ _ Hr _ _ Hid) as (b & Hb & Hraw). rewrite /on_raw Hb.
  destruct (raw_put_with_meta now k d md b) as [b' res] eqn:Hput.
  pose proof (co_heap _ Hok _ _ Hb) as Hbok.
  destruct (raw_put_law _ _ _ _ _ _ _ Hbok Hraw Hk Hd Hput) as (Hbok' & Hraw' & Hres).
  set (c' := with_heap _ c). assert (stores_only c c') as Hs by done.
  assert (raw_view b' = raw_view b ∨ raw_view b' = <[k := (d, md)]> (raw_view b)) as Hview.
  { destruct res as [u|e|]; [|by left|done]. right. apply Hres. }
  assert (heap c' !! a = Some b') as Hb' by apply lookup_insert_eq.
  assert (touches {[k]} c c') as Ht.
  { apply touches_heap; [done|done| |].
    - intros a'. cbn. destruct (decide (a = a')) as [<-|Hne]; [|rewrite lookup_insert_ne //; by destruct (heap c !! a')].
      rewrite lookup_insert_eq Hb. intros k' Hk'. rewrite (raw_view_law b) // (raw_view_law b') // !lookup_fmap.
      destruct Hview as [-> | ->]; [done|]. rewrite lookup_insert_ne //. set_solver.
    - intros a' b2. cbn. rewrite lookup_insert_Some. intros [[_ <-]|[_ Hb2]]; [done|]. by eapply co_heap. }
  assert (∀ id' k0 v, kind rr id' ≠ Raw → shard_has c id' k0 v → shard_has c' id' k0 v) as Hother.
  { intros id' k0 v Hnr (a' & Ha' & Ho). exists a'. split; [done|]. rewrite -Ho /object_at /c' /=.
    rewrite lookup_insert_ne //. intros <-. by apply Hnr, (ro_apart _ _ Hr id a). }
  split.
  - split; [done|done| | |by intros id'; apply Hother].
    + split; [by apply (ro_kind _ _ Hr)| |by apply (ro_apart _ _ Hr)]. intros id' a' Hid'.
      destruct (decide (a = a')) as [<-|Hne]; [by exists b'|].
      destruct (ro_raw _ _ Hr _ _ Hid') as (b2 & Hb2 & ?). exists b2. by rewrite /c' /= lookup_insert_ne.
    + intros id' Hkept. rewrite /kept. rewrite /kept in Hkept.
      destruct (kind rr id') eqn:Hkd.
      * destruct Hkept as (a' & b2 & Ha' & Hb2 & Hv). exists a'. destruct (decide (a = a')) as [<-|Hne].
        -- exists b'. split_and!; [done|done|]. simplify_eq. destruct Hview as [-> | ->]; [done|apply lookup_insert_eq].
        -- exists b2. by rewrite /c' /= lookup_insert_ne.
      * apply Hother; [by rewrite Hkd|done].
      * destruct Hkept as [Ho Hsc]. split; [|intros Hmd; specialize (Hsc Hmd)]; (apply Hother; [by rewrite Hkd|done]).
  - destruct res as [u|e|]; [|done|done]. destruct Hres as [Hlen Hv]. split; [|done].
    rewrite /kept (ro_kind _ _ Hr _ _ Hid). exists a, b'. split_and!; [done|done|]. by rewrite Hv lookup_insert_eq.
Qed.

(** A put of [d] under [k], or of [md] under the sidecar, on another store. *)
Lemma store_put_step now rr k d md key data attrs id r c :
  cluster_ok c → registry_ok c rr → key_ok key → data_ok now data →
  (key = k ∧ data = d ∧ k ≠ meta_sidecar_path k ∨ key = meta_sidecar_path k ∧ data = md ∧ k ≠ meta_sidecar_path k) →
  shard_store c id = Some r → kind rr id ≠ Raw →
  let '(c', res) := on_store r (store_put now key data attrs) c in
  meta_step {[key]} rr k d md c c' ∧
  match res with Ok _ => shard_has c' id key (Some data) | Err _ => True | Panic => False end.
Proof.
  intros Hok Hr Hk Hd Hkey Hid Hnr.
  pose proof (on_store_writes key (Some data) c r (store_put now key data attrs) (λ _, False) Hok) as Hw.
  specialize (Hw ltac:(intros a Ha; by eapply shard_ref)).
  assert (∀ b, store_ok b → let '(b', res) := store_put now key data attrs b in store_ok b' ∧
    match res with Ok _ => view b' = partial_alter (λ _, Some data) key (view b)
    | Err e => may_have key (Some data) (view b) (view b') ∧ (False → view b' !! key = Some data) | Panic => False end) as Hf.
  { intros b Hb. destruct (store_put now key data attrs b) as [b' res] eqn:Hp.
    destruct (put_law _ _ _ _ _ _ _ Hb Hk Hd Hp) as [Hb' Hres]. split; [done|]. by destruct res. }
  specialize (Hw Hf). pose proof (eq_refl (on_store r (store_put now key data attrs) c)) as Hrun.
  destruct (on_store r _ c) as [c' res] in Hw, Hrun at 2 |- *. destruct Hw as (Hs & Ht & Hw & Hres).
  assert (∀ a id', raw_ref rr id' = Some a → heap c' !! a = heap c !! a) as Hsame.
  { intros a id' Ha. rewrite /on_store in Hrun. destruct r as [i|a']; [by injection Hrun as <- _|].
    destruct (heap c !! a') as [b|]; [|by injection Hrun as <- _]. destruct (store_put _ _ _ _ b) as [b' r'].
    injection Hrun as <- _. cbn. apply lookup_insert_ne. intros ->. by apply Hnr, (ro_apart _ _ Hr id' a). }
  assert (∀ id' k0 v, (k0 = key → v = Some data) → shard_has c id' k0 v → shard_has c' id' k0 v) as Hhas.
  { intros id' k0 v Hv Hhas. destruct (decide (k0 = key)) as [->|Hne].
    - rewrite (Hv eq_refl) in Hhas |- *. by eapply shard_has_writes.
    - eapply shard_has_touches; [exact Ht| |done]. set_solver. }
  assert (k = key → Some d = Some data) as Hkd0.
  { intros Hkk. destruct Hkey as [(? & ? & ?)|(? & ? & ?)]; congruence. }
  split.
  - split; [done|done| | |by intros id' _; apply Hhas].
    + split; [by apply (ro_kind _ _ Hr)| |]; intros id' a Ha; [rewrite (Hsame a id' Ha); by apply (ro_raw _ _ Hr id')|].
      intros i. rewrite Hs. by apply (ro_apart _ _ Hr id').
    + intros id' Hkept. rewrite /kept. rewrite /kept in Hkept.
      destruct (kind rr id') eqn:Hkd.
      * destruct Hkept as (a & b & Ha & Hb & Hv). exists a, b. by rewrite (Hsame a id' Ha).
      * by apply Hhas.
      * destruct Hkept as [Ho Hsc]. split; [by apply Hhas|]. intros Hmd. apply Hhas; [|by apply Hsc].
        intros Hkk. destruct Hkey as [(? & ? & ?)|(? & ? & ?)]; congruence.
  - destruct res as [p|e|]; [|done|done]. destruct Hres as (a & -> & Ha). exists a. split; [by rewrite Hs|done].
Qed.

(** ** The fan-out *)

(** What the put asks of its arguments. *)
Record put_input now k d md : Prop := {
  pi_key : key_ok k;
  pi_sidecar : key_ok (meta_sidecar_path k);
  pi_apart : k ≠ meta_sidecar_path k;
  pi_payload : data_ok now (d ++ md);
  pi_body : data_ok now d;
  pi_meta : data_ok now md;
}.

Definition own_keys k : gset string := {[k; meta_sidecar_path k]}.

Lemma meta_step_mono K K' rr k d md c c' : K ⊆ K' → meta_step K rr k d md c c' → meta_step K' rr k d md c c'.
Proof. intros HK [Ht Hs Hr Hk]. split; [by eapply touches_mono|done..]. Qed.

(** A step that ran and may have failed. *)
Definition meta_run {E A} rr k d md c (out : ShardedObjectStore * Res E A) (Q : ShardedObjectStore → Prop) : Prop :=
  meta_step (own_keys k) rr k d md c out.1 ∧
  match out.2 with Ok _ => Q out.1 | Err _ => True | Panic => False end.

Lemma store_put_run now rr k d md key data attrs id r c :
  cluster_ok c → registry_ok c rr → put_input now k d md → shard_store c id = Some r → kind rr id ≠ Raw →
  (key = k ∧ data = d ∨ key = meta_sidecar_path k ∧ data = md) →
  meta_run rr k d md c (obj_call (on_store r (store_put now key data attrs)) c)
    (λ c', shard_has c' id key (Some data)).
Proof.
  intros Hok Hr Hin Hid Hnr Hkey.
  assert (key_ok key ∧ data_ok now data ∧ ({[key]} : gset string) ⊆ own_keys k) as (Hk & Hd & HK).
  { destruct Hkey as [[-> ->]|[-> ->]]; (split_and!; [apply Hin..|rewrite /own_keys; set_solver]). }
  pose proof (store_put_step now rr k d md key data attrs id r c Hok Hr Hk Hd) as Hs.
  ospecialize* Hs; [pose proof (pi_apart _ _ _ _ Hin); tauto|done|done|]. rewrite /meta_run /obj_call.
  destruct (on_store r _ c) as [c' res]. destruct Hs as [Hs Hres]. cbn. split; [by eapply meta_step_mono|].
  by destruct res.
Qed.

Lemma meta_run_bind {E A B} rr k d md c (m : SM ShardedObjectStore E A) (f : A → SM ShardedObjectStore E B) P Q :
  meta_run rr k d md c (m c) P →
  (∀ a c', meta_step (own_keys k) rr k d md c c' → P c' → meta_run rr k d md c' (f a c') Q) →
  meta_run rr k d md c (sm_bind m f c) Q.
Proof.
  intros [Hs Hm] Hf. rewrite /sm_bind. destruct (m c) as [c' res]. cbn [fst snd] in *.
  destruct res as [a|e|]; [|done|done]. destruct (Hf a c' Hs Hm) as [Hs' Hq]. split; [|done]. by eapply meta_step_trans.
Qed.

Lemma meta_run_ret {E A} rr k d md c (a : A) (Q : ShardedObjectStore → Prop) :
  cluster_ok c → registry_ok c rr → Q c → meta_run (E := E) rr k d md c (sm_ret a c) Q.
Proof. intros Hok Hr HQ. split; [by apply meta_step_refl|done]. Qed.

Lemma try_put_run now rr k d md id c :
  cluster_ok c → registry_ok c rr → put_input now k d md →
  meta_run rr k d md c (try_put_shard now rr k d md id c) (λ c', kept c' rr id k d md).
Proof.
  intros Hok Hr Hin. rewrite /try_put_shard. destruct (kind rr id) eqn:Hkd.
  - destruct (raw_ref rr id) as [a|] eqn:Ha; [|by split; [apply meta_step_refl|]].
    pose proof (raw_put_step now rr k d md id a c Hok Hr (pi_key _ _ _ _ Hin) (pi_payload _ _ _ _ Hin) Ha) as Hs.
    rewrite /meta_run. destruct (on_raw a _ c) as [c' res]. destruct Hs as [Hs Hres].
    split; [apply (meta_step_mono {[k]}); [rewrite /own_keys; set_solver|exact Hs]|]. destruct res; [|done..].
    by destruct Hres.
  - rewrite {1}/sm_bind /sm_get. destruct (shard_store c id) as [r|] eqn:Hid; [|by split; [apply meta_step_refl|]].
    eapply meta_run_bind; [apply (store_put_run _ _ _ _ _ k d _ id); [done..|by rewrite Hkd|by left]|].
    intros _ c' Hs Hhas. apply meta_run_ret; [apply Hs|apply Hs|by rewrite /kept Hkd].
  - rewrite {1}/sm_bind /sm_get. destruct (shard_store c id) as [r|] eqn:Hid; [|by split; [apply meta_step_refl|]].
    eapply meta_run_bind; [apply (store_put_run _ _ _ _ _ k d _ id); [done..|by rewrite Hkd|by left]|].
    intros _ c' Hs Hhas. case_decide; [apply meta_run_ret; [apply Hs|apply Hs|by rewrite /kept Hkd]|].
    eapply meta_run_bind; [apply (store_put_run _ _ _ _ _ (meta_sidecar_path k) md _ id); [apply Hs|apply Hs|done| |by rewrite Hkd|by right]|].
    { by rewrite (ms_stores _ _ _ _ _ _ _ Hs). }
    intros _ c2 Hs2 Hhas2. apply meta_run_ret; [apply Hs2|apply Hs2|]. rewrite /kept Hkd. split; [|done].
    by apply (ms_body _ _ _ _ _ _ _ Hs2); [rewrite Hkd|].
Qed.

Lemma each_shard_run now rr k d md ids c :
  cluster_ok c → registry_ok c rr → put_input now k d md →
  ∃ c' outs, each_shard (try_put_shard now rr k d md) ids c = (c', Ok outs : Res RawStoreError _) ∧
    meta_step (own_keys k) rr k d md c c' ∧ outs.*1 = ids ∧
    ∀ id, id ∈ placed_of outs → kept c' rr id k d md.
Proof.
  revert c. induction ids as [|id ids IH]; intros c Hok Hr Hin.
  { exists c, []. split_and!; [done|by apply meta_step_refl|done|]. by intros id ?%elem_of_nil. }
  pose proof (try_put_run now rr k d md id c Hok Hr Hin) as [Hs Hres]. cbn [each_shard]. rewrite /sm_bind /sm_try.
  destruct (try_put_shard now rr k d md id c) as [c1 res]. cbn [fst snd] in *.
  destruct (IH c1 (tc_ok _ _ _ (ms_touches _ _ _ _ _ _ _ Hs)) (ms_registry _ _ _ _ _ _ _ Hs) Hin)
    as (c2 & outs & Hrun & Hs2 & Hids & Hpl).
  destruct res as [u|e|]; [| |done]; rewrite /sm_bind /sm_try in Hrun; rewrite Hrun.
  - exists c2, ((id, inr u) :: outs). split_and!; [done|by eapply meta_step_trans|by rewrite fmap_cons Hids|].
    intros i. cbn. rewrite elem_of_cons. intros [->|Hi]; [|by apply Hpl]. by apply (ms_kept _ _ _ _ _ _ _ Hs2).
  - exists c2, ((id, inl e) :: outs). split_and!; [done|by eapply meta_step_trans|by rewrite fmap_cons Hids|done].
Qed.

(** Health changes keep what shards have. *)
Lemma kept_heap c c' rr id k d md :
  heap c' = heap c → (∀ i, shard_store c' i = shard_store c i) → kept c rr id k d md → kept c' rr id k d md.
Proof.
  intros Hh Hs. rewrite /kept. assert (∀ k0 v, shard_has c id k0 v → shard_has c' id k0 v) as Hhas.
  { intros k0 v (a & Ha & Ho). exists a. split; [by rewrite Hs|]. by rewrite /object_at Hh. }
  destruct (kind rr id); [by rewrite Hh|apply Hhas|]. intros [Hb Hm]. split; [by apply Hhas|]. intros Hmd. by apply Hhas, Hm.
Qed.

Lemma registry_heap c c' rr :
  heap c' = heap c → (∀ i, shard_store c' i = shard_store c i) → registry_ok c rr → registry_ok c' rr.
Proof. intros Hh Hs [Hk Hr Ha]. split; [done|by rewrite Hh|]. intros id a i. rewrite Hs. apply Ha. Qed.

Definition landed_meta c rr k d md (placed : list nat) : Prop :=
  NoDup placed ∧ ∀ id, id ∈ placed → kept c rr id k d md.

Lemma write_targets_run now rr k d md targets c :
  cluster_ok c → registry_ok c rr → put_input now k d md → NoDup targets →
  ∃ c' landed, write_targets now k (try_put_shard now rr k d md) targets targets c =
      (c', Ok landed : Res RawStoreError _) ∧
    touches (own_keys k) c c' ∧ registry_ok c' rr ∧ catalog c' = catalog c ∧ landed_meta c' rr k d md landed.1.
Proof.
  intros Hok Hr Hin Hnd. rewrite /write_targets.
  destruct (each_shard_run now rr k d md targets c Hok Hr Hin) as (c1 & outs & Hrun & [Ht1 Hs1 Hr1 _ _] & Hids & Hpl).
  rewrite {1}/sm_bind Hrun {1}/sm_bind /sm_apply.
  pose proof (mark_failures_touches now (placed_of outs) (failed_of outs) targets k c1 (tc_ok _ _ _ Ht1)) as Hm.
  destruct (mark_write_failures _ _ _ _ _ c1) as [c2 ids]. destruct Hm as (Ht2 & Hh2 & Hc2 & Hnd2).
  assert (registry_ok c2 rr) as Hr2 by (eapply registry_heap; [done|apply Ht2|done]).
  assert (touches (own_keys k) c c2) as Ht by (eapply touches_step; [exact Ht1|exact Ht2|done|set_solver]).
  assert (NoDup (placed_of outs)) as Hndp by (eapply sublist_NoDup; [|apply placed_ids]; by rewrite Hids).
  assert (∀ id, id ∈ placed_of outs → kept c2 rr id k d md) as Hpl2.
  { intros id Hid. eapply kept_heap; [done|apply Ht2|by apply Hpl]. }
  case_decide as Hemp.
  - destruct Hemp as [Hemp _]. destruct (each_shard_run now rr k d md ids c2 (tc_ok _ _ _ Ht) Hr2 Hin)
      as (c3 & outs3 & Hrun3 & [Ht3 Hs3 Hr3 _ _] & Hids3 & Hpl3).
    rewrite /sm_bind Hrun3. exists c3. eexists. split; [done|]. cbn [fst]. rewrite Hemp /=.
    rewrite /landed_meta; split_and!; [by eapply touches_trans|done|by rewrite Hs3 /= Hc2 Hs1| |done].
    eapply sublist_NoDup; [|apply placed_ids]. by rewrite Hids3.
  - exists c2. eexists. split; [done|]. cbn [fst]. rewrite app_nil_r.
    split_and!; [done|done|by rewrite Hc2 Hs1|by split].
Qed.

(** ** The put *)

Definition placed_with_meta now c rr k d md placed : Prop :=
  entries (catalog c) !! k = Some (mkPlacement placed (zlen d) (Some (crc32c d)) now (zlen md mod 2 ^ 16)) ∧
  landed_meta c rr k d md placed.

Lemma put_with_meta_run now rr k d md c :
  cluster_ok c → registry_ok c rr → put_input now k d md →
  let '(c', res) := put_with_meta now rr k d md c in
  touches (own_keys k) c c' ∧
  match res with
  | Ok _ => registry_ok c' rr ∧ ∃ placed, (min_writes c <= length placed)%nat ∧ placed_with_meta now c' rr k d md placed
  | Err _ => catalog c' = catalog c
  | Panic => False
  end.
Proof.
  intros Hok Hr Hin. rewrite /put_with_meta {1}/sm_bind /sm_get.
  destruct (read_only c); [by split; [apply touches_refl|]|]. cbn zeta.
  destruct (select_targets_spec c k (co_factor _ Hok)) as (Hnd & _ & _).
  destruct (write_targets_run now rr k d md (select_targets c k) c Hok Hr Hin Hnd)
    as (c1 & landed & Hrun & Ht & Hr1 & Hc & Hl).
  rewrite {1}/sm_bind Hrun /finish_write. case_decide; [by split|]. rewrite /sm_bind {1}/sm_get.
  pose proof (tc_settings _ _ _ Ht) as [= _ Hmin _ _ _ _]. case_decide as Hq.
  - destruct (cleanup_touches k landed.1 c1 (tc_ok _ _ _ Ht) (pi_key _ _ _ _ Hin) (pi_sidecar _ _ _ _ Hin))
      as (c2 & Hclean & Ht2 & Hc2).
    rewrite /sm_ignore /sm_bind /sm_try Hclean. split; [by eapply touches_trans|]. by rewrite Hc2 Hc.
  - rewrite /sm_modify. split.
    + apply touches_event. eapply touches_trans; [exact Ht|]. apply (on_catalog_key _ k);
        [by eapply tc_ok|rewrite /own_keys; set_solver|]. intros m k' Hk'. by apply cat_put_other.
    + split; [by apply (registry_heap c1)|]. exists landed.1. split; [rewrite -Hmin; lia|].
      split; [by rewrite /= lookup_insert_eq|]. destruct Hl as [Hnd1 Hl]. split; [done|].
      intros id Hid. eapply kept_heap; [done|done|by apply Hl].
Qed.

(** ** Reading the metadata back *)

Lemma kept_metadata c rr id k d md o c' :
  cluster_ok c → registry_ok c rr → key_ok k → key_ok (meta_sidecar_path k) → kind rr id ≠ S3Like →
  (kind rr id = Sidecar → md ≠ []) → kept c rr id k d md →
  metadata_of_shard rr k id c = (c', Ok o) → c' = c ∧ ∀ b, o = Some b → b = md.
Proof.
  intros Hok Hr Hk Hks Hns3 Hmd Hkept. rewrite /metadata_of_shard {1}/sm_bind /sm_get /raw_or_store.
  rewrite /kept in Hkept. destruct (kind rr id) eqn:Hkd; [|done|].
  - destruct Hkept as (a & b & Ha & Hb & Hv). rewrite Ha. rewrite /sm_bind /sm_try /ask_raw Hb.
    destruct (ro_raw _ _ Hr _ _ Ha) as (b' & Hb' & Hraw). simplify_eq.
    pose proof (raw_metadata_law b k (co_heap _ Hok _ _ Hb) Hraw Hk) as Hm.
    destruct (raw_get_metadata k b) as [m|e|]; intros [= <- <-]; (split; [done|]); [|done].
    intros b' [= <-]. destruct Hm as [d' Hm]. rewrite Hm in Hv. by injection Hv.
  - destruct Hkept as [Hd Hsc]. specialize (Hsc (Hmd eq_refl)). destruct Hsc as (a & Ha & Ho).
    destruct (raw_ref rr id) as [a'|] eqn:Hraw; [by rewrite (ro_kind _ _ Hr _ _ Hraw) in Hkd|].
    rewrite Ha /= /metadata_of_store Hkd /sm_bind /sm_try /ask_store.
    rewrite /object_at in Ho. destruct (heap c !! a) as [b|] eqn:Hb; [|done].
    pose proof (get_law b (meta_sidecar_path k) (co_heap _ Hok _ _ Hb) Hks) as Hg.
    destruct (store_get (meta_sidecar_path k) b) as [g|e|]; cbn; [| |done]; [|by intros [= <- <-]].
    rewrite Hb. destruct (got_bytes g b) as [x|e|] eqn:Hx; cbn; [|done..]. intros [= <- <-]. split; [done|].
    intros b' [= <-]. specialize (Hg x eq_refl). simpl in Ho. rewrite Hg in Ho. by injection Ho.
Qed.

(** The shard gives the metadata [md] back as it is: not through attributes,
    and from its sidecar only when there is some. *)
Definition verbatim rr md (id : nat) : Prop := kind rr id ≠ S3Like ∧ (kind rr id = Sidecar → md ≠ []).

Lemma metadata_loop_kept rr k d md ids c c' b :
  cluster_ok c → registry_ok c rr → key_ok k → key_ok (meta_sidecar_path k) →
  (∀ id, id ∈ ids → kept c rr id k d md ∧ verbatim rr md id) → metadata_loop rr k ids c = (c', Ok b) → b = md.
Proof.
  intros Hok Hr Hk Hks. induction ids as [|id ids IH]; intros Hall; [done|]. cbn [metadata_loop].
  rewrite {1}/sm_bind. destruct (metadata_of_shard rr k id c) as [c1 res] eqn:Hm. destruct res as [o|e|]; [|done..].
  destruct (Hall id) as [Hkept [Hns3 Hmd]]; [by left|].
  destruct (kept_metadata c rr id k d md o c1) as [-> Ho]; try done.
  destruct o as [b'|]; [intros [= _ <-]; by apply Ho|]. intros Hrun. apply IH; [|done]. intros i Hi. apply Hall. by right.
Qed.

Lemma get_metadata_kept rr k d md c c' b placed :
  cluster_ok c → registry_ok c rr → key_ok k → key_ok (meta_sidecar_path k) →
  (pe_shards <$> entries (catalog c) !! k) = Some placed → (∀ id, id ∈ placed → kept c rr id k d md ∧ verbatim rr md id) →
  get_metadata rr k c = (c', Ok b) → b = md.
Proof.
  intros Hok Hr Hk Hks He Hall. rewrite /get_metadata. destruct (is_delete_marker k); [done|].
  rewrite /sm_bind /read_shard_order. pose proof (resolve_spec k c Hok) as Hres.
  destruct (resolve_shards k c) as [c1 [order fb]]. destruct Hres as ((Ht & Hh) & _ & Hsh & Hperm & _).
  apply (metadata_loop_kept rr k d md order c1 c' b); try done; [by eapply tc_ok|by apply (registry_heap c); [|apply Ht|]|].
  intros id. rewrite Hperm /readable. destruct (entries (catalog c) !! k) as [e|]; [|done]. injection He as <-.
  intros [_ Hid]%list_elem_of_filter. destruct (Hall id Hid) as [Hkept Hv]. split; [|done].
  by apply (kept_heap c); [|apply Ht|].
Qed.
End routing.
