(* ===== verification/MetaGuarantees.v ===== *)
(** * The guarantees of the metadata routing

    Quorum and read-back of metadata, what a shard's attributes keep of it,
    and two histories the routing gets wrong. *)

From S2P Require Import Prelude.
From S2P Require Import Config.
From S2P Require Import Extent.
From S2P Require Import Concrete.
From S2P Require Import Index.
From S2P Require Import StoreTools.
From S2P Require Import StoreMeta.
From S2P Require Import Instances.
From S2P Require Import Tlv.
From S2P Require Import Catalog.
From S2P Require Import JumpHash.
From S2P Require Import Backend.
From S2P Require Import Cluster.
From S2P Require Import ClusterIo.
From S2P Require Import ClusterFacts.
From S2P Require Import ClusterOps.
From S2P Require Import ClusterExamples.
From S2P Require Import ShardMeta.
From S2P Require Import ShardMetaFacts.

(** ** Attributes *)

(** The two headers with a tag that [object_store] has no attribute for. *)
Definition as_attribute (key : string) : bool :=
  recognised key && bool_decide (key ≠ "expires" ∧ key ≠ "etag").

Lemma attribute_recognised k : is_Some (attribute_of_key k) ↔ as_attribute k = true.
Proof.
  rewrite /as_attribute /recognised /field_name_to_tag /attribute_of_key.
  repeat (case_decide; [subst; vm_compute; split; try done; try (by intros []); try (by eexists)|]).
  rewrite fmap_is_Some. change CUSTOM_PREFIX with "x-amz-meta-".
  repeat case_decide; try (subst; vm_compute; split; try done; by intros []).
  destruct (strip_prefix _ k); simpl; rewrite ?bool_decide_eq_true; split; try done; by intros [].
Qed.

Section guarantees.
Context `{RawBackendLaws, Crc32c, HashMapOrderLaws, ObjectPath, Chrono}.

(** Metadata through attributes.  Metadata written to an S3-like shard goes
    through its encoding into attributes; read back it is the original map
    without the keys the encoding has no entry for, and without [expires] and
    [etag], which have an entry but no attribute. *)
Theorem attributes_keep_metadata (meta : gmap string string) md :
  map_Forall (λ k v, is_str k ∧ is_str v) meta → encode_metadata meta = Ok md →
  attributes_to_meta (meta_to_attributes (decode_metadata md)) = filter (λ '(k, _), as_attribute k = true) meta.
Proof.
  intros Hstr Henc. rewrite (decode_encoded meta md Hstr Henc) attributes_kept map_filter_filter.
  apply map_filter_ext. intros k v _. rewrite attribute_recognised /as_attribute andb_true_iff. tauto.
Qed.

(** C9: Metadata follows its object where the shards keep it as it is.  A put
    with metadata that returns has placed the object on at least [min_writes]
    distinct shards: a raw shard has the metadata with the body, one with
    sidecars has it in the sidecar when there is any; of an S3-like shard only
    the body is claimed, since its attributes keep a part of the metadata.  A
    failed put leaves the catalog as it was.  When none of the shards is
    S3-like, and none has sidecars if the metadata is empty (an older sidecar
    stays then), the metadata read back after the put, from whichever replica
    answers, is what was put. *)
Theorem metadata_follows_object now rr k d md c c1 res :
  cluster_ok c → registry_ok c rr → put_input now k d md → put_with_meta now rr k d md c = (c1, res) →
  match res with
  | Ok _ =>
      ∃ placed, NoDup placed ∧ (min_writes c <= length placed)%nat ∧
        entries (catalog c1) !! k = Some (mkPlacement placed (zlen d) (Some (crc32c d)) now (zlen md mod 2 ^ 16)) ∧
        (∀ id, id ∈ placed → kept c1 rr id k d md) ∧
        ((∀ id, id ∈ placed → verbatim rr md id) → ∀ c2 b, get_metadata rr k c1 = (c2, Ok b) → b = md)
  | Err _ => catalog c1 = catalog c
  | Panic => False
  end.
Proof.
  intros Hok Hr Hin Hput. pose proof (put_with_meta_run now rr k d md c Hok Hr Hin) as Hp. rewrite Hput in Hp.
  destruct Hp as [Ht Hres]. destruct res as [u|e|]; [|done..].
  destruct Hres as (Hr1 & placed & Hmin & He & Hnd & Hall). exists placed. split_and!; [done..|]. intros Hv c2 b Hget.
  apply (get_metadata_kept rr k d md c1 c2 b placed); try done; [by eapply tc_ok|apply Hin..|by rewrite He|].
  intros id Hid. split; [by apply Hall|by apply Hv].
Qed.
End guarantees.

(** ** Examples *)

(** Raw shards 0 and 2, and between them one with sidecars. *)
Definition mixed_registry : RawRefRegistry := mkRawRefs [Some 0%nat; None; Some 2%nat] [Raw; Sidecar; Raw].
Definition mixed_cluster : ShardedObjectStore := mem_cluster 3 3 no_faults.

Lemma mixed_registry_ok : registry_ok mixed_cluster mixed_registry.
Proof.
  split.
  - intros [|[|[|id]]] a; by vm_compute.
  - intros [|[|[|id]]] a Ha; vm_compute in Ha; simplify_eq; eexists; (split; [by vm_compute|done]).
  - intros [|[|[|id]]] a [|[|[|id']]] Ha Hs; vm_compute in Ha; simplify_eq; by vm_compute in Hs.
Qed.

Lemma put_input_a d md : put_input 100 "a" d md.
Proof. by split. Qed.

Definition text_plain : list byte := match encode_metadata {["content-type" := "text/plain"]} with Ok b => b | _ => [] end.
Definition body_m : list byte := as_bytes "body".

Definition with_plain : ShardedObjectStore :=
  fst (put_with_meta 100 mixed_registry "a" body_m text_plain mixed_cluster).

Lemma metadata_follows_object_witness :
  snd (put_with_meta 100 mixed_registry "a" body_m text_plain mixed_cluster) = Ok tt ∧
  snd (get_metadata mixed_registry "a" with_plain) = Ok text_plain ∧ text_plain ≠ [] ∧
  ∃ placed, (1 <= length placed)%nat ∧ (∀ id, id ∈ placed → kept with_plain mixed_registry id "a" body_m text_plain) ∧
    ∀ c2 b, get_metadata mixed_registry "a" with_plain = (c2, Ok b) → b = text_plain.
Proof.
  assert (snd (put_with_meta 100 mixed_registry "a" body_m text_plain mixed_cluster) = Ok tt) as Hr by (by vm_compute).
  split; [exact Hr|]. split; [by vm_compute|]. split; [by vm_compute|].
  destruct (metadata_follows_object 100 mixed_registry "a" body_m text_plain mixed_cluster with_plain (Ok tt))
    as (placed & _ & Hn & _ & Hall & Hback).
  - apply mem_cluster_ok.
  - exact mixed_registry_ok.
  - apply put_input_a.
  - rewrite <- Hr. exact (surjective_pairing _).
  - exists placed. split; [|split; [exact Hall|]].
    + etransitivity; [|exact Hn]. by apply (bool_decide_eq_true_1 _); vm_compute.
    + apply Hback. intros id _. destruct id as [|[|[|id]]]; split; by vm_compute.
Defined.

Lemma attributes_keep_metadata_witness : ∃ md, encode_metadata sample_metadata = Ok md ∧
  attributes_to_meta (meta_to_attributes (decode_metadata md)) =
    filter (λ '(k, _), as_attribute k = true) sample_metadata ∧ as_attribute "etag" = false.
Proof.
  destruct (encode_metadata sample_metadata) as [md|e|] eqn:He; [|by vm_compute in He..].
  exists md. split; [done|]. split; [|done]. refine (attributes_keep_metadata sample_metadata md _ He).
  repeat (apply map_Forall_insert_2; [by split|]). apply map_Forall_empty.
Defined.

(** ** Two histories *)

Definition sidecar_registry : RawRefRegistry := mkRawRefs [None; None] [Sidecar; Sidecar].
Definition sidecar_cluster : ShardedObjectStore := mem_cluster 2 2 no_faults.

(** Stale metadata.  Overwriting an object without metadata, by a put that
    returns success, leaves the sidecar of the old one in place on the shards
    that keep sidecars: the metadata read back is the old object's, although
    the catalog records none. *)
Theorem stale_sidecar :
  let '(c1, r1) := put_with_meta 100 sidecar_registry "a" body_m text_plain sidecar_cluster in
  let '(c2, r2) := put_with_meta 200 sidecar_registry "a" (as_bytes "new") [] c1 in
  r1 = Ok tt ∧ r2 = Ok tt ∧ pe_meta_len <$> entries (catalog c2) !! "a" = Some 0 ∧
  snd (get_metadata sidecar_registry "a" c2) = Ok text_plain.
Proof. by vm_compute. Qed.

(** A raw shard that was missing when the registry was built. *)
Definition late_registry : RawRefRegistry := mkRawRefs [None] [Raw].

(** The registry is fixed, so once a store is attached the shard takes plain
    puts, but reading metadata reaches the [unreachable!()] of its branch. *)
Lemma late_raw_panics :
  let '(c1, r1) := put 100 "a" body_m (mem_cluster 1 1 no_faults) in
  r1 = Ok (mkPutResult None None) ∧ snd (get_metadata late_registry "a" c1) = Panic.
Proof. by vm_compute. Qed.
