(* ===== verification/ClusterAdmin.v ===== *)
(** * The sharded store: maintenance ([shardedobjstr/src/lib.rs] 720-1140, 1430-2390)

    Rebuilding the catalog from the shards, invalidating and attaching a
    shard, moving single replicas, the deferred read repairs, verification,
    the registry of multipart uploads and the persistence of the catalog. *)

From S2P Require Import Prelude.
From S2P Require Import Config.
From S2P Require Import Extent.
From S2P Require Import Index.
From S2P Require Import StoreTools.
From S2P Require Import StoreMeta.
From S2P Require Import Tlv.
From S2P Require Import Catalog.
From S2P Require Import JumpHash.
From S2P Require Import Backend.
From S2P Require Import Cluster.
From S2P Require Import ClusterIo.
From S2P Require Import ShardMeta.

(** [md5::compute], in hexadecimal, and the order in which the registry of
    uploads is iterated over. *)
Class Md5 : Type := md5_hex : list byte → string.
Class UploadOrder : Type := upload_iter : gmap Z TrackedUpload → list (Z * TrackedUpload).
Class UploadOrderLaws `{UploadOrder} : Prop := upload_iter_perm m : upload_iter m ≡ₚ map_to_list m.

Record InvalidateReport : Type := mkInvalidate {
  ir_shard_id : nat;
  entries_purged : Z;
  entries_restored : nat;
  missing_keys : gset string;
  scan_ok : bool;
}.

Record VerifyReplicaResult : Type := mkReplicaResult {
  vr_shard_id : nat;
  vr_crc32c : option Z;
  vr_size : option Z;
  matches_catalog : option bool;
  vr_error : option string;
}.

Record VerifyObjectReport : Type := mkVerifyObject {
  vo_key : string;
  vo_catalog_crc : option Z;
  replicas : list VerifyReplicaResult;
  replicas_consistent : bool;
}.

Record VerifyReport : Type := mkVerify {
  objects_checked : Z;
  objects_ok : Z;
  objects_mismatched : Z;
  objects_with_errors : Z;
  vf_details : list VerifyObjectReport;
}.

Record ShardObjectDigest : Type := mkDigest {
  sd_shard_id : nat;
  md5 : string;
  sd_size : Z;
  sd_last_modified : Z;
}.

Record CrossVerifyReport : Type := mkCross {
  cv_key : string;
  cv_catalog_crc : option Z;
  cv_shards : list ShardObjectDigest;
  consistent : bool;
  cv_errors : list (nat * string);
}.

Record CrossVerifyAllReport : Type := mkCrossAll {
  ca_objects_checked : Z;
  ca_objects_ok : Z;
  ca_objects_mismatched : Z;
  ca_objects_with_errors : Z;
  objects_skipped_single_replica : Z;
  ca_details : list CrossVerifyReport;
}.

Section admin.
Context `{ObjectBackend, Crc32c, HashMapOrder, ObjectPath, Chrono}.
Implicit Types (c : ShardedObjectStore) (rr : RawRefRegistry).

(** ** Settings *)

Definition set_event_bus (bus : list StoreEvent) c : ShardedObjectStore :=
  mkCluster (heap c) (shards c) (catalog c) (factor c) (persistence c) (read_counter c) (read_preference c) (Some bus) (read_only c)
    (multipart_uploads c) (next_upload_id c) (multipart_expiry c) (read_repair_count c) (read_repair_success c) (read_repair_failed c) (min_writes c)
    (delete_requires_min_writes c) (raw_refs c) (vacuum_in_progress c) (repairs c).
Definition set_raw_refs (rr : RawRefRegistry) c : ShardedObjectStore :=
  mkCluster (heap c) (shards c) (catalog c) (factor c) (persistence c) (read_counter c) (read_preference c) (event_bus c) (read_only c)
    (multipart_uploads c) (next_upload_id c) (multipart_expiry c) (read_repair_count c) (read_repair_success c) (read_repair_failed c) (min_writes c)
    (delete_requires_min_writes c) (Some rr) (vacuum_in_progress c) (repairs c).
Definition set_read_preference (pref : ReadPreference) c : ShardedObjectStore :=
  mkCluster (heap c) (shards c) (catalog c) (factor c) (persistence c) (read_counter c) pref (event_bus c) (read_only c)
    (multipart_uploads c) (next_upload_id c) (multipart_expiry c) (read_repair_count c) (read_repair_success c) (read_repair_failed c) (min_writes c)
    (delete_requires_min_writes c) (raw_refs c) (vacuum_in_progress c) (repairs c).
Definition set_persistence (p : CatalogPersistence) c : ShardedObjectStore :=
  mkCluster (heap c) (shards c) (catalog c) (factor c) p (read_counter c) (read_preference c) (event_bus c) (read_only c)
    (multipart_uploads c) (next_upload_id c) (multipart_expiry c) (read_repair_count c) (read_repair_success c) (read_repair_failed c) (min_writes c)
    (delete_requires_min_writes c) (raw_refs c) (vacuum_in_progress c) (repairs c).
Definition with_read_only (b : bool) c : ShardedObjectStore :=
  mkCluster (heap c) (shards c) (catalog c) (factor c) (persistence c) (read_counter c) (read_preference c) (event_bus c) b
    (multipart_uploads c) (next_upload_id c) (multipart_expiry c) (read_repair_count c) (read_repair_success c) (read_repair_failed c) (min_writes c)
    (delete_requires_min_writes c) (raw_refs c) (vacuum_in_progress c) (repairs c).
Definition with_multipart_expiry (expiry : Z) c : ShardedObjectStore :=
  mkCluster (heap c) (shards c) (catalog c) (factor c) (persistence c) (read_counter c) (read_preference c) (event_bus c) (read_only c)
    (multipart_uploads c) (next_upload_id c) expiry (read_repair_count c) (read_repair_success c) (read_repair_failed c) (min_writes c)
    (delete_requires_min_writes c) (raw_refs c) (vacuum_in_progress c) (repairs c).
Definition with_delete_requires_min_writes (enabled : bool) c : ShardedObjectStore :=
  mkCluster (heap c) (shards c) (catalog c) (factor c) (persistence c) (read_counter c) (read_preference c) (event_bus c) (read_only c)
    (multipart_uploads c) (next_upload_id c) (multipart_expiry c) (read_repair_count c) (read_repair_success c) (read_repair_failed c) (min_writes c)
    enabled (raw_refs c) (vacuum_in_progress c) (repairs c).

(** ** Rebuilding the catalog *)

(** The objects of one shard with their metadata lengths. *)
Definition scan_shard (id : nat) (r : StoreRef) : CM (list (ObjectMeta * Z)) :=
  c <- sm_get ;;
  match raw_of (raw_refs c) id with
  | Some a => λ c, (c, match heap c !! a with Some b => Ok (raw_list_with_meta None b) | None => Panic end)
  | None => objects <- ask_store r (store_list None) ;; sm_ret ((λ m, (m, 0)) <$> objects)
  end.

Definition is_sidecar_key (key : string) : bool := ends_with ".__meta__" key.

(** [if ml > entry.meta_len { entry.meta_len = ml }] *)
Definition raise_meta_len (ml : Z) (e : PlacementEntry) : PlacementEntry :=
  if pe_meta_len e <? ml then mkPlacement (pe_shards e) (pe_size e) (pe_crc32c e) (pe_updated e) ml else e.

(** One object of a scan into the new map, and the count. *)
Definition rebuild_step (id : nat) (acc : gmap string PlacementEntry * nat) (item : ObjectMeta * Z) :
    gmap string PlacementEntry * nat :=
  let '(m, total) := acc in
  let '(meta, ml) := item in
  let key := om_location meta in
  if is_sidecar_key key then acc
  else
    let e := default (mkPlacement [] (om_size meta) None (om_last_modified meta) ml) (m !! key) in
    (<[key := push_shard id (raise_meta_len ml e)]> m, S total).

(** One shard's scan; a shard that could not be listed adds nothing. *)
Definition rebuild_shard (acc : gmap string PlacementEntry * nat) (outcome : nat * (Error + list (ObjectMeta * Z))) :
    gmap string PlacementEntry * nat :=
  match outcome with
  | (id, inr objects) => foldl (rebuild_step id) acc objects
  | (_, inl _) => acc
  end.

Definition rebuild_catalog : CM nat :=
  c <- sm_get ;;
  results <- fan_out scan_shard (stores_of c (filter (λ id, shard_is reachable c id = true) (all_shards c))) ;;
  let '(new_map, total) := foldl rebuild_shard (∅, O) results in
  sm_modify (on_catalog (λ k, clear_dirty (cat_replace new_map k))) ;;;
  sm_ret total.

Definition add_found (now : Z) (id : nat) (k : Catalog) (item : ObjectMeta * Z) : Catalog :=
  add_replica now (om_location item.1) id (om_size item.1) item.2 k.

Definition rebuild_catalog_for_shard (now : Z) (id : nat) : CM nat :=
  c <- sm_get ;;
  match shard_store c id with
  | None => sm_err (Generic NoShards)
  | Some r =>
    sm_modify (on_catalog (λ k, (remove_all_for_shard id k).1)) ;;;
    items <- scan_shard id r ;;
    let found := match raw_of (raw_refs c) id with
                 | Some _ => items
                 | None => filter (λ item, is_sidecar_key (om_location item.1) = false) items
                 end in
    sm_modify (on_catalog (λ k, foldl (add_found now id) k found)) ;;;
    sm_ret (length found)
  end.

Definition shard_keys (id : nat) (k : Catalog) : gset string := list_to_set (entries_for_shard id k).*1.

Definition invalidate_shard (now : Z) (id : nat) : CM InvalidateReport :=
  c <- sm_get ;;
  if decide (length (shards c) <= id)%nat then sm_err (Generic NoShards)
  else
    sm_modify (on_shard id (with_health Degraded)) ;;;
    let old_keys := shard_keys id (catalog c) in
    purged <- sm_apply (λ c, let '(k, n) := remove_all_for_shard id (catalog c) in (with_catalog k c, n)) ;;
    scan <- sm_try (rebuild_catalog_for_shard now id) ;;
    c' <- sm_get ;;
    let missing := old_keys ∖ shard_keys id (catalog c') in
    match scan with
    | inr n =>
      sm_modify (on_shard id (λ s, with_since None (with_health Healthy s))) ;;;
      sm_ret (mkInvalidate id purged n missing true)
    | inl _ => sm_ret (mkInvalidate id purged 0 missing false)
    end.

Definition attach_slot (r : StoreRef) (s : ShardInfo) : ShardInfo :=
  with_hold None false (with_since None (with_health Syncing (with_store r u64_max s))).

Definition attach_shard (now : Z) (id : nat) (r : StoreRef) (force : bool) : CM nat :=
  c <- sm_get ;;
  if decide (length (shards c) <= id)%nat then sm_err (Generic NoShards)
  else
    sm_modify (on_shard id (attach_slot r)) ;;;
    result <- sm_try (if force then rebuild_catalog_for_shard now id
                      else report <- invalidate_shard now id ;; sm_ret (entries_restored report)) ;;
    match result with
    | inr n => sm_modify (on_shard id (with_health Healthy)) ;;; sm_ret n
    | inl e => sm_modify (on_shard id (λ s, with_since (Some now) (with_health Offline s))) ;;; sm_err e
    end.

(** ** One replica *)

(** A write that carries the metadata when there is some and a registry. *)
Definition write_copy (now : Z) (refs : option RawRefRegistry) (id : nat) (r : StoreRef) (path : string)
    (data : list byte) (meta_bytes : list byte) : CM unit :=
  match refs with
  | Some rr => if decide (meta_bytes = []) then plain_put now r path data
               else write_with_meta_to_shard now rr id r path data meta_bytes
  | None => plain_put now r path data
  end.

(** What a shard has: the body and the metadata. *)
Definition read_copy (refs : option RawRefRegistry) (id : nat) (r : StoreRef) (path : string) :
    CM (list byte * list byte) :=
  g <- ask_store r (store_get path) ;;
  data <- ask_store r (got_bytes g) ;;
  meta <- match refs with
          | Some rr => read_metadata_from_shard r id path (got_attributes g) rr
          | None => sm_ret None
          end ;;
  sm_ret (data, default [] meta).

Definition replicate_object (now : Z) (key : string) (from_shard to_shard : nat) (refs : option RawRefRegistry) :
    CM Z :=
  c <- sm_get ;;
  match shard_store c from_shard, shard_store c to_shard with
  | Some from, Some to =>
    let path := path_from key in
    read <- read_copy refs from_shard from path ;;
    let '(data, meta_bytes) := read in
    write_copy now refs to_shard to path data meta_bytes ;;;
    sm_modify (on_catalog (add_replica now key to_shard (zlen data) (zlen meta_bytes mod 2 ^ 16))) ;;;
    sm_ret (zlen data)
  | _, _ => sm_err (Generic NoShards)
  end.

Definition remove_replica (key : string) (id : nat) : CM unit :=
  c <- sm_get ;;
  match shard_store c id with
  | None => sm_err (Generic NoShards)
  | Some r =>
    let path := path_from key in
    cleanup_sidecar_maybe path (raw_refs c) id r ;;;
    on_store r (store_delete path) ;;;
    sm_modify (on_catalog (remove_shard key id))
  end.

(** ** Read repair *)

Definition count_repair (ok : bool) c : ShardedObjectStore :=
  let bump n := (n + 1) mod two64 in
  with_repairs (read_repair_count c) (if ok then bump (read_repair_success c) else read_repair_success c)
    (if ok then read_repair_failed c else bump (read_repair_failed c)) (repairs c) c.

(** The body of a spawned task. *)
Definition run_repair (now : Z) (t : RepairTask) : CM unit :=
  let path := path_from (rt_key t) in
  outcome <- sm_try (
    read <- read_copy (rt_raw_refs t) (rt_good_shard t) (rt_good t) path ;;
    let '(data, meta_bytes) := read in
    write_copy now (rt_raw_refs t) (rt_bad_shard t) (rt_bad t) path data meta_bytes ;;;
    sm_ret (data, meta_bytes)) ;;
  match outcome with
  | inr (data, meta_bytes) =>
    sm_modify (on_catalog (add_replica now (rt_key t) (rt_bad_shard t) (zlen data) (zlen meta_bytes mod 2 ^ 16))) ;;;
    sm_modify (count_repair true)
  | inl _ => sm_modify (count_repair false)
  end.

Definition set_tasks (l : list RepairTask) c : ShardedObjectStore :=
  with_repairs (read_repair_count c) (read_repair_success c) (read_repair_failed c) l c.

(** The scheduler runs one of the spawned tasks. *)
Definition run_repair_at (now : Z) (i : nat) : CM unit :=
  c <- sm_get ;;
  match repairs c !! i with
  | None => sm_ret tt
  | Some t => sm_modify (set_tasks (base.delete i (repairs c))) ;;; run_repair now t
  end.

(** ** Metadata of a source object *)

Definition read_object_metadata (location : string) (attributes : Attributes) : CM (list byte) :=
  c <- sm_get ;;
  match raw_refs c with
  | None => sm_ret []
  | Some rr =>
    let skip := match entries (catalog c) !! location with
                | Some e => (pe_meta_len e =? 0) && negb (existsb (λ id, bool_decide (kind rr id = S3Like)) (pe_shards e))
                | None => false
                end in
    if skip then sm_ret []
    else
      o <- sm_try (get_metadata rr location) ;;
      match o with
      | inr b => sm_ret b
      | inl _ =>
        let meta_map := attributes_to_meta attributes in
        if decide (meta_map = ∅) then sm_ret []
        else sm_ret match encode_metadata meta_map with Ok b => b | _ => [] end
      end
  end.

(** ** Verification *)

Definition read_body c (r : StoreRef) (path : string) : Res Error (list byte) :=
  ((g <- ask_store r (store_get path) ;; ask_store r (got_bytes g)) c).2.

Definition verify_replica c (catalog_crc : option Z) (path : string) (s : nat * StoreRef) :
    Res Error VerifyReplicaResult :=
  match read_body c s.2 path with
  | Ok data =>
    let crc := crc32c data in
    Ok (mkReplicaResult s.1 (Some crc) (Some (zlen data)) ((λ k, k =? crc) <$> catalog_crc) None)
  | Err e => Ok (mkReplicaResult s.1 None None None (Some (error_to_string e)))
  | Panic => Panic
  end.

(** [windows(2).all(|w| w[0] == w[1])] *)
Fixpoint all_equal {A} `{EqDecision A} (l : list A) : bool :=
  match l with
  | x :: (y :: _) as l' => bool_decide (x = y) && all_equal l'
  | _ => true
  end.

Definition verify_object c (key : string) : Res Error VerifyObjectReport :=
  match entries (catalog c) !! key with
  | None => Err (Generic (SNotFound key))
  | Some e =>
    reports ← mapM (verify_replica c (pe_crc32c e) (path_from key)) (stores_of c (pe_shards e));
    Ok (mkVerifyObject key (pe_crc32c e) reports (all_equal (omap vr_crc32c reports)))
  end.

Definition has_mismatch (r : VerifyObjectReport) : bool :=
  negb (replicas_consistent r) || existsb (λ x, bool_decide (matches_catalog x = Some false)) (replicas r).
Definition has_errors (r : VerifyObjectReport) : bool := existsb (λ x, bool_decide (vr_error x ≠ None)) (replicas r).

Definition count_object (acc : VerifyReport) (r : Error + VerifyObjectReport) : VerifyReport :=
  let checked := objects_checked acc + 1 in
  match r with
  | inr o =>
    if has_mismatch o
    then mkVerify checked (objects_ok acc) (objects_mismatched acc + 1) (objects_with_errors acc) (vf_details acc ++ [o])
    else if has_errors o
    then mkVerify checked (objects_ok acc) (objects_mismatched acc) (objects_with_errors acc + 1) (vf_details acc ++ [o])
    else mkVerify checked (objects_ok acc + 1) (objects_mismatched acc) (objects_with_errors acc) (vf_details acc)
  | inl _ => mkVerify checked (objects_ok acc) (objects_mismatched acc) (objects_with_errors acc + 1) (vf_details acc)
  end.

Definition as_value {E A} (r : Res E A) : Res E (E + A) :=
  match r with Ok a => Ok (inr a) | Err e => Ok (inl e) | Panic => Panic end.

Definition keys_under c (prefix : option string) : list (string * PlacementEntry) :=
  filter (λ '(k, _), has_prefix prefix k = true) (hm_iter (entries (catalog c))).

Definition verify_all c (prefix : option string) : Res Error VerifyReport :=
  results ← mapM (λ key, as_value (verify_object c key)) (keys_under c prefix).*1;
  Ok (foldl count_object (mkVerify 0 0 0 0 []) results).

(** ** Verification by digest *)

Context `{Md5}.

Definition quote : Ascii.ascii := Ascii.ascii_of_nat 34.

Fixpoint trim_quote (s : string) : string :=
  match s with
  | String a s' => if decide (a = quote) then trim_quote s' else s
  | EmptyString => s
  end.

(** [trim_start_matches("W/")] *)
Fixpoint trim_weak (fuel : nat) (s : string) : string :=
  match fuel with
  | O => s
  | S fuel' => match strip_prefix "W/" s with Some s' => trim_weak fuel' s' | None => s end
  end.

Definition etag_hex (etag : string) : string :=
  String.rev (trim_quote (String.rev (trim_quote (trim_weak (String.length etag) etag)))).

Definition is_hexdigit (a : Ascii.ascii) : bool :=
  let n := Ascii.nat_of_ascii a in
  ((48 <=? n) && (n <=? 57) || (65 <=? n) && (n <=? 70) || (97 <=? n) && (n <=? 102))%nat.

Definition plain_md5 (hex : string) : bool :=
  (String.length hex =? 32)%nat && forallb is_hexdigit (String.list_ascii_of_string hex).

Definition body_digest c (id : nat) (r : StoreRef) (path : string) : Res Error ((nat * string) + ShardObjectDigest) :=
  match (ask_store r (store_get path) c).2 with
  | Ok g =>
    match (ask_store r (got_bytes g) c).2 with
    | Ok data => Ok (inr (mkDigest id (md5_hex data) (zlen data) (om_last_modified (got_meta g))))
    | Err e => Ok (inl (id, "body read failed: " +:+ error_to_string e))
    | Panic => Panic
    end
  | Err e => Ok (inl (id, "get failed: " +:+ error_to_string e))
  | Panic => Panic
  end.

Definition get_shard_md5 c (key : string) (s : nat * StoreRef) : Res Error ((nat * string) + ShardObjectDigest) :=
  let '(id, r) := s in
  let path := path_from key in
  match (ask_store r (λ b, m ← store_head path b; Ok (m, store_e_tag path b)) c).2 with
  | Ok (meta, etag) =>
    match etag with
    | Some etag =>
      let hex := etag_hex etag in
      if plain_md5 hex then Ok (inr (mkDigest id hex (om_size meta) (om_last_modified meta)))
      else body_digest c id r path
    | None => body_digest c id r path
    end
  | Err e => Ok (inl (id, "head failed: " +:+ error_to_string e))
  | Panic => Panic
  end.

Definition cross_verify_object c (key : string) : Res Error CrossVerifyReport :=
  match entries (catalog c) !! key with
  | None => Err (Generic (SNotFound key))
  | Some e =>
    let stores := stores_of c (pe_shards e) in
    if decide (length stores < 2)%nat then Err (Generic (AllReplicasFailed key))
    else
      outcomes ← mapM (get_shard_md5 c key) stores;
      let digests := omap (λ o : (nat * string) + ShardObjectDigest, match o with inr d => Some d | inl _ => None end) outcomes in
      let errors := omap (λ o : (nat * string) + ShardObjectDigest, match o with inl x => Some x | inr _ => None end) outcomes in
      let consistent :=
        if decide (length digests < 2)%nat
        then bool_decide (length digests <= 1)%nat && bool_decide (errors = [])
        else all_equal (md5 <$> digests) in
      Ok (mkCross key (pe_crc32c e) digests consistent errors)
  end.

Definition count_cross (acc : CrossVerifyAllReport) (r : Error + CrossVerifyReport) : CrossVerifyAllReport :=
  let '(mkCrossAll checked ok mismatched errors skipped details) := acc in
  match r with
  | inr o =>
    if negb (consistent o) then mkCrossAll (checked + 1) ok (mismatched + 1) errors skipped (details ++ [o])
    else if decide (cv_errors o ≠ []) then mkCrossAll (checked + 1) ok mismatched (errors + 1) skipped (details ++ [o])
    else mkCrossAll (checked + 1) (ok + 1) mismatched errors skipped details
  | inl _ => mkCrossAll (checked + 1) ok mismatched (errors + 1) skipped details
  end.

Definition cross_verify_all c (prefix : option string) : Res Error CrossVerifyAllReport :=
  let keys := keys_under c prefix in
  let multi := filter (λ '(_, e), (2 <= length (pe_shards e))%nat) keys in
  results ← mapM (λ key, as_value (cross_verify_object c key)) multi.*1;
  Ok (foldl count_cross (mkCrossAll 0 0 0 0 (zlen keys - zlen multi) []) results).

(** ** The registry of multipart uploads *)

(** Instants are nanoseconds, the expiry is in seconds. *)
Definition NANOS : Z := 10 ^ 9.

Definition register_multipart (instant : Z) (location : string) (primary : nat) c : ShardedObjectStore * Z :=
  let id := next_upload_id c in
  (with_uploads (<[id := mkTracked location instant primary]> (multipart_uploads c)) ((id + 1) mod two64) c, id).

Definition deregister_multipart (id : Z) c : ShardedObjectStore :=
  with_uploads (base.delete id (multipart_uploads c)) (next_upload_id c) c.

Context `{UploadOrder}.

Definition list_multipart_uploads (instant : Z) c : list (Z * string * Z * nat) :=
  (λ '(id, u), (id, tu_location u, sat_sub instant (tu_created_at u) / NANOS, tu_primary u)) <$>
  upload_iter (multipart_uploads c).

Definition is_stale (instant : Z) c (u : TrackedUpload) : bool :=
  multipart_expiry c * NANOS <? sat_sub instant (tu_created_at u).

Definition purge_one (id : Z) (u : TrackedUpload) : CM unit :=
  c <- sm_get ;;
  match shard_store c (tu_primary u) with
  | Some r => sm_ignore (F := Error) (on_store r (store_delete (tu_location u)))
  | None => sm_ret tt
  end ;;;
  sm_modify (deregister_multipart id).

Fixpoint purge_each (l : list (Z * TrackedUpload)) : CM nat :=
  match l with
  | [] => sm_ret O
  | (id, u) :: l' => purge_one id u ;;; n <- purge_each l' ;; sm_ret (S n)
  end.

Definition purge_stale_multiparts (instant : Z) : CM nat :=
  c <- sm_get ;;
  purge_each (filter (λ '(_, u), is_stale instant c u = true) (upload_iter (multipart_uploads c))).

(** ** Persistence *)

Context `{CatalogCodec}.

(** The cluster and the file system. *)
Definition save_catalog : SM (ShardedObjectStore * FileSystem) IoError unit := λ '(c, fs),
  let '(fs', r) := save (persistence c) (catalog c) fs in
  match r with
  | Ok _ => ((on_catalog clear_dirty c, fs'), Ok tt)
  | Err e => ((c, fs'), Err e)
  | Panic => ((c, fs'), Panic)
  end.

Definition save_catalog_if_dirty : SM (ShardedObjectStore * FileSystem) IoError bool :=
  s <- sm_get ;;
  if negb (cat_dirty (catalog s.1)) then sm_ret false else save_catalog ;;; sm_ret true.

Definition load_catalog : SM (ShardedObjectStore * FileSystem) IoError unit := λ '(c, fs),
  match load (persistence c) fs with
  | Ok loaded => ((on_catalog (load_into loaded) c, fs), Ok tt)
  | Err e => ((c, fs), Err e)
  | Panic => ((c, fs), Panic)
  end.
End admin.
