(* ===== verification/ClusterCopy.v ===== *)
(** * The sharded store: copies and multipart uploads ([shardedobjstr/src/lib.rs] 3006-3546)

    [get_opts], the copies and renames of the [ObjectStore] trait, and
    uploads in parts: the primary shard assembles the object, which is then
    read back and written to the other targets. *)

From S2P Require Import Prelude.
From S2P Require Import Config.
From S2P Require Import Extent.
From S2P Require Import Index.
From S2P Require Import StoreTools.
From S2P Require Import StoreMeta.
From S2P Require Import Tlv.
From S2P Require Import Catalog.
From S2P Require Import JumpHash.
From S2P Require Import Backend.
From S2P Require Import Cluster.
From S2P Require Import ClusterIo.
From S2P Require Import ShardMeta.
From S2P Require Import ClusterAdmin.

Section copies.
Context `{ObjectBackend, Crc32c, HashMapOrder, ObjectPath, Chrono}.
Implicit Types (c : ShardedObjectStore) (rr : RawRefRegistry).

Definition get_opts (now : Z) (location : string) (options : get_options) : CM Got :=
  read_with_fallback now location (store_get_opts location options).

(** ** Copies *)

(** The source's bytes and attributes. *)
Definition read_source (now : Z) (from : string) : CM (list byte * Attributes) :=
  g <- get now from ;;
  data <- bytes g ;;
  sm_ret (data, got_attributes g.2).

Definition copy (now : Z) (from to : string) : CM unit :=
  c <- sm_get ;;
  if read_only c then sm_err read_only_err
  else
    source <- read_source now from ;;
    let '(data, attributes) := source in
    meta_bytes <- read_object_metadata from attributes ;;
    c <- sm_get ;;
    match (if decide (meta_bytes = []) then None else raw_refs c) with
    | Some rr => raw_call (put_with_meta now rr to data meta_bytes)
    | None => put now to data ;;; sm_ret tt
    end.

(** The end of [copy_if_not_exists], behind the reservation of [to]. *)
Definition copy_reserved (now : Z) (to : string) (data meta_bytes : list byte) (targets : list nat) : CM unit :=
  c <- sm_get ;;
  let release := on_catalog (λ k, (cat_remove to k).1) in
  match (if decide (meta_bytes = []) then None else raw_refs c) with
  | Some rr => sm_on_err (raw_call (put_with_meta now rr to data meta_bytes)) release
  | None =>
    landed <- sm_on_err (write_to_shards now to data targets) release ;;
    sm_modify (on_catalog (cat_put now to landed.2 (zlen data) (Some (crc32c data)) 0))
  end.

Definition copy_if_not_exists (now : Z) (from to : string) : CM unit :=
  c <- sm_get ;;
  if read_only c then sm_err read_only_err
  else match entries (catalog c) !! to with
  | Some _ => sm_err (ObjAlreadyExists to)
  | None =>
    source <- read_source now from ;;
    let '(data, attributes) := source in
    c <- sm_get ;;
    let targets := select_targets c to in
    inserted <- sm_apply (λ c, let '(k, b) := try_insert now to targets (zlen data) (catalog c) in
                               (with_catalog k c, b)) ;;
    if negb inserted then sm_err (ObjAlreadyExists to)
    else
      meta_bytes <- read_object_metadata from attributes ;;
      copy_reserved now to data meta_bytes targets
  end.

Definition rename_if_not_exists (now : Z) (from to : string) : CM unit :=
  copy_if_not_exists now from to ;;; delete now from.

(** ** Multipart uploads *)

Record ShardedMultipartUpload : Type := mkUpload {
  mu_location : string;
  primary_upload : upload;
  primary_shard_id : nat;
  primary_store : StoreRef;
  replica_stores : list (nat * StoreRef);
  mu_event_bus : bool;
  tracking_id : Z;
  mu_min_writes : nat;
  mu_raw_refs : option RawRefRegistry;
}.

Definition with_primary (p : upload) (u : ShardedMultipartUpload) : ShardedMultipartUpload :=
  mkUpload (mu_location u) p (primary_shard_id u) (primary_store u) (replica_stores u) (mu_event_bus u)
    (tracking_id u) (mu_min_writes u) (mu_raw_refs u).

(** An upload whose primary is the first target. *)
Definition open_upload (instant : Z) (location : string) (targets : list nat) (id : nat) (r : StoreRef) (p : upload) :
    CM ShardedMultipartUpload :=
  tid <- sm_apply (register_multipart instant location id) ;;
  c <- sm_get ;;
  sm_ret (mkUpload location p id r (stores_of c (tail targets)) (bool_decide (is_Some (event_bus c))) tid
            (min_writes c) (raw_refs c)).

(** [shards[targets[0]]]: the targets are shards of the cluster. *)
Definition primary_of c (targets : list nat) : option (nat * StoreRef) :=
  id ← targets !! 0%nat; pair id <$> shard_store c id.

Definition start_upload (instant : Z) (location : string) (targets : list nat) (id : nat) (r : StoreRef) :
    CM ShardedMultipartUpload :=
  p <- on_store r (store_put_multipart location) ;;
  open_upload instant location targets id r p.

Definition retry_upload (now instant : Z) (location : string) (failed : nat) : CM ShardedMultipartUpload :=
  sm_modify (λ c, (set_shard_health now failed Offline c).1) ;;;
  c <- sm_get ;;
  let targets := select_targets c location in
  if decide (targets = []) then sm_err (Generic NoShards)
  else match primary_of c targets with
  | None => sm_panic
  | Some (id, r) => start_upload instant location targets id r
  end.

Definition put_multipart_opts (now instant : Z) (location : string) : CM ShardedMultipartUpload :=
  c <- sm_get ;;
  if read_only c then sm_err read_only_err
  else
    let targets := select_targets c location in
    if decide (targets = []) then sm_err (Generic NoShards)
    else match primary_of c targets with
    | None => sm_panic
    | Some (id, r) =>
      started <- sm_try (on_store r (store_put_multipart location)) ;;
      match started with
      | inr p => open_upload instant location targets id r p
      | inl _ => retry_upload now instant location id
      end
    end.

(** The calls of an upload: the cluster and the handle. *)
Definition UM (A : Type) : Type := SM (ShardedObjectStore * ShardedMultipartUpload) Error A.

Definition on_cluster {A} (m : CM A) : UM A := sm_zoom fst (λ c s, (c, s.2)) m.

(** A call on the primary's own upload. *)
Definition on_primary {A} (f : upload → store → (store * upload) * Res store_error A) : UM A := λ '(c, u),
  match primary_store u with
  | Placeholder id => ((c, u), Err (NotConnected id))
  | At a =>
    match heap c !! a with
    | None => ((c, u), Panic)
    | Some b =>
      let '((b', p), r) := f (primary_upload u) b in
      ((with_heap (<[a := b']> (heap c)) c, with_primary p u), map_err FromShard r)
    end
  end.

Definition put_part (now : Z) (data : list byte) : UM unit := on_primary (upload_put_part now data).

Definition deregister : UM unit := λ '(c, u), ((deregister_multipart (tracking_id u) c, u), Ok tt).

(** The catalog entry and the event. *)
Definition record_upload (now : Z) (u : ShardedMultipartUpload) (placed : list nat) (size crc meta_len : Z) : CM unit :=
  sm_modify (on_catalog (cat_put now (mu_location u) placed size (Some crc) meta_len)) ;;;
  if mu_event_bus u then sm_modify (emit_event (EventPut (mu_location u))) else sm_ret tt.

Definition copy_to_replica (now : Z) (u : ShardedMultipartUpload) (data meta_bytes : list byte) (id : nat)
    (r : StoreRef) : CM unit :=
  write_copy now (mu_raw_refs u) id r (mu_location u) data meta_bytes.

(** [let _ = store.delete(..)] on the replicas that were written. *)
Fixpoint delete_copies (location : string) (l : list (nat * StoreRef)) : CM unit :=
  match l with
  | [] => sm_ret tt
  | (_, r) :: l' => sm_ignore (F := Error) (on_store r (store_delete location)) ;;; delete_copies location l'
  end.

(** Read the assembled object back and write it to the replicas. *)
Definition replicate_upload (now : Z) (u : ShardedMultipartUpload) : CM unit :=
  read <- read_copy (mu_raw_refs u) (primary_shard_id u) (primary_store u) (mu_location u) ;;
  let '(data, meta_bytes) := read in
  outcomes <- fan_out (copy_to_replica now u data meta_bytes) (replica_stores u) ;;
  let placed := primary_shard_id u :: placed_of outcomes in
  if decide (length placed < mu_min_writes u)%nat then
    delete_copies (mu_location u) (filter (λ '(id, _), id ∈ placed) (replica_stores u)) ;;;
    sm_ignore (F := Error) (on_store (primary_store u) (store_delete (mu_location u))) ;;;
    sm_err (Generic (InsufficientWrites (mu_location u) (mu_min_writes u) (length placed)))
  else record_upload now u placed (zlen data) (crc32c data) (zlen meta_bytes mod 2 ^ 16).

(** The checksum of a stream, chunk by chunk. *)
Fixpoint stream_crc {E} (chunks : list (Res E (list byte))) (crc : Z) : Res E Z :=
  match chunks with
  | [] => Ok crc
  | r :: chunks' => chunk ← r; stream_crc chunks' (crc32c_append crc chunk)
  end.

(** The only shard: size and checksum without the body in memory. *)
Definition catalog_upload (now : Z) (u : ShardedMultipartUpload) : CM unit :=
  g <- ask_store (primary_store u) (store_get (mu_location u)) ;;
  crc <- ask_store (primary_store u) (λ b, stream_crc (got_chunks g b) 0) ;;
  c <- sm_get ;;
  let meta_len :=
    match mu_raw_refs u with
    | Some rr =>
      match (if decide (kind rr (primary_shard_id u) = Raw) then raw_ref rr (primary_shard_id u) else None) with
      | Some a => default 0 ((λ b, zlen b mod 2 ^ 16) <$> raw_ok a (raw_get_metadata (mu_location u)) c)
      | None => 0
      end
    | None => 0
    end in
  record_upload now u [primary_shard_id u] (om_size (got_meta g)) crc meta_len.

Definition complete (now : Z) : UM PutResult :=
  primary_result <- on_primary (upload_complete now) ;;
  deregister ;;;
  s <- sm_get ;;
  on_cluster (if decide (replica_stores s.2 = []) then catalog_upload now s.2 else replicate_upload now s.2) ;;;
  sm_ret primary_result.

Definition abort : UM unit := deregister ;;; on_primary upload_abort.
End copies.
