(* ===== verification/Repair.v ===== *)
(** * Replication repair ([shardedobjstr/src/repair.rs])

    Bringing a shard back (mirror and partitioned sync), restoring and
    trimming replicas, planning that, draining a shard before its removal,
    and evening out object counts.  Shards have their real stores in
    [original_stores] while a placeholder stands for them. *)

From S2P Require Import Prelude.
From S2P Require Import Config.
From S2P Require Import Extent.
From S2P Require Import Index.
From S2P Require Import StoreTools.
From S2P Require Import StoreMeta.
From S2P Require Import Tlv.
From S2P Require Import Catalog.
From S2P Require Import JumpHash.
From S2P Require Import Backend.
From S2P Require Import Cluster.
From S2P Require Import ClusterIo.
From S2P Require Import ShardMeta.
From S2P Require Import ClusterAdmin.

Record MirrorSyncReport : Type := mkMirrorReport {
  ms_copied : nat;
  ms_deleted : nat;
  bytes_copied : Z;
  ms_updated : nat;
}.

Record RepairReplicationResult : Type := mkRepairResult {
  re_replicated : nat;
  rr_trimmed : nat;
  under_remaining : nat;
  over_remaining : nat;
}.

Inductive PlannedActionKind : Type :=
| Replicate (source_shard target_shard : nat)
| Trim (shard : nat).

Record PlannedAction : Type := mkAction {
  pa_key : string;
  current_count : nat;
  target_rf : nat;
  action : PlannedActionKind;
}.

Record RepairReplicationPlan : Type := mkPlan {
  replications : list PlannedAction;
  trims : list PlannedAction;
  unrepairable : nat;
  untrimmable : nat;
}.

Record DrainReport : Type := mkDrain {
  dr_moved : nat;
  dr_skipped : nat;
  dr_errors : nat;
  dr_deleted : nat;
  delete_errors : nat;
  dr_re_replicated : nat;
  dr_under_remaining : nat;
}.

Record RedistributeResult : Type := mkRedistribute {
  rd_moved : nat;
  rd_skipped : nat;
  rd_errors : nat;
  shard_counts : list (nat * nat);
}.

Section repair.
Context `{ObjectBackend, Crc32c, HashMapOrder, ObjectPath, Chrono}.
Implicit Types (c : ShardedObjectStore) (rr : RawRefRegistry) (refs : option RawRefRegistry).

(** [Box<dyn Error>]: a text of its own, or what a call returned. *)
Inductive SyncError : Type :=
| SyncText (msg : string)
| SyncStore (e : Error).

Definition YM (A : Type) : Type := SM ShardedObjectStore SyncError A.
Definition sync_call {A} (m : CM A) : YM A := λ c, let '(c', r) := m c in (c', map_err SyncStore r).

Definition original (stores : list (option nat)) (id : nat) : option nat := mjoin (stores !! id).

(** [raw_refs.or_else(|| cluster.raw_refs())] *)
Definition effective_refs refs c : option RawRefRegistry := match refs with Some rr => Some rr | None => raw_refs c end.

Definition healthy c (id : nat) : bool := bool_decide (shard_health c id = Some Healthy).

(** ** Mirror sync *)

Definition fetch (r : StoreRef) (location : string) : CM (list byte) :=
  g <- ask_store r (store_get location) ;; ask_store r (got_bytes g).

(** The write of a copy on a shard that is coming back. *)
Definition write_synced (now : Z) refs (target : nat) (r : StoreRef) (location : string) (data : list byte) : CM unit :=
  match refs with
  | Some rr =>
    md <- read_source_metadata rr location ;;
    write_with_meta_to_shard now rr target r location data md
  | None => plain_put now r location data
  end.

Definition sync_copy (now : Z) refs (source target_ref : StoreRef) (target : nat) (location : string) : CM unit :=
  data <- fetch source location ;; write_synced now refs target target_ref location data.

(** Missing on the target, or older or of another size there. *)
Definition mirror_one (now : Z) refs (source target_ref : StoreRef) (target : nat)
    (target_by_key : gmap string ObjectMeta) (meta : ObjectMeta) (stats : MirrorSyncReport) : CM MirrorSyncReport :=
  match target_by_key !! om_location meta with
  | None =>
    sync_copy now refs source target_ref target (om_location meta) ;;;
    sm_ret (mkMirrorReport (S (ms_copied stats)) (ms_deleted stats) (bytes_copied stats + om_size meta) (ms_updated stats))
  | Some target_meta =>
    if (om_last_modified target_meta <? om_last_modified meta) || negb (om_size meta =? om_size target_meta) then
      sync_copy now refs source target_ref target (om_location meta) ;;;
      sm_ret (mkMirrorReport (ms_copied stats) (ms_deleted stats) (bytes_copied stats + om_size meta) (S (ms_updated stats)))
    else sm_ret stats
  end.

Fixpoint mirror_copies (now : Z) refs (source target_ref : StoreRef) (target : nat)
    (target_by_key : gmap string ObjectMeta) (l : list ObjectMeta) (stats : MirrorSyncReport) : CM MirrorSyncReport :=
  match l with
  | [] => sm_ret stats
  | meta :: l' =>
    stats <- mirror_one now refs source target_ref target target_by_key meta stats ;;
    mirror_copies now refs source target_ref target target_by_key l' stats
  end.

Fixpoint mirror_deletes (target_ref : StoreRef) (source_keys : gset string) (l : list ObjectMeta)
    (stats : MirrorSyncReport) : CM MirrorSyncReport :=
  match l with
  | [] => sm_ret stats
  | meta :: l' =>
    if bool_decide (om_location meta ∈ source_keys) then mirror_deletes target_ref source_keys l' stats
    else
      on_store target_ref (store_delete (om_location meta)) ;;;
      mirror_deletes target_ref source_keys l'
        (mkMirrorReport (ms_copied stats) (S (ms_deleted stats)) (bytes_copied stats) (ms_updated stats))
  end.

(** [collect] into a [HashMap]: a later duplicate replaces an earlier one. *)
Definition by_location (l : list ObjectMeta) : gmap string ObjectMeta :=
  foldl (λ m meta, <[om_location meta := meta]> m) ∅ l.

Definition mirror_sync (now : Z) (original_stores : list (option nat)) (target : nat) refs : YM MirrorSyncReport :=
  c <- sm_get ;;
  let refs := effective_refs refs c in
  match list_find (λ id, id ≠ target ∧ healthy c id = true) (all_shards c) with
  | None => sm_err (SyncText "no healthy source shard available for mirror sync")
  | Some (_, source_shard) =>
    match shard_store c source_shard with
    | None => sm_err (SyncText "source shard store unavailable")
    | Some source =>
      match original original_stores target with
      | None => sm_err (SyncText "target shard original store unavailable")
      | Some a =>
        source_objects <- sync_call (ask_store source (store_list None)) ;;
        target_objects <- sync_call (ask_store (At a) (store_list None)) ;;
        stats <- sync_call (mirror_copies now refs source (At a) target (by_location target_objects) source_objects
                              (mkMirrorReport 0 0 0 0)) ;;
        sync_call (mirror_deletes (At a) (list_to_set (om_location <$> source_objects)) target_objects stats)
      end
    end
  end.

(** ** Partitioned sync *)

Definition healthy_source c (e : PlacementEntry) (other_than : nat) : option nat :=
  snd <$> list_find (λ id, id ≠ other_than ∧ healthy c id = true) (pe_shards e).

(** One under-replicated object; whether it was copied. *)
Definition partition_copy (now : Z) refs (target : nat) (target_ref : StoreRef) (key : string) : CM bool :=
  c <- sm_get ;;
  match (e ← entries (catalog c) !! key; source ← healthy_source c e target; shard_store c source) with
  | None => sm_ret false
  | Some source =>
    o <- sm_try (sync_copy now refs source target_ref target (path_from key)) ;;
    sm_ret match o with inr _ => true | inl _ => false end
  end.

Fixpoint partition_copies (now : Z) refs (target : nat) (target_ref : StoreRef) (keys : list string) : CM nat :=
  match keys with
  | [] => sm_ret O
  | key :: keys' =>
    b <- partition_copy now refs target target_ref key ;;
    n <- partition_copies now refs target target_ref keys' ;;
    sm_ret (if b then S n else n)
  end.

(** Objects the markers say were deleted meanwhile. *)
Fixpoint replay_markers (target_ref : StoreRef) (markers : list (string * Z)) : CM unit :=
  match markers with
  | [] => sm_ret tt
  | (key, deleted_at) :: markers' =>
    let path := path_from key in
    o <- sm_try (ask_store target_ref (store_head path)) ;;
    match o with
    | inr meta =>
      if om_last_modified meta <=? deleted_at
      then sm_ignore (F := Error) (on_store target_ref (store_delete path))
      else sm_ret tt
    | inl _ => sm_ret tt
    end ;;;
    replay_markers target_ref markers'
  end.

(** [let _ = target_store.delete(..)] *)
Definition drop_object (r : StoreRef) (location : string) : CM unit :=
  sm_ignore (F := Error) (on_store r (store_delete location)).

(** The current version of an object the target has an older one of: a source
    that cannot be read loses the target its copy, one whose body cannot be
    read does not. *)
Definition refresh_stale (now : Z) refs (target : nat) (target_ref source : StoreRef) (location : string) : CM unit :=
  o <- sm_try (ask_store source (store_get location)) ;;
  match o with
  | inr g =>
    body <- sm_try (ask_store source (got_bytes g)) ;;
    match body with
    | inr data => sm_ignore (write_synced now refs target target_ref location data)
    | inl _ => sm_ret tt
    end
  | inl _ => drop_object target_ref location
  end.

Definition update_stale (now : Z) refs (target : nat) (target_ref : StoreRef) (meta : ObjectMeta) : CM unit :=
  let key := om_location meta in
  if is_delete_marker key then sm_ret tt
  else
    c <- sm_get ;;
    match entries (catalog c) !! key with
    | None => drop_object target_ref key
    | Some e =>
      if om_last_modified meta <? pe_updated e then
        match healthy_source c e target with
        | Some id =>
          match shard_store c id with
          | Some source => refresh_stale now refs target target_ref source key
          | None => sm_ret tt
          end
        | None => drop_object target_ref key
        end
      else sm_ret tt
    end.

Definition marker_time (data : list byte) : option Z :=
  if utf8_valid data then parse_rfc3339 (String.string_of_list_byte data) else None.

(** A marker on the target: vacuumed from the cluster, or older than a live
    object. *)
Definition clean_marker (now : Z) (target_ref : StoreRef) (meta : ObjectMeta) : CM unit :=
  let key := om_location meta in
  match strip_prefix DELETE_MARKER_PREFIX key with
  | None => sm_ret tt
  | Some original_key =>
    o <- sm_try (fetch target_ref key) ;;
    match (match o with inr data => marker_time data | inl _ => None end) with
    | None => sm_ret tt
    | Some deleted_at =>
      marker <- get_delete_marker now original_key ;;
      match marker with
      | None => drop_object target_ref key
      | Some _ =>
        live <- sm_try (head now (path_from original_key)) ;;
        match live with
        | inr live_meta =>
          if deleted_at <? om_last_modified live_meta then drop_object target_ref key else sm_ret tt
        | inl _ => sm_ret tt
        end
      end
    end
  end.

Fixpoint for_each {A E} (f : A → SM ShardedObjectStore E unit) (l : list A) : SM ShardedObjectStore E unit :=
  match l with
  | [] => sm_ret tt
  | x :: l' => f x ;;; for_each f l'
  end.

Definition partitioned_sync (now : Z) (original_stores : list (option nat)) (target : nat) refs : YM nat :=
  c <- sm_get ;;
  match original original_stores target with
  | None => sm_err (SyncText "target shard original store unavailable")
  | Some a =>
    sync_call (
      replicated <- partition_copies now (effective_refs refs c) target (At a) (find_under_replicated c).*1 ;;
      markers <- list_delete_markers now ;;
      replay_markers (At a) markers ;;;
      listed <- sm_try (ask_store (At a) (store_list None)) ;;
      let target_objects := match listed with inr l => l | inl _ => [] end in
      for_each (update_stale now refs target (At a)) target_objects ;;;
      for_each (clean_marker now (At a)) target_objects ;;;
      sm_ret replicated)
  end.

(** ** Bringing a shard back *)

Definition set_health (now : Z) (id : nat) (h : ShardHealth) {E} : SM ShardedObjectStore E unit :=
  sm_modify (λ c, (set_shard_health now id h c).1).

Definition sync_and_reattach (now : Z) (original_stores : list (option nat)) (id : nat) refs : CM unit :=
  set_health now id Syncing ;;;
  c <- sm_get ;;
  let is_mirror := bool_decide (factor c = length (shards c)) in
  synced <- (if is_mirror
             then o <- sm_try (mirror_sync now original_stores id refs) ;;
                  sm_ret match o with inr _ => true | inl _ => false end
             else o <- sm_try (partitioned_sync now original_stores id refs) ;;
                  sm_ret match o with inr _ => true | inl _ => false end) ;;
  if negb synced then set_health now id Offline
  else match original original_stores id with
  | None => set_health now id Offline
  | Some a =>
    o <- sm_try (attach_shard now id (At a) true) ;;
    match o with inr _ => sm_ret tt | inl _ => set_health now id Offline end
  end.

(** ** Restoring and trimming replicas *)

Definition first_healthy c (e : PlacementEntry) : option nat :=
  snd <$> list_find (λ id, healthy c id = true) (pe_shards e).

(** The copy an under-replicated object needs, if one can be made. *)
Definition repair_step c (key : string) : option (nat * nat) :=
  e ← entries (catalog c) !! key;
  source ← first_healthy c e;
  target ← find_replication_target c key;
  Some (source, target).

(** [Iterator::take], for counts up to [usize::MAX]. *)
Definition iter_take {A} (n : Z) (l : list A) : list A := ztake (Z.min n (zlen l)) l.

(** The objects of a batch, one after the other; the copies made or removed. *)
Fixpoint count_all {A} (f : A → CM nat) (l : list A) : CM nat :=
  match l with
  | [] => sm_ret O
  | x :: l' => n <- f x ;; rest <- count_all f l' ;; sm_ret (n + rest)%nat
  end.

Definition re_replicate (now : Z) refs (key : string) : CM nat :=
  c <- sm_get ;;
  match repair_step c key with
  | Some (source, target) =>
    o <- sm_try (replicate_object now key source target refs) ;;
    sm_ret match o with inr _ => 1%nat | inl _ => O end
  | None => sm_ret O
  end.

(** A shard that calls for copies elsewhere. *)
Definition eligible (s : ShardInfo) : bool :=
  negb (suppress_replication s) && (is_unavailable (health s) || bool_decide (health s = Degraded)).

Definition re_replication_sweep (now : Z) (batch_size : Z) refs : CM nat :=
  c <- sm_get ;;
  if negb (existsb eligible (shards c)) then sm_ret O
  else count_all (re_replicate now refs) (iter_take batch_size (find_under_replicated c)).*1.

Definition trim_once (key : string) : CM nat :=
  c <- sm_get ;;
  match pick_excess_shard c key with
  | Some id => o <- sm_try (remove_replica key id) ;; sm_ret match o with inr _ => 1%nat | inl _ => O end
  | None => sm_ret O
  end.

Definition over_replication_trim (batch_size : Z) : CM nat :=
  c <- sm_get ;; count_all trim_once (iter_take batch_size (find_over_replicated c)).*1.

(** *** The full cycle *)

Definition available (s : ShardInfo) : bool := bool_decide (health s = Healthy ∨ health s = Syncing).

(** The loop on one object: a replica per iteration, until there are enough or
    none can be made. *)
Fixpoint repair_key (fuel : nat) (now : Z) refs (key : string) : CM nat :=
  match fuel with
  | O => sm_panic
  | S fuel' =>
    c <- sm_get ;;
    match entries (catalog c) !! key with
    | None => sm_ret O
    | Some e =>
      if decide (factor c <= count_shards available c e)%nat then sm_ret O
      else match repair_step c key with
      | None => sm_ret O
      | Some (source, target) =>
        o <- sm_try (replicate_object now key source target refs) ;;
        match o with
        | inr _ => n <- repair_key fuel' now refs key ;; sm_ret (S n)
        | inl _ => sm_ret O
        end
      end
    end
  end.

Fixpoint trim_key (fuel : nat) (key : string) : CM nat :=
  match fuel with
  | O => sm_panic
  | S fuel' =>
    c <- sm_get ;;
    match pick_excess_shard c key with
    | None => sm_ret O
    | Some id =>
      o <- sm_try (remove_replica key id) ;;
      match o with
      | inr _ => n <- trim_key fuel' key ;; sm_ret (S n)
      | inl _ => sm_ret O
      end
    end
  end.

(** An entry's list is as long as its loop of removals, the cluster as wide as
    the loop of copies. *)
Definition repair_one (now : Z) refs (key : string) : CM nat :=
  c <- sm_get ;; repair_key (S (length (shards c))) now refs key.
Definition trim_one (key : string) : CM nat :=
  c <- sm_get ;;
  trim_key (S match entries (catalog c) !! key with Some e => length (pe_shards e) | None => O end) key.

Definition repair_replication_sweep (now : Z) (batch_size : Z) refs : CM RepairReplicationResult :=
  c <- sm_get ;;
  re_replicated <- count_all (repair_one now refs) (iter_take batch_size (find_under_replicated c)).*1 ;;
  c <- sm_get ;;
  trimmed <- count_all trim_one (iter_take batch_size (find_over_replicated c)).*1 ;;
  c <- sm_get ;;
  sm_ret (mkRepairResult re_replicated trimmed (length (find_under_replicated c)) (length (find_over_replicated c))).

(** ** The plan *)

Definition plan_repair c (plan : RepairReplicationPlan) (item : string * nat) : RepairReplicationPlan :=
  let '(key, n) := item in
  match entries (catalog c) !! key with
  | None => plan
  | Some _ =>
    match repair_step c key with
    | None => mkPlan (replications plan) (trims plan) (S (unrepairable plan)) (untrimmable plan)
    | Some (source, target) =>
      mkPlan (replications plan ++ [mkAction key n (factor c) (Replicate source target)]) (trims plan)
        (unrepairable plan) (untrimmable plan)
    end
  end.

Definition plan_trim c (plan : RepairReplicationPlan) (item : string * nat) : RepairReplicationPlan :=
  let '(key, n) := item in
  match pick_excess_shard c key with
  | None => mkPlan (replications plan) (trims plan) (unrepairable plan) (S (untrimmable plan))
  | Some id =>
    mkPlan (replications plan) (trims plan ++ [mkAction key n (factor c) (Trim id)]) (unrepairable plan)
      (untrimmable plan)
  end.

Definition plan_repair_replication c (batch_size : Z) : RepairReplicationPlan :=
  let plan := foldl (plan_repair c) (mkPlan [] [] 0 0) (iter_take batch_size (find_under_replicated c)) in
  foldl (plan_trim c) plan (iter_take batch_size (find_over_replicated c)).

(** ** Draining *)

(** Two clusters over the same stores: the full one and the survivors. *)
Definition TwoM (A : Type) : Type := SM (ShardedObjectStore * ShardedObjectStore) Error A.
Definition on_full {A} (m : CM A) : TwoM A := λ '(c, s), let '(c', r) := m c in ((c', with_heap (heap c') s), r).
Definition on_survivors {A} (m : CM A) : TwoM A := λ '(c, s), let '(s', r) := m s in ((with_heap (heap s') c, s'), r).

Definition survivor_has_copy c (victim : nat) (key : string) : bool :=
  match entries (catalog c) !! key with
  | Some e => existsb (λ id, negb (id =? victim)%nat) (pe_shards e)
  | None => false
  end.

(** Read from the victim, write to the survivors. *)
Definition move_object (now : Z) (victim : nat) (victim_store : StoreRef) refs (location : string) : TwoM unit :=
  read <- on_full (read_copy refs victim victim_store location) ;;
  let '(data, meta_bytes) := read in
  on_survivors (
    s <- sm_get ;;
    match (if decide (meta_bytes = []) then None else raw_refs s) with
    | Some rr => raw_call (put_with_meta now rr location data meta_bytes)
    | None => put now location data ;;; sm_ret tt
    end).

(** One object; whether its copy on the victim can go. *)
Definition drain_one (now : Z) (victim : nat) (victim_store : StoreRef) refs (meta : ObjectMeta) (report : DrainReport) :
    TwoM (DrainReport * bool) :=
  s <- sm_get ;;
  if survivor_has_copy s.1 victim (om_location meta)
  then sm_ret (mkDrain (dr_moved report) (S (dr_skipped report)) (dr_errors report) 0 0 0 0, true)
  else
    o <- sm_try (move_object now victim victim_store refs (om_location meta)) ;;
    sm_ret match o with
           | inr _ => (mkDrain (S (dr_moved report)) (dr_skipped report) (dr_errors report) 0 0 0 0, true)
           | inl _ => (mkDrain (dr_moved report) (dr_skipped report) (S (dr_errors report)) 0 0 0 0, false)
           end.

Fixpoint drain_each (now : Z) (victim : nat) (victim_store : StoreRef) refs (l : list ObjectMeta) (report : DrainReport) :
    TwoM (DrainReport * list ObjectMeta) :=
  match l with
  | [] => sm_ret (report, [])
  | meta :: l' =>
    one <- drain_one now victim victim_store refs meta report ;;
    rest <- drain_each now victim victim_store refs l' one.1 ;;
    sm_ret (rest.1, if one.2 then meta :: rest.2 else rest.2)
  end.

Fixpoint drain_deletes (victim : nat) (victim_store : StoreRef) refs (l : list ObjectMeta) (report : DrainReport) :
    CM DrainReport :=
  match l with
  | [] => sm_ret report
  | meta :: l' =>
    o <- sm_try (on_store victim_store (store_delete (om_location meta))) ;;
    let report :=
      match o with
      | inr _ => mkDrain (dr_moved report) (dr_skipped report) (dr_errors report) (S (dr_deleted report)) (delete_errors report) 0 0
      | inl _ => mkDrain (dr_moved report) (dr_skipped report) (dr_errors report) (dr_deleted report) (S (delete_errors report)) 0 0
      end in
    cleanup_sidecar_maybe (om_location meta) refs victim victim_store ;;;
    drain_deletes victim victim_store refs l' report
  end.

Definition drain_shard (now : Z) (victim : nat) (victim_store : StoreRef) refs : TwoM DrainReport :=
  listed <- sm_try (on_full (ask_store victim_store (store_list None))) ;;
  let victim_files :=
    filter (λ m, is_sidecar_key (om_location m) = false) match listed with inr l => l | inl _ => [] end in
  drained <- drain_each now victim victim_store refs victim_files (mkDrain 0 0 0 0 0 0 0) ;;
  on_full (
    sm_modify (on_catalog (λ k, (remove_all_for_shard victim k).1)) ;;;
    report <- drain_deletes victim victim_store refs drained.2 drained.1 ;;
    sweep <- repair_replication_sweep now u64_max refs ;;
    sm_ret (mkDrain (dr_moved report) (dr_skipped report) (dr_errors report) (dr_deleted report) (delete_errors report)
              (re_replicated sweep) (under_remaining sweep))).

(** ** Redistribution *)

(** A finite [f64], of either sign. *)
Definition f64_le (x y : F64) : bool :=
  let e := Z.min (expo x) (expo y) in
  mant x * 2 ^ (expo x - e) <=? mant y * 2 ^ (expo y - e).

(** Stable, the largest count first. *)
Fixpoint insert_desc (x : nat * nat) (l : list (nat * nat)) : list (nat * nat) :=
  match l with
  | [] => [x]
  | y :: l' => if decide (y.2 <= x.2)%nat then x :: l else y :: insert_desc x l'
  end.
Definition sort_desc (l : list (nat * nat)) : list (nat * nat) := foldr insert_desc [] l.

Definition sum_counts (counts : list (nat * nat)) : nat := sum_list counts.*2.
Definition max_count (counts : list (nat * nat)) : nat := foldr Nat.max 0%nat counts.*2.
Definition min_count (counts : list (nat * nat)) : nat :=
  match counts.*2 with [] => 0%nat | n :: l => foldr Nat.min n l end.

(** [total as f64 / len as f64]; the counts are below 2^53. *)
Definition mean_of (total len : nat) : F64 := f64_div (f64_of (Z.of_nat total)) (f64_of (Z.of_nat len)).

(** [mean > 0.0 && (max - min) as f64 / mean <= tolerance_pct]; a difference of
    zero is a quotient of zero. *)
Definition within_tolerance (mean tolerance : F64) (diff : nat) : bool :=
  (0 <? mant mean) &&
  if (diff =? 0)%nat then f64_le (f64_of 0) tolerance
  else f64_le (f64_div (f64_of (Z.of_nat diff)) mean) tolerance.

(** What an object tried for a move came to. *)
Inductive MoveOutcome : Type := Moved | MoveSkipped | MoveFailed.

Definition in_healthy (healthy_set : list nat) (id : nat) : bool := bool_decide (id ∈ healthy_set).

(** Candidates that are on the destination or would lose their quorum are
    passed over; the first other one is tried. *)
Definition movable (rf src dst : nat) (healthy_set : list nat) (e : PlacementEntry) : bool :=
  negb (bool_decide (dst ∈ pe_shards e)) &&
  (rf <=? length (filter (λ s, s ≠ src ∧ in_healthy healthy_set s = true) (pe_shards e)) + 1)%nat.

Definition move_one (now : Z) refs (rf src dst : nat) (healthy_set : list nat) (key : string) : CM MoveOutcome :=
  o <- sm_try (replicate_object now key src dst refs) ;;
  match o with
  | inl _ => sm_ret MoveFailed
  | inr _ =>
    c <- sm_get ;;
    let ok := match entries (catalog c) !! key with
              | Some e => (rf <=? length (filter (λ s, in_healthy healthy_set s = true) (pe_shards e)))%nat
              | None => false
              end in
    if negb ok then sm_ret MoveSkipped
    else
      removed <- sm_try (remove_replica key src) ;;
      sm_ret match removed with inr _ => Moved | inl _ => MoveFailed end
  end.

Definition update_counts (src dst : nat) (counts : list (nat * nat)) : list (nat * nat) :=
  (λ '(id, n),
     let n := if (id =? src)%nat then (n - 1)%nat else n in
     (id, if (id =? dst)%nat then S n else n)) <$> counts.

(** The loop, as the code has it: [None] when it is still running after [fuel]
    iterations.  The counters are those of the result. *)
Fixpoint redistribute_loop (fuel : nat) (now : Z) refs (batch_size : Z) (mean tolerance : F64) (rf : nat)
    (healthy_set : list nat) (counts : list (nat * nat)) (result : RedistributeResult) :
    CM (option RedistributeResult) :=
  if negb (Z.of_nat (rd_moved result) <? batch_size) then sm_ret (Some result)
  else match fuel with
  | O => sm_ret None
  | S fuel' =>
    let counts := sort_desc counts in
    match counts, last counts with
    | (src, src_count) :: _, Some (dst, dst_count) =>
      if within_tolerance mean tolerance (src_count - dst_count) then sm_ret (Some result)
      else if decide (src_count <= dst_count + 1)%nat then sm_ret (Some result)
      else
        c <- sm_get ;;
        match list_find (λ '(_, e), movable rf src dst healthy_set e = true) (entries_for_shard src (catalog c)) with
        | None => sm_ret (Some result)
        | Some (_, (key, _)) =>
          outcome <- move_one now refs rf src dst healthy_set key ;;
          match outcome with
          | Moved =>
            redistribute_loop fuel' now refs batch_size mean tolerance rf healthy_set (update_counts src dst counts)
              (mkRedistribute (S (rd_moved result)) (rd_skipped result) (rd_errors result) [])
          | MoveSkipped =>
            redistribute_loop fuel' now refs batch_size mean tolerance rf healthy_set counts
              (mkRedistribute (rd_moved result) (S (rd_skipped result)) (rd_errors result) [])
          | MoveFailed =>
            redistribute_loop fuel' now refs batch_size mean tolerance rf healthy_set counts
              (mkRedistribute (rd_moved result) (rd_skipped result) (S (rd_errors result)) [])
          end
        end
    | _, _ => sm_ret (Some result)
    end
  end.

Definition redistribute_sweep (fuel : nat) (now : Z) (batch_size : Z) (tolerance : F64) refs :
    CM (option RedistributeResult) :=
  c <- sm_get ;;
  let counts := shard_object_counts c in
  let stop := sm_ret (Some (mkRedistribute 0 0 0 counts)) in
  if decide (find_under_replicated c ≠ []) then stop
  else if decide (length counts < 2)%nat then stop
  else if decide (sum_counts counts = 0)%nat then stop
  else
    let mean := mean_of (sum_counts counts) (length counts) in
    if within_tolerance mean tolerance (max_count counts - min_count counts) then stop
    else
      o <- redistribute_loop fuel now refs batch_size mean tolerance (factor c) counts.*1 counts
             (mkRedistribute 0 0 0 []) ;;
      c <- sm_get ;;
      sm_ret ((λ r, mkRedistribute (rd_moved r) (rd_skipped r) (rd_errors r) (shard_object_counts c)) <$> o).
End repair.
