(* ===== verification/RepairFacts.v ===== *)
(** * Facts about replication repair

    What copying and removing a replica do to the stores and the catalog, and
    what the loops built on them keep. *)

From S2P Require Import Prelude.
From S2P Require Import Config.
From S2P Require Import Extent.
From S2P Require Import Index.
From S2P Require Import StoreTools.
From S2P Require Import StoreMeta.
From S2P Require Import Tlv.
From S2P Require Import Catalog.
From S2P Require Import JumpHash.
From S2P Require Import Backend.
From S2P Require Import Cluster.
From S2P Require Import ClusterIo.
From S2P Require Import ClusterFacts.
From S2P Require Import ShardMeta.
From S2P Require Import ClusterAdmin.
From S2P Require Import Repair.

Create HintDb frame.

(** ** Computations that change stores only *)

Section frames.
Context `{ObjectBackend, Crc32c, HashMapOrder, ObjectPath, Chrono}.
Implicit Types (c : ShardedObjectStore) (rr : RawRefRegistry).

Definition frame {E A} (m : SM ShardedObjectStore E A) : Prop := ∀ c, stores_only c (m c).1.

Lemma frame_ret {E A} (a : A) : frame (E := E) (sm_ret a).
Proof. intros c. apply stores_only_refl. Qed.

Lemma frame_err {E A} (e : E) : frame (A := A) (sm_err e).
Proof. intros c. apply stores_only_refl. Qed.

Lemma frame_get {E} : frame (E := E) sm_get.
Proof. intros c. apply stores_only_refl. Qed.

Lemma frame_bind {E A B} (m : SM ShardedObjectStore E A) (k : A → SM ShardedObjectStore E B) :
  frame m → (∀ a, frame (k a)) → frame (sm_bind m k).
Proof.
  intros Hm Hk c. specialize (Hm c). rewrite /sm_bind. destruct (m c) as [c1 [a|e|]]; [|done..].
  eapply stores_only_trans; [exact Hm|apply Hk].
Qed.

Lemma frame_try {E F A} (m : SM ShardedObjectStore E A) : frame m → frame (E := F) (sm_try m).
Proof. intros Hm c. specialize (Hm c). rewrite /sm_try. by destruct (m c) as [c1 [a|e|]]. Qed.

Lemma frame_ignore {E F A} (m : SM ShardedObjectStore E A) : frame m → frame (E := F) (sm_ignore m).
Proof. intros Hm. apply frame_bind; [by apply frame_try|]. intros _. apply frame_ret. Qed.

Lemma frame_on_store {A} r (f : store → store * Res store_error A) : frame (on_store r f).
Proof.
  intros c. rewrite /on_store. destruct r as [id|a]; [apply stores_only_refl|].
  destruct (heap c !! a) as [b|]; [|apply stores_only_refl]. by destruct (f b).
Qed.

Lemma frame_ask_store {A} r (f : store → Res store_error A) : frame (ask_store r f).
Proof. intros c. apply stores_only_refl. Qed.

Lemma frame_on_raw {A} a (f : store → store * Res RawStoreError A) : frame (on_raw a f).
Proof.
  intros c. rewrite /on_raw. destruct (heap c !! a) as [b|]; [|apply stores_only_refl]. by destruct (f b).
Qed.

Lemma frame_ask_raw {A} a (f : store → Res RawStoreError A) : frame (ask_raw a f).
Proof. intros c. apply stores_only_refl. Qed.

Lemma frame_raw_call {A} (m : RM A) : frame m → frame (raw_call m).
Proof. intros Hm c. specialize (Hm c). rewrite /raw_call. by destruct (m c). Qed.
End frames.

#[export] Hint Resolve frame_ret frame_err frame_get frame_on_store frame_ask_store frame_on_raw frame_ask_raw
  frame_raw_call frame_try frame_ignore : frame.

(** Bind by bind, through the cases. *)
Ltac frame_tac :=
  repeat first [progress auto with frame | apply frame_bind; [|intros ?] | apply frame_try | apply frame_ignore
               | case_match | case_decide].

(** ** Computations that change nothing *)

Section asks.
Context `{ObjectBackend, Crc32c, HashMapOrder, ObjectPath, Chrono}.

Definition asks {E A} (m : SM ShardedObjectStore E A) : Prop := ∀ c, (m c).1 = c.

Lemma asks_bind {E A B} (m : SM ShardedObjectStore E A) (k : A → SM ShardedObjectStore E B) :
  asks m → (∀ a, asks (k a)) → asks (sm_bind m k).
Proof. intros Hm Hk c. specialize (Hm c). rewrite /sm_bind. destruct (m c) as [c1 [a|e|]]; cbn in Hm; subst c1; [apply Hk|done..]. Qed.

Lemma asks_try {E F A} (m : SM ShardedObjectStore E A) : asks m → asks (E := F) (sm_try m).
Proof. intros Hm c. specialize (Hm c). rewrite /sm_try. by destruct (m c) as [c1 [a|e|]]. Qed.

Lemma asks_read_copy refs id r k : asks (read_copy refs id r k).
Proof.
  rewrite /read_copy /read_metadata_from_shard.
  repeat first [apply asks_bind; [|intros ?] | apply asks_try | case_match | case_decide | by intros ?].
Qed.
End asks.

Section shapes.
Context `{ObjectBackend, Crc32c, HashMapOrder, ObjectPath, Chrono}.
Implicit Types (c : ShardedObjectStore) (rr : RawRefRegistry) (refs : option RawRefRegistry).

Lemma frame_plain_put now r k d : frame (plain_put now r k d).
Proof. rewrite /plain_put. frame_tac. Qed.

Lemma frame_read_copy refs id r k : frame (read_copy refs id r k).
Proof. rewrite /read_copy /read_metadata_from_shard. frame_tac. Qed.

Lemma frame_write_copy now refs id r k d md : frame (write_copy now refs id r k d md).
Proof.
  rewrite /write_copy /write_with_meta_to_shard. pose proof frame_plain_put. frame_tac.
Qed.

Lemma frame_cleanup k refs id r : frame (cleanup_sidecar_maybe k refs id r).
Proof. rewrite /cleanup_sidecar_maybe /delete_sidecar_of. frame_tac. Qed.

(** What a copy does besides the stores: the target joins the entry. *)
Lemma replicate_shape now key from to refs c :
  let '(c', r) := replicate_object now key from to refs c in
  shards c' = shards c ∧ settings c' = settings c ∧
  match r with
  | Ok _ => ∃ size ml, catalog c' = add_replica now key to size ml (catalog c)
  | _ => catalog c' = catalog c
  end.
Proof.
  rewrite /replicate_object {1}/sm_bind /sm_get.
  destruct (shard_store c from) as [rf|]; [|done]. destruct (shard_store c to) as [rt|]; [|done].
  pose proof (frame_read_copy refs from rf (path_from key) c) as Hr. rewrite {1}/sm_bind.
  destruct (read_copy refs from rf (path_from key) c) as [c1 [[d md]|e|]]; cbn [fst] in Hr; [|by rewrite Hr..].
  pose proof (frame_write_copy now refs to rt (path_from key) d md c1) as Hw. rewrite /sm_bind.
  destruct (write_copy now refs to rt (path_from key) d md c1) as [c2 [u|e|]]; cbn [fst] in Hw;
    [|rewrite Hw Hr; done..].
  rewrite /sm_modify Hw Hr. cbn. split_and!; [done|done|]. by eexists _, _.
Qed.

Lemma remove_shape key id c :
  let '(c', r) := remove_replica key id c in
  shards c' = shards c ∧ settings c' = settings c ∧
  catalog c' = match r with Ok _ => remove_shard key id (catalog c) | _ => catalog c end.
Proof.
  rewrite /remove_replica {1}/sm_bind /sm_get. destruct (shard_store c id) as [r|]; [|done].
  pose proof (frame_cleanup (path_from key) (raw_refs c) id r c) as Hr. rewrite /sm_bind.
  destruct (cleanup_sidecar_maybe _ _ _ _ c) as [c1 [u|e|]]; cbn [fst] in Hr; [|by rewrite Hr..].
  pose proof (frame_on_store r (store_delete (path_from key)) c1) as Hw.
  destruct (on_store r _ c1) as [c2 [u2|e|]]; cbn [fst] in Hw; [|by rewrite Hw Hr..].
  rewrite /sm_modify Hw Hr. by cbn.
Qed.
End shapes.

(** ** The loops end *)

Section termination.
Context `{ObjectBackend, Crc32c, HashMapOrder, ObjectPath, Chrono}.
Implicit Types (c : ShardedObjectStore) (refs : option RawRefRegistry).

(** A fold that keeps its accumulator or takes the element. *)
Lemma foldl_pick {A} (f : option A → A → option A) l acc x :
  (∀ acc y z, f acc y = Some z → acc = Some z ∨ y = z) → foldl f acc l = Some x → acc = Some x ∨ x ∈ l.
Proof.
  intros Hf. revert acc. induction l as [|y l IH]; intros acc; cbn [foldl]; [by left|]. intros Hx%IH.
  rewrite elem_of_cons. destruct Hx as [[?| ->]%Hf|]; auto.
Qed.

Lemma max_by_key_in {A} (key : A → Z) l x : max_by_key key l = Some x → x ∈ l.
Proof.
  intros Hx. apply foldl_pick in Hx as [?|?]; [done..|]. intros [z|] y w; [|by intros [= ->]; right].
  destruct (key z <=? key y); intros [= ->]; auto.
Qed.

Lemma min_by_key_in {A} (key : A → Z) l x : min_by_key key l = Some x → x ∈ l.
Proof.
  intros Hx. apply foldl_pick in Hx as [?|?]; [done..|]. intros [z|] y w; [|by intros [= ->]; right].
  destruct (key y <? key z); intros [= ->]; auto.
Qed.

(** Healthy shards without a copy. *)
Definition open_targets c (e : PlacementEntry) : list nat :=
  filter (λ id, (id ∉ pe_shards e) ∧ shard_is is_healthy c id = true) (all_shards c).

Definition entry_targets c (key : string) : nat :=
  match entries (catalog c) !! key with Some e => length (open_targets c e) | None => 0 end.

Lemma entry_targets_bound c key : (entry_targets c key <= length (shards c))%nat.
Proof.
  rewrite /entry_targets /open_targets. destruct (entries _ !! key); [|lia].
  etransitivity; [apply length_filter|]. by rewrite /all_shards length_seq.
Qed.

Lemma repair_step_target c key from to e :
  entries (catalog c) !! key = Some e → repair_step c key = Some (from, to) →
  to ∈ open_targets c e ∧ from ∈ pe_shards e ∧ healthy c from = true.
Proof.
  intros He. rewrite /repair_step He /=. destruct (first_healthy c e) as [source|] eqn:Hs; [|done]. cbn.
  destruct (find_replication_target c key) as [target|] eqn:Ht; [|done]. intros [= <- <-].
  rewrite /find_replication_target He in Ht. apply max_by_key_in in Ht. split; [exact Ht|].
  rewrite /first_healthy in Hs. destruct (list_find _ _) as [[i x]|] eqn:Hf; [|done]. injection Hs as <-.
  apply list_find_Some in Hf as (Hi & Hh & _). split; [by eapply list_elem_of_lookup_2|done].
Qed.

(** The entry after a copy. *)
Lemma add_replica_entry now key to size ml k e :
  entries k !! key = Some e → to ∉ pe_shards e →
  ∃ e', entries (add_replica now key to size ml k) !! key = Some e' ∧ pe_shards e' = pe_shards e ++ [to].
Proof.
  intros He Hto. rewrite /add_replica He /= lookup_insert_eq. eexists. split; [done|].
  assert (pe_shards (set_entry_meta ml e) = pe_shards e) as Hs by (rewrite /set_entry_meta; by case_match).
  by rewrite /push_shard Hs bool_decide_false.
Qed.

Lemma open_targets_fewer c c' e e' to :
  shards c' = shards c → pe_shards e' = pe_shards e ++ [to] → to ∈ open_targets c e →
  (length (open_targets c' e') < length (open_targets c e))%nat.
Proof.
  intros Hs He Hto.
  assert (open_targets c' e' = filter (λ id, id ≠ to) (open_targets c e)) as ->.
  { rewrite /open_targets list_filter_filter /all_shards Hs. apply list_filter_iff. intros id.
    rewrite He elem_of_app list_elem_of_singleton /shard_is Hs. tauto. }
  eapply length_filter_lt; [exact Hto|]. by intros Hne.
Qed.

Lemma repair_key_fuel n1 n2 now refs key c :
  (entry_targets c key < n1)%nat → (entry_targets c key < n2)%nat →
  repair_key n1 now refs key c = repair_key n2 now refs key c.
Proof.
  revert n2 c. induction n1 as [|n1 IH]; intros [|n2] c Hl1 Hl2; try lia. cbn [repair_key]. rewrite /sm_bind /sm_get.
  destruct (entries (catalog c) !! key) as [e|] eqn:He; [|done]. case_decide; [done|].
  destruct (repair_step c key) as [[from to]|] eqn:Hs; [|done].
  destruct (repair_step_target c key from to e He Hs) as (Hto & _ & _).
  pose proof (replicate_shape now key from to refs c) as Hr. rewrite /sm_try.
  destruct (replicate_object now key from to refs c) as [c1 [size|er|]]; [|done..].
  destruct Hr as (Hsh & _ & size' & ml & Hc). pose proof Hto as [[Hnot _] _]%list_elem_of_filter.
  destruct (add_replica_entry now key to size' ml (catalog c) e He Hnot) as (e' & He' & Hp).
  rewrite -Hc in He'. pose proof (open_targets_fewer c c1 e e' to Hsh Hp Hto) as Hlt.
  rewrite /entry_targets He in Hl1, Hl2. rewrite (IH n2 c1); [done|..]; rewrite /entry_targets He'; lia.
Qed.

Definition entry_length c (key : string) : nat :=
  match entries (catalog c) !! key with Some e => length (pe_shards e) | None => 0 end.

(** The shard to trim is listed, and enough healthy ones remain. *)
Lemma pick_excess_spec c key id :
  pick_excess_shard c key = Some id →
  ∃ e, entries (catalog c) !! key = Some e ∧ id ∈ pe_shards e ∧ (factor c < length (pe_shards e))%nat ∧
    (factor c <= length (filter (λ s, s ≠ id) (filter (λ s, shard_is is_healthy c s = true) (pe_shards e))))%nat.
Proof.
  rewrite /pick_excess_shard. destruct (entries (catalog c) !! key) as [e|]; [|done]. cbn.
  case_decide as Hn; [done|]. intros [Hrest Hin]%min_by_key_in%list_elem_of_filter. exists e.
  apply list_elem_of_filter in Hin as [_ Hin]. split_and!; [done|done|lia|done].
Qed.

Lemma remove_shard_entry key id k e :
  entries k !! key = Some e → filter (λ s, s ≠ id) (pe_shards e) ≠ [] →
  entries (remove_shard key id k) !! key = Some (retain_others id e).
Proof. intros He Hne. rewrite /remove_shard He /=. rewrite decide_False //. by rewrite lookup_insert_eq. Qed.

Lemma trim_key_fuel n1 n2 key c :
  (entry_length c key < n1)%nat → (entry_length c key < n2)%nat → trim_key n1 key c = trim_key n2 key c.
Proof.
  revert n2 c. induction n1 as [|n1 IH]; intros [|n2] c Hl1 Hl2; try lia. cbn [trim_key]. rewrite /sm_bind /sm_get.
  destruct (pick_excess_shard c key) as [id|] eqn:Hp; [|done].
  destruct (pick_excess_spec c key id Hp) as (e & He & Hin & _ & _).
  pose proof (remove_shape key id c) as Hr. rewrite /sm_try.
  destruct (remove_replica key id c) as [c1 [u|er|]]; [|done..]. destruct Hr as (_ & _ & Hc).
  rewrite /entry_length He in Hl1, Hl2.
  assert (entry_length c1 key < length (pe_shards e))%nat as Hlt.
  { rewrite /entry_length Hc /remove_shard He /=. case_decide; [rewrite lookup_delete_eq|rewrite lookup_insert_eq /=].
    - destruct (pe_shards e); [by apply elem_of_nil in Hin|simpl; lia].
    - eapply length_filter_lt; [exact Hin|]. by intros Hne. }
  rewrite (IH n2 c1); [done|lia|lia].
Qed.
End termination.

(** ** What a copy writes *)

Section copies.
Context `{RawBackendLaws, Crc32c, HashMapOrderLaws, ObjectPath, Chrono}.
Implicit Types (c : ShardedObjectStore) (k : string) (d md x : list byte) (rr : RawRefRegistry).
(** [known]: what the stores hold at the start, which can be written again. *)
Variables (now : Z) (refs : option RawRefRegistry) (known : list byte → Prop).
Hypotheses (known_nil : known []) (known_writable : ∀ d md, known d → known md → data_ok now (d ++ md)).

(** The addresses of registered raw stores. *)
Definition registered (a : nat) : Prop := ∃ rr id, refs = Some rr ∧ raw_ref rr id = Some a.

Definition raw_heap c : Prop := ∀ a, registered a → ∃ b, heap c !! a = Some b ∧ is_raw b.

(** The stores hold nothing else, as bodies or as metadata. *)
Definition all_known c : Prop :=
  ∀ a b k, heap c !! a = Some b →
    (∀ x, view b !! k = Some x → known x) ∧ (registered a → ∀ d x, raw_view b !! k = Some (d, x) → known x).

Lemma known_data d : known d → data_ok now d.
Proof. intros Hd. rewrite -(app_nil_r d). by apply known_writable. Qed.

(** The registry names the stores of the shards. *)
Definition refs_ok c : Prop :=
  ∀ rr id, refs = Some rr → kind rr id ≠ S3Like ∧ ∀ a r, raw_ref rr id = Some a → shard_store c id = Some r → r = At a.

(** Stores changed, at most by writing [v] under [key] and its sidecar. *)
Record store_step key (v : option (list byte)) c c' : Prop := {
  ss_stores : stores_only c c';
  ss_touches : touches {[key; meta_sidecar_path key]} c c';
  ss_writes : writes key v c c';
  ss_raw : raw_heap c';
  ss_known : all_known c';
}.

Lemma store_step_refl key v c : cluster_ok c → raw_heap c → all_known c → store_step key v c c.
Proof. intros Hok Hr Hx. split; [apply stores_only_refl|by apply touches_refl|apply writes_refl|done..]. Qed.

Lemma store_step_trans key v c1 c2 c3 : store_step key v c1 c2 → store_step key v c2 c3 → store_step key v c1 c3.
Proof.
  intros [Hs1 Ht1 Hw1 _ _] [Hs2 Ht2 Hw2 Hr2 Hx2].
  split; [by eapply stores_only_trans|by eapply touches_trans|by eapply writes_trans|done..].
Qed.

(** One store of the heap is replaced. *)
Lemma all_known_insert c a b b' :
  all_known c → heap c !! a = Some b →
  (∀ k y, view b' !! k = Some y → view b !! k = Some y ∨ known y) →
  (∀ k d y, registered a → raw_view b' !! k = Some (d, y) → raw_view b !! k = Some (d, y) ∨ known y) →
  all_known (with_heap (<[a := b']> (heap c)) c).
Proof.
  intros Hx Hb Hv Hr a0 b0 k Hb0. cbn in Hb0.
  apply lookup_insert_Some in Hb0 as [[<- <-]|[_ Hb0]]; [|by apply Hx]. destruct (Hx a b k Hb) as [Hxv Hxr]. split.
  - intros y Hy. destruct (Hv k y Hy) as [?|?]; [by apply Hxv|done].
  - intros Ha d y Hy. destruct (Hr k d y Ha Hy) as [?|?]; [by apply (Hxr Ha d)|done].
Qed.

Lemma raw_heap_insert c a b' :
  raw_heap c → (registered a → is_raw b') → raw_heap (with_heap (<[a := b']> (heap c)) c).
Proof.
  intros Hr Hb a' Ha'. cbn. destruct (decide (a = a')) as [<-|Hne]; [|rewrite lookup_insert_ne //; by apply Hr].
  exists b'. rewrite lookup_insert_eq. auto.
Qed.

(** A put of [x] under [k'], which is the key or its sidecar. *)
Lemma put_step key k' x attrs r c d :
  cluster_ok c → raw_heap c → all_known c → key_ok k' → known x → (∀ a, r = At a → is_Some (heap c !! a)) →
  k' = key ∧ x = d ∨ k' = meta_sidecar_path key ∧ key ≠ meta_sidecar_path key →
  let '(c', res) := on_store r (store_put now k' x attrs) c in
  store_step key (Some d) c c' ∧
  match res with Ok _ => ∃ a, r = At a ∧ object_at c' a k' = Some x | Err _ => True | Panic => False end.
Proof.
  intros Hok Hr Hkn Hk Hx Href Hkey. pose proof (known_data x Hx) as Hd.
  pose proof (on_store_writes k' (Some x) c r (store_put now k' x attrs) (λ _, False) Hok Href) as Hw.
  assert (∀ b, store_ok b → let '(b', res) := store_put now k' x attrs b in store_ok b' ∧
    match res with Ok _ => view b' = partial_alter (λ _, Some x) k' (view b)
    | Err e => may_have k' (Some x) (view b) (view b') ∧ (False → view b' !! k' = Some x) | Panic => False end) as Hf.
  { intros b Hb. destruct (store_put now k' x attrs b) as [b' res] eqn:Hp.
    destruct (put_law _ _ _ _ _ _ _ Hb Hk Hd Hp) as [Hb' Hres]. split; [done|]. by destruct res. }
  specialize (Hw Hf). pose proof (eq_refl (on_store r (store_put now k' x attrs) c)) as Hrun.
  destruct (on_store r _ c) as [c' res] in Hw, Hrun at 2 |- *. destruct Hw as (Hs & Ht & Hw & Hres).
  assert (raw_heap c' ∧ all_known c') as [Hraw Hst].
  { rewrite /on_store in Hrun. destruct r as [i|a]; [by injection Hrun as <- _|].
    destruct (heap c !! a) as [b|] eqn:Hb; [|by injection Hrun as <- _].
    destruct (store_put now k' x attrs b) as [b' r'] eqn:Hp. injection Hrun as <- _.
    pose proof (co_heap _ Hok _ _ Hb) as Hbok.
    destruct (put_law _ _ _ _ _ _ _ Hbok Hk Hd Hp) as [_ Hv].
    assert (registered a → is_raw b' ∧ raw_view b' = match r' with Ok _ => <[k' := (x, [])]> (raw_view b) | _ => raw_view b end)
      as Hplain.
    { intros Ha. destruct (Hr a Ha) as (b2 & Hb2 & Hraw). simplify_eq. by eapply raw_plain_law. }
    split; [apply raw_heap_insert; [done|intros Ha; by apply Hplain]|].
    apply (all_known_insert c a b b' Hkn Hb).
    - intros k0 z Hz. assert (view b' = view b ∨ view b' = <[k' := x]> (view b)) as [Hv'|Hv'].
      { destruct r' as [u|e|]; [by right|exact Hv|done]. }
      { left. by rewrite -Hv'. }
      rewrite Hv' lookup_insert_Some in Hz. destruct Hz as [[_ <-]|[_ ?]]; [by right|by left].
    - intros k0 d0 z Ha Hz. destruct (Hplain Ha) as [_ Hrv]. rewrite Hrv in Hz.
      destruct r' as [u|e|]; [|by left..]. rewrite lookup_insert_Some in Hz.
      destruct Hz as [[_ [= _ <-]]|[_ ?]]; [by right|by left]. }
  split.
  - split; [done| | |done|done].
    + eapply touches_mono; [|exact Ht]. destruct Hkey as [[-> _]|[-> _]]; set_solver.
    + destruct Hkey as [[-> ->]|[-> Hne]]; [done|]. eapply touches_writes; [exact Ht|]. set_solver.
  - by destruct res.
Qed.

(** A put with metadata on a registered store. *)
Lemma raw_copy_step key d md a c :
  cluster_ok c → raw_heap c → all_known c → key_ok key → known d → known md → registered a →
  let '(c', res) := on_raw a (raw_put_with_meta now key d md) c in
  store_step key (Some d) c c' ∧
  match res with Ok _ => object_at c' a key = Some d | Err _ => True | Panic => False end.
Proof.
  intros Hok Hr Hkn Hk Hsd Hsm Ha. pose proof (known_writable d md Hsd Hsm) as Hd. destruct (Hr a Ha) as (b & Hb & Hraw). rewrite /on_raw Hb.
  destruct (raw_put_with_meta now key d md b) as [b' res] eqn:Hput. pose proof (co_heap _ Hok _ _ Hb) as Hbok.
  destruct (raw_put_law _ _ _ _ _ _ _ Hbok Hraw Hk Hd Hput) as (Hbok' & Hraw' & Hres).
  set (c' := with_heap _ c).
  assert (raw_view b' = raw_view b ∨ raw_view b' = <[key := (d, md)]> (raw_view b)) as Hview.
  { destruct res as [u|e|]; [right; apply Hres|by left|done]. }
  assert (view b' = view b ∨ view b' = <[key := d]> (view b)) as Hv.
  { rewrite (raw_view_law b) // (raw_view_law b') //. destruct Hview as [-> | ->]; [by left|right; by rewrite fmap_insert]. }
  split.
  - split.
    + done.
    + apply touches_heap; [done|done| |].
      * intros a'. cbn. destruct (decide (a = a')) as [<-|Hne]; [|rewrite lookup_insert_ne //; by destruct (heap c !! a')].
        rewrite lookup_insert_eq Hb. intros k' Hk'. destruct Hv as [-> | ->]; [done|]. rewrite lookup_insert_ne //. set_solver.
      * intros a' b2. cbn. rewrite lookup_insert_Some. intros [[_ <-]|[_ Hb2]]; [done|]. by eapply co_heap.
    + intros a'. rewrite /object_at /c' /=. destruct (decide (a = a')) as [<-|Hne]; [|left; by rewrite lookup_insert_ne].
      rewrite lookup_insert_eq Hb /=. destruct Hv as [-> | ->]; [by left|right; by rewrite lookup_insert_eq].
    + by apply raw_heap_insert.
    + apply (all_known_insert c a b b' Hkn Hb).
      * intros k0 z Hz. destruct Hv as [Hv|Hv]; rewrite Hv in Hz; [by left|]. rewrite lookup_insert_Some in Hz.
        destruct Hz as [[_ <-]|[_ ?]]; [by right|by left].
      * intros k0 d0 z _ Hz. destruct Hview as [Hw|Hw]; rewrite Hw in Hz; [by left|].
        rewrite lookup_insert_Some in Hz. destruct Hz as [[_ [= _ <-]]|[_ ?]]; [by right|by left].
  - destruct res as [u|e|]; [|done|done]. destruct Hres as [_ Hres].
    rewrite /object_at /c' /= lookup_insert_eq /= (raw_view_law b') // Hres fmap_insert. apply lookup_insert_eq.
Qed.

(** A key the copies can be made under. *)
Record good_object key : Prop := {
  go_key : key_ok key;
  go_sidecar : key_ok (meta_sidecar_path key);
  go_apart : key ≠ meta_sidecar_path key;
  go_path : path_from key = key;
}.

Definition copies key d id c' : Prop := shard_has c' id key (Some d).

(** What holds after the step, whether or not it failed, and on success. *)
Definition step_run {A} key v c (out : ShardedObjectStore * Res Error A) (Q : ShardedObjectStore → Prop) : Prop :=
  store_step key v c out.1 ∧ match out.2 with Ok _ => Q out.1 | _ => True end.

Lemma step_run_bind {A B} key v c (m : CM A) (f : A → CM B) P Q :
  step_run key v c (m c) P →
  (∀ a c', store_step key v c c' → P c' → step_run key v c' (f a c') Q) →
  step_run key v c (sm_bind m f c) Q.
Proof.
  intros [Hs Hm] Hf. rewrite /sm_bind /step_run. destruct (m c) as [c1 [a|e|]]; cbn [fst snd] in *; [|done..].
  destruct (Hf a c1 Hs Hm) as [Hs' Hq]. split; [by eapply store_step_trans|done].
Qed.

Lemma plain_put_step key k' x id r c d :
  cluster_ok c → raw_heap c → all_known c → key_ok k' → known x → shard_store c id = Some r →
  k' = key ∧ x = d ∨ k' = meta_sidecar_path key ∧ key ≠ meta_sidecar_path key →
  step_run key (Some d) c (plain_put now r k' x c) (λ c', shard_has c' id k' (Some x)).
Proof.
  intros Hok Hr Hkn Hk Hx Hid Hkey. rewrite /plain_put.
  apply (step_run_bind _ _ _ _ _ (λ c', shard_has c' id k' (Some x))).
  - pose proof (put_step key k' x [] r c d Hok Hr Hkn Hk Hx) as Hp. rewrite /step_run.
    specialize (Hp ltac:(intros a Ha; by eapply shard_ref) Hkey).
    destruct (on_store r _ c) as [c' [u|e|]]; destruct Hp as [Hs Hp]; (split; [exact Hs|]); [|done..].
    destruct Hp as (a & -> & Ha). exists a. split; [|done]. by rewrite /= (ss_stores _ _ _ _ Hs).
  - intros _ c' Hs HQ. split; [|done]. apply store_step_refl; [by eapply tc_ok, ss_touches|by eapply ss_raw|by eapply ss_known].
Qed.

Lemma step_ok key v c c' : store_step key v c c' → cluster_ok c' ∧ raw_heap c' ∧ all_known c'.
Proof. intros Hs. split_and!; [by eapply tc_ok, ss_touches|by eapply ss_raw|by eapply ss_known]. Qed.

Lemma write_copy_step key d md id r c :
  cluster_ok c → raw_heap c → all_known c → refs_ok c → good_object key → known d → known md →
  shard_store c id = Some r →
  step_run key (Some d) c (write_copy now refs id r key d md c) (copies key d id).
Proof.
  intros Hok Hr Hkn Hrefs Hg Hsd Hsm Hid.
  assert (step_run key (Some d) c (plain_put now r key d c) (copies key d id)) as Hplain.
  { apply (plain_put_step key key d id r c d); try done; [apply Hg|by left]. }
  rewrite /write_copy. destruct refs as [rr|] eqn:Hrr; [|done]. case_decide; [done|].
  rewrite /write_with_meta_to_shard. rewrite decide_False //.
  destruct (Hrefs rr id) as [Hns Hsame]; [done|]. destruct (kind rr id) eqn:Hkd; [|done|].
  - destruct (raw_ref rr id) as [a|] eqn:Ha; [|done]. specialize (Hsame a r eq_refl Hid). subst r.
    assert (registered a) as Hreg by (by exists rr, id).
    pose proof (raw_copy_step key d md a c Hok Hr Hkn (go_key _ Hg) Hsd Hsm Hreg) as Hs. rewrite /step_run /raw_call.
    destruct (on_raw a _ c) as [c' [u|e|]]; destruct Hs as [Hs Hres]; (split; [exact Hs|]); [|done..].
    exists a. split; [|done]. by rewrite /= (ss_stores _ _ _ _ Hs).
  - eapply step_run_bind; [exact Hplain|]. intros _ c1 Hs1 Hhas. destruct (step_ok _ _ _ _ Hs1) as (Hok1 & Hr1 & Hkn1).
    assert (shard_store c1 id = Some r) as Hid1 by by rewrite (ss_stores _ _ _ _ Hs1).
    destruct (plain_put_step key (meta_sidecar_path key) md id r c1 d) as [Hs2 _]; try done;
      [apply Hg|right; split; [done|apply Hg]|].
    split; [exact Hs2|]. destruct (plain_put now r (meta_sidecar_path key) md c1) as [c2 [u|e|]]; [|done..].
    cbn in Hs2 |- *. eapply shard_has_writes; [apply Hs2|apply Hs2|exact Hhas].
Qed.

(** ** What a copy reads *)

Lemma ask_store_view {A} a (f : store → Res store_error A) c c' (x : A) :
  ask_store (At a) f c = (c', Ok x) → c' = c ∧ ∃ b, heap c !! a = Some b ∧ f b = Ok x.
Proof.
  rewrite /ask_store. destruct (heap c !! a) as [b|]; [|done]. destruct (f b) as [y|e|] eqn:Hf; [|done..].
  cbn. intros [= <- <-]. split; [done|]. by exists b.
Qed.

Lemma fetch_view k a c c' g x :
  cluster_ok c → key_ok k → ask_store (At a) (store_get k) c = (c', Ok g) → (ask_store (At a) (got_bytes g) c).2 = Ok x →
  c' = c ∧ ∃ b, heap c !! a = Some b ∧ view b !! k = Some x.
Proof.
  intros Hok Hk Hg Hx. destruct (ask_store_view a _ c c' g Hg) as (-> & b & Hb & Hgb). split; [done|].
  exists b. split; [done|]. rewrite /ask_store Hb in Hx. pose proof (get_law b k (co_heap _ Hok _ _ Hb) Hk) as Hl.
  rewrite Hgb in Hl. apply Hl. by destruct (got_bytes g b); cbn in Hx; simplify_eq.
Qed.

Lemma read_meta_known {E} id r key attrs rr c c' o :
  cluster_ok c → raw_heap c → all_known c → refs_ok c → good_object key → refs = Some rr → shard_store c id = Some r →
  read_metadata_from_shard (E := E) r id key attrs rr c = (c', Ok o) → known (default [] o).
Proof.
  intros Hok Hr Hkn Hrefs Hg Hrr Hid. rewrite /read_metadata_from_shard. destruct (Hrefs rr id Hrr) as [Hns _].
  assert (∀ x, known x → known (default [] (if decide (x = []) then None else Some x))) as Hopt by (intros x Hx; by case_decide).
  destruct (kind rr id) eqn:Hkd; [|done|].
  - destruct (raw_ref rr id) as [a|] eqn:Ha; [|by intros [= _ <-]]. rewrite /sm_bind /sm_try /ask_raw.
    assert (registered a) as Hreg by (by exists rr, id). destruct (Hr a Hreg) as (b & Hb & Hraw). rewrite Hb.
    pose proof (raw_metadata_law b key (co_heap _ Hok _ _ Hb) Hraw (go_key _ Hg)) as Hm.
    destruct (raw_get_metadata key b) as [m|e|]; intros [= _ <-]; [|done]. apply Hopt. destruct Hm as [d Hm]. by apply (Hkn a b key Hb) in Hm.
  - rewrite /sm_bind /sm_try. destruct r as [i|a]; [by intros [= _ <-]|].
    destruct (ask_store (At a) (store_get _) c) as [c1 [g|e|]] eqn:Hget; [|by intros [= _ <-]|done].
    destruct (ask_store_view a _ _ _ _ Hget) as (-> & _).
    destruct (ask_store (At a) (got_bytes g) c) as [c2 [x|e|]] eqn:Hx; intros [= _ <-]; [|done]. apply Hopt.
    destruct (fetch_view (meta_sidecar_path key) a c c g x Hok (go_sidecar _ Hg) Hget) as (_ & b & Hb & Hv).
    { by rewrite Hx. } by apply (Hkn a b _ Hb) in Hv.
Qed.

Lemma read_copy_known id r key c c' d md :
  cluster_ok c → raw_heap c → all_known c → refs_ok c → good_object key → shard_store c id = Some r →
  read_copy refs id r key c = (c', Ok (d, md)) → known d ∧ known md ∧ shard_has c id key (Some d).
Proof.
  intros Hok Hr Hkn Hrefs Hg Hid. rewrite /read_copy {1}/sm_bind. destruct r as [i|a]; [done|].
  destruct (ask_store (At a) (store_get key) c) as [c1 [g|e|]] eqn:Hget; [|done..].
  destruct (ask_store_view a _ _ _ _ Hget) as (-> & _). rewrite {1}/sm_bind.
  destruct (ask_store (At a) (got_bytes g) c) as [c2 [x|e|]] eqn:Hx; [|done..].
  destruct (fetch_view key a c c g x Hok (go_key _ Hg) Hget) as (_ & b & Hb & Hv); [by rewrite Hx|].
  destruct (ask_store_view a _ _ _ _ Hx) as (-> & _). rewrite {1}/sm_bind.
  assert (known x) as Hkx by by apply (Hkn a b key Hb) in Hv.
  assert (shard_has c id key (Some x)) as Hhas by (exists a; by rewrite /object_at Hb).
  match goal with |- context [match ?m c with _ => _ end] => set (meta := m) end.
  assert (∀ c3 o, meta c = (c3, Ok o) → known (default [] o)) as Hmeta.
  { rewrite /meta. intros c3 o. destruct refs as [rr|] eqn:Hrr; [|by intros [= _ <-]].
    by apply (read_meta_known id (At a) key). }
  destruct (meta c) as [c3 [o|e|]]; [|done..]. intros [= _ <- <-]. split_and!; [done|by eapply Hmeta|done].
Qed.

(** ** The state the sweeps run on *)

Lemma on_catalog_id c : on_catalog (λ m, m) c = c.
Proof. by destruct c. Qed.

Record sweep_ok c : Prop := {
  sw_ok : cluster_ok c;
  sw_raw : raw_heap c;
  sw_known : all_known c;
  sw_refs : refs_ok c;
  sw_objects k : is_Some (entries (catalog c) !! k) → good_object k;
  sw_apart k k' : is_Some (entries (catalog c) !! k) → is_Some (entries (catalog c) !! k') → k ≠ meta_sidecar_path k';
  sw_distinct i j a : shard_store c i = Some (At a) → shard_store c j = Some (At a) → i = j;
  sw_connected id : healthy c id = true → ∃ a, shard_store c id = Some (At a);
}.

Record swept c c' : Prop := {
  sp_ok : sweep_ok c';
  sp_shards : shards c' = shards c;
  sp_settings : settings c' = settings c;
  sp_keys k : is_Some (entries (catalog c') !! k) → is_Some (entries (catalog c) !! k);
}.

Lemma swept_refl c : sweep_ok c → swept c c.
Proof. intros Hok. by split. Qed.

Lemma swept_trans c1 c2 c3 : swept c1 c2 → swept c2 c3 → swept c1 c3.
Proof. intros [_ Hs1 Hg1 Hk1] [Hok Hs2 Hg2 Hk2]. split; [done|by rewrite Hs2|by rewrite Hg2|auto]. Qed.

(** A step on the stores, then one on the catalog. *)
Lemma swept_step key v c c1 f :
  sweep_ok c → store_step key v c c1 →
  (∀ k, is_Some (entries (f (catalog c)) !! k) → is_Some (entries (catalog c) !! k)) → swept c (on_catalog f c1).
Proof.
  intros Hok Hs Hf. pose proof (ss_stores _ _ _ _ Hs) as Ho.
  assert (catalog c1 = catalog c) as Hc by by rewrite Ho.
  assert (∀ id, shard_store (on_catalog f c1) id = shard_store c id) as Hst by (intros id; by rewrite Ho).
  split.
  - destruct Hok as [Hok Hr Hkn Hrefs Hobj Hap Hdis Hcon]. split.
    + destruct (tc_ok _ _ _ (ss_touches _ _ _ _ Hs)) as [H1' H2' H3' H4']. by split.
    + exact (ss_raw _ _ _ _ Hs).
    + exact (ss_known _ _ _ _ Hs).
    + intros rr id Hrr. destruct (Hrefs rr id Hrr) as [Hns Ha]. split; [done|]. intros a r. rewrite (Hst id). apply Ha.
    + intros k. cbn. rewrite Hc. intros Hk%Hf. by apply Hobj.
    + intros k k'. cbn. rewrite Hc. intros Hk%Hf Hk'%Hf. by apply Hap.
    + intros i j a. rewrite (Hst i) (Hst j). apply Hdis.
    + intros id. rewrite /healthy /shard_health Ho. apply Hcon.
  - by rewrite Ho.
  - by rewrite Ho.
  - intros k. cbn. rewrite Hc. apply Hf.
Qed.

(** ** What the sweeps keep of an object *)

(** Its healthy replicas in the catalog. *)
Definition healthy_count c k : nat :=
  match entries (catalog c) !! k with Some e => count_shards is_healthy c e | None => 0 end.

(** All its replicas have [d], and [n] of them are healthy. *)
Definition intact c k d (n : nat) : Prop :=
  (n <= healthy_count c k)%nat ∧
  ∃ e, entries (catalog c) !! k = Some e ∧
    ∀ id a, id ∈ pe_shards e → shard_store c id = Some (At a) → object_at c a k = Some d.

(** No replica has anything but [d], and [n] healthy ones have it. *)
Definition survives c k d (n : nat) : Prop :=
  ∃ e l, entries (catalog c) !! k = Some e ∧
    (∀ id a, id ∈ pe_shards e → shard_store c id = Some (At a) → object_at c a k = Some d ∨ object_at c a k = None) ∧
    l `sublist_of` pe_shards e ∧ (n <= length l)%nat ∧
    ∀ id, id ∈ l → healthy c id = true ∧ shard_has c id k (Some d).

Lemma healthy_is c id : shard_is is_healthy c id = healthy c id.
Proof.
  rewrite /shard_is /is_healthy /healthy /shard_health. destruct (shards c !! id) as [s|]; cbn; [|done].
  apply bool_decide_ext. split; [by intros ->|by intros [= ->]].
Qed.

Lemma intact_survives c k d n : sweep_ok c → intact c k d n → survives c k d n.
Proof.
  intros Hok [Hn (e & He & Hall)]. exists e, (filter (λ id, shard_is is_healthy c id = true) (pe_shards e)).
  split_and!; [done|intros id a Hid Ha; left; by eapply Hall|apply sublist_filter| |].
  - rewrite /healthy_count He in Hn. exact Hn.
  - intros id [Hh Hid]%list_elem_of_filter. rewrite healthy_is in Hh. split; [done|].
    destruct (sw_connected _ Hok id Hh) as [a Ha]. exists a. split; [done|]. by eapply Hall.
Qed.

(** Only stores changed, and the replicas have [d] again. *)
Lemma intact_same c c1 k d n e :
  stores_only c c1 → entries (catalog c) !! k = Some e → (n <= healthy_count c k)%nat →
  (∀ id a, id ∈ pe_shards e → shard_store c id = Some (At a) → object_at c1 a k = Some d) →
  intact (on_catalog (λ m, m) c1) k d n.
Proof.
  intros Ho He Hn Hall. rewrite on_catalog_id. split.
  - move: Hn. rewrite Ho /healthy_count /= He /count_shards.
    by rewrite (list_filter_iff _ (λ id, shard_is is_healthy (with_heap (heap c1) c) id = true)).
  - exists e. split; [by rewrite Ho|]. intros id a Hid Ha. apply (Hall id); [done|].
    assert (shard_store c1 id = shard_store c id) as Heq by by rewrite Ho. by rewrite -Heq.
Qed.

(** One replica may have gone; the healthy others are enough. *)
Lemma survives_rest c c1 key d n id e :
  sweep_ok c → stores_only c c1 → writes key None c c1 → entries (catalog c) !! key = Some e →
  (∀ i a, i ∈ pe_shards e → shard_store c i = Some (At a) → object_at c a key = Some d) →
  (∀ i a, i ≠ id → i ∈ pe_shards e → shard_store c i = Some (At a) → object_at c1 a key = Some d) →
  (n <= length (filter (λ s, s ≠ id) (filter (λ s, shard_is is_healthy c s = true) (pe_shards e))))%nat →
  survives (on_catalog (λ m, m) c1) key d n.
Proof.
  intros Hok Ho Hw He Hall Hkeep Hn. rewrite on_catalog_id.
  exists e, (filter (λ s, s ≠ id) (filter (λ s, shard_is is_healthy c s = true) (pe_shards e))).
  split_and!; [by rewrite Ho| |by do 2 (etransitivity; [apply sublist_filter|])|done|].
  - intros i a Hi. assert (shard_store c1 i = shard_store c i) as -> by by rewrite Ho. intros Ha.
    destruct (Hw a) as [-> | ->]; [left; by eapply Hall|by right].
  - intros i [Hne [Hh Hi]%list_elem_of_filter]%list_elem_of_filter. rewrite healthy_is in Hh.
    assert (healthy c1 i = healthy c i) as -> by by rewrite Ho. split; [done|].
    destruct (sw_connected _ Hok i Hh) as [a Ha]. exists a.
    assert (shard_store c1 i = shard_store c i) as -> by by rewrite Ho. split; [done|]. by apply (Hkeep i).
Qed.

(** A step on one key keeps the others. *)
Lemma step_other key v c c1 f k d n :
  sweep_ok c → store_step key v c c1 → is_Some (entries (catalog c) !! key) → k ≠ key →
  entries (f (catalog c)) !! k = entries (catalog c) !! k →
  (intact c k d n → intact (on_catalog f c1) k d n) ∧ (survives c k d n → survives (on_catalog f c1) k d n).
Proof.
  intros Hok Hs Hkey Hne Hf. pose proof (ss_stores _ _ _ _ Hs) as Ho.
  assert (catalog c1 = catalog c) as Hc by by rewrite Ho.
  assert (entries (catalog (on_catalog f c1)) !! k = entries (catalog c) !! k) as He by by cbn; rewrite Hc.
  assert (∀ e, entries (catalog c) !! k = Some e → ∀ a, object_at (on_catalog f c1) a k = object_at c a k) as Hobj.
  { intros e Hke a. apply (touches_object _ _ c1 a k (ss_touches _ _ _ _ Hs)).
    pose proof (sw_apart _ Hok k key ltac:(by eexists) Hkey). set_solver. }
  assert (∀ id, shard_store (on_catalog f c1) id = shard_store c id) as Hst by (intros id; by rewrite Ho).
  assert (∀ id, healthy (on_catalog f c1) id = healthy c id) as Hhe by (intros id; by rewrite /healthy /shard_health Ho).
  split.
  - intros [Hn (e & Hke & Hall)]. split.
    + move: Hn. rewrite /healthy_count He Hke /count_shards.
      rewrite (list_filter_iff _ (λ id, shard_is is_healthy (on_catalog f c1) id = true)) //.
      intros id. by rewrite !healthy_is Hhe.
    + exists e. rewrite He. split; [done|]. intros id a Hid. rewrite (Hst id) (Hobj e Hke a). by apply Hall.
  - intros (e & l & Hke & Hcl & Hsub & Hn & Hl). exists e, l. rewrite He. split_and!; [done| |done|done|].
    + intros id a Hid. rewrite (Hst id) (Hobj e Hke a). by apply Hcl.
    + intros id Hid. destruct (Hl id Hid) as [Hh (a & Ha & Hoa)]. rewrite (Hhe id). split; [done|].
      exists a. by rewrite (Hst id) (Hobj e Hke a).
Qed.

(** ** Copying *)

Lemma replicate_step key from to c :
  sweep_ok c → is_Some (entries (catalog c) !! key) →
  let '(c', r) := replicate_object now key from to refs c in
  ∃ d c1 f, c' = on_catalog f c1 ∧ store_step key (Some d) c c1 ∧
    match r with
    | Ok _ => (∃ size ml, f = add_replica now key to size ml) ∧ copies key d from c ∧ copies key d to c1
    | _ => f = (λ m, m) ∧ (copies key d from c ∨ c1 = c)
    end.
Proof.
  intros Hok He. pose proof (sw_objects _ Hok key He) as Hg. rewrite /replicate_object (go_path _ Hg) {1}/sm_bind /sm_get.
  assert (∃ d c1 f, c = on_catalog f c1 ∧ store_step key (Some d) c c1 ∧ f = (λ m, m) ∧ (copies key d from c ∨ c1 = c))
    as Hnone by (exists [], c, (λ m, m); rewrite on_catalog_id; split_and!; [done|apply store_step_refl; apply Hok|done|by right]).
  destruct (shard_store c from) as [rf|] eqn:Hf; [|done]. destruct (shard_store c to) as [rt|] eqn:Ht; [|done].
  pose proof (asks_read_copy refs from rf key c) as Hsame. rewrite {1}/sm_bind.
  destruct (read_copy refs from rf key c) as [c0 res] eqn:Hread. cbn [fst] in Hsame. subst c0.
  destruct res as [[d md]|e|]; [|done..].
  destruct (read_copy_known from rf key c c d md (sw_ok _ Hok) (sw_raw _ Hok) (sw_known _ Hok) (sw_refs _ Hok) Hg Hf Hread)
    as (Hkd & Hkm & Hhas).
  pose proof (write_copy_step key d md to rt c (sw_ok _ Hok) (sw_raw _ Hok) (sw_known _ Hok) (sw_refs _ Hok) Hg Hkd Hkm Ht)
    as [Hs Hw].
  rewrite /sm_bind. destruct (write_copy now refs to rt key d md c) as [c1 [u|e|]]; cbn [fst snd] in Hs, Hw.
  - exists d, c1. eexists. split; [done|]. split; [done|]. split; [by eexists _, _|done].
  - exists d, c1, (λ m, m). rewrite on_catalog_id. auto.
  - exists d, c1, (λ m, m). rewrite on_catalog_id. auto.
Qed.

Lemma add_replica_keys key id size ml m k :
  is_Some (entries m !! key) → is_Some (entries (add_replica now key id size ml m) !! k) → is_Some (entries m !! k).
Proof.
  intros Hkey. destruct (decide (k = key)) as [->|Hne]; [done|]. by rewrite add_replica_other.
Qed.

(** A copy chosen by the sweep keeps every object. *)
Lemma repair_step_keeps key from to c :
  sweep_ok c → repair_step c key = Some (from, to) →
  let c' := (replicate_object now key from to refs c).1 in
  swept c c' ∧ (∀ k d n, intact c k d n → intact c' k d n).
Proof.
  intros Hok Hstep. assert (is_Some (entries (catalog c) !! key)) as [e He].
  { rewrite /repair_step in Hstep. by destruct (entries (catalog c) !! key). }
  pose proof (replicate_step key from to c Hok ltac:(by eexists)) as Hr.
  destruct (replicate_object now key from to refs c) as [c' r]. cbn [fst].
  destruct Hr as (d & c1 & f & -> & Hs & Hf).
  assert (∀ k, is_Some (entries (f (catalog c)) !! k) → is_Some (entries (catalog c) !! k)) as Hkeys.
  { intros k. destruct r; [|by destruct Hf as [-> _]..]. destruct Hf as [(size & ml & ->) _].
    apply add_replica_keys. by eexists. }
  split; [by eapply swept_step|]. intros k d' n Hint. destruct (decide (k = key)) as [->|Hne].
  2: { refine (proj1 (step_other key (Some d) c c1 f k d' n Hok Hs ltac:(by eexists) Hne _) Hint).
       destruct r; [|by destruct Hf as [-> _]..]. destruct Hf as [(size & ml & ->) _]. by apply add_replica_other. }
  destruct (repair_step_target c key from to e He Hstep) as (Hto & Hfrom & Hheal).
  pose proof (ss_stores _ _ _ _ Hs) as Ho. destruct Hint as [Hn (e0 & He0 & Hall)]. simplify_eq.
  assert (copies key d from c → d = d') as Hsame.
  { intros (a' & Ha' & Hoa). rewrite (Hall from a') // in Hoa. by injection Hoa. }
  assert (c1 = c ∨ d = d' → ∀ id b, id ∈ pe_shards e → shard_store c id = Some (At b) → object_at c1 b key = Some d')
    as Hall1.
  { intros [-> | <-] id b Hid Hb; [by eapply Hall|].
    destruct (ss_writes _ _ _ _ Hs b) as [-> | ->]; [by eapply Hall|done]. }
  destruct r as [size|er|]; [|destruct Hf as [-> Hd]; apply (intact_same c c1 key d' n e); try done; apply Hall1; tauto..].
  destruct Hf as [(size' & ml & ->) [Hfr Hcp]]. specialize (Hsame Hfr). subst d'.
  pose proof Hto as [[Hnot _] _]%list_elem_of_filter.
  destruct (add_replica_entry now key to size' ml (catalog c) e He Hnot) as (e' & He' & Hp).
  set (c' := on_catalog _ c1). assert (entries (catalog c') !! key = Some e') as Hent by by rewrite /c' Ho.
  split.
  - rewrite /healthy_count Hent. rewrite /healthy_count He in Hn. etransitivity; [exact Hn|].
    rewrite /count_shards Hp filter_app length_app.
    rewrite (list_filter_iff _ (λ id, shard_is is_healthy c' id = true)); [lia|].
    intros id. by rewrite /shard_is /c' Ho.
  - exists e'. split; [exact Hent|]. intros id b. rewrite Hp elem_of_app list_elem_of_singleton.
    assert (shard_store c' id = shard_store c id) as -> by by rewrite /c' Ho.
    intros [Hid| ->] Hb; [by eapply (Hall1 (or_intror eq_refl) id)|]. destruct Hcp as (b' & Hb' & Hob).
    assert (shard_store c1 to = shard_store c to) as Heq by by rewrite Ho. rewrite Heq Hb in Hb'.
    by injection Hb' as <-.
Qed.

Definition keeps (P : ShardedObjectStore → string → list byte → nat → Prop) c c' : Prop :=
  swept c c' ∧ ∀ k d n, P c k d n → P c' k d n.

Lemma keeps_refl P c : sweep_ok c → keeps P c c.
Proof. intros Hok. split; [by apply swept_refl|done]. Qed.

Lemma keeps_trans P c1 c2 c3 : keeps P c1 c2 → keeps P c2 c3 → keeps P c1 c3.
Proof. intros [Hs1 H12] [Hs2 H23]. split; [by eapply swept_trans|auto]. Qed.

Lemma repair_key_keeps fuel key c : sweep_ok c → keeps intact c (repair_key fuel now refs key c).1.
Proof.
  revert c. induction fuel as [|fuel IH]; intros c Hok; [by apply keeps_refl|]. cbn [repair_key].
  rewrite /sm_bind /sm_get. destruct (entries (catalog c) !! key) as [e|]; [|by apply keeps_refl].
  case_decide; [by apply keeps_refl|]. destruct (repair_step c key) as [[from to]|] eqn:Hstep; [|by apply keeps_refl].
  pose proof (repair_step_keeps key from to c Hok Hstep) as Hk. rewrite /sm_try.
  destruct (replicate_object now key from to refs c) as [c1 [size|er|]]; cbn [fst] in Hk; [|exact Hk..].
  eapply keeps_trans; [exact Hk|]. specialize (IH c1 (sp_ok _ _ (proj1 Hk))).
  destruct (repair_key fuel now refs key c1) as [c2 [n|er|]]; exact IH.
Qed.

Lemma count_all_keeps {A} P (f : A → CM nat) l c :
  (∀ (y : A) c, sweep_ok c → keeps P c (f y c).1) → sweep_ok c → keeps P c (count_all f l c).1.
Proof.
  intros Hf. revert c. induction l as [|x l IH]; intros c Hok; [by apply keeps_refl|]. cbn [count_all].
  specialize (Hf x c Hok). rewrite /sm_bind. destruct (f x c) as [c1 [n|er|]]; cbn [fst] in Hf; [|exact Hf..].
  eapply keeps_trans; [exact Hf|]. specialize (IH c1 (sp_ok _ _ (proj1 Hf))).
  destruct (count_all f l c1) as [c2 [m|er|]]; exact IH.
Qed.

(** ** Removing *)

(** Only the store [r] names changed. *)
Definition only_at (r : StoreRef) c c' : Prop := ∀ a, r ≠ At a → heap c' !! a = heap c !! a.

Lemma delete_step key k' r c :
  cluster_ok c → raw_heap c → all_known c → key_ok k' → (∀ a, r = At a → is_Some (heap c !! a)) →
  k' = key ∨ k' = meta_sidecar_path key ∧ key ≠ meta_sidecar_path key →
  let c' := (on_store r (store_delete k') c).1 in store_step key None c c' ∧ only_at r c c'.
Proof.
  intros Hok Hr Hkn Hk Href Hkey. pose proof (store_delete_writes k' c r Hk Hok Href) as Hw.
  pose proof (eq_refl (on_store r (store_delete k') c)) as Hrun.
  destruct (on_store r _ c) as [c' res] in Hw, Hrun at 2 |- *. cbn [fst]. destruct Hw as (Hs & Ht & Hw & _).
  assert (raw_heap c' ∧ all_known c' ∧ only_at r c c') as (Hraw & Hst & Hat).
  { rewrite /on_store in Hrun. destruct r as [i|a]; [by injection Hrun as <- _|].
    destruct (heap c !! a) as [b|] eqn:Hb; [|by injection Hrun as <- _].
    destruct (store_delete k' b) as [b' r'] eqn:Hp. injection Hrun as <- _.
    pose proof (co_heap _ Hok _ _ Hb) as Hbok. destruct (delete_law _ _ _ _ Hbok Hk Hp) as [_ Hv].
    assert (view b' = view b ∨ view b' = base.delete k' (view b)) as Hv'.
    { destruct r' as [u|e|]; [by right| |done]. by destruct Hv as [[?|?] _]; [left|right]. }
    assert (registered a → is_raw b' ∧ raw_view b' = match r' with Ok _ => base.delete k' (raw_view b) | _ => raw_view b end)
      as Hplain.
    { intros Ha. destruct (Hr a Ha) as (b2 & Hb2 & Hraw). simplify_eq. by eapply raw_delete_law. }
    split_and!.
    - apply raw_heap_insert; [done|]. intros Ha. by apply Hplain.
    - apply (all_known_insert c a b b' Hkn Hb).
      + intros k0 z Hz. left. destruct Hv' as [Hv'|Hv']; rewrite Hv' in Hz; [done|]. by apply lookup_delete_Some in Hz as [_ ?].
      + intros k0 d0 z Ha Hz. left. destruct (Hplain Ha) as [_ Hrv]. rewrite Hrv in Hz.
        destruct r'; [|done..]. by apply lookup_delete_Some in Hz as [_ ?].
    - intros a' Hne. cbn. rewrite lookup_insert_ne //. congruence. }
  split; [|done]. split; [done| | |done|done].
  - eapply touches_mono; [|exact Ht]. destruct Hkey as [-> |[-> _]]; set_solver.
  - destruct Hkey as [-> |[-> Hne]]; [done|]. eapply touches_writes; [exact Ht|]. set_solver.
Qed.

Lemma remove_step key id c :
  sweep_ok c → is_Some (entries (catalog c) !! key) →
  let '(c', r) := remove_replica key id c in
  ∃ c1 f, c' = on_catalog f c1 ∧ store_step key None c c1 ∧
    (∀ a, shard_store c id ≠ Some (At a) → heap c1 !! a = heap c !! a) ∧
    f = match r with Ok _ => remove_shard key id | _ => λ m, m end.
Proof.
  intros Hok He. pose proof (sw_objects _ Hok key He) as Hg. rewrite /remove_replica {1}/sm_bind /sm_get (go_path _ Hg).
  assert (store_step key None c c) as Hrefl by (apply store_step_refl; apply Hok).
  destruct (shard_store c id) as [r|] eqn:Hid; [|exists c, (λ m, m); by rewrite on_catalog_id].
  assert (∃ c1, cleanup_sidecar_maybe key (raw_refs c) id r c = (c1, Ok tt) ∧ store_step key None c c1 ∧ only_at r c c1)
    as (c1 & Hrun & Hs1 & Hat1).
  { rewrite /cleanup_sidecar_maybe. destruct (match raw_refs c with Some g => _ | None => true end); [|by exists c].
    pose proof (delete_step key (meta_sidecar_path key) r c (sw_ok _ Hok) (sw_raw _ Hok) (sw_known _ Hok)
      (go_sidecar _ Hg)) as Hd.
    specialize (Hd ltac:(intros a ->; by apply (co_refs _ (sw_ok _ Hok) id)) (or_intror (conj eq_refl (go_apart _ Hg)))).
    pose proof (store_delete_writes (meta_sidecar_path key) c r (go_sidecar _ Hg) (sw_ok _ Hok)) as Hp.
    specialize (Hp ltac:(intros a ->; by apply (co_refs _ (sw_ok _ Hok) id))).
    rewrite /delete_sidecar_of /sm_ignore /sm_bind /sm_try. destruct (on_store r _ c) as [c1 res].
    exists c1. destruct Hp as (_ & _ & _ & Hp). by destruct res. }
  rewrite {1}/sm_bind Hrun. destruct (step_ok _ _ _ _ Hs1) as (Hok1 & Hr1 & Hkn1).
  assert (shard_store c1 id = Some r) as Hid1 by by rewrite (ss_stores _ _ _ _ Hs1).
  pose proof (delete_step key key r c1 Hok1 Hr1 Hkn1 (go_key _ Hg)) as Hd.
  specialize (Hd ltac:(intros a ->; by apply (co_refs _ Hok1 id)) (or_introl eq_refl)).
  rewrite /sm_bind. destruct (on_store r (store_delete key) c1) as [c2 res]. cbn [fst] in Hd. destruct Hd as [Hs2 Hat2].
  assert (store_step key None c c2) as Hs by by eapply store_step_trans.
  assert (∀ a, Some r ≠ Some (At a) → heap c2 !! a = heap c !! a) as Hat.
  { intros a Hne. assert (r ≠ At a) as Hne' by congruence. by rewrite Hat2 // Hat1. }
  destruct res as [u|e|]; [by exists c2, (remove_shard key id)|exists c2, (λ m, m); by rewrite on_catalog_id..].
Qed.

(** Removing a replica the sweep picked: the others stay. *)
Lemma remove_excess key id c :
  sweep_ok c → pick_excess_shard c key = Some id →
  let '(c', r) := remove_replica key id c in
  swept c c' ∧
  (∀ k d n, k ≠ key → (intact c k d n → intact c' k d n) ∧ (survives c k d n → survives c' k d n)) ∧
  ∀ d n, (n <= factor c)%nat → intact c key d n →
    match r with Ok _ => intact c' key d n | _ => survives c' key d n end.
Proof.
  intros Hok Hpick. destruct (pick_excess_spec c key id Hpick) as (e & He & Hin & _ & Hrest).
  pose proof (remove_step key id c Hok ltac:(by eexists)) as Hr.
  destruct (remove_replica key id c) as [c' r]. destruct Hr as (c1 & f & -> & Hs & Hat & Hf).
  pose proof (ss_stores _ _ _ _ Hs) as Ho.
  assert (∀ k, k ≠ key → entries (f (catalog c)) !! k = entries (catalog c) !! k) as Hother.
  { intros k Hne. destruct r; subst f; [by apply remove_shard_other|done..]. }
  split_and!.
  - eapply swept_step; [done|exact Hs|]. intros k Hk. destruct (decide (k = key)) as [->|Hne]; [by eexists|].
    by rewrite -Hother.
  - intros k d n Hne. eapply step_other; [done|exact Hs|by eexists|done|by apply Hother].
  - intros d n Hn [_ (e0 & He0 & Hall)]. simplify_eq.
    set (rest := filter (λ s, s ≠ id) (filter (λ s, shard_is is_healthy c s = true) (pe_shards e))) in *.
    assert (∀ i a, i ≠ id → i ∈ pe_shards e → shard_store c i = Some (At a) → object_at c1 a key = Some d) as Hkeep.
    { intros i a Hne Hi Ha. rewrite /object_at Hat; [by apply (Hall i a)|].
      intros Hid. by apply Hne, (sw_distinct _ Hok i id a). }
    assert (∀ i, shard_store c1 i = shard_store c i) as Hst by (intros i; by rewrite Ho).
    destruct r as [u|er|].
    + set (c' := on_catalog _ c1).
      assert (filter (λ s, s ≠ id) (pe_shards e) ≠ []) as Hne.
      { intros Hnil. pose proof (co_factor _ (sw_ok _ Hok)). destruct rest as [|i l] eqn:Hrs; [simpl in Hrest; lia|].
        assert (i ∈ rest) as Hi by (rewrite Hrs; by left). apply list_elem_of_filter in Hi as [Hi1 Hi2].
        apply list_elem_of_filter in Hi2 as [_ Hi2].
        assert (i ∈ filter (λ s, s ≠ id) (pe_shards e)) as Hi by by apply list_elem_of_filter.
        rewrite Hnil in Hi. by apply elem_of_nil in Hi. }
      assert (entries (catalog c') !! key = Some (retain_others id e)) as Hent.
      { rewrite /c' Ho. cbn. by apply remove_shard_entry. }
      split.
      * rewrite /healthy_count Hent /count_shards /=. etransitivity; [exact Hn|]. etransitivity; [exact Hrest|].
        rewrite /rest !list_filter_filter.
        rewrite (list_filter_iff _ (λ i : nat, shard_is is_healthy c' i = true ∧ i ≠ id)) //.
        intros i. rewrite /shard_is /c' Ho. tauto.
      * eexists. split; [exact Hent|]. intros i a [Hne' Hi]%list_elem_of_filter Ha.
        apply (Hkeep i); [done|done|]. by rewrite -(Hst i).
    + apply (survives_rest c c1 key d n id e); [done|done|exact (ss_writes _ _ _ _ Hs)|done|exact Hall|exact Hkeep|].
      by etransitivity.
    + apply (survives_rest c c1 key d n id e); [done|done|exact (ss_writes _ _ _ _ Hs)|done|exact Hall|exact Hkeep|].
      by etransitivity.
Qed.

(** A call that trims [key] and leaves the other objects alone. *)
Definition trims_one (f : string → CM nat) : Prop :=
  ∀ key c, sweep_ok c →
    let c' := (f key c).1 in
    swept c c' ∧
    (∀ k d n, k ≠ key → (intact c k d n → intact c' k d n) ∧ (survives c k d n → survives c' k d n)) ∧
    ∀ d n, (n <= factor c)%nat → intact c key d n → survives c' key d n.

Lemma swept_factor c c' : swept c c' → factor c' = factor c.
Proof. intros Hs. by injection (sp_settings _ _ Hs). Qed.

Lemma trim_key_state fuel key c :
  (trim_key (S fuel) key c).1 =
    match pick_excess_shard c key with
    | None => c
    | Some id =>
      match remove_replica key id c with (c1, Ok _) => (trim_key fuel key c1).1 | (c1, _) => c1 end
    end.
Proof.
  cbn [trim_key]. rewrite /sm_bind /sm_get. destruct (pick_excess_shard c key) as [id|]; [|done]. rewrite /sm_try.
  destruct (remove_replica key id c) as [c1 [u|er|]]; [|done..]. by destruct (trim_key fuel key c1) as [c2 [n|e|]].
Qed.

Lemma trim_key_trims fuel : trims_one (trim_key fuel).
Proof.
  induction fuel as [|fuel IH]; intros key c Hok.
  { split_and!; [by apply swept_refl|done|intros; by apply intact_survives]. }
  rewrite trim_key_state. destruct (pick_excess_shard c key) as [id|] eqn:Hp.
  2: { split_and!; [by apply swept_refl|done|intros; by apply intact_survives]. }
  pose proof (remove_excess key id c Hok Hp) as Hr.
  destruct (remove_replica key id c) as [c1 [u|er|]]; [|exact Hr..]. destruct Hr as (Hs & Ho & Hk).
  destruct (IH key c1 (sp_ok _ _ Hs)) as (Hs2 & Ho2 & Hk2). split_and!.
  - by eapply swept_trans.
  - intros k d n Hne. destruct (Ho k d n Hne) as [Ha Hb]. destruct (Ho2 k d n Hne) as [Ha2 Hb2]. split; auto.
  - intros d n Hn Hint. apply Hk2; [by rewrite (swept_factor _ _ Hs)|]. by apply Hk.
Qed.

Lemma trim_one_trims : trims_one trim_one.
Proof. intros key c Hok. apply (trim_key_trims _ key c Hok). Qed.

Lemma trim_once_trims : trims_one trim_once.
Proof.
  intros key c Hok. rewrite /trim_once /sm_bind /sm_get. destruct (pick_excess_shard c key) as [id|] eqn:Hp.
  2: { split_and!; [by apply swept_refl|done|intros; by apply intact_survives]. }
  pose proof (remove_excess key id c Hok Hp) as Hr. rewrite /sm_try.
  destruct (remove_replica key id c) as [c1 [u|er|]]; [|exact Hr..]. destruct Hr as (Hs & Ho & Hk).
  split_and!; [done|done|]. intros d n Hn Hint. apply intact_survives; [by eapply sp_ok|by apply Hk].
Qed.

(** Trimming a batch: every object keeps its healthy replicas, up to the factor. *)
Lemma trim_batch f keys k d n c :
  trims_one f → NoDup keys → sweep_ok c → (n <= factor c)%nat →
  (k ∈ keys → intact c k d n) → (k ∉ keys → survives c k d n) →
  let c' := (count_all f keys c).1 in swept c c' ∧ survives c' k d n.
Proof.
  intros Hf Hnd. revert c. induction Hnd as [|key keys Hnot Hnd IH]; intros c Hok Hn Hin Hout.
  { split; [by apply swept_refl|]. apply Hout. by apply not_elem_of_nil. }
  cbn [count_all]. rewrite /sm_bind. pose proof (Hf key c Hok) as Hstep. cbn zeta in Hstep.
  assert (k ≠ key → (k ∈ keys → intact (f key c).1 k d n) ∧ (k ∉ keys → survives (f key c).1 k d n)) as Hother.
  { intros Hne. destruct Hstep as (_ & Ho & _). destruct (Ho k d n Hne) as [Ha Hb]. split; intros Hk.
    - apply Ha, Hin. by right.
    - apply Hb, Hout. rewrite elem_of_cons. by intros [?|?]. }
  assert (k = key → survives (f key c).1 k d n) as Hsame.
  { intros ->. destruct Hstep as (_ & _ & Hk). apply Hk; [done|]. apply Hin. by left. }
  assert (swept c (f key c).1) as Hs by apply Hstep.
  assert (survives (f key c).1 k d n ∨ k ∈ keys ∧ intact (f key c).1 k d n) as Hmid.
  { destruct (decide (k = key)) as [Heq|Hne]; [left; by apply Hsame|]. destruct (Hother Hne) as [Ha Hb].
    destruct (decide (k ∈ keys)); [right; auto|left; auto]. }
  destruct (f key c) as [c1 [m|er|]]; cbn [fst] in *.
  - specialize (IH c1 (sp_ok _ _ Hs)). rewrite (swept_factor _ _ Hs) in IH. specialize (IH Hn). ospecialize* IH.
    + intros Hk. destruct (decide (k = key)) as [->|Hne]; [done|]. by apply Hother.
    + intros Hk. destruct Hmid as [?|[? _]]; done.
    + cbn zeta in IH. destruct (count_all f keys c1) as [c2 [m'|er|]]; cbn [fst] in *; destruct IH as [Hs2 Hv];
        (split; [by eapply swept_trans|done]).
  - split; [done|]. destruct Hmid as [?|[_ ?]]; [done|]. apply intact_survives; [by eapply sp_ok|done].
  - split; [done|]. destruct Hmid as [?|[_ ?]]; [done|]. apply intact_survives; [by eapply sp_ok|done].
Qed.

(** ** The sweeps *)

Lemma over_keys_NoDup c batch : NoDup (iter_take batch (find_over_replicated c)).*1.
Proof.
  eapply sublist_NoDup; [|apply fmap_sublist, sublist_take]. 
  assert ((find_over_replicated c).*1 `sublist_of` (hm_iter (entries (catalog c))).*1) as Hsub.
  { rewrite /find_over_replicated. induction (hm_iter (entries (catalog c))) as [|[k e] l IH]; [done|]. cbn.
    case_decide; by constructor. }
  eapply sublist_NoDup; [|exact Hsub]. rewrite hm_iter_perm. apply NoDup_fst_map_to_list.
Qed.

Lemma settled_intact c k d : sweep_ok c → settled c k d → intact c k d (Nat.min (factor c) (healthy_count c k)).
Proof.
  intros Hok (e & He & Hall). split; [lia|]. exists e. split; [done|]. intros id a Hid Ha.
  destruct (co_refs _ (sw_ok _ Hok) id a Ha) as [b Hb]. rewrite /object_at Hb. by eapply Hall.
Qed.

Lemma trim_survives batch c k d n :
  sweep_ok c → (n <= factor c)%nat → intact c k d n →
  let c' := (over_replication_trim batch c).1 in swept c c' ∧ survives c' k d n.
Proof.
  intros Hok Hn Hint. apply trim_batch; try done; [apply trim_once_trims|apply over_keys_NoDup|].
  intros _. by apply intact_survives.
Qed.

Lemma re_replicate_keeps key c : sweep_ok c → keeps intact c (re_replicate now refs key c).1.
Proof.
  intros Hok. rewrite /re_replicate /sm_bind /sm_get.
  destruct (repair_step c key) as [[from to]|] eqn:Hstep; [|by apply keeps_refl].
  pose proof (repair_step_keeps key from to c Hok Hstep) as Hk. rewrite /sm_try.
  by destruct (replicate_object now key from to refs c) as [c1 [size|er|]].
Qed.

Lemma re_replication_keeps batch c : sweep_ok c → keeps intact c (re_replication_sweep now batch refs c).1.
Proof.
  intros Hok. rewrite /re_replication_sweep /sm_bind /sm_get. destruct (negb _); [by apply keeps_refl|].
  by apply count_all_keeps; [apply re_replicate_keeps|].
Qed.

(** What the sweep leaves: the state after trimming, when nothing cut it short. *)
Lemma sweep_state batch c :
  (repair_replication_sweep now batch refs c).1 =
    match count_all (repair_one now refs) (iter_take batch (find_under_replicated c)).*1 c with
    | (c1, Ok _) => (count_all trim_one (iter_take batch (find_over_replicated c1)).*1 c1).1
    | (c1, _) => c1
    end.
Proof.
  rewrite /repair_replication_sweep /sm_bind /sm_get. destruct (count_all (repair_one now refs) _ c) as [c1 [m|e|]]; [|done..].
  by destruct (count_all trim_one _ c1) as [c2 [m'|e|]].
Qed.

Lemma sweep_survives batch c k d n :
  sweep_ok c → (n <= factor c)%nat → intact c k d n →
  let c' := (repair_replication_sweep now batch refs c).1 in swept c c' ∧ survives c' k d n.
Proof.
  intros Hok Hn Hint. rewrite sweep_state.
  pose proof (count_all_keeps intact (repair_one now refs) (iter_take batch (find_under_replicated c)).*1 c
    ltac:(intros y c0 Hok0; by apply repair_key_keeps) Hok) as [Hs1 Hk1].
  destruct (count_all (repair_one now refs) _ c) as [c1 [m|er|]]; cbn [fst] in Hs1, Hk1.
  2,3: split; [done|]; apply intact_survives; [exact (sp_ok _ _ Hs1)|by apply Hk1].
  pose proof (trim_batch trim_one (iter_take batch (find_over_replicated c1)).*1 k d n c1 trim_one_trims
    (over_keys_NoDup c1 batch) (sp_ok _ _ Hs1)) as Ht.
  rewrite (swept_factor _ _ Hs1) in Ht. specialize (Ht Hn ltac:(intros _; by apply Hk1)).
  specialize (Ht ltac:(intros _; apply intact_survives; [exact (sp_ok _ _ Hs1)|by apply Hk1])).
  cbn zeta in Ht. destruct Ht as [Hs2 Hv]. split; [by eapply swept_trans|done].
Qed.
End copies.
