(* ===== verification/RepairGuarantees.v ===== *)
(** * The guarantees of replication repair

    The sweeps keep what is settled, the loops on one object end, and three
    histories the repair and the upkeep of the cluster get wrong. *)

From S2P Require Import Prelude.
From S2P Require Import Config.
From S2P Require Import Extent.
From S2P Require Import Concrete.
From S2P Require Import Index.
From S2P Require Import StoreTools.
From S2P Require Import StoreMeta.
From S2P Require Import Instances.
From S2P Require Import Tlv.
From S2P Require Import Catalog.
From S2P Require Import JumpHash.
From S2P Require Import Backend.
From S2P Require Import Cluster.
From S2P Require Import ClusterIo.
From S2P Require Import ClusterFacts.
From S2P Require Import ClusterOps.
From S2P Require Import ClusterExamples.
From S2P Require Import ClusterGuarantees.
From S2P Require Import ShardMeta.
From S2P Require Import MetaGuarantees.
From S2P Require Import ClusterAdmin.
From S2P Require Import ClusterCopy.
From S2P Require Import Repair.
From S2P Require Import RepairFacts.

(** ** The loops on one object *)

Section ends.
Context `{ObjectBackend, Crc32c, HashMapOrder, ObjectPath, Chrono}.
Implicit Types (c : ShardedObjectStore) (refs : option RawRefRegistry).

(** Why the repair of an object can stop. *)
Definition repair_done (now : Z) refs (key : string) c : Prop :=
  (∀ e, entries (catalog c) !! key = Some e → (factor c <= count_shards available c e)%nat) ∨
  repair_step c key = None ∨
  ∃ c0 from to e, replicate_object now key from to refs c0 = (c, Err e).

Definition trim_done (key : string) c : Prop :=
  pick_excess_shard c key = None ∨ ∃ c0 id e, remove_replica key id c0 = (c, Err e).

Lemma repair_key_ends fuel now refs key c c' n :
  repair_key fuel now refs key c = (c', Ok n) → repair_done now refs key c' ∧ (n <= entry_targets c key)%nat.
Proof.
  revert c n. induction fuel as [|fuel IH]; intros c n; [done|]. cbn [repair_key]. rewrite /sm_bind /sm_get.
  destruct (entries (catalog c) !! key) as [e|] eqn:He.
  2: { intros [= <- <-]. split; [left|lia]. intros e He'. by rewrite He in He'. }
  case_decide as Henough.
  { intros [= <- <-]. split; [left|lia]. intros e' He'. by simplify_eq. }
  destruct (repair_step c key) as [[from to]|] eqn:Hs; [|intros [= <- <-]; split; [by right; left|lia]].
  destruct (repair_step_target c key from to e He Hs) as (Hto & _ & _).
  pose proof (replicate_shape now key from to refs c) as Hr. rewrite /sm_try.
  destruct (replicate_object now key from to refs c) as [c1 [size|er|]] eqn:Hrun; [| |done].
  2: { intros [= <- <-]. split; [|lia]. right; right. by eexists _, _, _, _. }
  destruct Hr as (Hsh & _ & size' & ml & Hc). pose proof Hto as [[Hnot _] _]%list_elem_of_filter.
  destruct (add_replica_entry now key to size' ml (catalog c) e He Hnot) as (e' & He' & Hp).
  rewrite -Hc in He'. pose proof (open_targets_fewer c c1 e e' to Hsh Hp Hto) as Hlt.
  destruct (repair_key fuel now refs key c1) as [c2 [m|er|]] eqn:Hrest; [|done..]. intros [= <- <-].
  destruct (IH c1 m Hrest) as [Hd Hm]. split; [exact Hd|]. rewrite /entry_targets He' in Hm. rewrite /entry_targets He. lia.
Qed.

Lemma trim_key_ends fuel key c c' n :
  trim_key fuel key c = (c', Ok n) → trim_done key c' ∧ (n <= entry_length c key - factor c)%nat.
Proof.
  revert c n. induction fuel as [|fuel IH]; intros c n; [done|]. cbn [trim_key]. rewrite /sm_bind /sm_get.
  destruct (pick_excess_shard c key) as [id|] eqn:Hp; [|intros [= <- <-]; split; [by left|lia]].
  destruct (pick_excess_spec c key id Hp) as (e & He & Hin & Hf & Hrest).
  pose proof (remove_shape key id c) as Hr. rewrite /sm_try.
  destruct (remove_replica key id c) as [c1 [u|er|]] eqn:Hrun; [| |done].
  2: { intros [= <- <-]. split; [|lia]. right. by eexists _, _, _. }
  destruct Hr as (_ & Hset & Hc). destruct (trim_key fuel key c1) as [c2 [m|er|]] eqn:Hrun2; [|done..]. intros [= <- <-].
  destruct (IH c1 m Hrun2) as [Hd Hm]. split; [exact Hd|].
  assert (factor c1 = factor c) as Hfac by by injection Hset.
  assert (entry_length c1 key < entry_length c key)%nat as Hlt.
  { rewrite /entry_length He Hc /remove_shard He /=. case_decide; [rewrite lookup_delete_eq|rewrite lookup_insert_eq /=]; [lia|].
    eapply length_filter_lt; [exact Hin|]. by intros Hne. }
  assert (entry_length c key = length (pe_shards e)) as Hlen by by rewrite /entry_length He.
  lia.
Qed.

(** The loops as the code has them, without a bound on their iterations.
    [repair_runs now refs key c n c' r]: from [c] the loop on [key] tries [n]
    copies, one per iteration, and ends in [c'] with the result [r]. *)
Definition lacks (key : string) c : Prop :=
  ∃ e, entries (catalog c) !! key = Some e ∧ (count_shards available c e < factor c)%nat.

Inductive repair_runs (now : Z) refs (key : string) : ShardedObjectStore → nat → ShardedObjectStore → Res Error nat → Prop :=
| repair_enough c : ¬ lacks key c → repair_runs now refs key c 0 c (Ok 0%nat)
| repair_stuck c : lacks key c → repair_step c key = None → repair_runs now refs key c 0 c (Ok 0%nat)
| repair_fails c from to c' e :
    lacks key c → repair_step c key = Some (from, to) → replicate_object now key from to refs c = (c', Err e) →
    repair_runs now refs key c 1 c' (Ok 0%nat)
| repair_panics c from to c' :
    lacks key c → repair_step c key = Some (from, to) → replicate_object now key from to refs c = (c', Panic) →
    repair_runs now refs key c 1 c' Panic
| repair_goes_on c from to c1 size n c' r :
    lacks key c → repair_step c key = Some (from, to) → replicate_object now key from to refs c = (c1, Ok size) →
    repair_runs now refs key c1 n c' r → repair_runs now refs key c (S n) c' (S <$> r).

Inductive trim_runs (key : string) : ShardedObjectStore → nat → ShardedObjectStore → Res Error nat → Prop :=
| trim_stops c : pick_excess_shard c key = None → trim_runs key c 0 c (Ok 0%nat)
| trim_fails c id c' e :
    pick_excess_shard c key = Some id → remove_replica key id c = (c', Err e) → trim_runs key c 1 c' (Ok 0%nat)
| trim_panics c id c' :
    pick_excess_shard c key = Some id → remove_replica key id c = (c', Panic) → trim_runs key c 1 c' Panic
| trim_goes_on c id c1 u n c' r :
    pick_excess_shard c key = Some id → remove_replica key id c = (c1, Ok u) →
    trim_runs key c1 n c' r → trim_runs key c (S n) c' (S <$> r).

Lemma repair_key_runs fuel now refs key c :
  (entry_targets c key < fuel)%nat →
  ∃ n, repair_runs now refs key c n (repair_key fuel now refs key c).1 (repair_key fuel now refs key c).2 ∧
    (n <= entry_targets c key)%nat.
Proof.
  revert c. induction fuel as [|fuel IH]; intros c Hf; [lia|]. cbn [repair_key]. rewrite /sm_bind /sm_get.
  destruct (entries (catalog c) !! key) as [e|] eqn:He.
  2: { exists 0%nat. rewrite /sm_ret /=. split; [|lia]. apply repair_enough. intros (e & He' & _). by rewrite He in He'. }
  case_decide as Henough.
  { exists 0%nat. rewrite /sm_ret /=. split; [|lia]. apply repair_enough. intros (e' & He' & Hl). simplify_eq. lia. }
  assert (lacks key c) as Hl by (exists e; split; [done|lia]).
  destruct (repair_step c key) as [[from to]|] eqn:Hs; [|exists 0%nat; split; [by apply repair_stuck|lia]].
  destruct (repair_step_target c key from to e He Hs) as (Hto & _ & _).
  assert (1 <= entry_targets c key)%nat as Hone.
  { rewrite /entry_targets He. destruct (open_targets c e); [by apply elem_of_nil in Hto|simpl; lia]. }
  pose proof (replicate_shape now key from to refs c) as Hr. rewrite /sm_try.
  destruct (replicate_object now key from to refs c) as [c1 [size|er|]] eqn:Hrun.
  2: { exists 1%nat. split; [by eapply repair_fails|lia]. }
  2: { exists 1%nat. split; [by eapply repair_panics|lia]. }
  destruct Hr as (Hsh & _ & size' & ml & Hc). pose proof Hto as [[Hnot _] _]%list_elem_of_filter.
  destruct (add_replica_entry now key to size' ml (catalog c) e He Hnot) as (e' & He' & Hp).
  rewrite -Hc in He'. pose proof (open_targets_fewer c c1 e e' to Hsh Hp Hto) as Hlt.
  assert (entry_targets c1 key < entry_targets c key)%nat by by rewrite /entry_targets He' He.
  destruct (IH c1) as (n & Hn & Hle); [lia|]. exists (S n). split; [|lia].
  pose proof (repair_goes_on now refs key c from to c1 size n _ _ Hl Hs Hrun Hn) as Hgo.
  by destruct (repair_key fuel now refs key c1) as [c2 [m|er|]].
Qed.

Lemma trim_key_runs fuel key c :
  (entry_length c key < fuel)%nat →
  ∃ n, trim_runs key c n (trim_key fuel key c).1 (trim_key fuel key c).2 ∧ (n <= entry_length c key - factor c)%nat.
Proof.
  revert c. induction fuel as [|fuel IH]; intros c Hf; [lia|]. cbn [trim_key]. rewrite /sm_bind /sm_get.
  destruct (pick_excess_shard c key) as [id|] eqn:Hp; [|exists 0%nat; split; [by apply trim_stops|lia]].
  destruct (pick_excess_spec c key id Hp) as (e & He & Hin & Hfac & Hrest).
  assert (entry_length c key = length (pe_shards e)) as Hlen by by rewrite /entry_length He.
  pose proof (remove_shape key id c) as Hr. rewrite /sm_try.
  destruct (remove_replica key id c) as [c1 [u|er|]] eqn:Hrun.
  2: { exists 1%nat. split; [by eapply trim_fails|lia]. }
  2: { exists 1%nat. split; [by eapply trim_panics|lia]. }
  destruct Hr as (_ & Hset & Hc). assert (factor c1 = factor c) as Hfc by by injection Hset.
  assert (entry_length c1 key < length (pe_shards e))%nat as Hlt.
  { rewrite /entry_length Hc /remove_shard He /=. case_decide; [rewrite lookup_delete_eq|rewrite lookup_insert_eq /=].
    - destruct (pe_shards e); [by apply elem_of_nil in Hin|simpl; lia].
    - eapply length_filter_lt; [exact Hin|]. by intros Hne. }
  destruct (IH c1) as (n & Hn & Hle); [lia|]. exists (S n). split; [|lia].
  pose proof (trim_goes_on key c id c1 u n _ _ Hp Hrun Hn) as Hgo.
  by destruct (trim_key fuel key c1) as [c2 [m|er|]].
Qed.

(** C38: The loops of the sweep end.  On any cluster and any stores, the loop
    that adds replicas of one object and the one that trims them end after
    finitely many iterations: their run as unbounded loops is the one
    [repair_one] and [trim_one] compute, it tries at most one copy per shard
    that lacks the object, or one removal per replica beyond the factor, and
    more fuel changes nothing.  They end because the object has what it
    needs, because no further step exists, or because a step failed (or
    panicked, the only way for them to panic). *)
Theorem repair_loops_end now refs key c :
  (let '(c', r) := repair_one now refs key c in
   ∃ n, repair_runs now refs key c n c' r ∧ (n <= entry_targets c key <= length (shards c))%nat ∧
     ∀ copies, r = Ok copies → repair_done now refs key c' ∧ (copies <= entry_targets c key)%nat) ∧
  (let '(c', r) := trim_one key c in
   ∃ n, trim_runs key c n c' r ∧ (n <= entry_length c key - factor c)%nat ∧
     ∀ removed, r = Ok removed → trim_done key c' ∧ (removed <= entry_length c key - factor c)%nat) ∧
  (∀ fuel, (length (shards c) < fuel)%nat → repair_key fuel now refs key c = repair_one now refs key c) ∧
  (∀ fuel, (entry_length c key < fuel)%nat → trim_key fuel key c = trim_one key c).
Proof.
  pose proof (entry_targets_bound c key) as Hb. rewrite /repair_one /trim_one /sm_bind /sm_get.
  rewrite -/(entry_length c key). split_and!.
  - destruct (repair_key_runs (S (length (shards c))) now refs key c) as (n & Hn & Hle); [lia|].
    pose proof (repair_key_ends (S (length (shards c))) now refs key c) as He.
    destruct (repair_key _ _ _ _ c) as [c' r]. exists n. split_and!; [done|lia|lia|].
    intros m ->. by apply He.
  - destruct (trim_key_runs (S (entry_length c key)) key c) as (n & Hn & Hle); [lia|].
    pose proof (trim_key_ends (S (entry_length c key)) key c) as He.
    destruct (trim_key _ _ c) as [c' r]. exists n. split_and!; [done|done|]. intros m ->. by apply He.
  - intros fuel Hl. apply repair_key_fuel; lia.
  - intros fuel Hl. apply trim_key_fuel; [done|lia].
Qed.
End ends.

(** ** What the sweeps keep *)

Section sweeps.
Context `{RawBackendLaws, Crc32c, HashMapOrderLaws, ObjectPath, Chrono}.

(** The three sweeps. *)
Definition sweep_runs (now batch : Z) (refs : option RawRefRegistry) (c c' : ShardedObjectStore) : Prop :=
  c' = (repair_replication_sweep now batch refs c).1 ∨
  c' = (re_replication_sweep now batch refs c).1 ∨
  c' = (over_replication_trim batch c).1.

(** C14: The sweeps keep objects.  Whatever a repair, re-replication or trim
    sweep returns and wherever it is cut short, an object all of whose
    replicas have the body [d] still has it on as many healthy shards of its
    catalog entry as before, counted up to the replication factor; no replica
    its entry names has another body, the shards and the settings are
    unchanged and the catalog has no new keys. *)
Theorem sweep_keeps_objects now batch refs known c c' k d :
  known [] → (∀ x md, known x → known md → data_ok now (x ++ md)) →
  sweep_ok refs known c → settled c k d → sweep_runs now batch refs c c' →
  swept refs known c c' ∧ survives c' k d (Nat.min (factor c) (healthy_count c k)).
Proof.
  intros Hnil Hw Hok Hset Hrun. pose proof (settled_intact refs known c k d Hok Hset) as Hint.
  assert (Nat.min (factor c) (healthy_count c k) <= factor c)%nat as Hn by lia.
  destruct Hrun as [-> |[-> | ->]].
  - by apply sweep_survives.
  - destruct (re_replication_keeps now refs known Hnil Hw batch c Hok) as [Hs Hk]. split; [done|].
    apply (intact_survives refs known); [by eapply sp_ok|by apply Hk].
  - by apply (trim_survives now).
Qed.
End sweeps.

(** ** Examples *)

(** Of the two shards with the object one has gone offline; the stores of
    shards 0 and 2 are raw. *)
Definition degraded : ShardedObjectStore := fst (set_shard_health 200 2 Offline after_a).

Lemma degraded_key k : is_Some (entries (catalog degraded) !! k) → k = "a".
Proof.
  intros Hk%elem_of_dom. assert (dom (entries (catalog degraded)) = {["a"]}) as Hd by (by vm_compute).
  rewrite Hd in Hk. clear Hd. by apply elem_of_singleton in Hk.
Qed.

Lemma degraded_store i a : shard_store degraded i = Some (At a) → i = a ∧ (a < 3)%nat.
Proof. destruct i as [|[|[|i]]]; intros Ha; vm_compute in Ha; simplify_eq; lia. Qed.

Lemma degraded_at i : (i < 3)%nat → shard_store degraded i = Some (At i).
Proof. intros Hi. destruct i as [|[|[|i]]]; [vm_compute; reflexivity..|lia]. Qed.

Lemma degraded_heap a : (a < 3)%nat → is_Some (heap degraded !! a).
Proof. intros Ha. destruct a as [|[|[|a]]]; [vm_compute; by eexists..|lia]. Qed.

Lemma mixed_ref i a : raw_ref mixed_registry i = Some a → i = a ∧ (i < 3)%nat.
Proof. destruct i as [|[|[|i]]]; intros Ha; vm_compute in Ha; simplify_eq; lia. Qed.

Lemma degraded_ok : sweep_ok (Some mixed_registry) (λ _, True) degraded.
Proof.
  split.
  - split; [done| |vm_compute; lia|vm_compute; lia]. intros i a [-> Ha]%degraded_store.
    exact (degraded_heap a Ha).
  - intros a (rr & id & [= <-] & [-> Ha]%mixed_ref). destruct (degraded_heap a Ha) as [b Hb].
    exists b. split; [exact Hb|exact I].
  - intros a b k _. split; intros; exact I.
  - intros rr id [= <-]. split; [by destruct id as [|[|[|id]]]; vm_compute|]. intros a r Ha Hr.
    apply mixed_ref in Ha as [-> Ha]. rewrite (degraded_at a Ha) in Hr. injection Hr as <-. reflexivity.
  - intros k ->%degraded_key. split; [exact I|exact I|by vm_compute|by vm_compute].
  - intros k k' ->%degraded_key ->%degraded_key. by vm_compute.
  - intros i j a [-> _]%degraded_store [-> _]%degraded_store. reflexivity.
  - intros id Hh. exists id. apply degraded_at. destruct id as [|[|[|id]]]; [lia..|]. by vm_compute in Hh.
Qed.

Lemma degraded_settled : settled degraded "a" body_a.
Proof.
  eexists. split; [by vm_compute|]. intros id a b Hid [-> Ha]%degraded_store Hb.
  destruct a as [|[|[|a]]]; [| | |lia].
  - vm_compute in Hb. injection Hb as <-. by vm_compute.
  - exfalso. revert Hid. by apply (bool_decide_eq_false_1 _).
  - vm_compute in Hb. injection Hb as <-. by vm_compute.
Qed.

Lemma sweep_keeps_objects_witness :
  healthy_count degraded "a" = 1%nat ∧
  survives (repair_replication_sweep 300 10 (Some mixed_registry) degraded).1 "a" body_a 1 ∧
  snd (repair_replication_sweep 300 10 (Some mixed_registry) degraded) = Ok (mkRepairResult 1 0 0 0).
Proof.
  split; [by vm_compute|]. split; [|by vm_compute].
  destruct (sweep_keeps_objects 300 10 (Some mixed_registry) (λ _, True) degraded
    (repair_replication_sweep 300 10 (Some mixed_registry) degraded).1 "a" body_a) as [_ Hs].
  - exact I.
  - by intros.
  - exact degraded_ok.
  - exact degraded_settled.
  - by left.
  - exact Hs.
Defined.

(** The object of [degraded] gets one copy, on the shard that lacks it. *)
Lemma repair_loops_end_witness :
  (repair_one 300 (Some mixed_registry) "a" degraded).2 = Ok 1%nat ∧ entry_targets degraded "a" = 1%nat ∧
  ∃ n, repair_runs 300 (Some mixed_registry) "a" degraded n (repair_one 300 (Some mixed_registry) "a" degraded).1 (Ok 1%nat) ∧
    (n <= 1)%nat.
Proof.
  assert ((repair_one 300 (Some mixed_registry) "a" degraded).2 = Ok 1%nat) as Hone by (by vm_compute).
  split; [exact Hone|]. split; [by vm_compute|].
  destruct (repair_loops_end 300 (Some mixed_registry) "a" degraded) as [Hr _].
  destruct (repair_one 300 (Some mixed_registry) "a" degraded) as [c' r]. cbn in Hone |- *. subst r.
  destruct Hr as (n & Hn & [Hle _] & _). exists n. split; [exact Hn|].
  assert (entry_targets degraded "a" = 1%nat) as Ht by (by vm_compute). by rewrite Ht in Hle.
Defined.

(** ** Histories the upkeep gets wrong *)

(** The calls of the store at [a] that fail from now on. *)
Definition with_faults (a : nat) (calls : list MemCall) (c : ShardedObjectStore) : ShardedObjectStore :=
  with_heap (alter (λ m : MemStore, mkMem (mem m) calls) a (heap c)) c.

Definition with_health_of (id : nat) (h : ShardHealth) (c : ShardedObjectStore) : ShardedObjectStore :=
  fst (set_shard_health 200 id h c).

(** Three objects on shard 0, none on shard 1, whose device takes no writes. *)
Definition tilted : ShardedObjectStore :=
  let c := with_health_of 1 Offline (mem_cluster 2 1 no_faults) in
  let c := fst (put 102 "c" body_a (fst (put 101 "b" body_a (fst (put 100 "a" body_a c))))) in
  with_faults 1 [MemPut] (with_health_of 1 Healthy c).

Lemma tilted_counts : shard_object_counts tilted = [(0, 3); (1, 0)]%nat.
Proof. vm_compute. reflexivity. Qed.

Definition first_of_tilted : option (nat * (string * PlacementEntry)) :=
  list_find (λ '(_, e), movable 1 0 1 [0; 1]%nat e = true) (entries_for_shard 0 (catalog tilted)).

Lemma tilted_step : match first_of_tilted with
  | Some (_, (key, _)) => move_one 300 None 1 0 1 [0; 1]%nat key tilted = (tilted, Ok MoveFailed)
  | None => False
  end.
Proof. vm_cast_no_check (eq_refl (tilted, @Ok Error _ MoveFailed)). Qed.

Lemma tilted_loop fuel n :
  redistribute_loop fuel 300 None 10 (mean_of 3 2) (mkF64 1 (-1)) 1 [0; 1]%nat [(0, 3); (1, 0)]%nat
    (mkRedistribute 0 0 n []) tilted = (tilted, Ok None).
Proof.
  revert n. induction fuel as [|fuel IH]; intros n; [done|].
  cbn [redistribute_loop rd_moved rd_skipped rd_errors]. change (negb (Z.of_nat 0 <? 10)) with false. cbv iota.
  change (sort_desc [(0, 3); (1, 0)]%nat) with [(0, 3); (1, 0)]%nat. cbn [last].
  assert (within_tolerance (mean_of 3 2) (mkF64 1 (-1)) (3 - 0) = false) as -> by (by vm_compute).
  case_decide; [lia|]. rewrite /sm_bind /sm_get. pose proof tilted_step as Hstep. rewrite /first_of_tilted in Hstep.
  destruct (list_find _ _) as [[i [key e]]|]; [|done]. rewrite Hstep. apply IH.
Qed.

(** An unwritable destination keeps the redistribution going: the same object
    is tried for ever. *)
Lemma redistribute_never_ends fuel :
  redistribute_sweep fuel 300 10 (mkF64 1 (-1)) None tilted = (tilted, Ok None).
Proof.
  rewrite /redistribute_sweep /sm_bind /sm_get tilted_counts.
  assert (find_under_replicated tilted = []) as -> by (by vm_compute).
  case_decide as Hu; [by destruct Hu|]. case_decide as Hl; [simpl in Hl; lia|]. case_decide as Hs; [done|].
  assert (within_tolerance (mean_of (sum_counts [(0, 3); (1, 0)]%nat) (length [(0, 3); (1, 0)]%nat)) (mkF64 1 (-1))
    (max_count [(0, 3); (1, 0)]%nat - min_count [(0, 3); (1, 0)]%nat) = false) as -> by (by vm_compute).
  change (factor tilted) with 1%nat. change ([(0, 3); (1, 0)]%nat.*1) with [0; 1]%nat.
  change (sum_counts [(0, 3); (1, 0)]%nat) with 3%nat. change (length [(0, 3); (1, 0)]%nat) with 2%nat.
  by rewrite tilted_loop.
Qed.

(** What a get reads. *)
Definition read_back (now : Z) (k : string) (c : ShardedObjectStore) : option (list byte) :=
  match get now k c with
  | (c', Ok x) => match (bytes x c').2 with Ok d => Some d | _ => None end
  | _ => None
  end.

(** Draining counts a replica on a shard that is offline as a surviving copy:
    the last one that can be read is deleted, and nothing is reported. *)
Lemma drain_deletes_last_copy :
  let c := with_faults 0 [MemGet; MemPut] (with_health_of 0 Offline after_a) in
  let survivors := new_cluster 0 (heap c) [Some 0; Some 1]%nat 2 in
  let '((c', _), r) := drain_shard 300 2 (At 2%nat) None (c, survivors) in
  read_back 250 "a" c = Some body_a ∧ r = Ok (mkDrain 0 1 0 1 0 0 1) ∧ read_back 400 "a" c' = None.
Proof. vm_compute. split; [reflexivity|]. split; reflexivity. Qed.

(** A day after an upload over an existing object was started and forgotten,
    the purge deletes that object from the primary shard. *)
#[local] Instance by_key : UploadOrder := map_to_list.

Definition DAY_2 : Z := 2 * 24 * 60 * 60 * 1000000000.

Lemma purge_deletes_object :
  let c := fst (put 100 "a" body_a (mem_cluster 1 1 no_faults)) in
  let '(c1, u) := put_multipart_opts 200 0 "a" c in
  let '(c2, n) := purge_stale_multiparts DAY_2 c1 in
  read_back 250 "a" c1 = Some body_a ∧ n = Ok 1%nat ∧ read_back 300 "a" c2 = None.
Proof. vm_compute. split; [reflexivity|]. split; reflexivity. Qed.

(** An upload that replaces an object and misses its quorum deletes the copies
    of the object it replaced; the catalog still lists them. *)
Definition failed_upload : ShardedObjectStore * Res Error PutResult :=
  let c := fst (put 100 "a" body_a (with_min_writes 3 (mem_cluster 3 3 no_faults))) in
  match put_multipart_opts 200 0 "a" (with_faults 1 [MemPut] c) with
  | (c1, Ok u) =>
    let '(s, _) := put_part 210 (as_bytes "new") (c1, u) in
    let '((c2, _), r) := complete 220 s in (c2, r)
  | (c1, Err e) => (c1, Err e)
  | (c1, Panic) => (c1, Panic)
  end.

Lemma failed_upload_deletes :
  snd failed_upload = Err (Generic (InsufficientWrites "a" 3 2)) ∧
  pe_shards <$> entries (catalog (fst failed_upload)) !! "a" = Some [0; 1; 2]%nat ∧
  (λ a, object_at (fst failed_upload) a "a") <$> [0; 1; 2]%nat = [None; Some body_a; None].
Proof. vm_compute. split; [reflexivity|]. split; reflexivity. Qed.
