(* ===== verification/AdminGuarantees.v ===== *)
(** * The guarantees of the catalog's reconstruction

    What the catalog lists after a rebuild from the shards. *)

From S2P Require Import Prelude.
From S2P Require Import Config.
From S2P Require Import Extent.
From S2P Require Import Concrete.
From S2P Require Import Index.
From S2P Require Import StoreTools.
From S2P Require Import StoreMeta.
From S2P Require Import Instances.
From S2P Require Import Tlv.
From S2P Require Import Catalog.
From S2P Require Import JumpHash.
From S2P Require Import Backend.
From S2P Require Import Cluster.
From S2P Require Import ClusterIo.
From S2P Require Import ClusterFacts.
From S2P Require Import ClusterOps.
From S2P Require Import ClusterExamples.
From S2P Require Import ShardMeta.
From S2P Require Import MetaGuarantees.
From S2P Require Import ClusterAdmin.
From S2P Require Import RepairGuarantees.

(** ** The new map *)

Definition replicas_in (m : gmap string PlacementEntry) (k : string) : list nat :=
  default [] (pe_shards <$> m !! k).

(** Entries a rebuild makes. *)
Definition rebuilt (m : gmap string PlacementEntry) : Prop :=
  map_Forall (λ k e, is_sidecar_key k = false ∧ NoDup (pe_shards e) ∧ pe_shards e ≠ []) m.

Definition location_of (item : ObjectMeta * Z) : string := om_location item.1.

Lemma push_shard_elem id e : id ∈ pe_shards (push_shard id e).
Proof. rewrite /push_shard. case_bool_decide; [done|]. cbn. set_solver. Qed.

Lemma push_shard_shards id e j : j ∈ pe_shards (push_shard id e) ↔ j ∈ pe_shards e ∨ j = id.
Proof. rewrite /push_shard. case_bool_decide; cbn; [|set_solver]. split; [by left|]. by intros [?| ->]. Qed.

Lemma push_shard_NoDup id e : NoDup (pe_shards e) → NoDup (pe_shards (push_shard id e)).
Proof.
  rewrite /push_shard. case_bool_decide as Hin; [done|]. intros Hnd. cbn. apply NoDup_app. split_and!; [done| |by apply NoDup_singleton].
  intros x Hx ->%list_elem_of_singleton. done.
Qed.

Lemma raise_meta_len_shards ml e : pe_shards (raise_meta_len ml e) = pe_shards e.
Proof. rewrite /raise_meta_len. by case_match. Qed.

Lemma rebuild_step_spec id m n item k j :
  rebuilt m →
  let '(m', _) := rebuild_step id (m, n) item in
  rebuilt m' ∧ (j ∈ replicas_in m' k ↔ j ∈ replicas_in m k ∨ j = id ∧ location_of item = k ∧ is_sidecar_key k = false).
Proof.
  destruct item as [meta ml]. rewrite /rebuild_step /location_of. cbn [fst]. intros Hm.
  destruct (is_sidecar_key (om_location meta)) eqn:Hside.
  { split; [done|]. split; [by left|]. intros [?|(_ & <- & ?)]; congruence. }
  set (e := default _ _). split.
  - apply map_Forall_insert_2; [|done]. split_and!; [done| |].
    + apply push_shard_NoDup. rewrite raise_meta_len_shards /e.
      destruct (m !! om_location meta) as [e0|] eqn:He; [|by apply NoDup_nil_2]. by apply (Hm _ _ He).
    + intros Hnil. pose proof (push_shard_elem id (raise_meta_len ml e)) as Hin. rewrite Hnil in Hin. by apply elem_of_nil in Hin.
  - rewrite /replicas_in. destruct (decide (om_location meta = k)) as [<-|Hne].
    + rewrite lookup_insert_eq /= push_shard_shards raise_meta_len_shards /e.
      destruct (m !! om_location meta) as [e0|]; cbn; tauto.
    + rewrite lookup_insert_ne //. tauto.
Qed.

Lemma rebuild_objects_spec id objs acc k j :
  rebuilt acc.1 →
  let acc' := foldl (rebuild_step id) acc objs in
  rebuilt acc'.1 ∧
  (j ∈ replicas_in acc'.1 k ↔ j ∈ replicas_in acc.1 k ∨ j = id ∧ k ∈ location_of <$> objs ∧ is_sidecar_key k = false).
Proof.
  revert acc. induction objs as [|item objs IH]; intros [m n] Hm; cbn [foldl].
  { split; [done|]. set_solver. }
  pose proof (rebuild_step_spec id m n item k j Hm) as Hstep.
  destruct (rebuild_step id (m, n) item) as [m1 n1]. destruct Hstep as [Hm1 Hj].
  destruct (IH (m1, n1) Hm1) as [Hr Hk]. split; [done|]. rewrite Hk. cbn [fst]. rewrite Hj fmap_cons elem_of_cons.
  intuition congruence.
Qed.

(** ** The scans *)

Section rebuild.
Context `{RawBackendLaws, Crc32c, HashMapOrderLaws, ObjectPath, Chrono}.
Implicit Types (c : ShardedObjectStore) (k : string).

Lemma rebuild_shards_spec (outs : list (nat * (Error + list (ObjectMeta * Z)))) acc k j :
  rebuilt acc.1 →
  let acc' := foldl rebuild_shard acc outs in
  rebuilt acc'.1 ∧
  (j ∈ replicas_in acc'.1 k ↔ j ∈ replicas_in acc.1 k ∨
     is_sidecar_key k = false ∧ ∃ objs, (j, inr objs) ∈ outs ∧ k ∈ location_of <$> objs).
Proof.
  revert acc. induction outs as [|[id o] outs IH]; intros acc Hm; cbn [foldl].
  { split; [done|]. split; [by left|]. intros [?|(_ & objs & Hin & _)]; [done|by apply elem_of_nil in Hin]. }
  assert (rebuilt (rebuild_shard acc (id, o)).1 ∧
    (j ∈ replicas_in (rebuild_shard acc (id, o)).1 k ↔ j ∈ replicas_in acc.1 k ∨
       is_sidecar_key k = false ∧ ∃ objs, (j, inr objs) = (id, o) ∧ k ∈ location_of <$> objs)) as [Hm1 Hj].
  { destruct o as [e|objs]; cbn [rebuild_shard].
    - split; [done|]. split; [by left|]. by intros [?|(_ & objs & ? & _)].
    - destruct (rebuild_objects_spec id objs acc k j Hm) as [Hr Hk]. split; [done|]. rewrite Hk. split.
      + intros [?|(-> & Hin & Hs)]; [by left|]. right. split; [done|]. by exists objs.
      + intros [?|(Hs & objs' & [= -> ->] & Hin)]; [by left|]. by right. }
  destruct (IH _ Hm1) as [Hr Hk]. split; [done|]. rewrite Hk Hj. split.
  - intros [[?|(Hs & objs & Heq & Hin)]|(Hs & objs & Hin & Hk2)]; [by left| |].
    + right. split; [done|]. exists objs. rewrite Heq. split; [by left|done].
    + right. split; [done|]. exists objs. split; [by right|done].
  - intros [?|(Hs & objs & [Heq|Hin]%elem_of_cons & Hk2)]; [by do 2 left| |].
    + left; right. split; [done|]. by exists objs.
    + right. split; [done|]. by exists objs.
Qed.

(** Calls that change nothing, one after the other. *)
Lemma fan_out_asks {A} (f : nat → StoreRef → CM A) l c :
  (∀ id r, (id, r) ∈ l → (f id r c).1 = c ∧ (f id r c).2 ≠ Panic) →
  ∃ outs, fan_out f l c = (c, Ok outs) ∧
    ∀ id a, (id, inr a) ∈ outs ↔ ∃ r, (id, r) ∈ l ∧ (f id r c).2 = Ok a.
Proof.
  induction l as [|[id r] l IH]; intros Hf.
  { exists []. split; [done|]. intros id a. split; [by intros ?%elem_of_nil|]. by intros (r & ?%elem_of_nil & _). }
  destruct IH as (outs & Hrun & Houts). { intros id' r' Hin. apply Hf. by right. }
  destruct (Hf id r ltac:(by left)) as [Hc Hp]. cbn [fan_out]. rewrite /sm_bind /sm_try.
  destruct (f id r c) as [c1 res] eqn:Hres. cbn [fst snd] in Hc, Hp. subst c1.
  set (o := match res with Ok a => inr a | Err e => inl e | Panic => inl (NotConnected id) end : Error + A).
  exists ((id, o) :: outs). split; [destruct res; [by rewrite Hrun..|done]|]. intros id' a.
  rewrite elem_of_cons Houts. split.
  - intros [[= -> Ho]|(r' & Hin & Ha)].
    + exists r. split; [by left|]. rewrite Hres. cbn. rewrite /o in Ho. by destruct res; simplify_eq.
    + exists r'. split; [by right|done].
  - intros (r' & [[= -> ->]|Hin]%elem_of_cons & Ha); [left|right; by exists r'].
    rewrite Hres in Ha. cbn in Ha. by subst res.
Qed.

(** The registry names the stores of the shards that are reachable. *)
Definition refs_match c : Prop := ∀ id a,
  shard_is reachable c id = true → raw_of (raw_refs c) id = Some a →
  shard_store c id = Some (At a) ∧ ∃ b, heap c !! a = Some b ∧ is_raw b.

(** A reachable shard whose listing succeeds. *)
Definition scanned c (id : nat) : Prop :=
  shard_is reachable c id = true ∧ ∃ r items, shard_store c id = Some r ∧ (scan_shard id r c).2 = Ok items.

Lemma scan_shard_spec c id r :
  cluster_ok c → refs_match c → shard_is reachable c id = true → shard_store c id = Some r →
  (scan_shard id r c).1 = c ∧
  match (scan_shard id r c).2 with
  | Ok items => ∀ k, key_ok k → (k ∈ location_of <$> items ↔ ∃ d, shard_has c id k (Some d))
  | Err _ => True
  | Panic => False
  end.
Proof.
  intros Hok Hm Hreach Hr. rewrite /scan_shard /sm_bind /sm_get.
  assert (∀ a b k, r = At a → heap c !! a = Some b → is_Some (view b !! k) ↔ ∃ d, shard_has c id k (Some d)) as Hhas.
  { intros a b k -> Hb. split.
    - intros [d Hd]. exists d, a. split; [done|]. by rewrite /object_at Hb.
    - intros (d & a' & Ha' & Ho). simplify_eq. rewrite /object_at Hb in Ho. by exists d. }
  destruct (raw_of (raw_refs c) id) as [a|] eqn:Ha.
  - destruct (Hm id a Hreach Ha) as (Hs & b & Hb & Hraw). simplify_eq. rewrite Hb. split; [done|]. cbn. intros k Hk.
    pose proof (co_heap _ Hok _ _ Hb) as Hbok. destruct (raw_list_law b Hbok Hraw) as [_ Hl].
    rewrite -(Hhas a b k eq_refl Hb) (raw_view_law b Hbok Hraw) lookup_fmap fmap_is_Some. by apply Hl.
  - rewrite /ask_store. destruct r as [i|a]; [done|]. destruct (co_refs _ Hok id a Hr) as [b Hb]. rewrite Hb.
    pose proof (list_law b (co_heap _ Hok _ _ Hb)) as Hl. destruct (store_list None b) as [l|e|]; [|done..].
    destruct Hl as [_ Hl]. cbn. split; [done|]. intros k Hk. rewrite -(Hhas a b k eq_refl Hb) -Hl // -list_fmap_compose.
    done.
Qed.

(** C25: A rebuild restores the catalog from the shards.  It always returns.
    Whatever the catalog had, afterwards it lists under every object key
    exactly the reachable shards that could be listed and have the object,
    each once; no entry is empty, none is for a sidecar, and nothing else of
    the cluster changed. *)
Theorem rebuild_exact c :
  cluster_ok c → refs_match c →
  ∃ m n, rebuild_catalog c = (on_catalog (λ _, mkCatalog m false) c, Ok n) ∧ rebuilt m ∧
    ∀ k, key_ok k → is_sidecar_key k = false →
      ∀ id, id ∈ replicas_in m k ↔ scanned c id ∧ ∃ d, shard_has c id k (Some d).
Proof.
  intros Hok Hm. set (ids := filter (λ id, shard_is reachable c id = true) (all_shards c)).
  assert (∀ id r, (id, r) ∈ stores_of c ids ↔ shard_is reachable c id = true ∧ shard_store c id = Some r) as Hstores.
  { intros id r. rewrite /stores_of list_elem_of_omap. split.
    - intros (i & Hin & Hi). apply fmap_Some in Hi as (r' & Hr' & [= <- <-]). split; [|done].
      by apply list_elem_of_filter in Hin as [? _].
    - intros [Hr Hs]. exists id. rewrite Hs. split; [|done]. apply list_elem_of_filter. split; [done|].
      rewrite /all_shards elem_of_seq. rewrite /shard_is in Hr. destruct (shards c !! id) eqn:Hl; [|done].
      apply lookup_lt_Some in Hl. lia. }
  destruct (fan_out_asks scan_shard (stores_of c ids) c) as (outs & Hrun & Houts).
  { intros id r [Hr Hs]%Hstores. destruct (scan_shard_spec c id r Hok Hm Hr Hs) as [Hc Hp]. split; [done|].
    by destruct (scan_shard id r c).2. }
  assert (rebuilt ∅) as Hempty by apply map_Forall_empty.
  rewrite /rebuild_catalog {1}/sm_bind /sm_get {1}/sm_bind Hrun.
  destruct (foldl rebuild_shard (∅, 0%nat) outs) as [m n] eqn:Hfold. exists m, n. split; [done|]. split.
  { pose proof (rebuild_shards_spec outs (∅, 0%nat) "" 0%nat Hempty) as [Hr _]. by rewrite Hfold in Hr. }
  intros k Hk Hside id. pose proof (rebuild_shards_spec outs (∅, 0%nat) k id Hempty) as [_ Hin]. rewrite Hfold in Hin.
  cbn [fst] in Hin. rewrite Hin. split.
  - intros [Hno|(_ & objs & Hout & Hkin)]; [by apply elem_of_nil in Hno|].
    apply Houts in Hout as (r & [Hr Hs]%Hstores & Hscan). split; [split; [done|by exists r, objs]|].
    pose proof (scan_shard_spec c id r Hok Hm Hr Hs) as [_ Hp]. rewrite Hscan in Hp. by apply Hp.
  - intros [[Hr (r & items & Hs & Hscan)] Hd]. right. split; [done|]. exists items. split.
    + apply Houts. exists r. by rewrite Hstores.
    + pose proof (scan_shard_spec c id r Hok Hm Hr Hs) as [_ Hp]. rewrite Hscan in Hp. by apply Hp.
Qed.
End rebuild.

(** ** An example *)

(** The degraded cluster with its registry and an empty catalog. *)
Definition forgotten : ShardedObjectStore :=
  on_catalog (λ _, catalog_new) (set_raw_refs mixed_registry degraded).

Lemma forgotten_same (c : ShardedObjectStore) f rr i :
  shard_store (on_catalog f (set_raw_refs rr c)) i = shard_store c i ∧ heap (on_catalog f (set_raw_refs rr c)) = heap c.
Proof. done. Qed.

Lemma forgotten_ok : cluster_ok forgotten ∧ refs_match forgotten.
Proof.
  assert (∀ i, shard_store forgotten i = shard_store degraded i ∧ heap forgotten = heap degraded) as Hf
    by (intros i; apply forgotten_same).
  split.
  - split; [done| |vm_compute; lia|vm_compute; lia]. intros i a. destruct (Hf i) as [-> ->].
    intros [_ Ha]%degraded_store. exact (degraded_heap a Ha).
  - intros i a _ Ha. destruct (mixed_ref i a Ha) as [-> Hlt]. destruct (Hf a) as [-> ->].
    split; [exact (degraded_at a Hlt)|]. destruct (degraded_heap a Hlt) as [b Hb]. exists b. split; [exact Hb|exact I].
Qed.

Lemma rebuild_exact_witness : ∃ m n, rebuild_catalog forgotten = (on_catalog (λ _, mkCatalog m false) forgotten, Ok n) ∧
  rebuilt m ∧ (∀ id, id ∈ replicas_in m "a" ↔ scanned forgotten id ∧ ∃ d, shard_has forgotten id "a" (Some d)) ∧
  replicas_in (entries (catalog (rebuild_catalog forgotten).1)) "a" = [0%nat].
Proof.
  destruct (rebuild_exact forgotten (proj1 forgotten_ok) (proj2 forgotten_ok)) as (m & n & Hrun & Hm & Hk).
  exists m, n. split; [exact Hrun|]. split; [exact Hm|]. split; [|vm_compute; reflexivity].
  apply (Hk "a" I). vm_compute. reflexivity.
Defined.
