(* ===== verification/UploadGuarantees.v ===== *)
(** * The guarantees of uploads through the cluster

    What the replication at the end of a multipart upload leaves, and the
    case it does not cover. *)

From S2P Require Import Prelude.
From S2P Require Import Config.
From S2P Require Import Extent.
From S2P Require Import Concrete.
From S2P Require Import Index.
From S2P Require Import StoreTools.
From S2P Require Import StoreMeta.
From S2P Require Import Instances.
From S2P Require Import Tlv.
From S2P Require Import Catalog.
From S2P Require Import JumpHash.
From S2P Require Import Backend.
From S2P Require Import Cluster.
From S2P Require Import ClusterIo.
From S2P Require Import ClusterFacts.
From S2P Require Import ClusterOps.
From S2P Require Import ClusterExamples.
From S2P Require Import ClusterGuarantees.
From S2P Require Import ShardMeta.
From S2P Require Import MetaGuarantees.
From S2P Require Import ClusterAdmin.
From S2P Require Import ClusterCopy.
From S2P Require Import Repair.
From S2P Require Import RepairFacts.
From S2P Require Import RepairGuarantees.

Section uploads.
Context `{RawBackendLaws, Crc32c, HashMapOrderLaws, ObjectPath, Chrono}.
Implicit Types (c : ShardedObjectStore) (u : ShardedMultipartUpload).

(** The handle's stores are those of distinct shards. *)
Record upload_fits c u : Prop := {
  uf_primary : shard_store c (primary_shard_id u) = Some (primary_store u);
  uf_replicas id r : (id, r) ∈ replica_stores u → shard_store c id = Some r;
  uf_distinct : NoDup (primary_shard_id u :: (replica_stores u).*1);
}.

(** Copies to several shards. *)
Lemma fan_out_copies refs known {A} (f : nat → StoreRef → CM A) key d l c :
  (∀ id r c, cluster_ok c → raw_heap refs c → all_known refs known c → refs_ok refs c → shard_store c id = Some r →
     step_run refs known key (Some d) c (f id r c) (copies key d id)) →
  cluster_ok c → raw_heap refs c → all_known refs known c → refs_ok refs c →
  (∀ id r, (id, r) ∈ l → shard_store c id = Some r) →
  let '(c', res) := fan_out f l c in
  store_step refs known key (Some d) c c' ∧
  match res with
  | Ok outs => outs.*1 = l.*1 ∧ ∀ id a, (id, inr a) ∈ outs → copies key d id c'
  | _ => True
  end.
Proof.
  intros Hf. revert c. induction l as [|[id r] l IH]; intros c Hok Hr Hkn Hrefs Hl.
  { split; [by apply store_step_refl|]. split; [done|]. by intros id a ?%elem_of_nil. }
  cbn [fan_out]. pose proof (Hf id r c Hok Hr Hkn Hrefs ltac:(apply Hl; by left)) as [Hs Hq].
  rewrite /sm_bind /sm_try. destruct (f id r c) as [c1 res]. cbn [fst snd] in Hs, Hq.
  destruct (step_ok _ _ _ _ _ _ Hs) as (Hok1 & Hr1 & Hkn1). pose proof (ss_stores _ _ _ _ _ _ Hs) as Ho.
  assert (∀ i, shard_store c1 i = shard_store c i) as Hst by (intros i; by rewrite Ho).
  specialize (IH c1 Hok1 Hr1 Hkn1). ospecialize* IH.
  { intros rr i Hrr. destruct (Hrefs rr i Hrr) as [Hns Ha]. split; [done|]. intros a0 r0. rewrite Hst. apply Ha. }
  { intros i r0 Hin. rewrite Hst. apply Hl. by right. }
  destruct (fan_out f l c1) as [c2 res2] eqn:Hrun. destruct IH as [Hs2 Hres2].
  assert (store_step refs known key (Some d) c c2) as Hs12 by by eapply store_step_trans.
  assert (∀ o : Error + A, (match o with inr _ => copies key d id c1 | inl _ => True end) →
    match res2 with
    | Ok outs => ((id, o) :: outs).*1 = ((id, r) :: l).*1 ∧ ∀ i a, (i, inr a) ∈ (id, o) :: outs → copies key d i c2
    | _ => True end) as Hgo.
  { intros o Ho1. destruct res2 as [outs|e|]; [|done..]. destruct Hres2 as [Hfst Hin]. split; [cbn; by rewrite Hfst|].
    intros i a [[= -> <-]|Hin2]%elem_of_cons; [|by eapply Hin].
    rewrite /copies. eapply shard_has_writes; [apply Hs2|apply Hs2|exact Ho1]. }
  destruct res as [a|e|]; [|..|done].
  - specialize (Hgo (inr a) Hq). rewrite Hrun. destruct res2; cbn; (split; [exact Hs12|exact Hgo]).
  - specialize (Hgo (inl e) I). rewrite Hrun. destruct res2; cbn; (split; [exact Hs12|exact Hgo]).
Qed.

Lemma delete_copies_frame location l : frame (delete_copies location l).
Proof. induction l as [|[id r] l IH]; cbn [delete_copies]; frame_tac. Qed.

Lemma record_upload_entry now u placed size crc ml c :
  let '(c', r) := record_upload now u placed size crc ml c in
  r = Ok tt ∧ heap c' = heap c ∧ shards c' = shards c ∧
  entries (catalog c') !! mu_location u = Some (mkPlacement placed size (Some crc) now ml).
Proof.
  rewrite /record_upload /sm_bind /sm_modify. destruct (mu_event_bus u); cbn; (split_and!; [done..|apply lookup_insert_eq]).
Qed.

(** C26: An upload meets its quorum.  When the replication at the end of an
    upload with replica targets returns success, the catalog entry of the
    object names exactly distinct shards that hold the body its primary
    assembled, the primary among them and at least [min_writes] in number,
    with the size and checksum of that body.  When it fails, the catalog is as
    it was. *)
Theorem upload_replicated now known u c c' res :
  known [] → (∀ x md, known x → known md → data_ok now (x ++ md)) →
  cluster_ok c → raw_heap (mu_raw_refs u) c → all_known (mu_raw_refs u) known c → refs_ok (mu_raw_refs u) c →
  good_object (mu_location u) → upload_fits c u →
  replicate_upload now u c = (c', res) →
  match res with
  | Ok _ => ∃ d placed ml,
      shard_has c (primary_shard_id u) (mu_location u) (Some d) ∧
      NoDup placed ∧ primary_shard_id u ∈ placed ∧ (mu_min_writes u <= length placed)%nat ∧
      entries (catalog c') !! mu_location u = Some (mkPlacement placed (zlen d) (Some (crc32c d)) now ml) ∧
      ∀ id, id ∈ placed → shard_has c' id (mu_location u) (Some d)
  | _ => catalog c' = catalog c
  end.
Proof.
  intros Hnil Hw Hok Hr Hkn Hrefs Hg Hfit. rewrite /replicate_upload {1}/sm_bind.
  pose proof (asks_read_copy (mu_raw_refs u) (primary_shard_id u) (primary_store u) (mu_location u) c) as Hasks.
  destruct (read_copy _ _ _ _ c) as [c1 [[d md]|e|]] eqn:Hread; cbn [fst] in Hasks; subst c1; [|by intros [= <- <-]..].
  destruct (read_copy_known (mu_raw_refs u) known Hnil (primary_shard_id u) (primary_store u) (mu_location u) c c d md)
    as (Hkd & Hkm & Hhas); try done; [apply Hfit|].
  pose proof (fan_out_copies (mu_raw_refs u) known (copy_to_replica now u d md) (mu_location u) d (replica_stores u) c) as Hf.
  ospecialize* Hf; [|done..|apply Hfit|].
  { intros id r c0 Hok0 Hr0 Hkn0 Hrefs0 Hid. by apply write_copy_step. }
  rewrite {1}/sm_bind. destruct (fan_out _ _ c) as [c1 [outs|e|]]; [|intros [= <- <-]; by rewrite (ss_stores _ _ _ _ _ _ (proj1 Hf))..].
  destruct Hf as [Hs [Hfst Hcopies]]. pose proof (ss_stores _ _ _ _ _ _ Hs) as Ho.
  assert (NoDup (primary_shard_id u :: placed_of outs)) as Hnd.
  { pose proof (uf_distinct _ _ Hfit) as Hnd. eapply sublist_NoDup; [exact Hnd|].
    apply sublist_skip. rewrite -Hfst. apply placed_ids. }
  case_decide as Hn.
  - rewrite {1}/sm_bind. pose proof (delete_copies_frame (mu_location u)
      (filter (λ '(id, _), id ∈ primary_shard_id u :: placed_of outs) (replica_stores u)) c1) as Hd.
    destruct (delete_copies _ _ c1) as [c2 [x|e|]]; cbn [fst] in Hd; [|intros [= <- <-]; by rewrite Hd Ho..].
    pose proof (frame_ignore (F := Error) _ (frame_on_store (primary_store u) (store_delete (mu_location u))) c2) as Hi.
    rewrite /sm_bind. destruct (sm_ignore _ c2) as [c3 [x'|e|]]; cbn [fst] in Hi; intros [= <- <-]; by rewrite Hi Hd Ho.
  - pose proof (record_upload_entry now u (primary_shard_id u :: placed_of outs) (zlen d) (crc32c d) (zlen md mod 2 ^ 16) c1) as Hrec.
    intros Hrun. rewrite Hrun in Hrec. destruct Hrec as (-> & Hheap & Hsh & Hent).
    exists d, (primary_shard_id u :: placed_of outs), (zlen md mod 2 ^ 16).
    split_and!; [done|done|by left|lia|done|]. intros id Hin.
    assert (shard_has c1 id (mu_location u) (Some d)) as (a & Ha & Hob).
    { apply elem_of_cons in Hin as [-> |Hin].
      - eapply shard_has_writes; [apply Hs|apply Hs|exact Hhas].
      - destruct (elem_of_placed outs id Hin) as [x Hx]. by eapply Hcopies. }
    exists a. rewrite /object_at Hheap. split; [|done]. by rewrite /shard_store Hsh.
Qed.
End uploads.

(** ** Examples *)

(** An upload assembled on shard 0, still to be copied to shard 1. *)
Definition pending_upload : ShardedMultipartUpload :=
  mkUpload "a" ("a", []) 0 (At 0%nat) [(1%nat, At 1%nat)] false 1 2 (Some mixed_registry).

Lemma pending_fits : upload_fits degraded pending_upload.
Proof.
  split.
  - exact (degraded_at 0 ltac:(lia)).
  - intros id r [= -> ->]%list_elem_of_singleton. exact (degraded_at 1 ltac:(lia)).
  - by apply (bool_decide_eq_true_1 _).
Qed.

Lemma good_object_a : good_object "a".
Proof. split; [exact I|exact I|by vm_compute|by vm_compute]. Qed.

Lemma upload_replicated_witness :
  snd (replicate_upload 300 pending_upload degraded) = Ok tt ∧
  ∃ placed, NoDup placed ∧ (2 <= length placed)%nat ∧
    ∀ id, id ∈ placed → ∃ d, shard_has (fst (replicate_upload 300 pending_upload degraded)) id "a" (Some d).
Proof.
  assert (snd (replicate_upload 300 pending_upload degraded) = Ok tt) as Hr by (vm_compute; reflexivity).
  split; [exact Hr|]. pose proof degraded_ok as [Hok Hraw Hkn Hrefs _ _ _ _].
  pose proof (upload_replicated 300 (λ _, True) pending_upload degraded
    (fst (replicate_upload 300 pending_upload degraded)) (Ok tt) I (λ _ _ _ _, I) Hok Hraw Hkn Hrefs good_object_a pending_fits) as Hp.
  destruct Hp as (d & placed & ml & _ & Hnd & _ & Hn & _ & Hall).
  - rewrite <- Hr. exact (surjective_pairing _).
  - exists placed. split; [exact Hnd|]. split; [exact Hn|]. intros id Hin. exists d. exact (Hall id Hin).
Defined.

(** With one healthy shard left, a put is refused for lack of replicas but an
    upload of the same object is accepted with its only copy. *)
Definition one_left : ShardedObjectStore :=
  with_health_of 1 Offline (with_health_of 2 Offline (with_min_writes 2 (mem_cluster 3 3 no_faults))).

Definition lone_upload : ShardedObjectStore * Res Error PutResult :=
  match put_multipart_opts 200 0 "a" one_left with
  | (c1, Ok u) => let '((c2, _), r) := complete 220 (fst (put_part 210 body_a (c1, u))) in (c2, r)
  | (c1, Err e) => (c1, Err e)
  | (c1, Panic) => (c1, Panic)
  end.

Lemma lone_upload_skips_quorum :
  snd (put 200 "a" body_a one_left) = Err (Generic (InsufficientWrites "a" 2 1)) ∧
  snd lone_upload = Ok (mkPutResult None None) ∧
  pe_shards <$> entries (catalog (fst lone_upload)) !! "a" = Some [0%nat].
Proof. vm_compute. split; [reflexivity|]. split; reflexivity. Qed.
