(* ===== verification/Text.v ===== *)
(** * Texts

    The operations of Rust's [str] the daemon and the configuration parsers
    use, on UTF-8 bytes, and the tokeniser both parsers share; then what reading
    back a printed text gives. *)

From Stdlib Require Import ZifyBool.
From S2P Require Import Prelude.
From S2P Require Import Config.
From S2P Require Import Tlv.

Definition byte_val (a : Ascii.ascii) : nat := Ascii.nat_of_ascii a.
Definition newline : Ascii.ascii := Ascii.ascii_of_nat 10.
Definition double_quote : Ascii.ascii := Ascii.ascii_of_nat 34.
Definition single_quote : Ascii.ascii := Ascii.ascii_of_nat 39.
Definition plus_sign : Ascii.ascii := Ascii.ascii_of_nat 43.
Definition comma : Ascii.ascii := Ascii.ascii_of_nat 44.
Definition equals_sign : Ascii.ascii := Ascii.ascii_of_nat 61.

(** ** White space *)

(** The UTF-8 encodings of white space, by their length. *)
Definition ws1 (x : nat) : bool := ((x =? 32) || (9 <=? x) && (x <=? 13))%nat.
Definition ws2 (x y : nat) : bool := ((x =? 194) && ((y =? 133) || (y =? 160)))%nat.
Definition ws3 (x y z : nat) : bool :=
  ((x =? 225) && (y =? 154) && (z =? 128) ||
   (x =? 226) && (y =? 128) && ((128 <=? z) && (z <=? 138) || (z =? 168) || (z =? 169) || (z =? 175)) ||
   (x =? 226) && (y =? 129) && (z =? 159) ||
   (x =? 227) && (y =? 128) && (z =? 128))%nat.

(** [char::is_whitespace] for the character at the head of a text: its number
    of bytes, or zero. *)
Definition ws_len (s : string) : nat :=
  match s with
  | EmptyString => 0
  | String a s1 =>
    if ws1 (byte_val a) then 1
    else match s1 with
    | EmptyString => 0
    | String b s2 =>
      if ws2 (byte_val a) (byte_val b) then 2
      else match s2 with
      | EmptyString => 0
      | String c _ => if ws3 (byte_val a) (byte_val b) (byte_val c) then 3 else 0
      end
    end
  end%nat.

(** [trim_start], [skip] bytes into a white-space character. *)
Fixpoint trim_from (skip : nat) (s : string) : string :=
  match s with
  | EmptyString => ""
  | String a s' =>
    match skip with
    | S skip' => trim_from skip' s'
    | O => match ws_len s with O => s | S n => trim_from n s' end
    end
  end.
Definition trim_start (s : string) : string := trim_from 0 s.

Definition is_blank (s : string) : bool := bool_decide (trim_start s = "").

Fixpoint trim_end (s : string) : string :=
  match s with
  | EmptyString => ""
  | String a s' => if is_blank s then "" else String a (trim_end s')
  end.

Definition trim (s : string) : string := trim_end (trim_start s).

(** ** Splitting *)

(** The text up to the first [sep], and what follows it. *)
Fixpoint cut (sep : Ascii.ascii) (s : string) : string * option string :=
  match s with
  | EmptyString => ("", None)
  | String a s' =>
    if decide (a = sep) then ("", Some s')
    else let '(t, rest) := cut sep s' in (String a t, rest)
  end.

(** [s.split(sep)] *)
Fixpoint split_on (sep : Ascii.ascii) (s : string) : list string :=
  match s with
  | EmptyString => [""]
  | String a s' =>
    if decide (a = sep) then "" :: split_on sep s'
    else match split_on sep s' with
         | t :: l => String a t :: l
         | [] => [String a ""]
         end
  end.

Fixpoint drop_bytes (n : nat) (s : string) : string :=
  match n, s with
  | O, _ => s
  | S n', String _ s' => drop_bytes n' s'
  | S _, EmptyString => ""
  end.

(** [splitn(2, char::is_whitespace)] *)
Fixpoint cut_ws (s : string) : string * option string :=
  match s with
  | EmptyString => ("", None)
  | String a s' =>
    match ws_len s with
    | O => let '(t, rest) := cut_ws s' in (String a t, rest)
    | S n => ("", Some (drop_bytes n s'))
    end
  end.

(** [split_whitespace().next().unwrap_or("")] *)
Definition first_word (s : string) : string := (cut_ws (trim_start s)).1.

(** One line without the carriage return before its newline. *)
Fixpoint strip_cr (s : string) : string :=
  match s with
  | EmptyString => ""
  | String a EmptyString => if decide (byte_val a = 13%nat) then "" else s
  | String a s' => String a (strip_cr s')
  end.

(** [lines()]: the text after the last newline is a line when it is not empty. *)
Fixpoint lines_of (parts : list string) : list string :=
  match parts with
  | [] => []
  | [last] => if decide (last = "") then [] else [last]
  | part :: parts' => strip_cr part :: lines_of parts'
  end.
Definition lines (s : string) : list string := lines_of (split_on newline s).

(** ** Numbers *)

Definition digit_of (a : Ascii.ascii) : option Z :=
  let n := byte_val a in if decide (48 <= n <= 57)%nat then Some (Z.of_nat n - 48) else None.

Fixpoint parse_digits (max acc : Z) (s : string) : option Z :=
  match s with
  | EmptyString => Some acc
  | String a s' =>
    match digit_of a with
    | Some d => let v := acc * 10 + d in if max <? v then None else parse_digits max v s'
    | None => None
    end
  end.

(** [s.parse::<uN>()], [max] the largest value of the type. *)
Definition parse_uint (max : Z) (s : string) : option Z :=
  match s with
  | EmptyString => None
  | String a s' =>
    if decide (a = plus_sign) then if decide (s' = "") then None else parse_digits max 0 s'
    else parse_digits max 0 s
  end.

(** ** The tokeniser *)

Definition is_quote (a : Ascii.ascii) : bool := bool_decide (a = double_quote ∨ a = single_quote).

Definition snoc (s : string) (a : Ascii.ascii) : string := s +:+ String a "".

(** The loop over the characters: the open quote at the end, and the tokens.
    [skip] counts the bytes left of a white-space character. *)
Fixpoint tokens_from (skip : nat) (in_quote : option Ascii.ascii) (current : string) (s : string) :
    option Ascii.ascii * list string :=
  match s with
  | EmptyString => (in_quote, if decide (current = "") then [] else [current])
  | String a s' =>
    match skip with
    | S skip' => tokens_from skip' in_quote current s'
    | O =>
      match in_quote with
      | Some q =>
        if decide (a = q) then tokens_from 0 None current s' else tokens_from 0 in_quote (snoc current a) s'
      | None =>
        if is_quote a then tokens_from 0 (Some a) current s'
        else match ws_len s with
        | S n =>
          let '(q, l) := tokens_from n None "" s' in
          (q, if decide (current = "") then l else current :: l)
        | O => tokens_from 0 None (snoc current a) s'
        end
      end
    end
  end.

(** [Vec::contains] on strings. *)
Definition mem_str (s : string) (l : list string) : bool := bool_decide (s ∈ l).

Definition starts_with (p s : string) : bool := String.prefix p s.

(** [part.split('=').next()] *)
Definition key_of (part : string) : string := (cut equals_sign part).1.

(** [val == "true" || val == "1"] *)
Definition is_true (val : string) : bool := bool_decide (val = "true" ∨ val = "1").

(** [p.strip_prefix(a).or_else(|| p.strip_prefix(b))] *)
Definition strip_either (a b p : string) : option string :=
  match strip_prefix a p with Some val => Some val | None => strip_prefix b p end.

Definition quoted (s : string) : string := "'" +:+ s +:+ "'".

(** ** Folds that can fail *)

Fixpoint try_fold {A B E} (f : A → B → Res E A) (acc : A) (l : list B) : Res E A :=
  match l with
  | [] => Ok acc
  | x :: l' => acc ← f acc x; try_fold f acc l'
  end.

(** ** Lines with their indentation *)

(** [raw_line.len() - raw_line.trim_start().len()] *)
Definition indent_of (raw_line : string) : nat := String.length raw_line - String.length (trim_start raw_line).

Definition is_comment (trimmed : string) : bool := bool_decide (trimmed = "") || starts_with "#" trimmed.

(** The lines that are neither empty nor comments, trimmed. *)
Definition indented_lines (text : string) : list (nat * string) :=
  (λ raw_line, (indent_of raw_line, trim raw_line)) <$> filter (λ raw_line, is_comment (trim raw_line) = false) (lines text).

(** ** Paths *)

(** What the file system says of a path. *)
Record Paths : Type := mkPaths { exists_at : string → bool; is_dir_at : string → bool }.

(** [Path::parent] *)

Definition slash : Ascii.ascii := Ascii.ascii_of_nat 47.

(** A piece that is not a component: empty, or a dot that does not begin a
    relative path.  [pieces] run from the last to the first. *)
Fixpoint drop_skipped (rooted : bool) (pieces : list string) : list string :=
  match pieces with
  | [] => []
  | [first] => if decide (first = "") then [] else if rooted && bool_decide (first = ".") then [] else [first]
  | p :: pieces' => if decide (p = "" ∨ p = ".") then drop_skipped rooted pieces' else pieces
  end.

Definition joined (pieces : list string) : string := String.concat "/" pieces.

Definition path_parent (path : string) : option string :=
  let '(rooted, body) := match strip_prefix "/" path with Some s => (true, s) | None => (false, path) end in
  match drop_skipped rooted (reverse (split_on slash body)) with
  | [] => None
  | _ :: rest => Some ((if rooted then "/" else "") +:+ joined (reverse (drop_skipped rooted rest)))
  end.

(** * Facts about texts

    What reading back a printed line, a printed text and a printed number
    gives. *)

(** ** Appending *)

Lemma app_cons_str a s t : String a s +:+ t = String a (s +:+ t).
Proof. done. Qed.

Lemma app_assoc_str (s t u : string) : (s +:+ t) +:+ u = s +:+ (t +:+ u).
Proof. induction s as [|a s IH]; [done|]. by rewrite !app_cons_str IH. Qed.

Lemma app_nil_str s : s +:+ "" = s.
Proof. induction s as [|a s IH]; [done|]. by rewrite app_cons_str IH. Qed.

Lemma length_app_str s t : String.length (s +:+ t) = (String.length s + String.length t)%nat.
Proof. induction s as [|a s IH]; [done|]. by rewrite app_cons_str /= IH. Qed.

Lemma snoc_app s a t : snoc s a +:+ t = s +:+ String a t.
Proof. by rewrite /snoc app_assoc_str. Qed.

Lemma snoc_nonempty s a : snoc s a ≠ "".
Proof. by destruct s. Qed.

(** ** Characters *)

(** ASCII that is seen, and the part of it that stands outside of quotes. *)
Definition is_visible (a : Ascii.ascii) : bool := (33 <=? byte_val a)%nat && (byte_val a <=? 126)%nat.
Definition is_plain (a : Ascii.ascii) : bool := is_visible a && negb (is_quote a).

Fixpoint all_chars (p : Ascii.ascii → bool) (s : string) : bool :=
  match s with EmptyString => true | String a s' => p a && all_chars p s' end.

Definition plain (s : string) : bool := all_chars is_plain s.

(** A value that can stand between double quotes on one line. *)
Definition quotable (s : string) : bool := all_chars (λ a, negb (bool_decide (a = double_quote ∨ a = newline))) s.

Definition one_line (s : string) : bool := all_chars (λ a, negb (bool_decide (a = newline))) s.

Fixpoint ends_visible (s : string) : bool :=
  match s with
  | EmptyString => false
  | String a EmptyString => is_visible a
  | String _ s' => ends_visible s'
  end.

Definition starts_visible (s : string) : bool := match s with EmptyString => false | String a _ => is_visible a end.

Lemma all_chars_app p s t : all_chars p (s +:+ t) = all_chars p s && all_chars p t.
Proof. induction s as [|a s IH]; [done|]. by rewrite app_cons_str /= IH andb_assoc. Qed.

Lemma all_chars_impl (p q : Ascii.ascii → bool) s :
  (∀ a, p a = true → q a = true) → all_chars p s = true → all_chars q s = true.
Proof.
  intros Hpq. induction s as [|a s IH]; [done|]. cbn. intros [Ha Hs]%andb_true_iff. apply andb_true_iff. auto.
Qed.

Lemma visible_bounds a : is_visible a = true → (33 <= byte_val a <= 126)%nat.
Proof. rewrite /is_visible. intros [?%Nat.leb_le ?%Nat.leb_le]%andb_true_iff. lia. Qed.

Lemma plain_visible a : is_plain a = true → is_visible a = true ∧ is_quote a = false.
Proof. rewrite /is_plain. intros [H1 H2]%andb_true_iff. split; [done|by apply negb_true_iff]. Qed.

Lemma visible_not_newline a : is_visible a = true → bool_decide (a = newline) = false.
Proof. intros Ha%visible_bounds. apply bool_decide_eq_false_2. intros ->. change (byte_val newline) with 10%nat in Ha. lia. Qed.

Lemma plain_one_line s : plain s = true → one_line s = true.
Proof.
  apply all_chars_impl. intros a [Ha _]%plain_visible. by rewrite visible_not_newline.
Qed.

Lemma quotable_one_line s : quotable s = true → one_line s = true.
Proof. apply all_chars_impl. intros a. rewrite !negb_true_iff !bool_decide_eq_false. tauto. Qed.

Lemma ends_visible_app s t : t ≠ "" → ends_visible (s +:+ t) = ends_visible t.
Proof.
  intros Ht. induction s as [|a s IH]; [done|]. rewrite app_cons_str. cbn.
  destruct (s +:+ t) as [|b u] eqn:E; [|by rewrite -IH]. destruct s; [|done]. by destruct Ht.
Qed.

(** ** White space *)

Lemma ws1_visible x : (33 <= x <= 126)%nat → ws1 x = false.
Proof. rewrite /ws1. lia. Qed.

Lemma ws2_bounds x y : ws2 x y = true → (194 <= x)%nat ∧ (128 <= y)%nat.
Proof. rewrite /ws2. lia. Qed.

Lemma ws3_bounds x y z : ws3 x y z = true → (194 <= x)%nat ∧ (128 <= y)%nat ∧ (128 <= z)%nat.
Proof. rewrite /ws3. lia. Qed.

Lemma ws_len_visible a s : is_visible a = true → ws_len (String a s) = 0%nat.
Proof.
  intros Ha%visible_bounds. cbn. rewrite ws1_visible //. destruct s as [|b [|c s]]; [done|..].
  - by destruct (ws2 _ _) eqn:E; [apply ws2_bounds in E; lia|].
  - destruct (ws2 _ _) eqn:E; [apply ws2_bounds in E; lia|]. by destruct (ws3 _ _ _) eqn:E3; [apply ws3_bounds in E3; lia|].
Qed.

(** White space does not reach the visible end of a text. *)
Lemma ws_len_before s : ends_visible s = true → (ws_len s < String.length s)%nat.
Proof.
  destruct s as [|a [|b [|c s]]]; [done|..]; cbn; intros Hv.
  - apply visible_bounds in Hv. rewrite ws1_visible //. lia.
  - apply visible_bounds in Hv. destruct (ws1 _); [lia|]. destruct (ws2 _ _) eqn:E; [apply ws2_bounds in E|]; lia.
  - destruct (ws1 _); [lia|]. destruct (ws2 _ _); [lia|]. destruct (ws3 _ _ _) eqn:E; [|lia].
    destruct s; [|cbn; lia]. apply visible_bounds in Hv. apply ws3_bounds in E. lia.
Qed.

(** ** Trimming *)

Lemma trim_from_end k s : ends_visible s = true → (k < String.length s)%nat → trim_from k s ≠ "".
Proof.
  revert k. induction s as [|a s IH]; intros k Hv Hk; [done|]. cbn [trim_from].
  assert (s = "" ∨ ends_visible s = true) as Hs by (destruct s; auto).
  destruct k as [|k].
  - pose proof (ws_len_before (String a s) Hv) as Hl. cbn [String.length] in Hl.
    destruct (ws_len (String a s)) as [|n]; [done|]. destruct Hs as [-> |Hs]; [cbn in Hl; lia|]. apply IH; [done|lia].
  - cbn [String.length] in Hk. destruct Hs as [-> |Hs]; [cbn in Hk; lia|]. apply IH; [done|lia].
Qed.

Lemma trim_end_visible s : ends_visible s = true → trim_end s = s.
Proof.
  induction s as [|a s IH]; [done|]. intros Hv. cbn [trim_end]. rewrite /is_blank bool_decide_false.
  2: { apply trim_from_end; [done|cbn; lia]. }
  f_equal. destruct s as [|b s]; [done|]. by apply IH.
Qed.

Lemma trim_start_visible s : starts_visible s = true → trim_start s = s.
Proof. destruct s as [|a s]; [done|]. intros Ha. rewrite /trim_start. cbn [trim_from]. by rewrite ws_len_visible. Qed.

Lemma trim_visible s : starts_visible s = true → ends_visible s = true → trim s = s.
Proof. intros Hs He. by rewrite /trim trim_start_visible // trim_end_visible. Qed.

Definition space : Ascii.ascii := Ascii.ascii_of_nat 32.

Fixpoint spaces (n : nat) : string := match n with O => "" | S n' => String space (spaces n') end.

Lemma spaces_length n : String.length (spaces n) = n.
Proof. induction n as [|n IH]; [done|]. by rewrite /= IH. Qed.

Lemma trim_start_spaces n s : starts_visible s = true → trim_start (spaces n +:+ s) = s.
Proof.
  intros Hs. induction n as [|n IH]; [by apply trim_start_visible|]. cbn [spaces]. rewrite app_cons_str /trim_start.
  cbn [trim_from]. exact IH.
Qed.

(** An indented line is read as its depth and its text. *)
Lemma indented_line n s :
  starts_visible s = true → ends_visible s = true →
  indent_of (spaces n +:+ s) = n ∧ trim (spaces n +:+ s) = s.
Proof.
  intros Hs He. rewrite /indent_of /trim trim_start_spaces // length_app_str spaces_length trim_end_visible //.
  split; [lia|done].
Qed.

(** ** Lines *)

Definition nl : string := String newline "".

Lemma split_on_line s t : one_line s = true → split_on newline (s +:+ nl +:+ t) = s :: split_on newline t.
Proof.
  induction s as [|a s IH]; [done|]. cbn [one_line all_chars]. intros [Ha Hs]%andb_true_iff.
  rewrite app_cons_str. cbn [split_on]. apply negb_true_iff, bool_decide_eq_false in Ha. rewrite decide_False //.
  by rewrite IH.
Qed.

Lemma strip_cr_visible s : ends_visible s = true → strip_cr s = s.
Proof.
  induction s as [|a s IH]; [done|]. intros Hv. cbn [strip_cr]. destruct s as [|b s].
  - cbn in Hv. apply visible_bounds in Hv. rewrite decide_False //. lia.
  - f_equal. by apply IH.
Qed.

Definition text_of (ls : list string) : string := foldr (λ l t, l +:+ nl +:+ t) "" ls.

Lemma split_on_nonempty sep s : split_on sep s ≠ [].
Proof. destruct s as [|a s]; [done|]. cbn. case_decide; [done|]. by destruct (split_on sep s). Qed.

Lemma lines_cons l t : one_line l = true → ends_visible l = true → lines (l +:+ nl +:+ t) = l :: lines t.
Proof.
  intros Hl He. rewrite /lines split_on_line //. pose proof (split_on_nonempty newline t) as Hne.
  destruct (split_on newline t) as [|x r]; [done|]. cbn [lines_of]. by rewrite strip_cr_visible.
Qed.

(** A text is read as the lines it was made of. *)
Lemma lines_text ls : Forall (λ l, one_line l = true ∧ ends_visible l = true) ls → lines (text_of ls) = ls.
Proof. induction 1 as [|l ls [Hl He] _ IH]; [done|]. cbn [text_of foldr]. by rewrite lines_cons // IH. Qed.

(** ** Tokens *)

Lemma tokens_plain s cur t : plain s = true → tokens_from 0 None cur (s +:+ t) = tokens_from 0 None (cur +:+ s) t.
Proof.
  revert cur. induction s as [|a s IH]; intros cur; [by rewrite app_nil_str|]. cbn [plain all_chars].
  intros [Ha Hs]%andb_true_iff. destruct (plain_visible a Ha) as [Hv Hq]. rewrite app_cons_str. cbn [tokens_from].
  rewrite Hq ws_len_visible // IH //. by rewrite snoc_app.
Qed.

Lemma tokens_quoted v cur t :
  quotable v = true →
  tokens_from 0 (Some double_quote) cur (v +:+ String double_quote t) = tokens_from 0 None (cur +:+ v) t.
Proof.
  revert cur. induction v as [|a v IH]; intros cur; [by rewrite app_nil_str|]. cbn [quotable all_chars].
  intros [Ha Hv]%andb_true_iff. apply negb_true_iff, bool_decide_eq_false in Ha. rewrite app_cons_str.
  cbn [tokens_from]. rewrite decide_False; [|tauto]. by rewrite IH // snoc_app.
Qed.

(** A printed word: a plain prefix and a quoted value. *)
Definition Word : Type := string * string.
Definition word_token (w : Word) : string := w.1 +:+ w.2.
Definition print_word (w : Word) : string := String space (w.1 +:+ String double_quote (w.2 +:+ String double_quote "")).
Definition word_ok (w : Word) : Prop := plain w.1 = true ∧ quotable w.2 = true ∧ word_token w ≠ "".

Definition print_words (l : list Word) : string := foldr (λ w t, print_word w +:+ t) "" l.
Definition print_line (first : string) (l : list Word) : string := first +:+ print_words l.

Lemma print_words_cons w l :
  print_words (w :: l) = String space (w.1 +:+ String double_quote (w.2 +:+ String double_quote (print_words l))).
Proof. by rewrite /print_words /= /print_word app_cons_str app_assoc_str app_cons_str app_assoc_str app_cons_str. Qed.

Lemma tokens_words l cur :
  cur ≠ "" → Forall word_ok l → tokens_from 0 None cur (print_words l) = (None, cur :: (word_token <$> l)).
Proof.
  intros Hcur Hl. revert cur Hcur. induction Hl as [|w l (Hp & Hv & Hne) _ IH]; intros cur Hcur.
  { cbn. by rewrite decide_False. }
  rewrite print_words_cons. cbn [tokens_from]. change (is_quote space) with false.
  change (ws_len (String space ?x)) with 1%nat. cbv iota. rewrite tokens_plain //. cbn [tokens_from].
  change (is_quote double_quote) with true. cbv iota. rewrite tokens_quoted //. change ("" +:+ ?x) with x.
  rewrite IH //. by rewrite decide_False.
Qed.

Lemma plain_starts s : plain s = true → s ≠ "" → starts_visible s = true.
Proof.
  destruct s as [|a s]; [done|]. cbn. intros [Ha _]%andb_true_iff _. by apply plain_visible in Ha as [? _].
Qed.

Lemma plain_ends s : plain s = true → s ≠ "" → ends_visible s = true.
Proof.
  induction s as [|a s IH]; [done|]. cbn. intros [Ha Hs]%andb_true_iff _.
  destruct s as [|b s]; [by apply plain_visible in Ha as [? _]|]. by apply IH.
Qed.

Lemma one_line_app s t : one_line (s +:+ t) = one_line s && one_line t.
Proof. apply all_chars_app. Qed.

Lemma print_words_one_line l : Forall word_ok l → one_line (print_words l) = true.
Proof.
  induction 1 as [|w l (Hp & Hv & _) _ IH]; [done|]. rewrite print_words_cons.
  change (one_line (String space ?x)) with (one_line x). rewrite one_line_app (plain_one_line _ Hp).
  change (one_line (String double_quote ?x)) with (one_line x). by rewrite one_line_app (quotable_one_line _ Hv).
Qed.

Lemma print_words_end l : l ≠ [] → print_words l ≠ "" ∧ ends_visible (print_words l) = true.
Proof.
  induction l as [|w l IH]; [done|]. intros _. rewrite print_words_cons. split; [done|].
  change (String space ?x) with (String space "" +:+ x). rewrite ends_visible_app; [|by destruct w.1].
  rewrite ends_visible_app //. change (String double_quote ?x) with (String double_quote "" +:+ x).
  rewrite ends_visible_app; [|by destruct w.2]. rewrite ends_visible_app //.
  destruct l as [|w' l]; [done|]. destruct (IH ltac:(done)) as [Hne He].
  rewrite (ends_visible_app (String double_quote "")) //.
Qed.

(** A printed line is one line, stands for itself, and is read as its tokens. *)
Lemma print_line_ok first l :
  plain first = true → first ≠ "" → Forall word_ok l →
  let line := print_line first l in
  one_line line = true ∧ starts_visible line = true ∧ ends_visible line = true ∧
  tokens_from 0 None "" line = (None, first :: (word_token <$> l)).
Proof.
  intros Hp Hne Hl. rewrite /print_line. cbv zeta. split_and!.
  - by rewrite one_line_app (plain_one_line _ Hp) print_words_one_line.
  - pose proof (plain_starts first Hp Hne) as Hs. by destruct first.
  - destruct l as [|w l]; [by rewrite app_nil_str plain_ends|]. destruct (print_words_end (w :: l) ltac:(done)) as [Hne' He].
    by rewrite ends_visible_app.
  - rewrite tokens_plain //. by apply tokens_words.
Qed.

Lemma cut_ws_plain first t : plain first = true → cut_ws (first +:+ String space t) = (first, Some t).
Proof.
  induction first as [|a s IH]; [done|]. cbn [plain all_chars]. intros [Ha Hs]%andb_true_iff.
  rewrite app_cons_str. cbn [cut_ws]. apply plain_visible in Ha as [Ha _]. by rewrite ws_len_visible // IH.
Qed.

Lemma cut_ws_whole s : plain s = true → cut_ws s = (s, None).
Proof.
  induction s as [|a s IH]; [done|]. cbn [plain all_chars]. intros [Ha Hs]%andb_true_iff. cbn [cut_ws].
  apply plain_visible in Ha as [Ha _]. by rewrite ws_len_visible // IH.
Qed.

Lemma print_line_cut first l :
  plain first = true → ∃ t, cut_ws (print_line first l) = (first, t) ∧ (l = [] → t = None).
Proof.
  intros Hp. rewrite /print_line. destruct l as [|w l].
  - exists None. by rewrite app_nil_str cut_ws_whole.
  - rewrite print_words_cons cut_ws_plain //. by eexists.
Qed.

Lemma first_word_line first l : plain first = true → first ≠ "" → first_word (print_line first l) = first.
Proof.
  intros Hp Hne. rewrite /first_word trim_start_visible.
  - by destruct (print_line_cut first l Hp) as (t & -> & _).
  - pose proof (plain_starts first Hp Hne) as Hs. rewrite /print_line. by destruct first.
Qed.

(** ** Numbers *)

Definition is_digit (a : Ascii.ascii) : bool := bool_decide (is_Some (digit_of a)).

Lemma digit_of_char d : (d < 10)%N → digit_of (pretty_N_char d) = Some (Z.of_N d).
Proof.
  intros Hd. assert (d = 0 ∨ d = 1 ∨ d = 2 ∨ d = 3 ∨ d = 4 ∨ d = 5 ∨ d = 6 ∨ d = 7 ∨ d = 8 ∨ d = 9)%N as Hc by lia.
  by repeat (destruct Hc as [-> |Hc]; [by vm_compute|]); subst d.
Qed.

Lemma pretty_go_digits x s : all_chars is_digit s = true → all_chars is_digit (pretty_N_go x s) = true.
Proof.
  revert s. induction (N.lt_wf_0 x) as [x _ IH]. intros s Hs. destruct (decide (x = 0%N)) as [->|Hx]; [by rewrite pretty_N_go_0|].
  rewrite pretty_N_go_step; [|lia]. apply IH; [apply N.div_lt; lia|]. cbn [all_chars]. rewrite Hs /is_digit digit_of_char //.
  apply N.mod_lt. lia.
Qed.

Lemma parse_digits_pretty max x s :
  Z.of_N x <= max → parse_digits max 0 (pretty_N_go x s) = parse_digits max (Z.of_N x) s.
Proof.
  revert s. induction (N.lt_wf_0 x) as [x _ IH]. intros s Hx. destruct (decide (x = 0%N)) as [->|Hne]; [by rewrite pretty_N_go_0|].
  rewrite pretty_N_go_step; [|lia]. pose proof (N.mod_lt x 10 ltac:(done)) as Hm. pose proof (N.div_mod x 10 ltac:(done)) as Hd.
  pose proof (N.div_lt x 10 ltac:(lia) ltac:(lia)) as Hlt. rewrite IH; [|done|lia].
  cbn [parse_digits]. rewrite digit_of_char //. set (q := (x / 10)%N) in *. set (r := (x mod 10)%N) in *.
  replace (Z.of_N q * 10 + Z.of_N r) with (Z.of_N x) by lia. by rewrite (proj2 (Z.ltb_ge max (Z.of_N x)) Hx).
Qed.

Lemma pretty_Z_N (n : Z) : 0 <= n → pretty n = pretty (Z.to_N n).
Proof. by destruct n. Qed.

Lemma pretty_digits (n : Z) : 0 <= n → all_chars is_digit (pretty n) = true ∧ pretty n ≠ "".
Proof.
  intros Hn. rewrite pretty_Z_N //. rewrite /pretty /pretty_N. case_decide as Hz; [done|]. split; [by apply pretty_go_digits|].
  assert (∀ x s, s ≠ "" → pretty_N_go x s ≠ "") as Hgo.
  { intros x. induction (N.lt_wf_0 x) as [x _ IH]. intros s Hs. destruct (decide (x = 0%N)) as [->|Hx]; [by rewrite pretty_N_go_0|].
    rewrite pretty_N_go_step; [|lia]. apply IH; [apply N.div_lt; lia|done]. }
  rewrite pretty_N_go_step; [|lia]. by apply Hgo.
Qed.

(** A printed number is read back. *)
Lemma parse_pretty max (n : Z) : 0 <= n <= max → parse_uint max (pretty n) = Some n.
Proof.
  intros [Hn Hmax]. destruct (pretty_digits n Hn) as [Hd Hne]. destruct (pretty n) as [|a s] eqn:E; [done|].
  cbn in Hd. apply andb_true_iff in Hd as [Ha _]. assert (a ≠ plus_sign) as Hp by (by intros ->).
  cbn [parse_uint]. rewrite decide_False // -E pretty_Z_N // /pretty /pretty_N. case_decide as Hz.
  - assert (n = 0) as -> by lia. change (parse_digits max 0 "0") with (if max <? 0 then None else Some 0).
    by rewrite (proj2 (Z.ltb_ge max 0)).
  - rewrite parse_digits_pretty; [|lia]. cbn. f_equal. lia.
Qed.

Lemma pretty_quotable (n : Z) : 0 <= n → quotable (pretty n) = true.
Proof.
  intros Hn. destruct (pretty_digits n Hn) as [Hd _]. eapply all_chars_impl; [|exact Hd]. intros a Ha.
  apply negb_true_iff, bool_decide_eq_false. intros [-> | ->]; done.
Qed.

(** ** Calls that cannot panic *)

Lemma bind_no_panic {E A B} (m : Res E A) (k : A → Res E B) : m ≠ Panic → (∀ a, k a ≠ Panic) → (m ≫= k) ≠ Panic.
Proof. destruct m as [a|e|]; [intros _ Hk; apply Hk|done|done]. Qed.

Lemma try_fold_no_panic {A B E} (f : A → B → Res E A) acc l : (∀ acc x, f acc x ≠ Panic) → try_fold f acc l ≠ Panic.
Proof.
  intros Hf. revert acc. induction l as [|x l IH]; intros acc; [done|]. cbn [try_fold]. by apply bind_no_panic.
Qed.

(** Walk a parser's cases. *)
Ltac no_panic :=
  repeat first [ done | apply bind_no_panic; [|intros ?] | apply try_fold_no_panic; intros ? ? | case_decide | case_match ].

Lemma bind_ok {E A B} (m : Res E A) (k : A → Res E B) b : (m ≫= k) = Ok b → ∃ a, m = Ok a ∧ k a = Ok b.
Proof. destruct m as [a|e|]; [|done|done]. intros Hk. by exists a. Qed.

(** An invariant of the accumulator holds of the result. *)
Lemma try_fold_inv {A B E} (P : A → Prop) (f : A → B → Res E A) l acc r :
  (∀ acc x acc', x ∈ l → P acc → f acc x = Ok acc' → P acc') → P acc → try_fold f acc l = Ok r → P r.
Proof.
  revert acc. induction l as [|x l IH]; intros acc Hf Hp; cbn [try_fold]; [by intros [= <-]|].
  intros (acc' & Hx & Hr)%bind_ok. eapply IH; [|by eapply Hf; [left| |]|done].
  intros acc1 y acc2 Hy. apply Hf. by right.
Qed.

Lemma try_fold_app {A B E} (f : A → B → Res E A) acc l1 l2 :
  try_fold f acc (l1 ++ l2) = (acc' ← try_fold f acc l1; try_fold f acc' l2).
Proof. revert acc. induction l1 as [|x l1 IH]; intros acc; [done|]. cbn. destruct (f acc x); [apply IH|done|done]. Qed.

(** ** What the tokeniser and the number parser give *)

(** Tokens are not empty. *)
Lemma tokens_nonempty skip q cur s : Forall (λ t, t ≠ "") (tokens_from skip q cur s).2.
Proof.
  revert skip q cur. induction s as [|a s IH]; intros skip q cur; cbn [tokens_from].
  { case_decide; repeat constructor. done. }
  destruct skip as [|skip]; [|apply IH]. destruct q as [q|]; [case_decide; apply IH|].
  destruct (is_quote a); [apply IH|]. destruct (ws_len (String a s)) as [|n]; [apply IH|].
  specialize (IH n None ""). destruct (tokens_from n None "" s) as [q l]. cbn in *. case_decide; [done|]. by constructor.
Qed.

Lemma parse_digits_bound max acc s n : 0 <= acc <= max → parse_digits max acc s = Some n → 0 <= n <= max.
Proof.
  revert acc. induction s as [|a s IH]; intros acc Hacc; cbn [parse_digits]; [by intros [= <-]|].
  destruct (digit_of a) as [d|] eqn:Hd; [|done]. case_match eqn:Hm; [done|]. apply IH.
  apply Z.ltb_ge in Hm. split; [|done]. move: Hd. rewrite /digit_of. case_decide; [|done]. intros [= <-]. lia.
Qed.

Lemma parse_uint_bound max s n : 0 <= max → parse_uint max s = Some n → 0 <= n <= max.
Proof.
  intros Hm. rewrite /parse_uint. destruct s as [|a s]; [done|].
  case_decide; [case_decide; [done|]|]; intros Hp; (eapply parse_digits_bound; [|exact Hp]; lia).
Qed.
