(* ===== verification/Logging.v ===== *)
(** * The daemon's log ([objstrd/src/logging.rs])

    The ring buffer of recent entries with its append-only file, the filters of
    a query and their parsing.  What chrono and percent_encoding do with a text
    is a parameter; a time is the number of nanoseconds it stands for. *)

From S2P Require Import Prelude.
From S2P Require Import Config.
From S2P Require Import Tlv.
From S2P Require Import Text.

(** Times in the log file and in queries, and percent-decoded texts. *)
Class LogTexts : Type := {
  format_log_time : Z → string;
  parse_datetime : string → option Z;
  percent_decode : string → string;
}.

Record LogEntry : Type := mkLogEntry {
  le_time : Z;
  level : string;
  category : string;
  service : string;
  message : string;
}.

Definition new_entry (now : Z) (level category service message : string) : LogEntry :=
  mkLogEntry now level category service message.

(** [log_file] holds the lines of the open log file. *)
Record LogBuffer : Type := mkLogBuffer {
  log_entries : list LogEntry;
  capacity : nat;
  log_file : option (list string);
}.

(** [opened] is what opening the log file gave. *)
Definition new_buffer (capacity : nat) (opened : option (list string)) : LogBuffer := mkLogBuffer [] capacity opened.

Record LogFilter : Type := mkLogFilter {
  lf_level : option string;
  lf_category : option string;
  lf_service : option string;
  lf_limit : option Z;
  lf_since : option Z;
  lf_until : option Z;
  lf_q : option string;
}.

Record LogQueryResult : Type := mkLogResult {
  lr_total : nat;
  lr_returned : nat;
  lr_entries : list LogEntry;
}.

Definition tab : string := String (Ascii.ascii_of_nat 9) "".

(** ** Filters *)

Definition rank (l : string) : Z :=
  let l := to_ascii_lowercase l in
  if decide (l = "debug") then 0
  else if decide (l = "info") then 1
  else if decide (l = "warn" ∨ l = "warning") then 2
  else if decide (l = "error") then 3
  else 1.

Definition level_matches (entry_level min_level : string) : bool := rank min_level <=? rank entry_level.

Definition eq_ignore_ascii_case (s t : string) : bool := bool_decide (to_ascii_lowercase s = to_ascii_lowercase t).

(** A criterion that is absent excludes nothing. *)
Definition unless_set {A} (o : option A) (p : A → bool) : bool := match o with Some x => p x | None => true end.

Definition entry_matches (filter : LogFilter) (e : LogEntry) : bool :=
  unless_set (lf_level filter) (level_matches (level e)) &&
  unless_set (lf_category filter) (λ cats, existsb (λ c, eq_ignore_ascii_case c (category e)) (split_on comma cats)) &&
  unless_set (lf_service filter) (λ svc, eq_ignore_ascii_case svc (service e)) &&
  unless_set (lf_since filter) (λ since, negb (le_time e <? since)) &&
  unless_set (lf_until filter) (λ until, negb (until <? le_time e)) &&
  unless_set (lf_q filter) (λ q, str_contains (to_ascii_lowercase q) (to_ascii_lowercase (message e))).

Definition query_limit (filter : LogFilter) : nat := Z.to_nat (Z.min (default 100 (lf_limit filter)) 10000).

(** Newest first. *)
Definition query (filter : LogFilter) (b : LogBuffer) : LogQueryResult :=
  let found := take (query_limit filter) (base.filter (λ e, entry_matches filter e = true) (reverse (log_entries b))) in
  mkLogResult (length (log_entries b)) (length found) found.

Section texts.
Context `{LogTexts}.

Definition log_line (e : LogEntry) : string :=
  format_log_time (le_time e) +:+ tab +:+ level e +:+ tab +:+ service e +:+ tab +:+ category e +:+ tab +:+ message e.

(** [wrote]: whether the line could be written to the file. *)
Definition push (wrote : bool) (entry : LogEntry) (b : LogBuffer) : LogBuffer :=
  let kept := if decide (capacity b <= length (log_entries b))%nat then tail (log_entries b) else log_entries b in
  let file := match log_file b with
              | Some written => if wrote then Some (written ++ [log_line entry]) else None
              | None => None
              end in
  mkLogBuffer (kept ++ [entry]) (capacity b) file.

(** ** Parsing a query *)

Definition filter_pair (f : LogFilter) (pair : string) : LogFilter :=
  let '(key, value) := cut equals_sign pair in
  let val := default "" value in
  if decide (val = "") then f
  else if decide (key = "level") then
    mkLogFilter (Some val) (lf_category f) (lf_service f) (lf_limit f) (lf_since f) (lf_until f) (lf_q f)
  else if decide (key = "category") then
    mkLogFilter (lf_level f) (Some val) (lf_service f) (lf_limit f) (lf_since f) (lf_until f) (lf_q f)
  else if decide (key = "service") then
    mkLogFilter (lf_level f) (lf_category f) (Some val) (lf_limit f) (lf_since f) (lf_until f) (lf_q f)
  else if decide (key = "limit") then
    mkLogFilter (lf_level f) (lf_category f) (lf_service f) (parse_uint u64_max val) (lf_since f) (lf_until f) (lf_q f)
  else if decide (key = "since") then
    mkLogFilter (lf_level f) (lf_category f) (lf_service f) (lf_limit f) (parse_datetime val) (lf_until f) (lf_q f)
  else if decide (key = "until") then
    mkLogFilter (lf_level f) (lf_category f) (lf_service f) (lf_limit f) (lf_since f) (parse_datetime val) (lf_q f)
  else if decide (key = "q") then
    mkLogFilter (lf_level f) (lf_category f) (lf_service f) (lf_limit f) (lf_since f) (lf_until f)
      (Some (percent_decode val))
  else f.

Definition no_filter : LogFilter := mkLogFilter None None None None None None None.

Definition ampersand : Ascii.ascii := Ascii.ascii_of_nat 38.

Definition from_query (query : option string) : LogFilter :=
  match query with
  | None => no_filter
  | Some qs => foldl filter_pair no_filter (split_on ampersand qs)
  end.

(** ** The buffer after a history of entries *)

Definition push_all (l : list (bool * LogEntry)) (b : LogBuffer) : LogBuffer :=
  foldl (λ b '(wrote, e), push wrote e b) b l.

Lemma push_all_snoc l wrote e b : push_all (l ++ [(wrote, e)]) b = push wrote e (push_all l b).
Proof. by rewrite /push_all foldl_app. Qed.

(** The most recent [n] of [l], oldest first. *)
Definition recent {A} (n : nat) (l : list A) : list A := drop (length l - n) l.

Lemma recent_length {A} n (l : list A) : length (recent n l) = Nat.min n (length l).
Proof. rewrite /recent length_drop. lia. Qed.

(** A full ring makes room for one more. *)
Lemma recent_push {A} n (l : list A) x :
  (0 < n)%nat →
  (if decide (n <= length (recent n l))%nat then tail (recent n l) else recent n l) ++ [x] = recent n (l ++ [x]).
Proof.
  intros Hn. rewrite recent_length /recent length_app /=. case_decide.
  - replace (length l + 1 - n)%nat with (S (length l - n))%nat by lia. rewrite drop_app_le; [|lia].
    f_equal. rewrite -Nat.add_1_r -drop_drop. by destruct (drop (length l - n) l).
  - replace (length l - n)%nat with 0%nat by lia. by replace (length l + 1 - n)%nat with 0%nat by lia.
Qed.

Lemma push_capacity wrote e b : capacity (push wrote e b) = capacity b.
Proof. done. Qed.

Lemma push_all_capacity l b : capacity (push_all l b) = capacity b.
Proof. revert b. induction l as [|[w e] l IH]; intros b; [done|]. exact (IH (push w e b)). Qed.

(** A capacity of zero holds one entry. *)
Lemma push_recent wrote e b es :
  log_entries b = recent (Nat.max (capacity b) 1) es →
  log_entries (push wrote e b) = recent (Nat.max (capacity b) 1) (es ++ [e]).
Proof.
  intros Hb. rewrite -recent_push; [|lia]. rewrite /push /= Hb. f_equal.
  destruct (capacity b) as [|n].
  - pose proof (recent_length 1 es) as Hlen. change (Nat.max 0 1) with 1%nat in *.
    by destruct (recent 1 es) as [|y [|z r]]; [..|rewrite /= in Hlen; destruct es].
  - by rewrite (Nat.max_l (S n) 1); [|lia].
Qed.

(** The log keeps the most recent entries.  After any history of pushes to a
    new buffer, a query returns, newest first, the first [limit] of the
    matching entries among the last [capacity] pushed (one, for a capacity of
    zero), and their number; the file has a line per entry in the order they
    were pushed as long as every write succeeded, and is closed for good by
    the first that did not. *)
Theorem log_keeps_recent cap opened (l : list (bool * LogEntry)) filter :
  let b := push_all l (new_buffer cap opened) in
  let kept := recent (Nat.max cap 1) l.*2 in
  log_entries b = kept ∧
  (length (log_entries b) <= Nat.max cap 1)%nat ∧
  lr_entries (query filter b) = take (query_limit filter) (base.filter (λ e, entry_matches filter e = true) (reverse kept)) ∧
  lr_total (query filter b) = Nat.min (Nat.max cap 1) (length l) ∧
  log_file b = (if forallb fst l then (λ old, old ++ (log_line <$> l.*2)) <$> opened else None).
Proof.
  cbv zeta.
  assert (log_entries (push_all l (new_buffer cap opened)) = recent (Nat.max cap 1) l.*2) as He.
  { induction l as [|[w e] l IH] using rev_ind; [done|].
    rewrite push_all_snoc fmap_app (push_recent _ _ _ l.*2) push_all_capacity //. }
  rewrite /query /= He recent_length length_fmap. split_and!; [done|lia|done..|].
  clear He. induction l as [|[w e] l IH] using rev_ind.
  - rewrite /=. destruct opened as [old|]; [|done]. by rewrite /= app_nil_r.
  - rewrite push_all_snoc /= IH forallb_app /= !fmap_app.
    destruct (forallb fst l); [|done]. destruct opened as [old|], w; simpl; by rewrite -?app_assoc.
Qed.
End texts.
