(* ===== verification/Registry.v ===== *)
(** * The daemon's store registry ([objstrd/src/registry.rs])

    The ordered stores a daemon serves; a store is its address in the
    cluster's heap. *)

From S2P Require Import Prelude.

Inductive StoreKind : Type := RawKind | S3Kind | LocalFsKind | InMemoryKind | OtherKind.

Definition kind_name (k : StoreKind) : string :=
  match k with
  | RawKind => "raw" | S3Kind => "s3" | LocalFsKind => "fs" | InMemoryKind => "mem" | OtherKind => "other"
  end.

Record StoreEntry : Type := mkStoreEntry {
  se_name : string;
  se_store : nat;
  se_kind : StoreKind;
  se_raw_ref : option nat;
}.

Record StoreRegistry : Type := mkStoreRegistry { stores : list StoreEntry }.

(** [assert!(!stores.is_empty())] *)
Definition new_registry {E} (l : list StoreEntry) : Res E StoreRegistry :=
  match l with [] => Panic | _ => Ok (mkStoreRegistry l) end.

Definition single_raw {E} (name : string) (store : nat) : Res E StoreRegistry :=
  new_registry [mkStoreEntry name store RawKind (Some store)].

Definition shard_count (r : StoreRegistry) : nat := length (stores r).
Definition get_entry (index : nat) (r : StoreRegistry) : option StoreEntry := stores r !! index.
Definition get_by_name (name : string) (r : StoreRegistry) : option StoreEntry :=
  snd <$> list_find (λ e, se_name e = name) (stores r).
Definition raw_stores (r : StoreRegistry) : list nat := omap se_raw_ref (stores r).
Definition first_store {E} (r : StoreRegistry) : Res E nat :=
  match stores r with e :: _ => Ok (se_store e) | [] => Panic end.
Definition summary (r : StoreRegistry) : list (string * StoreKind) := (λ e, (se_name e, se_kind e)) <$> stores r.

(** A registry that was built has a first store, and its shard indices are
    those below its count. *)
Lemma registry_first {E} l r : @new_registry E l = Ok r → ∃ e, get_entry 0 r = Some e ∧ @first_store E r = Ok (se_store e).
Proof. destruct l as [|e l]; [done|]. intros [= <-]. by exists e. Qed.

Lemma registry_index {E} l r i : @new_registry E l = Ok r → is_Some (get_entry i r) ↔ (i < shard_count r)%nat.
Proof. intros _. apply lookup_lt_is_Some. Qed.

(** A name finds the first entry that bears it. *)
Lemma registry_by_name name r e :
  get_by_name name r = Some e → ∃ i, get_entry i r = Some e ∧ se_name e = name ∧
    ∀ j e', (j < i)%nat → get_entry j r = Some e' → se_name e' ≠ name.
Proof.
  rewrite /get_by_name. intros ([i x] & (Hi & Hn & Hj)%list_find_Some & [= ->])%fmap_Some.
  exists i. split_and!; [done|done|]. intros j e' Hlt Hj'. by eapply (Hj j).
Qed.
