(* ===== verification/HealthPoll.v ===== *)
(** * Background recovery ([objstrd/src/recovery.rs])

    One cycle of the health poll (detaching, bringing back, the sweeps) and one
    of the periodic repair.  A cycle's view of the outside is a [World]: the
    clock, the devices that are there, the stores that answer a probe, whether
    an administrator's operation runs, and whether the log file takes lines. *)

From S2P Require Import Prelude.
From S2P Require Import Config.
From S2P Require Import Extent.
From S2P Require Import Index.
From S2P Require Import StoreTools.
From S2P Require Import StoreMeta.
From S2P Require Import Tlv.
From S2P Require Import Catalog.
From S2P Require Import JumpHash.
From S2P Require Import Backend.
From S2P Require Import Cluster.
From S2P Require Import ClusterIo.
From S2P Require Import ShardMeta.
From S2P Require Import ClusterAdmin.
From S2P Require Import Repair.
From S2P Require Import Logging.

(** ** Configuration and status *)

Record RecoveryConfig : Type := mkRecoveryConfig {
  enabled : bool;
  poll_interval_secs : Z;
  probe_timeout_secs : Z;
  failure_threshold : Z;
  re_replicate_batch_size : Z;
  repair_replication_interval_secs : Z;
  repair_replication_batch_size : Z;
}.

Definition default_recovery : RecoveryConfig := mkRecoveryConfig true 10 5 3 100 0 500.

(** [RecoveryConfigSnapshot] is a copy of the configuration's first fields. *)
Record RecoveryStatus : Type := mkRecoveryStatus {
  st_config : bool * Z * Z * Z * Z;
  total_re_replicated : Z;
  last_sweep_count : nat;
  under_replicated_count : nat;
  over_replicated_count : nat;
  total_trimmed : Z;
  last_trim_count : nat;
  last_poll_at : option string;
  last_sweep_at : option string;
  poll_cycles : Z;
}.

Definition new_status (config : RecoveryConfig) : RecoveryStatus :=
  mkRecoveryStatus
    (enabled config, poll_interval_secs config, probe_timeout_secs config, failure_threshold config,
     re_replicate_batch_size config)
    0 0 0 0 0 0 None None 0.

Record RepairReplicationStatus : Type := mkRepairStatus {
  rp_interval : Z;
  rp_batch : Z;
  phase : string;
  cycles_completed : Z;
  total_objects_replicated : Z;
  total_objects_trimmed : Z;
  last_catalog_size : nat;
  remaining_under_replicated : nat;
  last_completed_at : option string;
  last_started_at : option string;
}.

Definition new_repair_status (config : RecoveryConfig) : RepairReplicationStatus :=
  mkRepairStatus (repair_replication_interval_secs config) (repair_replication_batch_size config) "idle" 0 0 0 0 0
    None None.

Record World : Type := mkWorld {
  now_at : Z;
  path_exists : string → bool;
  answers : nat → bool;
  admin_op_active : bool;
  log_writable : bool;
}.

Definition health_name (h : ShardHealth) : string :=
  match h with
  | Healthy => "Healthy" | Degraded => "Degraded" | Offline => "Offline" | Syncing => "Syncing"
  | Detached => "Detached"
  end.

Section recovery.
Context `{ObjectBackend, Crc32c, HashMapOrder, ObjectPath, Chrono, LogTexts}.
Implicit Types (c : ShardedObjectStore) (w : World).

(** What the task owns besides the cluster. *)
Record Poller : Type := mkPoller {
  fail_counts : list Z;
  log_buffer : LogBuffer;
  status : RecoveryStatus;
}.

Definition new_poller (config : RecoveryConfig) (original_stores : list (option nat)) (b : LogBuffer) : Poller :=
  mkPoller (replicate (length original_stores) 0) b (new_status config).

Definition PM (A : Type) : Type := SM (ShardedObjectStore * Poller) Error A.

Definition on_cluster_of {A} (m : CM A) : PM A := sm_zoom fst (λ c s, (c, s.2)) m.
Definition on_poller (f : Poller → Poller) : PM unit := sm_modify (λ s, (s.1, f s.2)).

Definition note w (level category msg : string) : PM unit :=
  on_poller (λ p, mkPoller (fail_counts p)
                    (push (log_writable w) (new_entry (now_at w) level category "internal" msg) (log_buffer p)) (status p)).

(** [fail_counts[id] = n], out of range when there are more shards than
    original stores. *)
Definition set_count (id : nat) (n : Z) : PM unit := λ s,
  if decide (id < length (fail_counts s.2))%nat
  then ((s.1, mkPoller (<[id := n]> (fail_counts s.2)) (log_buffer s.2) (status s.2)), Ok tt)
  else (s, Panic).

Definition get_count (id : nat) : PM Z := λ s,
  match fail_counts s.2 !! id with Some n => (s, Ok n) | None => (s, Panic) end.

(** The placeholder of a detached shard answers with an error. *)
Definition probe_store w (r : StoreRef) : bool :=
  match r with Placeholder _ => false | At a => answers w a end.

Definition shard_text (id : nat) (msg : string) : string := "shard " +:+ pretty id +:+ ": " +:+ msg.

(** ** One shard's poll *)

Definition detach_for w (id : nat) (reason : DetachReason) : PM unit :=
  note w "warn" "health" (shard_text id "Healthy -> Offline") ;;;
  on_cluster_of (sm_modify (λ c, set_detach_reason id reason (detach_shard (now_at w) id c).1)) ;;;
  set_count id 0.

(** The device that backs a shard and is no longer there. *)
Definition missing_device w (device_paths : list (option string)) (id : nat) : option string :=
  path ← mjoin (device_paths !! id); if path_exists w path then None else Some path.

Definition poll_failed w (config : RecoveryConfig) (id : nat) : PM unit :=
  n <- get_count id ;;
  set_count id (n + 1) ;;;
  note w "warn" "health"
    (shard_text id ("probe failed (" +:+ pretty (n + 1) +:+ "/" +:+ pretty (failure_threshold config) +:+ " failures)")) ;;;
  if failure_threshold config <=? n + 1 then
    note w "warn" "health" (shard_text id "detaching (threshold reached)") ;;;
    detach_for w id ProbeFailure
  else sm_ret tt.

Definition log_outcome w (id : nat) (h : option ShardHealth) : PM unit :=
  match h with
  | Some Healthy => note w "info" "health" (shard_text id "Offline -> Healthy (sync complete)")
  | Some Offline => note w "warn" "health" (shard_text id "sync failed, remains Offline")
  | Some h => note w "info" "health" (shard_text id ("sync finished, health=" +:+ health_name h))
  | None => sm_ret tt
  end.

Definition poll_offline w (original_stores : list (option nat)) (refs : option RawRefRegistry) (id : nat) : PM unit :=
  match original original_stores id with
  | Some a =>
    if probe_store w (At a) then
      note w "info" "recovery" (shard_text id "offline shard reachable, starting sync") ;;;
      on_cluster_of (sync_and_reattach (now_at w) original_stores id refs) ;;;
      s <- sm_get ;;
      log_outcome w id (shard_health s.1 id)
    else sm_ret tt
  | None => sm_ret tt
  end.

Definition poll_shard w (config : RecoveryConfig) (original_stores : list (option nat))
    (device_paths : list (option string)) (refs : option RawRefRegistry) (id : nat) : PM unit :=
  s <- sm_get ;;
  match shard_health s.1 id with
  | None => sm_ret tt
  | Some (Healthy | Degraded) =>
    match missing_device w device_paths id with
    | Some path =>
      note w "warn" "health" (shard_text id ("backing device/file disappeared (" +:+ path +:+ "), detaching")) ;;;
      detach_for w id DeviceMissing
    | None =>
      match shard_store s.1 id with
      | None => sm_ret tt
      | Some store => if probe_store w store then set_count id 0 else poll_failed w config id
      end
    end
  | Some Offline =>
    match missing_device w device_paths id with
    | Some _ => sm_ret tt
    | None => poll_offline w original_stores refs id
    end
  | Some Detached => sm_ret tt
  | Some Syncing => sm_ret tt
  end.

Fixpoint each {S E A} (f : A → SM S E unit) (l : list A) : SM S E unit :=
  match l with
  | [] => sm_ret tt
  | x :: l' => f x ;;; each f l'
  end.

(** ** The sweeps of a cycle *)

(** Only when the sweep before it copied nothing. *)
Definition under_repair (now : Z) (batch_size : Z) (refs : option RawRefRegistry) (sweep_count : nat) : CM nat :=
  c <- sm_get ;;
  if decide (sweep_count ≠ O) then sm_ret O
  else count_all (re_replicate now refs) (iter_take batch_size (find_under_replicated c)).*1.

(** Re-replication, the repair of what is still under-replicated, the trim. *)
Definition cycle_sweeps (now : Z) (batch_size : Z) (refs : option RawRefRegistry) : CM (nat * nat * nat) :=
  sweep_count <- re_replication_sweep now batch_size refs ;;
  under_repair_count <- under_repair now batch_size refs sweep_count ;;
  trim_count <- over_replication_trim batch_size ;;
  sm_ret (sweep_count, under_repair_count, trim_count).

Definition note_count w (n : nat) (before after : string) : PM unit :=
  if decide (0 < n)%nat then note w "info" "replication" (before +:+ pretty n +:+ after) else sm_ret tt.

Definition publish w (sweep_count under_repair_count trim_count : nat) : PM unit :=
  s <- sm_get ;;
  let now_str := to_rfc3339 (now_at w) in
  let under_count := length (find_under_replicated s.1) in
  let over_count := length (find_over_replicated s.1) in
  note_count w sweep_count "re-replication sweep: " " objects copied" ;;;
  note_count w under_repair_count "under-replication repair: " " objects copied" ;;;
  note_count w trim_count "over-replication trim: " " excess replicas removed" ;;;
  let total_replicated := (sweep_count + under_repair_count)%nat in
  on_poller (λ p,
    let st := status p in
    mkPoller (fail_counts p) (log_buffer p)
      (if decide (0 < total_replicated ∨ 0 < trim_count)%nat
       then mkRecoveryStatus (st_config st) (total_re_replicated st + Z.of_nat total_replicated) total_replicated
              under_count over_count (total_trimmed st + Z.of_nat trim_count) trim_count
              (Some now_str) (Some now_str) (poll_cycles st + 1)
       else mkRecoveryStatus (st_config st) (total_re_replicated st) (last_sweep_count st)
              under_count over_count (total_trimmed st) (last_trim_count st)
              (Some now_str) (last_sweep_at st) (poll_cycles st + 1))).

(** One iteration of [recovery_loop]. *)
Definition recovery_cycle w (config : RecoveryConfig) (original_stores : list (option nat))
    (device_paths : list (option string)) (refs : option RawRefRegistry) : PM unit :=
  s <- sm_get ;;
  each (poll_shard w config original_stores device_paths refs) (all_shards s.1) ;;;
  counts <- (if admin_op_active w then sm_ret (O, O, O)
             else on_cluster_of (cycle_sweeps (now_at w) (re_replicate_batch_size config) refs)) ;;
  publish w counts.1.1 counts.1.2 counts.2.

(** The task, for as many cycles as there are worlds. *)
Definition recovery_loop (config : RecoveryConfig) (original_stores : list (option nat))
    (device_paths : list (option string)) (refs : option RawRefRegistry) (start : World) (worlds : list World) : PM unit :=
  if negb (enabled config) then note start "info" "lifecycle" "recovery task disabled by configuration"
  else each (λ w, recovery_cycle w config original_stores device_paths refs) worlds.

(** ** The periodic repair *)

(** Batches until one copies nothing or nothing is left; [None] when another
    batch follows the last of [fuel]. *)
Fixpoint repair_batches (fuel : nat) (now : Z) (batch_size : Z) (refs : option RawRefRegistry)
    (cycle_replicated cycle_trimmed : Z) : CM (option (Z * Z)) :=
  match fuel with
  | O => sm_ret None
  | S fuel' =>
    result <- repair_replication_sweep now batch_size refs ;;
    let cycle_replicated := cycle_replicated + Z.of_nat (re_replicated result) in
    let cycle_trimmed := cycle_trimmed + Z.of_nat (rr_trimmed result) in
    if decide (re_replicated result = O ∨ under_remaining result = O)
    then sm_ret (Some (cycle_replicated, cycle_trimmed))
    else repair_batches fuel' now batch_size refs cycle_replicated cycle_trimmed
  end.

Record Repairer : Type := mkRepairer {
  rp_log : LogBuffer;
  rp_status : RepairReplicationStatus;
}.

Definition repair_note w (level msg : string) (r : Repairer) : Repairer :=
  mkRepairer (push (log_writable w) (new_entry (now_at w) level "replication" "internal" msg) (rp_log r)) (rp_status r).

Definition with_phase (p : string) (started : option string) (st : RepairReplicationStatus) : RepairReplicationStatus :=
  mkRepairStatus (rp_interval st) (rp_batch st) p (cycles_completed st) (total_objects_replicated st)
    (total_objects_trimmed st) (last_catalog_size st) (remaining_under_replicated st) (last_completed_at st) started.

Definition with_catalog_size (n : nat) (st : RepairReplicationStatus) : RepairReplicationStatus :=
  mkRepairStatus (rp_interval st) (rp_batch st) (phase st) (cycles_completed st) (total_objects_replicated st)
    (total_objects_trimmed st) n (remaining_under_replicated st) (last_completed_at st) (last_started_at st).

Definition cycle_done (now : Z) (replicated trimmed : Z) (remaining : nat) (st : RepairReplicationStatus) :
    RepairReplicationStatus :=
  mkRepairStatus (rp_interval st) (rp_batch st) "idle" (cycles_completed st + 1)
    (total_objects_replicated st + replicated) (total_objects_trimmed st + trimmed) (last_catalog_size st) remaining
    (Some (to_rfc3339 now)) (last_started_at st).

Definition RpM (A : Type) : Type := SM (ShardedObjectStore * Repairer) Error A.
Definition repair_on_cluster {A} (m : CM A) : RpM A := sm_zoom fst (λ c s, (c, s.2)) m.
Definition on_repairer (f : Repairer → Repairer) : RpM unit := sm_modify (λ s, (s.1, f s.2)).
Definition on_repair_status (f : RepairReplicationStatus → RepairReplicationStatus) : RpM unit :=
  on_repairer (λ r, mkRepairer (rp_log r) (f (rp_status r))).

(** One iteration of [repair_replication_loop]; whether it came to its end
    within [fuel] batches. *)
Definition repair_replication_cycle (fuel : nat) w (refs : option RawRefRegistry) : RpM bool :=
  if admin_op_active w then sm_ret true
  else
    s <- sm_get ;;
    on_repair_status (λ st, with_phase "scanning" (Some (to_rfc3339 (now_at w))) st) ;;;
    rebuilt <- repair_on_cluster (sm_try rebuild_catalog) ;;
    match rebuilt with
    | inr n => on_repairer (repair_note w "info" ("repair-replication: catalog rebuilt with " +:+ pretty n +:+ " objects"))
    | inl e => on_repairer (repair_note w "warn" ("repair-replication: catalog rebuild failed: " +:+ error_to_string e))
    end ;;;
    on_repair_status (with_catalog_size match rebuilt with inr n => n | inl _ => O end) ;;;
    on_repair_status (λ st, with_phase "replicating" (last_started_at st) st) ;;;
    batches <- repair_on_cluster (repair_batches fuel (now_at w) (rp_batch (rp_status s.2)) refs 0 0) ;;
    match batches with
    | None => sm_ret false
    | Some (replicated, trimmed) =>
      s <- sm_get ;;
      let remaining := length (find_under_replicated s.1) in
      on_repair_status (cycle_done (now_at w) replicated trimmed remaining) ;;;
      (if decide (0 < replicated ∨ 0 < trimmed)
       then on_repairer (repair_note w "info"
              ("repair-replication cycle done: " +:+ pretty replicated +:+ " replicated, " +:+ pretty trimmed +:+
               " trimmed, " +:+ pretty remaining +:+ " remaining"))
       else sm_ret tt) ;;;
      sm_ret true
    end.
End recovery.
