(* ===== verification/HealthPollGuarantees.v ===== *)
(** * Background recovery: facts and guarantees

    How many replicas the catalog lacks, which every batch of the repair lowers,
    and what a poll does to the failure counts; then what both guarantee. *)

From S2P Require Import Prelude.
From S2P Require Import Config.
From S2P Require Import Extent.
From S2P Require Import Concrete.
From S2P Require Import Index.
From S2P Require Import StoreTools.
From S2P Require Import StoreMeta.
From S2P Require Import Instances.
From S2P Require Import Tlv.
From S2P Require Import Catalog.
From S2P Require Import JumpHash.
From S2P Require Import Backend.
From S2P Require Import Cluster.
From S2P Require Import ClusterIo.
From S2P Require Import ClusterFacts.
From S2P Require Import ClusterOps.
From S2P Require Import ClusterExamples.
From S2P Require Import ClusterGuarantees.
From S2P Require Import ShardMeta.
From S2P Require Import MetaGuarantees.
From S2P Require Import ClusterAdmin.
From S2P Require Import Repair.
From S2P Require Import RepairFacts.
From S2P Require Import RepairGuarantees.
From S2P Require Import Logging.
From S2P Require Import HealthPoll.

(** ** The replicas that are missing *)

Section deficit.
Context `{ObjectBackend, Crc32c, HashMapOrder, ObjectPath, Chrono}.
Implicit Types (c : ShardedObjectStore) (refs : option RawRefRegistry).

Definition need c (e : PlacementEntry) : nat := factor c - count_shards available c e.

Definition sum_need c (m : gmap string PlacementEntry) : nat := map_fold (λ _ e acc, need c e + acc)%nat 0%nat m.

Lemma length_filter_impl {A} (P Q : A → Prop) `{!∀ x, Decision (P x), !∀ x, Decision (Q x)} (l : list A) :
  (∀ x, P x → Q x) → (length (filter P l) <= length (filter Q l))%nat.
Proof. intros Himpl. rewrite -(list_filter_filter_l P Q) //. apply length_filter. Qed.

(** Over all objects. *)
Definition deficit c : nat := sum_need c (entries (catalog c)).

Lemma sum_need_fresh c m k e : m !! k = None → sum_need c (<[k := e]> m) = (need c e + sum_need c m)%nat.
Proof. intros Hk. rewrite /sum_need map_fold_insert_L //. intros; lia. Qed.

Lemma sum_need_insert c m k e : sum_need c (<[k := e]> m) = (need c e + sum_need c (base.delete k m))%nat.
Proof. rewrite -insert_delete_eq. by apply sum_need_fresh, lookup_delete_eq. Qed.

Lemma sum_need_at c m k e : m !! k = Some e → sum_need c m = (need c e + sum_need c (base.delete k m))%nat.
Proof. intros He. rewrite -{1}(insert_id m k e He). apply sum_need_insert. Qed.

Lemma count_same p c c' e : shards c' = shards c → count_shards p c' e = count_shards p c e.
Proof.
  intros Hs. rewrite /count_shards (list_filter_iff _ (λ id, shard_is p c id = true)) //.
  intros id. by rewrite /shard_is Hs.
Qed.

Lemma need_same c c' e : shards c' = shards c → settings c' = settings c → need c' e = need c e.
Proof. intros Hs Hset. rewrite /need (count_same _ c c') //. by injection Hset as ->. Qed.

Lemma sum_need_same c c' m : shards c' = shards c → settings c' = settings c → sum_need c' m = sum_need c m.
Proof.
  intros Hs Hset. induction m as [|k e m Hk IH] using map_ind; [done|].
  rewrite !sum_need_fresh // IH. by rewrite (need_same c c').
Qed.

(** A step that leaves the shards and the settings, and lowers what is missing
    by [n]. *)
Definition supplies (n : nat) c c' : Prop :=
  shards c' = shards c ∧ settings c' = settings c ∧ (deficit c' + n <= deficit c)%nat.

Lemma supplies_refl c : supplies 0 c c.
Proof. split_and!; [done..|lia]. Qed.

Lemma supplies_trans n m c1 c2 c3 : supplies n c1 c2 → supplies m c2 c3 → supplies (n + m) c1 c3.
Proof. intros (Hs1 & Ht1 & Hd1) (Hs2 & Ht2 & Hd2). split_and!; [by rewrite Hs2|by rewrite Ht2|lia]. Qed.

Lemma supplies_weaken n m c c' : (m <= n)%nat → supplies n c c' → supplies m c c'.
Proof. intros Hm (Hs & Ht & Hd). split_and!; [done..|lia]. Qed.

Lemma supplies_same c c' : shards c' = shards c → settings c' = settings c → catalog c' = catalog c → supplies 0 c c'.
Proof. intros Hs Ht Hc. split_and!; [done..|]. rewrite /deficit Hc (sum_need_same c c') //. lia. Qed.

Lemma open_target_available c e to : to ∈ open_targets c e → shard_is available c to = true ∧ to ∉ pe_shards e.
Proof.
  intros [[Hnot Hh] _]%list_elem_of_filter. split; [|done]. move: Hh. rewrite /shard_is. destruct (shards c !! to) as [s|]; [|done].
  rewrite /is_healthy /available. intros Hh%bool_decide_eq_true. apply bool_decide_eq_true. by left.
Qed.

(** One more replica of an object that lacks some. *)
Lemma replicate_supplies now key from to refs c e :
  entries (catalog c) !! key = Some e → (count_shards available c e < factor c)%nat → to ∈ open_targets c e →
  let '(c', r) := replicate_object now key from to refs c in
  supplies match r with Ok _ => 1 | _ => 0 end c c'.
Proof.
  intros He Hlt Hto. pose proof (replicate_shape now key from to refs c) as Hr.
  destruct (replicate_object now key from to refs c) as [c' r]. destruct Hr as (Hs & Ht & Hc).
  destruct r as [size|er|]; [|by apply supplies_same..]. destruct Hc as (size' & ml & Hc).
  destruct (open_target_available c e to Hto) as [Hav Hnot]. split_and!; [done..|].
  set (e' := push_shard to (set_entry_meta ml e)).
  assert (pe_shards e' = pe_shards e ++ [to]) as Hp.
  { rewrite /e' /push_shard. assert (pe_shards (set_entry_meta ml e) = pe_shards e) as -> by (rewrite /set_entry_meta; by case_match).
    by rewrite bool_decide_false. }
  assert (entries (catalog c') = <[key := e']> (entries (catalog c))) as Hent by by rewrite Hc /add_replica He.
  rewrite /deficit Hent (sum_need_same c c') // sum_need_insert (sum_need_at c _ key e He).
  assert (need c e' + 1 <= need c e)%nat; [|lia].
  assert (count_shards available c e' = S (count_shards available c e)) as Hcnt.
  { rewrite /count_shards Hp filter_app length_app filter_cons_True //=. lia. }
  rewrite /need Hcnt. lia.
Qed.

(** A removed replica was one too many. *)
Lemma remove_supplies key id c :
  pick_excess_shard c key = Some id → supplies 0 c (remove_replica key id c).1.
Proof.
  intros Hp. destruct (pick_excess_spec c key id Hp) as (e & He & Hin & Hlen & Hrest).
  pose proof (remove_shape key id c) as Hr. destruct (remove_replica key id c) as [c' r]. destruct Hr as (Hs & Ht & Hc).
  cbn [fst]. destruct r as [u|er|]; [|by apply supplies_same..]. split_and!; [done..|].
  rewrite /deficit (sum_need_same c c') // Hc /remove_shard He (sum_need_at c _ key e He) /=.
  case_decide as Hnil.
  { rewrite delete_insert_eq. lia. }
  rewrite sum_need_insert. assert (need c (retain_others id e) = 0)%nat as ->; [|lia]. rewrite /need.
  assert (factor c <= count_shards available c (retain_others id e))%nat; [|lia]. etransitivity; [exact Hrest|].
  rewrite /count_shards /= !list_filter_filter. apply length_filter_impl. intros i [Hne Hi]. split; [|done].
  move: Hi. rewrite /shard_is. destruct (shards c !! i) as [s|]; [|done].
  rewrite /is_healthy /available !bool_decide_eq_true. tauto.
Qed.

(** ** What the loops supply *)

Lemma repair_key_supplies fuel now refs key c :
  let '(c', r) := repair_key fuel now refs key c in supplies match r with Ok n => n | _ => 0 end c c'.
Proof.
  revert c. induction fuel as [|fuel IH]; intros c; [apply supplies_refl|]. cbn [repair_key]. rewrite /sm_bind /sm_get.
  destruct (entries (catalog c) !! key) as [e|] eqn:He; [|apply supplies_refl].
  case_decide as Hlt; [apply supplies_refl|].
  destruct (repair_step c key) as [[from to]|] eqn:Hs; [|apply supplies_refl].
  destruct (repair_step_target c key from to e He Hs) as (Hto & _ & _).
  pose proof (replicate_supplies now key from to refs c e He ltac:(lia) Hto) as Hr. rewrite /sm_try.
  destruct (replicate_object now key from to refs c) as [c1 [size|er|]]; [|done..]. specialize (IH c1).
  destruct (repair_key fuel now refs key c1) as [c2 [n|er|]].
  - exact (supplies_trans 1 n _ _ _ Hr IH).
  - by eapply supplies_weaken, (supplies_trans 1 0); [|exact Hr|exact IH]; lia.
  - by eapply supplies_weaken, (supplies_trans 1 0); [|exact Hr|exact IH]; lia.
Qed.

Lemma trim_key_supplies fuel key c : supplies 0 c (trim_key fuel key c).1.
Proof.
  revert c. induction fuel as [|fuel IH]; intros c; [apply supplies_refl|]. cbn [trim_key]. rewrite /sm_bind /sm_get.
  destruct (pick_excess_shard c key) as [id|] eqn:Hp; [|apply supplies_refl].
  pose proof (remove_supplies key id c Hp) as Hr. rewrite /sm_try.
  destruct (remove_replica key id c) as [c1 [u|er|]]; [|done..]. specialize (IH c1).
  destruct (trim_key fuel key c1) as [c2 [n|er|]]; exact (supplies_trans 0 0 _ _ _ Hr IH).
Qed.

(** [supply n] is what a result that counts [n] is known to have supplied. *)
Lemma count_all_supplies {A} (f : A → CM nat) (supply : nat → nat) l c :
  (supply 0 = 0)%nat → (∀ n m, supply (n + m) = supply n + supply m)%nat →
  (∀ x c, let '(c', r) := f x c in supplies match r with Ok n => supply n | _ => 0 end c c') →
  let '(c', r) := count_all f l c in supplies match r with Ok n => supply n | _ => 0 end c c'.
Proof.
  intros Hz Hadd Hf. revert c. induction l as [|x l IH]; intros c.
  { cbn. rewrite Hz. apply supplies_refl. }
  cbn [count_all]. rewrite /sm_bind. specialize (Hf x c). destruct (f x c) as [c1 [n|er|]]; [|done..]. specialize (IH c1).
  destruct (count_all f l c1) as [c2 [m|er|]]; cbn.
  - rewrite Hadd. by eapply supplies_trans.
  - by eapply supplies_weaken, supplies_trans; [|exact Hf|exact IH]; lia.
  - by eapply supplies_weaken, supplies_trans; [|exact Hf|exact IH]; lia.
Qed.

Lemma sweep_supplies now batch refs c :
  let '(c', r) := repair_replication_sweep now batch refs c in
  supplies match r with Ok res => re_replicated res | _ => 0 end c c' ∧
  match r with Ok res => under_remaining res = length (find_under_replicated c') | _ => True end.
Proof.
  rewrite /repair_replication_sweep /sm_bind /sm_get.
  pose proof (count_all_supplies (repair_one now refs) id (iter_take batch (find_under_replicated c)).*1 c eq_refl
    ltac:(done) ltac:(intros; rewrite /repair_one /sm_bind /sm_get; apply repair_key_supplies)) as Hr.
  destruct (count_all (repair_one now refs) _ c) as [c1 [n|er|]]; [|by split..].
  pose proof (count_all_supplies trim_one (λ _, 0%nat) (iter_take batch (find_over_replicated c1)).*1 c1 eq_refl
    ltac:(done)) as Ht.
  assert (∀ x c0, let '(c', r) := trim_one x c0 in supplies match r with Ok _ => 0 | _ => 0 end c0 c') as Hone.
  { intros x c0. rewrite /trim_one /sm_bind /sm_get. pose proof (trim_key_supplies (S match entries (catalog c0) !! x with
      Some e => length (pe_shards e) | None => 0%nat end) x c0) as Hk. by destruct (trim_key _ x c0) as [c2 [m|er|]]. }
  specialize (Ht Hone). destruct (count_all trim_one _ c1) as [c2 [m|er|]]; cbn; (split; [|done]).
  - by eapply supplies_weaken, supplies_trans; [|exact Hr|exact Ht]; rewrite /id; lia.
  - by eapply supplies_weaken, supplies_trans; [|exact Hr|exact Ht]; lia.
  - by eapply supplies_weaken, supplies_trans; [|exact Hr|exact Ht]; lia.
Qed.

(** One batch, and what follows it. *)
Lemma repair_batches_step k now batch refs n t c :
  repair_batches (S k) now batch refs n t c =
  match repair_replication_sweep now batch refs c with
  | (c1, Ok res) =>
    if decide (re_replicated res = O ∨ under_remaining res = O)
    then (c1, Ok (Some (n + Z.of_nat (re_replicated res), t + Z.of_nat (rr_trimmed res))))
    else repair_batches k now batch refs (n + Z.of_nat (re_replicated res)) (t + Z.of_nat (rr_trimmed res)) c1
  | (c1, Err e) => (c1, Err e)
  | (c1, Panic) => (c1, Panic)
  end.
Proof.
  cbn [repair_batches]. rewrite /sm_bind. destruct (repair_replication_sweep now batch refs c) as [c1 [res|e|]]; [|done..].
  by case_decide.
Qed.

(** Why a cycle stopped. *)
Definition batches_done now batch refs c' : Prop :=
  find_under_replicated c' = [] ∨
  ∃ c1 result, repair_replication_sweep now batch refs c1 = (c', Ok result) ∧ re_replicated result = 0%nat.

Lemma repair_batches_run now batch refs fuel c n0 t0 :
  (deficit c < fuel)%nat →
  (∀ fuel', (deficit c < fuel')%nat → repair_batches fuel' now batch refs n0 t0 c = repair_batches fuel now batch refs n0 t0 c) ∧
  (repair_batches fuel now batch refs n0 t0 c).2 ≠ Ok None ∧
  ∀ c' n t, repair_batches fuel now batch refs n0 t0 c = (c', Ok (Some (n, t))) →
    (∃ k, n = n0 + Z.of_nat k ∧ supplies k c c') ∧ batches_done now batch refs c'.
Proof.
  revert c n0 t0. induction fuel as [|fuel IH]; intros c n0 t0 Hfuel; [lia|].
  assert (∀ fuel', (deficit c < fuel')%nat → ∃ k, fuel' = S k ∧ (deficit c <= k)%nat) as Hpos.
  { intros [|k] Hk; [lia|]. exists k. lia. }
  pose proof (sweep_supplies now batch refs c) as Hs. rewrite repair_batches_step.
  destruct (repair_replication_sweep now batch refs c) as [c1 [res|e|]] eqn:Hrun.
  2,3: split_and!; [intros fuel' (k & -> & _)%Hpos; by rewrite repair_batches_step Hrun|done|done].
  destruct Hs as [Hs Hrem]. case_decide as Hd.
  - split_and!; [intros fuel' (k & -> & _)%Hpos; by rewrite repair_batches_step Hrun decide_True|done|].
    intros c' n t [= <- <- <-]. split; [by exists (re_replicated res)|]. destruct Hd as [Hd|Hd]; [right; by exists c, res|left].
    apply length_zero_iff_nil. by rewrite -Hrem.
  - apply Decidable.not_or in Hd as [Hd1 Hd2]. pose proof Hs as (_ & _ & Hlt).
    destruct (IH c1 (n0 + Z.of_nat (re_replicated res)) (t0 + Z.of_nat (rr_trimmed res)) ltac:(lia)) as (Hsame & Hne & Hres).
    split_and!; [|done|].
    + intros fuel' (k & -> & Hk)%Hpos. rewrite repair_batches_step Hrun decide_False; [|tauto]. apply Hsame. lia.
    + intros c' n t Hc'. destruct (Hres c' n t Hc') as [(k & -> & Hk) Hend]. split; [|done].
      exists (re_replicated res + k)%nat. split; [lia|]. by eapply supplies_trans.
Qed.
End deficit.

(** ** What a poll does to the counts *)

Section polls.
Context `{ObjectBackend, Crc32c, HashMapOrder, ObjectPath, Chrono, LogTexts}.
Implicit Types (c : ShardedObjectStore) (w : World) (p : Poller).
Variables (config : RecoveryConfig) (original_stores : list (option nat)) (device_paths : list (option string))
  (refs : option RawRefRegistry).

(** What a poll finds of a shard it may detach. *)
Inductive Finding : Type := Missing | Answered | Failed.

#[export] Instance Finding_eq_dec : EqDecision Finding.
Proof. solve_decision. Defined.

Definition finding w c (id : nat) : option Finding :=
  match shard_health c id, shard_store c id with
  | Some (Healthy | Degraded), Some store =>
    Some match missing_device w device_paths id with
         | Some _ => Missing
         | None => if probe_store w store then Answered else Failed
         end
  | _, _ => None
  end.

(** What a poll observes: the finding of a shard in service, whether the store
    of an offline shard answered its probe, or nothing when it makes none. *)
Inductive Observation : Type := InService (f : Finding) | OfflineProbe (answered : bool) | NoProbe.

Definition observe w c (id : nat) : Observation :=
  match finding w c id with
  | Some f => InService f
  | None =>
    match shard_health c id, missing_device w device_paths id, original original_stores id with
    | Some Offline, None, Some a => OfflineProbe (probe_store w (At a))
    | _, _, _ => NoProbe
    end
  end.

Definition in_service (o : Observation) : option Finding := match o with InService f => Some f | _ => None end.

Lemma observe_finding w c id : in_service (observe w c id) = finding w c id.
Proof. rewrite /observe. destruct (finding w c id); [done|]. by repeat case_match. Qed.

(** The count after a finding, and why the shard was detached. *)
Definition verdict (n : Z) (f : Finding) : Z * option DetachReason :=
  match f with
  | Missing => (0, Some DeviceMissing)
  | Answered => (0, None)
  | Failed => if failure_threshold config <=? n + 1 then (0, Some ProbeFailure) else (n + 1, None)
  end.

Definition detached_for w (id : nat) (why : option DetachReason) c : ShardedObjectStore :=
  match why with Some reason => set_detach_reason id reason (detach_shard (now_at w) id c).1 | None => c end.

Definition poll_once w c p (id : nat) := poll_shard w config original_stores device_paths refs id (c, p).

Lemma set_count_run id n c p :
  (id < length (fail_counts p))%nat →
  set_count id n (c, p) = ((c, mkPoller (<[id := n]> (fail_counts p)) (log_buffer p) (status p)), Ok tt).
Proof. intros Hid. rewrite /set_count. by rewrite (decide_True _ _ Hid). Qed.

(** A note is logged; the rest goes on. *)
Lemma note_bind {A} w level category msg (k : PM A) c p :
  ∃ p1, fail_counts p1 = fail_counts p ∧ (note w level category msg ;;; k) (c, p) = k (c, p1).
Proof. by eexists (mkPoller (fail_counts p) _ _). Qed.

Ltac run_note p1 Hp1 :=
  match goal with |- context [sm_bind (note ?w ?l ?ca ?m) (λ _, ?k) (?c, ?p)] =>
    let Hrun := fresh in destruct (note_bind w l ca m k c p) as (p1 & Hp1 & Hrun); rewrite Hrun; clear Hrun
  end.

Lemma detach_for_run w id reason c p :
  (id < length (fail_counts p))%nat →
  ∃ p', detach_for w id reason (c, p) = ((detached_for w id (Some reason) c, p'), Ok tt) ∧
    fail_counts p' = <[id := 0]> (fail_counts p).
Proof. intros Hid. rewrite /detach_for /sm_bind /= set_count_run //. by eexists. Qed.

(** The outcome of a poll: the shard's count, and whether it is detached. *)
Definition polled w c p (id : nat) (n : Z) (f : Finding) (out : (ShardedObjectStore * Poller) * Res Error unit) : Prop :=
  ∃ p', out = ((detached_for w id (verdict n f).2 c, p'), Ok tt) ∧
    fail_counts p' = <[id := (verdict n f).1]> (fail_counts p).

Lemma missing_polled w c p id n path :
  (id < length (fail_counts p))%nat →
  polled w c p id n Missing
    ((note w "warn" "health" (shard_text id ("backing device/file disappeared (" +:+ path +:+ "), detaching")) ;;;
      detach_for w id DeviceMissing) (c, p)).
Proof.
  intros Hid. run_note p1 Hp1. rewrite -Hp1 in Hid.
  destruct (detach_for_run w id DeviceMissing c p1 Hid) as (p' & Hd & Hp). exists p'. split; [exact Hd|]. by rewrite Hp Hp1.
Qed.

Lemma answered_polled w c p id n : (id < length (fail_counts p))%nat → polled w c p id n Answered (set_count id 0 (c, p)).
Proof. intros Hid. rewrite set_count_run //. by eexists. Qed.

Lemma failed_polled w c p id n : fail_counts p !! id = Some n → polled w c p id n Failed (poll_failed w config id (c, p)).
Proof.
  intros Hn. pose proof (lookup_lt_Some _ _ _ Hn) as Hid. rewrite /polled /poll_failed /verdict {1}/sm_bind /get_count Hn.
  rewrite {1}/sm_bind set_count_run //. run_note p1 Hp1. cbn in Hp1.
  destruct (failure_threshold config <=? n + 1); [|by exists p1].
  run_note p2 Hp2.
  destruct (detach_for_run w id ProbeFailure c p2) as (p' & Hd & Hp); [by rewrite Hp2 Hp1 length_insert|].
  exists p'. split; [exact Hd|]. by rewrite Hp Hp2 Hp1 list_insert_insert_eq.
Qed.

Lemma poll_writable w c p id h store :
  shard_health c id = Some h → is_writable h = true → shard_store c id = Some store →
  poll_once w c p id =
  match missing_device w device_paths id with
  | Some path =>
    (note w "warn" "health" (shard_text id ("backing device/file disappeared (" +:+ path +:+ "), detaching")) ;;;
     detach_for w id DeviceMissing) (c, p)
  | None => if probe_store w store then set_count id 0 (c, p) else poll_failed w config id (c, p)
  end.
Proof.
  intros Hh Hw Hs. rewrite /poll_once /poll_shard {1}/sm_bind /sm_get /fst Hh Hs.
  by destruct h, (missing_device w device_paths id), (probe_store w store).
Qed.

Lemma finding_spec w c id f :
  finding w c id = Some f →
  ∃ h store, shard_health c id = Some h ∧ is_writable h = true ∧ shard_store c id = Some store ∧
    f = match missing_device w device_paths id with
        | Some _ => Missing
        | None => if probe_store w store then Answered else Failed
        end.
Proof.
  rewrite /finding. destruct (shard_health c id) as [h|]; [|done]. destruct (shard_store c id) as [store|]; [|by destruct h].
  intros Hf. exists h, store. by destruct h; simplify_eq.
Qed.

Lemma poll_found w c p id n f :
  fail_counts p !! id = Some n → finding w c id = Some f → polled w c p id n f (poll_once w c p id).
Proof.
  intros Hn (h & store & Hh & Hw & Hs & ->)%finding_spec. pose proof (lookup_lt_Some _ _ _ Hn) as Hid.
  rewrite (poll_writable w c p id h store Hh Hw Hs). destruct (missing_device w device_paths id); [by apply missing_polled|].
  destruct (probe_store w store); [by apply answered_polled|by apply failed_polled].
Qed.

(** A shard that is not writable is never detached and keeps its count. *)
Definition same_counts (p : Poller) (out : (ShardedObjectStore * Poller) * Res Error unit) : Prop :=
  fail_counts out.1.2 = fail_counts p.

Lemma note_counts w level category msg c p : same_counts p (note w level category msg (c, p)).
Proof. done. Qed.

Lemma poll_unfound w c p id : finding w c id = None → same_counts p (poll_once w c p id).
Proof.
  rewrite /finding /poll_once /poll_shard {1}/sm_bind /sm_get /fst. rewrite /shard_store.
  destruct (shard_health c id) as [h|] eqn:Hh; [|done].
  assert (∃ s, shards c !! id = Some s) as [s Hs].
  { rewrite /shard_health in Hh. destruct (shards c !! id) as [s|]; [by eexists|done]. }
  rewrite Hs. destruct h; try done. intros _. destruct (missing_device w device_paths id); [done|].
  rewrite /poll_offline. destruct (original original_stores id) as [a|]; [|done]. destruct (probe_store w (At a)); [|done].
  run_note p1 Hp1. rewrite /same_counts -Hp1 {1}/sm_bind /on_cluster_of /sm_zoom /=.
  destruct (sync_and_reattach (now_at w) original_stores id refs c) as [c1 [u|e|]]; [|done..].
  rewrite {1}/sm_bind /sm_get /=. by destruct (shard_health c1 id) as [[]|].
Qed.

(** More shards than original stores: the index panics. *)
Lemma poll_out_of_range w c p id : fail_counts p !! id = None → same_counts p (poll_once w c p id).
Proof.
  intros Hn. destruct (finding w c id) as [f|] eqn:Hf; [|by apply poll_unfound].
  assert (∀ n c1 p1, fail_counts p1 = fail_counts p → set_count id n (c1, p1) = ((c1, p1), Panic)) as Hset.
  { intros n c1 p1 Hp. rewrite /set_count decide_False //= Hp. by apply Nat.nlt_ge, lookup_ge_None. }
  apply finding_spec in Hf as (h & store & Hh & Hw & Hs & _). rewrite (poll_writable w c p id h store Hh Hw Hs).
  destruct (missing_device w device_paths id).
  - run_note p1 Hp1. rewrite /detach_for. run_note p2 Hp2. rewrite /sm_bind /=.
    by rewrite Hset /same_counts /= Hp2 Hp1.
  - destruct (probe_store w store); [by rewrite Hset|]. by rewrite /poll_failed /sm_bind /get_count Hn.
Qed.

(** Polls of other shards leave a shard's count. *)
Lemma poll_other w c p i id : i ≠ id → fail_counts (poll_once w c p i).1.2 !! id = fail_counts p !! id.
Proof.
  intros Hne. destruct (finding w c i) as [f|] eqn:Hf; [|by rewrite poll_unfound].
  destruct (fail_counts p !! i) as [n|] eqn:Hn; [|by rewrite poll_out_of_range].
  destruct (poll_found w c p i n f Hn Hf) as (p' & -> & Hp). by rewrite /= Hp list_lookup_insert_ne.
Qed.

(** ** Histories of polls *)

(** A poll of a shard, in the world and the cluster it met. *)
Definition Poll : Type := World * ShardedObjectStore * nat.

Definition polls (hist : list Poll) p : Poller := foldl (λ p '(w, c, i), (poll_once w c p i).1.2) p hist.

(** What the polls observed of one shard, oldest first, and what they found
    while it was in service. *)
Definition observations (id : nat) (hist : list Poll) : list Observation :=
  omap (λ '(w, c, i), if decide (i = id) then Some (observe w c id) else None) hist.

Definition findings (id : nat) (hist : list Poll) : list Finding := omap in_service (observations id hist).

Lemma polls_snoc hist w c i p : polls (hist ++ [(w, c, i)]) p = (poll_once w c (polls hist p) i).1.2.
Proof. by rewrite /polls foldl_app. Qed.

Lemma findings_snoc id hist w c i :
  findings id (hist ++ [(w, c, i)]) =
  findings id hist ++ match (if decide (i = id) then finding w c id else None) with Some f => [f] | None => [] end.
Proof.
  rewrite /findings /observations !omap_app /=. case_decide; [|done]. cbn. by rewrite observe_finding.
Qed.

(** At least one failure detaches. *)
Definition threshold : nat := Z.to_nat (Z.max 1 (failure_threshold config)).

(** The count is below the threshold, and that many findings, the latest, were
    failures. *)
Definition streak id (fs : list Finding) p : Prop :=
  ∃ k, fail_counts p !! id = Some (Z.of_nat k) ∧ (k < threshold)%nat ∧ (k <= length fs)%nat ∧
    Forall (eq Failed) (recent k fs).

Lemma verdict_count k f n why :
  (k < threshold)%nat → verdict (Z.of_nat k) f = (n, why) →
  ∃ k', n = Z.of_nat k' ∧ (k' < threshold)%nat ∧
    match f, why with
    | Missing, _ => k' = 0%nat ∧ why = Some DeviceMissing
    | Answered, _ => k' = 0%nat ∧ why = None
    | Failed, None => k' = S k
    | Failed, Some reason => k' = 0%nat ∧ reason = ProbeFailure ∧ S k = threshold
    end.
Proof.
  rewrite /threshold /verdict. intros Hk. destruct f; [intros [= <- <-]; exists 0%nat; split_and!; [done|lia|done..]..|].
  case_match eqn:Ht; intros [= <- <-].
  - exists 0%nat. split_and!; [done|lia|done|done|lia].
  - exists (S k). split_and!; [lia|lia|done].
Qed.

Lemma recent_failed k (fs : list Finding) :
  (k <= length fs)%nat → Forall (eq Failed) (recent k fs) → Forall (eq Failed) (recent (S k) (fs ++ [Failed])).
Proof.
  intros Hk Hf. rewrite /recent length_app /=. replace (length fs + 1 - S k)%nat with (length fs - k)%nat by lia.
  rewrite drop_app_le; [|lia]. apply Forall_app. split; [done|]. by apply Forall_singleton.
Qed.

Lemma recent_cons {A} n (x : A) l : (n <= length l)%nat → recent n (x :: l) = recent n l.
Proof. intros Hl. rewrite /recent /length -/(length l). by replace (S (length l) - n)%nat with (S (length l - n)) by lia. Qed.

(** The latest [n] findings are failures: no probe of the shard in service
    succeeded since the first of them. *)
Lemma recent_span n (obs : list Observation) :
  (1 <= n)%nat → (n <= length (omap in_service obs))%nat → Forall (eq Failed) (recent n (omap in_service obs)) →
  ∃ earlier span, obs = earlier ++ InService Failed :: span ∧
    omap in_service (InService Failed :: span) = replicate n Failed.
Proof.
  intros Hn. induction obs as [|o obs IH]; [simpl; lia|]. intros Hl Hf.
  destruct (decide (n <= length (omap in_service obs))%nat) as [Hle|Hgt].
  - destruct IH as (earlier & span & -> & Hs); [done| |by exists (o :: earlier), span].
    destruct o as [f|a|]; [|exact Hf..].
    change (omap in_service (InService f :: obs)) with (f :: omap in_service obs) in Hf. by rewrite recent_cons in Hf.
  - destruct o as [f|a|]; [|by destruct (Hgt Hl)..].
    change (omap in_service (InService f :: obs)) with (f :: omap in_service obs) in Hl, Hf.
    rewrite length_cons in Hl. assert (n = S (length (omap in_service obs))) as -> by lia.
    rewrite /recent length_cons Nat.sub_diag drop_0 in Hf. pose proof Hf as [<- _]%Forall_cons.
    exists [], obs. split; [done|]. change (omap in_service (InService Failed :: obs)) with (Failed :: omap in_service obs).
    symmetry. apply replicate_as_elem_of. split; [done|]. rewrite Forall_forall in Hf. intros x Hx. symmetry. by apply Hf.
Qed.

Lemma span_in_service n (span : list Observation) :
  omap in_service span = replicate n Failed → Forall (λ o, in_service o ≠ None) span →
  span = replicate n (InService Failed).
Proof.
  revert n. induction span as [|o span IH]; intros n Hs Hall; [by destruct n|]. apply Forall_cons in Hall as [Ho Hall].
  destruct o as [f|a|]; [|done..]. destruct n as [|n]; [done|]. injection Hs as -> Hs. simpl. f_equal. by apply IH.
Qed.

Lemma streak_step id fs w c p i :
  streak id fs p →
  streak id (fs ++ match (if decide (i = id) then finding w c id else None) with Some f => [f] | None => [] end)
    (poll_once w c p i).1.2.
Proof.
  intros (k & Hc & Hk & Hl & Hf). case_decide as Hi.
  2: { rewrite app_nil_r. exists k. by rewrite poll_other. }
  subst i. destruct (finding w c id) as [f|] eqn:Hfd.
  2: { rewrite app_nil_r. exists k. by rewrite poll_unfound. }
  destruct (poll_found w c p id _ f Hc Hfd) as (p' & -> & Hp). cbn [fst snd]. destruct (verdict (Z.of_nat k) f) as [n why] eqn:Hv.
  destruct (verdict_count k f n why Hk Hv) as (k' & -> & Hk' & Hwhy). exists k'. rewrite Hp /=.
  rewrite list_lookup_insert_eq; [|by eapply lookup_lt_Some]. rewrite length_app /=.
  assert (k' = 0%nat → Forall (eq Failed) (recent k' (fs ++ [f]))) as Hzero.
  { intros ->. rewrite /recent drop_ge; [constructor|lia]. }
  split_and!; [done|done| |]; destruct f, why as [reason|]; try match type of Hwhy with _ ∧ _ => destruct Hwhy as [-> _]; (lia || by apply Hzero) end.
  - subst k'. lia.
  - subst k'. by apply recent_failed.
Qed.

Lemma streak_polls id hist p : streak id [] p → streak id (findings id hist) (polls hist p).
Proof.
  intros Hp. induction hist as [|[[w c] i] hist IH] using rev_ind; [done|].
  rewrite polls_snoc findings_snoc. by apply streak_step.
Qed.
End polls.

(** * The guarantees of background recovery

    When a shard is detached, what a cycle keeps, that the periodic repair
    ends, and a history the failure counts get wrong. *)

(** ** The periodic repair ends *)

Section batches.
Context `{ObjectBackend, Crc32c, HashMapOrder, ObjectPath, Chrono}.
Implicit Types (c : ShardedObjectStore).

(** C20: The periodic repair ends.  A cycle runs at most one batch more than the
    cluster lacks replicas: more fuel changes nothing.  It copies no more than
    was missing, leaves the shards and the settings as they were, and stops
    because no object lacks a replica or because a whole batch copied none. *)
Theorem repair_cycle_ends now batch refs c fuel :
  (deficit c < fuel)%nat →
  (∀ fuel', (deficit c < fuel')%nat → repair_batches fuel' now batch refs 0 0 c = repair_batches fuel now batch refs 0 0 c) ∧
  (repair_batches fuel now batch refs 0 0 c).2 ≠ Ok None ∧
  ∀ c' n t, repair_batches fuel now batch refs 0 0 c = (c', Ok (Some (n, t))) →
    shards c' = shards c ∧ settings c' = settings c ∧ 0 <= n ∧ n + Z.of_nat (deficit c') <= Z.of_nat (deficit c) ∧
    batches_done now batch refs c'.
Proof.
  intros Hfuel. destruct (repair_batches_run now batch refs fuel c 0 0 Hfuel) as (Hsame & Hne & Hres).
  split_and!; [done..|]. intros c' n t Hc'.
  destruct (Hres c' n t Hc') as [(k & -> & Hsh & Hset & Hd) Hend]. split_and!; [done..|lia|lia|done].
Qed.
End batches.

(** ** When a shard is detached *)

Section detaching.
Context `{ObjectBackend, Crc32c, HashMapOrder, ObjectPath, Chrono, LogTexts}.
Implicit Types (c : ShardedObjectStore) (w : World) (p : Poller).
Variables (config : RecoveryConfig) (original_stores : list (option nat)) (device_paths : list (option string))
  (refs : option RawRefRegistry).

Abbreviation poll_once := (poll_once config original_stores device_paths refs).
Abbreviation polls := (polls config original_stores device_paths refs).
Abbreviation findings := (findings original_stores device_paths).
Abbreviation observations := (observations original_stores device_paths).
Abbreviation finding := (finding device_paths).

(** A run of failed probes ends in a detachment. *)
Lemma failures_detach id run p k :
  fail_counts p !! id = Some (Z.of_nat k) → (k < threshold config)%nat → (threshold config <= k + length run)%nat →
  (∀ w c, (w, c) ∈ run → finding w c id = Some Failed) →
  ∃ run1 w c run2 p', run = run1 ++ (w, c) :: run2 ∧
    poll_once w c (polls ((λ '(w, c), (w, c, id)) <$> run1) p) id = ((detached_for w id (Some ProbeFailure) c, p'), Ok tt).
Proof.
  revert p k. induction run as [|[w c] run IH]; intros p k Hc Hk Hl Hf; [simpl in Hl; lia|].
  destruct (poll_found config original_stores device_paths refs w c p id _ Failed Hc (Hf w c ltac:(by left))) as (p1 & Hp1 & Hc1).
  destruct (verdict config (Z.of_nat k) Failed) as [n why] eqn:Hv.
  destruct (verdict_count config k Failed n why Hk Hv) as (k' & -> & Hk' & Hwhy). cbn [fst snd] in *.
  destruct why as [reason|]; [destruct Hwhy as (_ & -> & _); exists [], w, c, run, p1; by split|]. subst k'.
  destruct (IH p1 (S k)) as (run1 & w' & c' & run2 & p' & -> & Hd).
  - rewrite Hc1 list_lookup_insert_eq //. by eapply lookup_lt_Some.
  - done.
  - simpl in Hl. lia.
  - intros w' c' Hin. apply Hf. by right.
  - exists ((w, c) :: run1), w', c', run2, p'. split; [done|]. by rewrite fmap_cons /= Hp1.
Qed.

(** C15: A shard is detached for its device or for its failures.  After any
    history of polls of any shards, in clusters that may change between them,
    a poll that takes a healthy or degraded shard offline found its device
    missing, or it is the last of [failure_threshold] (at least one) failed
    probes such that no probe of the shard in service succeeded since the
    first; it changes nothing but that shard, with the reason.  Polls made
    while the shard was offline may lie in between and do not reset the count,
    not even when its store answered; with none of these the failures are
    consecutive.  And a run of as many failed probes detaches the shard. *)
Theorem detach_needs_failures hist w c p id :
  fail_counts p !! id = Some 0 →
  let '((c', p'), r) := poll_once w c (polls hist p) id in
  (∀ h, shard_health c id = Some h → is_writable h = true →
     r = Ok tt ∧
     (c' = c ∨
      finding w c id = Some Missing ∧ c' = detached_for w id (Some DeviceMissing) c ∨
      c' = detached_for w id (Some ProbeFailure) c ∧
        ∃ earlier span, observations id (hist ++ [(w, c, id)]) = earlier ++ InService Failed :: span ∧
          omap in_service (InService Failed :: span) = replicate (threshold config) Failed ∧
          (Forall (λ o, in_service o ≠ None) span →
             InService Failed :: span = replicate (threshold config) (InService Failed)))) ∧
  (∀ run, (∀ w c, (w, c) ∈ run → finding w c id = Some Failed) → (threshold config <= length run)%nat →
     ∃ run1 w c run2 p', run = run1 ++ (w, c) :: run2 ∧
       poll_once w c (polls (hist ++ ((λ '(w, c), (w, c, id)) <$> run1)) p) id =
         ((detached_for w id (Some ProbeFailure) c, p'), Ok tt)).
Proof.
  intros Hp. assert (streak config id [] p) as Hstart.
  { exists 0%nat. split_and!; [done|rewrite /threshold; lia|done|constructor]. }
  pose proof (streak_polls config original_stores device_paths refs id hist p Hstart) as (k & Hc & Hk & Hl & Hf).
  destruct (poll_once w c (polls hist p) id) as [[c' p'] r] eqn:Hpoll. split.
  - intros h Hh Hw. assert (∃ f, finding w c id = Some f) as [f Hfd].
    { rewrite /finding Hh. rewrite /shard_health in Hh. rewrite /shard_store.
      destruct (shards c !! id) as [s|]; [|done]. destruct h; [by eexists..|done|done|done]. }
    destruct (poll_found config original_stores device_paths refs w c _ id _ f Hc Hfd) as (p1 & Hp1 & _).
    rewrite Hpoll in Hp1. injection Hp1 as -> -> ->. split; [done|].
    pose proof (findings_snoc original_stores device_paths id hist w c id) as Hfs. rewrite decide_True // Hfd in Hfs.
    destruct (verdict config (Z.of_nat k) f) as [n why] eqn:Hv.
    destruct (verdict_count config k f n why Hk Hv) as (k' & _ & _ & Hwhy). destruct why as [reason|]; [|by left].
    right. destruct f; [left; by destruct Hwhy as [_ [= ->]]|by destruct Hwhy|right]. destruct Hwhy as (_ & -> & Hth).
    split; [done|]. destruct (recent_span (threshold config) (observations id (hist ++ [(w, c, id)])))
      as (earlier & span & Ho & Hs).
    + rewrite /threshold. lia.
    + rewrite -/(findings id _) Hfs -Hth length_app /=. lia.
    + rewrite -/(findings id _) Hfs -Hth. by apply recent_failed.
    + exists earlier, span. split_and!; [done|done|]. intros Hall. apply span_in_service; [done|]. by constructor.
  - intros run Hrun Hlen. destruct (failures_detach id run (polls hist p) k Hc Hk ltac:(lia) Hrun)
      as (run1 & w' & c1 & run2 & p1 & -> & Hd).
    exists run1, w', c1, run2, p1. split; [done|]. rewrite /polls foldl_app. exact Hd.
Qed.
End detaching.

(** ** What a cycle keeps *)

Section cycles.
Context `{RawBackendLaws, Crc32c, HashMapOrderLaws, ObjectPath, Chrono}.

(** C19: A cycle's upkeep keeps objects.  Whatever the re-replication, the repair
    and the trim of one cycle return and wherever they are cut short, an object
    all of whose replicas have the body [d] still has it on as many healthy
    shards of its catalog entry as before, counted up to the replication
    factor; the shards and the settings are unchanged and the catalog has no
    new keys. *)
Theorem cycle_keeps_objects now batch (refs : option RawRefRegistry) known c k d :
  known [] → (∀ x md, known x → known md → data_ok now (x ++ md)) →
  sweep_ok refs known c → settled c k d →
  let c' := (cycle_sweeps now batch refs c).1 in
  swept refs known c c' ∧ survives c' k d (Nat.min (factor c) (healthy_count c k)).
Proof.
  intros Hnil Hw Hok Hset. pose proof (settled_intact refs known c k d Hok Hset) as Hint.
  set (n := Nat.min (factor c) (healthy_count c k)) in *. assert (n <= factor c)%nat as Hn by lia.
  set (kept c' := swept refs known c c' ∧ survives c' k d n). change (kept (cycle_sweeps now batch refs c).1).
  assert (∀ c1, keeps refs known intact c c1 → kept c1) as Hcut.
  { intros c1 [Hs Hk]. split; [done|]. apply (intact_survives refs known); [by eapply sp_ok|by apply Hk]. }
  rewrite /cycle_sweeps {1}/sm_bind. pose proof (re_replication_keeps now refs known Hnil Hw batch c Hok) as H1'.
  destruct (re_replication_sweep now batch refs c) as [c1 [sweep_count|e|]]; cbn [fst] in H1'; [|by apply Hcut..].
  assert (keeps refs known intact c (under_repair now batch refs sweep_count c1).1) as H2'.
  { eapply keeps_trans; [exact H1'|]. pose proof (sp_ok _ _ _ _ (proj1 H1')) as Hok1.
    rewrite /under_repair /sm_bind /sm_get. case_decide; [by apply keeps_refl|].
    apply count_all_keeps; [|done]. by apply re_replicate_keeps. }
  rewrite {1}/sm_bind. destruct (under_repair now batch refs sweep_count c1) as [c2 [under_count|e|]]; cbn [fst] in H2';
    [|by apply Hcut..].
  assert (sweep_ok refs known c2) as Hok2 by exact (sp_ok _ _ _ _ (proj1 H2')).
  destruct (trim_survives now refs known Hnil Hw batch c2 k d n Hok2) as [Hs3 Hv3].
  - by rewrite (swept_factor _ _ _ _ (proj1 H2')).
  - by apply (proj2 H2').
  - rewrite /sm_bind. destruct (over_replication_trim batch c2) as [c3 [t|e|]]; cbn [fst] in *;
      (split; [by eapply swept_trans; [exact (proj1 H2')|]|exact Hv3]).
Qed.
End cycles.

(** ** Examples *)

#[local] Instance plain_texts : LogTexts :=
  {| format_log_time t := pretty t; parse_datetime s := Some (digits_value s); percent_decode s := s |}.

(** Everything is there, but for the stores in [down]. *)
Definition world (now : Z) (down : list nat) : World :=
  mkWorld now (λ _, true) (λ a, negb (bool_decide (a ∈ down))) false true.

Definition poller3 : Poller := new_poller default_recovery [Some 0; Some 1; Some 2]%nat (new_buffer 10 None).

Definition cycle3 (w : World) (s : ShardedObjectStore * Poller) : ShardedObjectStore * Poller :=
  (recovery_cycle w default_recovery [Some 0; Some 1; Some 2]%nat [] None s).1.

(** Two failed probes, a failed write that takes the shard offline, a probe
    that succeeds and brings it back: the next failed probe is counted as the
    third. *)
Lemma stale_failures_detach :
  let s := cycle3 (world 120 [2]%nat) (cycle3 (world 110 [2]%nat) (after_a, poller3)) in
  let back := cycle3 (world 130 []) (mark_offline 125 [2]%nat s.1, s.2) in
  let gone := cycle3 (world 140 [2]%nat) back in
  shard_health back.1 2 = Some Healthy ∧ fail_counts back.2 = [0; 0; 2] ∧
  shard_health gone.1 2 = Some Offline ∧
  detach_reason <$> shards gone.1 !! 2%nat = Some (Some ProbeFailure).
Proof. vm_compute. split_and!; reflexivity. Qed.

Lemma repair_cycle_ends_witness :
  deficit degraded = 1%nat ∧
  (repair_batches 2 300 10 (Some mixed_registry) 0 0 degraded).2 = Ok (Some (1, 0)) ∧
  find_under_replicated (repair_batches 2 300 10 (Some mixed_registry) 0 0 degraded).1 = [] ∧
  (repair_batches 2 300 10 (Some mixed_registry) 0 0 degraded).2 ≠ Ok None.
Proof.
  split; [by vm_compute|]. split; [by vm_compute|]. split; [by vm_compute|].
  apply (repair_cycle_ends 300 10 (Some mixed_registry) degraded 2).
  assert (deficit degraded = 1%nat) as -> by (by vm_compute). lia.
Defined.

(** Three failed probes, with shard 1 polled in between. *)
Definition failing : list Poll :=
  [(world 110 [2]%nat, after_a, 2); (world 110 [2]%nat, after_a, 1); (world 120 [2]%nat, after_a, 2)]%nat.

Lemma detach_needs_failures_witness :
  let polled hist w := poll_once default_recovery [Some 0; Some 1; Some 2]%nat [] None w after_a
    (polls default_recovery [Some 0; Some 1; Some 2]%nat [] None hist poller3) 2 in
  let out := polled failing (world 130 [2]%nat) in
  fail_counts poller3 !! 2%nat = Some 0 ∧
  shard_health out.1.1 2 = Some Offline ∧
  out.2 = Ok tt ∧
  observations [Some 0; Some 1; Some 2]%nat [] 2 (failing ++ [(world 130 [2]%nat, after_a, 2%nat)]) =
    replicate 3 (InService Failed).
Proof.
  cbv zeta. split; [reflexivity|]. split; [by vm_compute|]. split; [|by vm_compute].
  pose proof (detach_needs_failures default_recovery [Some 0; Some 1; Some 2]%nat [] None failing (world 130 [2]%nat)
    after_a poller3 2 ltac:(reflexivity)) as Hp.
  destruct (poll_once _ _ _ _ _ _ _ _) as [[c' p'] r]. destruct Hp as [Hp _].
  destruct (Hp Healthy ltac:(by vm_compute) eq_refl) as [-> _]. reflexivity.
Defined.

Lemma cycle_keeps_objects_witness :
  healthy_count degraded "a" = 1%nat ∧
  survives (cycle_sweeps 300 10 (Some mixed_registry) degraded).1 "a" body_a 1 ∧
  snd (cycle_sweeps 300 10 (Some mixed_registry) degraded) = Ok (1, 0, 0)%nat.
Proof.
  split; [by vm_compute|]. split; [|by vm_compute].
  destruct (cycle_keeps_objects 300 10 (Some mixed_registry) (λ _, True) degraded "a" body_a) as [_ Hs].
  - exact I.
  - by intros.
  - exact degraded_ok.
  - exact degraded_settled.
  - exact Hs.
Defined.
