(* ===== verification/Blocks.v ===== *)
(** * Indented blocks

    The daemon and the library each have a recursive parser for a node, its
    shards and its children; both are instances of the one of this file, and
    what does not depend on their lines is proved here once. *)

From S2P Require Import Prelude.
From S2P Require Import Text.

Section blocks.
Context {Head Node Shard : Type} (header : string → Res string Head) (is_node : string → bool) (shard : string → Res string Shard).
Context (ref : Node → Shard) (build : Head → list Shard → list Node → Node).

Fixpoint parse_block (fuel : nat) (lines : list (nat * string)) : Res string (Node * list (nat * string)) :=
  match fuel with
  | O => Panic
  | S fuel' =>
    match lines with
    | [] => Err "unexpected end of config"
    | (node_indent, node_line) :: lines' =>
      h ← header node_line;
      body ← parse_block_body fuel' node_indent lines';
      let '(shards, kids, rest) := body in
      Ok (build h shards kids, rest)
    end
  end
with parse_block_body (fuel : nat) (node_indent : nat) (lines : list (nat * string)) :
    Res string (list Shard * list Node * list (nat * string)) :=
  match fuel with
  | O => Panic
  | S fuel' =>
    match lines with
    | [] => Ok ([], [], [])
    | (indent, line) :: lines' =>
      if decide (indent <= node_indent)%nat then Ok ([], [], lines)
      else if is_node line then
        block ← parse_block fuel' lines;
        let '(child, rest) := block in
        body ← parse_block_body fuel' node_indent rest;
        let '(shards, kids, rest) := body in
        Ok (ref child :: shards, child :: kids, rest)
      else
        s ← shard line;
        body ← parse_block_body fuel' node_indent lines';
        let '(shards, kids, rest) := body in
        Ok (s :: shards, kids, rest)
    end
  end.

Lemma block_step fuel i l lines :
  parse_block (S fuel) ((i, l) :: lines) =
    (h ← header l; body ← parse_block_body fuel i lines; let '(shards, kids, rest) := body in Ok (build h shards kids, rest)).
Proof. reflexivity. Qed.

Lemma body_step fuel i j l lines :
  (i < j)%nat →
  parse_block_body (S fuel) i ((j, l) :: lines) =
    if is_node l then
      block ← parse_block fuel ((j, l) :: lines);
      body ← parse_block_body fuel i (snd block);
      let '(shards, kids, rest) := body in Ok (ref (fst block) :: shards, fst block :: kids, rest)
    else
      s ← shard l; body ← parse_block_body fuel i lines; let '(shards, kids, rest) := body in Ok (s :: shards, kids, rest).
Proof.
  intros Hi. cbn [parse_block_body]. rewrite decide_False; [|lia]. destruct (is_node l); [|done].
  by destruct (parse_block fuel ((j, l) :: lines)) as [[n r]|e|].
Qed.

Lemma body_stop fuel i j l lines :
  (j <= i)%nat → parse_block_body (S fuel) i ((j, l) :: lines) = Ok ([], [], (j, l) :: lines).
Proof. intros Hj. cbn [parse_block_body]. by rewrite decide_True. Qed.

(** What is left after a block is shorter, after a body no longer. *)
Lemma block_rest fuel :
  (∀ lines n rest, parse_block fuel lines = Ok (n, rest) → (length rest < length lines)%nat) ∧
  (∀ i lines s k rest, parse_block_body fuel i lines = Ok (s, k, rest) → (length rest <= length lines)%nat).
Proof.
  induction fuel as [|fuel [IHblock IHbody]]; [done|]. split.
  - intros [|[i l] lines] n rest; [done|]. cbn [parse_block].
    intros (h & _ & ([[s k] r] & Hb & [= <- <-])%bind_ok)%bind_ok. apply IHbody in Hb. cbn. lia.
  - intros i [|[j l] lines] s k rest; cbn [parse_block_body]; [by intros [= <- <- <-]|]. case_decide; [by intros [= <- <- <-]|].
    destruct (is_node l).
    + intros ([child r] & Hc & ([[s' k'] r'] & Hb & [= <- <- <-])%bind_ok)%bind_ok.
      apply IHblock in Hc. apply IHbody in Hb. lia.
    + intros (sh & _ & ([[s' k'] r'] & Hb & [= <- <- <-])%bind_ok)%bind_ok. apply IHbody in Hb. cbn. lia.
Qed.

(** Every block that is accepted satisfies what its lines establish. *)
Lemma block_inv (P : Node → Prop) (Q : Shard → Prop) (R : list Shard → list Node → Prop) fuel :
  (∀ line s, is_node line = false → shard line = Ok s → Q s ∧ ∀ shards kids, R shards kids → R (s :: shards) kids) →
  (∀ k shards kids, R shards kids → R (ref k :: shards) (k :: kids)) → (∀ k, P k → Q (ref k)) → R [] [] →
  (∀ line h shards kids, header line = Ok h → Forall Q shards → Forall P kids → R shards kids → P (build h shards kids)) →
  (∀ lines n rest, parse_block fuel lines = Ok (n, rest) → P n) ∧
  (∀ i lines s k rest, parse_block_body fuel i lines = Ok (s, k, rest) → R s k ∧ Forall Q s ∧ Forall P k).
Proof.
  intros Hshard Href Hq Hnil Hbuild. induction fuel as [|fuel [IHblock IHbody]]; [done|]. split.
  - intros [|[i l] lines] n rest; [done|]. cbn [parse_block].
    intros (h & Hh & ([[s k] r] & Hb & [= <- <-])%bind_ok)%bind_ok. apply IHbody in Hb as (HR & HQ & HP). by eapply Hbuild.
  - intros i [|[j l] lines] s k rest; cbn [parse_block_body]; [by intros [= <- <- <-]|]. case_decide; [by intros [= <- <- <-]|].
    destruct (is_node l) eqn:Hl.
    + intros ([child r] & Hc & ([[s' k'] r'] & Hb & [= <- <- <-])%bind_ok)%bind_ok.
      apply IHblock in Hc. apply IHbody in Hb as (HR & HQ & HP). split_and!; [by apply Href|constructor; auto..].
    + intros (sh & Hsh & ([[s' k'] r'] & Hb & [= <- <- <-])%bind_ok)%bind_ok.
      apply IHbody in Hb as (HR & HQ & HP). apply Hshard in Hsh as [Hq' HR']; [|done]. split_and!; [auto|by constructor|done].
Qed.

Section fuel.
Context (header_no_panic : ∀ line, header line ≠ Panic) (shard_no_panic : ∀ line, shard line ≠ Panic).

(** Enough fuel: the result is an answer, and the same with more. *)
Lemma block_fuel_enough f1 f2 :
  (∀ lines, (2 * length lines <= f1)%nat → (2 * length lines <= f2)%nat → (0 < f1)%nat → (0 < f2)%nat →
     parse_block f1 lines = parse_block f2 lines ∧ parse_block f1 lines ≠ Panic) ∧
  (∀ i lines, (2 * length lines < f1)%nat → (2 * length lines < f2)%nat →
     parse_block_body f1 i lines = parse_block_body f2 i lines ∧ parse_block_body f1 i lines ≠ Panic).
Proof.
  revert f2. induction f1 as [|f1 IH]; intros f2; [split; intros; lia|]. destruct f2 as [|f2]; [split; intros; lia|].
  destruct (IH f2) as [IHblock IHbody]. split.
  - intros [|[i l] lines] Hl1 Hl2 _ _; cbn [parse_block]; [done|]. cbn in Hl1, Hl2.
    destruct (IHbody i lines ltac:(lia) ltac:(lia)) as [<- Hne]. split; [done|].
    apply bind_no_panic; [apply header_no_panic|]. intros h. apply bind_no_panic; [done|]. by intros [[]].
  - intros i [|[j l] lines] Hl1 Hl2; cbn [parse_block_body]; [done|]. cbn in Hl1, Hl2. case_decide; [done|].
    destruct (is_node l).
    + destruct (IHblock ((j, l) :: lines)) as [<- Hne]; [cbn; lia..|].
      pose proof (proj1 (block_rest f1) ((j, l) :: lines)) as Hrest.
      destruct (parse_block f1 ((j, l) :: lines)) as [[child r]|e|]; [|done|done]. cbn.
      specialize (Hrest child r eq_refl). cbn in Hrest. destruct (IHbody i r ltac:(lia) ltac:(lia)) as [<- Hne']. split; [done|].
      apply bind_no_panic; [done|]. by intros [[]].
    + destruct (IHbody i lines ltac:(lia) ltac:(lia)) as [<- Hne]. split; [done|].
      apply bind_no_panic; [apply shard_no_panic|]. intros sh. apply bind_no_panic; [done|]. by intros [[]].
Qed.

Lemma block_answers lines fuel :
  (S (2 * length lines) <= fuel)%nat →
  parse_block fuel lines = parse_block (S (2 * length lines)) lines ∧ parse_block fuel lines ≠ Panic.
Proof. intros Hf. apply block_fuel_enough; lia. Qed.
End fuel.
End blocks.
