(* ===== verification/TreeConfig.v ===== *)
(** * The daemon's tree configuration ([objstrd/src/config.rs])

    The indentation-based description of a cluster: directives, nodes with
    their shards and child nodes, and the validation of the result.  The
    messages of errors and diagnostics are kept. *)

From S2P Require Import Prelude.
From S2P Require Import Config.
From S2P Require Import Index.
From S2P Require Import Tlv.
From S2P Require Import Text.

(** ** The tree *)

Inductive TreeShard : Type :=
| TRaw (path : string) (read_only : bool) (compression : option string) (direct_io : option bool) (size_mb : option Z)
| TFs (root : string) (read_only : bool)
| TS3 (endpoint bucket : string) (region access_key secret_key : option string) (path_style : bool)
| TMem
| TNode (name : string).

#[warnings="-register-all"]
Inductive TreeNode : Type := mkNode {
  tn_name : string;
  listen : string;
  endpoint : string;
  replication_factor : Z;
  tn_min_writes : option Z;
  delete_requires_min_writes : bool;
  tn_shards : list TreeShard;
  children : list TreeNode;
}.

(** What the directives set. *)
Record Directives : Type := mkDirectives {
  cluster_name : string;
  default_bucket : string;
  read_prefer : option string;
  recovery_enabled : option bool;
  recovery_poll_secs : option Z;
  recovery_probe_timeout_secs : option Z;
  recovery_failure_threshold : option Z;
  recovery_re_replicate_batch_size : option Z;
  repair_replication_interval_secs : option Z;
  repair_replication_batch_size : option Z;
  compression : option string;
  direct_io : option bool;
  size_mb : option Z;
  flush_interval : option Z;
  admin_token : option string;
  access_key : option string;
  secret_key : option string;
  cors_origin : option string;
  log_file : option string;
  log_buffer_size : option Z;
  event_socket : option string;
  event_secret : option string;
  max_readers : option Z;
  event_source : option string;
  catalog_path : option string;
  catalog_format : option string;
  catalog_flush_interval : option Z;
}.

Record TreeConfig : Type := mkTree { directives : Directives; root : TreeNode }.

Definition no_directives : Directives :=
  mkDirectives "" "testbucket" None None None None None None None None None None None None None None None None None
    None None None None None None None None.

Definition rebuilt (d : Directives) : Directives :=
  mkDirectives (cluster_name d) (default_bucket d) (read_prefer d) (recovery_enabled d) (recovery_poll_secs d)
    (recovery_probe_timeout_secs d) (recovery_failure_threshold d) (recovery_re_replicate_batch_size d)
    (repair_replication_interval_secs d) (repair_replication_batch_size d) (compression d) (direct_io d) (size_mb d)
    (flush_interval d) (admin_token d) (access_key d) (secret_key d) (cors_origin d) (log_file d) (log_buffer_size d)
    (event_socket d) (event_secret d) (max_readers d) (event_source d) (catalog_path d) (catalog_format d)
    (catalog_flush_interval d).

(** [rebuilt d] with [v] for the field [get] reads. *)
Ltac with_field get v d :=
  let e := eval cbv beta delta [rebuilt] in (rebuilt d) in
  match e with context C [get d] => let r := context C [v] in exact r end.

Definition set_cluster_name v d : Directives := ltac:(with_field cluster_name v d).
Definition set_default_bucket v d : Directives := ltac:(with_field default_bucket v d).
Definition set_read_prefer v d : Directives := ltac:(with_field read_prefer v d).
Definition set_recovery_enabled v d : Directives := ltac:(with_field recovery_enabled v d).
Definition set_recovery_poll_secs v d : Directives := ltac:(with_field recovery_poll_secs v d).
Definition set_recovery_probe_timeout_secs v d : Directives := ltac:(with_field recovery_probe_timeout_secs v d).
Definition set_recovery_failure_threshold v d : Directives := ltac:(with_field recovery_failure_threshold v d).
Definition set_recovery_re_replicate_batch_size v d : Directives := ltac:(with_field recovery_re_replicate_batch_size v d).
Definition set_repair_replication_interval_secs v d : Directives := ltac:(with_field repair_replication_interval_secs v d).
Definition set_repair_replication_batch_size v d : Directives := ltac:(with_field repair_replication_batch_size v d).
Definition set_compression v d : Directives := ltac:(with_field compression v d).
Definition set_direct_io v d : Directives := ltac:(with_field direct_io v d).
Definition set_size_mb v d : Directives := ltac:(with_field size_mb v d).
Definition set_flush_interval v d : Directives := ltac:(with_field flush_interval v d).
Definition set_admin_token v d : Directives := ltac:(with_field admin_token v d).
Definition set_access_key v d : Directives := ltac:(with_field access_key v d).
Definition set_secret_key v d : Directives := ltac:(with_field secret_key v d).
Definition set_cors_origin v d : Directives := ltac:(with_field cors_origin v d).
Definition set_log_file v d : Directives := ltac:(with_field log_file v d).
Definition set_log_buffer_size v d : Directives := ltac:(with_field log_buffer_size v d).
Definition set_event_socket v d : Directives := ltac:(with_field event_socket v d).
Definition set_event_secret v d : Directives := ltac:(with_field event_secret v d).
Definition set_max_readers v d : Directives := ltac:(with_field max_readers v d).
Definition set_event_source v d : Directives := ltac:(with_field event_source v d).
Definition set_catalog_path v d : Directives := ltac:(with_field catalog_path v d).
Definition set_catalog_format v d : Directives := ltac:(with_field catalog_format v d).
Definition set_catalog_flush_interval v d : Directives := ltac:(with_field catalog_flush_interval v d).

Abbreviation ConfRes := (Res string).

(** ** Lines *)

Definition tokenize_kv_line (line : string) : list string := (tokens_from 0 None "" line).2.

Definition is_node_line (line : string) : bool :=
  negb (mem_str (first_word line) ["raw"; "fs"; "s3"; "mem"]) && str_contains "rf=" line.

Record ParsedNodeLine : Type := mkNodeLine {
  pn_name : string;
  pn_listen : string;
  pn_endpoint : string;
  pn_replication_factor : Z;
  pn_min_writes : option Z;
  pn_delete_requires_min_writes : bool;
}.

Definition parse_usize (error val : string) : ConfRes Z :=
  match parse_uint u64_max val with Some n => Ok n | None => Err (error +:+ val) end.

Definition node_error (name msg : string) : string := "node " +:+ quoted name +:+ ": " +:+ msg.

(** One field of a node line. *)
Definition node_field (n : ParsedNodeLine) (part : string) : ConfRes ParsedNodeLine :=
  let '(mkNodeLine name listen endpoint rf mw del_req_mw) := n in
  match strip_prefix "rf=" part with
  | Some val => rf ← parse_usize "invalid rf value: " val; Ok (mkNodeLine name listen endpoint rf mw del_req_mw)
  | None =>
  match strip_prefix "min_writes=" part with
  | Some val =>
    v ← parse_usize "invalid min_writes value: " val;
    if decide (v = 0) then Err (node_error name "min_writes must be >= 1")
    else Ok (mkNodeLine name listen endpoint rf (Some v) del_req_mw)
  | None =>
    if mem_str part ["delete_requires_min_writes"; "delete_requires_min_writes=true"; "delete_requires_min_writes=1"]
    then Ok (mkNodeLine name listen endpoint rf mw true)
    else if mem_str part ["delete_requires_min_writes=false"; "delete_requires_min_writes=0"]
    then Ok (mkNodeLine name listen endpoint rf mw false)
    else match strip_prefix "listen=" part with
    | Some val => Ok (mkNodeLine name val endpoint rf mw del_req_mw)
    | None =>
    match strip_prefix "endpoint=" part with
    | Some val => Ok (mkNodeLine name listen val rf mw del_req_mw)
    | None => Ok n
    end end end end.

(** The loop, with the keys seen. *)
Definition node_part (acc : list string * ParsedNodeLine) (part : string) : ConfRes (list string * ParsedNodeLine) :=
  let '(seen_keys, n) := acc in
  let key := key_of part in
  if mem_str key seen_keys then Err (node_error (pn_name n) ("duplicate key " +:+ quoted key))
  else n ← node_field n part; Ok (seen_keys ++ [key], n).

Definition parse_node_line (line : string) : ConfRes ParsedNodeLine :=
  match tokenize_kv_line line with
  | [] => Err "empty node line"
  | name :: parts =>
    r ← try_fold node_part ([], mkNodeLine name "" "" 1 None false) parts;
    let n := snd r in
    if decide (pn_listen n = "") then Err (node_error name "missing listen= field")
    else if decide (pn_endpoint n = "") then Err (node_error name "missing endpoint= field")
    else match pn_min_writes n with
         | Some v =>
           if pn_replication_factor n <? v
           then Err (node_error name ("min_writes (" +:+ pretty v +:+ ") must be <= rf (" +:+ pretty (pn_replication_factor n) +:+ ")"))
           else Ok n
         | None => Ok n
         end
  end.

Definition is_readonly_flag (p : string) : bool := mem_str p ["readonly"; "read_only"; "read-only"].

(** The options of a raw shard: read-only, compression, O_DIRECT, size. *)
Definition RawOptions : Type := bool * option string * option bool * option Z.

Definition raw_option (o : RawOptions) (p : string) : ConfRes RawOptions :=
  let '(read_only, compression, direct_io, size_mb) := o in
  if is_readonly_flag p then Ok (true, compression, direct_io, size_mb)
  else if mem_str p ["direct_io"; "direct-io"] then Ok (read_only, compression, Some true, size_mb)
  else match strip_either "direct_io=" "direct-io=" p with
  | Some val => Ok (read_only, compression, Some (is_true val), size_mb)
  | None =>
  match strip_prefix "compression=" p with
  | Some val => Ok (read_only, Some val, direct_io, size_mb)
  | None =>
  match strip_either "size_mb=" "size-mb=" p with
  | Some val => n ← parse_usize "raw shard: invalid size_mb: " val; Ok (read_only, compression, direct_io, Some n)
  | None => Ok o
  end end end.

(** The options of an S3 shard, and the keys seen. *)
Record S3Options : Type := mkS3 {
  s3_endpoint : string;
  s3_bucket : string;
  s3_region : option string;
  s3_access_key : option string;
  s3_secret_key : option string;
  s3_path_style : bool;
}.

Definition no_s3 : S3Options := mkS3 "" "" None None None false.

Definition s3_option (o : S3Options) (part : string) : S3Options :=
  let '(mkS3 endpoint bucket region access_key secret_key path_style) := o in
  match strip_prefix "endpoint=" part with
  | Some val => mkS3 val bucket region access_key secret_key path_style
  | None =>
  match strip_prefix "bucket=" part with
  | Some val => mkS3 endpoint val region access_key secret_key path_style
  | None =>
  match strip_prefix "region=" part with
  | Some val => mkS3 endpoint bucket (Some val) access_key secret_key path_style
  | None =>
  match strip_prefix "access_key=" part with
  | Some val => mkS3 endpoint bucket region (Some val) secret_key path_style
  | None =>
  match strip_prefix "secret_key=" part with
  | Some val => mkS3 endpoint bucket region access_key (Some val) path_style
  | None =>
    if mem_str part ["path_style=true"; "path_style"]
    then mkS3 endpoint bucket region access_key secret_key true
    else o
  end end end end end.

Definition s3_part (acc : list string * S3Options) (part : string) : ConfRes (list string * S3Options) :=
  let '(seen_keys, o) := acc in
  let key := key_of part in
  if mem_str key seen_keys then Err ("s3 shard: duplicate key " +:+ quoted key)
  else Ok (seen_keys ++ [key], s3_option o part).

Definition parse_s3_parts (parts : list string) : ConfRes TreeShard :=
  r ← try_fold s3_part ([], no_s3) parts;
  let o := snd r in
  if decide (s3_endpoint o = "") then Err "s3 shard: missing endpoint= field"
  else if decide (s3_bucket o = "") then Err "s3 shard: missing bucket= field"
  else Ok (TS3 (s3_endpoint o) (s3_bucket o) (s3_region o) (s3_access_key o) (s3_secret_key o) (s3_path_style o)).

Definition parse_shard_line (line : string) : ConfRes TreeShard :=
  match tokenize_kv_line line with
  | [] => Err "empty shard line"
  | type :: parts =>
    if decide (type = "raw") then
      match parts with
      | [] => Err "raw shard: missing path"
      | path :: options =>
        o ← try_fold raw_option (false, None, None, None) options;
        let '(read_only, compression, direct_io, size_mb) := o in
        Ok (TRaw path read_only compression direct_io size_mb)
      end
    else if decide (type = "fs") then
      match parts with
      | [] => Err "fs shard: missing root path"
      | root :: options => Ok (TFs root (existsb is_readonly_flag options))
      end
    else if decide (type = "mem") then Ok TMem
    else if decide (type = "s3") then parse_s3_parts parts
    else Err ("unknown shard type: " +:+ quoted type +:+ " (expected raw, fs, s3, mem)")
  end.

(** ** Blocks *)

(** A node and its children from the head of [lines], and the lines that
    follow: the text from [*pos] on.  [Panic] is the end of the fuel. *)
Fixpoint parse_node_block (fuel : nat) (lines : list (nat * string)) : ConfRes (TreeNode * list (nat * string)) :=
  match fuel with
  | O => Panic
  | S fuel' =>
    match lines with
    | [] => Err "unexpected end of config"
    | (node_indent, node_line) :: lines' =>
      n ← parse_node_line node_line;
      body ← parse_body fuel' node_indent lines';
      let '(shards, kids, rest) := body in
      Ok (mkNode (pn_name n) (pn_listen n) (pn_endpoint n) (pn_replication_factor n) (pn_min_writes n)
            (pn_delete_requires_min_writes n) shards kids, rest)
    end
  end
(** The loop over the lines that are indented deeper than the node's. *)
with parse_body (fuel : nat) (node_indent : nat) (lines : list (nat * string)) :
    ConfRes (list TreeShard * list TreeNode * list (nat * string)) :=
  match fuel with
  | O => Panic
  | S fuel' =>
    match lines with
    | [] => Ok ([], [], [])
    | (indent, line) :: lines' =>
      if decide (indent <= node_indent)%nat then Ok ([], [], lines)
      else if is_node_line line then
        block ← parse_node_block fuel' lines;
        let '(child, rest) := block in
        body ← parse_body fuel' node_indent rest;
        let '(shards, kids, rest) := body in
        Ok (TNode (tn_name child) :: shards, child :: kids, rest)
      else
        shard ← parse_shard_line line;
        body ← parse_body fuel' node_indent lines';
        let '(shards, kids, rest) := body in
        Ok (shard :: shards, kids, rest)
    end
  end.

(** Each line is looked at twice at most. *)
Definition block_fuel (lines : list (nat * string)) : nat := S (2 * length lines).

(** ** Directives *)

(** The lines that are left for the nodes. *)
Definition Sorted : Type := Directives * list (nat * string).

Definition parse_to (max : Z) (what val : string) : ConfRes Z :=
  match parse_uint max val with Some n => Ok n | None => Err ("invalid " +:+ what +:+ ": " +:+ val) end.

(** [key.map(..)]: a numeric directive without a value is ignored. *)
Definition number (what : string) (val : option string) (set : option Z → Directives → Directives) (d : Directives) :
    ConfRes Directives :=
  match val with
  | Some v => n ← parse_to u64_max what v; Ok (set (Some n) d)
  | None => Ok d
  end.

Definition recovery_directive (d : Directives) (line : string) : ConfRes Directives :=
  match cut_ws line with
  | (_, None) => Ok d
  | (key, Some rest) =>
    let val := trim rest in
    if decide (key = "recovery_enabled") then Ok (set_recovery_enabled (Some (is_true val)) d)
    else if decide (key = "recovery_poll_secs") then
      n ← parse_to u64_max key val; Ok (set_recovery_poll_secs (Some n) d)
    else if decide (key = "recovery_probe_timeout_secs") then
      n ← parse_to u64_max key val; Ok (set_recovery_probe_timeout_secs (Some n) d)
    else if decide (key = "recovery_failure_threshold") then
      n ← parse_to u32_max key val; Ok (set_recovery_failure_threshold (Some n) d)
    else if decide (key = "recovery_re_replicate_batch_size") then
      n ← parse_to u64_max key val; Ok (set_recovery_re_replicate_batch_size (Some n) d)
    else Ok d
  end.

(** Directives of other programs, skipped. *)
Definition foreign_directives : list string := ["read_only"; "catalog"; "replicas"; "min_writes"; "delete_requires_min_writes"].

(** A known directive; [None] for a line that must be a node's. *)
Definition known_directive (d : Directives) (key : string) (val : option string) : option (ConfRes Directives) :=
  if decide (key = "compression") then Some (Ok (set_compression val d))
  else if decide (key = "direct_io") then
    Some (Ok (set_direct_io (Some match val with Some v => is_true v | None => true end) d))
  else if decide (key = "size_mb") then Some (number key val set_size_mb d)
  else if decide (key = "flush_interval") then Some (number key val set_flush_interval d)
  else if decide (key = "admin_token") then Some (Ok (set_admin_token val d))
  else if decide (key = "access_key") then Some (Ok (set_access_key val d))
  else if decide (key = "secret_key") then Some (Ok (set_secret_key val d))
  else if decide (key = "cors_origin") then Some (Ok (set_cors_origin val d))
  else if decide (key = "log_file") then Some (Ok (set_log_file val d))
  else if decide (key = "log_buffer_size") then Some (number key val set_log_buffer_size d)
  else if decide (key = "event_socket") then Some (Ok (set_event_socket val d))
  else if decide (key = "event_secret") then Some (Ok (set_event_secret val d))
  else if decide (key = "max_readers") then Some (number key val set_max_readers d)
  else if decide (key = "event_source") then Some (Ok (set_event_source val d))
  else if decide (key = "repair_replication_interval") then Some (number key val set_repair_replication_interval_secs d)
  else if decide (key = "repair_replication_batch_size") then Some (number key val set_repair_replication_batch_size d)
  else if decide (key = "catalog_path") then Some (Ok (set_catalog_path val d))
  else if decide (key = "catalog_format") then Some (Ok (set_catalog_format val d))
  else if decide (key = "catalog_flush_interval") then Some (number key val set_catalog_flush_interval d)
  else if mem_str key foreign_directives then Some (Ok d)
  else None.

(** [line.strip_prefix(key).unwrap().trim()] *)
Definition after_key (key line : string) : string := trim (default "" (strip_prefix key line)).

Definition sort_line (acc : Sorted) (item : nat * string) : ConfRes Sorted :=
  let '(d, remaining) := acc in
  let '(indent, line) := item in
  if decide (indent ≠ O) then Ok (d, remaining ++ [item])
  else if starts_with "cluster " line then Ok (set_cluster_name (after_key "cluster" line) d, remaining)
  else if starts_with "bucket " line then Ok (set_default_bucket (after_key "bucket" line) d, remaining)
  else if starts_with "read_prefer " line then Ok (set_read_prefer (Some (after_key "read_prefer" line)) d, remaining)
  else if starts_with "recovery_" line then d ← recovery_directive d line; Ok (d, remaining)
  else
    let '(key, rest) := cut_ws line in
    match known_directive d key (trim <$> rest) with
    | Some r => d ← r; Ok (d, remaining)
    | None => Ok (d, remaining ++ [item])
    end.

Definition parse_tree_config (text : string) : ConfRes TreeConfig :=
  sorted ← try_fold sort_line (no_directives, []) (indented_lines text);
  let '(d, remaining) := sorted in
  if decide (remaining = []) then Err "no nodes defined in tree config"
  else
    block ← parse_node_block (block_fuel remaining) remaining;
    let root := fst block in
    let d := if decide (cluster_name d = "") then set_cluster_name (tn_name root) d else d in
    Ok (mkTree d root).

(** ** Looking a node up *)

Fixpoint find_node_recursive (node : TreeNode) (name : string) : option TreeNode :=
  if decide (tn_name node = name) then Some node
  else
    (fix find_in (l : list TreeNode) : option TreeNode :=
       match l with
       | [] => None
       | child :: l' => match find_node_recursive child name with Some found => Some found | None => find_in l' end
       end) (children node).

Definition find_node (tree : TreeConfig) (name : string) : option TreeNode := find_node_recursive (root tree) name.

Definition MAX_CONFIG_FILE_SIZE : Z := 10 * 1024 * 1024.

(** What the file system answers about a configuration file. *)
Inductive FileState : Type :=
| StatFailed (error : string)
| ReadFailed (len : Z) (error : string)
| Readable (len : Z) (text : string).

Definition load_tree_config (path : string) (file : FileState) : ConfRes TreeConfig :=
  let too_large len :=
    Err ("config file " +:+ quoted path +:+ " too large (" +:+ pretty len +:+ " bytes, max " +:+
         pretty MAX_CONFIG_FILE_SIZE +:+ ")") in
  match file with
  | StatFailed e => Err ("failed to stat " +:+ quoted path +:+ ": " +:+ e)
  | ReadFailed len e =>
    if MAX_CONFIG_FILE_SIZE <? len then too_large len else Err ("failed to read " +:+ quoted path +:+ ": " +:+ e)
  | Readable len text => if MAX_CONFIG_FILE_SIZE <? len then too_large len else parse_tree_config text
  end.

(** ** Validation *)

Inductive DiagLevel : Type := DError | DWarning | DInfo.

#[export] Instance DiagLevel_eq_dec : EqDecision DiagLevel.
Proof. solve_decision. Defined.

Definition level_name (l : DiagLevel) : string :=
  match l with DError => "ERROR" | DWarning => "WARN" | DInfo => "INFO" end.

Record ConfigDiag : Type := mkDiag { dg_level : DiagLevel; dg_message : string }.

(** *** Collecting *)

Fixpoint collect_nodes (node : TreeNode) : list TreeNode := node :: flat_map collect_nodes (children node).
Definition collect_node_names (node : TreeNode) : list string := tn_name <$> collect_nodes node.

Definition s3_shards (node : TreeNode) : list (string * string * string) :=
  omap (λ shard, match shard with
                 | TS3 endpoint bucket _ _ _ _ => Some (endpoint, bucket, tn_name node)
                 | _ => None
                 end) (tn_shards node).
Definition collect_s3_shards (node : TreeNode) : list (string * string * string) :=
  flat_map s3_shards (collect_nodes node).

Definition is_node_ref (shard : TreeShard) : bool := match shard with TNode _ => true | _ => false end.

Fixpoint count_shards (node : TreeNode) : nat :=
  (length (filter (λ s, is_node_ref s = false) (tn_shards node)) + sum_list (count_shards <$> children node))%nat.

Definition colon : Ascii.ascii := Ascii.ascii_of_nat 58.

(** The scheme, the port and the path stripped. *)
Definition endpoint_hostname (endpoint : string) : string :=
  let without_scheme := default endpoint (strip_either "https://" "http://" endpoint) in
  (cut slash (cut colon without_scheme).1).1.

(** One diagnostic per item whose key was seen before. *)
Fixpoint repeated {A K} `{EqDecision K} (key : A → K) (diag : A → ConfigDiag) (seen : list K) (l : list A) : list ConfigDiag :=
  match l with
  | [] => []
  | x :: l' =>
    if bool_decide (key x ∈ seen) then diag x :: repeated key diag seen l' else repeated key diag (key x :: seen) l'
  end.

Definition raw_paths (node : TreeNode) : list (string * string) :=
  omap (λ shard, match shard with TRaw path _ _ _ _ => Some (path, tn_name node) | _ => None end) (tn_shards node).
Definition fs_roots (node : TreeNode) : list (string * string) :=
  omap (λ shard, match shard with TFs root _ => Some (root, tn_name node) | _ => None end) (tn_shards node).

(** Nodes by the host of their endpoint. *)
Definition by_host (nodes : list TreeNode) : gmap string (list TreeNode) :=
  foldl (λ m node, let host := endpoint_hostname (endpoint node) in <[host := default [] (m !! host) ++ [node]]> m) ∅ nodes.

Definition host_diags (host : string) (group : list TreeNode) : list ConfigDiag :=
  repeated fst (λ '(path, nname), mkDiag DError
    ("duplicate raw device " +:+ quoted path +:+ " on host " +:+ quoted host +:+ " (node " +:+ quoted nname +:+
     ") -- multiple shards on the same machine must not share a device")) [] (flat_map raw_paths group) ++
  repeated fst (λ '(root, nname), mkDiag DError
    ("duplicate fs root " +:+ quoted root +:+ " on host " +:+ quoted host +:+ " (node " +:+ quoted nname +:+
     ") -- multiple shards on the same machine must not share a mount")) [] (flat_map fs_roots group).

(** *** Nodes *)

Definition is_url (s : string) : bool := starts_with "http://" s || starts_with "https://" s.

Definition diag_if (b : bool) (level : DiagLevel) (msg : string) : list ConfigDiag :=
  if b then [mkDiag level msg] else [].

Definition known_compression (comp : string) : bool := match from_str_name comp with Ok _ => true | _ => false end.

Section validate.
Context `{HashMapOrder}.
Variables (fs : Paths) (tree : TreeConfig) (all_names : list string).

Definition at_shard (node : TreeNode) (i : nat) (msg : string) : string :=
  "node " +:+ quoted (tn_name node) +:+ " shard " +:+ pretty i +:+ ": " +:+ msg.

Definition validate_shard (node : TreeNode) (i : nat) (shard : TreeShard) : list ConfigDiag :=
  match shard with
  | TRaw path _ comp _ size =>
    (if exists_at fs path then []
     else if bool_decide (is_Some size ∨ is_Some (size_mb (directives tree)))
     then [mkDiag DInfo (at_shard node i ("raw " +:+ quoted path +:+ " does not exist (will be auto-created)"))]
     else [mkDiag DWarning (at_shard node i ("raw " +:+ quoted path +:+ " does not exist and no size_mb set"))]) ++
    match path_parent path with
    | Some parent =>
      diag_if (bool_decide (parent ≠ "") && negb (exists_at fs parent)) DError
        (at_shard node i ("parent directory " +:+ quoted parent +:+ " does not exist"))
    | None => []
    end ++
    match comp with
    | Some comp => diag_if (negb (known_compression comp)) DError (at_shard node i ("unknown compression " +:+ quoted comp))
    | None => []
    end
  | TFs root _ =>
    if negb (exists_at fs root) then [mkDiag DError (at_shard node i ("fs root " +:+ quoted root +:+ " does not exist"))]
    else diag_if (negb (is_dir_at fs root)) DError (at_shard node i ("fs root " +:+ quoted root +:+ " is not a directory"))
  | TS3 endpoint bucket _ _ _ _ =>
    diag_if (negb (is_url endpoint)) DWarning
      (at_shard node i ("S3 endpoint " +:+ quoted endpoint +:+ " does not start with http(s)://")) ++
    diag_if (bool_decide (bucket = "")) DError (at_shard node i "S3 bucket is empty")
  | TNode ref_name =>
    diag_if (negb (mem_str ref_name all_names)) DError
      (at_shard node i ("references unknown child node " +:+ quoted ref_name))
  | TMem => []
  end.

Definition validate_one (node : TreeNode) : list ConfigDiag :=
  let n := length (tn_shards node) in
  diag_if (negb (str_contains ":" (listen node))) DWarning
    (node_error (tn_name node) ("listen " +:+ quoted (listen node) +:+ " missing port (expected host:port)")) ++
  diag_if (negb (is_url (endpoint node))) DWarning
    (node_error (tn_name node) ("endpoint " +:+ quoted (endpoint node) +:+ " does not start with http:// or https://")) ++
  diag_if ((Z.of_nat n <? replication_factor node) && (0 <? n)%nat) DWarning
    (node_error (tn_name node) ("rf=" +:+ pretty (replication_factor node) +:+ " exceeds shard count " +:+ pretty n +:+
                                " (will be clamped)")) ++
  concat (imap (validate_shard node) (tn_shards node)).

Definition validate_node (node : TreeNode) : list ConfigDiag := flat_map validate_one (collect_nodes node).
End validate.

Definition validate_tree_config `{HashMapOrder} (fs : Paths) (tree : TreeConfig) (node_name : option string) :
    list ConfigDiag :=
  let all_names := collect_node_names (root tree) in
  repeated id (λ name, mkDiag DError ("duplicate node name " +:+ quoted name)) [] all_names ++
  match node_name with
  | Some name =>
    diag_if (bool_decide (find_node tree name = None)) DError ("node " +:+ quoted name +:+ " not found in config")
  | None => []
  end ++
  match compression (directives tree) with
  | Some comp => diag_if (negb (known_compression comp)) DError ("unknown compression algorithm " +:+ quoted comp)
  | None => []
  end ++
  repeated fst (λ '((ep, bkt), nname), mkDiag DError
    ("duplicate S3 backend: endpoint=" +:+ quoted ep +:+ " bucket=" +:+ quoted bkt +:+
     " appears on multiple shards (node " +:+ quoted nname +:+ ") -- replication to the same backend is pointless"))
    [] (collect_s3_shards (root tree)) ++
  flat_map (λ '(host, group), host_diags host group) (hm_iter (by_host (collect_nodes (root tree)))) ++
  validate_node fs tree all_names (root tree) ++
  [mkDiag DInfo
    ("cluster " +:+ quoted (cluster_name (directives tree)) +:+ ": " +:+ pretty (length all_names) +:+ " node(s), " +:+
     pretty (count_shards (root tree)) +:+ " shard(s), bucket " +:+ quoted (default_bucket (directives tree)))].
