(* ===== verification/TreeFacts.v ===== *)
(** * Facts about the tree configuration

    The parser ends on every text, and the trees it accepts are well-formed;
    then what the validation looks at. *)

From S2P Require Import Prelude.
From S2P Require Import Config.
From S2P Require Import Index.
From S2P Require Import Tlv.
From S2P Require Import Text.
From S2P Require Import Blocks.
From S2P Require Import TreeConfig.

Lemma parse_usize_no_panic error val : parse_usize error val ≠ Panic.
Proof. rewrite /parse_usize. by case_match. Qed.

Lemma parse_to_no_panic max what val : parse_to max what val ≠ Panic.
Proof. rewrite /parse_to. by case_match. Qed.

#[local] Hint Resolve parse_usize_no_panic parse_to_no_panic : core.

Lemma node_part_no_panic acc part : node_part acc part ≠ Panic.
Proof. rewrite /node_part /node_field. no_panic. Qed.

Lemma parse_node_line_no_panic line : parse_node_line line ≠ Panic.
Proof.
  rewrite /parse_node_line. destruct (tokenize_kv_line line); [done|].
  apply bind_no_panic; [apply try_fold_no_panic, node_part_no_panic|]. intros ?. no_panic.
Qed.

Lemma parse_shard_line_no_panic line : parse_shard_line line ≠ Panic.
Proof.
  rewrite /parse_shard_line /parse_s3_parts. destruct (tokenize_kv_line line); [done|]. case_decide.
  - case_match; [done|]. apply bind_no_panic; [|intros [[[]]]; done]. apply try_fold_no_panic. intros [[[]]] p.
    rewrite /raw_option. no_panic.
  - case_decide; [by case_match|]. case_decide; [done|]. case_decide; [|done].
    apply bind_no_panic; [|intros; no_panic]. apply try_fold_no_panic. intros [] part. rewrite /s3_part. no_panic.
Qed.

Lemma sort_line_no_panic acc item : sort_line acc item ≠ Panic.
Proof.
  rewrite /sort_line. destruct acc as [d remaining], item as [indent line]. repeat (case_decide; [done|]).
  do 3 (case_match; [done|]). case_match.
  - apply bind_no_panic; [|done]. rewrite /recovery_directive. no_panic.
  - destruct (cut_ws line) as [key rest]. destruct (known_directive _ _ _) as [r|] eqn:Hk; [|done].
    apply bind_no_panic; [|done]. move: Hk. rewrite /known_directive /number.
    repeat (case_decide; [intros [= <-]; no_panic|]). case_match; [by intros [= <-]|done].
Qed.

(** ** Blocks *)

Definition build_node (n : ParsedNodeLine) (shards : list TreeShard) (kids : list TreeNode) : TreeNode :=
  mkNode (pn_name n) (pn_listen n) (pn_endpoint n) (pn_replication_factor n) (pn_min_writes n)
    (pn_delete_requires_min_writes n) shards kids.

Definition node_shard (n : TreeNode) : TreeShard := TNode (tn_name n).

Lemma block_instance : parse_node_block = parse_block parse_node_line is_node_line parse_shard_line node_shard build_node.
Proof. reflexivity. Qed.

Lemma node_block_answers lines fuel :
  (block_fuel lines <= fuel)%nat →
  parse_node_block fuel lines = parse_node_block (block_fuel lines) lines ∧ parse_node_block fuel lines ≠ Panic.
Proof. rewrite block_instance. apply block_answers; [apply parse_node_line_no_panic|apply parse_shard_line_no_panic]. Qed.

Lemma parse_no_panic text : parse_tree_config text ≠ Panic.
Proof.
  rewrite /parse_tree_config. apply bind_no_panic; [apply try_fold_no_panic, sort_line_no_panic|]. intros [d remaining].
  case_decide; [done|]. apply bind_no_panic; [|done].
  by apply node_block_answers.
Qed.

(** ** Trees *)

Lemma TreeNode_ind' (P : TreeNode → Prop) :
  (∀ name l e rf mw del shards kids, Forall P kids → P (mkNode name l e rf mw del shards kids)) → ∀ n, P n.
Proof.
  intros Hn. fix IH 1. intros [name l e rf mw del shards kids]. apply Hn. induction kids as [|k kids IHk]; [constructor|].
  constructor; [apply IH|exact IHk].
Qed.

Lemma collect_root n : n ∈ collect_nodes n.
Proof. destruct n. by left. Qed.

Lemma collect_child n k x : k ∈ children n → x ∈ collect_nodes k → x ∈ collect_nodes n.
Proof.
  destruct n as [name l e rf mw del shards kids]. cbn. intros Hk Hx. right. apply list_elem_of_In, in_flat_map.
  exists k. by split; apply list_elem_of_In.
Qed.

Lemma collect_inv n x : x ∈ collect_nodes n → x = n ∨ ∃ k, k ∈ children n ∧ x ∈ collect_nodes k.
Proof.
  destruct n as [name l e rf mw del shards kids]. cbn. intros [->|Hx]%elem_of_cons; [by left|right].
  apply list_elem_of_In, in_flat_map in Hx as (k & Hk & Hx). exists k. by split; apply list_elem_of_In.
Qed.

(** Every node below is below its parents too. *)
Lemma collect_trans n k x : k ∈ collect_nodes n → x ∈ collect_nodes k → x ∈ collect_nodes n.
Proof.
  revert k x. induction n as [name l e rf mw del shards kids IH] using TreeNode_ind'. intros k x.
  intros [->|(c & Hc & Hk)]%collect_inv; [done|]. intros Hx. eapply collect_child; [exact Hc|].
  rewrite Forall_forall in IH. by eapply IH.
Qed.

(** ** What the parser accepts *)

Definition node_ref (s : TreeShard) : option string := match s with TNode name => Some name | _ => None end.

Definition shard_ok (s : TreeShard) : Prop :=
  match s with
  | TRaw path _ _ _ size => path ≠ "" ∧ ∀ n, size = Some n → 0 <= n <= u64_max
  | TFs root _ => root ≠ ""
  | TS3 endpoint bucket _ _ _ _ => endpoint ≠ "" ∧ bucket ≠ ""
  | TMem => True
  | TNode _ => True
  end.

Record node_ok (n : TreeNode) : Prop := {
  no_name : tn_name n ≠ "";
  no_listen : listen n ≠ "";
  no_endpoint : endpoint n ≠ "";
  no_factor : 0 <= replication_factor n <= u64_max;
  no_min_writes v : tn_min_writes n = Some v → 1 <= v <= replication_factor n;
  no_refs : omap node_ref (tn_shards n) = tn_name <$> children n;
  no_shards : Forall shard_ok (tn_shards n);
}.

Definition tree_ok (n : TreeNode) : Prop := ∀ x, x ∈ collect_nodes n → node_ok x.

Lemma tree_ok_node n : node_ok n → Forall tree_ok (children n) → tree_ok n.
Proof. intros Hn Hk x [->|(k & Hkid & Hx)]%collect_inv; [done|]. rewrite Forall_forall in Hk. by apply (Hk k). Qed.

Lemma tokenize_nonempty line : Forall (λ t, t ≠ "") (tokenize_kv_line line).
Proof. apply tokens_nonempty. Qed.

Lemma parse_usize_ok error val n : parse_usize error val = Ok n → 0 <= n <= u64_max.
Proof.
  rewrite /parse_usize. destruct (parse_uint u64_max val) as [m|] eqn:E; [|done]. intros [= <-].
  by apply parse_uint_bound in E.
Qed.

Record line_ok (n : ParsedNodeLine) : Prop := {
  lo_factor : 0 <= pn_replication_factor n <= u64_max;
  lo_min_writes v : pn_min_writes n = Some v → 1 <= v;
}.

Lemma node_field_ok n part n' : line_ok n → node_field n part = Ok n' → line_ok n' ∧ pn_name n' = pn_name n.
Proof.
  intros [Hf Hm]. destruct n as [name l e rf mw del]. rewrite /node_field. cbn in Hf, Hm. cbv beta iota.
  case_match; [intros (rf' & Hrf & [= <-])%bind_ok; apply parse_usize_ok in Hrf; by split; [split; [done|exact Hm]|]|].
  case_match.
  { intros (v & Hv & Hr)%bind_ok. apply parse_usize_ok in Hv. case_decide; [done|]. injection Hr as <-.
    split; [|done]. split; [done|]. intros v' [= <-]. lia. }
  repeat (case_match; [intros [= <-]; by split; [split; [done|exact Hm]|]|]). intros [= <-]. by split; [split; [done|exact Hm]|].
Qed.

Lemma parse_node_line_ok line n :
  parse_node_line line = Ok n →
  line_ok n ∧ pn_name n ≠ "" ∧ pn_listen n ≠ "" ∧ pn_endpoint n ≠ "" ∧
  ∀ v, pn_min_writes n = Some v → v <= pn_replication_factor n.
Proof.
  rewrite /parse_node_line. pose proof (tokenize_nonempty line) as Hne.
  destruct (tokenize_kv_line line) as [|name parts]; [done|]. apply Forall_cons in Hne as [Hname _].
  intros ([seen n'] & Hfold & Hr)%bind_ok. cbn in Hr.
  assert (line_ok n' ∧ pn_name n' = name) as [Hl Hn'].
  { refine (try_fold_inv (λ acc : list string * ParsedNodeLine, line_ok acc.2 ∧ pn_name acc.2 = name) node_part parts _ _ _ _ Hfold).
    - intros [seen0 n0] x [seen1 n1] _ [Hl Hn]. rewrite /node_part. destruct (mem_str _ _); [done|].
      intros (n3 & Hf & [= <- <-])%bind_ok. cbn in *. apply node_field_ok in Hf as [Hl2 Hn2]; [|done]. by rewrite Hn2.
    - split; [|done]. split; [cbn; u64|done]. }
  case_decide as Hlisten; [done|]. case_decide as Hend; [done|].
  destruct (pn_min_writes n') as [v|] eqn:Hv.
  - case_match eqn:Hlt; [done|]. injection Hr as <-. split_and!; [done|by rewrite Hn'|done|done|].
    intros v' Hv'. rewrite Hv in Hv'. injection Hv' as <-. lia.
  - injection Hr as <-. split_and!; [done|by rewrite Hn'|done|done|]. by rewrite Hv.
Qed.

Lemma parse_s3_ok parts s : parse_s3_parts parts = Ok s → shard_ok s ∧ node_ref s = None.
Proof.
  rewrite /parse_s3_parts. intros ([seen o] & _ & Hr)%bind_ok. cbn in Hr. case_decide; [done|]. case_decide; [done|].
  by injection Hr as <-.
Qed.

Lemma parse_shard_line_ok line s : parse_shard_line line = Ok s → shard_ok s ∧ node_ref s = None.
Proof.
  rewrite /parse_shard_line. pose proof (tokenize_nonempty line) as Hne.
  destruct (tokenize_kv_line line) as [|type parts]; [done|]. apply Forall_cons in Hne as [_ Hne]. case_decide.
  { destruct parts as [|path options]; [done|]. apply Forall_cons in Hne as [Hpath _].
    intros ([[[ro comp] dio] size] & Hfold & [= <-])%bind_ok. split; [|done]. split; [done|].
    refine (try_fold_inv (λ o : RawOptions, ∀ n, o.2 = Some n → 0 <= n <= u64_max) raw_option options _ _ _ _ Hfold); [|done].
    intros [[[ro0 comp0] dio0] size0] x acc' _ Hsize. rewrite /raw_option.
    do 4 (case_match; [by intros [= <-]|]). case_match; [|by intros [= <-]].
    intros (m & Hm & [= <-])%bind_ok n [= <-]. by apply parse_usize_ok in Hm. }
  case_decide.
  { destruct parts as [|root options]; [done|]. apply Forall_cons in Hne as [Hroot _]. by intros [= <-]. }
  case_decide; [by intros [= <-]|]. case_decide; [apply parse_s3_ok|done].
Qed.

Lemma block_ok fuel lines n rest : parse_node_block fuel lines = Ok (n, rest) → tree_ok n.
Proof.
  rewrite block_instance. apply (block_inv _ _ _ _ _ tree_ok shard_ok (λ shards kids, omap node_ref shards = tn_name <$> kids)).
  - intros line s _ [Hs Hr]%parse_shard_line_ok. split; [done|]. intros shards kids HR. cbn. by rewrite Hr.
  - intros k shards kids HR. cbn. by rewrite HR.
  - done.
  - done.
  - intros line pn shards kids Hpn Hs Hk HR. apply parse_node_line_ok in Hpn as ([Hf Hm1] & Hn & Hl & He & Hm2).
    apply tree_ok_node; [|done]. split; try done. intros v Hv. cbn in Hv |- *. auto.
Qed.

Lemma parsed_tree text t :
  parse_tree_config text = Ok t → tree_ok (root t) ∧ cluster_name (directives t) ≠ "".
Proof.
  rewrite /parse_tree_config. intros ([d remaining] & _ & Hr)%bind_ok. case_decide; [done|].
  apply bind_ok in Hr as ([n rest] & Hb & [= <-]). apply block_ok in Hb. split; [done|]. cbn.
  case_decide; [|done]. cbn. apply (no_name n), Hb, collect_root.
Qed.

(** * Facts about the validation of a tree configuration

    What each group of diagnostics is silent about, and what [find_node]
    finds. *)

(** No diagnostic is an error. *)
Definition silent (l : list ConfigDiag) : Prop := Forall (λ d, dg_level d ≠ DError) l.

Lemma silent_app l1 l2 : silent (l1 ++ l2) ↔ silent l1 ∧ silent l2.
Proof. apply Forall_app. Qed.

Lemma silent_flat {A} (f : A → list ConfigDiag) l : silent (flat_map f l) ↔ ∀ x, x ∈ l → silent (f x).
Proof.
  induction l as [|x l IH]; [split; [intros _ x Hx; by apply not_elem_of_nil in Hx|constructor]|].
  cbn. rewrite silent_app IH. setoid_rewrite elem_of_cons. split; [intros [Hx Hl] y [->|Hy]; auto|auto].
Qed.

Lemma silent_imap {A} (f : nat → A → list ConfigDiag) l :
  silent (concat (imap f l)) ↔ ∀ i x, l !! i = Some x → silent (f i x).
Proof.
  revert f. induction l as [|x l IH]; intros f; [split; [done|constructor]|].
  cbn. rewrite silent_app IH. split.
  - intros [Hx Hl] [|i] y; [by intros [= <-]|apply Hl].
  - intros Hl. split; [by apply (Hl 0%nat)|]. intros i y Hy. by apply (Hl (S i)).
Qed.

Lemma silent_if b msg : silent (diag_if b DError msg) ↔ b = false.
Proof. destruct b; cbn; [|split; [done|constructor]]. rewrite /silent Forall_singleton. split; [intros []|]; done. Qed.

Lemma silent_other b level msg : level ≠ DError → silent (diag_if b level msg).
Proof. intros Hl. destruct b; repeat constructor. done. Qed.

(** The repetitions are reported, and only they. *)
Lemma silent_repeated {A K} `{EqDecision K} (key : A → K) diag seen l :
  (∀ x, dg_level (diag x) = DError) →
  silent (repeated key diag seen l) ↔ NoDup (key <$> l) ∧ ∀ x, x ∈ l → key x ∉ seen.
Proof.
  intros Hd. revert seen. induction l as [|x l IH]; intros seen; cbn [repeated].
  { split; [intros _; split; [constructor|by intros x Hx%not_elem_of_nil]|constructor]. }
  rewrite fmap_cons NoDup_cons list_elem_of_fmap. setoid_rewrite elem_of_cons. case_bool_decide as Hin.
  - split; [intros Hs; apply Forall_cons in Hs as [Hs _]; by rewrite Hd in Hs|]. intros [_ Hs]. destruct (Hs x); auto.
  - rewrite IH. split.
    + intros [Hnd Hs]. split; [split; [|done]|].
      * intros (y & Hy & Hyl). destruct (Hs y Hyl). rewrite -Hy. by left.
      * intros y [->|Hy]; [done|]. intros Hk. apply (Hs y Hy). by right.
    + intros [[Hx Hnd] Hs]. split; [done|]. intros y Hy [Hk|Hk]%elem_of_cons; [apply Hx; by exists y|]. by apply (Hs y); auto.
Qed.

Lemma silent_distinct {A K} `{EqDecision K} (key : A → K) diag l :
  (∀ x, dg_level (diag x) = DError) → silent (repeated key diag [] l) ↔ NoDup (key <$> l).
Proof.
  intros Hd. rewrite silent_repeated //. split; [by intros []|]. intros Hl. split; [done|]. intros x _. apply not_elem_of_nil.
Qed.

(** ** The host of an endpoint

    [scheme://authority/path], where the authority is a name or an IPv4
    address, or an IPv6 address in brackets, and then perhaps a port. *)

Definition bracket : Ascii.ascii := Ascii.ascii_of_nat 93.

Definition authority_of (endpoint : string) : string :=
  (cut slash (default endpoint (strip_either "https://" "http://" endpoint))).1.

(** An address in brackets: a colon comes before the closing one. *)
Definition ipv6_literal (authority : string) : bool :=
  starts_with "[" authority && bool_decide (is_Some (cut colon (cut bracket authority).1).2).

Definition host_of (endpoint : string) : string :=
  let authority := authority_of endpoint in
  if ipv6_literal authority then (cut bracket authority).1 +:+ "]" else (cut colon authority).1.

Lemma cut_commute x : (cut slash (cut colon x).1).1 = (cut colon (cut slash x).1).1.
Proof.
  induction x as [|b x IH]; [done|]. cbn [cut].
  destruct (decide (b = colon)) as [Hc|Hc], (decide (b = slash)) as [Hs|Hs]; [done|..].
  - destruct (cut slash x). cbn [fst cut]. by rewrite decide_True.
  - destruct (cut colon x). cbn [fst cut]. by rewrite decide_True.
  - destruct (cut colon x) as [t r], (cut slash x) as [u q]. cbn [fst cut] in *. rewrite !decide_False //.
    destruct (cut slash t), (cut colon u). cbn [fst] in *. by rewrite IH.
Qed.

Lemma cut_idem sep x : (cut sep (cut sep x).1).1 = (cut sep x).1.
Proof.
  induction x as [|b x IH]; [done|]. cbn [cut]. case_decide as Hb; [done|]. destruct (cut sep x) as [t r].
  cbn [fst cut] in *. rewrite decide_False //. destruct (cut sep t). cbn [fst] in *. by rewrite IH.
Qed.

Lemma cut_inside sep x t : is_Some (cut sep x).2 → (cut sep (x +:+ t)).1 = (cut sep x).1.
Proof.
  induction x as [|b x IH]; [by intros []|]. rewrite app_cons_str. cbn [cut]. case_decide; [done|].
  destruct (cut sep x) as [u r], (cut sep (x +:+ t)) as [v q]. cbn [fst snd] in *. intros Hr. by rewrite IH.
Qed.

Lemma cut_joined sep x : x = (cut sep x).1 +:+ match (cut sep x).2 with Some t => String sep t | None => "" end.
Proof.
  induction x as [|b x IH]; [done|]. cbn [cut]. case_decide as Hb; [by subst|]. destruct (cut sep x) as [u r].
  cbn [fst snd] in *. rewrite app_cons_str. by f_equal.
Qed.

(** What the code takes for the host is the host up to its first colon. *)
Lemma hostname_of_host endpoint : endpoint_hostname endpoint = (cut colon (host_of endpoint)).1.
Proof.
  rewrite /endpoint_hostname cut_commute -/(authority_of endpoint) /host_of. set (a := authority_of endpoint).
  destruct (ipv6_literal a) eqn:Ha; [|by rewrite cut_idem].
  apply andb_true_iff in Ha as [_ Hc%bool_decide_eq_true]. rewrite cut_inside //.
  rewrite {1}(cut_joined bracket a) cut_inside //.
Qed.

Lemma hostname_exact endpoint : ipv6_literal (authority_of endpoint) = false → endpoint_hostname endpoint = host_of endpoint.
Proof. intros Ha. by rewrite hostname_of_host /host_of Ha cut_idem. Qed.

(** ** Nodes by host *)

Definition on_machine (host : string) (nodes : list TreeNode) : list TreeNode :=
  filter (λ n, host_of (endpoint n) = host) nodes.

Definition on_host (host : string) (nodes : list TreeNode) : list TreeNode :=
  filter (λ n, endpoint_hostname (endpoint n) = host) nodes.

Lemma by_host_lookup nodes host :
  by_host nodes !! host = if decide (on_host host nodes = []) then None else Some (on_host host nodes).
Proof.
  rewrite /by_host /on_host. induction nodes as [|n nodes IH] using rev_ind; [done|].
  rewrite foldl_snoc filter_app. cbn [filter list_filter]. set (h := endpoint_hostname (endpoint n)) in *.
  destruct (decide (h = host)) as [<-|Hne].
  - rewrite lookup_insert_eq IH (decide_False (P := _ ++ [n] = [])); [|by destruct (filter _ nodes)].
    case_decide as Hnil; [by rewrite Hnil|done].
  - by rewrite lookup_insert_ne // IH app_nil_r.
Qed.

Lemma silent_hosts `{HashMapOrderLaws} nodes :
  silent (flat_map (λ '(host, group), host_diags host group) (hm_iter (by_host nodes))) ↔
  ∀ host, silent (host_diags host (on_host host nodes)).
Proof.
  rewrite silent_flat. split.
  - intros Hs host. destruct (decide (on_host host nodes = [])) as [->|Hne]; [constructor|].
    apply (Hs (host, on_host host nodes)). rewrite hm_iter_perm. apply elem_of_map_to_list.
    by rewrite by_host_lookup decide_False.
  - intros Hs [host group]. rewrite hm_iter_perm elem_of_map_to_list by_host_lookup. case_decide; [done|]. intros [= <-]. apply Hs.
Qed.

(** Nodes of one host are together for the code. *)
Lemma on_machine_together host nodes :
  ∃ group, on_machine host nodes `sublist_of` on_host group nodes.
Proof.
  exists (cut colon host).1. rewrite /on_machine /on_host.
  assert (filter (λ n, host_of (endpoint n) = host) nodes =
    filter (λ n, host_of (endpoint n) = host) (filter (λ n, endpoint_hostname (endpoint n) = (cut colon host).1) nodes)) as ->.
  { rewrite list_filter_filter. apply list_filter_iff. intros n. rewrite hostname_of_host. split; [intros <-; done|tauto]. }
  apply sublist_filter.
Qed.

Lemma on_machine_host host nodes :
  (∀ n, n ∈ nodes → ipv6_literal (authority_of (endpoint n)) = false) → on_machine host nodes = on_host host nodes.
Proof.
  intros Hn. rewrite /on_machine /on_host. induction nodes as [|n nodes IH]; [done|]. rewrite !filter_cons.
  rewrite (hostname_exact (endpoint n)); [|apply Hn; by left]. rewrite IH; [done|]. intros m Hm. apply Hn. by right.
Qed.

Lemma sublist_paths {A} (f : TreeNode → list (A * string)) l l' :
  l `sublist_of` l' → NoDup (fst <$> flat_map f l') → NoDup (fst <$> flat_map f l).
Proof.
  intros Hs Hnd. eapply sublist_NoDup; [exact Hnd|]. apply fmap_sublist. clear Hnd. induction Hs as [|n l l' _ IH|n l l' _ IH]; cbn.
  - done.
  - by apply sublist_app.
  - by apply sublist_inserts_l.
Qed.

Lemma silent_host host group :
  silent (host_diags host group) ↔
  NoDup (fst <$> flat_map raw_paths group) ∧ NoDup (fst <$> flat_map fs_roots group).
Proof. rewrite /host_diags silent_app. f_equiv; apply silent_distinct; by intros []. Qed.

(** ** Finding a node *)

(** The first node of the name, parents before children. *)
Definition first_named (name : string) (l : list TreeNode) : option TreeNode := head (filter (λ n, tn_name n = name) l).

Lemma first_named_app name l1 l2 :
  first_named name (l1 ++ l2) = match first_named name l1 with Some n => Some n | None => first_named name l2 end.
Proof. rewrite /first_named filter_app. by destruct (filter _ l1). Qed.

Lemma find_first name n : find_node_recursive n name = first_named name (collect_nodes n).
Proof.
  induction n as [nm l e rf mw del shards kids IH] using TreeNode_ind'. cbn [find_node_recursive collect_nodes children tn_name].
  rewrite /first_named. cbn [filter list_filter tn_name]. case_decide; [done|].
  induction IH as [|k kids Hk _ IHk]; [done|]. cbn [flat_map]. rewrite Hk. change (head (filter _ ?l)) with (first_named name l) in *.
  rewrite first_named_app IHk. done.
Qed.

Lemma first_named_some name l n : first_named name l = Some n → n ∈ l ∧ tn_name n = name.
Proof.
  rewrite /first_named. destruct (filter _ l) as [|x r] eqn:E; [done|]. intros [= <-].
  assert (x ∈ filter (λ n, tn_name n = name) l) as Hx by (rewrite E; by left). apply list_elem_of_filter in Hx. tauto.
Qed.

Lemma first_named_none name l : first_named name l = None ↔ name ∉ (tn_name <$> l).
Proof.
  rewrite list_elem_of_fmap. rewrite /first_named. destruct (filter _ l) as [|x r] eqn:E.
  - split; [|done]. intros _ (n & -> & Hn). assert (n ∈ filter (λ m, tn_name m = tn_name n) l) as Hx by by apply list_elem_of_filter.
    rewrite E in Hx. by apply not_elem_of_nil in Hx.
  - split; [done|]. intros Hn. destruct Hn. assert (x ∈ filter (λ n, tn_name n = name) l) as Hx by (rewrite E; by left).
    apply list_elem_of_filter in Hx as [<- Hx]. by exists x.
Qed.

(** ** Shards *)

(** What a shard needs of the file system. *)
Definition shard_usable (fs : Paths) (s : TreeShard) : Prop :=
  match s with
  | TRaw path _ comp _ _ =>
    (∀ parent, path_parent path = Some parent → parent = "" ∨ exists_at fs parent = true) ∧
    (∀ c, comp = Some c → known_compression c = true)
  | TFs root _ => exists_at fs root = true ∧ is_dir_at fs root = true
  | TS3 _ _ _ _ _ _ => True
  | TMem => True
  | TNode _ => True
  end.

Lemma silent_shard fs tree names node i s :
  shard_ok s → (∀ name, node_ref s = Some name → name ∈ names) →
  silent (validate_shard fs tree names node i s) ↔ shard_usable fs s.
Proof.
  intros Hok Href. destruct s as [path ro comp dio size|r ro|ep bkt region ak sk ps| |name]; cbn [validate_shard shard_usable].
  - rewrite !silent_app.
    assert (silent (if exists_at fs path then [] else if bool_decide (is_Some size ∨ is_Some (size_mb (directives tree)))
      then [mkDiag DInfo (at_shard node i ("raw " +:+ quoted path +:+ " does not exist (will be auto-created)"))]
      else [mkDiag DWarning (at_shard node i ("raw " +:+ quoted path +:+ " does not exist and no size_mb set"))])) as Hw.
    { destruct (exists_at fs path); [constructor|]. case_bool_decide; by repeat constructor. }
    split.
    + intros (_ & H1 & H2). split.
      * intros parent Hp. rewrite Hp silent_if in H1. apply andb_false_iff in H1 as [?%bool_decide_eq_false|?%negb_false_iff]; [|by right].
        left. by apply dec_stable.
      * intros c ->. rewrite silent_if in H2. by apply negb_false_iff.
    + intros [H1 H2]. split_and!; [done|..].
      * destruct (path_parent path) as [parent|]; [|constructor]. apply silent_if, andb_false_iff.
        destruct (H1 parent eq_refl) as [->|Hp]; [by left|right; by rewrite Hp].
      * destruct comp as [c|]; [|constructor]. apply silent_if. by rewrite H2.
  - destruct (exists_at fs r); cbn [negb].
    + rewrite silent_if negb_false_iff. tauto.
    + rewrite /silent Forall_singleton. split; [intros []; done|by intros []].
  - rewrite silent_app silent_if. destruct Hok as [_ Hb]. split; [done|]. intros _. split; [by apply silent_other|]. by apply bool_decide_eq_false.
  - split; [done|constructor].
  - rewrite silent_if negb_false_iff bool_decide_eq_true. split; [done|]. intros _. by apply Href.
Qed.
