(* ===== verification/TreePrint.v ===== *)
(** * Printing a tree configuration

    A printer for the daemon's format, and that the parser reads back what it
    prints; at the end an example. *)

From S2P Require Import Prelude.
From S2P Require Import Config.
From S2P Require Import Index.
From S2P Require Import Tlv.
From S2P Require Import Text.
From S2P Require Import Blocks.
From S2P Require Import TreeConfig.
From S2P Require Import TreeFacts.

(** ** The printer *)

Definition opt_word (p : string) (o : option string) : list Word := match o with Some v => [(p, v)] | None => [] end.
Definition flag (b : bool) (p : string) : list Word := if b then [(p, "")] else [].
Definition bool_text (b : bool) : string := if b then "true" else "false".

Definition node_words (n : TreeNode) : list Word :=
  [("rf=", pretty (replication_factor n))] ++ opt_word "min_writes=" (pretty <$> tn_min_writes n) ++
  flag (delete_requires_min_writes n) "delete_requires_min_writes" ++ [("listen=", listen n); ("endpoint=", endpoint n)].

Definition node_text (n : TreeNode) : string := print_line (tn_name n) (node_words n).

Definition shard_type (s : TreeShard) : string :=
  match s with TRaw _ _ _ _ _ => "raw" | TFs _ _ => "fs" | TS3 _ _ _ _ _ _ => "s3" | TMem => "mem" | TNode name => name end.

Definition shard_words (s : TreeShard) : list Word :=
  match s with
  | TRaw path read_only comp dio size =>
    [("", path)] ++ flag read_only "readonly" ++ opt_word "compression=" comp ++
    opt_word "direct_io=" (bool_text <$> dio) ++ opt_word "size_mb=" (pretty <$> size)
  | TFs root read_only => [("", root)] ++ flag read_only "readonly"
  | TS3 endpoint bucket region access_key secret_key path_style =>
    [("endpoint=", endpoint); ("bucket=", bucket)] ++ opt_word "region=" region ++
    opt_word "access_key=" access_key ++ opt_word "secret_key=" secret_key ++ flag path_style "path_style"
  | TMem => []
  | TNode _ => []
  end.

Definition shard_text (s : TreeShard) : string := print_line (shard_type s) (shard_words s).

(** The children's blocks stand where their references are. *)
Fixpoint interleave (depth : nat) (shards : list TreeShard) (blocks : list (list (nat * string))) : list (nat * string) :=
  match shards with
  | [] => []
  | TNode _ :: shards' => default [] (head blocks) ++ interleave depth shards' (tail blocks)
  | s :: shards' => (depth, shard_text s) :: interleave depth shards' blocks
  end.

Fixpoint print_node (depth : nat) (n : TreeNode) : list (nat * string) :=
  (depth, node_text n) :: interleave (2 + depth) (tn_shards n) (print_node (2 + depth) <$> children n).

Definition directive_line (key v : string) : string := key +:+ String space v.
Definition opt_line (key : string) (o : option string) : list string :=
  match o with Some v => [directive_line key v] | None => [] end.

Definition directive_lines (d : Directives) : list string :=
  [directive_line "cluster" (cluster_name d); directive_line "bucket" (default_bucket d)] ++
  opt_line "read_prefer" (read_prefer d) ++
  opt_line "recovery_enabled" (bool_text <$> recovery_enabled d) ++
  opt_line "recovery_poll_secs" (pretty <$> recovery_poll_secs d) ++
  opt_line "recovery_probe_timeout_secs" (pretty <$> recovery_probe_timeout_secs d) ++
  opt_line "recovery_failure_threshold" (pretty <$> recovery_failure_threshold d) ++
  opt_line "recovery_re_replicate_batch_size" (pretty <$> recovery_re_replicate_batch_size d) ++
  opt_line "repair_replication_interval" (pretty <$> repair_replication_interval_secs d) ++
  opt_line "repair_replication_batch_size" (pretty <$> repair_replication_batch_size d) ++
  opt_line "compression" (compression d) ++
  opt_line "direct_io" (bool_text <$> direct_io d) ++
  opt_line "size_mb" (pretty <$> size_mb d) ++
  opt_line "flush_interval" (pretty <$> flush_interval d) ++
  opt_line "admin_token" (admin_token d) ++
  opt_line "access_key" (access_key d) ++
  opt_line "secret_key" (secret_key d) ++
  opt_line "cors_origin" (cors_origin d) ++
  opt_line "log_file" (log_file d) ++
  opt_line "log_buffer_size" (pretty <$> log_buffer_size d) ++
  opt_line "event_socket" (event_socket d) ++
  opt_line "event_secret" (event_secret d) ++
  opt_line "max_readers" (pretty <$> max_readers d) ++
  opt_line "event_source" (event_source d) ++
  opt_line "catalog_path" (catalog_path d) ++
  opt_line "catalog_format" (catalog_format d) ++
  opt_line "catalog_flush_interval" (pretty <$> catalog_flush_interval d).

Definition indented (item : nat * string) : string := spaces item.1 +:+ item.2.

Definition print_config (t : TreeConfig) : string :=
  text_of (indented <$> ((pair 0%nat <$> directive_lines (directives t)) ++ print_node 0 (root t))).

(** ** What can be printed *)

Definition opt_all {A} (P : A → Prop) (o : option A) : Prop := match o with Some x => P x | None => True end.

Definition shard_printable (s : TreeShard) : Prop :=
  match s with
  | TRaw path _ comp _ _ => quotable path = true ∧ opt_all (λ v, quotable v = true) comp
  | TFs root _ => quotable root = true
  | TS3 endpoint bucket region access_key secret_key _ =>
    quotable endpoint = true ∧ quotable bucket = true ∧ opt_all (λ v, quotable v = true) region ∧
    opt_all (λ v, quotable v = true) access_key ∧ opt_all (λ v, quotable v = true) secret_key
  | TMem => True
  | TNode _ => True
  end.

(** A name that is one word, not a shard type and not a comment. *)
Definition name_ok (name : string) : bool :=
  plain name && negb (mem_str name ["raw"; "fs"; "s3"; "mem"]) && negb (starts_with "#" name).

Definition node_printable (n : TreeNode) : Prop :=
  name_ok (tn_name n) = true ∧ quotable (listen n) = true ∧ quotable (endpoint n) = true ∧
  Forall shard_printable (tn_shards n).

(** ** Lines *)

Lemma opt_word_ok p o : plain p = true → p ≠ "" → opt_all (λ v, quotable v = true) o → Forall word_ok (opt_word p o).
Proof. intros Hp Hne Ho. destruct o as [v|]; repeat constructor; [done|done|]. by destruct p. Qed.

Lemma flag_ok b p : plain p = true → p ≠ "" → Forall word_ok (flag b p).
Proof. intros Hp Hne. destruct b; repeat constructor; [done|]. by destruct p. Qed.

Lemma opt_number_ok p (o : option Z) : plain p = true → p ≠ "" → opt_all (λ n, 0 <= n) o → Forall word_ok (opt_word p (pretty <$> o)).
Proof. intros Hp Hne Ho. apply opt_word_ok; [done..|]. destruct o as [n|]; [|done]. by apply pretty_quotable. Qed.

Lemma node_words_ok n : node_ok n → node_printable n → Forall word_ok (node_words n).
Proof.
  intros Hok (_ & Hl & He & _). rewrite /node_words. repeat (apply Forall_app; split).
  - repeat constructor; [|by destruct (pretty _)]. apply pretty_quotable. apply (no_factor n Hok).
  - apply opt_number_ok; [done..|]. destruct (tn_min_writes n) as [v|] eqn:Hv; [|done]. cbn.
    pose proof (no_min_writes n Hok v Hv). lia.
  - by apply flag_ok.
  - repeat constructor; done.
Qed.

Lemma shard_words_ok s : shard_ok s → shard_printable s → node_ref s = None → Forall word_ok (shard_words s).
Proof.
  destruct s as [path ro comp dio size|root ro|ep bkt region ak sk ps| |name]; cbn [shard_words]; [..|done].
  - intros [Hne Hsize] [Hp Hc] _. repeat (apply Forall_app; split).
    + by repeat constructor.
    + by apply flag_ok.
    + by apply opt_word_ok.
    + apply opt_word_ok; [done..|]. by destruct dio as [[]|].
    + apply opt_number_ok; [done..|]. destruct size as [n|]; [|done]. cbn. specialize (Hsize n eq_refl). lia.
  - intros Hne Hp _. apply Forall_app. split; [by repeat constructor|by apply flag_ok].
  - intros [Hne1 Hne2] (H1 & H2 & H3 & H4 & H5) _. repeat (apply Forall_app; split).
    + repeat constructor; done.
    + by apply opt_word_ok.
    + by apply opt_word_ok.
    + by apply opt_word_ok.
    + by apply flag_ok.
  - constructor.
Qed.

(** *** Node lines *)

Lemma tokenize_line first l :
  plain first = true → first ≠ "" → Forall word_ok l → tokenize_kv_line (print_line first l) = first :: (word_token <$> l).
Proof. intros Hp Hne Hl. rewrite /tokenize_kv_line. by destruct (print_line_ok first l Hp Hne Hl) as (_ & _ & _ & ->). Qed.

Lemma parse_usize_pretty error n : 0 <= n <= u64_max → parse_usize error (pretty n) = Ok n.
Proof. intros Hn. by rewrite /parse_usize parse_pretty. Qed.

(** A field whose key is new. *)
Lemma node_part_new seen n part key n' :
  key_of part = key → mem_str key seen = false → node_field n part = Ok n' → node_part (seen, n) part = Ok (seen ++ [key], n').
Proof. intros <- Hs Hf. by rewrite /node_part Hs Hf. Qed.

Section node_fields.
Variables (name l e : string) (rf : Z) (mw : option Z) (del : bool).

Lemma field_rf n : 0 <= n <= u64_max → node_field (mkNodeLine name l e rf mw del) ("rf=" +:+ pretty n) = Ok (mkNodeLine name l e n mw del).
Proof.
  intros Hn. rewrite /node_field. change (strip_prefix "rf=" ("rf=" +:+ pretty n)) with (Some (pretty n)). cbv iota beta.
  by rewrite parse_usize_pretty.
Qed.

Lemma field_min_writes n :
  1 <= n <= u64_max → node_field (mkNodeLine name l e rf mw del) ("min_writes=" +:+ pretty n) = Ok (mkNodeLine name l e rf (Some n) del).
Proof.
  intros Hn. rewrite /node_field. change (strip_prefix "rf=" ("min_writes=" +:+ pretty n)) with (@None string).
  change (strip_prefix "min_writes=" ("min_writes=" +:+ pretty n)) with (Some (pretty n)). cbv iota beta.
  rewrite parse_usize_pretty; [|lia]. cbn. rewrite decide_False //. lia.
Qed.

Lemma field_delete : node_field (mkNodeLine name l e rf mw del) ("delete_requires_min_writes" +:+ "") = Ok (mkNodeLine name l e rf mw true).
Proof. done. Qed.

Lemma field_listen v : node_field (mkNodeLine name l e rf mw del) ("listen=" +:+ v) = Ok (mkNodeLine name v e rf mw del).
Proof. done. Qed.

Lemma field_endpoint v : node_field (mkNodeLine name l e rf mw del) ("endpoint=" +:+ v) = Ok (mkNodeLine name l v rf mw del).
Proof. done. Qed.
End node_fields.

Lemma parse_node_text n :
  node_ok n → node_printable n →
  parse_node_line (node_text n) =
    Ok (mkNodeLine (tn_name n) (listen n) (endpoint n) (replication_factor n) (tn_min_writes n) (delete_requires_min_writes n)).
Proof.
  intros Hok Hpr. pose proof (node_words_ok n Hok Hpr) as Hw. destruct Hpr as (Hname & _).
  rewrite /name_ok in Hname. apply andb_true_iff in Hname as [[Hplain _]%andb_true_iff _].
  rewrite /parse_node_line /node_text tokenize_line //; [|by apply (no_name n Hok)].
  pose proof (no_factor n Hok) as Hf. pose proof (no_min_writes n Hok) as Hm.
  pose proof (no_listen n Hok) as Hl. pose proof (no_endpoint n Hok) as He.
  assert (∃ seen, try_fold node_part ([], mkNodeLine (tn_name n) "" "" 1 None false) (word_token <$> node_words n) =
    Ok (seen, mkNodeLine (tn_name n) (listen n) (endpoint n) (replication_factor n) (tn_min_writes n)
                (delete_requires_min_writes n))) as [seen ->].
  { rewrite /node_words. destruct (tn_min_writes n) as [v|]; [specialize (Hm v eq_refl)|clear Hm];
      destruct (delete_requires_min_writes n); eexists; cbn [fmap option_fmap option_map opt_word flag app list_fmap word_token fst snd try_fold];
      repeat (erewrite node_part_new;
        [|done|done|first [apply field_rf; lia|apply field_min_writes; lia|apply field_delete|apply field_listen|apply field_endpoint]];
        cbn [mbind Res_bind try_fold]); reflexivity. }
  cbn. rewrite decide_False // decide_False //. destruct (tn_min_writes n) as [v|]; [|done]. specialize (Hm v eq_refl).
  by rewrite (proj2 (Z.ltb_ge (replication_factor n) v)); [|lia].
Qed.

(** *** Shard lines *)

Lemma s3_part_new seen o part key : key_of part = key → mem_str key seen = false → s3_part (seen, o) part = Ok (seen ++ [key], s3_option o part).
Proof. intros <- Hs. by rewrite /s3_part Hs. Qed.

Lemma raw_size ro comp dio old n :
  0 <= n <= u64_max → raw_option (ro, comp, dio, old) ("size_mb=" +:+ pretty n) = Ok (ro, comp, dio, Some n).
Proof.
  intros Hn. rewrite /raw_option. change (is_readonly_flag ("size_mb=" +:+ pretty n)) with false.
  change (strip_either "size_mb=" "size-mb=" ("size_mb=" +:+ pretty n)) with (Some (pretty n)). cbv iota beta.
  by rewrite parse_usize_pretty.
Qed.

Lemma parse_raw_text path ro comp dio size :
  shard_ok (TRaw path ro comp dio size) → shard_printable (TRaw path ro comp dio size) →
  parse_shard_line (shard_text (TRaw path ro comp dio size)) = Ok (TRaw path ro comp dio size).
Proof.
  intros Hok Hp. rewrite /parse_shard_line /shard_text tokenize_line //; [|by apply shard_words_ok]. destruct Hok as [_ Hs].
  cbn [shard_type]. destruct (decide ("raw" = "raw")) as [_|]; [|done]. cbn [shard_words app fmap list_fmap word_token fst snd].
  assert (try_fold raw_option (false, None, None, None)
    (word_token <$> flag ro "readonly" ++ opt_word "compression=" comp ++ opt_word "direct_io=" (bool_text <$> dio) ++
       opt_word "size_mb=" (pretty <$> size)) = Ok (ro, comp, dio, size)) as Hf.
  { destruct ro, comp as [c|], dio as [[]|], size as [n|]; cbn [fmap option_fmap option_map opt_word flag app list_fmap word_token fst snd];
      try done; specialize (Hs n eq_refl); cbn [try_fold]; repeat
      (first [rewrite raw_size // | match goal with |- context [raw_option ?o ?p] =>
               let r := eval compute in (raw_option o p) in change (raw_option o p) with r end]; cbn [mbind Res_bind try_fold]); done. }
  by rewrite Hf.
Qed.

Lemma parse_s3_text ep bkt region ak sk ps :
  shard_ok (TS3 ep bkt region ak sk ps) → shard_printable (TS3 ep bkt region ak sk ps) →
  parse_shard_line (shard_text (TS3 ep bkt region ak sk ps)) = Ok (TS3 ep bkt region ak sk ps).
Proof.
  intros Hok Hp. rewrite /parse_shard_line /shard_text tokenize_line //; [|by apply shard_words_ok]. destruct Hok as [He Hb].
  cbn [shard_type]. do 3 (case_decide; [done|]). destruct (decide ("s3" = "s3")) as [_|]; [|done]. rewrite /parse_s3_parts.
  assert (∃ seen, try_fold s3_part ([], no_s3) (word_token <$> shard_words (TS3 ep bkt region ak sk ps)) =
    Ok (seen, mkS3 ep bkt region ak sk ps)) as [seen ->].
  { destruct region as [r|], ak as [a|], sk as [s|], ps;
      cbn [shard_words fmap option_fmap option_map opt_word flag app list_fmap word_token fst snd try_fold]; eexists;
      repeat (erewrite s3_part_new; [|done|done]; cbn [mbind Res_bind try_fold]); reflexivity. }
  cbn. by rewrite decide_False // decide_False.
Qed.

Lemma parse_shard_text s :
  shard_ok s → shard_printable s → node_ref s = None → parse_shard_line (shard_text s) = Ok s.
Proof.
  intros Hok Hp Hr. destruct s as [path ro comp dio size|root ro|ep bkt region ak sk ps| |name].
  - by apply parse_raw_text.
  - rewrite /parse_shard_line /shard_text tokenize_line //; [|by apply shard_words_ok]. by destruct ro.
  - by apply parse_s3_text.
  - done.
  - done.
Qed.

(** *** Which line is which *)

Lemma name_plain name : name_ok name = true → plain name = true ∧ mem_str name ["raw"; "fs"; "s3"; "mem"] = false ∧ starts_with "#" name = false.
Proof. rewrite /name_ok. rewrite !andb_true_iff !negb_true_iff. tauto. Qed.

Lemma str_contains_app p s t : str_contains p t = true → str_contains p (s +:+ t) = true.
Proof.
  intros Ht. induction s as [|a s IH]; [done|]. rewrite app_cons_str. cbn [str_contains]. by rewrite IH orb_true_r.
Qed.

Lemma node_text_line n : node_ok n → node_printable n → is_node_line (node_text n) = true.
Proof.
  intros Hok (Hname & _). apply name_plain in Hname as (Hp & Hm & _).
  rewrite /is_node_line /node_text first_word_line //; [|apply (no_name n Hok)]. rewrite Hm. cbn [negb andb].
  rewrite /print_line /node_words. apply str_contains_app. cbn [app]. rewrite print_words_cons.
  change (String space ?x) with (String space "" +:+ x). by apply str_contains_app.
Qed.

Lemma shard_type_ok s : node_ref s = None → plain (shard_type s) = true ∧ shard_type s ≠ "" ∧ mem_str (shard_type s) ["raw"; "fs"; "s3"; "mem"] = true.
Proof. by destruct s. Qed.

Lemma shard_text_line s : node_ref s = None → is_node_line (shard_text s) = false.
Proof.
  intros Hs. destruct (shard_type_ok s Hs) as (Hp & Hne & Hm). by rewrite /is_node_line /shard_text first_word_line // Hm.
Qed.

(** ** Blocks *)

Definition tree_printable (n : TreeNode) : Prop := ∀ x, x ∈ collect_nodes n → node_printable x.

Lemma below_children (P : TreeNode → Prop) n :
  (∀ x, x ∈ collect_nodes n → P x) → P n ∧ Forall (λ k, ∀ x, x ∈ collect_nodes k → P x) (children n).
Proof.
  intros Hn. split; [apply Hn, collect_root|]. apply Forall_forall. intros k Hk x Hx. apply Hn. by eapply collect_child.
Qed.

(** The block above [lines] ends before them. *)
Definition stop (depth : nat) (lines : list (nat * string)) : Prop :=
  match lines with [] => True | (i, _) :: _ => (i <= depth)%nat end.

Lemma print_node_head depth n : ∃ tl, print_node depth n = (depth, node_text n) :: tl.
Proof. destruct n. by eexists. Qed.

Lemma interleave_stop depth shards kids rest :
  stop depth rest → stop depth (interleave depth shards (print_node depth <$> kids) ++ rest).
Proof.
  revert kids. induction shards as [|s shards IH]; intros kids Hr; [done|]. destruct s; try (cbn; lia). cbn.
  destruct kids as [|k kids]; cbn; [by apply (IH [])|]. destruct (print_node_head depth k) as [tl ->]. cbn. lia.
Qed.

Lemma stop_deeper depth depth' rest : (depth <= depth')%nat → stop depth rest → stop depth' rest.
Proof. destruct rest as [|[i l] rest]; [done|]. cbn. lia. Qed.

(** A parser that reads the printed lines one by one reads the printed blocks:
    the daemon's, and the library's with its own tree. *)
Section reading.
Context {Head Node Shard : Type} (header : string → Res string Head) (is_node : string → bool) (shard : string → Res string Shard).
Context (ref : Node → Shard) (build : Head → list Shard → list Node → Node).
Context (node_view : TreeNode → Node) (shard_view : TreeShard → Shard).
Context (good : TreeNode → Prop) (good_shard : TreeShard → Prop).

Context (good_ok : ∀ n, good n → Forall good_shard (tn_shards n) ∧ omap node_ref (tn_shards n) = tn_name <$> children n).
Context (header_reads : ∀ n, good n →
  is_node (node_text n) = true ∧
  ∃ h, header (node_text n) = Ok h ∧ build h (shard_view <$> tn_shards n) (node_view <$> children n) = node_view n).
Context (shard_reads : ∀ s, good_shard s → node_ref s = None →
  is_node (shard_text s) = false ∧ shard (shard_text s) = Ok (shard_view s)).
Context (ref_view : ∀ n, ref (node_view n) = shard_view (TNode (tn_name n))).

Let block := parse_block header is_node shard ref build.
Let body := parse_block_body header is_node shard ref build.

Definition reads_back (n : TreeNode) : Prop :=
  ∀ depth rest fuel, stop depth rest → (2 * length (print_node depth n ++ rest) <= fuel)%nat →
    block fuel (print_node depth n ++ rest) = Ok (node_view n, rest).

Lemma body_reads_back depth shards kids rest fuel :
  Forall reads_back kids → Forall good kids → Forall good_shard shards → omap node_ref shards = tn_name <$> kids →
  stop depth rest →
  (2 * length (interleave (2 + depth) shards (print_node (2 + depth) <$> kids) ++ rest) < fuel)%nat →
  body fuel depth (interleave (2 + depth) shards (print_node (2 + depth) <$> kids) ++ rest) =
    Ok (shard_view <$> shards, node_view <$> kids, rest).
Proof.
  intros Hb Hk Hs Hrefs Hstop. revert kids fuel Hb Hk Hrefs.
  induction Hs as [|s shards Hok Hs IH]; intros kids fuel Hb Hk Hrefs Hf; (destruct fuel as [|fuel]; [lia|]).
  { destruct kids as [|k kids]; [|done]. cbn in *. destruct rest as [|[i l] rest]; [done|]. cbn in Hstop. by rewrite decide_True. }
  unfold body in *. destruct (node_ref s) as [name|] eqn:Hr.
  - destruct s as [| | | |name']; try done. cbn in Hr. injection Hr as ->. cbn in Hrefs.
    destruct kids as [|k kids]; [done|]. cbn in Hrefs. injection Hrefs as -> Hrefs.
    apply Forall_cons in Hb as [Hb1 Hb], Hk as [Hk1 Hk].
    change (interleave (2 + depth) (TNode (tn_name k) :: shards) (print_node (2 + depth) <$> k :: kids))
      with (print_node (2 + depth) k ++ interleave (2 + depth) shards (print_node (2 + depth) <$> kids)) in Hf |- *.
    rewrite -app_assoc in Hf |- *. set (tl := interleave _ _ _ ++ rest) in *.
    pose proof (Hb1 (2 + depth)%nat tl fuel) as Hblock. destruct (print_node_head (2 + depth) k) as [tl' Htl].
    rewrite Htl in Hf Hblock |- *. cbn [app length] in Hf, Hblock |- *. rewrite body_step; [|lia].
    unfold block in Hblock. rewrite (proj1 (header_reads k Hk1)) Hblock; [|apply interleave_stop; eapply stop_deeper; [|done]; lia|lia].
    rewrite length_app in Hf. cbn [mbind Res_bind fst snd]. rewrite /tl (IH kids fuel) //; [|fold tl; lia]. cbn. by rewrite ref_view.
  - destruct (shard_reads s Hok Hr) as [Hline Hread]. cbn in Hrefs. rewrite Hr in Hrefs.
    assert (interleave (2 + depth) (s :: shards) (print_node (2 + depth) <$> kids) =
      ((2 + depth)%nat, shard_text s) :: interleave (2 + depth) shards (print_node (2 + depth) <$> kids)) as E by by destruct s.
    rewrite E in Hf |- *. cbn [app length] in Hf |- *. rewrite body_step; [|lia].
    rewrite Hline Hread. cbn [mbind Res_bind]. rewrite (IH kids fuel) //. lia.
Qed.

Lemma block_reads_back n : (∀ x, x ∈ collect_nodes n → good x) → reads_back n.
Proof.
  induction n as [name l e rf mw del shards kids IH] using TreeNode_ind'. intros Hgood.
  set (n := mkNode name l e rf mw del shards kids) in *. apply (below_children good) in Hgood as [Hn Hkids].
  cbn [children] in Hkids. destruct (good_ok n Hn) as [Hs Hrefs]. destruct (header_reads n Hn) as (_ & h & Hh & Hbuild).
  intros depth rest fuel Hstop Hf.
  destruct fuel as [|fuel]; [destruct (print_node_head depth n) as [tl E]; rewrite E in Hf; cbn in Hf; lia|].
  change (print_node depth n) with ((depth, node_text n) :: interleave (2 + depth) shards (print_node (2 + depth) <$> kids)) in Hf |- *.
  unfold block. cbn [app length] in Hf |- *. rewrite block_step Hh. cbn [mbind Res_bind].
  pose proof (body_reads_back depth shards kids rest fuel) as Hbody. unfold body in Hbody. rewrite Hbody //.
  - cbn. by rewrite Hbuild.
  - rewrite Forall_forall. intros k Hk. rewrite !Forall_forall in IH Hkids. apply IH; [done|exact (Hkids k Hk)].
  - rewrite Forall_forall. intros k Hk. rewrite !Forall_forall in Hkids. exact (Hkids k Hk k (collect_root k)).
  - lia.
Qed.
End reading.

(** The daemon reads its own blocks. *)
Lemma node_block_reads_back n depth rest fuel :
  tree_ok n → tree_printable n → stop depth rest → (2 * length (print_node depth n ++ rest) <= fuel)%nat →
  parse_node_block fuel (print_node depth n ++ rest) = Ok (n, rest).
Proof.
  intros Hok Hpr. rewrite block_instance.
  apply (block_reads_back _ _ _ _ _ id id (λ n, node_ok n ∧ node_printable n) (λ s, shard_ok s ∧ shard_printable s)).
  - intros x [Hx (_ & _ & _ & Hp)]. split; [|apply (no_refs x Hx)]. apply Forall_and. split; [apply (no_shards x Hx)|done].
  - intros x [Hx Hp]. split; [by apply node_text_line|]. eexists. split; [by apply parse_node_text|].
    rewrite !list_fmap_id. by destruct x.
  - intros s [Hs Hp] Hr. split; [by apply shard_text_line|by apply parse_shard_text].
  - done.
  - intros x Hx. split; [by apply Hok|by apply Hpr].
Qed.

(** ** The lines of a printed text *)

(** A line that is read as it was printed. *)
Definition line_kept (l : string) : Prop :=
  one_line l = true ∧ starts_visible l = true ∧ ends_visible l = true ∧ starts_with "#" l = false.

Lemma starts_visible_app s t : s ≠ "" → starts_visible (s +:+ t) = starts_visible s.
Proof. by destruct s. Qed.

Lemma starts_hash_app s t : s ≠ "" → starts_with "#" (s +:+ t) = starts_with "#" s.
Proof.
  destruct s as [|a s]; [done|]. intros _. rewrite app_cons_str /starts_with. cbn [String.prefix].
  destruct (Ascii.ascii_dec _ a); [|done]. by destruct (s +:+ t), s.
Qed.

Lemma print_line_kept first l :
  plain first = true → first ≠ "" → starts_with "#" first = false → Forall word_ok l → line_kept (print_line first l).
Proof.
  intros Hp Hne Hh Hl. destruct (print_line_ok first l Hp Hne Hl) as (H1 & H2 & H3 & _). split_and!; [done..|].
  by rewrite /print_line starts_hash_app.
Qed.

Lemma one_line_spaces n s : one_line (spaces n +:+ s) = one_line s.
Proof. rewrite one_line_app. induction n as [|n IH]; [done|exact IH]. Qed.

Lemma indented_lines_print items :
  Forall (λ item : nat * string, line_kept item.2) items → indented_lines (text_of (indented <$> items)) = items.
Proof.
  intros Hi. rewrite /indented_lines lines_text.
  2: { apply Forall_fmap. eapply Forall_impl; [exact Hi|]. intros [i l] (H1 & H2 & H3 & _). cbn [snd] in H1, H2, H3.
       change ((one_line (spaces i +:+ l)) = true ∧ ends_visible (spaces i +:+ l) = true).
       rewrite one_line_spaces. split; [done|]. rewrite ends_visible_app //. by intros E; rewrite E in H2. }
  induction Hi as [|[i l] items (H1 & H2 & H3 & H4) _ IH]; [done|].
  destruct (indented_line i l H2 H3) as [Hin Ht]. cbn [fmap list_fmap]. change (indented (i, l)) with (spaces i +:+ l).
  rewrite filter_cons_True.
  2: { rewrite Ht /is_comment H4 orb_false_r. apply bool_decide_eq_false. intros E. cbn in E, H2. by rewrite E in H2. }
  cbn [fmap list_fmap]. rewrite Hin Ht. f_equal. exact IH.
Qed.

(** *** The lines of the nodes *)

Definition block_line (depth : nat) (item : nat * string) : Prop := (depth <= item.1)%nat ∧ line_kept item.2.

Lemma block_line_deeper d1 d2 items : (d1 <= d2)%nat → Forall (block_line d2) items → Forall (block_line d1) items.
Proof. intros Hd Hl. eapply Forall_impl; [exact Hl|]. intros [i l] [H1 H2]. split; [cbn in *; lia|done]. Qed.

Lemma shard_line_kept s : shard_ok s → shard_printable s → node_ref s = None → line_kept (shard_text s).
Proof.
  intros Hok Hp Hr. destruct (shard_type_ok s Hr) as (H1 & H2 & _). apply print_line_kept; [done|done| |by apply shard_words_ok].
  by destruct s.
Qed.

Lemma node_line_kept n : node_ok n → node_printable n → line_kept (node_text n).
Proof.
  intros Hok Hp. pose proof Hp as (Hname & _). apply name_plain in Hname as (H1 & _ & H2).
  apply print_line_kept; [done|apply (no_name n Hok)|done|by apply node_words_ok].
Qed.

Lemma interleave_lines depth shards blocks :
  Forall (Forall (block_line depth)) blocks → Forall (λ s, shard_ok s ∧ shard_printable s) shards →
  Forall (block_line depth) (interleave depth shards blocks).
Proof.
  intros Hb Hs. revert blocks Hb. induction Hs as [|s shards [Hok Hp] _ IH]; intros blocks Hb; [constructor|].
  destruct (node_ref s) as [name|] eqn:Hr.
  - destruct s; try done. cbn. destruct Hb as [|b blocks Hb1 Hb]; [by apply IH|]. apply Forall_app. split; [done|by apply IH].
  - pose proof (shard_line_kept s Hok Hp Hr) as Hl.
    destruct s; try done; cbn; (constructor; [split; [cbn; lia|done]|by apply IH]).
Qed.

Lemma print_node_lines depth n : tree_ok n → tree_printable n → Forall (block_line depth) (print_node depth n).
Proof.
  revert depth. induction n as [name l e rf mw del shards kids IH] using TreeNode_ind'. intros depth Hok Hpr.
  apply (below_children node_ok) in Hok as [Hn Hkok]. apply (below_children node_printable) in Hpr as [Hp Hkp].
  cbn [children] in Hkok, Hkp. constructor; [split; [done|by apply node_line_kept]|].
  apply (block_line_deeper depth (2 + depth)); [lia|]. apply interleave_lines.
  - apply Forall_fmap, Forall_forall. intros k Hk. rewrite !Forall_forall in IH Hkok Hkp. apply IH; [done|exact (Hkok k Hk)|exact (Hkp k Hk)].
  - pose proof (no_shards _ Hn) as H1. destruct Hp as (_ & _ & _ & H2). apply Forall_and. by split.
Qed.

(** The root's line is the only one that is not indented. *)
Lemma print_node_shape n :
  tree_ok n → tree_printable n →
  ∃ tl, print_node 0 n = (0%nat, node_text n) :: tl ∧ Forall (λ item : nat * string, item.1 ≠ 0%nat) tl.
Proof.
  destruct n as [name l e rf mw del shards kids]. intros Hok Hp. eexists. split; [reflexivity|].
  apply (below_children node_ok) in Hok as [Hn Hkok]. apply (below_children node_printable) in Hp as [Hnp Hkp].
  cbn [children] in Hkok, Hkp. eapply Forall_impl; [apply (interleave_lines 2)|].
  - apply Forall_fmap, Forall_forall. intros k Hk. rewrite !Forall_forall in Hkok Hkp.
    apply print_node_lines; [exact (Hkok k Hk)|exact (Hkp k Hk)].
  - pose proof (no_shards _ Hn) as H1. destruct Hnp as (_ & _ & _ & H2). apply Forall_and. by split.
  - intros [i x] [Hi _]. cbn in *. lia.
Qed.

(** ** Directives *)

(** A value that fills the rest of a line. *)
Definition value_ok (v : string) : bool := one_line v && starts_visible v && ends_visible v.

Lemma trim_value v : value_ok v = true → trim v = v ∧ trim (String space v) = v.
Proof.
  rewrite /value_ok !andb_true_iff. intros [[_ Hs] He]. split; [by apply trim_visible|].
  rewrite /trim (trim_start_spaces 1 v Hs). by apply trim_end_visible.
Qed.

Lemma pretty_value n : 0 <= n → value_ok (pretty n) = true.
Proof.
  intros Hn. destruct (pretty_digits n Hn) as [Hd Hne].
  assert (plain (pretty n) = true) as Hp.
  { eapply all_chars_impl; [|exact Hd]. intros a. rewrite /is_digit /digit_of bool_decide_eq_true. case_decide as Hr; [intros _|by intros []].
    rewrite /is_plain /is_visible /is_quote. rewrite (proj2 (Nat.leb_le 33 (byte_val a))); [|lia].
    rewrite (proj2 (Nat.leb_le (byte_val a) 126)); [|lia]. cbn [andb]. apply negb_true_iff, bool_decide_eq_false.
    intros [-> | ->]; [change (byte_val double_quote) with 34%nat in Hr|change (byte_val single_quote) with 39%nat in Hr]; lia. }
  by rewrite /value_ok plain_one_line // plain_starts // plain_ends.
Qed.

Lemma bool_value b : value_ok (bool_text b) = true.
Proof. by destruct b. Qed.

Lemma directive_kept key v :
  plain key = true → key ≠ "" → starts_with "#" key = false → value_ok v = true → line_kept (directive_line key v).
Proof.
  rewrite /value_ok !andb_true_iff. intros Hp Hne Hh [[H1 H2] H3]. split_and!.
  - by rewrite /directive_line one_line_app plain_one_line.
  - rewrite starts_visible_app //. by apply plain_starts.
  - rewrite /directive_line. change (String space v) with (spaces 1 +:+ v). rewrite ends_visible_app; [|by destruct v].
    rewrite ends_visible_app //. by destruct v.
  - by rewrite starts_hash_app.
Qed.

(** A directive that is looked up by its key. *)
Definition plain_key (key : string) : Prop :=
  ∀ v, starts_with "cluster " (directive_line key v) = false ∧ starts_with "bucket " (directive_line key v) = false ∧
       starts_with "read_prefer " (directive_line key v) = false ∧ starts_with "recovery_" (directive_line key v) = false ∧
       cut_ws (directive_line key v) = (key, Some v).

Lemma sort_known key v d remaining d' :
  plain_key key → value_ok v = true → known_directive d key (Some v) = Some (Ok d') →
  sort_line (d, remaining) (0%nat, directive_line key v) = Ok (d', remaining).
Proof.
  intros Hk Hv Hd. destruct (Hk v) as (H1 & H2 & H3 & H4 & H5). rewrite /sort_line. cbv beta iota. destruct (decide (0%nat ≠ 0%nat)) as [|_]; [done|].
  rewrite H1 H2 H3 H4 H5. cbn [fmap option_fmap option_map]. destruct (trim_value v Hv) as [-> _]. by rewrite Hd.
Qed.

Definition recovery_key (key : string) : Prop :=
  ∀ v, starts_with "cluster " (directive_line key v) = false ∧ starts_with "bucket " (directive_line key v) = false ∧
       starts_with "read_prefer " (directive_line key v) = false ∧ starts_with "recovery_" (directive_line key v) = true ∧
       cut_ws (directive_line key v) = (key, Some v).

Lemma sort_recovery key v d remaining :
  recovery_key key →
  sort_line (d, remaining) (0%nat, directive_line key v) =
    (d' ← recovery_directive d (directive_line key v); Ok (d', remaining)).
Proof.
  intros Hk. destruct (Hk v) as (H1 & H2 & H3 & H4 & _). rewrite /sort_line. cbv beta iota.
  destruct (decide (0%nat ≠ 0%nat)) as [|_]; [done|]. by rewrite H1 H2 H3 H4.
Qed.

Lemma parse_to_pretty max what n : 0 <= n <= max → parse_to max what (pretty n) = Ok n.
Proof. intros Hn. by rewrite /parse_to parse_pretty. Qed.

Lemma is_true_text b : is_true (bool_text b) = b.
Proof. by destruct b. Qed.

(** The lines of a field that may be absent. *)
Lemma opt_lines {A} (text : A → string) key (o : option A) (set : option A → Directives → Directives) d remaining :
  (∀ v, o = Some v → sort_line (d, remaining) (0%nat, directive_line key (text v)) = Ok (set (Some v) d, remaining)) →
  set None d = d →
  try_fold sort_line (d, remaining) (pair 0%nat <$> opt_line key (text <$> o)) = Ok (set o d, remaining).
Proof.
  intros Hs Hn. destruct o as [v|]; [|by rewrite Hn]. cbn [fmap option_fmap option_map opt_line list_fmap try_fold].
  by rewrite Hs.
Qed.

(** Fields that hold a text, and fields that hold a number. *)
Lemma text_lines key o (set : option string → Directives → Directives) d remaining :
  plain_key key → (∀ v, known_directive d key (Some v) = Some (Ok (set (Some v) d))) → opt_all (λ v, value_ok v = true) o →
  set None d = d → try_fold sort_line (d, remaining) (pair 0%nat <$> opt_line key o) = Ok (set o d, remaining).
Proof.
  intros Hk Hd Ho Hn. rewrite -{1}(option_fmap_id o). apply opt_lines; [|done]. intros v ->. by apply sort_known.
Qed.

Lemma number_lines key o (set : option Z → Directives → Directives) d remaining :
  plain_key key → (∀ v, known_directive d key (Some v) = Some (number key (Some v) set d)) →
  opt_all (λ n, 0 <= n <= u64_max) o →
  set None d = d → try_fold sort_line (d, remaining) (pair 0%nat <$> opt_line key (pretty <$> o)) = Ok (set o d, remaining).
Proof.
  intros Hk Hd Ho Hn. apply opt_lines; [|done]. intros n ->. cbn in Ho. apply sort_known; [done|apply pretty_value; lia|].
  by rewrite Hd /number parse_to_pretty.
Qed.

Lemma recovery_number max key o (set : option Z → Directives → Directives) d remaining :
  recovery_key key →
  (∀ line v, cut_ws line = (key, Some v) → recovery_directive d line = (n ← parse_to max key (trim v); Ok (set (Some n) d))) →
  opt_all (λ n, 0 <= n <= max) o → set None d = d →
  try_fold sort_line (d, remaining) (pair 0%nat <$> opt_line key (pretty <$> o)) = Ok (set o d, remaining).
Proof.
  intros Hk Hd Ho Hn. apply opt_lines; [|done]. intros n ->. cbn in Ho. rewrite sort_recovery //.
  destruct (Hk (pretty n)) as (_ & _ & _ & _ & Hc). rewrite (Hd _ _ Hc).
  destruct (trim_value (pretty n) (pretty_value n ltac:(lia))) as [-> _]. by rewrite parse_to_pretty.
Qed.

Ltac line_key := intros ?; split_and!; [reflexivity..|by apply cut_ws_plain].

(** One directive, its state computed. *)
Ltac directive_step lem :=
  rewrite fmap_app try_fold_app lem;
  [cbn [mbind Res_bind];
   match goal with |- context [try_fold sort_line (?d, _)] => let r := eval lazy in d in change d with r end|..].

(** What of the directives can be printed. *)
Record directives_printable (d : Directives) : Prop := {
  dp_cluster : value_ok (cluster_name d) = true;
  dp_bucket : value_ok (default_bucket d) = true;
  dp_texts : Forall (opt_all (λ v, value_ok v = true))
    [read_prefer d; compression d; admin_token d; access_key d; secret_key d; cors_origin d; log_file d; event_socket d;
     event_secret d; event_source d; catalog_path d; catalog_format d];
  dp_numbers : Forall (opt_all (λ n, 0 <= n <= u64_max))
    [recovery_poll_secs d; recovery_probe_timeout_secs d; recovery_re_replicate_batch_size d;
     repair_replication_interval_secs d; repair_replication_batch_size d; size_mb d; flush_interval d; log_buffer_size d;
     max_readers d; catalog_flush_interval d];
  dp_threshold : opt_all (λ n, 0 <= n <= u32_max) (recovery_failure_threshold d);
}.

Ltac plain_key_tac := intros ?; split_and!; [reflexivity..|by apply cut_ws_plain].

Lemma sort_cluster v d remaining :
  value_ok v = true → sort_line (d, remaining) (0%nat, directive_line "cluster" v) = Ok (set_cluster_name v d, remaining).
Proof.
  destruct v as [|a v]; [done|]. set (w := String a v). intros Hv. change (Ok (set_cluster_name (trim (String space w)) d, remaining) = (Ok (set_cluster_name w d, remaining) : ConfRes Sorted)).
  by destruct (trim_value w Hv) as [_ ->].
Qed.

Lemma sort_bucket v d remaining :
  value_ok v = true → sort_line (d, remaining) (0%nat, directive_line "bucket" v) = Ok (set_default_bucket v d, remaining).
Proof.
  destruct v as [|a v]; [done|]. set (w := String a v). intros Hv. change (Ok (set_default_bucket (trim (String space w)) d, remaining) = (Ok (set_default_bucket w d, remaining) : ConfRes Sorted)).
  by destruct (trim_value w Hv) as [_ ->].
Qed.

Lemma read_prefer_lines o d remaining :
  opt_all (λ v, value_ok v = true) o → set_read_prefer None d = d →
  try_fold sort_line (d, remaining) (pair 0%nat <$> opt_line "read_prefer" o) = Ok (set_read_prefer o d, remaining).
Proof.
  intros Ho Hn. rewrite -{1}(option_fmap_id o). apply opt_lines; [|done]. intros [|a v] ->; [done|]. set (w := String a v) in *.
  change (Ok (set_read_prefer (Some (trim (String space w))) d, remaining) = (Ok (set_read_prefer (Some w) d, remaining) : ConfRes Sorted)).
  by destruct (trim_value w Ho) as [_ ->].
Qed.

Lemma recovery_enabled_lines o d remaining :
  set_recovery_enabled None d = d →
  try_fold sort_line (d, remaining) (pair 0%nat <$> opt_line "recovery_enabled" (bool_text <$> o)) = Ok (set_recovery_enabled o d, remaining).
Proof. intros Hn. apply opt_lines; [|done]. by intros [] ->. Qed.

Lemma direct_io_lines o d remaining :
  set_direct_io None d = d →
  try_fold sort_line (d, remaining) (pair 0%nat <$> opt_line "direct_io" (bool_text <$> o)) = Ok (set_direct_io o d, remaining).
Proof. intros Hn. apply opt_lines; [|done]. by intros [] ->. Qed.

Lemma recovery_lines key max set o d remaining :
  In (key, max, set) [("recovery_poll_secs", u64_max, set_recovery_poll_secs);
    ("recovery_probe_timeout_secs", u64_max, set_recovery_probe_timeout_secs);
    ("recovery_failure_threshold", u32_max, set_recovery_failure_threshold);
    ("recovery_re_replicate_batch_size", u64_max, set_recovery_re_replicate_batch_size)] →
  opt_all (λ n, 0 <= n <= max) o → set None d = d →
  try_fold sort_line (d, remaining) (pair 0%nat <$> opt_line key (pretty <$> o)) = Ok (set o d, remaining).
Proof.
  cbn [In]. intros Hin Ho Hn. repeat (destruct Hin as [[= <- <- <-]|Hin];
    [eapply recovery_number; [line_key|intros line v Hl; by rewrite /recovery_directive Hl|done|done]|]). done.
Qed.

Lemma directives_read d :
  directives_printable d →
  try_fold sort_line (no_directives, []) (pair 0%nat <$> directive_lines d) = Ok (d, []).
Proof.
  intros [Hc Hb Ht Hn Hth]. destruct d as [c b rp re ps pt ft bs ri rb comp dio size fi tok ak sk co lf lb es ec mr ev cp cf ci].
  cbn in Hc, Hb, Ht, Hn, Hth. rewrite !Forall_cons in Ht Hn. destruct_and?.
  rewrite /directive_lines. cbn [cluster_name default_bucket read_prefer recovery_enabled].
  rewrite fmap_app try_fold_app. cbn [fmap list_fmap try_fold].
  rewrite sort_cluster //. cbn [mbind Res_bind]. rewrite sort_bucket //. cbn [mbind Res_bind].
  directive_step read_prefer_lines; [|done..].
  directive_step recovery_enabled_lines; [|done..].
  directive_step (recovery_lines "recovery_poll_secs" u64_max set_recovery_poll_secs); [|cbn; tauto|done..].
  directive_step (recovery_lines "recovery_probe_timeout_secs" u64_max set_recovery_probe_timeout_secs); [|cbn; tauto|done..].
  directive_step (recovery_lines "recovery_failure_threshold" u32_max set_recovery_failure_threshold); [|cbn; tauto|done..].
  directive_step (recovery_lines "recovery_re_replicate_batch_size" u64_max set_recovery_re_replicate_batch_size); [|cbn; tauto|done..].
  directive_step (number_lines "repair_replication_interval" ri set_repair_replication_interval_secs); [|line_key|done..].
  directive_step (number_lines "repair_replication_batch_size" rb set_repair_replication_batch_size); [|line_key|done..].
  directive_step (text_lines "compression" comp set_compression); [|line_key|done..].
  directive_step direct_io_lines; [|done..].
  directive_step (number_lines "size_mb" size set_size_mb); [|line_key|done..].
  directive_step (number_lines "flush_interval" fi set_flush_interval); [|line_key|done..].
  directive_step (text_lines "admin_token" tok set_admin_token); [|line_key|done..].
  directive_step (text_lines "access_key" ak set_access_key); [|line_key|done..].
  directive_step (text_lines "secret_key" sk set_secret_key); [|line_key|done..].
  directive_step (text_lines "cors_origin" co set_cors_origin); [|line_key|done..].
  directive_step (text_lines "log_file" lf set_log_file); [|line_key|done..].
  directive_step (number_lines "log_buffer_size" lb set_log_buffer_size); [|line_key|done..].
  directive_step (text_lines "event_socket" es set_event_socket); [|line_key|done..].
  directive_step (text_lines "event_secret" ec set_event_secret); [|line_key|done..].
  directive_step (number_lines "max_readers" mr set_max_readers); [|line_key|done..].
  directive_step (text_lines "event_source" ev set_event_source); [|line_key|done..].
  directive_step (text_lines "catalog_path" cp set_catalog_path); [|line_key|done..].
  directive_step (text_lines "catalog_format" cf set_catalog_format); [|line_key|done..].
  rewrite (number_lines "catalog_flush_interval" ci set_catalog_flush_interval); [done|line_key|done..].
Qed.

(** ** The root's line *)

(** The keys that [sort_line] takes for directives. *)
Definition directive_keys : list string :=
  ["cluster"; "bucket"; "read_prefer"; "compression"; "direct_io"; "size_mb"; "flush_interval"; "admin_token"; "access_key";
   "secret_key"; "cors_origin"; "log_file"; "log_buffer_size"; "event_socket"; "event_secret"; "max_readers"; "event_source";
   "repair_replication_interval"; "repair_replication_batch_size"; "catalog_path"; "catalog_format";
   "catalog_flush_interval"] ++ foreign_directives.

Definition root_name_ok (name : string) : bool := negb (mem_str name directive_keys) && negb (starts_with "recovery_" name).

Lemma not_directive d key val : mem_str key directive_keys = false → known_directive d key val = None.
Proof.
  rewrite /mem_str bool_decide_eq_false /directive_keys. intros Hk. rewrite /known_directive.
  repeat (case_decide as Hd; [destruct Hk; rewrite Hd; apply (bool_decide_unpack _); by vm_compute|clear Hd]).
  destruct (mem_str key foreign_directives) eqn:Hf; [|done]. destruct Hk. apply bool_decide_eq_true in Hf.
  apply elem_of_app. by right.
Qed.

Lemma starts_with_word key name t :
  plain key = true → plain name = true → starts_with (key +:+ " ") (name +:+ String space t) = true → name = key.
Proof.
  revert name. induction key as [|a key IH]; intros [|b name]; rewrite /starts_with; cbn [plain all_chars]; [done|..].
  - change ("" +:+ " ") with (String space ""). rewrite app_cons_str. cbn [String.prefix].
    intros _ [Hb _]%andb_true_iff. destruct (Ascii.ascii_dec space b) as [<-|]; done.
  - change ("" +:+ String space t) with (String space t). rewrite app_cons_str. cbn [String.prefix].
    intros [Ha _]%andb_true_iff _. destruct (Ascii.ascii_dec a space) as [->|]; done.
  - rewrite !app_cons_str. cbn. intros [_ Hk]%andb_true_iff [_ Hn]%andb_true_iff.
    destruct (Ascii.ascii_dec a b) as [<-|]; [|done]. intros Hp. f_equal. by apply IH.
Qed.

Lemma starts_with_plain p name t : plain p = true → starts_with p (name +:+ String space t) = starts_with p name.
Proof.
  revert p. induction name as [|b name IH]; intros [|a p]; rewrite /starts_with; cbn [plain all_chars]; [done|..].
  - change ("" +:+ String space t) with (String space t). cbn [String.prefix].
    intros [Ha _]%andb_true_iff. destruct (Ascii.ascii_dec a space) as [->|]; done.
  - done.
  - rewrite app_cons_str. cbn. intros [_ Hp]%andb_true_iff. destruct (Ascii.ascii_dec a b); [|done]. by apply IH.
Qed.

Lemma sort_root n d remaining :
  node_ok n → node_printable n → root_name_ok (tn_name n) = true →
  sort_line (d, remaining) (0%nat, node_text n) = Ok (d, remaining ++ [(0%nat, node_text n)]).
Proof.
  rewrite /root_name_ok andb_true_iff !negb_true_iff. intros Hok (Hname & _) [Hk Hr].
  apply name_plain in Hname as (Hp & _). rewrite /sort_line. cbv beta iota. destruct (decide (0%nat ≠ 0%nat)) as [|_]; [done|].
  assert (∃ t, node_text n = tn_name n +:+ String space t) as [t ->].
  { rewrite /node_text /print_line /node_words. cbn [app]. rewrite print_words_cons. by eexists. }
  assert (∀ key, plain key = true → key ∈ directive_keys → starts_with (key +:+ " ") (tn_name n +:+ String space t) = false) as Hkey.
  { intros key Hkp Hin. apply not_true_is_false. intros Hs%starts_with_word; [|done..].
    move: Hk. rewrite /mem_str bool_decide_eq_false Hs. done. }
  pose proof (Hkey "cluster" eq_refl ltac:(by left)) as H1. pose proof (Hkey "bucket" eq_refl ltac:(by right; left)) as H2.
  pose proof (Hkey "read_prefer" eq_refl ltac:(by right; right; left)) as H3.
  change ("cluster" +:+ " ") with "cluster " in H1. change ("bucket" +:+ " ") with "bucket " in H2.
  change ("read_prefer" +:+ " ") with "read_prefer " in H3. rewrite H1 H2 H3 starts_with_plain // Hr cut_ws_plain //.
  by rewrite not_directive.
Qed.

Lemma sort_deeper d remaining items :
  Forall (λ item : nat * string, item.1 ≠ 0%nat) items → try_fold sort_line (d, remaining) items = Ok (d, remaining ++ items).
Proof.
  intros Hi. revert remaining. induction Hi as [|[i l] items Hne _ IH]; intros remaining; [by rewrite app_nil_r|].
  assert (sort_line (d, remaining) (i, l) = Ok (d, remaining ++ [(i, l)])) as Hl.
  { rewrite /sort_line. cbv beta iota. destruct (decide (i ≠ 0%nat)) as [_|]; done. }
  cbn [try_fold]. rewrite Hl. cbn [mbind Res_bind]. by rewrite IH -app_assoc.
Qed.

(** * A tree configuration

    Two machines, and the file system of one of them. *)

Definition sample_leaf : TreeNode :=
  mkNode "leaf" "10.0.0.2:9000" "http://10.0.0.2:9000" 1 None false [TFs "/srv/data" true; TMem] [].

Definition sample_root : TreeNode :=
  mkNode "root" "0.0.0.0:9000" "http://10.0.0.1:9000" 2 (Some 1) true
    [TRaw "/dev/sda" false (Some "zstd") (Some true) (Some 64); TNode "leaf";
     TS3 "https://s3.local" "cold objects" (Some "eu") None None true] [sample_leaf].

Definition sample_directives : Directives :=
  set_recovery_failure_threshold (Some 3) (set_direct_io (Some false) (set_size_mb (Some 128)
    (set_admin_token (Some "a b c") (set_cluster_name "store" no_directives)))).

Definition sample : TreeConfig := mkTree sample_directives sample_root.

Definition sample_text : string := text_of [
  "# two machines";
  "cluster store";
  "recovery_failure_threshold 3";
  "size_mb   128";
  "direct_io no";
  "admin_token a b c";
  "";
  "root rf=2 min_writes=1 delete_requires_min_writes=1 listen=0.0.0.0:9000 endpoint=http://10.0.0.1:9000";
  "    raw /dev/sda size-mb=64 compression=zstd direct-io";
  "    leaf rf=1 listen=10.0.0.2:9000 endpoint=http://10.0.0.2:9000";
  "        fs '/srv/data' read-only";
  "        mem";
  "    s3 endpoint=https://s3.local bucket='cold objects' region=eu path_style"].

Lemma sample_parses : parse_tree_config sample_text = Ok sample.
Proof. by vm_compute. Qed.

Lemma sample_below (P : TreeNode → Prop) : P sample_root → P sample_leaf → ∀ x, x ∈ collect_nodes sample_root → P x.
Proof. intros Hr Hl x [->|[->|Hx]%elem_of_cons]%elem_of_cons; [done|done|]. by apply not_elem_of_nil in Hx. Qed.

Lemma sample_printable : tree_printable sample_root.
Proof. refine (sample_below node_printable _ _); (split_and!; [by vm_compute..|]); repeat constructor. Qed.

Lemma sample_directives_printable : directives_printable sample_directives.
Proof. split; [done|done|repeat constructor..]; done. Qed.

(** The file system has what the shards need. *)
Definition sample_paths : Paths := mkPaths (λ p, mem_str p ["/dev"; "/srv/data"]) (λ p, mem_str p ["/dev"; "/srv/data"]).
