(* ===== verification/TreeGuarantees.v ===== *)
(** * Theorems about the tree configuration

    The parser answers on every text and accepts well-formed trees only, it
    reads back what is printed, and the validation reports an error when one of
    its rules is broken. *)

From S2P Require Import Prelude.
From S2P Require Import Config.
From S2P Require Import Index.
From S2P Require Import Instances.
From S2P Require Import Tlv.
From S2P Require Import Text.
From S2P Require Import TreeConfig.
From S2P Require Import TreeFacts.
From S2P Require Import TreePrint.

(** ** Reading back *)

Record config_printable (t : TreeConfig) : Prop := {
  cp_tree : tree_ok (root t);
  cp_nodes : tree_printable (root t);
  cp_root : root_name_ok (tn_name (root t)) = true;
  cp_directives : directives_printable (directives t);
}.

Lemma opt_line_kept key o :
  plain key = true → key ≠ "" → starts_with "#" key = false → opt_all (λ v, value_ok v = true) o →
  Forall line_kept (opt_line key o).
Proof. intros Hp Hne Hh Ho. destruct o; repeat constructor; by apply directive_kept. Qed.

Lemma number_value max (o : option Z) : opt_all (λ n, 0 <= n <= max) o → opt_all (λ v, value_ok v = true) (pretty <$> o).
Proof. destruct o; [|done]. cbn. intros Hn. apply pretty_value. lia. Qed.

Lemma bool_values (o : option bool) : opt_all (λ v, value_ok v = true) (bool_text <$> o).
Proof. destruct o as [[]|]; done. Qed.

Lemma directive_lines_kept d : directives_printable d → Forall line_kept (directive_lines d).
Proof.
  intros [Hc Hb Ht Hn Hth]. rewrite !Forall_cons in Ht Hn. destruct_and?. rewrite /directive_lines.
  repeat (apply Forall_app; split).
  { repeat constructor; by apply directive_kept. }
  all: apply opt_line_kept; [done..|first [done|by eapply number_value|apply bool_values]].
Qed.

Lemma print_config_lines t :
  config_printable t →
  indented_lines (print_config t) = (pair 0%nat <$> directive_lines (directives t)) ++ print_node 0 (root t).
Proof.
  intros [Hok Hp Hr Hd]. apply indented_lines_print, Forall_app. split.
  - apply Forall_fmap. eapply Forall_impl; [by apply directive_lines_kept|]. done.
  - eapply Forall_impl; [by apply print_node_lines|]. by intros [i l] [_ Hl].
Qed.

(** The root's block is what is left of the lines. *)
Lemma sort_block d n :
  tree_ok n → tree_printable n → root_name_ok (tn_name n) = true →
  try_fold sort_line (d, []) (print_node 0 n) = Ok (d, print_node 0 n).
Proof.
  intros Hok Hp Hr. destruct (print_node_shape n Hok Hp) as (tl & -> & Htl).
  cbn [try_fold]. rewrite sort_root; [|by apply Hok, collect_root|by apply Hp, collect_root|done]. cbn [mbind Res_bind app].
  by rewrite sort_deeper.
Qed.

Lemma read_printed t : config_printable t → parse_tree_config (print_config t) = Ok t.
Proof.
  intros Hc. pose proof Hc as [Hok Hp Hr Hd]. rewrite /parse_tree_config print_config_lines // try_fold_app directives_read //.
  cbn [mbind Res_bind]. rewrite sort_block //. cbn [mbind Res_bind].
  destruct (print_node_head 0 (root t)) as [tl Htl]. case_decide as Hnil; [by rewrite Htl in Hnil|].
  pose proof (node_block_reads_back (root t) 0 [] (block_fuel (print_node 0 (root t))) Hok Hp) as Hblock.
  rewrite app_nil_r in Hblock. rewrite Hblock; [|done|rewrite /block_fuel; lia]. cbn [mbind Res_bind fst].
  pose proof (dp_cluster _ Hd) as Hname. destruct t as [d n]. cbn [directives root] in *. rewrite decide_False //.
  intros E. by rewrite E in Hname.
Qed.

(** C22: Round trip of the daemon's configuration format.  A configuration whose
    names are single words, whose quoted values hold neither a double quote nor
    a newline and whose numbers fit their types is read back exactly by
    [parse_tree_config] from its printed text: every directive, every field of
    every node, every shard option, the order of the shards and the nesting of
    the nodes. *)
Theorem tree_config_round_trip (t : TreeConfig) : config_printable t → parse_tree_config (print_config t) = Ok t.
Proof. apply read_printed. Qed.

(** The sample configuration is printed with its own layout and read back. *)
Lemma tree_config_round_trip_witness :
  config_printable sample ∧ print_config sample ≠ sample_text ∧ parse_tree_config (print_config sample) = Ok sample.
Proof.
  assert (config_printable sample) as Hc.
  { split; [apply (parsed_tree sample_text), sample_parses|apply sample_printable|done|apply sample_directives_printable]. }
  split_and!; [exact Hc|by vm_compute|apply (tree_config_round_trip sample Hc)].
Defined.

(** ** Every text *)

(** C24: [parse_tree_config] on an arbitrary text.  It always answers with a tree
    or an error message: parsing a block never runs out of lines to look at, and
    more fuel would not change the answer.  A tree it accepts is well-formed all
    the way down: names, [listen] and [endpoint] are not empty, [min_writes] is
    between one and [rf], every [node] reference stands for the child at the
    same place, raw and fs shards have a path, S3 shards an endpoint and a
    bucket, numbers fit a [usize]; and the cluster has a name. *)
Theorem tree_parser_total (text : string) :
  parse_tree_config text ≠ Panic ∧
  (∀ lines fuel, (block_fuel lines <= fuel)%nat →
     parse_node_block fuel lines = parse_node_block (block_fuel lines) lines ∧ parse_node_block fuel lines ≠ Panic) ∧
  ∀ t, parse_tree_config text = Ok t → tree_ok (root t) ∧ cluster_name (directives t) ≠ "".
Proof.
  split_and!; [apply parse_no_panic|apply node_block_answers|apply parsed_tree].
Qed.

(** The sample text is accepted, a node without [listen] is not. *)
Lemma tree_parser_total_witness :
  (parse_tree_config sample_text = Ok sample ∧ tree_ok sample_root) ∧
  parse_tree_config "n rf=1 endpoint=e" = Err "node 'n': missing listen= field".
Proof.
  split; [|by vm_compute]. split; [exact sample_parses|].
  destruct (tree_parser_total sample_text) as (_ & _ & Hok). apply (Hok sample sample_parses).
Defined.

(** ** Validation *)

(** The rules for a tree.  Two nodes are on one machine when the hosts of their
    endpoints are the same text. *)
Record follows_rules (fs : Paths) (t : TreeConfig) (node_name : option string) : Prop := {
  fr_names : NoDup (collect_node_names (root t));
  fr_node name : node_name = Some name → name ∈ collect_node_names (root t);
  fr_compression c : compression (directives t) = Some c → known_compression c = true;
  fr_s3 : NoDup (fst <$> collect_s3_shards (root t));
  fr_devices host : NoDup (fst <$> flat_map raw_paths (on_machine host (collect_nodes (root t))));
  fr_mounts host : NoDup (fst <$> flat_map fs_roots (on_machine host (collect_nodes (root t))));
  fr_shards n s : n ∈ collect_nodes (root t) → s ∈ tn_shards n → shard_usable fs s;
}.

(** References resolve. *)
Lemma refs_resolve n x s name :
  tree_ok n → x ∈ collect_nodes n → s ∈ tn_shards x → node_ref s = Some name → name ∈ collect_node_names n.
Proof.
  intros Hok Hx Hs Hr. pose proof (no_refs x (Hok x Hx)) as Hrefs.
  assert (name ∈ omap node_ref (tn_shards x)) as Hin by (apply list_elem_of_omap; by exists s).
  rewrite Hrefs in Hin. apply list_elem_of_fmap in Hin as (k & -> & Hk). apply list_elem_of_fmap. exists k. split; [done|].
  eapply collect_trans; [done|]. eapply collect_child; [done|apply collect_root].
Qed.

Lemma silent_nodes fs t :
  tree_ok (root t) →
  silent (validate_node fs t (collect_node_names (root t)) (root t)) ↔
  ∀ n s, n ∈ collect_nodes (root t) → s ∈ tn_shards n → shard_usable fs s.
Proof.
  intros Hok. rewrite /validate_node silent_flat.
  assert (∀ n i s, n ∈ collect_nodes (root t) → tn_shards n !! i = Some s →
    silent (validate_shard fs t (collect_node_names (root t)) n i s) ↔ shard_usable fs s) as Hshard.
  { intros n i s Hn Hs. apply list_elem_of_lookup_2 in Hs. apply silent_shard.
    - pose proof (no_shards n (Hok n Hn)) as Hall. rewrite Forall_forall in Hall. by apply Hall.
    - intros name. by eapply refs_resolve. }
  split.
  - intros Hv n s Hn Hs. apply list_elem_of_lookup_1 in Hs as [i Hs]. apply (Hshard n i s Hn Hs).
    specialize (Hv n Hn). rewrite /validate_one !silent_app silent_imap in Hv. by apply Hv.
  - intros Hv n Hn. rewrite /validate_one !silent_app silent_imap. split_and!; [by apply silent_other..|].
    intros i s Hs. apply (Hshard n i s Hn Hs). eapply Hv; [done|]. by eapply list_elem_of_lookup_2.
Qed.

Lemma silent_option {A} (o : option A) (b : A → bool) msg :
  silent match o with Some x => diag_if (b x) DError (msg x) | None => [] end ↔ ∀ x, o = Some x → b x = false.
Proof. destruct o as [x|]; [|split; [done|constructor]]. rewrite silent_if. split; [by intros Hb _ [= <-]|auto]. Qed.

Lemma same_name (l : list TreeNode) m n : NoDup (tn_name <$> l) → m ∈ l → n ∈ l → tn_name m = tn_name n → m = n.
Proof.
  intros Hnd [i Hi]%list_elem_of_lookup_1 [j Hj]%list_elem_of_lookup_1 Hmn.
  assert (i = j) as ->; [|congruence]. eapply NoDup_lookup; [exact Hnd|..]; rewrite list_lookup_fmap; [by rewrite Hi|].
  by rewrite Hj Hmn.
Qed.

(** The rules, with the nodes of one host for the code. *)
Lemma silent_tree `{HashMapOrderLaws} fs t node_name :
  tree_ok (root t) →
  silent (validate_tree_config fs t node_name) ↔
  NoDup (collect_node_names (root t)) ∧
  (∀ name, node_name = Some name → name ∈ collect_node_names (root t)) ∧
  (∀ c, compression (directives t) = Some c → known_compression c = true) ∧
  NoDup (fst <$> collect_s3_shards (root t)) ∧
  (∀ host, NoDup (fst <$> flat_map raw_paths (on_host host (collect_nodes (root t)))) ∧
           NoDup (fst <$> flat_map fs_roots (on_host host (collect_nodes (root t))))) ∧
  ∀ n s, n ∈ collect_nodes (root t) → s ∈ tn_shards n → shard_usable fs s.
Proof.
  intros Hok. rewrite /validate_tree_config !silent_app silent_distinct // silent_option silent_option.
  rewrite silent_distinct; [|by intros [[]]]. rewrite silent_hosts silent_nodes //. setoid_rewrite silent_host.
  rewrite list_fmap_id. setoid_rewrite negb_false_iff.
  assert (∀ name, bool_decide (find_node t name = None) = false ↔ name ∈ collect_node_names (root t)) as Hname.
  { intros name. rewrite bool_decide_eq_false /find_node find_first first_named_none. split; [apply dec_stable|auto]. }
  setoid_rewrite Hname. split; [by intros (? & ? & ? & ? & ? & ? & _)|].
  intros (? & ? & ? & ? & ? & ?). split_and!; [done..|by repeat constructor].
Qed.

Lemma silent_follows `{HashMapOrderLaws} fs t node_name :
  tree_ok (root t) → silent (validate_tree_config fs t node_name) → follows_rules fs t node_name.
Proof.
  intros Hok (H1 & H2 & H3 & H4 & H5 & H6)%silent_tree; [|done].
  split; [done|done|done|done| | |done]; intros host;
    destruct (on_machine_together host (collect_nodes (root t))) as [group Hg]; eapply sublist_paths; [exact Hg|apply H5|exact Hg|apply H5].
Qed.

Lemma follows_silent `{HashMapOrderLaws} fs t node_name :
  tree_ok (root t) → (∀ n, n ∈ collect_nodes (root t) → ipv6_literal (authority_of (endpoint n)) = false) →
  follows_rules fs t node_name → silent (validate_tree_config fs t node_name).
Proof.
  intros Hok Hv6 [H1 H2 H3 H4 H5 H6 H7]. apply silent_tree; [done|]. split_and!; [done..| |done].
  intros host. rewrite -on_machine_host //.
Qed.

(** Machines whose IPv6 addresses begin alike are one host for the code. *)
Definition v6_leaf : TreeNode :=
  mkNode "leaf" "0.0.0.0:9000" "http://[fe80::2]:9000" 1 None false [TFs "/srv/data" false] [].

Definition v6_root : TreeNode :=
  mkNode "stem" "0.0.0.0:9000" "http://[fe80::1]:9000" 1 None false [TFs "/srv/data" false; TNode "leaf"] [v6_leaf].

Definition v6_text : string := text_of [
  "cluster store";
  "stem rf=1 listen=0.0.0.0:9000 endpoint=http://[fe80::1]:9000";
  "    fs /srv/data";
  "    leaf rf=1 listen=0.0.0.0:9000 endpoint=http://[fe80::2]:9000";
  "        fs /srv/data"].

Definition v6_tree : TreeConfig := mkTree (set_cluster_name "store" no_directives) v6_root.

Lemma v6_apart host :
  on_machine host (collect_nodes v6_root) = [] ∨ on_machine host (collect_nodes v6_root) = [v6_root] ∨
  on_machine host (collect_nodes v6_root) = [v6_leaf].
Proof.
  rewrite /on_machine. change (collect_nodes v6_root) with [v6_root; v6_leaf]. rewrite !filter_cons filter_nil.
  repeat case_decide; auto. subst. by vm_compute in *.
Qed.

Lemma v6_usable n s : n ∈ collect_nodes v6_root → s ∈ tn_shards n → shard_usable sample_paths s.
Proof.
  intros Hn Hs. assert (s = TFs "/srv/data" false ∨ s = TNode "leaf") as [-> | ->]; [|by vm_compute|exact I].
  assert (Forall (λ n, Forall (λ s, s = TFs "/srv/data" false ∨ s = TNode "leaf") (tn_shards n)) (collect_nodes v6_root)) as Hall.
  { repeat first [left; reflexivity|right; reflexivity|constructor]. }
  rewrite Forall_forall in Hall. specialize (Hall n Hn). rewrite Forall_forall in Hall. exact (Hall s Hs).
Qed.

Lemma ipv6_hosts_merge `{HashMapOrderLaws} :
  parse_tree_config v6_text = Ok v6_tree ∧
  host_of (endpoint v6_leaf) ≠ host_of (endpoint v6_root) ∧
  endpoint_hostname (endpoint v6_leaf) = endpoint_hostname (endpoint v6_root) ∧
  follows_rules sample_paths v6_tree None ∧ ¬ silent (validate_tree_config sample_paths v6_tree None).
Proof.
  assert (parse_tree_config v6_text = Ok v6_tree) as Hparse by by vm_compute.
  split_and!; [exact Hparse|by vm_compute|by vm_compute| |].
  - split.
    + apply (bool_decide_unpack _). by vm_compute.
    + intros name Hname. discriminate Hname.
    + intros c Hc. discriminate Hc.
    + constructor.
    + intros host. destruct (v6_apart host) as [Hn | [Hn | Hn]]; rewrite Hn; apply (bool_decide_unpack _); by vm_compute.
    + intros host. destruct (v6_apart host) as [Hn | [Hn | Hn]]; rewrite Hn; apply (bool_decide_unpack _); by vm_compute.
    + apply v6_usable.
  - intros (_ & _ & _ & _ & Hhost & _)%silent_tree; [|by eapply parsed_tree].
    destruct (Hhost "[fe80") as [_ Hmounts]. revert Hmounts. apply (bool_decide_unpack _). by vm_compute.
Qed.

(** C23: What the validation of a parsed configuration tells.  A tree without a
    reported error follows the rules of [follows_rules]: node names are unique,
    the node asked for exists, the compression names are known, no two S3
    shards share an endpoint and a bucket, no two raw shards and no two fs
    shards of nodes whose endpoints have one host share a device or a root, the
    parent directory of every raw shard exists and every fs root is a
    directory.  Conversely a tree that follows them has no error reported,
    where no endpoint has an IPv6 address for its host: the code takes such an
    address up to its first colon only, and may report two machines for one.
    The other checks ([listen] without a port, a missing device without a size)
    only warn.  In a tree without error a name belongs to one node, and
    [find_node], which takes the first node of the name from the root down,
    finds that node. *)
Theorem validation_exact `{HashMapOrderLaws} (text : string) (t : TreeConfig) (fs : Paths) (node_name : option string) :
  parse_tree_config text = Ok t →
  (silent (validate_tree_config fs t node_name) → follows_rules fs t node_name) ∧
  ((∀ n, n ∈ collect_nodes (root t) → ipv6_literal (authority_of (endpoint n)) = false) →
   follows_rules fs t node_name → silent (validate_tree_config fs t node_name)) ∧
  (∀ name, find_node t name = first_named name (collect_nodes (root t))) ∧
  (silent (validate_tree_config fs t node_name) → ∀ n, n ∈ collect_nodes (root t) → find_node t (tn_name n) = Some n).
Proof.
  intros [Hok _]%parsed_tree. split_and!; [by apply silent_follows|by apply follows_silent|intros name; apply find_first|].
  intros [Hnd _]%silent_tree n Hn; [|done]. rewrite /find_node find_first.
  destruct (first_named (tn_name n) _) as [m|] eqn:Hm.
  - apply first_named_some in Hm as [Hm Hmn]. f_equal. eapply same_name; [exact Hnd|done..].
  - apply first_named_none in Hm. destruct Hm. apply list_elem_of_fmap. by exists n.
Qed.

(** The sample configuration follows the rules with its leaf as the node asked
    for; a node that it does not have is an error. *)
Lemma validation_exact_witness :
  parse_tree_config sample_text = Ok sample ∧ follows_rules sample_paths sample (Some "leaf") ∧
  find_node sample "leaf" = Some sample_leaf ∧
  (∀ n, n ∈ collect_nodes (root sample) → ipv6_literal (authority_of (endpoint n)) = false) ∧
  ¬ follows_rules sample_paths sample (Some "stem").
Proof.
  destruct (validation_exact sample_text sample sample_paths (Some "leaf") sample_parses) as (Hrules & _ & _ & Hfind).
  assert (silent (validate_tree_config sample_paths sample (Some "leaf"))) as Hs.
  { apply (bool_decide_unpack _). by vm_compute. }
  split_and!; [exact sample_parses|by apply Hrules|apply (Hfind Hs sample_leaf); by right; left| |].
  - apply Forall_forall, (bool_decide_unpack _). by vm_compute.
  - intros Hv. pose proof (fr_node _ _ _ Hv "stem" eq_refl) as Hin. revert Hin. apply (bool_decide_unpack _). by vm_compute.
Defined.
