(* ===== verification/ClusterConf.v ===== *)
(** * The cluster configuration of the library ([shardedobjstr/src/config.rs])

    The flat format ([shard] lines), the tree format that the library and the
    command-line tool read from the daemon's files, the choice between them,
    and the validation of a flat configuration. *)

From S2P Require Import Prelude.
From S2P Require Import Config.
From S2P Require Import Tlv.
From S2P Require Import Text.

(** ** Data *)

Inductive ShardConf : Type :=
| CRaw (path : string) (read_only : bool) (compression : option string) (direct_io : option bool) (size_mb : option Z)
| CFs (root : string) (read_only : bool)
| CS3 (endpoint bucket : string) (region access_key secret_key : option string) (path_style : bool)
| CMem
| CNode (name : string).

Definition type_name (s : ShardConf) : string :=
  match s with CRaw _ _ _ _ _ => "raw" | CFs _ _ => "fs" | CS3 _ _ _ _ _ _ => "s3" | CMem => "mem" | CNode _ => "node" end.

#[warnings="-register-all"]
Inductive TreeNode : Type := mkTreeNode {
  nd_name : string;
  nd_rf : Z;
  nd_min_writes : option Z;
  nd_shards : list ShardConf;
  nd_children : list TreeNode;
}.

(** [TreeNode::find_node] *)
Fixpoint find_node (self : TreeNode) (name : string) : option TreeNode :=
  if decide (nd_name self = name) then Some self
  else
    (fix find_in (l : list TreeNode) : option TreeNode :=
       match l with
       | [] => None
       | child :: l' => match find_node child name with Some found => Some found | None => find_in l' end
       end) (nd_children self).

(** The fields of a [TreeConf] that directives set. *)
Record TreeDirectives : Type := mkTreeDirectives {
  tc_cluster_name : string;
  tc_catalog : option string;
  tc_read_prefer : option string;
  tc_compression : option string;
  tc_direct_io : bool;
  tc_size_mb : option Z;
  tc_read_only : bool;
}.

Record TreeConf : Type := mkTreeConf { tc_directives : TreeDirectives; tc_root : TreeNode }.

Record ClusterConf : Type := mkClusterConf {
  cc_replicas : Z;
  cc_min_writes : option Z;
  cc_catalog : option string;
  cc_read_prefer : option string;
  cc_direct_io : bool;
  cc_compression : option string;
  cc_size_mb : option Z;
  cc_read_only : bool;
  cc_delete_requires_min_writes : bool;
  cc_shards : list ShardConf;
}.

Abbreviation ConfRes := (Res string).

(** [format!("line {}: {}")] *)
Definition at_line (line : nat) (msg : string) : string := "line " +:+ pretty line +:+ ": " +:+ msg.

(** ** Tokens *)

Definition tokenize (line : string) : ConfRes (list string) :=
  match tokens_from 0 None "" line with
  | (Some _, _) => Err ("unterminated quote in: " +:+ line)
  | (None, tokens) => Ok tokens
  end.

(** [tokens.get(1)] of the tokens after the key. *)
Definition require_value (args : list string) (key : string) (line : nat) : ConfRes string :=
  match args with v :: _ => Ok v | [] => Err (at_line line (quoted key +:+ " requires a value")) end.

(** [val.parse()], with the message of its failure. *)
Definition number_or (error val : string) : ConfRes Z := ok_or (parse_uint u64_max val) error.

(** ** Shards *)

(** Read-only, compression, O_DIRECT, size. *)
Definition RawOpts : Type := bool * option string * option bool * option Z.

Definition raw_opt (line : nat) (o : RawOpts) (tok : string) : ConfRes RawOpts :=
  let '(read_only, compression, direct_io, size_mb) := o in
  if mem_str tok ["readonly"; "read_only"; "read-only"] then Ok (true, compression, direct_io, size_mb)
  else if mem_str tok ["direct_io"; "direct-io"] then Ok (read_only, compression, Some true, size_mb)
  else match strip_prefix "compression=" tok with
  | Some val => Ok (read_only, Some val, direct_io, size_mb)
  | None =>
  match strip_either "size_mb=" "size-mb=" tok with
  | Some val =>
    n ← number_or (at_line line ("invalid size_mb " +:+ quoted val)) val; Ok (read_only, compression, direct_io, Some n)
  | None =>
  match strip_either "direct_io=" "direct-io=" tok with
  | Some val => Ok (read_only, compression, Some (is_true val), size_mb)
  | None => Err (at_line line ("unknown raw shard option " +:+ quoted tok))
  end end end.

Definition parse_raw_shard (tokens : list string) (line : nat) : ConfRes ShardConf :=
  match tokens with
  | [] => Err (at_line line "raw shard missing path")
  | first :: options =>
    o ← try_fold (raw_opt line) (false, None, None, None) options;
    let '(read_only, compression, direct_io, size_mb) := o in
    Ok (CRaw (default first (strip_prefix "path=" first)) read_only compression direct_io size_mb)
  end.

Definition parse_fs_shard (tokens : list string) (line : nat) : ConfRes ShardConf :=
  match tokens with
  | [] => Err (at_line line "fs shard missing root path")
  | first :: options =>
    read_only ← try_fold (λ _ tok,
      if mem_str tok ["readonly"; "read_only"; "read-only"] then Ok true
      else Err (at_line line ("unknown fs shard option " +:+ quoted tok))) false options;
    Ok (CFs (default first (strip_prefix "root=" first)) read_only)
  end.

Record S3Opts : Type := mkS3Opts {
  so_endpoint : string;
  so_bucket : string;
  so_region : option string;
  so_access_key : option string;
  so_secret_key : option string;
  so_path_style : bool;
}.

Definition s3_opt (line : nat) (o : S3Opts) (tok : string) : ConfRes S3Opts :=
  let '(mkS3Opts endpoint bucket region access_key secret_key path_style) := o in
  match strip_prefix "endpoint=" tok with
  | Some val => Ok (mkS3Opts val bucket region access_key secret_key path_style)
  | None =>
  match strip_prefix "bucket=" tok with
  | Some val => Ok (mkS3Opts endpoint val region access_key secret_key path_style)
  | None =>
  match strip_prefix "region=" tok with
  | Some val => Ok (mkS3Opts endpoint bucket (Some val) access_key secret_key path_style)
  | None =>
  match strip_prefix "access_key=" tok with
  | Some val => Ok (mkS3Opts endpoint bucket region (Some val) secret_key path_style)
  | None =>
  match strip_prefix "secret_key=" tok with
  | Some val => Ok (mkS3Opts endpoint bucket region access_key (Some val) path_style)
  | None =>
    if mem_str tok ["path_style"; "path_style=true"] then Ok (mkS3Opts endpoint bucket region access_key secret_key true)
    else Err (at_line line ("unknown s3 shard option " +:+ quoted tok))
  end end end end end.

Definition parse_s3_shard (tokens : list string) (line : nat) : ConfRes ShardConf :=
  o ← try_fold (s3_opt line) (mkS3Opts "" "" None None None false) tokens;
  if decide (so_endpoint o = "") then Err (at_line line "s3 shard missing endpoint=")
  else if decide (so_bucket o = "") then Err (at_line line "s3 shard missing bucket=")
  else Ok (CS3 (so_endpoint o) (so_bucket o) (so_region o) (so_access_key o) (so_secret_key o) (so_path_style o)).

Definition parse_shard_tokens (tokens : list string) (line : nat) : ConfRes ShardConf :=
  match tokens with
  | [] => Err (at_line line "shard line has no type or path")
  | type :: rest =>
    if decide (type = "raw") then parse_raw_shard rest line
    else if decide (type = "fs") then parse_fs_shard rest line
    else if decide (type = "s3") then parse_s3_shard rest line
    else if decide (type = "mem") then Ok CMem
    else parse_raw_shard tokens line
  end.

(** ** The flat format *)

Definition DAEMON_DIRECTIVES : list string :=
  ["cluster"; "bucket"; "flush_interval"; "admin_token"; "access_key"; "secret_key"; "cors_origin"; "log_file";
   "log_buffer_size"; "event_socket"; "event_secret"; "max_readers"; "event_source"; "catalog_path"; "catalog_format";
   "catalog_flush_interval"].

Definition default_conf : ClusterConf := mkClusterConf 1 None None None false None None false false [].

Definition read_prefer_known (val : string) : bool := mem_str val ["round-robin"; "ordered"].
Definition read_prefer_error (val : string) : string :=
  "unknown read_prefer " +:+ quoted val +:+ " (expected round-robin or ordered)".

(** The [match] on the first token of a line that is not indented. *)
Definition conf_directive (c : ClusterConf) (line : nat) (trimmed key : string) (args : list string) : ConfRes ClusterConf :=
  let '(mkClusterConf replicas min_writes catalog read_prefer direct_io compression size_mb read_only del shards) := c in
  let switch := is_true (default "true" (head args)) in
  if decide (key = "replicas") then
    val ← require_value args key line;
    n ← number_or (at_line line ("invalid replicas " +:+ quoted val)) val;
    if decide (n = 0) then Err (at_line line "replicas must be >= 1")
    else Ok (mkClusterConf n min_writes catalog read_prefer direct_io compression size_mb read_only del shards)
  else if decide (key = "min_writes") then
    val ← require_value args key line;
    n ← number_or (at_line line ("invalid min_writes " +:+ quoted val)) val;
    if decide (n = 0) then Err (at_line line "min_writes must be >= 1")
    else Ok (mkClusterConf replicas (Some n) catalog read_prefer direct_io compression size_mb read_only del shards)
  else if decide (key = "catalog") then
    val ← require_value args key line;
    Ok (mkClusterConf replicas min_writes (Some val) read_prefer direct_io compression size_mb read_only del shards)
  else if decide (key = "read_prefer") then
    val ← require_value args key line;
    if read_prefer_known val
    then Ok (mkClusterConf replicas min_writes catalog (Some val) direct_io compression size_mb read_only del shards)
    else Err (at_line line (read_prefer_error val))
  else if decide (key = "direct_io") then
    Ok (mkClusterConf replicas min_writes catalog read_prefer switch compression size_mb read_only del shards)
  else if decide (key = "compression") then
    val ← require_value args key line;
    Ok (mkClusterConf replicas min_writes catalog read_prefer direct_io (Some val) size_mb read_only del shards)
  else if decide (key = "size_mb") then
    val ← require_value args key line;
    n ← number_or (at_line line ("invalid size_mb " +:+ quoted val)) val;
    Ok (mkClusterConf replicas min_writes catalog read_prefer direct_io compression (Some n) read_only del shards)
  else if decide (key = "read_only") then
    Ok (mkClusterConf replicas min_writes catalog read_prefer direct_io compression size_mb switch del shards)
  else if decide (key = "delete_requires_min_writes") then
    Ok (mkClusterConf replicas min_writes catalog read_prefer direct_io compression size_mb read_only switch shards)
  else if decide (key = "shard") then
    shard ← parse_shard_tokens args line;
    Ok (mkClusterConf replicas min_writes catalog read_prefer direct_io compression size_mb read_only del (shards ++ [shard]))
  else if mem_str key DAEMON_DIRECTIVES then Ok c
  else if starts_with "recovery_" key || starts_with "repair_replication_" key then Ok c
  else if str_contains "rf=" trimmed then Ok c
  else Err (at_line line ("unknown directive " +:+ quoted key +:+
    " (expected replicas, min_writes, catalog, read_prefer, direct_io, compression, size_mb, read_only, or shard)")).

Definition conf_line (c : ClusterConf) (item : nat * string) : ConfRes ClusterConf :=
  let '(line_num, raw_line) := item in
  let trimmed := trim raw_line in
  if is_comment trimmed then Ok c
  else if (0 <? indent_of raw_line)%nat then Ok c
  else
    let line := S line_num in
    tokens ← map_err (at_line line) (tokenize trimmed);
    match tokens with
    | [] => Ok c
    | key :: args => conf_directive c line trimmed key args
    end.

Definition parse_cluster_conf (text : string) : ConfRes ClusterConf :=
  c ← try_fold conf_line default_conf (imap pair (lines text));
  if decide (cc_shards c = []) then Err "no shards defined"
  else
    match cc_min_writes c with
    | Some mw =>
      if cc_replicas c <? mw
      then Err ("min_writes (" +:+ pretty mw +:+ ") must be <= replicas (" +:+ pretty (cc_replicas c) +:+ ")")
      else Ok c
    | None => Ok c
    end.

(** ** The tree format *)

Definition TREE_DAEMON_DIRECTIVES : list string :=
  ["bucket"; "flush_interval"; "admin_token"; "access_key"; "secret_key"; "cors_origin"; "log_file";
   "log_buffer_size"; "event_socket"; "event_secret"; "max_readers"; "event_source"; "catalog_path"; "catalog_format";
   "catalog_flush_interval"].

Definition is_tree_node_line (line : string) : bool :=
  negb (mem_str (first_word line) ["raw"; "fs"; "s3"; "mem"; "shard"]) && str_contains "rf=" line.

(** One field of a node line: the replication factor and [min_writes]. *)
Definition tree_node_part (name : string) (acc : Z * option Z) (part : string) : ConfRes (Z * option Z) :=
  let '(rf, mw) := acc in
  let error msg := "node " +:+ quoted name +:+ ": " +:+ msg in
  match strip_prefix "rf=" part with
  | Some val =>
    n ← number_or (error ("invalid rf value: " +:+ val)) val;
    if decide (n = 0) then Err (error "rf must be >= 1") else Ok (n, mw)
  | None =>
  match strip_prefix "min_writes=" part with
  | Some val =>
    n ← number_or (error ("invalid min_writes value: " +:+ val)) val;
    if decide (n = 0) then Err (error "min_writes must be >= 1") else Ok (rf, Some n)
  | None => Ok acc
  end end.

Definition parse_tree_node_line (line : string) : ConfRes (string * Z * option Z) :=
  parts ← tokenize line;
  match parts with
  | [] => Err "empty node line"
  | name :: fields =>
    r ← try_fold (tree_node_part name) (1, None) fields;
    let '(rf, mw) := r in
    match mw with
    | Some v =>
      if rf <? v
      then Err ("node " +:+ quoted name +:+ ": min_writes (" +:+ pretty v +:+ ") must be <= rf (" +:+ pretty rf +:+ ")")
      else Ok (name, rf, mw)
    | None => Ok (name, rf, mw)
    end
  end.

Definition parse_tree_shard_line (line : string) : ConfRes ShardConf :=
  parts ← tokenize line;
  match parts with
  | [] => Err "empty shard line"
  | type :: rest =>
    if decide (type = "raw") then parse_raw_shard rest 0
    else if decide (type = "fs") then parse_fs_shard rest 0
    else if decide (type = "s3") then parse_s3_shard rest 0
    else if decide (type = "mem") then Ok CMem
    else if starts_with "/" type || str_contains "." type then parse_raw_shard parts 0
    else Err ("unknown shard type: " +:+ quoted type +:+ " (expected raw, fs, s3, mem)")
  end.

(** The lines that follow stand for [*pos]; [Panic] is the end of the fuel. *)
Fixpoint parse_tree_node_block (fuel : nat) (lines : list (nat * string)) : ConfRes (TreeNode * list (nat * string)) :=
  match fuel with
  | O => Panic
  | S fuel' =>
    match lines with
    | [] => Err "unexpected end of config"
    | (node_indent, node_line) :: lines' =>
      header ← parse_tree_node_line node_line;
      let '(name, rf, mw) := header in
      body ← parse_tree_body fuel' node_indent lines';
      let '(shards, kids, rest) := body in
      Ok (mkTreeNode name rf mw shards kids, rest)
    end
  end
with parse_tree_body (fuel : nat) (node_indent : nat) (lines : list (nat * string)) :
    ConfRes (list ShardConf * list TreeNode * list (nat * string)) :=
  match fuel with
  | O => Panic
  | S fuel' =>
    match lines with
    | [] => Ok ([], [], [])
    | (indent, line) :: lines' =>
      if decide (indent <= node_indent)%nat then Ok ([], [], lines)
      else if is_tree_node_line line then
        block ← parse_tree_node_block fuel' lines;
        let '(child, rest) := block in
        body ← parse_tree_body fuel' node_indent rest;
        let '(shards, kids, rest) := body in
        Ok (CNode (nd_name child) :: shards, child :: kids, rest)
      else
        shard ← parse_tree_shard_line line;
        body ← parse_tree_body fuel' node_indent lines';
        let '(shards, kids, rest) := body in
        Ok (shard :: shards, kids, rest)
    end
  end.

Definition tree_fuel (lines : list (nat * string)) : nat := S (2 * length lines).

Definition no_tree_directives : TreeDirectives := mkTreeDirectives "" None None None false None false.

(** The [match] on a directive's key; [None] for a line that must be a node's. *)
Definition tree_directive (d : TreeDirectives) (key : string) (val : option string) : option (ConfRes TreeDirectives) :=
  let '(mkTreeDirectives cluster_name catalog read_prefer compression direct_io size_mb read_only) := d in
  let switch := match val with Some v => is_true v | None => true end in
  if decide (key = "cluster") then
    Some (Ok (mkTreeDirectives (default "" val) catalog read_prefer compression direct_io size_mb read_only))
  else if decide (key = "catalog") then
    Some (Ok (mkTreeDirectives cluster_name val read_prefer compression direct_io size_mb read_only))
  else if decide (key = "read_prefer") then
    Some match val with
         | Some v =>
           if read_prefer_known v
           then Ok (mkTreeDirectives cluster_name catalog (Some v) compression direct_io size_mb read_only)
           else Err (read_prefer_error v)
         | None => Ok d
         end
  else if decide (key = "replicas") then Some (Ok d)
  else if decide (key = "compression") then
    Some (Ok (mkTreeDirectives cluster_name catalog read_prefer val direct_io size_mb read_only))
  else if decide (key = "direct_io") then
    Some (Ok (mkTreeDirectives cluster_name catalog read_prefer compression switch size_mb read_only))
  else if decide (key = "size_mb") then
    Some match val with
         | Some v =>
           n ← number_or ("invalid size_mb: " +:+ v) v;
           Ok (mkTreeDirectives cluster_name catalog read_prefer compression direct_io (Some n) read_only)
         | None => Ok d
         end
  else if decide (key = "read_only") then
    Some (Ok (mkTreeDirectives cluster_name catalog read_prefer compression direct_io size_mb switch))
  else if mem_str key TREE_DAEMON_DIRECTIVES then Some (Ok d)
  else if starts_with "recovery_" key || starts_with "repair_replication_" key then Some (Ok d)
  else None.

Definition tree_line (acc : TreeDirectives * list (nat * string)) (item : nat * string) :
    ConfRes (TreeDirectives * list (nat * string)) :=
  let '(d, remaining) := acc in
  let '(indent, line) := item in
  if decide (indent = O) then
    let '(key, rest) := cut_ws line in
    match tree_directive d key (trim <$> rest) with
    | Some r => d ← r; Ok (d, remaining)
    | None => Ok (d, remaining ++ [item])
    end
  else Ok (d, remaining ++ [item]).

Definition set_name (name : string) (d : TreeDirectives) : TreeDirectives :=
  mkTreeDirectives name (tc_catalog d) (tc_read_prefer d) (tc_compression d) (tc_direct_io d) (tc_size_mb d) (tc_read_only d).

Definition parse_tree_conf (text : string) : ConfRes TreeConf :=
  sorted ← try_fold tree_line (no_tree_directives, []) (indented_lines text);
  let '(d, remaining) := sorted in
  if decide (remaining = []) then Err "no nodes defined in tree config"
  else
    block ← parse_tree_node_block (tree_fuel remaining) remaining;
    let root := fst block in
    Ok (mkTreeConf (if decide (tc_cluster_name d = "") then set_name (nd_name root) d else d) root).

(** ** Files *)

Definition is_tree_config (text : string) : bool :=
  existsb (λ raw_line,
    let trimmed := trim raw_line in
    negb (is_comment trimmed) && (indent_of raw_line =? 0)%nat && is_tree_node_line trimmed) (lines text).

(** A flat configuration as a tree of one node. *)
Definition flat_tree (flat : ClusterConf) : TreeConf :=
  mkTreeConf
    (mkTreeDirectives "" (cc_catalog flat) (cc_read_prefer flat) (cc_compression flat) (cc_direct_io flat) (cc_size_mb flat)
       (cc_read_only flat))
    (mkTreeNode "root" (cc_replicas flat) (cc_min_writes flat) (cc_shards flat) []).

(** [read_to_string]: the text, or the error. *)
Definition read_file (path : string) (file : string + string) : ConfRes string :=
  match file with inr text => Ok text | inl e => Err ("failed to read " +:+ quoted path +:+ ": " +:+ e) end.

Definition load_cluster_conf (path : string) (file : string + string) : ConfRes ClusterConf :=
  text ← read_file path file; parse_cluster_conf text.

Definition load_tree_conf (path : string) (file : string + string) : ConfRes TreeConf :=
  text ← read_file path file; parse_tree_conf text.

Definition load_auto_conf (path : string) (file : string + string) : ConfRes TreeConf :=
  text ← read_file path file;
  if is_tree_config text then parse_tree_conf text
  else flat ← parse_cluster_conf text; Ok (flat_tree flat).

(** ** Validation *)

Inductive ClusterDiagLevel : Type := CError | CWarning | CInfo.

#[export] Instance ClusterDiagLevel_eq_dec : EqDecision ClusterDiagLevel.
Proof. solve_decision. Defined.

Definition cluster_level_name (l : ClusterDiagLevel) : string :=
  match l with CError => "ERROR" | CWarning => "WARN" | CInfo => "INFO" end.

Record ClusterDiag : Type := mkClusterDiag { cd_level : ClusterDiagLevel; cd_message : string }.

Definition cluster_diag_if (b : bool) (level : ClusterDiagLevel) (msg : string) : list ClusterDiag :=
  if b then [mkClusterDiag level msg] else [].

Definition unknown_compression (comp : string) : bool := match from_str_name comp with Ok _ => false | _ => true end.

Definition shard_diags (fs : Paths) (conf : ClusterConf) (i : nat) (shard : ShardConf) : list ClusterDiag :=
  let at_shard msg := "shard " +:+ pretty i +:+ " (" +:+ type_name shard +:+ "): " +:+ msg in
  match shard with
  | CRaw path _ comp _ size =>
    (if exists_at fs path then []
     else if bool_decide (is_Some size ∨ is_Some (cc_size_mb conf))
     then [mkClusterDiag CInfo (at_shard (quoted path +:+ " does not exist (will be formatted)"))]
     else [mkClusterDiag CWarning (at_shard (quoted path +:+ " does not exist and no size_mb set"))]) ++
    match path_parent path with
    | Some parent =>
      cluster_diag_if (bool_decide (parent ≠ "") && negb (exists_at fs parent)) CError
        (at_shard ("parent directory " +:+ quoted parent +:+ " does not exist"))
    | None => []
    end ++
    match comp with
    | Some comp => cluster_diag_if (unknown_compression comp) CError (at_shard ("unknown compression " +:+ quoted comp))
    | None => []
    end
  | CFs root _ =>
    cluster_diag_if (negb (exists_at fs root)) CWarning (at_shard ("directory " +:+ quoted root +:+ " does not exist"))
  | CS3 endpoint bucket _ _ _ _ =>
    cluster_diag_if (bool_decide (endpoint = "")) CError (at_shard "empty endpoint") ++
    cluster_diag_if (bool_decide (bucket = "")) CError (at_shard "empty bucket")
  | CMem => []
  | CNode _ => []
  end.

Definition validate_cluster_conf (fs : Paths) (conf : ClusterConf) : list ClusterDiag :=
  let n := length (cc_shards conf) in
  cluster_diag_if (Z.of_nat n <? cc_replicas conf) CWarning
    ("replicas (" +:+ pretty (cc_replicas conf) +:+ ") exceeds shard count (" +:+ pretty n +:+ ") -- will be clamped") ++
  match cc_compression conf with
  | Some comp => cluster_diag_if (unknown_compression comp) CError ("unknown global compression " +:+ quoted comp)
  | None => []
  end ++
  concat (imap (shard_diags fs conf) (cc_shards conf)) ++
  [mkClusterDiag CInfo
     (pretty n +:+ " shard(s), replicas=" +:+ pretty (cc_replicas conf) +:+ ", catalog=" +:+ default "none" (cc_catalog conf))].
