(* ===== verification/ConfGuarantees.v ===== *)
(** * The library's configuration: facts and guarantees

    Both parsers answer on every text, and what they accept is well-formed; the
    library and the daemon agree on the canonical texts of the trees they share. *)

From S2P Require Import Prelude.
From S2P Require Import Config.
From S2P Require Import Index.
From S2P Require Import Tlv.
From S2P Require Import Text.
From S2P Require Import Blocks.
From S2P Require Import TreeConfig.
From S2P Require Import TreeFacts.
From S2P Require Import TreePrint.
From S2P Require Import TreeGuarantees.
From S2P Require Import ClusterConf.

(** ** No panics *)

Lemma number_or_no_panic error val : number_or error val ≠ Panic.
Proof. rewrite /number_or /ok_or. by case_match. Qed.

Lemma tokenize_no_panic line : tokenize line ≠ Panic.
Proof. rewrite /tokenize. by repeat case_match. Qed.

Lemma require_value_no_panic args key line : require_value args key line ≠ Panic.
Proof. by destruct args. Qed.

#[local] Hint Resolve number_or_no_panic tokenize_no_panic require_value_no_panic : core.

Lemma parse_raw_shard_no_panic tokens line : parse_raw_shard tokens line ≠ Panic.
Proof.
  destruct tokens as [|first options]; [done|]. apply bind_no_panic; [|by intros [[[]]]].
  apply try_fold_no_panic. intros [[[]]] tok. rewrite /raw_opt. no_panic.
Qed.

Lemma parse_fs_shard_no_panic tokens line : parse_fs_shard tokens line ≠ Panic.
Proof. destruct tokens as [|first options]; [done|]. rewrite /parse_fs_shard. no_panic. Qed.

Lemma parse_s3_shard_no_panic tokens line : parse_s3_shard tokens line ≠ Panic.
Proof.
  rewrite /parse_s3_shard. apply bind_no_panic; [|intros o; no_panic]. apply try_fold_no_panic. intros [] tok. rewrite /s3_opt.
  no_panic.
Qed.

#[local] Hint Resolve parse_raw_shard_no_panic parse_fs_shard_no_panic parse_s3_shard_no_panic : core.

Lemma parse_shard_tokens_no_panic tokens line : parse_shard_tokens tokens line ≠ Panic.
Proof. rewrite /parse_shard_tokens. no_panic. Qed.

#[local] Hint Resolve parse_shard_tokens_no_panic : core.

Lemma conf_line_no_panic c item : conf_line c item ≠ Panic.
Proof.
  rewrite /conf_line. destruct item as [n l]. do 2 (case_match; [done|]). apply bind_no_panic.
  { rewrite /map_err. destruct (tokenize _) eqn:E; [done|done|]. by apply tokenize_no_panic in E. }
  intros [|key args]; [done|]. rewrite /conf_directive. destruct c. no_panic.
Qed.

Lemma parse_cluster_conf_no_panic text : parse_cluster_conf text ≠ Panic.
Proof.
  rewrite /parse_cluster_conf. apply bind_no_panic; [apply try_fold_no_panic, conf_line_no_panic|]. intros c. no_panic.
Qed.

Lemma parse_tree_node_line_no_panic line : parse_tree_node_line line ≠ Panic.
Proof.
  rewrite /parse_tree_node_line. apply bind_no_panic; [done|]. intros [|name fields]; [done|].
  apply bind_no_panic; [|intros []; no_panic]. apply try_fold_no_panic. intros [] part. rewrite /tree_node_part. no_panic.
Qed.

Lemma parse_tree_shard_line_no_panic line : parse_tree_shard_line line ≠ Panic.
Proof. rewrite /parse_tree_shard_line. no_panic. Qed.

Lemma tree_line_no_panic acc item : tree_line acc item ≠ Panic.
Proof.
  rewrite /tree_line. destruct acc as [d remaining], item as [indent line]. case_decide; [|done].
  destruct (cut_ws line) as [key rest]. destruct (tree_directive d key (trim <$> rest)) as [r|] eqn:Hk; [|done].
  apply bind_no_panic; [|done]. move: Hk. rewrite /tree_directive. destruct d.
  repeat (case_decide; [intros [= <-]; no_panic|]). repeat (case_match; [by intros [= <-]|]). done.
Qed.

(** ** Blocks *)

Definition build_tree_node (header : string * Z * option Z) (shards : list ShardConf) (kids : list TreeNode) : TreeNode :=
  let '(name, rf, mw) := header in mkTreeNode name rf mw shards kids.

Definition node_conf (n : TreeNode) : ShardConf := CNode (nd_name n).

Lemma tree_block_instance fuel lines :
  parse_tree_node_block fuel lines =
    parse_block parse_tree_node_line is_tree_node_line parse_tree_shard_line node_conf build_tree_node fuel lines.
Proof.
  enough ((∀ lines, parse_tree_node_block fuel lines =
      parse_block parse_tree_node_line is_tree_node_line parse_tree_shard_line node_conf build_tree_node fuel lines) ∧
    (∀ i lines, parse_tree_body fuel i lines =
      parse_block_body parse_tree_node_line is_tree_node_line parse_tree_shard_line node_conf build_tree_node fuel i lines))
    as [H _] by apply H.
  induction fuel as [|fuel [IH1 IH2]]; [done|]. split.
  - intros [|[i l] lines']; [done|]. cbn [parse_tree_node_block parse_block].
    destruct (parse_tree_node_line l) as [[[name rf] mw]|e|]; [|done..]. cbn [mbind Res_bind]. by rewrite IH2.
  - intros i [|[j l] lines']; [done|]. cbn [parse_tree_body]. case_decide as Hj; [by rewrite body_stop|]. rewrite body_step; [|lia].
    destruct (is_tree_node_line l).
    + rewrite IH1. destruct (parse_block _ _ _ _ _ _ _) as [[k r]|e|]; [|done..]. cbn [mbind Res_bind]. by rewrite IH2.
    + destruct (parse_tree_shard_line l); [|done..]. cbn [mbind Res_bind]. by rewrite IH2.
Qed.

Lemma tree_block_answers lines fuel :
  (tree_fuel lines <= fuel)%nat →
  parse_tree_node_block fuel lines = parse_tree_node_block (tree_fuel lines) lines ∧ parse_tree_node_block fuel lines ≠ Panic.
Proof.
  rewrite !tree_block_instance. apply block_answers; [apply parse_tree_node_line_no_panic|apply parse_tree_shard_line_no_panic].
Qed.

Lemma parse_tree_conf_no_panic text : parse_tree_conf text ≠ Panic.
Proof.
  rewrite /parse_tree_conf. apply bind_no_panic; [apply try_fold_no_panic, tree_line_no_panic|]. intros [d remaining].
  case_decide; [done|]. apply bind_no_panic; [|done]. by apply tree_block_answers.
Qed.

(** ** What is accepted *)

Definition number_fits (o : option Z) : Prop := ∀ n, o = Some n → 0 <= n <= u64_max.

Definition conf_shard_ok (s : ShardConf) : Prop :=
  match s with
  | CRaw _ _ _ _ size => number_fits size
  | CFs _ _ => True
  | CS3 endpoint bucket _ _ _ _ => endpoint ≠ "" ∧ bucket ≠ ""
  | CMem => True
  | CNode _ => True
  end.

Definition conf_ref (s : ShardConf) : option string := match s with CNode name => Some name | _ => None end.

Lemma number_or_ok error val n : number_or error val = Ok n → 0 <= n <= u64_max.
Proof.
  rewrite /number_or /ok_or. destruct (parse_uint u64_max val) as [m|] eqn:E; [|done]. intros [= <-]. by apply parse_uint_bound in E.
Qed.

Lemma parse_raw_shard_ok tokens line s : parse_raw_shard tokens line = Ok s → conf_shard_ok s ∧ conf_ref s = None.
Proof.
  destruct tokens as [|first options]; [done|]. intros ([[[ro comp] dio] size] & Hfold & [= <-])%bind_ok. split; [|done].
  refine (try_fold_inv (λ o : RawOpts, number_fits o.2) (raw_opt line) options _ _ _ _ Hfold); [|done].
  intros [[[ro0 comp0] dio0] size0] x acc' _ Hsize. rewrite /raw_opt.
  do 3 (case_match; [by intros [= <-]|]). case_match; [|by case_match; [intros [= <-]|]].
  intros (m & Hm & [= <-])%bind_ok n [= <-]. by apply number_or_ok in Hm.
Qed.

Lemma parse_fs_shard_ok tokens line s : parse_fs_shard tokens line = Ok s → conf_shard_ok s ∧ conf_ref s = None.
Proof. destruct tokens as [|first options]; [done|]. by intros (ro & _ & [= <-])%bind_ok. Qed.

Lemma parse_s3_shard_ok tokens line s : parse_s3_shard tokens line = Ok s → conf_shard_ok s ∧ conf_ref s = None.
Proof.
  intros (o & _ & Hr)%bind_ok. case_decide; [done|]. case_decide; [done|]. by injection Hr as <-.
Qed.

#[local] Hint Resolve parse_raw_shard_ok parse_fs_shard_ok parse_s3_shard_ok : core.

Lemma parse_shard_tokens_ok tokens line s : parse_shard_tokens tokens line = Ok s → conf_shard_ok s ∧ conf_ref s = None.
Proof.
  destruct tokens as [|type rest]; [done|]. cbn [parse_shard_tokens]. repeat (case_decide; [eauto|]); [|eauto].
  by intros [= <-].
Qed.

Lemma parse_tree_shard_line_ok line s : parse_tree_shard_line line = Ok s → conf_shard_ok s ∧ conf_ref s = None.
Proof.
  intros ([|type rest] & _ & Hr)%bind_ok; [done|]. revert Hr. do 3 (case_decide; [eauto|]). case_decide; [by intros [= <-]|].
  case_match; [eauto|done].
Qed.

Record conf_node_ok (n : TreeNode) : Prop := {
  cn_name : nd_name n ≠ "";
  cn_factor : 1 <= nd_rf n <= u64_max;
  cn_min_writes v : nd_min_writes n = Some v → 1 <= v <= nd_rf n;
  cn_refs : omap conf_ref (nd_shards n) = nd_name <$> nd_children n;
  cn_shards : Forall conf_shard_ok (nd_shards n);
}.

#[warnings="-register-all"]
Inductive conf_tree_ok : TreeNode → Prop :=
| conf_tree_node n : conf_node_ok n → Forall conf_tree_ok (nd_children n) → conf_tree_ok n.

Lemma parse_tree_node_line_ok line name rf mw :
  parse_tree_node_line line = Ok (name, rf, mw) →
  name ≠ "" ∧ 1 <= rf <= u64_max ∧ ∀ v, mw = Some v → 1 <= v <= rf.
Proof.
  intros (parts & Hparts & Hr)%bind_ok.
  assert (Forall (λ t, t ≠ "") parts) as Hne.
  { move: Hparts. rewrite /tokenize. pose proof (tokens_nonempty 0 None "" line) as Ht. destruct (tokens_from 0 None "" line) as [[q|] l]; [done|]. by intros [= <-]. }
  destruct parts as [|name' fields]; [done|]. apply Forall_cons in Hne as [Hname _].
  apply bind_ok in Hr as ([rf' mw'] & Hfold & Hr).
  assert (1 <= rf' <= u64_max ∧ ∀ v, mw' = Some v → 1 <= v) as [Hrf Hmw].
  { refine (try_fold_inv (λ acc : Z * option Z, 1 <= acc.1 <= u64_max ∧ ∀ v, acc.2 = Some v → 1 <= v) (tree_node_part name') fields _ _ _ _ Hfold);
      [|split; [cbn; u64|done]].
    intros [rf0 mw0] x [rf1 mw1] _ [H1 H2]. rewrite /tree_node_part. cbn [fst snd] in *.
    destruct (strip_prefix "rf=" x) as [val|].
    - intros (n & Hn & Hres)%bind_ok. apply number_or_ok in Hn. case_decide; [done|]. injection Hres as <- <-. split; [lia|done].
    - destruct (strip_prefix "min_writes=" x) as [val|]; [|by intros [= <- <-]]. intros (n & Hn & Hres)%bind_ok. apply number_or_ok in Hn. case_decide; [done|].
      injection Hres as <- <-. split; [done|]. intros v [= <-]. lia. }
  destruct mw' as [v|]; [|by injection Hr as <- <- <-]. case_match eqn:Hlt; [done|]. injection Hr as <- <- <-.
  split_and!; [done|lia..|]. intros v' [= <-]. specialize (Hmw v eq_refl). lia.
Qed.

Lemma tree_block_ok fuel lines n rest : parse_tree_node_block fuel lines = Ok (n, rest) → conf_tree_ok n.
Proof.
  rewrite tree_block_instance.
  apply (block_inv _ _ _ _ _ conf_tree_ok conf_shard_ok (λ shards kids, omap conf_ref shards = nd_name <$> kids)).
  - intros line s _ [Hs Hr]%parse_tree_shard_line_ok. split; [done|]. intros shards kids HR. cbn. by rewrite Hr.
  - intros k shards kids HR. cbn. by rewrite HR.
  - done.
  - done.
  - intros line [[name rf] mw] shards kids (Hn & Hf & Hm)%parse_tree_node_line_ok Hs Hk HR.
    constructor; [|done]. by split.
Qed.

Record directives_ok (d : TreeDirectives) : Prop := {
  td_read_prefer v : tc_read_prefer d = Some v → read_prefer_known v = true;
  td_size : number_fits (tc_size_mb d);
}.

Lemma tree_line_ok acc item acc' : directives_ok acc.1 → tree_line acc item = Ok acc' → directives_ok acc'.1.
Proof.
  rewrite /tree_line. destruct acc as [d remaining], item as [indent line]. cbn [fst]. intros Hd.
  case_decide; [|by intros [= <-]]. destruct (cut_ws line) as [key rest].
  destruct (tree_directive d key (trim <$> rest)) as [r|] eqn:Hk; [|by intros [= <-]].
  intros (d' & Hr & [= <-])%bind_ok. cbn [fst]. subst r. revert Hk. rewrite /tree_directive. destruct d, Hd as [H1 H2]. cbn in H1, H2.
  repeat case_decide; try (intros [= <-]; by split); try (repeat case_match; intros [= <-]; by split).
  - case_match; [|intros [= <-]; by split]. case_match eqn:Hv; [|done]. intros [= <-]. split; [|done]. by intros v [= <-].
  - case_match; [|intros [= <-]; by split]. intros [= Hn]. apply bind_ok in Hn as (n & Hn & [= <-]).
    split; [done|]. intros m [= <-]. by apply number_or_ok in Hn.
Qed.

Lemma parse_tree_conf_ok text t :
  parse_tree_conf text = Ok t → conf_tree_ok (tc_root t) ∧ directives_ok (tc_directives t).
Proof.
  intros ([d remaining] & Hfold & Hr)%bind_ok. case_decide; [done|].
  apply bind_ok in Hr as ([n rest] & Hb & [= <-]). apply tree_block_ok in Hb. split; [done|].
  assert (directives_ok d) as Hd.
  { refine (try_fold_inv (λ acc : TreeDirectives * _, directives_ok acc.1) tree_line _ _ _ _ _ Hfold); [|by split].
    intros acc x acc' _. apply tree_line_ok. }
  cbn. case_decide; [|done]. destruct Hd as [H1 H2]. by split.
Qed.

Record flat_ok (c : ClusterConf) : Prop := {
  fo_replicas : 1 <= cc_replicas c <= u64_max;
  fo_min_writes v : cc_min_writes c = Some v → 1 <= v;
  fo_read_prefer v : cc_read_prefer c = Some v → read_prefer_known v = true;
  fo_size : number_fits (cc_size_mb c);
  fo_shards : Forall (λ s, conf_shard_ok s ∧ conf_ref s = None) (cc_shards c);
}.

Lemma conf_directive_ok c line trimmed key args c' :
  flat_ok c → conf_directive c line trimmed key args = Ok c' → flat_ok c'.
Proof.
  intros [H1 H2 H3 H4 H5]. rewrite /conf_directive. destruct c. cbn in H1, H2, H3, H4, H5. case_decide.
  { intros (v & _ & (n & Hn%number_or_ok & Hr)%bind_ok)%bind_ok. case_decide; [done|]. injection Hr as <-. split; cbn; [lia|done..]. }
  case_decide.
  { intros (v & _ & (n & Hn%number_or_ok & Hr)%bind_ok)%bind_ok. case_decide; [done|]. injection Hr as <-. split; cbn; [done| |done..].
    intros w [= <-]. lia. }
  case_decide; [intros (v & _ & [= <-])%bind_ok; by split|]. case_decide.
  { intros (v & _ & Hr)%bind_ok. case_match eqn:Hv; [|done]. injection Hr as <-. split; cbn; [done|done| |done..]. by intros w [= <-]. }
  case_decide; [intros [= <-]; by split|]. case_decide; [intros (v & _ & [= <-])%bind_ok; by split|]. case_decide.
  { intros (v & _ & (n & Hn%number_or_ok & [= <-])%bind_ok)%bind_ok. split; cbn; [done..| |done]. by intros m [= <-]. }
  do 2 (case_decide; [intros [= <-]; by split|]). case_decide.
  { intros (s & Hs%parse_shard_tokens_ok & [= <-])%bind_ok. split; cbn; [done..|]. apply Forall_app. split; [done|by constructor]. }
  by repeat (case_match; [intros [= <-]|]).
Qed.

Lemma parse_cluster_conf_ok text c :
  parse_cluster_conf text = Ok c →
  flat_ok c ∧ cc_shards c ≠ [] ∧ ∀ v, cc_min_writes c = Some v → 1 <= v <= cc_replicas c.
Proof.
  intros (c' & Hfold & Hr)%bind_ok.
  assert (flat_ok c') as Hc.
  { refine (try_fold_inv flat_ok conf_line _ _ _ _ _ Hfold); [|split; cbn; [u64|done..|constructor]].
    intros acc [n l] acc' _ Hacc. rewrite /conf_line. destruct (is_comment _); [by intros [= <-]|].
    destruct (0 <? indent_of l)%nat; [by intros [= <-]|]. intros ([|key args] & _ & Hd)%bind_ok; [by injection Hd as <-|]. by eapply conf_directive_ok. }
  case_decide; [done|]. destruct (cc_min_writes c') as [v|] eqn:Hv.
  - case_match eqn:Hlt; [done|]. injection Hr as <-. split_and!; [done..|]. intros w Hw. rewrite Hv in Hw. injection Hw as <-.
    pose proof (fo_min_writes c' Hc v Hv). lia.
  - injection Hr as <-. split_and!; [done..|]. intros w Hw. by rewrite Hv in Hw.
Qed.

(** A flat configuration is a tree of one node. *)
Lemma flat_tree_ok text c : parse_cluster_conf text = Ok c → conf_tree_ok (tc_root (flat_tree c)) ∧ directives_ok (tc_directives (flat_tree c)).
Proof.
  intros (Hc & _ & Hm)%parse_cluster_conf_ok. destruct Hc as [H1 H2 H3 H4 H5]. split; [|by split]. constructor; [|constructor].
  split; cbn; [done|done|done| |].
  - clear -H5. induction H5 as [|s l [_ Hs] _ IH]; [done|]. cbn. by rewrite Hs.
  - eapply Forall_impl; [exact H5|]. by intros s [Hs _].
Qed.

(** * Theorems about the library's configuration

    Every text is answered with a well-formed configuration or an error, and a
    file that the daemon prints gives the library the daemon's tree. *)

(** ** The daemon's tree, as the library has it *)

Definition shard_view (s : TreeShard) : ShardConf :=
  match s with
  | TRaw path read_only comp dio size => CRaw path read_only comp dio size
  | TFs root read_only => CFs root read_only
  | TS3 ep bkt region ak sk ps => CS3 ep bkt region ak sk ps
  | TMem => CMem
  | TNode name => CNode name
  end.

Fixpoint node_view (n : TreeConfig.TreeNode) : ClusterConf.TreeNode :=
  mkTreeNode (tn_name n) (replication_factor n) (tn_min_writes n) (shard_view <$> tn_shards n) (node_view <$> children n).

Definition directives_view (d : Directives) : TreeDirectives :=
  mkTreeDirectives (cluster_name d) None (read_prefer d) (compression d) (default false (direct_io d)) (size_mb d) false.

Definition conf_view (t : TreeConfig) : TreeConf := mkTreeConf (directives_view (directives t)) (node_view (root t)).

(** What the library asks for and the daemon does not. *)
Definition shareable_shard (s : TreeShard) : bool :=
  match s with
  | TRaw path _ _ _ _ => bool_decide (strip_prefix "path=" path = None)
  | TFs root _ => bool_decide (strip_prefix "root=" root = None)
  | _ => true
  end.

Definition shareable_node (n : TreeConfig.TreeNode) : Prop :=
  1 <= replication_factor n ∧ tn_name n ≠ "shard" ∧ Forall (λ s, shareable_shard s = true) (tn_shards n).

Record shareable (t : TreeConfig) : Prop := {
  sh_nodes n : n ∈ collect_nodes (root t) → shareable_node n;
  sh_root : starts_with "repair_replication_" (tn_name (root t)) = false;
  sh_read_prefer v : read_prefer (directives t) = Some v → read_prefer_known v = true;
}.

(** ** Lines *)

Lemma tokenize_printed first l :
  plain first = true → first ≠ "" → Forall word_ok l → tokenize (print_line first l) = Ok (first :: (word_token <$> l)).
Proof. intros Hp Hne Hl. rewrite /tokenize. by destruct (print_line_ok first l Hp Hne Hl) as (_ & _ & _ & ->). Qed.

Lemma number_or_pretty error n : 0 <= n <= u64_max → number_or error (pretty n) = Ok n.
Proof. intros Hn. by rewrite /number_or parse_pretty. Qed.

Lemma part_rf name rf mw n : 1 <= n <= u64_max → tree_node_part name (rf, mw) ("rf=" +:+ pretty n) = Ok (n, mw).
Proof.
  intros Hn. rewrite /tree_node_part. change (strip_prefix "rf=" ("rf=" +:+ pretty n)) with (Some (pretty n)). cbv iota beta.
  rewrite number_or_pretty; [|lia]. cbn [mbind Res_bind]. rewrite decide_False //. lia.
Qed.

Lemma part_min_writes name rf mw n :
  1 <= n <= u64_max → tree_node_part name (rf, mw) ("min_writes=" +:+ pretty n) = Ok (rf, Some n).
Proof.
  intros Hn. rewrite /tree_node_part. change (strip_prefix "rf=" ("min_writes=" +:+ pretty n)) with (@None string).
  change (strip_prefix "min_writes=" ("min_writes=" +:+ pretty n)) with (Some (pretty n)). cbv iota beta.
  rewrite number_or_pretty; [|lia]. cbn [mbind Res_bind]. rewrite decide_False //. lia.
Qed.

Lemma header_shared n :
  node_ok n → node_printable n → shareable_node n →
  is_tree_node_line (node_text n) = true ∧
  parse_tree_node_line (node_text n) = Ok (tn_name n, replication_factor n, tn_min_writes n).
Proof.
  intros Hok Hpr (Hrf & Hshard & _). pose proof (node_words_ok n Hok Hpr) as Hw. pose proof (no_name n Hok) as Hne.
  pose proof (node_text_line n Hok Hpr) as Hline. destruct Hpr as (Hname & _). apply name_plain in Hname as (Hp & Hm & _). split.
  - move: Hline. rewrite /is_node_line /is_tree_node_line /node_text !first_word_line // Hm. cbn [negb andb]. intros ->.
    rewrite andb_true_r negb_true_iff. move: Hm. rewrite /mem_str !bool_decide_eq_false !not_elem_of_cons.
    intros (H1 & H2 & H3 & H4 & _). split_and!; [done..|apply not_elem_of_nil].
  - rewrite /parse_tree_node_line /node_text tokenize_printed //. cbn [mbind Res_bind].
    pose proof (no_factor n Hok) as Hf. pose proof (no_min_writes n Hok) as Hmw.
    assert (try_fold (tree_node_part (tn_name n)) (1, None) (word_token <$> node_words n) = Ok (replication_factor n, tn_min_writes n)) as ->.
    { rewrite /node_words. destruct (tn_min_writes n) as [v|]; [specialize (Hmw v eq_refl)|clear Hmw];
        destruct (delete_requires_min_writes n);
        cbn [fmap option_fmap option_map opt_word flag app list_fmap word_token fst snd try_fold];
        (rewrite part_rf; [|lia]); cbn [mbind Res_bind]; try (rewrite part_min_writes; [|lia]; cbn [mbind Res_bind]); reflexivity. }
    cbn [mbind Res_bind]. destruct (tn_min_writes n) as [v|]; [|done]. specialize (Hmw v eq_refl).
    by rewrite (proj2 (Z.ltb_ge (replication_factor n) v)); [|lia].
Qed.

Lemma raw_size_shared line ro comp dio old n :
  0 <= n <= u64_max → raw_opt line (ro, comp, dio, old) ("size_mb=" +:+ pretty n) = Ok (ro, comp, dio, Some n).
Proof.
  intros Hn. rewrite /raw_opt. change (mem_str ("size_mb=" +:+ pretty n) ["readonly"; "read_only"; "read-only"]) with false.
  change (mem_str ("size_mb=" +:+ pretty n) ["direct_io"; "direct-io"]) with false.
  change (strip_prefix "compression=" ("size_mb=" +:+ pretty n)) with (@None string).
  change (strip_either "size_mb=" "size-mb=" ("size_mb=" +:+ pretty n)) with (Some (pretty n)). cbv iota beta.
  by rewrite number_or_pretty.
Qed.

Lemma raw_shared path ro comp dio size :
  (∀ n, size = Some n → 0 <= n <= u64_max) → strip_prefix "path=" path = None →
  parse_raw_shard (word_token <$> shard_words (TRaw path ro comp dio size)) 0 = Ok (CRaw path ro comp dio size).
Proof.
  intros Hs Hpath. cbn [shard_words app fmap list_fmap word_token fst snd parse_raw_shard].
  change ("" +:+ path) with path. rewrite Hpath.
  assert (try_fold (raw_opt 0) (false, None, None, None)
    (word_token <$> flag ro "readonly" ++ opt_word "compression=" comp ++ opt_word "direct_io=" (bool_text <$> dio) ++
       opt_word "size_mb=" (pretty <$> size)) = Ok (ro, comp, dio, size)) as Hf.
  { destruct ro, comp as [c|], dio as [[]|], size as [n|]; cbn [fmap option_fmap option_map opt_word flag app list_fmap word_token fst snd];
      try done; specialize (Hs n eq_refl); cbn [try_fold]; repeat
      (first [rewrite raw_size_shared // | match goal with |- context [raw_opt 0 ?o ?p] =>
               let r := eval compute in (raw_opt 0 o p) in change (raw_opt 0 o p) with r end]; cbn [mbind Res_bind try_fold]); done. }
  by rewrite Hf.
Qed.

Lemma s3_shared ep bkt region ak sk ps :
  ep ≠ "" → bkt ≠ "" →
  parse_s3_shard (word_token <$> shard_words (TS3 ep bkt region ak sk ps)) 0 = Ok (CS3 ep bkt region ak sk ps).
Proof.
  intros He Hb. rewrite /parse_s3_shard.
  assert (try_fold (s3_opt 0) (mkS3Opts "" "" None None None false) (word_token <$> shard_words (TS3 ep bkt region ak sk ps)) =
    Ok (mkS3Opts ep bkt region ak sk ps)) as ->.
  { destruct region as [r|], ak as [a|], sk as [s|], ps; reflexivity. }
  cbn. by rewrite decide_False // decide_False.
Qed.

Lemma shard_shared s :
  shard_ok s → shard_printable s → shareable_shard s = true → node_ref s = None →
  is_tree_node_line (shard_text s) = false ∧ parse_tree_shard_line (shard_text s) = Ok (shard_view s).
Proof.
  intros Hok Hp Hsh Hr. destruct (shard_type_ok s Hr) as (Ht & Hne & Hm). split.
  - rewrite /is_tree_node_line /shard_text first_word_line //. apply andb_false_iff. left. apply negb_false_iff.
    revert Hm. rewrite /mem_str !bool_decide_eq_true !elem_of_cons. tauto.
  - rewrite /parse_tree_shard_line /shard_text tokenize_printed //; [|by apply shard_words_ok]. cbn [mbind Res_bind].
    destruct s as [path ro comp dio size|r ro|ep bkt region ak sk ps| |name]; [..|done]; cbn [shard_type shareable_shard] in *.
    + apply bool_decide_eq_true in Hsh. destruct Hok as [_ Hs]. by apply (raw_shared path ro comp dio size).
    + apply bool_decide_eq_true in Hsh. change (parse_fs_shard (r :: (word_token <$> flag ro "readonly")) 0 = Ok (CFs r ro)).
      rewrite /parse_fs_shard Hsh. by destruct ro.
    + destruct Hok as [He Hb]. by apply (s3_shared ep bkt region ak sk ps).
    + done.
Qed.

(** ** Blocks *)

Definition shared_node (n : TreeConfig.TreeNode) : Prop := node_ok n ∧ node_printable n ∧ shareable_node n.
Definition shared_shard (s : TreeShard) : Prop := shard_ok s ∧ shard_printable s ∧ shareable_shard s = true.

Lemma tree_block_reads_back n rest fuel :
  (∀ x, x ∈ collect_nodes n → shared_node x) → stop 0 rest → (2 * length (print_node 0 n ++ rest) <= fuel)%nat →
  parse_tree_node_block fuel (print_node 0 n ++ rest) = Ok (node_view n, rest).
Proof.
  intros Hn Hstop Hf. rewrite tree_block_instance.
  apply (block_reads_back _ _ _ _ _ node_view shard_view shared_node shared_shard).
  - intros x (Hx & (_ & _ & _ & Hp) & _ & _ & Hsh). split; [|apply (no_refs x Hx)].
    apply Forall_and. split; [apply (no_shards x Hx)|]. apply Forall_and. by split.
  - intros x (Hx & Hp & Hsh). destruct (header_shared x Hx Hp Hsh) as [Hl Hh]. split; [done|]. eexists. split; [exact Hh|].
    by destruct x.
  - intros s (Hs & Hp & Hsh) Hr. by apply shard_shared.
  - by intros [].
  - exact Hn.
  - exact Hstop.
  - exact Hf.
Qed.

(** ** Directives *)

Lemma line_shared key v d remaining d' :
  plain key = true → value_ok v = true → tree_directive d key (Some v) = Some (Ok d') →
  tree_line (d, remaining) (0%nat, directive_line key v) = Ok (d', remaining).
Proof.
  intros Hk Hv Hd. change (tree_line (d, remaining) (0%nat, directive_line key v)) with
    (let '(key', rest) := cut_ws (directive_line key v) in
     match tree_directive d key' (trim <$> rest) with
     | Some r => d ← r; Ok (d, remaining)
     | None => Ok (d, remaining ++ [(0%nat, directive_line key v)])
     end).
  rewrite /directive_line cut_ws_plain //. cbn [fmap option_fmap option_map]. destruct (trim_value v Hv) as [-> _]. by rewrite Hd.
Qed.

Lemma opt_shared key o d remaining d' :
  plain key = true → opt_all (λ v, value_ok v = true) o → (∀ v, o = Some v → tree_directive d key (Some v) = Some (Ok d')) →
  (o = None → d' = d) → try_fold tree_line (d, remaining) (pair 0%nat <$> opt_line key o) = Ok (d', remaining).
Proof.
  intros Hk Ho Hd Hn. destruct o as [v|]; [|by rewrite Hn]. cbn [opt_line fmap list_fmap try_fold].
  rewrite (line_shared key v d remaining d') //. by apply Hd.
Qed.

(** A directive of the daemon alone. *)
Lemma opt_skipped key o d remaining :
  plain key = true → opt_all (λ v, value_ok v = true) o → (∀ v, tree_directive d key (Some v) = Some (Ok d)) →
  try_fold tree_line (d, remaining) (pair 0%nat <$> opt_line key o) = Ok (d, remaining).
Proof. intros Hk Ho Hd. by apply opt_shared. Qed.

Ltac value_kept := first [done|eapply number_value; eassumption|apply bool_values].

Ltac skip_directive :=
  rewrite fmap_app try_fold_app opt_skipped; [cbn [mbind Res_bind]|done|value_kept|done].

Lemma directives_shared d :
  directives_printable d → (∀ v, read_prefer d = Some v → read_prefer_known v = true) →
  try_fold tree_line (no_tree_directives, []) (pair 0%nat <$> directive_lines d) = Ok (directives_view d, []).
Proof.
  intros [Hc Hb Ht Hn Hth] Hrp. destruct d as [c b rp re ps pt ft bs ri rb comp dio size fi tok ak sk co lf lb es ec mr ev cp cf ci].
  cbn in Hc, Hb, Ht, Hn, Hth, Hrp. rewrite !Forall_cons in Ht Hn. destruct_and?.
  rewrite /directive_lines. cbn [cluster_name default_bucket read_prefer recovery_enabled].
  rewrite fmap_app try_fold_app. cbn [fmap list_fmap try_fold].
  rewrite (line_shared "cluster" c _ _ (mkTreeDirectives c None None None false None false)) //. cbn [mbind Res_bind].
  rewrite (line_shared "bucket" b _ _ (mkTreeDirectives c None None None false None false)) //. cbn [mbind Res_bind].
  rewrite fmap_app try_fold_app (opt_shared "read_prefer" rp _ _ (mkTreeDirectives c None rp None false None false)) //; cycle 1.
  { intros v ->. cbn. by rewrite (Hrp v). }
  { by intros ->. }
  cbn [mbind Res_bind]. do 7 skip_directive.
  rewrite fmap_app try_fold_app (opt_shared "compression" comp _ _ (mkTreeDirectives c None rp comp false None false)) //; cycle 1.
  { by intros v ->. }
  { by intros ->. }
  cbn [mbind Res_bind]. rewrite fmap_app try_fold_app
    (opt_shared "direct_io" (bool_text <$> dio) _ _ (mkTreeDirectives c None rp comp (default false dio) None false)) //; cycle 1.
  { apply bool_values. }
  { by destruct dio as [[]|]; intros v [= <-]. }
  { by destruct dio. }
  cbn [mbind Res_bind]. rewrite fmap_app try_fold_app
    (opt_shared "size_mb" (pretty <$> size) _ _ (mkTreeDirectives c None rp comp (default false dio) size false)) //; cycle 1.
  { value_kept. }
  { destruct size as [n|]; intros v [= <-]. cbn. by rewrite number_or_pretty. }
  { by destruct size. }
  cbn [mbind Res_bind]. do 13 skip_directive. rewrite opt_skipped //. value_kept.
Qed.

(** ** The root's line *)

Lemma not_tree_directive d key val :
  root_name_ok key = true → starts_with "repair_replication_" key = false → tree_directive d key val = None.
Proof.
  rewrite /root_name_ok andb_true_iff !negb_true_iff. intros [Hk Hr] Hrr. move: Hk. rewrite /mem_str bool_decide_eq_false. intros Hk.
  rewrite /tree_directive. destruct d.
  repeat (case_decide as Hd; [destruct Hk; rewrite Hd; apply (bool_decide_unpack _); by vm_compute|clear Hd]).
  destruct (mem_str key TREE_DAEMON_DIRECTIVES) eqn:Hf; [|by rewrite Hr Hrr].
  destruct Hk. apply bool_decide_eq_true in Hf. revert Hf. rewrite /TREE_DAEMON_DIRECTIVES !elem_of_cons.
  intros Hf. repeat (destruct Hf as [->|Hf]; [apply (bool_decide_unpack _); by vm_compute|]). by apply not_elem_of_nil in Hf.
Qed.

Lemma sort_shared d n :
  (∀ x, x ∈ collect_nodes n → shared_node x) → root_name_ok (tn_name n) = true →
  starts_with "repair_replication_" (tn_name n) = false →
  try_fold tree_line (d, []) (print_node 0 n) = Ok (d, print_node 0 n).
Proof.
  intros Hn Hr Hrr. destruct (Hn n (collect_root n)) as (Hok & Hpr & _).
  assert (∀ i l remaining, i ≠ 0%nat → tree_line (d, remaining) (i, l) = Ok (d, remaining ++ [(i, l)])) as Hdeep.
  { intros i l remaining Hi. cbn. by destruct i. }
  assert (∀ l remaining, Forall (λ item : nat * string, item.1 ≠ 0%nat) l → try_fold tree_line (d, remaining) l = Ok (d, remaining ++ l)) as Hfold.
  { intros l remaining Hl. revert remaining. induction Hl as [|[i x] l Hi _ IH]; intros remaining; [by rewrite app_nil_r|].
    cbn [try_fold]. rewrite (Hdeep i x remaining Hi). cbn [mbind Res_bind]. by rewrite IH -app_assoc. }
  assert (tree_line (d, []) (0%nat, node_text n) = Ok (d, [(0%nat, node_text n)])) as Hroot.
  { assert (∃ t, node_text n = tn_name n +:+ String space t) as [t Ht].
    { rewrite /node_text /print_line /node_words. cbn [app]. rewrite print_words_cons. by eexists. }
    destruct Hpr as (Hname & _). apply name_plain in Hname as (Hp & _). unfold tree_line. cbv beta iota.
    destruct (decide (0%nat = 0%nat)) as [_|]; [|done]. rewrite Ht cut_ws_plain // not_tree_directive //. }
  destruct (print_node_shape n) as (tl & -> & Htl).
  - intros x Hx. by destruct (Hn x Hx).
  - intros x Hx. by destruct (Hn x Hx) as (_ & ? & _).
  - cbn [try_fold]. rewrite Hroot. cbn [mbind Res_bind]. by rewrite Hfold.
Qed.

(** ** The theorems *)

Lemma printed_is_tree t :
  config_printable t → shareable t → is_tree_config (print_config t) = true.
Proof.
  intros Hc Hs. pose proof Hc as [Hok Hp Hr Hd]. pose proof (node_line_kept (root t)) as Hkept.
  assert (node_ok (root t)) as Hn by apply Hok, collect_root. assert (node_printable (root t)) as Hnp by apply Hp, collect_root.
  specialize (Hkept Hn Hnp). destruct Hkept as (H1 & H2 & H3 & H4).
  rewrite /is_tree_config. apply existsb_exists. exists (indented (0%nat, node_text (root t))). split.
  - assert (lines (print_config t) = indented <$> ((pair 0%nat <$> directive_lines (directives t)) ++ print_node 0 (root t))) as ->.
    { apply lines_text, Forall_fmap. apply Forall_app. split.
      - apply Forall_fmap. eapply Forall_impl; [by apply directive_lines_kept|]. intros l (Hl1 & _ & Hl3 & _). by split.
      - eapply Forall_impl; [by apply print_node_lines|]. intros [i l] [_ (Hl1 & Hl2 & Hl3 & _)].
        change (one_line (spaces i +:+ l) = true ∧ ends_visible (spaces i +:+ l) = true). cbn [snd] in Hl1, Hl2, Hl3.
        rewrite one_line_spaces ends_visible_app; [by split|]. intros ->. done. }
    apply list_elem_of_In, list_elem_of_fmap. eexists. split; [done|]. apply elem_of_app. right.
    destruct (print_node_head 0 (root t)) as [tl ->]. by left.
  - destruct (indented_line 0 (node_text (root t)) H2 H3) as [Hi Ht]. change (indented (0%nat, node_text (root t))) with (spaces 0 +:+ node_text (root t)).
    rewrite Hi Ht. destruct (header_shared (root t) Hn Hnp (sh_nodes t Hs _ (collect_root _))) as [-> _].
    rewrite /is_comment H4. rewrite bool_decide_false; [done|]. intros E. by rewrite E in H2.
Qed.

(** C21: The configurations the daemon and the library read alike.  For every
    printable tree of the common subset ([shareable]), its canonical text is
    read by [parse_tree_config] as that tree and by [parse_tree_conf], and
    through [load_auto_conf], as the same tree: the same nodes with their
    names, replication factors and [min_writes], the same shards and options
    in the same order, the same defaults; the directives and fields of the
    daemon alone are skipped.  The subset leaves out what the two parsers read
    differently: a replication factor of zero, sources with a [path=] or
    [root=] prefix, a node called [shard], unknown read preferences, and a root
    named like a directive of the repair.  Of other texts nothing is claimed,
    and some are read differently (see [top_level_min_writes]). *)
Theorem shared_file_agrees (t : TreeConfig) (path : string) :
  config_printable t → shareable t →
  parse_tree_config (print_config t) = Ok t ∧
  parse_tree_conf (print_config t) = Ok (conf_view t) ∧
  load_auto_conf path (inr (print_config t)) = Ok (conf_view t).
Proof.
  intros Hc Hs. pose proof Hc as [Hok Hp Hr Hd].
  assert (∀ x, x ∈ collect_nodes (root t) → shared_node x) as Hshared.
  { intros x Hx. split_and!; [by apply Hok|by apply Hp|by apply (sh_nodes t Hs)]. }
  assert (parse_tree_conf (print_config t) = Ok (conf_view t)) as Htree.
  { rewrite /parse_tree_conf print_config_lines // try_fold_app directives_shared //; [|apply (sh_read_prefer t Hs)].
    cbn [mbind Res_bind]. rewrite sort_shared //; [|apply (sh_root t Hs)]. cbn [mbind Res_bind].
    destruct (print_node_head 0 (root t)) as [tl Htl]. case_decide as Hnil; [by rewrite Htl in Hnil|].
    pose proof (tree_block_reads_back (root t) [] (tree_fuel (print_node 0 (root t))) Hshared) as Hblock.
    rewrite app_nil_r in Hblock. rewrite Hblock; [|done|rewrite /tree_fuel; lia]. cbn [mbind Res_bind fst].
    pose proof (dp_cluster _ Hd) as Hname. destruct t as [d n]. rewrite /conf_view. cbn [directives root directives_view tc_cluster_name] in *.
    rewrite decide_False //. intros E. by rewrite E in Hname. }
  split_and!; [by apply read_printed|done|]. rewrite /load_auto_conf /read_file. cbn [mbind Res_bind]. by rewrite printed_is_tree.
Qed.

Definition sample_shared : TreeConfig :=
  mkTree (set_read_prefer (Some "ordered") (set_flush_interval (Some 5) sample_directives)) sample_root.

(** The sample configuration is shared; one with [rf=0] is the daemon's alone. *)
Lemma shared_file_agrees_witness :
  config_printable sample_shared ∧ shareable sample_shared ∧
  parse_tree_conf (print_config sample_shared) = Ok (conf_view sample_shared) ∧
  (∃ t, parse_tree_config "n rf=0 listen=l endpoint=e" = Ok t) ∧
  parse_tree_conf "n rf=0 listen=l endpoint=e" = Err "node 'n': rf must be >= 1".
Proof.
  assert (config_printable sample_shared) as Hc.
  { split; [apply (parsed_tree sample_text sample), sample_parses|apply sample_printable|done|].
    split; [done|done|repeat constructor..]; done. }
  assert (shareable sample_shared) as Hs.
  { split; [|done|by intros v [= <-]]. refine (sample_below shareable_node _ _); (split; [done|split; [done|repeat constructor]]). }
  split_and!; [exact Hc|exact Hs|apply (shared_file_agrees sample_shared "c" Hc Hs)|eexists; by vm_compute|by vm_compute].
Defined.

(** The library's configuration files.  [load_auto_conf] on an arbitrary
    text, in either format, answers with a configuration or an error, and more
    fuel for its blocks would not change the answer.  A configuration it accepts
    is well-formed down to the last node: names are not empty, [1 <= rf], and
    [1 <= min_writes <= rf], every [node] shard stands for the child at the same
    place, S3 shards have an endpoint and a bucket, sizes fit a [u64], the read
    preference is a known one; a flat file gives a single node with at least one
    shard. *)
Theorem conf_parser_total (path text : string) :
  load_auto_conf path (inr text) ≠ Panic ∧
  (∀ lines fuel, (tree_fuel lines <= fuel)%nat →
     parse_tree_node_block fuel lines = parse_tree_node_block (tree_fuel lines) lines ∧
     parse_tree_node_block fuel lines ≠ Panic) ∧
  ∀ t, load_auto_conf path (inr text) = Ok t →
    conf_tree_ok (tc_root t) ∧ directives_ok (tc_directives t) ∧
    (is_tree_config text = false → nd_children (tc_root t) = [] ∧ nd_shards (tc_root t) ≠ []).
Proof.
  split_and!; [|apply tree_block_answers|].
  - rewrite /load_auto_conf. cbn [read_file mbind Res_bind]. case_match; [apply parse_tree_conf_no_panic|].
    apply bind_no_panic; [apply parse_cluster_conf_no_panic|done].
  - intros t. rewrite /load_auto_conf. cbn [read_file mbind Res_bind]. destruct (is_tree_config text).
    + intros [Hr Hd]%parse_tree_conf_ok. split_and!; done.
    + intros (c & Hc & [= <-])%bind_ok. pose proof (flat_tree_ok text c Hc) as [Hr Hd].
      split_and!; [done..|]. intros _. split; [done|]. by apply parse_cluster_conf_ok in Hc as (_ & Hs & _).
Qed.

Definition flat_text : string := text_of [
  "# flat"; "replicas 2"; "min_writes 1"; "cluster ignored"; "  indented is ignored"; "read_prefer ordered";
  "shard raw /dev/sda size_mb=64 readonly"; "shard mem"].

(** A flat text and its tree; a shard line cannot have an unknown option. *)
Lemma conf_parser_total_witness :
  (∃ t, load_auto_conf "c" (inr flat_text) = Ok t ∧ conf_tree_ok (tc_root t) ∧
        nd_shards (tc_root t) = [CRaw "/dev/sda" true None None (Some 64); CMem]) ∧
  load_auto_conf "c" (inr "shard mem 
shard raw /dev/sda fast") = Err "line 2: unknown raw shard option 'fast'".
Proof.
  split; [|by vm_compute]. destruct (conf_parser_total "c" flat_text) as (_ & _ & Hok).
  destruct (load_auto_conf "c" (inr flat_text)) as [t|e|] eqn:E; [|by vm_compute in E..].
  exists t. split_and!; [done|by apply Hok|]. vm_compute in E. by injection E as <-.
Defined.

(** A [min_writes] line at the top is a directive that the daemon skips; the
    library takes it for the root node, and the real root is dropped. *)
Lemma top_level_min_writes :
  let text := text_of ["min_writes 1"; "n rf=1 listen=l endpoint=e"; "  mem"] in
  (∃ t, parse_tree_config text = Ok t ∧ tn_name (root t) = "n" ∧ tn_shards (root t) = [TMem]) ∧
  ∃ t, load_auto_conf "c" (inr text) = Ok t ∧ nd_name (tc_root t) = "min_writes" ∧ nd_shards (tc_root t) = [].
Proof. split; eexists; (split; [by vm_compute|done]). Qed.
