(* ===== verification/StoreEnv.v ===== *)
(** * Stores from the environment ([objstrd/src/config.rs])

    The numbered [STORE_N_*] variables and the JSON file.  The JSON parser is a
    parameter, and so are the lower-case forms of Unicode letters; a warning is
    kept as a value. *)

From S2P Require Import Prelude.
From S2P Require Import Config.
From S2P Require Import Tlv.
From S2P Require Import Text.
From S2P Require Import Logging.
From S2P Require Import TreeConfig.

Record StoreConfig : Type := mkStoreConfig {
  st_name : option string;
  store_type : string;
  st_image : option string;
  st_size_mb : option Z;
  st_direct_io : option bool;
  st_read_only : option bool;
  st_root : option string;
  st_endpoint : option string;
  s3_bucket_name : option string;
  st_region : option string;
  st_access_key : option string;
  st_secret_key : option string;
  force_path_style : option bool;
  allow_http : option bool;
}.

Record ClusterConfig : Type := mkClusterConfig {
  stores : list StoreConfig;
  cl_replication_factor : Z;
  cl_min_writes : option Z;
  cl_delete_requires_min_writes : bool;
  cl_default_bucket : string;
}.

(** The calls of [warn!]. *)
Inductive ConfigWarning : Type :=
| TooLarge (path : string) (size : Z)
| FailedToStat (path error : string)
| FailedToRead (path error : string)
| NoStores (path : string)
| FailedToParse (path error : string)
| Gaps (gaps : list nat)
| AboveFactor (min_writes replication_factor : Z)
| AboveStores (min_writes : Z) (store_count : nat).

Definition is_flag (v : string) : bool := bool_decide (v = "1") || eq_ignore_ascii_case v "true".

Section environment.
Context (env : string → option string) (to_lowercase : string → string).

Definition store_var (i : nat) (field : string) : option string := env ("STORE_" +:+ pretty i +:+ "_" +:+ field).

Definition store_config (i : nat) (type : string) : StoreConfig :=
  mkStoreConfig
    (match store_var i "NAME" with Some n => Some n | None => Some ("store-" +:+ pretty i) end)
    (to_lowercase type) (store_var i "IMAGE") (store_var i "SIZE_MB" ≫= parse_uint u64_max)
    (is_flag <$> store_var i "DIRECT_IO") (is_flag <$> store_var i "READ_ONLY") (store_var i "ROOT") (store_var i "ENDPOINT")
    (store_var i "S3_BUCKET") (store_var i "REGION") (store_var i "ACCESS_KEY") (store_var i "SECRET_KEY")
    (is_flag <$> store_var i "FORCE_PATH_STYLE") (is_flag <$> store_var i "ALLOW_HTTP").

(** The loop over the indices: the stores, the last index found, the gaps. *)
Record Scan : Type := mkScan { sc_stores : list StoreConfig; last_found : option nat; sc_gaps : list nat }.

Definition scan_index (s : Scan) (i : nat) : Scan :=
  match store_var i "TYPE" with
  | None => s
  | Some t =>
    mkScan (sc_stores s ++ [store_config i t]) (Some i)
      (sc_gaps s ++ match last_found s with Some prev => seq (S prev) (i - S prev) | None => [] end)
  end.

Definition scan_stores : Scan := foldl scan_index (mkScan [] None []) (seq 0 64).

Definition parse_multi_store_env : option ClusterConfig * list ConfigWarning :=
  let s := scan_stores in
  let gap_warnings := if decide (sc_gaps s = []) then [] else [Gaps (sc_gaps s)] in
  if decide (sc_stores s = []) then (None, gap_warnings)
  else
    let replication_factor := default 1 (env "REPLICATION_FACTOR" ≫= parse_uint u64_max) in
    let min_writes := env "MIN_WRITES" ≫= parse_uint u64_max in
    let quorum_warnings :=
      match min_writes with
      | Some mw =>
        (if replication_factor <? mw then [AboveFactor mw replication_factor] else []) ++
        (if Z.of_nat (length (sc_stores s)) <? mw then [AboveStores mw (length (sc_stores s))] else [])
      | None => []
      end in
    (Some (mkClusterConfig (sc_stores s) replication_factor min_writes
             (default false (is_true <$> env "DELETE_REQUIRES_MIN_WRITES")) (default "testbucket" (env "BUCKET"))),
     gap_warnings ++ quorum_warnings).

(** [serde_json::from_str] *)
Context (from_json : string → string + ClusterConfig).

Definition load_config_file (path : string) (file : FileState) : option ClusterConfig * list ConfigWarning :=
  let parsed text :=
    match from_json text with
    | inr cfg => if decide (stores cfg = []) then (None, [NoStores path]) else (Some cfg, [])
    | inl e => (None, [FailedToParse path e])
    end in
  match file with
  | StatFailed e => (None, [FailedToStat path e])
  | ReadFailed len e => if MAX_CONFIG_FILE_SIZE <? len then (None, [TooLarge path len]) else (None, [FailedToRead path e])
  | Readable len text => if MAX_CONFIG_FILE_SIZE <? len then (None, [TooLarge path len]) else parsed text
  end.

Definition parse_config (files : string → FileState) : option ClusterConfig * list ConfigWarning :=
  match env "CONFIG_FILE" with
  | Some path => load_config_file path (files path)
  | None => match env "STORE_0_TYPE" with Some _ => parse_multi_store_env | None => (None, []) end
  end.

(** ** What the scan finds *)

Definition defined (i : nat) : Prop := is_Some (store_var i "TYPE").
#[local] Instance defined_dec i : Decision (defined i) := _.

Definition found_stores (n : nat) : list StoreConfig := omap (λ i, store_config i <$> store_var i "TYPE") (seq 0 n).

(** An index without a store between two with one. *)
Definition gap (n i : nat) : Prop := ¬ defined i ∧ (∃ lo, (lo < i)%nat ∧ defined lo) ∧ (∃ hi, (i < hi < n)%nat ∧ defined hi).

Lemma scan_spec n :
  let s := foldl scan_index (mkScan [] None []) (seq 0 n) in
  sc_stores s = found_stores n ∧
  (∀ i, i ∈ sc_gaps s ↔ gap n i) ∧
  match last_found s with
  | Some p => (p < n)%nat ∧ defined p ∧ ∀ i, (p < i < n)%nat → ¬ defined i
  | None => ∀ i, (i < n)%nat → ¬ defined i
  end.
Proof.
  induction n as [|n IH]; cbn zeta.
  { cbn. split_and!; [done| |lia]. intros i. split; [by intros Hi%not_elem_of_nil|]. intros (_ & _ & hi & Hhi & _). lia. }
  rewrite seq_S foldl_snoc /found_stores seq_S omap_app. cbn [Nat.add]. destruct IH as (Hs & Hg & Hl).
  set (s := foldl scan_index _ _) in *. rewrite /found_stores in Hs. unfold scan_index. cbn [omap list_omap].
  destruct (store_var n "TYPE") as [t|] eqn:Ht; cbn [fmap option_fmap option_map sc_stores sc_gaps last_found]; cycle 1.
  - rewrite app_nil_r. assert (¬ defined n) as Hn by (rewrite /defined Ht; by intros []). split_and!; [done| |].
    + intros i. rewrite Hg /gap. split; intros (H1 & H2 & hi & Hhi & Hd); (split_and!; [done..|]); exists hi; (split; [|done]); [lia|].
      destruct (decide (hi = n)) as [->|]; [done|lia].
    + destruct (last_found s) as [p|]; [destruct Hl as (H1 & H2 & H3); split_and!; [lia|done|]|]; intros i Hi;
        (destruct (decide (i = n)) as [->|]; [done|]); [apply H3|apply Hl]; lia.
  - assert (defined n) as Hn by (rewrite /defined Ht; by eexists). rewrite Hs. split_and!; [done| |lia|done|lia].
    intros i. rewrite elem_of_app Hg. destruct (last_found s) as [p|]; cycle 1.
    + rewrite /gap. split; [intros [(_ & (lo & Hlo & Hd) & (hi & Hhi & Hd'))|Hi%not_elem_of_nil]; [|done]|intros (_ & (lo & Hlo & Hd) & (hi & Hhi & _))];
        exfalso; [apply (Hl hi); [lia|done]|apply (Hl lo); [lia|done]].
    + destruct Hl as (H1 & H2 & H3). rewrite list_elem_of_In in_seq /gap. split.
      * intros [(Ha & Hb & hi & Hhi & Hd)|Hi]; [split_and!; [done..|]; exists hi; split; [lia|done]|].
        split_and!; [apply H3; lia|exists p; split; [lia|done]|exists n; split; [lia|done]].
      * intros (Ha & (lo & Hlo & Hd) & (hi & Hhi & Hd')). destruct (decide (i < p)%nat) as [Hip|Hip].
        -- left. split_and!; [done|by exists lo|]. exists p. split; [lia|done].
        -- right. destruct (decide (i = p)) as [->|]; [done|]. lia.
Qed.
End environment.

Lemma found_none env lower n : found_stores env lower n = [] ↔ ∀ i, (i < n)%nat → ¬ defined env i.
Proof.
  rewrite /found_stores. split.
  - intros Hnil i Hi Hd. assert (i ∈ seq 0 n) as Hin by (apply list_elem_of_In, in_seq; lia). destruct Hd as [t Ht].
    assert (store_config env lower i t ∈ omap (λ i, store_config env lower i <$> store_var env i "TYPE") (seq 0 n)) as Hx.
    { apply list_elem_of_omap. exists i. by rewrite Ht. }
    rewrite Hnil in Hx. by apply not_elem_of_nil in Hx.
  - intros Hn. destruct (omap _ _) as [|x l] eqn:E; [done|]. assert (x ∈ x :: l) as Hx by left. rewrite -E in Hx.
    apply list_elem_of_omap in Hx as (i & Hi & Hx). apply list_elem_of_In, in_seq in Hi. destruct (store_var env i "TYPE") as [t|] eqn:Ht; [|done].
    destruct (Hn i); [lia|]. by exists t.
Qed.

(** Stores from [STORE_N_*] variables.  The indices below 64 whose [TYPE] is
    set, and only they, give the stores, in the order of the indices; without
    one there is no configuration.  A warning lists the gaps exactly when there
    are some: the indices without a store that lie between two that have one. *)
Theorem store_env_exact (env : string → option string) (lower : string → string) :
  (fst (parse_multi_store_env env lower) = None ↔ ∀ i, (i < 64)%nat → ¬ defined env i) ∧
  ∀ c warnings, parse_multi_store_env env lower = (Some c, warnings) →
    stores c = found_stores env lower 64 ∧
    (∀ gaps, Gaps gaps ∈ warnings → ∀ i, i ∈ gaps ↔ gap env 64 i) ∧
    ((∃ gaps, Gaps gaps ∈ warnings) ↔ ∃ i, gap env 64 i).
Proof.
  destruct (scan_spec env lower 64) as (Hs & Hg & _). rewrite -(found_none env lower) -Hs /parse_multi_store_env /scan_stores.
  set (s := foldl (scan_index env lower) _ _) in *. clearbody s. split.
  - destruct (decide (sc_stores s = [])) as [Hnil|Hnil]; [done|]. split; [done|]. intros Hx. by destruct Hnil.
  - intros c warnings. destruct (decide (sc_stores s = [])) as [Hnil|Hnil]; [done|]. cbv zeta. set (quorum := match _ ≫= parse_uint u64_max with Some mw => _ | None => [] end).
    intros [= <- <-]. split; [done|].
    assert (∀ gaps, Gaps gaps ∉ quorum) as Hq.
    { intros gaps. rewrite /quorum. destruct (_ ≫= parse_uint u64_max); [|apply not_elem_of_nil].
      rewrite not_elem_of_app. split; case_match; rewrite ?list_elem_of_singleton; try apply not_elem_of_nil; done. }
    setoid_rewrite elem_of_app. case_decide as Hgaps.
    + split; [intros gaps [Hx%not_elem_of_nil|Hx]; [done|by apply Hq in Hx]|]. split.
      * intros (gaps & [Hx%not_elem_of_nil|Hx]); [done|by apply Hq in Hx].
      * intros (i & Hi). apply Hg in Hi. rewrite Hgaps in Hi. by apply not_elem_of_nil in Hi.
    + split.
      * intros gaps [Hx|Hx]; [|by apply Hq in Hx]. apply list_elem_of_singleton in Hx as [= ->]. apply Hg.
      * split; [|intros _; exists (sc_gaps s); left; by apply list_elem_of_singleton].
        intros _. destruct (sc_gaps s) as [|i l]; [done|]. exists i. apply Hg. by left.
Qed.

(** Two stores with a gap between them. *)
Definition sample_env (name : string) : option string :=
  match bool_decide (name = "STORE_0_TYPE"), bool_decide (name = "STORE_2_TYPE"), bool_decide (name = "STORE_2_IMAGE") with
  | true, _, _ => Some "mem"
  | _, true, _ => Some "RAW"
  | _, _, true => Some "/dev/sda"
  | _, _, _ => None
  end.

Lemma store_env_exact_witness :
  ∃ c warnings, parse_multi_store_env sample_env to_ascii_lowercase = (Some c, warnings) ∧
    stores c = found_stores sample_env to_ascii_lowercase 64 ∧ (store_type <$> stores c) = ["mem"; "raw"] ∧
    gap sample_env 64 1 ∧ warnings = [Gaps [1%nat]].
Proof.
  destruct (store_env_exact sample_env to_ascii_lowercase) as [_ Hsome].
  destruct (parse_multi_store_env sample_env to_ascii_lowercase) as [[c|] warnings] eqn:E; [|by vm_compute in E].
  exists c, warnings. destruct (Hsome c warnings eq_refl) as (Hs & Hg & _).
  assert (warnings = [Gaps [1%nat]]) as -> by (vm_compute in E; by injection E).
  split_and!; [done|done|by rewrite Hs; vm_compute| |done..].
  apply (Hg [1%nat]); by left.
Defined.
