(* ===== verification/S3Keys.v ===== *)
(** * Keys, metadata and errors of the S3 adapter ([objstrd/src/adapter.rs])

    How an S3 key becomes a path of the store and back, which keys are
    refused, and the metadata map behind the headers of a request; then the
    facts about them, and that keys survive the store. *)

From S2P Require Import Prelude.
From S2P Require Import Config.
From S2P Require Import StoreMeta.
From S2P Require Import Instances.
From S2P Require Import Tlv.
From S2P Require Import Text.

(** The answers of [s3_error!] the adapter gives. *)
Inductive S3Error : Type :=
| NoSuchBucket
| NoSuchKey
| NoSuchUpload
| BucketNotEmpty
| InvalidBucketName
| InternalError
| PreconditionFailed
| NotModified (etag_header : option string)
| InvalidArgument (msg : string)
| InvalidRange (msg : string)
| InvalidRequest (msg : string)
| InvalidPart (msg : string)
| EntityTooLarge (msg : string)
| MalformedXML (msg : string)
| SlowDown (msg : string)
| NotImplemented (msg : string).

Abbreviation S3Result := (Res S3Error).

(** ** Keys *)

Definition DIR_MARK : string := "__DIRMARK__".
Definition DIR_MARK_SUFFIX : string := "/__DIRMARK__".

Definition validate_component (component : string) : S3Result unit :=
  if decide (component = "..") then Err (InvalidArgument "key must not contain '..' path components")
  else if decide (component = DIR_MARK)
  then Err (InvalidArgument "key must not contain reserved component '__DIRMARK__'")
  else Ok tt.

Definition validate_key (key : string) : S3Result unit :=
  try_fold (λ _ component, validate_component component) tt (split_on slash key).

Section keys.
Context `{ObjectPath}.

Definition raw_path (s : string) : string := key_path s.

Definition obj_key (bucket key : string) : string :=
  if ends_with "/" key then raw_path (bucket +:+ "/" +:+ key +:+ DIR_MARK) else raw_path (bucket +:+ "/" +:+ key).
End keys.

(** [&s[..n]] *)
Fixpoint take_bytes (n : nat) (s : string) : string :=
  match n, s with
  | S n', String a s' => String a (take_bytes n' s')
  | _, _ => ""
  end.

(** The S3 key of a listed path: the bucket and the directory mark removed.
    [None] for what the listings skip. *)
Definition listed_key (bucket location : string) : option string :=
  raw_key ← strip_prefix (bucket +:+ "/") location;
  key ← (if ends_with DIR_MARK_SUFFIX raw_key
         then Some (take_bytes (String.length raw_key - String.length DIR_MARK) raw_key)
         else if bool_decide (raw_key = DIR_MARK) || ends_with (DIR_MARK_SUFFIX +:+ "/") raw_key then None
         else Some raw_key);
  if starts_with "__buckets__/" key then None else Some key.

(** ** Metadata *)

(** What a request says about an object; [expires] is a timestamp, whose text
    [format_date] gives. *)
Record ObjectHeaders : Type := mkHeaders {
  content_type : option string;
  cache_control : option string;
  content_disposition : option string;
  content_encoding : option string;
  content_language : option string;
  expires : option Z;
  user_metadata : option (gmap string string);
}.

Definition opt_insert (k : string) (o : option string) (m : gmap string string) : gmap string string :=
  match o with Some v => <[k := v]> m | None => m end.

Class DateText : Type := {
  format_date : Z → option string;
  parse_date : string → option Z;
}.

Section metadata.
Context `{DateText}.

Definition build_s3_metadata (h : ObjectHeaders) : gmap string string :=
  let meta := opt_insert "expires" (expires h ≫= format_date)
    (opt_insert "content-language" (content_language h) (opt_insert "content-encoding" (content_encoding h)
    (opt_insert "content-disposition" (content_disposition h) (opt_insert "cache-control" (cache_control h)
    (opt_insert "content-type" (content_type h) ∅))))) in
  match user_metadata h with
  | Some user => map_fold (λ k v m, <["x-amz-meta-" +:+ k := v]> m) meta user
  | None => meta
  end.

Definition extract_user_metadata (meta : gmap string string) : option (gmap string string) :=
  let user : gmap string string := map_fold (λ k v m, match strip_prefix "x-amz-meta-" k with
                                | Some name => <[name := v]> m
                                | None => m
                                end) ∅ meta in
  if decide (user = ∅) then None else Some user.

(** The headers of a head: all but its length and entity tag. *)
Definition stored_headers (meta : gmap string string) : ObjectHeaders :=
  mkHeaders (meta !! "content-type") (meta !! "cache-control") (meta !! "content-disposition")
    (meta !! "content-encoding") (meta !! "content-language") (meta !! "expires" ≫= parse_date)
    (extract_user_metadata meta).
End metadata.

(** A text as Latin-1; [None] when a character is beyond U+00FF. *)
Fixpoint latin1 (s : string) : option (list Z) :=
  match s with
  | EmptyString => Some []
  | String a s' =>
    let x := Z.of_nat (byte_val a) in
    if x <? 128 then cons x <$> latin1 s'
    else match s' with
         | String b s'' =>
           if (194 <=? x) && (x <=? 195) then cons ((x - 192) * 64 + (Z.of_nat (byte_val b) - 128)) <$> latin1 s'' else None
         | EmptyString => None
         end
  end.

(** The [x-amz-meta-] headers of an answer, in the order of the map.
    [header_name] and [header_value] accept what HTTP can carry. *)
Definition add_user_meta_headers (header_name : string → bool) (header_value : list Z → bool)
    (user : option (list (string * string))) : list (string * list Z) :=
  match user with
  | None => []
  | Some l =>
    omap (λ '(key, val),
      let name := "x-amz-meta-" +:+ key in
      if header_name name
      then bytes ← latin1 val; if header_value bytes then Some (name, bytes) else None
      else None) l
  end.

(** ** URL encoding of listings *)

Definition unreserved (a : Ascii.ascii) : bool :=
  let n := byte_val a in
  ((48 <=? n) && (n <=? 57) || (65 <=? n) && (n <=? 90) || (97 <=? n) && (n <=? 122) ||
   (n =? 45) || (n =? 95) || (n =? 46) || (n =? 126) || (n =? 47))%nat.

Definition upper_hex (n : nat) : Ascii.ascii := Ascii.ascii_of_nat (if n <? 10 then 48 + n else 55 + n)%nat.

(** [url_encode]: every byte that is not unreserved as [%XX]. *)
Fixpoint url_encode (s : string) : string :=
  match s with
  | EmptyString => ""
  | String a s' =>
    if unreserved a then String a (url_encode s')
    else String (Ascii.ascii_of_nat 37)
           (String (upper_hex (byte_val a / 16)) (String (upper_hex (byte_val a mod 16)) (url_encode s')))
  end.

(** * Facts about keys and texts of the S3 adapter

    Prefixes, suffixes and the byte order of texts; keys as they are stored
    and listed; what the metadata map keeps of the headers. *)

(** ** Texts *)

Lemma take_app_str s t : take_bytes (String.length s) (s +:+ t) = s.
Proof. induction s as [|a s IH]; [by destruct t|]. rewrite app_cons_str /=. by rewrite IH. Qed.

Lemma drop_app_str s t : drop_bytes (String.length s) (s +:+ t) = t.
Proof. induction s as [|a s IH]; [by destruct t|]. rewrite app_cons_str /=. by rewrite IH. Qed.

Lemma take_drop_str n s : take_bytes n s +:+ drop_bytes n s = s.
Proof.
  revert s. induction n as [|n IH]; intros [|a s]; [done..|]. cbn [take_bytes drop_bytes]. by rewrite app_cons_str IH.
Qed.

Lemma prefix_split p s : String.prefix p s = true → s = p +:+ drop_bytes (String.length p) s.
Proof.
  revert s. induction p as [|a p IH]; intros s; [by destruct s|]. destruct s as [|b s]; [done|]. cbn.
  destruct (Ascii.ascii_dec a b) as [->|]; [|done]. intros Hp. rewrite app_cons_str. f_equal. by apply IH.
Qed.

Lemma prefix_iff p s : String.prefix p s = true ↔ ∃ t, s = p +:+ t.
Proof.
  split; [intros Hp%prefix_split; by eexists|]. intros [t ->]. apply prefix_app.
Qed.

Lemma le_app (s t : string) : (s ≤ s +:+ t)%string.
Proof.
  rewrite /String.le. induction s as [|a s IH]; [by destruct t|]. rewrite app_cons_str.
  unfold String.leb in *. cbn [String.compare]. assert (Ascii.compare a a = Eq) as ->; [|done].
  unfold Ascii.compare. by rewrite N.compare_refl.
Qed.

Lemma string_lt_irrefl (s : string) : (s ≤ s)%string.
Proof. reflexivity. Qed.

(** The suffix that [ends_with] finds. *)
Lemma substring_all n s : (String.length s <= n)%nat → String.substring 0 n s = s.
Proof.
  revert n. induction s as [|a s IH]; intros [|n] Hn; cbn in *; try done; [lia|]. f_equal. apply IH. lia.
Qed.

Lemma substring_drop m n s : String.substring m n s = String.substring 0 n (drop_bytes m s).
Proof. revert s. induction m as [|m IH]; intros s; [done|]. destruct s as [|a s]; [by destruct n|]. cbn. apply IH. Qed.

Lemma drop_length n s : String.length (drop_bytes n s) = (String.length s - n)%nat.
Proof. revert s. induction n as [|n IH]; intros [|a s]; [done..|]. exact (IH s). Qed.

Lemma ends_with_iff t s : ends_with t s = true ↔ ∃ u, s = u +:+ t.
Proof.
  rewrite /ends_with andb_true_iff !bool_decide_eq_true. split.
  - intros [Hl Hs]. exists (take_bytes (String.length s - String.length t) s).
    rewrite -{1}(take_drop_str (String.length s - String.length t) s). f_equal.
    rewrite substring_drop substring_all in Hs; [done|]. rewrite drop_length. lia.
  - intros [u ->]. rewrite !length_app_str. split; [lia|]. rewrite substring_drop.
    replace (String.length u + String.length t - String.length t)%nat with (String.length u) by lia.
    by rewrite drop_app_str substring_all.
Qed.

Lemma ends_with_false t s : ends_with t s = false ↔ ∀ u, s ≠ u +:+ t.
Proof.
  rewrite -not_true_iff_false ends_with_iff. split; [intros Hn u ->; apply Hn; by exists u|intros Hn [u ->]; by apply (Hn u)].
Qed.

Lemma strip_prefix_app p s : strip_prefix p (p +:+ s) = Some s.
Proof. induction p as [|a p IH]; [by destruct s|]. rewrite app_cons_str /=. by rewrite decide_True. Qed.

Lemma app_inj_tail_str (s t u : string) : s +:+ u = t +:+ u → s = t.
Proof.
  revert t. induction s as [|a s IH]; intros [|b t] He; [done|..].
  - apply (f_equal String.length) in He. rewrite !length_app_str /= in He. lia.
  - apply (f_equal String.length) in He. rewrite !length_app_str /= in He. lia.
  - rewrite !app_cons_str in He. injection He as -> He. f_equal. by apply IH.
Qed.

(** ** Keys *)

Definition no_slash (s : string) : Prop := ∀ t u, s ≠ t +:+ "/" +:+ u.

(** What [validate_key] lets through has no component equal to the mark. *)
Lemma dir_mark_suffix : DIR_MARK_SUFFIX = "/" +:+ DIR_MARK.
Proof. done. Qed.

(** The inverse of the key mapping on what [obj_key] makes. *)
Lemma listed_plain bucket key :
  ends_with DIR_MARK_SUFFIX key = false → ends_with (DIR_MARK_SUFFIX +:+ "/") key = false → key ≠ DIR_MARK →
  starts_with "__buckets__/" key = false → listed_key bucket (bucket +:+ "/" +:+ key) = Some key.
Proof.
  intros H1 H2 H3 H4. rewrite /listed_key -app_assoc_str strip_prefix_app. cbn [mbind option_bind].
  rewrite H1 H2 bool_decide_eq_false_2 //=. by rewrite H4.
Qed.

Lemma listed_marked bucket key :
  ends_with "/" key = true → starts_with "__buckets__/" key = false →
  listed_key bucket (bucket +:+ "/" +:+ key +:+ DIR_MARK) = Some key.
Proof.
  intros [u ->]%ends_with_iff H4. rewrite /listed_key -app_assoc_str strip_prefix_app. cbn [mbind option_bind].
  rewrite (proj2 (ends_with_iff DIR_MARK_SUFFIX _)); [|exists u; by rewrite dir_mark_suffix !app_assoc_str].
  rewrite length_app_str Nat.add_sub take_app_str /=. by rewrite H4.
Qed.

(** Two stored texts, none ending in a slash, are listed as different keys. *)
Lemma listed_key_inj bucket l1 l2 k :
  ends_with "/" l1 = false → ends_with "/" l2 = false →
  listed_key bucket l1 = Some k → listed_key bucket l2 = Some k → l1 = l2.
Proof.
  rewrite /listed_key.
  destruct (strip_prefix _ l1) as [r1|] eqn:E1; [|done]. destruct (strip_prefix _ l2) as [r2|] eqn:E2; [|done].
  apply strip_prefix_spec in E1, E2. intros N1 N2. cbn [mbind option_bind].
  assert (∀ r, match (if ends_with DIR_MARK_SUFFIX r then Some (take_bytes (String.length r - String.length DIR_MARK) r)
                else if bool_decide (r = DIR_MARK) || ends_with (DIR_MARK_SUFFIX +:+ "/") r then None else Some r)
    with Some key => (if starts_with "__buckets__/" key then None else Some key) = Some k →
      r = k +:+ DIR_MARK ∧ ends_with "/" k = true ∨ r = k | None => True end) as Hr.
  { intros r. destruct (ends_with DIR_MARK_SUFFIX r) eqn:E.
    - apply ends_with_iff in E as [u ->]. rewrite dir_mark_suffix -app_assoc_str length_app_str Nat.add_sub take_app_str.
      destruct (starts_with _ _); [done|]. intros [= <-]. left. split; [done|]. apply ends_with_iff. by exists u.
    - destruct (_ || _); [done|]. destruct (starts_with _ _); [done|]. intros [= <-]. by right. }
  pose proof (Hr r1) as H1. pose proof (Hr r2) as H2. intros K1 K2.
  destruct (if ends_with DIR_MARK_SUFFIX r1 then _ else _) as [k1|]; [|done].
  destruct (if ends_with DIR_MARK_SUFFIX r2 then _ else _) as [k2|]; [|done].
  assert (∀ l r, l = (bucket +:+ "/") +:+ r → ends_with "/" r = true → ends_with "/" l = true) as Hend.
  { intros l r -> [u ->]%ends_with_iff. apply ends_with_iff. exists ((bucket +:+ "/") +:+ u). by rewrite !app_assoc_str. }
  destruct (H1 K1) as [[-> He]| ->], (H2 K2) as [[-> He']| ->]; try (by subst).
  - by rewrite (Hend _ _ E2 He) in N2.
  - by rewrite (Hend _ _ E1 He') in N1.
Qed.

(** ** Common prefixes *)

(** * The guarantee of the S3 key mapping *)

(** ** Components *)

Lemma split_on_app sep s t : split_on sep (s +:+ String sep t) = split_on sep s ++ split_on sep t.
Proof.
  induction s as [|a s IH].
  - change ("" +:+ String sep t) with (String sep t). cbn. by rewrite decide_True.
  - rewrite app_cons_str. cbn. case_decide; [by rewrite IH|]. rewrite IH. pose proof (split_on_nonempty sep s) as Hne.
    by destruct (split_on sep s) as [|x l].
Qed.

(** A valid key has no mark as its last component, nor before a slash. *)
Lemma valid_unmarked key :
  (∀ c, c ∈ split_on slash key → c ≠ DIR_MARK) →
  ends_with DIR_MARK_SUFFIX key = false ∧ ends_with (DIR_MARK_SUFFIX +:+ "/") key = false ∧ key ≠ DIR_MARK.
Proof.
  intros Hc. split_and!.
  - apply ends_with_false. intros u ->. apply (Hc DIR_MARK); [|done].
    change DIR_MARK_SUFFIX with (String slash DIR_MARK). rewrite split_on_app. apply elem_of_app. right. by left.
  - apply ends_with_false. intros u ->. apply (Hc DIR_MARK); [|done].
    change (DIR_MARK_SUFFIX +:+ "/") with (String slash (DIR_MARK +:+ String slash "")).
    rewrite !split_on_app. apply elem_of_app. right. by left.
  - intros ->. apply (Hc DIR_MARK); [by left|done].
Qed.

Lemma valid_components key : validate_key key = Ok tt → ∀ c, c ∈ split_on slash key → c ≠ DIR_MARK.
Proof.
  rewrite /validate_key. induction (split_on slash key) as [|c l IH]; [by intros _ c Hc; inversion Hc|]. cbn [try_fold].
  rewrite /validate_component. case_decide; [done|]. case_decide; [done|]. cbn [mbind Res_bind].
  intros Hl c' [->|Hc']%elem_of_cons; [done|by apply IH].
Qed.

Lemma no_slash_cut bucket bucket' s s' :
  cut slash bucket = (bucket, None) → cut slash bucket' = (bucket', None) →
  bucket +:+ "/" +:+ s = bucket' +:+ "/" +:+ s' → bucket = bucket'.
Proof.
  assert (∀ b t, cut slash b = (b, None) → cut slash (b +:+ "/" +:+ t) = (b, Some t)) as Hcut.
  { intros b t. induction b as [|a b IH]; [done|]. cbn. case_decide; [done|]. destruct (cut slash b) as [x o] eqn:E.
    intros [= -> ->]. rewrite app_cons_str. cbn. rewrite decide_False // IH //. }
  intros Hb Hb' Heq. pose proof (Hcut bucket s Hb) as H1. rewrite Heq (Hcut bucket' s' Hb') in H1. congruence.
Qed.

(** A component of a path as the [object_store] crate defines one: not empty,
    not relative, without ASCII control characters. *)
Definition ascii_control (a : Ascii.ascii) : bool :=
  let n := Ascii.nat_of_ascii a in ((n <? 32) || (n =? 127))%nat.
Definition path_component (c : string) : bool :=
  negb (bool_decide (c ∈ [""; "."; ".."])) && forallb (λ a, negb (ascii_control a)) (String.list_ascii_of_string c).
Definition is_path (s : string) : bool := forallb path_component (split_on slash s).

(** [Path::parse] takes the text of a path as it is. *)
Class PathParseLaw `{ObjectPath} : Prop := parse_path s : is_path s = true → path_parse s = Some s.

Section keys.
Context `{ObjectPath, !PathParseLaw}.

(** The text a key is stored under. *)
Definition stored_text (bucket key : string) : string :=
  bucket +:+ "/" +:+ (if ends_with "/" key then key +:+ DIR_MARK else key).

(** A key the handlers let through and the listings show, of path components. *)
Record storable (bucket key : string) : Prop := {
  st_valid : validate_key key = Ok tt;
  st_bucket : cut slash bucket = (bucket, None);
  st_visible : starts_with "__buckets__/" key = false;
  st_path : is_path (stored_text bucket key) = true;
}.

Lemma obj_key_text bucket key : storable bucket key → obj_key bucket key = stored_text bucket key.
Proof.
  intros [_ _ _ Hp%parse_path]. assert (raw_path (stored_text bucket key) = stored_text bucket key) as Hr
    by by rewrite /raw_path /key_path Hp.
  revert Hr. rewrite /obj_key /stored_text. by destruct (ends_with "/" key).
Qed.

(** C16: Keys of path components survive the store.  Take a key that passes
    validation, lies outside the reserved prefix [__buckets__/], and has no
    component that is empty (but for a trailing slash), "." or with control
    characters.  An object put under it is listed under that very key, a
    trailing slash included, and no two such keys, nor the same key in two
    buckets, share a path of the store. *)
Theorem keys_round_trip bucket key :
  storable bucket key →
  listed_key bucket (obj_key bucket key) = Some key ∧
  ∀ bucket' key', storable bucket' key' → obj_key bucket' key' = obj_key bucket key → bucket' = bucket ∧ key' = key.
Proof.
  assert (∀ bucket key, storable bucket key → listed_key bucket (obj_key bucket key) = Some key) as Hback.
  { intros b k Hs. rewrite (obj_key_text b k Hs) /stored_text. destruct Hs as [Hv _ Hvis _].
    destruct (ends_with "/" k) eqn:E; [by apply listed_marked|].
    destruct (valid_unmarked k (valid_components k Hv)) as (? & ? & ?). by apply listed_plain. }
  intros Hs. split; [by apply Hback|]. intros bucket' key' Hs' Heq.
  assert (bucket' = bucket) as ->.
  { rewrite (obj_key_text _ _ Hs) (obj_key_text _ _ Hs') in Heq. eapply no_slash_cut; [apply Hs'|apply Hs|exact Heq]. }
  split; [done|]. pose proof (Hback _ _ Hs) as H1. pose proof (Hback _ _ Hs') as H2. rewrite Heq in H2. congruence.
Qed.
End keys.

(** Paths by their components: what does not parse loses its empty ones. *)
Definition component_paths : ObjectPath :=
  {| path_parse s := if is_path s then Some s else None;
     path_from s := String.concat "/" (filter (λ c, c ≠ "") (split_on slash s));
     prefix_matches := String.prefix |}.

Lemma component_paths_law : @PathParseLaw component_paths.
Proof. intros s Hs. cbn. by rewrite Hs. Qed.

Lemma keys_round_trip_witness :
  @obj_key component_paths "b" "dir/" = "b/dir/__DIRMARK__" ∧
  listed_key "b" (@obj_key component_paths "b" "dir/") = Some "dir/".
Proof.
  split; [vm_compute; reflexivity|].
  apply (@keys_round_trip component_paths component_paths_law "b" "dir/"). split; vm_compute; reflexivity.
Defined.

(** A valid key with an empty component is stored under the path of the key
    without it, and listed as that key. *)
Lemma empty_components_collide :
  validate_key "a//b" = Ok tt ∧ @obj_key component_paths "c" "a//b" = @obj_key component_paths "c" "a/b" ∧
  listed_key "c" (@obj_key component_paths "c" "a//b") = Some "a/b".
Proof. vm_compute. split_and!; reflexivity. Qed.
