(* ===== verification/S3Backend.v ===== *)
(** * The backend of the S3 adapter ([StoreBackend] of [objstrd/src/adapter.rs])

    One raw store, or a cluster with its registry of raw stores; every call
    goes to the operation of the one or of the other. *)

From S2P Require Import Prelude.
From S2P Require Import Config.
From S2P Require Import Extent.
From S2P Require Import Index.
From S2P Require Import StoreMeta.
From S2P Require Import Catalog.
From S2P Require Import Backend.
From S2P Require Import Cluster.
From S2P Require Import ClusterIo.
From S2P Require Import ShardMeta.
From S2P Require Import ClusterCopy.
From S2P Require Import S3Keys.

(** The [GetOptions] the adapter builds: none, and a bounded range. *)
Class GetRequest `{ObjectBackend} : Type := {
  options_default : get_options;
  options_bounded : Z → Z → get_options;
}.

Section backend.
Context `{ObjectBackend, !GetRequest, Crc32c, HashMapOrder, ObjectPath, Chrono}.

Inductive StoreBackend : Type :=
| BackendRaw (raw : store)
| BackendSharded (cluster : ShardedObjectStore) (refs : RawRefRegistry).

Definition BM (E A : Type) : Type := SM StoreBackend E A.

Definition dispatch {E A} (on_raw : store → store * Res E A) (on_cluster : RawRefRegistry → SM ShardedObjectStore E A) :
    BM E A := λ b,
  match b with
  | BackendRaw raw => let '(raw', r) := on_raw raw in (BackendRaw raw', r)
  | BackendSharded c rr => let '(c', r) := on_cluster rr c in (BackendSharded c' rr, r)
  end.

(** A call that only reads the raw store. *)
Definition reading {E A} (f : store → Res E A) (raw : store) : store * Res E A := (raw, f raw).

(** *** The metadata-aware calls *)

Definition backend_put_with_meta (now : Z) (path : string) (body meta : list byte) : BM RawStoreError unit :=
  dispatch (raw_put_with_meta now path body meta) (λ rr, ShardMeta.put_with_meta now rr path body meta).

Definition backend_put_from_file (now : Z) (path : string) (file : OpenFile) (meta_len : Z) : BM RawStoreError unit :=
  dispatch (raw_put_with_meta_from_file now path (of_source file) meta_len)
    (λ rr, ShardMeta.put_with_meta_from_file now rr path file meta_len).

Definition backend_head_with_meta (path : string) : BM RawStoreError (ObjectMeta * Z) :=
  dispatch (reading (raw_head_with_meta path)) (λ rr, ShardMeta.head_with_meta rr path).

Definition backend_get_metadata (path : string) : BM RawStoreError (list byte) :=
  dispatch (reading (raw_get_metadata path)) (λ rr, ShardMeta.get_metadata rr path).

Definition backend_list_with_meta (prefix : option string) : BM RawStoreError (list (ObjectMeta * Z)) :=
  dispatch (reading (λ b, Ok (raw_list_with_meta prefix b)))
    (λ rr, c <- sm_get ;; sm_lift (ShardMeta.list_with_meta c rr prefix)).

Definition backend_set_meta_len (path : string) (meta_len : Z) : BM RawStoreError unit :=
  dispatch (raw_set_meta_len path meta_len) (λ rr, ShardMeta.set_meta_len rr path meta_len).

Definition delete_sidecar (path : string) : BM RawStoreError unit :=
  dispatch (reading (λ _, Ok tt)) (λ rr, ShardMeta.delete_sidecar rr path).

(** *** [obj_store]: the calls of the [ObjectStore] trait *)

Definition OsError : Type := store_error + Error.

Definition os_not_found (e : OsError) : bool :=
  match e with inl e => error_not_found e | inr e => error_is_not_found e end.

Definition obj_dispatch {A} (on_raw : store → store * Res store_error A) (on_cluster : CM A) : BM OsError A :=
  dispatch (λ b, let '(b', r) := on_raw b in (b', map_err inl r)) (λ _ c, let '(c', r) := on_cluster c in (c', map_err inr r)).

(** The body of an answer: bytes, or the stream of a [GetResult]. *)
Inductive S3Body : Type :=
| InMemory (data : list byte)
| FromRaw (g : got)
| FromCluster (g : Got).

(** [GetResult::bytes], or the chunks of the stream joined. *)
Definition read_body (body : S3Body) : BM OsError (list byte) :=
  match body with
  | InMemory data => sm_ret data
  | FromRaw g => obj_dispatch (reading (got_bytes g)) sm_panic
  | FromCluster g => obj_dispatch (reading (λ _, Panic)) (bytes g)
  end.

(** [GetResult::into_stream]: the chunks of the body. *)
Definition body_chunks (body : S3Body) : BM OsError (list (Res OsError (list byte))) :=
  match body with
  | InMemory data => sm_ret [Ok data]
  | FromRaw g => obj_dispatch (reading (λ b, Ok (map_err inl <$> got_chunks g b))) sm_panic
  | FromCluster g =>
    obj_dispatch (reading (λ _, Panic))
      (l <- ask_store g.1 (λ b, Ok (got_chunks g.2 b)) ;; sm_ret (map_err (inr ∘ FromShard) <$> l))
  end.

Definition obj_get (now : Z) (path : string) : BM OsError S3Body := λ b,
  match b with
  | BackendRaw raw => (b, map_err inl (FromRaw <$> store_get path raw))
  | BackendSharded c rr => let '(c', r) := ClusterIo.get now path c in (BackendSharded c' rr, map_err inr (FromCluster <$> r))
  end.

Definition obj_get_opts (now : Z) (path : string) (options : get_options) : BM OsError S3Body := λ b,
  match b with
  | BackendRaw raw => (b, map_err inl (FromRaw <$> store_get_opts path options raw))
  | BackendSharded c rr => let '(c', r) := ClusterCopy.get_opts now path options c in (BackendSharded c' rr, map_err inr (FromCluster <$> r))
  end.

Definition obj_head (now : Z) (path : string) : BM OsError ObjectMeta :=
  obj_dispatch (reading (store_head path)) (ClusterIo.head now path).

Definition obj_delete (now : Z) (path : string) : BM OsError unit :=
  obj_dispatch (store_delete path) (ClusterIo.delete now path).

(** The locations the stream of a listing yields, or its errors. *)
Definition obj_list (prefix : option string) : BM OsError (list (Res OsError string)) :=
  obj_dispatch
    (reading (λ b, match store_list prefix b with
                   | Ok l => Ok ((Ok ∘ om_location) <$> l)
                   | Err e => Ok [Err (inl e)]
                   | Panic => Panic
                   end))
    (c <- sm_get ;; sm_ret ((Ok ∘ listed_location) <$> list_all c prefix)).

(** [try_next] until the end or an error. *)
Fixpoint until_error (items : list (Res OsError string)) : list string :=
  match items with Ok location :: items' => location :: until_error items' | _ => [] end.
End backend.
