(* ===== verification/S3Adapter.v ===== *)
(** * The S3 adapter: buckets and objects ([objstrd/src/adapter.rs])

    The state of the adapter and the handlers of the bucket and object
    requests.  The environment of a call (clocks, temporary files) is an
    argument; a failed call keeps what it has already changed. *)

From S2P Require Import Prelude.
From S2P Require Import Config.
From S2P Require Import Extent.
From S2P Require Import Index.
From S2P Require Import StoreTools.
From S2P Require Import StoreMeta.
From S2P Require Import Tlv.
From S2P Require Import Catalog.
From S2P Require Import Backend.
From S2P Require Import Cluster.
From S2P Require Import ClusterIo.
From S2P Require Import ShardMeta.
From S2P Require Import ClusterAdmin.
From S2P Require Import Text.
From S2P Require Import S3Keys.
From S2P Require Import S3Backend.

(** ** State *)

Record PartMeta : Type := mkPart {
  pm_size : Z;
  pm_etag : string;
  temp_path : string;
}.

Record Upload : Type := mkUpload {
  up_bucket : string;
  up_key : string;
  up_metadata : gmap string string;
  parts : gmap Z PartMeta;
  created_at : Z;
}.

Definition MAX_CONCURRENT_UPLOADS : nat := 1000.
Definition UPLOAD_EXPIRY : Z := 24 * 60 * 60.
Definition DEFAULT_MAX_BODY_SIZE : Z := 5 * 1024 * 1024 * 1024.
Definition SPOOL_THRESHOLD : Z := 8 * 1024 * 1024.
Definition BUCKET_STATS_TTL : Z := 5.

(** A body as it arrives: chunks, or the error that ends it. *)
Definition BodyIn : Type := list (option (list byte)).

(** A new temporary file: whether a write behind what is already there works,
    whether a flush does, and the file rewound to its start ([None]: the seek
    failed). *)
Record Spool : Type := mkSpool {
  sp_write : list byte → list byte → bool;
  sp_flush : list byte → bool;
  sp_rewind : list byte → option OpenFile;
}.

(** The outside of a call: the wall clock, the monotonic one, the anonymous
    and the named temporary file it gets ([None]: none could be made), the
    reads of a kept file with given contents ([None]: it cannot be opened),
    and a fresh upload id. *)
Record Env : Type := mkEnv {
  now : Z;
  instant : Z;
  tempfile : option Spool;
  named_temp : option (string * Spool);
  temp_open : string → list byte → option BodyIn;
  uuid : string;
}.

(** The spooling loop over the chunks of [body], [written] and [total] being
    what is there: where it stops, what is in the file, and the size.  The
    limit, when there is one, is checked before each write. *)
Fixpoint spool_body (sp : Spool) (limit : option (Z * S3Error)) (written : list byte) (total : Z) (body : BodyIn) :
    list byte * S3Result Z :=
  match body with
  | [] => (written, Ok total)
  | None :: _ => (written, Err InternalError)
  | Some chunk :: body' =>
    let total := wadd total (zlen chunk) in
    match limit with
    | Some (max, e) =>
      if (0 <? max) && (max <? total) then (written, Err e)
      else if sp_write sp written chunk then spool_body sp limit (written ++ chunk) total body'
      else (written, Err InternalError)
    | None =>
      if sp_write sp written chunk then spool_body sp limit (written ++ chunk) total body'
      else (written, Err InternalError)
    end
  end.

(** The metadata appended, the file flushed and rewound. *)
Definition spool_finish (sp : Spool) (written meta_bytes : list byte) : S3Result OpenFile :=
  if sp_write sp written meta_bytes && sp_flush sp (written ++ meta_bytes)
  then ok_or (sp_rewind sp (written ++ meta_bytes)) InternalError
  else Err InternalError.

Section adapter.
Context `{ObjectBackend, !GetRequest, Crc32c, HashMapOrder, ObjectPath, Chrono, Md5, DateText}.

Record Adapter : Type := mkAdapter {
  ad_backend : StoreBackend;
  buckets : gset string;
  uploads : gmap string Upload;
  locations : gmap string string;
  bucket_stats_cache : gmap string (nat * Z * Z);
  allow_anon_list_buckets : bool;
  ad_events : option (list StoreEvent);
  max_body_size : Z;
  upload_expiry : Z;
  (** the kept temporary files *)
  temp_files : gmap string (list byte);
}.
Implicit Types (a : Adapter).

Definition with_backend (b : StoreBackend) a : Adapter :=
  mkAdapter b (buckets a) (uploads a) (locations a) (bucket_stats_cache a) (allow_anon_list_buckets a) (ad_events a)
    (max_body_size a) (upload_expiry a) (temp_files a).
Definition with_buckets (m : gset string) a : Adapter :=
  mkAdapter (ad_backend a) m (uploads a) (locations a) (bucket_stats_cache a) (allow_anon_list_buckets a) (ad_events a)
    (max_body_size a) (upload_expiry a) (temp_files a).
Definition with_uploads (m : gmap string Upload) a : Adapter :=
  mkAdapter (ad_backend a) (buckets a) m (locations a) (bucket_stats_cache a) (allow_anon_list_buckets a) (ad_events a)
    (max_body_size a) (upload_expiry a) (temp_files a).
Definition with_locations (m : gmap string string) a : Adapter :=
  mkAdapter (ad_backend a) (buckets a) (uploads a) m (bucket_stats_cache a) (allow_anon_list_buckets a) (ad_events a)
    (max_body_size a) (upload_expiry a) (temp_files a).
Definition with_stats (m : gmap string (nat * Z * Z)) a : Adapter :=
  mkAdapter (ad_backend a) (buckets a) (uploads a) (locations a) m (allow_anon_list_buckets a) (ad_events a)
    (max_body_size a) (upload_expiry a) (temp_files a).
Definition with_events (l : option (list StoreEvent)) a : Adapter :=
  mkAdapter (ad_backend a) (buckets a) (uploads a) (locations a) (bucket_stats_cache a) (allow_anon_list_buckets a) l
    (max_body_size a) (upload_expiry a) (temp_files a).
Definition with_temp_files (m : gmap string (list byte)) a : Adapter :=
  mkAdapter (ad_backend a) (buckets a) (uploads a) (locations a) (bucket_stats_cache a) (allow_anon_list_buckets a)
    (ad_events a) (max_body_size a) (upload_expiry a) m.

Definition build (b : StoreBackend) (names : gset string) : Adapter :=
  mkAdapter b names ∅ ∅ ∅ false None DEFAULT_MAX_BODY_SIZE UPLOAD_EXPIRY ∅.

Definition new (raw : store) : Adapter := build (BackendRaw raw) ∅.
Definition with_bucket (raw : store) (bucket : string) : Adapter := build (BackendRaw raw) {[bucket]}.
Definition new_sharded (cluster : ShardedObjectStore) (raw_refs : RawRefRegistry) : Adapter :=
  build (BackendSharded cluster raw_refs) ∅.
Definition with_bucket_sharded (cluster : ShardedObjectStore) (raw_refs : RawRefRegistry) (bucket : string) : Adapter :=
  build (BackendSharded cluster raw_refs) {[bucket]}.

Definition set_buckets (names : gset string) a : Adapter := with_buckets names a.
Definition set_allow_anon_list_buckets (allow : bool) a : Adapter :=
  mkAdapter (ad_backend a) (buckets a) (uploads a) (locations a) (bucket_stats_cache a) allow (ad_events a)
    (max_body_size a) (upload_expiry a) (temp_files a).
Definition set_event_bus a : Adapter := with_events (Some []) a.
Definition set_upload_expiry (dur : Z) a : Adapter :=
  mkAdapter (ad_backend a) (buckets a) (uploads a) (locations a) (bucket_stats_cache a) (allow_anon_list_buckets a)
    (ad_events a) (max_body_size a) dur (temp_files a).

Definition AM (A : Type) : Type := SM Adapter S3Error A.

(** A call of the backend, with the error the handler answers for each of its
    own; and one whose error is looked at. *)
Definition on_backend {E A} (error : E → S3Error) (m : BM E A) : AM A := λ a,
  let '(b, r) := m (ad_backend a) in (with_backend b a, map_err error r).
Definition try_backend {E A} (m : BM E A) : AM (E + A) := λ a,
  let '(b, r) := m (ad_backend a) in
  (with_backend b a, match r with Ok x => Ok (inr x) | Err e => Ok (inl e) | Panic => Panic end).

Definition internal {E} (_ : E) : S3Error := InternalError.
Definition no_key (e : RawStoreError) : S3Error := match e with NotFound _ => NoSuchKey | _ => InternalError end.
Definition no_object (e : OsError) : S3Error := if os_not_found e then NoSuchKey else InternalError.

Definition emit (e : StoreEvent) : AM unit := sm_modify (λ a, with_events ((λ l, l ++ [e]) <$> ad_events a) a).

(** The object count of a bucket has changed. *)
Definition invalidate_stats (bucket : string) : AM unit :=
  sm_modify (λ a, with_stats (base.delete bucket (bucket_stats_cache a)) a).

(** ** Buckets *)

Definition ensure_bucket (bucket : string) : AM unit :=
  a <- sm_get ;; if decide (bucket ∈ buckets a) then sm_ret tt else sm_err NoSuchBucket.

(** What [list(None)] yields until its end or an error. *)
Definition rebuild_buckets_from_index : AM (gset string) :=
  items <- on_backend internal (obj_list None) ;;
  let first location := (cut slash location).1 in
  sm_ret (list_to_set (filter (λ b, b ≠ "" ∧ b ≠ "__buckets__") (first <$> until_error items))).

Definition compute_bucket_stats (bucket : string) : AM (nat * Z) :=
  listing <- on_backend internal (backend_list_with_meta (Some (raw_path (bucket +:+ "/")))) ;;
  let counted := filter (λ item : ObjectMeta * Z,
    let full := om_location item.1 in
    starts_with "__buckets__/" (default full (strip_prefix (bucket +:+ "/") full)) = false) listing in
  sm_ret (length counted, foldl (λ n (item : ObjectMeta * Z), wadd n (om_size item.1)) 0 counted).

(** [create_bucket]: the location the answer names. *)
Definition create_bucket (bucket : string) (location_constraint : option string) : AM string :=
  if str_contains ".-" bucket || str_contains "-." bucket then sm_err InvalidBucketName
  else
    a <- sm_get ;;
    (if decide (bucket ∈ buckets a) then sm_ret tt
     else
       sm_modify (λ a, with_buckets ({[bucket]} ∪ buckets a) a) ;;;
       match location_constraint with
       | Some loc =>
         if decide (loc = "") then sm_ret tt else sm_modify (λ a, with_locations (<[bucket := loc]> (locations a)) a)
       | None => sm_ret tt
       end) ;;;
    sm_ret ("/" +:+ bucket).

(** [try_next().ok().flatten()]: a listing that starts with an error passes for
    an empty one. *)
Definition delete_bucket (bucket : string) : AM unit :=
  items <- on_backend internal (obj_list (Some (raw_path (bucket +:+ "/")))) ;;
  match items with
  | Ok _ :: _ => sm_err BucketNotEmpty
  | _ =>
    a <- sm_get ;;
    if decide (bucket ∈ buckets a) then sm_modify (λ a, with_buckets (buckets a ∖ {[bucket]}) a) else sm_err NoSuchBucket
  end.

(** [head_bucket]: the object count and the bytes of the headers. *)
Definition head_bucket (env : Env) (bucket : string) : AM (nat * Z) :=
  ensure_bucket bucket ;;;
  a <- sm_get ;;
  match bucket_stats_cache a !! bucket with
  | Some (count, used, at_) =>
    if decide (instant env - at_ < BUCKET_STATS_TTL) then sm_ret (count, used)
    else
      stats <- compute_bucket_stats bucket ;;
      sm_modify (λ a, with_stats (<[bucket := (stats, instant env)]> (bucket_stats_cache a)) a) ;;;
      sm_ret stats
  | None =>
    stats <- compute_bucket_stats bucket ;;
    sm_modify (λ a, with_stats (<[bucket := (stats, instant env)]> (bucket_stats_cache a)) a) ;;;
    sm_ret stats
  end.

Definition i32_max : Z := 2 ^ 31 - 1.
Definition as_usize (n : Z) : Z := n mod 2 ^ 64.

(** [list_buckets]: a page of names and the token of the next one. *)
Definition list_buckets (credentials : bool) (continuation_token : option string) (max_buckets : option Z) :
    AM (list string * option string) :=
  a <- sm_get ;;
  if negb credentials && negb (allow_anon_list_buckets a) then sm_ret ([], None)
  else
    let names := sort_by_path id (elements (buckets a)) in
    let token := default "" continuation_token in
    let names := if decide (token = "") then names else filter (λ n, ¬ (n ≤ token)%string) names in
    let max := as_usize (default i32_max max_buckets) in
    let page := ztake max names in
    sm_ret (page, if max <? zlen names then last page else None).

Definition get_bucket_location (bucket : string) : AM (option string) :=
  ensure_bucket bucket ;;; a <- sm_get ;; sm_ret (locations a !! bucket).

(** Versioning has no state: nothing is answered, and a change is ignored. *)
Definition get_bucket_versioning (bucket : string) : AM unit := ensure_bucket bucket.
Definition put_bucket_versioning (bucket : string) : AM unit := ensure_bucket bucket.

(** The owner and the one grantee of an access list, each by identifier and
    display name, and what is granted. *)
Record AclAnswer : Type := mkAcl {
  acl_owner : string * string;
  acl_grantee : string * string;
  acl_permission : string;
}.

Definition get_bucket_acl (bucket : string) : AM AclAnswer :=
  ensure_bucket bucket ;;; sm_ret (mkAcl ("rawobjstr", "rawobjstr") ("rawobjstr", "rawobjstr") "FULL_CONTROL").

(** ** Objects *)

(** [self.load_metadata] *)
Definition load_metadata (bucket key : string) : AM (option (gmap string string)) :=
  r <- try_backend (backend_get_metadata (obj_key bucket key)) ;;
  sm_ret match r with
         | inr data => Some (if decide (data = []) then ∅ else decode_metadata data)
         | inl _ => None
         end.

Record PutObjectInput : Type := mkPutInput {
  po_bucket : string;
  po_key : string;
  po_content_length : option Z;
  po_headers : ObjectHeaders;
  po_body : option BodyIn;
}.

(** The chunks collected, or [None] at an error. *)
Fixpoint collect_body (body : BodyIn) : option (list byte) :=
  match body with
  | [] => Some []
  | Some chunk :: body' => app chunk <$> collect_body body'
  | None :: _ => None
  end.

Definition metadata_bytes (meta : gmap string string) : S3Result (list byte) :=
  map_err (λ _, InvalidArgument "") (encode_metadata meta).

(** The end of a put: event, statistics, entity tag. *)
Definition put_done (bucket key md5 : string) : AM string :=
  emit (EventPut key) ;;; invalidate_stats bucket ;;; sm_ret md5.

Definition put_small (env : Env) (input : PutObjectInput) (data : list byte) : AM string :=
  let md5 := md5_hex data in
  meta_bytes <- sm_lift (metadata_bytes (<["etag" := md5]> (build_s3_metadata (po_headers input)))) ;;
  on_backend internal (backend_put_with_meta (now env) (obj_key (po_bucket input) (po_key input)) data meta_bytes) ;;;
  put_done (po_bucket input) (po_key input) md5.

Definition put_spooled (env : Env) (input : PutObjectInput) (body : BodyIn) : AM string :=
  a <- sm_get ;;
  sp <- sm_lift (ok_or (tempfile env) InternalError) ;;
  let '(data, r) := spool_body sp (Some (max_body_size a, EntityTooLarge "Object size exceeds server limit")) [] 0 body in
  sm_lift r ;;;
  let md5 := md5_hex data in
  meta_bytes <- sm_lift (metadata_bytes (<["etag" := md5]> (build_s3_metadata (po_headers input)))) ;;
  file <- sm_lift (spool_finish sp data meta_bytes) ;;
  on_backend internal (backend_put_from_file (now env) (obj_key (po_bucket input) (po_key input)) file
                         (zlen meta_bytes mod 2 ^ 16)) ;;;
  put_done (po_bucket input) (po_key input) md5.

(** [put_object]: the entity tag. *)
Definition put_object (env : Env) (input : PutObjectInput) : AM string :=
  sm_lift (validate_key (po_key input)) ;;;
  ensure_bucket (po_bucket input) ;;;
  a <- sm_get ;;
  let declared := default (-1) (po_content_length input) in
  if (0 <? max_body_size a) && (0 <? declared) && (max_body_size a <? declared)
  then sm_err (EntityTooLarge "Object size exceeds server limit")
  else
    match po_body input with
    | None => put_small env input []
    | Some body =>
      if (0 <=? declared) && (declared <=? SPOOL_THRESHOLD)
      then data <- sm_lift (ok_or (collect_body body) InternalError) ;; put_small env input data
      else put_spooled env input body
    end.

(** *** Reading *)

Inductive S3Range : Type :=
| RangeInt (first : Z) (last : option Z)
| RangeSuffix (length : Z).

Inductive ETag : Type := Strong (s : string) | Weak (s : string).
#[local] Instance ETag_eq_dec : EqDecision ETag.
Proof. solve_decision. Defined.

Inductive ETagCondition : Type := AnyTag | Tag (e : ETag).

Record GetObjectInput : Type := mkGetInput {
  go_bucket : string;
  go_key : string;
  go_range : option S3Range;
  if_modified_since : option Z;
  if_unmodified_since : option Z;
  if_match : option ETagCondition;
  if_none_match : option ETagCondition;
}.

Record GetObjectOutput : Type := mkGetOutput {
  out_body : S3Body;
  out_content_length : Z;
  out_content_range : option string;
  out_headers : ObjectHeaders;
  out_last_modified : Z;
  out_etag : ETag;
}.

Definition EMPTY_ETAG : string := "d41d8cd98f00b204e9800998ecf8427e".

Definition tag_matches (c : ETagCondition) (e : ETag) : bool :=
  match c with AnyTag => true | Tag e' => bool_decide (e' = e) end.

Definition double_quoted (s : string) : string := String double_quote (s +:+ String double_quote "").
Definition etag_header (e : ETag) : string :=
  match e with Strong s => double_quoted s | Weak s => "W/" +:+ double_quoted s end.

(** The conditional headers; [modified] in whole seconds.  [header_text] tells
    what can be a header. *)
Definition check_conditions (header_text : string → bool) (input : GetObjectInput) (modified : Z)
    (meta : gmap string string) : S3Result ETag :=
  let header s := if header_text s then Some s else None in
  if match if_modified_since input with Some t => modified <=? t | None => false end
  then Err (NotModified ((double_quoted <$> meta !! "etag") ≫= header))
  else if match if_unmodified_since input with Some t => t <? modified | None => false end
  then Err PreconditionFailed
  else
    let etag := Strong (default EMPTY_ETAG (meta !! "etag")) in
    if match if_match input with Some c => negb (tag_matches c etag) | None => false end
    then Err PreconditionFailed
    else if match if_none_match input with Some c => tag_matches c etag | None => false end
    then Err (NotModified (header (etag_header etag)))
    else Ok etag.

(** [as i64] *)
Definition as_i64 (n : Z) : Z := if n <? 2 ^ 63 then n else n - 2 ^ 64.

(** The headers of a get: those of a head, without [expires]. *)
Definition get_headers (meta : gmap string string) : ObjectHeaders :=
  mkHeaders (meta !! "content-type") (meta !! "cache-control") (meta !! "content-disposition")
    (meta !! "content-encoding") (meta !! "content-language") None (extract_user_metadata meta).

(** The bytes a range asks of a body of [size] bytes. *)
Definition range_bounds (r : S3Range) (size : Z) : Z * Z :=
  match r with
  | RangeInt first last => (first, Z.min (match last with Some l => wadd l 1 | None => size end) size)
  | RangeSuffix length => let len := Z.min length size in (wsub size len, size)
  end.

Definition content_range_text (start end_ size : Z) : string :=
  "bytes " +:+ pretty start +:+ "-" +:+ pretty (wsub end_ 1) +:+ "/" +:+ pretty size.

(** A missing sidecar is no metadata; another failure ends the get. *)
Definition read_metadata (path : string) : AM (gmap string string) :=
  r <- try_backend (backend_get_metadata path) ;;
  match r with
  | inr data => sm_ret (if decide (data = []) then ∅ else decode_metadata data)
  | inl (NotFound _) => sm_ret ∅
  | inl _ => sm_err InternalError
  end.

Context (whole_seconds : Z → Z) (header_text : string → bool).

(** The bounded read of a range; nothing is read of an empty one. *)
Definition get_object_range (env : Env) (path : string) (r : S3Range) (size : Z) (modified : Z) (etag : ETag)
    (meta : gmap string string) : AM GetObjectOutput :=
  let '(start, end_) := range_bounds r size in
  body <- (if start <? end_
           then
             b <- on_backend internal (obj_get_opts (now env) path (options_bounded start end_)) ;;
             data <- on_backend internal (read_body b) ;;
             sm_ret (InMemory data)
           else sm_ret (InMemory [])) ;;
  sm_ret (mkGetOutput body (as_i64 (wsub end_ start)) (Some (content_range_text start end_ size)) (get_headers meta)
            modified etag).

(** The whole object, as the stream of the backend. *)
Definition get_object_full (env : Env) (path : string) (size : Z) (modified : Z) (etag : ETag)
    (meta : gmap string string) : AM GetObjectOutput :=
  body <- on_backend internal (obj_get_opts (now env) path options_default) ;;
  sm_ret (mkGetOutput body (as_i64 size) None (get_headers meta) modified etag).

Definition get_object (env : Env) (input : GetObjectInput) : AM GetObjectOutput :=
  sm_lift (validate_key (go_key input)) ;;;
  ensure_bucket (go_bucket input) ;;;
  let path := obj_key (go_bucket input) (go_key input) in
  head <- on_backend no_key (backend_head_with_meta path) ;;
  let size := om_size head.1 in
  meta <- read_metadata path ;;
  if match go_range input with Some (RangeInt first _) => size <=? first | _ => false end then sm_err (InvalidRange "")
  else
    etag <- sm_lift (check_conditions header_text input (whole_seconds (om_last_modified head.1)) meta) ;;
    match go_range input with
    | Some r => get_object_range env path r size (om_last_modified head.1) etag meta
    | None => get_object_full env path size (om_last_modified head.1) etag meta
    end.

Record HeadObjectOutput : Type := mkHeadOutput {
  ho_content_length : Z;
  ho_headers : ObjectHeaders;
  ho_last_modified : Z;
  ho_etag : option ETag;
}.

(** Any failure to read the metadata is no metadata. *)
Definition read_metadata_or_none (path : string) : AM (gmap string string) :=
  r <- try_backend (backend_get_metadata path) ;;
  sm_ret match r with
         | inr data => if decide (data = []) then ∅ else decode_metadata data
         | inl _ => ∅
         end.

Definition head_object (bucket key : string) : AM HeadObjectOutput :=
  sm_lift (validate_key key) ;;;
  ensure_bucket bucket ;;;
  let path := obj_key bucket key in
  head <- on_backend no_key (backend_head_with_meta path) ;;
  meta <- read_metadata_or_none path ;;
  sm_ret (mkHeadOutput (as_i64 (om_size head.1)) (stored_headers meta) (om_last_modified head.1) (Strong <$> meta !! "etag")).

(** [get_object_attributes]: entity tag, size, storage class, time. *)
Definition get_object_attributes (bucket key : string) (requested : gset string) :
    AM (option ETag * option Z * option string * Z) :=
  sm_lift (validate_key key) ;;;
  ensure_bucket bucket ;;;
  let path := obj_key bucket key in
  head <- on_backend no_key (backend_head_with_meta path) ;;
  meta <- (if decide ("ETag" ∈ requested ∨ "StorageClass" ∈ requested ∨ "Checksum" ∈ requested)
           then read_metadata_or_none path else sm_ret ∅) ;;
  sm_ret (if decide ("ETag" ∈ requested) then Strong <$> meta !! "etag" else None,
          if decide ("ObjectSize" ∈ requested) then Some (as_i64 (om_size head.1)) else None,
          if decide ("StorageClass" ∈ requested) then Some (default "STANDARD" (meta !! "x-amz-storage-class")) else None,
          om_last_modified head.1).

(** The same answer for every object that is there. *)
Definition get_object_acl (env : Env) (bucket key : string) : AM AclAnswer :=
  ensure_bucket bucket ;;;
  on_backend no_object (obj_head (now env) (obj_key bucket key)) ;;;
  sm_ret (mkAcl ("testuser", "Test User") ("testuser", "Test User") "FULL_CONTROL").

(** *** Deleting *)

(** One delete: the error of the store, or done. *)
Definition delete_one (env : Env) (bucket key : string) : AM (option OsError) :=
  let path := obj_key bucket key in
  try_backend (delete_sidecar path) ;;;
  r <- try_backend (obj_delete (now env) path) ;;
  match r with
  | inl e => if os_not_found e then emit (EventDelete key) ;;; sm_ret None else sm_ret (Some e)
  | inr _ => emit (EventDelete key) ;;; sm_ret None
  end.

Definition delete_object (env : Env) (bucket key : string) : AM unit :=
  sm_lift (validate_key key) ;;;
  ensure_bucket bucket ;;;
  r <- delete_one env bucket key ;;
  match r with
  | Some _ => sm_err InternalError
  | None => invalidate_stats bucket
  end.

(** A key of a batch: deleted, refused, or failed with an error. *)
Inductive DeleteResult : Type :=
| Deleted (key : string)
| Refused (key : string)
| Failed (key : string) (e : OsError).

Fixpoint delete_each (env : Env) (bucket : string) (keys : list string) : AM (list DeleteResult) :=
  match keys with
  | [] => sm_ret []
  | key :: keys' =>
    r <- (if is_ok (validate_key key)
          then
            r <- delete_one env bucket key ;;
            sm_ret match r with Some e => Failed key e | None => Deleted key end
          else sm_ret (Refused key)) ;;
    rest <- delete_each env bucket keys' ;;
    sm_ret (r :: rest)
  end.

Definition delete_objects (env : Env) (bucket : string) (keys : list string) : AM (list DeleteResult) :=
  ensure_bucket bucket ;;;
  if 1000 <? zlen keys then sm_err (MalformedXML "You may not request more than 1000 items in a batch delete")
  else delete_each env bucket keys.

(** *** Copying *)

(** [read_source_object]: body, metadata bytes, entity tag. *)
Definition read_source_object (env : Env) (path : string) : AM (list byte * list byte * string) :=
  head <- on_backend no_key (backend_head_with_meta path) ;;
  b <- on_backend no_object (obj_get (now env) path) ;;
  body <- on_backend internal (read_body b) ;;
  if 0 <? head.2 then
    raw_meta <- on_backend internal (backend_get_metadata path) ;;
    sm_ret (body, raw_meta, default (md5_hex body) (decode_metadata raw_meta !! "etag"))
  else sm_ret (body, [], md5_hex body).

(** [CopySource]: a bucket and a key, or an access point. *)
Record CopyObjectInput : Type := mkCopyInput {
  co_bucket : string;
  co_key : string;
  co_source : option (string * string);
  co_replace : bool;
  co_headers : ObjectHeaders;
}.

Definition copy_object (env : Env) (input : CopyObjectInput) : AM string :=
  match co_source input with
  | None => sm_err (NotImplemented "")
  | Some (src_bucket, src_key) =>
    sm_lift (validate_key src_key) ;;;
    sm_lift (validate_key (co_key input)) ;;;
    ensure_bucket src_bucket ;;;
    ensure_bucket (co_bucket input) ;;;
    if bool_decide (src_bucket = co_bucket input ∧ src_key = co_key input) && negb (co_replace input)
    then sm_err (InvalidRequest ("This copy request is illegal because it is trying to copy an object to itself " +:+
                   "without changing the object's metadata, storage class, website redirect location " +:+
                   "or encryption attributes."))
    else
      source <- read_source_object env (obj_key src_bucket src_key) ;;
      let '(body, raw_meta, etag) := source in
      let dst := obj_key (co_bucket input) (co_key input) in
      meta_bytes <- (if co_replace input then sm_lift (metadata_bytes (<["etag" := etag]> (build_s3_metadata (co_headers input))))
                     else if decide (raw_meta = []) then sm_lift (metadata_bytes {["etag" := etag]})
                     else sm_ret raw_meta) ;;
      on_backend internal (backend_put_with_meta (now env) dst body meta_bytes) ;;;
      put_done (co_bucket input) (co_key input) etag
  end.
End adapter.
