(* ===== verification/S3Listing.v ===== *)
(** * The S3 adapter: listings ([objstrd/src/adapter.rs] 1547-1936 and 2542-2644)

    A listing filters what the backend lists under the directory of the
    prefix, groups keys at the delimiter, sorts, and returns a page: the
    objects and the common prefixes merged up to [max_keys], with the last of
    them as the token of the next page. *)

From S2P Require Import Prelude.
From S2P Require Import Config.
From S2P Require Import Extent.
From S2P Require Import Index.
From S2P Require Import StoreTools.
From S2P Require Import StoreMeta.
From S2P Require Import Tlv.
From S2P Require Import Catalog.
From S2P Require Import Backend.
From S2P Require Import Cluster.
From S2P Require Import ClusterAdmin.
From S2P Require Import Text.
From S2P Require Import S3Keys.
From S2P Require Import S3Backend.
From S2P Require Import S3Adapter.

Record ListObjectsV2Input : Type := mkListInput {
  li_bucket : string;
  li_prefix : option string;
  li_delimiter : option string;
  li_max_keys : option Z;
  li_encoding_type : option string;
  li_start_after : option string;
  li_token : option string;
  li_fetch_owner : option bool;
}.

(** [Object]; [ob_owner]: the constant owner is named. *)
Record S3Object : Type := mkS3Object {
  ob_key : string;
  ob_last_modified : Z;
  ob_size : Z;
  ob_owner : bool;
  ob_e_tag : option ETag;
}.

Record ListObjectsV2Output : Type := mkListOutput {
  lo_contents : list S3Object;
  lo_prefixes : list string;
  lo_key_count : Z;
  lo_max_keys : Z;
  lo_is_truncated : bool;
  lo_next_token : option string;
}.

(** [s[..=s.rfind('/')]], empty without a slash. *)
Fixpoint dir_part (s : string) : string :=
  match s with
  | EmptyString => ""
  | String a s' =>
    if decide (dir_part s' = "") then if decide (a = slash) then String a "" else "" else String a (dir_part s')
  end.

(** [s.find(sub)] *)
Fixpoint find_sub (sub s : string) : option nat :=
  if String.prefix sub s then Some 0%nat
  else match s with
       | EmptyString => None
       | String _ s' => S <$> find_sub sub s'
       end.

(** [k] comes after the marker, if there is one. *)
Definition after (marker : option string) (k : string) : bool :=
  match marker with Some t => negb (bool_decide (k ≤ t)%string) | None => true end.

Definition non_blank (o : option string) : option string := s ← o; if decide (s = "") then None else Some s.

(** The common prefix of a key of the prefix, when it has the delimiter. *)
Definition common_prefix (delimiter : option string) (prefix key : string) : option string :=
  delim ← delimiter;
  let remainder := drop_bytes (String.length prefix) key in
  pos ← find_sub delim remainder;
  Some (prefix +:+ take_bytes (pos + String.length delim) remainder).

(** What a listed object is in the answer: an object, a common prefix, or
    nothing. *)
Definition place_item (input : ListObjectsV2Input) (item : ObjectMeta * Z) : option (S3Object + string) :=
  let prefix := default "" (li_prefix input) in
  key ← listed_key (li_bucket input) (om_location item.1);
  if negb (String.prefix prefix key) then None
  else if negb (after (li_start_after input) key && after (li_token input) key) then None
  else match common_prefix (non_blank (li_delimiter input)) prefix key with
       | Some cp => if after (li_start_after input) cp && after (li_token input) cp then Some (inr cp) else None
       | None => Some (inl (mkS3Object key (om_last_modified item.1) (as_i64 (om_size item.1))
                              (default false (li_fetch_owner input)) None))
       end.

Definition page_objects (input : ListObjectsV2Input) (listing : list (ObjectMeta * Z)) : list S3Object :=
  sort_by_path ob_key (omap (λ item, p ← place_item input item; match p with inl o => Some o | inr _ => None end) listing).
Definition page_prefixes (input : ListObjectsV2Input) (listing : list (ObjectMeta * Z)) : list string :=
  sort_by_path id (elements (list_to_set (C := gset string)
    (omap (λ item, p ← place_item input item; match p with inl _ => None | inr cp => Some cp end) listing))).

(** The merge loop: [n] more items; what is taken of both lists, and what is
    left of them. *)
Fixpoint merge_page (n : nat) (objects : list S3Object) (prefixes : list string) :
    (list S3Object * list string) * (list S3Object * list string) :=
  match n with
  | O => (([], []), (objects, prefixes))
  | S n' =>
    match objects, prefixes with
    | o :: objects', p :: prefixes' =>
      if decide (p ≤ ob_key o)%string
      then let '((os, ps), rest) := merge_page n' objects prefixes' in ((os, p :: ps), rest)
      else let '((os, ps), rest) := merge_page n' objects' prefixes in ((o :: os, ps), rest)
    | o :: objects', [] => let '((os, ps), rest) := merge_page n' objects' [] in ((o :: os, ps), rest)
    | [], p :: prefixes' => let '((os, ps), rest) := merge_page n' [] prefixes' in ((os, p :: ps), rest)
    | [], [] => (([], []), ([], []))
    end
  end.

(** The greater of the last object's key and the last prefix. *)
Definition last_item (keys prefixes : list string) : option string :=
  match last keys, last prefixes with
  | Some ok, Some pk => Some (if decide (ok ≤ pk)%string then pk else ok)
  | Some ok, None => Some ok
  | None, o => o
  end.

(** The page of a listing, before the entity tags. *)
Definition list_page (input : ListObjectsV2Input) (listing : list (ObjectMeta * Z)) : ListObjectsV2Output :=
  let max_keys := default 1000 (li_max_keys input) in
  let '((os, ps), (os', ps')) :=
    merge_page (Z.to_nat (Z.max max_keys 0)) (page_objects input listing) (page_prefixes input listing) in
  let truncated := (0 <? max_keys) && negb (bool_decide (os' = [] ∧ ps' = [])) in
  mkListOutput os ps (zlen os + zlen ps) max_keys truncated (if truncated then last_item (ob_key <$> os) ps else None).

Definition with_e_tag (o : S3Object) (e : option ETag) : S3Object :=
  mkS3Object (ob_key o) (ob_last_modified o) (ob_size o) (ob_owner o) e.

(** The keys and prefixes URL-encoded. *)
Definition encode_output (out : ListObjectsV2Output) : ListObjectsV2Output :=
  let encode o := mkS3Object (url_encode (ob_key o)) (ob_last_modified o) (ob_size o) (ob_owner o) (ob_e_tag o) in
  mkListOutput (encode <$> lo_contents out) (url_encode <$> lo_prefixes out) (lo_key_count out) (lo_max_keys out)
    (lo_is_truncated out) (lo_next_token out).

Definition use_url_encoding (input : ListObjectsV2Input) : bool := bool_decide (li_encoding_type input = Some "url").

Section listing.
Context `{ObjectBackend, !GetRequest, Crc32c, HashMapOrder, ObjectPath, Chrono, Md5, DateText}.

Fixpoint load_e_tags (bucket : string) (objects : list S3Object) : AM (list S3Object) :=
  match objects with
  | [] => sm_ret []
  | o :: objects' =>
    meta <- load_metadata bucket (ob_key o) ;;
    rest <- load_e_tags bucket objects' ;;
    sm_ret (with_e_tag o (Strong <$> (meta ≫= λ m, m !! "etag")) :: rest)
  end.

Definition list_objects_v2 (input : ListObjectsV2Input) : AM ListObjectsV2Output :=
  ensure_bucket (li_bucket input) ;;;
  let dir_prefix := li_bucket input +:+ "/" +:+ dir_part (default "" (li_prefix input)) in
  listing <- on_backend internal (backend_list_with_meta (Some (raw_path dir_prefix))) ;;
  let page := list_page input listing in
  contents <- load_e_tags (li_bucket input) (lo_contents page) ;;
  let out := mkListOutput contents (lo_prefixes page) (lo_key_count page) (lo_max_keys page) (lo_is_truncated page)
               (lo_next_token page) in
  sm_ret (if use_url_encoding input then encode_output out else out).

(** [list_objects]: the version 1 request is answered by the version 2 one;
    [input] is its conversion, [query] the text of the query.  The answer and
    the next marker. *)
Definition list_objects (query : option string) (input : ListObjectsV2Input) :
    AM (ListObjectsV2Output * option string) :=
  if match query with Some q => str_contains "allow-unordered=true" q | None => false end
     && bool_decide (is_Some (li_delimiter input))
  then sm_err (InvalidArgument "allow-unordered may not be used with delimiter")
  else
    out <- list_objects_v2 (mkListInput (li_bucket input) (li_prefix input) (li_delimiter input) (li_max_keys input)
                              (li_encoding_type input) (li_start_after input) (li_token input) (Some true)) ;;
    sm_ret (out, if lo_is_truncated out && bool_decide (is_Some (non_blank (li_delimiter input)))
                 then last_item (ob_key <$> lo_contents out) (lo_prefixes out) else None).

(** ** Versions *)

Record ListVersionsInput : Type := mkVersionsInput {
  lv_bucket : string;
  lv_prefix : option string;
  lv_key_marker : option string;
  lv_max_keys : option Z;
}.

(** An object as its only version: key, time, size. *)
Record ObjectVersion : Type := mkVersion {
  ov_key : string;
  ov_last_modified : Z;
  ov_size : Z;
}.

Record ListVersionsOutput : Type := mkVersionsOutput {
  vo_versions : list ObjectVersion;
  vo_is_truncated : bool;
  vo_next_key_marker : option string;
}.

Definition version_of (input : ListVersionsInput) (item : ObjectMeta * Z) : option ObjectVersion :=
  key ← listed_key (lv_bucket input) (om_location item.1);
  if negb (String.prefix (default "" (lv_prefix input)) key) then None
  else if negb (after (non_blank (lv_key_marker input)) key) then None
  else Some (mkVersion key (om_last_modified item.1) (as_i64 (om_size item.1))).

(** A page of the versions; [max_keys as usize] of a negative number is huge. *)
Definition versions_page (input : ListVersionsInput) (listing : list (ObjectMeta * Z)) : ListVersionsOutput :=
  let max_keys := as_usize (default 1000 (lv_max_keys input)) in
  let versions := sort_by_path ov_key (omap (version_of input) listing) in
  let page := ztake max_keys versions in
  let truncated := max_keys <? zlen versions in
  mkVersionsOutput page truncated (if truncated then ov_key <$> last page else None).

Definition list_object_versions (input : ListVersionsInput) : AM ListVersionsOutput :=
  ensure_bucket (lv_bucket input) ;;;
  listing <- on_backend internal (backend_list_with_meta
    (Some (raw_path (lv_bucket input +:+ "/" +:+ default "" (lv_prefix input))))) ;;
  sm_ret (versions_page input listing).
End listing.
