(* ===== verification/S3Uploads.v ===== *)
(** * The S3 adapter: multipart uploads ([objstrd/src/adapter.rs] 1940-2474)

    An upload collects its parts in kept temporary files; completing it joins
    the parts asked for in one file and writes that to the backend.  Dropping
    an upload removes the files of its parts. *)

From S2P Require Import Prelude.
From S2P Require Import Config.
From S2P Require Import Extent.
From S2P Require Import Index.
From S2P Require Import StoreTools.
From S2P Require Import StoreMeta.
From S2P Require Import Tlv.
From S2P Require Import Catalog.
From S2P Require Import Backend.
From S2P Require Import Cluster.
From S2P Require Import ClusterIo.
From S2P Require Import ShardMeta.
From S2P Require Import ClusterAdmin.
From S2P Require Import Text.
From S2P Require Import S3Keys.
From S2P Require Import S3Backend.
From S2P Require Import S3Adapter.

Definition by_number (x y : Z * Z * string) : Prop := x.1.1 <= y.1.1.
#[export] Instance by_number_dec x y : Decision (by_number x y).
Proof. rewrite /by_number. apply _. Defined.

Section uploads.
Context `{ObjectBackend, !GetRequest, Crc32c, HashMapOrder, ObjectPath, Chrono, Md5, DateText}.
Implicit Types (a : Adapter) (u : Upload).

Definition with_parts (m : gmap Z PartMeta) u : Upload :=
  mkUpload (up_bucket u) (up_key u) (up_metadata u) m (created_at u).

(** [Drop for Upload] *)
Definition drop_upload u a : Adapter :=
  with_temp_files (filter (λ '(path, _), path ∉ temp_path <$> (map_to_list (parts u)).*2) (temp_files a)) a.

(** An upload taken out of the registry, and dropped. *)
Definition discard_upload (id : string) a : Adapter :=
  match uploads a !! id with
  | Some u => drop_upload u (with_uploads (base.delete id (uploads a)) a)
  | None => a
  end.

Definition insert_upload (id : string) u a : Adapter :=
  let a := discard_upload id a in with_uploads (<[id := u]> (uploads a)) a.

(** [checked_duration_since(created_at).unwrap_or_default() > upload_expiry] *)
Definition is_stale (env : Env) a u : bool := upload_expiry a <? Z.max 0 (instant env - created_at u).

Definition purge_stale (env : Env) a : Adapter :=
  foldr discard_upload a (map_to_list (filter (λ '(_, u), is_stale env a u = true) (uploads a))).*1.

Definition create_multipart_upload (env : Env) (bucket key : string) (headers : ObjectHeaders) : AM string :=
  ensure_bucket bucket ;;;
  sm_modify (purge_stale env) ;;;
  a <- sm_get ;;
  if decide (MAX_CONCURRENT_UPLOADS <= size (uploads a))%nat
  then sm_err (SlowDown "too many concurrent multipart uploads")
  else
    sm_modify (insert_upload (uuid env) (mkUpload bucket key (build_s3_metadata headers) ∅ (instant env))) ;;;
    sm_ret (uuid env).

Definition part_number_ok (n : Z) : bool := (1 <=? n) && (n <=? 10000).
Definition bad_part_number : S3Error := InvalidArgument "part number must be between 1 and 10000".

Definition keep_file (path : string) (data : list byte) a : Adapter := with_temp_files (<[path := data]> (temp_files a)) a.
Definition remove_file (path : string) a : Adapter := with_temp_files (base.delete path (temp_files a)) a.

(** The part becomes one of the upload; the one it replaces is forgotten. *)
Definition register_part (upload_id : string) (n : Z) (part : PartMeta) : AM unit :=
  a <- sm_get ;;
  match uploads a !! upload_id with
  | None => sm_err NoSuchUpload
  | Some u => sm_modify (with_uploads (<[upload_id := with_parts (<[n := part]> (parts u)) u]> (uploads a)))
  end.

(** The end of a part upload: what was spooled is flushed and registered. *)
Definition finish_part (sp : Spool) (upload_id path : string) (n : Z) (data : list byte) (r : S3Result Z) : AM string :=
  total <- sm_lift r ;;
  if sp_flush sp data
  then register_part upload_id n (mkPart total (md5_hex data) path) ;;; sm_ret (md5_hex data)
  else sm_err InternalError.

Definition upload_part (env : Env) (upload_id : string) (n : Z) (body : option BodyIn) : AM string :=
  if negb (part_number_ok n) then sm_err bad_part_number
  else
    temp <- sm_lift (ok_or (named_temp env) InternalError) ;;
    let '(path, sp) := temp in
    a <- sm_get ;;
    let '(data, r) := spool_body sp (Some (max_body_size a, EntityTooLarge "Part size exceeds server limit")) [] 0
                        (default [] body) in
    sm_modify (keep_file path data) ;;;
    sm_on_err (finish_part sp upload_id path n data r) (remove_file path).

(** *** Copying a part *)

Definition minus_sign : Ascii.ascii := Ascii.ascii_of_nat 45.

Definition bad_copy_range : S3Error := InvalidArgument "Invalid CopySourceRange format".

Fixpoint all_digits (s : string) : bool :=
  match s with
  | EmptyString => true
  | String a s' => bool_decide (is_Some (digit_of a)) && all_digits s'
  end.

(** The bytes [start, end) the header asks of a source of [size] bytes. *)
Definition copy_range (range : option string) (size : Z) : S3Result (Z * Z) :=
  match range with
  | None => Ok (0, size)
  | Some text =>
    bytes_range ← ok_or (strip_prefix "bytes=" (trim text)) bad_copy_range;
    let '(start_str, rest) := cut minus_sign bytes_range in
    end_str ← ok_or rest bad_copy_range;
    if negb (all_digits start_str && all_digits end_str) then Err bad_copy_range
    else
      start ← ok_or (parse_uint u64_max start_str) (InvalidArgument "Invalid CopySourceRange");
      end_ ← ok_or (parse_uint u64_max end_str) (InvalidArgument "Invalid CopySourceRange");
      if end_ <? start then Err (InvalidRange "CopySourceRange start > end")
      else if (size <=? start) || (size <=? end_) then Err (InvalidRange "CopySourceRange out of bounds")
      else Ok (start, end_ + 1)
  end.

(** A stream of the backend as a body that arrives. *)
Fixpoint arriving {E} (chunks : list (Res E (list byte))) : S3Result BodyIn :=
  match chunks with
  | [] => Ok []
  | Ok chunk :: chunks' => rest ← arriving chunks'; Ok (Some chunk :: rest)
  | Err _ :: _ => Ok [None]
  | Panic :: _ => Panic
  end.

Definition upload_part_copy (env : Env) (upload_id : string) (n : Z) (source : option (string * string))
    (range : option string) : AM string :=
  if negb (part_number_ok n) then sm_err bad_part_number
  else
    match source with
    | None => sm_err (NotImplemented "AccessPoint CopySource not supported")
    | Some (src_bucket, src_key) =>
      let path := obj_key src_bucket src_key in
      head <- on_backend no_key (backend_head_with_meta path) ;;
      bounds <- sm_lift (copy_range range (om_size head.1)) ;;
      a <- sm_get ;;
      if (0 <? max_body_size a) && (max_body_size a <? bounds.2 - bounds.1)
      then sm_err (EntityTooLarge "Copy source size exceeds server limit")
      else
        temp <- sm_lift (ok_or (named_temp env) InternalError) ;;
        let '(file, sp) := temp in
        sm_modify (keep_file file []) ;;;
        b <- on_backend no_object (obj_get_opts (now env) path (options_bounded bounds.1 bounds.2)) ;;
        chunks <- on_backend internal (body_chunks b) ;;
        body <- sm_lift (arriving chunks) ;;
        let '(data, r) := spool_body sp None [] 0 body in
        sm_modify (keep_file file data) ;;;
        finish_part sp upload_id file n data r
    end.

(** *** Completing *)

(** The files of the parts, in the order asked for, behind each other. *)
Fixpoint assemble (env : Env) (sp : Spool) u (files : gmap string (list byte)) (written : list byte)
    (asked : list (option Z)) : S3Result (list byte) :=
  match asked with
  | [] => Ok written
  | p :: asked' =>
    n ← ok_or p (InvalidRequest "missing part number");
    part ← ok_or (parts u !! n) (InvalidPart "");
    reads ← ok_or (files !! temp_path part ≫= temp_open env (temp_path part)) InternalError;
    let '(written, r) := spool_body sp None written 0 reads in
    _ ← r;
    assemble env sp u files written asked'
  end.

(** The joined file of the parts and its metadata, the digest and the
    metadata's length. *)
Definition joined_file (env : Env) u (files : gmap string (list byte)) (asked : list (option Z)) :
    S3Result (OpenFile * string * Z) :=
  sp ← ok_or (tempfile env) InternalError;
  data ← assemble env sp u files [] asked;
  if negb (sp_flush sp data) then Err InternalError
  else
    let md5 := md5_hex data in
    meta_bytes ← metadata_bytes (<["etag" := md5]> (up_metadata u));
    file ← spool_finish sp data meta_bytes;
    Ok (file, md5, zlen meta_bytes mod 2 ^ 16).

(** The upload is no longer registered: an object under the key is the answer
    of an earlier call. *)
Definition complete_again (env : Env) (bucket key : string) : AM string :=
  r <- try_backend (obj_head (now env) (obj_key bucket key)) ;;
  match r with
  | inl _ => sm_err NoSuchUpload
  | inr _ => meta <- load_metadata bucket key ;; sm_ret (default "" (meta ≫= λ m, m !! "etag"))
  end.

(** An upload out of the registry; it is dropped at the end, unless the
    backend failed, which puts it back. *)
Definition complete_upload (env : Env) (bucket key upload_id : string) u (asked : list (option Z)) : AM string :=
  if decide (asked = [])
  then sm_modify (drop_upload u) ;;; sm_err (InvalidPart "multipart upload must contain at least one part")
  else
    a <- sm_get ;;
    joined <- sm_on_err (sm_lift (joined_file env u (temp_files a) asked)) (drop_upload u) ;;
    let '(file, md5, meta_len) := joined in
    r <- try_backend (backend_put_from_file (now env) (obj_key bucket key) file meta_len) ;;
    match r with
    | inl _ => sm_modify (insert_upload upload_id u) ;;; sm_err InternalError
    | inr _ => done <- put_done bucket key md5 ;; sm_modify (drop_upload u) ;;; sm_ret done
    end.

(** [complete_multipart_upload]: the entity tag; [asked] is the list of the
    request, whose parts may have no number. *)
Definition complete_multipart_upload (env : Env) (bucket key upload_id : string)
    (multipart_upload : option (option (list (option Z)))) : AM string :=
  asked <- sm_lift (ok_or multipart_upload (InvalidRequest "missing multipart upload body")) ;;
  a <- sm_get ;;
  match uploads a !! upload_id with
  | None => complete_again env bucket key
  | Some u =>
    sm_modify (with_uploads (base.delete upload_id (uploads a))) ;;;
    complete_upload env bucket key upload_id u (default [] asked)
  end.

Definition abort_multipart_upload (upload_id : string) : AM unit :=
  a <- sm_get ;;
  match uploads a !! upload_id with
  | Some _ => sm_modify (discard_upload upload_id)
  | None => sm_err NoSuchUpload
  end.

(** Key and id of the uploads of a bucket. *)
Definition list_multipart_uploads (bucket : string) : AM (list (string * string)) :=
  ensure_bucket bucket ;;;
  a <- sm_get ;;
  sm_ret (omap (λ '(id, u), if decide (up_bucket u = bucket) then Some (up_key u, id) else None) (hm_iter (uploads a))).

(** Number, size and entity tag of each part, by number. *)
Definition list_parts (upload_id : string) : AM (list (Z * Z * string)) :=
  a <- sm_get ;;
  match uploads a !! upload_id with
  | None => sm_err NoSuchUpload
  | Some u =>
    sm_ret (merge_sort by_number ((λ '(n, part), (n, as_i64 (pm_size part), pm_etag part)) <$> map_to_list (parts u)))
  end.
End uploads.
