(* ===== verification/S3Requests.v ===== *)
(** * Requests of the S3 adapter

    The requests by name, and histories of them: each runs in the environment
    it meets, on the state the ones before left. *)

From S2P Require Import Prelude.
From S2P Require Import Config.
From S2P Require Import Extent.
From S2P Require Import Index.
From S2P Require Import StoreTools.
From S2P Require Import StoreMeta.
From S2P Require Import Tlv.
From S2P Require Import Catalog.
From S2P Require Import Backend.
From S2P Require Import Cluster.
From S2P Require Import ClusterIo.
From S2P Require Import ShardMeta.
From S2P Require Import ClusterAdmin.
From S2P Require Import S3Keys.
From S2P Require Import S3Backend.
From S2P Require Import S3Adapter.
From S2P Require Import S3Listing.
From S2P Require Import S3Uploads.

Section requests.
Context `{ObjectBackend, !GetRequest, Crc32c, HashMapOrder, ObjectPath, Chrono, Md5, DateText}.
Context (whole_seconds : Z → Z) (header_text : string → bool).

(** The requests of the [S3] trait. *)
Inductive S3Call : Type :=
| CreateBucket (bucket : string) (location : option string)
| DeleteBucket (bucket : string)
| HeadBucket (bucket : string)
| ListBuckets (credentials : bool) (token : option string) (max_buckets : option Z)
| BucketLocation (bucket : string)
| BucketVersioning (bucket : string)
| PutVersioning (bucket : string)
| BucketAcl (bucket : string)
| PutObject (input : PutObjectInput)
| GetObject (input : GetObjectInput)
| HeadObject (bucket key : string)
| ObjectAttributes (bucket key : string) (requested : gset string)
| ObjectAcl (bucket key : string)
| DeleteObject (bucket key : string)
| DeleteObjects (bucket : string) (keys : list string)
| CopyObject (input : CopyObjectInput)
| ListObjects (query : option string) (input : ListObjectsV2Input)
| ListObjectsV2 (input : ListObjectsV2Input)
| ListVersions (input : ListVersionsInput)
| CreateUpload (bucket key : string) (headers : ObjectHeaders)
| UploadPart (upload_id : string) (n : Z) (body : option BodyIn)
| UploadPartCopy (upload_id : string) (n : Z) (source : option (string * string)) (range : option string)
| CompleteUpload (bucket key upload_id : string) (asked : option (option (list (option Z))))
| AbortUpload (upload_id : string)
| ListUploads (bucket : string)
| ListParts (upload_id : string).

Definition answered {A} (m : AM A) : AM unit := m ;;; sm_ret tt.

Definition handle (env : Env) (call : S3Call) : AM unit :=
  match call with
  | CreateBucket bucket location => answered (create_bucket bucket location)
  | DeleteBucket bucket => delete_bucket bucket
  | HeadBucket bucket => answered (head_bucket env bucket)
  | ListBuckets credentials token max_buckets => answered (list_buckets credentials token max_buckets)
  | BucketLocation bucket => answered (get_bucket_location bucket)
  | BucketVersioning bucket => get_bucket_versioning bucket
  | PutVersioning bucket => put_bucket_versioning bucket
  | BucketAcl bucket => answered (get_bucket_acl bucket)
  | PutObject input => answered (put_object env input)
  | GetObject input => answered (get_object whole_seconds header_text env input)
  | HeadObject bucket key => answered (head_object bucket key)
  | ObjectAttributes bucket key requested => answered (get_object_attributes bucket key requested)
  | ObjectAcl bucket key => answered (get_object_acl env bucket key)
  | DeleteObject bucket key => delete_object env bucket key
  | DeleteObjects bucket keys => answered (delete_objects env bucket keys)
  | CopyObject input => answered (copy_object env input)
  | ListObjects query input => answered (list_objects query input)
  | ListObjectsV2 input => answered (list_objects_v2 input)
  | ListVersions input => answered (list_object_versions input)
  | CreateUpload bucket key headers => answered (create_multipart_upload env bucket key headers)
  | UploadPart upload_id n body => answered (upload_part env upload_id n body)
  | UploadPartCopy upload_id n source range => answered (upload_part_copy env upload_id n source range)
  | CompleteUpload bucket key upload_id asked => answered (complete_multipart_upload env bucket key upload_id asked)
  | AbortUpload upload_id => abort_multipart_upload upload_id
  | ListUploads bucket => answered (list_multipart_uploads bucket)
  | ListParts upload_id => answered (list_parts upload_id)
  end.

(** A named temporary file is a new one. *)
Definition fresh_env (env : Env) (a : Adapter) : Prop :=
  ∀ path sp, named_temp env = Some (path, sp) → temp_files a !! path = None.

Inductive history (a : Adapter) : list S3Call → Adapter → Prop :=
| history_nil : history a [] a
| history_cons calls a1 env call :
    history a calls a1 → fresh_env env a1 → history a (calls ++ [call]) (handle env call a1).1.
End requests.
