(* ===== verification/S3AdapterFacts.v ===== *)
(** * The S3 adapter over a raw store

    What the adapter needs of a raw store, what its calls do over one, and what
    becomes of an object and its headers.

    ** What the adapter needs

    The calls only the adapter makes, beyond those of Backend.v: a put from a
    file and the two reads with options.  The storage engine satisfies
    them. *)

From S2P Require Import Prelude.
From S2P Require Import Config.
From S2P Require Import Device.
From S2P Require Import Extent.
From S2P Require Import Streaming.
From S2P Require Import Index.
From S2P Require Import Superblock.
From S2P Require Import Inner.
From S2P Require Import InnerFacts.
From S2P Require Import RawStore.
From S2P Require Import StoreFacts.
From S2P Require Import Flush.
From S2P Require Import StoreTools.
From S2P Require Import StoreMeta.
From S2P Require Import ObjectStoreApi.
From S2P Require Import Multipart.
From S2P Require Import ApiFacts.
From S2P Require Import StreamedWrites.
From S2P Require Import MultipartFacts.
From S2P Require Import GetFacts.
From S2P Require Import Behaviour.
From S2P Require Import Instances.
From S2P Require Import Tlv.
From S2P Require Import Catalog.
From S2P Require Import Backend.
From S2P Require Import Cluster.
From S2P Require Import ClusterIo.
From S2P Require Import RawShard.
From S2P Require Import ShardMeta.
From S2P Require Import ClusterAdmin.
From S2P Require Import Text.
From S2P Require Import S3Keys.
From S2P Require Import S3Backend.
From S2P Require Import S3Adapter.

(** Reading the file gives [data], or an error. *)
Definition serves (file : SourceFile) (data : list byte) : Prop :=
  sf_len file = zlen data ∧ Forall (λ r, r ≠ Panic) (sf_reads file) ∧ zlen (delivered (sf_reads file)) <= zlen data ∧
  ∀ p, read_to_end (sf_reads file) = Ok p → p = data.

Class ServedStoreLaws `{RawBackendLaws, !GetRequest} : Type := {
  raw_file_law b now k file data n b' r :
    store_ok b → is_raw b → key_ok k → serves file data → data_ok now data → 0 <= n < 2 ^ 16 → n <= zlen data →
    raw_put_with_meta_from_file now k file n b = (b', r) →
    store_ok b' ∧ is_raw b' ∧
    match r with
    | Ok _ => raw_view b' = <[k := (ztake (zlen data - n) data, zdrop (zlen data - n) data)]> (raw_view b)
    | Err _ => raw_view b' = raw_view b
    | Panic => False
    end;
  get_whole_law b k :
    store_ok b → key_ok k →
    match store_get_opts k options_default b with
    | Ok g => ∀ d, got_bytes g b = Ok d → view b !! k = Some d
    | Err _ => True
    | Panic => False
    end;
  get_part_law b k lo hi body :
    store_ok b → key_ok k → 0 <= lo < hi → hi <= zlen body → view b !! k = Some body →
    match store_get_opts k (options_bounded lo hi) b with
    | Ok g => ∀ d, got_bytes g b = Ok d → d = ztake (hi - lo) (zdrop lo body)
    | Err _ => True
    | Panic => False
    end;
  raw_list_distinct b prefix :
    store_ok b → is_raw b → NoDup (om_location ∘ fst <$> raw_list_with_meta prefix b);
}.

(** ** The storage engine *)

Section engine.
Context `{Crc32cLaws, CodecLaws, BincodeShardLaws, BincodeSuperblockLaws, HashMapOrderLaws, ObjectPath, StreamDecoder,
  !StreamDecoderLaws, TempFilesLaws, ErrorText}.

#[export] Instance raw_requests : GetRequest := {|
  options_default := (None : option GetRange);
  options_bounded lo hi := Some (Bounded lo hi);
|}.

#[export] Instance raw_served : ServedStoreLaws.
Proof.
  split.
  - intros s now k file data n s' r Hok _ Hk (Hl & Hnp & Hd & Hall) [Hnow Hz] Hn Hle.
    cbn [raw_put_with_meta_from_file raw_shard]. intros Hrun.
    assert (sm_zoom inner set_inner (run_inner (OpPutFile now k file n)) s = (s', map_err to_os_error r)) as Hzm.
    { revert Hrun. rewrite /sm_zoom. cbn [run_inner]. rewrite /os_err.
      destruct (StoreMeta.put_with_meta_from_file now k file n (inner s)) as [st r1]. by intros [= <- <-]. }
    pose proof (zlen_nonneg data).
    destruct (raw_write (OpPutFile now k file n) s s' (map_err to_os_error r) k (ztake (zlen data - n) data, zdrop (zlen data - n) data)
      Hok Hk) as [Hok' Hr].
    + cbn. rewrite Hl. split_and!; try done; try lia. split_and!; [done|lia|]. intros p Hp. by rewrite (Hall p Hp).
    + done.
    + exact Hzm.
    + intros (p & Hp & ->). rewrite (Hall p Hp) /split_at /sat_sub Z.max_l; [done|lia].
    + split; [exact Hok'|split; [done|]]. by destruct r as [[]|e|].
  - intros s k Hok Hk. exact (get_law s k Hok Hk).
  - intros s k lo hi body Hok Hk Hlo Hhi Hv. cbn [store_get_opts raw_shard Backend.view raw_shard_laws] in *.
    rewrite /bodies lookup_fmap fmap_Some in Hv. destruct Hv as ([body' md] & Hvis & ->). cbn [fst] in *. pose proof (contents_visible _ _ _ Hk Hvis) as Hct. pose proof (rs_store _ Hok) as Hst.
    pose proof (get_ranged_spec _ (inner s) k body' md (Bounded lo hi) (so_inner _ Hst) (so_range _ Hst) Hct
      (conj (proj1 Hlo) (Z.le_trans _ _ _ (proj1 Hlo) (Z.lt_le_incl _ _ (proj2 Hlo))))) as Hg.
    change (options_bounded lo hi) with (Some (Bounded lo hi)).
    rewrite /get_opts. destruct (resolve_range _ _) as [start end_] eqn:Hres. cbn [resolve_range] in Hres.
    destruct (get_ranged _ k _) as [g|e|]; [|done..]. destruct Hg as (Hp & Hgr & _). cbn [map_err mbind Res_bind].
    intros d. rewrite /got_bytes. cbn [got_chunks raw_shard].
    rewrite /get_result_chunks Hp join_stream Nat.add_comm collect_once. intros [= <-].
    simplify_eq. rewrite !Z.min_l; [|lia..]. done.
  - intros s prefix Hok _. cbn [raw_list_with_meta raw_shard]. rewrite /StoreMeta.list_with_meta -list_fmap_compose.
    destruct (visible_entries_spec (inner s) prefix) as [Hnd Hin].
    assert ((om_location ∘ fst) ∘ (λ '(k, e), (meta_for (key_path k) e, i_meta_len e)) <$> visible_entries (inner s) prefix =
      (visible_entries (inner s) prefix).*1) as Heq; [|by rewrite -Heq in Hnd].
    apply list_fmap_ext. intros i [k e] Hi. cbn. apply list_elem_of_lookup_2, Hin in Hi as [He [Ht _]].
    apply (rs_keys _ Hok). exists (split_at (body_size e) (entry_data (compression (inner s)) (io (inner s)) e)).
    rewrite visible_lookup // /Behaviour.view contents_lookup He. done.
Defined.
End engine.

(** * Runs of the S3 adapter over a raw store

    What the calls of the adapter do to its state when the backend is one raw
    store that satisfies the laws. *)

Section raw_adapter.
Context `{ServedStoreLaws, Crc32c, HashMapOrder, ObjectPath, Chrono, Md5, DateText}.
Implicit Types (a : Adapter) (raw : store).

(** The backend is the raw store [raw], in order. *)
Record serves_raw a raw : Prop := {
  sr_backend : ad_backend a = BackendRaw raw;
  sr_ok : store_ok raw;
  sr_raw : is_raw raw;
}.

Lemma with_backend_same a : with_backend (ad_backend a) a = a.
Proof. by destruct a. Qed.

Lemma serves_with a raw raw' : store_ok raw' → is_raw raw' → serves_raw (with_backend (BackendRaw raw') a) raw'.
Proof. by split. Qed.

(** A call of the backend on a raw store, and one that only reads it. *)
Lemma on_backend_raw {E A} (error : E → S3Error) (m : BM E A) a raw raw' r :
  ad_backend a = BackendRaw raw → m (BackendRaw raw) = (BackendRaw raw', r) →
  on_backend error m a = (with_backend (BackendRaw raw') a, map_err error r).
Proof. rewrite /on_backend. by intros -> ->. Qed.

Lemma on_backend_read {E A} (error : E → S3Error) (m : BM E A) a raw r :
  ad_backend a = BackendRaw raw → m (BackendRaw raw) = (BackendRaw raw, r) → on_backend error m a = (a, map_err error r).
Proof. intros Hb Hm. by rewrite (on_backend_raw _ _ _ _ _ _ Hb Hm) -Hb with_backend_same. Qed.

Lemma try_backend_read {E A} (m : BM E A) a raw r :
  ad_backend a = BackendRaw raw → m (BackendRaw raw) = (BackendRaw raw, r) →
  try_backend m a = (a, match r with Ok x => Ok (inr x) | Err e => Ok (inl e) | Panic => Panic end).
Proof. rewrite /try_backend. intros Hb. rewrite Hb. intros ->. by rewrite -Hb with_backend_same. Qed.

Lemma ensure_bucket_known bucket a : bucket ∈ buckets a → ensure_bucket bucket a = (a, Ok tt).
Proof. intros Hin. rewrite /ensure_bucket /sm_bind /=. by rewrite decide_True. Qed.

Lemma ensure_bucket_unknown bucket a : bucket ∉ buckets a → ensure_bucket bucket a = (a, Err NoSuchBucket).
Proof. intros Hin. rewrite /ensure_bucket /sm_bind /=. by rewrite decide_False. Qed.

Lemma ensure_bucket_ok bucket a a' u : ensure_bucket bucket a = (a', Ok u) → a' = a ∧ bucket ∈ buckets a.
Proof.
  destruct (decide (bucket ∈ buckets a)) as [Hin|Hout].
  - rewrite ensure_bucket_known //. by intros [= <-].
  - by rewrite ensure_bucket_unknown.
Qed.

(** The metadata map a store keeps for a path. *)
Definition stored_map raw (path : string) : option (gmap string string) :=
  match raw_get_metadata path raw with
  | Ok data => Some (if decide (data = []) then ∅ else decode_metadata data)
  | _ => None
  end.

Definition stored_tag raw (path : string) : option ETag := Strong <$> (stored_map raw path ≫= λ m, m !! "etag").

Lemma metadata_no_panic raw k : store_ok raw → is_raw raw → key_ok k → raw_get_metadata k raw ≠ Panic.
Proof. intros Hok Hr Hk Hp. pose proof (raw_metadata_law raw k Hok Hr Hk) as Hl. by rewrite Hp in Hl. Qed.

Lemma load_metadata_raw bucket key a raw :
  serves_raw a raw → key_ok (obj_key bucket key) →
  load_metadata bucket key a = (a, Ok (stored_map raw (obj_key bucket key))).
Proof.
  intros [Hb Hok Hr] Hk. rewrite /load_metadata.
  rewrite (sm_bind_run _ _ _ a match raw_get_metadata (obj_key bucket key) raw with Ok x => inr x | Err e => inl e | Panic => inl (NotFound "") end).
  - rewrite /stored_map /sm_ret. pose proof (metadata_no_panic raw _ Hok Hr Hk). by destruct (raw_get_metadata _ raw).
  - rewrite (try_backend_read _ a raw (raw_get_metadata (obj_key bucket key) raw) Hb); [|done].
    pose proof (metadata_no_panic raw _ Hok Hr Hk). by destruct (raw_get_metadata _ raw).
Qed.
End raw_adapter.

(** * Facts about objects of the S3 adapter

    What the metadata map keeps of the headers of a request, what a spooled
    body is, and puts, gets and deletes over a raw store. *)

(** ** Headers *)

Definition META_PREFIX : string := "x-amz-meta-".

Lemma opt_insert_ne k o (m : gmap string string) k' : k ≠ k' → opt_insert k o m !! k' = m !! k'.
Proof. rewrite /opt_insert. destruct o; [apply lookup_insert_ne|done]. Qed.

Lemma opt_insert_eq k o (m : gmap string string) : m !! k = None → opt_insert k o m !! k = o.
Proof. rewrite /opt_insert. destruct o; [by rewrite lookup_insert_eq|done]. Qed.

(** The user's entries behind the others. *)
Lemma user_insert_lookup (meta user : gmap string string) key :
  map_fold (λ k v m, <["x-amz-meta-" +:+ k := v]> m) meta user !! key =
    match strip_prefix META_PREFIX key ≫= λ name, user !! name with Some v => Some v | None => meta !! key end.
Proof.
  revert key. apply (map_fold_weak_ind (λ r u, ∀ key, r !! key =
    match strip_prefix META_PREFIX key ≫= λ name, u !! name with Some v => Some v | None => meta !! key end)).
  - intros key. by destruct (strip_prefix _ key).
  - intros k v u r Hk IH key. destruct (decide (key = "x-amz-meta-" +:+ k)) as [->|Hne].
    + by rewrite lookup_insert_eq strip_prefix_app /= lookup_insert_eq.
    + rewrite lookup_insert_ne // IH. destruct (strip_prefix META_PREFIX key) as [name|] eqn:Hs; [|done].
      apply strip_prefix_spec in Hs. cbn [mbind option_bind]. rewrite lookup_insert_ne //. intros ->. by apply Hne.
Qed.

Lemma extract_lookup (meta : gmap string string) name :
  default ∅ (extract_user_metadata meta) !! name = meta !! ("x-amz-meta-" +:+ name).
Proof.
  rewrite /extract_user_metadata. set (user := map_fold _ _ _).
  assert (user !! name = meta !! ("x-amz-meta-" +:+ name)) as Hu; [|case_decide as He; [by rewrite -Hu He|done]].
  subst user. revert name. apply (map_fold_weak_ind (λ (r : gmap string string) m, ∀ name, r !! name = m !! ("x-amz-meta-" +:+ name))).
  - done.
  - intros k v m r Hk IH name. destruct (strip_prefix "x-amz-meta-" k) as [n|] eqn:Hs.
    + apply strip_prefix_spec in Hs as ->. destruct (decide (name = n)) as [->|Hne].
      * by rewrite !lookup_insert_eq.
      * rewrite !lookup_insert_ne //. by intros ?%(inj _).
    + rewrite IH lookup_insert_ne //. intros ->. by rewrite strip_prefix_app in Hs.
Qed.

Lemma extract_nonempty meta u : extract_user_metadata meta = Some u → u ≠ ∅.
Proof. rewrite /extract_user_metadata. case_decide; [done|]. by intros [= <-]. Qed.

Lemma extract_eq meta (user : gmap string string) :
  (∀ name, meta !! ("x-amz-meta-" +:+ name) = user !! name) →
  extract_user_metadata meta = if decide (user = ∅) then None else Some user.
Proof.
  intros Hm. assert (default ∅ (extract_user_metadata meta) = user) as Hd.
  { apply map_eq. intros name. by rewrite extract_lookup Hm. }
  destruct (extract_user_metadata meta) as [u|] eqn:He; cbn in Hd; subst.
  - case_decide; [|done]. by apply extract_nonempty in He.
  - by case_decide.
Qed.

(** The headers of a request as a get answers them: without [expires], and
    without an empty set of user metadata. *)
Definition answered_headers (h : ObjectHeaders) : ObjectHeaders :=
  mkHeaders (content_type h) (cache_control h) (content_disposition h) (content_encoding h) (content_language h) None
    (u ← user_metadata h; if decide (u = ∅) then None else Some u).

Section headers.
Context `{DateText}.

Lemma build_lookup h key :
  build_s3_metadata h !! key =
    match strip_prefix META_PREFIX key ≫= λ name, user_metadata h ≫= λ u, u !! name with
    | Some v => Some v
    | None => opt_insert "expires" (expires h ≫= format_date)
        (opt_insert "content-language" (content_language h) (opt_insert "content-encoding" (content_encoding h)
        (opt_insert "content-disposition" (content_disposition h) (opt_insert "cache-control" (cache_control h)
        (opt_insert "content-type" (content_type h) ∅))))) !! key
    end.
Proof.
  rewrite /build_s3_metadata. destruct (user_metadata h) as [u|]; [apply user_insert_lookup|].
  by destruct (strip_prefix META_PREFIX key).
Qed.

(** A get answers the headers the object was stored with. *)
Lemma headers_answered h tag : get_headers (<["etag" := tag]> (build_s3_metadata h)) = answered_headers h.
Proof.
  rewrite /get_headers /answered_headers.
  assert (∀ key v, strip_prefix META_PREFIX key = None → key ≠ "etag" →
    opt_insert "expires" (expires h ≫= format_date)
        (opt_insert "content-language" (content_language h) (opt_insert "content-encoding" (content_encoding h)
        (opt_insert "content-disposition" (content_disposition h) (opt_insert "cache-control" (cache_control h)
        (opt_insert "content-type" (content_type h) (∅ : gmap string string)))))) !! key = v →
    (<["etag" := tag]> (build_s3_metadata h) : gmap string string) !! key = v) as Hl.
  { intros key v Hs Hne <-. by rewrite lookup_insert_ne // build_lookup Hs. }
  f_equal; [apply Hl; [by vm_compute|done|]..|].
  all: try (repeat (rewrite opt_insert_ne; [|done]); rewrite opt_insert_eq; [done|]; repeat (rewrite opt_insert_ne; [|done]); done).
  rewrite (extract_eq _ (default ∅ (user_metadata h))); [by destruct (user_metadata h)|]. intros name.
  rewrite lookup_insert_ne; [|by rewrite app_cons_str]. rewrite build_lookup strip_prefix_app. cbn [mbind option_bind].
  assert (∀ u : gmap string string, match u !! name with Some v => Some v | None => None end = u !! name) as Hid by (intros u; by destruct (u !! name)).
  repeat (rewrite opt_insert_ne; [|by rewrite app_cons_str]). rewrite lookup_empty.
  destruct (user_metadata h) as [u|]; cbn; [apply Hid|by rewrite lookup_empty].
Qed.

(** Every entry of a request has one in the encoding. *)
Lemma headers_recognised h tag :
  filter (λ '(k, _), recognised k = true) (<["etag" := tag]> (build_s3_metadata h)) = <["etag" := tag]> (build_s3_metadata h).
Proof.
  apply map_filter_id. intros k v Hk. destruct (decide (k = "etag")) as [->|Hne]; [by vm_compute|].
  rewrite lookup_insert_ne // build_lookup in Hk. rewrite /recognised.
  destruct (field_name_to_tag k) as [t|] eqn:Ht; [done|].
  change CUSTOM_PREFIX with META_PREFIX. destruct (strip_prefix META_PREFIX k); [done|]. exfalso. cbn in Hk.
  repeat (rewrite opt_insert_ne in Hk; [|intros <-; by vm_compute in Ht]). done.
Qed.

Definition strings_ok (meta : gmap string string) : Prop := map_Forall (λ k v, is_str k ∧ is_str v) meta.

(** The metadata stored with a put is read back as the headers. *)
Lemma stored_headers_back h tag md :
  strings_ok (<["etag" := tag]> (build_s3_metadata h)) → metadata_bytes (<["etag" := tag]> (build_s3_metadata h)) = Ok md →
  (if decide (md = []) then ∅ else decode_metadata md) = <["etag" := tag]> (build_s3_metadata h).
Proof.
  intros Hstr Hmd. rewrite /metadata_bytes in Hmd. destruct (encode_metadata _) as [b|e|] eqn:He; [|done..].
  cbn in Hmd. injection Hmd as ->. pose proof (decode_encoded _ md Hstr He) as Hd. rewrite headers_recognised in Hd.
  case_decide as Hn; [|done]. rewrite -Hd Hn. done.
Qed.
End headers.

Lemma metadata_bytes_no_panic meta : metadata_bytes meta ≠ Panic.
Proof.
  rewrite /metadata_bytes. pose proof (metadata_size_limits meta) as Hm. by destruct (encode_metadata meta).
Qed.

Lemma validate_no_panic key : validate_key key ≠ Panic.
Proof. rewrite /validate_key /validate_component. no_panic. Qed.

(** ** Spooled bodies *)

Lemma spool_body_ok sp limit written total body data t :
  spool_body sp limit written total body = (data, Ok t) → ∃ d, collect_body body = Some d ∧ data = written ++ d.
Proof.
  revert written total. induction body as [|[chunk|] body IH]; intros written total; cbn [spool_body collect_body].
  - intros [= <- <-]. exists []. by rewrite app_nil_r.
  - intros Hr. assert (∃ total', spool_body sp limit (written ++ chunk) total' body = (data, Ok t)) as [total' Hs].
    { destruct limit as [[max e]|]; [destruct (_ && _); [done|]|]; destruct (sp_write _ _ _); try done; by eexists. }
    destruct (IH _ _ Hs) as (d & -> & ->). exists (chunk ++ d). split; [done|]. by rewrite app_assoc.
  - done.
Qed.

Lemma spool_body_size sp limit written body data t :
  spool_body sp limit written (wrap64 (zlen written)) body = (data, Ok t) → t = wrap64 (zlen data).
Proof.
  revert written. induction body as [|[chunk|] body IH]; intros written; cbn [spool_body]; [by intros [= <- <-]| |done].
  assert (wadd (wrap64 (zlen written)) (zlen chunk) = wrap64 (zlen (written ++ chunk))) as ->.
  { rewrite zlen_app /wadd /wrap64. by rewrite Zplus_mod_idemp_l. }
  destruct limit as [[max e]|]; [destruct (_ && _); [done|]|]; destruct (sp_write _ _ _); try done; apply IH.
Qed.

Lemma spool_body_no_panic sp limit written total body : (spool_body sp limit written total body).2 ≠ Panic.
Proof.
  revert written total. induction body as [|[chunk|] body IH]; intros written total; cbn [spool_body]; [done| |done].
  destruct limit as [[max e]|]; [destruct (_ && _); [done|]|]; destruct (sp_write _ _ _); try done; apply IH.
Qed.

(** What a file has when it is read back is what was written to it. *)
Definition spool_ok (sp : Spool) : Prop := ∀ data file, sp_rewind sp data = Some file → serves (of_source file) data.

Lemma spool_finish_ok sp data md file :
  spool_ok sp → spool_finish sp data md = Ok file → serves (of_source file) (data ++ md).
Proof.
  intros Hsp. rewrite /spool_finish. destruct (_ && _); [|done]. rewrite /ok_or.
  destruct (sp_rewind _ _) as [f|] eqn:Hr; [|done]. intros [= <-]. by apply Hsp.
Qed.

Lemma spool_finish_no_panic sp data md : spool_finish sp data md ≠ Panic.
Proof. rewrite /spool_finish. destruct (_ && _); [|done]. by destruct (sp_rewind _ _). Qed.

(** ** Runs over a raw store *)

Section raw_objects.
Context `{ServedStoreLaws, Crc32c, HashMapOrder, ObjectPath, Chrono, Md5, DateText}.
Implicit Types (a : Adapter) (raw : store).

Definition env_ok (env : Env) : Prop :=
  (∀ sp, tempfile env = Some sp → spool_ok sp) ∧ ∀ path sp, named_temp env = Some (path, sp) → spool_ok sp.

(** What the adapter writes for a body and metadata, [n] being the length it
    gives the metadata. *)
Definition stored (d md : list byte) (n : Z) : list byte * list byte :=
  (ztake (zlen d + zlen md - n) (d ++ md), zdrop (zlen d + zlen md - n) (d ++ md)).

Lemma stored_exact d md : stored d md (zlen md) = (d, md).
Proof. rewrite /stored Z.add_simpl_r. by rewrite (ztake_app_exact (zlen d)) // (zdrop_app_exact (zlen d)). Qed.

(** The state after a put that worked. *)
Definition after_put (bucket key : string) raw a : Adapter :=
  with_stats (base.delete bucket (bucket_stats_cache a))
    (with_events ((λ l, l ++ [EventPut key]) <$> ad_events a) (with_backend (BackendRaw raw) a)).

Lemma put_done_run bucket key md5 a raw :
  put_done bucket key md5 (with_backend (BackendRaw raw) a) = (after_put bucket key raw a, Ok md5).
Proof. done. Qed.

(** A write that took place, or did not. *)
Definition put_outcome a raw (bucket key : string) (value : list byte * list byte) (md5 : string)
    (res : Adapter * S3Result string) : Prop :=
  match res with
  | (a', Ok tag) => tag = md5 ∧ ∃ raw', store_ok raw' ∧ is_raw raw' ∧ a' = after_put bucket key raw' a ∧
      raw_view raw' = <[obj_key bucket key := value]> (raw_view raw)
  | (a', Err e) => ∃ raw', store_ok raw' ∧ is_raw raw' ∧ a' = with_backend (BackendRaw raw') a ∧ raw_view raw' = raw_view raw
  | (_, Panic) => False
  end.

Lemma put_with_meta_outcome now a raw bucket key d md md5 :
  serves_raw a raw → key_ok (obj_key bucket key) → data_ok now (d ++ md) →
  put_outcome a raw bucket key (stored d md (zlen md mod 2 ^ 16)) md5
    ((on_backend internal (backend_put_with_meta now (obj_key bucket key) d md) ;;; put_done bucket key md5) a).
Proof.
  intros [Hb Hok Hr] Hk Hd. unfold sm_bind at 1.
  destruct (raw_put_with_meta now (obj_key bucket key) d md raw) as [raw' r] eqn:Hput.
  destruct (raw_put_law raw now _ d md raw' r Hok Hr Hk Hd Hput) as (Hok' & Hr' & Hres).
  rewrite (on_backend_raw internal _ a raw raw' r Hb); [|by rewrite /backend_put_with_meta /dispatch Hput].
  destruct r as [[]|e|]; cbn [map_err]; [|by exists raw'|by destruct Hres]. rewrite put_done_run. split; [done|].
  destruct Hres as [Hn Hres]. exists raw'. rewrite Z.mod_small; [|split; [apply zlen_nonneg|done]]. by rewrite stored_exact.
Qed.

Lemma put_from_file_outcome now a raw bucket key d md file n md5 :
  serves_raw a raw → key_ok (obj_key bucket key) → serves (of_source file) (d ++ md) → data_ok now (d ++ md) →
  0 <= n < 2 ^ 16 → n <= zlen md →
  put_outcome a raw bucket key (stored d md n) md5
    ((on_backend internal (backend_put_from_file now (obj_key bucket key) file n) ;;; put_done bucket key md5) a).
Proof.
  intros [Hb Hok Hr] Hk Hf Hd Hn Hle. unfold sm_bind at 1.
  destruct (raw_put_with_meta_from_file now (obj_key bucket key) (of_source file) n raw) as [raw' r] eqn:Hput.
  pose proof (zlen_nonneg d).
  destruct (raw_file_law raw now _ _ (d ++ md) n raw' r Hok Hr Hk Hf Hd Hn ltac:(rewrite zlen_app; lia) Hput) as (Hok' & Hr' & Hres).
  rewrite (on_backend_raw internal _ a raw raw' r Hb); [|by rewrite /backend_put_from_file /dispatch Hput].
  destruct r as [[]|e|]; cbn [map_err]; [|by exists raw'|by destruct Hres]. rewrite put_done_run. split; [done|]. exists raw'.
  split_and!; try done. by rewrite Hres /stored zlen_app.
Qed.

(** The bytes of a request's body, when all of it arrives. *)
Definition body_of (input : PutObjectInput) : option (list byte) :=
  match po_body input with None => Some [] | Some body => collect_body body end.

Definition put_metadata (input : PutObjectInput) (d : list byte) : gmap string string :=
  <["etag" := md5_hex d]> (build_s3_metadata (po_headers input)).

(** The bytes the store is given fit its limits. *)
Definition put_fits (env : Env) (input : PutObjectInput) : Prop :=
  ∀ d md, body_of input = Some d → metadata_bytes (put_metadata input d) = Ok md → data_ok (now env) (d ++ md).

Definition put_result a raw (input : PutObjectInput) (res : Adapter * S3Result string) : Prop :=
  match res with
  | (a', Ok tag) => ∃ d md raw', body_of input = Some d ∧ metadata_bytes (put_metadata input d) = Ok md ∧ tag = md5_hex d ∧
      store_ok raw' ∧ is_raw raw' ∧ a' = after_put (po_bucket input) (po_key input) raw' a ∧
      raw_view raw' = <[obj_key (po_bucket input) (po_key input) := stored d md (zlen md mod 2 ^ 16)]> (raw_view raw)
  | (a', Err e) => ∃ raw', store_ok raw' ∧ is_raw raw' ∧ a' = with_backend (BackendRaw raw') a ∧ raw_view raw' = raw_view raw
  | (_, Panic) => False
  end.

Lemma put_refused a raw input e : serves_raw a raw → put_result a raw input (a, Err e).
Proof. intros [Hb Hok Hr]. exists raw. rewrite -Hb with_backend_same. done. Qed.

Lemma put_outcome_result a raw input d md res :
  body_of input = Some d → metadata_bytes (put_metadata input d) = Ok md →
  put_outcome a raw (po_bucket input) (po_key input) (stored d md (zlen md mod 2 ^ 16)) (md5_hex d) res →
  put_result a raw input res.
Proof.
  intros Hd Hmd. destruct res as [a' [tag|e|]]; [|done..]. intros (-> & raw' & ?). by exists d, md, raw'.
Qed.

Lemma put_small_run env input a raw d :
  serves_raw a raw → key_ok (obj_key (po_bucket input) (po_key input)) → put_fits env input → body_of input = Some d →
  put_result a raw input (put_small env input d a).
Proof.
  intros Hs Hk Hf Hd. rewrite /put_small. fold (put_metadata input d). unfold sm_bind at 1, sm_lift.
  destruct (metadata_bytes (put_metadata input d)) as [md|e|] eqn:Hmd; [|by apply put_refused|].
  - eapply put_outcome_result; [exact Hd|exact Hmd|]. by apply put_with_meta_outcome; [..|apply Hf].
  - by apply metadata_bytes_no_panic in Hmd.
Qed.

Lemma put_spooled_run env input a raw body :
  serves_raw a raw → env_ok env → key_ok (obj_key (po_bucket input) (po_key input)) → put_fits env input →
  po_body input = Some body → put_result a raw input (put_spooled env input body a).
Proof.
  intros Hs [Hsp _] Hk Hf Hbody. rewrite /put_spooled. unfold sm_bind at 1, sm_get. unfold sm_bind at 1, sm_lift at 1.
  destruct (tempfile env) as [sp|] eqn:Htmp; cbn [ok_or]; [|by apply put_refused].
  pose proof (spool_body_no_panic sp (Some (max_body_size a, EntityTooLarge "Object size exceeds server limit")) [] 0 body) as Hnp.
  destruct (spool_body _ _ _ _ _) as [data [t|e|]] eqn:Hspool; [|by apply put_refused|done].
  apply spool_body_ok in Hspool as (d & Hd & ->). cbn [app]. unfold sm_bind at 1, sm_lift at 1.
  fold (put_metadata input d). unfold sm_bind at 1, sm_lift at 1.
  assert (body_of input = Some d) as Hbo by by rewrite /body_of Hbody.
  destruct (metadata_bytes (put_metadata input d)) as [md|e|] eqn:Hmd; [|by apply put_refused|].
  - unfold sm_bind at 1, sm_lift at 1. pose proof (spool_finish_no_panic sp d md) as Hfp.
    destruct (spool_finish sp d md) as [file|e|] eqn:Hfile; [|by apply put_refused|done].
    apply spool_finish_ok in Hfile; [|by apply Hsp]. eapply put_outcome_result; [exact Hbo|exact Hmd|].
    apply put_from_file_outcome; try done; [by apply Hf|by apply Z.mod_pos_bound|]. apply Z.mod_le; [apply zlen_nonneg|done].
  - by apply metadata_bytes_no_panic in Hmd.
Qed.

(** A put over a raw store. *)
Lemma put_object_run env input a raw :
  serves_raw a raw → env_ok env → key_ok (obj_key (po_bucket input) (po_key input)) → put_fits env input →
  put_result a raw input (put_object env input a).
Proof.
  intros Hs He Hk Hf. rewrite /put_object. unfold sm_bind at 1, sm_lift.
  destruct (validate_key _) as [[]|e|] eqn:Hv; [|by apply put_refused|by apply validate_no_panic in Hv].
  destruct (decide (po_bucket input ∈ buckets a)) as [Hin|Hout].
  - rewrite (sm_bind_run _ _ _ _ _ (ensure_bucket_known _ _ Hin)). unfold sm_bind at 1, sm_get.
    destruct (_ && _ && _); [by apply put_refused|].
    destruct (po_body input) as [body|] eqn:Hb; [|by apply put_small_run; [..|rewrite /body_of Hb]].
    destruct (_ && _); [|by apply put_spooled_run]. unfold sm_bind at 1.
    destruct (collect_body body) as [d|] eqn:Hd; cbn [ok_or]; [|by apply put_refused].
    by apply put_small_run; [..|rewrite /body_of Hb].
  - unfold sm_bind at 1. rewrite (ensure_bucket_unknown _ _ Hout). by apply put_refused.
Qed.

(** *** Reading *)

(** The metadata map behind stored metadata bytes. *)
Definition meta_of (md : list byte) : gmap string string := if decide (md = []) then ∅ else decode_metadata md.

Lemma read_metadata_run path d md a raw :
  serves_raw a raw → key_ok path → raw_view raw !! path = Some (d, md) →
  read_metadata path a = (a, Ok (meta_of md)) ∨ read_metadata path a = (a, Err InternalError).
Proof.
  intros [Hb Hok Hr] Hk Hv. pose proof (raw_metadata_law raw path Hok Hr Hk) as Hm. rewrite /read_metadata. unfold sm_bind.
  rewrite (try_backend_read (backend_get_metadata path) a raw (raw_get_metadata path raw) Hb); [|done].
  destruct (raw_get_metadata path raw) as [md'|e|]; [| |done].
  - destruct Hm as [d' Hm]. rewrite Hv in Hm. injection Hm as -> ->. by left.
  - destruct e; try (by right). congruence.
Qed.

Lemma head_run path d md a raw :
  serves_raw a raw → key_ok path → raw_view raw !! path = Some (d, md) →
  ∃ m ml, om_size m = zlen d ∧ on_backend no_key (backend_head_with_meta path) a = (a, Ok (m, ml)).
Proof.
  intros [Hb Hok Hr] Hk Hv. pose proof (raw_head_law raw path Hok Hr Hk) as Hm.
  destruct (raw_head_with_meta path raw) as [[m ml]|e|] eqn:Hh; [|congruence|done]. destruct Hm as (d' & md' & Hv' & Hsz & _).
  rewrite Hv in Hv'. injection Hv' as <- <-. exists m, ml. split; [done|].
  rewrite (on_backend_read no_key _ a raw (raw_head_with_meta path raw) Hb); [by rewrite Hh|done].
Qed.

Lemma check_conditions_tag header_text input modified meta etag :
  check_conditions header_text input modified meta = Ok etag → etag = Strong (default EMPTY_ETAG (meta !! "etag")).
Proof. rewrite /check_conditions. repeat case_match; try done; by intros [= <-]. Qed.

Lemma check_conditions_no_panic header_text input modified meta : check_conditions header_text input modified meta ≠ Panic.
Proof. rewrite /check_conditions. by repeat case_match. Qed.

(** The range of a request as its Rust type has it. *)
Definition range_typed (r : S3Range) : Prop :=
  match r with
  | RangeInt first last => 0 <= first ∧ ∀ l, last = Some l → 0 <= l
  | RangeSuffix n => 0 <= n
  end.

Lemma range_bounds_typed r size :
  range_typed r → 0 <= size < two64 → match r with RangeInt first _ => first < size | _ => True end →
  0 <= (range_bounds r size).1 <= size ∧ 0 <= (range_bounds r size).2 <= size.
Proof.
  intros Hr Hs Hf. destruct r as [first last|n]; cbn in *.
  - destruct last as [l|]; [pose proof (Z.mod_pos_bound (l + 1) two64 eq_refl); rewrite /wadd /wrap64|]; lia.
  - rewrite wsub_small; u64.
Qed.

(** What a body gives when it is read: its bytes, or an error. *)
Definition body_reads raw (body : S3Body) (d : list byte) : Prop :=
  ∀ b e, read_body body (BackendRaw raw) = (b, Ok e) → e = d.

Lemma view_of raw path d md :
  store_ok raw → is_raw raw → raw_view raw !! path = Some (d, md) → view raw !! path = Some d.
Proof. intros Hok Hr Hv. by rewrite raw_view_law // lookup_fmap Hv. Qed.

Lemma whole_body now path a raw d md body a' :
  serves_raw a raw → key_ok path → raw_view raw !! path = Some (d, md) →
  on_backend internal (obj_get_opts now path options_default) a = (a', Ok body) → a' = a ∧ body_reads raw body d.
Proof.
  intros [Hb Hok Hr] Hk Hv. pose proof (get_whole_law raw path Hok Hk) as Hg.
  rewrite (on_backend_read internal _ a raw (map_err inl (FromRaw <$> store_get_opts path options_default raw)) Hb); [|done].
  destruct (store_get_opts path options_default raw) as [g|e|]; [|done..]. intros [= <- <-]. split; [done|].
  intros b e. cbn. destruct (got_bytes g raw) as [x|er|] eqn:Hx; [|done..]. intros [= <- <-].
  pose proof (Hg x eq_refl) as Hx'. rewrite (view_of _ _ _ _ Hok Hr Hv) in Hx'. by injection Hx'.
Qed.

Lemma part_body now path a raw d md lo hi body a' data a'' :
  serves_raw a raw → key_ok path → raw_view raw !! path = Some (d, md) → 0 <= lo < hi → hi <= zlen d →
  on_backend internal (obj_get_opts now path (options_bounded lo hi)) a = (a', Ok body) →
  on_backend internal (read_body body) a' = (a'', Ok data) → a'' = a ∧ data = ztake (hi - lo) (zdrop lo d).
Proof.
  intros [Hb Hok Hr] Hk Hv Hlo Hhi. pose proof (get_part_law raw path lo hi d Hok Hk Hlo Hhi (view_of _ _ _ _ Hok Hr Hv)) as Hg.
  rewrite (on_backend_read internal _ a raw (map_err inl (FromRaw <$> store_get_opts path (options_bounded lo hi) raw)) Hb); [|done].
  destruct (store_get_opts path _ raw) as [g|e|]; [|done..]. intros [= <- <-].
  rewrite (on_backend_read internal _ a raw (map_err inl (got_bytes g raw)) Hb); [|done].
  destruct (got_bytes g raw) as [x|e|] eqn:Hx; [|done..]. intros [= <- <-]. split; [done|]. by apply Hg.
Qed.
End raw_objects.
