(* ===== verification/S3Examples.v ===== *)
(** * Examples for the S3 adapter

    The memory store under the adapter's laws, a digest and a date format,
    and an environment whose temporary files always work. *)

From S2P Require Import Prelude.
From S2P Require Import Config.
From S2P Require Import Extent.
From S2P Require Import Concrete.
From S2P Require Import Streaming.
From S2P Require Import Index.
From S2P Require Import StoreMeta.
From S2P Require Import StreamedWrites.
From S2P Require Import Instances.
From S2P Require Import Tlv.
From S2P Require Import Catalog.
From S2P Require Import Backend.
From S2P Require Import Cluster.
From S2P Require Import ClusterIo.
From S2P Require Import ClusterExamples.
From S2P Require Import ShardMeta.
From S2P Require Import ClusterAdmin.
From S2P Require Import Text.
From S2P Require Import S3Keys.
From S2P Require Import S3Backend.
From S2P Require Import S3Adapter.
From S2P Require Import S3AdapterFacts.

(** ** The memory store *)

#[export] Instance memory_requests : GetRequest := {|
  options_default := (None : option (Z * Z));
  options_bounded lo hi := Some (lo, hi);
|}.

#[export] Instance memory_served : ServedStoreLaws.
Proof.
  split.
  - intros b now k file data n b' r _ _ _ (_ & Hnp & _ & Hall) _ Hn Hle. cbn [raw_put_with_meta_from_file memory].
    destruct (read_to_end (sf_reads file)) as [p|e|] eqn:Hr.
    + intros [= <- <-]. rewrite (Hall p eq_refl) /sat_sub Z.max_l; [|lia]. split_and!; [done..|].
      rewrite /mem_write /raw_faulty. case_decide; [done|].
      apply (partial_alter_fmap (λ v, (mo_data v, mo_meta v)) k (Some (mkMemObject _ [] _ now))).
    + by intros [= <- <-].
    + pose proof (read_to_end_cases _ Hnp) as Hc. by rewrite Hr in Hc.
  - intros b k _ _. exact (get_law b k I I).
  - intros b k lo hi body _ _ Hlo Hhi. cbn [store_get_opts memory]. change (options_bounded lo hi) with (Some (lo, hi)).
    rewrite /mem_get /faulty. case_decide; [done|]. rewrite mem_view_lookup.
    destruct (mem b !! k) as [v|]; [|done]. intros [= <-] d. rewrite /got_bytes /= app_nil_r. intros [= <-].
    rewrite /mem_slice /= !Z.min_l; [|lia..]. by rewrite Z.max_r; [|lia].
  - intros b prefix Hok Hr. exact (proj1 (raw_list_law b Hok Hr)).
Defined.

(** ** Parameters *)

#[export] Instance sum_md5 : Md5 := λ data, pretty (crc32c data).
#[export] Instance decimal_dates : DateText := {| format_date n := Some (pretty n); parse_date s := parse_uint u64_max s |}.

Definition whole_file (data : list byte) : OpenFile :=
  mkOpenFile (zlen data) (λ _, Ok tt) (λ pos n, Ok (ztake n (zdrop pos data))) (mkSourceFile (zlen data) [Ok data]).

Definition good_spool : Spool := mkSpool (λ _ _, true) (λ _, true) (λ data, Some (whole_file data)).

Definition good_env (name : string) : Env :=
  mkEnv 1000 50 (Some good_spool) (Some (name, good_spool)) (λ _ data, Some [Some data]) "upload-1".

Lemma whole_file_serves data : serves (of_source (whole_file data)) data.
Proof.
  split_and!; [done|by repeat constructor|by rewrite /= app_nil_r|]. intros p. cbn. by rewrite app_nil_r => -[= <-].
Qed.

(** ** A bucket with objects *)

Definition mem_obj (s : string) : MemObject := mkMemObject (as_bytes s) [] [] 7.

Definition sample_raw : MemStore :=
  mkMem {["b/a" := mem_obj "1"; "b/dir/x" := mem_obj "22"; "b/dir/y" := mem_obj "333"; "b/dirt" := mem_obj "4";
          "b/e/__DIRMARK__" := mem_obj ""; "b/z" := mem_obj "55"]} [].

Definition sample_adapter : Adapter := with_bucket (sample_raw : store) "b".

(** The digest is a text. *)
Lemma digit_byte c : is_digit c = true → byte_to_Z (Ascii.byte_of_ascii c) < 128.
Proof. destruct c as [[] [] [] [] [] [] [] []]; by vm_compute. Qed.

Lemma digits_str s : all_chars is_digit s = true → is_str s.
Proof.
  rewrite /is_str /as_bytes. induction s as [|c s IH]; [done|]. cbn [all_chars]. intros [Hc Hs]%andb_true_iff.
  apply digit_byte in Hc. cbn [String.list_byte_of_string String.list_ascii_of_string map utf8_valid]. 
  rewrite (proj2 (Z.ltb_lt _ _) Hc). by apply IH.
Qed.

Lemma sum_str data : is_str (md5_hex data).
Proof. apply digits_str, pretty_digits, crc32c_range. Qed.

Lemma good_env_ok name : env_ok (good_env name).
Proof.
  split; [intros sp [= <-]|intros path sp [= <- <-]]; intros data file [= <-]; apply whole_file_serves.
Qed.
