(* ===== verification/S3ListGuarantees.v ===== *)
(** * The listings of the S3 adapter: facts and guarantees

    A page is the next run of the merged listing: what comes after the token
    of a page is the page's rest.  So following the tokens lists everything. *)

From Stdlib Require Import Sorted.
From S2P Require Import Prelude.
From S2P Require Import Config.
From S2P Require Import Extent.
From S2P Require Import Concrete.
From S2P Require Import Index.
From S2P Require Import StoreTools.
From S2P Require Import StoreMeta.
From S2P Require Import GetFacts.
From S2P Require Import Instances.
From S2P Require Import Catalog.
From S2P Require Import Backend.
From S2P Require Import Cluster.
From S2P Require Import ClusterExamples.
From S2P Require Import ClusterAdmin.
From S2P Require Import Text.
From S2P Require Import S3Keys.
From S2P Require Import S3Backend.
From S2P Require Import S3Adapter.
From S2P Require Import S3Listing.
From S2P Require Import S3AdapterFacts.
From S2P Require Import S3Examples.

(** ** Searching *)

Lemma find_sub_split d s pos :
  find_sub d s = Some pos → ∃ pre post, s = pre +:+ d +:+ post ∧ String.length pre = pos.
Proof.
  revert pos. induction s as [|a s IH]; intros pos; cbn [find_sub].
  - destruct (String.prefix d "") eqn:E; [|done]. intros [= <-]. apply prefix_iff in E as [t Ht]. by exists "", t.
  - destruct (String.prefix d (String a s)) eqn:E.
    + intros [= <-]. apply prefix_iff in E as [t Ht]. by exists "", t.
    + intros (p & Hp & ->)%fmap_Some. destruct (IH p Hp) as (pre & post & -> & <-). exists (String a pre), post.
      by rewrite app_cons_str.
Qed.

Lemma find_sub_found d pre post : is_Some (find_sub d (pre +:+ d +:+ post)).
Proof.
  induction pre as [|a pre IH].
  - change ("" +:+ d +:+ post) with (d +:+ post). pose proof (prefix_app d post) as Hp.
    destruct (d +:+ post); cbn [find_sub]; rewrite Hp; by eexists.
  - rewrite app_cons_str. cbn [find_sub]. destruct (String.prefix _ _); [by eexists|]. by apply fmap_is_Some.
Qed.

(** A common prefix begins its keys, and has itself as common prefix. *)
Lemma common_prefix_spec o prefix key cp :
  common_prefix o prefix key = Some cp → String.prefix prefix key = true →
  (∃ t, key = cp +:+ t) ∧ is_Some (common_prefix o prefix cp).
Proof.
  rewrite /common_prefix. destruct o as [d|]; [|done]. cbn [mbind option_bind].
  destruct (find_sub d _) as [pos|] eqn:Hf; [|done]. intros [= <-] Hp%prefix_split.
  apply find_sub_split in Hf as (pre & post & Hr & <-). rewrite Hr in Hp |- *.
  assert (take_bytes (String.length pre + String.length d) (pre +:+ d +:+ post) = pre +:+ d) as ->.
  { rewrite -app_assoc_str -length_app_str. apply take_app_str. }
  split; [exists post; by rewrite {1}Hp !app_assoc_str|]. rewrite drop_app_str.
  destruct (find_sub_found d pre "") as [p Hs]. rewrite app_nil_str in Hs. rewrite Hs. by eexists.
Qed.

(** ** The order of the listing *)

(** [y] comes strictly after [x]. *)
Definition follows (x y : string) : Prop := ¬ (y ≤ x)%string.

Lemma follows_trans x y z : follows x y → follows y z → follows x z.
Proof.
  rewrite /follows. intros Hxy Hyz Hzx. apply Hyz. transitivity x; [done|].
  destruct (total String.le x y) as [?|?]; [done|]. by destruct Hxy.
Qed.

Lemma follows_le x y z : follows x y → (y ≤ z)%string → follows x z.
Proof. rewrite /follows. intros Hxy Hyz Hzx. apply Hxy. by transitivity z. Qed.

Lemma le_follows x y z : (x ≤ y)%string → follows y z → follows x z.
Proof. rewrite /follows. intros Hxy Hyz Hzx. apply Hyz. by transitivity x. Qed.

Lemma after_true t k : after (Some t) k = true ↔ follows t k.
Proof. by rewrite /after negb_true_iff bool_decide_eq_false. Qed.

(** Sorted by distinct keys is strictly sorted. *)
Lemma sorted_strictly {A} (key : A → string) (l : list A) :
  NoDup (key <$> l) → StronglySorted follows (key <$> sort_by_path key l).
Proof.
  intros Hnd. destruct (sort_by_path_spec key l) as [Hp Hs].
  assert (NoDup (key <$> sort_by_path key l)) as Hnd' by by rewrite Hp.
  revert Hnd' Hs. generalize (sort_by_path key l). clear. intros l Hnd Hs. induction Hs as [|x l Hs IH Hx]; [constructor|].
  cbn in *. apply NoDup_cons in Hnd as [Hk Hnd]. constructor; [by apply IH|]. apply Forall_fmap, Forall_forall.
  intros y Hy Hle. apply Hk. rewrite Forall_forall in Hx. rewrite (anti_symm String.le (key x) (key y) (Hx y Hy) Hle).
  by apply list_elem_of_fmap_2.
Qed.

(** Sorting what is kept is keeping what is sorted. *)
Lemma sort_filter {A} (key : A → string) (P : A → Prop) `{!∀ x, Decision (P x)} (l : list A) :
  NoDup (key <$> l) → sort_by_path key (filter P l) = filter P (sort_by_path key l).
Proof.
  intros Hnd. destruct (sort_by_path_spec key l) as [Hp Hs]. destruct (sort_by_path_spec key (filter P l)) as [Hp' Hs'].
  assert (filter P (sort_by_path key l) ≡ₚ filter P l) as Hpf by by rewrite Hp.
  eapply StronglySorted_unique_strong; [|exact Hs'| |by rewrite Hp' Hpf].
  - intros x y Hx Hy Hxy Hyx. rewrite Hp' in Hx. rewrite Hpf in Hy.
    apply list_elem_of_filter in Hx as [_ Hx], Hy as [_ Hy].
    apply (list_elem_of_lookup) in Hx as [i Hi], Hy as [j Hj].
    assert (key x = key y) as Hk by by apply (anti_symm String.le).
    assert (i = j) as ->; [|congruence].
    eapply NoDup_lookup; [exact Hnd|by rewrite list_lookup_fmap Hi|by rewrite list_lookup_fmap Hj Hk].
  - clear -Hs. induction Hs as [|x l' Hs IH Hx]; [constructor|]. rewrite filter_cons. case_decide; [|done].
    constructor; [done|]. apply Forall_forall. intros y [_ Hy]%list_elem_of_filter. rewrite Forall_forall in Hx. by apply Hx.
Qed.

(** ** The merge loop *)

Definition keys_of (objects : list S3Object) (prefixes : list string) : list string := (ob_key <$> objects) ++ prefixes.

(** Both lists strictly sorted, and no key in both. *)
Record mergeable (objects : list S3Object) (prefixes : list string) : Prop := {
  mg_objects : StronglySorted follows (ob_key <$> objects);
  mg_prefixes : StronglySorted follows prefixes;
  mg_apart p : p ∈ ob_key <$> objects → p ∉ prefixes;
}.

Lemma sorted_head x l : StronglySorted follows (x :: l) → StronglySorted follows l ∧ ∀ y, y ∈ l → follows x y.
Proof. intros [Hs Hx]%StronglySorted_inv. split; [done|]. by apply Forall_forall. Qed.

Lemma mergeable_object o objects prefixes : mergeable (o :: objects) prefixes → mergeable objects prefixes.
Proof.
  intros [Ho Hp Ha]. split; [by apply sorted_head in Ho as [? _]|done|]. intros p Hin. apply Ha. by right.
Qed.

Lemma mergeable_prefix objects p prefixes : mergeable objects (p :: prefixes) → mergeable objects prefixes.
Proof.
  intros [Ho Hp Ha]. split; [done|by apply sorted_head in Hp as [? _]|]. intros q Hin Hq. apply (Ha q); [done|by right].
Qed.

(** The first of the merged listing comes before all the rest. *)
Lemma first_object o objects prefixes :
  mergeable (o :: objects) prefixes → match prefixes with p :: _ => follows (ob_key o) p | [] => True end →
  ∀ y, y ∈ keys_of objects prefixes → follows (ob_key o) y.
Proof.
  intros [Ho Hp Ha] Hlt y [Hy|Hy]%elem_of_app; [by apply (sorted_head _ _ Ho)|]. destruct prefixes as [|p ps]; [by inversion Hy|].
  apply elem_of_cons in Hy as [->|Hy]; [done|]. apply (follows_trans _ p); [done|]. by apply (sorted_head _ _ Hp).
Qed.

Lemma first_prefix objects p prefixes :
  mergeable objects (p :: prefixes) → match objects with o :: _ => (p ≤ ob_key o)%string | [] => True end →
  ∀ y, y ∈ keys_of objects prefixes → follows p y.
Proof.
  intros [Ho Hp Ha] Hle y [Hy|Hy]%elem_of_app; [|by apply (sorted_head _ _ Hp)]. destruct objects as [|o os]; [by inversion Hy|].
  assert (follows p (ob_key o)) as Hlt.
  { intros Hge. assert (ob_key o = p) as Heq by by apply (anti_symm String.le). apply (Ha p); [|by left].
    cbn. rewrite Heq. by left. }
  cbn in Hy. apply elem_of_cons in Hy as [->|Hy]; [done|]. apply (follows_trans _ (ob_key o)); [done|].
  by apply (sorted_head _ _ Ho).
Qed.

(** What the loop takes and leaves. *)
Record merged (n : nat) (objects : list S3Object) (prefixes : list string)
    (res : (list S3Object * list string) * (list S3Object * list string)) : Prop := {
  mr_objects : objects = res.1.1 ++ res.2.1;
  mr_prefixes : prefixes = res.1.2 ++ res.2.2;
  mr_count : (length res.1.1 + length res.1.2 = n `min` (length objects + length prefixes))%nat;
  mr_order x y : x ∈ keys_of res.1.1 res.1.2 → y ∈ keys_of res.2.1 res.2.2 → follows x y;
}.

Lemma merged_keys n objects prefixes res y :
  merged n objects prefixes res → y ∈ keys_of res.2.1 res.2.2 → y ∈ keys_of objects prefixes.
Proof.
  intros [Ho Hp _ _] Hy. rewrite /keys_of Ho Hp fmap_app. rewrite /keys_of in Hy. rewrite !elem_of_app in Hy |- *. tauto.
Qed.

Lemma merge_take_object n o objects prefixes res :
  merged n objects prefixes res → (∀ y, y ∈ keys_of objects prefixes → follows (ob_key o) y) →
  merged (S n) (o :: objects) prefixes ((o :: res.1.1, res.1.2), res.2).
Proof.
  intros Hm Hlt. pose proof Hm as [Ho Hp Hc Hord]. split; cbn [fst snd length app]; [by rewrite {1}Ho|done|lia|].
  intros x y Hx Hy. apply elem_of_cons in Hx as [->|Hx]; [|by apply Hord]. eapply Hlt, merged_keys; done.
Qed.

Lemma merge_take_prefix n objects p prefixes res :
  merged n objects prefixes res → (∀ y, y ∈ keys_of objects prefixes → follows p y) →
  merged (S n) objects (p :: prefixes) ((res.1.1, p :: res.1.2), res.2).
Proof.
  intros Hm Hlt. pose proof Hm as [Ho Hp Hc Hord]. split; cbn [fst snd length app]; [done|by rewrite {1}Hp|lia|].
  intros x y Hx Hy. rewrite /keys_of in Hx. apply elem_of_app in Hx as [Hx|Hx]; [by apply Hord; [apply elem_of_app; left|]|].
  apply elem_of_cons in Hx as [->|Hx]; [eapply Hlt, merged_keys; done|]. apply Hord; [apply elem_of_app; by right|done].
Qed.

Lemma merge_page_spec n objects prefixes :
  mergeable objects prefixes → merged n objects prefixes (merge_page n objects prefixes).
Proof.
  revert objects prefixes. induction n as [|n IH]; intros objects prefixes Hm.
  { split; cbn; [done..|]. intros x y Hx. by inversion Hx. }
  cbn [merge_page]. destruct objects as [|o objects], prefixes as [|p prefixes].
  - split; cbn; [done..|]. intros x y Hx. by inversion Hx.
  - pose proof (merge_take_prefix _ _ _ _ _ (IH _ _ (mergeable_prefix _ _ _ Hm)) (first_prefix _ _ _ Hm I)) as Hr.
    by destruct (merge_page n [] prefixes) as [[os ps] rest].
  - pose proof (merge_take_object _ _ _ _ _ (IH _ _ (mergeable_object _ _ _ Hm)) (first_object _ _ _ Hm I)) as Hr.
    by destruct (merge_page n objects []) as [[os ps] rest].
  - case_decide as Hle.
    + pose proof (merge_take_prefix _ _ _ _ _ (IH _ _ (mergeable_prefix _ _ _ Hm)) (first_prefix _ _ _ Hm Hle)) as Hr.
      by destruct (merge_page n (o :: objects) prefixes) as [[os ps] rest].
    + pose proof (merge_take_object _ _ _ _ _ (IH _ _ (mergeable_object _ _ _ Hm)) (first_object _ _ _ Hm Hle)) as Hr.
      by destruct (merge_page n objects (p :: prefixes)) as [[os ps] rest].
Qed.

(** ** Tokens *)

Lemma sorted_last l t : StronglySorted follows l → last l = Some t → ∀ x, x ∈ l → (x ≤ t)%string.
Proof.
  intros Hs (l' & ->)%last_Some x [Hx|Hx]%elem_of_app; [|by apply list_elem_of_singleton in Hx as ->].
  destruct (total String.le x t) as [?|Hle]; [done|]. exfalso. revert Hs Hx. clear -Hle.
  induction l' as [|y l' IH]; intros Hs Hx; [by inversion Hx|]. cbn in Hs. apply sorted_head in Hs as [Hs Hy].
  apply elem_of_cons in Hx as [->|Hx]; [|by apply IH]. apply (Hy t); [|done]. apply elem_of_app. right. by left.
Qed.

Lemma last_in {A} (l : list A) x : last l = Some x → x ∈ l.
Proof. intros (l' & ->)%last_Some. apply elem_of_app. right. by left. Qed.

Lemma last_none {A} (l : list A) : last l = None → l = [].
Proof. by rewrite last_None. Qed.

(** The token of a page is the greatest of its keys and prefixes. *)
Lemma last_item_spec objects prefixes :
  mergeable objects prefixes → keys_of objects prefixes ≠ [] →
  ∃ t, last_item (ob_key <$> objects) prefixes = Some t ∧ t ∈ keys_of objects prefixes ∧
    ∀ x, x ∈ keys_of objects prefixes → (x ≤ t)%string.
Proof.
  intros [Ho Hp _] Hne. rewrite /last_item /keys_of in Hne |- *.
  pose proof (λ t, sorted_last _ t Ho) as Hlo. pose proof (λ t, sorted_last _ t Hp) as Hlp.
  destruct (last (ob_key <$> objects)) as [ok|] eqn:Eo, (last prefixes) as [pk|] eqn:Ep.
  - specialize (Hlo _ eq_refl). specialize (Hlp _ eq_refl). apply last_in in Eo, Ep. eexists. split; [done|].
    case_decide as Hle; split; [apply elem_of_app; by right| |apply elem_of_app; by left|].
    + intros x [Hx|Hx]%elem_of_app; [transitivity ok; auto|auto].
    + destruct (total String.le ok pk) as [?|Hge]; [done|].
      intros x [Hx|Hx]%elem_of_app; [auto|transitivity pk; auto].
  - apply last_none in Ep as ->. rewrite app_nil_r in Hne |- *. apply last_in in Eo as Hin. exists ok.
    split_and!; [done|done|]. by apply Hlo.
  - apply last_none in Eo as Hn. rewrite Hn in Hne |- *. exists pk. split_and!; [done|by apply last_in|]. by apply Hlp.
  - apply last_none in Eo as Hn. rewrite Hn in Hne. apply last_none in Ep as ->. done.
Qed.

(** A list split around [t] is filtered to its second half. *)
Lemma filter_split {A} (key : A → string) (t : string) (l1 l2 : list A) :
  (∀ x, x ∈ key <$> l1 → (x ≤ t)%string) → (∀ y, y ∈ key <$> l2 → follows t y) →
  filter (λ x, after (Some t) (key x) = true) (l1 ++ l2) = l2.
Proof.
  intros H1 H2. rewrite filter_app.
  assert (filter (λ x, after (Some t) (key x) = true) l1 = []) as ->.
  { induction l1 as [|x l1 IH]; [done|]. rewrite filter_cons_False; [|rewrite after_true /follows; intros Hn; apply Hn, H1; by left].
    apply IH. intros y Hy. apply H1. by right. }
  induction l2 as [|x l2 IH]; [done|]. rewrite filter_cons_True; [|apply after_true, H2; by left].
  cbn in *. f_equal. apply IH. intros y Hy. apply H2. by right.
Qed.

(** The client's next request. *)
Definition with_token (token : option string) (input : ListObjectsV2Input) : ListObjectsV2Input :=
  mkListInput (li_bucket input) (li_prefix input) (li_delimiter input) (li_max_keys input) (li_encoding_type input)
    (li_start_after input) token (li_fetch_owner input).

Definition placed_key (p : S3Object + string) : string := match p with inl o => ob_key o | inr cp => cp end.

(** A token drops the items up to it, and only those. *)
Lemma place_item_token input t item :
  place_item (with_token (Some t) input) item =
  p ← place_item (with_token None input) item; if after (Some t) (placed_key p) then Some p else None.
Proof.
  rewrite /place_item. cbn [with_token li_bucket li_prefix li_delimiter li_max_keys li_encoding_type li_start_after li_token li_fetch_owner].
  destruct (listed_key _ _) as [key|]; [|done]. cbn [mbind option_bind].
  destruct (String.prefix _ key) eqn:Hp; [|done]. cbn [negb]. change (after None key) with true. rewrite andb_true_r.
  destruct (after (li_start_after input) key); [|by cbn]. cbn [negb andb].
  destruct (common_prefix _ _ key) as [cp|] eqn:Hcp.
  - apply common_prefix_spec in Hcp as [[rest ->] _]; [|done]. change (after None cp) with true. rewrite andb_true_r.
    destruct (after (Some t) (cp +:+ rest)) eqn:Hk; cbn [negb].
    + by destruct (after (li_start_after input) cp).
    + assert (after (Some t) cp = false) as Hc.
      { apply not_true_iff_false. rewrite after_true. intros Hf. apply not_true_iff_false in Hk. apply Hk, after_true.
        eapply follows_le; [done|apply le_app]. }
      destruct (after (li_start_after input) cp); [|done]. cbn [mbind option_bind placed_key]. by rewrite Hc.
  - cbn [mbind option_bind placed_key ob_key]. by destruct (after (Some t) key).
Qed.

(** ** Pages *)

(** What the backend lists: each location once, none with a trailing slash. *)
Record listing_ok (listing : list (ObjectMeta * Z)) : Prop := {
  ls_distinct : NoDup (om_location ∘ fst <$> listing);
  ls_plain : Forall (λ item : ObjectMeta * Z, ends_with "/" (om_location item.1) = false) listing;
}.

Definition object_of (p : S3Object + string) : option S3Object := match p with inl o => Some o | inr _ => None end.
Definition prefix_of (p : S3Object + string) : option string := match p with inl _ => None | inr cp => Some cp end.

Lemma page_objects_eq input listing :
  page_objects input listing = sort_by_path ob_key (omap (λ item, place_item input item ≫= object_of) listing).
Proof. done. Qed.
Lemma page_prefixes_eq input listing :
  page_prefixes input listing =
    sort_by_path id (elements (list_to_set (C := gset string) (omap (λ item, place_item input item ≫= prefix_of) listing))).
Proof. done. Qed.

(** Where an item of a kind comes from. *)
Lemma place_item_object input item o :
  place_item input item = Some (inl o) →
  listed_key (li_bucket input) (om_location item.1) = Some (ob_key o) ∧
  String.prefix (default "" (li_prefix input)) (ob_key o) = true ∧
  common_prefix (non_blank (li_delimiter input)) (default "" (li_prefix input)) (ob_key o) = None.
Proof.
  rewrite /place_item. destruct (listed_key _ _) as [key|]; [|done]. cbn [mbind option_bind].
  destruct (String.prefix _ key) eqn:Hp; [|done]. cbn [negb]. destruct (_ && _); [|done]. cbn [negb].
  destruct (common_prefix _ _ key) as [cp|] eqn:Hcp; [by destruct (_ && _)|]. by intros [= <-].
Qed.

Lemma place_item_prefix input item cp :
  place_item input item = Some (inr cp) →
  is_Some (common_prefix (non_blank (li_delimiter input)) (default "" (li_prefix input)) cp).
Proof.
  rewrite /place_item. destruct (listed_key _ _) as [key|]; [|done]. cbn [mbind option_bind].
  destruct (String.prefix _ key) eqn:Hp; [|done]. cbn [negb]. destruct (_ && _); [|done]. cbn [negb].
  destruct (common_prefix _ _ key) as [cp'|] eqn:Hcp; [|done]. destruct (_ && _); [|done]. intros [= <-].
  by destruct (common_prefix_spec _ _ _ _ Hcp Hp).
Qed.

Lemma objects_distinct input listing :
  listing_ok listing → NoDup (ob_key <$> omap (λ item, place_item input item ≫= object_of) listing).
Proof.
  intros [Hnd Hpl]. induction Hpl as [|item l Hi Hpl IH]; [constructor|]. cbn in Hnd. apply NoDup_cons in Hnd as [Hn Hnd].
  specialize (IH Hnd). cbn [omap list_omap]. destruct (place_item input item ≫= object_of) as [o|] eqn:Ho; [|done].
  cbn [fmap list_fmap]. constructor; [|done]. intros (o' & Heq & Hin)%list_elem_of_fmap. apply Hn.
  apply list_elem_of_omap in Hin as (item' & Hin & Ho').
  apply bind_Some in Ho as ([?|?] & Hp & [= ->]). apply bind_Some in Ho' as ([?|?] & Hp' & [= ->]).
  apply place_item_object in Hp as [Hk _], Hp' as [Hk' _]. rewrite -Heq in Hk'. rewrite Forall_forall in Hpl.
  apply list_elem_of_fmap. exists item'. split; [|done]. cbn. eapply listed_key_inj; [done|by apply Hpl|done..].
Qed.

Lemma page_mergeable input listing : listing_ok listing → mergeable (page_objects input listing) (page_prefixes input listing).
Proof.
  intros Hok. rewrite page_objects_eq page_prefixes_eq. split.
  - by apply sorted_strictly, objects_distinct.
  - rewrite -(list_fmap_id (sort_by_path id _)). apply sorted_strictly. rewrite list_fmap_id. apply NoDup_elements.
  - intros p (o & -> & Hin)%list_elem_of_fmap Hp.
    rewrite (proj1 (sort_by_path_spec _ _)) in Hin. rewrite (proj1 (sort_by_path_spec _ _)) in Hp.
    apply list_elem_of_omap in Hin as (i & _ & Hi). apply elem_of_elements, elem_of_list_to_set in Hp.
    apply list_elem_of_omap in Hp as (j & _ & Hj).
    apply bind_Some in Hi as ([?|?] & Hi & [= ->]). apply bind_Some in Hj as ([?|?] & Hj & [= ->]).
    apply place_item_object in Hi as (_ & _ & Hn). apply place_item_prefix in Hj as [? Hs]. by rewrite Hn in Hs.
Qed.

Lemma omap_filter {A B} (f g : A → option B) (P : B → Prop) `{!∀ y, Decision (P y)} (l : list A) :
  (∀ x, g x = y ← f x; if decide (P y) then Some y else None) → omap g l = filter P (omap f l).
Proof.
  intros Hg. induction l as [|x l IH]; [done|]. cbn [omap list_omap]. rewrite Hg IH.
  destruct (f x) as [y|]; [|done]. cbn [mbind option_bind]. rewrite filter_cons. by case_decide.
Qed.

(** A page with a token is a page of what comes after it. *)
Lemma page_objects_token input t listing :
  listing_ok listing →
  page_objects (with_token (Some t) input) listing =
    filter (λ o, after (Some t) (ob_key o) = true) (page_objects (with_token None input) listing).
Proof.
  intros Hok. rewrite !page_objects_eq -sort_filter; [|by apply objects_distinct]. f_equal.
  apply (omap_filter _ _ (λ o, after (Some t) (ob_key o) = true)). intros item. rewrite place_item_token.
  destruct (place_item _ item) as [[o|cp]|]; [..|done]; cbn [mbind option_bind object_of placed_key].
  - destruct (after (Some t) (ob_key o)); by case_decide.
  - by destruct (after (Some t) cp).
Qed.

Lemma page_prefixes_token input t listing :
  page_prefixes (with_token (Some t) input) listing =
    filter (λ p, after (Some t) p = true) (page_prefixes (with_token None input) listing).
Proof.
  rewrite !page_prefixes_eq -(sort_filter id); [|rewrite list_fmap_id; apply NoDup_elements].
  assert (omap (λ item, place_item (with_token (Some t) input) item ≫= prefix_of) listing =
    filter (λ p, after (Some t) p = true) (omap (λ item, place_item (with_token None input) item ≫= prefix_of) listing)) as ->.
  { apply (omap_filter _ _ (λ p, after (Some t) p = true)). intros item. rewrite place_item_token.
    destruct (place_item _ item) as [[o|cp]|]; [..|done]; cbn [mbind option_bind prefix_of placed_key].
    - by destruct (after (Some t) (ob_key o)).
    - destruct (after (Some t) cp) eqn:E; case_decide as Hd; cbn in *; congruence. }
  generalize (omap (λ item, place_item (with_token None input) item ≫= prefix_of) listing). intros l.
  destruct (sort_by_path_spec id (elements (list_to_set (C := gset string) (filter (λ p, after (Some t) p = true) l)))) as [Hp Hs].
  destruct (sort_by_path_spec id (filter (λ p, after (Some t) p = true) (elements (list_to_set (C := gset string) l)))) as [Hp' Hs'].
  eapply StronglySorted_unique_strong; [|exact Hs|exact Hs'|].
  - intros x y _ _ Hxy Hyx. by apply (anti_symm String.le).
  - rewrite Hp Hp'. apply NoDup_Permutation; [apply NoDup_elements|apply NoDup_filter, NoDup_elements|]. intros x.
    rewrite list_elem_of_filter !elem_of_elements !elem_of_list_to_set list_elem_of_filter. done.
Qed.

Definition past_token (input : ListObjectsV2Input) (t : string) : Prop := ∀ t0, li_token input = Some t0 → follows t0 t.

Lemma with_own_token input : with_token (li_token input) input = input.
Proof. by destruct input. Qed.

Lemma filter_past {A} (key : A → string) (t t0 : string) (l : list A) :
  follows t0 t →
  filter (λ x, after (Some t) (key x) = true) (filter (λ x, after (Some t0) (key x) = true) l) =
    filter (λ x, after (Some t) (key x) = true) l.
Proof.
  intros Hlt. rewrite list_filter_filter. apply list_filter_iff. intros x. rewrite !after_true.
  split; [tauto|]. intros Hx. split; [done|]. by eapply follows_trans.
Qed.

Lemma page_objects_next input t listing :
  listing_ok listing → past_token input t →
  page_objects (with_token (Some t) input) listing = filter (λ o, after (Some t) (ob_key o) = true) (page_objects input listing).
Proof.
  intros Hok Hpast. rewrite page_objects_token // -{2}(with_own_token input). destruct (li_token input) as [t0|] eqn:Ht; [|done].
  rewrite page_objects_token // (filter_past ob_key); [done|]. by apply Hpast.
Qed.

Lemma page_prefixes_next input t listing :
  past_token input t →
  page_prefixes (with_token (Some t) input) listing = filter (λ p, after (Some t) p = true) (page_prefixes input listing).
Proof.
  intros Hpast. rewrite page_prefixes_token -{2}(with_own_token input). destruct (li_token input) as [t0|] eqn:Ht; [|done].
  rewrite page_prefixes_token (filter_past id); [done|]. by apply Hpast.
Qed.

(** Everything on a page is past the token of its request. *)
Lemma keys_past_token input listing t :
  listing_ok listing → t ∈ keys_of (page_objects input listing) (page_prefixes input listing) → past_token input t.
Proof.
  intros Hok Hin t0 Ht. rewrite -(with_own_token input) Ht page_objects_token // page_prefixes_token in Hin.
  apply elem_of_app in Hin as [(o & -> & [Ho _]%list_elem_of_filter)%list_elem_of_fmap|[Hp _]%list_elem_of_filter]; by apply after_true.
Qed.

(** A page and what is left for the next one. *)
Lemma list_page_spec input listing :
  listing_ok listing → 0 < default 1000 (li_max_keys input) →
  let out := list_page input listing in
  ∃ objects prefixes,
    page_objects input listing = lo_contents out ++ objects ∧ page_prefixes input listing = lo_prefixes out ++ prefixes ∧
    lo_key_count out = zlen (lo_contents out) + zlen (lo_prefixes out) ∧
    lo_key_count out <= default 1000 (li_max_keys input) ∧
    match lo_next_token out with
    | Some t => keys_of (lo_contents out) (lo_prefixes out) ≠ [] ∧
        page_objects (with_token (Some t) input) listing = objects ∧
        page_prefixes (with_token (Some t) input) listing = prefixes
    | None => objects = [] ∧ prefixes = []
    end.
Proof.
  intros Hok Hmax. rewrite /list_page. pose proof (page_mergeable input listing Hok) as Hm.
  set (n := Z.to_nat (Z.max (default 1000 (li_max_keys input)) 0)).
  pose proof (merge_page_spec n _ _ Hm) as Hr. destruct (merge_page n _ _) as [[os ps] [os' ps']].
  destruct Hr as [Ho Hp Hc Hord]. cbn in Ho, Hp, Hc, Hord. cbn [lo_contents lo_prefixes lo_key_count lo_next_token].
  exists os', ps'. split_and!; [done..|rewrite /zlen; lia|].
  rewrite (proj2 (Z.ltb_lt _ _) Hmax). cbn [andb]. case_bool_decide as Hend; cbn [negb]; [done|].
  assert (keys_of os ps ≠ []) as Hne.
  { rewrite /keys_of. intros [Hos%fmap_nil_inv ->]%app_nil. subst os. cbn in Hc.
    assert (length (page_objects input listing) + length (page_prefixes input listing) = 0)%nat as Hz by lia.
    rewrite Ho Hp /= in Hz. apply Hend. destruct os', ps'; done || (cbn in Hz; lia). }
  assert (mergeable os ps) as Hm'.
  { destruct Hm as [H1 H2 H3]. rewrite Ho fmap_app in H1. rewrite Hp in H2.
    apply StronglySorted_app_1_l in H1, H2.
    split; [done..|]. intros p Hp1 Hp2. apply (H3 p); rewrite ?Ho ?Hp ?fmap_app; apply elem_of_app; by left. }
  destruct (last_item_spec os ps Hm' Hne) as (t & -> & Hin & Hle).
  assert (past_token input t) as Hpast.
  { apply (keys_past_token input listing); [done|]. rewrite /keys_of Ho Hp fmap_app. rewrite /keys_of in Hin.
    rewrite !elem_of_app in Hin |- *. tauto. }
  split; [done|]. rewrite page_objects_next // page_prefixes_next // Ho Hp.
  split.
  - apply filter_split; [intros x Hx|intros y Hy; apply (Hord t); [done|]]; [apply Hle|]; apply elem_of_app; by left.
  - apply (filter_split id); rewrite list_fmap_id; [intros x Hx|intros y Hy; apply (Hord t); [done|]]; [apply Hle|]; apply elem_of_app; by right.
Qed.

(** *** Following the tokens *)

Fixpoint pages (fuel : nat) (input : ListObjectsV2Input) (listing : list (ObjectMeta * Z)) : list ListObjectsV2Output :=
  match fuel with
  | O => []
  | S fuel' =>
    let out := list_page input listing in
    out :: match lo_next_token out with
           | Some t => pages fuel' (with_token (Some t) input) listing
           | None => []
           end
  end.

Lemma pages_cover fuel input listing :
  listing_ok listing → 0 < default 1000 (li_max_keys input) →
  (length (keys_of (page_objects input listing) (page_prefixes input listing)) < fuel)%nat →
  let outs := pages fuel input listing in
  outs ≫= lo_contents = page_objects input listing ∧ outs ≫= lo_prefixes = page_prefixes input listing ∧
  Forall (λ out, lo_key_count out = zlen (lo_contents out) + zlen (lo_prefixes out) ∧
    lo_key_count out <= default 1000 (li_max_keys input)) outs ∧
  last outs ≫= lo_next_token = None.
Proof.
  revert input. induction fuel as [|fuel IH]; intros input Hok Hmax Hfuel; [lia|]. cbn [pages].
  destruct (list_page_spec input listing Hok Hmax) as (os & ps & Ho & Hp & Hc & Hle & Hnext).
  set (out := list_page input listing) in *. destruct (lo_next_token out) as [t|] eqn:Ht.
  - destruct Hnext as (Hne & Hos & Hps).
    assert (length (keys_of os ps) < fuel)%nat as Hfuel'.
    { rewrite Ho Hp /keys_of !fmap_app in Hfuel. rewrite /keys_of in Hne |- *. rewrite !length_app !length_fmap in Hfuel |- *.
      destruct (lo_contents out), (lo_prefixes out); cbn [length] in *; [done|lia..]. }
    destruct (IH (with_token (Some t) input) Hok Hmax) as (H1 & H2 & H3 & H4); [by rewrite Hos Hps|].
    cbn [mbind list_bind]. rewrite H1 H2 Hos Hps. split_and!; [done..|by constructor|].
    destruct fuel as [|fuel]; [lia|]. by rewrite last_cons_cons.
  - destruct Hnext as [-> ->]. cbn. rewrite !app_nil_r in Ho, Hp |- *. split_and!; [done..| |done]. by constructor.
Qed.

(** * The guarantees of the S3 listings *)

Section listings.
Context `{ServedStoreLaws, Crc32c, HashMapOrder, ObjectPath, Chrono, Md5, DateText}.
Implicit Types (a : Adapter) (raw : store).

(** A client that asks for page after page, [fuel] at most. *)
Fixpoint follow (fuel : nat) (input : ListObjectsV2Input) : AM (list ListObjectsV2Output) :=
  match fuel with
  | O => sm_ret []
  | S fuel' =>
    out <- list_objects_v2 input ;;
    rest <- match lo_next_token out with
            | Some t => follow fuel' (with_token (Some t) input)
            | None => sm_ret []
            end ;;
    sm_ret (out :: rest)
  end.

(** What the backend lists for a request. *)
Definition backend_listing raw (input : ListObjectsV2Input) : list (ObjectMeta * Z) :=
  raw_list_with_meta (Some (raw_path (li_bucket input +:+ "/" +:+ dir_part (default "" (li_prefix input))))) raw.

(** The objects of the whole answer: those under the prefix and after the
    start, that the delimiter does not group. *)
Definition listed_object (input : ListObjectsV2Input) (listing : list (ObjectMeta * Z)) (key : string) : Prop :=
  ∃ item, item ∈ listing ∧ listed_key (li_bucket input) (om_location item.1) = Some key ∧
    String.prefix (default "" (li_prefix input)) key = true ∧ after (li_start_after input) key = true ∧
    common_prefix (non_blank (li_delimiter input)) (default "" (li_prefix input)) key = None.

(** The groups: the common prefixes of the keys that are grouped. *)
Definition listed_prefix (input : ListObjectsV2Input) (listing : list (ObjectMeta * Z)) (cp : string) : Prop :=
  after (li_start_after input) cp = true ∧
  ∃ item key, item ∈ listing ∧ listed_key (li_bucket input) (om_location item.1) = Some key ∧
    String.prefix (default "" (li_prefix input)) key = true ∧ after (li_start_after input) key = true ∧
    common_prefix (non_blank (li_delimiter input)) (default "" (li_prefix input)) key = Some cp.

Lemma page_objects_listed input listing key :
  li_token input = None → key ∈ ob_key <$> page_objects input listing ↔ listed_object input listing key.
Proof.
  intros Ht. rewrite list_elem_of_fmap page_objects_eq. setoid_rewrite (proj1 (sort_by_path_spec _ _)).
  setoid_rewrite list_elem_of_omap. split.
  - intros (o & -> & item & Hin & Ho). apply bind_Some in Ho as ([?|?] & Hp & [= ->]). exists item.
    pose proof (place_item_object _ _ _ Hp) as (Hk & Hpre & Hc). split_and!; try done.
    revert Hp. rewrite /place_item Hk. cbn [mbind option_bind]. rewrite Hpre Ht. cbn [negb]. change (after None _) with true.
    rewrite andb_true_r. by destruct (after (li_start_after input) (ob_key o)).
  - intros (item & Hin & Hk & Hpre & Ha & Hc). eexists. split; [|exists item; split; [done|]].
    2: { rewrite /place_item Hk. cbn [mbind option_bind]. rewrite Hpre Ht Ha Hc. cbn. done. }
    done.
Qed.

Lemma page_prefixes_listed input listing cp :
  li_token input = None → cp ∈ page_prefixes input listing ↔ listed_prefix input listing cp.
Proof.
  intros Ht. rewrite page_prefixes_eq (proj1 (sort_by_path_spec _ _)) elem_of_elements elem_of_list_to_set list_elem_of_omap.
  rewrite /listed_prefix. split.
  - intros (item & Hin & Ho). apply bind_Some in Ho as ([?|?] & Hp & [= ->]). revert Hp. rewrite /place_item Ht.
    destruct (listed_key _ _) as [key|] eqn:Hk; [|done]. cbn [mbind option_bind].
    destruct (String.prefix _ key) eqn:Hpre; [|done]. cbn [negb]. change (after None _) with true. rewrite andb_true_r.
    destruct (after _ key) eqn:Ha; [|done]. cbn [negb]. destruct (common_prefix _ _ key) as [cp'|] eqn:Hc; [|done].
    change (after None _) with true. rewrite andb_true_r. destruct (after _ cp') eqn:Hac; [|done].
    intros [= ->]. split; [done|]. by exists item, key.
  - intros (Hac & item & key & Hin & Hk & Hpre & Ha & Hc). exists item. split; [done|].
    rewrite /place_item Hk. cbn [mbind option_bind]. rewrite Hpre Ht Ha Hc. cbn. by rewrite Hac.
Qed.

(** One request over a raw store. *)
Lemma load_e_tags_raw bucket a raw objects :
  serves_raw a raw → Forall (λ o, key_ok (obj_key bucket (ob_key o))) objects →
  load_e_tags bucket objects a =
    (a, Ok ((λ o, with_e_tag o (stored_tag raw (obj_key bucket (ob_key o)))) <$> objects)).
Proof.
  intros Hs. induction 1 as [|o l Ho _ IH]; [done|]. cbn [load_e_tags].
  rewrite (sm_bind_run _ _ _ _ _ (load_metadata_raw _ _ _ _ Hs Ho)) (sm_bind_run _ _ _ _ _ IH). done.
Qed.

(** The tags of a page. *)
Definition tagged raw (input : ListObjectsV2Input) (out : ListObjectsV2Output) : ListObjectsV2Output :=
  mkListOutput ((λ o, with_e_tag o (stored_tag raw (obj_key (li_bucket input) (ob_key o)))) <$> lo_contents out)
    (lo_prefixes out) (lo_key_count out) (lo_max_keys out) (lo_is_truncated out) (lo_next_token out).

Lemma list_objects_raw a raw input :
  serves_raw a raw → li_bucket input ∈ buckets a → use_url_encoding input = false →
  (let page := list_page input (backend_listing raw input) in
   Forall (λ o, key_ok (obj_key (li_bucket input) (ob_key o))) (lo_contents page) →
   list_objects_v2 input a = (a, Ok (tagged raw input page))).
Proof.
  intros Hs Hb Hu page Hk. rewrite /list_objects_v2 (sm_bind_run _ _ _ _ _ (ensure_bucket_known _ _ Hb)).
  rewrite (sm_bind_run _ _ _ a (backend_listing raw input)).
  - rewrite (sm_bind_run _ _ _ _ _ (load_e_tags_raw _ _ _ _ Hs Hk)) Hu. done.
  - by rewrite (on_backend_read internal _ a raw (Ok (backend_listing raw input)) (sr_backend _ _ Hs)).
Qed.

Lemma follow_raw fuel a raw input :
  serves_raw a raw → li_bucket input ∈ buckets a → use_url_encoding input = false →
  listing_ok (backend_listing raw input) → 0 < default 1000 (li_max_keys input) →
  Forall (λ o, key_ok (obj_key (li_bucket input) (ob_key o))) (page_objects input (backend_listing raw input)) →
  follow fuel input a = (a, Ok (tagged raw input <$> pages fuel input (backend_listing raw input))).
Proof.
  intros Hs. revert input. induction fuel as [|fuel IH]; intros input Hb Hu Hok Hmax Hk; [done|]. cbn [follow pages].
  destruct (list_page_spec input _ Hok Hmax) as (os & ps & Ho & Hp & _ & _ & Hnext).
  rewrite Ho in Hk. apply Forall_app in Hk as [Hk1 Hk2].
  rewrite (sm_bind_run _ _ _ _ _ (list_objects_raw a raw input Hs Hb Hu Hk1)). change (lo_next_token (tagged raw input ?p)) with (lo_next_token p).
  destruct (lo_next_token (list_page input _)) as [t|] eqn:Ht; [|done]. destruct Hnext as (_ & Hos & _).
  assert (Forall (λ o, key_ok (obj_key (li_bucket input) (ob_key o)))
    (page_objects (with_token (Some t) input) (backend_listing raw (with_token (Some t) input)))) as Hk3 by (by rewrite -Hos in Hk2).
  by rewrite (sm_bind_run _ _ _ _ _ (IH (with_token (Some t) input) Hb Hu Hok Hmax Hk3)).
Qed.

(** C11: Paging is exact.  A client that lists a bucket and asks again with each
    token it is given comes to an end; what the pages hold together is every
    object under the prefix and after the start that the delimiter does not
    group, and every group of those it does, each exactly once and in order.
    No page exceeds its limit, each object has the entity tag stored with it,
    and listing leaves the adapter as it was. *)
Theorem pages_list_everything a raw input :
  serves_raw a raw → li_bucket input ∈ buckets a → use_url_encoding input = false → li_token input = None →
  0 < default 1000 (li_max_keys input) → Forall (λ item, ends_with "/" (om_location item.1) = false) (backend_listing raw input) →
  (∀ key, listed_object input (backend_listing raw input) key → key_ok (obj_key (li_bucket input) key)) →
  ∃ fuel outs, follow fuel input a = (a, Ok outs) ∧ last outs ≫= lo_next_token = None ∧
    (let objects := outs ≫= lo_contents in
     let prefixes := outs ≫= lo_prefixes in
     StronglySorted follows (ob_key <$> objects) ∧ StronglySorted follows prefixes ∧
     (∀ key, key ∈ ob_key <$> objects ↔ listed_object input (backend_listing raw input) key) ∧
     (∀ cp, cp ∈ prefixes ↔ listed_prefix input (backend_listing raw input) cp) ∧
     Forall (λ o, ob_e_tag o = stored_tag raw (obj_key (li_bucket input) (ob_key o))) objects) ∧
    Forall (λ out, zlen (lo_contents out) + zlen (lo_prefixes out) <= default 1000 (li_max_keys input)) outs.
Proof.
  intros Hs Hb Hu Ht Hmax Hplain Hkeys. set (l := backend_listing raw input) in *.
  assert (listing_ok l) as Hok by (split; [apply raw_list_distinct; apply Hs|done]).
  pose proof (page_mergeable input l Hok) as [Ho Hp _].
  set (fuel := S (length (keys_of (page_objects input l) (page_prefixes input l)))).
  destruct (pages_cover fuel input l Hok Hmax) as (Hco & Hpr & Hcnt & Hlast); [lia|].
  assert (∀ outs, (tagged raw input <$> outs) ≫= lo_prefixes = outs ≫= lo_prefixes) as Htp.
  { intros outs. induction outs as [|out outs IH]; [done|]. cbn [fmap list_fmap mbind list_bind]. by rewrite IH. }
  assert (∀ outs, (tagged raw input <$> outs) ≫= lo_contents =
    (λ o, with_e_tag o (stored_tag raw (obj_key (li_bucket input) (ob_key o)))) <$> (outs ≫= lo_contents)) as Htc.
  { intros outs. induction outs as [|out outs IH]; [done|]. cbn [fmap list_fmap mbind list_bind]. by rewrite fmap_app IH. }
  exists fuel, (tagged raw input <$> pages fuel input l). rewrite Htc Htp Hco Hpr. cbn zeta.
  rewrite -list_fmap_compose. change (ob_key ∘ _) with ob_key. split_and!; try done.
  - apply follow_raw; try done. apply Forall_forall. intros o Hin. apply Hkeys, page_objects_listed; [done|].
    by apply list_elem_of_fmap_2.
  - rewrite fmap_last. by destruct (last (pages fuel input l)).
  - intros key. by apply page_objects_listed.
  - intros cp. by apply page_prefixes_listed.
  - apply Forall_fmap, Forall_forall. done.
  - apply Forall_fmap. eapply Forall_impl; [exact Hcnt|]. intros out [Heq Hle]. cbn. by rewrite /zlen length_fmap -/(zlen _) -/(zlen (lo_prefixes out)) -Heq.
Qed.
End listings.

(** ** Examples *)

(** The bucket of S3Examples.v by groups, two items at a time. *)
Definition sample_request : ListObjectsV2Input :=
  mkListInput "b" None (Some "/") (Some 2) None None None None.

Example sample_pages :
  match snd (follow 5 sample_request sample_adapter) with
  | Ok outs => (λ out, (ob_key <$> lo_contents out, lo_prefixes out, lo_next_token out)) <$> outs
  | _ => []
  end = [(["a"], ["dir/"], Some "dir/"); (["dirt"], ["e/"], Some "e/"); (["z"], [], None)].
Proof. by vm_compute. Qed.

Lemma pages_list_everything_witness : ∃ fuel outs,
  follow fuel sample_request sample_adapter = (sample_adapter, Ok outs) ∧
  last outs ≫= lo_next_token = None ∧
  (∀ key, key ∈ ob_key <$> (outs ≫= lo_contents) ↔ listed_object sample_request (backend_listing sample_raw sample_request) key).
Proof.
  destruct (pages_list_everything sample_adapter sample_raw sample_request) as (fuel & outs & Hrun & Hend & Hall & _).
  - by split.
  - by apply (bool_decide_eq_true_1 _); vm_compute.
  - by vm_compute.
  - by vm_compute.
  - by vm_compute.
  - by apply (bool_decide_eq_true_1 _); vm_compute.
  - done.
  - exists fuel, outs. split; [exact Hrun|]. split; [exact Hend|]. apply Hall.
Defined.
