(* ===== verification/S3ObjectGuarantees.v ===== *)
(** * The guarantees of the S3 object requests *)

From S2P Require Import Prelude.
From S2P Require Import Config.
From S2P Require Import Extent.
From S2P Require Import Concrete.
From S2P Require Import Index.
From S2P Require Import StoreTools.
From S2P Require Import StoreMeta.
From S2P Require Import Instances.
From S2P Require Import Tlv.
From S2P Require Import Catalog.
From S2P Require Import Backend.
From S2P Require Import Cluster.
From S2P Require Import ClusterIo.
From S2P Require Import ClusterExamples.
From S2P Require Import ShardMeta.
From S2P Require Import ClusterAdmin.
From S2P Require Import Text.
From S2P Require Import S3Keys.
From S2P Require Import S3Backend.
From S2P Require Import S3Adapter.
From S2P Require Import S3AdapterFacts.
From S2P Require Import S3Examples.

Section objects.
Context `{ServedStoreLaws, Crc32c, HashMapOrder, ObjectPath, Chrono, Md5, DateText}.
Context (whole_seconds : Z → Z) (header_text : string → bool).
Implicit Types (a : Adapter) (raw : store).

(** What a get of [(d, md)] answers for a range. *)
Definition answers_range raw (r : option S3Range) (d : list byte) (out : GetObjectOutput) : Prop :=
  match r with
  | None => out_content_length out = zlen d ∧ out_content_range out = None ∧ body_reads raw (out_body out) d
  | Some r =>
    let '(lo, hi) := range_bounds r (zlen d) in
    out_content_length out = as_i64 (wsub hi lo) ∧ out_content_range out = Some (content_range_text lo hi (zlen d)) ∧
    out_body out = InMemory (if lo <? hi then ztake (hi - lo) (zdrop lo d) else [])
  end.

Lemma get_object_run env input a raw d md a' out :
  let path := obj_key (go_bucket input) (go_key input) in
  serves_raw a raw → key_ok path → raw_view raw !! path = Some (d, md) → zlen d < 2 ^ 63 →
  (∀ r, go_range input = Some r → range_typed r) →
  get_object whole_seconds header_text env input a = (a', Ok out) →
  a' = a ∧ out_etag out = Strong (default EMPTY_ETAG (meta_of md !! "etag")) ∧
  out_headers out = get_headers (meta_of md) ∧ answers_range raw (go_range input) d out.
Proof.
  intros path Hs Hk Hv Hz Hty. rewrite /get_object. fold path.
  intros (a1 & [] & Hval & Hrun)%sm_bind_ok. injection Hval as <- Hval.
  apply sm_bind_ok in Hrun as (a1 & [] & Hens & Hrun).
  apply ensure_bucket_ok in Hens as [-> _].
  destruct (head_run path d md a raw Hs Hk Hv) as (m & ml & Hsz & Hhead).
  rewrite (sm_bind_run _ _ _ _ _ Hhead) in Hrun. cbn [fst] in Hrun. rewrite Hsz in Hrun.
  apply sm_bind_ok in Hrun as (a1 & meta & Hmeta & Hrun).
  destruct (read_metadata_run path d md a raw Hs Hk Hv) as [Hr|Hr]; rewrite Hr in Hmeta; [|done]. injection Hmeta as <- <-.
  destruct (match go_range input with Some (RangeInt first _) => zlen d <=? first | _ => false end) eqn:Hfirst; [done|].
  apply sm_bind_ok in Hrun as (a1 & etag & Hc & Hrun). injection Hc as <- Hc. apply check_conditions_tag in Hc as ->.
  destruct (go_range input) as [r|] eqn:Hrange; cbn [answers_range].
  - rewrite /get_object_range in Hrun. pose proof (zlen_nonneg d).
    destruct (range_bounds_typed r (zlen d) (Hty r eq_refl)) as [Hlo Hhi]; [u64|destruct r; [lia|done]|].
    destruct (range_bounds r (zlen d)) as [lo hi]. cbn [fst snd] in *.
    apply sm_bind_ok in Hrun as (a1 & body & Hbody & Hrun). injection Hrun as <- <-. cbn.
    destruct (Z.ltb_spec lo hi) as [Hlt|Hge].
    + apply sm_bind_ok in Hbody as (a2 & b & Hb & Hbody). apply sm_bind_ok in Hbody as (a3 & data & Hd & Hbody).
      injection Hbody as <- <-.
      destruct (part_body _ path a raw d md lo hi b a2 data a3 Hs Hk Hv ltac:(lia) ltac:(lia) Hb Hd) as [-> ->]. done.
    + by injection Hbody as <- <-.
  - rewrite /get_object_full in Hrun. apply sm_bind_ok in Hrun as (a1 & body & Hbody & Hrun). injection Hrun as <- <-.
    destruct (whole_body _ path a raw d md body a1 Hs Hk Hv Hbody) as [-> Hread]. split_and!; try done.
    rewrite /= /as_i64. destruct (Z.ltb_spec (zlen d) (2 ^ 63)); [done|lia].
Qed.

(** The first and the last byte a range asks of a body of [size] bytes. *)
Definition bytes_asked (r : S3Range) (size : Z) : Z * Z :=
  match r with
  | RangeInt first (Some last) => (first, Z.min last (size - 1))
  | RangeInt first None => (first, size - 1)
  | RangeSuffix n => (Z.max 0 (size - n), size - 1)
  end.

(** Ranges that ask for something: not an inverted one, not a suffix of
    nothing. *)
Definition proper_range (r : S3Range) (size : Z) : Prop :=
  match r with
  | RangeInt first (Some last) => 0 <= first <= last ∧ last < u64_max
  | RangeInt first None => 0 <= first
  | RangeSuffix n => 0 < n ∧ 0 < size
  end.

Lemma bounds_proper r size :
  proper_range r size → 0 <= size < 2 ^ 63 → match r with RangeInt first _ => first < size | _ => True end →
  let '(first, last) := bytes_asked r size in
  range_bounds r size = (first, last + 1) ∧ 0 <= first <= last ∧ last < size.
Proof.
  intros Hp Hs Hf. destruct r as [first [last|]|n]; cbn in *.
  - rewrite wadd_small; [|u64]. split; [f_equal; lia|lia].
  - split; [f_equal; lia|lia].
  - rewrite wsub_small; [|u64]. split; [f_equal; lia|lia].
Qed.

(** What a get answers of the bytes [d]. *)
Definition answers raw (r : option S3Range) (d : list byte) (out : GetObjectOutput) : Prop :=
  match r with
  | None => out_content_length out = zlen d ∧ out_content_range out = None ∧ body_reads raw (out_body out) d
  | Some r =>
    let '(first, last) := bytes_asked r (zlen d) in
    out_content_length out = last - first + 1 ∧
    out_content_range out = Some ("bytes " +:+ pretty first +:+ "-" +:+ pretty last +:+ "/" +:+ pretty (zlen d)) ∧
    out_body out = InMemory (ztake (last - first + 1) (zdrop first d))
  end.

(** The first byte of a range is checked before anything is read. *)
Lemma range_satisfiable env input a raw d md a' out :
  serves_raw a raw → key_ok (obj_key (go_bucket input) (go_key input)) →
  raw_view raw !! obj_key (go_bucket input) (go_key input) = Some (d, md) →
  get_object whole_seconds header_text env input a = (a', Ok out) →
  match go_range input with Some (RangeInt first _) => first < zlen d | _ => True end.
Proof.
  intros Hs Hk Hv. rewrite /get_object. intros (a1 & [] & Hval & Hrun)%sm_bind_ok. injection Hval as <- Hval.
  apply sm_bind_ok in Hrun as (a1 & [] & Hens & Hrun). apply ensure_bucket_ok in Hens as [-> _].
  destruct (head_run _ d md a raw Hs Hk Hv) as (m & ml & Hsz & Hhead).
  rewrite (sm_bind_run _ _ _ _ _ Hhead) in Hrun. cbn [fst] in Hrun. rewrite Hsz in Hrun.
  apply sm_bind_ok in Hrun as (a1 & meta & _ & Hrun).
  destruct (go_range input) as [[first last|n]|]; try done. destruct (Z.leb_spec (zlen d) first); [done|lia].
Qed.

Lemma get_object_answers env input a raw d md a' out :
  serves_raw a raw → key_ok (obj_key (go_bucket input) (go_key input)) →
  raw_view raw !! obj_key (go_bucket input) (go_key input) = Some (d, md) → zlen d < 2 ^ 63 →
  (∀ r, go_range input = Some r → proper_range r (zlen d)) →
  get_object whole_seconds header_text env input a = (a', Ok out) →
  a' = a ∧ out_etag out = Strong (default EMPTY_ETAG (meta_of md !! "etag")) ∧
  out_headers out = get_headers (meta_of md) ∧ answers raw (go_range input) d out.
Proof.
  intros Hs Hk Hv Hz Hr Hrun. pose proof (range_satisfiable _ _ _ _ _ _ _ _ Hs Hk Hv Hrun) as Hsat.
  destruct (get_object_run env input a raw d md a' out Hs Hk Hv Hz) as (-> & He & Hh & Ha); [|done|].
  { intros r Hin. specialize (Hr r Hin). destruct r as [first [last|]|n]; cbn in *; (split || idtac); try lia; intros; simplify_eq; lia. }
  split_and!; [done..|]. revert Ha. rewrite /answers_range /answers. destruct (go_range input) as [r|]; [|done].
  pose proof (zlen_nonneg d). pose proof (bounds_proper r (zlen d) (Hr r eq_refl) ltac:(lia)) as Hb.
  destruct (bytes_asked r (zlen d)) as [first last]. destruct Hb as (-> & Hle & Hlt); [by destruct r|].
  intros (-> & -> & ->). rewrite /content_range_text !wsub_small; [|u64..]. rewrite Z.add_simpl_r.
  rewrite (proj2 (Z.ltb_lt first (last + 1))); [|lia]. replace (last + 1 - first) with (last - first + 1) by lia.
  rewrite /as_i64. destruct (Z.ltb_spec (last - first + 1) (2 ^ 63)); [done|lia].
Qed.

(** What the request asks to store is within the limits of the formats. *)
Record put_sized (env : Env) (input : PutObjectInput) : Prop := {
  pz_fits : put_fits env input;
  pz_body d : body_of input = Some d → zlen d < 2 ^ 63 ∧ strings_ok (put_metadata input d);
  pz_meta d md : body_of input = Some d → metadata_bytes (put_metadata input d) = Ok md → zlen md < 2 ^ 16;
}.

(** C10: Put, then get, through an adapter over one raw store.  A put that fails
    leaves every object as it was.  After one that succeeds no other object
    has changed, and however long after, as long as nothing else wrote the
    key, a get of it that answers gives the whole body put, or exactly the
    bytes of the range it asks for, clipped to the body, for a range that is
    neither inverted nor a suffix of nothing; the entity tag is the digest of
    the body, the one the put answered, and the headers are those of the put
    but for [expires], which a get leaves out, and an empty set of user
    metadata.  (Inverted ranges and suffixes of an empty body are answered
    too, wrongly: [inverted_range], [empty_suffix_range].) *)
Theorem put_then_get env input a raw a1 res :
  let path := obj_key (po_bucket input) (po_key input) in
  serves_raw a raw → env_ok env → key_ok path → put_sized env input → put_object env input a = (a1, res) →
  ∃ raw1, serves_raw a1 raw1 ∧
  match res with
  | Err _ => raw_view raw1 = raw_view raw
  | Panic => False
  | Ok tag =>
    (∀ k, k ≠ path → raw_view raw1 !! k = raw_view raw !! k) ∧
    ∃ d, body_of input = Some d ∧ tag = md5_hex d ∧
    ∀ env2 request a2 raw2 a3 out,
      serves_raw a2 raw2 → raw_view raw2 !! path = raw_view raw1 !! path →
      obj_key (go_bucket request) (go_key request) = path → (∀ r, go_range request = Some r → proper_range r (zlen d)) →
      get_object whole_seconds header_text env2 request a2 = (a3, Ok out) →
      a3 = a2 ∧ out_etag out = Strong tag ∧ out_headers out = answered_headers (po_headers input) ∧
      answers raw2 (go_range request) d out
  end.
Proof.
  intros path Hs He Hk [Hfit Hbody Hmeta] Hput. pose proof (put_object_run env input a raw Hs He Hk Hfit) as Hp.
  rewrite Hput in Hp. destruct res as [tag|e|]; [|destruct Hp as (raw' & ? & ? & -> & ?); by exists raw'|done].
  destruct Hp as (d & md & raw1 & Hd & Hmd & -> & Hok & Hr & -> & Hv). exists raw1. split; [by split|]. split.
  { intros k Hne. by rewrite Hv lookup_insert_ne. }
  exists d. split_and!; [done..|]. intros env2 request a2 raw2 a3 out Hs2 Hsame Hpath Hrange Hget.
  destruct (Hbody d Hd) as [Hz Hstr]. specialize (Hmeta d md Hd Hmd). pose proof (zlen_nonneg md).
  rewrite Hv lookup_insert_eq Z.mod_small ?stored_exact in Hsame; [|lia].
  destruct (get_object_answers env2 request a2 raw2 d md a3 out Hs2) as (-> & -> & -> & Ha); [by rewrite Hpath..|done|done|done|].
  assert (meta_of md = put_metadata input d) as -> by by apply stored_headers_back.
  split_and!; [done|by rewrite /put_metadata lookup_insert_eq|apply headers_answered|done].
Qed.
End objects.

(** ** Examples *)

Definition plain_headers : ObjectHeaders :=
  mkHeaders (Some "text/plain") None None None None (Some 12) (Some {["colour" := "red"]}).

Definition hello : PutObjectInput :=
  mkPutInput "b" "dir/new" (Some 5) plain_headers (Some [Some (as_bytes "hel"); Some (as_bytes "lo")]).

Definition ask (key : string) (r : option S3Range) : GetObjectInput := mkGetInput "b" key r None None None None.

Definition any_header (_ : string) : bool := true.

Lemma hello_sized : put_sized (good_env "t") hello.
Proof.
  split.
  - intros d md _ _. exact I.
  - intros d [= <-]. split; [done|]. by apply (bool_decide_eq_true_1 _); vm_compute.
  - intros d md [= <-]. intros Hm. vm_compute in Hm. injection Hm as <-. by vm_compute.
Qed.

Definition with_hello : Adapter := fst (put_object (good_env "t") hello sample_adapter).
Definition middle : GetObjectInput := ask "dir/new" (Some (RangeInt 1 (Some 3))).

Lemma put_then_get_witness :
  snd (put_object (good_env "t") hello sample_adapter) = Ok (md5_hex (as_bytes "hello")) ∧
  ∃ out, snd (get_object id any_header (good_env "t") middle with_hello) = Ok out ∧
    out_etag out = Strong (md5_hex (as_bytes "hello")) ∧ out_headers out = answered_headers plain_headers ∧
    out_content_length out = 3 ∧ out_body out = InMemory (as_bytes "ell").
Proof.
  assert (snd (put_object (good_env "t") hello sample_adapter) = Ok (md5_hex (as_bytes "hello"))) as Hres by (by vm_compute).
  split; [exact Hres|].
  assert (is_ok (snd (get_object id any_header (good_env "t") middle with_hello)) = true) as Hok by (by vm_compute).
  destruct (snd (get_object id any_header (good_env "t") middle with_hello)) as [out|e|] eqn:Hget; [|discriminate Hok..].
  exists out. split; [reflexivity|].
  destruct (put_then_get id any_header (good_env "t") hello sample_adapter sample_raw with_hello (Ok (md5_hex (as_bytes "hello"))))
    as (raw1 & Hs1 & _ & d & Hd & _ & Hall).
  - by split.
  - apply good_env_ok.
  - exact I.
  - exact hello_sized.
  - rewrite <- Hres. exact (surjective_pairing _).
  - injection Hd as <-.
    destruct (Hall (good_env "t") middle with_hello raw1 (fst (get_object id any_header (good_env "t") middle with_hello)) out)
      as (_ & He & Hh & Hl & _ & Hb).
    + exact Hs1.
    + reflexivity.
    + reflexivity.
    + intros r [= <-]. split; [lia|reflexivity].
    + rewrite <- Hget. exact (surjective_pairing _).
    + split; [exact He|]. split; [exact Hh|]. split; [exact Hl|exact Hb].
Defined.

(** A suffix range of an empty object is answered with a last byte below
    zero, wrapped around. *)
Lemma empty_suffix_range :
  match snd (get_object id any_header (good_env "t") (ask "e/" (Some (RangeSuffix 5))) sample_adapter) with
  | Ok out => out_content_range out = Some "bytes 0-18446744073709551615/0" ∧ out_content_length out = 0
  | _ => False
  end.
Proof. by vm_compute. Qed.

(** A range whose last byte comes before its first is answered too, with a
    negative length. *)
Lemma inverted_range :
  match snd (get_object id any_header (good_env "t") (ask "dir/y" (Some (RangeInt 2 (Some 0)))) sample_adapter) with
  | Ok out => out_content_length out = -1
  | _ => False
  end.
Proof. by vm_compute. Qed.
