(* ===== verification/S3UploadGuarantees.v ===== *)
(** * The uploads of the S3 adapter: facts and guarantees

    The parts of the registered uploads and the temporary files they are in,
    in every history; then what completing an upload stores. *)

From S2P Require Import Prelude.
From S2P Require Import Config.
From S2P Require Import Extent.
From S2P Require Import Concrete.
From S2P Require Import Index.
From S2P Require Import StoreTools.
From S2P Require Import StoreMeta.
From S2P Require Import Instances.
From S2P Require Import Tlv.
From S2P Require Import Catalog.
From S2P Require Import Backend.
From S2P Require Import Cluster.
From S2P Require Import ClusterExamples.
From S2P Require Import ShardMeta.
From S2P Require Import ClusterAdmin.
From S2P Require Import Text.
From S2P Require Import S3Keys.
From S2P Require Import S3Backend.
From S2P Require Import S3Adapter.
From S2P Require Import S3Listing.
From S2P Require Import S3Uploads.
From S2P Require Import S3Requests.
From S2P Require Import S3AdapterFacts.
From S2P Require Import S3Examples.

(** ** Parts and files *)

Section parts.
Context `{Md5}.
Implicit Types (files : gmap string (list byte)) (ups : gmap string Upload).

(** Part [n] of upload [id]. *)
Definition has_part ups (id : string) (n : Z) (part : PartMeta) : Prop :=
  ∃ u, ups !! id = Some u ∧ parts u !! n = Some part.

(** The file of a part has the size and the digest on record. *)
Definition backed files (part : PartMeta) : Prop :=
  ∃ data, files !! temp_path part = Some data ∧ pm_size part = wrap64 (zlen data) ∧ pm_etag part = md5_hex data.

Record parts_ok files ups : Prop := {
  po_backed id n part : has_part ups id n part → 1 <= n <= 10000 ∧ backed files part;
  po_apart id n part id' n' part' :
    has_part ups id n part → has_part ups id' n' part' → temp_path part = temp_path part' → id = id' ∧ n = n';
  po_count : (size ups <= MAX_CONCURRENT_UPLOADS)%nat;
}.

Lemma parts_ok_empty files : parts_ok files ∅.
Proof. split; [by intros ??? (? & ? & ?)|by intros ?????? (? & ? & ?)|]. rewrite map_size_empty. lia. Qed.

(** Fewer uploads. *)
Lemma has_part_delete ups i id n part : has_part (delete i ups) id n part ↔ id ≠ i ∧ has_part ups id n part.
Proof.
  rewrite /has_part. setoid_rewrite lookup_delete_Some. split; [intros (u & [? ?] & ?); by eauto|].
  intros (? & u & ? & ?). by exists u.
Qed.

Lemma parts_ok_delete files ups i : parts_ok files ups → parts_ok files (delete i ups).
Proof.
  intros [Hb Ha Hc]. split.
  - intros id n part [_ Hp]%has_part_delete. by eapply Hb.
  - intros id n part id' n' part' [_ Hp]%has_part_delete [_ Hp']%has_part_delete. by apply Ha.
  - etransitivity; [|exact Hc]. rewrite map_size_delete. destruct (ups !! i); cbn; lia.
Qed.

(** Files no part is in. *)
Lemma backed_files files files' part : files' !! temp_path part = files !! temp_path part → backed files part → backed files' part.
Proof. rewrite /backed. by intros ->. Qed.

Lemma parts_ok_files files files' ups :
  parts_ok files ups → (∀ id n part, has_part ups id n part → files' !! temp_path part = files !! temp_path part) →
  parts_ok files' ups.
Proof.
  intros [Hb Ha Hc] Hf. split; [|done..]. intros id n part Hp. destruct (Hb _ _ _ Hp) as [Hn Hd]. split; [done|].
  eapply backed_files; [by eapply Hf|done].
Qed.

Lemma fresh_not_part files ups id n part path :
  parts_ok files ups → files !! path = None → has_part ups id n part → temp_path part ≠ path.
Proof. intros Hok Hn Hp <-. destruct (po_backed _ _ Hok _ _ _ Hp) as [_ (d & Hd & _)]. congruence. Qed.

Lemma parts_ok_keep files ups path data :
  parts_ok files ups → files !! path = None → parts_ok (<[path := data]> files) ups.
Proof.
  intros Hok Hn. eapply parts_ok_files; [done|]. intros id n part Hp. rewrite lookup_insert_ne //.
  intros Heq. by eapply fresh_not_part.
Qed.

(** The files of an upload that is gone. *)
Definition part_paths (u : Upload) : list string := temp_path <$> (map_to_list (parts u)).*2.

Lemma in_part_paths u path : path ∈ part_paths u ↔ ∃ n part, parts u !! n = Some part ∧ temp_path part = path.
Proof.
  rewrite /part_paths list_elem_of_fmap. split.
  - intros (part & -> & ([n p] & -> & Hin%elem_of_map_to_list)%list_elem_of_fmap). by exists n, p.
  - intros (n & part & Hp & <-). exists part. split; [done|]. apply list_elem_of_fmap. exists (n, part).
    by rewrite elem_of_map_to_list.
Qed.

Lemma parts_ok_drop files ups id u :
  parts_ok files ups → ups !! id = Some u →
  parts_ok (filter (λ '(path, _), path ∉ part_paths u) files) (delete id ups).
Proof.
  intros Hok Hu. apply (parts_ok_files files); [by apply parts_ok_delete|]. intros id' n part [Hne Hp]%has_part_delete.
  destruct (files !! temp_path part) as [d|] eqn:Hd.
  - apply map_lookup_filter_Some. split; [done|]. intros (n' & part' & Hp' & Heq)%in_part_paths. apply Hne.
    symmetry. eapply (proj1 (po_apart _ _ Hok id n' part' id' n part ltac:(by exists u) Hp Heq)).
  - apply map_lookup_filter_None. by left.
Qed.

(** A new upload has no parts. *)
Lemma parts_ok_new files ups id u :
  parts_ok files ups → parts u = ∅ → (size ups < MAX_CONCURRENT_UPLOADS)%nat → ups !! id = None →
  parts_ok files (<[id := u]> ups).
Proof.
  intros [Hb Ha Hc] Hu Hlt Hn.
  assert (∀ id' n part, has_part (<[id := u]> ups) id' n part → has_part ups id' n part) as Hp.
  { intros id' n part (u' & Hu' & Hpart). apply lookup_insert_Some in Hu' as [[<- <-]|[Hne Hu']]; [by rewrite Hu in Hpart|by exists u']. }
  split.
  - intros id' n part ?%Hp. by eapply Hb.
  - intros ?????? ?%Hp ?%Hp. by apply Ha.
  - rewrite map_size_insert_None //.
Qed.

(** A part in a new file. *)
Lemma parts_ok_register files ups id u n path data :
  parts_ok files ups → files !! path = None → ups !! id = Some u → 1 <= n <= 10000 →
  parts_ok (<[path := data]> files)
    (<[id := with_parts (<[n := mkPart (wrap64 (zlen data)) (md5_hex data) path]> (parts u)) u]> ups).
Proof.
  intros Hok Hf Hu Hn. set (part0 := mkPart _ _ _). set (ups' := <[id := _]> ups).
  assert (∀ id' n' part, has_part ups' id' n' part → (id' = id ∧ n' = n ∧ part = part0) ∨
    (has_part ups id' n' part ∧ (id', n') ≠ (id, n))) as Hp.
  { intros id' n' part (u' & Hu' & Hpart). apply lookup_insert_Some in Hu' as [[<- <-]|[Hne Hu']].
    - cbn in Hpart. apply lookup_insert_Some in Hpart as [[<- <-]|[Hne Hpart]]; [by left|]. right.
      split; [by exists u|]. congruence.
    - right. split; [by exists u'|]. congruence. }
  assert (∀ id' n' part, has_part ups id' n' part → temp_path part ≠ path) as Hfresh by (intros; by eapply fresh_not_part).
  split.
  - intros id' n' part [(-> & -> & ->)|[Hpart _]]%Hp.
    + split; [done|]. exists data. by rewrite lookup_insert_eq.
    + destruct (po_backed _ _ Hok _ _ _ Hpart) as [Hn' Hb]. split; [done|]. eapply backed_files; [|done].
      rewrite lookup_insert_ne //. intros Heq. by eapply Hfresh.
  - intros id1 n1 p1 id2 n2 p2 [(-> & -> & ->)|[H1 _]]%Hp [(-> & -> & ->)|[H2 _]]%Hp Heq; [done| | |by eapply po_apart].
    + cbn in Heq. by destruct (Hfresh _ _ _ H2).
    + cbn in Heq. by destruct (Hfresh _ _ _ H1).
  - rewrite /ups' map_size_insert_Some; [apply Hok|by eexists].
Qed.
End parts.

(** ** Requests that leave the uploads alone *)

Section quiet.
Context `{ObjectBackend, !GetRequest, Crc32c, HashMapOrder, ObjectPath, Chrono, Md5, DateText}.
Implicit Types (a : Adapter).

Definition same_uploads a a' : Prop := uploads a' = uploads a ∧ temp_files a' = temp_files a.
Definition quiet {A} (m : AM A) : Prop := ∀ a, same_uploads a (m a).1.

Lemma quiet_ret {A} (x : A) : quiet (sm_ret x).
Proof. done. Qed.
Lemma quiet_err {A} e : quiet (sm_err e : AM A).
Proof. done. Qed.
Lemma quiet_get : quiet (sm_get : AM Adapter).
Proof. done. Qed.
Lemma quiet_lift {A} (r : S3Result A) : quiet (sm_lift r).
Proof. done. Qed.
Lemma quiet_modify f : (∀ a, same_uploads a (f a)) → quiet (sm_modify f).
Proof. intros Hf a. apply Hf. Qed.

Lemma quiet_bind {A B} (m : AM A) (k : A → AM B) : quiet m → (∀ x, quiet (k x)) → quiet (sm_bind m k).
Proof.
  intros Hm Hk a. specialize (Hm a). rewrite /sm_bind. destruct (m a) as [a1 [x|e|]]; [|done..].
  destruct Hm as [Hu Ht]. cbn [fst] in *. specialize (Hk x a1). destruct Hk as [Hu' Ht']. split; congruence.
Qed.

Lemma quiet_on_backend {E A} (error : E → S3Error) (m : BM E A) : quiet (on_backend error m).
Proof. intros a. rewrite /on_backend. by destruct (m (ad_backend a)). Qed.
Lemma quiet_try_backend {E A} (m : BM E A) : quiet (try_backend m).
Proof. intros a. rewrite /try_backend. by destruct (m (ad_backend a)). Qed.
End quiet.

Ltac quiet_step :=
  first [ apply quiet_ret | apply quiet_err | apply quiet_get | apply quiet_lift | apply quiet_on_backend
        | apply quiet_try_backend | apply quiet_modify; by intros ? | apply quiet_bind; [|intros ?] | done
        | progress case_match | progress case_decide ].
Ltac quiet := repeat quiet_step.

Section quiet_requests.
Context `{ObjectBackend, !GetRequest, Crc32c, HashMapOrder, ObjectPath, Chrono, Md5, DateText}.
Context (whole_seconds : Z → Z) (header_text : string → bool).

Lemma quiet_ensure bucket : quiet (ensure_bucket bucket).
Proof. rewrite /ensure_bucket. quiet. Qed.
Lemma quiet_stats bucket : quiet (compute_bucket_stats bucket).
Proof. rewrite /compute_bucket_stats. quiet. Qed.
Lemma quiet_load bucket key : quiet (load_metadata bucket key).
Proof. rewrite /load_metadata. quiet. Qed.
Lemma quiet_done bucket key md5 : quiet (put_done bucket key md5).
Proof. rewrite /put_done /emit /invalidate_stats. quiet. Qed.
Lemma quiet_read_meta path : quiet (read_metadata path).
Proof. rewrite /read_metadata. quiet. Qed.
Lemma quiet_read_meta_or_none path : quiet (read_metadata_or_none path).
Proof. rewrite /read_metadata_or_none. quiet. Qed.
Lemma quiet_delete_one env bucket key : quiet (delete_one env bucket key).
Proof. rewrite /delete_one /emit. quiet. Qed.
Lemma quiet_source env path : quiet (read_source_object env path).
Proof. rewrite /read_source_object. quiet. Qed.
End quiet_requests.

Ltac quiet_call :=
  repeat first [ apply quiet_ensure | apply quiet_stats | apply quiet_load | apply quiet_done | apply quiet_read_meta
               | apply quiet_read_meta_or_none | apply quiet_delete_one | apply quiet_source | quiet_step ].

Section quiet_handlers.
Context `{ObjectBackend, !GetRequest, Crc32c, HashMapOrder, ObjectPath, Chrono, Md5, DateText}.
Context (whole_seconds : Z → Z) (header_text : string → bool).

Lemma quiet_put env input : quiet (put_object env input).
Proof. rewrite /put_object /put_small /put_spooled. quiet_call. Qed.
Lemma quiet_delete_each env bucket keys : quiet (delete_each env bucket keys).
Proof. induction keys as [|key keys IH]; cbn [delete_each]; quiet_call. Qed.
Lemma quiet_tags bucket objects : quiet (load_e_tags bucket objects).
Proof. induction objects as [|o objects IH]; cbn [load_e_tags]; quiet_call. Qed.
Lemma quiet_list input : quiet (list_objects_v2 input).
Proof. rewrite /list_objects_v2. quiet_call. apply quiet_tags. Qed.
Lemma quiet_get_object env input : quiet (get_object whole_seconds header_text env input).
Proof. rewrite /get_object /get_object_range /get_object_full. quiet_call. Qed.
Lemma quiet_complete_again env bucket key : quiet (complete_again env bucket key).
Proof. rewrite /complete_again. quiet_call. Qed.

(** The requests that are not about uploads. *)
Definition about_uploads (call : S3Call) : bool :=
  match call with
  | CreateUpload _ _ _ | UploadPart _ _ _ | UploadPartCopy _ _ _ _ | CompleteUpload _ _ _ _ | AbortUpload _ => true
  | _ => false
  end.

Lemma quiet_handle env call : about_uploads call = false → quiet (handle whole_seconds header_text env call).
Proof.
  destruct call; cbn [about_uploads handle]; try done; intros _; rewrite /answered;
    try (apply quiet_bind; [|intros ?; apply quiet_ret]);
    rewrite /create_bucket /delete_bucket /head_bucket /list_buckets /get_bucket_location ?/get_bucket_acl
      ?/get_bucket_versioning ?/put_bucket_versioning
      /head_object /get_object_attributes /get_object_acl /delete_object /delete_objects /copy_object
      /list_objects /list_object_versions /list_multipart_uploads /list_parts /invalidate_stats;
    first [apply quiet_put | apply quiet_get_object | apply quiet_list | quiet_call];
    first [apply quiet_delete_each | apply quiet_tags].
Qed.
End quiet_handlers.

(** * The guarantees of the S3 uploads *)

(** ** The registry *)

Section registry.
Context `{ObjectBackend, !GetRequest, Crc32c, HashMapOrder, ObjectPath, Chrono, Md5, DateText}.
Context (whole_seconds : Z → Z) (header_text : string → bool).
Implicit Types (a : Adapter).

Definition uploads_ok a : Prop := parts_ok (temp_files a) (uploads a).

Lemma same_uploads_ok a a' : same_uploads a a' → uploads_ok a → uploads_ok a'.
Proof. rewrite /uploads_ok. by intros [-> ->]. Qed.

Lemma same_trans a1 a2 a3 : same_uploads a1 a2 → same_uploads a2 a3 → same_uploads a1 a3.
Proof. intros [Hu Ht] [Hu' Ht']. split; [by rewrite Hu'|by rewrite Ht']. Qed.

Lemma quiet_ok {A} (m : AM A) a : quiet m → uploads_ok a → uploads_ok (m a).1.
Proof. intros Hq. by apply same_uploads_ok. Qed.

Lemma discard_ok id a : uploads_ok a → uploads_ok (discard_upload id a).
Proof.
  rewrite /discard_upload. intros Hok. destruct (uploads a !! id) as [u|] eqn:Hu; [|done].
  by apply (parts_ok_drop (temp_files a) (uploads a) id u).
Qed.

Lemma purge_ok env a : uploads_ok a → uploads_ok (purge_stale env a).
Proof.
  rewrite /purge_stale. intros Hok. induction (map_to_list _).*1 as [|id ids IH]; [done|]. cbn [foldr]. by apply discard_ok.
Qed.

Lemma discard_gone id a : uploads (discard_upload id a) !! id = None.
Proof. rewrite /discard_upload. destruct (uploads a !! id) eqn:Hu; [|done]. cbn. apply lookup_delete_eq. Qed.

Lemma discard_size id a : (size (uploads (discard_upload id a)) <= size (uploads a))%nat.
Proof.
  rewrite /discard_upload. destruct (uploads a !! id) as [u|] eqn:Hu; [|done]. cbn. rewrite map_size_delete Hu. cbn. lia.
Qed.

Lemma create_ok env bucket key headers a :
  uploads_ok a → uploads_ok (create_multipart_upload env bucket key headers a).1.
Proof.
  intros Hok. rewrite /create_multipart_upload. destruct (decide (bucket ∈ buckets a)) as [Hin|Hout].
  - rewrite (sm_bind_run _ _ _ _ _ (ensure_bucket_known _ _ Hin)). unfold sm_bind at 1, sm_modify at 1, sm_bind at 1, sm_get.
    pose proof (purge_ok env a Hok) as Hp. set (a1 := purge_stale env a) in *. case_decide as Hc; [done|].
    rewrite /insert_upload. cbn. apply parts_ok_new; [by apply discard_ok|done| |apply discard_gone].
    pose proof (discard_size (uuid env) a1). lia.
  - unfold sm_bind at 1. by rewrite (ensure_bucket_unknown _ _ Hout).
Qed.

(** Registering what was spooled. *)
Lemma finish_part_run sp id path n data total a :
  finish_part sp id path n data (Ok total) a =
    if sp_flush sp data
    then match uploads a !! id with
         | Some u => (with_uploads (<[id := with_parts (<[n := mkPart total (md5_hex data) path]> (parts u)) u]> (uploads a)) a, Ok (md5_hex data))
         | None => (a, Err NoSuchUpload)
         end
    else (a, Err InternalError).
Proof.
  rewrite /finish_part /register_part. destruct (sp_flush sp data); [|done]. unfold sm_bind, sm_lift, sm_get. cbn.
  by destruct (uploads a !! id).
Qed.

Lemma finish_part_ok sp id path n data r a :
  uploads_ok a → temp_files a !! path = None → 1 <= n <= 10000 → (∀ t, r = Ok t → t = wrap64 (zlen data)) →
  let '(a', r') := finish_part sp id path n data r (keep_file path data a) in
  uploads_ok a' ∧ (is_ok r' = false → a' = keep_file path data a).
Proof.
  intros Hok Hn Hpn Hr.
  assert (uploads_ok (keep_file path data a)) as Hkeep by by apply parts_ok_keep.
  destruct r as [t|e|]; [|done..]. rewrite finish_part_run (Hr t eq_refl). destruct (sp_flush sp data); [|done].
  destruct (uploads (keep_file path data a) !! id) as [u|] eqn:Hu; [|done]. split; [|done].
  by apply (parts_ok_register (temp_files a) (uploads a)).
Qed.

Lemma keep_remove path data a : temp_files a !! path = None → remove_file path (keep_file path data a) = a.
Proof.
  intros Hn. destruct a. rewrite /remove_file /keep_file /with_temp_files /=. cbn in Hn. by rewrite delete_insert_id.
Qed.

Lemma part_number_bound n : part_number_ok n = true → 1 <= n <= 10000.
Proof. rewrite /part_number_ok. lia. Qed.

Lemma upload_part_ok env id n body a : uploads_ok a → fresh_env env a → uploads_ok (upload_part env id n body a).1.
Proof.
  intros Hok Hfresh. rewrite /upload_part. destruct (part_number_ok n) eqn:Hn; [|done]. apply part_number_bound in Hn.
  cbn [negb]. unfold sm_bind at 1, sm_lift at 1. destruct (named_temp env) as [[path sp]|] eqn:Htmp; [|done]. cbn [ok_or].
  unfold sm_bind at 1, sm_get. destruct (spool_body _ _ _ _ _) as [data r] eqn:Hspool. specialize (Hfresh _ _ Htmp).
  unfold sm_bind at 1, sm_modify, sm_on_err.
  pose proof (finish_part_ok sp id path n data r a Hok Hfresh Hn) as Hf.
  destruct (finish_part _ _ _ _ _ _ _) as [a' [x|e|]].
  - apply Hf. intros t ->. by apply (spool_body_size sp _ []) in Hspool.
  - cbn. destruct Hf as [_ Hf]; [intros t ->; by apply (spool_body_size sp _ []) in Hspool|]. by rewrite Hf // keep_remove.
  - apply Hf. intros t ->. by apply (spool_body_size sp _ []) in Hspool.
Qed.

Lemma same_fresh env a a' : same_uploads a a' → fresh_env env a → fresh_env env a'.
Proof. intros [_ Ht] Hf path sp Hp. rewrite Ht. by eapply Hf. Qed.

(** After a step that leaves the uploads alone, for what depends on them
    only. *)
Lemma after_quiet {A B} (P : Adapter → Prop) (m : AM A) (k : A → AM B) a :
  quiet m → (∀ a a', same_uploads a a' → P a → P a') → (∀ a, P a → uploads_ok a) → P a →
  (∀ x a', P a' → uploads_ok (k x a').1) → uploads_ok (sm_bind m k a).1.
Proof.
  intros Hm Hsame Hok HP Hk. specialize (Hm a). rewrite /sm_bind.
  destruct (m a) as [a1 [x|e|]]; cbn [fst] in *; [by eapply Hk, Hsame|by eapply Hok, Hsame..].
Qed.

Definition upload_ready (env : Env) a : Prop := uploads_ok a ∧ fresh_env env a.

Lemma ready_same env a a' : same_uploads a a' → upload_ready env a → upload_ready env a'.
Proof. intros Hs [Hok Hf]. split; [by eapply same_uploads_ok|by eapply same_fresh]. Qed.

Lemma ready_ok env a : upload_ready env a → uploads_ok a.
Proof. by intros [? _]. Qed.

(** The empty file of a part about to be copied. *)
Definition copying (path : string) a0 a : Prop :=
  uploads a = uploads a0 ∧ temp_files a = <[path := []]> (temp_files a0).

Lemma copying_same path a0 a a' : same_uploads a a' → copying path a0 a → copying path a0 a'.
Proof. rewrite /copying. by intros [-> ->]. Qed.

Lemma copying_ok path a0 a : uploads_ok a0 → temp_files a0 !! path = None → copying path a0 a → uploads_ok a.
Proof. rewrite /uploads_ok. intros Hok Hn [-> ->]. by apply parts_ok_keep. Qed.

Lemma copying_keep path data a0 a :
  copying path a0 a → ∃ a0', same_uploads a0 a0' ∧ keep_file path data a = keep_file path data a0'.
Proof.
  intros [Hu Ht]. exists (with_temp_files (temp_files a0) a). split; [done|].
  rewrite /keep_file Ht insert_insert_eq. by destruct a.
Qed.

Lemma upload_part_copy_ok env id n source range a :
  uploads_ok a → fresh_env env a → uploads_ok (upload_part_copy env id n source range a).1.
Proof.
  intros Hok Hfresh. rewrite /upload_part_copy. destruct (part_number_ok n) eqn:Hn; [|done]. apply part_number_bound in Hn.
  cbn [negb]. destruct source as [[src_bucket src_key]|]; [|done].
  apply (after_quiet (upload_ready env)); [apply quiet_on_backend|apply ready_same|apply ready_ok|done|].
  clear a Hok Hfresh. intros head a Hr.
  apply (after_quiet (upload_ready env)); [apply quiet_lift|apply ready_same|apply ready_ok|done|].
  clear a Hr. intros bounds a [Hok Hfresh].
  unfold sm_bind at 1, sm_get. destruct (_ && _); [done|]. unfold sm_bind at 1, sm_lift at 1.
  destruct (named_temp env) as [[path sp]|] eqn:Htmp; [|done]. cbn [ok_or]. specialize (Hfresh _ _ Htmp).
  unfold sm_bind at 1, sm_modify at 1.
  assert (∀ a', copying path a a' → uploads_ok a') as Hcok by (intros; by eapply copying_ok).
  apply (after_quiet (copying path a)); [apply quiet_on_backend|apply copying_same|done|done|]. intros b a1 H1'.
  apply (after_quiet (copying path a)); [apply quiet_on_backend|apply copying_same|done|done|]. intros chunks a2 H2'.
  apply (after_quiet (copying path a)); [apply quiet_lift|apply copying_same|done|done|]. intros body a3 H3'.
  destruct (spool_body sp None [] 0 body) as [data r] eqn:Hspool. unfold sm_bind at 1, sm_modify.
  destruct (copying_keep path data a a3 H3') as (a0 & Hs & ->).
  pose proof (finish_part_ok sp id path n data r a0) as Hf.
  destruct (finish_part _ _ _ _ _ _ _) as [a' r']. apply Hf; [by eapply same_uploads_ok|by rewrite (proj2 Hs)|done|].
  intros t ->. by apply (spool_body_size sp _ []) in Hspool.
Qed.

(** An upload out of the registry: its files are still those of its parts. *)
Lemma complete_upload_ok env bucket key id u asked a a0 :
  uploads_ok a0 → uploads a0 !! id = Some u → uploads a = delete id (uploads a0) → temp_files a = temp_files a0 →
  uploads_ok (complete_upload env bucket key id u asked a).1.
Proof.
  intros Hok Hu Hups Hfiles.
  assert (∀ a', same_uploads a a' → uploads_ok (drop_upload u a')) as Hdrop.
  { intros a' [H1' H2']. rewrite /uploads_ok /drop_upload /= H1' H2' Hups Hfiles. by apply parts_ok_drop. }
  assert (∀ a', same_uploads a a' → uploads_ok a') as Hdel.
  { intros a' [H1' H2']. rewrite /uploads_ok H1' H2' Hups Hfiles. by apply parts_ok_delete. }
  rewrite /complete_upload. case_decide; [by apply Hdrop|]. unfold sm_bind at 1, sm_get. unfold sm_bind at 1, sm_on_err, sm_lift.
  destruct (joined_file env u (temp_files a) asked) as [[[file md5] meta_len]|e|]; [|by apply Hdrop|by apply Hdel].
  unfold sm_bind at 1. pose proof (quiet_try_backend (backend_put_from_file (now env) (obj_key bucket key) file meta_len) a) as Hq.
  destruct (try_backend _ a) as [a1 [[e|x]|e|]]; cbn [fst] in Hq; [| |by apply Hdel..].
  - cbn. rewrite /insert_upload /discard_upload (proj1 Hq) Hups lookup_delete_eq /uploads_ok /=.
    rewrite (proj1 Hq) (proj2 Hq) Hups Hfiles insert_delete_eq insert_id //.
  - unfold sm_bind at 1. pose proof (quiet_done bucket key md5 a1) as Hq'. destruct (put_done bucket key md5 a1) as [a2 [y|e|]];
      cbn [fst] in Hq'; [apply Hdrop|apply Hdel..]; by eapply same_trans.
Qed.

Lemma complete_ok env bucket key id asked a :
  uploads_ok a → uploads_ok (complete_multipart_upload env bucket key id asked a).1.
Proof.
  intros Hok. rewrite /complete_multipart_upload. unfold sm_bind at 1, sm_lift. destruct asked as [asked|]; [|done]. cbn [ok_or].
  unfold sm_bind at 1, sm_get. destruct (uploads a !! id) as [u|] eqn:Hu; [|by apply quiet_ok; [apply quiet_complete_again|]].
  unfold sm_bind at 1, sm_modify. by apply (complete_upload_ok _ _ _ _ _ _ _ a).
Qed.

Lemma abort_ok id a : uploads_ok a → uploads_ok (abort_multipart_upload id a).1.
Proof.
  intros Hok. rewrite /abort_multipart_upload. unfold sm_bind, sm_get. destruct (uploads a !! id); [|done]. by apply discard_ok.
Qed.

Lemma answered_fst {A} (m : AM A) a : (answered m a).1 = (m a).1.
Proof. rewrite /answered /sm_bind. by destruct (m a) as [? [?|?|]]. Qed.

Lemma handle_ok env call a : uploads_ok a → fresh_env env a → uploads_ok (handle whole_seconds header_text env call a).1.
Proof.
  intros Hok Hf. destruct (about_uploads call) eqn:Ha; [|by apply quiet_ok; [apply quiet_handle|]].
  destruct call; try done; cbn [handle]; rewrite ?answered_fst;
    [by apply create_ok|by apply upload_part_ok|by apply upload_part_copy_ok|by apply complete_ok|by apply abort_ok].
Qed.

(** C13: Uploads are backed.  After any history of requests to a new adapter,
    over a single store or a cluster and whatever fails, there are at most a
    thousand uploads; every part of one has a number from 1 to 10000 and a
    temporary file of its own, which holds exactly the bytes whose size and
    digest are on record. *)
Theorem uploads_stay_backed backend names calls a :
  history whole_seconds header_text (build backend names) calls a →
  (size (uploads a) <= MAX_CONCURRENT_UPLOADS)%nat ∧
  (∀ id n part, has_part (uploads a) id n part → 1 <= n <= 10000 ∧ backed (temp_files a) part) ∧
  (∀ id n part id' n' part', has_part (uploads a) id n part → has_part (uploads a) id' n' part' →
     temp_path part = temp_path part' → id = id' ∧ n = n').
Proof.
  intros Hh. assert (uploads_ok a) as [Hb Ha Hc]; [|done].
  induction Hh as [|calls a env call _ IH Hf]; [apply parts_ok_empty|by apply handle_ok].
Qed.
End registry.

(** ** Completing an upload *)

Section completing.
Context `{ServedStoreLaws, Crc32c, HashMapOrder, ObjectPath, Chrono, Md5, DateText}.
Implicit Types (a : Adapter) (raw : store) (u : Upload).

(** A kept file is read as it was written, or not at all. *)
Definition reads_ok (env : Env) : Prop :=
  ∀ path content reads d, temp_open env path content = Some reads → collect_body reads = Some d → d = content.

(** The bytes of the parts asked for. *)
Definition part_data (files : gmap string (list byte)) u (p : option Z) (d : list byte) : Prop :=
  ∃ n part, p = Some n ∧ parts u !! n = Some part ∧ files !! temp_path part = Some d.

Lemma assemble_ok env sp u files written asked out :
  reads_ok env → assemble env sp u files written asked = Ok out →
  ∃ datas, Forall2 (part_data files u) asked datas ∧ out = written ++ concat datas.
Proof.
  intros Henv. revert written. induction asked as [|p asked IH]; intros written; cbn [assemble].
  - intros [= <-]. exists []. split; [constructor|]. by rewrite app_nil_r.
  - destruct p as [n|]; [|done]. cbn [ok_or mbind Res_bind]. destruct (parts u !! n) as [part|] eqn:Hp; [|done].
    cbn [ok_or mbind Res_bind]. destruct (files !! temp_path part) as [content|] eqn:Hf; [|done]. cbn [mbind option_bind].
    destruct (temp_open env (temp_path part) content) as [reads|] eqn:Hr; [|done]. cbn [ok_or mbind Res_bind].
    destruct (spool_body sp None written 0 reads) as [w [t|e|]] eqn:Hs; cbn [mbind Res_bind]; [|done..].
    apply spool_body_ok in Hs as (d & Hd & ->). rewrite (Henv _ _ _ _ Hr Hd). intros Hrest.
    destruct (IH _ Hrest) as (datas & Hall & ->). exists (content :: datas). split; [|by rewrite /= app_assoc].
    constructor; [by exists n, part|done].
Qed.

Lemma assemble_no_panic env sp u files written asked : assemble env sp u files written asked ≠ Panic.
Proof.
  revert written. induction asked as [|p asked IH]; intros written; cbn [assemble]; [done|].
  apply bind_no_panic; [by destruct p|]. intros n. apply bind_no_panic; [by destruct (parts u !! n)|]. intros part.
  apply bind_no_panic; [by destruct (_ ≫= _)|]. intros reads.
  pose proof (spool_body_no_panic sp None written 0 reads) as Hs. destruct (spool_body _ _ _ _ _) as [w r].
  apply bind_no_panic; [done|]. intros _. apply IH.
Qed.

(** The joined file has the parts and the metadata. *)
Lemma joined_file_ok env u files asked file md5 n :
  env_ok env → reads_ok env → joined_file env u files asked = Ok (file, md5, n) →
  ∃ datas md, Forall2 (part_data files u) asked datas ∧ md5 = md5_hex (concat datas) ∧
    metadata_bytes (<["etag" := md5]> (up_metadata u)) = Ok md ∧ n = zlen md mod 2 ^ 16 ∧
    serves (of_source file) (concat datas ++ md).
Proof.
  intros [Hsp _] Hr. rewrite /joined_file. destruct (tempfile env) as [sp|] eqn:Ht; [|done]. cbn [ok_or mbind Res_bind].
  destruct (assemble env sp u files [] asked) as [data|e|] eqn:Ha; [|done..].
  apply assemble_ok in Ha as (datas & Hall & ->); [|done]. cbn [app mbind Res_bind]. destruct (sp_flush _ _); [|done]. cbn [negb].
  destruct (metadata_bytes _) as [md|e|] eqn:Hmd; [|done..]. cbn [mbind Res_bind].
  destruct (spool_finish sp _ md) as [f|e|] eqn:Hf; [|done..]. cbn [mbind Res_bind]. intros [= <- <- <-].
  apply spool_finish_ok in Hf; [|by apply Hsp]. by exists datas, md.
Qed.

Lemma joined_file_no_panic env u files asked : joined_file env u files asked ≠ Panic.
Proof.
  rewrite /joined_file. apply bind_no_panic; [by destruct (tempfile env)|]. intros sp.
  apply bind_no_panic; [apply assemble_no_panic|]. intros data. destruct (sp_flush sp data); [|done]. cbn [negb].
  apply bind_no_panic; [apply metadata_bytes_no_panic|]. intros md.
  by apply bind_no_panic; [apply spool_finish_no_panic|].
Qed.

(** The store takes what joining the parts can give. *)
Definition join_fits (env : Env) (files : gmap string (list byte)) u (asked : list (option Z)) : Prop :=
  ∀ datas md, Forall2 (part_data files u) asked datas →
    metadata_bytes (<["etag" := md5_hex (concat datas)]> (up_metadata u)) = Ok md →
    data_ok (now env) (concat datas ++ md) ∧ zlen md < 2 ^ 16.

(** The upload's files are gone with it. *)
Definition upload_gone (id : string) u a a' : Prop :=
  uploads a' = delete id (uploads a) ∧ temp_files a' = filter (λ '(path, _), path ∉ part_paths u) (temp_files a).

Lemma serves_same a a' raw : serves_raw a raw → ad_backend a' = ad_backend a → serves_raw a' raw.
Proof. intros [Hb Hok Hr] Heq. by split; [rewrite Heq|..]. Qed.

Lemma complete_upload_run env bucket key id u asked a raw :
  serves_raw a raw → env_ok env → reads_ok env → key_ok (obj_key bucket key) → uploads a !! id = Some u →
  join_fits env (temp_files a) u asked →
  let '(a', res) := complete_upload env bucket key id u asked (with_uploads (delete id (uploads a)) a) in
  ∃ raw', serves_raw a' raw' ∧
  match res with
  | Ok tag => ∃ datas md, Forall2 (part_data (temp_files a) u) asked datas ∧ tag = md5_hex (concat datas) ∧
      metadata_bytes (<["etag" := tag]> (up_metadata u)) = Ok md ∧ upload_gone id u a a' ∧
      raw_view raw' = <[obj_key bucket key := (concat datas, md)]> (raw_view raw)
  | Err e => raw_view raw' = raw_view raw ∧
      (upload_gone id u a a' ∨ e = InternalError ∧ uploads a' = uploads a ∧ temp_files a' = temp_files a)
  | Panic => False
  end.
Proof.
  intros Hs He Hr Hk Hu Hfit. rewrite /complete_upload. set (a1 := with_uploads _ a).
  assert (serves_raw a1 raw) as Hs1 by by apply (serves_same a). case_decide as Hasked.
  { cbn. exists raw. split; [by apply (serves_same a)|]. split; [done|]. by left. }
  unfold sm_bind at 1, sm_get, sm_bind at 1, sm_on_err, sm_lift. pose proof (joined_file_no_panic env u (temp_files a1) asked) as Hnp.
  destruct (joined_file env u (temp_files a1) asked) as [[[file md5] n]|e|] eqn:Hj; [| |done].
  2: { cbn. exists raw. split; [by apply (serves_same a)|]. split; [done|]. by left. }
  apply joined_file_ok in Hj as (datas & md & Hall & -> & Hmd & -> & Hfile); [|done..].
  destruct (Hfit datas md Hall Hmd) as [Hd Hz]. destruct Hs1 as [Hb Hok Hraw]. pose proof (zlen_nonneg md). pose proof (zlen_nonneg (concat datas)).
  rewrite Z.mod_small; [|lia]. unfold sm_bind at 1, try_backend. rewrite Hb. rewrite /backend_put_from_file /dispatch.
  destruct (raw_put_with_meta_from_file (now env) (obj_key bucket key) (of_source file) (zlen md) raw) as [raw' r] eqn:Hput.
  destruct (raw_file_law raw (now env) _ _ _ (zlen md) raw' r Hok Hraw Hk Hfile Hd ltac:(lia) ltac:(rewrite zlen_app; lia) Hput)
    as (Hok' & Hraw' & Hres).
  destruct r as [[]|e|]; [| |by destruct Hres].
  - cbn. exists raw'. split; [by split|]. exists datas, md. split_and!; try done.
    rewrite Hres zlen_app Z.add_simpl_r. by rewrite (ztake_app_exact (zlen (concat datas))) // (zdrop_app_exact (zlen (concat datas))).
  - cbn. rewrite /insert_upload /discard_upload /= lookup_delete_eq /=. exists raw'. split; [by split|]. split; [done|]. right.
    split; [done|]. by rewrite insert_delete_eq insert_id.
Qed.

(** C12: Completing joins the parts.  A completed upload is stored under the
    key as the data of the parts asked for, in the order asked for, each the
    bytes its own digest was answered for; its entity tag is the digest of the
    whole and its headers are those the upload was created with.  The upload
    and its files are gone.  A call that fails stores nothing, and either the
    upload is gone with its files, or only the store failed and the upload is
    registered as before, to be completed again. *)
Theorem complete_joins_parts env bucket key id asked headers a raw u :
  serves_raw a raw → env_ok env → reads_ok env → key_ok (obj_key bucket key) → uploads_ok a → uploads a !! id = Some u →
  up_metadata u = build_s3_metadata headers → join_fits env (temp_files a) u asked →
  (∀ data, strings_ok (<["etag" := md5_hex data]> (build_s3_metadata headers))) →
  let '(a', res) := complete_multipart_upload env bucket key id (Some (Some asked)) a in
  ∃ raw', serves_raw a' raw' ∧
  match res with
  | Ok tag => asked ≠ [] ∧ upload_gone id u a a' ∧ ∃ datas md,
      Forall2 (λ p d, ∃ n part, p = Some n ∧ parts u !! n = Some part ∧ pm_etag part = md5_hex d) asked datas ∧
      tag = md5_hex (concat datas) ∧ meta_of md !! "etag" = Some tag ∧ get_headers (meta_of md) = answered_headers headers ∧
      raw_view raw' = <[obj_key bucket key := (concat datas, md)]> (raw_view raw)
  | Err e => raw_view raw' = raw_view raw ∧
      (upload_gone id u a a' ∨ e = InternalError ∧ uploads a' = uploads a ∧ temp_files a' = temp_files a)
  | Panic => False
  end.
Proof.
  intros Hs He Hr Hk Hok Hu Hmeta Hfit Hstr. pose proof (complete_upload_run env bucket key id u asked a raw Hs He Hr Hk Hu Hfit) as Hrun.
  rewrite /complete_multipart_upload. unfold sm_bind at 1, sm_lift, sm_bind at 1, sm_get. cbn [ok_or]. rewrite Hu.
  unfold sm_bind at 1, sm_modify. change (default [] (Some asked)) with asked.
  assert (asked = [] → is_ok (complete_upload env bucket key id u asked (with_uploads (delete id (uploads a)) a)).2 = false) as Hne
    by by intros ->.
  destruct (complete_upload _ _ _ _ _ _ _) as [a' [tag|e|]]; [|done..].
  destruct Hrun as (raw' & Hs' & datas & md & Hall & -> & Hmd & Hgone & Hv). exists raw'. split; [done|].
  split; [by intros He'%Hne|]. split; [done|]. exists datas, md.
  rewrite Hmeta in Hmd. pose proof (stored_headers_back headers _ md (Hstr (concat datas)) Hmd) as Hback. fold (meta_of md) in Hback.
  rewrite Hback headers_answered lookup_insert_eq. split_and!; try done.
  eapply Forall2_impl; [exact Hall|]. intros p d (n & part & -> & Hp & Hd). exists n, part. split_and!; [done..|].
  destruct (po_backed _ _ Hok id n part ltac:(by exists u)) as (_ & d' & Hd' & _ & ->). congruence.
Qed.
End completing.

(** ** Examples *)

(** An upload of two parts, the second one first. *)
Definition big_headers : ObjectHeaders := mkHeaders (Some "image/png") None None None None None None.

Definition upload_calls : list (Env * S3Call) :=
  [(good_env "t1", CreateUpload "b" "big" big_headers);
   (good_env "t2", UploadPart "upload-1" 2 (Some [Some (as_bytes "world")]));
   (good_env "t3", UploadPart "upload-1" 1 (Some [Some (as_bytes "hello "); Some (as_bytes "big ")]))].

Definition any_text (_ : string) : bool := true.

Definition run_calls (l : list (Env * S3Call)) (a : Adapter) : Adapter :=
  foldl (λ a '(env, call), fst (handle id any_text env call a)) a l.

Definition uploading : Adapter := run_calls upload_calls sample_adapter.

(** The file of each request is new, in order. *)
Fixpoint all_fresh (l : list (Env * S3Call)) (a : Adapter) : bool :=
  match l with
  | [] => true
  | (env, call) :: l' =>
    match named_temp env with Some (path, _) => bool_decide (temp_files a !! path = None) | None => true end &&
    all_fresh l' (fst (handle id any_text env call a))
  end.

Lemma history_app l a0 calls a :
  history id any_text a0 calls a → all_fresh l a = true → history id any_text a0 (calls ++ l.*2) (run_calls l a).
Proof.
  revert calls a. induction l as [|[env call] l IH]; intros calls a Hh; [by rewrite app_nil_r|].
  cbn [all_fresh]. intros [Hf Hl]%andb_true_iff. cbn [fmap list_fmap snd run_calls foldl].
  rewrite cons_middle app_assoc. apply IH; [|done]. constructor; [done|]. intros path sp Hp. rewrite Hp in Hf.
  by apply bool_decide_eq_true in Hf.
Qed.

Lemma uploading_history : history id any_text (build (ad_backend sample_adapter) {["b"]}) upload_calls.*2 uploading.
Proof. apply (history_app upload_calls _ []); [constructor|by vm_compute]. Qed.

Definition part_one : PartMeta := mkPart 10 (md5_hex (as_bytes "hello big ")) "t3".

Lemma uploading_part : has_part (uploads uploading) "upload-1" 1 part_one.
Proof.
  exists (mkUpload "b" "big" {["content-type" := "image/png"]}
    (<[1 := part_one]> {[2 := mkPart 5 (md5_hex (as_bytes "world")) "t2"]}) 50).
  by split; vm_compute.
Qed.

Lemma uploads_stay_backed_witness :
  has_part (uploads uploading) "upload-1" 1 part_one ∧ backed (temp_files uploading) part_one.
Proof.
  split; [exact uploading_part|].
  destruct (uploads_stay_backed id any_text (ad_backend sample_adapter) {["b"]} upload_calls.*2 uploading uploading_history)
    as (_ & Hall & _).
  exact (proj2 (Hall _ _ _ uploading_part)).
Defined.

Definition uploading_upload : Upload :=
  mkUpload "b" "big" {["content-type" := "image/png"]}
    (<[1 := part_one]> {[2 := mkPart 5 (md5_hex (as_bytes "world")) "t2"]}) 50.

Definition join_env : Env := good_env "t9".
Definition completed : Adapter := fst (complete_multipart_upload join_env "b" "big" "upload-1" (Some (Some [Some 1; Some 2])) uploading).

Lemma good_reads name : reads_ok (good_env name).
Proof. intros path content reads d [= <-]. cbn. by rewrite app_nil_r => -[= <-]. Qed.

Lemma big_strings data : strings_ok (<["etag" := md5_hex data]> (build_s3_metadata big_headers)).
Proof.
  apply map_Forall_insert_2; [by split; [vm_compute|apply sum_str]|]. by apply (bool_decide_eq_true_1 _); vm_compute.
Qed.

Lemma big_fits datas md :
  Forall2 (part_data (temp_files uploading) uploading_upload) [Some 1; Some 2] datas →
  metadata_bytes (<["etag" := md5_hex (concat datas)]> (up_metadata uploading_upload)) = Ok md →
  datas = [as_bytes "hello big "; as_bytes "world"].
Proof.
  intros Hall _. apply Forall2_cons_inv_l in Hall as (d1 & ds1 & (n1 & p1 & Hn1 & Hp1 & Hd1) & Hall & ->).
  apply Forall2_cons_inv_l in Hall as (d2 & ds2 & (n2 & p2 & Hn2 & Hp2 & Hd2) & Hall & ->).
  apply Forall2_nil_inv_l in Hall as ->. injection Hn1 as <-. injection Hn2 as <-.
  vm_compute in Hp1. injection Hp1 as <-. vm_compute in Hp2. injection Hp2 as <-.
  vm_compute in Hd1. injection Hd1 as <-. vm_compute in Hd2. by injection Hd2 as <-.
Qed.

Lemma uploading_ok : uploads_ok uploading.
Proof.
  rewrite /uploading /run_calls /upload_calls. cbn [foldl].
  repeat (apply handle_ok; [|by intros path sp [= <- <-]; vm_compute]). apply parts_ok_empty.
Qed.

Lemma uploading_backend : ad_backend uploading = ad_backend sample_adapter.
Proof. reflexivity. Qed.

Lemma complete_joins_parts_witness :
  snd (complete_multipart_upload join_env "b" "big" "upload-1" (Some (Some [Some 1; Some 2])) uploading) =
    Ok (md5_hex (as_bytes "hello big world")) ∧
  uploads completed !! "upload-1" = None ∧
  match ad_backend completed with
  | BackendRaw raw => ∃ d md, raw_view raw !! "b/big" = Some (d, md) ∧ md5_hex d = md5_hex (as_bytes "hello big world")
  | _ => False
  end.
Proof.
  assert (snd (complete_multipart_upload join_env "b" "big" "upload-1" (Some (Some [Some 1; Some 2])) uploading) =
    Ok (md5_hex (as_bytes "hello big world"))) as Hres by (by vm_compute).
  split; [exact Hres|].
  pose proof (complete_joins_parts join_env "b" "big" "upload-1" [Some 1; Some 2] big_headers uploading sample_raw uploading_upload) as Hc.
  destruct (complete_multipart_upload join_env "b" "big" "upload-1" (Some (Some [Some 1; Some 2])) uploading) as [a' res] eqn:Hrun.
  cbn [snd] in Hres. subst res. change completed with (fst (complete_multipart_upload join_env "b" "big" "upload-1" (Some (Some [Some 1; Some 2])) uploading)).
  rewrite Hrun. cbn [fst].
  destruct Hc as (raw' & Hs & _ & [Hgone _] & datas & md & Hall & Htag & _ & _ & Hv).
  - split; [exact uploading_backend|exact I|exact I].
  - apply good_env_ok.
  - apply good_reads.
  - exact I.
  - exact uploading_ok.
  - vm_compute. reflexivity.
  - vm_compute. reflexivity.
  - intros datas md Hall Hmd. split; [exact I|]. pose proof (big_fits datas md Hall Hmd) as ->.
    vm_compute in Hmd. injection Hmd as <-. by vm_compute.
  - exact big_strings.
  - split; [rewrite Hgone; vm_compute; reflexivity|]. rewrite (sr_backend _ _ Hs). exists (concat datas), md.
    split; [|rewrite <- Htag; reflexivity]. rewrite Hv. apply lookup_insert_eq.
Defined.

(** A part uploaded again leaves the file of the one it replaces behind, also
    when the upload is aborted. *)
Lemma replaced_part_stays :
  let again := (good_env "t4", UploadPart "upload-1" 1 (Some [Some (as_bytes "new")])) in
  let after := run_calls [again; (good_env "t5", AbortUpload "upload-1")] uploading in
  uploads after = ∅ ∧ temp_files after = {["t3" := as_bytes "hello big "]}.
Proof. vm_compute. split; reflexivity. Qed.

(** Completing with no parts, which is refused, loses the upload. *)
Lemma refused_completion_loses_upload :
  let '(a, r) := complete_multipart_upload join_env "b" "big" "upload-1" (Some (Some [])) uploading in
  r = Err (InvalidPart "multipart upload must contain at least one part") ∧ uploads a = ∅ ∧ temp_files a = ∅.
Proof. vm_compute. repeat split; reflexivity. Qed.

(** The bucket and the key of the upload are not compared with those of the
    completion: a bucket that does not exist gets the object. *)
Lemma completed_elsewhere :
  let '(a, r) := complete_multipart_upload join_env "nowhere" "../x" "upload-1" (Some (Some [Some 1])) uploading in
  is_ok r = true ∧ bool_decide ("nowhere" ∈ buckets a) = false ∧
  match ad_backend a with
  | BackendRaw raw => mo_data <$> (mem raw !! "nowhere/../x") = Some (as_bytes "hello big ")
  | _ => False
  end.
Proof. vm_compute. repeat split; reflexivity. Qed.
