(* ===== verification/S3RequestGuarantees.v ===== *)
(** * The guarantees of the S3 requests: what is refused, and deletes *)

From S2P Require Import Prelude.
From S2P Require Import Config.
From S2P Require Import Extent.
From S2P Require Import Concrete.
From S2P Require Import Index.
From S2P Require Import StoreTools.
From S2P Require Import StoreMeta.
From S2P Require Import Instances.
From S2P Require Import Tlv.
From S2P Require Import Catalog.
From S2P Require Import Backend.
From S2P Require Import Cluster.
From S2P Require Import ClusterExamples.
From S2P Require Import ShardMeta.
From S2P Require Import ClusterAdmin.
From S2P Require Import Text.
From S2P Require Import S3Keys.
From S2P Require Import S3Backend.
From S2P Require Import S3Adapter.
From S2P Require Import S3Listing.
From S2P Require Import S3Uploads.
From S2P Require Import S3Requests.
From S2P Require Import S3AdapterFacts.
From S2P Require Import S3Examples.

(** ** Refusals *)

Section refusals.
Context `{ObjectBackend, !GetRequest, Crc32c, HashMapOrder, ObjectPath, Chrono, Md5, DateText}.
Context (whole_seconds : Z → Z) (header_text : string → bool).
Implicit Types (a : Adapter).




(** A component that no key may have. *)
Definition forbidden (component : string) : Prop := component = ".." ∨ component = DIR_MARK.

Lemma validate_key_spec key :
  match validate_key key with
  | Ok _ => ∀ c, c ∈ split_on slash key → ¬ forbidden c
  | Err e => (∃ c, c ∈ split_on slash key ∧ forbidden c) ∧ ∃ msg, e = InvalidArgument msg
  | Panic => False
  end.
Proof.
  rewrite /validate_key. induction (split_on slash key) as [|c l IH]; cbn [try_fold]; [by intros c Hc; inversion Hc|].
  rewrite /validate_component. case_decide as H1'; [split; [exists c; split; [by left|by left]|by eexists]|].
  case_decide as H2'; [split; [exists c; split; [by left|by right]|by eexists]|].
  cbn [mbind Res_bind]. destruct (try_fold _ tt l) as [u|e|]; [| |done].
  - intros c' [->|Hc]%elem_of_cons; [by intros [?|?]|by apply IH].
  - destruct IH as [(c' & Hc & Hf) He]. split; [|done]. exists c'. split; [by right|done].
Qed.









End refusals.


Section refusing.
Context `{ObjectBackend, !GetRequest, Crc32c, HashMapOrder, ObjectPath, Chrono, Md5, DateText}.
Context (whole_seconds : Z → Z) (header_text : string → bool).







End refusing.

(** ** Deletes *)

Section deletes.
Context `{ServedStoreLaws, Crc32c, HashMapOrder, ObjectPath, Chrono, Md5, DateText}.
Implicit Types (a : Adapter) (raw : store).

Definition result_key (r : DeleteResult) : string := match r with Deleted k | Refused k | Failed k _ => k end.

(** The paths of the keys a batch reports as deleted. *)
Definition deleted_paths (bucket : string) (results : list DeleteResult) : list string :=
  omap (λ r, match r with Deleted k => Some (obj_key bucket k) | _ => None end) results.

Definition deleted_events (results : list DeleteResult) : list StoreEvent :=
  omap (λ r, match r with Deleted k => Some (EventDelete k) | _ => None end) results.

(** The objects without some paths. *)
Definition without {V} (paths : list string) (m : gmap string V) : gmap string V := filter (λ '(k, _), k ∉ paths) m.

Lemma without_nil {V} (m : gmap string V) : without [] m = m.
Proof. apply map_filter_id. intros k v _ Hk. by inversion Hk. Qed.

Lemma without_cons {V} path paths (m : gmap string V) : without (path :: paths) m = without paths (base.delete path m).
Proof.
  apply map_eq. intros k. apply option_eq. intros v. rewrite /without !map_lookup_filter_Some lookup_delete_Some not_elem_of_cons.
  split; [intros (? & ? & ?)|intros ((? & ?) & ?)]; split_and!; try done; congruence.
Qed.

(** What deletes do to the adapter: the store, and the events. *)
Definition deleted_to a raw (results : list DeleteResult) : Adapter :=
  with_events ((λ l, l ++ deleted_events results) <$> ad_events a) (with_backend (BackendRaw raw) a).

Lemma delete_one_run env bucket key a raw :
  serves_raw a raw → key_ok (obj_key bucket key) →
  ∃ raw' r, let result := match r with Some e => Failed key e | None => Deleted key end in
    delete_one env bucket key a = (deleted_to a raw' [result], Ok r) ∧ store_ok raw' ∧ is_raw raw' ∧
    raw_view raw' = without (deleted_paths bucket [result]) (raw_view raw).
Proof.
  intros [Hb Hok Hr] Hk. rewrite /delete_one. set (path := obj_key bucket key).
  rewrite (sm_bind_run _ _ _ a (inr tt)); [|by rewrite (try_backend_read _ a raw (Ok tt) Hb)].
  destruct (store_delete path raw) as [raw' res] eqn:Hdel.
  destruct (delete_law raw path raw' res Hok Hk Hdel) as [Hok' Hres].
  destruct (raw_delete_law raw path raw' res Hok Hr Hk Hdel) as [Hr' Hv].
  unfold sm_bind at 1, try_backend. rewrite Hb /obj_delete /obj_dispatch /dispatch Hdel.
  assert (∀ m : gmap string (list byte * list byte), without [path] m = base.delete path m) as Hone
    by (intros m; by rewrite without_cons without_nil).
  destruct res as [[]|e|]; cbn [map_err]; [| |done].
  - exists raw', None. by rewrite /= Hone.
  - destruct (os_not_found (inl e)) eqn:Hnf.
    + exists raw', None. split; [done|]. cbn. rewrite Hone Hv delete_id; [done|].
      cbn in Hnf. destruct Hres as [_ Hnone]. specialize (Hnone Hnf). rewrite raw_view_law // lookup_fmap in Hnone.
      rewrite -Hv. by destruct (raw_view raw' !! path).
    + exists raw', (Some (inl e)). cbn. rewrite without_nil /deleted_to /=. split_and!; try done.
      destruct a as [? ? ? ? ? ? ev ? ? ?]; cbn. do 2 f_equal. by destruct ev; cbn; rewrite ?app_nil_r.
Qed.

Lemma without_app {V} paths paths' (m : gmap string V) : without (paths ++ paths') m = without paths' (without paths m).
Proof.
  apply map_eq. intros k. apply option_eq. intros v. rewrite /without !map_lookup_filter_Some not_elem_of_app. tauto.
Qed.

Lemma deleted_to_app a raw raw' l l' : deleted_to (deleted_to a raw l) raw' l' = deleted_to a raw' (l ++ l').
Proof.
  rewrite /deleted_to /deleted_events omap_app. destruct a as [? ? ? ? ? ? ev ? ? ?]; cbn. by destruct ev; cbn; rewrite ?app_assoc.
Qed.

Lemma deleted_to_nil a raw : ad_backend a = BackendRaw raw → deleted_to a raw [] = a.
Proof.
  rewrite /deleted_to. destruct a as [b ? ? ? ? ? ev ? ? ?]; cbn. intros ->. f_equal. by destruct ev; cbn; rewrite ?app_nil_r.
Qed.

Lemma serves_deleted a raw raw' results : store_ok raw' → is_raw raw' → serves_raw (deleted_to a raw' results) raw'.
Proof. by split. Qed.

(** What a batch answers for a key, as far as its form decides it. *)
Definition fits_key (key : string) (r : DeleteResult) : Prop :=
  result_key r = key ∧ (r = Refused key ↔ ∃ c, c ∈ split_on slash key ∧ forbidden c).

Lemma delete_each_run env bucket keys a raw :
  serves_raw a raw → Forall (λ key, key_ok (obj_key bucket key)) keys →
  ∃ raw' results, delete_each env bucket keys a = (deleted_to a raw' results, Ok results) ∧ store_ok raw' ∧ is_raw raw' ∧
    Forall2 fits_key keys results ∧ raw_view raw' = without (deleted_paths bucket results) (raw_view raw).
Proof.
  intros Hs Hks. revert a raw Hs. induction Hks as [|key keys Hk _ IH]; intros a raw Hs.
  { exists raw, []. destruct Hs as [Hb Hok Hr]. rewrite deleted_to_nil //. split_and!; try done. by rewrite without_nil. }
  cbn [delete_each].
  assert (∃ raw1 r, (if is_ok (validate_key key)
     then r <- delete_one env bucket key ;; sm_ret match r with Some e => Failed key e | None => Deleted key end
     else sm_ret (Refused key)) a = (deleted_to a raw1 [r], Ok r) ∧ store_ok raw1 ∧ is_raw raw1 ∧ fits_key key r ∧
     raw_view raw1 = without (deleted_paths bucket [r]) (raw_view raw)) as (raw1 & r & Hrun & Hok1 & Hr1 & Hfit & Hv1).
  { pose proof (validate_key_spec key) as Hval. destruct (validate_key key) as [[]|e|]; cbn [is_ok]; [| |done].
    - destruct (delete_one_run env bucket key a raw Hs Hk) as (raw1 & r & Hrun & Hok1 & Hr1 & Hv1).
      exists raw1, match r with Some e => Failed key e | None => Deleted key end.
      rewrite (sm_bind_run _ _ _ _ _ Hrun). split_and!; try done. split; [by destruct r|]. split; [by destruct r|].
      intros (c & Hc & Hf). by destruct (Hval c Hc).
    - exists raw, (Refused key). destruct Hs as [Hb Hok Hr]. split_and!; try done.
      + rewrite /sm_ret /deleted_to /=. destruct a as [b ? ? ? ? ? ev ? ? ?]; cbn in *. subst b. do 2 f_equal.
        by destruct ev; cbn; rewrite ?app_nil_r.
      + split; [done|]. split; [intros _; apply Hval|done].
      + by rewrite without_nil. }
  rewrite (sm_bind_run _ _ _ _ _ Hrun). destruct (IH _ raw1 (serves_deleted a raw raw1 [r] Hok1 Hr1)) as (raw' & results & Hrest & Hok' & Hr' & Hall & Hv').
  exists raw', (r :: results). rewrite (sm_bind_run _ _ _ _ _ Hrest) deleted_to_app. split_and!; try done; [by constructor|].
  rewrite Hv' Hv1 -without_app -omap_app. done.
Qed.

(** C18: A batch delete is exact.  It answers one result for each key asked, in
    order: a key is refused exactly when a component of it is forbidden, and
    otherwise deleted or failed.  Afterwards the store is what it was without
    the deleted keys, whether they were there or not; nothing else has
    changed, and one event is sent for each deleted key.  A batch of more than
    a thousand keys, or of an unknown bucket, is refused whole. *)
Theorem batch_delete_exact env bucket keys a raw :
  serves_raw a raw → Forall (λ key, key_ok (obj_key bucket key)) keys →
  let '(a', res) := delete_objects env bucket keys a in
  match res with
  | Ok results => (bucket ∈ buckets a ∧ zlen keys <= 1000) ∧
      ∃ raw', serves_raw a' raw' ∧ Forall2 fits_key keys results ∧
        raw_view raw' = without (deleted_paths bucket results) (raw_view raw) ∧
        a' = with_events ((λ l, l ++ deleted_events results) <$> ad_events a) (with_backend (BackendRaw raw') a)
  | Err e => a' = a ∧ (e = NoSuchBucket ∧ bucket ∉ buckets a ∨ 1000 < zlen keys ∧ ∃ msg, e = MalformedXML msg)
  | Panic => False
  end.
Proof.
  intros Hs Hks. rewrite /delete_objects. destruct (decide (bucket ∈ buckets a)) as [Hin|Hout].
  - rewrite (sm_bind_run _ _ _ _ _ (ensure_bucket_known _ _ Hin)). destruct (Z.ltb_spec 1000 (zlen keys)) as [Hlt|Hle].
    + split; [done|]. right. split; [done|]. by eexists.
    + destruct (delete_each_run env bucket keys a raw Hs Hks) as (raw' & results & -> & Hok & Hr & Hall & Hv).
      split; [done|]. exists raw'. split_and!; [by split|done..].
  - unfold sm_bind. rewrite (ensure_bucket_unknown _ _ Hout). split; [done|]. left. done.
Qed.
End deletes.

(** ** Examples *)



Definition batch : list string := ["z"; "missing"; "../z"; "dirt"].

Lemma batch_delete_exact_witness :
  snd (delete_objects (good_env "t") "b" batch sample_adapter) =
    Ok [Deleted "z"; Deleted "missing"; Refused "../z"; Deleted "dirt"] ∧
  match ad_backend (fst (delete_objects (good_env "t") "b" batch sample_adapter)) with
  | BackendRaw raw => raw_view raw = without ["b/z"; "b/missing"; "b/dirt"] (raw_view sample_raw)
  | _ => False
  end.
Proof.
  assert (snd (delete_objects (good_env "t") "b" batch sample_adapter) =
    Ok [Deleted "z"; Deleted "missing"; Refused "../z"; Deleted "dirt"]) as Hres by reflexivity.
  split; [exact Hres|].
  pose proof (batch_delete_exact (good_env "t") "b" batch sample_adapter sample_raw) as Hb.
  destruct (delete_objects (good_env "t") "b" batch sample_adapter) as [a' res]. cbn [fst snd] in *. subst res.
  destruct Hb as (_ & raw' & Hs & _ & Hv & _).
  - by split.
  - repeat constructor.
  - rewrite (sr_backend _ _ Hs). exact Hv.
Defined.

(** A batch leaves the cached object count of the bucket, which a single
    delete drops: the bucket is reported with its old count. *)
Lemma batch_keeps_stale_count :
  let a1 := fst (head_bucket (good_env "t") "b" sample_adapter) in
  let a2 := fst (delete_objects (good_env "t") "b" batch a1) in
  let a3 := fst (delete_object (good_env "t") "b" "a" a2) in
  snd (head_bucket (good_env "t") "b" sample_adapter) = Ok (6%nat, 9) ∧
  snd (head_bucket (good_env "t") "b" a2) = Ok (6%nat, 9) ∧ snd (head_bucket (good_env "t") "b" a3) = Ok (3%nat, 5).
Proof. vm_compute. repeat split; reflexivity. Qed.
